(* ===== verification/_CoqProject ===== *)
-Q . S2P
Prelude.v
Float64.v
PatchSet.v
Errors.v
Api.v
Drain.v
Taints.v
Framework.v
SnapshotSpec.v
BasicStore.v
DeltaStore.v
DeltaStoreProofs.v
SnapshotTheorems.v
Backoff.v
Budgets.v
Expiring.v
DeletionTracker.v
Actuation.v
Balancing.v
Estimator.v
ClusterState.v
LoopRepairs.v
Quotas.v
Unneeded.v
Equivalence.v
ClusterSnapshot.v
Pdb.v
Drainability.v
Hinting.v
PodLists.v
Removal.v
NodeProcessors.v
NodeGroupConfig.v
Utilization.v
Eligibility.v
Planner.v
Expanders.v
ScaleUpExecutor.v
ScaleUpPods.v
ScaleUpGroups.v
Orchestrator.v
OrchestratorProofs.v
Dra.v
DraProofs.v
CsiSnapshot.v
Predicate.v
PredicateProofs.v
Eviction.v
EvictionProofs.v
MainLoop.v
MainLoopProofs.v
Actuator.v
NodeDeletion.v
ProvReq.v
ProvReqProofs.v
ProvReqScaleUp.v
ProvReqScaleUpProofs.v
Similar.v
CapacityBuffer.v
BufferTranslation.v
BufferQuotas.v
BufferController.v
