(* ===== verification/Prelude.v ===== *)
(** * A verified model of the Kubernetes cluster autoscaler

    The cluster autoscaler (Go, src/pkg) adds nodes to a Kubernetes cluster
    when pods do not fit and removes nodes that are not needed. One loop
    observes the cluster, simulates scheduling on a snapshot of it, estimates
    how many nodes of which group would help, balances the increase between
    similar groups, and plans and carries out deletions. This library models
    that loop, from [RunOnce] down to the components it calls, as executable
    functions translated from the source, and proves what makes them correct.

    ** The parts and their files

    - This file: the result of a Go function that may fail, the loops of the
      source ([fold_err], [loop_break], [foldl]), the iteration over a Go map
      ([GoRange]: any order, so every theorem about a loop over a map holds
      for every order Go may choose), 64-bit wrap-around, and the lemmas on
      lists and maps the components share. Errors.v: the typed errors of the
      autoscaler (utils/errors). Float64.v: Go's float64, with the Standard
      Library's executable IEEE 754 arithmetic.

    - The objects. Api.v: nodes, taints, conditions and the answers of a node
      group (cloudprovider/cloud_provider.go). Taints.v: the taints the
      autoscaler sets and reads (utils/taints/taints.go), against an API
      server that may answer conflicts and errors. Drain.v: pods and the tests
      on them (utils/drain, utils/pod, utils/tpu).
      Framework.v: node and pod infos (simulator/framework/infos.go); the
      scheduler's NodeInfo is third-party code and is the class
      [SchedNodeInfo] of its documented behaviour.

    - The cluster snapshot, on which every simulation runs.
      PatchSet.v: patches and patch sets (simulator/common/patch.go,
      patchset.go), a stack of map deltas with a read cache.
      SnapshotSpec.v: the contract of a store
      (simulator/clustersnapshot/clustersnapshot.go) as an abstract machine, a
      stack of node maps, the class [SnapshotStore] a store implements, and
      [WithForkedSnapshot], a client proved against the class alone.
      BasicStore.v and DeltaStore.v: the two stores (store/basic.go,
      store/delta.go). The delta store shares node infos between layers by
      pointer and copies on the first write; its node infos therefore live in
      a heap. DeltaStoreProofs.v: its invariant and its instance of the class.
      SnapshotTheorems.v: what the stores guarantee.
      Dra.v, DraProofs.v: the snapshot of dynamic resources
      (simulator/dynamicresources/snapshot), claims in a heap on patch sets.
      CsiSnapshot.v: CSI nodes (simulator/csi/snapshot). Predicate.v,
      PredicateProofs.v: the predicate snapshot over them
      (clustersnapshot/predicate), with the search for a node that fits; the
      scheduler's plug-ins and ParallelizeUntil are arguments.
      ClusterSnapshot.v: the interface that the simulations below use, as the
      class [ClusterSnapshot] with its promises, and a reference
      implementation of it.

    - Simulations. Hinting.v: scheduling of a list of pods with hints
      (simulator/scheduling). Pdb.v: disruption budgets (core/scaledown/pdb).
      Drainability.v: the rules that decide which pods move
      (simulator/drainability). Removal.v: the simulation of a removal
      (simulator/cluster.go, drain.go).

    - Scale-up. PodLists.v: which pods are pending and which of them still
      need a node (core/podlistprocessor, utils/kubernetes/listers.go).
      Equivalence.v: pod equivalence groups
      (core/scaleup/equivalence/groups.go) and the comparison of pod specs
      (utils/utils.go), over a store of container arrays because the
      comparison writes through them. Estimator.v: the bin-packing estimator
      with its limiter and thresholds (estimator/), over the class
      [EstimationSnapshot]. Similar.v: which groups are similar, and
      Balancing.v: the split of an increase between them
      (processors/nodegroupset); sort.Slice is the class [SortSlice], any
      sort. Expanders.v: the choice of an option (expander/). Quotas.v:
      resource quotas (resourcequotas/), used by scale-up and scale-down.
      Backoff.v: exponential backoff of failed groups
      (utils/backoff/exponential_backoff.go). ScaleUpExecutor.v, ScaleUpPods.v,
      ScaleUpGroups.v, Orchestrator.v and OrchestratorProofs.v: the
      orchestrator (core/scaleup/orchestrator), from the skipped groups over
      the options to the calls of the cloud provider.
      ProvReq.v, ProvReqProofs.v: provisioning requests, their conditions, the
      injection of their pods, their expiration (provisioningrequest/,
      processors/provreq); ProvReqScaleUp.v, ProvReqScaleUpProofs.v: their two
      classes and the orchestrators over them.

    - The view of the cluster. ClusterState.v: the cluster state registry
      (clusterstate/clusterstate.go) with the readiness of nodes
      (utils/kubernetes/ready.go); the answers of the cloud provider during one
      call are the record [ClusterEnv]. NodeGroupConfig.v: the options of a
      group (processors/nodegroupconfig).

    - Scale-down. NodeProcessors.v: candidates and the filters of the set to
      delete (processors/nodes). Utilization.v and Eligibility.v: utilization
      (simulator/utilization) and the nodes worth a simulation
      (core/scaledown/eligibility). Unneeded.v: the unneeded and the
      unremovable nodes (core/scaledown/unneeded, unremovable), which asks the
      quota tracker. Planner.v: the planner (core/scaledown/planner).
      Budgets.v: how many nodes one loop may start deleting
      (core/scaledown/budgets). Expiring.v and DeletionTracker.v: the deletions
      in progress (utils/expiring/list.go, core/scaledown/deletiontracker).
      Actuator.v: the synchronous part of a deletion, with the measurement of
      the taint latency; NodeDeletion.v: the goroutine of a group, with its
      fresh snapshot; Eviction.v, EvictionProofs.v: the drain of a node by
      priorities and the soft taints; Actuation.v: the group deletion
      scheduler, the deletion batcher and the goroutines, as a step relation
      over their shared state (all of core/scaledown/actuation); every
      mutex-protected section is one step, so the relation has every
      interleaving.

    - The loop. LoopRepairs.v: the removal of nodes that never registered and
      the correction of sizes; MainLoop.v, MainLoopProofs.v: [RunOnce] with
      everything it calls (core/static_autoscaler.go), over the interfaces of
      its collaborators.

    - Capacity buffers, spare capacity kept as fake pods.
      CapacityBuffer.v: the objects, their statuses and conditions, the
      filters, the client and the templates (src/pkg/capacitybuffer: common,
      filters, client, fakepods). BufferTranslation.v: how many pods a buffer
      asks for, and the two translators (translators). BufferQuotas.v: the
      allocation of resource quotas to the buffers of a namespace
      (controller/resourcequotas.go). BufferController.v: the controller
      (controller/controller.go, updater) and the processors that put the fake
      pods into the main loop and take them out of its status
      (src/pkg/processors/capacitybuffer).

    ** Correspondence

    A Go struct is a record with the fields in use, an enumeration an inductive
    type, a method a function from the receiver's state to the new state and
    its results, with the name of the method; where two packages use one name
    the package is a prefix (delta_Fork, unremovable_Update). A loop body that
    needs a name of its own is [..._step]. A pair (T, error) is [result], and a
    loop that returns at the first error is [fold_err]. Times are nanoseconds
    on an unbounded line and are read where the source reads the clock, as
    arguments or from an environment that only moves forward; durations and
    resource quantities that the code adds or multiplies are 64-bit
    ([wrap64]). Objects that the code mutates behind shared pointers live in a
    heap or a store. Log lines, events and metrics are left out. Code that is
    not under src/ (Kubernetes API machinery, the scheduler, quantities) is a
    parameter, with the documented behaviour in use as the laws of a class or
    as named hypotheses, and each theorem that has one is applied to a concrete
    instance in its witness.

    ** What is proved

    - The delta store and the reference store answer every sequence of
      operations alike; a revert undoes a fork and a commit keeps it; patch
      sets refine a stack of maps and their caches are never stale; the
      snapshot of dynamic resources, which writes shared claims in place,
      refines a stack of values; whatever the predicate snapshot runs between
      a fork and its revert is undone in every layer, and its search answers
      the first node that fits.
    - Scheduling simulations place what they report on nodes that fit; a
      removal is simulated exactly, disruption budgets are never overdrawn,
      and the rules block exactly the pods that they should.
    - An iteration of the loop always returns, in its phases and with one
      report; a deletion starts only in a healthy, repaired iteration that is
      out of cooldown; unregistered nodes are removed and sizes corrected
      within the minima.
    - A scale-up stays within the sizes of the groups and the limits of nodes
      and quotas, answers with what it did, and registers each executed
      increase or failure exactly once. Quotas are never crossed by what a
      tracker grants, and its answer is the largest that fits; the estimate
      schedules pods it was given on nodes it was permitted; balancing
      terminates, adds what was asked up to the capacity, and is even;
      similarity of groups is mutual and exact; equivalence groups partition
      the pods; expanders keep the best options; backoff durations are bounded
      and double.
    - A plan removes nodes whose pods all fit elsewhere at the same time, in
      which none is a destination of another, within the quotas and the
      minimal sizes. CropNodes stays within its budgets but for one atomic
      group. A started deletion has its nodes marked and within the budgets; a
      drain follows the priorities and always returns. Every node being
      deleted is held by exactly one goroutine, queue, bucket or batch in
      every reachable state of the actuation.
    - Over every history the cluster state registry keeps its invariant; scale
      requests are kept, finished or reverted exactly once and a timed-out
      group is backed off; readiness is a partition.
    - Provisioning requests are marked as provisioned only when they fit
      together, their pods are injected in turn with a bounded backoff, and
      bookings expire within the limit of updates.
    - The replicas that the controller writes into the statuses of the buffers
      of a namespace stay within what its quotas have left; the number of pods
      of a buffer is the one its replicas, percentage and limits call for as
      long as 32 bits hold it; and the fake pods of the buffers are taken out
      of the status of the loop again.

    ** Bounds and fuel

    Recursion is structural on lists except where the source loops until
    something happens; there it has fuel, and a theorem says that the fuel is
    enough. The balancing loop has the number of new nodes plus the number of
    groups: every iteration adds a node or retires a group ([balance_total]).
    An update of taints has nine rounds, which its total deadline admits at
    most ([taint_updates_answer]). The retries of an eviction, the waits of a
    drain and the wait for taints to be seen have as many rounds as their
    timeouts divided by their sleeps, since each sleep moves the clock
    ([drain_by_priority], [latency_exact]); a salvo of scale-ups has a round
    for each pending pod and one more, since each round must take one
    ([iteration_exact]).

    ** What is not modelled

    Cloud providers, the Kubernetes API server and its informers are I/O behind
    interfaces: their answers are arguments. The scheduler's plug-ins, resource
    quantities, label selectors and deep copies are third-party code. The
    status report, metrics, events and the debugging snapshot report the
    modelled state and are not read back; flags and the wiring of the
    components at start-up construct what the models take as arguments.
    Template node infos built from cloud data and the sanitizing of copied
    nodes and pods are copies of API objects. Custom-resource processors, the
    injection of pods of controllers and the orderings of scale-down
    candidates are pluggable policies that the models take as arguments. *)
From stdpp Require Import prelude gmap strings list numbers fin_maps sorting.

Declare Scope ca_scope.
Delimit Scope ca_scope with ca.

(** Go's [len(l)], an integer. *)
Notation "⟪ l ⟫" := (Z.of_nat (length l)) (at level 0, l at level 200) : ca_scope.

(** ** Go's error returns *)

(** The result of a Go function of type [(A, error)]: a value or an error. *)
Inductive result (E A : Type) : Type :=
| Ok (a : A)
| Err (e : E).
Arguments Ok {E A} a.
Arguments Err {E A} e.

Definition is_ok {E A} (r : result E A) : bool :=
  match r with Ok _ => true | Err _ => false end.

(** [fold_err f l s] is the Go loop
    [for _, x := range l { if err := f(x); err != nil { return err } }]
    over a mutated state [s]: it stops at the first error, keeping the state
    the failing call left behind. *)
Fixpoint fold_err {E S A} (f : S → A → S * option E) (l : list A) (s : S) : S * option E :=
  match l with
  | [] => (s, None)
  | x :: l' => match f s x with
               | (s', None) => fold_err f l' s'
               | (s', Some e) => (s', Some e)
               end
  end.

(** An invariant of such a loop, on the error path too. *)
Lemma fold_err_inv {E S A} (P : S → Prop) (f : S → A → S * option E) (l : list A) (s : S) :
  P s → (∀ s x, x ∈ l → P s → P (f s x).1) → P (fold_err f l s).1.
Proof.
  revert s. induction l as [|x l IH]; intros s Hs Hf; simpl; [done|].
  pose proof (Hf s x ltac:(left) Hs) as H1. destruct (f s x) as [s' [e|]]; [done|].
  apply IH; [done|]. intros; apply Hf; [by right|done].
Qed.

(** A loop none of whose calls fails is a plain left fold. *)
Lemma fold_err_ok {E S A} (P : S → Prop) (f : S → A → S * option E) (g : S → A → S)
    (l : list A) (s : S) :
  P s →
  (∀ l1 x l2, l = l1 ++ x :: l2 → P (foldl g s l1) →
     f (foldl g s l1) x = (g (foldl g s l1) x, None) ∧ P (g (foldl g s l1) x)) →
  fold_err f l s = (foldl g s l, None) ∧ P (foldl g s l).
Proof.
  revert s. induction l as [|x l IH]; intros s Hs Hf; [done|]. simpl.
  destruct (Hf [] x l eq_refl Hs) as [Hfx Hg]. simpl in Hfx, Hg. rewrite Hfx.
  apply IH; [done|].
  intros l1 y l2 -> HP. apply (Hf (x :: l1) y l2); [done|apply HP].
Qed.

Lemma foldl_ext' {A S} (f g : S → A → S) (l : list A) (s t : S) :
  (∀ s x, f s x = g s x) → s = t → foldl f s l = foldl g t l.
Proof.
  intros Hfg <-. revert s. induction l as [|x l IH]; intros s; [done|]. simpl.
  by rewrite Hfg, IH.
Qed.

(** ** Go maps *)

(** Go iterates over a map in an unspecified order: [go_range m] is the
    sequence of entries one [for k, v := range m] visits. *)
Class GoRange : Type := {
  go_range : ∀ {K V : Type} `{Countable K}, gmap K V → list (K * V);
  go_range_perm : ∀ {K V : Type} `{Countable K} (m : gmap K V),
    go_range m ≡ₚ map_to_list m
}.

(** The order in which stdpp enumerates a map is one admissible order. *)
#[export] Instance go_range_stdpp : GoRange | 100 := {
  go_range _ _ _ _ m := map_to_list m;
  go_range_perm _ _ _ _ _ := Permutation_refl _
}.

(** The order that reverses it is another one. *)
Definition go_range_rev : GoRange := {|
  go_range _ _ _ _ m := reverse (map_to_list m);
  go_range_perm _ _ _ _ m := reverse_Permutation (map_to_list m)
|}.

Section go_range.
Context `{GR : GoRange} {K V : Type} `{Countable K}.
Implicit Types m : gmap K V.

Lemma elem_of_go_range m k v : (k, v) ∈ go_range m ↔ m !! k = Some v.
Proof. rewrite go_range_perm. apply elem_of_map_to_list. Qed.

Lemma NoDup_go_range_fst m : NoDup (go_range m).*1.
Proof. rewrite go_range_perm. apply NoDup_fst_map_to_list. Qed.

Lemma length_go_range m : length (go_range m) = size m.
Proof. by rewrite go_range_perm, length_map_to_list. Qed.

Lemma list_to_map_go_range m : list_to_map (go_range m) = m.
Proof.
  rewrite <- (list_to_map_to_list m) at 2.
  apply list_to_map_proper; [apply NoDup_go_range_fst | apply go_range_perm].
Qed.

(** A loop over a map that updates the entry of each visited key in another
    map: the order of the visit does not matter. *)
Lemma lookup_foldl_partial_alter {W} (g : K → V → option W → option W)
    (l : list (K * V)) (acc : gmap K W) i :
  NoDup l.*1 →
  foldl (λ acc kv, partial_alter (g kv.1 kv.2) kv.1 acc) acc l !! i =
  match (list_to_map l : gmap K V) !! i with
  | Some v => g i v (acc !! i)
  | None => acc !! i
  end.
Proof.
  revert acc. induction l as [|[k v] l IH]; intros acc; csimpl.
  { intros _. by rewrite lookup_empty. }
  rewrite NoDup_cons. intros [Hk Hnd]. rewrite IH by done.
  destruct (decide (k = i)) as [->|Hne].
  - rewrite lookup_insert_eq, (not_elem_of_list_to_map_1 l i) by done.
    by rewrite lookup_partial_alter_eq.
  - rewrite lookup_insert_ne by done. by rewrite lookup_partial_alter_ne.
Qed.

Lemma lookup_range_partial_alter {W} (g : K → V → option W → option W) m (acc : gmap K W) i :
  foldl (λ acc kv, partial_alter (g kv.1 kv.2) kv.1 acc) acc (go_range m) !! i =
  match m !! i with
  | Some v => g i v (acc !! i)
  | None => acc !! i
  end.
Proof.
  rewrite lookup_foldl_partial_alter by apply NoDup_go_range_fst.
  by rewrite list_to_map_go_range.
Qed.

(** [for k, v := range m { acc[k] = v }]. *)
Lemma lookup_range_insert m (acc : gmap K V) i :
  foldl (λ acc kv, <[kv.1 := kv.2]> acc) acc (go_range m) !! i =
  match m !! i with Some v => Some v | None => acc !! i end.
Proof. apply (lookup_range_partial_alter (λ _ v _, Some v)). Qed.

Lemma lookup_range_insert_with {W} (f : V → W) m (acc : gmap K W) i :
  foldl (λ acc kv, <[kv.1 := f kv.2]> acc) acc (go_range m) !! i =
  match m !! i with Some v => Some (f v) | None => acc !! i end.
Proof. apply (lookup_range_partial_alter (λ _ v _, Some (f v))). Qed.

(** [for k := range m { delete(acc, k) }]. *)
Lemma lookup_range_delete {W} m (acc : gmap K W) i :
  foldl (λ acc kv, delete kv.1 acc) acc (go_range m) !! i =
  match m !! i with Some _ => None | None => acc !! i end.
Proof. apply (lookup_range_partial_alter (λ _ _ _, None)). Qed.

(** [for k, v := range m { if P(k, v) { delete(acc, k) } }]. *)
Lemma lookup_range_delete_if {W} (P : K → V → bool) m (acc : gmap K W) i :
  foldl (λ acc kv, if P kv.1 kv.2 then delete kv.1 acc else acc) acc (go_range m) !! i =
  match m !! i with
  | Some v => if P i v then None else acc !! i
  | None => acc !! i
  end.
Proof.
  pose proof (lookup_range_partial_alter (λ k v (o : option W), if P k v then None else o) m acc i)
    as <-.
  f_equal. apply foldl_ext'; [|done]. intros a [k v]. simpl. destruct (P k v); [done|].
  apply map_eq. intros j. rewrite lookup_partial_alter. case_decide; by subst.
Qed.
End go_range.

Create HintDb ca discriminated.
#[export] Hint Resolve NoDup_go_range_fst : ca.

(** ** Loops over lists *)

(** An invariant of a [for range] loop over a slice. *)
Lemma foldl_inv {A S} (P : S → Prop) (f : S → A → S) (l : list A) (s : S) :
  P s → (∀ s x, x ∈ l → P s → P (f s x)) → P (foldl f s l).
Proof.
  revert s. induction l as [|x l IH]; intros s Hs Hf; [done|].
  apply IH; [apply Hf; [left|done]|]. intros; apply Hf; [by right|done].
Qed.

Lemma Forall_elem {A} {P : A → Prop} {l : list A} : Forall P l → ∀ x, x ∈ l → P x.
Proof. apply Forall_forall. Qed.

(** [for _, x := range l { ... break ... }]: [f] answers [None] for [break]. *)
Fixpoint loop_break {A S} (f : S → A → option S) (l : list A) (s : S) : S :=
  match l with
  | [] => s
  | x :: l' => match f s x with
               | None => s
               | Some s' => loop_break f l' s'
               end
  end.

Lemma loop_break_inv {A S} (P : S → Prop) (f : S → A → option S) (l : list A) (s : S) :
  P s → (∀ s s' x, x ∈ l → P s → f s x = Some s' → P s') → P (loop_break f l s).
Proof.
  revert s. induction l as [|x l IH]; intros s Hs Hf; [done|]. simpl.
  destruct (f s x) as [s'|] eqn:Hx; [|done].
  apply IH; [by eapply Hf; [left|..]|]. intros; eapply Hf; [by right|done..].
Qed.

(** The same with the part of the slice already visited in the invariant. *)
Lemma loop_break_inv_prefix {A S} (P : list A → S → Prop) (f : S → A → option S)
    (l : list A) (s : S) :
  P [] s →
  (∀ l1 x l2 s s', l = l1 ++ x :: l2 → P l1 s → f s x = Some s' → P (l1 ++ [x]) s') →
  ∃ l1, l1 `prefix_of` l ∧ P l1 (loop_break f l s).
Proof.
  intros Hs Hf.
  assert (∀ l2 l1 s, l = l1 ++ l2 → P l1 s → ∃ l3, l3 `prefix_of` l ∧ P l3 (loop_break f l2 s))
    as Hgen; [|by apply (Hgen l [])].
  clear s Hs. induction l2 as [|x l2 IH]; intros l1 s -> HP; simpl.
  { exists l1. by rewrite app_nil_r. }
  destruct (f s x) as [s'|] eqn:Hx.
  - apply (IH (l1 ++ [x])); [by rewrite <- app_assoc|]. by eapply Hf.
  - exists l1. split; [by apply prefix_app_r|done].
Qed.

(** A loop that appends [f x] for every element builds the mapped list. *)
Lemma foldl_snoc_fmap {A B} (f : A → B) (l : list A) (acc : list B) :
  foldl (λ acc x, acc ++ [f x]) acc l = acc ++ (f <$> l).
Proof.
  revert acc. induction l as [|x l IH]; intros acc; simpl; [by rewrite app_nil_r|].
  by rewrite IH, <- app_assoc.
Qed.

(** [for _, x := range l { if p(x) { acc = append(acc, x) } }]. *)
Lemma foldl_keep {A} (p : A → bool) (l : list A) :
  foldl (λ acc r, if p r then acc ++ [r] else acc) [] l = filter (λ r, p r = true) l.
Proof.
  induction l as [|x l IH] using rev_ind; [done|].
  rewrite foldl_app, filter_app, filter_cons, filter_nil, IH. simpl.
  destruct (p x); [by rewrite decide_True|]. rewrite decide_False by done. by rewrite app_nil_r.
Qed.

(** Slices used as stacks: [s[len(s)-1]] after an append. *)
Lemma snoc_length_pred {A} (l : list A) x : length (l ++ [x]) - 1 = length l.
Proof. rewrite length_app. simpl. lia. Qed.

Lemma app_not_nil_r {A} (l : list A) x : l ++ [x] ≠ [].
Proof. by destruct l. Qed.

Lemma length_pos_iff_ne_nil {A} (l : list A) : 0 < length l ↔ l ≠ [].
Proof. destruct l; simpl; split; [lia|done|done|lia]. Qed.

(** [for _, v := range m { if P(v) { l = append(l, v) } }]. *)
Lemma foldl_snoc_filter_snd {K V} (P : V → Prop) `{∀ v, Decision (P v)} (l : list (K * V)) :
  foldl (λ acc kv, if decide (P kv.2) then acc ++ [kv.2] else acc) [] l = filter P l.*2.
Proof.
  assert (∀ acc, foldl (λ acc kv, if decide (P kv.2) then acc ++ [kv.2] else acc) acc l =
    acc ++ filter P l.*2) as Hl; [|by rewrite Hl].
  induction l as [|[k v] l IH]; intros acc; csimpl; [by rewrite app_nil_r|].
  rewrite filter_cons, IH. case_decide; [by rewrite <- app_assoc|done].
Qed.

Lemma NoDup_omap {A B} (f : A → option B) (l : list A) :
  (∀ x y b, x ∈ l → y ∈ l → f x = Some b → f y = Some b → x = y) →
  NoDup l → NoDup (omap f l).
Proof.
  intros Hf. induction 1 as [|x l Hx _ IH]; [constructor|]. csimpl.
  assert (NoDup (omap f l)) as Hnd by (apply IH; intros; eapply Hf; eauto; by right).
  destruct (f x) as [b|] eqn:Hb; [|done]. constructor; [|done].
  intros (y & Hy & Hfy)%list_elem_of_omap. apply Hx.
  by rewrite (Hf x y b) by (done || by constructor).
Qed.

Lemma list_filter_all_True {A} (l : list A) : filter (λ _, True) l = l.
Proof. induction l as [|x l IH]; [done|]. by rewrite filter_cons_True, IH. Qed.

Lemma filter_none {A} (P : A → Prop) `{∀ x, Decision (P x)} (l : list A) :
  (∀ x, x ∈ l → ¬ P x) → filter P l = [].
Proof.
  induction l as [|x l IH]; intros Hl; [done|]. rewrite filter_cons_False by (apply Hl; left).
  apply IH. intros y Hy. apply Hl. by right.
Qed.

Lemma list_filter_Forall {A} (P : A → Prop) `{∀ x, Decision (P x)} (l : list A) :
  Forall P l → filter P l = l.
Proof. induction 1 as [|x l Hx _ IH]; [done|]. by rewrite filter_cons_True, IH. Qed.

Lemma Forall_list_filter {A} (P Q : A → Prop) `{∀ x, Decision (P x)} (l : list A) :
  Forall Q l → Forall Q (filter P l).
Proof. rewrite !Forall_forall. intros Hl x [_ Hx]%list_elem_of_filter. by apply Hl. Qed.

(** ** Sorting *)

(** What [sort.Slice] promises: some permutation in which no element is less
    than an earlier one. It is not a stable sort. *)
Class SortSlice : Type := {
  sort_slice : ∀ {A}, (A → Z) → list A → list A;
  sort_slice_perm : ∀ {A} (key : A → Z) l, sort_slice key l ≡ₚ l;
  sort_slice_sorted : ∀ {A} (key : A → Z) l,
    StronglySorted (λ x y, (key x ≤ key y)%Z) (sort_slice key l)
}.

(** A merge sort is one such sort. *)
#[export] Instance sort_merge : SortSlice | 100.
Proof.
  refine {| sort_slice A key l := merge_sort (λ x y, (key x ≤ key y)%Z) l |}.
  - intros A key l. apply merge_sort_Permutation.
  - intros A key l.
    assert (Transitive (λ x y, (key x ≤ key y)%Z)) by (unfold Transitive; lia).
    assert (Total (λ x y, (key x ≤ key y)%Z)) by (unfold Total; lia).
    apply (StronglySorted_merge_sort (λ x y, (key x ≤ key y)%Z)).
Defined.

(** ** Machine integers *)

(** Go's [int64] (and [time.Duration], [int] on 64-bit platforms): the value of
    an operation wraps around at 2^63. *)
Definition int64_max : Z := 2 ^ 63 - 1.
Definition int64_min : Z := - 2 ^ 63.
Definition wrap64 (z : Z) : Z := (z + 2 ^ 63) `mod` 2 ^ 64 - 2 ^ 63.

Lemma wrap64_id z : (int64_min ≤ z ≤ int64_max)%Z → wrap64 z = z.
Proof. unfold wrap64, int64_min, int64_max. intros. rewrite Z.mod_small; lia. Qed.

Lemma wrap64_range z : (int64_min ≤ wrap64 z ≤ int64_max)%Z.
Proof.
  unfold wrap64, int64_min, int64_max.
  pose proof (Z.mod_pos_bound (z + 2 ^ 63) (2 ^ 64)). lia.
Qed.

(** [sort.Slice] with a comparison that is not an integer key: a permutation,
    sorted when the comparison is a strict weak order. *)
Class SortSliceBy : Type := {
  sort_by : ∀ {A}, (A → A → bool) → list A → list A;
  sort_by_perm : ∀ {A} (less : A → A → bool) l, sort_by less l ≡ₚ l;
  sort_by_sorted : ∀ {A} (less : A → A → bool) l,
    Transitive (λ x y, less y x = false) → Total (λ x y, less y x = false) →
    StronglySorted (λ x y, less y x = false) (sort_by less l)
}.

#[export] Instance sort_merge_by : SortSliceBy | 100.
Proof.
  refine {| sort_by A less l := merge_sort (λ x y, less y x = false) l |}.
  - intros A less l. apply merge_sort_Permutation.
  - intros A less l HT HTot. by apply (StronglySorted_merge_sort (λ x y, less y x = false)).
Defined.
