(* ===== verification/Float64.v ===== *)
(** IEEE 754 binary64, Go's [float64], with the Standard Library's executable
    specification of floating-point arithmetic: every operation rounds to the
    nearest value, ties to even, and no axiom is involved. *)
From Stdlib Require Import SpecFloat.
From stdpp Require Import prelude numbers.
From S2P Require Import Prelude.
Local Open Scope Z_scope.

Definition float64 : Type := spec_float.
#[export] Instance float64_eq_dec : EqDecision float64.
Proof. solve_decision. Defined.

(** [float64(z)] of an integer. *)
Definition of_int (z : Z) : float64 := binary_normalize 53 1024 z 0 false.

Definition fadd (a b : float64) : float64 := SFadd 53 1024 a b.
Definition fsub (a b : float64) : float64 := SFsub 53 1024 a b.
Definition fmul (a b : float64) : float64 := SFmul 53 1024 a b.
Definition fdiv (a b : float64) : float64 := SFdiv 53 1024 a b.

(** The comparisons [a < b], [a <= b] and [a == b] of Go: false on NaN. *)
Definition fltb (a b : float64) : bool := SFltb a b.
Definition fleb (a b : float64) : bool := SFleb a b.
Definition feqb (a b : float64) : bool := SFeqb a b.
Definition is_nan (a : float64) : bool := match a with S754_nan => true | _ => false end.

Lemma fltb_nan_l a : fltb S754_nan a = false.
Proof. by destruct a. Qed.

Lemma fltb_nan_r a : fltb a S754_nan = false.
Proof. by destruct a as [[]|[]| |[]]. Qed.

Lemma fltb_irrefl a : fltb a a = false.
Proof.
  destruct a as [[]|[]| |[] m e]; [done..| |]; unfold fltb, SFltb, SFcompare;
    by rewrite Z.compare_refl, Pcompare_refl.
Qed.

(** The comparison is antisymmetric. *)
Lemma SFcompare_swap a b : SFcompare b a = CompOpp <$> SFcompare a b.
Proof.
  destruct a as [[]|[]| |[] m e], b as [[]|[]| |[] m' e']; try done; simpl;
    rewrite (Z.compare_antisym e e'); destruct (Z.compare_spec e e'); simpl; try done;
    f_equal; rewrite (Pcompare_antisym m m'); by destruct (Pos.compare_cont Eq m m').
Qed.

Lemma fltb_asym a b : fltb a b = true → fltb b a = false.
Proof. unfold fltb, SFltb. rewrite (SFcompare_swap a b). by destruct (SFcompare a b) as [[]|]. Qed.

(** Either order holds, unless one of them is NaN. *)
Lemma fltb_total a b : fltb a b = false → is_nan a = false → is_nan b = false → fleb b a = true.
Proof.
  unfold fltb, SFltb, fleb, SFleb. rewrite (SFcompare_swap a b).
  destruct (SFcompare a b) as [[]|] eqn:Hc; simpl; [done..|].
  destruct a as [[]|[]| |[] m e], b as [[]|[]| |[] m' e']; simpl in Hc; try done;
    destruct (Z.compare e e'); done.
Qed.

(** ** The order of the numbers *)

(** A number is placed by its class, its exponent and its mantissa. *)
Definition key (a : float64) : option (Z * Z * Z) :=
  match a with
  | S754_nan => None
  | S754_zero _ => Some (0, 0, 0)
  | S754_infinity false => Some (2, 0, 0)
  | S754_infinity true => Some (-2, 0, 0)
  | S754_finite false m e => Some (1, e, Zpos m)
  | S754_finite true m e => Some (-1, - e, Zneg m)
  end.

Definition key_lt (a b : Z * Z * Z) : Prop :=
  a.1.1 < b.1.1 ∨ a.1.1 = b.1.1 ∧ (a.1.2 < b.1.2 ∨ a.1.2 = b.1.2 ∧ a.2 < b.2).

Lemma fltb_key a b :
  fltb a b = true ↔ match key a, key b with Some x, Some y => key_lt x y | _, _ => False end.
Proof.
  unfold fltb, SFltb, key_lt.
  destruct a as [[]|[]| |[] m e], b as [[]|[]| |[] m' e']; simpl; try (split; intros; (done || lia)).
  all: destruct (Z.compare_spec e e'); simpl; try (split; intros; (done || lia)).
  all: rewrite ?Pos.compare_cont_spec; simpl; destruct (Pos.compare_spec m m'); simpl;
    split; intros; (done || lia).
Qed.

Lemma feqb_key a b : feqb a b = true ↔ is_Some (key a) ∧ key a = key b.
Proof.
  unfold feqb, SFeqb.
  destruct a as [[]|[]| |[] m e], b as [[]|[]| |[] m' e']; simpl;
    try (split; [by eauto|by intros [? ?]]); try (split; [done|by intros [[? ?] ?]]).
  all: destruct (Z.compare_spec e e'); simpl;
    try (split; [done|intros [_ ?]; simplify_eq; lia]).
  all: rewrite ?Pos.compare_cont_spec; simpl; destruct (Pos.compare_spec m m'); simpl;
    split; intros; simplify_eq; eauto; try done; destruct_and?; simplify_eq; lia.
Qed.

Lemma key_nan a : is_nan a = false ↔ is_Some (key a).
Proof. destruct a as [[]|[]| |[] m e]; simpl; split; eauto; try done. Qed.

Lemma fltb_trans a b c : fltb a b = true → fltb b c = true → fltb a c = true.
Proof.
  rewrite !fltb_key. unfold key_lt. destruct (key a), (key b), (key c); try done. lia.
Qed.

(** A number lies on one side of another at least. *)
Lemma fltb_split a b c :
  is_nan b = false → fltb a c = true → fltb a b = true ∨ fltb b c = true.
Proof.
  rewrite key_nan, !fltb_key. unfold key_lt. intros [k Hk]. rewrite Hk.
  destruct (key a), (key c); try done. lia.
Qed.

(** Numbers neither of which is smaller are equal. *)
Lemma feqb_iff a b : is_nan a = false → is_nan b = false →
  feqb a b = true ↔ fltb a b = false ∧ fltb b a = false.
Proof.
  rewrite !key_nan, feqb_key, <- !not_true_iff_false, !fltb_key. unfold key_lt.
  intros [[[x1 x2] x3] Ha] [[[y1 y2] y3] Hb]. rewrite Ha, Hb. simpl. split.
  - intros [_ [= -> -> ->]]. lia.
  - intros [H1 H2]. split; [by eauto|]. assert (x1 = y1 ∧ x2 = y2 ∧ x3 = y3) as (-> & -> & ->) by lia. done.
Qed.

Example div_third : fltb (fdiv (of_int 1) (of_int 3)) (fdiv (of_int 1) (of_int 2)) = true.
Proof. vm_compute. reflexivity. Qed.
Example div_zero_zero : is_nan (fdiv (of_int 0) (of_int 0)) = true.
Proof. vm_compute. reflexivity. Qed.
