(* ===== verification/PatchSet.v ===== *)
(** Patches and patch sets (src/pkg/simulator/common/patch.go, patchset.go):
    the fork/commit/revert store behind the DRA and CSI snapshots.  The cached
    patch stack is proved to refine a stack of plain maps. *)
From stdpp Require Import prelude gmap strings list fin_maps.
From S2P Require Import Prelude.

(** * One layer of modifications *)

Record Patch (K V : Type) `{Countable K} : Type := mkPatch {
  modified : gmap K V;
  deleted : gmap K bool
}.
Arguments mkPatch {K V _ _} _ _.
Arguments modified {K V _ _} _.
Arguments deleted {K V _ _} _.

Section patch.
Context `{GR : GoRange} {K V : Type} `{Countable K}.
Implicit Types (p a b : Patch K V) (k : K) (v : V).

Definition NewPatch : Patch K V := mkPatch ∅ ∅.

(** A nil source map is replaced by an empty one. *)
Definition NewPatchFromMap (source : option (gmap K V)) : Patch K V :=
  mkPatch (match source with None => ∅ | Some m => m end) ∅.

Definition Patch_Set p k v : Patch K V :=
  mkPatch (<[k := v]> (modified p)) (delete k (deleted p)).

Definition Patch_Delete p k : Patch K V :=
  mkPatch (delete k (modified p)) (<[k := true]> (deleted p)).

Definition Patch_Get p k : option V := modified p !! k.

(** Reading a missing key of a [map[K]bool] gives [false]. *)
Definition Patch_IsDeleted p k : bool := default false (deleted p !! k).

Definition mergePatchesInPlace a b : Patch K V :=
  let a1 := foldl (λ a kv, Patch_Set a kv.1 kv.2) a (go_range (modified b)) in
  foldl (λ a kv, Patch_Delete a kv.1) a1 (go_range (deleted b)).

(** The only values a patch ever stores in [deleted] are [true]. *)
Definition patch_ok p : Prop := map_Forall (λ _ d, d = true) (deleted p).

(** What a layer does to the map below it. *)
Definition apply_patch (m : gmap K V) p : gmap K V :=
  filter (λ kv, Patch_IsDeleted p kv.1 = false) (modified p ∪ m).

Lemma lookup_apply_patch m p k :
  apply_patch m p !! k =
  if Patch_IsDeleted p k then None
  else match modified p !! k with Some v => Some v | None => m !! k end.
Proof.
  unfold apply_patch. rewrite map_lookup_filter, lookup_union.
  destruct (modified p !! k) as [v|], (m !! k) as [w|]; simpl;
    by destruct (Patch_IsDeleted p k).
Qed.

Lemma patch_ok_IsDeleted p k d :
  patch_ok p → deleted p !! k = Some d → Patch_IsDeleted p k = true.
Proof. intros Hp Hd. unfold Patch_IsDeleted. rewrite Hd. by apply (Hp k). Qed.

Lemma patch_ok_new : patch_ok NewPatch.
Proof. apply map_Forall_empty. Qed.

Lemma patch_ok_from_map src : patch_ok (NewPatchFromMap src).
Proof. apply map_Forall_empty. Qed.

Lemma patch_ok_Set p k v : patch_ok p → patch_ok (Patch_Set p k v).
Proof. intros Hp. by apply map_Forall_delete. Qed.

Lemma patch_ok_Delete p k : patch_ok p → patch_ok (Patch_Delete p k).
Proof. intros Hp. by apply map_Forall_insert_2. Qed.

Lemma apply_patch_new m : apply_patch m NewPatch = m.
Proof.
  apply map_eq. intros k. rewrite lookup_apply_patch. simpl.
  unfold Patch_IsDeleted. simpl. by rewrite !lookup_empty.
Qed.

Lemma apply_patch_Set m p k v : apply_patch m (Patch_Set p k v) = <[k := v]> (apply_patch m p).
Proof.
  apply map_eq. intros i. rewrite lookup_apply_patch. unfold Patch_IsDeleted. simpl.
  destruct (decide (k = i)) as [->|Hne].
  - by rewrite lookup_delete_eq, !lookup_insert_eq.
  - by rewrite lookup_delete_ne, !lookup_insert_ne, lookup_apply_patch by done.
Qed.

Lemma apply_patch_Delete m p k : apply_patch m (Patch_Delete p k) = delete k (apply_patch m p).
Proof.
  apply map_eq. intros i. rewrite lookup_apply_patch. unfold Patch_IsDeleted. simpl.
  destruct (decide (k = i)) as [->|Hne].
  - by rewrite !lookup_delete_eq, lookup_insert_eq.
  - by rewrite !lookup_delete_ne, lookup_insert_ne, lookup_apply_patch by done.
Qed.

(** The two loops of [mergePatchesInPlace], seen through [apply_patch]. *)
Lemma apply_patch_fold_Set m a (l : list (K * V)) :
  apply_patch m (foldl (λ a kv, Patch_Set a kv.1 kv.2) a l) =
  foldl (λ acc kv, <[kv.1 := kv.2]> acc) (apply_patch m a) l.
Proof.
  revert a. induction l as [|[k v] l IH]; intros a; [done|]. simpl.
  by rewrite IH, apply_patch_Set.
Qed.

Lemma apply_patch_fold_Delete m a (l : list (K * bool)) :
  apply_patch m (foldl (λ a kv, Patch_Delete a kv.1) a l) =
  foldl (λ acc kv, delete kv.1 acc) (apply_patch m a) l.
Proof.
  revert a. induction l as [|[k v] l IH]; intros a; [done|]. simpl.
  by rewrite IH, apply_patch_Delete.
Qed.

(** Committing a layer: one merged layer does what the two did in sequence. *)
Lemma apply_patch_merge m a b :
  patch_ok b → apply_patch m (mergePatchesInPlace a b) = apply_patch (apply_patch m a) b.
Proof.
  intros Hb. unfold mergePatchesInPlace.
  rewrite apply_patch_fold_Delete, apply_patch_fold_Set.
  apply map_eq. intros k. rewrite lookup_range_delete, lookup_range_insert.
  rewrite (lookup_apply_patch _ b).
  destruct (deleted b !! k) as [d|] eqn:Hd.
  - by rewrite (patch_ok_IsDeleted b k d).
  - unfold Patch_IsDeleted. by rewrite Hd.
Qed.

Lemma patch_ok_merge a b : patch_ok a → patch_ok (mergePatchesInPlace a b).
Proof.
  intros Ha. unfold mergePatchesInPlace.
  apply foldl_inv; [apply foldl_inv; [done|]|]; intros;
    [by apply patch_ok_Set | by apply patch_ok_Delete].
Qed.
End patch.
#[export] Hint Resolve patch_ok_new patch_ok_from_map patch_ok_Set patch_ok_Delete patch_ok_merge : ca.

(** * The stack of layers with its read cache *)

Record PatchSet (K V : Type) `{Countable K} : Type := mkPatchSet {
  patches : list (Patch K V);   (* index 0 is the base, the last one is current *)
  cache : gmap K (option V);    (* [Some None] is a cached nil pointer *)
  cacheInSync : bool
}.
Arguments mkPatchSet {K V _ _} _ _ _.
Arguments patches {K V _ _} _.
Arguments cache {K V _ _} _.
Arguments cacheInSync {K V _ _} _.

Section patchset.
Context `{GR : GoRange} {K V : Type} `{Countable K}.
Implicit Types (p : PatchSet K V) (ps : list (Patch K V)) (k : K) (v : V) (m : gmap K V).

Definition NewPatchSet ps : PatchSet K V := mkPatchSet ps ∅ false.

Definition PatchSet_Fork p : PatchSet K V :=
  mkPatchSet (patches p ++ [NewPatch]) (cache p) (cacheInSync p).

(** The merged layer replaces the previous one in place, then the slice is
    cut by one. *)
Definition PatchSet_Commit p : PatchSet K V :=
  let n := length (patches p) in
  if decide (n < 2) then p else
  match patches p !! (n - 1), patches p !! (n - 2) with
  | Some currentPatch, Some previousPatch =>
      mkPatchSet
        (take (n - 1) (<[n - 2 := mergePatchesInPlace previousPatch currentPatch]> (patches p)))
        (cache p) (cacheInSync p)
  | _, _ => p
  end.

Definition PatchSet_Revert p : PatchSet K V :=
  let n := length (patches p) in
  if decide (n <= 1) then p else
  match patches p !! (n - 1) with
  | Some currentPatch =>
      let cache1 := foldl (λ c kv, delete kv.1 c) (cache p) (go_range (modified currentPatch)) in
      let cache2 := foldl (λ c kv, delete kv.1 c) cache1 (go_range (deleted currentPatch)) in
      mkPatchSet (take (n - 1) (patches p)) cache2 false
  | None => p
  end.

(** The search loop of [FindValue]: layers from the top of the stack down,
    given in that order. *)
Fixpoint find_in_layers (layers : list (Patch K V)) k : option V :=
  match layers with
  | [] => None
  | patch :: below =>
      if Patch_IsDeleted patch k then None
      else match Patch_Get patch k with
           | Some v => Some v
           | None => find_in_layers below k
           end
  end.

Definition PatchSet_FindValue p k : PatchSet K V * option V :=
  match cache p !! k with
  | Some cachedValue => (p, cachedValue)
  | None =>
      let found := find_in_layers (reverse (patches p)) k in
      (mkPatchSet (patches p) (<[k := found]> (cache p)) (cacheInSync p), found)
  end.

(** The capacity hint of the map built by [AsMap]. *)
Definition totalKeyCount p : nat :=
  foldl (λ count patch, count + size (modified patch)) 0 (patches p).

Definition PatchSet_AsMap p : PatchSet K V * gmap K V :=
  if cacheInSync p then
    (p, foldl (λ acc kv, match kv.2 with Some v => <[kv.1 := v]> acc | None => acc end)
          ∅ (go_range (cache p)))
  else
    let patchSetMap :=
      foldl (λ acc patch,
        foldl (λ acc kv, delete kv.1 acc)
          (foldl (λ acc kv, <[kv.1 := kv.2]> acc) acc (go_range (modified patch)))
          (go_range (deleted patch)))
        ∅ (patches p) in
    let cache' := foldl (λ c kv, <[kv.1 := Some kv.2]> c) (cache p) (go_range patchSetMap) in
    (mkPatchSet (patches p) cache' true, patchSetMap).

(** [f] applied to the topmost layer, after the [Fork] of an empty stack. *)
Definition on_current (f : Patch K V → Patch K V) p : PatchSet K V :=
  let p' := if decide (length (patches p) = 0) then PatchSet_Fork p else p in
  mkPatchSet (alter f (length (patches p') - 1) (patches p')) (cache p') (cacheInSync p').

Definition PatchSet_SetCurrent p k v : PatchSet K V :=
  let p' := on_current (λ c, Patch_Set c k v) p in
  mkPatchSet (patches p') (<[k := Some v]> (cache p')) (cacheInSync p').

Definition PatchSet_DeleteCurrent p k : PatchSet K V :=
  let p' := on_current (λ c, Patch_Delete c k) p in
  mkPatchSet (patches p') (<[k := None]> (cache p')) (cacheInSync p').

Definition InCurrentPatch p k : bool :=
  match patches p !! (length (patches p) - 1) with
  | Some currentPatch => bool_decide (is_Some (Patch_Get currentPatch k))
  | None => false
  end.

Definition ClonePatchSet (ps : option (PatchSet K V)) (cloneKey : K → K) (cloneValue : V → V)
    : option (PatchSet K V) :=
  match ps with
  | None => None
  | Some ps =>
      let clone_patch patch :=
        let c := foldl (λ c kv, Patch_Set c (cloneKey kv.1) (cloneValue kv.2))
                   NewPatch (go_range (modified patch)) in
        foldl (λ c kv, Patch_Delete c (cloneKey kv.1)) c (go_range (deleted patch)) in
      let cloned := NewPatchSet [] in
      Some (mkPatchSet (foldl (λ l patch, l ++ [clone_patch patch]) (patches cloned) (patches ps))
              (cache cloned) (cacheInSync cloned))
  end.

(** ** The specification: a stack of plain maps *)

Inductive ps_op : Type :=
| OpFork | OpCommit | OpRevert
| OpFindValue (k : K) | OpAsMap
| OpSetCurrent (k : K) (v : V) | OpDeleteCurrent (k : K).

Inductive ps_out : Type := ODone | OValue (v : option V) | OMap (m : gmap K V).

Definition ps_exec (o : ps_op) p : PatchSet K V * ps_out :=
  match o with
  | OpFork => (PatchSet_Fork p, ODone)
  | OpCommit => (PatchSet_Commit p, ODone)
  | OpRevert => (PatchSet_Revert p, ODone)
  | OpFindValue k => let '(p', v) := PatchSet_FindValue p k in (p', OValue v)
  | OpAsMap => let '(p', m) := PatchSet_AsMap p in (p', OMap m)
  | OpSetCurrent k v => (PatchSet_SetCurrent p k v, ODone)
  | OpDeleteCurrent k => (PatchSet_DeleteCurrent p k, ODone)
  end.

Fixpoint ps_exec_all (os : list ps_op) p : PatchSet K V * list ps_out :=
  match os with
  | [] => (p, [])
  | o :: os' => let '(p1, r) := ps_exec o p in
                let '(p2, rs) := ps_exec_all os' p1 in (p2, r :: rs)
  end.

(** The specification keeps one complete map per layer, top of the stack first. *)
Definition stack : Type := list (gmap K V).
Definition top (s : stack) : gmap K V := match s with [] => ∅ | m :: _ => m end.
Definition below (s : stack) : stack := match s with [] => [] | _ :: s' => s' end.

Definition stack_exec (o : ps_op) (s : stack) : stack * ps_out :=
  match o with
  | OpFork => (top s :: s, ODone)
  | OpCommit => (match s with m :: _ :: s' => m :: s' | _ => s end, ODone)
  | OpRevert => (match s with _ :: m :: s' => m :: s' | _ => s end, ODone)
  | OpFindValue k => (s, OValue (top s !! k))
  | OpAsMap => (s, OMap (top s))
  | OpSetCurrent k v => (<[k := v]> (top s) :: below s, ODone)
  | OpDeleteCurrent k => (delete k (top s) :: below s, ODone)
  end.

Fixpoint stack_exec_all (os : list ps_op) (s : stack) : stack * list ps_out :=
  match os with
  | [] => (s, [])
  | o :: os' => let '(s1, r) := stack_exec o s in
                let '(s2, rs) := stack_exec_all os' s1 in (s2, r :: rs)
  end.

(** The abstraction: the map each prefix of the stack of layers denotes. *)
Definition flatten ps : gmap K V := foldl apply_patch ∅ ps.
Fixpoint stack_of_rev (rps : list (Patch K V)) : stack :=
  match rps with
  | [] => []
  | _ :: rps' => flatten (reverse rps) :: stack_of_rev rps'
  end.
Definition ps_abs p : stack := stack_of_rev (reverse (patches p)).

(** The cache never contradicts the layers, and when it is marked in sync it
    holds every key that is present. *)
Record patchset_ok p : Prop := {
  ok_patches : Forall patch_ok (patches p);
  ok_cache : ∀ k o, cache p !! k = Some o → flatten (patches p) !! k = o;
  ok_sync : cacheInSync p = true →
    ∀ k v, flatten (patches p) !! k = Some v → cache p !! k = Some (Some v)
}.

(** ** Layers as snoc lists *)

Lemma flatten_snoc ps c : flatten (ps ++ [c]) = apply_patch (flatten ps) c.
Proof. unfold flatten. by rewrite foldl_app. Qed.

Lemma stack_of_snoc ps c :
  stack_of_rev (reverse (ps ++ [c])) = flatten (ps ++ [c]) :: stack_of_rev (reverse ps).
Proof. rewrite reverse_app. simpl. by rewrite reverse_cons, reverse_involutive. Qed.

Lemma top_stack_of ps : top (stack_of_rev (reverse ps)) = flatten ps.
Proof. destruct ps as [|c ps _] using rev_ind; [done|]. by rewrite stack_of_snoc. Qed.

Lemma stack_of_replace ps c c' :
  apply_patch (flatten ps) c' = flatten (ps ++ [c']) →
  stack_of_rev (reverse (ps ++ [c'])) =
  apply_patch (flatten ps) c' :: below (stack_of_rev (reverse (ps ++ [c]))).
Proof. intros ->. by rewrite !stack_of_snoc. Qed.

Lemma snoc_len {A} (l : list A) x : length (l ++ [x]) - 1 = length l.
Proof. rewrite length_app. simpl. lia. Qed.

Lemma Commit_snoc ps a b c s :
  PatchSet_Commit (mkPatchSet ((ps ++ [a]) ++ [b]) c s) =
  mkPatchSet (ps ++ [mergePatchesInPlace a b]) c s.
Proof.
  unfold PatchSet_Commit. simpl. rewrite snoc_len.
  rewrite decide_False by (rewrite !length_app; simpl; lia).
  replace (length ((ps ++ [a]) ++ [b]) - 2) with (length ps) by (rewrite !length_app; simpl; lia).
  rewrite list_lookup_middle by done.
  rewrite <- (app_assoc ps [a] [b]). simpl. rewrite list_lookup_middle by done.
  f_equal. rewrite insert_app_r_alt by lia. rewrite Nat.sub_diag. simpl.
  rewrite (take_app_ge ps) by (rewrite length_app; simpl; lia).
  rewrite length_app. simpl. by replace (length ps + 1 - length ps) with 1 by lia.
Qed.

Lemma Revert_snoc ps a b c s :
  PatchSet_Revert (mkPatchSet ((ps ++ [a]) ++ [b]) c s) =
  mkPatchSet (ps ++ [a])
    (foldl (λ c kv, delete kv.1 c)
      (foldl (λ c kv, delete kv.1 c) c (go_range (modified b))) (go_range (deleted b))) false.
Proof.
  unfold PatchSet_Revert. simpl. rewrite snoc_len.
  rewrite decide_False by (rewrite !length_app; simpl; lia).
  rewrite list_lookup_middle by done. by rewrite take_app_length.
Qed.

Lemma on_current_nil f c s :
  on_current f (mkPatchSet [] c s) = mkPatchSet [f NewPatch] c s.
Proof. done. Qed.

Lemma on_current_snoc f ps a c s :
  on_current f (mkPatchSet (ps ++ [a]) c s) = mkPatchSet (ps ++ [f a]) c s.
Proof.
  unfold on_current. simpl.
  rewrite decide_False by (rewrite length_app; simpl; lia). simpl.
  rewrite snoc_len. f_equal. rewrite <- (Nat.add_0_r (length ps)).
  by rewrite alter_app_r.
Qed.

(** The top-down search finds what the flattened layers hold. *)
Lemma find_in_layers_flatten ps k : find_in_layers (reverse ps) k = flatten ps !! k.
Proof.
  induction ps as [|c ps IH] using rev_ind; [done|].
  rewrite reverse_app. simpl. rewrite flatten_snoc, lookup_apply_patch, IH. done.
Qed.

(** The bottom-up loop of [AsMap] computes the flattened layers. *)
Lemma asmap_loop_flatten ps :
  Forall patch_ok ps →
  foldl (λ acc patch,
    foldl (λ acc kv, delete kv.1 acc)
      (foldl (λ acc kv, <[kv.1 := kv.2]> acc) acc (go_range (modified patch)))
      (go_range (deleted patch))) ∅ ps = flatten ps.
Proof.
  induction ps as [|c ps IH] using rev_ind; [done|].
  rewrite Forall_app, Forall_singleton. intros [Hps Hc].
  rewrite foldl_app, flatten_snoc, IH by done. simpl. apply map_eq. intros k.
  rewrite lookup_range_delete, lookup_range_insert, lookup_apply_patch.
  destruct (deleted c !! k) as [d|] eqn:Hd.
  - by rewrite (patch_ok_IsDeleted c k d).
  - unfold Patch_IsDeleted. by rewrite Hd.
Qed.

(** Reading the cached map drops the keys cached as absent. *)
Lemma lookup_cached_map_list (l : list (K * option V)) (acc : gmap K V) k :
  NoDup l.*1 →
  foldl (λ acc kv, match kv.2 with Some v => <[kv.1 := v]> acc | None => acc end) acc l !! k =
  match (list_to_map l : gmap K (option V)) !! k with Some (Some v) => Some v | _ => acc !! k end.
Proof.
  revert acc. induction l as [|[i o] l IH]; intros acc; csimpl.
  { intros _. by rewrite lookup_empty. }
  rewrite NoDup_cons. intros [Hi Hnd]. rewrite IH by done.
  destruct (decide (i = k)) as [->|Hne].
  - rewrite lookup_insert_eq, not_elem_of_list_to_map_1 by done.
    destruct o as [v|]; [by rewrite lookup_insert_eq|done].
  - rewrite lookup_insert_ne by done.
    destruct o as [v|]; [by rewrite lookup_insert_ne|done].
Qed.

Lemma lookup_cached_map (c : gmap K (option V)) k :
  (foldl (λ acc kv, match kv.2 with Some v => <[kv.1 := v]> acc | None => acc end)
    ∅ (go_range c) : gmap K V) !! k =
  match c !! k with Some (Some v) => Some v | _ => None end.
Proof.
  rewrite lookup_cached_map_list by apply NoDup_go_range_fst.
  by rewrite list_to_map_go_range, lookup_empty.
Qed.

(** ** Every operation preserves the invariant and ps_simulates its specification *)

Definition ps_simulates (o : ps_op) p : Prop :=
  let '(p', r) := ps_exec o p in
  patchset_ok p' ∧ stack_exec o (ps_abs p) = (ps_abs p', r).

Lemma patchset_ok_new ps : Forall patch_ok ps → patchset_ok (NewPatchSet ps).
Proof. intros Hps. by constructor. Qed.

Lemma ps_sim_Fork p : patchset_ok p → ps_simulates OpFork p.
Proof.
  intros [Hp Hc Hs]. split.
  - constructor; simpl; rewrite ?flatten_snoc, ?apply_patch_new; auto.
    apply Forall_app_2; [done|]. apply Forall_singleton, patch_ok_new.
  - simpl. unfold ps_abs. simpl.
    by rewrite stack_of_snoc, top_stack_of, flatten_snoc, apply_patch_new.
Qed.

Lemma ps_sim_Commit p : patchset_ok p → ps_simulates OpCommit p.
Proof.
  destruct p as [ps c s]. intros [Hp Hc Hs]; simpl in *. unfold ps_simulates.
  destruct ps as [|b ps _] using rev_ind; [by repeat split|].
  destruct ps as [|a ps _] using rev_ind; [by repeat split|].
  rewrite !Forall_app, !Forall_singleton in Hp. destruct Hp as [[Hps Ha] Hb].
  simpl. rewrite Commit_snoc.
  assert (flatten (ps ++ [mergePatchesInPlace a b]) = flatten ((ps ++ [a]) ++ [b])) as Hf
    by (by rewrite !flatten_snoc, apply_patch_merge).
  split.
  - constructor; simpl; rewrite ?Hf; auto. apply Forall_app_2; [done|].
    apply Forall_singleton. auto with ca.
  - unfold ps_abs. simpl. by rewrite !stack_of_snoc, Hf.
Qed.

Lemma ps_sim_Revert p : patchset_ok p → ps_simulates OpRevert p.
Proof.
  destruct p as [ps c s]. intros [Hp Hc Hs]; simpl in *. unfold ps_simulates.
  destruct ps as [|b ps _] using rev_ind; [by repeat split|].
  destruct ps as [|a ps _] using rev_ind; [by repeat split|].
  rewrite Forall_app, Forall_singleton in Hp. destruct Hp as [Hps Hb].
  simpl. rewrite Revert_snoc. split.
  - constructor; simpl; [done| |done]. intros k o.
    rewrite !lookup_range_delete. intros Hk.
    destruct (deleted b !! k) eqn:Hd; [done|]. destruct (modified b !! k) eqn:Hm; [done|].
    rewrite <- (Hc k o Hk), (flatten_snoc (ps ++ [a])), lookup_apply_patch.
    unfold Patch_IsDeleted. by rewrite Hd, Hm.
  - unfold ps_abs. simpl. by rewrite !stack_of_snoc.
Qed.

Lemma ps_sim_FindValue k p : patchset_ok p → ps_simulates (OpFindValue k) p.
Proof.
  destruct p as [ps c s]. intros [Hp Hc Hs]; simpl in *. unfold ps_simulates. simpl.
  unfold PatchSet_FindValue. simpl. unfold ps_abs. simpl. rewrite top_stack_of.
  destruct (c !! k) as [o|] eqn:Hk.
  - split; [done|]. simpl. by rewrite (Hc k o).
  - rewrite find_in_layers_flatten. split; [|done]. constructor; simpl; [done| |].
    + intros i o. rewrite lookup_insert. case_decide; [|by apply Hc].
      intros [= <-]. by subst.
    + intros Hs' i v Hi. rewrite lookup_insert. case_decide; [by subst; rewrite Hi|].
      by apply Hs.
Qed.

Lemma ps_sim_AsMap p : patchset_ok p → ps_simulates OpAsMap p.
Proof.
  destruct p as [ps c s]. intros [Hp Hc Hs]; simpl in *. unfold ps_simulates. simpl.
  unfold PatchSet_AsMap. simpl. unfold ps_abs. destruct s; simpl; rewrite top_stack_of.
  - split; [done|]. do 2 f_equal. apply map_eq. intros k. rewrite lookup_cached_map.
    destruct (flatten ps !! k) as [v|] eqn:Hk.
    + by rewrite (Hs eq_refl k v).
    + destruct (c !! k) as [[v|]|] eqn:Hck; [|done..]. apply Hc in Hck. congruence.
  - rewrite asmap_loop_flatten by done. split; [|done].
    assert (∀ k, foldl (λ c kv, <[kv.1 := Some kv.2]> c) c (go_range (flatten ps)) !! k =
      match flatten ps !! k with Some v => Some (Some v) | None => c !! k end) as Hl.
    { intros k. apply (lookup_range_partial_alter (λ _ v _, Some (Some v))). }
    constructor; simpl; [done| |].
    + intros k o. rewrite Hl. destruct (flatten ps !! k) eqn:Hk; [by intros [= <-]|].
      intros Hck. by rewrite <- (Hc k o).
    + intros _ k v Hk. by rewrite Hl, Hk.
Qed.

(** [SetCurrent] and [DeleteCurrent] change the top map and the cache entry
    of one key alike. *)
Lemma ps_sim_on_current (f : Patch K V → Patch K V) k o p :
  patchset_ok p →
  (∀ a, patch_ok a → patch_ok (f a)) →
  (∀ m a, apply_patch m (f a) = partial_alter (λ _, o) k (apply_patch m a)) →
  let p1 := on_current f p in
  let p2 := mkPatchSet (patches p1) (<[k := o]> (cache p1)) (cacheInSync p1) in
  patchset_ok p2 ∧ ps_abs p2 = partial_alter (λ _, o) k (top (ps_abs p)) :: below (ps_abs p).
Proof.
  destruct p as [ps c s]. intros [Hp Hc Hs] Hf Ha. cbv zeta. simpl in Hp, Hc, Hs.
  unfold ps_abs at 2 3. cbn [patches].
  assert (∃ ps' a', Forall patch_ok ps' ∧ patch_ok a' ∧
    on_current f (mkPatchSet ps c s) = mkPatchSet (ps' ++ [f a']) c s ∧
    flatten (ps' ++ [a']) = flatten ps ∧
    below (stack_of_rev (reverse ps)) = stack_of_rev (reverse ps'))
    as (ps' & a' & Hps' & Ha' & -> & Hflat & Hbelow).
  { destruct ps as [|b ps _] using rev_ind.
    - exists [], NewPatch. repeat split; auto with ca.
    - rewrite Forall_app, Forall_singleton in Hp. destruct Hp as [Hp1 Hp2].
      exists ps, b. rewrite on_current_snoc, stack_of_snoc. by repeat split. }
  simpl. rewrite <- Hflat in *. rewrite flatten_snoc in *.
  split.
  - constructor; simpl; rewrite ?flatten_snoc, ?Ha.
    + apply Forall_app_2; [done|]. apply Forall_singleton; auto.
    + intros i x. rewrite lookup_insert, lookup_partial_alter.
      case_decide as Hd; [subst; by intros [= <-]|apply Hc].
    + intros Hsync i v. rewrite lookup_insert, lookup_partial_alter.
      case_decide; [by intros ->|by apply Hs].
  - unfold ps_abs. simpl. rewrite stack_of_snoc, top_stack_of, <- Hflat, !flatten_snoc, Ha.
    by rewrite Hbelow.
Qed.

Lemma ps_sim_SetCurrent k v p : patchset_ok p → ps_simulates (OpSetCurrent k v) p.
Proof.
  intros Hp. destruct (ps_sim_on_current (λ c, Patch_Set c k v) k (Some v) p Hp) as [Hok Habs].
  - auto with ca.
  - intros. apply apply_patch_Set.
  - split; [done|]. simpl. f_equal. symmetry. apply Habs.
Qed.

Lemma ps_sim_DeleteCurrent k p : patchset_ok p → ps_simulates (OpDeleteCurrent k) p.
Proof.
  intros Hp. destruct (ps_sim_on_current (λ c, Patch_Delete c k) k None p Hp) as [Hok Habs].
  - auto with ca.
  - intros. apply apply_patch_Delete.
  - split; [done|]. simpl. f_equal. symmetry. apply Habs.
Qed.

Lemma ps_sim_exec o p : patchset_ok p → ps_simulates o p.
Proof.
  destruct o; eauto using ps_sim_Fork, ps_sim_Commit, ps_sim_Revert, ps_sim_FindValue, ps_sim_AsMap,
    ps_sim_SetCurrent, ps_sim_DeleteCurrent.
Qed.
End patchset.

Section patchset_theorems.
Context `{GR : GoRange} {K V : Type} `{Countable K}.
Implicit Types (p : PatchSet K V) (k : K) (v : V) (srcs : list (option (gmap K V))).

Lemma ps_exec_all_ok os p :
  patchset_ok p →
  patchset_ok (ps_exec_all os p).1 ∧
  stack_exec_all os (ps_abs p) = (ps_abs (ps_exec_all os p).1, (ps_exec_all os p).2).
Proof.
  revert p. induction os as [|o os IH]; intros p Hp; [done|].
  pose proof (ps_sim_exec o p Hp) as Hsim. unfold ps_simulates in Hsim.
  simpl. destruct (ps_exec o p) as [p1 r]. destruct Hsim as [Hp1 ->].
  destruct (IH p1 Hp1) as [Hok Heq]. destruct (ps_exec_all os p1) as [p2 rs]. simpl in *.
  by rewrite Heq.
Qed.

Lemma ok_from_maps srcs : patchset_ok (NewPatchSet (NewPatchFromMap <$> srcs)).
Proof.
  apply patchset_ok_new, Forall_fmap, Forall_true. intros src. apply patch_ok_from_map.
Qed.

(** C2. A patch set refines a stack of plain maps: whatever sequence of
    [Fork], [Commit], [Revert], [SetCurrent], [DeleteCurrent], [FindValue]
    and [AsMap] runs on a patch set built from base maps, and in whatever
    order Go visits its maps, every value and every map it returns is the
    one an uncached stack of complete maps returns, and the layers denote
    that stack. *)
Theorem patchset_refines_stack srcs (os : list ps_op) :
  let p0 := NewPatchSet (NewPatchFromMap <$> srcs) in
  let '(p, rs) := ps_exec_all os p0 in
  stack_exec_all os (ps_abs p0) = (ps_abs p, rs).
Proof.
  simpl. destruct (ps_exec_all_ok os _ (ok_from_maps srcs)) as [_ Heq].
  by destruct (ps_exec_all os _).
Qed.

(** The read cache is coherent in every reachable state: an entry of the
    cache is what the top-down search of the layers finds for its key
    ([Some None] being a cached absence), and while the cache is marked in
    sync it holds every key the layers define. *)
Theorem patchset_cache_coherent srcs (os : list ps_op) k :
  let p := (ps_exec_all os (NewPatchSet (NewPatchFromMap <$> srcs))).1 in
  (∀ o, cache p !! k = Some o → find_in_layers (reverse (patches p)) k = o) ∧
  (cacheInSync p = true → ∀ v, find_in_layers (reverse (patches p)) k = Some v →
     cache p !! k = Some (Some v)).
Proof.
  simpl. destruct (ps_exec_all_ok os _ (ok_from_maps srcs)) as [[_ Hc Hs] _].
  rewrite find_in_layers_flatten. auto.
Qed.

(** Reverting right after a fork and any modifications of the new layer
    restores the state at the fork, seen through every read. *)
Lemma fork_modify_revert p (mods : list ps_op) :
  patchset_ok p → patches p ≠ [] →
  Forall (λ o, match o with OpSetCurrent _ _ | OpDeleteCurrent _ | OpFindValue _ | OpAsMap => True
               | _ => False end) mods →
  ps_abs (PatchSet_Revert (ps_exec_all mods (PatchSet_Fork p)).1) = ps_abs p.
Proof.
  intros Hp Hne Hmods.
  pose proof (ps_sim_Fork p Hp) as [Hok Hfork]. simpl in Hfork, Hok.
  destruct (ps_exec_all_ok mods _ Hok) as [Hok' Hspec].
  pose proof (ps_sim_Revert _ Hok') as [_ Hrev]. simpl in Hrev.
  injection Hrev as <-. injection Hfork as Hfork. rewrite <- Hfork in Hspec.
  assert (∀ m s, ∃ m', (stack_exec_all mods (m :: s)).1 = m' :: s) as Hkeep.
  { clear Hok' Hspec Hok Hp Hfork. induction Hmods as [|o mods Ho _ IH]; intros m s; [by exists m|].
    simpl. assert (∃ m1 r, stack_exec o (m :: s) = (m1 :: s, r)) as (m1 & r & ->)
      by (destruct o; try done; simpl; eauto).
    destruct (IH m1 s) as [m' Hm']. exists m'. by destruct (stack_exec_all mods (m1 :: s)). }
  destruct (Hkeep (top (ps_abs p)) (ps_abs p)) as [m' Hm']. rewrite Hspec in Hm'. simpl in Hm'.
  rewrite Hm'. destruct (ps_abs p) as [|m s] eqn:Habs; [|done]. exfalso. apply Hne.
  destruct (patches p) as [|c ps _] eqn:Hps using rev_ind; [done|].
  unfold ps_abs in Habs. by rewrite Hps, stack_of_snoc in Habs.
Qed.

(** The capacity hint of [AsMap] bounds the size of the map it builds. *)
Lemma size_apply_patch (m : gmap K V) c : size (apply_patch m c) ≤ size m + size (modified c).
Proof.
  rewrite <- !size_dom, Nat.add_comm.
  transitivity (size (dom (modified c) ∪ dom m)).
  - apply subseteq_size. intros k. rewrite !elem_of_dom, elem_of_union, !elem_of_dom.
    rewrite lookup_apply_patch. destruct (Patch_IsDeleted c k); [by intros []|].
    destruct (modified c !! k); eauto.
  - rewrite size_union_alt. apply Nat.add_le_mono_l, subseteq_size.
    by intros k [? _]%elem_of_difference.
Qed.

Lemma size_AsMap_totalKeyCount p :
  patchset_ok p → size (PatchSet_AsMap p).2 ≤ totalKeyCount p.
Proof.
  intros Hp. pose proof (ps_sim_AsMap p Hp) as Hsim. unfold ps_simulates in Hsim. simpl in Hsim.
  destruct (PatchSet_AsMap p) as [p' m]. destruct Hsim as [_ [= _ <-]]. simpl.
  unfold ps_abs. rewrite top_stack_of. unfold totalKeyCount.
  induction (patches p) as [|c ps IH] using rev_ind; [done|].
  rewrite flatten_snoc, foldl_app. simpl. rewrite size_apply_patch. lia.
Qed.

(** Which keys the topmost layer holds after each kind of change. *)
Lemma InCurrentPatch_Fork p k : InCurrentPatch (PatchSet_Fork p) k = false.
Proof.
  unfold InCurrentPatch. simpl. rewrite snoc_len, list_lookup_middle by done. simpl.
  apply bool_decide_eq_false_2. unfold Patch_Get. simpl. rewrite lookup_empty. by intros [].
Qed.

Lemma InCurrentPatch_SetCurrent p k v i :
  InCurrentPatch (PatchSet_SetCurrent p k v) i = bool_decide (k = i) || InCurrentPatch p i.
Proof.
  destruct p as [ps c s]. unfold InCurrentPatch, PatchSet_SetCurrent.
  destruct ps as [|a ps _] using rev_ind; cbn [patches].
  - simpl. unfold Patch_Get. simpl. rewrite orb_false_r. apply bool_decide_ext.
    rewrite lookup_insert. case_decide; [naive_solver|]. rewrite lookup_empty.
    split; [by intros []|done].
  - rewrite on_current_snoc. cbn [patches]. rewrite !snoc_len, !list_lookup_middle by done.
    unfold Patch_Get. simpl. rewrite lookup_insert.
    case_decide; [by rewrite !bool_decide_eq_true_2 by eauto|].
    by rewrite (bool_decide_eq_false_2 (k = i)).
Qed.

Lemma InCurrentPatch_DeleteCurrent p k i :
  InCurrentPatch (PatchSet_DeleteCurrent p k) i = negb (bool_decide (k = i)) && InCurrentPatch p i.
Proof.
  destruct p as [ps c s]. unfold InCurrentPatch, PatchSet_DeleteCurrent.
  destruct ps as [|a ps _] using rev_ind; cbn [patches].
  - simpl. rewrite andb_false_r. unfold Patch_Get. simpl.
    apply bool_decide_eq_false_2. rewrite delete_empty, lookup_empty. by intros [].
  - rewrite on_current_snoc. cbn [patches]. rewrite !snoc_len, !list_lookup_middle by done.
    unfold Patch_Get. simpl. rewrite lookup_delete. case_decide.
    + rewrite (bool_decide_eq_true_2 (k = i)) by done. apply bool_decide_eq_false_2. by intros [].
    + by rewrite (bool_decide_eq_false_2 (k = i)).
Qed.

(** A clone whose key and value copies are equal to the originals denotes
    the same stack. *)
Lemma ClonePatchSet_abs p cloneKey cloneValue :
  patchset_ok p → (∀ k, cloneKey k = k) → (∀ v, cloneValue v = v) →
  ∃ p', ClonePatchSet (Some p) cloneKey cloneValue = Some p' ∧ ps_abs p' = ps_abs p.
Proof.
  intros [Hp _ _] Hk Hv. eexists. split; [done|]. unfold ps_abs. simpl.
  set (clone := λ c : Patch K V, foldl (λ c kv, Patch_Delete c (cloneKey kv.1))
    (foldl (λ c kv, Patch_Set c (cloneKey kv.1) (cloneValue kv.2)) NewPatch
      (go_range (modified c))) (go_range (deleted c))).
  assert (∀ c m, patch_ok c → apply_patch m (clone c) = apply_patch m c) as Hclone.
  { intros c m Hc. rewrite <- (apply_patch_new m) at 2.
    rewrite <- (apply_patch_merge m NewPatch c) by done. f_equal.
    apply foldl_ext'; [intros; by rewrite Hk|].
    apply foldl_ext'; [intros; by rewrite Hk, Hv|done]. }
  rewrite (foldl_snoc_fmap clone). clearbody clone. simpl.
  assert (∀ ps, Forall patch_ok ps → flatten (clone <$> ps) = flatten ps) as Hflat.
  { intros ps. induction ps as [|c ps IH] using rev_ind; [done|].
    rewrite Forall_app, Forall_singleton. intros [Hps Hc].
    rewrite fmap_app. simpl. by rewrite !flatten_snoc, Hclone, IH. }
  revert Hp. induction (patches p) as [|c ps IH] using rev_ind; [done|]. intros Hps.
  rewrite fmap_app. simpl. rewrite !stack_of_snoc.
  pose proof (Hflat _ Hps) as Hf. rewrite fmap_app in Hf. simpl in Hf. rewrite Hf. f_equal.
  apply IH. by apply Forall_app in Hps as [? _].
Qed.
End patchset_theorems.
