(* ===== verification/Errors.v ===== *)
(** The errors of the autoscaler (src/pkg/utils/errors/errors.go): typed errors
    that wrap others, and how the errors of concurrent operations are combined
    into one. *)
From stdpp Require Import prelude gmap strings list numbers sorting fin_maps fin_sets.
From S2P Require Import Prelude.
Local Open Scope Z_scope.
Local Open Scope ca_scope.

(** ** Errors *)

Definition CloudProviderError : string := "cloudProviderError".
Definition ApiCallError : string := "apiCallError".
Definition InternalError : string := "internalError".
Definition TransientError : string := "transientError".
Definition ConfigurationError : string := "configurationError".
Definition NodeGroupDoesNotExistError : string := "nodeGroupDoesNotExistError".
Definition UnexpectedScaleDownStateError : string := "unexpectedScaleDownStateError".

(** A Go [error]: some other package's error, which is a pointer and compares by
    its location, or an [autoscalerErrorImpl], a struct that compares by its
    fields, with or without an error it wraps. *)
Inductive go_error : Type :=
| PlainError (loc : nat) (text : string)
| TypedError (errorType msg : string)
| WrappingError (errorType : string) (wrappedErr : go_error) (msg : string).
#[export] Instance go_error_eq_dec : EqDecision go_error.
Proof. solve_decision. Defined.

(** [autoscalerErrorImpl], the only [AutoscalerError]. *)
Record AutoscalerError : Type := mkAutoscalerError {
  errorType : string; wrappedErr : option go_error; msg : string
}.
#[export] Instance AutoscalerError_eq_dec : EqDecision AutoscalerError.
Proof. solve_decision. Defined.

(** [AutoscalerError] as an [error]. *)
Definition as_error (e : AutoscalerError) : go_error :=
  match wrappedErr e with
  | None => TypedError (errorType e) (msg e)
  | Some w => WrappingError (errorType e) w (msg e)
  end.

Fixpoint error_text (e : go_error) : string :=
  match e with
  | PlainError _ text => text
  | TypedError _ msg => msg
  | WrappingError _ e msg => msg +:+ error_text e
  end.

Definition Error (e : AutoscalerError) : string := error_text (as_error e).

Definition NewAutoscalerError (errorType msg : string) : AutoscalerError :=
  mkAutoscalerError errorType None msg.

(** An [AutoscalerError] is not wrapped, and [nil] stays [nil]. *)
Definition typed_error (defaultType : string) (err : go_error) : AutoscalerError :=
  match err with
  | TypedError t m => mkAutoscalerError t None m
  | WrappingError t w m => mkAutoscalerError t (Some w) m
  | PlainError _ _ => mkAutoscalerError defaultType (Some err) ""
  end.

Definition ToAutoscalerError (defaultType : string) (err : option go_error) : option AutoscalerError :=
  match err with Some e => Some (typed_error defaultType e) | None => None end.

Definition AddPrefix (e : AutoscalerError) (prefix : string) : AutoscalerError :=
  mkAutoscalerError (errorType e) (Some (as_error e)) prefix.

Lemma Error_AddPrefix e prefix : Error (AddPrefix e prefix) = prefix +:+ Error e.
Proof. done. Qed.

(** ** Combining *)

(** Go compares strings by their bytes. *)
Definition string_less (a b : string) : bool := negb (String.leb b a).

Definition error_less (errA errB : AutoscalerError) : bool :=
  if bool_decide (errorType errA = errorType errB) then string_less (Error errA) (Error errB)
  else string_less (errorType errA) (errorType errB).

Section combine.
Context `{SB : SortSliceBy} (quote : string → string).  (* the verb %q *)

(** The builder and the keys of [formattedErrs]. *)
Definition format_step (printErrorTypes : bool) (st : string * list AutoscalerError)
    (err : AutoscalerError) : string * list AutoscalerError :=
  let '(builder, formattedErrs) := st in
  if decide (err ∈ formattedErrs) then st
  else
    let formattedErrs := formattedErrs ++ [err] in
    let message := if printErrorTypes then "[" +:+ errorType err +:+ "] " +:+ Error err else Error err in
    let builder := if 2 <? ⟪ formattedErrs ⟫ then builder +:+ ", " else builder in
    (builder +:+ quote message, formattedErrs).

Definition formatMessageFromErrors (firstErr : AutoscalerError) (errs : list AutoscalerError)
    (printErrorTypes : bool) : string :=
  (foldl (format_step printErrorTypes) (Error firstErr +:+ " ...and other errors: [", [firstErr]) errs).1
  +:+ "]".

Definition uniqueTypes (errs : list AutoscalerError) : gset string := list_to_set (errorType <$> errs).
Definition uniqueMessages (errs : list AutoscalerError) : gset string := list_to_set (Error <$> errs).

Definition Combine (errs : list AutoscalerError) : option AutoscalerError :=
  match errs with
  | [] => None
  | [err] => Some err
  | err :: _ =>
      if (Z.of_nat (size (uniqueTypes errs)) =? 1) && (Z.of_nat (size (uniqueMessages errs)) =? 1) then Some err
      else
        match sort_by error_less errs with
        | [] => None
        | firstErr :: _ as sorted =>
            Some (NewAutoscalerError (errorType firstErr)
                    (formatMessageFromErrors firstErr sorted (1 <? Z.of_nat (size (uniqueTypes errs)))))
        end
  end.
End combine.

(** ** The combined error does not depend on the order *)

(** What an error shows. *)
Definition shows (e : AutoscalerError) : string * string := (errorType e, Error e).

Definition shows_le (v w : string * string) : Prop :=
  if decide (v.1 = w.1) then String.le v.2 w.2 else String.le v.1 w.1.

#[local] Instance shows_le_trans : Transitive shows_le.
Proof.
  intros [a1 a2] [b1 b2] [c1 c2]. unfold shows_le. simpl.
  repeat case_decide; subst; try done; intros Hx Hy; try (by etransitivity).
  assert (b1 = c1) by (by apply (anti_symm String.le)). congruence.
Qed.

#[local] Instance shows_le_antisymm : AntiSymm (=) shows_le.
Proof.
  intros [a1 a2] [b1 b2]. unfold shows_le. simpl. repeat case_decide; subst; try done; intros Hx Hy.
  - f_equal. by apply (anti_symm String.le).
  - assert (a1 = b1) by (by apply (anti_symm String.le)). congruence.
Qed.

Lemma error_less_shows x y : error_less y x = false ↔ shows_le (shows x) (shows y).
Proof.
  unfold error_less, shows_le, string_less, String.le, shows. cbn [fst snd].
  case_bool_decide; case_decide; try congruence; rewrite negb_false_iff; by rewrite <- Is_true_true.
Qed.

Lemma error_less_trans : Transitive (λ x y, error_less y x = false).
Proof. intros x y z. rewrite !error_less_shows. apply shows_le_trans. Qed.

Lemma error_less_total : Total (λ x y, error_less y x = false).
Proof.
  intros x y. rewrite !error_less_shows. unfold shows_le.
  repeat case_decide; try congruence; apply String.le_total.
Qed.

Lemma StronglySorted_sublist {A} (R : relation A) l k :
  sublist l k → StronglySorted R k → StronglySorted R l.
Proof.
  induction 1 as [|x l k Hs IH|x l k Hs IH]; [done| |]; intros Hk; apply StronglySorted_cons in Hk as [Hx Hk].
  - constructor; [by apply IH|]. apply Forall_forall. intros y Hy. rewrite Forall_forall in Hx.
    apply Hx. by eapply elem_of_sublist.
  - by apply IH.
Qed.

Section combine_proofs.
Context `{SB : SortSliceBy} (quote : string → string).

(** The errors the message adds, in order. *)
Fixpoint fresh_errors (seen : list AutoscalerError) (errs : list AutoscalerError) : list AutoscalerError :=
  match errs with
  | [] => []
  | e :: errs => if decide (e ∈ seen) then fresh_errors seen errs else e :: fresh_errors (seen ++ [e]) errs
  end.

Definition print_step (printErrorTypes : bool) (st : string * Z) (v : string * string) : string * Z :=
  let message := if printErrorTypes then "[" +:+ v.1 +:+ "] " +:+ v.2 else v.2 in
  ((if 2 <? st.2 + 1 then st.1 +:+ ", " else st.1) +:+ quote message, st.2 + 1).

Lemma format_loop ptypes errs : ∀ builder seen,
  (foldl (format_step quote ptypes) (builder, seen) errs).1 =
  (foldl (print_step ptypes) (builder, ⟪ seen ⟫) (shows <$> fresh_errors seen errs)).1.
Proof.
  induction errs as [|e errs IH]; intros builder seen; [done|]. simpl.
  destruct (decide (e ∈ seen)) as [Hin|Hin]; [apply IH|].
  rewrite IH, length_app. cbn [fmap list_fmap foldl]. unfold print_step at 3. cbn [fst snd length shows].
  replace (Z.of_nat (length seen + 1)) with (Z.of_nat (length seen) + 1) by lia. done.
Qed.

Lemma fresh_sublist errs : ∀ seen, sublist (fresh_errors seen errs) errs.
Proof.
  induction errs as [|e errs IH]; intros seen; simpl; [done|]. destruct (decide _).
  - by apply sublist_cons.
  - by apply sublist_skip.
Qed.

Lemma fresh_elem errs x : ∀ seen, x ∈ fresh_errors seen errs ↔ x ∈ errs ∧ x ∉ seen.
Proof.
  induction errs as [|e errs IH]; intros seen; simpl; [split; [intros []%not_elem_of_nil|by intros [[]%not_elem_of_nil _]]|].
  destruct (decide (e ∈ seen)) as [Hin|Hin].
  - rewrite IH, elem_of_cons. split; [naive_solver|]. intros [[->|?] ?]; [done|by split].
  - rewrite !elem_of_cons, IH, elem_of_app, list_elem_of_singleton.
    destruct (decide (x = e)) as [->|]; tauto.
Qed.

Lemma fresh_NoDup errs : ∀ seen, NoDup (fresh_errors seen errs).
Proof.
  induction errs as [|e errs IH]; intros seen; simpl; [constructor|]. destruct (decide _); [done|].
  constructor; [|done]. rewrite fresh_elem, elem_of_app, list_elem_of_singleton. tauto.
Qed.

Lemma StronglySorted_le l : StronglySorted (λ x y, error_less y x = false) l →
  StronglySorted shows_le (shows <$> l).
Proof.
  induction 1 as [|x l Hl IH Hx]; constructor; [done|]. apply Forall_fmap.
  eapply Forall_impl; [exact Hx|]. intros y Hy. by apply error_less_shows.
Qed.

(** The errors as the message lists them, the first one in front. *)
Lemma listed_views errs errs' first rest first' rest' :
  errs ≡ₚ errs' → sort_by error_less errs = first :: rest → sort_by error_less errs' = first' :: rest' →
  shows first = shows first' ∧
  shows <$> fresh_errors [first] rest = shows <$> fresh_errors [first'] rest'.
Proof.
  intros Hp Hs Hs'.
  assert (∀ es f r, sort_by error_less es = f :: r →
    StronglySorted shows_le (shows <$> f :: fresh_errors [f] r) ∧
    NoDup (f :: fresh_errors [f] r) ∧ ∀ x, x ∈ f :: fresh_errors [f] r ↔ x ∈ es) as Hsorted.
  { intros es f r Hes. split_and!.
    - apply StronglySorted_le. eapply StronglySorted_sublist; [apply sublist_skip, fresh_sublist|].
      rewrite <- Hes. apply sort_by_sorted; [apply error_less_trans|apply error_less_total].
    - constructor; [|apply fresh_NoDup]. rewrite fresh_elem, list_elem_of_singleton. tauto.
    - intros x. rewrite <- (sort_by_perm error_less es), Hes, !elem_of_cons, fresh_elem, list_elem_of_singleton.
      destruct (decide (x = f)); tauto. }
  destruct (Hsorted _ _ _ Hs) as (Hso & Hnd & Hin), (Hsorted _ _ _ Hs') as (Hso' & Hnd' & Hin').
  assert (shows <$> first :: fresh_errors [first] rest = shows <$> first' :: fresh_errors [first'] rest') as Heq.
  { apply (StronglySorted_unique shows_le); [done..|]. apply fmap_Permutation, NoDup_Permutation; [done..|].
    intros x. by rewrite Hin, Hin', Hp. }
  injection Heq as Ht Hm Htl. split; [by unfold shows; f_equal|done].
Qed.

Lemma sets_perm errs errs' : errs ≡ₚ errs' →
  uniqueTypes errs = uniqueTypes errs' ∧ uniqueMessages errs = uniqueMessages errs'.
Proof.
  intros Hp. unfold uniqueTypes, uniqueMessages.
  split; apply set_eq; intros x; rewrite !elem_of_list_to_set, !list_elem_of_fmap; by setoid_rewrite Hp.
Qed.

(** When all errors show the same, it does not matter which one is first. *)
Lemma one_view errs x y :
  size (uniqueTypes errs) = 1%nat → size (uniqueMessages errs) = 1%nat → x ∈ errs → y ∈ errs → shows x = shows y.
Proof.
  intros [t Ht]%size_1_elem_of [m Hm]%size_1_elem_of Hx Hy. unfold shows.
  assert (∀ z, z ∈ errs → errorType z = t ∧ Error z = m) as Hz.
  { intros z Hz. split; apply (elem_of_singleton (C := gset string)); [rewrite <- Ht|rewrite <- Hm];
      apply elem_of_list_to_set; by apply list_elem_of_fmap_2. }
  destruct (Hz x Hx) as [-> ->], (Hz y Hy) as [-> ->]. done.
Qed.

Lemma sort_cons (less : AutoscalerError → AutoscalerError → bool) e errs :
  ∃ f r, sort_by less (e :: errs) = f :: r.
Proof.
  pose proof (sort_by_perm less (e :: errs)) as Hq. destruct (sort_by less (e :: errs)) as [|f r]; [|by eexists _, _].
  by apply Permutation_nil_cons in Hq.
Qed.

Lemma Combine_order errs errs' :
  errs ≡ₚ errs' →
  shows <$> Combine quote errs = shows <$> Combine quote errs' ∧
  (Combine quote errs = None ↔ errs = []) ∧
  (∀ e, errs = [e] → Combine quote errs = Some e).
Proof.
  intros Hp. split; [|split; [|by intros e ->]].
  2:{ destruct errs as [|e [|e2 errs]]; [done..|]. unfold Combine.
      destruct (sort_cons error_less e (e2 :: errs)) as (f & r & ->). by destruct (_ && _). }
  destruct errs as [|e [|e2 errs]]; [by apply Permutation_nil_l in Hp as ->| |].
  { apply Permutation_singleton_l in Hp as ->. done. }
  destruct errs' as [|e' [|e2' errs']]; [by apply Permutation_nil_r in Hp|
    by apply Permutation_singleton_r in Hp|].
  destruct (sets_perm _ _ Hp) as [HT HM]. unfold Combine. rewrite HT, HM.
  destruct (_ && _) eqn:Hone.
  - apply andb_true_iff in Hone as [H1 H2]. simpl. f_equal.
    apply (one_view (e' :: e2' :: errs')); [lia|lia|rewrite <- Hp; left|left].
  - destruct (sort_cons error_less e (e2 :: errs)) as (f & r & Hs),
      (sort_cons error_less e' (e2' :: errs')) as (f' & r' & Hs').
    destruct (listed_views _ _ _ _ _ _ Hp Hs Hs') as [Hf Hl]. rewrite Hs, Hs'. injection Hf as Hft Hfm.
    cbn [fmap option_fmap option_map]. unfold formatMessageFromErrors. by rewrite !format_loop, Hl, Hft, Hfm.
Qed.

End combine_proofs.

Module ErrorExample.
Definition quote (s : string) : string := s.
(** Two groups fail alike and one is over its quota. *)
Definition e1 : AutoscalerError := mkAutoscalerError CloudProviderError (Some (PlainError 1 "out of stock")) "a: ".
Definition e2 : AutoscalerError := mkAutoscalerError CloudProviderError (Some (PlainError 2 "out of stock")) "a: ".
Definition e3 : AutoscalerError := NewAutoscalerError InternalError "b".
End ErrorExample.

Example combined_text :
  Error <$> Combine ErrorExample.quote [ErrorExample.e3; ErrorExample.e2; ErrorExample.e1] =
  Some "a: out of stock ...and other errors: [[cloudProviderError] a: out of stock, [internalError] b]".
Proof. vm_compute. reflexivity. Qed.

