(* ===== verification/Api.v ===== *)
(** The Kubernetes and cloud-provider objects the core components exchange:
    the fields of [apiv1.Node] and [apiv1.Taint] the autoscaler reads, and the
    answers of a [cloudprovider.NodeGroup]
    (src/pkg/cloudprovider/cloud_provider.go). *)
From stdpp Require Import prelude gmap strings list numbers fin_maps.
From S2P Require Import Prelude Float64.
Local Open Scope Z_scope.

(** ** Kubernetes *)

Inductive TaintEffect : Type := NoSchedule | PreferNoSchedule | NoExecute.
#[export] Instance TaintEffect_eq_dec : EqDecision TaintEffect.
Proof. solve_decision. Defined.

Record Taint : Type := mkTaint {
  Taint_Key : string;
  Taint_Value : string;
  Taint_Effect : TaintEffect;
  Taint_TimeAdded : option Z
}.
#[export] Instance Taint_eq_dec : EqDecision Taint.
Proof. solve_decision. Defined.

Inductive ConditionStatus : Type := ConditionTrue | ConditionFalse | ConditionUnknown.
#[export] Instance ConditionStatus_eq_dec : EqDecision ConditionStatus.
Proof. solve_decision. Defined.

Record NodeCondition : Type := mkCondition {
  Condition_Type : string;
  Condition_Status : ConditionStatus;
  Condition_Reason : string;
  Condition_LastTransitionTime : Z
}.
#[export] Instance NodeCondition_eq_dec : EqDecision NodeCondition.
Proof. solve_decision. Defined.

(** [apiv1.Node]: metadata, spec and status fields in use. *)
Record Node : Type := mkNode {
  Name : string;
  ProviderID : string;
  Labels : gmap string string;
  Annotations : gmap string string;
  Taints : list Taint;
  Unschedulable : bool;
  CreationTimestamp : Z;
  Conditions : list NodeCondition
}.
#[export] Instance Node_eq_dec : EqDecision Node.
Proof. solve_decision. Defined.

(** A node of which only the name is set. *)
Definition named_node (name : string) : Node := mkNode name "" ∅ ∅ [] false 0 [].

(** ** Cloud provider *)

(** An error value: [ErrNotImplemented] is compared by identity, every other
    error is only reported. *)
Inductive cp_error : Type := ErrNotImplemented | OtherError (msg : string).
#[export] Instance cp_error_eq_dec : EqDecision cp_error.
Proof. solve_decision. Defined.

(** [config.NodeGroupAutoscalingOptions], durations in nanoseconds. *)
Record NodeGroupAutoscalingOptions : Type := mkOptions {
  ScaleDownUtilizationThreshold : float64;
  ScaleDownGpuUtilizationThreshold : float64;
  ScaleDownUnneededTime : Z;
  ScaleDownUnreadyTime : Z;
  MaxNodeProvisionTime : Z;
  MaxNodeStartupTime : Z;
  ZeroOrMaxNodeScaling : bool;
  AllowNonAtomicScaleUpToMax : bool;
  IgnoreDaemonSetsUtilization : bool
}.

(** What one [cloudprovider.NodeGroup] answers while one routine runs. A
    method of type [(T, error)] answers a pair when its caller reads the value
    even though an error came with it. *)
Record NodeGroup : Type := mkNodeGroup {
  Id : string;
  MinSize : Z;
  MaxSize : Z;
  TargetSize : result cp_error Z;
  Nodes : result cp_error (list string);
  GetOptions : NodeGroupAutoscalingOptions →
    option NodeGroupAutoscalingOptions * option cp_error
}.

(** ** [strconv.ParseBool] *)

Definition ParseBool (s : string) : option bool :=
  if decide (s ∈ ["1"; "t"; "T"; "true"; "TRUE"; "True"])%string then Some true
  else if decide (s ∈ ["0"; "f"; "F"; "false"; "FALSE"; "False"])%string then Some false
  else None.
