(* ===== verification/Drain.v ===== *)
(** Pods as the scale-down code reads them: the fields of [apiv1.Pod] in use,
    the helpers of src/pkg/utils/drain/drain.go and src/pkg/utils/pod/pod.go,
    and the clearing of TPU requests (src/pkg/utils/tpu/tpu.go). *)
From Stdlib Require Import Ascii String.
From stdpp Require Import prelude gmap strings list numbers fin_maps.
From S2P Require Import Prelude Api.
Local Open Scope Z_scope.

(** ** Pods *)

Record OwnerReference : Type := mkOwner {
  OwnerAPIVersion : string;
  OwnerKind : string;
  OwnerName : string;
  OwnerUID : string;
  OwnerController : option bool
}.
#[export] Instance OwnerReference_eq_dec : EqDecision OwnerReference.
Proof. solve_decision. Defined.

Inductive RestartPolicy : Type := RestartPolicyAlways | RestartPolicyOnFailure | RestartPolicyNever.
#[export] Instance RestartPolicy_eq_dec : EqDecision RestartPolicy.
Proof. solve_decision. Defined.

Inductive PodPhase : Type := PodPending | PodRunning | PodSucceeded | PodFailed | PodUnknown.
#[export] Instance PodPhase_eq_dec : EqDecision PodPhase.
Proof. solve_decision. Defined.

(** [EmptyDir] is the medium of the directory, [VolumeClaim] the name of the
    persistent volume claim. *)
Record Volume : Type := mkVolume {
  VolumeName : string;
  HostPath : option string;
  EmptyDir : option string;
  VolumeClaim : option string
}.
#[export] Instance Volume_eq_dec : EqDecision Volume.
Proof. solve_decision. Defined.

(** A nil annotation map reads like an empty one. A container is its resource
    requests; of the resource claims only their names matter here. The zero
    creation time is [None]. [PodScheduledCondition] is the status and the
    reason of the condition PodScheduled, if the pod has it. *)
Record Pod : Type := mkPod {
  PodNamespace : string;
  PodName : string;
  PodUID : string;
  PodLabels : gmap string string;
  PodAnnotations : gmap string string;
  PodOwnerReferences : list OwnerReference;
  PodCreationTimestamp : option Z;
  PodDeletionTimestamp : option Z;
  PodTerminationGracePeriodSeconds : option Z;
  PodRestartPolicy : RestartPolicy;
  PodStatusPhase : PodPhase;
  PodVolumes : list Volume;
  PodContainers : list (gmap string Z);
  PodResourceClaims : list string;
  PodSpecPriority : option Z;
  PodNominatedNodeName : string;
  PodNodeName : string;
  PodSchedulerName : string;
  PodScheduledCondition : option (ConditionStatus * string)
}.
#[export] Instance Pod_eq_dec : EqDecision Pod.
Proof. solve_decision. Defined.

(** ** Reasons *)

Module BlockingPodReason.
Inductive t : Type :=
| NoReason | ControllerNotFound | MinReplicasReached | NotReplicated | LocalStorageRequested
| NotSafeToEvictAnnotation | UnmovableKubeSystemPod | NotEnoughPdb | UnexpectedError.
#[export] Instance eq_dec : EqDecision t.
Proof. solve_decision. Defined.

Definition String (e : t) : string :=
  match e with
  | NoReason => "NoReason"
  | ControllerNotFound => "ControllerNotFound"
  | MinReplicasReached => "MinReplicasReached"
  | NotReplicated => "NotReplicated"
  | LocalStorageRequested => "LocalStorageRequested"
  | NotSafeToEvictAnnotation => "NotSafeToEvictAnnotation"
  | UnmovableKubeSystemPod => "UnmovableKubeSystemPod"
  | NotEnoughPdb => "NotEnoughPdb"
  | UnexpectedError => "UnexpectedError"
  end.
End BlockingPodReason.

Record BlockingPod : Type := mkBlocking {
  BlockPod : Pod;
  BlockReason : BlockingPodReason.t
}.

(** ** Third-party helpers *)

(** What the code uses of the Kubernetes libraries on pods:
    [metav1.GetControllerOf], [schema.ParseGroupVersion] (the group, or
    nothing for an error), the annotation keys of the kubelet and the default
    grace period. *)
Class KubeLib : Type := {
  GetControllerOf : list OwnerReference → option OwnerReference;
  ParseGroupVersion : string → option string;
  ConfigMirrorAnnotationKey : string;
  ConfigSourceAnnotationKey : string;
  ApiserverSource : string;
  DefaultTerminationGracePeriodSeconds : Z
}.

(** A plain running pod, to evaluate the model with. *)
Definition simple_pod (ns name : string) (labels : gmap string string) (volumes : list Volume) : Pod :=
  mkPod ns name name labels ∅ [] None None None RestartPolicyAlways PodRunning volumes [] [] None "" "" "default-scheduler" None.

(** Documented values, to evaluate the model with: the controller is the first
    reference marked so; the group is what precedes the slash. *)
Definition demo_kubelib : KubeLib := {|
  GetControllerOf refs := snd <$> list_find (λ r, OwnerController r = Some true) refs;
  ParseGroupVersion v := if bool_decide (v = "apps/v1"%string) then Some "apps"%string else Some ""%string;
  ConfigMirrorAnnotationKey := "kubernetes.io/config.mirror";
  ConfigSourceAnnotationKey := "kubernetes.io/config.source";
  ApiserverSource := "api";
  DefaultTerminationGracePeriodSeconds := 30
|}.

(** ** [strings.Split(s, ",")] and [strings.HasPrefix] *)

Fixpoint Split (sep : ascii) (s : string) : list string :=
  match s with
  | EmptyString => [""]
  | String.String c s' =>
      let l := Split sep s' in
      if bool_decide (c = sep) then "" :: l
      else match l with
           | w :: l' => String.String c w :: l'
           | [] => [String.String c ""]
           end
  end.

Fixpoint Join (sep : string) (l : list string) : string :=
  match l with
  | [] => ""
  | [w] => w
  | w :: l' => w +:+ sep +:+ Join sep l'
  end.

Definition HasPrefix (s p : string) : bool := String.prefix p s.

(** Splitting and joining are inverse to each other. *)
Lemma Split_not_nil sep s : Split sep s ≠ [].
Proof. destruct s as [|c s]; simpl; [done|]. case_bool_decide; [done|]. by destruct (Split sep s). Qed.

Lemma Join_Split sep s : Join (String.String sep "") (Split sep s) = s.
Proof.
  induction s as [|c s IH]; [done|]. cbn [Split]. pose proof (Split_not_nil sep s).
  destruct (Split sep s) as [|w l]; [done|]. case_bool_decide as Hc.
  - rewrite Hc. change (String.String sep (Join (String.String sep "") (w :: l)) = String.String sep s).
    by rewrite IH.
  - rewrite <- IH. by destruct l.
Qed.

Lemma Split_app sep w s :
  sep ∉ list_ascii_of_string w → Split sep (w +:+ String.String sep s) = w :: Split sep s.
Proof.
  induction w as [|c w IH]; cbn [String.append list_ascii_of_string]; intros Hw.
  - simpl. by rewrite bool_decide_true.
  - change (String.String c w +:+ ?s) with (String.String c (w +:+ s)). cbn [Split].
    rewrite bool_decide_false by set_solver. by rewrite IH by set_solver.
Qed.

Lemma Split_word sep w : sep ∉ list_ascii_of_string w → Split sep w = [w].
Proof.
  induction w as [|c w IH]; simpl; intros Hw; [done|].
  rewrite bool_decide_false by set_solver. by rewrite IH by set_solver.
Qed.

Lemma Split_Join sep l :
  l ≠ [] → Forall (λ w, sep ∉ list_ascii_of_string w) l →
  Split sep (Join (String.String sep "") l) = l.
Proof.
  intros Hl Hall. induction Hall as [|w l Hw Hall IH]; [done|]. destruct l as [|w' l].
  - by apply Split_word.
  - change (Join _ (w :: w' :: l)) with
      (w +:+ String.String sep "" +:+ Join (String.String sep "") (w' :: l)).
    change (String.String sep "" +:+ ?s) with (String.String sep s). rewrite Split_app by done.
    by rewrite IH.
Qed.

Section helpers.
Context `{GR : GoRange} `{KubeLib}.
Implicit Types (pod : Pod) (volume : Volume).

(** ** utils/drain *)

Definition PodLongTerminatingExtraThreshold : Z := 30 * 10 ^ 9.
Definition PodSafeToEvictKey : string := "cluster-autoscaler.kubernetes.io/safe-to-evict".
Definition PodSafeToEvictOnCompletionValue : string := "on-completion".
Definition SafeToEvictLocalVolumesKey : string :=
  "cluster-autoscaler.kubernetes.io/safe-to-evict-local-volumes".
Definition StorageMediumMemory : string := "Memory".

(** A missing annotation reads as the empty string. *)
Definition annotation pod (key : string) : string := default "" (PodAnnotations pod !! key).

Definition ControllerRef pod : option OwnerReference := GetControllerOf (PodOwnerReferences pod).

Definition IsPodTerminal pod : bool :=
  if bool_decide (PodRestartPolicy pod = RestartPolicyNever) &&
     (bool_decide (PodStatusPhase pod = PodSucceeded) || bool_decide (PodStatusPhase pod = PodFailed))
  then true
  else if bool_decide (PodRestartPolicy pod = RestartPolicyOnFailure) &&
          bool_decide (PodStatusPhase pod = PodSucceeded)
  then true
  else bool_decide (PodStatusPhase pod = PodFailed).

Definition getNonBlockingVolumes pod : gmap string bool :=
  let annotationVal := annotation pod SafeToEvictLocalVolumesKey in
  if bool_decide (annotationVal = "") then ∅
  else foldl (λ m v, <[v := true]> m) ∅ (Split "," annotationVal).

Definition isLocalVolume volume : bool :=
  bool_decide (is_Some (HostPath volume)) ||
  match EmptyDir volume with
  | Some medium => negb (bool_decide (medium = StorageMediumMemory))
  | None => false
  end.

Definition HasBlockingLocalStorage pod : bool :=
  let isNonBlocking := getNonBlockingVolumes pod in
  existsb (λ volume, isLocalVolume volume && negb (default false (isNonBlocking !! VolumeName volume)))
    (PodVolumes pod).

Definition HasSafeToEvictAnnotation pod : bool :=
  bool_decide (annotation pod PodSafeToEvictKey = "true").
Definition HasSafeToEvictOnCompletionAnnotation pod : bool :=
  bool_decide (annotation pod PodSafeToEvictKey = PodSafeToEvictOnCompletionValue).
Definition HasNotSafeToEvictAnnotation pod : bool :=
  bool_decide (annotation pod PodSafeToEvictKey = "false").

(** The product of seconds and nanoseconds is a 64-bit duration. *)
Definition IsPodLongTerminating pod (currentTime : Z) : bool :=
  match PodDeletionTimestamp pod with
  | None => false
  | Some deletion =>
      let gracePeriod := default DefaultTerminationGracePeriodSeconds
                           (PodTerminationGracePeriodSeconds pod) in
      deletion + wrap64 (gracePeriod * 10 ^ 9) + PodLongTerminatingExtraThreshold <? currentTime
  end.

(** ** utils/pod *)

Definition DaemonSetPodAnnotationKey : string := "cluster-autoscaler.kubernetes.io/daemonset-pod".

Definition IsDaemonSetPod pod : bool :=
  match GetControllerOf (PodOwnerReferences pod) with
  | Some ref => bool_decide (OwnerKind ref = "DaemonSet")
  | None => false
  end || bool_decide (annotation pod DaemonSetPodAnnotationKey = "true").

Definition IsMirrorPod pod : bool :=
  bool_decide (is_Some (PodAnnotations pod !! ConfigMirrorAnnotationKey)).

Definition IsStaticPod pod : bool :=
  match PodAnnotations pod !! ConfigSourceAnnotationKey with
  | Some source => negb (bool_decide (source = ApiserverSource))
  | None => false
  end.

Definition FilterRecreatablePods (pods : list Pod) : list Pod :=
  foldl (λ filtered p, if IsStaticPod p || IsMirrorPod p || IsDaemonSetPod p then filtered
                       else filtered ++ [p]) [] pods.

Definition clear_node_name pod : Pod :=
  mkPod (PodNamespace pod) (PodName pod) (PodUID pod) (PodLabels pod) (PodAnnotations pod)
    (PodOwnerReferences pod) (PodCreationTimestamp pod) (PodDeletionTimestamp pod)
    (PodTerminationGracePeriodSeconds pod) (PodRestartPolicy pod) (PodStatusPhase pod)
    (PodVolumes pod) (PodContainers pod) (PodResourceClaims pod) (PodSpecPriority pod)
    (PodNominatedNodeName pod) "" (PodSchedulerName pod) (PodScheduledCondition pod).

Definition ClearPodNodeNames (pods : list Pod) : list Pod :=
  foldl (λ newPods pod, newPods ++ [clear_node_name pod]) [] pods.

(** ** utils/tpu *)

Definition ResourceTPUPrefix : string := "cloud-tpus.google.com/".

Definition hasTPURequest pod : bool :=
  existsb (λ requests, existsb (λ kv, HasPrefix kv.1 ResourceTPUPrefix) (go_range requests))
    (PodContainers pod).

Definition clear_tpu (requests : gmap string Z) : gmap string Z :=
  foldl (λ m (kv : string * Z), if HasPrefix kv.1 ResourceTPUPrefix then delete kv.1 m else m)
    requests (go_range requests).

Definition clearTPURequest pod : Pod :=
  mkPod (PodNamespace pod) (PodName pod) (PodUID pod) (PodLabels pod) (PodAnnotations pod)
    (PodOwnerReferences pod) (PodCreationTimestamp pod) (PodDeletionTimestamp pod)
    (PodTerminationGracePeriodSeconds pod) (PodRestartPolicy pod) (PodStatusPhase pod)
    (PodVolumes pod) (clear_tpu <$> PodContainers pod) (PodResourceClaims pod) (PodSpecPriority pod)
    (PodNominatedNodeName pod) (PodNodeName pod) (PodSchedulerName pod) (PodScheduledCondition pod).

(** The sanitized pods by index, and the copy of the slice with them in place. *)
Definition pods_with_tpu (pods : list Pod) : gmap nat Pod :=
  (foldl (λ (st : nat * gmap nat Pod) pod,
     (S st.1, if hasTPURequest pod then <[st.1 := clearTPURequest pod]> st.2 else st.2)) (O, ∅) pods).2.

Definition ClearTPURequests (pods : list Pod) : list Pod :=
  let podsWithTPU := pods_with_tpu pods in
  if bool_decide (size podsWithTPU = 0)%nat then pods
  else imap (λ i pod, match podsWithTPU !! i with Some sanitized => sanitized | None => pod end) pods.

(** ** What they compute *)

Lemma lookup_mark_all (l : list string) (m : gmap string bool) (v : string) :
  foldl (λ m v, <[v := true]> m) m l !! v = if decide (v ∈ l) then Some true else m !! v.
Proof.
  revert m. induction l as [|w l IH]; intros m; cbn [foldl]; [by rewrite decide_False by set_solver|].
  rewrite IH, lookup_insert. repeat case_decide; set_solver.
Qed.

(** The names a pod lists as not blocking. *)
Definition listed_volumes pod : list string :=
  let val := annotation pod SafeToEvictLocalVolumesKey in
  if bool_decide (val = "") then [] else Split "," val.

Lemma HasBlockingLocalStorage_spec pod :
  HasBlockingLocalStorage pod = true ↔
  ∃ v, v ∈ PodVolumes pod ∧ isLocalVolume v = true ∧ VolumeName v ∉ listed_volumes pod.
Proof.
  unfold HasBlockingLocalStorage, getNonBlockingVolumes, listed_volumes. rewrite existsb_exists.
  setoid_rewrite andb_true_iff. setoid_rewrite negb_true_iff.
  apply exist_proper. intros v. rewrite list_elem_of_In.
  do 2 (apply and_iff_compat_l). case_bool_decide.
  - rewrite lookup_empty. simpl. set_solver.
  - rewrite lookup_mark_all, lookup_empty. case_decide; simpl; naive_solver.
Qed.

Lemma FilterRecreatablePods_filter pods :
  FilterRecreatablePods pods =
  filter (λ p, IsStaticPod p || IsMirrorPod p || IsDaemonSetPod p = false) pods.
Proof.
  unfold FilterRecreatablePods. induction pods as [|p pods IH] using rev_ind; [done|].
  rewrite foldl_app, filter_app, filter_cons, filter_nil, IH. cbn [foldl].
  destruct (IsStaticPod p || IsMirrorPod p || IsDaemonSetPod p);
    [by rewrite decide_False, app_nil_r|by rewrite decide_True].
Qed.

Lemma ClearPodNodeNames_fmap pods : ClearPodNodeNames pods = clear_node_name <$> pods.
Proof. unfold ClearPodNodeNames. by rewrite foldl_snoc_fmap. Qed.

Lemma lookup_clear_tpu requests k :
  clear_tpu requests !! k = if HasPrefix k ResourceTPUPrefix then None else requests !! k.
Proof.
  unfold clear_tpu. rewrite (lookup_range_delete_if (λ k _, HasPrefix k ResourceTPUPrefix)).
  destruct (requests !! k), (HasPrefix k ResourceTPUPrefix); done.
Qed.

Lemma hasTPURequest_false pod :
  hasTPURequest pod = false ↔
  ∀ requests k, requests ∈ PodContainers pod → HasPrefix k ResourceTPUPrefix = true →
    requests !! k = None.
Proof.
  unfold hasTPURequest. rewrite <- not_true_iff_false, existsb_exists.
  setoid_rewrite existsb_exists. split.
  - intros Hn m k Hm Hk. apply eq_None_not_Some. intros [v Hv]. apply Hn. exists m.
    split; [by apply list_elem_of_In|]. exists (k, v). split; [|done].
    by apply list_elem_of_In, elem_of_go_range.
  - intros Hall (m & Hm & [k v] & Hkv & Hk). apply list_elem_of_In in Hm.
    apply list_elem_of_In, elem_of_go_range in Hkv. simpl in Hk.
    by rewrite (Hall m k Hm Hk) in Hkv.
Qed.

(** A pod without the requests: the pod itself when it has none. *)
Definition without_tpu pod : Pod := if hasTPURequest pod then clearTPURequest pod else pod.

Lemma pods_with_tpu_spec pods i :
  pods_with_tpu pods !! i =
  p ← pods !! i; if hasTPURequest p then Some (clearTPURequest p) else None.
Proof.
  unfold pods_with_tpu. revert i.
  assert (∀ i, (foldl (λ (st : nat * gmap nat Pod) pod,
     (S st.1, if hasTPURequest pod then <[st.1 := clearTPURequest pod]> st.2 else st.2)) (O, ∅) pods).1
     = length pods ∧ (foldl (λ (st : nat * gmap nat Pod) pod,
     (S st.1, if hasTPURequest pod then <[st.1 := clearTPURequest pod]> st.2 else st.2)) (O, ∅) pods).2 !! i
     = p ← pods !! i; if hasTPURequest p then Some (clearTPURequest p) else None) as Hgen;
    [|intros i; apply Hgen].
  induction pods as [|p pods IH] using rev_ind; intros i; [done|].
  rewrite foldl_app. simpl. rewrite (proj1 (IH i)), length_app. split; [simpl; lia|].
  destruct (decide (i = length pods)) as [->|Hne].
  - rewrite list_lookup_middle by done. simpl. destruct (hasTPURequest p); [by rewrite lookup_insert_eq|].
    rewrite (proj2 (IH _)). by rewrite lookup_ge_None_2.
  - assert ((pods ++ [p]) !! i = pods !! i) as ->.
    { destruct (decide (i < length pods)%nat); [by apply lookup_app_l|].
      rewrite !lookup_ge_None_2; [done|lia|rewrite length_app; simpl; lia]. }
    rewrite <- (proj2 (IH i)). destruct (hasTPURequest p); [by rewrite lookup_insert_ne|done].
Qed.

(** The slice is copied only when needed, and either way every pod loses its
    TPU requests and nothing else. *)
Lemma ClearTPURequests_fmap pods : ClearTPURequests pods = without_tpu <$> pods.
Proof.
  unfold ClearTPURequests, without_tpu. apply list_eq. intros i. rewrite list_lookup_fmap.
  case_bool_decide as Hs.
  - pose proof (pods_with_tpu_spec pods i) as Hi. apply map_size_empty_inv in Hs. rewrite Hs, lookup_empty in Hi.
    destruct (pods !! i) as [p|]; [|done]. simpl in *. by destruct (hasTPURequest p).
  - rewrite list_lookup_imap, pods_with_tpu_spec.
    destruct (pods !! i) as [p|]; [|done]. simpl. by destruct (hasTPURequest p).
Qed.

Lemma without_tpu_clean pod : hasTPURequest (without_tpu pod) = false.
Proof.
  unfold without_tpu. destruct (hasTPURequest pod) eqn:Hp; [|done].
  apply hasTPURequest_false. intros m k (m' & -> & _)%list_elem_of_fmap Hk.
  by rewrite lookup_clear_tpu, Hk.
Qed.
End helpers.
