(* ===== verification/Taints.v ===== *)
(** The taints the autoscaler puts on nodes and reads from them
    (src/pkg/utils/taints/taints.go, GetUnreadyNodeCopy of
    src/pkg/utils/kubernetes/ready.go): marking nodes through the API server with
    retries on conflicts, and the taints that are left out of templates or make
    a node unready. *)
From Stdlib Require Import Ascii String.
From stdpp Require Import prelude gmap strings pretty list numbers fin_maps.
From S2P Require Import Prelude Api Drain.
Local Open Scope Z_scope.
Local Open Scope ca_scope.

Definition ToBeDeletedTaint : string := "ToBeDeletedByClusterAutoscaler".
Definition DeletionCandidateTaintKey : string := "DeletionCandidateOfClusterAutoscaler".
Definition IgnoreTaintPrefix : string := "ignore-taint.cluster-autoscaler.kubernetes.io/".
Definition StartupTaintPrefix : string := "startup-taint.cluster-autoscaler.kubernetes.io/".
Definition StatusTaintPrefix : string := "status-taint.cluster-autoscaler.kubernetes.io/".
Definition gkeNodeTerminationHandlerTaint : string := "cloud.google.com/impending-node-termination".
Definition awsNodeWithImpairedVolumesTaint : string := "NodeWithImpairedVolumes".
Definition statusNodeTaintReportedType : string := "status-taint".
Definition startupNodeTaintReportedType : string := "startup-taint".
Definition unlistedNodeTaintReportedType : string := "other".

(** Nanoseconds. *)
Definition maxRetryDeadline : Z := 5 * 10 ^ 9.
Definition conflictRetryInterval : Z := 750 * 10 ^ 6.

(** ** Reading taints *)

Definition HasTaint (node : Node) (taintKey : string) : bool :=
  existsb (λ t, bool_decide (Taint_Key t = taintKey)) (Taints node).

Definition HasToBeDeletedTaint (node : Node) : bool := HasTaint node ToBeDeletedTaint.
Definition HasDeletionCandidateTaint (node : Node) : bool := HasTaint node DeletionCandidateTaintKey.

(** [strconv.ParseInt(s, 10, 64)], in base 10 without underscores. *)
Definition digit_value (c : ascii) : option Z :=
  let n := Z.of_nat (nat_of_ascii c) in
  if (48 <=? n) && (n <=? 57) then Some (n - 48) else None.

Fixpoint parse_digits (acc : Z) (l : list ascii) : option Z :=
  match l with
  | [] => Some acc
  | c :: l' => match digit_value c with
               | Some d => parse_digits (10 * acc + d) l'
               | None => None
               end
  end.

Definition ParseInt (s : string) : option Z :=
  let parse sign l :=
    match l with
    | [] => None
    | _ => match parse_digits 0 l with
           | Some n => if (int64_min <=? sign * n) && (sign * n <=? int64_max)
                       then Some (sign * n) else None
           | None => None
           end
    end in
  match list_ascii_of_string s with
  | "-"%char :: l => parse (-1) l
  | "+"%char :: l => parse 1 l
  | l => parse 1 l
  end.

Inductive taint_error : Type := TaintValueError.

(** Seconds since the epoch become nanoseconds. *)
Definition GetTaintTime (node : Node) (key : string) : result taint_error (option Z) :=
  match list_find (λ t, Taint_Key t = key) (Taints node) with
  | Some (_, t) => match ParseInt (Taint_Value t) with
                   | Some s => Ok (Some (s * 10 ^ 9))
                   | None => Err TaintValueError
                   end
  | None => Ok None
  end.

Definition GetDeletionCandidateTime (node : Node) : result taint_error (option Z) :=
  GetTaintTime node DeletionCandidateTaintKey.

Definition GetToBeDeletedTime (node : Node) : result taint_error (option Z) := GetTaintTime node ToBeDeletedTaint.

(** ** Writing taints *)

Definition set_taints (node : Node) (taints : list Taint) (unschedulable : bool) : Node :=
  mkNode (Name node) (ProviderID node) (Labels node) (Annotations node) taints unschedulable
    (CreationTimestamp node) (Conditions node).

Definition add_taint_step (st : Node * bool) (taint : Taint) : Node * bool :=
  let '(node, taintsAdded) := st in
  if HasTaint node (Taint_Key taint) then (node, taintsAdded)
  else (set_taints node (Taints node ++ [taint]) (Unschedulable node), true).

(** The node with the taints it lacked, or [None] when it lacked none. *)
Definition addTaintsToSpec (node : Node) (taints : list Taint) (cordonNode : bool) : option Node :=
  let '(node, taintsAdded) := foldl add_taint_step (node, false) taints in
  if taintsAdded then Some (set_taints node (Taints node) (cordonNode || Unschedulable node)) else None.

Definition keepTaint (taintKeys : list string) (taint : Taint) : bool :=
  negb (existsb (λ taintKey, bool_decide (Taint_Key taint = taintKey)) taintKeys).

Definition cleanTaintsFromSpec (node : Node) (taintKeys : list string) (cordonNode : bool) : option Node :=
  let newTaints := filter (λ t, keepTaint taintKeys t = true) (Taints node) in
  if bool_decide (length newTaints = length (Taints node)) then None
  else Some (set_taints node newTaints (if cordonNode then false else Unschedulable node)).

(** The node API of the server, whose state other clients change too, and its
    clock: reading it is free, requests take time, and [Sleep] sleeps. *)
Inductive api_error : Type := ConflictError | APIError (msg : string).
#[export] Instance api_error_eq_dec : EqDecision api_error.
Proof. solve_decision. Defined.

Class NodeClient (W : Type) : Type := {
  api_Get : W → string → W * result api_error (option Node);
  api_Update : W → Node → W * option api_error;
  api_Now : W → Z;
  api_Sleep : W → Z → W;
  api_get_time : ∀ w name, api_Now w <= api_Now (api_Get w name).1;
  api_update_time : ∀ w node, api_Now w <= api_Now (api_Update w node).1;
  api_sleep_time : ∀ w d, api_Now w + d <= api_Now (api_Sleep w d)
}.

Inductive update_error : Type := FailedToGet | UpdateFailed (e : api_error).

Section client.
Context {W : Type} `{!NodeClient W}.
Implicit Types (w : W) (node freshNode : Node).

(** The loop of [AddTaints] and of [CleanTaints]: [change] is what they do to
    the fresh copy. [None] when the rounds are used up. *)
Fixpoint update_node (change : Node → option Node) (retryDeadline : Z) node (rounds : nat) w freshNode
    (refresh : bool) : option (W * result update_error Node) :=
  match rounds with
  | O => None
  | Datatypes.S rounds =>
      match (if refresh then
               match api_Get w (Name node) with
               | (w, Ok (Some freshNode)) => (w, Some freshNode)
               | (w, _) => (w, None)
               end
             else (w, Some freshNode)) with
      | (w, None) => Some (w, Err FailedToGet)
      | (w, Some freshNode) =>
          match change freshNode with
          | None => if refresh then Some (w, Ok freshNode)
                    else update_node change retryDeadline node rounds w freshNode true
          | Some freshNode =>
              match api_Update w freshNode with
              | (w, None) => Some (w, Ok freshNode)
              | (w, Some e) =>
                  if bool_decide (e = ConflictError) && (api_Now w <? retryDeadline)
                  then update_node change retryDeadline node rounds (api_Sleep w conflictRetryInterval) freshNode true
                  else Some (w, Err (UpdateFailed e))
              end
          end
      end
  end.

(** Seven conflicts use the deadline up; a first round may only ask for a
    refresh and the last one answers. *)
Definition update_rounds : nat := 9.

Definition AddTaints w node (taints : list Taint) (cordonNode : bool) : option (W * result update_error Node) :=
  update_node (λ n, addTaintsToSpec n taints cordonNode) (api_Now w + maxRetryDeadline) node update_rounds w node false.

Definition CleanTaints w node (taintKeys : list string) (cordonNode : bool) : option (W * result update_error Node) :=
  update_node (λ n, cleanTaintsFromSpec n taintKeys cordonNode) (api_Now w + maxRetryDeadline) node update_rounds w node false.

Definition unix_seconds (t : Z) : string := pretty (t / 10 ^ 9).

Definition MarkToBeDeleted w node (cordonNode : bool) : option (W * result update_error Node) :=
  AddTaints w node [mkTaint ToBeDeletedTaint (unix_seconds (api_Now w)) NoSchedule None] cordonNode.

Definition DeletionCandidateTaint w : Taint :=
  mkTaint DeletionCandidateTaintKey (unix_seconds (api_Now w)) PreferNoSchedule None.

Definition MarkDeletionCandidate w node : option (W * result update_error Node) :=
  AddTaints w node [DeletionCandidateTaint w] false.

Definition CleanToBeDeleted w node (cordonNode : bool) : option (W * result update_error Node) :=
  CleanTaints w node [ToBeDeletedTaint] cordonNode.

Definition CleanDeletionCandidate w node : option (W * result update_error Node) :=
  CleanTaints w node [DeletionCandidateTaintKey] false.

(** The time is read again for every node. *)
Definition getDeletionCandidateTTLCondition (deletionCandidateTTL : Z) w node : bool :=
  if deletionCandidateTTL =? 0 then true
  else match GetDeletionCandidateTime node with
       | Ok (Some markedForDeletionTime) => negb (api_Now w - markedForDeletionTime <? deletionCandidateTTL)
       | _ => true
       end.

(** The events of the recorder: failed, or removed from a node. *)
Inductive cleanup_event : Type := CleanFailed (nodeName : string) | CleanRemoved (nodeName : string).

Definition clean_step (taintKey : string) (cordonNode : bool) (conditions : list (W → Node → bool))
    (st : option (W * list cleanup_event)) node : option (W * list cleanup_event) :=
  '(w, events) ← st;
  if negb (HasTaint node taintKey) then Some (w, events)
  else if negb (forallb (λ condition : W → Node → bool, condition w node) conditions) then Some (w, events)
  else
    '(w, r) ← CleanTaints w node [taintKey] cordonNode;
    Some (w, match r with
             | Err _ => events ++ [CleanFailed (Name node)]
             | Ok updatedNode =>
                 if bool_decide (Taints updatedNode = Taints node) then events
                 else events ++ [CleanRemoved (Name node)]
             end).

Definition CleanAllTaints w (nodes : list Node) (taintKey : string) (cordonNode : bool)
    (conditions : list (W → Node → bool)) : option (W * list cleanup_event) :=
  foldl (clean_step taintKey cordonNode conditions) (Some (w, [])) nodes.

Definition CleanAllToBeDeleted w (nodes : list Node) (cordonNode : bool) : option (W * list cleanup_event) :=
  CleanAllTaints w nodes ToBeDeletedTaint cordonNode [].

Definition CleanStaleDeletionCandidates w (nodes : list Node) (deletionCandidateTTL : Z)
    : option (W * list cleanup_event) :=
  CleanAllTaints w nodes DeletionCandidateTaintKey false [getDeletionCandidateTTLCondition deletionCandidateTTL].
End client.

(** ** Taints with a meaning *)

(** The keys of the taints that Kubernetes puts on nodes in some condition
    (k8s.io/api and k8s.io/cloud-provider). *)
Class ConditionTaintKeys : Type := { kubernetesConditionTaints : gset string }.

Section config.
Context `{!ConditionTaintKeys}.

Definition NodeConditionTaints : gset string :=
  kubernetesConditionTaints ∪ {[ gkeNodeTerminationHandlerTaint; awsNodeWithImpairedVolumesTaint ]}.

Record TaintConfig : Type := mkTaintConfig {
  startupTaints : gset string;
  statusTaints : gset string;
  startupTaintPrefixes : list string;
  statusTaintPrefixes : list string;
  explicitlyReportedTaints : gset string;
  scaleFromUnschedulable : bool
}.

Definition NewTaintConfig (StartupTaints StatusTaints StartupTaintPrefixes : list string)
    (ScaleFromUnschedulable : bool) : TaintConfig :=
  mkTaintConfig (list_to_set StartupTaints) (list_to_set StatusTaints)
    ([IgnoreTaintPrefix; StartupTaintPrefix] ++ StartupTaintPrefixes) [StatusTaintPrefix]
    ({[ ToBeDeletedTaint; DeletionCandidateTaintKey ]} ∪ NodeConditionTaints) ScaleFromUnschedulable.

Definition matchesAnyPrefix (prefixes : list string) (key : string) : bool :=
  existsb (λ prefix, HasPrefix key prefix) prefixes.

Definition IsStartupTaint (tc : TaintConfig) (taint : string) : bool :=
  bool_decide (taint ∈ startupTaints tc) || matchesAnyPrefix (startupTaintPrefixes tc) taint.

Definition IsStatusTaint (tc : TaintConfig) (taint : string) : bool :=
  bool_decide (taint ∈ statusTaints tc) || matchesAnyPrefix (statusTaintPrefixes tc) taint.

Definition isExplicitlyReportedTaint (tc : TaintConfig) (taint : string) : bool :=
  bool_decide (taint ∈ explicitlyReportedTaints tc).

Definition sanitize_step (taintConfig : TaintConfig) (newTaints : list Taint) (taint : Taint) : list Taint :=
  let key := Taint_Key taint in
  if bool_decide (key = ToBeDeletedTaint) then newTaints
  else if bool_decide (key = DeletionCandidateTaintKey) then newTaints
  else if bool_decide (key ∈ NodeConditionTaints) then newTaints
  else if IsStartupTaint taintConfig key || IsStatusTaint taintConfig key then newTaints
  else newTaints ++ [taint].

Definition SanitizeTaints (taints : list Taint) (taintConfig : TaintConfig) : list Taint :=
  foldl (sanitize_step taintConfig) [] taints.

(** *** Nodes with startup taints *)

Definition NodeReadyType : string := "Ready".
Definition StartupNodes : string := "cluster-autoscaler.kubernetes.io/startup-taint".

Definition GetUnreadyNodeCopy (node : Node) (reason : string) : Node :=
  mkNode (Name node) (ProviderID node) (Labels node) (Annotations node) (Taints node) (Unschedulable node)
    (CreationTimestamp node)
    (mkCondition NodeReadyType ConditionFalse reason (CreationTimestamp node) ::
     filter (λ c, Condition_Type c ≠ NodeReadyType) (Conditions node)).

Definition startup_step (taintConfig : TaintConfig) (st : list Node * gmap string Node) (node : Node)
    : list Node * gmap string Node :=
  let '(newReadyNodes, nodesWithStartupTaints) := st in
  if existsb (λ t, IsStartupTaint taintConfig (Taint_Key t)) (Taints node)
  then (newReadyNodes, <[Name node := GetUnreadyNodeCopy node StartupNodes]> nodesWithStartupTaints)
  else (newReadyNodes ++ [node], nodesWithStartupTaints).

Definition FilterOutNodesWithStartupTaints (taintConfig : TaintConfig) (allNodes readyNodes : list Node)
    : list Node * list Node :=
  let '(newReadyNodes, nodesWithStartupTaints) := foldl (startup_step taintConfig) ([], ∅) readyNodes in
  ((λ node, default node (nodesWithStartupTaints !! Name node)) <$> allNodes, newReadyNodes).

(** *** Reporting *)

Definition getTaintTypeToReport (key : string) (taintConfig : TaintConfig) : string :=
  if HasPrefix key IgnoreTaintPrefix then IgnoreTaintPrefix
  else if isExplicitlyReportedTaint taintConfig key then key
  else if IsStartupTaint taintConfig key then startupNodeTaintReportedType
  else if IsStatusTaint taintConfig key then statusNodeTaintReportedType
  else unlistedNodeTaintReportedType.

Definition count_taint (taintConfig : TaintConfig) (m : gmap string Z) (taint : Taint) : gmap string Z :=
  let key := getTaintTypeToReport (Taint_Key taint) taintConfig in
  <[key := default 0 (m !! key) + 1]> m.

Definition CountNodeTaints (nodes : list Node) (taintConfig : TaintConfig) : gmap string Z :=
  foldl (λ m node, foldl (count_taint taintConfig) m (Taints node)) ∅ nodes.
End config.

(** ** Printing and reading times *)

Lemma parse_digits_app acc l1 l2 :
  parse_digits acc (l1 ++ l2) = match parse_digits acc l1 with Some n => parse_digits n l2 | None => None end.
Proof. revert acc. induction l1 as [|c l1 IH]; intros acc; [done|]. simpl. destruct (digit_value c); [apply IH|done]. Qed.

Lemma digit_value_char (x : N) : (x < 10)%N → digit_value (pretty_N_char x) = Some (Z.of_N x).
Proof.
  intros Hx. assert (x = 0 ∨ x = 1 ∨ x = 2 ∨ x = 3 ∨ x = 4 ∨ x = 5 ∨ x = 6 ∨ x = 7 ∨ x = 8 ∨ x = 9)%N as Hc by lia.
  repeat (destruct Hc as [->|Hc]; [done|]). by subst.
Qed.

(** The digits of a number are read before what follows them. *)
Lemma parse_pretty_go (x : N) : ∀ s,
  parse_digits 0 (list_ascii_of_string (pretty_N_go x s)) = parse_digits (Z.of_N x) (list_ascii_of_string s).
Proof.
  induction x as [x IH] using (well_founded_induction N.lt_wf_0). intros s.
  destruct (decide (x = 0)%N) as [->|Hx]; [by rewrite pretty_N_go_0|].
  rewrite pretty_N_go_step by lia. rewrite IH by (apply N.div_lt; lia). cbn [list_ascii_of_string parse_digits].
  rewrite digit_value_char by (apply N.mod_lt; lia). f_equal.
  rewrite N2Z.inj_div, N2Z.inj_mod. change (Z.of_N 10) with 10. pose proof (Z.div_mod (Z.of_N x) 10). lia.
Qed.

Lemma pretty_first_digit (x : N) : x ≠ 0%N → ∀ s, ∃ d s', (d < 10)%N ∧ pretty_N_go x s = String (pretty_N_char d) s'.
Proof.
  induction x as [x IH] using (well_founded_induction N.lt_wf_0). intros Hx s. rewrite pretty_N_go_step by lia.
  destruct (decide (x `div` 10 = 0)%N) as [->|Hd].
  - rewrite pretty_N_go_0. exists (x `mod` 10)%N, s. split; [apply N.mod_lt; lia|done].
  - apply IH; [apply N.div_lt; lia|done].
Qed.

Lemma ParseInt_digit (d : N) s : (d < 10)%N → ParseInt (String (pretty_N_char d) s) =
  match parse_digits 0 (pretty_N_char d :: list_ascii_of_string s) with
  | Some n => if (int64_min <=? 1 * n) && (1 * n <=? int64_max) then Some (1 * n) else None
  | None => None
  end.
Proof.
  intros Hd. assert (d = 0 ∨ d = 1 ∨ d = 2 ∨ d = 3 ∨ d = 4 ∨ d = 5 ∨ d = 6 ∨ d = 7 ∨ d = 8 ∨ d = 9)%N as Hcase by lia.
  repeat (destruct Hcase as [->|Hcase]; [reflexivity|]). by subst.
Qed.

(** A time printed into a taint is read back. *)
Lemma ParseInt_pretty (z : Z) : 0 <= z <= int64_max → ParseInt (pretty z) = Some z.
Proof.
  intros Hz. destruct z as [|x|x]; [done| |lia].
  change (pretty (Z.pos x)) with (pretty_N_go (N.pos x) "").
  pose proof (parse_pretty_go (N.pos x) "") as Hp.
  destruct (pretty_first_digit (N.pos x) ltac:(done) "") as (d & s & Hd & Hs). rewrite Hs in *.
  rewrite ParseInt_digit by done. cbn [list_ascii_of_string] in Hp. rewrite Hp. cbn [parse_digits].
  change (Z.of_N (N.pos x)) with (Z.pos x). rewrite Z.mul_1_l.
  rewrite (proj2 (andb_true_iff _ _)); [done|]. unfold int64_min, int64_max in *. lia.
Qed.

(** ** What a change does *)

Lemma existsb_True {A} (f : A → bool) l : existsb f l = true ↔ ∃ x, x ∈ l ∧ f x = true.
Proof. rewrite existsb_exists. by setoid_rewrite list_elem_of_In. Qed.

Lemma HasTaint_true node key : HasTaint node key = true ↔ key ∈ Taint_Key <$> Taints node.
Proof.
  unfold HasTaint. rewrite existsb_True, list_elem_of_fmap. split.
  - intros (t & Ht & Hk). apply bool_decide_eq_true in Hk. by exists t.
  - intros (t & -> & Ht). exists t. split; [done|]. by apply bool_decide_eq_true.
Qed.

Lemma HasTaint_false node key : HasTaint node key = false ↔ key ∉ Taint_Key <$> Taints node.
Proof. rewrite <- HasTaint_true. by destruct (HasTaint node key). Qed.

(** The taints that are added are those with keys the node lacked. *)
Lemma add_taint_steps taints : ∀ node b, ∃ added,
  foldl add_taint_step (node, b) taints =
    (set_taints node (Taints node ++ added) (Unschedulable node), b || negb (bool_decide (added = []))) ∧
  added `sublist_of` taints ∧ Forall (λ t, HasTaint node (Taint_Key t) = false) added ∧
  Forall (λ t, Taint_Key t ∈ Taint_Key <$> Taints node ++ added) taints.
Proof.
  induction taints as [|t taints IH]; intros node b; simpl.
  { exists []. rewrite app_nil_r, orb_false_r. by destruct node. }
  destruct (HasTaint node (Taint_Key t)) eqn:Ht.
  - destruct (IH node b) as (added & -> & Hsub & Hnew & Hall). exists added. split; [done|].
    split; [by constructor|]. split; [done|]. constructor; [|done]. apply HasTaint_true in Ht. rewrite fmap_app. set_solver.
  - destruct (IH (set_taints node (Taints node ++ [t]) (Unschedulable node)) true) as (added & -> & Hsub & Hnew & Hall).
    exists (t :: added). cbn [set_taints Taints Unschedulable] in *. rewrite <- app_assoc in *. simpl in *.
    split; [by rewrite orb_true_r|]. split; [by constructor|]. split.
    + constructor; [done|]. eapply Forall_impl; [exact Hnew|]. intros t' Ht'. rewrite HasTaint_false in *.
      cbn [set_taints Taints] in Ht'. rewrite fmap_app in Ht'. set_solver.
    + constructor; [|done]. rewrite fmap_app. set_solver.
Qed.

Lemma addTaintsToSpec_spec node taints cordonNode :
  match addTaintsToSpec node taints cordonNode with
  | None => Forall (λ t, HasTaint node (Taint_Key t) = true) taints
  | Some n => ∃ added, added ≠ [] ∧ added `sublist_of` taints ∧
      n = set_taints node (Taints node ++ added) (cordonNode || Unschedulable node) ∧
      Forall (λ t, HasTaint node (Taint_Key t) = false) added ∧ Forall (λ t, HasTaint n (Taint_Key t) = true) taints
  end.
Proof.
  unfold addTaintsToSpec. destruct (add_taint_steps taints node false) as (added & -> & Hsub & Hnew & Hall). simpl.
  case_bool_decide as Ha; simpl.
  - subst. rewrite app_nil_r in Hall. eapply Forall_impl; [done|]. intros t Ht. by apply HasTaint_true.
  - exists added. split_and!; [done|done|done|done|]. eapply Forall_impl; [done|]. intros t Ht. by apply HasTaint_true.
Qed.

Lemma keepTaint_true keys t : keepTaint keys t = true ↔ Taint_Key t ∉ keys.
Proof.
  unfold keepTaint. rewrite negb_true_iff, <- not_true_iff_false, existsb_True. split.
  - intros Hn Hk. apply Hn. exists (Taint_Key t). split; [done|]. by apply bool_decide_eq_true.
  - intros Hn (k & Hk & He). apply bool_decide_eq_true in He. by subst.
Qed.

Lemma filter_length_all {A} (P : A → Prop) `{∀ x, Decision (P x)} l : length (filter P l) = length l → Forall P l.
Proof.
  induction l as [|x l IH]; [constructor|]. rewrite filter_cons. case_decide as Hx; simpl; intros Hl.
  - constructor; [done|]. apply IH. lia.
  - pose proof (length_filter P l). lia.
Qed.

Lemma cleanTaintsFromSpec_spec node keys cordonNode :
  match cleanTaintsFromSpec node keys cordonNode with
  | None => Forall (λ key, HasTaint node key = false) keys
  | Some n => n = set_taints node (filter (λ t, keepTaint keys t = true) (Taints node)) (if cordonNode then false else Unschedulable node) ∧
      Forall (λ key, HasTaint n key = false) keys
  end.
Proof.
  unfold cleanTaintsFromSpec. case_bool_decide as Hl.
  - apply filter_length_all in Hl. apply Forall_forall. intros key Hk. apply HasTaint_false. intros (t & -> & Ht)%list_elem_of_fmap.
    rewrite Forall_forall in Hl. by apply Hl, keepTaint_true in Ht.
  - split; [done|]. apply Forall_forall. intros key Hk. apply HasTaint_false. intros (t & -> & Ht)%list_elem_of_fmap.
    cbn [set_taints Taints] in Ht. apply list_elem_of_filter in Ht as [Ht _]. by apply keepTaint_true in Ht.
Qed.

(** ** The retries *)

Section client_proofs.
Context {W : Type} `{!NodeClient W}.
Implicit Types (w : W) (node freshNode : Node).

(** With enough rounds for the conflicts that the deadline leaves, the loop
    answers. *)
Lemma update_node_answers change deadline node : ∀ rounds k w freshNode (refresh : bool),
  deadline - api_Now w <= Z.of_nat k * conflictRetryInterval → (k + (if refresh then 1 else 2) ≤ rounds)%nat →
  is_Some (update_node change deadline node rounds w freshNode refresh).
Proof.
  induction rounds as [|rounds IH]; intros k w freshNode refresh Hk Hr; [destruct refresh; lia|]. cbn [update_node].
  assert (∀ w1 f, api_Now w <= api_Now w1 → is_Some
    match change f with
    | None => if refresh then Some (w1, Ok f) else update_node change deadline node rounds w1 f true
    | Some freshNode =>
        match api_Update w1 freshNode with
        | (w, None) => Some (w, Ok freshNode)
        | (w, Some e) =>
            if bool_decide (e = ConflictError) && (api_Now w <? deadline)
            then update_node change deadline node rounds (api_Sleep w conflictRetryInterval) freshNode true
            else Some (w, Err (UpdateFailed e))
        end
    end) as Hround.
  { intros w1 f Hw1. destruct (change f) as [f'|].
    - pose proof (api_update_time w1 f') as Hu. destruct (api_Update w1 f') as [w2 [e|]]; [|done]. simpl in Hu.
      destruct (bool_decide _ && _) eqn:Hc; [|done]. apply andb_true_iff in Hc as [_ Hc].
      destruct k as [|k]; [lia|]. apply (IH k); [|destruct refresh; lia].
      pose proof (api_sleep_time w2 conflictRetryInterval). lia.
    - destruct refresh; [done|]. apply (IH k); lia. }
  destruct refresh.
  - pose proof (api_get_time w (Name node)) as Hg. destruct (api_Get w (Name node)) as [w1 [[f|]|e]]; [|done..]. by apply Hround.
  - by apply Hround.
Qed.

Lemma rounds_enough change w node : is_Some (update_node change (api_Now w + maxRetryDeadline) node update_rounds w node false).
Proof. apply (update_node_answers _ _ _ _ 7); unfold maxRetryDeadline, conflictRetryInterval, update_rounds; lia. Qed.

(** A success is a change that was written, or a fresh node that needed none. *)
Lemma update_node_result change deadline node : ∀ rounds w freshNode (refresh : bool) w' n,
  update_node change deadline node rounds w freshNode refresh = Some (w', Ok n) →
  (∃ w1 f, change f = Some n ∧ api_Update w1 n = (w', None)) ∨
  (change n = None ∧ ∃ w1, api_Get w1 (Name node) = (w', Ok (Some n))).
Proof.
  induction rounds as [|rounds IH]; intros w freshNode refresh w' n; [done|]. cbn [update_node].
  destruct refresh.
  - destruct (api_Get w (Name node)) as [w1 [[f|]|e]] eqn:Hg; [|done..].
    destruct (change f) as [f'|] eqn:Hf; [|intros [= <- <-]; right; split; [done|by exists w]].
    destruct (api_Update w1 f') as [w2 [e|]] eqn:Hu.
    + destruct (bool_decide _ && _); [apply IH|done].
    + intros [= <- <-]. left. by exists w1, f.
  - destruct (change freshNode) as [f'|] eqn:Hf; [|apply IH].
    destruct (api_Update w f') as [w2 [e|]] eqn:Hu.
    + destruct (bool_decide _ && _); [apply IH|done].
    + intros [= <- <-]. left. by exists w, freshNode.
Qed.
End client_proofs.

(** The node of an answer is the one that was written, or just read. *)
Definition written_or_read {W} `{!NodeClient W} (change : Node → option Node) (node : Node) (w' : W) (n : Node) : Prop :=
  (∃ w1 f, change f = Some n ∧ api_Update w1 n = (w', None)) ∨ ∃ w1, api_Get w1 (Name node) = (w', Ok (Some n)).

(** Updating taints terminates with a true answer: whatever the API server
    answers and other clients write, adding and cleaning taints give up within
    nine rounds of conflicts, and a node that they return has all the taints
    that were to be added, or none of those that were to be cleaned, and was
    written to the server or just read from it. *)
Theorem taint_updates_answer {W} `{!NodeClient W} (w : W) (node : Node) taints taintKeys (cordonNode : bool) :
  (∃ w' r, AddTaints w node taints cordonNode = Some (w', r) ∧
     ∀ n, r = Ok n → Forall (λ t, HasTaint n (Taint_Key t) = true) taints ∧
       written_or_read (λ f, addTaintsToSpec f taints cordonNode) node w' n) ∧
  (∃ w' r, CleanTaints w node taintKeys cordonNode = Some (w', r) ∧
     ∀ n, r = Ok n → Forall (λ key, HasTaint n key = false) taintKeys ∧
       written_or_read (λ f, cleanTaintsFromSpec f taintKeys cordonNode) node w' n).
Proof.
  split.
  - unfold AddTaints. destruct (rounds_enough (λ f, addTaintsToSpec f taints cordonNode) w node) as [[w' r] Hr].
    exists w', r. split; [done|]. intros n ->. apply update_node_result in Hr as [(w1 & f & Hf & Hu)|(Hn & w1 & Hg)].
    + split; [|by left; exists w1, f]. pose proof (addTaintsToSpec_spec f taints cordonNode) as Hs. rewrite Hf in Hs. naive_solver.
    + split; [|by right; exists w1]. pose proof (addTaintsToSpec_spec n taints cordonNode) as Hs. by rewrite Hn in Hs.
  - unfold CleanTaints. destruct (rounds_enough (λ f, cleanTaintsFromSpec f taintKeys cordonNode) w node) as [[w' r] Hr].
    exists w', r. split; [done|]. intros n ->. apply update_node_result in Hr as [(w1 & f & Hf & Hu)|(Hn & w1 & Hg)].
    + split; [|by left; exists w1, f]. pose proof (cleanTaintsFromSpec_spec f taintKeys cordonNode) as Hs. rewrite Hf in Hs. naive_solver.
    + split; [|by right; exists w1]. pose proof (cleanTaintsFromSpec_spec n taintKeys cordonNode) as Hs. by rewrite Hn in Hs.
Qed.

(** ** Marking and unmarking *)

(** A server that nobody else writes to: it stores what it is given. *)
Record quiet {W} `{!NodeClient W} (stored : W → gmap string Node) : Prop := mkQuiet {
  quiet_get : ∀ w name, (api_Get w name).2 = Ok (stored w !! name) ∧ stored (api_Get w name).1 = stored w;
  quiet_update : ∀ w node, (api_Update w node).2 = None ∧ stored (api_Update w node).1 = <[Name node := node]> (stored w)
}.

(** On a quiet server the first write succeeds. *)
Lemma quiet_update_node {W} `{!NodeClient W} stored change deadline rounds (w : W) node n : quiet stored → change node = Some n →
  update_node change deadline node (Datatypes.S rounds) w node false = Some ((api_Update w n).1, Ok n).
Proof.
  intros [_ Hu] Hc. cbn [update_node]. rewrite Hc. destruct (Hu w n) as [He _]. by destruct (api_Update w n) as [w' e]; simpl in *; subst.
Qed.

Lemma filter_key_none (l : list Taint) keys : (∀ t, t ∈ l → Taint_Key t ∉ keys) → filter (λ t, keepTaint keys t = true) l = l.
Proof.
  induction l as [|t l IH]; intros Hl; [done|]. rewrite filter_cons_True by (apply keepTaint_true, Hl; left).
  f_equal. apply IH. intros t' Ht'. apply Hl. by right.
Qed.

(** C32. Marking a node to be deleted and cleaning the mark is a round trip: on a
    server that nobody else writes to, the marked node has the taint, is
    cordoned when that is asked, and tells the second at which it was marked;
    after the cleaning the node and everything the server stores are what they
    were. The node must not have been marked, nor be cordoned already when
    cordoning is asked. *)
Theorem mark_clean_round_trip {W} `{!NodeClient W} (stored : W → gmap string Node) (w : W) node (cordonNode : bool) :
  quiet stored → stored w !! Name node = Some node → HasToBeDeletedTaint node = false →
  (cordonNode = true → Unschedulable node = false) → 0 <= api_Now w / 10 ^ 9 <= int64_max →
  ∃ w1 marked w2,
    MarkToBeDeleted w node cordonNode = Some (w1, Ok marked) ∧ stored w1 = <[Name node := marked]> (stored w) ∧
    HasToBeDeletedTaint marked = true ∧ Unschedulable marked = cordonNode || Unschedulable node ∧
    GetToBeDeletedTime marked = Ok (Some (api_Now w / 10 ^ 9 * 10 ^ 9)) ∧
    CleanToBeDeleted w1 marked cordonNode = Some (w2, Ok node) ∧ stored w2 = stored w.
Proof.
  intros Hq Hst Hno Hcordon Htime. set (t := mkTaint ToBeDeletedTaint (unix_seconds (api_Now w)) NoSchedule None).
  assert (∀ t', t' ∈ Taints node → Taint_Key t' ∉ [ToBeDeletedTaint]) as Hkeys.
  { intros t' Ht' Hk. apply list_elem_of_singleton in Hk. apply HasTaint_false in Hno. apply Hno, list_elem_of_fmap. by exists t'. }
  set (marked := set_taints node (Taints node ++ [t]) (cordonNode || Unschedulable node)).
  assert (addTaintsToSpec node [t] cordonNode = Some marked) as Hadd.
  { unfold addTaintsToSpec. cbn [foldl add_taint_step]. change (HasTaint node (Taint_Key t)) with (HasToBeDeletedTaint node). by rewrite Hno. }
  assert (cleanTaintsFromSpec marked [ToBeDeletedTaint] cordonNode = Some node) as Hclean.
  { unfold cleanTaintsFromSpec. cbn [marked set_taints Taints Unschedulable].
    rewrite filter_app, filter_key_none by done. rewrite filter_cons_False by by vm_compute. rewrite filter_nil, app_nil_r.
    rewrite length_app, bool_decide_false by (simpl; lia). f_equal. unfold set_taints. cbn.
    destruct node; simpl in *. f_equal. destruct cordonNode; [by rewrite Hcordon|done]. }
  set (w1 := (api_Update w marked).1). exists w1, marked, (api_Update w1 node).1. split_and!.
  - by apply (quiet_update_node stored).
  - apply (quiet_update _ Hq w marked).
  - apply HasTaint_true. cbn [marked set_taints Taints]. rewrite fmap_app. set_solver.
  - done.
  - unfold GetToBeDeletedTime, GetTaintTime. cbn [marked set_taints Taints]. rewrite list_find_app_r.
    + cbn [list_find]. rewrite decide_True by done. cbn -[ParseInt pretty]. unfold unix_seconds. by rewrite ParseInt_pretty.
    + apply list_find_None, Forall_forall. intros t' Ht' Hk. apply (Hkeys t' Ht'). by apply list_elem_of_singleton.
  - unfold CleanToBeDeleted, CleanTaints, update_rounds. by apply (quiet_update_node stored).
  - rewrite (proj2 (quiet_update _ Hq w1 node)). unfold w1. rewrite (proj2 (quiet_update _ Hq w marked)).
    change (Name marked) with (Name node). rewrite insert_insert_eq. by apply insert_id.
Qed.

(** ** Taints left out of templates, and nodes that are not ready yet *)

Section config_proofs.
Context `{!ConditionTaintKeys}.
Implicit Types (tc : TaintConfig) (node : Node).

(** A taint that a template keeps. *)
Definition template_taint tc (taint : Taint) : bool :=
  let key := Taint_Key taint in
  negb (bool_decide (key = ToBeDeletedTaint) || bool_decide (key = DeletionCandidateTaintKey) ||
        bool_decide (key ∈ NodeConditionTaints) || IsStartupTaint tc key || IsStatusTaint tc key).

Lemma SanitizeTaints_exact tc taints : SanitizeTaints taints tc = filter (λ t, template_taint tc t = true) taints.
Proof.
  unfold SanitizeTaints. induction taints as [|t taints IH] using rev_ind; [done|].
  rewrite foldl_snoc, filter_app, IH, filter_cons, filter_nil. unfold sanitize_step, template_taint.
  repeat case_bool_decide; simpl; rewrite ?app_nil_r; try done.
  destruct (IsStartupTaint tc (Taint_Key t)), (IsStatusTaint tc (Taint_Key t)); simpl; by rewrite ?app_nil_r.
Qed.

(** No taint of the autoscaler, of a node condition or of a startup is in a
    template, and templates are sanitized already. *)
Lemma SanitizeTaints_idempotent tc taints : SanitizeTaints (SanitizeTaints taints tc) tc = SanitizeTaints taints tc.
Proof.
  rewrite !SanitizeTaints_exact. induction taints as [|t taints IH]; [done|]. rewrite filter_cons.
  case_decide as Ht; [|done]. by rewrite filter_cons_True, IH by done.
Qed.

Definition starting tc node : bool := existsb (λ t, IsStartupTaint tc (Taint_Key t)) (Taints node).

(** The ready nodes that are kept are those without a startup taint, and of all
    nodes exactly those with the name of such a ready node are replaced. *)
Lemma FilterOutNodesWithStartupTaints_exact tc allNodes readyNodes :
  let '(newAll, newReady) := FilterOutNodesWithStartupTaints tc allNodes readyNodes in
  newReady = filter (λ n, starting tc n = false) readyNodes ∧ length newAll = length allNodes ∧
  ∀ i node, allNodes !! i = Some node →
    (newAll !! i = Some node ∧ (∀ n, n ∈ readyNodes → Name n = Name node → starting tc n = false)) ∨
    ∃ n, n ∈ readyNodes ∧ Name n = Name node ∧ starting tc n = true ∧ newAll !! i = Some (GetUnreadyNodeCopy n StartupNodes).
Proof.
  unfold FilterOutNodesWithStartupTaints.
  assert (let '(r, m) := foldl (startup_step tc) ([], ∅) readyNodes in
    r = filter (λ n, starting tc n = false) readyNodes ∧
    (∀ name c, m !! name = Some c → ∃ n, n ∈ readyNodes ∧ Name n = name ∧ starting tc n = true ∧ c = GetUnreadyNodeCopy n StartupNodes) ∧
    ∀ n, n ∈ readyNodes → starting tc n = true → is_Some (m !! Name n)) as Hinv.
  { induction readyNodes as [|n ns IH] using rev_ind.
    { split; [done|]. split; [intros name c; by rewrite lookup_empty|]. intros n Hn. by apply elem_of_nil in Hn. }
    rewrite foldl_snoc. destruct (foldl _ _ ns) as [r m]. destruct IH as (-> & Hm & Hall). unfold startup_step.
    change (existsb _ (Taints n)) with (starting tc n). rewrite filter_app, filter_cons, filter_nil.
    destruct (starting tc n) eqn:Hn; simpl.
    - split; [by rewrite app_nil_r|]. split.
      + intros name c. rewrite lookup_insert. case_decide as Heq; [intros [= <-]; exists n; set_solver|].
        intros Hc. destruct (Hm name c Hc) as (n' & ? & ?). exists n'. set_solver.
      + intros n' [Hn'|Hn']%elem_of_app Hs.
        * rewrite lookup_insert. case_decide; [done|by apply Hall].
        * apply list_elem_of_singleton in Hn' as ->. by rewrite lookup_insert_eq.
    - split; [done|]. split.
      + intros name c Hc. destruct (Hm name c Hc) as (n' & ? & ?). exists n'. set_solver.
      + intros n' [Hn'|Hn']%elem_of_app Hs; [by apply Hall|]. apply list_elem_of_singleton in Hn' as ->. congruence. }
  destruct (foldl _ _ _) as [r m]. destruct Hinv as (-> & Hm & Hall). split; [done|]. split; [by rewrite length_fmap|].
  intros i node Hi. rewrite list_lookup_fmap, Hi. simpl. destruct (m !! Name node) as [c|] eqn:Hc; simpl.
  - right. destruct (Hm _ _ Hc) as (n & ? & ? & ? & ->). by exists n.
  - left. split; [done|]. intros n Hn Heq. destruct (starting tc n) eqn:Hs; [|done].
    destruct (Hall n Hn Hs) as [c Hc']. rewrite Heq in Hc'. congruence.
Qed.

(** Every taint is counted once. *)
Lemma CountNodeTaints_total tc nodes :
  map_fold (λ _ n acc, n + acc) 0 (CountNodeTaints nodes tc) = ⟪ nodes ≫= Taints ⟫.
Proof.
  unfold CountNodeTaints. set (total := λ m : gmap string Z, map_fold (λ _ n acc, n + acc) 0 m).
  assert (∀ m k, total (<[k := default 0 (m !! k) + 1]> m) = total m + 1) as Hstep.
  { intros m k. unfold total. assert (∀ k v (m : gmap string Z), m !! k = None →
      map_fold (λ _ n acc, n + acc) 0 (<[k := v]> m) = v + map_fold (λ _ n acc, n + acc) 0 m) as Hins.
    { intros k' v m' Hm'. apply (map_fold_insert_L (λ _ n acc, n + acc)); [intros; lia|done]. }
    destruct (m !! k) as [v|] eqn:Hk; simpl; [|rewrite Hins by done; lia].
    rewrite <- (insert_delete_id m k v) at 2 by done. rewrite <- insert_delete_eq.
    rewrite !Hins by apply lookup_delete_eq. lia. }
  assert (∀ ts m, total (foldl (count_taint tc) m ts) = total m + ⟪ ts ⟫) as Htaints.
  { induction ts as [|t ts IH]; intros m; simpl; [simpl; lia|]. rewrite IH. unfold count_taint at 1. rewrite Hstep.
    simpl. lia. }
  assert (∀ m, total (foldl (λ m node, foldl (count_taint tc) m (Taints node)) m nodes) = total m + ⟪ nodes ≫= Taints ⟫) as Hall.
  { induction nodes as [|n nodes IH]; intros m; cbn [foldl]; [simpl; lia|]. rewrite IH, Htaints, bind_cons, length_app. lia. }
  rewrite Hall. unfold total. by rewrite map_fold_empty.
Qed.
End config_proofs.

(** A server with a clock that is bothered by other clients for a while. *)
Module TaintsExample.
Record server : Type := mkServer { clock : Z; stored : gmap string Node; conflicts : nat }.

#[export, refine] Instance server_client : NodeClient server := {|
  api_Get w name := (w, Ok (stored w !! name));
  api_Update w node :=
    match conflicts w with
    | O => (mkServer (clock w) (<[Name node := node]> (stored w)) 0, None)
    | Datatypes.S n => (mkServer (clock w) (stored w) n, Some ConflictError)
    end;
  api_Now := clock;
  api_Sleep w d := mkServer (clock w + d `max` 0) (stored w) (conflicts w)
|}.
Proof.
  - done.
  - intros w node. by destruct (conflicts w).
  - intros w d. simpl. lia.
Defined.

Definition node : Node := named_node "n1".
Definition busy (n : nat) : server := mkServer (1000 * 10 ^ 9 + 7) {[ "n1" := node ]} n.

(** Six conflicts are survived, and with a seventh the call gives up. *)
Example six_conflicts : (λ r, HasToBeDeletedTaint <$> match r.2 with Ok n => Some n | Err _ => None end) <$> MarkToBeDeleted (busy 6) node true = Some (Some true).
Proof. by vm_compute. Qed.
Example eight_conflicts : snd <$> MarkToBeDeleted (busy 8) node true = Some (Err (UpdateFailed ConflictError)).
Proof. by vm_compute. Qed.

(** When nobody bothers, the server is quiet. *)
Record quiet_server : Type := mkQuietServer { q_clock : Z; q_stored : gmap string Node }.

#[export, refine] Instance quiet_client : NodeClient quiet_server := {|
  api_Get w name := (w, Ok (q_stored w !! name));
  api_Update w node := (mkQuietServer (q_clock w) (<[Name node := node]> (q_stored w)), None);
  api_Now := q_clock;
  api_Sleep w d := mkQuietServer (q_clock w + d) (q_stored w)
|}.
Proof. all: intros; simpl; lia. Defined.

Definition quiet_start : quiet_server := mkQuietServer (1000 * 10 ^ 9 + 7) {[ "n1" := node ]}.

Lemma mark_clean_round_trip_witness :
  (λ r, Unschedulable <$> q_stored r.1 !! "n1") <$> MarkToBeDeleted quiet_start node true = Some (Some true) ∧
  api_Now quiet_start / 10 ^ 9 * 10 ^ 9 = 1000 * 10 ^ 9 ∧
  ∃ w1 marked w2,
    MarkToBeDeleted quiet_start node true = Some (w1, Ok marked) ∧ q_stored w1 = <[Name node := marked]> (q_stored quiet_start) ∧
    HasToBeDeletedTaint marked = true ∧ Unschedulable marked = true || Unschedulable node ∧
    GetToBeDeletedTime marked = Ok (Some (api_Now quiet_start / 10 ^ 9 * 10 ^ 9)) ∧
    CleanToBeDeleted w1 marked true = Some (w2, Ok node) ∧ q_stored w2 = q_stored quiet_start.
Proof.
  split; [by vm_compute|]. split; [by vm_compute|]. apply (mark_clean_round_trip q_stored quiet_start node true).
  - by split.
  - by vm_compute.
  - by vm_compute.
  - done.
  - by vm_compute.
Defined.
End TaintsExample.
