(* ===== verification/Framework.v ===== *)
(** Node and pod information of the simulator
    (src/pkg/simulator/framework/infos.go): the wrapper around the scheduler's
    NodeInfo, whose operations are an interface here. *)
From stdpp Require Import prelude gmap strings list fin_maps.
From S2P Require Import Prelude Api Drain.

(** [PodInfo]: a pod with the resource claims it needs: pointers to claim
    objects, with the UID and the name that the objects never change. *)
Record ResourceClaim : Type := mkResourceClaim { claim_UID : string; claim_name : string; claim_ptr : nat }.
Record PodInfo : Type := mkPodInfo {
  pi_Pod : Pod;
  NeededResourceClaims : list ResourceClaim
}.

(** [NewPodInfo]; the scheduler's part of it is derived from the pod. *)
Definition NewPodInfo (pod : Pod) (claims : list ResourceClaim) : PodInfo := mkPodInfo pod claims.

Definition pod_namespace (p : PodInfo) : string := PodNamespace (pi_Pod p).
Definition pod_name (p : PodInfo) : string := PodName (pi_Pod p).
(** The claim names of the volumes (None for a volume that is not a claim). *)
Definition pod_volumes (p : PodInfo) : list (option string) := VolumeClaim <$> PodVolumes (pi_Pod p).

#[export] Instance ResourceClaim_eq_dec : EqDecision ResourceClaim.
Proof. solve_decision. Defined.
#[export] Instance PodInfo_eq_dec : EqDecision PodInfo.
Proof. solve_decision. Defined.

(** What the simulator uses of the scheduler's NodeInfo
    (k8s.io/kubernetes/pkg/scheduler/framework), with the documented behaviour
    it relies on: a new NodeInfo has its node and no pods, [Snapshot] is a copy, adding and
    removing a pod keep the node, a failing removal changes nothing, and the
    derived data (pods with affinity, claim counters) comes from the pods. *)
Class SchedNodeInfo (S : Type) : Type := {
  (** [NewNodeInfo] followed by [SetNode] when there is a node *)
  sched_new : option Node → S;
  sched_node : S → Node;
  sched_pods : S → list PodInfo;
  sched_pods_with_affinity : S → list PodInfo;
  sched_pods_with_required_anti_affinity : S → list PodInfo;
  sched_pvc_ref_counts : S → gmap string Z;
  (** [GetNamespacedName], the key of a claim in the maps of claims *)
  GetNamespacedName : string → string → string;
  sched_snapshot : S → S;
  sched_add_pod : S → PodInfo → S;
  (** the node after the call, and the error it returned *)
  sched_remove_pod : S → PodInfo → S * option string;

  sched_node_new : ∀ n, sched_node (sched_new (Some n)) = n;
  sched_pods_new : ∀ n, sched_pods (sched_new n) = [];
  sched_snapshot_copy : ∀ s, sched_snapshot s = s;
  sched_node_add_pod : ∀ s p, sched_node (sched_add_pod s p) = sched_node s;
  sched_pods_add_pod : ∀ s p, sched_pods (sched_add_pod s p) ≡ₚ p :: sched_pods s;
  sched_node_remove_pod : ∀ s p, sched_node (sched_remove_pod s p).1 = sched_node s;
  sched_remove_pod_err : ∀ s p e, (sched_remove_pod s p).2 = Some e → (sched_remove_pod s p).1 = s;
  sched_no_pods : ∀ s, sched_pods s = [] →
    sched_pods_with_affinity s = [] ∧ sched_pods_with_required_anti_affinity s = [] ∧
    ∀ k, default 0%Z (sched_pvc_ref_counts s !! k) = 0%Z;
  sched_pvc_ref_counts_nonneg : ∀ s k, (0 ≤ default 0 (sched_pvc_ref_counts s !! k))%Z
}.

Section infos.
Context {S Slice CSI : Type} `{SchedNodeInfo S}.

Record NodeInfo : Type := mkNodeInfo {
  ni_sched : S;
  LocalResourceSlices : list Slice;
  CSINode : option CSI
}.

Definition ni_Node (n : NodeInfo) : Node := sched_node (ni_sched n).
Definition NodeName (n : NodeInfo) : string := Name (ni_Node n).
Definition GetPods (n : NodeInfo) : list PodInfo := sched_pods (ni_sched n).

(** Every pod of an internal NodeInfo is an internal PodInfo, so the type
    switch of [Pods] never panics; a nil receiver has no pods. *)
Definition Pods (n : option NodeInfo) : list PodInfo :=
  match n with
  | None => []
  | Some n => foldl (λ result pod, result ++ [pod]) [] (GetPods n)
  end.

Definition AddPod (n : NodeInfo) (pod : PodInfo) : NodeInfo :=
  mkNodeInfo (sched_add_pod (ni_sched n) pod) (LocalResourceSlices n) (CSINode n).

Definition AddPodInfo (n : NodeInfo) (pod : PodInfo) : NodeInfo :=
  mkNodeInfo (sched_add_pod (ni_sched n) pod) (LocalResourceSlices n) (CSINode n).

Definition RemovePod (n : NodeInfo) (pod : PodInfo) : NodeInfo * option string :=
  let '(s, err) := sched_remove_pod (ni_sched n) pod in
  (mkNodeInfo s (LocalResourceSlices n) (CSINode n), err).

Definition Snapshot (n : NodeInfo) : NodeInfo :=
  mkNodeInfo (sched_snapshot (ni_sched n)) ([] ++ LocalResourceSlices n) (CSINode n).

Definition SetCSINode (n : NodeInfo) (csi : option CSI) : NodeInfo :=
  mkNodeInfo (ni_sched n) (LocalResourceSlices n) csi.

Definition NewNodeInfo (node : option Node) (slices : list Slice) (pods : list PodInfo) : NodeInfo :=
  foldl AddPod (mkNodeInfo (sched_new node) slices None) pods.

(** [ResourceClaims]: the claims of all pods, each UID once. *)
Definition ResourceClaims_loop (claims : list ResourceClaim)
    : gmap string bool * list ResourceClaim :=
  foldl (λ st claim,
    let '(processed, result) := st in
    if default false (processed !! claim_UID claim) then (processed, result)
    else (<[claim_UID claim := true]> processed, result ++ [claim]))
    (∅, []) claims.
Definition ResourceClaims (n : option NodeInfo) : list ResourceClaim :=
  (ResourceClaims_loop (Pods n ≫= NeededResourceClaims)).2.

Lemma Pods_GetPods n : Pods (Some n) = GetPods n.
Proof. unfold Pods. rewrite (foldl_snoc_fmap (λ p, p)). cbn [app]. apply list_fmap_id. Qed.

Lemma Snapshot_copy n : Snapshot n = n.
Proof. destruct n. unfold Snapshot. simpl. by rewrite sched_snapshot_copy. Qed.

Lemma NodeName_Snapshot n : NodeName (Snapshot n) = NodeName n.
Proof. by rewrite Snapshot_copy. Qed.

Lemma NodeName_AddPodInfo n p : NodeName (AddPodInfo n p) = NodeName n.
Proof. unfold NodeName, ni_Node. f_equal. apply sched_node_add_pod. Qed.

Lemma NodeName_RemovePod n p : NodeName (RemovePod n p).1 = NodeName n.
Proof.
  unfold RemovePod, NodeName, ni_Node.
  pose proof (sched_node_remove_pod (ni_sched n) p) as Hn.
  destruct (sched_remove_pod (ni_sched n) p); simpl in *. by rewrite Hn.
Qed.

Lemma RemovePod_err n p e : (RemovePod n p).2 = Some e → (RemovePod n p).1 = n.
Proof.
  unfold RemovePod. pose proof (sched_remove_pod_err (ni_sched n) p e) as Hn.
  destruct (sched_remove_pod (ni_sched n) p); simpl in *. intros He. rewrite Hn by done.
  by destruct n.
Qed.

Lemma ResourceClaims_loop_spec claims :
  let '(processed, result) := ResourceClaims_loop claims in
  (∀ u, default false (processed !! u) = true ↔ u ∈ claim_UID <$> result) ∧
  NoDup (claim_UID <$> result) ∧
  (∀ c, c ∈ result → c ∈ claims) ∧
  (∀ c, c ∈ claims → claim_UID c ∈ claim_UID <$> result).
Proof.
  induction claims as [|c claims IH] using rev_ind.
  { simpl. split_and!; [|apply NoDup_nil_2|set_solver..].
    intros u. rewrite lookup_empty. simpl. set_solver. }
  unfold ResourceClaims_loop in *. rewrite foldl_app. simpl.
  destruct (foldl _ _ claims) as [processed result]. destruct IH as (Hp & Hnd & Hin & Hall).
  destruct (default false (processed !! claim_UID c)) eqn:Hc.
  - split_and!; [done..|set_solver|]. intros d [Hd|Hd]%elem_of_app; [auto|].
    apply list_elem_of_singleton in Hd as ->. by apply Hp.
  - rewrite fmap_app. simpl.
    assert (claim_UID c ∉ claim_UID <$> result) as Hnew by (rewrite <- Hp; by rewrite Hc).
    split_and!.
    + intros u. rewrite elem_of_app, list_elem_of_singleton, <- Hp, lookup_insert.
      case_decide as Hu; [subst; simpl; naive_solver|]. split; [tauto|]. intros [?|?]; congruence.
    + apply NoDup_app. split_and!; [done| |apply NoDup_singleton].
      intros u Hu ->%list_elem_of_singleton. done.
    + intros d [?|?]%elem_of_app; set_solver.
    + intros d [?|?]%elem_of_app; set_solver.
Qed.

(** Shared claims are returned once, and no needed claim is lost. *)
Lemma ResourceClaims_spec n :
  NoDup (claim_UID <$> ResourceClaims n) ∧
  (∀ p c, p ∈ Pods n → c ∈ NeededResourceClaims p →
     claim_UID c ∈ claim_UID <$> ResourceClaims n).
Proof.
  unfold ResourceClaims.
  pose proof (ResourceClaims_loop_spec (Pods n ≫= NeededResourceClaims)) as Hl.
  destruct (ResourceClaims_loop _) as [processed result]. destruct Hl as (_ & Hnd & _ & Hall).
  split; [done|]. intros p c Hp Hc. apply Hall, list_elem_of_bind. eauto.
Qed.
End infos.
Arguments NodeInfo S Slice CSI : clear implicits.
Arguments mkNodeInfo {S Slice CSI} _ _ _.

(** A concrete scheduler NodeInfo, used to evaluate the model: a node name
    and its pods, those of the namespace "affinity" being the pods with
    (required anti-)affinity. *)
Definition demo_sched : Type := Node * list PodInfo.
Definition demo_pvc_counts (pods : list PodInfo) : gmap string Z :=
  foldl (λ m p, foldl (λ m v, match v with
                              | None => m
                              | Some c => let k := (pod_namespace p ++ "/" ++ c)%string in
                                          <[k := (default 0 (m !! k) + 1)%Z]> m
                              end) m (pod_volumes p)) ∅ pods.
Fixpoint demo_remove (p : PodInfo) (l : list PodInfo) : option (list PodInfo) :=
  match l with
  | [] => None
  | q :: l' => if decide (p = q) then Some l' else cons q <$> demo_remove p l'
  end.
Definition demo_remove_pod (s : demo_sched) (p : PodInfo) : demo_sched * option string :=
  match demo_remove p s.2 with
  | Some l => ((s.1, l), None)
  | None => (s, Some "no corresponding pod")
  end.
Lemma demo_remove_pod_name s p : (demo_remove_pod s p).1.1 = s.1.
Proof. unfold demo_remove_pod. by destruct (demo_remove p s.2). Qed.
Lemma demo_remove_pod_err s p e : (demo_remove_pod s p).2 = Some e → (demo_remove_pod s p).1 = s.
Proof. unfold demo_remove_pod. by destruct (demo_remove p s.2). Qed.
Lemma demo_add_pod (s : demo_sched) p : s.2 ++ [p] ≡ₚ p :: s.2.
Proof. by rewrite Permutation_app_comm. Qed.
Lemma demo_no_pods (s : demo_sched) :
  s.2 = [] → filter (λ p, pod_namespace p = "affinity"%string) s.2 = [] ∧
  filter (λ p, pod_namespace p = "affinity"%string) s.2 = [] ∧
  ∀ k, default 0%Z (demo_pvc_counts s.2 !! k) = 0%Z.
Proof. intros ->. done. Qed.
Lemma demo_pvc_counts_nonneg (s : demo_sched) k : (0 ≤ default 0 (demo_pvc_counts s.2 !! k))%Z.
Proof.
  unfold demo_pvc_counts. revert k.
  apply (foldl_inv (λ m : gmap string Z, ∀ k, (0 ≤ default 0 (m !! k))%Z)).
  { intros k. by rewrite lookup_empty. }
  intros m p _ Hm. apply (foldl_inv (λ m : gmap string Z, ∀ k, (0 ≤ default 0 (m !! k))%Z)); [done|].
  intros m' [c|] _ Hm' k; [|done]. rewrite lookup_insert. case_decide; [|done].
  simpl. pose proof (Hm' (pod_namespace p ++ "/" ++ c)%string). lia.
Qed.
#[export] Instance demo_sched_ops : SchedNodeInfo demo_sched := {
  sched_new n := (default (named_node "") n, []);
  sched_node s := s.1;
  sched_pods s := s.2;
  sched_pods_with_affinity s := filter (λ p, pod_namespace p = "affinity") s.2;
  sched_pods_with_required_anti_affinity s := filter (λ p, pod_namespace p = "affinity") s.2;
  sched_pvc_ref_counts s := demo_pvc_counts s.2;
  GetNamespacedName ns name := (ns ++ "/" ++ name)%string;
  sched_snapshot s := s;
  sched_add_pod s p := (s.1, s.2 ++ [p]);
  sched_remove_pod := demo_remove_pod;
  sched_node_new n := eq_refl;
  sched_pods_new n := eq_refl;
  sched_snapshot_copy s := eq_refl;
  sched_node_add_pod s p := eq_refl;
  sched_pods_add_pod s p := demo_add_pod s p;
  sched_node_remove_pod := demo_remove_pod_name;
  sched_remove_pod_err := demo_remove_pod_err;
  sched_no_pods := demo_no_pods;
  sched_pvc_ref_counts_nonneg := demo_pvc_counts_nonneg
}.
