(* ===== verification/SnapshotSpec.v ===== *)
(** The contract of a cluster snapshot store
    (src/pkg/simulator/clustersnapshot/clustersnapshot.go): its operations, an
    abstract specification as a stack of node maps, the interface a store
    implements, and what its clients get from the interface alone. *)
From stdpp Require Import prelude gmap strings list fin_maps.
From S2P Require Import Prelude Framework.

(** The errors the stores return. *)
Inductive store_error : Type :=
| ErrNodeNotFound
| ErrNodeAlreadyInSnapshot (name : string)
| ErrPodNotInSnapshot (namespace name : string)
| ErrCannotRemovePod (err : string).

#[export] Instance store_error_eq_dec : EqDecision store_error.
Proof. solve_decision. Defined.

Section spec.
Context {S Slice CSI : Type} `{SchedNodeInfo S}.
Abbreviation NI := (NodeInfo S Slice CSI).

Inductive store_op : Type :=
| StoreNodeInfo (ni : NI)
| RemoveNodeInfo (nodeName : string)
| StorePodInfo (podInfo : PodInfo) (nodeName : string)
| RemovePodInfo (namespace podName nodeName : string)
| Fork | Revert | Commit | Clear
| GetNodeInfo (nodeName : string)
| ListNodeInfos
| HavePodsWithAffinityList
| HavePodsWithRequiredAntiAffinityList.

Inductive store_out : Type :=
| RErr (err : option store_error)
| RNode (r : result store_error NI)
| RList (l : list NI).

(** Lists of node infos come from a map, so their order is unspecified. *)
Definition out_equiv (r1 r2 : store_out) : Prop :=
  match r1, r2 with
  | RList l1, RList l2 => l1 ≡ₚ l2
  | _, _ => r1 = r2
  end.

#[export] Instance out_equiv_equivalence : Equivalence out_equiv.
Proof.
  split.
  - intros r. by destruct r; simpl.
  - intros r1 r2 Hr. by destruct r1, r2; simpl in *.
  - intros r1 r2 r3 H12 H23. destruct r1, r2, r3; simpl in *; try congruence. by etrans.
Qed.

(** ** The specification *)

Record spec_state : Type := mkSpec {
  cur : gmap string NI;             (* the visible nodes *)
  saved : list (gmap string NI)     (* what each enclosing fork reverts to *)
}.

Definition spec_empty : spec_state := mkSpec ∅ [].

Definition set_cur (s : spec_state) (m : gmap string NI) : spec_state := mkSpec m (saved s).

Definition find_pod (namespace podName : string) (pods : list PodInfo) : option PodInfo :=
  snd <$> list_find (λ p, pod_namespace p = namespace ∧ pod_name p = podName) pods.

Definition spec_exec (o : store_op) (s : spec_state) : spec_state * store_out :=
  match o with
  | StoreNodeInfo ni =>
      match cur s !! NodeName ni with
      | Some _ => (s, RErr (Some (ErrNodeAlreadyInSnapshot (NodeName ni))))
      | None => (set_cur s (<[NodeName ni := ni]> (cur s)), RErr None)
      end
  | RemoveNodeInfo n =>
      match cur s !! n with
      | None => (s, RErr (Some ErrNodeNotFound))
      | Some _ => (set_cur s (delete n (cur s)), RErr None)
      end
  | StorePodInfo p n =>
      match cur s !! n with
      | None => (s, RErr (Some ErrNodeNotFound))
      | Some ni => (set_cur s (<[n := AddPodInfo ni p]> (cur s)), RErr None)
      end
  | RemovePodInfo ns name n =>
      match cur s !! n with
      | None => (s, RErr (Some ErrNodeNotFound))
      | Some ni =>
          match find_pod ns name (GetPods ni) with
          | None => (s, RErr (Some (ErrPodNotInSnapshot ns name)))
          | Some p =>
              let '(ni', err) := RemovePod ni p in
              (set_cur s (<[n := ni']> (cur s)), RErr (ErrCannotRemovePod <$> err))
          end
      end
  | Fork => (mkSpec (cur s) (cur s :: saved s), RErr None)
  | Revert => (match saved s with [] => s | m :: l => mkSpec m l end, RErr None)
  | Commit => (mkSpec (cur s) (tail (saved s)), RErr None)
  | Clear => (spec_empty, RErr None)
  | GetNodeInfo n =>
      (s, RNode (match cur s !! n with Some ni => Ok ni | None => Err ErrNodeNotFound end))
  | ListNodeInfos => (s, RList (map_to_list (cur s)).*2)
  | HavePodsWithAffinityList =>
      (s, RList (filter (λ ni, sched_pods_with_affinity (ni_sched ni) ≠ [])
                   (map_to_list (cur s)).*2))
  | HavePodsWithRequiredAntiAffinityList =>
      (s, RList (filter (λ ni, sched_pods_with_required_anti_affinity (ni_sched ni) ≠ [])
                   (map_to_list (cur s)).*2))
  end.

(** Every node is stored under its own name. *)
Definition named (m : gmap string NI) : Prop := map_Forall (λ n ni, NodeName ni = n) m.

Lemma named_empty : named ∅.
Proof. apply map_Forall_empty. Qed.
Lemma named_insert m ni : named m → named (<[NodeName ni := ni]> m).
Proof. intros Hm. by apply map_Forall_insert_2. Qed.
Lemma named_delete m n : named m → named (delete n m).
Proof. apply map_Forall_delete. Qed.
Lemma named_update m n ni ni' :
  named m → m !! n = Some ni → NodeName ni' = NodeName ni → named (<[n := ni']> m).
Proof.
  intros Hm Hn Heq. apply map_Forall_insert_2; [|done]. rewrite Heq. by apply (Hm n).
Qed.
End spec.
Arguments spec_state S Slice CSI : clear implicits.
Arguments store_op S Slice CSI : clear implicits.
Arguments store_out S Slice CSI : clear implicits.
#[export] Hint Resolve named_empty named_insert named_delete : ca.

(** ** The interface: an implementation whose every operation simulates the
       specification *)

Class SnapshotStore (S Slice CSI : Type) `{SchedNodeInfo S} (T : Type) : Type := {
  store_new : T;
  store_exec : store_op S Slice CSI → T → T * store_out S Slice CSI;
  store_inv : T → Prop;
  store_abs : T → spec_state S Slice CSI;
  store_new_ok : store_inv store_new ∧ store_abs store_new = spec_empty;
  store_exec_ok : ∀ o t, store_inv t →
    store_inv (store_exec o t).1 ∧
    (spec_exec o (store_abs t)).1 = store_abs (store_exec o t).1 ∧
    out_equiv (spec_exec o (store_abs t)).2 (store_exec o t).2
}.
Arguments store_new {S Slice CSI _ T _}.
Arguments store_exec {S Slice CSI _ T _} o t.
Arguments store_inv {S Slice CSI _ T _} t.
Arguments store_abs {S Slice CSI _ T _} t.
Arguments store_new_ok {S Slice CSI _ T _}.
Arguments store_exec_ok {S Slice CSI _ T _} o t _.

Section clients.
Context {S Slice CSI : Type} `{SchedNodeInfo S}.

Fixpoint store_exec_all {T} `{!SnapshotStore S Slice CSI T}
    (os : list (store_op S Slice CSI)) (t : T) : T * list (store_out S Slice CSI) :=
  match os with
  | [] => (t, [])
  | o :: os' => let '(t1, r) := store_exec o t in
                let '(t2, rs) := store_exec_all os' t1 in (t2, r :: rs)
  end.

Fixpoint spec_exec_all (os : list (store_op S Slice CSI)) (s : spec_state S Slice CSI)
    : spec_state S Slice CSI * list (store_out S Slice CSI) :=
  match os with
  | [] => (s, [])
  | o :: os' => let '(s1, r) := spec_exec o s in
                let '(s2, rs) := spec_exec_all os' s1 in (s2, r :: rs)
  end.

Lemma store_exec_all_ok {T} `{!SnapshotStore S Slice CSI T} os (t : T) :
  store_inv t →
  store_inv (store_exec_all os t).1 ∧
  (spec_exec_all os (store_abs t)).1 = store_abs (store_exec_all os t).1 ∧
  Forall2 out_equiv (spec_exec_all os (store_abs t)).2 (store_exec_all os t).2.
Proof.
  revert t. induction os as [|o os IH]; intros t Ht; [by repeat constructor|]. simpl.
  destruct (store_exec_ok o t Ht) as (Hi & Ha & Ho).
  destruct (store_exec o t) as [t1 r], (spec_exec o (store_abs t)) as [s1 r']. simpl in *.
  subst s1. destruct (IH t1 Hi) as (Hi' & Ha' & Ho').
  destruct (store_exec_all os t1), (spec_exec_all os (store_abs t1)). simpl in *. auto.
Qed.

(** Two stores behind the interface cannot be told apart. *)
Lemma stores_agree {T U} `{!SnapshotStore S Slice CSI T} `{!SnapshotStore S Slice CSI U} os :
  Forall2 out_equiv (store_exec_all os (store_new : T)).2 (store_exec_all os (store_new : U)).2.
Proof.
  destruct (store_new_ok (T := T)) as [HiT HaT], (store_new_ok (T := U)) as [HiU HaU].
  destruct (store_exec_all_ok os _ HiT) as (_ & _ & HT).
  destruct (store_exec_all_ok os _ HiU) as (_ & _ & HU).
  rewrite HaT in HT. rewrite HaU in HU.
  revert HT HU. generalize (store_exec_all os (store_new : T)).2.
  generalize (store_exec_all os (store_new : U)).2.
  induction ((spec_exec_all os spec_empty).2) as [|r rs IH]; intros lu lt HT HU;
    inversion HT; inversion HU; subst; constructor; [|by apply IH].
  by etrans; [symmetry|].
Qed.

(** ** [WithForkedSnapshot] *)

(** [f] runs on the forked store and says whether to commit; a failing
    commit is followed by a revert.  The first error is [f]'s, the second
    one the clean-up's. *)
Definition WithForkedSnapshot {T E} `{!SnapshotStore S Slice CSI T}
    (f : T → T * (bool * option E)) (snapshot : T) : T * (option E * option store_error) :=
  let forked := (store_exec Fork snapshot).1 in
  let '(t, (commit, err)) := f forked in
  let '(t1, cleanupErr) :=
    if commit then
      match store_exec Commit t with
      | (t', RErr e) => (t', e)
      | (t', _) => (t', None)
      end
    else (t, None) in
  let t2 := if negb commit || bool_decide (is_Some cleanupErr)
            then (store_exec Revert t1).1 else t1 in
  (t2, (err, cleanupErr)).

(** [f] leaves the enclosing forks alone. *)
Definition keeps_forks {T E} `{!SnapshotStore S Slice CSI T}
    (f : T → T * (bool * option E)) : Prop :=
  ∀ t, store_inv t → store_inv (f t).1 ∧ saved (store_abs (f t).1) = saved (store_abs t).

Lemma WithForkedSnapshot_ok {T E} `{!SnapshotStore S Slice CSI T}
    (f : T → T * (bool * option E)) (t : T) :
  store_inv t → keeps_forks f →
  let forked := (store_exec Fork t).1 in
  let '(t', (err, cleanupErr)) := WithForkedSnapshot f t in
  store_inv t' ∧ cleanupErr = None ∧ err = (f forked).2.2 ∧
  saved (store_abs t') = saved (store_abs t) ∧
  cur (store_abs t') = if (f forked).2.1 then cur (store_abs (f forked).1) else cur (store_abs t).
Proof.
  intros Ht Hf. cbv zeta. unfold WithForkedSnapshot.
  destruct (store_exec_ok Fork t Ht) as (Hi & Ha & _). simpl in Ha.
  destruct (Hf _ Hi) as [Hi1 Hs1].
  destruct (f (store_exec Fork t).1) as [t1 [commit err]]. simpl in *.
  rewrite <- Ha in Hs1. simpl in Hs1. destruct commit; simpl.
  - destruct (store_exec_ok Commit t1 Hi1) as (Hi2 & Ha2 & Ho2).
    destruct (store_exec Commit t1) as [t2 [e| |]]; simpl in *; try done.
    injection Ho2 as <-. simpl. rewrite <- Ha2. simpl. by rewrite Hs1.
  - destruct (store_exec_ok Revert t1 Hi1) as (Hi2 & Ha2 & _).
    simpl in Ha2. rewrite Hs1 in Ha2. rewrite <- Ha2. done.
Qed.
End clients.
