(* ===== verification/BasicStore.v ===== *)
(** The reference snapshot store (src/pkg/simulator/clustersnapshot/store/basic.go).
    Every layer owns its node infos ([clone] snapshots each of them), so node
    infos are values here. *)
From stdpp Require Import prelude gmap strings list fin_maps.
From S2P Require Import Prelude Framework SnapshotSpec.

Section basic.
Context `{GR : GoRange} {S Slice CSI : Type} `{SchedNodeInfo S}.
Abbreviation NI := (NodeInfo S Slice CSI).

Record internalBasicSnapshotData : Type := mkBasic {
  nodeInfoMap : gmap string NI;
  pvcNamespacePodMap : gmap string (gmap string bool)
}.
(** index 0 is the base, the last one is current *)
Abbreviation BasicSnapshotStore := (list internalBasicSnapshotData).

Implicit Types (d : internalBasicSnapshotData) (data : BasicSnapshotStore).

Definition newInternalBasicSnapshotData : internalBasicSnapshotData := mkBasic ∅ ∅.

Definition listNodeInfos d : list NI :=
  foldl (λ l kv, l ++ [kv.2]) [] (go_range (nodeInfoMap d)).

Definition listNodeInfosThatHavePodsWithAffinityList d : list NI :=
  foldl (λ l kv, if decide (0 < length (sched_pods_with_affinity (ni_sched kv.2)))
                 then l ++ [kv.2] else l) [] (go_range (nodeInfoMap d)).

Definition listNodeInfosThatHavePodsWithRequiredAntiAffinityList d : list NI :=
  foldl (λ l kv, if decide (0 < length (sched_pods_with_required_anti_affinity (ni_sched kv.2)))
                 then l ++ [kv.2] else l) [] (go_range (nodeInfoMap d)).

Definition basic_getNodeInfo d (nodeName : string) : result store_error NI :=
  match nodeInfoMap d !! nodeName with
  | Some v => Ok v
  | None => Err ErrNodeNotFound
  end.

Definition basic_isPVCUsedByPods d (key : string) : bool :=
  match pvcNamespacePodMap d !! key with
  | Some v => bool_decide (0 < size v)
  | None => false
  end.

Definition addPvcUsedByPod d (pod : PodInfo) : internalBasicSnapshotData :=
  mkBasic (nodeInfoMap d)
    (foldl (λ m volume,
      match volume with
      | None => m
      | Some claim =>
          let k := GetNamespacedName (pod_namespace pod) claim in
          <[k := <[pod_name pod := true]> (default ∅ (m !! k))]> m
      end) (pvcNamespacePodMap d) (pod_volumes pod)).

Definition removePvcUsedByPod d (pod : PodInfo) : internalBasicSnapshotData :=
  mkBasic (nodeInfoMap d)
    (foldl (λ m volume,
      match volume with
      | None => m
      | Some claim =>
          let k := GetNamespacedName (pod_namespace pod) claim in
          match m !! k with
          | None => m
          | Some pods =>
              let pods' := delete (pod_name pod) pods in
              if decide (size pods' = 0) then delete k m else <[k := pods']> m
          end
      end) (pvcNamespacePodMap d) (pod_volumes pod)).

Definition basic_clone d : internalBasicSnapshotData :=
  mkBasic (foldl (λ m kv, <[kv.1 := Snapshot kv.2]> m) ∅ (go_range (nodeInfoMap d)))
    (foldl (λ m kv, <[kv.1 := foldl (λ c kv1, <[kv1.1 := kv1.2]> c) ∅ (go_range kv.2)]> m)
       ∅ (go_range (pvcNamespacePodMap d))).

Definition basic_addNodeInfo d (nodeInfo : NI) : internalBasicSnapshotData * option store_error :=
  let name := NodeName nodeInfo in
  match nodeInfoMap d !! name with
  | Some _ => (d, Some (ErrNodeAlreadyInSnapshot name))
  | None =>
      let d1 := mkBasic (<[name := nodeInfo]> (nodeInfoMap d)) (pvcNamespacePodMap d) in
      (foldl addPvcUsedByPod d1 (GetPods nodeInfo), None)
  end.

Definition basic_removeNodeInfo d (nodeName : string)
    : internalBasicSnapshotData * option store_error :=
  match nodeInfoMap d !! nodeName with
  | None => (d, Some ErrNodeNotFound)
  | Some ni =>
      let d1 := foldl removePvcUsedByPod d (GetPods ni) in
      (mkBasic (delete nodeName (nodeInfoMap d1)) (pvcNamespacePodMap d1), None)
  end.

Definition basic_addPodInfo d (podInfo : PodInfo) (nodeName : string)
    : internalBasicSnapshotData * option store_error :=
  match nodeInfoMap d !! nodeName with
  | None => (d, Some ErrNodeNotFound)
  | Some ni =>
      let d1 := mkBasic (<[nodeName := AddPodInfo ni podInfo]> (nodeInfoMap d))
                  (pvcNamespacePodMap d) in
      (addPvcUsedByPod d1 podInfo, None)
  end.

(** The loop over the pods of the node returns at the first pod with the
    given namespace and name. *)
Fixpoint basic_removePod_loop d (namespace podName nodeName : string) (nodeInfo : NI)
    (pods : list PodInfo) : internalBasicSnapshotData * option store_error :=
  match pods with
  | [] => (d, Some (ErrPodNotInSnapshot namespace podName))
  | podInfo :: pods' =>
      if decide (pod_namespace podInfo = namespace ∧ pod_name podInfo = podName) then
        let d1 := removePvcUsedByPod d podInfo in
        let '(nodeInfo', err) := RemovePod nodeInfo podInfo in
        let d2 := mkBasic (<[nodeName := nodeInfo']> (nodeInfoMap d1)) (pvcNamespacePodMap d1) in
        match err with
        | Some e => (addPvcUsedByPod d2 podInfo, Some (ErrCannotRemovePod e))
        | None => (d2, None)
        end
      else basic_removePod_loop d namespace podName nodeName nodeInfo pods'
  end.

Definition basic_removePod d (namespace podName nodeName : string)
    : internalBasicSnapshotData * option store_error :=
  match nodeInfoMap d !! nodeName with
  | None => (d, Some ErrNodeNotFound)
  | Some nodeInfo =>
      basic_removePod_loop d namespace podName nodeName nodeInfo (GetPods nodeInfo)
  end.

(** ** The store *)

Definition basic_Clear : BasicSnapshotStore := [newInternalBasicSnapshotData].
Definition NewBasicSnapshotStore : BasicSnapshotStore := basic_Clear.

(** [snapshot.data[len(snapshot.data)-1]]; the slice is never empty. *)
Definition getInternalData data : internalBasicSnapshotData :=
  default newInternalBasicSnapshotData (data !! (length data - 1)).

Definition on_internal {A} (f : internalBasicSnapshotData → internalBasicSnapshotData * A)
    data : BasicSnapshotStore * A :=
  let '(d, a) := f (getInternalData data) in (<[length data - 1 := d]> data, a).

Definition basic_Fork data : BasicSnapshotStore :=
  data ++ [basic_clone (getInternalData data)].

Definition basic_Revert data : BasicSnapshotStore :=
  if decide (length data = 1) then data else take (length data - 1) data.

Definition basic_Commit data : BasicSnapshotStore :=
  if decide (length data <= 1) then data
  else take (length data - 2) data ++ [getInternalData data].

Definition basic_exec (o : store_op S Slice CSI) data : BasicSnapshotStore * store_out S Slice CSI :=
  match o with
  | StoreNodeInfo ni =>
      let '(t, e) := on_internal (λ d, basic_addNodeInfo d ni) data in (t, RErr e)
  | RemoveNodeInfo n =>
      let '(t, e) := on_internal (λ d, basic_removeNodeInfo d n) data in (t, RErr e)
  | StorePodInfo p n =>
      let '(t, e) := on_internal (λ d, basic_addPodInfo d p n) data in (t, RErr e)
  | RemovePodInfo ns name n =>
      let '(t, e) := on_internal (λ d, basic_removePod d ns name n) data in (t, RErr e)
  | Fork => (basic_Fork data, RErr None)
  | Revert => (basic_Revert data, RErr None)
  | Commit => (basic_Commit data, RErr None)
  | Clear => (basic_Clear, RErr None)
  | GetNodeInfo n => (data, RNode (basic_getNodeInfo (getInternalData data) n))
  | ListNodeInfos => (data, RList (listNodeInfos (getInternalData data)))
  | HavePodsWithAffinityList =>
      (data, RList (listNodeInfosThatHavePodsWithAffinityList (getInternalData data)))
  | HavePodsWithRequiredAntiAffinityList =>
      (data, RList (listNodeInfosThatHavePodsWithRequiredAntiAffinityList (getInternalData data)))
  end.

(** ** Refinement *)

Definition basic_inv data : Prop := data ≠ [].
Definition basic_abs data : spec_state S Slice CSI :=
  mkSpec (nodeInfoMap (getInternalData data)) (reverse (nodeInfoMap <$> take (length data - 1) data)).

(** The PVC bookkeeping never touches the nodes. *)
Lemma foldl_addPvc_nodes d pods : nodeInfoMap (foldl addPvcUsedByPod d pods) = nodeInfoMap d.
Proof. revert d. induction pods as [|p pods IH]; intros d; [done|]. simpl. by rewrite IH. Qed.
Lemma foldl_removePvc_nodes d pods : nodeInfoMap (foldl removePvcUsedByPod d pods) = nodeInfoMap d.
Proof. revert d. induction pods as [|p pods IH]; intros d; [done|]. simpl. by rewrite IH. Qed.

Lemma basic_clone_nodes d : nodeInfoMap (basic_clone d) = nodeInfoMap d.
Proof.
  apply map_eq. intros n. simpl.
  rewrite lookup_range_insert_with, lookup_empty.
  destruct (nodeInfoMap d !! n); [by rewrite Snapshot_copy|done].
Qed.

Lemma basic_removePod_loop_spec d ns name n ni pods :
  basic_removePod_loop d ns name n ni pods =
  match find_pod ns name pods with
  | None => (d, Some (ErrPodNotInSnapshot ns name))
  | Some p => basic_removePod_loop d ns name n ni [p]
  end.
Proof.
  induction pods as [|p pods IH]; [done|]. unfold find_pod in *. simpl.
  destruct (decide (pod_namespace p = ns ∧ pod_name p = name)) as [Hp|Hp]; simpl.
  - by rewrite decide_True.
  - rewrite IH. destruct (list_find _ pods) as [[i q]|]; done.
Qed.

Lemma getInternalData_snoc data d : getInternalData (data ++ [d]) = d.
Proof. unfold getInternalData. by rewrite snoc_length_pred, list_lookup_middle. Qed.

Lemma basic_abs_snoc data d :
  basic_abs (data ++ [d]) = mkSpec (nodeInfoMap d) (reverse (nodeInfoMap <$> data)).
Proof.
  unfold basic_abs. by rewrite getInternalData_snoc, snoc_length_pred, take_app_length.
Qed.

Lemma on_internal_snoc {A} (f : internalBasicSnapshotData → internalBasicSnapshotData * A) data d :
  on_internal f (data ++ [d]) = (data ++ [(f d).1], (f d).2).
Proof.
  unfold on_internal. rewrite getInternalData_snoc, snoc_length_pred.
  destruct (f d) as [d' a]. by rewrite insert_app_r_alt, Nat.sub_diag by lia.
Qed.

Lemma basic_exec_ok o data :
  basic_inv data →
  basic_inv (basic_exec o data).1 ∧
  (spec_exec o (basic_abs data)).1 = basic_abs (basic_exec o data).1 ∧
  out_equiv (spec_exec o (basic_abs data)).2 (basic_exec o data).2.
Proof.
  destruct data as [|d data _] using rev_ind; [done|]. intros _.
  rewrite basic_abs_snoc.
  destruct o; simpl; rewrite ?on_internal_snoc, ?getInternalData_snoc; simpl;
    rewrite ?basic_abs_snoc; simpl.
  all: try (split; [by apply app_not_nil_r|]).
  - unfold basic_addNodeInfo. destruct (nodeInfoMap d !! NodeName ni); simpl; [done|].
    by rewrite foldl_addPvc_nodes.
  - unfold basic_removeNodeInfo. destruct (nodeInfoMap d !! nodeName); simpl; [|done].
    by rewrite foldl_removePvc_nodes.
  - unfold basic_addPodInfo. by destruct (nodeInfoMap d !! nodeName).
  - unfold basic_removePod. destruct (nodeInfoMap d !! nodeName) as [ni|]; [|done].
    rewrite basic_removePod_loop_spec.
    destruct (find_pod _ _ _) as [p|] eqn:Hf; [|done].
    assert (pod_namespace p = namespace ∧ pod_name p = podName) as Hp.
    { unfold find_pod in Hf. destruct (list_find _ _) as [[i q]|] eqn:Hq; [|done].
      simpl in Hf. injection Hf as ->. by apply list_find_Some in Hq as (_ & ? & _). }
    simpl. rewrite decide_True by done. by destruct (RemovePod ni p) as [ni' [e|]].
  - split; [|done]. unfold basic_Fork. rewrite getInternalData_snoc, basic_abs_snoc.
    rewrite basic_clone_nodes, fmap_app, reverse_app. done.
  - unfold basic_Revert. rewrite snoc_length_pred, take_app_length.
    destruct data as [|d' data _] using rev_ind; [done|].
    rewrite decide_False by (rewrite !length_app; simpl; lia).
    rewrite basic_abs_snoc, fmap_app, reverse_app. repeat split. by apply app_not_nil_r.
  - unfold basic_Commit. rewrite getInternalData_snoc.
    destruct data as [|d' data _] using rev_ind; [done|].
    rewrite decide_False by (rewrite !length_app; simpl; lia).
    replace (length ((data ++ [d']) ++ [d]) - 2) with (length data)
      by (rewrite !length_app; simpl; lia).
    rewrite <- app_assoc, take_app_length, basic_abs_snoc.
    rewrite fmap_app, reverse_app. repeat split. by apply app_not_nil_r.
  - done.
  - done.
  - split; [done|]. unfold listNodeInfos.
    rewrite (foldl_snoc_fmap snd), go_range_perm. done.
  - split; [done|]. unfold listNodeInfosThatHavePodsWithAffinityList.
    pose proof (foldl_snoc_filter_snd (λ ni : NI, 0 < length (sched_pods_with_affinity
      (ni_sched ni))) (go_range (nodeInfoMap d))) as ->.
    rewrite go_range_perm. apply reflexive_eq, list_filter_iff.
    intros ni. symmetry. apply length_pos_iff_ne_nil.
  - split; [done|]. unfold listNodeInfosThatHavePodsWithRequiredAntiAffinityList.
    pose proof (foldl_snoc_filter_snd (λ ni : NI, 0 < length
      (sched_pods_with_required_anti_affinity (ni_sched ni))) (go_range (nodeInfoMap d))) as ->.
    rewrite go_range_perm. apply reflexive_eq, list_filter_iff.
    intros ni. symmetry. apply length_pos_iff_ne_nil.
Qed.
End basic.
Arguments internalBasicSnapshotData S Slice CSI : clear implicits.

#[export] Instance basic_store `{GR : GoRange} {S Slice CSI} `{SchedNodeInfo S}
  : SnapshotStore S Slice CSI (list (internalBasicSnapshotData S Slice CSI)) := {
  store_new := NewBasicSnapshotStore;
  store_exec := basic_exec;
  store_inv := basic_inv;
  store_abs := basic_abs;
  store_new_ok := conj (app_not_nil_r [] _) eq_refl;
  store_exec_ok := basic_exec_ok
}.
