(* ===== verification/DeltaStore.v ===== *)
(** The optimised snapshot store (src/pkg/simulator/clustersnapshot/store/delta.go).
    Layers share node infos by pointer and copy them on the first write, so
    node infos live in a heap here: a layer maps node names to locations, and
    the cached lists are lists of locations. *)
From stdpp Require Import prelude gmap strings list fin_maps.
From S2P Require Import Prelude Framework SnapshotSpec.

Abbreviation loc := positive.

(** One delta; the chain of its [baseData] is the list of the layers below. *)
Record internalDeltaSnapshotData : Type := mkDelta {
  addedNodeInfoMap : gmap string loc;
  modifiedNodeInfoMap : gmap string loc;
  deletedNodeInfos : gmap string bool;
  nodeInfoList : option (list loc);
  havePodsWithAffinity : option (list loc);
  havePodsWithRequiredAntiAffinity : option (list loc);
  pvcNamespaceMap : option (gmap string Z)
}.

Section delta.
Context `{GR : GoRange} {S Slice CSI : Type} `{SchedNodeInfo S}.
Abbreviation NI := (NodeInfo S Slice CSI).
Abbreviation heapT := (gmap loc NI).
Abbreviation chain := (list internalDeltaSnapshotData).

Record DeltaSnapshotStore : Type := mkStore {
  heap : heapT;
  data : internalDeltaSnapshotData;
  baseData : chain
}.

Implicit Types (h : heapT) (d b : internalDeltaSnapshotData) (bs : chain) (l : loc) (n : string).

Definition newInternalDeltaSnapshotData : internalDeltaSnapshotData :=
  mkDelta ∅ ∅ ∅ None None None None.

(** The name of the node a location holds. *)
Definition name_at h l : string :=
  match h !! l with Some ni => NodeName ni | None => ""%string end.

Definition getNodeInfoLocal d n : option loc :=
  match addedNodeInfoMap d !! n with
  | Some l => Some l
  | None => modifiedNodeInfoMap d !! n
  end.

(** [[]] is a nil receiver. *)
Fixpoint getNodeInfo bs n : option loc :=
  match bs with
  | [] => None
  | d :: bs' =>
      match getNodeInfoLocal d n with
      | Some l => Some l
      | None => if default false (deletedNodeInfos d !! n) then None else getNodeInfo bs' n
      end
  end.

Definition set_nodeInfoList d (v : option (list loc)) : internalDeltaSnapshotData :=
  mkDelta (addedNodeInfoMap d) (modifiedNodeInfoMap d) (deletedNodeInfos d) v
    (havePodsWithAffinity d) (havePodsWithRequiredAntiAffinity d) (pvcNamespaceMap d).

Definition set_maps d (a m : gmap string loc) (x : gmap string bool) : internalDeltaSnapshotData :=
  mkDelta a m x (nodeInfoList d)
    (havePodsWithAffinity d) (havePodsWithRequiredAntiAffinity d) (pvcNamespaceMap d).

Definition clearPodCaches d : internalDeltaSnapshotData :=
  mkDelta (addedNodeInfoMap d) (modifiedNodeInfoMap d) (deletedNodeInfos d) (nodeInfoList d)
    None None None.

Definition clearCaches d : internalDeltaSnapshotData := clearPodCaches (set_nodeInfoList d None).

Definition buildNodeInfoList h d (baseList : list loc) : list loc :=
  let kept :=
    if decide (0 < size (deletedNodeInfos d) ∨ 0 < size (modifiedNodeInfoMap d)) then
      foldl (λ nodeInfoList bni,
        if default false (deletedNodeInfos d !! name_at h bni) then nodeInfoList
        else match modifiedNodeInfoMap d !! name_at h bni with
             | Some mni => nodeInfoList ++ [mni]
             | None => nodeInfoList ++ [bni]
             end) [] baseList
    else baseList in
  foldl (λ nodeInfoList kv, nodeInfoList ++ [kv.2]) kept (go_range (addedNodeInfoMap d)).

(** Builds the list on a cache miss, filling the caches of the layers below
    on the way. *)
Fixpoint getNodeInfoList h bs : chain * list loc :=
  match bs with
  | [] => ([], [])
  | d :: bs' =>
      match nodeInfoList d with
      | Some lst => (d :: bs', lst)
      | None =>
          let '(bs1, baseList) := getNodeInfoList h bs' in
          let lst := buildNodeInfoList h d baseList in
          (set_nodeInfoList d (Some lst) :: bs1, lst)
      end
  end.

Definition pods_at h l : list PodInfo :=
  match h !! l with Some ni => GetPods ni | None => [] end.

Definition delta_addNodeInfo h d bs l : internalDeltaSnapshotData * option store_error :=
  let name := name_at h l in
  match getNodeInfo (d :: bs) name with
  | Some _ => (d, Some (ErrNodeAlreadyInSnapshot name))
  | None =>
      let d1 :=
        match deletedNodeInfos d !! name with
        | Some _ => set_maps d (addedNodeInfoMap d) (<[name := l]> (modifiedNodeInfoMap d))
                      (delete name (deletedNodeInfos d))
        | None => set_maps d (<[name := l]> (addedNodeInfoMap d)) (modifiedNodeInfoMap d)
                    (deletedNodeInfos d)
        end in
      let d2 := match nodeInfoList d1 with
                | Some lst => set_nodeInfoList d1 (Some (lst ++ [l]))
                | None => d1
                end in
      (if decide (0 < length (pods_at h l)) then clearPodCaches d2 else d2, None)
  end.

Definition delta_removeNodeInfo d bs n : internalDeltaSnapshotData * option store_error :=
  let foundInDelta := bool_decide (is_Some (addedNodeInfoMap d !! n)) in
  let d1 := if foundInDelta
            then set_maps d (delete n (addedNodeInfoMap d)) (modifiedNodeInfoMap d) (deletedNodeInfos d)
            else d in
  let d2 := match modifiedNodeInfoMap d1 !! n with
            | Some _ => set_maps d1 (addedNodeInfoMap d1) (delete n (modifiedNodeInfoMap d1))
                          (deletedNodeInfos d1)
            | None => d1
            end in
  match deletedNodeInfos d2 !! n with
  | Some _ => (d2, Some ErrNodeNotFound)
  | None =>
      let foundInBase := bool_decide (is_Some (getNodeInfo bs n)) in
      let d3 := if foundInBase
                then set_maps d2 (addedNodeInfoMap d2) (modifiedNodeInfoMap d2)
                       (<[n := true]> (deletedNodeInfos d2))
                else d2 in
      if negb foundInBase && negb foundInDelta then (d3, Some ErrNodeNotFound)
      else (clearCaches d3, None)
  end.

(** The location of the node to write to, in this layer: a node that is only
    found below is copied to a new location first. *)
Definition nodeInfoToModify h d bs n : heapT * internalDeltaSnapshotData * option loc :=
  match getNodeInfoLocal d n with
  | Some l => (h, d, Some l)
  | None =>
      match deletedNodeInfos d !! n with
      | Some _ => (h, d, None)
      | None =>
          match getNodeInfo bs n with
          | None => (h, d, None)
          | Some bni =>
              let dni := fresh (dom h) in
              let h' := match h !! bni with
                        | Some ni => <[dni := Snapshot ni]> h
                        | None => h
                        end in
              (h', clearCaches (set_maps d (addedNodeInfoMap d)
                     (<[n := dni]> (modifiedNodeInfoMap d)) (deletedNodeInfos d)), Some dni)
          end
      end
  end.

Definition delta_addPodInfo h d bs (podInfo : PodInfo) n
    : heapT * internalDeltaSnapshotData * option store_error :=
  let '(h1, d1, r) := nodeInfoToModify h d bs n in
  match r with
  | None => (h1, d1, Some ErrNodeNotFound)
  | Some ni => (alter (λ x, AddPodInfo x podInfo) ni h1, clearCaches d1, None)
  end.

(** The loop of [removePod]: the first pod with the given namespace and name
    is removed from the node at [ni]. *)
Fixpoint delta_removePod_loop h ni (namespace name : string) (pods : list PodInfo)
    : heapT * option (option store_error) :=
  match pods with
  | [] => (h, None)
  | podInfo :: pods' =>
      if decide (pod_namespace podInfo = namespace ∧ pod_name podInfo = name) then
        match h !! ni with
        | Some x => let '(x', err) := RemovePod x podInfo in
                    (<[ni := x']> h, Some (ErrCannotRemovePod <$> err))
        | None => (h, None)
        end
      else delta_removePod_loop h ni namespace name pods'
  end.

Definition delta_removePod h d bs (namespace name : string) n
    : heapT * internalDeltaSnapshotData * option store_error :=
  let '(h1, d1, r) := nodeInfoToModify h d bs n in
  match r with
  | None => (h1, d1, Some ErrNodeNotFound)
  | Some ni =>
      match delta_removePod_loop h1 ni namespace name (pods_at h1 ni) with
      | (h2, Some (Some err)) => (h2, d1, Some err)
      | (h2, Some None) => (h2, clearCaches d1, None)
      | (h2, None) => (h2, d1, Some (ErrPodNotInSnapshot namespace name))
      end
  end.

Definition pvc_counts_at h l : gmap string Z :=
  match h !! l with Some ni => sched_pvc_ref_counts (ni_sched ni) | None => ∅ end.

Definition delta_isPVCUsedByPods h bs (key : string) : chain * bool :=
  match bs with
  | [] => ([], false)
  | d :: bs' =>
      match pvcNamespaceMap d with
      | Some m => (bs, bool_decide (0 < default 0 (m !! key))%Z)
      | None =>
          let '(bs1, nodeInfos) := getNodeInfoList h bs in
          let m := foldl (λ m v, foldl (λ m kv, <[kv.1 := (default 0 (m !! kv.1) + kv.2)%Z]> m)
                                   m (go_range (pvc_counts_at h v))) ∅ nodeInfos in
          match bs1 with
          | [] => ([], false)
          | d1 :: bs1' =>
              (mkDelta (addedNodeInfoMap d1) (modifiedNodeInfoMap d1) (deletedNodeInfos d1)
                 (nodeInfoList d1) (havePodsWithAffinity d1) (havePodsWithRequiredAntiAffinity d1)
                 (Some m) :: bs1',
               bool_decide (0 < default 0 (m !! key))%Z)
          end
      end
  end.

(** [fork] of a chain; [commit] of [d] into the layer [b] below it, which
    stays behind partly changed when an operation on it fails. *)
Definition delta_fork d bs : internalDeltaSnapshotData * chain :=
  (newInternalDeltaSnapshotData, d :: bs).

Definition delta_commit_into h d b bs : internalDeltaSnapshotData * option store_error :=
  match fold_err (λ b kv, delta_removeNodeInfo b bs kv.1) (go_range (deletedNodeInfos d)) b with
  | (b1, Some e) => (b1, Some e)
  | (b1, None) =>
      match fold_err (λ b kv,
              match delta_removeNodeInfo b bs (name_at h kv.2) with
              | (b', Some e) => (b', Some e)
              | (b', None) => delta_addNodeInfo h b' bs kv.2
              end) (go_range (modifiedNodeInfoMap d)) b1 with
      | (b2, Some e) => (b2, Some e)
      | (b2, None) =>
          fold_err (λ b kv, delta_addNodeInfo h b bs kv.2) (go_range (addedNodeInfoMap d)) b2
      end
  end.

(** ** The listers *)

Definition affinity_at h l : list PodInfo :=
  match h !! l with Some ni => sched_pods_with_affinity (ni_sched ni) | None => [] end.
Definition anti_affinity_at h l : list PodInfo :=
  match h !! l with Some ni => sched_pods_with_required_anti_affinity (ni_sched ni) | None => [] end.

Definition delta_HavePodsWithAffinityList h d bs : chain * list loc :=
  match havePodsWithAffinity d with
  | Some lst => (d :: bs, lst)
  | None =>
      let '(bs1, nodeInfoLst) := getNodeInfoList h (d :: bs) in
      let lst := foldl (λ lst node, if decide (0 < length (affinity_at h node))
                                    then lst ++ [node] else lst) [] nodeInfoLst in
      match bs1 with
      | [] => ([], lst)
      | d1 :: bs1' =>
          (mkDelta (addedNodeInfoMap d1) (modifiedNodeInfoMap d1) (deletedNodeInfos d1)
             (nodeInfoList d1) (Some lst) (havePodsWithRequiredAntiAffinity d1)
             (pvcNamespaceMap d1) :: bs1', lst)
      end
  end.

Definition delta_HavePodsWithRequiredAntiAffinityList h d bs : chain * list loc :=
  match havePodsWithRequiredAntiAffinity d with
  | Some lst => (d :: bs, lst)
  | None =>
      let '(bs1, nodeInfoLst) := getNodeInfoList h (d :: bs) in
      let lst := foldl (λ lst node, if decide (0 < length (anti_affinity_at h node))
                                    then lst ++ [node] else lst) [] nodeInfoLst in
      match bs1 with
      | [] => ([], lst)
      | d1 :: bs1' =>
          (mkDelta (addedNodeInfoMap d1) (modifiedNodeInfoMap d1) (deletedNodeInfos d1)
             (nodeInfoList d1) (havePodsWithAffinity d1) (Some lst)
             (pvcNamespaceMap d1) :: bs1', lst)
      end
  end.

(** ** The store *)

Implicit Types s : DeltaSnapshotStore.

Definition delta_Clear h : DeltaSnapshotStore := mkStore h newInternalDeltaSnapshotData [].
Definition NewDeltaSnapshotStore : DeltaSnapshotStore := delta_Clear ∅.

Definition delta_Fork s : DeltaSnapshotStore :=
  let '(d, bs) := delta_fork (data s) (baseData s) in mkStore (heap s) d bs.

Definition delta_Revert s : DeltaSnapshotStore :=
  match baseData s with
  | [] => s
  | b :: bs => mkStore (heap s) b bs
  end.

Definition delta_Commit s : DeltaSnapshotStore * option store_error :=
  match baseData s with
  | [] => (s, None)
  | b :: bs =>
      match delta_commit_into (heap s) (data s) b bs with
      | (b', Some err) => (mkStore (heap s) (data s) (b' :: bs), Some err)
      | (b', None) => (mkStore (heap s) b' bs, None)
      end
  end.

(** The node info passed in is an object of its own: it gets a new location. *)
Definition delta_StoreNodeInfo s (ni : NI) : DeltaSnapshotStore * option store_error :=
  let l := fresh (dom (heap s)) in
  let h := <[l := ni]> (heap s) in
  let '(d, e) := delta_addNodeInfo h (data s) (baseData s) l in
  (mkStore h d (baseData s), e).

Definition delta_RemoveNodeInfo s n : DeltaSnapshotStore * option store_error :=
  let '(d, e) := delta_removeNodeInfo (data s) (baseData s) n in
  (mkStore (heap s) d (baseData s), e).

Definition delta_StorePodInfo s (p : PodInfo) n : DeltaSnapshotStore * option store_error :=
  let '(h, d, e) := delta_addPodInfo (heap s) (data s) (baseData s) p n in
  (mkStore h d (baseData s), e).

Definition delta_RemovePodInfo s (ns name : string) n : DeltaSnapshotStore * option store_error :=
  let '(h, d, e) := delta_removePod (heap s) (data s) (baseData s) ns name n in
  (mkStore h d (baseData s), e).

Definition with_chain s (c : chain) : DeltaSnapshotStore :=
  match c with
  | [] => s
  | d :: bs => mkStore (heap s) d bs
  end.

(** The node infos a list of pointers points to. *)
Definition deref h (ls : list loc) : list NI := omap (λ l, h !! l) ls.

Definition delta_getNodeInfo s n : result store_error NI :=
  match getNodeInfo (data s :: baseData s) n ≫= λ l, heap s !! l with
  | Some ni => Ok ni
  | None => Err ErrNodeNotFound
  end.

Definition delta_IsPVCUsedByPods s (key : string) : DeltaSnapshotStore * bool :=
  let '(c, r) := delta_isPVCUsedByPods (heap s) (data s :: baseData s) key in (with_chain s c, r).

Definition delta_exec (o : store_op S Slice CSI) s : DeltaSnapshotStore * store_out S Slice CSI :=
  match o with
  | StoreNodeInfo ni => let '(t, e) := delta_StoreNodeInfo s ni in (t, RErr e)
  | RemoveNodeInfo n => let '(t, e) := delta_RemoveNodeInfo s n in (t, RErr e)
  | StorePodInfo p n => let '(t, e) := delta_StorePodInfo s p n in (t, RErr e)
  | RemovePodInfo ns name n => let '(t, e) := delta_RemovePodInfo s ns name n in (t, RErr e)
  | Fork => (delta_Fork s, RErr None)
  | Revert => (delta_Revert s, RErr None)
  | Commit => let '(t, e) := delta_Commit s in (t, RErr e)
  | Clear => (delta_Clear (heap s), RErr None)
  | GetNodeInfo n => (s, RNode (delta_getNodeInfo s n))
  | ListNodeInfos =>
      let '(c, ls) := getNodeInfoList (heap s) (data s :: baseData s) in
      (with_chain s c, RList (deref (heap s) ls))
  | HavePodsWithAffinityList =>
      let '(c, ls) := delta_HavePodsWithAffinityList (heap s) (data s) (baseData s) in
      (with_chain s c, RList (deref (heap s) ls))
  | HavePodsWithRequiredAntiAffinityList =>
      let '(c, ls) := delta_HavePodsWithRequiredAntiAffinityList (heap s) (data s) (baseData s) in
      (with_chain s c, RList (deref (heap s) ls))
  end.
End delta.
Arguments DeltaSnapshotStore S Slice CSI : clear implicits.
