(* ===== verification/DeltaStoreProofs.v ===== *)
(** The delta store refines the specification of a snapshot store: its
    invariant (copy-on-write ownership, consistent deltas, coherent caches),
    the effect of each operation, and its instance of the interface. *)
From stdpp Require Import prelude gmap strings list fin_maps.
From S2P Require Import Prelude Framework SnapshotSpec DeltaStore.

Section delta_proofs.
Context `{GR : GoRange} {S Slice CSI : Type} `{SchedNodeInfo S}.
Abbreviation NI := (NodeInfo S Slice CSI).
Abbreviation heapT := (gmap loc NI).
Abbreviation layer := internalDeltaSnapshotData.
Abbreviation chain := (list layer).
Implicit Types (h : heapT) (d b : layer) (bs : chain) (l : loc) (n : string).

(** ** Ownership and visibility *)

Definition owns_at d n l : Prop :=
  addedNodeInfoMap d !! n = Some l ∨ modifiedNodeInfoMap d !! n = Some l.
Definition owned bs l : Prop := ∃ d n, d ∈ bs ∧ owns_at d n l.
Definition visible bs l : Prop := ∃ n, getNodeInfo bs n = Some l.

(** A delta is consistent with what lies below it. *)
Record maps_ok h d bs : Prop := {
  ok_named n l : owns_at d n l → ∃ ni, h !! l = Some ni ∧ NodeName ni = n;
  ok_added n l : addedNodeInfoMap d !! n = Some l →
    getNodeInfo bs n = None ∧ modifiedNodeInfoMap d !! n = None;
  ok_modified n l : modifiedNodeInfoMap d !! n = Some l → is_Some (getNodeInfo bs n);
  ok_deleted n x : deletedNodeInfos d !! n = Some x →
    x = true ∧ is_Some (getNodeInfo bs n) ∧
    addedNodeInfoMap d !! n = None ∧ modifiedNodeInfoMap d !! n = None;
  ok_owned n l : owns_at d n l → ¬ owned bs l
}.

Definition lists (P : loc → Prop) (ls : list loc) : Prop := NoDup ls ∧ ∀ l, l ∈ ls ↔ P l.

Definition pvc_sum h (key : string) (ls : list loc) : Z :=
  foldr (λ l acc, (default 0 (pvc_counts_at h l !! key) + acc)%Z) 0%Z ls.

Record caches_ok h d bs : Prop := {
  ok_list ls : nodeInfoList d = Some ls → lists (visible (d :: bs)) ls;
  ok_affinity ls : havePodsWithAffinity d = Some ls →
    lists (λ l, visible (d :: bs) l ∧ affinity_at h l ≠ []) ls;
  ok_anti_affinity ls : havePodsWithRequiredAntiAffinity d = Some ls →
    lists (λ l, visible (d :: bs) l ∧ anti_affinity_at h l ≠ []) ls;
  ok_pvc m : pvcNamespaceMap d = Some m →
    ∃ ls, lists (visible (d :: bs)) ls ∧ ∀ key, default 0%Z (m !! key) = pvc_sum h key ls
}.

Fixpoint chain_ok h bs : Prop :=
  match bs with
  | [] => True
  | d :: bs' => maps_ok h d bs' ∧ caches_ok h d bs' ∧ chain_ok h bs'
  end.

Lemma getNodeInfoLocal_owns d n l : getNodeInfoLocal d n = Some l → owns_at d n l.
Proof. unfold getNodeInfoLocal, owns_at. destruct (addedNodeInfoMap d !! n); naive_solver. Qed.

Lemma getNodeInfoLocal_None d n :
  getNodeInfoLocal d n = None ↔
  addedNodeInfoMap d !! n = None ∧ modifiedNodeInfoMap d !! n = None.
Proof. unfold getNodeInfoLocal. destruct (addedNodeInfoMap d !! n); naive_solver. Qed.

Lemma getNodeInfo_owns bs n l : getNodeInfo bs n = Some l → ∃ d, d ∈ bs ∧ owns_at d n l.
Proof.
  induction bs as [|d bs IH]; simpl; [done|].
  destruct (getNodeInfoLocal d n) as [l'|] eqn:Hd.
  - intros [= <-]. exists d. split; [left|by apply getNodeInfoLocal_owns].
  - destruct (default false _); [done|]. intros Hl. destruct (IH Hl) as (d' & ? & ?).
    exists d'. split; [by right|done].
Qed.

Lemma visible_owned bs l : visible bs l → owned bs l.
Proof. intros [n Hn]. destruct (getNodeInfo_owns _ _ _ Hn) as (d & ? & ?). by exists d, n. Qed.

Lemma owned_cons d bs l : owned (d :: bs) l ↔ (∃ n, owns_at d n l) ∨ owned bs l.
Proof.
  split.
  - intros (d' & n & [->|Hd]%elem_of_cons & Ho); [left; eauto|right; by exists d', n].
  - intros [[n Hn]|(d' & n & ? & ?)]; [exists d, n|exists d', n]; split; auto; [left|by right].
Qed.

Lemma chain_ok_named h bs n l :
  chain_ok h bs → getNodeInfo bs n = Some l → ∃ ni, h !! l = Some ni ∧ NodeName ni = n.
Proof.
  induction bs as [|d bs IH]; simpl; [done|]. intros (Hm & _ & Hbs).
  destruct (getNodeInfoLocal d n) as [l'|] eqn:Hd.
  - intros [= <-]. by apply (ok_named _ _ _ Hm), getNodeInfoLocal_owns.
  - destruct (default false _); [done|]. auto.
Qed.

Lemma chain_ok_name_at h bs n l : chain_ok h bs → getNodeInfo bs n = Some l → name_at h l = n.
Proof.
  intros Hc Hn. destruct (chain_ok_named h bs n l Hc Hn) as (ni & Hl & Hname).
  unfold name_at. by rewrite Hl.
Qed.

Lemma getNodeInfo_inj h bs n1 n2 l :
  chain_ok h bs → getNodeInfo bs n1 = Some l → getNodeInfo bs n2 = Some l → n1 = n2.
Proof.
  intros Hc H1 H2.
  by rewrite <- (chain_ok_name_at h bs n1 l), <- (chain_ok_name_at h bs n2 l).
Qed.

Lemma owned_in_heap h bs l : chain_ok h bs → owned bs l → is_Some (h !! l).
Proof.
  induction bs as [|d bs IH]; simpl; [by intros _ (d & n & Hd%elem_of_nil & _)|].
  intros (Hm & _ & Hbs) [[n Hn]|Ho]%owned_cons; [|auto].
  destruct (ok_named _ _ _ Hm n l Hn) as (ni & -> & _). eauto.
Qed.

(** What a delta shows through, by cases. *)
Lemma getNodeInfo_cons h d bs n :
  maps_ok h d bs →
  getNodeInfo (d :: bs) n =
  match getNodeInfoLocal d n with
  | Some l => Some l
  | None => match deletedNodeInfos d !! n with Some _ => None | None => getNodeInfo bs n end
  end.
Proof.
  intros Hm. simpl. destruct (getNodeInfoLocal d n); [done|].
  destruct (deletedNodeInfos d !! n) eqn:Hx; [|done].
  by apply (ok_deleted _ _ _ Hm) in Hx as [-> _].
Qed.

Lemma not_visible_cases h d bs n :
  maps_ok h d bs → getNodeInfo (d :: bs) n = None →
  addedNodeInfoMap d !! n = None ∧ modifiedNodeInfoMap d !! n = None ∧
  (is_Some (deletedNodeInfos d !! n) ∨ deletedNodeInfos d !! n = None ∧ getNodeInfo bs n = None).
Proof.
  intros Hm. rewrite (getNodeInfo_cons h) by done.
  destruct (getNodeInfoLocal d n) eqn:Hl; [done|]. apply getNodeInfoLocal_None in Hl as [-> ->].
  destruct (deletedNodeInfos d !! n); eauto.
Qed.

(** ** Framing: only the cells a chain owns matter to it *)

Lemma lists_iff P Q ls : (∀ l, P l ↔ Q l) → lists P ls → lists Q ls.
Proof. intros HPQ [Hnd Hin]. split; [done|]. intros l. by rewrite Hin. Qed.

Lemma pvc_sum_ext h h' key ls :
  (∀ l, l ∈ ls → h' !! l = h !! l) → pvc_sum h' key ls = pvc_sum h key ls.
Proof.
  induction ls as [|l ls IH]; intros Hl; [done|]. simpl. rewrite IH by set_solver.
  unfold pvc_counts_at. by rewrite (Hl l) by left.
Qed.

Lemma caches_ok_frame h h' d bs :
  (∀ l, owned (d :: bs) l → h' !! l = h !! l) → caches_ok h d bs → caches_ok h' d bs.
Proof.
  intros Hh [H1 H2 H3 H4].
  assert (∀ l, visible (d :: bs) l → h' !! l = h !! l) as Hv
    by (intros l ?%visible_owned; auto).
  split; [done|..].
  - intros ls Hls. eapply lists_iff; [|by apply H2]. intros l. unfold affinity_at. simpl.
    split; intros [Hvl Ha]; (split; [done|]); by rewrite (Hv l Hvl) in *.
  - intros ls Hls. eapply lists_iff; [|by apply H3]. intros l. unfold anti_affinity_at. simpl.
    split; intros [Hvl Ha]; (split; [done|]); by rewrite (Hv l Hvl) in *.
  - intros m Hm. destruct (H4 m Hm) as (ls & Hls & Hsum). exists ls. split; [done|].
    intros key. rewrite Hsum. symmetry. apply pvc_sum_ext. intros l Hl. apply Hv. by apply Hls.
Qed.

Lemma chain_ok_frame h h' bs :
  (∀ l, owned bs l → h' !! l = h !! l) → chain_ok h bs → chain_ok h' bs.
Proof.
  induction bs as [|d bs IH]; intros Hh; simpl; [done|]. intros (Hm & Hc & Hbs).
  split_and!.
  - destruct Hm as [H1 H2 H3 H4 H5]. split; try done.
    intros n l Hl. rewrite (Hh l) by (apply owned_cons; eauto). auto.
  - by eapply caches_ok_frame.
  - apply IH; [|done]. intros l Hl. apply Hh, owned_cons. by right.
Qed.

(** ** Adding a node *)

Definition same_maps d d' : Prop :=
  addedNodeInfoMap d = addedNodeInfoMap d' ∧ modifiedNodeInfoMap d = modifiedNodeInfoMap d' ∧
  deletedNodeInfos d = deletedNodeInfos d'.

Lemma same_maps_local d d' n : same_maps d d' → getNodeInfoLocal d n = getNodeInfoLocal d' n.
Proof. unfold getNodeInfoLocal. by intros (-> & -> & _). Qed.

Lemma same_maps_get d d' bs n : same_maps d d' → getNodeInfo (d :: bs) n = getNodeInfo (d' :: bs) n.
Proof. intros Hs. simpl. rewrite (same_maps_local d d' n Hs). by destruct Hs as (_ & _ & ->). Qed.

Lemma same_maps_owns d d' n l : same_maps d d' → owns_at d n l ↔ owns_at d' n l.
Proof. unfold owns_at. by intros (-> & -> & _). Qed.

Lemma same_maps_ok h d d' bs : same_maps d d' → maps_ok h d bs → maps_ok h d' bs.
Proof.
  intros Hs [H1 H2 H3 H4 H5]. pose proof Hs as (Ha & Hm & Hx).
  split; rewrite <- ?Ha, <- ?Hm, <- ?Hx; try done;
    intros n l; rewrite <- (same_maps_owns d d') by done; eauto.
Qed.

Lemma visible_ext bs bs' l :
  (∀ n, getNodeInfo bs n = getNodeInfo bs' n) → visible bs l ↔ visible bs' l.
Proof. intros Hg. unfold visible. by setoid_rewrite Hg. Qed.

(** The deltas of the three maps when [l] is stored under the name [m]. *)
Definition add_maps d m l : layer :=
  match deletedNodeInfos d !! m with
  | Some _ => set_maps d (addedNodeInfoMap d) (<[m := l]> (modifiedNodeInfoMap d))
                (delete m (deletedNodeInfos d))
  | None => set_maps d (<[m := l]> (addedNodeInfoMap d)) (modifiedNodeInfoMap d) (deletedNodeInfos d)
  end.

Lemma add_maps_owns d m l n x : owns_at (add_maps d m l) n x → owns_at d n x ∨ n = m ∧ x = l.
Proof.
  unfold add_maps, owns_at. destruct (deletedNodeInfos d !! m); simpl;
    rewrite lookup_insert; case_decide; naive_solver.
Qed.

Lemma add_maps_ok h d bs m l ni :
  maps_ok h d bs → h !! l = Some ni → NodeName ni = m → ¬ owned (d :: bs) l →
  getNodeInfo (d :: bs) m = None →
  maps_ok h (add_maps d m l) bs.
Proof.
  intros Hm Hl Hname Hown Hnone.
  destruct (not_visible_cases h d bs m Hm Hnone) as (Ha & Hmod & Hcase).
  destruct Hm as [H1 H2 H3 H4 H5].
  split.
  - intros n x [Ho|[-> ->]]%add_maps_owns; eauto.
  - unfold add_maps. destruct (deletedNodeInfos d !! m) eqn:Hx; simpl; intros n x;
      rewrite ?lookup_insert; repeat case_decide; naive_solver.
  - unfold add_maps. destruct (deletedNodeInfos d !! m) eqn:Hx; simpl; intros n x; [|by apply H3].
    rewrite lookup_insert. case_decide; [subst; intros _; by apply (H4 _ _ Hx)|by apply H3].
  - unfold add_maps. destruct (deletedNodeInfos d !! m) eqn:Hx; simpl; intros n x.
    + rewrite lookup_delete, lookup_insert. case_decide; [done|]. apply H4.
    + intros Hn. assert (m ≠ n) by congruence. rewrite lookup_insert_ne by done. by apply H4.
  - intros n x [Ho|[-> ->]]%add_maps_owns; [by eapply H5|].
    intros Ho. apply Hown, owned_cons. by right.
Qed.

Lemma add_maps_get h d bs m l n :
  maps_ok h d bs → maps_ok h (add_maps d m l) bs → getNodeInfo (d :: bs) m = None →
  getNodeInfo (add_maps d m l :: bs) n =
  if decide (n = m) then Some l else getNodeInfo (d :: bs) n.
Proof.
  intros Hm Hm' Hnone. rewrite !(getNodeInfo_cons h) by done.
  destruct (not_visible_cases h d bs m Hm Hnone) as (Ha & Hmod & Hcase).
  unfold add_maps, getNodeInfoLocal. destruct (deletedNodeInfos d !! m) eqn:Hx; simpl;
    rewrite ?lookup_insert, ?lookup_delete; destruct (decide (n = m)) as [->|Hne];
    repeat case_decide; try congruence; by rewrite ?Ha.
Qed.

Lemma not_owned_not_visible bs l : ¬ owned bs l → ¬ visible bs l.
Proof. intros Ho Hv. by apply Ho, visible_owned. Qed.

(** The visible locations after one more node. *)
Lemma visible_add h d d' bs m l x :
  chain_ok h (d :: bs) → getNodeInfo (d :: bs) m = None →
  (∀ n, getNodeInfo (d' :: bs) n = if decide (n = m) then Some l else getNodeInfo (d :: bs) n) →
  visible (d' :: bs) x ↔ visible (d :: bs) x ∨ x = l.
Proof.
  intros Hc Hnone Hget. unfold visible. setoid_rewrite Hget. split.
  - intros [n Hn]. case_decide; [right; congruence|left; eauto].
  - intros [[n Hn]| ->]; [|exists m; by rewrite decide_True].
    exists n. rewrite decide_False; [done|]. intros ->. congruence.
Qed.

Lemma lists_snoc (P Q : loc → Prop) ls l :
  lists P ls → ¬ P l → (∀ x, Q x ↔ P x ∨ x = l) → lists Q (ls ++ [l]).
Proof.
  intros [Hnd Hin] Hl HQ. split.
  - apply NoDup_app. split_and!; [done| |apply NoDup_singleton].
    intros x Hx ->%list_elem_of_singleton. by apply Hl, Hin.
  - intros x. by rewrite elem_of_app, list_elem_of_singleton, HQ, Hin.
Qed.

Lemma pvc_sum_snoc h key ls l :
  pvc_sum h key (ls ++ [l]) = (pvc_sum h key ls + default 0 (pvc_counts_at h l !! key))%Z.
Proof. induction ls as [|x ls IH]; simpl; [|rewrite IH]; lia. Qed.

Lemma no_pods_at h l :
  pods_at h l = [] →
  affinity_at h l = [] ∧ anti_affinity_at h l = [] ∧
  ∀ key, default 0%Z (pvc_counts_at h l !! key) = 0%Z.
Proof.
  unfold pods_at, affinity_at, anti_affinity_at, pvc_counts_at.
  destruct (h !! l) as [ni|]; [apply sched_no_pods|]. intros _.
  split_and!; [done..|]. intros key. by rewrite lookup_empty.
Qed.

Lemma cleared_caches_ok h d bs : caches_ok h (clearCaches d) bs.
Proof. by split. Qed.

(** The caches [delta_addNodeInfo] leaves behind: the list of nodes grows by
    the new one, the pod caches survive only a node without pods. *)
Lemma add_caches_ok h d d1 bs m l :
  chain_ok h (d :: bs) → getNodeInfo (d :: bs) m = None → ¬ owned (d :: bs) l →
  (∀ n, getNodeInfo (d1 :: bs) n = if decide (n = m) then Some l else getNodeInfo (d :: bs) n) →
  nodeInfoList d1 = (λ ls, ls ++ [l]) <$> nodeInfoList d →
  (0 < length (pods_at h l) → havePodsWithAffinity d1 = None ∧
     havePodsWithRequiredAntiAffinity d1 = None ∧ pvcNamespaceMap d1 = None) →
  (¬ 0 < length (pods_at h l) → havePodsWithAffinity d1 = havePodsWithAffinity d ∧
     havePodsWithRequiredAntiAffinity d1 = havePodsWithRequiredAntiAffinity d ∧
     pvcNamespaceMap d1 = pvcNamespaceMap d) →
  caches_ok h d1 bs.
Proof.
  intros Hc Hnone Hown Hget Hlist Hpods Hnopods.
  pose proof (visible_add h d d1 bs m l) as Hvis. specialize (λ x, Hvis x Hc Hnone Hget).
  pose proof (not_owned_not_visible _ _ Hown) as Hnv.
  destruct Hc as (_ & [H1 H2 H3 H4] & _).
  destruct (decide (0 < length (pods_at h l))) as [Hp|Hp].
  - destruct (Hpods Hp) as (E1 & E2 & E3). split; [|congruence..].
    intros ls. rewrite Hlist. destruct (nodeInfoList d) as [ls0|] eqn:Hls; [|done].
    intros [= <-]. eapply lists_snoc; eauto.
  - destruct (Hnopods Hp) as (E1 & E2 & E3).
    assert (pods_at h l = []) as Hp' by (destruct (pods_at h l); [done|simpl in Hp; lia]).
    destruct (no_pods_at h l Hp') as (Haff & Hanti & Hpvc).
    split; rewrite ?E1, ?E2, ?E3.
    + intros ls. rewrite Hlist. destruct (nodeInfoList d) as [ls0|] eqn:Hls; [|done].
      intros [= <-]. eapply lists_snoc; eauto.
    + intros ls Hls. eapply lists_iff; [|by apply H2]. intros x. rewrite Hvis. naive_solver.
    + intros ls Hls. eapply lists_iff; [|by apply H3]. intros x. rewrite Hvis. naive_solver.
    + intros mp Hmp. destruct (H4 mp Hmp) as (ls & Hls & Hsum). exists (ls ++ [l]).
      split; [eapply lists_snoc; eauto|]. intros key. rewrite pvc_sum_snoc, Hpvc, Hsum. lia.
Qed.

Lemma delta_addNodeInfo_exists h d bs l x :
  getNodeInfo (d :: bs) (name_at h l) = Some x →
  delta_addNodeInfo h d bs l = (d, Some (ErrNodeAlreadyInSnapshot (name_at h l))).
Proof. intros Hx. unfold delta_addNodeInfo. by rewrite Hx. Qed.

Lemma delta_addNodeInfo_ok h d bs l ni :
  chain_ok h (d :: bs) → h !! l = Some ni → ¬ owned (d :: bs) l →
  getNodeInfo (d :: bs) (NodeName ni) = None →
  ∃ d', delta_addNodeInfo h d bs l = (d', None) ∧ chain_ok h (d' :: bs) ∧
    (∀ n, getNodeInfo (d' :: bs) n =
          if decide (n = NodeName ni) then Some l else getNodeInfo (d :: bs) n) ∧
    (∀ n x, owns_at d' n x → owns_at d n x ∨ n = NodeName ni ∧ x = l).
Proof.
  intros Hc Hl Hown Hnone. pose proof Hc as (Hm & _ & Hbs).
  assert (name_at h l = NodeName ni) as Hname by (unfold name_at; by rewrite Hl).
  set (m := NodeName ni) in *.
  pose proof (add_maps_ok h d bs m l ni Hm Hl eq_refl Hown Hnone) as Hm'.
  pose proof (λ n, add_maps_get h d bs m l n Hm Hm' Hnone) as Hget'.
  unfold delta_addNodeInfo. rewrite Hname, Hnone. fold (add_maps d m l).
  set (d2 := match nodeInfoList (add_maps d m l) with
             | Some lst => set_nodeInfoList (add_maps d m l) (Some (lst ++ [l]))
             | None => add_maps d m l end).
  set (d3 := if decide (0 < length (pods_at h l)) then clearPodCaches d2 else d2).
  assert (same_maps (add_maps d m l) d3) as Hsame.
  { unfold d3, d2. destruct (decide _), (nodeInfoList (add_maps d m l)); by split_and!. }
  assert (nodeInfoList (add_maps d m l) = nodeInfoList d ∧
    havePodsWithAffinity (add_maps d m l) = havePodsWithAffinity d ∧
    havePodsWithRequiredAntiAffinity (add_maps d m l) = havePodsWithRequiredAntiAffinity d ∧
    pvcNamespaceMap (add_maps d m l) = pvcNamespaceMap d) as (Hc1 & Hc2 & Hc3 & Hc4)
    by (unfold add_maps; by destruct (deletedNodeInfos d !! m)).
  assert (∀ n, getNodeInfo (d3 :: bs) n =
    if decide (n = m) then Some l else getNodeInfo (d :: bs) n) as Hget
    by (intros n; by rewrite <- (same_maps_get _ _ bs n Hsame), Hget').
  exists d3. split_and!; [done| |done|].
  - split_and!; [by eapply same_maps_ok| |done].
    eapply add_caches_ok; [done..| | |].
    + unfold d3, d2. rewrite Hc1. destruct (nodeInfoList d), (decide _); simpl; by rewrite ?Hc1.
    + intros Hp. unfold d3. by rewrite decide_True.
    + intros Hp. unfold d3, d2. rewrite decide_False by done.
      by destruct (nodeInfoList (add_maps d m l)).
  - intros n x. rewrite <- (same_maps_owns _ d3 n x Hsame). apply add_maps_owns.
Qed.

(** ** Removing a node *)

Lemma delta_removeNodeInfo_missing h d bs n :
  chain_ok h (d :: bs) → getNodeInfo (d :: bs) n = None →
  delta_removeNodeInfo d bs n = (d, Some ErrNodeNotFound).
Proof.
  intros (Hm & _ & _) Hnone. destruct (not_visible_cases h d bs n Hm Hnone) as (Ha & Hmod & Hcase).
  unfold delta_removeNodeInfo. rewrite Ha. simpl. rewrite Hmod.
  destruct Hcase as [[x Hx]|[Hx Hb]]; rewrite Hx; [done|]. by rewrite Hb.
Qed.

Lemma delta_removeNodeInfo_ok h d bs n l :
  chain_ok h (d :: bs) → getNodeInfo (d :: bs) n = Some l →
  ∃ d', delta_removeNodeInfo d bs n = (d', None) ∧ chain_ok h (d' :: bs) ∧
    (∀ m, getNodeInfo (d' :: bs) m = if decide (m = n) then None else getNodeInfo (d :: bs) m) ∧
    (∀ m x, owns_at d' m x → owns_at d m x).
Proof.
  intros (Hm & _ & Hbs) Hvis.
  set (d' := clearCaches (set_maps d (delete n (addedNodeInfoMap d)) (delete n (modifiedNodeInfoMap d))
    (if bool_decide (is_Some (getNodeInfo bs n)) then <[n := true]> (deletedNodeInfos d)
     else deletedNodeInfos d))).
  assert (deletedNodeInfos d !! n = None) as Hx.
  { destruct (deletedNodeInfos d !! n) eqn:Hx; [|done]. exfalso.
    rewrite (getNodeInfo_cons h) in Hvis by done.
    apply (ok_deleted _ _ _ Hm) in Hx as Hx'. destruct Hx' as (_ & _ & Ha & Hmod).
    unfold getNodeInfoLocal in Hvis. by rewrite Ha, Hmod, Hx in Hvis. }
  assert (delta_removeNodeInfo d bs n = (d', None)) as Heq.
  { unfold delta_removeNodeInfo, d'.
    rewrite (getNodeInfo_cons h) in Hvis by done. unfold getNodeInfoLocal in Hvis.
    rewrite Hx in Hvis.
    destruct (addedNodeInfoMap d !! n) as [a|] eqn:Ha; simpl.
    - destruct (ok_added _ _ _ Hm n a Ha) as [Hb Hmod]. rewrite Hmod. simpl. rewrite Hx, Hb.
      simpl. by rewrite (delete_id (modifiedNodeInfoMap d)).
    - destruct (modifiedNodeInfoMap d !! n) as [a'|] eqn:Hmod; simpl; rewrite Hx.
      + destruct (ok_modified _ _ _ Hm n a' Hmod) as [y Hy]. rewrite Hy. simpl.
        by rewrite (delete_id (addedNodeInfoMap d)).
      + rewrite Hvis. simpl. by rewrite !delete_id. }
  assert (∀ m x, owns_at d' m x → owns_at d m x ∧ m ≠ n) as Howns.
  { unfold owns_at, d'. simpl. intros m x. rewrite !lookup_delete. case_decide; naive_solver. }
  assert (maps_ok h d' bs) as Hm'.
  { destruct Hm as [H1 H2 H3 H4 H5]. split.
    - intros m x [Ho _]%Howns. auto.
    - unfold d'. simpl. intros m x. rewrite !lookup_delete. case_decide; [done|]. apply H2.
    - unfold d'. simpl. intros m x. rewrite lookup_delete. case_decide; [done|]. apply H3.
    - unfold d'. simpl. intros m x. rewrite !lookup_delete. case_bool_decide as Hb.
      + rewrite lookup_insert. case_decide; [subst; by intros [= <-]|]. apply H4.
      + intros Hd. case_decide; [congruence|]. by apply H4.
    - intros m x [Ho _]%Howns. eauto. }
  exists d'. split_and!; [done| | |].
  - split_and!; [done|apply cleared_caches_ok|done].
  - intros m. rewrite !(getNodeInfo_cons h) by done. unfold getNodeInfoLocal, d'. simpl.
    rewrite !lookup_delete. destruct (decide (m = n)) as [->|Hne].
    + rewrite !decide_True by done. case_bool_decide as Hb; [by rewrite lookup_insert_eq|].
      rewrite Hx. by apply eq_None_not_Some.
    + rewrite !decide_False by done. case_bool_decide; [|done]. by rewrite lookup_insert_ne.
  - intros m x Ho. by apply Howns.
Qed.

(** ** Writing to a node: copy on the first write *)

Lemma nodeInfoToModify_missing h d bs n :
  chain_ok h (d :: bs) → getNodeInfo (d :: bs) n = None →
  nodeInfoToModify h d bs n = (h, d, None).
Proof.
  intros (Hm & _ & _) Hnone. destruct (not_visible_cases h d bs n Hm Hnone) as (Ha & Hmod & Hcase).
  unfold nodeInfoToModify, getNodeInfoLocal. rewrite Ha, Hmod.
  destruct Hcase as [[x Hx]|[Hx Hb]]; rewrite Hx; [done|]. by rewrite Hb.
Qed.

Lemma fresh_not_owned h bs : chain_ok h bs → ¬ owned bs (fresh (dom h)).
Proof.
  intros Hc Ho. destruct (owned_in_heap h bs _ Hc Ho) as [ni Hni].
  apply (is_fresh (dom h)), elem_of_dom. eauto.
Qed.

(** After [nodeInfoToModify] the node is held by the top layer at a location
    no layer below uses, with the same contents. *)
Lemma nodeInfoToModify_ok h d bs n l ni :
  chain_ok h (d :: bs) → getNodeInfo (d :: bs) n = Some l → h !! l = Some ni →
  ∃ h' d' l', nodeInfoToModify h d bs n = (h', d', Some l') ∧
    h' !! l' = Some ni ∧ owns_at d' n l' ∧ chain_ok h' (d' :: bs) ∧
    (∀ m, getNodeInfo (d' :: bs) m = if decide (m = n) then Some l' else getNodeInfo (d :: bs) m) ∧
    (∀ x, owned (d :: bs) x → h' !! x = h !! x).
Proof.
  intros Hc Hvis Hl. pose proof Hc as (Hm & Hcaches & Hbs). pose proof Hvis as Hvis'.
  rewrite (getNodeInfo_cons h) in Hvis' by done.
  unfold nodeInfoToModify. destruct (getNodeInfoLocal d n) as [l0|] eqn:Hloc.
  { injection Hvis' as ->. exists h, d, l. split_and!; try done.
    - by apply getNodeInfoLocal_owns.
    - intros m. case_decide; [by subst|done]. }
  destruct (deletedNodeInfos d !! n) eqn:Hx; [done|]. rewrite Hvis', Hl.
  set (l' := fresh (dom h)). set (h' := <[l' := Snapshot ni]> h).
  set (d' := set_maps d (addedNodeInfoMap d) (<[n := l']> (modifiedNodeInfoMap d)) (deletedNodeInfos d)).
  pose proof (fresh_not_owned h (d :: bs) Hc) as Hfresh. fold l' in Hfresh.
  assert (∀ x, owned (d :: bs) x → h' !! x = h !! x) as Hframe.
  { intros x Hox. apply lookup_insert_ne. by intros ->. }
  apply getNodeInfoLocal_None in Hloc as [Ha Hmod].
  assert (∀ m x, owns_at d' m x → owns_at d m x ∨ m = n ∧ x = l') as Howns.
  { unfold owns_at, d'. simpl. intros m x. rewrite lookup_insert. case_decide; naive_solver. }
  assert (maps_ok h' d' bs) as Hm'.
  { destruct Hm as [H1 H2 H3 H4 H5]. split.
    - intros m x [Ho|[-> ->]]%Howns.
      + rewrite Hframe by (apply owned_cons; eauto). auto.
      + exists (Snapshot ni). unfold h'. rewrite lookup_insert_eq, NodeName_Snapshot.
        split; [done|]. destruct (chain_ok_named h bs n l Hbs Hvis') as (ni' & ? & ?). congruence.
    - unfold d'. simpl. intros m x Hmx. rewrite lookup_insert_ne by congruence. eauto.
    - unfold d'. simpl. intros m x. rewrite lookup_insert. case_decide; [subst; eauto|apply H3].
    - unfold d'. simpl. intros m x Hmx. rewrite lookup_insert_ne by congruence. eauto.
    - intros m x [Ho|[-> ->]]%Howns; [eauto|]. intros Ho. apply Hfresh, owned_cons. by right. }
  exists h', (clearCaches d'), l'. split_and!; try done.
  - unfold h'. by rewrite lookup_insert_eq, Snapshot_copy.
  - right. unfold d'. simpl. apply lookup_insert_eq.
  - split_and!; [by apply (same_maps_ok h' d')|apply cleared_caches_ok|].
    eapply chain_ok_frame; [|done]. intros x Ho. apply Hframe, owned_cons. by right.
  - intros m. rewrite <- (same_maps_get d' (clearCaches d')) by done.
    rewrite (getNodeInfo_cons h') by done.
    rewrite (getNodeInfo_cons h) by done. unfold getNodeInfoLocal, d'. simpl.
    rewrite lookup_insert. destruct (decide (m = n)) as [->|Hne].
    + by rewrite Ha, decide_True.
    + by rewrite decide_False.
Qed.

(** Writing to a location the top layer holds. *)
Lemma write_ok h d bs n l ni ni' :
  chain_ok h (d :: bs) → owns_at d n l → h !! l = Some ni → NodeName ni' = NodeName ni →
  chain_ok (<[l := ni']> h) (clearCaches d :: bs).
Proof.
  intros (Hm & _ & Hbs) Hown Hl Hname. split_and!; [|apply cleared_caches_ok|].
  - apply (same_maps_ok _ d); [done|]. destruct Hm as [H1 H2 H3 H4 H5]. split; try done.
    intros m x Ho. rewrite lookup_insert. case_decide; [subst|by apply H1].
    exists ni'. split; [done|]. destruct (H1 _ _ Ho) as (? & ? & ?). congruence.
  - eapply chain_ok_frame; [|done]. intros x Ho. apply lookup_insert_ne. intros ->.
    by apply (ok_owned _ _ _ Hm n x).
Qed.

(** ** Listing the nodes *)

Definition carry h d (bni : loc) : option loc :=
  if default false (deletedNodeInfos d !! name_at h bni) then None
  else Some (default bni (modifiedNodeInfoMap d !! name_at h bni)).

Lemma buildNodeInfoList_eq h d baseList :
  buildNodeInfoList h d baseList = omap (carry h d) baseList ++ (go_range (addedNodeInfoMap d)).*2.
Proof.
  unfold buildNodeInfoList. rewrite (foldl_snoc_fmap snd). f_equal. case_decide as Hd.
  - assert (∀ acc, foldl (λ nodeInfoList bni,
      if default false (deletedNodeInfos d !! name_at h bni) then nodeInfoList
      else match modifiedNodeInfoMap d !! name_at h bni with
           | Some mni => nodeInfoList ++ [mni] | None => nodeInfoList ++ [bni] end) acc baseList =
      acc ++ omap (carry h d) baseList) as Hl; [|apply Hl].
    induction baseList as [|x xs IH]; intros acc; csimpl; [by rewrite app_nil_r|].
    rewrite IH. unfold carry at 2. destruct (default false _); [done|].
    destruct (modifiedNodeInfoMap d !! name_at h x); simpl; by rewrite <- app_assoc.
  - assert (deletedNodeInfos d = ∅ ∧ modifiedNodeInfoMap d = ∅) as [Hx Hm]
      by (split; apply map_size_empty_iff; lia).
    induction baseList as [|x xs IH]; csimpl; [done|]. unfold carry at 1.
    rewrite Hx, Hm, !lookup_empty. simpl. by rewrite <- IH.
Qed.

Lemma carry_visible h d bs bni x :
  maps_ok h d bs → chain_ok h bs → visible bs bni → carry h d bni = Some x →
  ∃ n, getNodeInfo bs n = Some bni ∧ name_at h bni = n ∧ getNodeInfo (d :: bs) n = Some x ∧
    addedNodeInfoMap d !! n = None ∧
    (modifiedNodeInfoMap d !! n = Some x ∨ modifiedNodeInfoMap d !! n = None ∧ x = bni).
Proof.
  intros Hm Hbs [n Hn] Hx. pose proof (chain_ok_name_at h bs n bni Hbs Hn) as Hname.
  exists n. unfold carry in Hx. rewrite Hname in Hx.
  assert (addedNodeInfoMap d !! n = None) as Ha.
  { destruct (addedNodeInfoMap d !! n) eqn:Ha; [|done].
    apply (ok_added _ _ _ Hm) in Ha as [? _]. congruence. }
  simpl. unfold getNodeInfoLocal. rewrite Ha.
  destruct (default false (deletedNodeInfos d !! n)); [done|].
  destruct (modifiedNodeInfoMap d !! n) eqn:Hmod; simpl in Hx; naive_solver.
Qed.

Lemma buildNodeInfoList_ok h d bs baseList :
  maps_ok h d bs → chain_ok h bs → lists (visible bs) baseList →
  lists (visible (d :: bs)) (buildNodeInfoList h d baseList).
Proof.
  intros Hm Hbs [Hnd Hin]. rewrite buildNodeInfoList_eq. split.
  - apply NoDup_app. split_and!.
    + apply NoDup_omap; [|done]. intros x y z Hx%Hin Hy%Hin Hfx Hfy.
      destruct (carry_visible h d bs x z Hm Hbs Hx Hfx) as (n1 & E1 & _ & _ & _ & Hc1).
      destruct (carry_visible h d bs y z Hm Hbs Hy Hfy) as (n2 & E2 & _ & _ & _ & Hc2).
      assert (owned bs x) by (by apply visible_owned).
      assert (owned bs y) by (by apply visible_owned).
      destruct Hc1 as [Hc1|[_ ->]], Hc2 as [Hc2|[_ ->]]; [|exfalso..|done].
      * destruct (ok_named _ _ _ Hm n1 z) as (? & ? & ?); [by right|].
        destruct (ok_named _ _ _ Hm n2 z) as (? & ? & ?); [by right|]. congruence.
      * by eapply (ok_owned _ _ _ Hm n1 y); [right|].
      * by eapply (ok_owned _ _ _ Hm n2 x); [right|].
    + intros z (x & Hx%Hin & Hfx)%list_elem_of_omap ([n z'] & -> & Hz)%list_elem_of_fmap.
      apply elem_of_go_range in Hz. simpl in *.
      destruct (carry_visible h d bs x z' Hm Hbs Hx Hfx) as (n1 & E1 & _ & _ & Ha & [Hc|[_ ->]]).
      * destruct (ok_named _ _ _ Hm n1 z') as (? & ? & ?); [by right|].
        destruct (ok_named _ _ _ Hm n z') as (? & ? & ?); [by left|]. congruence.
      * by eapply (ok_owned _ _ _ Hm n x); [left|apply visible_owned].
    + apply NoDup_fmap_2_strong; [|apply (NoDup_fmap_1 fst), NoDup_go_range_fst].
      intros [n1 z] [n2 z'] H1%elem_of_go_range H2%elem_of_go_range. simpl. intros <-. f_equal.
      destruct (ok_named _ _ _ Hm n1 z) as (? & ? & ?); [by left|].
      destruct (ok_named _ _ _ Hm n2 z) as (? & ? & ?); [by left|]. congruence.
  - intros x. rewrite elem_of_app, list_elem_of_omap, list_elem_of_fmap. split.
    + intros [(y & Hy%Hin & Hfy)|([n z] & -> & Hz%elem_of_go_range)].
      * destruct (carry_visible h d bs y x Hm Hbs Hy Hfy) as (n & _ & _ & ? & _). by exists n.
      * exists n. simpl. unfold getNodeInfoLocal. simpl in Hz. by rewrite Hz.
    + intros [n Hn]. simpl in Hn. unfold getNodeInfoLocal in Hn.
      destruct (addedNodeInfoMap d !! n) as [a|] eqn:Ha.
      { right. exists (n, a). injection Hn as ->. split; [done|]. by apply elem_of_go_range. }
      left. destruct (modifiedNodeInfoMap d !! n) as [m|] eqn:Hmod.
      * injection Hn as ->. destruct (ok_modified _ _ _ Hm n x Hmod) as [y Hy].
        exists y. split; [apply Hin; by exists n|]. unfold carry.
        rewrite (chain_ok_name_at h bs n y) by done. rewrite Hmod.
        destruct (deletedNodeInfos d !! n) eqn:Hx; [|done].
        apply (ok_deleted _ _ _ Hm) in Hx as (_ & _ & _ & ?). congruence.
      * destruct (default false (deletedNodeInfos d !! n)) eqn:Hx; [done|].
        exists x. split; [apply Hin; by exists n|]. unfold carry.
        by rewrite (chain_ok_name_at h bs n x), Hx, Hmod.
Qed.

Abbreviation same_chain := (Forall2 same_maps).

Lemma same_chain_refl bs : same_chain bs bs.
Proof. induction bs; constructor; [by split_and!|done]. Qed.

Lemma same_chain_get bs bs' n : same_chain bs bs' → getNodeInfo bs n = getNodeInfo bs' n.
Proof.
  induction 1 as [|d d' bs bs' Hd _ IH]; [done|]. rewrite <- (same_maps_get d d') by done.
  simpl. by rewrite IH.
Qed.

Lemma same_chain_owned bs bs' l : same_chain bs bs' → owned bs l ↔ owned bs' l.
Proof.
  induction 1 as [|d d' bs bs' Hd _ IH]; [done|]. rewrite !owned_cons, IH.
  by setoid_rewrite (same_maps_owns d d' _ _ Hd).
Qed.

(** A layer only depends on the maps of the layers below. *)
Lemma layer_same_base h d bs bs' :
  same_chain bs bs' → maps_ok h d bs → caches_ok h d bs → maps_ok h d bs' ∧ caches_ok h d bs'.
Proof.
  intros Hs [H1 H2 H3 H4 H5] [C1 C2 C3 C4].
  assert (∀ n, getNodeInfo bs n = getNodeInfo bs' n) as Hg by (intros; by apply same_chain_get).
  assert (∀ l, visible (d :: bs) l ↔ visible (d :: bs') l) as Hv
    by (intros; apply visible_ext; intros n; simpl; by rewrite Hg).
  split; split; intros.
  - eauto.
  - rewrite <- Hg. eauto.
  - rewrite <- Hg. eauto.
  - rewrite <- Hg. eauto.
  - rewrite <- (same_chain_owned bs) by done. eauto.
  - eapply lists_iff; [|eauto]. done.
  - eapply lists_iff; [|eauto]. intros l. simpl. by rewrite Hv.
  - eapply lists_iff; [|eauto]. intros l. simpl. by rewrite Hv.
  - destruct (C4 m) as (ls & Hls & ?); [done|]. exists ls. split; [|done].
    by eapply lists_iff.
Qed.

Lemma getNodeInfoList_ok h bs :
  chain_ok h bs →
  let '(bs', ls) := getNodeInfoList h bs in
  same_chain bs bs' ∧ chain_ok h bs' ∧ lists (visible bs) ls.
Proof.
  induction bs as [|d bs IH]; simpl.
  { intros _. split_and!; [constructor|done|]. split; [constructor|]. intros l.
    split; [by intros ?%elem_of_nil|by intros [n ?]]. }
  intros (Hm & Hc & Hbs). destruct (nodeInfoList d) as [ls|] eqn:Hls.
  { split_and!; [apply same_chain_refl|done..|]. by apply (ok_list _ _ _ Hc). }
  specialize (IH Hbs). destruct (getNodeInfoList h bs) as [bs' bl].
  destruct IH as (Hs & Hbs' & Hbl).
  pose proof (buildNodeInfoList_ok h d bs bl Hm Hbs Hbl) as Hbuilt.
  destruct (layer_same_base h d bs bs' Hs Hm Hc) as [Hm' [C1 C2 C3 C4]].
  assert (∀ l, visible (d :: bs) l ↔ visible (d :: bs') l) as Hv
    by (intros; apply visible_ext; intros n; simpl; by rewrite (same_chain_get bs bs')).
  split; [constructor; [by split_and!|done]|]. split; [|done].
  split_and!; [by apply (same_maps_ok h d)| |done].
  split; [|done..]. intros ls [= <-]. by eapply lists_iff.
Qed.

Lemma lists_filter (P Q : loc → Prop) `{∀ l, Decision (Q l)} ls :
  lists P ls → lists (λ l, P l ∧ Q l) (filter Q ls).
Proof.
  intros [Hnd Hin]. split; [by apply NoDup_filter|]. intros l.
  rewrite list_elem_of_filter, Hin. tauto.
Qed.

(** The two listers with a predicate: the same loop over a cached or freshly
    built list. *)
Lemma affinity_loop (f : loc → list PodInfo) (ls : list loc) :
  foldl (λ lst node, if decide (0 < length (f node)) then lst ++ [node] else lst) [] ls =
  filter (λ l, f l ≠ []) ls.
Proof.
  assert (∀ acc, foldl (λ lst node, if decide (0 < length (f node)) then lst ++ [node] else lst)
    acc ls = acc ++ filter (λ l, f l ≠ []) ls) as Hl; [|apply Hl].
  induction ls as [|l ls IH]; intros acc; csimpl; [by rewrite app_nil_r|].
  rewrite IH, filter_cons. destruct (f l); simpl; [done|]. by rewrite <- app_assoc.
Qed.

Lemma delta_HavePodsWithAffinityList_ok h d bs :
  chain_ok h (d :: bs) →
  let '(bs', ls) := delta_HavePodsWithAffinityList h d bs in
  same_chain (d :: bs) bs' ∧ chain_ok h bs' ∧
  lists (λ l, visible (d :: bs) l ∧ affinity_at h l ≠ []) ls.
Proof.
  intros Hc. pose proof Hc as (Hm & Hca & Hbs). unfold delta_HavePodsWithAffinityList.
  destruct (havePodsWithAffinity d) as [ls|] eqn:Hls.
  { split_and!; [apply same_chain_refl|done..|]. by apply (ok_affinity _ _ _ Hca). }
  pose proof (getNodeInfoList_ok h (d :: bs) Hc) as Hg.
  destruct (getNodeInfoList h (d :: bs)) as [bs1 ls]. destruct Hg as (Hs & Hc1 & Hl).
  inversion Hs as [|? d1 ? bs1' Hd Hbs1]; subst. destruct Hc1 as (Hm1 & [C1 C2 C3 C4] & Hc1).
  rewrite affinity_loop.
  pose proof (lists_filter _ (λ l, affinity_at h l ≠ []) ls Hl) as Hf.
  split; [constructor; [by destruct Hd as (? & ? & ?)|done]|]. split; [|done].
  split_and!; [by apply (same_maps_ok h d1)| |done].
  split; [done| |done..]. intros ls' [= <-]. eapply lists_iff; [|done]. intros l. simpl.
    rewrite (visible_ext (d :: bs) (d1 :: bs1')) by (intros n; by apply same_chain_get). done.
Qed.

Lemma delta_HavePodsWithRequiredAntiAffinityList_ok h d bs :
  chain_ok h (d :: bs) →
  let '(bs', ls) := delta_HavePodsWithRequiredAntiAffinityList h d bs in
  same_chain (d :: bs) bs' ∧ chain_ok h bs' ∧
  lists (λ l, visible (d :: bs) l ∧ anti_affinity_at h l ≠ []) ls.
Proof.
  intros Hc. pose proof Hc as (Hm & Hca & Hbs). unfold delta_HavePodsWithRequiredAntiAffinityList.
  destruct (havePodsWithRequiredAntiAffinity d) as [ls|] eqn:Hls.
  { split_and!; [apply same_chain_refl|done..|]. by apply (ok_anti_affinity _ _ _ Hca). }
  pose proof (getNodeInfoList_ok h (d :: bs) Hc) as Hg.
  destruct (getNodeInfoList h (d :: bs)) as [bs1 ls]. destruct Hg as (Hs & Hc1 & Hl).
  inversion Hs as [|? d1 ? bs1' Hd Hbs1]; subst. destruct Hc1 as (Hm1 & [C1 C2 C3 C4] & Hc1).
  rewrite affinity_loop.
  pose proof (lists_filter _ (λ l, anti_affinity_at h l ≠ []) ls Hl) as Hf.
  split; [constructor; [by destruct Hd as (? & ? & ?)|done]|]. split; [|done].
  split_and!; [by apply (same_maps_ok h d1)| |done].
  split; [done..| |done]. intros ls' [= <-]. eapply lists_iff; [|done]. intros l. simpl.
    rewrite (visible_ext (d :: bs) (d1 :: bs1')) by (intros n; by apply same_chain_get). done.
Qed.

(** ** Claims in use *)

Lemma lookup_add_counts (c m : gmap string Z) key :
  default 0%Z (foldl (λ m kv, <[kv.1 := (default 0 (m !! kv.1) + kv.2)%Z]> m) m (go_range c) !! key) =
  (default 0 (m !! key) + default 0 (c !! key))%Z.
Proof.
  assert (∀ l : list (string * Z), NoDup l.*1 → ∀ m : gmap string Z,
    default 0%Z (foldl (λ m kv, <[kv.1 := (default 0 (m !! kv.1) + kv.2)%Z]> m) m l !! key) =
    (default 0 (m !! key) + default 0 ((list_to_map l : gmap string Z) !! key))%Z) as Hl.
  { clear c m. induction l as [|[k v] l IH]; csimpl; [intros; rewrite lookup_empty; simpl; lia|].
    rewrite NoDup_cons. intros [Hk Hnd] m. rewrite IH by done.
    destruct (decide (k = key)) as [->|Hne].
    - rewrite !lookup_insert_eq, not_elem_of_list_to_map_1 by done. simpl. lia.
    - by rewrite !lookup_insert_ne. }
  rewrite Hl by apply NoDup_go_range_fst. by rewrite list_to_map_go_range.
Qed.

Lemma count_claims h key ls :
  default 0%Z ((foldl (λ m v, foldl (λ m kv, <[kv.1 := (default 0 (m !! kv.1) + kv.2)%Z]> m)
                                m (go_range (pvc_counts_at h v))) ∅ ls : gmap string Z) !! key) =
  pvc_sum h key ls.
Proof.
  induction ls as [|l ls IH] using rev_ind; [done|].
  by rewrite foldl_snoc, pvc_sum_snoc, lookup_add_counts, IH.
Qed.

Lemma pvc_count_nonneg h l key : (0 ≤ default 0 (pvc_counts_at h l !! key))%Z.
Proof.
  unfold pvc_counts_at. destruct (h !! l); [apply sched_pvc_ref_counts_nonneg|].
  by rewrite lookup_empty.
Qed.

Lemma pvc_sum_pos h key ls :
  (0 < pvc_sum h key ls)%Z ↔ ∃ l, l ∈ ls ∧ (0 < default 0 (pvc_counts_at h l !! key))%Z.
Proof.
  assert (∀ ls, (0 ≤ pvc_sum h key ls)%Z) as Hnn.
  { intros ls'. induction ls' as [|x ls' IH]; simpl; [done|].
    pose proof (pvc_count_nonneg h x key). lia. }
  induction ls as [|l ls IH]; simpl.
  - split; [lia|]. by intros (l & ?%elem_of_nil & _).
  - pose proof (pvc_count_nonneg h l key) as Hl. pose proof (Hnn ls) as Hls. split.
    + intros Hpos. destruct (decide (0 < default 0 (pvc_counts_at h l !! key))%Z) as [Hp|Hp].
      * exists l. split; [left|done].
      * destruct (proj1 IH) as (x & ? & ?); [lia|]. exists x. split; [by right|done].
    + intros (x & [->|Hx]%elem_of_cons & Hp); [lia|].
      assert (0 < pvc_sum h key ls)%Z by (apply IH; eauto). lia.
Qed.

Lemma delta_isPVCUsedByPods_ok h d bs key :
  chain_ok h (d :: bs) →
  let '(bs', r) := delta_isPVCUsedByPods h (d :: bs) key in
  same_chain (d :: bs) bs' ∧ chain_ok h bs' ∧
  (r = true ↔ ∃ l, visible (d :: bs) l ∧ (0 < default 0 (pvc_counts_at h l !! key))%Z).
Proof.
  intros Hc. pose proof Hc as (Hm & Hca & Hbs). unfold delta_isPVCUsedByPods.
  destruct (pvcNamespaceMap d) as [mp|] eqn:Hmp.
  { destruct (ok_pvc _ _ _ Hca mp Hmp) as (ls & [_ Hin] & Hsum).
    split_and!; [apply same_chain_refl|done..|].
    rewrite bool_decide_eq_true, Hsum, pvc_sum_pos. by setoid_rewrite Hin. }
  pose proof (getNodeInfoList_ok h (d :: bs) Hc) as Hg.
  destruct (getNodeInfoList h (d :: bs)) as [bs1 ls]. destruct Hg as (Hs & Hc1 & Hl).
  inversion Hs as [|? d1 ? bs1' Hd Hbs1]; subst. destruct Hc1 as (Hm1 & [C1 C2 C3 C4] & Hc1).
  split; [constructor; [by destruct Hd as (? & ? & ?)|done]|].
  split; [split_and!; [by apply (same_maps_ok h d1)| |done]|].
  - split; [done..|]. intros mp' [= <-]. exists ls. split; [|intros; apply count_claims].
    eapply lists_iff; [|done]. intros l.
    rewrite (visible_ext (d :: bs) (d1 :: bs1')) by (intros n; by apply same_chain_get). done.
  - destruct Hl as [_ Hin]. rewrite bool_decide_eq_true, count_claims, pvc_sum_pos.
    by setoid_rewrite Hin.
Qed.

(** ** Committing a delta into the layer below *)

Lemma commit_deleted h bs (l : list (string * bool)) b :
  chain_ok h (b :: bs) → NoDup l.*1 → (∀ n, n ∈ l.*1 → is_Some (getNodeInfo (b :: bs) n)) →
  ∃ b', fold_err (λ b kv, delta_removeNodeInfo b bs kv.1) l b = (b', None) ∧
    chain_ok h (b' :: bs) ∧
    (∀ n, getNodeInfo (b' :: bs) n = if decide (n ∈ l.*1) then None else getNodeInfo (b :: bs) n) ∧
    (∀ n x, owns_at b' n x → owns_at b n x).
Proof.
  revert b. induction l as [|[k v] l IH]; intros b Hc Hnd Hvis.
  { exists b. split_and!; [done..| |done]. intros n.
    by rewrite decide_False by apply not_elem_of_nil. }
  apply NoDup_cons in Hnd as [Hk Hnd]. destruct (Hvis k) as [x Hx]; [by left|].
  destruct (delta_removeNodeInfo_ok h b bs k x Hc Hx) as (b1 & Hrem & Hc1 & Hget & Hown).
  cbn [fold_err fst]. rewrite Hrem. destruct (IH b1 Hc1 Hnd) as (b2 & Hf & Hc2 & Hget2 & Hown2).
  { intros n Hn. rewrite Hget, decide_False by (by intros ->). apply Hvis. by right. }
  exists b2. split_and!; [done..| |auto].
  intros n. rewrite Hget2, Hget. destruct (decide (n = k)) as [->|Hne].
  - rewrite (decide_True (P := k ∈ ((k, v) :: l).*1)) by (csimpl; left).
    by destruct (decide (k ∈ l.*1)).
  - apply decide_ext. csimpl. rewrite elem_of_cons. tauto.
Qed.

(** One round of the loop over the modified nodes replaces the node; one
    round of the loop over the added nodes adds it. *)
Lemma commit_stores h bs (f : layer → string * loc → layer * option store_error)
    (pre : layer → string → Prop) (l : list (string * loc)) b :
  (∀ b k x ni, chain_ok h (b :: bs) → pre b k → h !! x = Some ni → NodeName ni = k →
     ¬ owned (b :: bs) x →
     ∃ b', f b (k, x) = (b', None) ∧ chain_ok h (b' :: bs) ∧
       (∀ n, getNodeInfo (b' :: bs) n = if decide (n = k) then Some x else getNodeInfo (b :: bs) n) ∧
       (∀ n y, owns_at b' n y → owns_at b n y ∨ y = x)) →
  (∀ b b' k, getNodeInfo (b :: bs) k = getNodeInfo (b' :: bs) k → pre b k → pre b' k) →
  chain_ok h (b :: bs) → NoDup l.*1 →
  (∀ k x, (k, x) ∈ l → pre b k ∧ ¬ owned (b :: bs) x ∧ ∃ ni, h !! x = Some ni ∧ NodeName ni = k) →
  ∃ b', fold_err f l b = (b', None) ∧ chain_ok h (b' :: bs) ∧
    (∀ n, getNodeInfo (b' :: bs) n =
      match (list_to_map l : gmap string loc) !! n with
      | Some x => Some x | None => getNodeInfo (b :: bs) n end) ∧
    (∀ n y, owns_at b' n y → owns_at b n y ∨ ∃ k, (k, y) ∈ l).
Proof.
  intros Hstep Hpre. revert b. induction l as [|[k x] l IH]; intros b Hc Hnd Hl.
  { exists b. split_and!; [done..| |auto]. intros n. simpl. by rewrite lookup_empty. }
  apply NoDup_cons in Hnd as [Hk Hnd].
  destruct (Hl k x) as (Hp & Hox & ni & Hx & Hname); [by left|].
  destruct (Hstep b k x ni Hc Hp Hx Hname Hox) as (b1 & Hf & Hc1 & Hget & Hown).
  destruct (IH b1 Hc1 Hnd) as (b2 & Hf2 & Hc2 & Hget2 & Hown2).
  { intros k' x' Hin. destruct (Hl k' x') as (Hp' & Hox' & ni' & Hx' & Hname'); [by right|].
    assert (k' ≠ k) as Hne.
    { intros ->. apply Hk, list_elem_of_fmap. by exists (k, x'). }
    split_and!; [| |eauto].
    - eapply Hpre; [|done]. by rewrite Hget, decide_False.
    - intros [[n [Ho| ->]%Hown]|Ho]%owned_cons; [| |]; try (apply Hox', owned_cons; eauto; fail).
      apply Hne. congruence. }
  exists b2. cbn [fold_err]. rewrite Hf. split_and!; [done..| |].
  - intros n. rewrite Hget2, Hget, list_to_map_cons. destruct (decide (n = k)) as [->|Hne].
    + rewrite lookup_insert_eq, not_elem_of_list_to_map_1 by done. done.
    + by rewrite lookup_insert_ne.
  - intros n y Ho. destruct (Hown2 n y Ho) as [[Ho'| ->]%Hown|[k' Hk']]; [by left|right|right].
    + exists k. left.
    + exists k'. by right.
Qed.

Lemma delta_commit_into_ok h d b bs :
  chain_ok h (d :: b :: bs) →
  ∃ b', delta_commit_into h d b bs = (b', None) ∧ chain_ok h (b' :: bs) ∧
    (∀ n, getNodeInfo (b' :: bs) n = getNodeInfo (d :: b :: bs) n).
Proof.
  intros (Hm & _ & Hc). unfold delta_commit_into.
  destruct (commit_deleted h bs (go_range (deletedNodeInfos d)) b Hc)
    as (b1 & -> & Hc1 & Hget1 & Hown1).
  { apply NoDup_go_range_fst. }
  { intros n ([n' v] & -> & Hv%elem_of_go_range)%list_elem_of_fmap. simpl in *.
    by apply (ok_deleted _ _ _ Hm n') in Hv as (_ & ? & _). }
  assert (∀ n, n ∈ (go_range (deletedNodeInfos d)).*1 ↔ is_Some (deletedNodeInfos d !! n)) as Hdel.
  { intros n. rewrite list_elem_of_fmap. split.
    - intros ([n' v] & -> & Hv%elem_of_go_range). eauto.
    - intros [v Hv]. exists (n, v). split; [done|]. by apply elem_of_go_range. }
  assert (∀ x, owned (b1 :: bs) x → owned (b :: bs) x) as Hsub1.
  { intros x [[n Ho]|Ho]%owned_cons; apply owned_cons; eauto. }
  destruct (commit_stores h bs (λ b kv,
      match delta_removeNodeInfo b bs (name_at h kv.2) with
      | (b', Some e) => (b', Some e) | (b', None) => delta_addNodeInfo h b' bs kv.2 end)
      (λ b k, is_Some (getNodeInfo (b :: bs) k)) (go_range (modifiedNodeInfoMap d)) b1)
    as (b2 & -> & Hc2 & Hget2 & Hown2).
  { intros b0 k x ni Hc0 [y Hy] Hx Hname Hox.
    assert (name_at h x = k) as Hk by (unfold name_at; by rewrite Hx).
    destruct (delta_removeNodeInfo_ok h b0 bs k y Hc0 Hy) as (b' & Hr & Hc' & Hg' & Ho').
    destruct (delta_addNodeInfo_ok h b' bs x ni Hc' Hx) as (b'' & Ha & Hc'' & Hg'' & Ho'').
    { intros Ho. apply Hox. apply owned_cons in Ho as [[n Hn]|Ho]; apply owned_cons; eauto. }
    { by rewrite Hg', Hname, decide_True. }
    exists b''. cbn [snd]. rewrite Hk, Hr. split_and!; [done..| |].
    - intros n. rewrite Hg'', Hg', Hname. by destruct (decide (n = k)).
    - intros n z [Ho|[_ ->]]%Ho''; auto. }
  { by intros b0 b' k ->. }
  { done. }
  { apply NoDup_go_range_fst. }
  { intros k x Hkx%elem_of_go_range. split_and!.
    - rewrite Hget1. destruct (decide (k ∈ _)) as [Hin|_]; [|by eapply (ok_modified _ _ _ Hm)].
      apply Hdel in Hin as [v Hv]. apply (ok_deleted _ _ _ Hm) in Hv as (_ & _ & _ & ?). congruence.
    - intros Ho%Hsub1. by eapply (ok_owned _ _ _ Hm k x); [right|].
    - apply (ok_named _ _ _ Hm). by right. }
  rewrite list_to_map_go_range in Hget2.
  destruct (commit_stores h bs (λ b kv, delta_addNodeInfo h b bs kv.2)
      (λ b k, getNodeInfo (b :: bs) k = None) (go_range (addedNodeInfoMap d)) b2)
    as (b3 & -> & Hc3 & Hget3 & _).
  { intros b0 k x ni Hc0 Hy Hx Hname Hox.
    destruct (delta_addNodeInfo_ok h b0 bs x ni Hc0 Hx Hox) as (b' & Ha & Hc' & Hg' & Ho').
    { by rewrite Hname. }
    exists b'. rewrite Hname in Hg'. split_and!; [done..|].
    intros n z [Ho|[_ ->]]%Ho'; auto. }
  { by intros b0 b' k ->. }
  { done. }
  { apply NoDup_go_range_fst. }
  { intros k x Hkx%elem_of_go_range.
    destruct (ok_added _ _ _ Hm k x Hkx) as [Hkb Hkm]. split_and!.
    - rewrite Hget2, Hkm, Hget1, Hkb. by destruct (decide _).
    - intros [[n [Ho|[k' Hk'%elem_of_go_range]]%Hown2]|Ho]%owned_cons.
      + eapply (ok_owned _ _ _ Hm k x); [by left|]. apply Hsub1, owned_cons. eauto.
      + destruct (ok_named _ _ _ Hm k x) as (? & ? & ?); [by left|].
        destruct (ok_named _ _ _ Hm k' x) as (? & ? & ?); [by right|]. congruence.
      + eapply (ok_owned _ _ _ Hm k x); [by left|]. apply owned_cons. by right.
    - apply (ok_named _ _ _ Hm). by left. }
  rewrite list_to_map_go_range in Hget3.
  exists b3. split_and!; [done..|]. intros n.
  rewrite Hget3, Hget2, Hget1, (getNodeInfo_cons h d) by done. unfold getNodeInfoLocal.
  destruct (addedNodeInfoMap d !! n); [done|]. destruct (modifiedNodeInfoMap d !! n); [done|].
  destruct (decide _) as [[v ->]%Hdel|Hn]; [done|].
  destruct (deletedNodeInfos d !! n) eqn:Hv; [|done]. destruct Hn. apply Hdel. eauto.
Qed.

(** ** The abstraction *)

Fixpoint view bs : gmap string loc :=
  match bs with
  | [] => ∅
  | d :: bs' =>
      addedNodeInfoMap d ∪ (modifiedNodeInfoMap d ∪
        filter (λ kv, default false (deletedNodeInfos d !! kv.1) = false) (view bs'))
  end.

Lemma lookup_view bs n : view bs !! n = getNodeInfo bs n.
Proof.
  induction bs as [|d bs IH]; [done|]. simpl. unfold getNodeInfoLocal.
  rewrite !lookup_union, map_lookup_filter, IH.
  destruct (addedNodeInfoMap d !! n) eqn:Ha, (modifiedNodeInfoMap d !! n) eqn:Hm,
    (getNodeInfo bs n), (default false (deletedNodeInfos d !! n)) eqn:Hx; simpl; rewrite ?Hx; done.
Qed.

Definition nodes_of h bs : gmap string NI := omap (λ l, h !! l) (view bs).

Lemma lookup_nodes_of h bs n : nodes_of h bs !! n = getNodeInfo bs n ≫= λ l, h !! l.
Proof. unfold nodes_of. by rewrite lookup_omap, lookup_view. Qed.

Fixpoint saved_of h bs : list (gmap string NI) :=
  match bs with
  | [] => []
  | d :: bs' => nodes_of h (d :: bs') :: saved_of h bs'
  end.

Definition delta_abs (s : DeltaSnapshotStore S Slice CSI) : spec_state S Slice CSI :=
  mkSpec (nodes_of (heap s) (data s :: baseData s)) (saved_of (heap s) (baseData s)).

Definition delta_inv (s : DeltaSnapshotStore S Slice CSI) : Prop :=
  chain_ok (heap s) (data s :: baseData s).

Lemma nodes_of_frame h h' bs :
  (∀ l, owned bs l → h' !! l = h !! l) → nodes_of h' bs = nodes_of h bs.
Proof.
  intros Hh. apply map_eq. intros n. rewrite !lookup_nodes_of.
  destruct (getNodeInfo bs n) as [l|] eqn:Hl; [|done]. simpl. apply Hh, visible_owned. by exists n.
Qed.

Lemma saved_of_frame h h' bs :
  (∀ l, owned bs l → h' !! l = h !! l) → saved_of h' bs = saved_of h bs.
Proof.
  induction bs as [|d bs IH]; intros Hh; [done|]. cbn [saved_of].
  rewrite (nodes_of_frame h) by done. f_equal. apply IH.
  intros l Hl. apply Hh, owned_cons. by right.
Qed.

Lemma nodes_of_same h bs bs' : same_chain bs bs' → nodes_of h bs = nodes_of h bs'.
Proof.
  intros Hs. apply map_eq. intros n. by rewrite !lookup_nodes_of, (same_chain_get bs bs').
Qed.

Lemma saved_of_same h bs bs' : same_chain bs bs' → saved_of h bs = saved_of h bs'.
Proof.
  induction 1 as [|d d' bs bs' Hd Hbs IH]; [done|]. cbn [saved_of]. rewrite IH. f_equal.
  apply nodes_of_same. by constructor.
Qed.

Lemma nodes_of_named h bs n ni : chain_ok h bs → nodes_of h bs !! n = Some ni → NodeName ni = n.
Proof.
  intros Hc. rewrite lookup_nodes_of. destruct (getNodeInfo bs n) as [l|] eqn:Hl; [|done]. simpl.
  destruct (chain_ok_named h bs n l Hc Hl) as (ni' & ? & ?). intros. congruence.
Qed.

Lemma nodes_of_Some h bs n l ni :
  chain_ok h bs → getNodeInfo bs n = Some l → h !! l = Some ni → nodes_of h bs !! n = Some ni.
Proof. intros _ Hl Hni. by rewrite lookup_nodes_of, Hl. Qed.

Lemma nodes_of_cases h bs n :
  chain_ok h bs →
  (getNodeInfo bs n = None ∧ nodes_of h bs !! n = None) ∨
  (∃ l ni, getNodeInfo bs n = Some l ∧ h !! l = Some ni ∧ nodes_of h bs !! n = Some ni).
Proof.
  intros Hc. rewrite lookup_nodes_of. destruct (getNodeInfo bs n) as [l|] eqn:Hl; [|by left].
  destruct (chain_ok_named h bs n l Hc Hl) as (ni & Hni & _). right. by exists l, ni.
Qed.

Lemma deref_lists h bs ls (Q : NI → Prop) `{∀ ni, Decision (Q ni)} :
  chain_ok h bs → lists (λ l, visible bs l ∧ ∀ ni, h !! l = Some ni → Q ni) ls →
  filter Q (map_to_list (nodes_of h bs)).*2 ≡ₚ deref h ls.
Proof.
  intros Hc [Hnd Hin]. apply NoDup_Permutation.
  - apply NoDup_filter, NoDup_fmap_2_strong; [|apply NoDup_map_to_list].
    intros [n1 x] [n2 y] Hx%elem_of_map_to_list Hy%elem_of_map_to_list. simpl. intros <-. f_equal.
    by rewrite <- (nodes_of_named h bs n1 x), <- (nodes_of_named h bs n2 x).
  - apply NoDup_omap; [|done]. intros x y ni [[n1 Hx] _]%Hin [[n2 Hy] _]%Hin Hnx Hny.
    destruct (chain_ok_named h bs n1 x Hc Hx) as (? & ? & ?).
    destruct (chain_ok_named h bs n2 y Hc Hy) as (? & ? & ?). congruence.
  - intros ni. unfold deref. rewrite list_elem_of_filter, list_elem_of_fmap, list_elem_of_omap. split.
    + intros (HQ & [n ni'] & -> & Hn%elem_of_map_to_list). simpl in *.
      rewrite lookup_nodes_of in Hn. destruct (getNodeInfo bs n) as [l|] eqn:Hl; [|done].
      exists l. split; [|done]. apply Hin. split; [by exists n|]. simpl in Hn. naive_solver.
    + intros (l & [[n Hn] HQ]%Hin & Hl). split; [auto|]. exists (n, ni). split; [done|].
      apply elem_of_map_to_list. by rewrite lookup_nodes_of, Hn.
Qed.

(** ** Every operation delta_simulates its specification *)

Definition delta_simulates (o : store_op S Slice CSI) (s : DeltaSnapshotStore S Slice CSI) : Prop :=
  delta_inv (delta_exec o s).1 ∧
  (spec_exec o (delta_abs s)).1 = delta_abs (delta_exec o s).1 ∧
  out_equiv (spec_exec o (delta_abs s)).2 (delta_exec o s).2.

Lemma empty_layer_ok h bs : chain_ok h bs → chain_ok h (newInternalDeltaSnapshotData :: bs).
Proof.
  intros Hbs. split_and!; [|by split|done].
  split; unfold owns_at; simpl; intros n x; rewrite ?lookup_empty; try done; by intros [].
Qed.

Lemma nodes_of_empty_layer h bs : nodes_of h (newInternalDeltaSnapshotData :: bs) = nodes_of h bs.
Proof.
  apply map_eq. intros n. rewrite !lookup_nodes_of. simpl. unfold getNodeInfoLocal. simpl.
  by rewrite !lookup_empty.
Qed.

Lemma delta_sim_StoreNodeInfo ni s : delta_inv s → delta_simulates (StoreNodeInfo ni) s.
Proof.
  destruct s as [h d bs]. unfold delta_inv, delta_simulates. simpl. intros Hc.
  unfold delta_StoreNodeInfo. cbn [heap data baseData].
  set (l := fresh (dom h)). set (h' := <[l := ni]> h).
  pose proof (fresh_not_owned h (d :: bs) Hc) as Hfresh. fold l in Hfresh.
  assert (∀ x, owned (d :: bs) x → h' !! x = h !! x) as Hframe
    by (intros x Ho; apply lookup_insert_ne; by intros ->).
  assert (h' !! l = Some ni) as Hl by apply lookup_insert_eq.
  assert (chain_ok h' (d :: bs)) as Hc' by (by eapply chain_ok_frame).
  assert (name_at h' l = NodeName ni) as Hname by (unfold name_at; by rewrite Hl).
  pose proof (nodes_of_frame h h' (d :: bs) Hframe) as Hnodes.
  assert (saved_of h' bs = saved_of h bs) as Hsaved
    by (apply saved_of_frame; intros x Ho; apply Hframe, owned_cons; by right).
  unfold delta_abs. cbn [heap data baseData]. rewrite <- Hnodes, <- Hsaved.
  destruct (nodes_of_cases h' (d :: bs) (NodeName ni) Hc') as [[Hg Hn]|(x & xi & Hg & _ & Hn)];
    cbn [cur]; rewrite Hn.
  - destruct (delta_addNodeInfo_ok h' d bs l ni Hc' Hl Hfresh Hg) as (d' & -> & Hcd & Hget & _).
    split_and!; [done| |done]. unfold set_cur. cbn [fst saved heap data baseData]. f_equal.
    apply map_eq. intros n. rewrite lookup_insert, !lookup_nodes_of, Hget.
    destruct (decide (NodeName ni = n)) as [<-|Hne]; [by rewrite decide_True|by rewrite decide_False].
  - rewrite (delta_addNodeInfo_exists h' d bs l x) by (by rewrite Hname). by rewrite Hname.
Qed.

Lemma delta_sim_RemoveNodeInfo n s : delta_inv s → delta_simulates (RemoveNodeInfo n) s.
Proof.
  destruct s as [h d bs]. unfold delta_inv, delta_simulates. simpl. intros Hc.
  unfold delta_RemoveNodeInfo, delta_abs. cbn [heap data baseData cur].
  destruct (nodes_of_cases h (d :: bs) n Hc) as [[Hg Hn]|(x & xi & Hg & _ & Hn)]; rewrite Hn.
  - by rewrite (delta_removeNodeInfo_missing h).
  - destruct (delta_removeNodeInfo_ok h d bs n x Hc Hg) as (d' & -> & Hcd & Hget & _).
    split_and!; [done| |done]. unfold set_cur. cbn [fst saved heap data baseData]. f_equal.
    apply map_eq. intros m. rewrite lookup_delete, !lookup_nodes_of, Hget.
    destruct (decide (n = m)) as [<-|Hne]; [by rewrite decide_True|by rewrite decide_False].
Qed.

(** A write to the node [n] of the top layer, seen from outside. *)
Lemma write_nodes h h' d d' bs n l l' ni ni' :
  chain_ok h (d :: bs) → getNodeInfo (d :: bs) n = Some l → h !! l = Some ni →
  h' !! l' = Some ni → owns_at d' n l' → chain_ok h' (d' :: bs) →
  (∀ m, getNodeInfo (d' :: bs) m = if decide (m = n) then Some l' else getNodeInfo (d :: bs) m) →
  (∀ x, owned (d :: bs) x → h' !! x = h !! x) → NodeName ni' = NodeName ni →
  let h2 := <[l' := ni']> h' in
  chain_ok h2 (clearCaches d' :: bs) ∧
  nodes_of h2 (clearCaches d' :: bs) = <[n := ni']> (nodes_of h (d :: bs)) ∧
  saved_of h2 bs = saved_of h bs.
Proof.
  intros Hc Hg Hl Hl' Hown Hc' Hget Hframe Hname h2.
  pose proof Hc' as (Hm' & _ & Hbs').
  split_and!; [by eapply write_ok| |].
  - apply map_eq. intros m. rewrite lookup_insert, !lookup_nodes_of.
    rewrite <- (same_maps_get d' (clearCaches d')) by done. rewrite Hget.
    destruct (decide (n = m)) as [<-|Hne].
    + rewrite decide_True by done. simpl. apply lookup_insert_eq.
    + rewrite decide_False by done. destruct (getNodeInfo (d :: bs) m) as [x|] eqn:Hx; [|done].
      cbn [mbind option_bind]. unfold h2. rewrite lookup_insert_ne; [apply Hframe, visible_owned|].
      * by exists m.
      * intros ->. apply Hne. eapply (getNodeInfo_inj h' (d' :: bs)); [done|..]; rewrite Hget.
        -- by rewrite decide_True.
        -- by rewrite decide_False.
  - apply saved_of_frame. intros x Ho. unfold h2. rewrite lookup_insert_ne.
    + apply Hframe, owned_cons. by right.
    + intros ->. by apply (ok_owned _ _ _ Hm' n x).
Qed.

Lemma delta_sim_StorePodInfo p n s : delta_inv s → delta_simulates (StorePodInfo p n) s.
Proof.
  destruct s as [h d bs]. unfold delta_inv, delta_simulates. simpl. intros Hc.
  unfold delta_StorePodInfo, delta_addPodInfo, delta_abs. cbn [heap data baseData cur].
  destruct (nodes_of_cases h (d :: bs) n Hc) as [[Hg Hn]|(l & ni & Hg & Hl & Hn)]; rewrite Hn.
  - by rewrite (nodeInfoToModify_missing h d bs n Hc Hg).
  - destruct (nodeInfoToModify_ok h d bs n l ni Hc Hg Hl)
      as (h' & d' & l' & -> & Hl' & Hown & Hc' & Hget & Hframe).
    destruct (write_nodes h h' d d' bs n l l' ni (AddPodInfo ni p)) as (Hok & Hnodes & Hsaved);
      [done..|apply NodeName_AddPodInfo|].
    assert (alter (λ x, AddPodInfo x p) l' h' = <[l' := AddPodInfo ni p]> h') as ->.
    { apply map_eq. intros i. rewrite lookup_alter, lookup_insert.
      case_decide; [subst; by rewrite Hl'|done]. }
    split_and!; [done| |done]. unfold set_cur. cbn [fst saved heap data baseData].
    by rewrite Hnodes, Hsaved.
Qed.

Lemma delta_removePod_loop_spec h l x ns name pods :
  h !! l = Some x →
  delta_removePod_loop h l ns name pods =
  match find_pod ns name pods with
  | None => (h, None)
  | Some p => let '(x', err) := RemovePod x p in (<[l := x']> h, Some (ErrCannotRemovePod <$> err))
  end.
Proof.
  intros Hx. induction pods as [|p pods IH]; [done|]. unfold find_pod in *. simpl.
  case_decide as Hp; simpl; [by rewrite Hx|]. rewrite IH.
  destruct (list_find _ pods) as [[i q]|]; done.
Qed.

Lemma delta_sim_RemovePodInfo ns name n s : delta_inv s → delta_simulates (RemovePodInfo ns name n) s.
Proof.
  destruct s as [h d bs]. unfold delta_inv, delta_simulates. simpl. intros Hc.
  unfold delta_RemovePodInfo, delta_removePod, delta_abs. cbn [heap data baseData cur].
  destruct (nodes_of_cases h (d :: bs) n Hc) as [[Hg Hn]|(l & ni & Hg & Hl & Hn)]; rewrite Hn.
  { by rewrite (nodeInfoToModify_missing h d bs n Hc Hg). }
  destruct (nodeInfoToModify_ok h d bs n l ni Hc Hg Hl)
    as (h' & d' & l' & -> & Hl' & Hown & Hc' & Hget & Hframe).
  unfold pods_at. rewrite Hl', (delta_removePod_loop_spec h' l' ni) by done.
  (* nothing but the copy changed *)
  assert (nodes_of h' (d' :: bs) = nodes_of h (d :: bs) ∧ saved_of h' bs = saved_of h bs)
    as [Hnodes Hsaved].
  { split; [|apply saved_of_frame; intros x Ho; apply Hframe, owned_cons; by right].
    apply map_eq. intros m. rewrite !lookup_nodes_of, Hget.
    destruct (decide (m = n)) as [->|Hne]; [by rewrite Hg; simpl; rewrite Hl', Hl|].
    destruct (getNodeInfo (d :: bs) m) as [x|] eqn:Hx; [|done]. simpl.
    apply Hframe, visible_owned. by exists m. }
  destruct (find_pod ns name (GetPods ni)) as [p|]; simpl.
  - pose proof (NodeName_RemovePod ni p) as Hname. pose proof (RemovePod_err ni p) as Herr.
    destruct (RemovePod ni p) as [ni' [e|]]; simpl in *.
    + rewrite (Herr e eq_refl), !insert_id, Hnodes, Hsaved by done. done.
    + destruct (write_nodes h h' d d' bs n l l' ni ni') as (Hok & Hnodes2 & Hsaved2); [done..|].
      split_and!; [done| |done]. unfold set_cur. cbn [saved].
      by rewrite Hnodes2, Hsaved2.
  - by rewrite Hnodes, Hsaved.
Qed.

Lemma delta_sim_Commit s : delta_inv s → delta_simulates Commit s.
Proof.
  destruct s as [h d bs]. unfold delta_inv, delta_simulates, delta_abs. simpl. intros Hc.
  unfold delta_Commit. cbn [heap data baseData]. destruct bs as [|b bs]; [done|].
  destruct (delta_commit_into_ok h d b bs Hc) as (b' & -> & Hc' & Hget).
  split_and!; [done| |done]. cbn [fst heap data baseData saved_of tail]. f_equal.
  apply map_eq. intros n. by rewrite !lookup_nodes_of, Hget.
Qed.

(** The readers change nothing but caches. *)
Lemma with_chain_ok s c :
  delta_inv s → same_chain (data s :: baseData s) c → chain_ok (heap s) c →
  delta_inv (with_chain s c) ∧ delta_abs s = delta_abs (with_chain s c).
Proof.
  destruct s as [h d bs]. simpl. intros _ Hs Hc. inversion Hs as [|? d' ? bs' Hd Hbs]; subst.
  split; [done|]. unfold delta_abs. cbn [heap data baseData with_chain].
  by rewrite (nodes_of_same h (d :: bs) (d' :: bs')), (saved_of_same h bs bs').
Qed.

Lemma lists_all_true h bs ls :
  lists (visible bs) ls → lists (λ l, visible bs l ∧ ∀ ni : NI, h !! l = Some ni → True) ls.
Proof. apply lists_iff. naive_solver. Qed.

Lemma delta_exec_ok o s : delta_inv s → delta_simulates o s.
Proof.
  intros Hs. destruct o as [ni|n|p n|ns name n| | | | |n| | |].
  - by apply delta_sim_StoreNodeInfo.
  - by apply delta_sim_RemoveNodeInfo.
  - by apply delta_sim_StorePodInfo.
  - by apply delta_sim_RemovePodInfo.
  - destruct s as [h d bs]. split_and!; [by apply empty_layer_ok| |done].
    unfold delta_abs. simpl. by rewrite nodes_of_empty_layer.
  - destruct s as [h d [|b bs]]; [done|]. by destruct Hs as (_ & _ & ?).
  - by apply delta_sim_Commit.
  - split_and!; [by apply empty_layer_ok| |done]. unfold delta_abs. simpl.
    by rewrite nodes_of_empty_layer.
  - split_and!; [done..|]. simpl. f_equal. unfold delta_getNodeInfo.
    by rewrite <- lookup_nodes_of.
  - unfold delta_simulates. cbn [delta_exec spec_exec]. pose proof (getNodeInfoList_ok _ _ Hs) as Hg.
    destruct (getNodeInfoList (heap s) (data s :: baseData s)) as [c ls].
    destruct Hg as (Hsame & Hc & Hl). destruct (with_chain_ok s c Hs Hsame Hc) as [Hi Ha].
    split_and!; [done..|]. cbn [snd out_equiv]. rewrite <- (deref_lists _ _ ls (λ _, True) Hs).
    + by rewrite list_filter_all_True.
    + by apply lists_all_true.
  - unfold delta_simulates. cbn [delta_exec spec_exec]. pose proof (delta_HavePodsWithAffinityList_ok _ _ _ Hs) as Hg.
    destruct (delta_HavePodsWithAffinityList (heap s) (data s) (baseData s)) as [c ls].
    destruct Hg as (Hsame & Hc & Hl). destruct (with_chain_ok s c Hs Hsame Hc) as [Hi Ha].
    split_and!; [done..|]. cbn [snd out_equiv]. apply (deref_lists _ _ ls _ Hs).
    eapply lists_iff; [|exact Hl]. intros l. unfold affinity_at. simpl.
    split; intros [[n Hn] Hq]; (split; [by exists n|]);
      destruct (chain_ok_named _ _ _ _ Hs Hn) as (ni & Hni & _); rewrite Hni in *; naive_solver.
  - unfold delta_simulates. cbn [delta_exec spec_exec]. pose proof (delta_HavePodsWithRequiredAntiAffinityList_ok _ _ _ Hs) as Hg.
    destruct (delta_HavePodsWithRequiredAntiAffinityList (heap s) (data s) (baseData s)) as [c ls].
    destruct Hg as (Hsame & Hc & Hl). destruct (with_chain_ok s c Hs Hsame Hc) as [Hi Ha].
    split_and!; [done..|]. cbn [snd out_equiv]. apply (deref_lists _ _ ls _ Hs).
    eapply lists_iff; [|exact Hl]. intros l. unfold anti_affinity_at. simpl.
    split; intros [[n Hn] Hq]; (split; [by exists n|]);
      destruct (chain_ok_named _ _ _ _ Hs Hn) as (ni & Hni & _); rewrite Hni in *; naive_solver.
Qed.
End delta_proofs.

#[export] Instance delta_store `{GR : GoRange} {S Slice CSI} `{SchedNodeInfo S}
  : SnapshotStore S Slice CSI (DeltaSnapshotStore S Slice CSI) := {
  store_new := NewDeltaSnapshotStore;
  store_exec := delta_exec;
  store_inv := delta_inv;
  store_abs := delta_abs;
  store_new_ok := conj (empty_layer_ok _ [] I) eq_refl;
  store_exec_ok := delta_exec_ok
}.
