(* ===== verification/SnapshotTheorems.v ===== *)
(** What the cluster snapshot stores guarantee: the optimised delta store and
    the reference store cannot be told apart, a fork is undone by its revert
    and kept by its commit, and claims in use are reported exactly. *)
From stdpp Require Import prelude gmap strings list fin_maps.
From S2P Require Import Prelude Api Drain Framework SnapshotSpec BasicStore DeltaStore DeltaStoreProofs.

Section theorems.
Context `{GR : GoRange} {S Slice CSI : Type} `{SchedNodeInfo S}.
Abbreviation ops := (list (store_op S Slice CSI)).
Abbreviation delta := (DeltaSnapshotStore S Slice CSI).
Abbreviation basic := (list (internalBasicSnapshotData S Slice CSI)).


(** Operations that neither open nor close a fork. *)
Definition within_fork (o : store_op S Slice CSI) : Prop :=
  match o with Fork | Revert | Commit | Clear => False | _ => True end.

Lemma spec_within_fork (os : ops) st :
  Forall within_fork os → saved (spec_exec_all os st).1 = saved st.
Proof.
  intros Hos. revert st. induction Hos as [|o os Ho _ IH]; intros st; [done|]. simpl.
  assert (saved (spec_exec o st).1 = saved st) as Hsave.
  { destruct o; try done; simpl; repeat case_match; try done. }
  destruct (spec_exec o st) as [st1 r]. simpl in Hsave. rewrite <- Hsave, <- (IH st1).
  by destruct (spec_exec_all os st1).
Qed.

Lemma spec_exec_all_app (os1 os2 : ops) st :
  spec_exec_all (os1 ++ os2) st =
  let '(st1, r1) := spec_exec_all os1 st in
  let '(st2, r2) := spec_exec_all os2 st1 in (st2, r1 ++ r2).
Proof.
  revert st. induction os1 as [|o os1 IH]; intros st; simpl.
  - by destruct (spec_exec_all os2 st).
  - destruct (spec_exec o st) as [st1 r]. rewrite IH.
    destruct (spec_exec_all os1 st1) as [st2 r1]. by destruct (spec_exec_all os2 st2).
Qed.

Lemma same_abs_same_outputs {T} `{!SnapshotStore S Slice CSI T} (post : ops) (t1 t2 : T) :
  store_inv t1 → store_inv t2 → store_abs t1 = store_abs t2 →
  Forall2 out_equiv (store_exec_all post t1).2 (store_exec_all post t2).2.
Proof.
  intros H1 H2 Heq. destruct (store_exec_all_ok post t1 H1) as (_ & _ & Ho1).
  destruct (store_exec_all_ok post t2 H2) as (_ & _ & Ho2). rewrite <- Heq in Ho2.
  revert Ho1 Ho2. generalize (store_exec_all post t1).2 (store_exec_all post t2).2.
  induction ((spec_exec_all post (store_abs t1)).2) as [|r rs IH]; intros l1 l2 Hl1 Hl2;
    inversion Hl1; inversion Hl2; subst; constructor; [|by apply IH].
  by etrans; [symmetry|].
Qed.

(** C7. Reverting undoes a fork completely: after any history [pre], forking,
    running any node and pod operations and listings [mods], and reverting
    leaves a store whose answers to every later sequence of operations are
    those of the store as it was at the fork.  For the delta store this is
    the isolation its copy-on-write provides. *)
Theorem fork_revert_restores (pre mods post : ops) :
  Forall within_fork mods →
  Forall2 out_equiv
    (store_exec_all post (store_exec_all (pre ++ Fork :: mods ++ [Revert]) (store_new : delta)).1).2
    (store_exec_all post (store_exec_all pre (store_new : delta)).1).2.
Proof.
  intros Hmods. destruct (store_new_ok (T := delta)) as [Hi Ha].
  destruct (store_exec_all_ok (pre ++ Fork :: mods ++ [Revert]) _ Hi) as (Hi1 & Ha1 & _).
  destruct (store_exec_all_ok pre _ Hi) as (Hi2 & Ha2 & _).
  apply same_abs_same_outputs; [done..|]. rewrite <- Ha1, <- Ha2. clear Ha1 Ha2 Hi1 Hi2.
  rewrite spec_exec_all_app. destruct (spec_exec_all pre (store_abs store_new)) as [st r]. simpl.
  rewrite spec_exec_all_app.
  pose proof (spec_within_fork mods (mkSpec (cur st) (cur st :: saved st)) Hmods) as Hs.
  destruct (spec_exec_all mods _) as [st1 r1]. simpl in *. rewrite Hs. by destruct st.
Qed.

(** Committing keeps the changes of a fork and never fails: after any
    history [pre], forking, running [mods] and committing succeeds, and the
    store then answers every later sequence of operations like a store that
    ran [pre] and [mods] without the fork. *)
Theorem fork_commit_keeps (pre mods post : ops) :
  Forall within_fork mods →
  let forked := (store_exec_all (pre ++ Fork :: mods) (store_new : delta)).1 in
  (store_exec Commit forked).2 = RErr None ∧
  Forall2 out_equiv
    (store_exec_all post (store_exec Commit forked).1).2
    (store_exec_all post (store_exec_all (pre ++ mods) (store_new : delta)).1).2.
Proof.
  intros Hmods forked. destruct (store_new_ok (T := delta)) as [Hi Ha].
  destruct (store_exec_all_ok (pre ++ Fork :: mods) _ Hi) as (Hi1 & Ha1 & _). fold forked in Hi1, Ha1.
  destruct (store_exec_all_ok (pre ++ mods) _ Hi) as (Hi2 & Ha2 & _).
  destruct (store_exec_ok Commit forked Hi1) as (Hi3 & Ha3 & Ho3).
  split; [by destruct (store_exec Commit forked) as [? []]; simpl in *|].
  apply same_abs_same_outputs; [done..|]. rewrite <- Ha3, <- Ha1, <- Ha2.
  rewrite !spec_exec_all_app. destruct (spec_exec_all pre _) as [st r]. simpl.
  assert (∀ st1 st2, cur st1 = cur st2 →
    cur (spec_exec_all mods st1).1 = cur (spec_exec_all mods st2).1) as Hcur.
  { clear -Hmods. induction Hmods as [|o os Ho _ IH]; intros st1 st2 Heq; [done|]. simpl.
    assert (cur (spec_exec o st1).1 = cur (spec_exec o st2).1) as Hc.
    { destruct o; try done; simpl; rewrite Heq; repeat case_match; done. }
    destruct (spec_exec o st1) as [s1 r1], (spec_exec o st2) as [s2 r2]. simpl in Hc.
    specialize (IH s1 s2 Hc). by destruct (spec_exec_all os s1), (spec_exec_all os s2). }
  pose proof (spec_within_fork mods (mkSpec (cur st) (cur st :: saved st)) Hmods) as Hs1.
  pose proof (spec_within_fork mods st Hmods) as Hs2.
  specialize (Hcur (mkSpec (cur st) (cur st :: saved st)) st eq_refl).
  destruct (spec_exec_all mods _) as [a ra], (spec_exec_all mods st) as [b rb]. simpl in *.
  rewrite Hs1, Hcur. simpl. rewrite <- Hs2. by destruct b.
Qed.

(** In every state the delta store can reach, [IsPVCUsedByPods] answers
    yes exactly when some node of the snapshot counts a pod that uses the
    claim, whether the counts are cached or not. *)
Theorem delta_pvc_used_exact (os : ops) (key : string) :
  let s := (store_exec_all os (store_new : delta)).1 in
  (delta_IsPVCUsedByPods s key).2 = true ↔
  ∃ n ni, cur (store_abs s) !! n = Some ni ∧
    (0 < default 0 (sched_pvc_ref_counts (ni_sched ni) !! key))%Z.
Proof.
  intros s. destruct (store_new_ok (T := delta)) as [Hi _].
  destruct (store_exec_all_ok os _ Hi) as (His & _ & _). fold s in His.
  unfold delta_IsPVCUsedByPods.
  pose proof (delta_isPVCUsedByPods_ok _ _ _ key His) as Hp.
  destruct (delta_isPVCUsedByPods _ _ key) as [c r]. destruct Hp as (_ & _ & ->).
  simpl. unfold delta_abs. cbn [cur]. split.
  - intros (l & [n Hn] & Hpos). destruct (chain_ok_named _ _ _ _ His Hn) as (ni & Hni & _).
    exists n, ni. rewrite lookup_nodes_of, Hn. split; [done|].
    unfold pvc_counts_at in Hpos. by rewrite Hni in Hpos.
  - intros (n & ni & Hn & Hpos). rewrite lookup_nodes_of in Hn.
    destruct (getNodeInfo _ n) as [l|] eqn:Hl; [|done]. simpl in Hn.
    exists l. split; [by exists n|]. unfold pvc_counts_at. by rewrite Hn.
Qed.

(** [WithForkedSnapshot] over any snapshot store: the clean-up never
    fails, the forks around the call are left as they were, and the nodes
    are those [f] left when it asks for a commit, those before the call
    otherwise. *)
Theorem with_forked_snapshot_outcome {T E} `{!SnapshotStore S Slice CSI T}
    (f : T → T * (bool * option E)) (t : T) :
  store_inv t → keeps_forks f →
  let forked := (store_exec Fork t).1 in
  let '(t', (err, cleanupErr)) := WithForkedSnapshot f t in
  store_inv t' ∧ cleanupErr = None ∧ err = (f forked).2.2 ∧
  saved (store_abs t') = saved (store_abs t) ∧
  cur (store_abs t') = if (f forked).2.1 then cur (store_abs (f forked).1) else cur (store_abs t).
Proof. apply WithForkedSnapshot_ok. Qed.
End theorems.

(** ** Evaluation of the two stores on a small cluster *)

Definition demo_node (name : string) (pods : list PodInfo) : NodeInfo demo_sched unit unit :=
  mkNodeInfo (named_node name, pods) [] None.
Definition demo_pod (name : string) : PodInfo :=
  NewPodInfo (simple_pod "default" name ∅ [mkVolume "v" None None (Some "data"%string)]) [].
Abbreviation demo_delta := (DeltaSnapshotStore demo_sched unit unit).

(** Fork, move a pod, look, revert, look again. *)
Definition demo_ops : list (store_op demo_sched unit unit) :=
  [StoreNodeInfo (demo_node "n1" [demo_pod "p1"]); StoreNodeInfo (demo_node "n2" []);
   ListNodeInfos; Fork; RemovePodInfo "default" "p1" "n1"; StorePodInfo (demo_pod "p1") "n2";
   GetNodeInfo "n2"; Revert; GetNodeInfo "n2"].
Example demo_ops_run :
  drop 4 (store_exec_all demo_ops (store_new : demo_delta)).2 =
  [RErr None; RErr None; RNode (Ok (demo_node "n2" [demo_pod "p1"])); RErr None;
   RNode (Ok (demo_node "n2" []))].
Proof. vm_compute. reflexivity. Qed.

Definition demo_pre : list (store_op demo_sched unit unit) :=
  [StoreNodeInfo (demo_node "n1" [demo_pod "p1"]); ListNodeInfos].
Definition demo_mods : list (store_op demo_sched unit unit) :=
  [StorePodInfo (demo_pod "p2") "n1"; RemoveNodeInfo "n1"; StoreNodeInfo (demo_node "n1" [])].
Lemma demo_mods_ok : Forall within_fork demo_mods.
Proof. repeat constructor. Qed.

Lemma fork_revert_restores_witness :
  Forall2 out_equiv
    (store_exec_all [GetNodeInfo "n1"]
      (store_exec_all (demo_pre ++ Fork :: demo_mods ++ [Revert]) (store_new : demo_delta)).1).2
    [RNode (Ok (demo_node "n1" [demo_pod "p1"]))].
Proof. exact (fork_revert_restores demo_pre demo_mods [GetNodeInfo "n1"] demo_mods_ok). Defined.

Lemma fork_commit_keeps_witness :
  let forked := (store_exec_all (demo_pre ++ Fork :: demo_mods) (store_new : demo_delta)).1 in
  (store_exec Commit forked).2 = RErr None ∧
  Forall2 out_equiv (store_exec_all [GetNodeInfo "n1"] (store_exec Commit forked).1).2
    [RNode (Ok (demo_node "n1" []))].
Proof. exact (fork_commit_keeps demo_pre demo_mods [GetNodeInfo "n1"] demo_mods_ok). Defined.

(** A function that schedules a pod on the forked store and asks for a commit
    if that worked. *)
Definition demo_f (t : demo_delta) : demo_delta * (bool * option store_error) :=
  match store_exec (StorePodInfo (demo_pod "p2") "n1") t with
  | (t', RErr None) => (t', (true, None))
  | (t', RErr e) => (t', (false, e))
  | (t', _) => (t', (false, None))
  end.
Lemma demo_f_keeps_forks : keeps_forks demo_f.
Proof.
  intros t Ht. unfold demo_f.
  destruct (store_exec_ok (StorePodInfo (demo_pod "p2") "n1") t Ht) as (Hi & Ha & _).
  assert (saved (store_abs (store_exec (StorePodInfo (demo_pod "p2") "n1") t).1) =
    saved (store_abs t)) as Hs by (rewrite <- Ha; cbn [spec_exec]; by destruct (_ !! _)).
  by destruct (store_exec (StorePodInfo (demo_pod "p2") "n1") t) as [t' [[]| |]].
Qed.
Definition demo_start : demo_delta :=
  (store_exec_all demo_pre (store_new : demo_delta)).1.
Lemma demo_start_ok : store_inv demo_start.
Proof. apply (store_exec_all_ok demo_pre), store_new_ok. Qed.

Lemma with_forked_snapshot_outcome_witness :
  let '(t', (err, cleanupErr)) := WithForkedSnapshot demo_f demo_start in
  store_inv t' ∧ cleanupErr = None ∧ err = None ∧
  saved (store_abs t') = [] ∧
  cur (store_abs t') = {[ "n1"%string := demo_node "n1" [demo_pod "p1"; demo_pod "p2"] ]}.
Proof. exact (with_forked_snapshot_outcome demo_f demo_start demo_start_ok demo_f_keeps_forks). Defined.
