(* ===== verification/Backoff.v ===== *)
(** Exponential backoff of node groups after failed scale-ups
    (src/pkg/utils/backoff/exponential_backoff.go). Times are nanoseconds on
    an unbounded line, durations are 64-bit. *)
From stdpp Require Import prelude gmap strings list fin_maps.
From S2P Require Import Prelude.
Local Open Scope Z_scope.

Section backoff.
Context `{GR : GoRange} {NodeGroup ErrorInfo : Type} `{Inhabited ErrorInfo}.

Record exponentialBackoffInfo : Type := mkInfo {
  duration : Z;
  backoffUntil : Z;
  lastFailedExecution : Z;
  errorInfo : ErrorInfo
}.

Record exponentialBackoff : Type := mkBackoff {
  maxBackoffDuration : Z;
  initialBackoffDuration : Z;
  backoffResetTimeout : Z;
  nodeGroupKey : NodeGroup → string;
  backoffInfo : gmap string exponentialBackoffInfo
}.

(** [Status]: the error is the zero value when the group is not backed off. *)
Record Status : Type := mkStatus { IsBackedOff : bool; ErrorOf : ErrorInfo }.

Implicit Types (b : exponentialBackoff) (g : NodeGroup) (e : ErrorInfo) (t : Z).

Definition NewExponentialBackoff (initial max reset : Z) (key : NodeGroup → string)
    : exponentialBackoff := mkBackoff max initial reset key ∅.

Definition NewIdBasedExponentialBackoff (Id : NodeGroup → string) (initial max reset : Z)
    : exponentialBackoff := NewExponentialBackoff initial max reset (λ g, Id g).

Definition set_info b (m : gmap string exponentialBackoffInfo) : exponentialBackoff :=
  mkBackoff (maxBackoffDuration b) (initialBackoffDuration b) (backoffResetTimeout b)
    (nodeGroupKey b) m.

(** [t1.Before(t2)] is [t1 < t2]. *)
Definition Backoff b g e t : exponentialBackoff * Z :=
  let key := nodeGroupKey b g in
  let duration :=
    match backoffInfo b !! key with
    | None => initialBackoffDuration b
    | Some info =>
        if backoffUntil info <? t then
          let d := wrap64 (2 * duration info) in
          if maxBackoffDuration b <? d then maxBackoffDuration b else d
        else duration info
    end in
  let until := t + duration in
  (set_info b (<[key := mkInfo duration until t e]> (backoffInfo b)), until).

Definition BackoffStatus b g t : Status :=
  match backoffInfo b !! nodeGroupKey b g with
  | None => mkStatus false inhabitant
  | Some info => if backoffUntil info <? t then mkStatus false inhabitant
                 else mkStatus true (errorInfo info)
  end.

Definition RemoveBackoff b g : exponentialBackoff :=
  set_info b (delete (nodeGroupKey b g) (backoffInfo b)).

Definition RemoveStaleBackoffData b t : exponentialBackoff :=
  set_info b (foldl (λ m kv,
    if lastFailedExecution kv.2 + backoffResetTimeout b <? t then delete kv.1 m else m)
    (backoffInfo b) (go_range (backoffInfo b))).

(** ** Histories *)

Inductive event : Type :=
| EvBackoff (g : NodeGroup) (e : ErrorInfo) (t : Z)
| EvRemove (g : NodeGroup)
| EvRemoveStale (t : Z).

Definition backoff_step b (ev : event) : exponentialBackoff :=
  match ev with
  | EvBackoff g e t => (Backoff b g e t).1
  | EvRemove g => RemoveBackoff b g
  | EvRemoveStale t => RemoveStaleBackoffData b t
  end.

Definition backoff_run b (evs : list event) : exponentialBackoff := foldl backoff_step b evs.

(** The configuration never changes. *)
Definition same_config b b' : Prop :=
  maxBackoffDuration b' = maxBackoffDuration b ∧
  initialBackoffDuration b' = initialBackoffDuration b ∧
  backoffResetTimeout b' = backoffResetTimeout b ∧ nodeGroupKey b' = nodeGroupKey b.

Lemma backoff_step_config b ev : same_config b (backoff_step b ev).
Proof. by destruct ev. Qed.

Lemma lookup_RemoveStale b t k :
  backoffInfo (RemoveStaleBackoffData b t) !! k =
  match backoffInfo b !! k with
  | Some info => if lastFailedExecution info + backoffResetTimeout b <? t then None else Some info
  | None => None
  end.
Proof.
  unfold RemoveStaleBackoffData. simpl.
  rewrite (lookup_range_delete_if (λ _ info,
    lastFailedExecution info + backoffResetTimeout b <? t)).
  by destruct (backoffInfo b !! k).
Qed.

(** ** The invariant *)

Definition valid_config b : Prop :=
  0 < initialBackoffDuration b ≤ maxBackoffDuration b ∧ 2 * maxBackoffDuration b ≤ int64_max.

Definition info_ok b (info : exponentialBackoffInfo) : Prop :=
  initialBackoffDuration b ≤ duration info ≤ maxBackoffDuration b ∧
  backoffUntil info = lastFailedExecution info + duration info.

Definition backoff_ok b : Prop := map_Forall (λ _ info, info_ok b info) (backoffInfo b).

Lemma info_ok_config b b' info : same_config b b' → info_ok b info → info_ok b' info.
Proof. unfold info_ok. by intros (-> & -> & _ & _). Qed.

Lemma valid_config_same b b' : same_config b b' → valid_config b → valid_config b'.
Proof. unfold valid_config. by intros (-> & -> & _ & _). Qed.

Lemma Backoff_duration b g e t :
  valid_config b → backoff_ok b →
  ∃ d, initialBackoffDuration b ≤ d ≤ maxBackoffDuration b ∧
    (Backoff b g e t).2 = t + d ∧
    backoffInfo (Backoff b g e t).1 = <[nodeGroupKey b g := mkInfo d (t + d) t e]> (backoffInfo b) ∧
    d = match backoffInfo b !! nodeGroupKey b g with
        | None => initialBackoffDuration b
        | Some info => if backoffUntil info <? t
                       then maxBackoffDuration b `min` (2 * duration info) else duration info
        end.
Proof.
  intros [Hi Hm] Hok. unfold Backoff. cbv zeta. cbn [fst snd set_info backoffInfo].
  set (d := match backoffInfo b !! nodeGroupKey b g with
            | None => _ | Some info => _ end).
  assert (d = match backoffInfo b !! nodeGroupKey b g with
              | None => initialBackoffDuration b
              | Some info => if backoffUntil info <? t
                             then maxBackoffDuration b `min` (2 * duration info) else duration info
              end ∧ initialBackoffDuration b ≤ d ≤ maxBackoffDuration b) as [Hd Hr].
  { unfold d. destruct (backoffInfo b !! nodeGroupKey b g) as [info|] eqn:Hk; [|lia].
    destruct (Hok _ _ Hk) as [Hdi _]. destruct (Z.ltb_spec (backoffUntil info) t); [|lia].
    rewrite wrap64_id by (unfold int64_min, int64_max in *; lia).
    destruct (Z.ltb_spec (maxBackoffDuration b) (2 * duration info)); lia. }
  exists d. split; [done|]. split; [done|]. by split.
Qed.

Lemma backoff_step_ok b ev :
  valid_config b → backoff_ok b → valid_config (backoff_step b ev) ∧ backoff_ok (backoff_step b ev).
Proof.
  intros Hv Hok. pose proof (backoff_step_config b ev) as Hc.
  split; [by apply (valid_config_same b)|].
  intros k info Hk. apply (info_ok_config b); [done|]. destruct ev as [g e t|g|t].
  - destruct (Backoff_duration b g e t Hv Hok) as (d & Hd & _ & Heq & _).
    cbn [backoff_step] in Hk. rewrite Heq, lookup_insert in Hk. case_decide; [|by apply (Hok k)].
    injection Hk as <-. by split.
  - simpl in Hk. apply lookup_delete_Some in Hk as [_ Hk]. by apply (Hok k).
  - cbn [backoff_step] in Hk. rewrite lookup_RemoveStale in Hk.
    destruct (backoffInfo b !! k) as [i|] eqn:Hi; [|done].
    destruct (_ <? t); [done|]. injection Hk as <-. by apply (Hok k).
Qed.

Lemma backoff_run_ok b evs :
  valid_config b → backoff_ok b →
  valid_config (backoff_run b evs) ∧ backoff_ok (backoff_run b evs) ∧ same_config b (backoff_run b evs).
Proof.
  intros Hv Hok. unfold backoff_run.
  apply (foldl_inv (λ b', valid_config b' ∧ backoff_ok b' ∧ same_config b b')).
  { split_and!; [done|done|by split_and!]. }
  intros b' ev _ (Hv' & Hok' & Hc'). destruct (backoff_step_ok b' ev Hv' Hok') as [? ?].
  split_and!; [done..|]. pose proof (backoff_step_config b' ev) as (? & ? & ? & ?).
  destruct Hc' as (? & ? & ? & ?). unfold same_config. split_and!; congruence.
Qed.

Lemma new_backoff_ok initial max reset key :
  backoff_ok (NewExponentialBackoff initial max reset key).
Proof. apply map_Forall_empty. Qed.

(** ** Repeated failures of one node group *)

(** The failures of [g], each with its error and time, and the times the calls
    return. *)
Fixpoint fail_all b g (fails : list (ErrorInfo * Z)) : list Z :=
  match fails with
  | [] => []
  | (e, t) :: fails' => let '(b', u) := Backoff b g e t in u :: fail_all b' g fails'
  end.

(** Each failure comes after the backoff the previous one started has ended. *)
Fixpoint after_backoff (fails : list (ErrorInfo * Z)) (untils : list Z) : Prop :=
  match fails, untils with
  | _ :: (((_, t) :: _) as fails'), u :: untils' => u < t ∧ after_backoff fails' untils'
  | _, _ => True
  end.

Lemma min_double a m k : 0 < a ≤ m → (0 ≤ k) →
  m `min` (2 * (m `min` (a * 2 ^ k))) = m `min` (a * 2 ^ (k + 1)).
Proof. intros. rewrite Z.pow_add_r by lia. lia. Qed.

Lemma fail_all_known b g fails (k : nat) info :
  valid_config b → backoff_ok b → backoffInfo b !! nodeGroupKey b g = Some info →
  duration info = maxBackoffDuration b `min` (initialBackoffDuration b * 2 ^ Z.of_nat k) →
  match fails with (_, t) :: _ => backoffUntil info < t | [] => True end →
  after_backoff fails (fail_all b g fails) →
  fail_all b g fails =
  imap (λ i et, et.2 + maxBackoffDuration b `min` (initialBackoffDuration b * 2 ^ Z.of_nat (S k + i)))
    fails.
Proof.
  revert b k info. induction fails as [|[e t] fails IH]; intros b k info Hv Hok Hk Hd Hlt Haft; [done|].
  destruct (Backoff_duration b g e t Hv Hok) as (d & Hdr & Hu & Heq & Hval).
  rewrite Hk, (proj2 (Z.ltb_lt _ _) Hlt), Hd, min_double in Hval by (destruct Hv; lia).
  destruct (backoff_step_ok b (EvBackoff g e t) Hv Hok) as [Hv' Hok'].
  pose proof (backoff_step_config b (EvBackoff g e t)) as (Hmax & Hini & _ & Hkey).
  cbn [backoff_step fail_all] in *. destruct (Backoff b g e t) as [b' u]. simpl in *. subst u.
  replace (Z.of_nat k + 1) with (Z.of_nat (S k)) in Hval by lia.
  f_equal; [by rewrite Nat.add_0_r, Hval|].
  rewrite (IH b' (S k) (mkInfo d (t + d) t e)).
  - rewrite Hmax, Hini. apply imap_ext. intros i [e' t'] _. simpl. do 4 f_equal. lia.
  - done.
  - done.
  - rewrite Hkey, Heq. apply lookup_insert_eq.
  - simpl. by rewrite Hmax, Hini, Hval.
  - simpl. destruct fails as [|[e' t'] fails]; [done|]. by destruct Haft.
  - destruct fails as [|[e' t'] fails]; [done|]. by destruct Haft.
Qed.

Lemma fail_all_new b g fails :
  valid_config b → backoff_ok b → backoffInfo b !! nodeGroupKey b g = None →
  after_backoff fails (fail_all b g fails) →
  fail_all b g fails =
  imap (λ i et, et.2 + maxBackoffDuration b `min` (initialBackoffDuration b * 2 ^ Z.of_nat i)) fails.
Proof.
  destruct fails as [|[e t] fails]; intros Hv Hok Hk Haft; [done|].
  destruct (Backoff_duration b g e t Hv Hok) as (d & Hdr & Hu & Heq & Hval). rewrite Hk in Hval.
  destruct (backoff_step_ok b (EvBackoff g e t) Hv Hok) as [Hv' Hok'].
  pose proof (backoff_step_config b (EvBackoff g e t)) as (Hmax & Hini & _ & Hkey).
  cbn [backoff_step fail_all] in *. destruct (Backoff b g e t) as [b' u]. simpl in *. subst u.
  f_equal; [destruct Hv; simpl; lia|].
  rewrite (fail_all_known b' g fails 0 (mkInfo d (t + d) t e)).
  - by rewrite Hmax, Hini.
  - done.
  - done.
  - rewrite Hkey, Heq. apply lookup_insert_eq.
  - simpl. rewrite Hmax, Hini. destruct Hv. lia.
  - simpl. destruct fails as [|[e' t'] fails]; [done|]. by destruct Haft.
  - destruct fails as [|[e' t'] fails]; [done|]. by destruct Haft.
Qed.

(** ** Theorems *)

(** Bounds of the backoff: with a positive initial duration not above the
    maximum and a maximum that can be doubled without overflow, every entry of
    every reachable state has a duration between the two and a deadline exactly
    that long after the last failure, whatever failures, removals and clean-ups
    happened before. *)
Theorem backoff_durations_bounded initial max reset key (evs : list event) k info :
  0 < initial ≤ max → 2 * max ≤ int64_max →
  backoffInfo (backoff_run (NewExponentialBackoff initial max reset key) evs) !! k = Some info →
  initial ≤ duration info ≤ max ∧
  backoffUntil info = lastFailedExecution info + duration info.
Proof.
  intros Hi Hm Hk.
  destruct (backoff_run_ok (NewExponentialBackoff initial max reset key) evs) as (_ & Hok & Hc);
    [done|apply new_backoff_ok|]. destruct Hc as (Hmax & Hini & _).
  destruct (Hok k info Hk) as [Hd Hu]. by rewrite Hmax, Hini in Hd.
Qed.

(** Exponential growth: for a node group with no backoff entry, failures
    that each come after the previous backoff ended are backed off for the
    initial duration doubled each time, capped at the maximum. *)
Theorem backoff_grows_exponentially b g (fails : list (ErrorInfo * Z)) :
  valid_config b → backoff_ok b → backoffInfo b !! nodeGroupKey b g = None →
  after_backoff fails (fail_all b g fails) →
  fail_all b g fails =
  imap (λ i et, et.2 + maxBackoffDuration b `min` (initialBackoffDuration b * 2 ^ Z.of_nat i)) fails.
Proof. apply fail_all_new. Qed.

(** A node group is reported as backed off exactly until the time
    [Backoff] returned, with the error it was given; a failure of one node
    group does not change the status of a group with another key; and cleaning
    up stale data never ends a backoff that still lasts, when the reset timeout
    is at least the maximal duration. *)
Theorem backoff_status_exact b g e t g' t' tc :
  valid_config b → backoff_ok b → maxBackoffDuration b ≤ backoffResetTimeout b → tc ≤ t' →
  let '(b', until) := Backoff b g e t in
  BackoffStatus b' g' t' =
    (if decide (nodeGroupKey b g' = nodeGroupKey b g)
     then if t' <=? until then mkStatus true e else mkStatus false inhabitant
     else BackoffStatus b g' t') ∧
  BackoffStatus (RemoveStaleBackoffData b' tc) g' t' = BackoffStatus b' g' t'.
Proof.
  intros Hv Hok Hreset Htc.
  destruct (Backoff_duration b g e t Hv Hok) as (d & Hd & Hu & Heq & _).
  destruct (backoff_step_ok b (EvBackoff g e t) Hv Hok) as [Hv' Hok'].
  pose proof (backoff_step_config b (EvBackoff g e t)) as (Hmax & Hini & Hres & Hkey).
  cbn [backoff_step fail_all] in *. destruct (Backoff b g e t) as [b' until]. simpl in *. split.
  - unfold BackoffStatus. rewrite Hkey, Heq, lookup_insert, Hu.
    destruct (decide (nodeGroupKey b g' = nodeGroupKey b g)) as [Hk|Hk].
    + rewrite decide_True by done. simpl.
      destruct (Z.ltb_spec (t + d) t'), (Z.leb_spec t' (t + d)); done || lia.
    + by rewrite decide_False.
  - unfold BackoffStatus. rewrite lookup_RemoveStale. cbn [nodeGroupKey RemoveStaleBackoffData set_info].
    destruct (backoffInfo b' !! nodeGroupKey b' g') as [info|] eqn:Hinfo; [|done].
    destruct (Hok' _ _ Hinfo) as [Hdi Hui].
    destruct (Z.ltb_spec (lastFailedExecution info + backoffResetTimeout b') tc); [|done].
    destruct (Z.ltb_spec (backoffUntil info) t'); [done|]. rewrite Hmax in *. lia.
Qed.
End backoff.

(** ** Witnesses: 5 minutes to 30 minutes, reset after 3 hours (the defaults) *)

Definition minute : Z := 60 * 10 ^ 9.
Definition demo_backoff : @exponentialBackoff string unit :=
  NewIdBasedExponentialBackoff (λ g, g) (5 * minute) (30 * minute) (180 * minute).

Lemma demo_backoff_valid : valid_config demo_backoff.
Proof. split; [split|]; vm_compute; done. Qed.

Lemma backoff_durations_bounded_witness :
  5 * minute ≤ 10 * minute ≤ 30 * minute ∧ 17 * minute = 7 * minute + 10 * minute.
Proof.
  apply (backoff_durations_bounded (5 * minute) (30 * minute) (180 * minute) (λ g : string, g)
    [EvBackoff "a"%string tt 0; EvBackoff "a"%string tt (7 * minute)] "a"
    (mkInfo (10 * minute) (17 * minute) (7 * minute) tt)).
  - split; vm_compute; done.
  - vm_compute; done.
  - vm_compute; reflexivity.
Defined.

Lemma backoff_grows_exponentially_witness :
  fail_all demo_backoff "a"%string
    [(tt, 0); (tt, 6 * minute); (tt, 20 * minute); (tt, 60 * minute); (tt, 100 * minute)] =
  [5 * minute; 16 * minute; 40 * minute; 90 * minute; 130 * minute].
Proof.
  apply (backoff_grows_exponentially demo_backoff "a"%string).
  - apply demo_backoff_valid.
  - apply new_backoff_ok.
  - reflexivity.
  - vm_compute. repeat split; done.
Defined.

Lemma backoff_status_exact_witness :
  BackoffStatus (Backoff demo_backoff "a"%string tt 0).1 "a"%string (5 * minute) = mkStatus true tt ∧
  BackoffStatus (RemoveStaleBackoffData (Backoff demo_backoff "a"%string tt 0).1 minute)
    "a"%string (5 * minute) = mkStatus true tt.
Proof.
  destruct (backoff_status_exact demo_backoff "a"%string tt 0 "a"%string (5 * minute) minute)
    as [H1 H2].
  - apply demo_backoff_valid.
  - apply new_backoff_ok.
  - vm_compute; done.
  - vm_compute; done.
  - split; [exact H1|]. etransitivity; [exact H2|exact H1].
Defined.
