(* ===== verification/Budgets.v ===== *)
(** Scale-down budgets (src/pkg/core/scaledown/budgets/budgets.go): how many
    nodes one loop may start deleting, and which. *)
From stdpp Require Import prelude gmap strings list numbers fin_maps.
From S2P Require Import Prelude Float64 Api.
Local Open Scope Z_scope.
Local Open Scope ca_scope.

(** [NodeGroupView]: nodes of one group that are deleted together. *)
Record NodeGroupView : Type := mkView {
  Group : NodeGroup;
  ViewNodes : list Node;
  BatchSize : Z
}.

Definition NodeUpcomingAnnotation : string := "cluster-autoscaler.k8s.io/upcoming-node".

(** The number of nodes of a view, Go's [len(bucket.Nodes)]. *)
Definition view_len (v : NodeGroupView) : Z := ⟪ ViewNodes v ⟫.

(** What the processor reads from the autoscaling context. *)
Record BudgetContext : Type := mkBudgetContext {
  MaxScaleDownParallelism : Z;
  MaxDrainParallelism : Z;
  NodeGroupDefaults : NodeGroupAutoscalingOptions;
  NodeGroupForNode : Node → result cp_error (option NodeGroup);
  ListNodes : result cp_error (list Node)
}.

Section budgets.
Context (ctx : BudgetContext).

Definition groupBuckets (buckets : list NodeGroupView) : gmap string NodeGroupView :=
  foldl (λ grouped bucket, <[Id (Group bucket) := bucket]> grouped) ∅ buckets.

Definition crop_step (st : list NodeGroupView * Z) (bucket : NodeGroupView)
    : option (list NodeGroupView * Z) :=
  let '(toDelete, remainingBudget) := st in
  if remainingBudget <? 1 then None
  else
    let bucket :=
      if remainingBudget <? view_len bucket
      then mkView (Group bucket) (take (Z.to_nat remainingBudget) (ViewNodes bucket))
             (BatchSize bucket)
      else bucket in
    Some (toDelete ++ [bucket], remainingBudget - view_len bucket).

Definition cropIndividualNodes (toDelete groups : list NodeGroupView) (budget : Z)
    : list NodeGroupView * Z :=
  let '(toDelete, remainingBudget) := loop_break crop_step groups (toDelete, budget) in
  (toDelete, budget - remainingBudget).

Definition group_step (st : gmap string nat * list NodeGroupView) (node : Node)
    : gmap string nat * list NodeGroupView :=
  let '(groupMap, grouped) := st in
  match NodeGroupForNode ctx node with
  | Err _ | Ok None => (groupMap, grouped)
  | Ok (Some nodeGroup) =>
      match groupMap !! Id nodeGroup with
      | Some idx =>
          (groupMap,
           alter (λ v, mkView (Group v) (ViewNodes v ++ [node]) (BatchSize v)) idx grouped)
      | None =>
          (<[Id nodeGroup := length grouped]> groupMap,
           grouped ++ [mkView nodeGroup [node] 0])
      end
  end.

Definition group (nodes : list Node) : list NodeGroupView :=
  (foldl group_step (∅, []) nodes).2.

(** [None]: the group's options cannot be read and the group is skipped. *)
Definition is_atomic (g : NodeGroup) : option bool :=
  match GetOptions g (NodeGroupDefaults ctx) with
  | (_, Some (OtherError _)) => None
  | (Some o, _) => Some (ZeroOrMaxNodeScaling o)
  | (None, _) => Some false
  end.

Definition categorize (groups : list NodeGroupView)
    : list NodeGroupView * list NodeGroupView :=
  foldl (λ '(individual, atomic) view,
    match is_atomic (Group view) with
    | None => (individual, atomic)
    | Some true => (individual, atomic ++ [view])
    | Some false => (individual ++ [view], atomic)
    end) ([], []) groups.

(** [allNodes]: the list is nil when the snapshot cannot be listed. *)
Definition allNodes : list Node :=
  match ListNodes ctx with Ok nodes => nodes | Err _ => [] end.

Definition is_upcoming (node : Node) : bool :=
  match Annotations node !! NodeUpcomingAnnotation with
  | Some val => match ParseBool val with Some true => true | _ => false end
  | None => false
  end.

Definition getAllRegisteredNodesForNodeGroup (nodes : list Node) (nodeGroup : NodeGroup)
    : result cp_error (list Node) :=
  match Nodes nodeGroup with
  | Err e => Err e
  | Ok instances =>
      let nodeByNodeName : gset string := foldl (λ s i, {[i]} ∪ s) ∅ instances in
      Ok (foldl (λ registered node,
        if is_upcoming node then registered
        else if decide (ProviderID node ∈ nodeByNodeName) then registered ++ [node]
        else registered) [] nodes)
  end.

(** [currentSize]: the error is logged and the nil list has length 0. *)
Definition currentSize (g : NodeGroup) : Z :=
  match getAllRegisteredNodesForNodeGroup allNodes g with
  | Ok l => ⟪ l ⟫
  | Err _ => 0
  end.

(** The variables the two loops over atomic groups update. *)
Record CropState : Type := mkCrop {
  emptyToDelete : list NodeGroupView;
  drainToDelete : list NodeGroupView;
  parallelismBudget : Z;
  drainBudget : Z;
  canOverflow : bool
}.

Definition batch_size (bucket : NodeGroupView) (targetSize : Z) : Z :=
  if view_len bucket =? currentSize (Group bucket)
  then currentSize (Group bucket) else targetSize.

Definition with_batch (v : NodeGroupView) (n : Z) : NodeGroupView :=
  mkView (Group v) (ViewNodes v) n.

(** One iteration of the loop over the atomic groups with empty nodes. *)
Definition emptyAtomic_step (drainAtomicMap : gmap string NodeGroupView)
    (st : CropState) (bucket : NodeGroupView) : option CropState :=
  let drainBucket := drainAtomicMap !! Id (Group bucket) in
  let drainNodes := match drainBucket with Some d => ViewNodes d | None => [] end in
  let nd := ⟪ drainNodes ⟫ in
  let n := view_len bucket + nd in
  if ((parallelismBudget st <? n) || (drainBudget st <? nd)) &&
     ((parallelismBudget st =? 0) || ((0 <? nd) && (drainBudget st =? 0)) || negb (canOverflow st))
  then None
  else match TargetSize (Group bucket) with
  | Err _ => Some st
  | Ok targetSize =>
      if negb (n =? targetSize) && negb (n =? currentSize (Group bucket)) then Some st
      else
        let bs := batch_size bucket targetSize in
        Some (mkCrop (emptyToDelete st ++ [with_batch bucket bs])
          (match drainBucket with
           | Some d => drainToDelete st ++ [with_batch d bs]
           | None => drainToDelete st
           end)
          (parallelismBudget st - n) (drainBudget st - nd) false)
  end.

(** One iteration of the loop over the atomic groups with nodes to drain. *)
Definition drainAtomic_step (emptyAtomicMap : gmap string NodeGroupView)
    (st : CropState) (bucket : NodeGroupView) : option CropState :=
  match emptyAtomicMap !! Id (Group bucket) with
  | Some _ => Some st
  | None =>
      if (drainBudget st <? view_len bucket) && ((drainBudget st =? 0) || negb (canOverflow st))
      then None
      else match TargetSize (Group bucket) with
      | Err _ => Some st
      | Ok targetSize =>
          if negb (view_len bucket =? targetSize) &&
             negb (view_len bucket =? currentSize (Group bucket)) then Some st
          else
            Some (mkCrop (emptyToDelete st)
              (drainToDelete st ++ [with_batch bucket (batch_size bucket targetSize)])
              (parallelismBudget st - view_len bucket) (drainBudget st - view_len bucket) false)
      end
  end.

(** [CropNodes]; [emptyInProgress] and [drainInProgress] are what
    [as.DeletionsInProgress] answers. *)
Definition CropNodes (emptyInProgress drainInProgress : list string) (empty drain : list Node)
    : list NodeGroupView * list NodeGroupView :=
  let '(emptyIndividual, emptyAtomic) := categorize (group empty) in
  let '(drainIndividual, drainAtomic) := categorize (group drain) in
  let emptyAtomicMap := groupBuckets emptyAtomic in
  let drainAtomicMap := groupBuckets drainAtomic in
  let pb := MaxScaleDownParallelism ctx - ⟪ emptyInProgress ⟫
            - ⟪ drainInProgress ⟫ in
  let db := MaxDrainParallelism ctx - ⟪ drainInProgress ⟫ in
  let st1 := loop_break (emptyAtomic_step drainAtomicMap) emptyAtomic
               (mkCrop [] [] pb db true) in
  let st2 := loop_break (drainAtomic_step emptyAtomicMap) drainAtomic
               (mkCrop (emptyToDelete st1) (drainToDelete st1) (parallelismBudget st1)
                  (parallelismBudget st1 `min` drainBudget st1) (canOverflow st1)) in
  let '(emptyRes, allowedCount) :=
    cropIndividualNodes (emptyToDelete st2) emptyIndividual (parallelismBudget st2) in
  let pb' := parallelismBudget st2 - allowedCount in
  let '(drainRes, _) :=
    cropIndividualNodes (drainToDelete st2) drainIndividual (pb' `min` drainBudget st2) in
  (emptyRes, drainRes).

End budgets.

Section budget_proofs.
Context (ctx : BudgetContext).

(** ** Grouping *)

Definition group_of (node : Node) : option NodeGroup :=
  match NodeGroupForNode ctx node with Ok (Some g) => Some g | _ => None end.

(** The candidates among [nodes] that belong to the group called [id]. *)
Definition candidates (nodes : list Node) (id : string) : list Node :=
  filter (λ n, Id <$> group_of n = Some id) nodes.

Lemma candidates_snoc nodes n id :
  candidates (nodes ++ [n]) id =
  candidates nodes id ++ (if decide (Id <$> group_of n = Some id) then [n] else []).
Proof. unfold candidates. by rewrite filter_app, filter_cons, filter_nil. Qed.

Definition view_id (v : NodeGroupView) : string := Id (Group v).

(** A view of [group nodes]: all the candidates of its group, at least one. *)
Definition full_view (nodes : list Node) (v : NodeGroupView) : Prop :=
  ViewNodes v = candidates nodes (view_id v) ∧
  ∃ n, n ∈ nodes ∧ group_of n = Some (Group v).

Record grouped_ok (nodes : list Node) (st : gmap string nat * list NodeGroupView) : Prop := {
  go_index : ∀ id i, st.1 !! id = Some i ↔ ∃ v, st.2 !! i = Some v ∧ view_id v = id;
  go_full : ∀ v, v ∈ st.2 → full_view nodes v;
  go_all : ∀ n g, n ∈ nodes → group_of n = Some g → is_Some (st.1 !! Id g)
}.

Lemma group_step_ok nodes st n :
  grouped_ok nodes st → grouped_ok (nodes ++ [n]) (group_step ctx st n).
Proof.
  destruct st as [m l]. intros [Hidx Hfull Hall]. simpl in Hidx, Hfull, Hall.
  assert (group_step ctx (m, l) n = match group_of n with
    | None => (m, l)
    | Some g => match m !! Id g with
      | Some idx => (m, alter (λ v, mkView (Group v) (ViewNodes v ++ [n]) (BatchSize v)) idx l)
      | None => (<[Id g := length l]> m, l ++ [mkView g [n] 0])
      end end) as ->.
  { unfold group_step, group_of. by destruct (NodeGroupForNode ctx n) as [[g|]|]. }
  assert (∀ v, full_view nodes v → Id <$> group_of n ≠ Some (view_id v) →
    full_view (nodes ++ [n]) v) as Hkeep.
  { intros v [Hv (n' & Hn' & Hg')] Hne. split.
    - rewrite candidates_snoc, decide_False, app_nil_r by done. done.
    - exists n'. set_solver. }
  destruct (group_of n) as [g|] eqn:Hg; simpl in *.
  2:{ split; simpl; [done| |].
      - intros v Hv. by apply Hkeep; [apply Hfull|].
      - intros n' g' [Hn'| ->%list_elem_of_singleton]%elem_of_app Hg'; [by eapply Hall|congruence]. }
  destruct (m !! Id g) as [idx|] eqn:Hm.
  - pose proof (proj1 (Hidx _ _) Hm) as (v0 & Hv0 & Hid0). split; simpl.
    + intros id i. rewrite Hidx. split.
      * intros (v & Hv & <-). destruct (decide (i = idx)) as [->|].
        { eexists. by rewrite list_lookup_alter_eq, Hv. }
        exists v. by rewrite list_lookup_alter_ne.
      * intros (v & Hv & <-). destruct (decide (i = idx)) as [->|].
        { rewrite list_lookup_alter_eq, Hv0 in Hv. simplify_eq/=. by exists v0. }
        rewrite list_lookup_alter_ne in Hv by done. by exists v.
    + intros v (i & Hv)%list_elem_of_lookup. destruct (decide (i = idx)) as [->|].
      * rewrite list_lookup_alter_eq, Hv0 in Hv. simplify_eq/=.
        destruct (Hfull v0) as [Hn (n' & ? & ?)]; [by eapply list_elem_of_lookup_2|]. split; simpl.
        { rewrite candidates_snoc, decide_True by (rewrite Hg; simpl; by f_equal).
          by rewrite Hn. }
        exists n'. set_solver.
      * rewrite list_lookup_alter_ne in Hv by done.
        apply Hkeep; [by eapply Hfull, list_elem_of_lookup_2|].
        intros [= Hid]. assert (m !! Id g = Some i) by (apply Hidx; eauto). congruence.
    + intros n' g' [Hn'| ->%list_elem_of_singleton]%elem_of_app Hg'; [by eapply Hall|].
      rewrite Hg in Hg'. by simplify_eq.
  - split; simpl.
    + intros id i. rewrite lookup_insert_Some, Hidx. split.
      * intros [[<- <-]|[Hne (v & Hv & <-)]].
        { exists (mkView g [n] 0). by rewrite list_lookup_middle. }
        exists v. split; [by apply lookup_app_l_Some|done].
      * intros (v & [Hv|[Hlen Hv]]%lookup_app_Some & <-).
        { right. split; [|eauto]. intros Heq. assert (m !! Id g = Some i) by (apply Hidx; eauto).
          congruence. }
        left. apply list_lookup_singleton_Some in Hv as [? <-]. split; [done|lia].
    + intros v [Hv| ->%list_elem_of_singleton]%elem_of_app.
      * apply Hkeep; [by apply Hfull|]. intros [= Hid].
        apply list_elem_of_lookup in Hv as [i Hi].
        assert (m !! Id g = Some i) by (apply Hidx; eauto). congruence.
      * split; simpl.
        { rewrite candidates_snoc. rewrite Hg, decide_True by done.
          cut (candidates nodes (Id g) = []); [by unfold view_id; simpl; intros ->|].
          destruct (candidates nodes (Id g)) as [|n' l'] eqn:Hc; [done|].
          assert (n' ∈ candidates nodes (Id g)) as [Hi Hn']%list_elem_of_filter
            by (rewrite Hc; left).
          apply fmap_Some in Hi as (g' & Hg' & Hid).
          destruct (Hall n' g' Hn' Hg') as [? ?]. congruence. }
        exists n. set_solver.
    + intros n' g' [Hn'| ->%list_elem_of_singleton]%elem_of_app Hg'.
      * rewrite lookup_insert_is_Some. destruct (decide (Id g = Id g')); [by left|].
        right. split; [done|]. by eapply Hall.
      * rewrite Hg in Hg'. simplify_eq. by rewrite lookup_insert_eq.
Qed.

Lemma group_ok nodes : grouped_ok nodes (foldl (group_step ctx) (∅, []) nodes).
Proof.
  induction nodes as [|n nodes IH] using rev_ind.
  - split; simpl; [|set_solver..]. intros id i. rewrite lookup_empty. naive_solver.
  - rewrite foldl_app. by apply group_step_ok.
Qed.

Lemma NoDup_group_ids nodes : NoDup (view_id <$> group ctx nodes).
Proof.
  destruct (group_ok nodes) as [Hidx _ _]. apply NoDup_alt. intros i j id Hi Hj.
  rewrite list_lookup_fmap in Hi, Hj.
  apply fmap_Some in Hi as (v & Hv & ->). apply fmap_Some in Hj as (w & Hw & Hid).
  assert (∀ k u, group ctx nodes !! k = Some u → view_id u = view_id v →
    (foldl (group_step ctx) (∅, []) nodes).1 !! view_id v = Some k) as H
    by (intros; apply Hidx; eauto).
  pose proof (H _ _ Hv eq_refl). pose proof (H _ _ Hw (eq_sym Hid)). congruence.
Qed.

Lemma group_full nodes v : v ∈ group ctx nodes → full_view nodes v.
Proof. apply (go_full _ _ (group_ok nodes)). Qed.

Lemma group_all nodes n g :
  n ∈ nodes → group_of n = Some g → ∃ v, v ∈ group ctx nodes ∧ view_id v = Id g.
Proof.
  destruct (group_ok nodes) as [Hidx _ Hall]. intros Hn Hg.
  destruct (Hall n g Hn Hg) as [i Hi]. apply Hidx in Hi as (v & Hv & Hid).
  exists v. split; [by eapply list_elem_of_lookup_2|done].
Qed.

Lemma full_view_pos nodes v : full_view nodes v → 0 < view_len v.
Proof.
  intros [Hv (n & Hn & Hg)]. unfold view_len.
  assert (n ∈ ViewNodes v) as Hin.
  { rewrite Hv. apply list_elem_of_filter. by rewrite Hg. }
  destruct (ViewNodes v); [set_solver|]. simpl. lia.
Qed.


Lemma categorize_spec groups :
  categorize ctx groups =
  (filter (λ v, is_atomic ctx (Group v) = Some false) groups,
   filter (λ v, is_atomic ctx (Group v) = Some true) groups).
Proof.
  unfold categorize. induction groups as [|v groups IH] using rev_ind; [done|].
  rewrite foldl_app, IH, !filter_app, !filter_cons, !filter_nil. simpl.
  destruct (is_atomic ctx (Group v)) as [[]|]; simpl; by rewrite ?app_nil_r.
Qed.

Lemma groupBuckets_lookup buckets id v :
  groupBuckets buckets !! id = Some v → v ∈ buckets ∧ view_id v = id.
Proof.
  unfold groupBuckets. induction buckets as [|w buckets IH] using rev_ind; [done|].
  rewrite foldl_app. simpl. intros [[<- <-]|[_ H]]%lookup_insert_Some; [set_solver|].
  apply IH in H. set_solver.
Qed.

Lemma groupBuckets_is_Some buckets v :
  v ∈ buckets → is_Some (groupBuckets buckets !! view_id v).
Proof.
  unfold groupBuckets. induction buckets as [|w buckets IH] using rev_ind; [set_solver|].
  rewrite foldl_app. simpl. rewrite lookup_insert_is_Some'.
  intros [H| ->%list_elem_of_singleton]%elem_of_app; [by right; apply IH|by left].
Qed.

(** ** Budgets *)

Definition total (views : list NodeGroupView) : Z :=
  foldr (λ v n, view_len v + n) 0 views.

Lemma total_app l k : total (l ++ k) = total l + total k.
Proof. induction l as [|v l IH]; simpl; lia. Qed.

Lemma view_len_nonneg v : 0 ≤ view_len v.
Proof. unfold view_len. lia. Qed.

Lemma total_nonneg l : 0 ≤ total l.
Proof. induction l as [|v l IH]; simpl; [lia|]. pose proof (view_len_nonneg v). lia. Qed.

(** All of [views] belong to one atomic group. *)
Definition one_atomic (views : list NodeGroupView) : Prop :=
  ∃ g, is_atomic ctx g = Some true ∧ ∀ v, v ∈ views → view_id v = Id g.

Definition all_atomic (views : list NodeGroupView) : Prop :=
  ∀ v, v ∈ views → is_atomic ctx (Group v) = Some true.

Record budget_inv (pb0 db0 : Z) (st : CropState) : Prop := {
  bi_par : parallelismBudget st = pb0 - total (emptyToDelete st) - total (drainToDelete st);
  bi_drain : drainBudget st ≤ db0 - total (drainToDelete st);
  bi_first : canOverflow st = true → emptyToDelete st = [] ∧ drainToDelete st = [];
  bi_rest : canOverflow st = false →
    (0 ≤ parallelismBudget st ∨ one_atomic (emptyToDelete st ++ drainToDelete st)) ∧
    (0 ≤ db0 - total (drainToDelete st) ∨ one_atomic (drainToDelete st))
}.

Lemma emptyAtomic_step_budget pb0 db0 dm st st' v :
  (∀ d, dm !! view_id v = Some d → view_id d = view_id v) →
  is_atomic ctx (Group v) = Some true →
  budget_inv pb0 db0 st → emptyAtomic_step ctx dm st v = Some st' → budget_inv pb0 db0 st'.
Proof.
  intros Hdm Hat [Hp Hd Hf Hr]. unfold emptyAtomic_step. fold (view_id v). cbv zeta.
  set (dv := dm !! view_id v) in *.
  set (nd := ⟪ match dv with Some d => ViewNodes d | None => [] end ⟫).
  case_match eqn:Hguard; [done|].
  destruct (TargetSize (Group v)) as [ts|]; [|by intros [= <-]].
  case_match; intros [= <-]; [done|]. simpl.
  assert (total (match dv with
    | Some d => drainToDelete st ++ [with_batch d (batch_size ctx v ts)]
    | None => drainToDelete st end) = total (drainToDelete st) + nd) as Htot.
  { unfold nd. destruct dv; [rewrite total_app|]; simpl; unfold view_len; simpl; lia. }
  split; simpl; [rewrite total_app, Htot; simpl; unfold view_len; simpl; lia
    |rewrite Htot; lia|done|]. intros _. rewrite Htot.
  destruct (canOverflow st) eqn:Hco.
  - destruct (Hf eq_refl) as [-> ->]. simpl.
    assert (one_atomic (with_batch v (batch_size ctx v ts) ::
      match dv with Some d => [with_batch d (batch_size ctx v ts)] | None => [] end)) as Hone.
    { exists (Group v). split; [done|]. intros w [->|Hw]%elem_of_cons; [done|].
      destruct dv as [d|]; [|set_solver].
      apply list_elem_of_singleton in Hw as ->. unfold view_id at 1; simpl; by apply Hdm. }
    split; right; [done|]. destruct Hone as (g & Hg & Hall). exists g.
    split; [done|]. intros w Hw. apply Hall. by right.
  - apply andb_false_iff in Hguard as [[Hg1 Hg2]%orb_false_iff|Hg];
      [|by rewrite orb_true_r in Hg].
    split; left; lia.
Qed.

Lemma drainAtomic_step_budget pb0 db0 em st st' v :
  is_atomic ctx (Group v) = Some true →
  budget_inv pb0 db0 st ∧ drainBudget st ≤ parallelismBudget st →
  drainAtomic_step ctx em st v = Some st' →
  budget_inv pb0 db0 st' ∧ drainBudget st' ≤ parallelismBudget st'.
Proof.
  intros Hat [[Hp Hd Hf Hr] Hle]. unfold drainAtomic_step.
  case_match; [by intros [= <-]|].
  case_match eqn:Hguard; [done|].
  destruct (TargetSize (Group v)) as [ts|]; [|by intros [= <-]].
  case_match; intros [= <-]; [done|]. simpl.
  assert (total (drainToDelete st ++ [with_batch v (batch_size ctx v ts)]) =
    total (drainToDelete st) + view_len v) as Htot
    by (rewrite total_app; simpl; unfold view_len; simpl; lia).
  split; [|lia]. split; simpl; [rewrite Htot; lia|rewrite Htot; lia|done|]. intros _.
  destruct (canOverflow st) eqn:Hco.
  - destruct (Hf eq_refl) as [-> ->]. simpl.
    split; right; (exists (Group v); split; [done|]); set_solver.
  - rewrite Htot. apply andb_false_iff in Hguard as [Hg|Hg]; [|by rewrite orb_true_r in Hg].
    split; left; lia.
Qed.

(** ** Individual nodes *)

(** A cropped view of [w]. *)
Definition cropped (v w : NodeGroupView) : Prop :=
  Group v = Group w ∧ ViewNodes v `prefix_of` ViewNodes w.

Lemma crop_loop_spec groups toDelete budget :
  (∀ w, w ∈ groups → 0 < view_len w) →
  ∃ added rem,
    loop_break crop_step groups (toDelete, budget) = (toDelete ++ added, rem) ∧
    (∃ kept, kept `prefix_of` groups ∧ Forall2 cropped added kept) ∧
    total added = (0 `max` budget) `min` total groups ∧ rem = budget - total added ∧
    (budget ≤ 0 → added = []).
Proof.
  revert toDelete budget. induction groups as [|w groups IH]; intros toDelete budget Hpos; simpl.
  { exists [], budget. rewrite app_nil_r. split_and!; simpl; [done|by exists []|lia|lia|done]. }
  pose proof (Hpos w ltac:(left)). pose proof (total_nonneg groups).
  destruct (budget <? 1) eqn:Hb.
  { exists [], budget. rewrite app_nil_r.
    split_and!; simpl; [done|exists []; split; [apply prefix_nil|done]|lia|lia|done]. }
  set (w' := if budget <? view_len w then _ else w).
  assert (cropped w' w ∧ view_len w' = budget `min` view_len w) as [Hcr Hlen].
  { unfold w'. destruct (budget <? view_len w) eqn:Hlt; [|split; [done|lia]].
    split; [split; [done|apply prefix_take]|].
    unfold view_len in *. simpl. rewrite length_take. lia. }
  destruct (IH (toDelete ++ [w']) (budget - view_len w'))
    as (added & rem & -> & (kept & Hkept & Hall) & Htot & -> & Hno).
  { intros; apply Hpos; by right. }
  exists (w' :: added), (budget - view_len w' - total added).
  split_and!; simpl; [by rewrite <- app_assoc| |lia|lia|lia].
  exists (w :: kept). split; [by apply prefix_cons|by constructor].
Qed.


(** ** The whole routine *)

Definition individual_views (nodes : list Node) : list NodeGroupView :=
  filter (λ v, is_atomic ctx (Group v) = Some false) (group ctx nodes).
Definition atomic_views (nodes : list Node) : list NodeGroupView :=
  filter (λ v, is_atomic ctx (Group v) = Some true) (group ctx nodes).

Lemma view_pos nodes v : v ∈ group ctx nodes → 0 < view_len v.
Proof. intros H. by eapply full_view_pos, group_full. Qed.

Section crop.
Context (eip dip : list string) (empty drain : list Node).

(** The budgets at the start of the routine. *)
Definition start_parallelism : Z :=
  MaxScaleDownParallelism ctx - ⟪ eip ⟫ - ⟪ dip ⟫.
Definition start_drain : Z := MaxDrainParallelism ctx - ⟪ dip ⟫.

(** The state after the loop over empty atomic groups, and after the loop over
    atomic groups to drain. *)
Definition after_empty : CropState :=
  loop_break (emptyAtomic_step ctx (groupBuckets (atomic_views drain))) (atomic_views empty)
    (mkCrop [] [] start_parallelism start_drain true).
Definition after_atomic : CropState :=
  loop_break (drainAtomic_step ctx (groupBuckets (atomic_views empty))) (atomic_views drain)
    (mkCrop (emptyToDelete after_empty) (drainToDelete after_empty)
       (parallelismBudget after_empty)
       (parallelismBudget after_empty `min` drainBudget after_empty) (canOverflow after_empty)).

Lemma CropNodes_shape :
  ∃ EI DI,
    CropNodes ctx eip dip empty drain =
      (emptyToDelete after_atomic ++ EI, drainToDelete after_atomic ++ DI) ∧
    (∃ kept, kept `prefix_of` individual_views empty ∧ Forall2 cropped EI kept) ∧
    (∃ kept, kept `prefix_of` individual_views drain ∧ Forall2 cropped DI kept) ∧
    total EI = (0 `max` parallelismBudget after_atomic) `min` total (individual_views empty) ∧
    total DI = (0 `max` ((parallelismBudget after_atomic - total EI)
                          `min` drainBudget after_atomic))
                 `min` total (individual_views drain) ∧
    (parallelismBudget after_atomic ≤ 0 → EI = []) ∧
    ((parallelismBudget after_atomic - total EI) `min` drainBudget after_atomic ≤ 0 → DI = []).
Proof.
  unfold CropNodes. rewrite !categorize_spec. cbv zeta beta iota.
  fold (individual_views empty) (atomic_views empty) (individual_views drain) (atomic_views drain).
  fold start_parallelism start_drain after_empty after_atomic. unfold cropIndividualNodes.
  destruct (crop_loop_spec (individual_views empty) (emptyToDelete after_atomic)
    (parallelismBudget after_atomic)) as (EI & rE & -> & HE & HtE & -> & HnE).
  { intros w [_ Hw]%list_elem_of_filter. by eapply view_pos. }
  replace (parallelismBudget after_atomic - (parallelismBudget after_atomic -
    (parallelismBudget after_atomic - total EI)))
    with (parallelismBudget after_atomic - total EI) by lia.
  destruct (crop_loop_spec (individual_views drain) (drainToDelete after_atomic)
    ((parallelismBudget after_atomic - total EI) `min` drainBudget after_atomic))
    as (DI & rD & -> & HD & HtD & -> & HnD).
  { intros w [_ Hw]%list_elem_of_filter. by eapply view_pos. }
  by exists EI, DI.
Qed.

Lemma after_empty_budget : budget_inv start_parallelism start_drain after_empty.
Proof.
  unfold after_empty. apply loop_break_inv.
  { split; simpl; [lia|lia|done|done]. }
  intros s s' v [Hat _]%list_elem_of_filter. apply emptyAtomic_step_budget; [|done].
  intros d Hd. by apply groupBuckets_lookup in Hd as [_ Hd].
Qed.

Lemma after_atomic_budget :
  budget_inv start_parallelism start_drain after_atomic ∧
  drainBudget after_atomic ≤ parallelismBudget after_atomic.
Proof.
  unfold after_atomic. apply loop_break_inv.
  { destruct after_empty_budget as [Hp Hd Hf Hr]. split; [split|]; simpl; [done|lia|done|done|lia]. }
  intros s s' v [Hat _]%list_elem_of_filter. by apply drainAtomic_step_budget.
Qed.

(** The budget statement both theorems below read. *)
Lemma CropNodes_budget E D :
  CropNodes ctx eip dip empty drain = (E, D) →
  (total E + total D ≤ 0 `max` start_parallelism ∨ one_atomic (E ++ D)) ∧
  (total D ≤ 0 `max` start_drain ∨ one_atomic D).
Proof.
  intros HC. destruct CropNodes_shape as (EI & DI & HC' & _ & _ & HtE & HtD & HnE & HnD).
  rewrite HC in HC'. injection HC' as -> ->.
  destruct after_atomic_budget as [[Hp Hd Hf Hr] Hle].
  set (st := after_atomic) in *. rewrite !total_app.
  pose proof (total_nonneg (individual_views empty)).
  pose proof (total_nonneg (individual_views drain)).
  pose proof (total_nonneg (emptyToDelete st)). pose proof (total_nonneg (drainToDelete st)).
  assert (parallelismBudget st ≤ 0 → EI = [] ∧ DI = []) as Hnone.
  { intros. split; [by apply HnE|]. apply HnD. lia. }
  destruct (canOverflow st) eqn:Hco.
  { destruct (Hf eq_refl) as [HE HD]. rewrite HE, HD in *. simpl in *. split; left; lia. }
  destruct (Hr eq_refl) as [Hr1 Hr2]. split.
  - destruct (decide (parallelismBudget st ≤ 0)) as [Hz|Hz]; [|left; lia].
    destruct (Hnone Hz) as [-> ->]. simpl. rewrite !app_nil_r.
    destruct Hr1 as [Hr1|Hr1]; [left; lia|by right].
  - destruct (decide ((parallelismBudget st - total EI) `min` drainBudget st ≤ 0)) as [Hz|Hz];
      [|left; lia].
    rewrite HnD, app_nil_r by done. simpl. destruct Hr2 as [Hr2|Hr2]; [left; lia|by right].
Qed.
End crop.

(** C8. One call of CropNodes respects both budgets. The nodes it returns fit in
    what the parallelism limit leaves over the deletions in progress, and
    the nodes to drain fit in what the drain limit leaves, except that one
    atomic group may exceed a budget, and then nothing else is returned with
    it (nothing else to drain, where only the drain budget is exceeded). *)
Theorem crop_respects_budgets eip dip empty drain E D :
  CropNodes ctx eip dip empty drain = (E, D) →
  (total E + total D ≤ 0 `max` (MaxScaleDownParallelism ctx
      - ⟪ eip ⟫ - ⟪ dip ⟫) ∨ one_atomic (E ++ D)) ∧
  (total D ≤ 0 `max` (MaxDrainParallelism ctx - ⟪ dip ⟫) ∨ one_atomic D).
Proof. apply CropNodes_budget. Qed.


(** ** Which nodes are selected *)

(** The nodes of the group called [id] among [views]. *)
Definition nodes_in (id : string) (views : list NodeGroupView) : list Node :=
  concat (ViewNodes <$> filter (λ v, view_id v = id) views).

Lemma nodes_in_app id l k : nodes_in id (l ++ k) = nodes_in id l ++ nodes_in id k.
Proof. unfold nodes_in. by rewrite filter_app, fmap_app, concat_app. Qed.

Lemma nodes_in_single id v :
  nodes_in id [v] = if decide (view_id v = id) then ViewNodes v else [].
Proof. unfold nodes_in. rewrite filter_cons. case_decide; [apply app_nil_r|done]. Qed.

Lemma nodes_in_with_batch nodes id v n :
  ViewNodes v = candidates nodes (view_id v) →
  nodes_in id [with_batch v n] = if decide (view_id v = id) then candidates nodes id else [].
Proof.
  intros Hv. rewrite nodes_in_single. change (view_id (with_batch v n)) with (view_id v).
  case_decide as Hid; [|done]. by rewrite <- Hid.
Qed.

Lemma nodes_in_nil id l : (∀ v, v ∈ l → view_id v ≠ id) → nodes_in id l = [].
Proof.
  induction l as [|v l IH]; intros Hl; [done|].
  change (v :: l) with ([v] ++ l).
  rewrite nodes_in_app, nodes_in_single, decide_False, IH by set_solver. done.
Qed.

Lemma nodes_in_nil_inv id l v :
  nodes_in id l = [] → v ∈ l → view_id v = id → ViewNodes v = [].
Proof.
  intros Hl (l1 & l2 & ->)%list_elem_of_split Hid.
  change (v :: l2) with ([v] ++ l2) in Hl. rewrite !nodes_in_app, nodes_in_single, decide_True in Hl by done.
  by apply app_nil in Hl as [_ [? _]%app_nil].
Qed.

(** A group is determined by its identifier. *)
Definition ids_determine_groups : Prop :=
  ∀ n1 n2 g1 g2, group_of n1 = Some g1 → group_of n2 = Some g2 → Id g1 = Id g2 → g1 = g2.

(** Every node of the atomic group called [id] is selected, and together they
    are the whole group. *)
Definition whole_group (empty drain : list Node) (E D : list NodeGroupView) (g : NodeGroup) : Prop :=
  nodes_in (Id g) E = candidates empty (Id g) ∧ nodes_in (Id g) D = candidates drain (Id g) ∧
  let n := Z.of_nat (length (candidates empty (Id g)) + length (candidates drain (Id g))) in
  TargetSize g = Ok n ∨ currentSize ctx g = n.

Definition none_or_whole (empty drain : list Node) (visited : list string) (st : CropState) : Prop :=
  ∀ id, (nodes_in id (emptyToDelete st) = [] ∧ nodes_in id (drainToDelete st) = []) ∨
    (id ∈ visited ∧ ∃ n g, group_of n = Some g ∧ Id g = id ∧
       whole_group empty drain (emptyToDelete st) (drainToDelete st) g).

(** The views selected by the atomic loops are views of the candidates. *)
Definition taken_from (views taken : list NodeGroupView) : Prop :=
  ∀ v, v ∈ taken → ∃ w, w ∈ views ∧ Group v = Group w ∧ ViewNodes v = ViewNodes w.

Lemma taken_from_snoc views taken v n :
  taken_from views taken → v ∈ views → taken_from views (taken ++ [with_batch v n]).
Proof.
  intros Ht Hv w [Hw| ->%list_elem_of_singleton]%elem_of_app; [by apply Ht|by exists v].
Qed.

Lemma atomic_view_full nodes v :
  v ∈ atomic_views nodes → is_atomic ctx (Group v) = Some true ∧ full_view nodes v.
Proof. intros [? ?%group_full]%list_elem_of_filter. done. Qed.

Lemma individual_view_full nodes v :
  v ∈ individual_views nodes → is_atomic ctx (Group v) = Some false ∧ full_view nodes v.
Proof. intros [? ?%group_full]%list_elem_of_filter. done. Qed.

Lemma NoDup_atomic_views nodes : NoDup (view_id <$> atomic_views nodes).
Proof.
  eapply sublist_NoDup; [apply (NoDup_group_ids nodes)|].
  apply fmap_sublist, sublist_filter.
Qed.

Lemma not_visited (l1 l2 : list NodeGroupView) v :
  NoDup (view_id <$> l1 ++ v :: l2) → view_id v ∉ view_id <$> l1.
Proof. rewrite fmap_app, fmap_cons, NoDup_app. intros (_ & H & _) Hin. eapply H; [done|left]. Qed.

Lemma cropped_nodes_in nodes id taken kept :
  Forall2 cropped taken kept → NoDup (view_id <$> kept) →
  (∀ w, w ∈ kept → ViewNodes w = candidates nodes (view_id w)) →
  nodes_in id taken `prefix_of` candidates nodes id.
Proof.
  induction 1 as [|v w taken kept [Hg Hp] Hall IH]; intros Hnd Hc; [apply prefix_nil|].
  rewrite fmap_cons, NoDup_cons in Hnd. destruct Hnd as [Hw Hnd].
  change (v :: taken) with ([v] ++ taken). rewrite nodes_in_app, nodes_in_single.
  assert (view_id v = view_id w) as Hvw by (unfold view_id; by rewrite Hg).
  case_decide as Hid; [|apply IH; [done|set_solver]].
  rewrite (nodes_in_nil id taken), app_nil_r.
  - rewrite <- Hid, Hvw, <- Hc by left. done.
  - intros u Hu Huid.
    apply list_elem_of_lookup in Hu as [i Hi].
    destruct (Forall2_lookup_l _ _ _ _ _ Hall Hi) as (u' & Hu' & [Hgu _]).
    apply Hw. rewrite <- Hvw, Hid, <- Huid. unfold view_id. rewrite Hgu.
    apply list_elem_of_fmap. exists u'. split; [done|]. by eapply list_elem_of_lookup_2.
Qed.

Lemma cropped_individual nodes taken kept u :
  Forall2 cropped taken kept → kept `prefix_of` individual_views nodes → u ∈ taken →
  is_atomic ctx (Group u) = Some false ∧ ∃ n, group_of n = Some (Group u).
Proof.
  intros Hall [? Hk] [i Hi]%list_elem_of_lookup.
  destruct (Forall2_lookup_l _ _ _ _ _ Hall Hi) as (w & Hw%list_elem_of_lookup_2 & [-> _]).
  assert (w ∈ individual_views nodes) as [? [_ (n & _ & Hn)]]%individual_view_full
    by (rewrite Hk; set_solver). by eauto.
Qed.

Lemma individual_prefix nodes taken kept id :
  Forall2 cropped taken kept → kept `prefix_of` individual_views nodes →
  nodes_in id taken `prefix_of` candidates nodes id.
Proof.
  intros Hall Hk. eapply cropped_nodes_in; [done| |].
  - eapply sublist_NoDup; [apply (NoDup_group_ids nodes)|]. apply fmap_sublist.
    destruct Hk as [k Hk]. etrans; [apply (sublist_inserts_r k), reflexivity|]. rewrite <- Hk. apply sublist_filter.
  - intros w Hw. assert (w ∈ individual_views nodes) as [_ [? _]]%individual_view_full; [|done].
    destruct Hk as [? ->]. set_solver.
Qed.

Lemma taken_atomic nodes taken v :
  taken_from (atomic_views nodes) taken → v ∈ taken →
  is_atomic ctx (Group v) = Some true ∧ ViewNodes v ≠ [] ∧ ∃ n, group_of n = Some (Group v).
Proof.
  intros Ht Hv. destruct (Ht v Hv) as (w & Hw & -> & ->).
  destruct (atomic_view_full _ _ Hw) as [? Hf]. pose proof (full_view_pos _ _ Hf) as Hpos.
  destruct Hf as [_ (n & _ & Hn)].
  split_and!; [done| |eauto]. intros Hnil. unfold view_len in Hpos. rewrite Hnil in Hpos. done.
Qed.

Section selection.
Context (Hids : ids_determine_groups).

Lemma buckets_found nodes id d :
  groupBuckets (atomic_views nodes) !! id = Some d →
  d ∈ atomic_views nodes ∧ view_id d = id ∧ ViewNodes d = candidates nodes id.
Proof.
  intros [Hd <-]%groupBuckets_lookup. split_and!; [done..|].
  by apply atomic_view_full in Hd as [_ [? _]].
Qed.

Lemma buckets_missing nodes n g :
  group_of n = Some g → is_atomic ctx g = Some true →
  groupBuckets (atomic_views nodes) !! Id g = None → candidates nodes (Id g) = [].
Proof.
  intros Hg Hat Hnone. destruct (candidates nodes (Id g)) as [|n' l] eqn:Hc; [done|].
  assert (n' ∈ candidates nodes (Id g)) as [Hi Hn']%list_elem_of_filter by (rewrite Hc; left).
  apply fmap_Some in Hi as (g' & Hg' & Hid).
  destruct (group_all nodes n' g' Hn' Hg') as (w & Hw & Hwid).
  destruct (group_full _ _ Hw) as [_ (n'' & _ & Hg'')].
  assert (Group w = g) as Hgw by (eapply Hids; [done..|]; unfold view_id in Hwid; congruence).
  assert (w ∈ atomic_views nodes) as Hin by (apply list_elem_of_filter; by rewrite Hgw).
  apply groupBuckets_is_Some in Hin as [? Hin]. unfold view_id in Hin. by rewrite Hgw, Hnone in Hin.
Qed.

(** Selecting a bucket of a group not visited before keeps the invariant. *)
Lemma none_or_whole_select empty drain visited st n g E' D' pb db co :
  none_or_whole empty drain visited st → Id g ∉ visited → group_of n = Some g →
  (∀ id, nodes_in id E' = nodes_in id (emptyToDelete st) ++
     (if decide (Id g = id) then candidates empty id else [])) →
  (∀ id, nodes_in id D' = nodes_in id (drainToDelete st) ++
     (if decide (Id g = id) then candidates drain id else [])) →
  (let n := Z.of_nat (length (candidates empty (Id g)) + length (candidates drain (Id g))) in
   TargetSize g = Ok n ∨ currentSize ctx g = n) →
  none_or_whole empty drain (visited ++ [Id g]) (mkCrop E' D' pb db co).
Proof.
  intros Hinv Hnew Hg HE HD Hsize id. simpl. unfold whole_group.
  destruct (Hinv id) as [[H1 H2]|(Hin & n' & g' & Hg' & Hid & Hw1 & Hw2 & Hw3)].
  - rewrite HE, HD, H1, H2. simpl. destruct (decide (Id g = id)) as [<-|]; [|by left].
    right. split; [set_solver|]. exists n, g. split_and!; [done..| | |done].
    + rewrite HE, H1. simpl. by rewrite decide_True.
    + rewrite HD, H2. simpl. by rewrite decide_True.
  - right. assert (Id g ≠ id) by (intros <-; done). split; [set_solver|].
    exists n', g'. rewrite HE, HD. rewrite !decide_False by congruence. rewrite !app_nil_r. done.
Qed.

Lemma none_or_whole_skip empty drain visited id st :
  none_or_whole empty drain visited st → none_or_whole empty drain (visited ++ [id]) st.
Proof. intros H i. destruct (H i) as [?|[? ?]]; [by left|right; set_solver]. Qed.


Definition selection_inv (empty drain : list Node) (visited : list string) (st : CropState) : Prop :=
  none_or_whole empty drain visited st ∧
  taken_from (atomic_views empty) (emptyToDelete st) ∧
  taken_from (atomic_views drain) (drainToDelete st).

Lemma size_guard (n : Z) g (ts : Z) :
  TargetSize g = Ok ts → negb (n =? ts) && negb (n =? currentSize ctx g) = false →
  TargetSize g = Ok n ∨ currentSize ctx g = n.
Proof. intros -> [H|H]%andb_false_iff; [left; f_equal; lia|right; lia]. Qed.

Lemma emptyAtomic_step_selects empty drain visited st st' v :
  selection_inv empty drain visited st → v ∈ atomic_views empty → view_id v ∉ visited →
  emptyAtomic_step ctx (groupBuckets (atomic_views drain)) st v = Some st' →
  selection_inv empty drain (visited ++ [view_id v]) st'.
Proof.
  intros (Hinv & HE & HD) Hv Hnew. unfold emptyAtomic_step. cbv zeta.
  assert (selection_inv empty drain (visited ++ [view_id v]) st) as Hskip
    by (split; [by apply none_or_whole_skip|done]).
  set (dv := groupBuckets (atomic_views drain) !! Id (Group v)).
  set (nd := ⟪ match dv with Some d => ViewNodes d | None => [] end ⟫).
  case_match; [done|].
  destruct (TargetSize (Group v)) as [ts|] eqn:Hts; [|by intros [= <-]].
  case_match eqn:Hg; intros [= <-]; [done|].
  destruct (atomic_view_full _ _ Hv) as [Hat [Hvn (n & _ & Hn)]].
  assert (match dv with Some d => ViewNodes d | None => [] end = candidates drain (view_id v)) as Hdn.
  { unfold dv, view_id. destruct (groupBuckets (atomic_views drain) !! Id (Group v)) as [d|] eqn:Hd.
    - by apply buckets_found in Hd as (_ & _ & ->).
    - symmetry. by eapply buckets_missing. }
  split; simpl.
  - eapply none_or_whole_select; [done..| | |].
    + intros id. by rewrite nodes_in_app, (nodes_in_with_batch empty).
    + intros id. fold (view_id v). destruct dv as [d|] eqn:Hd.
      * apply buckets_found in Hd as (_ & Hdid & Hdv).
        by rewrite nodes_in_app, (nodes_in_with_batch drain), Hdid by congruence.
      * case_decide as Hid; [|by rewrite app_nil_r]. by rewrite <- Hid, <- Hdn, app_nil_r.
    + fold (view_id v). apply (size_guard _ _ ts Hts). rewrite <- Hg. unfold nd, view_len.
      rewrite Hdn, Hvn. by rewrite Nat2Z.inj_add.
  - split; [by apply taken_from_snoc|]. destruct dv as [d|] eqn:Hd; [|done].
    apply buckets_found in Hd as (Hd & _ & _). by apply taken_from_snoc.
Qed.

Lemma drainAtomic_step_selects empty drain visited st st' v :
  selection_inv empty drain visited st → v ∈ atomic_views drain →
  (groupBuckets (atomic_views empty) !! view_id v = None → view_id v ∉ visited) →
  drainAtomic_step ctx (groupBuckets (atomic_views empty)) st v = Some st' →
  selection_inv empty drain (visited ++ [view_id v]) st'.
Proof.
  intros (Hinv & HE & HD) Hv Hnew. unfold drainAtomic_step.
  assert (selection_inv empty drain (visited ++ [view_id v]) st) as Hskip
    by (split; [by apply none_or_whole_skip|done]).
  destruct (groupBuckets (atomic_views empty) !! Id (Group v)) as [e|] eqn:Hev;
    [by intros [= <-]|].
  case_match; [done|].
  destruct (TargetSize (Group v)) as [ts|] eqn:Hts; [|by intros [= <-]].
  case_match eqn:Hg; intros [= <-]; [done|].
  destruct (atomic_view_full _ _ Hv) as [Hat [Hvn (n & _ & Hn)]].
  assert (candidates empty (view_id v) = []) as Hen by (by eapply buckets_missing).
  split; simpl; [|split; [done|by apply taken_from_snoc]].
  eapply none_or_whole_select; [done|by apply Hnew|done| | |].
  - intros id. fold (view_id v). case_decide as Hid; [|by rewrite app_nil_r].
    by rewrite <- Hid, Hen, app_nil_r.
  - intros id. by rewrite nodes_in_app, (nodes_in_with_batch drain).
  - fold (view_id v). apply (size_guard _ _ ts Hts). rewrite <- Hg. unfold view_len.
    by rewrite Hen, Hvn.
Qed.

Lemma after_atomic_selection eip dip empty drain :
  ∃ visited, selection_inv empty drain visited (after_atomic eip dip empty drain).
Proof.
  unfold after_atomic. set (st1 := after_empty eip dip empty drain).
  assert (∃ l1, l1 `prefix_of` atomic_views empty ∧
    selection_inv empty drain (view_id <$> l1) st1) as (l1 & Hl1 & Hst1).
  { unfold st1, after_empty. apply (loop_break_inv_prefix
      (λ l1 st, selection_inv empty drain (view_id <$> l1) st)).
    { split; [by left|split; intros ? ?; set_solver]. }
    intros k v k2 s s' Hk Hs Hstep. rewrite fmap_app. eapply emptyAtomic_step_selects; [done| | |done].
    - rewrite Hk. set_solver.
    - eapply not_visited. rewrite <- Hk. apply NoDup_atomic_views. }
  edestruct (loop_break_inv_prefix (λ l2 st,
    selection_inv empty drain ((view_id <$> l1) ++ (view_id <$> l2)) st)) as (l2 & _ & H2);
    [| |by eexists].
  { simpl. rewrite app_nil_r. done. }
  intros k v k2 s s' Hk Hs Hstep. rewrite fmap_app, app_assoc.
  eapply drainAtomic_step_selects; [done| | |done]; [rewrite Hk; set_solver|].
  intros Hnone [Hin|Hin]%elem_of_app.
  - apply list_elem_of_fmap in Hin as (w & Hid & Hw).
    assert (w ∈ atomic_views empty) as [? Hs']%groupBuckets_is_Some
      by (destruct Hl1 as [? ->]; set_solver). congruence.
  - eapply not_visited; [|exact Hin]. rewrite <- Hk. apply NoDup_atomic_views.
Qed.


Lemma individual_not_atomic nodes taken kept n g :
  Forall2 cropped taken kept → kept `prefix_of` individual_views nodes →
  group_of n = Some g → is_atomic ctx g = Some true → nodes_in (Id g) taken = [].
Proof.
  intros Hall Hk Hg Hat. apply nodes_in_nil. intros u Hu Hid.
  destruct (cropped_individual _ _ _ _ Hall Hk Hu) as [Hna (n' & Hn')].
  assert (Group u = g) by (by eapply Hids). congruence.
Qed.

End selection.


(** CropNodes never deletes a part of an atomic group: a returned view of a
    group with ZeroOrMaxNodeScaling comes with every candidate of that group,
    empty or to drain, and together they are exactly the group's target size
    or its registered nodes. *)
Theorem crop_atomic_all_or_nothing eip dip empty drain E D v :
  ids_determine_groups →
  CropNodes ctx eip dip empty drain = (E, D) →
  v ∈ E ++ D → is_atomic ctx (Group v) = Some true →
  whole_group empty drain E D (Group v).
Proof.
  intros Hids HC Hv Hat.
  destruct (CropNodes_shape eip dip empty drain)
    as (EI & DI & HC' & (kE & HkE & HE) & (kD & HkD & HD) & _).
  rewrite HC in HC'. injection HC' as -> ->.
  destruct (after_atomic_selection Hids eip dip empty drain) as (vis & Hnow & HtE & HtD).
  set (st := after_atomic eip dip empty drain) in *.
  assert (v ∈ emptyToDelete st ∨ v ∈ drainToDelete st) as Hin.
  { rewrite !elem_of_app in Hv. destruct Hv as [[?|Hv]|[?|Hv]]; [by left| |by right|].
    - destruct (cropped_individual _ _ _ _ HE HkE Hv). congruence.
    - destruct (cropped_individual _ _ _ _ HD HkD Hv). congruence. }
  assert (ViewNodes v ≠ [] ∧ ∃ n, group_of n = Some (Group v)) as [Hne (n & Hn)]
    by (destruct Hin as [Hin|Hin]; [destruct (taken_atomic _ _ _ HtE Hin) as (_ & ? & ?)|
      destruct (taken_atomic _ _ _ HtD Hin) as (_ & ? & ?)]; done).
  destruct (Hnow (view_id v)) as [[H1 H2]|(_ & n' & g & Hg & Hid & Hw1 & Hw2 & Hw3)].
  { destruct Hin as [Hin|Hin]; [by rewrite (nodes_in_nil_inv _ _ v H1) in Hne|
      by rewrite (nodes_in_nil_inv _ _ v H2) in Hne]. }
  assert (g = Group v) as -> by (by eapply Hids).
  unfold whole_group. rewrite !nodes_in_app.
  rewrite (individual_not_atomic Hids _ _ _ _ _ HE HkE Hn Hat).
  rewrite (individual_not_atomic Hids _ _ _ _ _ HD HkD Hn Hat). by rewrite !app_nil_r.
Qed.

(** The nodes CropNodes selects from a group are the first candidates of that
    group, in the order in which they were passed, both for the empty nodes and
    for the nodes to drain; in particular no node is selected twice or from
    outside the candidates. *)
Theorem crop_selects_prefixes eip dip empty drain E D id :
  ids_determine_groups →
  CropNodes ctx eip dip empty drain = (E, D) →
  nodes_in id E `prefix_of` candidates empty id ∧ nodes_in id D `prefix_of` candidates drain id.
Proof.
  intros Hids HC.
  destruct (CropNodes_shape eip dip empty drain)
    as (EI & DI & HC' & (kE & HkE & HE) & (kD & HkD & HD) & _).
  rewrite HC in HC'. injection HC' as -> ->.
  destruct (after_atomic_selection Hids eip dip empty drain) as (vis & Hnow & HtE & HtD).
  set (st := after_atomic eip dip empty drain) in *.
  pose proof (individual_prefix _ _ _ id HE HkE) as HpE.
  pose proof (individual_prefix _ _ _ id HD HkD) as HpD.
  rewrite !nodes_in_app.
  destruct (Hnow id) as [[-> ->]|(_ & n' & g & Hg & <- & Hw1 & Hw2 & Hw3)]; [done|].
  destruct (decide (is_atomic ctx g = Some true)) as [Hat|Hna].
  - rewrite (individual_not_atomic Hids _ _ _ _ _ HE HkE Hg Hat).
    rewrite (individual_not_atomic Hids _ _ _ _ _ HD HkD Hg Hat).
    by rewrite !app_nil_r, Hw1, Hw2.
  - assert (∀ nodes taken, taken_from (atomic_views nodes) taken → nodes_in (Id g) taken = []) as Hz.
    { intros nodes taken Ht. apply nodes_in_nil. intros u Hu Hid.
      destruct (taken_atomic _ _ _ Ht Hu) as (Hua & _ & n & Hn).
      assert (Group u = g) by (by eapply Hids). congruence. }
    by rewrite (Hz _ _ HtE), (Hz _ _ HtD).
Qed.

(** With no atomically scaled group, CropNodes uses its budgets fully: it
    returns as many empty nodes as the parallelism budget allows, then as many
    nodes to drain as both budgets allow, and it stops for lack of candidates
    only. *)
Theorem crop_individual_exact eip dip empty drain E D :
  CropNodes ctx eip dip empty drain = (E, D) →
  atomic_views empty = [] → atomic_views drain = [] →
  let pb := MaxScaleDownParallelism ctx - ⟪ eip ⟫ - ⟪ dip ⟫ in
  let db := MaxDrainParallelism ctx - ⟪ dip ⟫ in
  total E = (0 `max` pb) `min` total (individual_views empty) ∧
  total D = (0 `max` ((pb - total E) `min` db)) `min` total (individual_views drain).
Proof.
  intros HC He Hd. cbv zeta.
  destruct (CropNodes_shape eip dip empty drain) as (EI & DI & HC' & _ & _ & HtE & HtD & HnE & _).
  rewrite HC in HC'. injection HC' as -> ->.
  assert (after_atomic eip dip empty drain =
    mkCrop [] [] (start_parallelism eip dip) (start_parallelism eip dip `min` start_drain dip) true)
    as Hst by (unfold after_atomic, after_empty; by rewrite He, Hd).
  rewrite Hst in *. simpl in *. unfold start_parallelism, start_drain in *.
  split; [done|]. rewrite HtD. pose proof (total_nonneg EI).
  pose proof (total_nonneg (individual_views empty)).
  pose proof (total_nonneg (individual_views drain)). lia.
Qed.

(** When the deletions in progress already use up the parallelism limit (and
    the drain limit is not exceeded), CropNodes selects no node, atomic groups
    included. *)
Theorem crop_exhausted_selects_nothing eip dip empty drain :
  MaxScaleDownParallelism ctx = ⟪ eip ⟫ + ⟪ dip ⟫ →
  ⟪ dip ⟫ ≤ MaxDrainParallelism ctx →
  CropNodes ctx eip dip empty drain = ([], []).
Proof.
  intros Hpar Hdr.
  destruct (CropNodes_shape eip dip empty drain) as (EI & DI & -> & _ & _ & HtE & _ & HnE & HnD).
  assert (after_empty eip dip empty drain = mkCrop [] [] 0 (start_drain dip) true) as Hst1.
  { unfold after_empty, start_parallelism. rewrite Hpar.
    replace (_ - _ - _) with 0 by lia. destruct (atomic_views empty) as [|v l] eqn:Hv; [done|].
    simpl. unfold emptyAtomic_step. simpl.
    assert (v ∈ group ctx empty) as Hpos%view_pos.
    { assert (v ∈ atomic_views empty) as [_ ?]%list_elem_of_filter by (rewrite Hv; left). done. }
    rewrite andb_true_r. by rewrite (proj2 (Z.ltb_lt 0 _)) by lia. }
  assert (after_atomic eip dip empty drain = mkCrop [] [] 0 0 true) as Hst.
  { unfold after_atomic. rewrite Hst1. simpl. rewrite Z.min_l by (unfold start_drain; lia).
    apply (loop_break_inv (λ s, s = mkCrop [] [] 0 0 true)); [done|].
    intros s s' v [_ Hv%view_pos]%list_elem_of_filter ->. unfold drainAtomic_step. simpl.
    case_match; [congruence|]. by rewrite (proj2 (Z.ltb_lt 0 _)). }
  rewrite Hst in *. simpl in *. rewrite HnE, HnD by lia. done.
Qed.
End budget_proofs.

(** ** A concrete cluster *)

Section demo.

Definition demo_defaults : NodeGroupAutoscalingOptions := mkOptions (of_int 0) (of_int 0) 600 1200 900 900 false false false.
Definition demo_group (name : string) (size : Z) (atomic : bool) (instances : list string)
    : NodeGroup :=
  mkNodeGroup name 0 10 (Ok size) (Ok instances)
    (λ d, (Some (mkOptions (of_int 0) (of_int 0) 600 1200 900 900 atomic false false), None)).
Definition demo_node (name : string) : Node := mkNode name name ∅ ∅ [] false 0 [].

Definition demo_pool : NodeGroup := demo_group "pool" 3 false ["p1"; "p2"; "p3"].
Definition demo_slice : NodeGroup := demo_group "slice" 2 true ["s1"; "s2"].

Definition demo_nodes : list Node := demo_node <$> ["p1"; "p2"; "p3"; "s1"; "s2"].

Definition demo_context (par drain : Z) : BudgetContext :=
  mkBudgetContext par drain demo_defaults
    (λ n, if decide (Name n ∈ ["s1"; "s2"]) then Ok (Some demo_slice)
          else if decide (Name n ∈ ["p1"; "p2"; "p3"]) then Ok (Some demo_pool) else Ok None)
    (Ok demo_nodes).

Lemma demo_ids par drain : ids_determine_groups (demo_context par drain).
Proof.
  intros n1 n2 g1 g2. unfold group_of, demo_context. simpl.
  repeat case_decide; intros; simplify_eq; done.
Qed.
End demo.

Definition demo_empty : list Node := demo_node <$> ["p1"; "p2"; "s1"].
Definition demo_drain : list Node := demo_node <$> ["p3"; "s2"].

Lemma crop_respects_budgets_witness :
  let r := CropNodes (demo_context 3 2) [] [] demo_empty demo_drain in
  (total r.1 + total r.2 ≤ 3 ∨ one_atomic (demo_context 3 2) (r.1 ++ r.2)).
Proof.
  cbv zeta.
  apply (crop_respects_budgets (demo_context 3 2) [] [] demo_empty demo_drain _ _
    (surjective_pairing _)).
Defined.

Lemma crop_atomic_all_or_nothing_witness :
  let r := CropNodes (demo_context 3 2) [] [] demo_empty demo_drain in
  ∃ v, v ∈ r.1 ++ r.2 ∧
    whole_group (demo_context 3 2) demo_empty demo_drain r.1 r.2 (Group v).
Proof.
  exists (mkView demo_slice [demo_node "s1"] 2). cbv zeta.
  assert (mkView demo_slice [demo_node "s1"] 2 ∈
    (CropNodes (demo_context 3 2) [] [] demo_empty demo_drain).1 ++
    (CropNodes (demo_context 3 2) [] [] demo_empty demo_drain).2) as Hin.
  { apply elem_of_app. left. apply list_elem_of_lookup. exists 0%nat. vm_compute. reflexivity. }
  split; [exact Hin|].
  apply (crop_atomic_all_or_nothing (demo_context 3 2) [] [] demo_empty demo_drain _ _ _
    (demo_ids 3 2) (surjective_pairing _) Hin).
  vm_compute. reflexivity.
Defined.

Lemma crop_selects_prefixes_witness :
  nodes_in "pool" (CropNodes (demo_context 3 2) [] [] demo_empty demo_drain).1
    `prefix_of` candidates (demo_context 3 2) demo_empty "pool".
Proof.
  apply (crop_selects_prefixes (demo_context 3 2) [] [] demo_empty demo_drain _ _ "pool"
    (demo_ids 3 2) (surjective_pairing _)).
Defined.

Lemma crop_individual_exact_witness :
  total (CropNodes (demo_context 3 2) ["x"] [] (demo_node <$> ["p1"; "p2"; "p3"]) []).1 = 2.
Proof.
  destruct (crop_individual_exact (demo_context 3 2) ["x"] []
    (demo_node <$> ["p1"; "p2"; "p3"]) [] _ _ (surjective_pairing _)) as [H _];
    [vm_compute; reflexivity..|].
  rewrite H. vm_compute. reflexivity.
Defined.

Lemma crop_exhausted_selects_nothing_witness :
  CropNodes (demo_context 1 1) ["x"] [] demo_empty demo_drain = ([], []).
Proof.
  apply (crop_exhausted_selects_nothing (demo_context 1 1) ["x"] [] demo_empty demo_drain);
    vm_compute; [reflexivity|discriminate].
Defined.

(** The guard against a second overflow tests for a budget of exactly zero: while
    an earlier atomic group still exceeds the limit (three deletions in
    progress, one allowed) another atomic group is admitted. *)
Example overflow_repeats_when_budget_is_negative :
  (view_id <$> (CropNodes (demo_context 1 1) ["x"; "y"; "z"] [] demo_empty demo_drain).1) = ["slice"].
Proof. vm_compute. reflexivity. Qed.
