(* ===== verification/Expiring.v ===== *)
(** The list of time-stamped entries behind the tracking of evictions and of
    deletion results (src/pkg/utils/expiring/list.go). Clock readings are
    arguments: nanoseconds on an unbounded line. *)
From stdpp Require Import prelude list numbers sorting.
From S2P Require Import Prelude.
Local Open Scope Z_scope.

Section expiring.
Context {A : Type}.

Record elementWithTimestamp : Type := mkElement { value : A; added : Z }.

Implicit Types l : list elementWithTimestamp.

Definition NewList : list elementWithTimestamp := [].

(** The loop from [Front] to the end. *)
Fixpoint ToSlice l : list A :=
  match l with [] => [] | p :: l' => value p :: ToSlice l' end.

Definition ToSliceWithTimestamp l (now : Z) : list A * Z :=
  match last l with
  | None => ([], now)
  | Some e => (ToSlice l, added e)
  end.

Definition RegisterElement l (elem : A) (now : Z) : list elementWithTimestamp := l ++ [mkElement elem now].

(** The loop removes from the front until an entry is newer than [expiry]. *)
Fixpoint DropNotNewerThan l (expiry : Z) : list elementWithTimestamp :=
  match l with
  | [] => []
  | p :: l' => if expiry <? added p then p :: l' else DropNotNewerThan l' expiry
  end.

(** ** Time order *)

(** The entries are in the order of their stamps, none after [now]: the
    contract of a clock that does not go back. *)
Definition timely (now : Z) l : Prop :=
  StronglySorted (λ x y, added x ≤ added y) l ∧ Forall (λ x, added x ≤ now) l.

Lemma timely_nil now : timely now [].
Proof. by split; constructor. Qed.

Lemma timely_weaken now now' l : now ≤ now' → timely now l → timely now' l.
Proof. intros ? [? Hl]. split; [done|]. eapply Forall_impl; [done|]. simpl. lia. Qed.

Lemma timely_register now now' l x :
  timely now l → now ≤ now' → timely now' (RegisterElement l x now').
Proof.
  intros [Hs Hl] Hle. split.
  - apply StronglySorted_app_2; [|done|repeat constructor].
    intros y z Hy ->%list_elem_of_singleton. simpl.
    rewrite Forall_forall in Hl. pose proof (Hl y Hy). simpl in *. lia.
  - apply Forall_app. split; [|by repeat constructor].
    eapply Forall_impl; [done|]. simpl. lia.
Qed.

(** In a time-ordered list the loop drops exactly the expired entries,
    although it stops at the first one that is not expired. *)
Lemma DropNotNewerThan_filter now l expiry :
  timely now l → DropNotNewerThan l expiry = filter (λ x, expiry < added x) l.
Proof.
  intros [Hs _]. induction Hs as [|x l Hs IH Hx]; [done|]. simpl. rewrite filter_cons.
  destruct (expiry <? added x) eqn:Hlt.
  - rewrite decide_True by lia. f_equal. symmetry. apply list_filter_Forall. clear IH Hs.
    rewrite Forall_forall in *. intros y Hy. pose proof (Hx y Hy). simpl in *. lia.
  - rewrite decide_False by lia. apply IH.
Qed.

Lemma timely_drop now l expiry : timely now l → timely now (DropNotNewerThan l expiry).
Proof.
  intros Ht. rewrite (DropNotNewerThan_filter now) by done. destruct Ht as [Hs Hl]. split.
  - clear Hl. induction Hs as [|x l Hs IH Hx]; [constructor|]. rewrite filter_cons.
    case_decide; [|done]. constructor; [done|]. by apply Forall_list_filter.
  - by apply Forall_list_filter.
Qed.

Lemma ToSlice_fmap l : ToSlice l = value <$> l.
Proof. induction l as [|x l IH]; simpl; by rewrite ?IH. Qed.
End expiring.
Arguments elementWithTimestamp : clear implicits.
