(* ===== verification/DeletionTracker.v ===== *)
(** The tracker of node deletions in progress
    (src/pkg/core/scaledown/deletiontracker/nodedeletiontracker.go). Every
    method holds the tracker's mutex, so its concurrent use is a sequence of
    the operations below. *)
From stdpp Require Import prelude gmap strings list numbers fin_maps sorting.
From S2P Require Import Prelude Expiring.
Local Open Scope Z_scope.

(** ** Deletion results (src/pkg/core/scaledown/status/status.go) *)

Inductive NodeDeleteResultType : Type :=
| NodeDeleteOk
| NodeDeleteErrorFailedToMarkToBeDeleted
| NodeDeleteErrorFailedToEvictPods
| NodeDeleteErrorFailedToDelete
| NodeDeleteErrorInternal.

Record PodEvictionResult : Type := mkEvictionResult {
  EvictedPod : string; TimedOut : bool; EvictionErr : option string
}.

Definition WasEvictionSuccessful (per : PodEvictionResult) : bool :=
  match EvictionErr per with None => negb (TimedOut per) | Some _ => false end.

Record NodeDeleteResult : Type := mkDeleteResult {
  ResultErr : option string;
  ResultType : NodeDeleteResultType;
  PodEvictionResults : gmap string PodEvictionResult
}.

Section tracker.
Context `{GR : GoRange} {Pod : Type}.

Record NodeDeletionTracker : Type := mkTracker {
  deletionsPerNodeGroup : gmap string Z;
  emptyNodeDeletions : gmap string bool;
  drainedNodeDeletions : gmap string bool;
  evictions : list (elementWithTimestamp Pod);
  evictionsTTL : Z;
  deletionResults : list (elementWithTimestamp (string * NodeDeleteResult))
}.
Implicit Types (n : NodeDeletionTracker) (now : Z) (s : gmap string (string * bool)).

Definition NewNodeDeletionTracker (podEvictionsTTL : Z) : NodeDeletionTracker :=
  mkTracker ∅ ∅ ∅ NewList podEvictionsTTL NewList.

(** Go's [m[k]] on a missing key is the zero value. *)
Definition counter n (g : string) : Z := default 0 (deletionsPerNodeGroup n !! g).

Definition StartDeletion n (nodeGroupId nodeName : string) : NodeDeletionTracker :=
  mkTracker (<[nodeGroupId := counter n nodeGroupId + 1]> (deletionsPerNodeGroup n))
    (<[nodeName := true]> (emptyNodeDeletions n)) (drainedNodeDeletions n)
    (evictions n) (evictionsTTL n) (deletionResults n).

Definition StartDeletionWithDrain n (nodeGroupId nodeName : string) : NodeDeletionTracker :=
  mkTracker (<[nodeGroupId := counter n nodeGroupId + 1]> (deletionsPerNodeGroup n))
    (emptyNodeDeletions n) (<[nodeName := true]> (drainedNodeDeletions n))
    (evictions n) (evictionsTTL n) (deletionResults n).

Definition EndDeletion n (nodeGroupId nodeName : string) (result : NodeDeleteResult) now
    : NodeDeletionTracker :=
  let results := RegisterElement (deletionResults n) (nodeName, result) now in
  match deletionsPerNodeGroup n !! nodeGroupId with
  | None =>
      mkTracker (deletionsPerNodeGroup n) (emptyNodeDeletions n) (drainedNodeDeletions n)
        (evictions n) (evictionsTTL n) results
  | Some value =>
      let counters := <[nodeGroupId := value - 1]> (deletionsPerNodeGroup n) in
      mkTracker (if value - 1 <=? 0 then delete nodeGroupId counters else counters)
        (delete nodeName (emptyNodeDeletions n)) (delete nodeName (drainedNodeDeletions n))
        (evictions n) (evictionsTTL n) results
  end.

Definition mapKeysSlice (m : gmap string bool) : list string := (go_range m).*1.

Definition DeletionsInProgress n : list string * list string :=
  (mapKeysSlice (emptyNodeDeletions n), mapKeysSlice (drainedNodeDeletions n)).

Definition RegisterEviction n (pod : Pod) now : NodeDeletionTracker :=
  mkTracker (deletionsPerNodeGroup n) (emptyNodeDeletions n) (drainedNodeDeletions n)
    (RegisterElement (evictions n) pod now) (evictionsTTL n) (deletionResults n).

Definition drop_old_evictions n now : NodeDeletionTracker :=
  mkTracker (deletionsPerNodeGroup n) (emptyNodeDeletions n) (drainedNodeDeletions n)
    (DropNotNewerThan (evictions n) (now - evictionsTTL n)) (evictionsTTL n) (deletionResults n).

Definition RecentEvictions n now : NodeDeletionTracker * list Pod :=
  let n := drop_old_evictions n now in
  (n, foldl (λ pods el, pods ++ [el]) [] (ToSlice (evictions n))).

Definition DeletionsCount n (nodeGroupId : string) : Z := counter n nodeGroupId.

Definition DeletionResults n now : gmap string NodeDeleteResult * Z :=
  let '(els, ts) := ToSliceWithTimestamp (deletionResults n) now in
  (foldl (λ drs dr, <[dr.1 := dr.2]> drs) ∅ els, ts).

Definition ClearResultsNotNewerThan n (t : Z) : NodeDeletionTracker :=
  mkTracker (deletionsPerNodeGroup n) (emptyNodeDeletions n) (drainedNodeDeletions n)
    (evictions n) (evictionsTTL n) (DropNotNewerThan (deletionResults n) t).

(** [Snapshot]: drops old evictions of [n] itself; the copy re-registers every
    entry with the current time. *)
Definition Snapshot n now : NodeDeletionTracker * NodeDeletionTracker :=
  let n := drop_old_evictions n now in
  (n, mkTracker
    (foldl (λ m kv, <[kv.1 := kv.2]> m) ∅ (go_range (deletionsPerNodeGroup n)))
    (foldl (λ m kv, <[kv.1 := kv.2]> m) ∅ (go_range (emptyNodeDeletions n)))
    (foldl (λ m kv, <[kv.1 := kv.2]> m) ∅ (go_range (drainedNodeDeletions n)))
    (foldl (λ l e, RegisterElement l e now) NewList (ToSlice (evictions n)))
    (evictionsTTL n)
    (foldl (λ l r, RegisterElement l r now) NewList (ToSlice (deletionResults n)))).

(** ** Histories *)

Inductive tracker_op : Type :=
| OpStart (g name : string)
| OpStartDrain (g name : string)
| OpEnd (g name : string) (r : NodeDeleteResult)
| OpEvict (pod : Pod)
| OpRecentEvictions
| OpClear (t : Z)
| OpSnapshot.

Definition tracker_step n (op : tracker_op) now : NodeDeletionTracker :=
  match op with
  | OpStart g name => StartDeletion n g name
  | OpStartDrain g name => StartDeletionWithDrain n g name
  | OpEnd g name r => EndDeletion n g name r now
  | OpEvict pod => RegisterEviction n pod now
  | OpRecentEvictions => (RecentEvictions n now).1
  | OpClear t => ClearResultsNotNewerThan n t
  | OpSnapshot => (Snapshot n now).1
  end.

Definition tracker_run n (ops : list (tracker_op * Z)) : NodeDeletionTracker :=
  foldl (λ n o, tracker_step n o.1 o.2) n ops.

(** ** What the tracker promises: the deletions in progress *)

(** The abstract state: for every node being deleted, its group and whether it
    is drained. A history is legal when a node is started only while it is
    not being deleted, and ended with the group it was started with. *)
Definition spec_step (s : gmap string (string * bool)) (op : tracker_op) : option (gmap string (string * bool)) :=
  match op with
  | OpStart g name =>
      match s !! name with None => Some (<[name := (g, false)]> s) | Some _ => None end
  | OpStartDrain g name =>
      match s !! name with None => Some (<[name := (g, true)]> s) | Some _ => None end
  | OpEnd g name _ =>
      match s !! name with
      | Some (g', _) => if decide (g' = g) then Some (delete name s) else None
      | None => None
      end
  | _ => Some s
  end.

Fixpoint spec_run (s : gmap string (string * bool)) (ops : list (tracker_op * Z)) : option (gmap string (string * bool)) :=
  match ops with
  | [] => Some s
  | o :: ops' => match spec_step s o.1 with Some s' => spec_run s' ops' | None => None end
  end.

Definition group_size (s : gmap string (string * bool)) (g : string) : Z :=
  Z.of_nat (size (filter (λ kv, kv.2.1 = g) s)).

Record tracker_abs (s : gmap string (string * bool)) n : Prop := {
  ta_empty : ∀ k, emptyNodeDeletions n !! k =
    match s !! k with Some (_, false) => Some true | _ => None end;
  ta_drained : ∀ k, drainedNodeDeletions n !! k =
    match s !! k with Some (_, true) => Some true | _ => None end;
  ta_count : ∀ g, deletionsPerNodeGroup n !! g =
    if decide (group_size s g = 0) then None else Some (group_size s g)
}.

Lemma group_size_insert s k g d g' :
  s !! k = None → group_size (<[k := (g, d)]> s) g' =
  group_size s g' + if decide (g = g') then 1 else 0.
Proof.
  intros Hk. unfold group_size. case_decide as Hg.
  - rewrite map_filter_insert_True by done. rewrite map_size_insert_None; [lia|].
    by rewrite map_lookup_filter, Hk.
  - rewrite map_filter_insert_not' by (simpl; congruence). lia.
Qed.

Lemma group_size_delete s k g d g' :
  s !! k = Some (g, d) → group_size (delete k s) g' =
  group_size s g' - if decide (g = g') then 1 else 0.
Proof.
  intros Hk. rewrite <- (insert_delete_id s k (g, d)) at 2 by done.
  rewrite group_size_insert by apply lookup_delete_eq. lia.
Qed.

Lemma group_size_nonneg s g : 0 ≤ group_size s g.
Proof. unfold group_size. lia. Qed.

Lemma counter_abs s n g : tracker_abs s n → counter n g = group_size s g.
Proof. intros [_ _ Hc]. unfold counter. rewrite Hc. case_decide; simpl; lia. Qed.


Lemma tracker_abs_new ttl : tracker_abs ∅ (NewNodeDeletionTracker ttl).
Proof.
  split; intros k; simpl; rewrite !lookup_empty; [done..|].
  unfold group_size. by rewrite map_filter_empty, map_size_empty.
Qed.

Lemma started_counters s n k g d :
  tracker_abs s n → s !! k = None → ∀ g',
  <[g := counter n g + 1]> (deletionsPerNodeGroup n) !! g' =
  if decide (group_size (<[k := (g, d)]> s) g' = 0) then None
  else Some (group_size (<[k := (g, d)]> s) g').
Proof.
  intros Habs Hk g'. rewrite (counter_abs s) by done. destruct Habs as [_ _ Hc].
  rewrite group_size_insert by done. pose proof (group_size_nonneg s g).
  destruct (decide (g = g')) as [<-|Hne].
  - rewrite lookup_insert_eq, decide_False by lia. done.
  - rewrite lookup_insert_ne, Hc, Z.add_0_r by done. done.
Qed.

Lemma StartDeletion_abs s n g k :
  tracker_abs s n → s !! k = None →
  tracker_abs (<[k := (g, false)]> s) (StartDeletion n g k).
Proof.
  intros Habs Hk. pose proof (started_counters _ _ _ g false Habs Hk) as Hcnt.
  destruct Habs as [He Hd _]. split; [intros i; simpl..|exact Hcnt].
  - destruct (decide (k = i)) as [<-|]; [by rewrite !lookup_insert_eq|by rewrite !lookup_insert_ne].
  - rewrite Hd. destruct (decide (k = i)) as [<-|]; [by rewrite lookup_insert_eq, Hk|].
    by rewrite lookup_insert_ne.
Qed.

Lemma StartDeletionWithDrain_abs s n g k :
  tracker_abs s n → s !! k = None →
  tracker_abs (<[k := (g, true)]> s) (StartDeletionWithDrain n g k).
Proof.
  intros Habs Hk. pose proof (started_counters _ _ _ g true Habs Hk) as Hcnt.
  destruct Habs as [He Hd _]. split; [intros i; simpl..|exact Hcnt].
  - rewrite He. destruct (decide (k = i)) as [<-|]; [by rewrite lookup_insert_eq, Hk|].
    by rewrite lookup_insert_ne.
  - destruct (decide (k = i)) as [<-|]; [by rewrite !lookup_insert_eq|by rewrite !lookup_insert_ne].
Qed.

Lemma group_size_pos s k g d : s !! k = Some (g, d) → 0 < group_size s g.
Proof.
  intros Hk. pose proof (group_size_nonneg (delete k s) g) as H.
  rewrite (group_size_delete s k g d), decide_True in H by done. lia.
Qed.

Lemma EndDeletion_abs s n g k d r now :
  tracker_abs s n → s !! k = Some (g, d) →
  tracker_abs (delete k s) (EndDeletion n g k r now).
Proof.
  intros [He Hd Hc] Hk. unfold EndDeletion.
  pose proof (group_size_pos _ _ _ _ Hk) as Hpos.
  rewrite Hc, decide_False by lia. split; simpl.
  - intros i. rewrite !lookup_delete. case_decide; [done|apply He].
  - intros i. rewrite !lookup_delete. case_decide; [done|apply Hd].
  - intros g'. rewrite (group_size_delete s k g d) by done.
    destruct (decide (g = g')) as [<-|Hne].
    + destruct (group_size s g - 1 <=? 0) eqn:Hz.
      * rewrite lookup_delete_eq, decide_True by lia. done.
      * rewrite lookup_insert_eq, decide_False by lia. done.
    + rewrite Z.sub_0_r. case_match; rewrite ?lookup_delete_ne, lookup_insert_ne by done; apply Hc.
Qed.

Lemma tracker_step_abs s s' n op now :
  tracker_abs s n → spec_step s op = Some s' → tracker_abs s' (tracker_step n op now).
Proof.
  intros Habs. destruct op as [g k|g k|g k r|p| |t|]; simpl.
  - destruct (s !! k) eqn:Hk; intros [= <-]. by apply StartDeletion_abs.
  - destruct (s !! k) eqn:Hk; intros [= <-]. by apply StartDeletionWithDrain_abs.
  - destruct (s !! k) as [[g' d]|] eqn:Hk; [|done]. case_decide as Hg; intros [= <-]. subst g'.
    by eapply EndDeletion_abs.
  - intros [= <-]. by destruct Habs.
  - intros [= <-]. by destruct Habs.
  - intros [= <-]. by destruct Habs.
  - intros [= <-]. by destruct Habs.
Qed.

Lemma tracker_run_abs ops : ∀ s s' n,
  tracker_abs s n → spec_run s ops = Some s' → tracker_abs s' (tracker_run n ops).
Proof.
  induction ops as [|[op now] ops IH]; intros s s' n Habs; simpl; [by intros [= <-]|].
  destruct (spec_step s op) as [s1|] eqn:Hs; [|done]. apply IH. by eapply tracker_step_abs.
Qed.

Lemma keys_abs (m : gmap string bool) s (b : bool) :
  (∀ k, m !! k = match s !! k with Some (_, b') => if decide (b' = b) then Some true else None
                                 | None => None end) →
  ∀ k, k ∈ mapKeysSlice m ↔ ∃ g, s !! k = Some (g, b).
Proof.
  intros Hm k. unfold mapKeysSlice. rewrite list_elem_of_fmap. split.
  - intros ([k' v] & -> & Hkv%elem_of_go_range). simpl. rewrite Hm in Hkv.
    destruct (s !! k') as [[g b']|]; [|done]. case_decide; subst; [eauto|done].
  - intros [g Hg]. exists (k, true). split; [done|]. apply elem_of_go_range.
    by rewrite Hm, Hg, decide_True.
Qed.

Lemma NoDup_mapKeysSlice m : NoDup (mapKeysSlice m).
Proof. apply NoDup_go_range_fst. Qed.

(** On every history in which a node is started only while it is not being
    deleted and ended with the group it was started with, the tracker is
    exact: the two lists of deletions in progress hold, without repetition,
    the nodes started (without and with drain) and not yet ended, and the
    counter of every group is the number of its nodes in progress. *)
Theorem tracker_exact ttl ops s :
  spec_run ∅ ops = Some s →
  let n := tracker_run (NewNodeDeletionTracker ttl) ops in
  let '(empty, drained) := DeletionsInProgress n in
  NoDup empty ∧ NoDup drained ∧
  (∀ k, k ∈ empty ↔ ∃ g, s !! k = Some (g, false)) ∧
  (∀ k, k ∈ drained ↔ ∃ g, s !! k = Some (g, true)) ∧
  ∀ g, DeletionsCount n g = group_size s g.
Proof.
  intros Hrun n. pose proof (tracker_run_abs _ _ _ _ (tracker_abs_new ttl) Hrun) as Habs.
  fold n in Habs. unfold DeletionsInProgress.
  split_and!; [apply NoDup_mapKeysSlice..| | |intros g; by apply counter_abs];
    destruct Habs as [He Hd _]; apply keys_abs; intros k; [rewrite He|rewrite Hd];
    by destruct (s !! k) as [[? []]|].
Qed.

(** ** Evictions and results *)

(** A history whose clock readings do not decrease. *)
Definition monotone (t0 : Z) (ops : list (tracker_op * Z)) : Prop :=
  StronglySorted Z.le (t0 :: ops.*2).

(** Every eviction of a history with its time. *)
Definition evicted (ops : list (tracker_op * Z)) : list (elementWithTimestamp Pod) :=
  omap (λ o, match o.1 with OpEvict p => Some (mkElement p o.2) | _ => None end) ops.

Lemma evictions_run ttl t0 ops now :
  monotone t0 ops → Forall (λ t, t ≤ now) ops.*2 → t0 ≤ now →
  let n := tracker_run (NewNodeDeletionTracker ttl) ops in
  evictionsTTL n = ttl ∧ timely now (evictions n) ∧
  filter (λ e, now - ttl < added e) (evictions n) = filter (λ e, now - ttl < added e) (evicted ops).
Proof.
  intros Hmono Hle Ht0. cbv zeta. revert now Hle Ht0.
  induction ops as [|[op t] ops IH] using rev_ind; intros now Hle Ht0.
  { split_and!; [done|apply timely_nil|done]. }
  unfold tracker_run. rewrite foldl_app. fold (tracker_run (NewNodeDeletionTracker ttl) ops).
  unfold monotone in Hmono. rewrite fmap_app in Hmono, Hle. simpl in *.
  rewrite Forall_app, Forall_singleton in Hle. destruct Hle as [Hle Htn].
  change (t0 :: ops.*2 ++ [t]) with ((t0 :: ops.*2) ++ [t]) in Hmono.
  assert (∀ x, x ∈ t0 :: ops.*2 → x ≤ t) as Hlt.
  { intros x Hx. eapply (StronglySorted_app_1_elem_of Z.le); [exact Hmono|exact Hx|left]. }
  apply (StronglySorted_app_1_l Z.le) in Hmono.
  assert (Forall (λ t', t' ≤ t) ops.*2) as Hlet
    by (apply Forall_forall; intros; apply Hlt; by right).
  destruct (IH Hmono t Hlet) as (Httl & Htime & _); [apply Hlt; left|].
  destruct (IH Hmono now Hle Ht0) as (_ & _ & Hfil).
  set (n := tracker_run (NewNodeDeletionTracker ttl) ops) in *.
  unfold evicted. rewrite omap_app. fold (evicted ops). rewrite filter_app.
  assert (timely now (evictions n)) as Htimen by (by apply (timely_weaken t)).
  assert (∀ n', n' = drop_old_evictions n t →
    evictionsTTL n' = ttl ∧ timely now (evictions n') ∧
    filter (λ e, now - ttl < added e) (evictions n') =
    filter (λ e, now - ttl < added e) (evicted ops) ++ []) as Hdrop.
  { intros n' ->. simpl. rewrite app_nil_r, <- Hfil, Httl.
    split_and!; [done|by apply timely_drop|].
    rewrite (DropNotNewerThan_filter t), list_filter_filter by done.
    apply list_filter_iff. intros x. lia. }
  assert (∀ n', evictions n' = evictions n → evictionsTTL n' = evictionsTTL n →
    evictionsTTL n' = ttl ∧ timely now (evictions n') ∧
    filter (λ e, now - ttl < added e) (evictions n') =
    filter (λ e, now - ttl < added e) (evicted ops) ++ []) as Hsame.
  { intros n' -> ->. by rewrite app_nil_r. }
  destruct op as [g k|g k|g k r|p| |t'|]; simpl;
    try (by apply Hsame); try (by apply (Hdrop (drop_old_evictions n t))).
  - unfold EndDeletion. case_match; by apply Hsame.
  - split_and!; [done|apply (timely_weaken t), (timely_register t); done|].
    unfold RegisterElement. by rewrite filter_app, Hfil.
Qed.

(** With a clock that does not go back, RecentEvictions returns exactly the
    pods evicted within the last evictionsTTL, in the order of eviction,
    whatever operations (earlier calls of RecentEvictions and Snapshot, which
    drop entries, included) came before. *)
Theorem recent_evictions_exact ttl t0 ops now :
  monotone t0 (ops ++ [(OpRecentEvictions, now)]) →
  (RecentEvictions (tracker_run (NewNodeDeletionTracker ttl) ops) now).2 =
  value <$> filter (λ e, now - ttl < added e) (evicted ops).
Proof.
  intros Hmono. unfold monotone in Hmono. rewrite fmap_app in Hmono. simpl in Hmono.
  change (t0 :: ops.*2 ++ [now]) with ((t0 :: ops.*2) ++ [now]) in Hmono.
  assert (∀ x, x ∈ t0 :: ops.*2 → x ≤ now) as Hlt.
  { intros x Hx. eapply (StronglySorted_app_1_elem_of Z.le); [exact Hmono|exact Hx|left]. }
  destruct (evictions_run ttl t0 ops now) as (Httl & Htime & Hfil).
  - by apply (StronglySorted_app_1_l Z.le) in Hmono.
  - apply Forall_forall. intros; apply Hlt; by right.
  - apply Hlt. left.
  - cbn [RecentEvictions snd drop_old_evictions evictions].
    rewrite (foldl_snoc_fmap (λ x, x)), list_fmap_id, ToSlice_fmap. simpl.
    by rewrite (DropNotNewerThan_filter now), Httl, Hfil by done.
Qed.

Lemma results_map (els : list (string * NodeDeleteResult)) k :
  foldl (λ drs dr, <[dr.1 := dr.2]> drs) (∅ : gmap string NodeDeleteResult) els !! k =
  snd <$> last (filter (λ dr, dr.1 = k) els).
Proof.
  induction els as [|[k' r] els IH] using rev_ind; [done|].
  rewrite foldl_app, filter_app, filter_cons, filter_nil. simpl.
  case_decide as Hk; [subst|].
  - by rewrite lookup_insert_eq, last_snoc.
  - by rewrite lookup_insert_ne, IH, app_nil_r.
Qed.

Lemma results_of_list (l : list (elementWithTimestamp (string * NodeDeleteResult))) now :
  (let '(els, ts) := ToSliceWithTimestamp l now in
   (foldl (λ drs dr, <[dr.1 := dr.2]> drs) (∅ : gmap string NodeDeleteResult) els, ts)).1 =
  foldl (λ drs dr, <[dr.1 := dr.2]> drs) (∅ : gmap string NodeDeleteResult) (ToSlice l).
Proof.
  unfold ToSliceWithTimestamp. destruct (last l) as [e|] eqn:Hl; [done|].
  apply last_None in Hl as ->. done.
Qed.

(** DeletionResults and ClearResultsNotNewerThan hand every result over: the
    map returned holds the newest result of each node that has one, and
    clearing with the timestamp returned next to it forgets exactly the
    results in the map, keeping every result registered later. *)
Theorem results_handover n now later :
  timely now (deletionResults n) →
  let '(drs, ts) := DeletionResults n now in
  (∀ k, drs !! k = snd <$> last (filter (λ dr, dr.1 = k) (ToSlice (deletionResults n)))) ∧
  ∀ n', deletionResults n' = deletionResults n ++ later →
    Forall (λ e, ts < added e) later →
    deletionResults (ClearResultsNotNewerThan n' ts) = later.
Proof.
  intros [Hsort Hle]. unfold DeletionResults, ToSliceWithTimestamp.
  assert (∀ ts, (Forall (λ e, added e ≤ ts) (deletionResults n)) → ∀ n',
    deletionResults n' = deletionResults n ++ later → Forall (λ e, ts < added e) later →
    deletionResults (ClearResultsNotNewerThan n' ts) = later) as Hclear.
  { intros ts Hall n' Hn' Hlater. simpl. rewrite Hn'. clear Hsort Hle Hn'.
    induction Hall as [|x l Hx _ IH]; simpl.
    - destruct Hlater as [|x l Hx]; [done|]. simpl. by rewrite (proj2 (Z.ltb_lt _ _)).
    - by rewrite (proj2 (Z.ltb_ge _ _)). }
  destruct (last (deletionResults n)) as [e|] eqn:Hlast.
  - split; [intros k; apply results_map|]. apply Hclear.
    apply last_Some in Hlast as [l Hl]. rewrite Hl in *.
    apply Forall_app. split; [|by repeat constructor].
    apply Forall_forall. intros x Hx.
    by eapply (StronglySorted_app_1_elem_of _ _ _ x e Hsort Hx); left.
  - apply last_None in Hlast. rewrite Hlast in *. split; [done|]. by apply Hclear.
Qed.


(** A snapshot agrees with the tracker it was taken from: the same deletions
    in progress and counters, the same recent evictions and the same results. *)
Theorem snapshot_agrees n now :
  let '(n', snap) := Snapshot n now in
  (∀ k, emptyNodeDeletions snap !! k = emptyNodeDeletions n !! k) ∧
  (∀ k, drainedNodeDeletions snap !! k = drainedNodeDeletions n !! k) ∧
  (∀ g, DeletionsCount snap g = DeletionsCount n g) ∧
  ToSlice (evictions snap) = (RecentEvictions n now).2 ∧
  (DeletionResults snap now).1 = (DeletionResults n now).1.
Proof.
  cbn [Snapshot]. unfold DeletionsCount, counter.
  cbn [drop_old_evictions emptyNodeDeletions drainedNodeDeletions deletionsPerNodeGroup evictions
       deletionResults evictionsTTL RecentEvictions snd].
  assert (∀ {A} (l : list A), ToSlice (foldl (λ l e, RegisterElement l e now) NewList l) = l) as Hcopy.
  { intros A l. induction l as [|x l IH] using rev_ind; [done|].
    rewrite foldl_app. simpl. unfold RegisterElement at 1. rewrite ToSlice_fmap, fmap_app.
    by rewrite <- ToSlice_fmap, IH. }
  split_and!; [intros k; rewrite lookup_range_insert; by case_match..| | | ].
  - intros g. rewrite lookup_range_insert. by case_match.
  - rewrite Hcopy, (foldl_snoc_fmap (λ x, x)), list_fmap_id. done.
  - unfold DeletionResults. cbn [deletionResults]. rewrite !results_of_list.
    cbn [fst]. by rewrite Hcopy.
Qed.
End tracker.

(** ** Concrete histories *)

Definition demo_result : NodeDeleteResult := mkDeleteResult None NodeDeleteOk ∅.

Definition demo_history : list (@tracker_op string * Z) :=
  [(OpStart "pool" "a", 1); (OpStartDrain "pool" "b", 2); (OpEvict "p", 3); (OpEvict "q", 20);
   (OpEnd "pool" "a" demo_result, 21)].

Lemma tracker_exact_witness :
  DeletionsCount (tracker_run (NewNodeDeletionTracker 10) demo_history) "pool" = 1.
Proof.
  destruct (tracker_exact 10 demo_history {["b" := ("pool", true)]}) as (_ & _ & _ & _ & Hc);
    [vm_compute; reflexivity|].
  rewrite Hc. vm_compute. reflexivity.
Defined.

Lemma recent_evictions_exact_witness :
  (RecentEvictions (tracker_run (NewNodeDeletionTracker 10) demo_history) 25).2 = ["q"].
Proof.
  rewrite (recent_evictions_exact 10 0 demo_history 25); [vm_compute; reflexivity|].
  unfold monotone. repeat constructor; vm_compute; discriminate.
Defined.

Lemma results_handover_witness :
  let n := tracker_run (NewNodeDeletionTracker 10) demo_history in
  deletionResults (ClearResultsNotNewerThan (EndDeletion n "pool" "b" demo_result 30) 21) =
  [mkElement ("b", demo_result) 30].
Proof.
  cbv zeta. set (n := tracker_run _ _).
  assert (timely 25 (deletionResults n)) as Ht
    by (vm_compute; split; repeat constructor; discriminate).
  pose proof (results_handover n 25 [mkElement ("b", demo_result) 30] Ht) as H.
  assert (DeletionResults n 25 = ((DeletionResults n 25).1, 21)) as E by (vm_compute; reflexivity).
  rewrite E in H. destruct H as [_ H]. apply H; [vm_compute; reflexivity|].
  repeat constructor.
Defined.
