(* ===== verification/Actuation.v ===== *)
(** The asynchronous part of scale-down: the group deletion scheduler
    (src/pkg/core/scaledown/actuation/group_deletion_scheduler.go), the
    deletion batcher (delete_in_batch.go) and the goroutines of the actuator
    (actuator.go) that drive them, as a step relation over their shared state.
    A node is referred to by its name, a node group by its id. *)
From stdpp Require Import prelude gmap strings list numbers fin_maps.
From S2P Require Import Prelude Float64 Api Expiring DeletionTracker.
Local Open Scope Z_scope.
Local Open Scope ca_scope.

(** ** Shared state *)

(** One goroutine that deletes a batch: the group id it reports failures with,
    the nodes not yet reported, their drain flags, and the outcome of the
    cloud provider call once it returned. *)
Record batch_deletion : Type := mkBatch {
  bd_group : string;
  bd_nodes : list string;
  bd_drained : gmap string bool;
  bd_outcome : option (result string string)
}.

(** One node whose deletion goroutine has not reached the queue yet. *)
Record node_task : Type := mkTask {
  nt_node : string; nt_group : string; nt_drain : bool
}.

Record actuation : Type := mkActuation {
  nodeDeletionTracker : @NodeDeletionTracker string;
  nodeQueue : gmap string (list string);
  failuresForGroup : gmap string bool;
  batcherDeletions : gmap string (list string);
  batcherDrained : gmap string bool;
  tasks : list node_task;
  timers : list string;
  batches : list batch_deletion
}.

Section actuation.
Context `{GR : GoRange} (deleteInterval : Z).
Implicit Types (w : actuation) (k g : string) (drain : bool) (now : Z).

Definition set_tracker w t : actuation :=
  mkActuation t (nodeQueue w) (failuresForGroup w) (batcherDeletions w) (batcherDrained w)
    (tasks w) (timers w) (batches w).

Definition set_queue w q f : actuation :=
  mkActuation (nodeDeletionTracker w) q f (batcherDeletions w) (batcherDrained w)
    (tasks w) (timers w) (batches w).

Definition set_tasks w l : actuation :=
  mkActuation (nodeDeletionTracker w) (nodeQueue w) (failuresForGroup w) (batcherDeletions w)
    (batcherDrained w) l (timers w) (batches w).

Definition queue_of w g : list string := default [] (nodeQueue w !! g).

(** ** Results *)

Definition failed_result (msg : string) : NodeDeleteResult :=
  mkDeleteResult (Some msg) NodeDeleteErrorFailedToDelete ∅.

(** The cleanup of the taint and the events aside: the deletion ends. *)
Definition CleanUpAndRecordFailedScaleDownEvent w k g (r : NodeDeleteResult) now : actuation :=
  set_tracker w (EndDeletion (nodeDeletionTracker w) g k r now).

Definition RegisterAndRecordSuccessfulScaleDownEvent w k g now : actuation :=
  set_tracker w (EndDeletion (nodeDeletionTracker w) g k (mkDeleteResult None NodeDeleteOk ∅) now).

(** ** The batcher *)

Definition addNodesToBucket w (nodes : list string) g drain : actuation * bool :=
  let drained := foldl (λ m k, <[k := drain]> m) (batcherDrained w) nodes in
  let mk d := mkActuation (nodeDeletionTracker w) (nodeQueue w) (failuresForGroup w) d drained
    (tasks w) (timers w) (batches w) in
  match batcherDeletions w !! g with
  | None | Some [] => (mk (<[g := nodes]> (batcherDeletions w)), true)
  | Some val => (mk (<[g := val ++ nodes]> (batcherDeletions w)), false)
  end.

Definition start_batch w (b : batch_deletion) : actuation :=
  mkActuation (nodeDeletionTracker w) (nodeQueue w) (failuresForGroup w) (batcherDeletions w)
    (batcherDrained w) (tasks w) (timers w) (batches w ++ [b]).

(** [AddNodes]: a zero interval starts the deletion at once, otherwise the
    first nodes of a bucket start a timer. *)
Definition AddNodes w (nodes : list string) g drain : actuation :=
  if deleteInterval =? 0 then
    start_batch w (mkBatch g nodes (foldl (λ m k, <[k := drain]> m) ∅ nodes) None)
  else
    let '(w, first) := addNodesToBucket w nodes g drain in
    if first then
      mkActuation (nodeDeletionTracker w) (nodeQueue w) (failuresForGroup w) (batcherDeletions w)
        (batcherDrained w) (tasks w) (timers w ++ [g]) (batches w)
    else w.

Definition remove w g : result string actuation :=
  match batcherDeletions w !! g with
  | None => Err "Node Group is not present in the batch deleter"
  | Some nodes =>
      let '(moved, rest) := foldl (λ '(moved, rest) k,
        (<[k := default false (rest !! k)]> moved, delete k rest)) (∅, batcherDrained w) nodes in
      Ok (mkActuation (nodeDeletionTracker w) (nodeQueue w) (failuresForGroup w)
        (delete g (batcherDeletions w)) rest (tasks w) (timers w)
        (batches w ++ [mkBatch g nodes moved None]))
  end.

(** [deleteNodesFromCloudProvider]; [None] is the panic of [nodes[0]] on an
    empty slice. The answer is the id of the group found, or the error. *)
Definition deleteNodesFromCloudProvider
    (NodeGroupForNode : string → result string (option string))
    (DeleteNodes : string → list string → option string)
    (nodes : list string) : option (result string string) :=
  match nodes with
  | [] => None
  | k :: _ => Some (
      match NodeGroupForNode k with
      | Err e => Err e
      | Ok None => Err "picked node that doesn't belong to a node group"
      | Ok (Some g) => match DeleteNodes g nodes with
                       | Some e => Err e
                       | None => Ok g
                       end
      end)
  end.

(** One iteration of the reporting loop that follows the provider's answer. *)
Definition report_node w (b : batch_deletion) (outcome : result string string) k now : actuation :=
  match outcome with
  | Err e => CleanUpAndRecordFailedScaleDownEvent w k (bd_group b) (failed_result e) now
  | Ok g => RegisterAndRecordSuccessfulScaleDownEvent w k g now
  end.

(** ** The group deletion scheduler *)

Definition addToBatcher w k g (batchSize : Z) drain (atomic : bool) now : actuation :=
  let w := set_queue w (<[g := queue_of w g ++ [k]]> (nodeQueue w)) (failuresForGroup w) in
  let w :=
    if atomic && default false (failuresForGroup w !! g) then
      let w := CleanUpAndRecordFailedScaleDownEvent w k g
                 (failed_result "couldn't scale down other nodes in this node group") now in
      set_queue w (delete g (nodeQueue w)) (failuresForGroup w)
    else w in
  if atomic && (⟪ queue_of w g ⟫ <? batchSize) then w
  else
    let w := AddNodes w (queue_of w g) g drain in
    set_queue w (<[g := []]> (nodeQueue w)) (failuresForGroup w).

Definition AbortNodeDeletion w k g (r : NodeDeleteResult) now : actuation :=
  let w := set_queue w (nodeQueue w) (<[g := true]> (failuresForGroup w)) in
  let w := CleanUpAndRecordFailedScaleDownEvent w k g r now in
  let w := foldl (λ w other,
    if decide (other = k) then w
    else CleanUpAndRecordFailedScaleDownEvent w other g
           (failed_result "couldn't scale down other nodes in this node group") now)
    w (queue_of w g) in
  set_queue w (delete g (nodeQueue w)) (failuresForGroup w).

Definition ResetAndReportMetrics w : actuation * nat :=
  (set_queue w (nodeQueue w) ∅,
   foldl (λ n kv, n + length kv.2)%nat 0%nat (go_range (nodeQueue w))).

(** What the node's drain, delay and provider answer inside one call of
    scheduleDeletion. *)
Record schedule_oracle : Type := mkOracle {
  so_opts : option NodeGroupAutoscalingOptions * option cp_error;
  so_drain_err : option string;
  so_delay_err : option string;
  so_force_err : option string
}.

Definition prepareNodeForDeletion (o : schedule_oracle) drain : NodeDeleteResult :=
  match (if drain then so_drain_err o else None) with
  | Some e => mkDeleteResult (Some e) NodeDeleteErrorFailedToEvictPods ∅
  | None => match so_delay_err o with
            | Some e => mkDeleteResult (Some e) NodeDeleteErrorFailedToDelete ∅
            | None => mkDeleteResult None NodeDeleteOk ∅
            end
  end.

Definition scheduleDeletion w k g (batchSize : Z) drain (force : bool) (o : schedule_oracle) now
    : actuation :=
  match so_opts o with
  | (_, Some (OtherError e)) =>
      AbortNodeDeletion w k g (mkDeleteResult (Some e) NodeDeleteErrorInternal ∅) now
  | (opts, _) =>
      let atomic := match opts with Some op => ZeroOrMaxNodeScaling op | None => false end in
      let r := prepareNodeForDeletion o drain in
      match ResultErr r with
      | None => addToBatcher w k g batchSize drain atomic now
      | Some _ =>
          if force then
            match so_force_err o with
            | Some e => AbortNodeDeletion w k g (failed_result e) now
            | None => addToBatcher w k g batchSize drain atomic now
            end
          else AbortNodeDeletion w k g r now
      end
  end.

(** ** The actuator's goroutines *)

Definition deleteAsyncEmpty w (views : list (string * list string)) : actuation :=
  foldl (λ w v, foldl (λ w k,
    set_tasks (set_tracker w (StartDeletion (nodeDeletionTracker w) v.1 k))
      (tasks w ++ [mkTask k v.1 false])) w v.2) w views.

Definition deleteAsyncDrain w (views : list (string * list string)) : actuation :=
  foldl (λ w v, foldl (λ w k,
    set_tasks (set_tracker w (StartDeletionWithDrain (nodeDeletionTracker w) v.1 k))
      (tasks w ++ [mkTask k v.1 true])) w v.2) w views.

(** What deleteNodesAsync decides for one node. *)
Inductive verdict : Type := VAbort (e : string) | VSchedule (batchSize : Z).

(** The answers deleteNodesAsync gets for one node: its node info, the pods to
    move (how many, and how many run to completion). *)
Definition node_answer : Type := result string (result string (nat * nat)).

Definition deleteNodesAsync (nodes : list string) drain (batchSize : Z)
    (snapshotErr pdbErr : option string) (answer : string → node_answer)
    : list (string * verdict) :=
  match nodes with
  | [] => []
  | _ =>
    match snapshotErr, (if drain then pdbErr else None) with
    | Some e, _ | None, Some e => (λ k, (k, VAbort e)) <$> nodes
    | None, None =>
        let batchSize := if batchSize =? 0 then ⟪ nodes ⟫ else batchSize in
        (λ k, (k, match answer k with
          | Err e => VAbort e
          | Ok (Err e) => VAbort e
          | Ok (Ok (pods, onCompletion)) =>
              if drain then VSchedule batchSize
              else if negb (pods =? 0)%nat then VAbort "new pods scheduled"
              else if negb (onCompletion =? 0)%nat then VAbort "active on-completion pods present"
              else VSchedule batchSize
          end)) <$> nodes
    end
  end.


(** ** Steps *)

(** [home k] is the group of node [k]: the provider may fail to find a group,
    it does not move a node to another one. *)
Context (home : string → string).

Definition set_timers w l : actuation :=
  mkActuation (nodeDeletionTracker w) (nodeQueue w) (failuresForGroup w) (batcherDeletions w)
    (batcherDrained w) (tasks w) l (batches w).

Definition set_batches w l : actuation :=
  mkActuation (nodeDeletionTracker w) (nodeQueue w) (failuresForGroup w) (batcherDeletions w)
    (batcherDrained w) (tasks w) (timers w) l.

Definition not_in_progress w k : Prop :=
  emptyNodeDeletions (nodeDeletionTracker w) !! k = None ∧
  drainedNodeDeletions (nodeDeletionTracker w) !! k = None.

(** Each step is one critical section: a call under the scheduler's or the
    batcher's lock, the start of a node's deletion, the provider's answer to a
    batch, the report of one node of an answered batch. *)
Inductive step : actuation → actuation → Prop :=
| step_start_empty w k :
    not_in_progress w k → step w (deleteAsyncEmpty w [(home k, [k])])
| step_start_drain w k :
    not_in_progress w k → step w (deleteAsyncDrain w [(home k, [k])])
| step_abort w l1 t l2 e now :
    tasks w = l1 ++ t :: l2 →
    step w (AbortNodeDeletion (set_tasks w (l1 ++ l2)) (nt_node t) (nt_group t)
      (mkDeleteResult (Some e) NodeDeleteErrorInternal ∅) now)
| step_schedule w l1 t l2 batchSize force o now :
    tasks w = l1 ++ t :: l2 → 1 ≤ batchSize →
    step w (scheduleDeletion (set_tasks w (l1 ++ l2)) (nt_node t) (nt_group t) batchSize
      (nt_drain t) force o now)
| step_timer w w' l1 g l2 :
    timers w = l1 ++ g :: l2 → remove (set_timers w (l1 ++ l2)) g = Ok w' → step w w'
| step_cloud w l1 b l2 ngfn del out :
    batches w = l1 ++ b :: l2 → bd_outcome b = None →
    (∀ k g, ngfn k = Ok (Some g) → g = home k) →
    deleteNodesFromCloudProvider ngfn del (bd_nodes b) = Some out →
    step w (set_batches w
      (l1 ++ mkBatch (bd_group b) (bd_nodes b) (bd_drained b) (Some out) :: l2))
| step_report w l1 b l2 out k ks now :
    batches w = l1 ++ b :: l2 → bd_outcome b = Some out → bd_nodes b = k :: ks →
    step w (report_node (set_batches w
      (l1 ++ mkBatch (bd_group b) ks (bd_drained b) (Some out) :: l2)) b out k now)
| step_reset w : step w (ResetAndReportMetrics w).1.

Definition initial (ttl : Z) : actuation :=
  mkActuation (NewNodeDeletionTracker ttl) ∅ ∅ ∅ ∅ [] [] [].

Definition reachable w : Prop := ∃ ttl, rtc step (initial ttl) w.

(** ** Where a node is *)

Definition cnt {A} `{EqDecision A} (x : A) (l : list A) : nat := length (filter (x =.) l).

Lemma cnt_app {A} `{EqDecision A} (x : A) l1 l2 : cnt x (l1 ++ l2) = (cnt x l1 + cnt x l2)%nat.
Proof. unfold cnt. by rewrite filter_app, length_app. Qed.

Lemma cnt_cons {A} `{EqDecision A} (x y : A) l :
  cnt x (y :: l) = ((if decide (x = y) then 1 else 0) + cnt x l)%nat.
Proof. unfold cnt. rewrite filter_cons. by case_decide. Qed.

Lemma cnt_elem {A} `{EqDecision A} (x : A) l : x ∈ l ↔ (1 ≤ cnt x l)%nat.
Proof.
  induction l as [|y l IH]; [split; [set_solver|unfold cnt; simpl; lia]|].
  rewrite cnt_cons, elem_of_cons, IH. case_decide; naive_solver lia.
Qed.

Lemma cnt_NoDup {A} `{EqDecision A} (l : list A) : (∀ x, cnt x l ≤ 1)%nat → NoDup l.
Proof.
  induction l as [|y l IH]; intros Hl; constructor.
  - intros Hin%cnt_elem. pose proof (Hl y) as Hy. rewrite cnt_cons, decide_True in Hy by done. lia.
  - apply IH. intros x. pose proof (Hl x) as Hx. rewrite cnt_cons in Hx. lia.
Qed.

Definition bucket_of w g : list string := default [] (batcherDeletions w !! g).

Definition in_batches k g (l : list batch_deletion) : nat :=
  sum_list ((λ b, if decide (bd_group b = g) then cnt k (bd_nodes b) else 0%nat) <$> l).

Lemma in_batches_app k g l1 l2 :
  in_batches k g (l1 ++ l2) = (in_batches k g l1 + in_batches k g l2)%nat.
Proof. unfold in_batches. by rewrite fmap_app, sum_list_with_app. Qed.

Definition task_key (t : node_task) : string * string := (nt_node t, nt_group t).

(** How many goroutines, queues, buckets and batches hold node [k] of group [g]. *)
Definition holders w k g : nat :=
  (cnt (k, g) (task_key <$> tasks w) + cnt k (queue_of w g) + cnt k (bucket_of w g) +
   in_batches k g (batches w))%nat.

Definition expected (s : gmap string (string * bool)) k g : nat :=
  match s !! k with Some (g', _) => if decide (g' = g) then 1%nat else 0%nat | None => 0%nat end.

Record accounted (s : gmap string (string * bool)) w : Prop := {
  ac_abs : tracker_abs s (nodeDeletionTracker w);
  ac_home : ∀ k g d, s !! k = Some (g, d) → home k = g;
  ac_holders : ∀ k g, holders w k g = expected s k g;
  ac_outcome : ∀ b g, b ∈ batches w → bd_outcome b = Some (Ok g) → bd_group b = g ∨ bd_nodes b = [];
  ac_failed : ∀ g, failuresForGroup w !! g = Some true → queue_of w g = []
}.

Lemma expected_1 s k g : (1 ≤ expected s k g)%nat → ∃ d, s !! k = Some (g, d).
Proof.
  unfold expected. destruct (s !! k) as [[g' d]|]; [|lia]. case_decide; [subst; eauto|lia].
Qed.

Lemma expected_insert s k g d k' g' :
  s !! k = None →
  expected (<[k := (g, d)]> s) k' g' =
  (expected s k' g' + if decide ((k', g') = (k, g)) then 1 else 0)%nat.
Proof.
  intros Hk. unfold expected. destruct (decide (k = k')) as [<-|].
  - rewrite lookup_insert_eq, Hk. simpl. repeat case_decide; naive_solver.
  - rewrite lookup_insert_ne by done. rewrite (decide_False (P := (k', g') = _)) by congruence. lia.
Qed.

Lemma expected_delete s k g d k' g' :
  s !! k = Some (g, d) →
  (expected (delete k s) k' g' + if decide ((k', g') = (k, g)) then 1 else 0)%nat = expected s k' g'.
Proof.
  intros Hk. rewrite <- (insert_delete_id s k (g, d)) at 2 by done.
  by rewrite expected_insert by apply lookup_delete_eq.
Qed.

(** Moving a node from a goroutine that ends to nowhere: [k] is the node in
    hand, held by no structure of [w]. *)
Record in_hand (s : gmap string (string * bool)) w k g : Prop := {
  ih_abs : tracker_abs s (nodeDeletionTracker w);
  ih_home : ∀ k g d, s !! k = Some (g, d) → home k = g;
  ih_holders : ∀ k' g', (holders w k' g' + if decide ((k', g') = (k, g)) then 1 else 0)%nat
                        = expected s k' g';
  ih_outcome : ∀ b g, b ∈ batches w → bd_outcome b = Some (Ok g) → bd_group b = g ∨ bd_nodes b = [];
  ih_failed : ∀ g, failuresForGroup w !! g = Some true → queue_of w g = []
}.

Lemma in_hand_lookup s w k g : in_hand s w k g → ∃ d, s !! k = Some (g, d).
Proof.
  intros [_ _ Hh _ _]. apply expected_1. rewrite <- Hh, decide_True by done. lia.
Qed.

Lemma in_hand_home s w k g : in_hand s w k g → home k = g.
Proof. intros H. destruct (in_hand_lookup _ _ _ _ H) as [d Hd]. by eapply ih_home. Qed.

(** Ending the node in hand. *)
Lemma in_hand_end s w k g r now :
  in_hand s w k g →
  accounted (delete k s) (set_tracker w (EndDeletion (nodeDeletionTracker w) g k r now)).
Proof.
  intros H. destruct (in_hand_lookup _ _ _ _ H) as [d Hd]. destruct H as [Ha Hho Hh Ho Hf].
  split; simpl; [by eapply EndDeletion_abs| | |done|done].
  - intros k' g' d' [_ ?]%lookup_delete_Some. by eapply Hho.
  - intros k' g'. pose proof (expected_delete s k g d k' g' Hd). specialize (Hh k' g').
    change (holders (set_tracker w _) k' g') with (holders w k' g'). lia.
Qed.


(** ** The batcher keeps count *)

Lemma AddNodes_frame w nodes g drain :
  let w' := AddNodes w nodes g drain in
  nodeDeletionTracker w' = nodeDeletionTracker w ∧ nodeQueue w' = nodeQueue w ∧
  failuresForGroup w' = failuresForGroup w ∧ tasks w' = tasks w.
Proof.
  unfold AddNodes, addNodesToBucket. destruct (deleteInterval =? 0); [done|].
  by destruct (batcherDeletions w !! g) as [[]|].
Qed.

Lemma AddNodes_holders w nodes g drain k g' :
  holders (AddNodes w nodes g drain) k g' =
  (holders w k g' + if decide (g = g') then cnt k nodes else 0)%nat.
Proof.
  destruct (AddNodes_frame w nodes g drain) as (_ & Hq & _ & Ht).
  unfold holders, queue_of. rewrite Hq, Ht. clear Hq Ht.
  unfold AddNodes, addNodesToBucket, bucket_of.
  destruct (deleteInterval =? 0); simpl.
  { rewrite in_batches_app. unfold in_batches at 2. simpl. case_decide; lia. }
  destruct (decide (g = g')) as [<-|Hne].
  - destruct (batcherDeletions w !! g) as [[|x l]|]; simpl; rewrite lookup_insert_eq; simpl;
      rewrite ?cnt_cons, ?cnt_app; try change (cnt k []) with 0%nat; lia.
  - by destruct (batcherDeletions w !! g) as [[|x l]|]; simpl; rewrite lookup_insert_ne by done;
      rewrite Nat.add_0_r.
Qed.

Lemma AddNodes_batches w nodes g drain b :
  b ∈ batches (AddNodes w nodes g drain) →
  b ∈ batches w ∨ (bd_outcome b = None ∧ bd_nodes b = nodes).
Proof.
  unfold AddNodes, addNodesToBucket. destruct (deleteInterval =? 0); simpl.
  - intros [?| ->%list_elem_of_singleton]%elem_of_app; [by left|by right].
  - destruct (batcherDeletions w !! g) as [[]|]; by left.
Qed.

Lemma holders_set_queue w q f k g :
  (holders (set_queue w q f) k g + cnt k (queue_of w g) =
   holders w k g + cnt k (default [] (q !! g)))%nat.
Proof. unfold holders, queue_of, bucket_of. simpl. lia. Qed.

Lemma in_hand_dequeue s w k g :
  in_hand s w k g → queue_of w g = [] →
  in_hand s (set_queue w (delete g (<[g := queue_of w g ++ [k]]> (nodeQueue w)))
    (failuresForGroup w)) k g.
Proof.
  intros [Ha Hho Hh Ho Hf] Hnil. rewrite delete_insert_eq.
  split; simpl; [done|done| |done|].
  - intros k' g'. rewrite <- Hh. f_equal.
    pose proof (holders_set_queue w (delete g (nodeQueue w)) (failuresForGroup w) k' g') as Hset.
    rewrite lookup_delete in Hset.
    case_decide as Hg; [subst; rewrite Hnil in Hset|]; simpl in Hset; [lia|].
    unfold queue_of in Hset. lia.
  - intros g' Hg'. unfold queue_of. simpl. rewrite lookup_delete.
    case_decide; [done|by apply Hf].
Qed.

(** Queueing the node in hand while its group has no failure. *)
Lemma enqueue_accounted s w k g :
  in_hand s w k g → failuresForGroup w !! g ≠ Some true →
  accounted s (set_queue w (<[g := queue_of w g ++ [k]]> (nodeQueue w)) (failuresForGroup w)).
Proof.
  intros [Ha Hho Hh Ho Hf] Hnf. split; simpl; [done|done| |done|].
  - intros k' g'. rewrite <- Hh.
    pose proof (holders_set_queue w (<[g := queue_of w g ++ [k]]> (nodeQueue w))
      (failuresForGroup w) k' g') as Hset.
    rewrite lookup_insert in Hset. case_decide as Hg; simpl in Hset.
    + subst g'. rewrite cnt_app, cnt_cons in Hset. change (cnt k' []) with 0%nat in Hset.
      repeat case_decide; simplify_eq; lia.
    + rewrite decide_False by congruence. fold (queue_of w g') in Hset. lia.
  - intros g' Hg'. unfold queue_of. simpl. rewrite lookup_insert.
    case_decide; [congruence|by apply Hf].
Qed.

(** Passing the queue, the node in hand included, to the batcher. *)
Lemma flush_accounted s w k g drain :
  in_hand s w k g →
  let w1 := set_queue w (<[g := queue_of w g ++ [k]]> (nodeQueue w)) (failuresForGroup w) in
  let w2 := AddNodes w1 (queue_of w g ++ [k]) g drain in
  accounted s (set_queue w2 (<[g := []]> (nodeQueue w2)) (failuresForGroup w2)).
Proof.
  intros [Ha Hho Hh Ho Hf] w1 w2.
  destruct (AddNodes_frame w1 (queue_of w g ++ [k]) g drain) as (Et & Eq & Ef & Ek).
  fold w2 in Et, Eq, Ef, Ek. split; simpl.
  - by rewrite Et.
  - done.
  - intros k' g'. rewrite <- Hh.
    pose proof (holders_set_queue w2 (<[g := []]> (nodeQueue w2)) (failuresForGroup w2) k' g') as H2.
    pose proof (AddNodes_holders w1 (queue_of w g ++ [k]) g drain k' g') as HA. fold w2 in HA.
    pose proof (holders_set_queue w (<[g := queue_of w g ++ [k]]> (nodeQueue w))
      (failuresForGroup w) k' g') as H1. fold w1 in H1.
    assert (queue_of w2 g' = if decide (g = g') then queue_of w g ++ [k] else queue_of w g') as Hq2.
    { unfold queue_of at 1. rewrite Eq. unfold w1. simpl. rewrite lookup_insert. by case_decide. }
    rewrite Hq2 in H2. rewrite lookup_insert in H1, H2.
    destruct (decide (g = g')) as [<-|]; simpl in H1, H2.
    + rewrite cnt_app, cnt_cons in *. change (cnt k' []) with 0%nat in *.
      repeat case_decide; simplify_eq; lia.
    + rewrite decide_False by congruence. fold (queue_of w g') in H1.
      fold (queue_of w2 g') in H2. rewrite Hq2 in H2. lia.
  - intros b g' [Hb|[-> _]]%AddNodes_batches; [by apply Ho|done].
  - intros g'. rewrite Ef, Eq. unfold w1, queue_of. simpl. intros Hg'.
    rewrite !lookup_insert. case_decide; [done|by apply Hf].
Qed.

Lemma addToBatcher_accounted s w k g batchSize drain atomic now :
  in_hand s w k g → 1 ≤ batchSize →
  ∃ s', accounted s' (addToBatcher w k g batchSize drain atomic now).
Proof.
  intros H Hbs. unfold addToBatcher. simpl.
  destruct (atomic && default false (failuresForGroup w !! g)) eqn:Hfail.
  - apply andb_true_iff in Hfail as [-> Hfail]. simpl.
    rewrite (proj2 (Z.ltb_lt _ _)).
    2:{ unfold queue_of. simpl. rewrite lookup_delete_eq. simpl. lia. }
    exists (delete k s).
    refine (in_hand_end s (set_queue w (delete g (<[g := queue_of w g ++ [k]]> (nodeQueue w)))
      (failuresForGroup w)) k g _ now (in_hand_dequeue _ _ _ _ H _)).
    apply (ih_failed _ _ _ _ H). by destruct (failuresForGroup w !! g) as [[]|].
  - exists s. set (w1 := set_queue w _ _).
    assert (queue_of w1 g = queue_of w g ++ [k]) as Hq1
      by (unfold w1, queue_of; simpl; by rewrite lookup_insert_eq).
    case_match eqn:Hsize.
    + apply andb_true_iff in Hsize as [-> _]. apply enqueue_accounted; [done|].
      by destruct (failuresForGroup w !! g) as [[]|].
    + rewrite Hq1. by apply flush_accounted.
Qed.

(** ** Aborting *)

(** Ending a list of nodes of one group. *)
Lemma end_all_abs (r : NodeDeleteResult) now g (l : list string) : ∀ s w,
  tracker_abs s (nodeDeletionTracker w) → NoDup l → (∀ k, k ∈ l → ∃ d, s !! k = Some (g, d)) →
  let w' := foldl (λ w other, CleanUpAndRecordFailedScaleDownEvent w other g r now) w l in
  tracker_abs (foldl (λ s k, delete k s) s l) (nodeDeletionTracker w') ∧
  w' = set_tracker w (nodeDeletionTracker w').
Proof.
  induction l as [|k l IH]; intros s w Ha Hnd Hl; simpl; [by destruct w|].
  apply NoDup_cons in Hnd as [Hk Hnd]. destruct (Hl k) as [d Hd]; [left|].
  destruct (IH (delete k s) (CleanUpAndRecordFailedScaleDownEvent w k g r now)) as [Habs Hw].
  - by eapply EndDeletion_abs.
  - done.
  - intros k' Hk'. rewrite lookup_delete_ne by set_solver. apply Hl. by right.
  - split; [done|]. rewrite Hw at 1. done.
Qed.

Lemma lookup_delete_all (l : list string) (s : gmap string (string * bool)) k :
  foldl (λ s k, delete k s) s l !! k = if decide (k ∈ l) then None else s !! k.
Proof.
  revert s. induction l as [|k' l IH]; intros s; simpl; [done|].
  rewrite IH, lookup_delete. repeat case_decide; set_solver.
Qed.


Lemma queue_expected s w k g k' :
  in_hand s w k g → k' ∈ queue_of w g → k' ≠ k ∧ ∃ d, s !! k' = Some (g, d).
Proof.
  intros [_ _ Hh _ _] Hq%cnt_elem. specialize (Hh k' g).
  assert (cnt k' (queue_of w g) ≤ holders w k' g)%nat by (unfold holders; lia).
  assert (expected s k' g ≤ 1)%nat by (unfold expected; repeat case_match; lia).
  split; [intros ->; rewrite decide_True in Hh by done; lia|]. apply expected_1. lia.
Qed.

Lemma queue_NoDup s w k g : in_hand s w k g → NoDup (queue_of w g).
Proof.
  intros [_ _ Hh _ _]. apply cnt_NoDup. intros k'. specialize (Hh k' g).
  assert (expected s k' g ≤ 1)%nat by (unfold expected; repeat case_match; lia).
  unfold holders in Hh. lia.
Qed.

Lemma foldl_skip_absent {S} (f : S → string → S) k l s :
  k ∉ l → foldl (λ s x, if decide (x = k) then s else f s x) s l = foldl f s l.
Proof.
  revert s. induction l as [|x l IH]; intros s Hk; simpl; [done|].
  rewrite decide_False by set_solver. apply IH. set_solver.
Qed.

Lemma AbortNodeDeletion_accounted s w k g r now :
  in_hand s w k g → ∃ s', accounted s' (AbortNodeDeletion w k g r now).
Proof.
  intros H. unfold AbortNodeDeletion.
  destruct (in_hand_lookup _ _ _ _ H) as [d Hd].
  pose proof (λ k', queue_expected s w k g k' H) as Hq. pose proof (queue_NoDup _ _ _ _ H) as Hnd.
  set (r' := failed_result _). set (w1 := CleanUpAndRecordFailedScaleDownEvent _ k g r now).
  change (queue_of w1 g) with (queue_of w g).
  rewrite (foldl_skip_absent (λ w other, CleanUpAndRecordFailedScaleDownEvent w other g r' now))
    by (intros Hk%Hq; naive_solver).
  destruct (end_all_abs r' now g (queue_of w g) (delete k s) w1) as [Habs Hw].
  { eapply EndDeletion_abs; [apply H|done]. }
  { done. }
  { intros k' Hk'. destruct (Hq k' Hk') as [? [d' ?]]. exists d'. by rewrite lookup_delete_ne. }
  rewrite Hw. simpl. exists (foldl (λ s k, delete k s) (delete k s) (queue_of w g)).
  destruct H as [Ha Hho Hh Ho Hf]. split; simpl; [done| | |done|].
  - intros k' g' d'. rewrite lookup_delete_all. case_decide; [done|].
    intros [_ ?]%lookup_delete_Some. by eapply Hho.
  - intros k' g'. set (w' := set_queue _ _ _).
    assert (holders w' k' g' + (if decide (g = g') then cnt k' (queue_of w g) else 0) =
      holders w k' g')%nat as Hw'.
    { unfold holders, queue_of, bucket_of, w'. simpl. rewrite lookup_delete.
      repeat case_decide; subst; simpl; try change (cnt k' []) with 0%nat; lia. }
    pose proof (expected_delete s k g d k' g' Hd) as Hdel. specialize (Hh k' g').
    unfold expected at 1. rewrite lookup_delete_all.
    destruct (decide (k' ∈ queue_of w g)) as [Hin|Hout].
    + destruct (Hq k' Hin) as [Hne [d' Hd']]. rewrite decide_False in Hdel, Hh by congruence.
      apply cnt_elem in Hin. unfold expected in Hh. rewrite Hd' in Hh.
      repeat case_decide; subst; lia.
    + assert (cnt k' (queue_of w g) = 0)%nat by (rewrite cnt_elem in Hout; lia).
      change (match delete k s !! k' with
        | Some (g', _) => _ | None => _ end) with (expected (delete k s) k' g').
      repeat case_decide; simplify_eq; lia.
  - intros g'. unfold queue_of. simpl. rewrite lookup_delete, lookup_insert.
    intros Hg'. repeat case_decide; try done. by apply Hf.
Qed.

(** ** Every step keeps count *)

Lemma take_task s w l1 t l2 :
  accounted s w → tasks w = l1 ++ t :: l2 →
  in_hand s (set_tasks w (l1 ++ l2)) (nt_node t) (nt_group t).
Proof.
  intros [Ha Hho Hh Ho Hf] Ht. split; simpl; [done|done| |done|done].
  intros k g. rewrite <- Hh. unfold holders, queue_of, bucket_of. simpl.
  rewrite Ht, !fmap_app, fmap_cons, !cnt_app, cnt_cons.
  change (task_key t) with (nt_node t, nt_group t). case_decide; lia.
Qed.

Lemma scheduleDeletion_accounted s w k g bs drain force o now :
  in_hand s w k g → 1 ≤ bs → ∃ s', accounted s' (scheduleDeletion w k g bs drain force o now).
Proof.
  intros H Hbs. unfold scheduleDeletion.
  destruct (so_opts o) as [opts oe].
  destruct oe as [[|e]|]; simpl; [|by eapply AbortNodeDeletion_accounted|];
    (destruct (ResultErr (prepareNodeForDeletion o drain));
      [destruct force; [destruct (so_force_err o)|]|]);
    eauto using AbortNodeDeletion_accounted, addToBatcher_accounted.
Qed.

Lemma start_accounted s w k (drain : bool) t' :
  accounted s w → not_in_progress w k →
  (∀ s, tracker_abs s (nodeDeletionTracker w) → s !! k = None →
     tracker_abs (<[k := (home k, drain)]> s) t') →
  accounted (<[k := (home k, drain)]> s)
    (set_tasks (set_tracker w t') (tasks w ++ [mkTask k (home k) drain])).
Proof.
  intros [Ha Hho Hh Ho Hf] [Hn1 Hn2] Ht.
  assert (s !! k = None) as Hk.
  { destruct Ha as [He Hd _]. rewrite He in Hn1. rewrite Hd in Hn2.
    by destruct (s !! k) as [[? []]|]. }
  split; simpl; [by apply Ht| | |done|done].
  - intros k' g' d' [[<- [= <- _]]|[_ ?]]%lookup_insert_Some; [done|by eapply Hho].
  - intros k' g'. rewrite expected_insert, <- Hh by done.
    unfold holders, queue_of, bucket_of. simpl. rewrite fmap_app, cnt_app. simpl.
    rewrite cnt_cons. change (task_key (mkTask k (home k) drain)) with (k, home k).
    change (cnt _ []) with 0%nat. lia.
Qed.

Lemma remove_accounted s w w' l1 g l2 :
  accounted s w → timers w = l1 ++ g :: l2 → remove (set_timers w (l1 ++ l2)) g = Ok w' →
  accounted s w'.
Proof.
  intros [Ha Hho Hh Ho Hf] Ht. unfold remove. simpl.
  destruct (batcherDeletions w !! g) as [nodes|] eqn:Hb; [|done].
  destruct (foldl _ (∅, batcherDrained w) nodes) as [moved rest]. intros [= <-].
  split; simpl; [done|done| | |done].
  - intros k g'. rewrite <- Hh. unfold holders, queue_of, bucket_of. simpl.
    rewrite in_batches_app, lookup_delete. unfold in_batches at 2. simpl.
    destruct (decide (g = g')) as [<-|]; simpl; [rewrite Hb; simpl|]; [|lia].
    change (cnt k []) with 0%nat. lia.
  - intros b g' [?| ->%list_elem_of_singleton]%elem_of_app; [by apply Ho|done].
Qed.

Lemma in_batches_middle k g l1 b l2 :
  in_batches k g (l1 ++ b :: l2) =
  (in_batches k g (l1 ++ l2) + if decide (bd_group b = g) then cnt k (bd_nodes b) else 0)%nat.
Proof.
  rewrite !in_batches_app. change (b :: l2) with ([b] ++ l2). rewrite in_batches_app.
  unfold in_batches at 2. simpl. lia.
Qed.

Lemma batch_node_expected s w l1 b l2 k :
  accounted s w → batches w = l1 ++ b :: l2 → k ∈ bd_nodes b → ∃ d, s !! k = Some (bd_group b, d).
Proof.
  intros [_ _ Hh _ _] Hb Hk%cnt_elem. apply expected_1. rewrite <- Hh. unfold holders.
  rewrite Hb, in_batches_middle, decide_True by done. lia.
Qed.

Lemma cloud_accounted s w l1 b l2 ngfn del out :
  accounted s w → batches w = l1 ++ b :: l2 →
  (∀ k g, ngfn k = Ok (Some g) → g = home k) →
  deleteNodesFromCloudProvider ngfn del (bd_nodes b) = Some out →
  accounted s (set_batches w
    (l1 ++ mkBatch (bd_group b) (bd_nodes b) (bd_drained b) (Some out) :: l2)).
Proof.
  intros Hac Hb Hng Hdel. pose proof Hac as [Ha Hho Hh Ho Hf].
  split; simpl; [done|done| | |done].
  - intros k g. rewrite <- Hh. unfold holders, queue_of, bucket_of. simpl.
    by rewrite Hb, !in_batches_middle.
  - intros b' g. rewrite elem_of_app, elem_of_cons. intros Hin Hout.
    assert (b' ∈ l1 ++ b :: l2 ∨ b' = mkBatch (bd_group b) (bd_nodes b) (bd_drained b) (Some out))
      as [Hin'| ->] by set_solver; [rewrite <- Hb in Hin'; by apply Ho|].
    left. simpl in *. destruct (bd_nodes b) as [|k ks] eqn:Hn; [done|]. simpl in Hdel.
    assert (k ∈ bd_nodes b) as Hk by (rewrite Hn; left).
    destruct (batch_node_expected _ _ _ _ _ _ Hac Hb Hk) as [d Hd].
    apply Hho in Hd. rewrite <- Hd.
    destruct (ngfn k) as [[g'|]|] eqn:Hg; [|congruence..]. apply Hng in Hg as ->.
    destruct (del (home k) (k :: ks)); congruence.
Qed.

Lemma report_accounted s w l1 b l2 out k ks now :
  accounted s w → batches w = l1 ++ b :: l2 → bd_outcome b = Some out → bd_nodes b = k :: ks →
  ∃ s', accounted s' (report_node (set_batches w
    (l1 ++ mkBatch (bd_group b) ks (bd_drained b) (Some out) :: l2)) b out k now).
Proof.
  intros Hac Hb Hout Hn.
  assert (in_hand s (set_batches w
    (l1 ++ mkBatch (bd_group b) ks (bd_drained b) (Some out) :: l2)) k (bd_group b)) as Hin.
  { destruct Hac as [Ha Hho Hh Ho Hf]. split; simpl; [done|done| | |done].
    - intros k' g'. rewrite <- Hh. unfold holders, queue_of, bucket_of. simpl.
      rewrite Hb, !in_batches_middle, Hn, cnt_cons. simpl.
      repeat case_decide; simplify_eq; lia.
    - intros b' g. rewrite elem_of_app, elem_of_cons. intros Hin Hout'.
      assert (b' ∈ batches w ∨ b' = mkBatch (bd_group b) ks (bd_drained b) (Some out))
        as [Hin'| ->] by (rewrite Hb; set_solver); [by apply Ho|]. simpl in *.
      left. destruct (Ho b g) as [?|Hnil]; [rewrite Hb; set_solver|congruence|done|].
      by rewrite Hn in Hnil. }
  exists (delete k s). unfold report_node. destruct out as [g|e].
  - destruct (ac_outcome _ _ Hac b g) as [<-|Hnil]; [rewrite Hb; set_solver|done| |by rewrite Hn in Hnil].
    by apply in_hand_end.
  - by apply in_hand_end.
Qed.

Lemma step_accounted s w w' : accounted s w → step w w' → ∃ s', accounted s' w'.
Proof.
  intros Hac Hstep. destruct Hstep.
  - eexists. apply (start_accounted s w k false); [done..|].
    intros. by apply StartDeletion_abs.
  - eexists. apply (start_accounted s w k true); [done..|].
    intros. by apply StartDeletionWithDrain_abs.
  - eapply AbortNodeDeletion_accounted. by eapply take_task.
  - eapply scheduleDeletion_accounted; [|done]. by eapply take_task.
  - eexists. by eapply remove_accounted.
  - eexists. by eapply cloud_accounted.
  - by eapply report_accounted.
  - exists s. destruct Hac as [Ha Hho Hh Ho Hf]. by split.
Qed.

Lemma reachable_accounted w : reachable w → ∃ s, accounted s w.
Proof.
  intros [ttl Hr]. eapply (rtc_ind_r (λ w, ∃ s, accounted s w)); [| |exact Hr].
  - exists ∅. split; simpl; [apply tracker_abs_new|done| |set_solver|done].
    intros k g. unfold expected. by rewrite lookup_empty.
  - intros w1 w2 _ Hstep [s Hs]. by eapply step_accounted.
Qed.


(** ** Timers and batches *)

Record batches_ok w : Prop := {
  bo_timers : ∀ g, cnt g (timers w) =
    match batcherDeletions w !! g with Some _ => 1%nat | None => 0%nat end;
  bo_buckets : ∀ g l, batcherDeletions w !! g = Some l → l ≠ [];
  bo_batches : ∀ b, b ∈ batches w → bd_outcome b = None → bd_nodes b ≠ []
}.

(** The parts of the state the batcher owns. *)
Definition same_batches w w' : Prop :=
  timers w' = timers w ∧ batcherDeletions w' = batcherDeletions w ∧ batches w' = batches w.

Lemma batches_ok_same w w' : same_batches w w' → batches_ok w → batches_ok w'.
Proof. intros (Ht & Hd & Hb) [H1 H2 H3]. split; rewrite ?Ht, ?Hd, ?Hb; done. Qed.

Lemma AddNodes_batches_ok w nodes g drain :
  batches_ok w → nodes ≠ [] → batches_ok (AddNodes w nodes g drain).
Proof.
  intros [Ht Hb Hn] Hne. unfold AddNodes, addNodesToBucket.
  destruct (deleteInterval =? 0).
  { split; simpl; [done|done|]. intros b [?| ->%list_elem_of_singleton]%elem_of_app; [by apply Hn|done]. }
  destruct (batcherDeletions w !! g) as [[|x l]|] eqn:Hg.
  - by apply Hb in Hg.
  - split; simpl; [| |done].
    + intros g'. rewrite Ht, lookup_insert. case_decide; [subst; by rewrite Hg|done].
    + intros g' l' [[_ <-]|[_ ?]]%lookup_insert_Some; [done|by eapply Hb].
  - split; simpl; [| |done].
    + intros g'. rewrite cnt_app, cnt_cons, Ht, lookup_insert. change (cnt g' []) with 0%nat.
      destruct (decide (g = g')) as [<-|]; [by rewrite Hg, decide_True|].
      rewrite decide_False by done. lia.
    + intros g' l' [[_ <-]|[_ ?]]%lookup_insert_Some; [done|by eapply Hb].
Qed.

Lemma foldl_cleanup_same k g r now l : ∀ w,
  same_batches w (foldl (λ w other, if decide (other = k) then w
    else CleanUpAndRecordFailedScaleDownEvent w other g r now) w l).
Proof.
  induction l as [|x l IH]; intros w; simpl; [done|].
  destruct (IH (if decide (x = k) then w
    else CleanUpAndRecordFailedScaleDownEvent w x g r now)) as (H1 & H2 & H3).
  unfold same_batches. rewrite H1, H2, H3. by case_decide.
Qed.

Lemma AbortNodeDeletion_same w k g r now : same_batches w (AbortNodeDeletion w k g r now).
Proof.
  unfold AbortNodeDeletion. set (w1 := CleanUpAndRecordFailedScaleDownEvent _ k g r now).
  destruct (foldl_cleanup_same k g
    (failed_result "couldn't scale down other nodes in this node group") now (queue_of w1 g) w1)
    as (H1 & H2 & H3). unfold same_batches. simpl in *. by rewrite H1, H2, H3.
Qed.

Lemma addToBatcher_batches_ok w k g bs drain atomic now :
  batches_ok w → 1 ≤ bs → batches_ok (addToBatcher w k g bs drain atomic now).
Proof.
  intros Hok Hbs. unfold addToBatcher. simpl.
  destruct (atomic && default false (failuresForGroup w !! g)) eqn:Hfail.
  - apply andb_true_iff in Hfail as [-> _]. rewrite (proj2 (Z.ltb_lt _ _)).
    2:{ unfold queue_of. simpl. rewrite lookup_delete_eq. simpl. lia. }
    by apply (batches_ok_same w).
  - case_match; [by apply (batches_ok_same w)|].
    set (w1 := set_queue w _ _). apply (batches_ok_same (AddNodes w1 (queue_of w1 g) g drain)); [done|].
    apply AddNodes_batches_ok; [by apply (batches_ok_same w)|].
    unfold queue_of. simpl. rewrite lookup_insert_eq. simpl. apply app_not_nil_r.
Qed.

Lemma scheduleDeletion_batches_ok w k g bs drain force o now :
  batches_ok w → 1 ≤ bs → batches_ok (scheduleDeletion w k g bs drain force o now).
Proof.
  intros Hok Hbs. unfold scheduleDeletion.
  assert (∀ r, batches_ok (AbortNodeDeletion w k g r now)) as Habort
    by (intros r; eapply batches_ok_same; [apply AbortNodeDeletion_same|done]).
  destruct (so_opts o) as [opts oe].
  destruct oe as [[|e]|]; simpl; [|done|];
    (destruct (ResultErr (prepareNodeForDeletion o drain));
      [destruct force; [destruct (so_force_err o)|]|]);
    eauto using addToBatcher_batches_ok.
Qed.

Lemma remove_batches_ok w w' l1 g l2 :
  batches_ok w → timers w = l1 ++ g :: l2 → remove (set_timers w (l1 ++ l2)) g = Ok w' →
  batches_ok w'.
Proof.
  intros [Ht Hb Hn] Hti. unfold remove. simpl.
  destruct (batcherDeletions w !! g) as [nodes|] eqn:Hg; [|done].
  destruct (foldl _ (∅, batcherDrained w) nodes) as [moved rest]. intros [= <-].
  split; simpl.
  - intros g'. specialize (Ht g'). rewrite Hti, cnt_app, cnt_cons in Ht.
    rewrite cnt_app, lookup_delete. destruct (decide (g = g')) as [<-|].
    + rewrite Hg, decide_True in Ht by done. lia.
    + rewrite decide_False in Ht by done. lia.
  - intros g' l [_ ?]%lookup_delete_Some. by eapply Hb.
  - intros b [?| ->%list_elem_of_singleton]%elem_of_app; [by apply Hn|]. intros _. by eapply Hb.
Qed.

Lemma step_batches_ok w w' : batches_ok w → step w w' → batches_ok w'.
Proof.
  intros Hok Hstep. destruct Hstep as [ | | | | | w l1 b l2 ? ? ? Hb| w l1 b l2 out k ks now Hb|].
  - by apply (batches_ok_same w).
  - by apply (batches_ok_same w).
  - eapply batches_ok_same; [apply AbortNodeDeletion_same|]. by apply (batches_ok_same w).
  - apply scheduleDeletion_batches_ok; [by apply (batches_ok_same w)|done].
  - by eapply remove_batches_ok.
  - destruct Hok as [? ? Hn]. split; simpl; [done|done|].
    intros b' Hb' Hout. apply Hn; [|done]. rewrite Hb. rewrite elem_of_app, elem_of_cons in *.
    destruct Hb' as [?|[->|?]]; [by left|done|by right; right].
  - assert (batches_ok (set_batches w
      (l1 ++ mkBatch (bd_group b) ks (bd_drained b) (Some out) :: l2))) as Hok'.
    { destruct Hok as [? ? Hn]. split; simpl; [done|done|].
      intros b' Hb' Hout. apply Hn; [|done]. rewrite Hb. rewrite elem_of_app, elem_of_cons in *.
      destruct Hb' as [?|[->|?]]; [by left|done|by right; right]. }
    unfold report_node. destruct out; (eapply batches_ok_same; [|exact Hok']; done).
  - by apply (batches_ok_same w).
Qed.

Lemma reachable_batches_ok w : reachable w → batches_ok w.
Proof.
  intros [ttl Hr]. eapply (rtc_ind_r batches_ok); [| |exact Hr].
  - split; simpl; [done|done|set_solver].
  - intros w1 w2 _ Hstep Hok. by eapply step_batches_ok.
Qed.

(** C17. No deletion is lost or doubled: in every reachable state of scheduler,
    batcher and their goroutines, a node the tracker reports as being deleted
    is held by exactly one of them (a node goroutine, the queue, a bucket or
    a batch of its group), and nothing holds a node the tracker does not
    report. Every node therefore ends its deletion exactly once. *)
Theorem actuation_accounting w k :
  reachable w →
  let '(empty, drained) := DeletionsInProgress (nodeDeletionTracker w) in
  (k ∈ empty ++ drained → holders w k (home k) = 1%nat) ∧
  (k ∉ empty ++ drained → ∀ g, holders w k g = 0%nat) ∧
  (∀ g, g ≠ home k → holders w k g = 0%nat).
Proof.
  intros [s [Ha Hho Hh Ho Hf]]%reachable_accounted. unfold DeletionsInProgress.
  assert (k ∈ mapKeysSlice (emptyNodeDeletions (nodeDeletionTracker w)) ++
    mapKeysSlice (drainedNodeDeletions (nodeDeletionTracker w)) ↔ is_Some (s !! k)) as Hin.
  { destruct Ha as [He Hd _]. rewrite elem_of_app.
    rewrite (keys_abs _ s false), (keys_abs _ s true).
    2,3: intros i; rewrite ?He, ?Hd; by destruct (s !! i) as [[? []]|].
    split; [by intros [[? ->]|[? ->]]|]. intros [[g []] Hk]; [right|left]; eauto. }
  rewrite !Hin. split_and!.
  - intros [[g d] Hk]. rewrite Hh. unfold expected. rewrite Hk, decide_True; [done|].
    symmetry. by eapply Hho.
  - intros Hk g. rewrite Hh. unfold expected. destruct (s !! k); [|done]. by destruct Hk.
  - intros g Hg. rewrite Hh. unfold expected. destruct (s !! k) as [[g' d]|] eqn:Hk; [|done].
    apply Hho in Hk. by rewrite decide_False by congruence.
Qed.

(** C33. Deletions do not leak: once no goroutine, queue, bucket or batch holds a
    node, the tracker reports no deletion in progress and every group's
    counter is zero. *)
Theorem actuation_quiescent w :
  reachable w →
  tasks w = [] → (∀ g, queue_of w g = []) → (∀ g, bucket_of w g = []) →
  (∀ b, b ∈ batches w → bd_nodes b = []) →
  DeletionsInProgress (nodeDeletionTracker w) = ([], []) ∧
  ∀ g, DeletionsCount (nodeDeletionTracker w) g = 0.
Proof.
  intros [s [Ha Hho Hh Ho Hf]]%reachable_accounted Ht Hq Hbu Hba.
  assert (s = ∅) as ->.
  { apply map_empty. intros k. destruct (s !! k) as [[g d]|] eqn:Hk; [|done].
    specialize (Hh k g). unfold expected, holders in Hh.
    rewrite Hk, decide_True, Ht, Hq, Hbu in Hh by done. simpl in Hh.
    assert (in_batches k g (batches w) = 0%nat) as Hz.
    { clear -Hba. unfold in_batches. induction (batches w) as [|b l IH]; [done|].
      csimpl. rewrite IH by (intros; apply Hba; by right).
      rewrite (Hba b) by left. by case_decide. }
    rewrite Hz in Hh. done. }
  destruct Ha as [He Hd Hc]. split.
  - unfold DeletionsInProgress, mapKeysSlice.
    assert (∀ m : gmap string bool, (∀ k, m !! k = None) → (go_range m).*1 = []) as Hnil.
    { intros m Hm%map_empty. subst m. pose proof (length_go_range (∅ : gmap string bool)) as Hl.
      rewrite map_size_empty in Hl. by destruct (go_range ∅). }
    rewrite !Hnil; [done|..]; intros k; [rewrite Hd|rewrite He]; by rewrite lookup_empty.
  - intros g. unfold DeletionsCount, counter. rewrite Hc. unfold group_size.
    by rewrite map_filter_empty, map_size_empty.
Qed.

(** The batcher's goroutines never go wrong: a timer that fires always finds
    its bucket, every bucket has exactly one timer running and holds a node,
    and the provider is never called with an empty batch (which would index
    an empty slice). *)
Theorem batcher_never_fails w :
  reachable w →
  (∀ g, g ∈ timers w → is_ok (remove w g) = true) ∧
  (∀ g l, batcherDeletions w !! g = Some l → l ≠ [] ∧ cnt g (timers w) = 1%nat) ∧
  (∀ b ngfn del, b ∈ batches w → bd_outcome b = None →
     deleteNodesFromCloudProvider ngfn del (bd_nodes b) ≠ None).
Proof.
  intros [Ht Hb Hn]%reachable_batches_ok. split_and!.
  - intros g Hg%cnt_elem. rewrite Ht in Hg. unfold remove.
    destruct (batcherDeletions w !! g); [|lia]. by destruct (foldl _ _ _).
  - intros g l Hl. split; [by eapply Hb|]. by rewrite Ht, Hl.
  - intros b ngfn del Hin Hout. pose proof (Hn b Hin Hout). by destruct (bd_nodes b).
Qed.

(** A node of an atomic group joins the queue until the group is complete:
    addToBatcher either queues the node, or passes the whole queue, which then
    has exactly batchSize nodes, to the batcher and empties it; after a
    failure in the group it ends the node's deletion and passes nothing on. *)
Theorem atomic_batches_complete w k g batchSize drain now :
  ⟪ queue_of w g ⟫ < batchSize →
  let w' := addToBatcher w k g batchSize drain true now in
  let queue := queue_of w g ++ [k] in
  if default false (failuresForGroup w !! g) then
    same_batches w w' ∧ queue_of w' g = [] ∧
    nodeDeletionTracker w' = EndDeletion (nodeDeletionTracker w) g k
      (failed_result "couldn't scale down other nodes in this node group") now
  else if decide (⟪ queue ⟫ < batchSize) then
    same_batches w w' ∧ queue_of w' g = queue ∧ nodeDeletionTracker w' = nodeDeletionTracker w
  else
    ⟪ queue ⟫ = batchSize ∧ queue_of w' g = [] ∧
    nodeDeletionTracker w' = nodeDeletionTracker w ∧
    same_batches (AddNodes w queue g drain) w'.
Proof.
  intros Hlen. unfold addToBatcher. simpl.
  destruct (default false (failuresForGroup w !! g)) eqn:Hfail.
  - rewrite (proj2 (Z.ltb_lt _ _)).
    2:{ unfold queue_of at 1. simpl. rewrite lookup_delete_eq. simpl. lia. }
    split_and!; [done|unfold queue_of; simpl; by rewrite lookup_delete_eq|done].
  - set (w1 := set_queue w _ _).
    assert (queue_of w1 g = queue_of w g ++ [k]) as Hq1
      by (unfold w1, queue_of; simpl; by rewrite lookup_insert_eq).
    rewrite Hq1. case_decide as Hsz.
    + rewrite (proj2 (Z.ltb_lt _ _)) by done. done.
    + rewrite (proj2 (Z.ltb_ge _ _)) by lia.
      rewrite length_app in *. simpl in *.
      destruct (AddNodes_frame w1 (queue_of w g ++ [k]) g drain) as (Et & Eq & _ & _).
      split_and!; [lia|unfold queue_of; simpl; by rewrite lookup_insert_eq|by simpl; rewrite Et|].
      unfold AddNodes, addNodesToBucket, w1, same_batches. simpl.
      destruct (deleteInterval =? 0); [done|]. by destruct (batcherDeletions w !! g) as [[]|].
Qed.

End actuation.

(** deleteNodesAsync decides about each of its nodes exactly once, in order; a
    node deleted as empty is scheduled only if it still has no pod to move and
    no pod running to completion, and a scheduled batch size is at least 1,
    the precondition of the scheduling step. *)
Theorem async_decides_every_node nodes drain batchSize snapshotErr pdbErr answer :
  0 ≤ batchSize →
  let verdicts := deleteNodesAsync nodes drain batchSize snapshotErr pdbErr answer in
  verdicts.*1 = nodes ∧
  ∀ k bs, (k, VSchedule bs) ∈ verdicts →
    1 ≤ bs ∧ snapshotErr = None ∧
    (if drain then pdbErr = None ∧ ∃ pods onc, answer k = Ok (Ok (pods, onc))
     else answer k = Ok (Ok (0, 0)))%nat.
Proof.
  intros Hbs. unfold deleteNodesAsync. cbv zeta. destruct nodes as [|n0 nodes']; [set_solver|].
  set (nodes := n0 :: nodes'). assert (1 ≤ ⟪ nodes ⟫) as Hlen by (simpl; lia).
  clearbody nodes. assert (∀ f : string → verdict, ((λ k, (k, f k)) <$> nodes).*1 = nodes) as Hfst.
  { intros f. rewrite <- list_fmap_compose. apply list_fmap_id. }
  destruct snapshotErr as [e|]; [split; [apply (Hfst (λ _, VAbort e))|]|].
  { intros k bs (k' & [=] & _)%list_elem_of_fmap. }
  destruct (if drain then pdbErr else None) as [e|] eqn:Hpdb; [split; [apply (Hfst (λ _, VAbort e))|]|].
  { intros k bs (k' & [=] & _)%list_elem_of_fmap. }
  split; [apply Hfst|]. intros k bs (k' & [= -> Hv] & _)%list_elem_of_fmap.
  destruct (answer k') as [[[pods onc]|e]|e]; [|done|done].
  assert (1 ≤ if batchSize =? 0 then ⟪ nodes ⟫ else batchSize) by (destruct (Z.eqb_spec batchSize 0); lia).
  destruct drain; [injection Hv as ->; naive_solver|].
  destruct (pods =? 0)%nat eqn:Hp; [|done]. destruct (onc =? 0)%nat eqn:Ho; [|done].
  apply Nat.eqb_eq in Hp as ->. apply Nat.eqb_eq in Ho as ->. injection Hv as ->. done.
Qed.
(** ** Concrete runs *)

Section demo.
Definition demo_home (k : string) : string := "g".
Definition demo_oracle (atomic : bool) : schedule_oracle :=
  mkOracle (Some (mkOptions (of_int 0) (of_int 0) 600 1200 900 900 atomic false false), None) None None None.

Definition demo_start : actuation := deleteAsyncEmpty (initial 10) [("g", ["a"])].
Definition demo_scheduled : actuation :=
  scheduleDeletion 0 (set_tasks demo_start []) "a" "g" 1 false false (demo_oracle false) 5.
Definition demo_batch (nodes : list string) (out : option (result string string)) : batch_deletion :=
  mkBatch "g" nodes {["a" := false]} out.
Definition demo_reported : actuation :=
  report_node (set_batches demo_scheduled [demo_batch [] (Some (Ok "g"))])
    (demo_batch ["a"] (Some (Ok "g"))) (Ok "g") "a" 6.

Lemma demo_start_reachable : reachable 0 demo_home demo_start.
Proof. exists 10. apply rtc_once. by apply (step_start_empty 0 demo_home (initial 10) "a"). Qed.

Lemma demo_scheduled_reachable : reachable 0 demo_home demo_scheduled.
Proof.
  destruct demo_start_reachable as [ttl H]. exists ttl. eapply rtc_r; [exact H|].
  by apply (step_schedule 0 demo_home demo_start [] (mkTask "a" "g" false) [] 1 false
    (demo_oracle false) 5).
Qed.

Lemma demo_reported_reachable : reachable 0 demo_home demo_reported.
Proof.
  destruct demo_scheduled_reachable as [ttl H]. exists ttl.
  apply (rtc_r _ (set_batches demo_scheduled [demo_batch ["a"] (Some (Ok "g"))]));
    [apply (rtc_r _ demo_scheduled); [exact H|]|].
  - apply (step_cloud 0 demo_home demo_scheduled [] (demo_batch ["a"] None) []
      (λ _, Ok (Some "g")) (λ _ _, None) (Ok "g")); [done|done| |done]. by intros k g [= <-].
  - by apply (step_report 0 demo_home
      (set_batches demo_scheduled [demo_batch ["a"] (Some (Ok "g"))]) [] (demo_batch ["a"] (Some (Ok "g"))) [] (Ok "g") "a" [] 6).
Qed.
End demo.

Lemma actuation_accounting_witness : holders demo_scheduled "a" "g" = 1%nat.
Proof.
  apply (actuation_accounting 0 demo_home demo_scheduled "a" demo_scheduled_reachable).
  apply list_elem_of_lookup. exists 0%nat. vm_compute. reflexivity.
Defined.

Lemma actuation_quiescent_witness : DeletionsCount (nodeDeletionTracker demo_reported) "g" = 0.
Proof.
  apply (actuation_quiescent 0 demo_home demo_reported demo_reported_reachable); [vm_compute; reflexivity|..].
  - intros g. unfold queue_of. change (nodeQueue demo_reported) with ({["g" := []]} : gmap string (list string)).
    destruct ({["g" := []]} !! g) as [l|] eqn:Hl; [|reflexivity].
    apply lookup_singleton_Some in Hl as [_ <-]. reflexivity.
  - intros g. reflexivity.
  - intros b Hb. change (batches demo_reported) with [demo_batch [] (Some (Ok "g"))] in Hb.
    apply list_elem_of_singleton in Hb as ->. reflexivity.
Defined.

Lemma batcher_never_fails_witness :
  deleteNodesFromCloudProvider (λ _, Ok (Some "g")) (λ _ _, None) ["a"] ≠ None.
Proof.
  apply (batcher_never_fails 0 demo_home demo_scheduled demo_scheduled_reachable)
    with (b := demo_batch ["a"] None); [|reflexivity].
  apply list_elem_of_lookup. exists 0%nat. vm_compute. reflexivity.
Defined.

Lemma atomic_batches_complete_witness :
  queue_of (addToBatcher 0 (initial 10) "a" "g" 2 false true 5) "g" = ["a"].
Proof.
  apply (atomic_batches_complete 0 (initial 10) "a" "g" 2 false 5). vm_compute. reflexivity.
Defined.

(** Clearing the failures at the start of a scale-down phase can strand a node:
    [a] and [b] of an atomic group are being deleted, [a] fails, the next
    phase resets the failures, and [b] then waits in the queue for a batch of
    two, with no goroutine, timer or batch left that could end its deletion. *)
Definition stranded : actuation :=
  let w := deleteAsyncEmpty (initial 10) [("g", ["a"; "b"])] in
  let w := AbortNodeDeletion (set_tasks w [mkTask "b" "g" false]) "a" "g"
             (mkDeleteResult (Some "not empty") NodeDeleteErrorInternal ∅) 5 in
  let w := (ResetAndReportMetrics w).1 in
  scheduleDeletion 0 (set_tasks w []) "b" "g" 2 false false (demo_oracle true) 6.

Theorem reset_strands_queued_nodes :
  reachable 0 demo_home stranded ∧
  DeletionsInProgress (nodeDeletionTracker stranded) = (["b"], []) ∧
  queue_of stranded "g" = ["b"] ∧
  tasks stranded = [] ∧ timers stranded = [] ∧ batches stranded = [].
Proof.
  split; [|by vm_compute]. exists 10.
  set (w0 := deleteAsyncEmpty (initial 10) [("g", ["a"; "b"])]).
  set (w1 := AbortNodeDeletion (set_tasks w0 [mkTask "b" "g" false]) "a" "g"
    (mkDeleteResult (Some "not empty") NodeDeleteErrorInternal ∅) 5).
  apply (rtc_l _ _ demo_start); [by apply (step_start_empty 0 demo_home (initial 10) "a")|].
  apply (rtc_l _ _ w0); [by apply (step_start_empty 0 demo_home demo_start "b")|].
  apply (rtc_l _ _ w1); [by apply (step_abort 0 demo_home w0 [] (mkTask "a" "g" false)
    [mkTask "b" "g" false] "not empty" 5)|].
  apply (rtc_l _ _ (ResetAndReportMetrics w1).1); [apply step_reset|].
  apply rtc_once. unfold stranded. cbv zeta. fold w0. fold w1.
  set (w2 := (ResetAndReportMetrics w1).1).
  assert (tasks w2 = [] ++ mkTask "b" "g" false :: []) as Ht by (vm_compute; reflexivity).
  exact (step_schedule 0 demo_home w2 [] (mkTask "b" "g" false) [] 2 false (demo_oracle true) 6
    Ht ltac:(done)).
Qed.

Lemma async_decides_every_node_witness :
  (deleteNodesAsync ["a"; "b"] false 0 None None (λ _, Ok (Ok (0, 0))%nat)).*1 = ["a"; "b"].
Proof. apply (async_decides_every_node ["a"; "b"] false 0 None None). lia. Defined.
