(* ===== verification/Balancing.v ===== *)
(** Balancing a scale-up between similar node groups
    (src/pkg/processors/nodegroupset/balancing_processor.go). *)
From stdpp Require Import prelude gmap strings list numbers sorting.
From S2P Require Import Prelude Api.
Local Open Scope Z_scope.

(** [ScaleUpInfo] (src/pkg/processors/nodegroupset/nodegroup_set_processor.go). *)
Record ScaleUpInfo : Type := mkScaleUp {
  ScaleUpGroup : NodeGroup;
  CurrentSize : Z;
  NewSize : Z;
  ScaleUpMaxSize : Z
}.

(** The loop that reads the sizes of the groups. *)
Fixpoint build_infos (groups : list NodeGroup) (scaleUpInfos : list ScaleUpInfo) (totalCapacity : Z)
    : result cp_error (list ScaleUpInfo * Z) :=
  match groups with
  | [] => Ok (scaleUpInfos, totalCapacity)
  | ng :: groups' =>
      match TargetSize ng with
      | Err e => Err e
      | Ok currentSize =>
          let maxSize := MaxSize ng in
          if currentSize =? maxSize then build_infos groups' scaleUpInfos totalCapacity
          else
            build_infos groups' (scaleUpInfos ++ [mkScaleUp ng currentSize currentSize maxSize])
              (if currentSize <? maxSize then totalCapacity + (maxSize - currentSize)
               else totalCapacity)
      end
  end.

(** [FindSimilarNodeGroups]; the comparator is never nil ([klog.Fatal] ends the
    process), and a missing node info of the group itself is an error. *)
Definition FindSimilarNodeGroups {NI : Type} (Comparator : NI → NI → bool) (nodeGroups : list NodeGroup)
    (nodeGroup : NodeGroup) (nodeInfosForGroups : gmap string NI) : result string (list NodeGroup) :=
  match nodeInfosForGroups !! Id nodeGroup with
  | None => Err (Id nodeGroup)
  | Some nodeInfo =>
      Ok (foldl (λ result ng,
            if bool_decide (Id ng = Id nodeGroup) then result
            else match nodeInfosForGroups !! Id ng with
            | None => result
            | Some ngNodeInfo => if Comparator nodeInfo ngNodeInfo then result ++ [ng] else result
            end) [] nodeGroups)
  end.

(** [l[i], l[j] = l[j], l[i]]; [None] is an index out of range. *)
Definition swap {A} (i j : nat) (l : list A) : option (list A) :=
  match l !! i, l !! j with
  | Some x, Some y => Some (<[i := y]> (<[j := x]> l))
  | _, _ => None
  end.

(** The variables of the balancing loop. *)
Record BalanceState : Type := mkBalance {
  bs_infos : list ScaleUpInfo;
  bs_newNodes : Z;
  bs_start : nat;
  bs_current : nat
}.

(** One iteration; [None] is the panic of an index out of range.
    [currentInfo] is a pointer to the slot: after a swap it reads the group
    that was swapped in. *)
Definition balance_step (st : BalanceState) : option BalanceState :=
  match bs_infos st !! bs_current st with
  | None => None
  | Some currentInfo =>
      let updated :=
        if NewSize currentInfo <? ScaleUpMaxSize currentInfo then
          Some (<[bs_current st := mkScaleUp (ScaleUpGroup currentInfo) (CurrentSize currentInfo)
                    (NewSize currentInfo + 1) (ScaleUpMaxSize currentInfo)]> (bs_infos st),
                bs_newNodes st - 1, bs_start st)
        else
          match swap (bs_start st) (bs_current st) (bs_infos st) with
          | Some infos => Some (infos, bs_newNodes st, S (bs_start st))
          | None => None
          end in
      match updated with
      | None => None
      | Some (infos, newNodes, startIndex) =>
          match infos !! bs_current st with
          | None => None
          | Some currentInfo =>
              let advance :=
                match infos !! S (bs_current st) with
                | Some next => NewSize next <? NewSize currentInfo
                | None => false
                end in
              Some (mkBalance infos newNodes startIndex
                      (if advance then S (bs_current st) else startIndex))
          end
      end
  end.

(** [for newNodes > 0]; [None] when [fuel] is used up or an index is out of
    range. *)
Fixpoint balance_loop (fuel : nat) (st : BalanceState) : option BalanceState :=
  if 0 <? bs_newNodes st then
    match fuel with
    | O => None
    | S fuel' => match balance_step st with
                 | Some st' => balance_loop fuel' st'
                 | None => None
                 end
    end
  else Some st.

(** The errors of [BalanceScaleUpBetweenGroups]. *)
Inductive balance_error : Type := NoGroups | CloudProviderFailed (e : cp_error).

(** The outer [option] is [None] on a panic or a loop that does not end. *)
Definition BalanceScaleUpBetweenGroups `{SortSlice} (groups : list NodeGroup) (newNodes : Z)
    : option (result balance_error (list ScaleUpInfo)) :=
  match groups with
  | [] => Some (Err NoGroups)
  | _ =>
      match build_infos groups [] 0 with
      | Err e => Some (Err (CloudProviderFailed e))
      | Ok (scaleUpInfos, totalCapacity) =>
          let newNodes := if totalCapacity <? newNodes then totalCapacity else newNodes in
          let scaleUpInfos := sort_slice CurrentSize scaleUpInfos in
          match balance_loop (Z.to_nat newNodes + length scaleUpInfos)
                  (mkBalance scaleUpInfos newNodes 0 0) with
          | None => None
          | Some st => Some (Ok (filter (λ info, NewSize info ≠ CurrentSize info) (bs_infos st)))
          end
      end
  end.

Section balancing.
Implicit Types (x y : ScaleUpInfo) (l : list ScaleUpInfo) (st : BalanceState).

(** ** Sums over groups *)

Definition headroom x : Z := 0 `max` (ScaleUpMaxSize x - NewSize x).
Definition capacity l : Z := foldr (λ x n, headroom x + n) 0 l.
Definition total_new l : Z := foldr (λ x n, NewSize x + n) 0 l.
Definition total_current l : Z := foldr (λ x n, CurrentSize x + n) 0 l.

(** What the loop does not change of a group. *)
Definition static x : NodeGroup * Z * Z := (ScaleUpGroup x, CurrentSize x, ScaleUpMaxSize x).

Lemma foldr_sum_perm {A} (f : A → Z) (l l' : list A) :
  l ≡ₚ l' → foldr (λ (a : A) n, f a + n) 0 l = foldr (λ (a : A) n, f a + n) 0 l'.
Proof. induction 1; simpl; lia. Qed.

Lemma foldr_sum_insert {A} (f : A → Z) (l : list A) i (x y : A) :
  l !! i = Some x →
  foldr (λ (a : A) n, f a + n) 0 (<[i := y]> l) = foldr (λ (a : A) n, f a + n) 0 l - f x + f y.
Proof.
  revert i. induction l as [|z l IH]; intros [|i] Hi; simpl in *; [done..| |].
  - injection Hi as ->. lia.
  - rewrite (IH i) by done. lia.
Qed.

Lemma capacity_pos l : 0 < capacity l → ∃ i x, l !! i = Some x ∧ NewSize x < ScaleUpMaxSize x.
Proof.
  induction l as [|x l IH]; simpl; [lia|]. intros Hc.
  destruct (decide (NewSize x < ScaleUpMaxSize x)) as [Hx|Hx]; [by exists 0%nat, x|].
  destruct IH as (i & y & Hi & Hy); [unfold headroom in Hc; lia|]. by exists (S i), y.
Qed.

(** ** The loop invariant *)

(** Sizes: enough headroom is left, the first [start] groups are full, a group
    that was raised is at most one above every group with headroom. *)
Record sizes_inv (l : list ScaleUpInfo) (newNodes : Z) (start : nat) : Prop := {
  si_budget : 0 ≤ newNodes ≤ capacity l;
  si_full : ∀ i x, (i < start)%nat → l !! i = Some x → ScaleUpMaxSize x ≤ NewSize x;
  si_balanced : ∀ x y, x ∈ l → y ∈ l → CurrentSize x < NewSize x →
    NewSize y < ScaleUpMaxSize y → NewSize x ≤ NewSize y + 1;
  si_sizes : ∀ x, x ∈ l →
    CurrentSize x ≤ NewSize x ∧ (NewSize x ≤ ScaleUpMaxSize x ∨ NewSize x = CurrentSize x)
}.

(** Indices: the groups from [current] on are sorted by size, those between
    [start] and [current] are larger by exactly one. *)
Record order_inv (l : list ScaleUpInfo) (start current : nat) : Prop := {
  oi_order : (start ≤ current)%nat;
  oi_range : (current < length l)%nat ∨ current = start;
  oi_raised : ∀ i x y, (start ≤ i < current)%nat → l !! i = Some x → l !! current = Some y →
    NewSize x = NewSize y + 1;
  oi_sorted : ∀ i j x y, (current ≤ i < j)%nat → l !! i = Some x → l !! j = Some y →
    NewSize x ≤ NewSize y
}.

Definition balance_inv st : Prop :=
  sizes_inv (bs_infos st) (bs_newNodes st) (bs_start st) ∧
  order_inv (bs_infos st) (bs_start st) (bs_current st).

(** While nodes are left the current index is in range. *)
Lemma current_in_range l newNodes start current :
  sizes_inv l newNodes start → order_inv l start current → 0 < newNodes →
  ∃ x, l !! current = Some x.
Proof.
  intros [Hb Hf _ _] [_ Hr _ _] Hnew. destruct (l !! current) as [x|] eqn:Hx; [eauto|].
  apply lookup_ge_None in Hx. destruct Hr as [Hr|Hr]; [lia|].
  destruct (capacity_pos l) as (i & y & Hi & Hy); [lia|].
  pose proof (lookup_lt_Some _ _ _ Hi) as Hlt.
  pose proof (Hf i y ltac:(lia) Hi). lia.
Qed.

(** The current group is a least one from [start] on. *)
Lemma current_is_least l start current i x y :
  order_inv l start current → l !! current = Some x → (start ≤ i)%nat →
  l !! i = Some y → NewSize x ≤ NewSize y.
Proof.
  intros [_ _ Hra Hs] Hx Hi Hy. destruct (decide (i < current)%nat).
  - pose proof (Hra i y x ltac:(lia) Hy Hx). lia.
  - destruct (decide (i = current)) as [->|]; [assert (x = y) as -> by congruence; lia|].
    by apply (Hs current i); [lia|..].
Qed.

(** ** Adding a node *)

Definition raise x : ScaleUpInfo :=
  mkScaleUp (ScaleUpGroup x) (CurrentSize x) (NewSize x + 1) (ScaleUpMaxSize x).

(** The index after an iteration. *)
Definition next_index l (current start : nat) (size : Z) : nat :=
  match l !! S current with
  | Some next => if NewSize next <? size then S current else start
  | None => start
  end.

Lemma next_index_cases l current start size :
  (∃ next, l !! S current = Some next ∧ NewSize next < size ∧
     next_index l current start size = S current) ∨
  ((∀ next, l !! S current = Some next → size ≤ NewSize next) ∧
     next_index l current start size = start).
Proof.
  unfold next_index. destruct (l !! S current) as [next|]; [|right; naive_solver].
  destruct (NewSize next <? size) eqn:Hlt; [left; exists next|right]; naive_solver lia.
Qed.

Lemma lookup_raise l c x i y :
  <[c := raise x]> l !! i = Some y → (i = c ∧ y = raise x) ∨ (i ≠ c ∧ l !! i = Some y).
Proof. intros [(-> & -> & _)|[? ?]]%list_lookup_insert_Some; [by left|by right]. Qed.

Lemma elem_of_raise l c x y :
  y ∈ <[c := raise x]> l → y = raise x ∨ ∃ i, i ≠ c ∧ l !! i = Some y.
Proof. intros [i [[_ ?]|[? ?]]%lookup_raise]%list_elem_of_lookup; [by left|right; eauto]. Qed.

Lemma add_keeps_sizes l newNodes start current x :
  sizes_inv l newNodes start → order_inv l start current → 0 < newNodes →
  l !! current = Some x → NewSize x < ScaleUpMaxSize x →
  sizes_inv (<[current := raise x]> l) (newNodes - 1) start.
Proof.
  intros [Hb Hf Hba Hsz] Hord Hnew Hx Hlt.
  pose proof (list_elem_of_lookup_2 _ _ _ Hx) as Hxin. split.
  - unfold capacity. rewrite (foldr_sum_insert headroom _ _ x) by done.
    fold (capacity l). unfold headroom, raise. simpl. lia.
  - destruct Hord as [Ho _ _ _].
    intros i y Hi [[-> _]|[_ Hy]]%lookup_raise; [lia|by eapply Hf].
  - assert (∀ i y, l !! i = Some y → NewSize y < ScaleUpMaxSize y → NewSize x ≤ NewSize y) as Hleast.
    { intros i y Hy Hroom. eapply current_is_least; [done..| |done].
      destruct (decide (i < start)%nat); [|lia]. pose proof (Hf i y ltac:(done) Hy). lia. }
    intros y z [->|(i & _ & Hi)]%elem_of_raise [->|(j & _ & Hj)]%elem_of_raise Hcur Hroom;
      simpl in *; [lia| | |].
    + specialize (Hleast j z Hj Hroom). lia.
    + apply list_elem_of_lookup_2 in Hi. specialize (Hba y x Hi Hxin Hcur Hlt). lia.
    + apply Hba; [by eapply list_elem_of_lookup_2..|done|done].
  - intros y [->|(i & _ & Hi%list_elem_of_lookup_2)]%elem_of_raise; [|by apply Hsz].
    destruct (Hsz x Hxin). simpl. lia.
Qed.

(** After an iteration every group between the new start and the old current
    index has size [v], and the next one is at most one smaller: moving on to
    it, or back to the start, restores the order. *)
Lemma next_index_order l start current (v : Z) :
  (start ≤ S current)%nat → (current < length l)%nat →
  (∀ i y, (start ≤ i ≤ current)%nat → l !! i = Some y → NewSize y = v) →
  (∀ i j y z, (current < i < j)%nat → l !! i = Some y → l !! j = Some z → NewSize y ≤ NewSize z) →
  (∀ y, l !! S current = Some y → v - 1 ≤ NewSize y) →
  order_inv l start (next_index l current start v).
Proof.
  intros Hst Hlen Hv Hs Hnext.
  destruct (next_index_cases l current start v) as [(nx & Hnx & Hadv & ->)|[Hstay ->]].
  - specialize (Hnext nx Hnx). split; [lia|left; by eapply lookup_lt_Some| |].
    + intros i y z Hi Hy Hz. assert (z = nx) as -> by congruence.
      rewrite (Hv i y) by (done || lia). lia.
    + intros i j y z Hij Hy Hz. apply (Hs i j); [lia|done..].
  - split; [lia|by right|lia|]. intros i j y z Hij Hy Hz.
    assert (∀ k u, (current < k)%nat → l !! k = Some u → v ≤ NewSize u) as Habove.
    { intros k u Hk Hu. destruct (lookup_lt_is_Some_2 l (S current)) as [nx Hnx];
        [apply lookup_lt_Some in Hu; lia|].
      specialize (Hstay nx Hnx). destruct (decide (k = S current)) as [->|];
        [by assert (u = nx) as -> by congruence|].
      pose proof (Hs (S current) k nx u ltac:(lia) Hnx Hu). lia. }
    destruct (decide (i ≤ current)%nat), (decide (j ≤ current)%nat); [| |lia|].
    + rewrite (Hv i y), (Hv j z) by (done || lia). lia.
    + rewrite (Hv i y) by (done || lia). apply (Habove j); [lia|done].
    + apply (Hs i j); [lia|done..].
Qed.

Lemma add_keeps_order l start current x :
  order_inv l start current → l !! current = Some x →
  order_inv (<[current := raise x]> l) start
    (next_index (<[current := raise x]> l) current start (NewSize x + 1)).
Proof.
  intros [Ho Hr Hra Hs] Hx. apply next_index_order.
  - lia.
  - rewrite length_insert. by eapply lookup_lt_Some.
  - intros i y Hi [[-> ->]|[? Hy]]%lookup_raise; [done|]. apply (Hra i y x); [lia|done..].
  - intros i j y z Hij [[-> _]|[_ Hy]]%lookup_raise [[-> _]|[_ Hz]]%lookup_raise; [lia..|].
    apply (Hs i j); [lia|done..].
  - intros y [[? _]|[_ Hy]]%lookup_raise; [lia|].
    pose proof (Hs current (S current) x y ltac:(lia) Hx Hy). lia.
Qed.

(** ** Removing a full group *)

Lemma lookup_swap l i j k x y :
  l !! i = Some x → l !! j = Some y →
  <[i := y]> (<[j := x]> l) !! k = if decide (k = i) then Some y
                                   else if decide (k = j) then Some x else l !! k.
Proof.
  intros Hi Hj. apply lookup_lt_Some in Hi as Hil. apply lookup_lt_Some in Hj as Hjl.
  rewrite !list_lookup_insert, length_insert. repeat case_decide; naive_solver.
Qed.

Lemma remove_keeps_sizes l newNodes start current x y :
  sizes_inv l newNodes start → (start ≤ current)%nat →
  l !! start = Some y → l !! current = Some x → ScaleUpMaxSize x ≤ NewSize x →
  sizes_inv (<[start := x]> (<[current := y]> l)) newNodes (S start).
Proof.
  intros [Hb Hf Hba Hsz] Ho Hy Hx Hfull.
  pose proof (Permutation_insert_swap l current start x y Hx Hy) as Hperm. split.
  - unfold capacity. by rewrite (foldr_sum_perm headroom _ _ Hperm).
  - intros i z Hi. rewrite (lookup_swap l start current) by done.
    destruct (decide (i = start)); [by intros [= <-]|].
    rewrite decide_False by lia. apply Hf. lia.
  - intros z u. rewrite !Hperm. apply Hba.
  - intros z. rewrite Hperm. apply Hsz.
Qed.

Lemma remove_keeps_order l start current x y :
  order_inv l start current → l !! start = Some y → l !! current = Some x →
  order_inv (<[start := x]> (<[current := y]> l)) (S start)
    (next_index (<[start := x]> (<[current := y]> l)) current (S start) (NewSize y)).
Proof.
  intros Hord Hy Hx. pose proof Hord as [Ho Hr Hra Hs].
  pose proof (lookup_swap l start current) as Hl. apply next_index_order.
  - lia.
  - rewrite !length_insert. by eapply lookup_lt_Some.
  - intros i z Hi. rewrite (Hl i y x) by done. rewrite decide_False by lia.
    case_decide as Hic; [by intros [= <-]|]. intros Hz.
    rewrite (Hra i z x) by (done || lia). symmetry. apply (Hra start y x); [lia|done..].
  - intros i j z u Hij. rewrite (Hl i y x), (Hl j y x) by done. rewrite !decide_False by lia.
    apply (Hs i j). lia.
  - intros z. rewrite (Hl (S current) y x), !decide_False by (done || lia). intros Hz.
    pose proof (Hs current (S current) x z ltac:(lia) Hx Hz).
    destruct (decide (start = current)) as [->|]; [assert (x = y) as -> by congruence; lia|].
    pose proof (Hra start y x ltac:(lia) Hy Hx). lia.
Qed.


Lemma total_current_static l l' :
  static <$> l ≡ₚ static <$> l' → total_current l = total_current l'.
Proof.
  assert (∀ l, total_current l = foldr (λ s n, s.1.2 + n) 0 (static <$> l)) as Hc
    by (induction l0 as [|x l0 IH]; simpl; [done|by rewrite IH]).
  intros Hp. rewrite !Hc. by apply (foldr_sum_perm (λ s, s.1.2)).
Qed.

(** ** One iteration and the loop *)

Definition measure st : nat :=
  (Z.to_nat (bs_newNodes st) + (length (bs_infos st) - bs_start st))%nat.

(** The loop only moves nodes from [bs_newNodes] into the groups. *)
Definition conserves st st' : Prop :=
  static <$> bs_infos st' ≡ₚ static <$> bs_infos st ∧
  total_new (bs_infos st') + bs_newNodes st' = total_new (bs_infos st) + bs_newNodes st.

Lemma balance_step_ok st :
  balance_inv st → 0 < bs_newNodes st →
  ∃ st', balance_step st = Some st' ∧ balance_inv st' ∧ (measure st' < measure st)%nat ∧
    conserves st st'.
Proof.
  destruct st as [l n start current]. intros [Hsz Hord] Hn. simpl in *.
  destruct (current_in_range _ _ _ _ Hsz Hord Hn) as [x Hx].
  pose proof (lookup_lt_Some _ _ _ Hx) as Hlen. pose proof (oi_order _ _ _ Hord) as Ho.
  destruct (decide (NewSize x < ScaleUpMaxSize x)) as [Hlt|Hge].
  - exists (mkBalance (<[current := raise x]> l) (n - 1) start
      (next_index (<[current := raise x]> l) current start (NewSize x + 1))). split_and!.
    + unfold balance_step. simpl. rewrite Hx, (proj2 (Z.ltb_lt _ _)) by done.
      fold (raise x). rewrite list_lookup_insert_eq by done. unfold next_index. simpl.
      by destruct (<[current := raise x]> l !! S current).
    + split; simpl; [by eapply add_keeps_sizes|by apply add_keeps_order].
    + unfold measure. simpl. rewrite length_insert. lia.
    + split; simpl.
      * by rewrite list_fmap_insert, list_insert_id by (by rewrite list_lookup_fmap, Hx).
      * unfold total_new. rewrite (foldr_sum_insert NewSize _ _ x) by done. simpl. lia.
  - destruct (lookup_lt_is_Some_2 l start) as [y Hy]; [lia|].
    exists (mkBalance (<[start := x]> (<[current := y]> l)) n (S start)
      (next_index (<[start := x]> (<[current := y]> l)) current (S start) (NewSize y))). split_and!.
    + unfold balance_step, swap. simpl. rewrite Hx, (proj2 (Z.ltb_ge _ _)), Hy by lia.
      rewrite (lookup_swap l start current current y x) by done.
      unfold next_index. case_decide as Heq.
      * assert (x = y) as -> by congruence.
        by destruct (<[start := y]> (<[current := y]> l) !! S current).
      * rewrite decide_True by done. by destruct (<[start := x]> (<[current := y]> l) !! S current).
    + split; simpl; [eapply remove_keeps_sizes; [done..|lia]|by apply remove_keeps_order].
    + unfold measure. simpl. rewrite !length_insert. lia.
    + pose proof (Permutation_insert_swap l current start x y Hx Hy) as Hperm. split; simpl.
      * by rewrite Hperm.
      * unfold total_new. by rewrite (foldr_sum_perm NewSize _ _ Hperm).
Qed.

Lemma balance_loop_ok fuel : ∀ st,
  balance_inv st → (measure st ≤ fuel)%nat →
  ∃ st', balance_loop fuel st = Some st' ∧ balance_inv st' ∧ bs_newNodes st' = 0 ∧
    conserves st st'.
Proof.
  induction fuel as [|fuel IH]; intros st Hinv Hm; simpl;
    destruct (0 <? bs_newNodes st) eqn:Hn.
  - destruct (balance_step_ok st Hinv) as (st' & _ & _ & ? & _); lia.
  - exists st. pose proof (si_budget _ _ _ (proj1 Hinv)). split_and!; [done|done|lia|by split].
  - destruct (balance_step_ok st Hinv) as (st' & -> & Hinv' & Hm' & [Hs Ht]); [lia|].
    destruct (IH st' Hinv') as (st'' & -> & Hinv'' & Hz & [Hs' Ht']); [lia|].
    exists st''. split_and!; [done..|]. split; [by rewrite Hs'|lia].
  - exists st. pose proof (si_budget _ _ _ (proj1 Hinv)). split_and!; [done|done|lia|by split].
Qed.

(** ** The whole routine *)

Definition info_of (g : NodeGroup) : option ScaleUpInfo :=
  match TargetSize g with
  | Ok c => if c =? MaxSize g then None else Some (mkScaleUp g c c (MaxSize g))
  | Err _ => None
  end.

(** The free capacity of a set of groups. *)
Definition free_capacity (groups : list NodeGroup) : Z :=
  foldr (λ g n, match TargetSize g with Ok c => 0 `max` (MaxSize g - c) | Err _ => 0 end + n) 0 groups.

Definition sizes_known (groups : list NodeGroup) : Prop :=
  Forall (λ g, is_ok (TargetSize g) = true) groups.

Lemma build_infos_ok groups : ∀ acc tot,
  sizes_known groups →
  build_infos groups acc tot = Ok (acc ++ omap info_of groups, tot + free_capacity groups).
Proof.
  induction groups as [|g groups IH]; intros acc tot Hk; simpl; [by rewrite app_nil_r, Z.add_0_r|].
  inversion Hk as [|? ? Hg Hk']; subst. unfold info_of at 1.
  destruct (TargetSize g) as [c|]; [|done]. destruct (c =? MaxSize g) eqn:Hc; rewrite IH by done.
  - do 2 f_equal. lia.
  - do 2 f_equal; [by rewrite <- app_assoc|]. destruct (c <? MaxSize g) eqn:?; lia.
Qed.

Lemma capacity_omap groups : sizes_known groups → capacity (omap info_of groups) = free_capacity groups.
Proof.
  induction 1 as [|g groups Hg _ IH]; [done|]. csimpl. unfold info_of at 1.
  destruct (TargetSize g) as [c|]; [|done]. destruct (c =? MaxSize g) eqn:Hc; simpl.
  - rewrite IH. lia.
  - rewrite IH. unfold headroom. simpl. lia.
Qed.

Lemma initial_inv `{SortSlice} infos newNodes :
  (∀ x, x ∈ infos → NewSize x = CurrentSize x) → 0 ≤ newNodes ≤ capacity infos →
  balance_inv (mkBalance (sort_slice CurrentSize infos) newNodes 0 0).
Proof.
  intros Hnew Hcap. pose proof (sort_slice_perm CurrentSize infos) as Hperm. split; simpl.
  - split.
    + unfold capacity. by rewrite (foldr_sum_perm headroom _ _ Hperm).
    + lia.
    + intros x y. rewrite !Hperm. intros Hx _ ?. specialize (Hnew x Hx). lia.
    + intros x. rewrite Hperm. intros Hx. rewrite (Hnew x Hx). lia.
  - split; [lia|by right|lia|].
    intros i j x y Hij Hx Hy.
    assert (x ∈ infos ∧ y ∈ infos) as [Hxi Hyi]
      by (split; rewrite <- Hperm; by eapply list_elem_of_lookup_2).
    rewrite (Hnew x Hxi), (Hnew y Hyi).
    pose proof (sort_slice_sorted CurrentSize infos) as Hsort.
    rewrite <- (take_drop_middle _ _ _ Hx) in Hsort, Hy.
    apply (StronglySorted_app_1_r (λ x y, CurrentSize x ≤ CurrentSize y)) in Hsort.
    inversion Hsort as [|? ? _ Hall]; subst. rewrite Forall_forall in Hall. apply Hall.
    rewrite lookup_app_r in Hy by (rewrite length_take; lia).
    pose proof (lookup_lt_Some _ _ _ Hx). rewrite length_take, Nat.min_l in Hy by lia.
    destruct (j - i)%nat as [|k] eqn:Hk; [lia|]. by eapply list_elem_of_lookup_2.
Qed.

(** The final sizes of all groups below or above their maximum. *)
Lemma balance_result `{SortSlice} groups newNodes :
  groups ≠ [] → sizes_known groups → 0 ≤ newNodes →
  ∃ infos,
    BalanceScaleUpBetweenGroups groups newNodes =
      Some (Ok (filter (λ info, NewSize info ≠ CurrentSize info) infos)) ∧
    static <$> infos ≡ₚ static <$> omap info_of groups ∧
    sizes_inv infos 0 0 ∧
    total_new infos - total_current infos = newNodes `min` free_capacity groups.
Proof.
  intros Hne Hk Hn. unfold BalanceScaleUpBetweenGroups.
  destruct groups as [|g0 gs] eqn:Hgs; [done|]. rewrite <- Hgs in *. clear Hne.
  rewrite build_infos_ok, Z.add_0_l by done. simpl.
  set (infos := omap info_of groups). set (n := if free_capacity groups <? newNodes then _ else _).
  assert (n = newNodes `min` free_capacity groups) as Hmin
    by (unfold n; destruct (free_capacity groups <? newNodes) eqn:?; lia).
  assert (0 ≤ free_capacity groups) as Hfree.
  { clear. induction groups as [|g groups IH]; simpl; [lia|]. destruct (TargetSize g); lia. }
  assert (∀ x, x ∈ infos → NewSize x = CurrentSize x) as Hnew.
  { intros x (g & _ & Hg)%list_elem_of_omap. unfold info_of in Hg.
    destruct (TargetSize g); [|done]. case_match; [done|]. by injection Hg as <-. }
  destruct (balance_loop_ok (Z.to_nat n + length (sort_slice CurrentSize infos))
    (mkBalance (sort_slice CurrentSize infos) n 0 0)) as (st & -> & [Hsz _] & Hz & [Hst Htot]).
  { apply initial_inv; [done|]. unfold infos. rewrite capacity_omap by done. lia. }
  { unfold measure. simpl. lia. }
  pose proof (sort_slice_perm CurrentSize infos) as Hperm. simpl in Hst, Htot.
  exists (bs_infos st). split_and!.
  - done.
  - by rewrite Hst, Hperm.
  - rewrite Hz in Hsz. destruct Hsz as [? ? ? ?]. by split; [..|lia| |].
  - unfold total_new in Htot. rewrite (foldr_sum_perm NewSize _ _ Hperm) in Htot.
    fold (total_new (bs_infos st)) in Htot.
    assert (total_current (bs_infos st) = total_current infos) as Hcur.
    { apply total_current_static. by rewrite Hst, Hperm. }
    assert (foldr (λ x n, NewSize x + n) 0 infos = total_current infos) as Hnc.
    { clear -Hnew. induction infos as [|x l IH]; simpl; [done|].
      rewrite IH by (intros; apply Hnew; by right). rewrite (Hnew x) by left. done. }
    lia.
Qed.


Lemma balance_total_spec `{SortSlice} groups newNodes :
  groups ≠ [] → sizes_known groups → 0 ≤ newNodes →
  ∃ res, BalanceScaleUpBetweenGroups groups newNodes = Some (Ok res) ∧
    total_new res - total_current res = newNodes `min` free_capacity groups ∧
    ∀ x, x ∈ res → ScaleUpGroup x ∈ groups ∧ TargetSize (ScaleUpGroup x) = Ok (CurrentSize x) ∧
      CurrentSize x < NewSize x ≤ MaxSize (ScaleUpGroup x).
Proof.
  intros Hne Hk Hn. destruct (balance_result groups newNodes Hne Hk Hn)
    as (infos & HB & Hst & [_ _ _ Hsz] & Htot).
  eexists. split_and!; [exact HB| |].
  - rewrite <- Htot. clear. induction infos as [|x l IH]; [done|]. rewrite filter_cons. simpl.
    case_decide as Hx; simpl; [lia|].
    assert (NewSize x = CurrentSize x) by (destruct (decide (NewSize x = CurrentSize x)); naive_solver).
    lia.
  - intros x [Hch Hx]%list_elem_of_filter.
    assert (static x ∈ static <$> omap info_of groups) as (y & Hxy & Hy)%list_elem_of_fmap
      by (rewrite <- Hst; by apply list_elem_of_fmap_2).
    apply list_elem_of_omap in Hy as (g & Hg & Hinfo). unfold info_of in Hinfo.
    destruct (TargetSize g) as [c|] eqn:Htg; [|done]. case_match; [done|]. injection Hinfo as <-.
    unfold static in Hxy. simpl in Hxy. injection Hxy as Hgx Hcx Hmax.
    destruct (Hsz x Hx) as [? ?]. rewrite Hgx, Htg. split_and!; [done|by f_equal|lia|lia].
Qed.

(** Balancing always answers; an error means that a size is not known. *)
Lemma build_infos_known groups : ∀ acc tot r, build_infos groups acc tot = Ok r → sizes_known groups.
Proof.
  induction groups as [|g groups IH]; intros acc tot r; simpl; [constructor|].
  destruct (TargetSize g) as [c|e] eqn:Hc; [|done]. intros Hb. constructor; [by rewrite Hc|].
  destruct (c =? MaxSize g); by eapply IH.
Qed.

Lemma balance_answers `{SortSlice} groups newNodes :
  groups ≠ [] → 0 ≤ newNodes →
  ∃ r, BalanceScaleUpBetweenGroups groups newNodes = Some r ∧
    ∀ res, r = Ok res → sizes_known groups ∧
      total_new res - total_current res = newNodes `min` free_capacity groups ∧
      ∀ x, x ∈ res → ScaleUpGroup x ∈ groups ∧ TargetSize (ScaleUpGroup x) = Ok (CurrentSize x) ∧
        CurrentSize x < NewSize x ≤ MaxSize (ScaleUpGroup x).
Proof.
  intros Hne Hn. destruct (build_infos groups [] 0) as [[infos tot]|e] eqn:Hb.
  - pose proof (build_infos_known _ _ _ _ Hb) as Hk.
    destruct (balance_total_spec groups newNodes Hne Hk Hn) as (res & HB & Hrest).
    exists (Ok res). split; [done|]. by intros ? [= <-].
  - exists (Err (CloudProviderFailed e)). split; [|done]. unfold BalanceScaleUpBetweenGroups.
    destruct groups; [done|]. by rewrite Hb.
Qed.

(** For readable group sizes and a non-negative request, balancing terminates
    without a panic; it adds exactly the requested nodes, capped to the free
    capacity of the groups, and every group it returns grows, to at most its
    maximal size. *)
Theorem balance_total `{SortSlice} groups newNodes :
  groups ≠ [] → sizes_known groups → 0 ≤ newNodes →
  ∃ res, BalanceScaleUpBetweenGroups groups newNodes = Some (Ok res) ∧
    total_new res - total_current res = newNodes `min` free_capacity groups ∧
    ∀ x, x ∈ res → ScaleUpGroup x ∈ groups ∧ TargetSize (ScaleUpGroup x) = Ok (CurrentSize x) ∧
      CurrentSize x < NewSize x ≤ MaxSize (ScaleUpGroup x).
Proof. apply balance_total_spec. Qed.

(** Balancing is even: there is an assignment of final sizes to all groups not
    already at their maximum, of which the returned groups are the changed
    ones, such that a group that got a node is at most one larger than any
    group that could still grow. *)
Theorem balance_even `{SortSlice} groups newNodes :
  groups ≠ [] → sizes_known groups → 0 ≤ newNodes →
  ∃ infos,
    BalanceScaleUpBetweenGroups groups newNodes =
      Some (Ok (filter (λ info, NewSize info ≠ CurrentSize info) infos)) ∧
    static <$> infos ≡ₚ static <$> omap info_of groups ∧
    ∀ x y, x ∈ infos → y ∈ infos → CurrentSize x < NewSize x →
      NewSize y < ScaleUpMaxSize y → NewSize x ≤ NewSize y + 1.
Proof.
  intros Hne Hk Hn. destruct (balance_result groups newNodes Hne Hk Hn)
    as (infos & HB & Hst & [_ _ Hba _] & _). by exists infos.
Qed.
End balancing.

(** ** A concrete scale-up *)

Definition demo_ng (name : string) (size max : Z) : NodeGroup :=
  mkNodeGroup name 0 max (Ok size) (Ok []) (λ d, (None, Some ErrNotImplemented)).

Definition demo_groups : list NodeGroup := [demo_ng "a" 1 10; demo_ng "b" 3 4; demo_ng "c" 2 2].

Lemma balance_total_witness :
  ∃ res, BalanceScaleUpBetweenGroups demo_groups 5 = Some (Ok res) ∧
    total_new res - total_current res = 5.
Proof.
  destruct (balance_total demo_groups 5) as (res & HB & Htot & _);
    [discriminate|by repeat constructor|lia|].
  exists res. split; [exact HB|]. rewrite Htot. vm_compute. reflexivity.
Defined.

Lemma balance_even_witness :
  ∃ infos, BalanceScaleUpBetweenGroups demo_groups 5 =
    Some (Ok (filter (λ info, NewSize info ≠ CurrentSize info) infos)).
Proof.
  destruct (balance_even demo_groups 5) as (infos & HB & _ & _);
    [discriminate|by repeat constructor|lia|].
  by exists infos.
Defined.
