(* ===== verification/Estimator.v ===== *)
(** Bin-packing estimation of a scale-up (src/pkg/estimator): the estimator,
    the limiter built from thresholds, and the interface of the cluster
    snapshot the estimator simulates on. *)
From stdpp Require Import prelude gmap strings pretty list numbers fin_maps fin_sets.
From S2P Require Import Prelude Api.
Local Open Scope Z_scope.
Local Open Scope ca_scope.

(** ** Pods *)

(** The scheduling constraints the estimator looks at: the topology keys of the
    spread constraints (nil or not), and of the required anti-affinity terms,
    each with whether its selector matches the pod itself. *)
Record Pod : Type := mkPod {
  PodName : string;
  TopologySpreadConstraints : option (list string);
  RequiredAntiAffinity : list (string * bool)
}.

Definition LabelHostname : string := "kubernetes.io/hostname".

Record PodEquivalenceGroup : Type := mkPeg { Pods : list Pod }.

Definition Exemplar (p : PodEquivalenceGroup) : option Pod := head (Pods p).

(** ** Limits *)

Record EstimationContext : Type := mkEstimationContext {
  SimilarNodeGroups : list NodeGroup;
  ClusterMaxNodeLimit : Z;
  CurrentNodeCount : Z
}.

(** The three thresholds (sng_capacity_threshold.go,
    cluster_capacity_threshold.go, static_threshold.go). *)
Inductive Threshold : Type :=
| sngCapacityThreshold
| clusterCapacityThreshold
| staticThreshold (maxNodes maxDuration : Z).

Definition computeNodeGroupCapacity (nodeGroup : NodeGroup) : Z :=
  match TargetSize nodeGroup with
  | Err _ => 0
  | Ok targetSize =>
      let groupCapacity := MaxSize nodeGroup - targetSize in
      if 0 <? groupCapacity then groupCapacity else 0
  end.

Definition sng_NodeLimit (nodeGroup : NodeGroup) (context : option EstimationContext) : Z :=
  match context with
  | None => 0
  | Some c =>
      let total := foldl (λ total sng, total + computeNodeGroupCapacity sng)
                     (computeNodeGroupCapacity nodeGroup) (SimilarNodeGroups c) in
      if total <=? 0 then -1 else total
  end.

Definition cluster_NodeLimit (context : option EstimationContext) : Z :=
  match context with
  | None => 0
  | Some c =>
      if ClusterMaxNodeLimit c =? 0 then 0
      else if (ClusterMaxNodeLimit c <? 0) || (ClusterMaxNodeLimit c <=? CurrentNodeCount c) then -1
      else ClusterMaxNodeLimit c - CurrentNodeCount c
  end.

Definition NodeLimit (t : Threshold) (g : NodeGroup) (c : option EstimationContext) : Z :=
  match t with
  | sngCapacityThreshold => sng_NodeLimit g c
  | clusterCapacityThreshold => cluster_NodeLimit c
  | staticThreshold maxNodes _ => maxNodes
  end.

Definition DurationLimit (t : Threshold) : Z :=
  match t with staticThreshold _ maxDuration => maxDuration | _ => 0 end.

Definition getMinLimit (baseLimit targetLimit : Z) : Z :=
  if (baseLimit <? 0) || (targetLimit <? 0) then -1
  else if ((baseLimit =? 0) || (targetLimit <? baseLimit)) && (0 <? targetLimit) then targetLimit
  else baseLimit.

(** [thresholdBasedEstimationLimiter]; the start time is never the zero time
    after [StartEstimation]. *)
Record limiter : Type := mkLimiter {
  lim_maxDuration : Z;
  lim_maxNodes : Z;
  lim_nodes : Z;
  lim_start : Z
}.

Definition StartEstimation (thresholds : list Threshold) (g : NodeGroup)
    (c : option EstimationContext) (now : Z) : limiter :=
  foldl (λ l t, mkLimiter (getMinLimit (lim_maxDuration l) (DurationLimit t))
                  (getMinLimit (lim_maxNodes l) (NodeLimit t g c)) (lim_nodes l) (lim_start l))
    (mkLimiter 0 0 0 now) thresholds.

Definition PermissionToAddNode (l : limiter) (now : Z) : limiter * bool :=
  if (lim_maxNodes l <? 0) || ((0 <? lim_maxNodes l) && (lim_maxNodes l <=? lim_nodes l))
  then (l, false)
  else if (lim_maxDuration l <? 0) ||
          ((0 <? lim_maxDuration l) && (lim_start l + lim_maxDuration l <? now))
  then (l, false)
  else (mkLimiter (lim_maxDuration l) (lim_maxNodes l) (lim_nodes l + 1) (lim_start l), true).

(** ** The snapshot *)

(** [SchedulingError]: internal errors stop the estimation, failing predicates
    are an expected answer and carry their reasons. *)
Inductive SchedulingError : Type :=
| SchedulingInternalError
| FailingPredicate (reasons : list string).

Definition ErrReasonConstraintsNotMatch : string :=
  "node(s) didn't match pod topology spread constraints".

(** What the estimator uses of the cluster snapshot and what the snapshot
    documents: a pod is scheduled on an acceptable node; a change happens
    inside the innermost fork, which [Revert] takes back. [undo] is the state
    that fork started from. *)
Class EstimationSnapshot (S : Type) : Type := {
  SchedulePod : S → Pod → string → result SchedulingError S;
  SchedulePodOnAnyNodeMatching : S → Pod → (string → bool) → result SchedulingError (S * string);
  AddNodeInfo : S → string → result string S;
  Fork : S → S;
  Revert : S → S;
  undo : S → S;
  undo_Fork : ∀ s, undo (Fork s) = s;
  Revert_undo : ∀ s, Revert s = undo s;
  undo_SchedulePod : ∀ s pod n s', SchedulePod s pod n = Ok s' → undo s' = undo s;
  undo_ScheduleAny : ∀ s pod acc s' n,
    SchedulePodOnAnyNodeMatching s pod acc = Ok (s', n) → undo s' = undo s;
  undo_AddNodeInfo : ∀ s n s', AddNodeInfo s n = Ok s' → undo s' = undo s;
  ScheduleAny_acceptable : ∀ s pod acc s' n,
    SchedulePodOnAnyNodeMatching s pod acc = Ok (s', n) → acc n = true ∧ n ≠ ""
}.

(** ** Estimation *)

Record estimationState : Type := mkEstimation {
  scheduledPods : list Pod;
  newNodeNameIndex : N;
  lastNodeName : string;
  newNodeNames : gset string;
  newNodesWithPods : gset string
}.

Definition newEstimationState : estimationState := mkEstimation [] 0 "" ∅ ∅.

Definition trackScheduledPod (s : estimationState) (pod : Pod) (nodeName : string) : estimationState :=
  mkEstimation (scheduledPods s ++ [pod]) (newNodeNameIndex s) (lastNodeName s) (newNodeNames s)
    ({[nodeName]} ∪ newNodesWithPods s).

Definition hasTopologyConstraintError (err : option SchedulingError) : bool :=
  match err with
  | Some (FailingPredicate reasons) => bool_decide (ErrReasonConstraintsNotMatch ∈ reasons)
  | _ => false
  end.

Definition isPodUsingHostNameTopologyKey (pod : Pod) : bool :=
  match TopologySpreadConstraints pod with
  | None => false
  | Some keys => existsb (λ k, bool_decide (k = LabelHostname)) keys
  end.

(** The final answer of a scheduling phase: whether it is worth adding more
    nodes, or an unexpected error. *)
Inductive phase_result : Type := Continue (newNodesAvailable : bool) | Unexpected.

Section estimator.
Context {S : Type} `{EstimationSnapshot S} (templateName : string).
(** The readings of the clock by successive calls of the limiter. *)
Context (now : Z → Z).
Implicit Types (snap : S) (st : estimationState) (pods : list Pod) (l : limiter).

(** The name [SanitizedNodeInfo] gives to the next simulated node. *)
Definition node_name (index : N) : string := templateName +:+ "-e-" +:+ pretty index.

Definition addNewNodeToSnapshot snap st : result string (S * estimationState) :=
  let name := node_name (newNodeNameIndex st) in
  match AddNodeInfo snap name with
  | Err e => Err e
  | Ok snap' => Ok (snap', mkEstimation (scheduledPods st) (newNodeNameIndex st + 1) name
                             ({[name]} ∪ newNodeNames st) (newNodesWithPods st))
  end.

(** The pods left when one does not fit, or [None] on an unexpected error. *)
Fixpoint tryToScheduleOnExistingNodes snap st pods : S * estimationState * option (list Pod) :=
  match pods with
  | [] => (snap, st, Some [])
  | pod :: pods' =>
      match SchedulePodOnAnyNodeMatching snap pod (λ n, bool_decide (n ∈ newNodeNames st)) with
      | Err SchedulingInternalError => (snap, st, None)
      | Err (FailingPredicate _) => (snap, st, Some pods)
      | Ok (snap', nodeName) =>
          tryToScheduleOnExistingNodes snap' (trackScheduledPod st pod nodeName) pods'
      end
  end.

(** The attempt to place a pod on the last node added: [inl] is an unexpected
    error, otherwise whether the pod was placed. *)
Definition try_last_node snap st (pod : Pod) : option (S * estimationState * bool) :=
  if bool_decide (lastNodeName st = "") then Some (snap, st, false)
  else
    match SchedulePod snap pod (lastNodeName st) with
    | Ok snap' => Some (snap', trackScheduledPod st pod (lastNodeName st), true)
    | Err SchedulingInternalError => None
    | Err (FailingPredicate reasons) =>
        if isPodUsingHostNameTopologyKey pod &&
           hasTopologyConstraintError (Some (FailingPredicate reasons)) then
          match SchedulePodOnAnyNodeMatching snap pod (λ n, bool_decide (n ≠ lastNodeName st)) with
          | Err SchedulingInternalError => None
          | Err (FailingPredicate _) => Some (snap, st, false)
          | Ok (snap', nodeName) =>
              if bool_decide (nodeName = "") then Some (snap', st, false)
              else Some (snap', trackScheduledPod st pod nodeName, true)
          end
        else Some (snap, st, false)
    end.

Fixpoint tryToScheduleOnNewNodes snap l st pods : S * limiter * estimationState * phase_result :=
  match pods with
  | [] => (snap, l, st, Continue true)
  | pod :: pods' =>
      match try_last_node snap st pod with
      | None => (snap, l, st, Unexpected)
      | Some (snap, st, true) => tryToScheduleOnNewNodes snap l st pods'
      | Some (snap, st, false) =>
          if negb (bool_decide (lastNodeName st = "")) &&
             negb (bool_decide (lastNodeName st ∈ newNodesWithPods st))
          then (snap, l, st, Continue true)
          else
            match PermissionToAddNode l (now (lim_nodes l)) with
            | (l, false) => (snap, l, st, Continue false)
            | (l, true) =>
                match addNewNodeToSnapshot snap st with
                | Err _ => (snap, l, st, Unexpected)
                | Ok (snap, st) =>
                    match SchedulePod snap pod (lastNodeName st) with
                    | Err SchedulingInternalError => (snap, l, st, Unexpected)
                    | Err (FailingPredicate _) => (snap, l, st, Continue true)
                    | Ok snap =>
                        tryToScheduleOnNewNodes snap l
                          (trackScheduledPod st pod (lastNodeName st)) pods'
                    end
                end
            end
      end
  end.

(** Fast path, first loop: as many pods as fit on the node just added. *)
Fixpoint fill_node snap st pods : option (S * estimationState * nat) :=
  match pods with
  | [] => Some (snap, st, 0%nat)
  | pod :: pods' =>
      match SchedulePod snap pod (lastNodeName st) with
      | Err SchedulingInternalError => None
      | Err (FailingPredicate _) => Some (snap, st, 0%nat)
      | Ok snap' =>
          match fill_node snap' (trackScheduledPod st pod (lastNodeName st)) pods' with
          | Some (snap', st', n) => Some (snap', st', Datatypes.S n)
          | None => None
          end
      end
  end.

Definition fake_node_name (last : string) (j : nat) : string :=
  last +:+ "-fake-" +:+ pretty (N.of_nat j).

(** Fast path, second loop: iterations [j .. j + n - 1] over the pods left. *)
Fixpoint mark_nodes (podsPerNode n j : nat) l st pods : limiter * estimationState * bool :=
  match n with
  | O => (l, st, true)
  | Datatypes.S n' =>
      match PermissionToAddNode l (now (lim_nodes l)) with
      | (l, false) => (l, st, false)
      | (l, true) =>
          let name := fake_node_name (lastNodeName st) j in
          let podsToSchedule := Nat.min podsPerNode (length pods) in
          mark_nodes podsPerNode n' (Datatypes.S j) l
            (foldl (λ st pod, trackScheduledPod st pod name) st (take podsToSchedule pods))
            (drop podsToSchedule pods)
      end
  end.

Definition scaleUpSize (total podsPerNode : nat) : nat :=
  let n := (total / podsPerNode)%nat in
  if (podsPerNode * n <? total)%nat then Datatypes.S n else n.

Definition tryFastPath snap l st pods : S * limiter * estimationState * phase_result :=
  match pods with
  | [] => (snap, l, st, Continue true)
  | _ =>
      match PermissionToAddNode l (now (lim_nodes l)) with
      | (l, false) => (snap, l, st, Continue false)
      | (l, true) =>
          match addNewNodeToSnapshot snap st with
          | Err _ => (snap, l, st, Unexpected)
          | Ok (snap, st) =>
              match fill_node snap st pods with
              | None => (snap, l, st, Unexpected)
              | Some (snap, st, podsPerNode) =>
                  if (podsPerNode =? 0)%nat then (snap, l, st, Continue true)
                  else
                    let '(l, st, ok) :=
                      mark_nodes podsPerNode (scaleUpSize (length pods) podsPerNode - 1) 1 l st
                        (drop podsPerNode pods) in
                    (snap, l, st, Continue ok)
              end
          end
      end
  end.

(** The loop of [Estimate] over the equivalence groups; [None] is an
    unexpected error. *)
Fixpoint estimate_groups snap l st (groups : list PodEquivalenceGroup)
    (newNodesAvailable useFastpathOnLastPEG : bool) : S * option (limiter * estimationState) :=
  match groups with
  | [] => (snap, Some (l, st))
  | peg :: groups' =>
      match tryToScheduleOnExistingNodes snap st (Pods peg) with
      | (snap, _, None) => (snap, None)
      | (snap, st, Some remainingPods) =>
          if newNodesAvailable then
            match (if bool_decide (groups' = []) && useFastpathOnLastPEG
                   then tryFastPath snap l st remainingPods
                   else tryToScheduleOnNewNodes snap l st remainingPods) with
            | (snap, _, _, Unexpected) => (snap, None)
            | (snap, l, st, Continue available) =>
                estimate_groups snap l st groups' available useFastpathOnLastPEG
            end
          else estimate_groups snap l st groups' false useFastpathOnLastPEG
      end
  end.


(** ** Choosing the group for the fast path *)

Definition hasNonHostnamePodAntiAffinity (pod : Pod) : bool :=
  existsb (λ t, negb (bool_decide (t.1 = LabelHostname))) (RequiredAntiAffinity pod).

Definition shouldUseFastPath (peg : PodEquivalenceGroup) : bool :=
  match Exemplar peg with
  | None => false
  | Some pod =>
      match TopologySpreadConstraints pod with
      | Some _ => false
      | None => negb (hasNonHostnamePodAntiAffinity pod)
      end
  end.

(** The number of nodes a group needs by cpu and by memory, two quotients of
    floating point numbers rounded up. *)
Context (numNodesByCpu numNodesByMemory : PodEquivalenceGroup → Z).

Definition numNodesByAntiAffinity (peg : PodEquivalenceGroup) (pod : Pod) : Z :=
  if existsb (λ t, bool_decide (t.1 = LabelHostname) && t.2) (RequiredAntiAffinity pod)
  then ⟪ Pods peg ⟫ else 0.

Definition simulationsSaved (peg : PodEquivalenceGroup) (pod : Pod) : Z :=
  let numNodes :=
    (numNodesByAntiAffinity peg pod `max` numNodesByCpu peg) `max` numNodesByMemory peg in
  let n := ⟪ Pods peg ⟫ in
  if 0 <? numNodes then n - n `quot` numNodes else 0.

(** The loop of [determineBestPEGToFastpath]: [i] is the index of the first of
    the groups left. *)
Fixpoint best_peg (groups : list PodEquivalenceGroup) (i : nat) (maxSaved : Z) (best : option nat)
    : option nat :=
  match groups with
  | [] => best
  | peg :: groups' =>
      match Exemplar peg with
      | None => best_peg groups' (Datatypes.S i) maxSaved best
      | Some pod =>
          let saved := simulationsSaved peg pod in
          if (maxSaved <=? saved) && shouldUseFastPath peg
          then best_peg groups' (Datatypes.S i) saved (Some i)
          else best_peg groups' (Datatypes.S i) maxSaved best
      end
  end.

Definition determineBestPEGToFastpath (groups : list PodEquivalenceGroup) : option nat :=
  best_peg groups 0 0 None.

(** [Estimate]: [order] is the pod orderer; the snapshot left behind is the
    one after the deferred [Revert]. *)
Definition Estimate (thresholds : list Threshold) (context : option EstimationContext)
    (order : list PodEquivalenceGroup → list PodEquivalenceGroup) (fastpathEnabled : bool)
    (start : Z) snap (groups : list PodEquivalenceGroup) (nodeGroup : NodeGroup)
    : S * (nat * list Pod) :=
  let l := StartEstimation thresholds nodeGroup context start in
  let groups := order groups in
  let '(groups, useFastpathOnLastPEG) :=
    match (if fastpathEnabled then determineBestPEGToFastpath groups else None) with
    | Some i =>
        match groups !! i with
        | Some best => (take i groups ++ drop (Datatypes.S i) groups ++ [best], true)
        | None => (groups, false)
        end
    | None => (groups, false)
    end in
  let '(snap, r) :=
    estimate_groups (Fork snap) l newEstimationState groups true useFastpathOnLastPEG in
  (Revert snap,
   match r with
   | None => (0%nat, [])
   | Some (_, st) => (size (newNodesWithPods st), scheduledPods st)
   end).

(** ** What a phase does to the state *)

Definition no_hostname_spread (pod : Pod) : Prop := isPodUsingHostNameTopologyKey pod = false.

(** Every node that counts in the estimate was permitted by the limiter. *)
Definition count_ok l st : Prop :=
  ∃ names : gset string,
    newNodesWithPods st ⊆ names ∧ newNodeNames st ⊆ names ∧
    (lastNodeName st = "" ∨ lastNodeName st ∈ names) ∧
    Z.of_nat (size names) ≤ lim_nodes l ∧
    (0 < lim_maxNodes l → lim_nodes l ≤ lim_maxNodes l) ∧ (lim_maxNodes l < 0 → lim_nodes l = 0).

(** A phase over [pods] tracks a subsequence of them, stays inside the fork,
    keeps the limit, and counts no node without a permission (unless a pod
    spreads over host names). *)
Record phase_ok (pods : list Pod) snap l st snap' l' st' : Prop := {
  po_pods : ∃ tracked, scheduledPods st' = scheduledPods st ++ tracked ∧ tracked `sublist_of` pods;
  po_undo : undo snap' = undo snap;
  po_limit : lim_maxNodes l' = lim_maxNodes l;
  po_count : Forall no_hostname_spread pods → count_ok l st → count_ok l' st'
}.

Lemma phase_ok_stop pods snap l st snap' l' st' :
  scheduledPods st' = scheduledPods st → undo snap' = undo snap →
  lim_maxNodes l' = lim_maxNodes l → (count_ok l st → count_ok l' st') →
  phase_ok pods snap l st snap' l' st'.
Proof.
  intros Hp Hu Hl Hc. split; [|done..|by intros _].
  exists []. rewrite app_nil_r. split; [done|apply sublist_nil_l].
Qed.

Lemma phase_ok_trans pods1 pods2 snap1 l1 st1 snap2 l2 st2 snap3 l3 st3 :
  phase_ok pods1 snap1 l1 st1 snap2 l2 st2 → phase_ok pods2 snap2 l2 st2 snap3 l3 st3 →
  phase_ok (pods1 ++ pods2) snap1 l1 st1 snap3 l3 st3.
Proof.
  intros [(t1 & Ht1 & Hs1) Hu1 Hl1 Hc1] [(t2 & Ht2 & Hs2) Hu2 Hl2 Hc2]. split; [|congruence..|].
  - exists (t1 ++ t2). rewrite Ht2, Ht1, <- app_assoc. split; [done|by apply sublist_app].
  - rewrite Forall_app. naive_solver.
Qed.

Lemma phase_ok_track pod snap l st snap' name :
  undo snap' = undo snap →
  (no_hostname_spread pod → count_ok l st → name ∈ newNodeNames st ∨ (name = lastNodeName st ∧ name ≠ "")) →
  phase_ok [pod] snap l st snap' l (trackScheduledPod st pod name).
Proof.
  intros Hu Hn. split; [by exists [pod]|done|done|].
  rewrite Forall_singleton. intros Hnh Hc. specialize (Hn Hnh Hc).
  destruct Hc as (names & Hw & Hnn & Hlast & Hsz & Hm1 & Hm2). exists names. split_and!; [|done..].
  simpl. set_solver.
Qed.

Lemma Permission_maxNodes l t : lim_maxNodes (PermissionToAddNode l t).1 = lim_maxNodes l.
Proof. unfold PermissionToAddNode. by repeat case_match. Qed.

(** A granted permission makes room for one more node. *)
Lemma count_ok_granted l l' t st (name : string) :
  PermissionToAddNode l t = (l', true) → count_ok l st →
  ∃ names : gset string,
    newNodesWithPods st ⊆ names ∧ newNodeNames st ⊆ names ∧ name ∈ names ∧
    (lastNodeName st = "" ∨ lastNodeName st ∈ names) ∧
    Z.of_nat (size names) ≤ lim_nodes l' ∧
    (0 < lim_maxNodes l' → lim_nodes l' ≤ lim_maxNodes l') ∧ (lim_maxNodes l' < 0 → lim_nodes l' = 0).
Proof.
  unfold PermissionToAddNode. intros HP (names & Hw & Hnn & Hlast & Hsz & Hm1 & Hm2).
  destruct (_ || _) eqn:Hg1; [done|]. destruct (_ || _) eqn:Hg2 in HP; [done|]. injection HP as <-.
  exists ({[name]} ∪ names). simpl.
  apply orb_false_iff in Hg1 as [Hneg Hfull].
  assert (size ({[name]} ∪ names) ≤ 1 + size names)%nat.
  { rewrite size_union_alt, size_singleton. apply Nat.add_le_mono_l, subseteq_size. set_solver. }
  split_and!; [set_solver..|lia| |lia].
  intros Hpos. rewrite (proj2 (Z.ltb_lt 0 _)) in Hfull by done. simpl in Hfull. lia.
Qed.


Lemma existing_ok pods : ∀ snap st l,
  let '(snap', st', r) := tryToScheduleOnExistingNodes snap st pods in
  match r with
  | Some rest => ∃ done, pods = done ++ rest ∧ phase_ok done snap l st snap' l st'
  | None => undo snap' = undo snap
  end.
Proof.
  induction pods as [|pod pods IH]; intros snap st l; simpl.
  { exists []. split; [done|by apply phase_ok_stop]. }
  destruct (SchedulePodOnAnyNodeMatching snap pod _) as [[snap1 n]|[|reasons]] eqn:HS;
    [|done|by exists []; split; [|apply phase_ok_stop]].
  pose proof (undo_ScheduleAny _ _ _ _ _ HS) as Hu.
  apply ScheduleAny_acceptable in HS as [Hacc Hne]. apply bool_decide_eq_true in Hacc.
  specialize (IH snap1 (trackScheduledPod st pod n) l).
  destruct (tryToScheduleOnExistingNodes snap1 (trackScheduledPod st pod n) pods)
    as [[snap2 st2] [rest|]]; [|congruence].
  destruct IH as (visited & -> & Hph). exists (pod :: visited). split; [done|].
  apply (phase_ok_trans [pod] visited _ l _ snap1 l (trackScheduledPod st pod n)); [|done].
  apply phase_ok_track; [done|by left].
Qed.

Lemma try_last_ok snap st pod l :
  match try_last_node snap st pod with
  | None => True
  | Some (snap', st', true) => phase_ok [pod] snap l st snap' l st'
  | Some (snap', st', false) => undo snap' = undo snap ∧ st' = st
  end.
Proof.
  unfold try_last_node. case_bool_decide as Hlast; [done|].
  destruct (SchedulePod snap pod (lastNodeName st)) as [snap1|[|reasons]] eqn:HS; [|done|].
  - apply phase_ok_track; [by eapply undo_SchedulePod|by right].
  - destruct (isPodUsingHostNameTopologyKey pod && _) eqn:Htop; [|done].
    apply andb_true_iff in Htop as [Htop _].
    destruct (SchedulePodOnAnyNodeMatching snap pod _) as [[snap1 n]|[|]] eqn:HA; [|done|done].
    pose proof (undo_ScheduleAny _ _ _ _ _ HA) as Hu. apply ScheduleAny_acceptable in HA as [_ Hne].
    rewrite bool_decide_eq_false_2 by done. apply phase_ok_track; [done|].
    unfold no_hostname_spread. congruence.
Qed.

Lemma addNewNode_ok snap st snap' st' l l' t pods :
  PermissionToAddNode l t = (l', true) → addNewNodeToSnapshot snap st = Ok (snap', st') →
  phase_ok pods snap l st snap' l' st' ∧ lastNodeName st' ∈ newNodeNames st'.
Proof.
  intros HP. unfold addNewNodeToSnapshot.
  destruct (AddNodeInfo snap _) as [snap1|] eqn:HA; [|done]. intros [= <- <-].
  split; [|simpl; set_solver]. apply phase_ok_stop; simpl.
  - done.
  - by eapply undo_AddNodeInfo.
  - pose proof (Permission_maxNodes l t) as Hm. by rewrite HP in Hm.
  - intros Hc. destruct (count_ok_granted _ _ _ _ (node_name (newNodeNameIndex st)) HP Hc)
      as (names & Hw & Hnn & Hin & Hl & Hsz & Hm1 & Hm2).
    exists names. simpl. split_and!; [done|set_solver|by right|done..].
Qed.

Lemma permission_denied_ok pods snap l l' t st :
  PermissionToAddNode l t = (l', false) → phase_ok pods snap l st snap l' st.
Proof.
  unfold PermissionToAddNode. repeat case_match; intros [= <-]; by apply phase_ok_stop.
Qed.

(** The invariant part of a phase's answer. *)
Definition answer_ok pods snap l st (a : S * limiter * estimationState * phase_result) : Prop :=
  let '(snap', l', st', r) := a in
  undo snap' = undo snap ∧
  match r with Continue _ => phase_ok pods snap l st snap' l' st' | Unexpected => True end.

Lemma answer_ok_trans pods1 pods2 snap1 l1 st1 snap2 l2 st2 a :
  phase_ok pods1 snap1 l1 st1 snap2 l2 st2 → answer_ok pods2 snap2 l2 st2 a →
  answer_ok (pods1 ++ pods2) snap1 l1 st1 a.
Proof.
  intros H1. destruct a as [[[snap3 l3] st3] r]. intros [Hu H2]. split.
  - rewrite Hu. apply H1.
  - destruct r; [|done]. by eapply phase_ok_trans.
Qed.

Lemma new_nodes_ok pods : ∀ snap l st,
  answer_ok pods snap l st (tryToScheduleOnNewNodes snap l st pods).
Proof.
  induction pods as [|pod pods IH]; intros snap l st; simpl.
  { split; [done|by apply phase_ok_stop]. }
  pose proof (try_last_ok snap st pod l) as Hlast.
  destruct (try_last_node snap st pod) as [[[snap1 st1] []]|]; [|destruct Hlast as [Hu ->]|done].
  { by apply (answer_ok_trans [pod] pods _ _ _ snap1 l st1). }
  assert (∀ pods', phase_ok pods' snap l st snap1 l st) as Hph by (intros; by apply phase_ok_stop).
  case_match; [by split|].
  destruct (PermissionToAddNode l (now (lim_nodes l))) as [l2 [|]] eqn:HP.
  2:{ split; [done|]. apply (phase_ok_trans [] (pod :: pods) _ _ _ snap1 l st); [done|].
      by eapply permission_denied_ok. }
  destruct (addNewNodeToSnapshot snap1 st) as [[snap3 st3]|] eqn:HA; [|done].
  destruct (addNewNode_ok _ _ _ _ _ _ _ [] HP HA) as [Hadd Hin].
  assert (phase_ok [] snap l st snap3 l2 st3) as H3
    by (by apply (phase_ok_trans [] [] _ _ _ snap1 l st)).
  destruct (SchedulePod snap3 pod (lastNodeName st3)) as [snap4|[|]] eqn:HS.
  - apply (answer_ok_trans ([] ++ [pod]) pods _ _ _ snap4 l2
      (trackScheduledPod st3 pod (lastNodeName st3))); [|apply IH].
    apply (phase_ok_trans [] [pod] _ _ _ snap3 l2 st3); [done|].
    apply phase_ok_track; [by eapply undo_SchedulePod|by left].
  - split; [apply H3|done].
  - split; [apply H3|]. apply (phase_ok_trans [] (pod :: pods) _ _ _ snap3 l2 st3); [done|].
    by apply phase_ok_stop.
Qed.

Lemma fill_node_ok pods : ∀ snap st l snap' st' n,
  lastNodeName st ∈ newNodeNames st → fill_node snap st pods = Some (snap', st', n) →
  (n ≤ length pods)%nat ∧ phase_ok (take n pods) snap l st snap' l st' ∧
  scheduledPods st' = scheduledPods st ++ take n pods.
Proof.
  induction pods as [|pod pods IH]; intros snap st l snap' st' n Hin; simpl.
  { intros [= <- <- <-]. split_and!; [done|by apply phase_ok_stop|by rewrite app_nil_r]. }
  destruct (SchedulePod snap pod (lastNodeName st)) as [snap1|[|]] eqn:HS; [|done|].
  - destruct (fill_node snap1 _ pods) as [[[snap2 st2] m]|] eqn:HF; [|done].
    intros [= <- <- <-].
    destruct (IH snap1 (trackScheduledPod st pod (lastNodeName st)) l _ _ _ Hin HF) as (Hm & Hph & Hsp).
    split_and!; [simpl; lia| |].
    + apply (phase_ok_trans [pod] _ _ _ _ snap1 l (trackScheduledPod st pod (lastNodeName st)));
        [|done]. apply phase_ok_track; [by eapply undo_SchedulePod|by left].
    + rewrite Hsp. simpl. by rewrite <- app_assoc.
  - intros [= <- <- <-]. split_and!; [lia|by apply phase_ok_stop|by rewrite app_nil_r].
Qed.

Lemma foldl_track st name pods :
  let st' := foldl (λ st pod, trackScheduledPod st pod name) st pods in
  scheduledPods st' = scheduledPods st ++ pods ∧ lastNodeName st' = lastNodeName st ∧
  newNodeNames st' = newNodeNames st ∧
  newNodesWithPods st' = (if decide (pods = []) then ∅ else {[name]}) ∪ newNodesWithPods st.
Proof.
  revert st. induction pods as [|pod pods IH]; intros st; simpl.
  { rewrite app_nil_r. split_and!; [done..|]. by rewrite (left_id_L ∅ (∪)). }
  destruct (IH (trackScheduledPod st pod name)) as (-> & -> & -> & ->). simpl.
  split_and!; [by rewrite <- app_assoc|done|done|].
  case_decide; set_solver.
Qed.

Lemma mark_nodes_ok ppn n : ∀ j l st pods snap l' st' ok,
  mark_nodes ppn n j l st pods = (l', st', ok) → phase_ok pods snap l st snap l' st'.
Proof.
  induction n as [|n IH]; intros j l st pods snap l' st' ok; simpl.
  { intros [= <- <- <-]. by apply phase_ok_stop. }
  destruct (PermissionToAddNode l (now (lim_nodes l))) as [l1 [|]] eqn:HP.
  2:{ intros [= <- <- <-]. by eapply permission_denied_ok. }
  set (m := Nat.min ppn (length pods)). set (name := fake_node_name (lastNodeName st) j).
  set (st1 := foldl _ st (take m pods)). intros Hrest%(IH _ _ _ _ snap).
  rewrite <- (take_drop m pods). eapply phase_ok_trans; [|exact Hrest].
  destruct (foldl_track st name (take m pods)) as (Hsp & Hl & Hnn & Hw). fold st1 in Hsp, Hl, Hnn, Hw.
  split.
  - by exists (take m pods).
  - done.
  - pose proof (Permission_maxNodes l (now (lim_nodes l))) as Hm. by rewrite HP in Hm.
  - intros _ Hc. destruct (count_ok_granted _ _ _ _ name HP Hc)
      as (names & Hw' & Hnn' & Hin & Hlast & Hsz & Hm1 & Hm2).
    exists names. rewrite Hnn, Hl, Hw. split_and!; [|done..]. case_decide; set_solver.
Qed.


Lemma fast_path_ok snap l st pods : answer_ok pods snap l st (tryFastPath snap l st pods).
Proof.
  unfold tryFastPath. destruct pods as [|pod0 pods0] eqn:Hpods.
  { split; [done|by apply phase_ok_stop]. }
  rewrite <- Hpods. clear Hpods.
  destruct (PermissionToAddNode l (now (lim_nodes l))) as [l1 [|]] eqn:HP.
  2:{ split; [done|by eapply permission_denied_ok]. }
  destruct (addNewNodeToSnapshot snap st) as [[snap1 st1]|] eqn:HA; [|done].
  destruct (addNewNode_ok _ _ _ _ _ _ _ [] HP HA) as [Hadd Hin].
  destruct (fill_node snap1 st1 pods) as [[[snap2 st2] n]|] eqn:HF; [|split; [apply Hadd|done]].
  destruct (fill_node_ok _ _ _ l1 _ _ _ Hin HF) as (Hn & Hfill & _).
  assert (phase_ok (take n pods) snap l st snap2 l1 st2) as H2
    by (by apply (phase_ok_trans [] (take n pods) _ _ _ snap1 l1 st1)).
  destruct (Nat.eqb_spec n 0) as [->|Hpos]; [split; [apply H2|]|].
  { apply (phase_ok_trans [] pods _ _ _ snap2 l1 st2); [done|by apply phase_ok_stop]. }
  destruct (mark_nodes n _ 1 l1 st2 (drop n pods)) as [[l3 st3] ok] eqn:HM.
  apply (mark_nodes_ok _ _ _ _ _ _ snap2) in HM. split; [apply H2|].
  rewrite <- (take_drop n pods) at 1. by eapply phase_ok_trans.
Qed.

Lemma groups_ok groups : ∀ snap l st available fast,
  let '(snap', r) := estimate_groups snap l st groups available fast in
  undo snap' = undo snap ∧
  match r with
  | Some (l', st') => phase_ok (concat (Pods <$> groups)) snap l st snap' l' st'
  | None => True
  end.
Proof.
  induction groups as [|peg groups IH]; intros snap l st available fast; simpl.
  { split; [done|by apply phase_ok_stop]. }
  pose proof (existing_ok (Pods peg) snap st l) as Hex.
  destruct (tryToScheduleOnExistingNodes snap st (Pods peg)) as [[snap1 st1] [rest|]]; [|done].
  destruct Hex as (visited & Hpods & Hvis). pose proof (po_undo _ _ _ _ _ _ _ Hvis) as Hu1.
  assert (∀ snap2 l2 st2 avail, phase_ok rest snap1 l st1 snap2 l2 st2 →
    let '(snap', r) := estimate_groups snap2 l2 st2 groups avail fast in
    undo snap' = undo snap ∧
    match r with
    | Some (l', st') => phase_ok (Pods peg ++ concat (Pods <$> groups)) snap l st snap' l' st'
    | None => True
    end) as Hnext.
  { intros snap2 l2 st2 avail H2. specialize (IH snap2 l2 st2 avail fast).
    destruct (estimate_groups snap2 l2 st2 groups avail fast) as [snap3 r]. destruct IH as [Hu3 Hr].
    pose proof (po_undo _ _ _ _ _ _ _ H2) as Hu2. split; [congruence|].
    destruct r as [[l3 st3]|]; [|done]. rewrite Hpods.
    eapply phase_ok_trans; [|exact Hr]. by eapply phase_ok_trans. }
  destruct available; [|apply Hnext; by apply phase_ok_stop].
  set (a := if (bool_decide (groups = []) && fast) then tryFastPath _ _ _ _ else _).
  assert (answer_ok rest snap1 l st1 a) as Ha
    by (unfold a; case_match; [apply fast_path_ok|apply new_nodes_ok]).
  destruct a as [[[snap2 l2] st2] [avail|]]; destruct Ha as [Hu2 Ha]; [by apply Hnext|].
  split; [congruence|done].
Qed.

Lemma move_to_end_perm {A} (groups : list A) (i : nat) best :
  groups !! i = Some best → take i groups ++ drop (Datatypes.S i) groups ++ [best] ≡ₚ groups.
Proof.
  intros Hi. rewrite <- (take_drop_middle _ _ _ Hi) at 3.
  by rewrite (Permutation_app_comm (drop _ _) [best]).
Qed.

(** [Estimate] restores the snapshot; its answer is that of the loop over a
    reordering of the groups, or the empty one after an unexpected error. *)
Lemma Estimate_inv thresholds context order fast start snap groups nodeGroup :
  (∀ gs, order gs ≡ₚ gs) →
  let '(snap', (n, pods)) :=
    Estimate thresholds context order fast start snap groups nodeGroup in
  snap' = snap ∧
  ((n = 0%nat ∧ pods = []) ∨
   ∃ groups' snap'' l' st', groups' ≡ₚ groups ∧
     phase_ok (concat (Pods <$> groups')) (Fork snap)
       (StartEstimation thresholds nodeGroup context start) newEstimationState snap'' l' st' ∧
     n = size (newNodesWithPods st') ∧ pods = scheduledPods st').
Proof.
  intros Hperm. unfold Estimate.
  assert (∀ groups' b, groups' ≡ₚ groups →
    let '(snap', (n, pods)) :=
      (let '(snap', r) := estimate_groups (Fork snap)
         (StartEstimation thresholds nodeGroup context start) newEstimationState groups' true b in
       (Revert snap', match r with
                      | None => (0%nat, [])
                      | Some (_, st) => (size (newNodesWithPods st), scheduledPods st)
                      end)) in
    snap' = snap ∧
    ((n = 0%nat ∧ pods = []) ∨
     ∃ groups' snap'' l' st', groups' ≡ₚ groups ∧
       phase_ok (concat (Pods <$> groups')) (Fork snap)
         (StartEstimation thresholds nodeGroup context start) newEstimationState snap'' l' st' ∧
       n = size (newNodesWithPods st') ∧ pods = scheduledPods st')) as Hrun.
  { intros groups' b Hg. pose proof (groups_ok groups' (Fork snap)
      (StartEstimation thresholds nodeGroup context start) newEstimationState true b) as HG.
    destruct (estimate_groups _ _ _ groups' true b) as [snap' [[l' st']|]];
      destruct HG as [Hu HG]; rewrite Revert_undo, Hu, undo_Fork; (split; [done|]).
    - right. by exists groups', snap', l', st'.
    - by left. }
  destruct (if fast then determineBestPEGToFastpath (order groups) else None) as [i|];
    [|apply Hrun, Hperm].
  destruct (order groups !! i) as [best|] eqn:Hi; [|apply Hrun, Hperm].
  apply Hrun. by rewrite move_to_end_perm, Hperm.
Qed.

Lemma concat_perm {A} (ll ll' : list (list A)) : ll ≡ₚ ll' → concat ll ≡ₚ concat ll'.
Proof. induction 1; simpl; [done|by f_equiv| |by etrans]. by rewrite !app_assoc, (Permutation_app_comm y). Qed.

Lemma count_ok_start thresholds g context start :
  count_ok (StartEstimation thresholds g context start) newEstimationState.
Proof.
  exists ∅. simpl. unfold StartEstimation.
  assert (∀ l, lim_nodes (foldl (λ l t, mkLimiter (getMinLimit (lim_maxDuration l) (DurationLimit t))
    (getMinLimit (lim_maxNodes l) (NodeLimit t g context)) (lim_nodes l) (lim_start l)) l thresholds)
    = lim_nodes l) as ->.
  { induction thresholds as [|t ts IH]; intros l; simpl; [done|]. by rewrite IH. }
  simpl. split; [done|]. split; [done|]. split; [by left|]. split; [done|]. split; lia.
Qed.

(** Estimation does not invent or repeat pods and leaves no trace: the pods it
    reports as scheduled are, with multiplicity, among the pods it was asked
    about, and the cluster snapshot is afterwards the one it started from, on
    success and on every error path. *)
Theorem estimate_sound thresholds context order fast start snap groups nodeGroup :
  (∀ gs, order gs ≡ₚ gs) →
  let '(snap', (n, pods)) :=
    Estimate thresholds context order fast start snap groups nodeGroup in
  snap' = snap ∧ pods ⊆+ concat (Pods <$> groups).
Proof.
  intros Hperm. pose proof (Estimate_inv thresholds context order fast start snap groups nodeGroup
    Hperm) as HE.
  destruct (Estimate _ _ _ _ _ _ _ _) as [snap' [n pods]]. destruct HE as [-> HE]. split; [done|].
  destruct HE as [[_ ->]|(groups' & snap'' & l' & st' & Hg & [(t & Ht & Hs) _ _ _] & _ & ->)];
    [apply submseteq_nil_l|].
  simpl in Ht. rewrite Ht. apply sublist_submseteq in Hs.
  by rewrite <- (concat_perm (Pods <$> groups') (Pods <$> groups)) by (by f_equiv).
Qed.

(** Unless a pod spreads over host names, the estimate respects the limiter:
    with a positive node limit it never exceeds the limit, and it is zero when
    a threshold forbids new nodes. *)
Theorem estimate_within_limit thresholds context order fast start snap groups nodeGroup :
  (∀ gs, order gs ≡ₚ gs) →
  Forall (λ peg, Forall no_hostname_spread (Pods peg)) groups →
  let '(_, (n, _)) := Estimate thresholds context order fast start snap groups nodeGroup in
  let max := lim_maxNodes (StartEstimation thresholds nodeGroup context start) in
  (0 < max → Z.of_nat n ≤ max) ∧ (max < 0 → n = 0%nat).
Proof.
  intros Hperm Hnh. pose proof (Estimate_inv thresholds context order fast start snap groups nodeGroup
    Hperm) as HE.
  destruct (Estimate _ _ _ _ _ _ _ _) as [snap' [n pods]]. destruct HE as [_ HE].
  destruct HE as [[-> _]|(groups' & snap'' & l' & st' & Hg & [_ _ Hm Hc] & -> & _)]; [simpl; lia|].
  cbv zeta. rewrite <- Hm.
  destruct Hc as (names & Hw & _ & _ & Hsz & Hm1 & Hm2); [|apply count_ok_start|].
  - apply Forall_concat, Forall_fmap. by rewrite Hg.
  - apply subseteq_size in Hw. lia.
Qed.


(** ** The limiter *)

(** The node limit of an estimation combines the thresholds as documented: it
    is negative exactly when some threshold forbids new nodes; otherwise a
    positive limit is one of the thresholds' limits and no positive threshold
    limit is smaller, and it is unlimited (zero) exactly when no threshold
    limits the nodes. *)
Theorem limiter_takes_minimum thresholds g context start :
  let limits := (λ t, NodeLimit t g context) <$> thresholds in
  let m := lim_maxNodes (StartEstimation thresholds g context start) in
  (m < 0 ↔ ∃ x, x ∈ limits ∧ x < 0) ∧
  (0 ≤ m → (∀ x, x ∈ limits → 0 < x → 0 < m ≤ x) ∧ (0 < m → m ∈ limits)).
Proof.
  unfold StartEstimation. cbv zeta.
  induction thresholds as [|t ts IH] using rev_ind.
  { simpl. split; [split; [lia|set_solver]|]. intros _. split; [set_solver|lia]. }
  rewrite foldl_app, fmap_app. cbn [foldl].
  set (l := foldl _ _ ts) in *. cbn [lim_maxNodes]. fold (fmap (λ t, NodeLimit t g context) ts).
  set (m := lim_maxNodes l) in *. set (x := NodeLimit t g context). destruct IH as [IHneg IHpos].
  set (limits := (λ t, NodeLimit t g context) <$> ts) in *. change ((λ t, NodeLimit t g context) <$> [t]) with [x].
  setoid_rewrite elem_of_app. setoid_rewrite list_elem_of_singleton.
  unfold getMinLimit. destruct ((m <? 0) || (x <? 0)) eqn:Hneg.
  { split; [split; [|lia]|lia]. intros _. apply orb_true_iff in Hneg as [Hm|Hx].
    - destruct (proj1 IHneg) as (y & ? & ?); [lia|]. naive_solver.
    - exists x. split; [by right|lia]. }
  apply orb_false_iff in Hneg as [Hm Hx]. destruct IHpos as [IHmin IHin]; [lia|].
  assert (∀ y, y ∈ limits → 0 ≤ y) as Hnn.
  { intros y Hy. destruct (decide (0 ≤ y)); [done|]. assert (m < 0); [apply IHneg; exists y; split; [done|lia]|lia]. }
  destruct (_ && _) eqn:Hcase.
  - apply andb_true_iff in Hcase as [Hc Hxp]. apply orb_true_iff in Hc. split.
    + split; [lia|]. intros (y & [Hy| ->] & ?); [apply Hnn in Hy; lia|lia].
    + intros _. split; [|by intros _; right].
      intros y [Hy| ->] Hyp; [|lia]. destruct (IHmin y Hy Hyp). lia.
  - split.
    + split; [lia|]. intros (y & [Hy| ->] & ?); [apply Hnn in Hy; lia|lia].
    + intros _. split; [|naive_solver].
      intros y [Hy| ->] Hyp; [by apply IHmin|].
      apply andb_false_iff in Hcase as [Hc|Hc]; [|lia]. apply orb_false_iff in Hc. lia.
Qed.

(** ** The fast path *)

Definition unlimited l : Prop := lim_maxNodes l = 0 ∧ lim_maxDuration l = 0.

Lemma unlimited_granted l t :
  unlimited l → ∃ l', PermissionToAddNode l t = (l', true) ∧ unlimited l' ∧
    lim_nodes l' = lim_nodes l + 1.
Proof. unfold unlimited, PermissionToAddNode. intros [-> ->]. simpl. eexists. by split_and!. Qed.

Lemma mark_nodes_unlimited ppn n : ∀ j l st pods,
  unlimited l → (length pods ≤ ppn * n)%nat →
  ∃ l' st', mark_nodes ppn n j l st pods = (l', st', true) ∧
    scheduledPods st' = scheduledPods st ++ pods ∧ lim_nodes l' = lim_nodes l + Z.of_nat n.
Proof.
  induction n as [|n IH]; intros j l st pods Hl Hlen; simpl.
  { exists l, st. split_and!; [done| |lia]. destruct pods; [by rewrite app_nil_r|simpl in Hlen; lia]. }
  destruct (unlimited_granted l (now (lim_nodes l)) Hl) as (l1 & -> & Hl1 & Hn1).
  set (m := Nat.min ppn (length pods)). set (name := fake_node_name (lastNodeName st) j).
  destruct (foldl_track st name (take m pods)) as (Hsp & _).
  set (st1 := foldl _ st (take m pods)) in *.
  destruct (IH (Datatypes.S j) l1 st1 (drop m pods)) as (l' & st' & -> & Hs & Hn); [done| |].
  { rewrite length_drop. unfold m. lia. }
  exists l', st'. split_and!; [done| |lia]. by rewrite Hs, Hsp, <- app_assoc, take_drop.
Qed.

Lemma scaleUpSize_ceil total ppn :
  (0 < ppn)%nat → (0 < total)%nat →
  (1 ≤ scaleUpSize total ppn)%nat ∧ (total ≤ ppn * scaleUpSize total ppn)%nat ∧
  (ppn * (scaleUpSize total ppn - 1) < total)%nat.
Proof.
  intros Hp Ht. unfold scaleUpSize. pose proof (Nat.div_mod total ppn) as Hd.
  pose proof (Nat.mod_upper_bound total ppn). specialize (Hd ltac:(lia)).
  destruct (Nat.ltb_spec (ppn * (total / ppn)) total); [split_and!; nia|].
  split_and!; [|nia|nia]. destruct (total / ppn)%nat; lia.
Qed.

(** The fast path counts exactly: without a limit, if [k] of the pods fit on
    the node it simulates, it reports every pod as scheduled and takes
    ceil(pods / k) nodes. *)
Theorem fast_path_exact snap l st pods snap1 st1 snap2 st2 k :
  unlimited l → pods ≠ [] →
  addNewNodeToSnapshot snap st = Ok (snap1, st1) →
  fill_node snap1 st1 pods = Some (snap2, st2, k) → (0 < k)%nat →
  ∃ l' st', tryFastPath snap l st pods = (snap2, l', st', Continue true) ∧
    scheduledPods st' = scheduledPods st ++ pods ∧
    let nodes := lim_nodes l' - lim_nodes l in
    ⟪ pods ⟫ ≤ Z.of_nat k * nodes ∧ Z.of_nat k * (nodes - 1) < ⟪ pods ⟫.
Proof.
  intros Hl Hne HA HF Hk. unfold tryFastPath.
  destruct pods as [|pod0 pods0] eqn:Hpods; [done|]. rewrite <- Hpods in *.
  assert (0 < length pods)%nat as Hlen by (rewrite Hpods; simpl; lia). clear Hpods Hne pod0 pods0.
  destruct (unlimited_granted l (now (lim_nodes l)) Hl) as (l1 & -> & Hl1 & Hn1). rewrite HA, HF.
  rewrite (proj2 (Nat.eqb_neq k 0)) by lia.
  destruct (scaleUpSize_ceil (length pods) k Hk Hlen) as (Hc1 & Hc2 & Hc3).
  set (sz := scaleUpSize (length pods) k) in *.
  assert (lastNodeName st1 ∈ newNodeNames st1 ∧ scheduledPods st1 = scheduledPods st) as [Hin Hs1].
  { unfold addNewNodeToSnapshot in HA. destruct (AddNodeInfo snap _); [|done].
    injection HA as <- <-. simpl. split; [set_solver|done]. }
  destruct (fill_node_ok _ _ _ l1 _ _ _ Hin HF) as (Hkl & _ & Hs2).
  destruct (mark_nodes_unlimited k (sz - 1) 1 l1 st2 (drop k pods)) as (l' & st' & -> & Hs & Hn);
    [done|rewrite length_drop; nia|].
  exists l', st'. split_and!; [done| |nia|nia].
  by rewrite Hs, Hs2, Hs1, <- app_assoc, take_drop.
Qed.
End estimator.

(** ** A concrete snapshot *)

Section demo.
(** Nodes with room for two pods each; a stack of saved states. *)
Definition demo_snap : Type := gmap string nat * list (gmap string nat).

Definition demo_schedule (s : demo_snap) (pod : Pod) (n : string) : result SchedulingError demo_snap :=
  match s.1 !! n with
  | None => Err SchedulingInternalError
  | Some c => if (c <? 2)%nat then Ok (<[n := S c]> s.1, s.2)
              else Err (FailingPredicate [ErrReasonConstraintsNotMatch])
  end.

Definition demo_schedule_any (s : demo_snap) (pod : Pod) (acc : string → bool)
    : result SchedulingError (demo_snap * string) :=
  match filter (λ nc, acc nc.1 = true ∧ nc.1 ≠ "" ∧ (nc.2 < 2)%nat) (map_to_list s.1) with
  | [] => Err (FailingPredicate [])
  | (n, c) :: _ => Ok ((<[n := S c]> s.1, s.2), n)
  end.

Definition demo_add (s : demo_snap) (n : string) : result string demo_snap :=
  match s.1 !! n with Some _ => Err "node already exists" | None => Ok (<[n := 0%nat]> s.1, s.2) end.

Definition demo_undo (s : demo_snap) : demo_snap :=
  match s.2 with [] => (∅, []) | m :: l => (m, l) end.

#[export] Instance demo_snapshot : EstimationSnapshot demo_snap.
Proof.
  refine {| SchedulePod := demo_schedule; SchedulePodOnAnyNodeMatching := demo_schedule_any;
            AddNodeInfo := demo_add; Fork s := (s.1, s.1 :: s.2); Revert := demo_undo;
            undo := demo_undo |}.
  - by intros [].
  - done.
  - intros s pod n s'. unfold demo_schedule. repeat case_match; intros [= <-]; done.
  - intros s pod acc s' n. unfold demo_schedule_any. repeat case_match; intros [= <- _]; done.
  - intros s n s'. unfold demo_add. case_match; intros [= <-]; done.
  - intros s pod acc s' n. unfold demo_schedule_any.
    destruct (filter _ _) as [|[n' c] l] eqn:Hf; [done|]. intros [= _ <-].
    assert ((n', c) ∈ (n', c) :: l) as Hin by left. rewrite <- Hf in Hin.
    apply list_elem_of_filter in Hin as [(? & ? & _) _]. done.
Defined.

Definition demo_pod (name : string) (keys : option (list string)) : Pod := mkPod name keys [].
Definition demo_pegs (keys : option (list string)) : list PodEquivalenceGroup :=
  [mkPeg [demo_pod "p1" keys; demo_pod "p2" keys; demo_pod "p3" keys]].
Definition demo_start_snap : demo_snap := ({["real" := 0%nat]}, []).
Definition demo_pool_group : NodeGroup :=
  mkNodeGroup "pool" 0 10 (Ok 1) (Ok []) (λ d, (None, Some ErrNotImplemented)).
Definition demo_estimate (max : Z) (keys : option (list string)) : demo_snap * (nat * list Pod) :=
  Estimate "t" (λ _, 0) (λ _, 0) (λ _, 0) [staticThreshold max 0] None (λ gs, gs) false 0
    demo_start_snap (demo_pegs keys) demo_pool_group.
End demo.

Lemma estimate_sound_witness :
  (demo_estimate 5 None).2.2 ⊆+ concat (Pods <$> demo_pegs None) ∧ (demo_estimate 5 None).2.1 = 2%nat.
Proof.
  split; [|vm_compute; reflexivity].
  pose proof (estimate_sound "t" (λ _, 0) (λ _, 0) (λ _, 0) [staticThreshold 5 0] None (λ gs, gs)
    false 0 demo_start_snap (demo_pegs None) demo_pool_group (λ gs, Permutation_refl gs)) as HE.
  fold (demo_estimate 5 None) in HE. destruct (demo_estimate 5 None) as [s [n pods]]. apply HE.
Defined.

Lemma estimate_within_limit_witness :
  Z.of_nat (demo_estimate 1 None).2.1 ≤ 1.
Proof.
  assert (Forall (λ peg, Forall no_hostname_spread (Pods peg)) (demo_pegs None)) as Hnh
    by repeat constructor.
  pose proof (estimate_within_limit "t" (λ _, 0) (λ _, 0) (λ _, 0) [staticThreshold 1 0] None
    (λ gs, gs) false 0 demo_start_snap (demo_pegs None) demo_pool_group
    (λ gs, Permutation_refl gs) Hnh) as HE.
  fold (demo_estimate 1 None) in HE. destruct (demo_estimate 1 None) as [s [n pods]].
  apply HE. reflexivity.
Defined.

Lemma fast_path_exact_witness :
  ∃ l' st', tryFastPath "t" (λ _, 0) demo_start_snap (mkLimiter 0 0 0 0) newEstimationState
    (demo_pod "p" None :: Pods (mkPeg [demo_pod "q" None; demo_pod "r" None])) =
    ((<["t-e-0" := 2%nat]> {["real" := 0%nat]}, []), l', st', Continue true).
Proof.
  destruct (fast_path_exact "t" (λ _, 0) demo_start_snap (mkLimiter 0 0 0 0) newEstimationState
    [demo_pod "p" None; demo_pod "q" None; demo_pod "r" None]
    (<["t-e-0" := 0%nat]> {["real" := 0%nat]}, [])
    (mkEstimation [] 1 "t-e-0" {["t-e-0"]} ∅)
    (<["t-e-0" := 2%nat]> {["real" := 0%nat]}, [])
    (mkEstimation [demo_pod "p" None; demo_pod "q" None] 1 "t-e-0" {["t-e-0"]} {["t-e-0"]}) 2)
    as (l' & st' & HF & _); [split; reflexivity|discriminate|vm_compute; reflexivity|vm_compute; reflexivity|lia|].
  exists l', st'. exact HF.
Defined.

(** A pod that spreads over host names may be placed on a node of the real
    cluster, which then counts as a new node: one node is added and permitted,
    two are reported. *)
Example hostname_spread_counts_real_node :
  (demo_estimate 1 (Some [LabelHostname])).2.1 = 2%nat.
Proof. vm_compute. reflexivity. Qed.
