(* ===== verification/ClusterState.v ===== *)
(** The cluster state registry (src/pkg/clusterstate/clusterstate.go): the
    readiness of nodes, the acceptable sizes of node groups, and the scale-up
    and scale-down requests in progress. Node readiness is that of
    src/pkg/utils/kubernetes/ready.go. Every method holds the registry's lock;
    times are clock readings passed in. *)
From stdpp Require Import prelude gmap strings list numbers fin_maps.
From S2P Require Import Prelude Api Taints Backoff.
Local Open Scope Z_scope.
Local Open Scope ca_scope.

(** ** Node readiness *)

Record NodeReadiness : Type := mkNodeReadiness {
  NrReady : bool; NrLastTransitionTime : Z; NrReason : string
}.

Definition DiskPressureType : string := "DiskPressure".
Definition NetworkUnavailableType : string := "NetworkUnavailable".
Definition ResourceUnready : string := "cluster-autoscaler.kubernetes.io/resource-not-ready".

Definition notReadyTaints : list string :=
  ["node.kubernetes.io/not-ready"; "node.kubernetes.io/disk-pressure";
   "node.kubernetes.io/network-unavailable"].

(** The variables of [GetNodeReadiness]; the zero time is 0. *)
Record readiness_vars : Type := mkVars {
  canNodeBeReady : bool; readyFound : bool; lastTransition : Z; notReadyReason : string
}.

Definition readiness_condition (v : readiness_vars) (cond : NodeCondition) : readiness_vars :=
  let later := if lastTransition v <? Condition_LastTransitionTime cond
               then Condition_LastTransitionTime cond else lastTransition v in
  if bool_decide (Condition_Type cond = NodeReadyType) then
    match Condition_Status cond with
    | ConditionTrue => mkVars (canNodeBeReady v) true later (notReadyReason v)
    | _ => mkVars false true later (Condition_Reason cond)
    end
  else if bool_decide (Condition_Type cond = DiskPressureType) ||
          bool_decide (Condition_Type cond = NetworkUnavailableType) then
    mkVars (canNodeBeReady v && negb (bool_decide (Condition_Status cond = ConditionTrue)))
      (readyFound v) later (notReadyReason v)
  else v.

Definition readiness_taint (v : readiness_vars) (taint : Taint) : readiness_vars :=
  if bool_decide (Taint_Key taint ∈ notReadyTaints) then
    mkVars false (readyFound v)
      (match Taint_TimeAdded taint with
       | Some t => if lastTransition v <? t then t else lastTransition v
       | None => lastTransition v
       end) (notReadyReason v)
  else v.

(** The value is the zero readiness when the error is returned. *)
Definition GetNodeReadiness (node : Node) : NodeReadiness * bool :=
  let v := foldl readiness_condition (mkVars true false 0 "") (Conditions node) in
  let v := foldl readiness_taint v (Taints node) in
  if readyFound v
  then (mkNodeReadiness (canNodeBeReady v) (lastTransition v) (notReadyReason v), true)
  else (mkNodeReadiness false 0 "", false).

Definition suspendedNodeCondition : string := "Suspended".

Definition isSuspendedNode (node : Node) : bool :=
  match list_find (λ c, Condition_Type c = suspendedNodeCondition) (Conditions node) with
  | Some (_, c) => bool_decide (Condition_Status c = ConditionTrue)
  | None => false
  end.

(** ** Instances *)

Inductive InstanceState : Type := InstanceRunning | InstanceCreating | InstanceDeleting.
#[export] Instance InstanceState_eq_dec : EqDecision InstanceState.
Proof. solve_decision. Defined.

Record InstanceErrorInfo : Type := mkErrorInfo {
  ErrorClass : Z; ErrorCode : string; ErrorMessage : string
}.
#[export] Instance InstanceErrorInfo_inhabited : Inhabited InstanceErrorInfo :=
  populate (mkErrorInfo 0 "" "").

Record InstanceStatus : Type := mkInstanceStatus {
  InstState : InstanceState; InstErrorInfo : option InstanceErrorInfo
}.

Record CloudInstance : Type := mkInstance { InstId : string; InstStatus : option InstanceStatus }.

(** ** State *)

Record ScaleUpRequest : Type := mkScaleUpRequest {
  SurNodeGroup : NodeGroup; SurTime : Z; ExpectedAddTime : Z; Increase : Z
}.

Record ScaleDownRequest : Type := mkScaleDownRequest {
  SdrNodeName : string; SdrNodeGroup : NodeGroup; SdrTime : Z; ExpectedDeleteTime : Z
}.

Record IncorrectNodeGroupSize : Type := mkIncorrect {
  IncExpectedSize : Z; IncCurrentSize : Z; FirstObserved : Z
}.

Record UnregisteredNode : Type := mkUnregistered { UnrNode : Node; UnregisteredSince : Z }.

Record AcceptableRange : Type := mkRange { MinNodes : Z; MaxNodes : Z; CurrentTarget : Z }.

(** The zero range, which Go reads for a missing key. *)
Definition zero_range : AcceptableRange := mkRange 0 0 0.

Record Readiness : Type := mkReadiness {
  Ready : list string; Unready : list string; Deleted : list string; NotStarted : list string;
  Suspended : list string; Registered : list string; LongUnregistered : list string;
  Unregistered : list string; ReadinessTime : Z; ResourceUnreadyNodes : list string
}.

Definition zero_readiness : Readiness := mkReadiness [] [] [] [] [] [] [] [] 0 [].

Record ClusterStateRegistry : Type := mkRegistry {
  scaleUpRequests : gmap string ScaleUpRequest;
  scaleDownRequests : list ScaleDownRequest;
  csr_nodes : list Node;
  perNodeGroupReadiness : gmap string Readiness;
  totalReadiness : Readiness;
  acceptableRanges : gmap string AcceptableRange;
  incorrectNodeGroupSizes : gmap string IncorrectNodeGroupSize;
  unregisteredNodes : gmap string UnregisteredNode;
  deletedNodes : gset string;
  csr_instances : gmap string (list CloudInstance);
  csr_previousInstances : gmap string (list CloudInstance);
  csr_backoff : exponentialBackoff (NodeGroup := NodeGroup) (ErrorInfo := InstanceErrorInfo)
}.

(** What the registry asks of its environment during one call. *)
Record ClusterEnv : Type := mkEnv {
  NodeGroups : list NodeGroup;
  EnvNodeGroupForNode : Node → result cp_error (option NodeGroup);
  HasInstance : Node → result cp_error bool;
  IsUpcoming : NodeGroup → bool;
  GetMaxNodeProvisionTime : NodeGroup → result cp_error Z;
  GetMaxNodeStartupTime : NodeGroup → result cp_error Z;
  HasTemplate : string → bool;
  DurationString : Z → string  (* the %v form of a time.Duration *)
}.

Definition MaxNodeStartupTimeDefault : Z := 15 * 60 * 10 ^ 9.

Section registry.
Context `{GR : GoRange} (env : ClusterEnv).
Implicit Types (csr : ClusterStateRegistry) (now : Z) (g : NodeGroup).

(** Field updates. *)
Definition set_ups csr m : ClusterStateRegistry :=
  mkRegistry m (scaleDownRequests csr) (csr_nodes csr) (perNodeGroupReadiness csr)
    (totalReadiness csr) (acceptableRanges csr) (incorrectNodeGroupSizes csr)
    (unregisteredNodes csr) (deletedNodes csr) (csr_instances csr) (csr_previousInstances csr)
    (csr_backoff csr).
Definition set_downs csr l : ClusterStateRegistry :=
  mkRegistry (scaleUpRequests csr) l (csr_nodes csr) (perNodeGroupReadiness csr)
    (totalReadiness csr) (acceptableRanges csr) (incorrectNodeGroupSizes csr)
    (unregisteredNodes csr) (deletedNodes csr) (csr_instances csr) (csr_previousInstances csr)
    (csr_backoff csr).
Definition set_backoff csr b : ClusterStateRegistry :=
  mkRegistry (scaleUpRequests csr) (scaleDownRequests csr) (csr_nodes csr)
    (perNodeGroupReadiness csr) (totalReadiness csr) (acceptableRanges csr)
    (incorrectNodeGroupSizes csr) (unregisteredNodes csr) (deletedNodes csr) (csr_instances csr)
    (csr_previousInstances csr) b.
Definition set_ranges csr m : ClusterStateRegistry :=
  mkRegistry (scaleUpRequests csr) (scaleDownRequests csr) (csr_nodes csr)
    (perNodeGroupReadiness csr) (totalReadiness csr) m (incorrectNodeGroupSizes csr)
    (unregisteredNodes csr) (deletedNodes csr) (csr_instances csr) (csr_previousInstances csr)
    (csr_backoff csr).
Definition set_readiness csr per total : ClusterStateRegistry :=
  mkRegistry (scaleUpRequests csr) (scaleDownRequests csr) (csr_nodes csr) per total
    (acceptableRanges csr) (incorrectNodeGroupSizes csr) (unregisteredNodes csr)
    (deletedNodes csr) (csr_instances csr) (csr_previousInstances csr) (csr_backoff csr).
Definition set_incorrect csr m : ClusterStateRegistry :=
  mkRegistry (scaleUpRequests csr) (scaleDownRequests csr) (csr_nodes csr)
    (perNodeGroupReadiness csr) (totalReadiness csr) (acceptableRanges csr) m
    (unregisteredNodes csr) (deletedNodes csr) (csr_instances csr) (csr_previousInstances csr)
    (csr_backoff csr).
Definition set_observed csr nodes instances unregistered deleted : ClusterStateRegistry :=
  mkRegistry (scaleUpRequests csr) (scaleDownRequests csr) nodes
    (perNodeGroupReadiness csr) (totalReadiness csr) (acceptableRanges csr)
    (incorrectNodeGroupSizes csr) unregistered deleted instances (csr_instances csr)
    (csr_backoff csr).

(** ** Requests *)

Definition registerOrUpdateScaleUpNoLock csr g (delta now : Z) : ClusterStateRegistry :=
  match GetMaxNodeProvisionTime env g with
  | Err _ => csr
  | Ok maxNodeProvisionTime =>
      match scaleUpRequests csr !! Id g with
      | None =>
          if 0 <? delta then
            set_ups csr (<[Id g := mkScaleUpRequest g now (now + maxNodeProvisionTime) delta]>
                           (scaleUpRequests csr))
          else csr
      | Some r =>
          if Increase r + delta <=? 0 then set_ups csr (delete (Id g) (scaleUpRequests csr))
          else
            set_ups csr (<[Id g :=
              if 0 <? delta
              then mkScaleUpRequest (SurNodeGroup r) now (now + maxNodeProvisionTime)
                     (Increase r + delta)
              else mkScaleUpRequest (SurNodeGroup r) (SurTime r) (ExpectedAddTime r)
                     (Increase r + delta)]> (scaleUpRequests csr))
      end
  end.

Definition RegisterScaleUp csr g (delta now : Z) : ClusterStateRegistry :=
  registerOrUpdateScaleUpNoLock csr g delta now.

Definition RegisterScaleDown csr g (nodeName : string) (now expectedDeleteTime : Z)
    : ClusterStateRegistry :=
  set_downs csr (scaleDownRequests csr ++ [mkScaleDownRequest nodeName g now expectedDeleteTime]).

(** ** Backoff *)

Definition backoffNodeGroup csr g (e : InstanceErrorInfo) now : ClusterStateRegistry :=
  if HasTemplate env (Id g) then set_backoff csr (Backoff (csr_backoff csr) g e now).1 else csr.

Definition RegisterFailedScaleUp csr g (delta : Z) (e : InstanceErrorInfo) now
    : ClusterStateRegistry := backoffNodeGroup csr g e now.

Definition BackoffStatusForNodeGroup csr g now : Status (ErrorInfo := InstanceErrorInfo) :=
  if HasTemplate env (Id g) then BackoffStatus (csr_backoff csr) g now
  else mkStatus false inhabitant.

(** ** Upcoming nodes *)

Definition len {A} (l : list A) : Z := ⟪ l ⟫.

Definition calculateUpcomingNodesInNodeGroup (r : Readiness) (ar : AcceptableRange) : Z :=
  CurrentTarget ar -
  (len (Ready r) + len (Unready r) + len (Suspended r) + len (LongUnregistered r)).

(** [None] is the answer [(0, false)]. *)
Definition getUpcomingNodesInNodeGroup csr (name : string) : option Z :=
  if bool_decide (acceptableRanges csr = ∅) then None
  else match acceptableRanges csr !! name with
  | None => None
  | Some acceptable =>
      match perNodeGroupReadiness csr !! name with
      | None => Some (CurrentTarget acceptable)
      | Some readiness => Some (calculateUpcomingNodesInNodeGroup readiness acceptable)
      end
  end.

Definition areThereUpcomingNodesInNodeGroup csr (name : string) : bool :=
  match getUpcomingNodesInNodeGroup csr name with Some u => 0 <? u | None => false end.

Definition IsNodeGroupRegistered csr (name : string) : bool :=
  match acceptableRanges csr !! name with Some _ => true | None => false end.

Definition IsNodeGroupAtTargetSize csr (name : string) : bool :=
  match getUpcomingNodesInNodeGroup csr name with Some u => u =? 0 | None => false end.

Definition HasNodeGroupStartedScaleUp csr (name : string) : bool :=
  match scaleUpRequests csr !! name with Some _ => true | None => false end.

Definition IsNodeGroupScalingUp csr (name : string) : bool :=
  areThereUpcomingNodesInNodeGroup csr name && HasNodeGroupStartedScaleUp csr name.

(** ** Updating the requests *)

Definition timeout_error (name : string) (elapsed : Z) : InstanceErrorInfo :=
  mkErrorInfo 99 "timeout"
    ("Scale-up timed out for node group " +:+ name +:+ " after " +:+ DurationString env elapsed).

(** The state and the calls of [DecreaseTargetSize] so far. *)
Definition scale_request_step now
    (st : ClusterStateRegistry * list (NodeGroup * Z)) (kr : string * ScaleUpRequest)
    : ClusterStateRegistry * list (NodeGroup * Z) :=
  let '(csr, calls) := st in
  let '(name, r) := kr in
  if IsUpcoming env (SurNodeGroup r) then (csr, calls)
  else if negb (areThereUpcomingNodesInNodeGroup csr name)
  then (set_ups csr (delete name (scaleUpRequests csr)), calls)
  else if ExpectedAddTime r <? now then
    let csr := RegisterFailedScaleUp csr (SurNodeGroup r) (Increase r)
                 (timeout_error name (now - SurTime r)) now in
    (set_ups csr (delete name (scaleUpRequests csr)),
     if 0 <? Increase r then calls ++ [(SurNodeGroup r, - Increase r)] else calls)
  else (csr, calls).

Definition updateScaleRequests csr now : ClusterStateRegistry * list (NodeGroup * Z) :=
  let csr := set_backoff csr (RemoveStaleBackoffData (csr_backoff csr) now) in
  let '(csr, calls) := foldl (scale_request_step now) (csr, []) (go_range (scaleUpRequests csr)) in
  (set_downs csr (foldl (λ l r, if now <? ExpectedDeleteTime r then l ++ [r] else l) []
     (scaleDownRequests csr)), calls).

(** ** Target sizes and acceptable ranges *)

Definition getRunningNodeGroups : list NodeGroup :=
  foldl (λ l g, if IsUpcoming env g then l else l ++ [g]) [] (NodeGroups env).

(** The map is empty when an error is returned. *)
Definition getTargetSizes : gmap string Z * option cp_error :=
  match fold_err (λ m g, match TargetSize g with
                         | Ok size => (<[Id g := size]> m, None)
                         | Err e => (m, Some e)
                         end) (NodeGroups env) ∅ with
  | (m, None) => (m, None)
  | (_, Some e) => (∅, Some e)
  end.

Definition readiness_of csr (name : string) : Readiness :=
  default zero_readiness (perNodeGroupReadiness csr !! name).

Definition updateAcceptableRanges csr (targetSize : gmap string Z) : ClusterStateRegistry :=
  let ranges : gmap string AcceptableRange := foldl (λ result g,
    let size := default 0 (targetSize !! Id g) in
    <[Id g := mkRange (size - len (LongUnregistered (readiness_of csr (Id g)))) size size]> result)
    ∅ getRunningNodeGroups in
  let ranges := foldl (λ result kr,
    let ar := default zero_range (result !! kr.1) in
    <[kr.1 := mkRange (MinNodes ar - Increase kr.2) (MaxNodes ar) (CurrentTarget ar)]> result)
    ranges (go_range (scaleUpRequests csr)) in
  let ranges := foldl (λ result r,
    let ar := default zero_range (result !! Id (SdrNodeGroup r)) in
    <[Id (SdrNodeGroup r) := mkRange (MinNodes ar) (MaxNodes ar + 1) (CurrentTarget ar)]> result)
    ranges (scaleDownRequests csr) in
  set_ranges csr ranges.

Definition Recalculate csr : ClusterStateRegistry := updateAcceptableRanges csr getTargetSizes.1.


(** ** Readiness *)

(** The closure [update] of [updateReadinessStats]; [startup] is the captured
    variable maxNodeStartupTime, which keeps the value of the last node whose
    group has one. *)
Definition readiness_update csr now (startup : Z) (current : Readiness) (node : Node)
    (nr : NodeReadiness) : Z * Readiness :=
  let startup :=
    match EnvNodeGroupForNode env node with
    | Ok (Some g) => match GetMaxNodeStartupTime env g with Ok t => t | Err _ => startup end
    | _ => startup
    end in
  let '(mkReadiness ready unready deleted notStarted suspended registered longUnr unr time resUnr)
    := current in
  let registered := registered ++ [Name node] in
  (startup,
   if bool_decide (Name node ∈ deletedNodes csr) then
     mkReadiness ready unready (deleted ++ [Name node]) notStarted suspended registered longUnr unr
       time resUnr
   else if isSuspendedNode node then
     mkReadiness ready unready deleted notStarted (suspended ++ [Name node]) registered longUnr unr
       time resUnr
   else if NrReady nr then
     mkReadiness (ready ++ [Name node]) unready deleted notStarted suspended registered longUnr unr
       time resUnr
   else if now <? CreationTimestamp node + startup then
     mkReadiness ready unready deleted (notStarted ++ [Name node]) suspended registered longUnr unr
       time resUnr
   else
     mkReadiness ready (unready ++ [Name node]) deleted notStarted suspended registered longUnr unr
       time (if bool_decide (NrReason nr = ResourceUnready) then resUnr ++ [Name node] else resUnr)).

Record readiness_state : Type := mkReadinessState {
  rs_startup : Z; rs_per : gmap string Readiness; rs_total : Readiness
}.

Definition readiness_node_step csr now (st : readiness_state) (node : Node) : readiness_state :=
  let nr := (GetNodeReadiness node).1 in
  let '(mkReadinessState startup per total) := st in
  let '(startup, per) :=
    match EnvNodeGroupForNode env node with
    | Ok (Some g) =>
        let '(startup, r) :=
          readiness_update csr now startup (default zero_readiness (per !! Id g)) node nr in
        (startup, <[Id g := r]> per)
    | _ => (startup, per)
    end in
  let '(startup, total) := readiness_update csr now startup total node nr in
  mkReadinessState startup per total.

Definition add_unregistered (r : Readiness) (long : bool) (name : string) : Readiness :=
  let '(mkReadiness ready unready deleted notStarted suspended registered longUnr unr time resUnr)
    := r in
  if long
  then mkReadiness ready unready deleted notStarted suspended registered (longUnr ++ [name]) unr
         time resUnr
  else mkReadiness ready unready deleted notStarted suspended registered longUnr (unr ++ [name])
         time resUnr.

Definition readiness_unregistered_step now (st : gmap string Readiness * Readiness)
    (u : UnregisteredNode) : gmap string Readiness * Readiness :=
  let '(per, total) := st in
  match EnvNodeGroupForNode env (UnrNode u) with
  | Ok (Some g) =>
      match GetMaxNodeProvisionTime env g with
      | Ok provision =>
          let long := UnregisteredSince u + provision <? now in
          (<[Id g := add_unregistered (default zero_readiness (per !! Id g)) long (Name (UnrNode u))]> per,
           add_unregistered total long (Name (UnrNode u)))
      | Err _ => (per, total)
      end
  | _ => (per, total)
  end.

Definition with_time now (r : Readiness) : Readiness :=
  mkReadiness (Ready r) (Unready r) (Deleted r) (NotStarted r) (Suspended r) (Registered r)
    (LongUnregistered r) (Unregistered r) now (ResourceUnreadyNodes r).

Definition updateReadinessStats csr now : ClusterStateRegistry :=
  let st := foldl (readiness_node_step csr now)
    (mkReadinessState MaxNodeStartupTimeDefault ∅ (with_time now zero_readiness)) (csr_nodes csr) in
  let '(per, total) := foldl (readiness_unregistered_step now) (rs_per st, rs_total st)
    (go_range (unregisteredNodes csr)).*2 in
  set_readiness csr (foldl (λ m kr, <[kr.1 := with_time now kr.2]> m) per (go_range per)) total.

(** ** Health *)

Section health.
(** [float64(n) > MaxTotalUnreadyPercentage / 100.0 * float64(total)]. *)
Context (aboveUnreadyPercentage : Z → Z → bool) (OkTotalUnreadyCount : Z).

Definition IsClusterHealthy csr : bool :=
  let totalUnready := len (Unready (totalReadiness csr)) in
  negb ((OkTotalUnreadyCount <? totalUnready) &&
        aboveUnreadyPercentage totalUnready (len (csr_nodes csr))).

Definition IsNodeGroupHealthy csr (name : string) : bool :=
  match acceptableRanges csr !! name with
  | None => false
  | Some acceptable =>
      match perNodeGroupReadiness csr !! name with
      | None => (CurrentTarget acceptable =? 0) ||
                ((MinNodes acceptable =? 0) && (0 <? CurrentTarget acceptable))
      | Some r =>
          let unjustifiedUnready :=
            if len (Ready r) + len (Suspended r) <? MinNodes acceptable
            then MinNodes acceptable - len (Ready r) - len (Suspended r) else 0 in
          negb ((OkTotalUnreadyCount <? unjustifiedUnready) &&
                aboveUnreadyPercentage unjustifiedUnready
                  (len (Ready r) + len (Unready r) + len (NotStarted r) + len (Suspended r)))
      end
  end.

Record NodeGroupScalingSafety : Type := mkSafety {
  SafeToScale : bool; Healthy : bool; SafetyBackoff : Status (ErrorInfo := InstanceErrorInfo)
}.

Definition NodeGroupScaleUpSafety csr g now : NodeGroupScalingSafety :=
  let isHealthy := IsNodeGroupHealthy csr (Id g) in
  let status := BackoffStatusForNodeGroup csr g now in
  mkSafety (isHealthy && negb (IsBackedOff status)) isHealthy status.

End health.

(** ** Incorrect sizes *)

Definition incorrect_step csr now (result : gmap string IncorrectNodeGroupSize) g
    : gmap string IncorrectNodeGroupSize :=
  match acceptableRanges csr !! Id g, perNodeGroupReadiness csr !! Id g with
  | Some ar, Some r =>
      let unregistered := len (Unregistered r) + len (LongUnregistered r) in
      if (CurrentTarget ar <? len (Registered r)) ||
         (len (Registered r) <? CurrentTarget ar - unregistered) then
        let incorrect := mkIncorrect (CurrentTarget ar) (len (Registered r)) now in
        <[Id g :=
          match incorrectNodeGroupSizes csr !! Id g with
          | Some existing =>
              if (IncCurrentSize incorrect =? IncCurrentSize existing) &&
                 (IncExpectedSize incorrect =? IncExpectedSize existing)
              then existing else incorrect
          | None => incorrect
          end]> result
      else result
  | _, _ => result
  end.

Definition updateIncorrectNodeGroupSizes csr now : ClusterStateRegistry :=
  set_incorrect csr (foldl (incorrect_step csr now) ∅ getRunningNodeGroups).

(** ** Observing the cloud *)

Definition FakeNodeReasonAnnotation : string := "k8s.io/cluster-autoscaler/fake-node-reason".
Definition FakeNodeUnregistered : string := "unregistered".

Definition FakeNode (i : CloudInstance) (reason : string) : Node :=
  mkNode (InstId i) (InstId i) ∅ {[FakeNodeReasonAnnotation := reason]} [] false 0 [].

Definition expectedToRegister (i : CloudInstance) : bool :=
  match InstStatus i with
  | None => true
  | Some st => negb (bool_decide (InstState st = InstanceDeleting)) &&
               match InstErrorInfo st with None => true | Some _ => false end
  end.

Definition getNotRegisteredNodes (allNodes : list Node)
    (instances : gmap string (list CloudInstance)) now : list UnregisteredNode :=
  let registered : gset string := foldl (λ s n, {[ProviderID n]} ∪ s) ∅ allNodes in
  foldl (λ acc kl, foldl (λ acc i,
    if negb (bool_decide (InstId i ∈ registered)) && expectedToRegister i
    then acc ++ [mkUnregistered (FakeNode i FakeNodeUnregistered) now] else acc) acc kl.2)
    [] (go_range instances).

Definition updateUnregisteredNodes csr (unregistered : list UnregisteredNode)
    : gmap string UnregisteredNode :=
  foldl (λ result u, <[Name (UnrNode u) := default u (unregisteredNodes csr !! Name (UnrNode u))]> result)
    ∅ unregistered.

Definition hasCloudProviderInstance (node : Node) : bool :=
  match HasInstance env node with Ok exists_ => exists_ | Err _ => negb (HasToBeDeletedTaint node) end.

Definition getCloudProviderDeletedNodes (allNodes : list Node) : list Node :=
  foldl (λ l n, if hasCloudProviderInstance n then l else l ++ [n]) [] allNodes.

Definition updateCloudProviderDeletedNodes (deleted : list Node) : gset string :=
  foldl (λ s n, {[Name n]} ∪ s) ∅ deleted.

(** ** Instances that cannot be created *)

Definition errorCode : Type := string * Z.

(** Whether an instance reports a creation error, and which. *)
Definition creation_error (i : CloudInstance) : option InstanceErrorInfo :=
  match InstStatus i with
  | Some st => if bool_decide (InstState st = InstanceCreating) then InstErrorInfo st else None
  | None => None
  end.

(** The three maps of [buildInstanceToErrorCodeMappings] and its temporary set of
    messages, after the first loop. *)
Record error_mappings : Type := mkMappings {
  instanceToErrorCode : gmap string errorCode;
  uniqueMessagesTmp : gmap errorCode (gmap string bool);
  errorCodeToInstance : gmap errorCode (list CloudInstance)
}.

Definition error_mapping_step (m : error_mappings) (i : CloudInstance) : error_mappings :=
  match creation_error i with
  | Some e =>
      let c : errorCode := (ErrorCode e, ErrorClass e) in
      mkMappings (<[InstId i := c]> (instanceToErrorCode m))
        (<[c := <[ErrorMessage e := true]> (default ∅ (uniqueMessagesTmp m !! c))]> (uniqueMessagesTmp m))
        (<[c := default [] (errorCodeToInstance m !! c) ++ [i]]> (errorCodeToInstance m))
  | None => m
  end.

(** The mappings and the unique messages of each code. *)
Definition buildInstanceToErrorCodeMappings (l : list CloudInstance)
    : error_mappings * gmap errorCode (list string) :=
  let m := foldl error_mapping_step (mkMappings ∅ ∅ ∅) l in
  (m, foldl (λ u cm, foldl (λ u (mb : string * bool), <[cm.1 := default [] (u !! cm.1) ++ [mb.1]]> u)
                       u (go_range cm.2)) ∅ (go_range (uniqueMessagesTmp m))).

Definition buildErrorMessageEventString (uniqErrorMessages : list string) : string :=
  let maxErrors := 3 in
  let sb := foldl (λ (sb : nat * string) m,
    (S sb.1, (if (0 <? sb.1)%nat then sb.2 +:+ ", " else sb.2) +:+ m)) (O, "") uniqErrorMessages in
  if maxErrors <? len uniqErrorMessages then sb.2 +:+ ", ..." else sb.2.

Definition creation_error_step g (previous : gmap string errorCode)
    (messages : gmap errorCode (list string)) now
    (csr : ClusterStateRegistry) (ci : errorCode * list CloudInstance) : ClusterStateRegistry :=
  let unseen := foldl (λ l i, match previous !! InstId i with
                              | Some _ => l
                              | None => l ++ [InstId i]
                              end) [] ci.2 in
  if (0 <? len unseen) && IsNodeGroupScalingUp csr (Id g) then
    let csr := registerOrUpdateScaleUpNoLock csr g (- len unseen) now in
    RegisterFailedScaleUp csr g (len unseen)
      (mkErrorInfo ci.1.2 ci.1.1
         (buildErrorMessageEventString (default [] (messages !! ci.1)))) now
  else csr.

Definition handleInstanceCreationErrorsForNodeGroup csr g
    (currentInstances previousInstances : list CloudInstance) now : ClusterStateRegistry :=
  let '(current, messages) := buildInstanceToErrorCodeMappings currentInstances in
  let previous := (buildInstanceToErrorCodeMappings previousInstances).1 in
  foldl (creation_error_step g (instanceToErrorCode previous) messages now) csr
    (go_range (errorCodeToInstance current)).

Definition handleInstanceCreationErrors csr now : ClusterStateRegistry :=
  foldl (λ csr g, handleInstanceCreationErrorsForNodeGroup csr g
      (default [] (csr_instances csr !! Id g)) (default [] (csr_previousInstances csr !! Id g)) now)
    csr getRunningNodeGroups.

Definition FakeNodeCreateError : string := "create-error".

Definition GetCreatedNodesWithErrors csr : gmap string (list Node) :=
  foldl (λ out gi,
    let byCode := errorCodeToInstance (buildInstanceToErrorCodeMappings gi.2).1 in
    foldl (λ out ci, foldl (λ out i,
        <[gi.1 := default [] (out !! gi.1) ++ [FakeNode i FakeNodeCreateError]]> out) out ci.2)
      out (go_range byCode)) ∅ (go_range (csr_instances csr)).

(** ** One update of the registry *)

Definition updateClusterStateRegistry csr (nodes : list Node)
    (instances : gmap string (list CloudInstance)) now (targetSizes : gmap string Z)
    : ClusterStateRegistry * list (NodeGroup * Z) :=
  let removed := getCloudProviderDeletedNodes nodes in
  let notRegistered := getNotRegisteredNodes nodes instances now in
  let csr := set_observed csr nodes instances (updateUnregisteredNodes csr notRegistered)
               (updateCloudProviderDeletedNodes removed) in
  let csr := updateReadinessStats csr now in
  let csr := updateAcceptableRanges csr targetSizes in
  let '(csr, calls) := updateScaleRequests csr now in
  let csr := handleInstanceCreationErrors csr now in
  let csr := updateAcceptableRanges csr targetSizes in
  (updateIncorrectNodeGroupSizes csr now, calls).

(** [UpdateNodes]: [instances] is the answer of the instances cache. *)
Definition UpdateNodes csr (nodes : list Node)
    (instances : result cp_error (gmap string (list CloudInstance))) now
    : ClusterStateRegistry * list (NodeGroup * Z) * option cp_error :=
  match getTargetSizes with
  | (_, Some e) => (csr, [], Some e)
  | (targetSizes, None) =>
      match instances with
      | Err e => (csr, [], Some e)
      | Ok instances =>
          let '(csr, calls) := updateClusterStateRegistry csr nodes instances now targetSizes in
          (csr, calls, None)
      end
  end.

(** [GetUpcomingNodes], the counts and the names of registered upcoming nodes.
    [clock g] is the reading of time.Now() when [g] is looked at; a provider
    that answers an error answers the size 0 with it. *)
Definition upcoming_step csr (clock : NodeGroup → Z) (st : gmap string Z * gmap string (list string)) g
    : gmap string Z * gmap string (list string) :=
  let '(counts, names) := st in
  if IsUpcoming env g then
    match TargetSize g with
    | Ok size => if 0 <=? size then (<[Id g := size]> counts, names) else (counts, names)
    | Err _ => (<[Id g := 0]> counts, names)
    end
  else
    let r := readiness_of csr (Id g) in
    let newNodes := calculateUpcomingNodesInNodeGroup r
                      (default zero_range (acceptableRanges csr !! Id g)) in
    if newNodes <=? 0 then (counts, names)
    else if negb (HasNodeGroupStartedScaleUp csr (Id g)) then (counts, names)
    else if IsBackedOff (BackoffStatusForNodeGroup csr g (clock g)) then (counts, names)
    else (<[Id g := newNodes]> counts, <[Id g := NotStarted r]> names).

Definition GetUpcomingNodes csr (clock : NodeGroup → Z) : gmap string Z * gmap string (list string) :=
  foldl (upcoming_step csr clock) (∅, ∅) (NodeGroups env).

Definition GetAutoscaledNodesCount csr : Z * Z :=
  (foldl (λ n kr, n + (len (Registered kr.2) - len (NotStarted kr.2))) 0
     (go_range (perNodeGroupReadiness csr)),
   foldl (λ n kr, n + CurrentTarget kr.2) 0 (go_range (acceptableRanges csr))).


(** ** Requests never lose their meaning *)

(** Every request asks for new nodes and is filed under its group. *)
Definition requests_ok csr : Prop :=
  map_Forall (λ k r, 0 < Increase r ∧ Id (SurNodeGroup r) = k) (scaleUpRequests csr).

Lemma requests_ok_delete csr csr' k :
  requests_ok csr → scaleUpRequests csr' = delete k (scaleUpRequests csr) → requests_ok csr'.
Proof. unfold requests_ok. intros H ->. by apply map_Forall_delete. Qed.

Lemma RegisterFailedScaleUp_requests csr g delta e now :
  scaleUpRequests (RegisterFailedScaleUp csr g delta e now) = scaleUpRequests csr.
Proof. unfold RegisterFailedScaleUp, backoffNodeGroup. by case_match. Qed.

Lemma registerOrUpdate_requests_ok csr g delta now :
  requests_ok csr → requests_ok (registerOrUpdateScaleUpNoLock csr g delta now).
Proof.
  intros Hok. unfold registerOrUpdateScaleUpNoLock.
  destruct (GetMaxNodeProvisionTime env g) as [prov|]; [|done].
  destruct (scaleUpRequests csr !! Id g) as [r|] eqn:Hr.
  - destruct (Hok _ _ Hr) as [Hi Hid].
    destruct (Increase r + delta <=? 0) eqn:Hz; [by eapply requests_ok_delete|].
    apply map_Forall_insert_2; [|done]. case_match; simpl; split; (done || lia).
  - destruct (0 <? delta) eqn:Hd; [|done]. apply map_Forall_insert_2; [simpl; split; [lia|done]|done].
Qed.

Lemma scale_request_step_ok now st kr :
  requests_ok st.1 → requests_ok (scale_request_step now st kr).1.
Proof.
  destruct st as [csr calls], kr as [name r]. intros Hok. unfold scale_request_step.
  destruct (IsUpcoming env (SurNodeGroup r)); [done|].
  destruct (negb _); [eapply requests_ok_delete; [exact Hok|done]|].
  destruct (ExpectedAddTime r <? now); [|done].
  eapply requests_ok_delete; [exact Hok|]. simpl. by rewrite RegisterFailedScaleUp_requests.
Qed.

Lemma updateScaleRequests_ok csr now :
  requests_ok csr → requests_ok (updateScaleRequests csr now).1.
Proof.
  intros Hok. unfold updateScaleRequests.
  set (csr0 := set_backoff csr _).
  pose proof (foldl_inv (λ st, requests_ok st.1) (scale_request_step now)
    (go_range (scaleUpRequests csr0)) (csr0, []) Hok
    (λ s x _ H, scale_request_step_ok now s x H)) as H.
  destruct (foldl _ _ _) as [csr1 calls]. exact H.
Qed.

Lemma handleInstanceCreationErrors_ok csr now :
  requests_ok csr → requests_ok (handleInstanceCreationErrors csr now).
Proof.
  intros Hok. unfold handleInstanceCreationErrors. apply foldl_inv; [done|].
  intros c g _ Hc. unfold handleInstanceCreationErrorsForNodeGroup.
  destruct (buildInstanceToErrorCodeMappings _) as [current messages].
  apply foldl_inv; [done|]. intros c' ci _ Hc'. unfold creation_error_step.
  case_match; [|done]. unfold requests_ok. rewrite RegisterFailedScaleUp_requests.
  by apply registerOrUpdate_requests_ok.
Qed.

Lemma updateReadinessStats_requests csr now :
  scaleUpRequests (updateReadinessStats csr now) = scaleUpRequests csr.
Proof. unfold updateReadinessStats. by destruct (foldl (readiness_unregistered_step now) _ _). Qed.

Lemma updateClusterStateRegistry_ok csr nodes instances now sizes :
  requests_ok csr → requests_ok (updateClusterStateRegistry csr nodes instances now sizes).1.
Proof.
  intros Hok. unfold updateClusterStateRegistry.
  set (csr1 := updateAcceptableRanges _ sizes).
  assert (requests_ok csr1) as H1.
  { unfold requests_ok, csr1, updateAcceptableRanges. simpl. by rewrite updateReadinessStats_requests. }
  pose proof (updateScaleRequests_ok csr1 now H1) as H2.
  destruct (updateScaleRequests csr1 now) as [csr2 calls]. simpl in *.
  by apply (handleInstanceCreationErrors_ok csr2 now).
Qed.

(** ** Readiness is a partition *)

Definition partitioned (r : Readiness) : Prop :=
  Registered r ≡ₚ Ready r ++ Unready r ++ Deleted r ++ NotStarted r ++ Suspended r.

Lemma readiness_update_spec csr now startup current node nr :
  let r := (readiness_update csr now startup current node nr).2 in
  partitioned current →
  partitioned r ∧ Registered r = Registered current ++ [Name node] ∧
  LongUnregistered r = LongUnregistered current ∧ Unregistered r = Unregistered current.
Proof.
  destruct current. unfold partitioned, readiness_update. simpl. intros Hp.
  repeat case_match; simpl; (split; [|done]); rewrite Hp; solve_Permutation.
Qed.

Definition in_group (id : string) (node : Node) : Prop :=
  match EnvNodeGroupForNode env node with Ok (Some g) => Id g = id | _ => False end.
#[local] Instance in_group_dec id node : Decision (in_group id node).
Proof. unfold in_group. repeat case_match; apply _. Defined.

Definition group_readiness (per : gmap string Readiness) (id : string) : Readiness :=
  default zero_readiness (per !! id).

Record readiness_inv (l : list Node) (st : readiness_state) : Prop := {
  ri_group : ∀ id, partitioned (group_readiness (rs_per st) id) ∧
    Registered (group_readiness (rs_per st) id) = Name <$> filter (in_group id) l;
  ri_total : partitioned (rs_total st) ∧ Registered (rs_total st) = Name <$> l
}.

Lemma readiness_node_step_inv csr now l st node :
  readiness_inv l st → readiness_inv (l ++ [node]) (readiness_node_step csr now st node).
Proof.
  destruct st as [startup per total]. intros [Hg Ht]. simpl in *. unfold readiness_node_step.
  set (nr := (GetNodeReadiness node).1).
  assert (∀ startup' per' r',
    (∀ id, partitioned (group_readiness per' id) ∧
       Registered (group_readiness per' id) = Name <$> filter (in_group id) (l ++ [node])) →
    readiness_update csr now startup' total node nr = r' →
    readiness_inv (l ++ [node]) (mkReadinessState r'.1 per' r'.2)) as Hfin.
  { intros startup' per' r' Hper' <-. split; simpl; [done|].
    destruct (readiness_update_spec csr now startup' total node nr (proj1 Ht)) as (Hp & Hr & _).
    split; [done|]. by rewrite Hr, (proj2 Ht), fmap_app. }
  assert (∀ id, filter (in_group id) (l ++ [node]) =
    filter (in_group id) l ++ if decide (in_group id node) then [node] else []) as Hfil
    by (intros id; by rewrite filter_app, filter_cons, filter_nil).
  assert ((∀ id, ¬ in_group id node) → ∀ id, partitioned (group_readiness per id) ∧
       Registered (group_readiness per id) = Name <$> filter (in_group id) (l ++ [node])) as Hskip.
  { intros Hno id. rewrite Hfil, decide_False, app_nil_r by done. apply Hg. }
  destruct (EnvNodeGroupForNode env node) as [[g|]|] eqn:Hng.
  - destruct (readiness_update csr now startup (default zero_readiness (per !! Id g)) node nr)
      as [startup1 r1] eqn:Hu1.
    destruct (readiness_update csr now startup1 total node nr) as [startup2 r2] eqn:Hu2.
    apply (Hfin startup1 _ (startup2, r2)); [|done]. intros id. rewrite Hfil.
    unfold group_readiness. destruct (decide (Id g = id)) as [<-|Hne].
    + rewrite lookup_insert_eq, decide_True by (unfold in_group; by rewrite Hng). simpl.
      destruct (Hg (Id g)) as [Hp Hr].
      destruct (readiness_update_spec csr now startup _ node nr Hp) as (Hp' & Hr' & _).
      unfold group_readiness in Hp', Hr', Hr. rewrite Hu1 in Hp', Hr'. simpl in *.
      split; [done|]. by rewrite Hr', Hr, fmap_app.
    + rewrite lookup_insert_ne, decide_False, app_nil_r by (done || unfold in_group; by rewrite Hng).
      apply Hg.
  - destruct (readiness_update csr now startup total node nr) as [startup2 r2] eqn:Hu2.
    apply (Hfin startup _ (startup2, r2)); [|done]. apply Hskip. intros id.
    unfold in_group. rewrite Hng. tauto.
  - destruct (readiness_update csr now startup total node nr) as [startup2 r2] eqn:Hu2.
    apply (Hfin startup _ (startup2, r2)); [|done]. apply Hskip. intros id.
    unfold in_group. rewrite Hng. tauto.
Qed.

Lemma readiness_nodes_inv csr now l :
  readiness_inv l (foldl (readiness_node_step csr now)
    (mkReadinessState MaxNodeStartupTimeDefault ∅ (with_time now zero_readiness)) l).
Proof.
  induction l as [|n l IH] using rev_ind.
  - split; simpl; [intros id; unfold group_readiness; rewrite lookup_empty|];
      (split; [unfold partitioned; reflexivity|done]).
  - rewrite foldl_app. by apply readiness_node_step_inv.
Qed.

(** The fields an unregistered node does not touch. *)
Definition same_registered (r r' : Readiness) : Prop :=
  Registered r' = Registered r ∧ Ready r' = Ready r ∧ Unready r' = Unready r ∧
  Deleted r' = Deleted r ∧ NotStarted r' = NotStarted r ∧ Suspended r' = Suspended r.

Lemma unregistered_step_same now st u id :
  same_registered (group_readiness st.1 id)
    (group_readiness (readiness_unregistered_step now st u).1 id) ∧
  same_registered st.2 (readiness_unregistered_step now st u).2.
Proof.
  destruct st as [per total]. unfold readiness_unregistered_step. simpl.
  destruct (EnvNodeGroupForNode env (UnrNode u)) as [[g|]|]; [|done..].
  destruct (GetMaxNodeProvisionTime env g) as [prov|]; [|done]. simpl. split.
  - unfold group_readiness. destruct (decide (Id g = id)) as [<-|].
    + rewrite lookup_insert_eq. simpl. destruct (default zero_readiness (per !! Id g)).
      simpl. by case_match.
    + by rewrite lookup_insert_ne.
  - destruct total. simpl. by case_match.
Qed.

Lemma same_registered_trans r1 r2 r3 :
  same_registered r1 r2 → same_registered r2 r3 → same_registered r1 r3.
Proof. unfold same_registered. intuition congruence. Qed.

Lemma unregistered_loop_same now l : ∀ st id,
  let st' := foldl (readiness_unregistered_step now) st l in
  same_registered (group_readiness st.1 id) (group_readiness st'.1 id) ∧
  same_registered st.2 st'.2.
Proof.
  induction l as [|u l IH]; intros st id; simpl; [done|].
  destruct (unregistered_step_same now st u id) as [H1 H2].
  destruct (IH (readiness_unregistered_step now st u) id) as [H3 H4].
  split; by eapply same_registered_trans.
Qed.

Lemma partitioned_same r r' : same_registered r r' → partitioned r → partitioned r'.
Proof. unfold partitioned. intros (-> & -> & -> & -> & -> & ->). done. Qed.

(** Readiness statistics partition the registered nodes: for every node group,
    Registered lists exactly the names of its nodes in order, and each of them
    is in exactly one of Ready, Unready, Deleted, NotStarted and Suspended; the
    same holds of the cluster-wide statistics. *)
Theorem readiness_is_partition csr now id :
  let csr' := updateReadinessStats csr now in
  let r := readiness_of csr' id in
  Registered r = Name <$> filter (in_group id) (csr_nodes csr) ∧ partitioned r ∧
  Registered (totalReadiness csr') = Name <$> csr_nodes csr ∧ partitioned (totalReadiness csr').
Proof.
  cbv zeta. unfold updateReadinessStats, readiness_of.
  destruct (readiness_nodes_inv csr now (csr_nodes csr)) as [Hg [Ht1 Ht2]].
  set (st := foldl (readiness_node_step csr now) _ _) in *.
  destruct (unregistered_loop_same now (go_range (unregisteredNodes csr)).*2 (rs_per st, rs_total st) id)
    as [Hs1 Hs2].
  destruct (foldl (readiness_unregistered_step now) _ _) as [per total]. simpl in *.
  rewrite lookup_range_insert_with. destruct (Hg id) as [Hp Hr].
  assert (same_registered (group_readiness per id)
    (default zero_readiness (match per !! id with Some v => Some (with_time now v) | None => per !! id end)))
    as Hs3 by (unfold group_readiness; by destruct (per !! id)).
  pose proof (same_registered_trans _ _ _ Hs1 Hs3) as Hs. split_and!.
  - destruct Hs as [-> _]. done.
  - by eapply partitioned_same.
  - destruct Hs2 as [-> _]. done.
  - by eapply partitioned_same.
Qed.


(** ** Acceptable ranges *)

Lemma running_elem g : g ∈ getRunningNodeGroups ↔ g ∈ NodeGroups env ∧ IsUpcoming env g = false.
Proof.
  unfold getRunningNodeGroups. induction (NodeGroups env) as [|x l IH] using rev_ind; [set_solver|].
  rewrite foldl_app. simpl. destruct (IsUpcoming env x) eqn:Hx;
    rewrite ?elem_of_app, ?list_elem_of_singleton, IH; intuition congruence.
Qed.

Lemma lookup_foldl_insert_NoDup {A B} (key : A → string) (val : A → B) (l : list A) x :
  NoDup (key <$> l) → x ∈ l →
  foldl (λ m y, <[key y := val y]> m) (∅ : gmap string B) l !! key x = Some (val x).
Proof.
  induction l as [|y l IH] using rev_ind; [set_solver|].
  rewrite fmap_app, foldl_app, NoDup_app. simpl. intros (Hnd & Hdis & _) Hx.
  apply elem_of_app in Hx as [Hx| ->%list_elem_of_singleton]; [|by rewrite lookup_insert_eq].
  rewrite lookup_insert_ne; [by apply IH|]. intros Heq. apply (Hdis (key x)); [|rewrite Heq; left].
  by apply list_elem_of_fmap_2.
Qed.

Lemma lookup_range_adjust (f : ScaleUpRequest → AcceptableRange → AcceptableRange)
    (m : gmap string ScaleUpRequest) (acc : gmap string AcceptableRange) i :
  foldl (λ result kr, <[kr.1 := f kr.2 (default zero_range (result !! kr.1))]> result)
    acc (go_range m) !! i =
  match m !! i with Some r => Some (f r (default zero_range (acc !! i))) | None => acc !! i end.
Proof.
  rewrite <- (lookup_range_partial_alter (λ _ r o, Some (f r (default zero_range o)))).
  f_equal. apply foldl_ext'; [|done]. intros a [k r]. simpl. apply map_eq. intros j.
  rewrite lookup_insert, lookup_partial_alter. by case_decide; subst.
Qed.

Lemma lookup_raise_max (l : list ScaleDownRequest) : ∀ (acc : gmap string AcceptableRange) i ar,
  acc !! i = Some ar →
  foldl (λ result r, <[Id (SdrNodeGroup r) :=
      let ar := default zero_range (result !! Id (SdrNodeGroup r)) in
      mkRange (MinNodes ar) (MaxNodes ar + 1) (CurrentTarget ar)]> result) acc l !! i =
  Some (mkRange (MinNodes ar)
    (MaxNodes ar + len (filter (λ r, Id (SdrNodeGroup r) = i) l)) (CurrentTarget ar)).
Proof.
  induction l as [|r l IH]; intros acc i ar Hi; simpl.
  { rewrite Hi. destruct ar. by rewrite Z.add_0_r. }
  rewrite filter_cons. destruct (decide (Id (SdrNodeGroup r) = i)) as [<-|Hne].
  - erewrite IH by apply lookup_insert_eq. rewrite Hi. simpl. unfold len. simpl.
    do 2 f_equal. lia.
  - by erewrite IH by (rewrite lookup_insert_ne by done; exact Hi).
Qed.

(** The acceptable range of a running node group is what the comment of
    updateAcceptableRanges promises: its target size is the upper end, raised by
    one for each node of the group being deleted, and the lower end, lowered by
    the instances that failed to register in time and by the nodes of a
    scale-up in progress. *)
Theorem acceptable_range_exact csr sizes g :
  NoDup (Id <$> getRunningNodeGroups) → g ∈ getRunningNodeGroups →
  let target := default 0 (sizes !! Id g) in
  acceptableRanges (updateAcceptableRanges csr sizes) !! Id g =
  Some (mkRange
    (target - len (LongUnregistered (readiness_of csr (Id g)))
       - match scaleUpRequests csr !! Id g with Some r => Increase r | None => 0 end)
    (target + len (filter (λ r, Id (SdrNodeGroup r) = Id g) (scaleDownRequests csr)))
    target).
Proof.
  intros Hnd Hg. cbv zeta. unfold updateAcceptableRanges. simpl.
  set (val g := mkRange (default 0 (sizes !! Id g) - len (LongUnregistered (readiness_of csr (Id g))))
    (default 0 (sizes !! Id g)) (default 0 (sizes !! Id g))).
  change (foldl (λ result g, <[Id g := mkRange (default 0 (sizes !! Id g) -
    len (LongUnregistered (readiness_of csr (Id g)))) (default 0 (sizes !! Id g))
    (default 0 (sizes !! Id g))]> result) ∅ getRunningNodeGroups)
    with (foldl (λ m g, <[Id g := val g]> m) (∅ : gmap string AcceptableRange) getRunningNodeGroups).
  set (m1 := foldl _ ∅ getRunningNodeGroups).
  assert (m1 !! Id g = Some (val g)) as H1 by (by apply lookup_foldl_insert_NoDup).
  pose proof (lookup_range_adjust (λ r ar, mkRange (MinNodes ar - Increase r) (MaxNodes ar)
    (CurrentTarget ar)) (scaleUpRequests csr) m1 (Id g)) as H2. cbv beta in H2.
  set (m2 := foldl _ m1 (go_range (scaleUpRequests csr))) in *. rewrite H1 in H2.
  destruct (scaleUpRequests csr !! Id g) as [r|];
    (erewrite lookup_raise_max; [|exact H2]); unfold val; simpl; [done|by rewrite Z.sub_0_r].
Qed.

(** ** Timed-out scale-ups *)

(** What one loop decides about a request. *)
Inductive request_fate : Type := Kept | Finished | TimedOut.
#[local] Instance request_fate_eq_dec : EqDecision request_fate.
Proof. solve_decision. Defined.

Definition fate csr now (name : string) (r : ScaleUpRequest) : request_fate :=
  if IsUpcoming env (SurNodeGroup r) then Kept
  else if negb (areThereUpcomingNodesInNodeGroup csr name) then Finished
  else if ExpectedAddTime r <? now then TimedOut else Kept.

(** The parts of the state the fate depends on, and the requests in the list. *)
Definition same_view csr csr' : Prop :=
  acceptableRanges csr' = acceptableRanges csr ∧
  perNodeGroupReadiness csr' = perNodeGroupReadiness csr ∧
  scaleDownRequests csr' = scaleDownRequests csr.

Lemma fate_same_view csr csr' now name r :
  same_view csr csr' → fate csr' now name r = fate csr now name r.
Proof.
  intros (Hr & Hp & _). unfold fate, areThereUpcomingNodesInNodeGroup, getUpcomingNodesInNodeGroup.
  by rewrite Hr, Hp.
Qed.

Lemma RegisterFailedScaleUp_view csr g delta e now :
  same_view csr (RegisterFailedScaleUp csr g delta e now).
Proof. unfold RegisterFailedScaleUp, backoffNodeGroup, same_view. by case_match. Qed.

Lemma scale_request_step_fate now csr calls name r :
  let '(csr', calls') := scale_request_step now (csr, calls) (name, r) in
  same_view csr csr' ∧
  scaleUpRequests csr' = (match fate csr now name r with
    | Kept => scaleUpRequests csr | _ => delete name (scaleUpRequests csr) end) ∧
  calls' = calls ++ (match fate csr now name r with
    | TimedOut => if 0 <? Increase r then [(SurNodeGroup r, - Increase r)] else []
    | _ => [] end).
Proof.
  unfold scale_request_step, fate.
  destruct (IsUpcoming env (SurNodeGroup r)); [by rewrite app_nil_r|].
  destruct (negb _); [by rewrite app_nil_r|].
  destruct (ExpectedAddTime r <? now); [|by rewrite app_nil_r].
  destruct (RegisterFailedScaleUp_view csr (SurNodeGroup r) (Increase r)
    (timeout_error name (now - SurTime r)) now)
    as (H1 & H2 & H3).
  split_and!; [by split_and!|simpl; by rewrite RegisterFailedScaleUp_requests|].
  case_match; [done|by rewrite app_nil_r].
Qed.

(** The calls of DecreaseTargetSize that the requests of [l] cause. *)
Definition reverts csr now (l : list (string * ScaleUpRequest)) : list (NodeGroup * Z) :=
  concat ((λ kr, match fate csr now kr.1 kr.2 with
    | TimedOut => if 0 <? Increase kr.2 then [(SurNodeGroup kr.2, - Increase kr.2)] else []
    | _ => [] end) <$> l).

Lemma scale_request_loop now l : ∀ csr calls,
  let '(csr', calls') := foldl (scale_request_step now) (csr, calls) l in
  same_view csr csr' ∧ calls' = calls ++ reverts csr now l ∧
  ∀ k, ((∀ r, (k, r) ∈ l → fate csr now k r = Kept) →
          scaleUpRequests csr' !! k = scaleUpRequests csr !! k) ∧
       (∀ r, (k, r) ∈ l → fate csr now k r ≠ Kept → scaleUpRequests csr' !! k = None).
Proof.
  induction l as [|[name r] l IH]; intros csr calls; cbn [foldl].
  { split_and!; [done|by rewrite app_nil_r|]. intros k. split; [done|]. intros r []%elem_of_nil. }
  pose proof (scale_request_step_fate now csr calls name r) as Hstep.
  destruct (scale_request_step now (csr, calls) (name, r)) as [csr1 calls1].
  destruct Hstep as (Hv & Hm & Hcalls). specialize (IH csr1 calls1).
  destruct (foldl _ _ l) as [csr2 calls2]. destruct IH as (Hv2 & -> & Hl).
  assert (∀ k r, fate csr1 now k r = fate csr now k r) as Hfate
    by (intros; by apply fate_same_view).
  assert (∀ k, scaleUpRequests csr1 !! k = None → scaleUpRequests csr2 !! k = None) as Hstay.
  { intros k Hk. destruct (Hl k) as [Hkeep Hdrop].
    destruct (decide (Exists (λ kr, kr.1 = k ∧ fate csr1 now k kr.2 ≠ Kept) l)) as [He|He].
    - apply Exists_exists in He as ([k' r'] & Hin & [= ->] & Hf). by eapply Hdrop.
    - rewrite Hkeep; [done|]. intros r' Hin. destruct (decide (fate csr1 now k r' = Kept)); [done|].
      destruct He. apply Exists_exists. by exists (k, r'). }
  split_and!.
  - destruct Hv as (? & ? & ?), Hv2 as (? & ? & ?). split_and!; congruence.
  - rewrite Hcalls. unfold reverts. rewrite fmap_cons. simpl. rewrite <- app_assoc. do 3 f_equal.
    apply list_fmap_ext. intros i [k' r'] _. simpl. by rewrite Hfate.
  - intros k. destruct (Hl k) as [Hkeep Hdrop]. split.
    + intros Hall. rewrite Hkeep, Hm.
      * destruct (fate csr now name r) eqn:Hf; [done|..]; apply lookup_delete_ne; intros ->;
          (rewrite Hall in Hf; [done|left]).
      * intros r' Hin. rewrite Hfate. apply Hall. by right.
    + intros r' [[= -> ->]|Hin]%elem_of_cons Hf.
      * apply Hstay. rewrite Hm. destruct (fate csr now name r); [done|apply lookup_delete_eq..].
      * apply (Hdrop r' Hin). by rewrite Hfate.
Qed.


(** The key of [g] is blocked at [now]. *)
Definition blocked (b : exponentialBackoff (NodeGroup := NodeGroup) (ErrorInfo := InstanceErrorInfo))
    now g : Prop :=
  ∃ info, backoffInfo b !! nodeGroupKey b g = Some info ∧ now ≤ backoffUntil info.

(** The backoff of the registry is well configured and consistent. *)
Definition csr_backoff_ok csr : Prop :=
  valid_config (csr_backoff csr) ∧ backoff_ok (csr_backoff csr).

Lemma Backoff_blocks b g e now :
  valid_config b → backoff_ok b → blocked (Backoff b g e now).1 now g.
Proof.
  intros Hv Hok. destruct (Backoff_duration b g e now Hv Hok) as (d & Hd & _ & Hi & _).
  exists (mkInfo d (now + d) now e). rewrite Hi. simpl. rewrite lookup_insert_eq.
  destruct Hv as [? _]. split; [done|lia].
Qed.

Lemma Backoff_keeps_blocked b g g' e now :
  valid_config b → backoff_ok b → blocked b now g' → blocked (Backoff b g e now).1 now g'.
Proof.
  intros Hv Hok (info & Hl & Hu).
  destruct (decide (nodeGroupKey b g = nodeGroupKey b g')) as [Heq|Hne].
  - destruct (Backoff_blocks b g e now Hv Hok) as (i & Hi & ?). exists i. split; [|done].
    simpl in *. by rewrite <- Heq.
  - exists info. simpl. by rewrite lookup_insert_ne.
Qed.

Lemma RegisterFailedScaleUp_backoff csr g delta e now :
  csr_backoff_ok csr →
  let csr' := RegisterFailedScaleUp csr g delta e now in
  csr_backoff_ok csr' ∧ (HasTemplate env (Id g) → blocked (csr_backoff csr') now g) ∧
  ∀ g', blocked (csr_backoff csr) now g' → blocked (csr_backoff csr') now g'.
Proof.
  intros [Hv Hok]. unfold RegisterFailedScaleUp, backoffNodeGroup.
  destruct (HasTemplate env (Id g)); cbn zeta; [|by split_and!].
  split_and!; [exact (backoff_step_ok _ (EvBackoff g e now) Hv Hok)|..]; intros; simpl;
    [by apply Backoff_blocks|by apply Backoff_keeps_blocked].
Qed.

Lemma scale_request_step_backoff now csr calls name r :
  csr_backoff_ok csr →
  let csr' := (scale_request_step now (csr, calls) (name, r)).1 in
  csr_backoff_ok csr' ∧
  (fate csr now name r = TimedOut → HasTemplate env (Id (SurNodeGroup r)) →
     blocked (csr_backoff csr') now (SurNodeGroup r)) ∧
  ∀ g', blocked (csr_backoff csr) now g' → blocked (csr_backoff csr') now g'.
Proof.
  intros Hok. unfold scale_request_step, fate. destruct (IsUpcoming env (SurNodeGroup r)); [done|].
  destruct (negb _); [done|]. destruct (ExpectedAddTime r <? now); [|done].
  destruct (RegisterFailedScaleUp_backoff csr (SurNodeGroup r) (Increase r)
    (timeout_error name (now - SurTime r)) now Hok) as (H1 & H2 & H3).
  cbn zeta. by split_and!.
Qed.

Lemma scale_request_loop_backoff now l : ∀ csr calls,
  csr_backoff_ok csr →
  let csr' := (foldl (scale_request_step now) (csr, calls) l).1 in
  csr_backoff_ok csr' ∧
  (∀ k r, (k, r) ∈ l → fate csr now k r = TimedOut → HasTemplate env (Id (SurNodeGroup r)) →
     blocked (csr_backoff csr') now (SurNodeGroup r)) ∧
  ∀ g', blocked (csr_backoff csr) now g' → blocked (csr_backoff csr') now g'.
Proof.
  induction l as [|[name r] l IH]; intros csr calls Hok; cbn [foldl].
  { split_and!; [apply Hok|by intros ?? ?%elem_of_nil|done]. }
  pose proof (scale_request_step_backoff now csr calls name r Hok) as (Hok1 & Hb1 & Hk1).
  pose proof (scale_request_step_fate now csr calls name r) as Hstep.
  destruct (scale_request_step now (csr, calls) (name, r)) as [csr1 calls1]. simpl in *.
  destruct Hstep as (Hv & _ & _). destruct (IH csr1 calls1 Hok1) as (Hok2 & Hb2 & Hk2).
  split_and!; [done| |intros; by apply Hk2, Hk1].
  intros k r' [[= -> ->]|Hin]%elem_of_cons Hf Ht; [by apply Hk2, Hb1|].
  apply (Hb2 k); [done| |done]. by rewrite (fate_same_view csr).
Qed.

Lemma reverts_positive csr now l :
  (∀ kr, kr ∈ l → 0 < Increase kr.2) →
  reverts csr now l =
  (λ kr, (SurNodeGroup kr.2, - Increase kr.2)) <$> filter (λ kr, fate csr now kr.1 kr.2 = TimedOut) l.
Proof.
  induction l as [|[k r] l IH]; intros Hpos; [done|].
  unfold reverts in *. rewrite fmap_cons, filter_cons. simpl. rewrite IH by set_solver.
  assert (0 < Increase r) by (apply (Hpos (k, r)); left).
  destruct (fate csr now k r); simpl; [done..|]. by rewrite (proj2 (Z.ltb_lt _ _)).
Qed.

(** C31. One loop settles every scale-up request: a request is kept while its group
    is being created or still has upcoming nodes within the provision time,
    and is dropped otherwise; each request that timed out is reverted by
    exactly one DecreaseTargetSize of its increase and leaves its group backed
    off; no request appears; expired scale-down requests go and the others
    stay in order. *)
Theorem scale_requests_settled csr now :
  requests_ok csr → csr_backoff_ok csr →
  let '(csr', calls) := updateScaleRequests csr now in
  (∀ k, scaleUpRequests csr' !! k =
     match scaleUpRequests csr !! k with
     | Some r => match fate csr now k r with Kept => Some r | _ => None end
     | None => None
     end) ∧
  calls ≡ₚ (λ kr, (SurNodeGroup kr.2, - Increase kr.2)) <$>
    filter (λ kr, fate csr now kr.1 kr.2 = TimedOut) (map_to_list (scaleUpRequests csr)) ∧
  (∀ k r, scaleUpRequests csr !! k = Some r → fate csr now k r = TimedOut →
     HasTemplate env k → IsBackedOff (BackoffStatusForNodeGroup csr' (SurNodeGroup r) now) = true) ∧
  scaleDownRequests csr' = filter (λ r, (now <? ExpectedDeleteTime r) = true) (scaleDownRequests csr).
Proof.
  intros Hok [Hbv Hb]. unfold updateScaleRequests.
  set (csr0 := set_backoff csr _). set (l := go_range (scaleUpRequests csr0)).
  assert (csr_backoff_ok csr0) as Hb0 by exact (backoff_step_ok _ (EvRemoveStale now) Hbv Hb).
  assert (∀ k r, (k, r) ∈ l ↔ scaleUpRequests csr !! k = Some r) as Hin.
  { intros k r. unfold l. rewrite go_range_perm. apply elem_of_map_to_list. }
  pose proof (scale_request_loop now l csr0 []) as Hloop.
  pose proof (scale_request_loop_backoff now l csr0 [] Hb0) as (_ & Hblock & _).
  destruct (foldl _ _ l) as [csr1 calls]. simpl in Hblock. destruct Hloop as ((_ & _ & Hdown) & -> & Hl).
  assert (∀ k r, fate csr0 now k r = fate csr now k r) as Hfate by done. split_and!.
  - intros k. destruct (Hl k) as [Hkeep Hdrop]. simpl.
    destruct (scaleUpRequests csr !! k) as [r|] eqn:Hk.
    + destruct (decide (fate csr now k r = Kept)) as [Hf|Hf].
      * rewrite Hkeep, Hf; [exact Hk|]. intros r' Hr'%Hin. simplify_eq. exact Hf.
      * rewrite (Hdrop r); [by destruct (fate csr now k r)|by apply Hin|exact Hf].
    + rewrite Hkeep; [exact Hk|]. intros r' Hr'%Hin. congruence.
  - simpl. rewrite reverts_positive.
    + apply fmap_Permutation. unfold l. rewrite go_range_perm. done.
    + intros [k r] Hkr%Hin. by apply (Hok k).
  - intros k r Hk Hf Ht. destruct (Hok _ _ Hk) as [_ Hid].
    destruct (Hblock k r) as (info & Hi & Hu); [by apply Hin|done|by rewrite Hid|].
    unfold BackoffStatusForNodeGroup, BackoffStatus. rewrite Hid. simpl.
    destruct (HasTemplate env k); [|done]. rewrite Hi. by rewrite (proj2 (Z.ltb_ge _ _)).
  - simpl. rewrite Hdown. apply (foldl_keep (λ r, now <? ExpectedDeleteTime r)).
Qed.


(** ** Upcoming nodes *)

(** What [GetUpcomingNodes] reports of one group. *)
Definition upcoming_of csr (clock : NodeGroup → Z) g : option (Z * option (list string)) :=
  if IsUpcoming env g then
    match TargetSize g with
    | Ok size => if 0 <=? size then Some (size, None) else None
    | Err _ => Some (0, None)
    end
  else
    let n := calculateUpcomingNodesInNodeGroup (readiness_of csr (Id g))
               (default zero_range (acceptableRanges csr !! Id g)) in
    if (0 <? n) && HasNodeGroupStartedScaleUp csr (Id g) &&
       negb (IsBackedOff (BackoffStatusForNodeGroup csr g (clock g)))
    then Some (n, Some (NotStarted (readiness_of csr (Id g)))) else None.

Lemma upcoming_step_of csr clock counts names g :
  upcoming_step csr clock (counts, names) g =
  match upcoming_of csr clock g with
  | Some (n, None) => (<[Id g := n]> counts, names)
  | Some (n, Some l) => (<[Id g := n]> counts, <[Id g := l]> names)
  | None => (counts, names)
  end.
Proof.
  unfold upcoming_step, upcoming_of. destruct (IsUpcoming env g).
  { destruct (TargetSize g) as [size|]; [|done]. by destruct (0 <=? size). }
  set (n := calculateUpcomingNodesInNodeGroup _ _).
  destruct (Z.leb_spec n 0); [by rewrite (proj2 (Z.ltb_ge 0 n))|].
  rewrite (proj2 (Z.ltb_lt 0 n)) by done. simpl.
  by destruct (HasNodeGroupStartedScaleUp csr (Id g)), (IsBackedOff _).
Qed.

Lemma exists_snoc_key {A} (gs : list NodeGroup) x k (P : NodeGroup → A → Prop) :
  Id x ∉ Id <$> gs →
  (∃ g a, g ∈ gs ++ [x] ∧ Id g = k ∧ P g a) ↔
  if decide (k = Id x) then ∃ a, P x a else ∃ g a, g ∈ gs ∧ Id g = k ∧ P g a.
Proof.
  intros Hx. setoid_rewrite elem_of_app. setoid_rewrite list_elem_of_singleton. case_decide.
  - subst. split; [|naive_solver]. intros (g & a & [Hg| ->] & Hid & HP); [|by exists a].
    destruct Hx. rewrite <- Hid. by apply list_elem_of_fmap_2.
  - split; [|naive_solver]. intros (g & a & [Hg| ->] & Hid & HP); [by exists g, a|congruence].
Qed.

(** Upcoming nodes are counted exactly: a group that exists contributes
    target - (ready + unready + suspended + long unregistered) nodes, and only
    when that is positive, a scale-up of the group is in progress and the
    group is not backed off; a group still being created contributes its
    target size; nothing else is reported. *)
Theorem upcoming_nodes_exact csr clock k :
  NoDup (Id <$> NodeGroups env) →
  let '(counts, names) := GetUpcomingNodes csr clock in
  (∀ n, counts !! k = Some n ↔
     ∃ g l, g ∈ NodeGroups env ∧ Id g = k ∧ upcoming_of csr clock g = Some (n, l)) ∧
  (∀ l, names !! k = Some l ↔
     ∃ g n, g ∈ NodeGroups env ∧ Id g = k ∧ upcoming_of csr clock g = Some (n, Some l)).
Proof.
  unfold GetUpcomingNodes.
  induction (NodeGroups env) as [|x gs IH] using rev_ind; intros Hnd; simpl.
  { split; intros ?; (split; [done|]); by intros (? & ? & ?%elem_of_nil & _). }
  rewrite fmap_app, NoDup_app in Hnd. destruct Hnd as (Hnd & Hdis & _).
  rewrite foldl_app. cbn [foldl]. specialize (IH Hnd).
  destruct (foldl (upcoming_step csr clock) (∅, ∅) gs) as [counts names]. destruct IH as [Hc Hn].
  rewrite upcoming_step_of.
  assert (Id x ∉ Id <$> gs) as Hx by (intros Hin; apply (Hdis _ Hin); left).
  assert (k = Id x → counts !! k = None ∧ names !! k = None) as Hfresh.
  { intros ->. split; apply eq_None_not_Some; intros [v Hv]; [apply Hc in Hv|apply Hn in Hv];
      destruct Hv as (g & ? & Hg & Hid & _); apply Hx; rewrite <- Hid; by apply list_elem_of_fmap_2. }
  destruct (decide (k = Id x)) as [Hk|Hk].
  - destruct (Hfresh Hk) as [H1 H2].
    destruct (upcoming_of csr clock x) as [[n [l|]]|] eqn:Hu; (split; intros v; rewrite exists_snoc_key, decide_True by done);
      rewrite ?Hu, <- ?Hk, ?lookup_insert_eq, ?H1, ?H2; naive_solver.
  - destruct (upcoming_of csr clock x) as [[n [l|]]|] eqn:Hu; (split; intros v; rewrite exists_snoc_key, decide_False by done);
      rewrite ?lookup_insert_ne by done; (apply Hc || apply Hn).
Qed.


(** ** The invariant of the registry *)

Definition range_ok (ar : AcceptableRange) : Prop :=
  MinNodes ar ≤ CurrentTarget ar ≤ MaxNodes ar.

Definition csr_ok csr : Prop :=
  requests_ok csr ∧ csr_backoff_ok csr ∧ map_Forall (λ _ ar, range_ok ar) (acceptableRanges csr).

Lemma range_ok_default (m : gmap string AcceptableRange) k :
  map_Forall (λ _ ar, range_ok ar) m → range_ok (default zero_range (m !! k)).
Proof.
  intros Hm. destruct (m !! k) as [ar|] eqn:Hk; [by apply (Hm k)|]. unfold range_ok. simpl. lia.
Qed.

Lemma updateAcceptableRanges_ok csr sizes :
  requests_ok csr → map_Forall (λ _ ar, range_ok ar) (acceptableRanges (updateAcceptableRanges csr sizes)).
Proof.
  intros Hok. unfold updateAcceptableRanges. simpl.
  apply foldl_inv; [apply foldl_inv; [apply foldl_inv|]|].
  - apply map_Forall_empty.
  - intros m g _ Hm. apply map_Forall_insert_2; [|done]. unfold range_ok, len. simpl. lia.
  - intros m [k r] Hkr Hm. rewrite go_range_perm in Hkr. apply elem_of_map_to_list in Hkr.
    destruct (Hok _ _ Hkr) as [Hpos _]. apply map_Forall_insert_2; [|done].
    pose proof (range_ok_default m k Hm) as Hr. unfold range_ok in *. simpl in *. lia.
  - intros m r _ Hm. apply map_Forall_insert_2; [|done].
    pose proof (range_ok_default m (Id (SdrNodeGroup r)) Hm) as Hr. unfold range_ok in *. simpl in *. lia.
Qed.

Lemma registerOrUpdate_frame csr g delta now :
  csr_backoff (registerOrUpdateScaleUpNoLock csr g delta now) = csr_backoff csr ∧
  acceptableRanges (registerOrUpdateScaleUpNoLock csr g delta now) = acceptableRanges csr.
Proof. unfold registerOrUpdateScaleUpNoLock. by repeat case_match. Qed.

Lemma handleInstanceCreationErrors_backoff csr now :
  csr_backoff_ok csr → csr_backoff_ok (handleInstanceCreationErrors csr now).
Proof.
  intros Hok. unfold handleInstanceCreationErrors. apply foldl_inv; [done|].
  intros c g _ Hc. unfold handleInstanceCreationErrorsForNodeGroup.
  destruct (buildInstanceToErrorCodeMappings _) as [current messages].
  apply foldl_inv; [done|]. intros c' ci _ Hc'. unfold creation_error_step. case_match; [|done].
  apply RegisterFailedScaleUp_backoff. unfold csr_backoff_ok.
  by rewrite (proj1 (registerOrUpdate_frame _ _ _ _)).
Qed.

Lemma updateScaleRequests_backoff csr now :
  csr_backoff_ok csr → csr_backoff_ok (updateScaleRequests csr now).1.
Proof.
  intros [Hv Hb]. unfold updateScaleRequests. set (csr0 := set_backoff csr _).
  assert (csr_backoff_ok csr0) as Hb0 by exact (backoff_step_ok _ (EvRemoveStale now) Hv Hb).
  pose proof (scale_request_loop_backoff now (go_range (scaleUpRequests csr0)) csr0 [] Hb0) as (H & _).
  by destruct (foldl _ _ _).
Qed.

Lemma updateClusterStateRegistry_csr_ok csr nodes instances now sizes :
  csr_ok csr → csr_ok (updateClusterStateRegistry csr nodes instances now sizes).1.
Proof.
  intros (Hreq & Hb & _). pose proof (updateClusterStateRegistry_ok csr nodes instances now sizes Hreq)
    as Hreq'. revert Hreq'. unfold updateClusterStateRegistry.
  set (csr1 := updateAcceptableRanges _ sizes).
  assert (csr_backoff_ok csr1) as Hb1.
  { unfold csr1, csr_backoff_ok, updateReadinessStats. simpl.
    by destruct (foldl (readiness_unregistered_step now) _ _). }
  pose proof (updateScaleRequests_backoff csr1 now Hb1) as Hb2.
  destruct (updateScaleRequests csr1 now) as [csr2 calls]. simpl in *. intros Hreq'.
  split_and!; [done|exact (handleInstanceCreationErrors_backoff csr2 now Hb2)|].
  by apply (updateAcceptableRanges_ok (handleInstanceCreationErrors csr2 now)).
Qed.

(** What happens to a registry: a scale-up, scale-down or failure is registered,
    the nodes are updated, or the ranges are recalculated. *)
Inductive csr_event : Type :=
| EvScaleUp (g : NodeGroup) (delta now : Z)
| EvScaleDown (g : NodeGroup) (name : string) (now expected : Z)
| EvFailed (g : NodeGroup) (delta : Z) (e : InstanceErrorInfo) (now : Z)
| EvUpdate (nodes : list Node) (instances : result cp_error (gmap string (list CloudInstance))) (now : Z)
| EvRecalculate.

Definition csr_step csr (ev : csr_event) : ClusterStateRegistry :=
  match ev with
  | EvScaleUp g delta now => RegisterScaleUp csr g delta now
  | EvScaleDown g name now expected => RegisterScaleDown csr g name now expected
  | EvFailed g delta e now => RegisterFailedScaleUp csr g delta e now
  | EvUpdate nodes instances now => (UpdateNodes csr nodes instances now).1.1
  | EvRecalculate => Recalculate csr
  end.

Lemma csr_step_ok csr ev : csr_ok csr → csr_ok (csr_step csr ev).
Proof.
  intros (Hreq & Hb & Hr). destruct ev as [g delta now|g name now expected|g delta e now|nodes instances now|];
    simpl.
  - destruct (registerOrUpdate_frame csr g delta now) as [Hfb Hfr]. unfold RegisterScaleUp.
    split_and!; [by apply registerOrUpdate_requests_ok|unfold csr_backoff_ok; by rewrite Hfb|by rewrite Hfr].
  - by split_and!.
  - destruct (RegisterFailedScaleUp_backoff csr g delta e now Hb) as (Hb' & _).
    destruct (RegisterFailedScaleUp_view csr g delta e now) as (Hv & _).
    split_and!; [unfold requests_ok; by rewrite RegisterFailedScaleUp_requests|done|by rewrite Hv].
  - unfold UpdateNodes. destruct getTargetSizes as [sizes [err|]]; [by split_and!|].
    destruct instances as [instances|]; [|by split_and!].
    assert (csr_ok csr) as Hok by by split_and!.
    pose proof (updateClusterStateRegistry_csr_ok csr nodes instances now sizes Hok).
    by destruct (updateClusterStateRegistry _ _ _ _ _).
  - split_and!; [done|done|by apply updateAcceptableRanges_ok].
Qed.
End registry.

(** ** Histories *)

(** A history: each event with the answers of the cloud provider during it. *)
Definition csr_run `{GoRange} (csr : ClusterStateRegistry) (evs : list (ClusterEnv * csr_event))
    : ClusterStateRegistry := foldl (λ csr ee, csr_step ee.1 csr ee.2) csr evs.

Lemma csr_run_ok `{GoRange} csr evs : csr_ok csr → csr_ok (csr_run csr evs).
Proof. intros Hok. unfold csr_run. apply foldl_inv; [done|]. intros c [env ev] _ Hc. by apply csr_step_ok. Qed.

(** C9. Whatever is registered and whatever the cloud provider answers over time,
    errors included, every scale-up request in the registry asks for a
    positive number of nodes of the group it is filed under, the target of a
    group lies in its acceptable range, and backoff durations stay within
    their configured bounds. *)
Theorem registry_invariant `{GoRange} csr evs : csr_ok csr → csr_ok (csr_run csr evs).
Proof. apply csr_run_ok. Qed.

(** A registry and an environment with two groups for the witnesses. *)
Module CsrExample.
Definition second : Z := 10 ^ 9.
Definition group (id : string) (target : Z) : NodeGroup :=
  mkNodeGroup id 0 10 (Ok target) (Ok []) (λ _, (None, None)).
Definition ga : NodeGroup := group "a" 3.
Definition gb : NodeGroup := group "b" 1.
Definition env : ClusterEnv :=
  mkEnv [ga; gb]
    (λ n, Ok (if decide (Labels n !! "group" = Some "a") then Some ga
              else if decide (Labels n !! "group" = Some "b") then Some gb else None))
    (λ _, Ok true) (λ _, false) (λ _, Ok (900 * second)) (λ _, Ok (900 * second)) (λ _, true)
    (λ _, "15m0s").
Definition node (name group : string) : Node :=
  mkNode name name {["group" := group]} ∅ [] false 0 [mkCondition "Ready" ConditionTrue "" 0].
Definition csr0 : ClusterStateRegistry :=
  mkRegistry ∅ [] [] ∅ zero_readiness ∅ ∅ ∅ ∅ ∅ ∅
    (NewIdBasedExponentialBackoff Id (300 * second) (1800 * second) (10800 * second)).
(** A scale-up of "a" by two nodes of which one arrives. *)
Definition history : list (ClusterEnv * csr_event) :=
  [(env, EvScaleUp ga 2 (1000 * second));
   (env, EvUpdate [node "a1" "a"; node "a2" "a"; node "b1" "b"] (Ok ∅) (1100 * second))].
End CsrExample.

Lemma csr0_ok : csr_ok CsrExample.csr0.
Proof.
  split_and!; [apply map_Forall_empty|split; [|apply map_Forall_empty]|apply map_Forall_empty].
  unfold valid_config, int64_max. simpl. unfold CsrExample.second. lia.
Qed.

Lemma registry_invariant_witness : csr_ok (csr_run CsrExample.csr0 CsrExample.history) ∧
  Increase <$> scaleUpRequests (csr_run CsrExample.csr0 CsrExample.history) !! "a" = Some 2.
Proof. split; [apply registry_invariant; apply csr0_ok|vm_compute; reflexivity]. Defined.

Lemma acceptable_range_exact_witness :
  let csr := csr_run CsrExample.csr0 CsrExample.history in
  acceptableRanges (updateAcceptableRanges CsrExample.env csr {["a" := 3; "b" := 1]}) !! "a" =
  Some (mkRange 1 3 3).
Proof.
  cbv zeta.
  rewrite (acceptable_range_exact CsrExample.env _ {["a" := 3; "b" := 1]} CsrExample.ga).
  - vm_compute. reflexivity.
  - apply (bool_decide_unpack _). vm_compute. exact I.
  - left.
Defined.

(** The scale-up of "a" times out: one node is missing 900 seconds later. *)
Lemma scale_requests_settled_witness :
  let csr := csr_run CsrExample.csr0 CsrExample.history in
  let '(csr', calls) := updateScaleRequests CsrExample.env csr (2000 * CsrExample.second) in
  calls ≡ₚ [(CsrExample.ga, -2)] ∧ scaleUpRequests csr' !! "a" = None ∧
  IsBackedOff (BackoffStatusForNodeGroup CsrExample.env csr' CsrExample.ga
    (2000 * CsrExample.second)) = true.
Proof.
  cbv zeta. set (csr := csr_run CsrExample.csr0 CsrExample.history).
  assert (csr_ok csr) as (Hr & Hb & _) by apply csr_run_ok, csr0_ok.
  pose proof (scale_requests_settled CsrExample.env csr (2000 * CsrExample.second) Hr Hb) as H.
  destruct (updateScaleRequests CsrExample.env csr (2000 * CsrExample.second)) as [csr' calls].
  destruct H as (H1 & H2 & H3 & _). split_and!.
  - rewrite H2. vm_compute. reflexivity.
  - rewrite H1. vm_compute. reflexivity.
  - apply (H3 "a" (mkScaleUpRequest CsrExample.ga (1000 * CsrExample.second)
      (1900 * CsrExample.second) 2)); vm_compute; reflexivity.
Defined.

Lemma upcoming_nodes_exact_witness :
  let csr := csr_run CsrExample.csr0 CsrExample.history in
  (GetUpcomingNodes CsrExample.env csr (λ _, 1200 * CsrExample.second)).1 !! "a" = Some 1.
Proof.
  cbv zeta. set (csr := csr_run CsrExample.csr0 CsrExample.history).
  assert (NoDup (Id <$> NodeGroups CsrExample.env)) as Hnd
    by (apply (bool_decide_unpack _); vm_compute; exact I).
  pose proof (upcoming_nodes_exact CsrExample.env csr (λ _, 1200 * CsrExample.second) "a" Hnd) as H.
  destruct (GetUpcomingNodes CsrExample.env csr (λ _, 1200 * CsrExample.second)) as [counts names].
  destruct H as [Hc _]. apply Hc. exists CsrExample.ga, (Some []).
  split_and!; [left|reflexivity|vm_compute; reflexivity].
Defined.

(** The captured startup time: a node outside every group is judged by the
    startup time of the last group seen before it, so whether it is unready
    depends on its position in the list. *)
Module StartupTime.
Import CsrExample.
Definition slow_env : ClusterEnv :=
  mkEnv (NodeGroups env) (EnvNodeGroupForNode env) (HasInstance env) (IsUpcoming env)
    (GetMaxNodeProvisionTime env) (λ _, Ok (3600 * second)) (HasTemplate env) (DurationString env).
Definition stray : Node :=
  mkNode "stray" "stray" ∅ ∅ [] false 0 [mkCondition "Ready" ConditionFalse "" 0].
Definition unready (nodes : list Node) : list string :=
  Unready (totalReadiness (updateReadinessStats slow_env
    (set_observed csr0 nodes ∅ ∅ ∅) (1000 * second))).
End StartupTime.

Example startup_time_depends_on_order :
  StartupTime.unready [StartupTime.stray; CsrExample.node "a1" "a"] = ["stray"] ∧
  StartupTime.unready [CsrExample.node "a1" "a"; StartupTime.stray] = [].
Proof. split; vm_compute; reflexivity. Qed.
