(* ===== verification/LoopRepairs.v ===== *)
(** The repairs the main loop makes before it scales anything
    (src/pkg/core/static_autoscaler.go): deleting instances that never
    registered, deleting instances whose creation failed, and correcting target
    sizes that disagree with the cluster for too long. *)
From stdpp Require Import prelude gmap strings list numbers fin_maps.
From S2P Require Import Prelude Float64 Api ClusterState.
Local Open Scope Z_scope.
Local Open Scope ca_scope.

(** The calls that change the cloud, in order. *)
Inductive provider_call : Type :=
| CallDeleteNodes (g : NodeGroup) (nodes : list Node)
| CallForceDeleteNodes (g : NodeGroup) (nodes : list Node)
| CallInvalidateCache (g : NodeGroup)
| CallDecreaseTargetSize (g : NodeGroup) (delta : Z).

Inductive repair_error : Type :=
| ProvisionTimeError (nodeGroupId : string)
| DeleteError (e : cp_error)
| DecreaseError (nodeGroupId : string) (e : cp_error).

Section repairs.
Context `{GR : GoRange} (env : ClusterEnv) (NodeGroupDefaults : NodeGroupAutoscalingOptions)
  (ForceDeleteLongUnregisteredNodes ForceDeleteFailedNodes : bool).
(** What the cloud answers to each call. *)
Context (DeleteNodes ForceDeleteNodes : NodeGroup → list Node → option cp_error)
  (DecreaseTargetSize : NodeGroup → Z → option cp_error).
Implicit Types (csr : ClusterStateRegistry) (g : NodeGroup) (nodes : list Node) (now : Z).

Definition nodeGroupsById : gmap string NodeGroup := foldl (λ m g, <[Id g := g]> m) ∅ (NodeGroups env).

Definition toNodes (l : list UnregisteredNode) : list Node := foldl (λ nodes n, nodes ++ [UnrNode n]) [] l.

Definition instancesToFakeNodes (instances : list string) : list Node :=
  foldl (λ nodes i, nodes ++ [FakeNode (mkInstance i None) ""]) [] instances.

(** Whether the options of the group, if it has any, say [field]. *)
Definition option_says (o : option NodeGroupAutoscalingOptions) (field : NodeGroupAutoscalingOptions → bool) : bool :=
  match o with Some opts => field opts | None => false end.

(** [None] is an error; it is only logged. *)
Definition overrideNodesToDeleteForZeroOrMax g nodesToDelete : option (list Node) :=
  match GetOptions g NodeGroupDefaults with
  | (_, Some (OtherError _)) => None
  | (opts, _) =>
      if option_says opts ZeroOrMaxNodeScaling then
        match Nodes g with
        | Err _ => None
        | Ok instances =>
            if (⟪instances⟫ =? ⟪nodesToDelete⟫) || negb (option_says opts AllowNonAtomicScaleUpToMax)
            then Some (instancesToFakeNodes instances)
            else Some []
        end
      else Some nodesToDelete
  end.

(** Deletion, by force when asked and the provider can. *)
Definition delete_nodes (force : bool) g nodes : list provider_call * option cp_error :=
  if force then
    match ForceDeleteNodes g nodes with
    | Some ErrNotImplemented => ([CallForceDeleteNodes g nodes; CallDeleteNodes g nodes], DeleteNodes g nodes)
    | r => ([CallForceDeleteNodes g nodes], r)
    end
  else ([CallDeleteNodes g nodes], DeleteNodes g nodes).

(** ** Nodes that never registered *)

Definition old_step now (m : gmap string (list UnregisteredNode)) (n : UnregisteredNode)
    : gmap string (list UnregisteredNode) * option repair_error :=
  match EnvNodeGroupForNode env (UnrNode n) with
  | Err _ | Ok None => (m, None)
  | Ok (Some g) =>
      match GetMaxNodeProvisionTime env g with
      | Err _ => (m, Some (ProvisionTimeError (Id g)))
      | Ok t => (if UnregisteredSince n + t <? now then <[Id g := default [] (m !! Id g) ++ [n]]> m else m, None)
      end
  end.

Definition oldUnregisteredNodes (allUnregisteredNodes : list UnregisteredNode) now
    : result repair_error (gmap string (list UnregisteredNode)) :=
  match fold_err (old_step now) allUnregisteredNodes ∅ with
  | (m, None) => Ok m
  | (_, Some e) => Err e
  end.

(** The nodes the minimal size lets go: [None] skips the group. *)
Definition cap_unregistered g (old : list UnregisteredNode) : option (list UnregisteredNode) :=
  if ForceDeleteLongUnregisteredNodes then Some old
  else match TargetSize g with
       | Err _ => None
       | Ok size =>
           let possibleToDelete := size - MinSize g in
           if possibleToDelete <=? 0 then None
           else if possibleToDelete <? ⟪old⟫ then Some (take (Z.to_nat possibleToDelete) old)
           else Some old
       end.

(** A group of the map; the calls so far and whether any removed something. A
    group that the provider does not list is nil, and its method calls panic. *)
Inductive stop : Type := Panic | Return (e : cp_error).

Definition remove_step (st : list provider_call * bool) (kv : string * list UnregisteredNode)
    : list provider_call * bool * option stop :=
  match nodeGroupsById !! kv.1 with
  | None => (st, Some Panic)
  | Some g =>
      match cap_unregistered g kv.2 with
      | None => (st, None)
      | Some old =>
          match overrideNodesToDeleteForZeroOrMax g (toNodes old) with
          | None => (st, None)
          | Some nodesToDelete =>
              if bool_decide (nodesToDelete = []) then (st, None)
              else
                let '(calls, err) := delete_nodes ForceDeleteLongUnregisteredNodes g nodesToDelete in
                let calls := st.1 ++ calls ++ [CallInvalidateCache g] in
                match err with
                | Some e => ((calls, st.2), Some (Return e))
                | None => ((calls, true), None)
                end
          end
      end
  end.

(** The calls, whether something was removed, and the error; [None] is a
    panic. *)
Definition removeOldUnregisteredNodes (allUnregisteredNodes : list UnregisteredNode) now
    : option (list provider_call * bool * option repair_error) :=
  match oldUnregisteredNodes allUnregisteredNodes now with
  | Err e => Some ([], false, Some e)
  | Ok toRemove =>
      match fold_err remove_step (go_range toRemove) ([], false) with
      | (st, None) => Some (st, None)
      | (st, Some (Return e)) => Some (st, Some (DeleteError e))
      | (_, Some Panic) => None
      end
  end.

(** ** Nodes whose creation failed *)

Definition delete_failed_step (st : list provider_call * bool) (kv : string * list Node) : list provider_call * bool :=
  match nodeGroupsById !! kv.1 with
  | None => st
  | Some g =>
      match overrideNodesToDeleteForZeroOrMax g kv.2 with
      | None => st
      | Some nodesToDelete =>
          if bool_decide (nodesToDelete = []) then st
          else
            let '(calls, err) := delete_nodes ForceDeleteFailedNodes g nodesToDelete in
            match err with
            | Some _ => (st.1 ++ calls, st.2)
            | None => (st.1 ++ calls ++ [CallInvalidateCache g], true)
            end
      end
  end.

Definition deleteCreatedNodesWithErrors csr : ClusterStateRegistry * list provider_call :=
  let '(calls, deletedAny) := foldl delete_failed_step ([], false) (go_range (GetCreatedNodesWithErrors csr)) in
  (if deletedAny : bool then Recalculate env csr else csr, calls).

(** ** Target sizes *)

Definition fix_step csr now (st : list provider_call * bool) g : list provider_call * bool * option (bool * repair_error) :=
  match incorrectNodeGroupSizes csr !! Id g with
  | None => (st, None)
  | Some incorrectSize =>
      match GetMaxNodeProvisionTime env g with
      | Err _ => (st, Some (false, ProvisionTimeError (Id g)))
      | Ok maxNodeProvisionTime =>
          if FirstObserved incorrectSize + maxNodeProvisionTime <? now then
            let delta := IncCurrentSize incorrectSize - IncExpectedSize incorrectSize in
            if delta <? 0 then
              match DecreaseTargetSize g delta with
              | Some e => ((st.1 ++ [CallDecreaseTargetSize g delta], st.2), Some (st.2, DecreaseError (Id g) e))
              | None => ((st.1 ++ [CallDecreaseTargetSize g delta], true), None)
              end
            else (st, None)
          else (st, None)
      end
  end.

Definition fixNodeGroupSize csr now : list provider_call * bool * option repair_error :=
  match fold_err (fix_step csr now) (NodeGroups env) ([], false) with
  | (st, None) => (st, None)
  | ((calls, _), Some (fixed, e)) => (calls, fixed, Some e)
  end.


(** ** What the repairs may do *)

Lemma toNodes_fmap (l : list UnregisteredNode) : toNodes l = UnrNode <$> l.
Proof. unfold toNodes. by rewrite foldl_snoc_fmap. Qed.

Lemma lookup_nodeGroupsById k g : nodeGroupsById !! k = Some g → g ∈ NodeGroups env ∧ Id g = k.
Proof.
  unfold nodeGroupsById. apply (foldl_inv (λ m : gmap string NodeGroup, m !! k = Some g → g ∈ NodeGroups env ∧ Id g = k)); [done|].
  intros m g' Hg' IH. rewrite lookup_insert. case_decide; [by intros [= <-]|done].
Qed.

Lemma nodeGroupsById_listed g : g ∈ NodeGroups env → is_Some (nodeGroupsById !! Id g).
Proof.
  unfold nodeGroupsById. generalize (∅ : gmap string NodeGroup). induction (NodeGroups env) as [|g' l IH]; intros m.
  { by intros ?%not_elem_of_nil. }
  cbn [foldl]. rewrite elem_of_cons. intros [<- |Hg]; [|by apply IH].
  clear IH. assert (is_Some (<[Id g := g]> m !! Id g)) as Hs by (rewrite lookup_insert_eq; by eexists).
  revert Hs. generalize (<[Id g := g]> m). induction l as [|g' l IH]; intros m' Hs; cbn [foldl]; [done|].
  apply IH. rewrite lookup_insert. by case_decide.
Qed.

(** The node never registered, for longer than its group may take. *)
Definition overdue now (all : list UnregisteredNode) (id : string) (n : UnregisteredNode) : Prop :=
  n ∈ all ∧ ∃ g t, EnvNodeGroupForNode env (UnrNode n) = Ok (Some g) ∧ Id g = id ∧
    GetMaxNodeProvisionTime env g = Ok t ∧ UnregisteredSince n + t < now.

Lemma oldUnregisteredNodes_overdue all now m : oldUnregisteredNodes all now = Ok m →
  ∀ id l, m !! id = Some l → Forall (overdue now all id) l.
Proof.
  unfold oldUnregisteredNodes. destruct (fold_err _ _ _) as [m' [e|]] eqn:Hf; [done|]. intros [= <-].
  pose proof (fold_err_inv (λ m : gmap string (list UnregisteredNode), ∀ id l, m !! id = Some l → Forall (overdue now all id) l)
    (old_step now) all ∅) as Hinv. rewrite Hf in Hinv. apply Hinv; [done|]. clear.
  intros m n Hn Hm. unfold old_step. destruct (EnvNodeGroupForNode env (UnrNode n)) as [[g|]|] eqn:Hg; [|done..].
  destruct (GetMaxNodeProvisionTime env g) as [t|] eqn:Ht; [|done]. simpl.
  destruct (UnregisteredSince n + t <? now) eqn:Hlt; [|done].
  intros id l. rewrite lookup_insert. case_decide as Hid; [|apply Hm]. intros [= <-].
  apply Forall_app. split; [|constructor; [|done]].
  - destruct (m !! Id g) as [l0|] eqn:Hl; [|done]. subst id. by apply Hm.
  - split; [done|]. exists g, t. split_and!; [done..|lia].
Qed.

Lemma oldUnregisteredNodes_nonempty all now m id : oldUnregisteredNodes all now = Ok m → m !! id ≠ Some [].
Proof.
  unfold oldUnregisteredNodes. destruct (fold_err _ _ _) as [m' [e|]] eqn:Hf; [done|]. intros [= <-].
  pose proof (fold_err_inv (λ m : gmap string (list UnregisteredNode), m !! id ≠ Some [])
    (old_step now) all ∅) as Hinv. rewrite Hf in Hinv. apply Hinv; [done|]. clear.
  intros m n Hn Hm. unfold old_step. repeat (case_match; simpl; try done).
  rewrite lookup_insert. case_decide; [|done]. intros [= Hnil]. by apply app_eq_nil in Hnil as [_ ?].
Qed.

Definition scales_atomically g : bool := option_says (GetOptions g NodeGroupDefaults).1 ZeroOrMaxNodeScaling.

(** What is asked of a group whose repair wants to delete [wanted]: just that,
    or, when its size is all or nothing, all of its instances. *)
Definition asks_for g (wanted nodes : list Node) : Prop :=
  if scales_atomically g
  then ∃ instances, Nodes g = Ok instances ∧ nodes = (λ i, FakeNode (mkInstance i None) "") <$> instances
  else nodes = wanted.

Lemma override_asks g wanted nodes :
  overrideNodesToDeleteForZeroOrMax g wanted = Some nodes → nodes ≠ [] → asks_for g wanted nodes.
Proof.
  unfold overrideNodesToDeleteForZeroOrMax, asks_for, scales_atomically.
  destruct (GetOptions g NodeGroupDefaults) as [opts [[|msg]|]]; simpl; try done;
    (destruct (option_says opts ZeroOrMaxNodeScaling); [|by intros [= <-]]);
    (destruct (Nodes g) as [instances|] eqn:Hn; [|done]); case_match; intros [= <-] Hne; try done;
    exists instances; unfold instancesToFakeNodes; by rewrite foldl_snoc_fmap.
Qed.

(** A call of the removal, and what justifies it. *)
Definition removal_ok now all (c : provider_call) : Prop :=
  match c with
  | CallDeleteNodes g nodes | CallForceDeleteNodes g nodes =>
      g ∈ NodeGroups env ∧ nodes ≠ [] ∧
      ∃ old, Forall (overdue now all (Id g)) old ∧ asks_for g (UnrNode <$> old) nodes ∧
        (ForceDeleteLongUnregisteredNodes = false →
           ∃ size, TargetSize g = Ok size ∧ ⟪old⟫ <= size - MinSize g)
  | CallInvalidateCache g => g ∈ NodeGroups env
  | CallDecreaseTargetSize _ _ => False
  end.

Definition is_forced (c : provider_call) : bool :=
  match c with CallForceDeleteNodes _ _ => true | _ => false end.

Lemma delete_nodes_calls force g nodes c : c ∈ (delete_nodes force g nodes).1 →
  (c = CallDeleteNodes g nodes ∨ c = CallForceDeleteNodes g nodes) ∧ (is_forced c = true → force = true).
Proof.
  unfold delete_nodes. destruct force; [destruct (ForceDeleteNodes g nodes) as [[|]|]|]; simpl;
    rewrite ?list_elem_of_singleton, ?elem_of_cons, ?elem_of_nil; clear; intuition (subst; done).
Qed.

Lemma cap_unregistered_ok now all g old old' :
  Forall (overdue now all (Id g)) old → cap_unregistered g old = Some old' →
  Forall (overdue now all (Id g)) old' ∧
  (ForceDeleteLongUnregisteredNodes = false → ∃ size, TargetSize g = Ok size ∧ ⟪old'⟫ <= size - MinSize g).
Proof.
  intros Hold. unfold cap_unregistered. destruct ForceDeleteLongUnregisteredNodes; [by intros [= <-]|].
  destruct (TargetSize g) as [size|]; [|done]. destruct (size - MinSize g <=? 0) eqn:H0; [done|].
  destruct (size - MinSize g <? ⟪old⟫) eqn:Hlt; intros [= <-].
  - split; [by apply Forall_take|]. intros _. exists size. split; [done|]. rewrite length_take. lia.
  - split; [done|]. intros _. exists size. split; [done|lia].
Qed.

Lemma remove_step_ok now all st kv :
  Forall (overdue now all kv.1) kv.2 → Forall (removal_ok now all) st.1 ∧
    (ForceDeleteLongUnregisteredNodes = false → Forall (λ c, is_forced c = false) st.1) →
  let st' := (remove_step st kv).1 in
  Forall (removal_ok now all) st'.1 ∧
  (ForceDeleteLongUnregisteredNodes = false → Forall (λ c, is_forced c = false) st'.1).
Proof.
  intros Hold [Hst Hforce]. unfold remove_step. destruct (nodeGroupsById !! kv.1) as [g|] eqn:Hg; [|done].
  apply lookup_nodeGroupsById in Hg as [Hg Hid]. rewrite <- Hid in Hold.
  destruct (cap_unregistered g kv.2) as [old|] eqn:Hcap; [|done].
  destruct (cap_unregistered_ok now all g kv.2 old Hold Hcap) as [Hold' Hsize].
  destruct (overrideNodesToDeleteForZeroOrMax g (toNodes old)) as [nodes|] eqn:Hov; [|done].
  case_bool_decide as Hne; [done|]. pose proof (override_asks _ _ _ Hov Hne) as Hasks. rewrite toNodes_fmap in Hasks.
  pose proof (delete_nodes_calls ForceDeleteLongUnregisteredNodes g nodes) as Hcalls.
  destruct (delete_nodes _ g nodes) as [calls err]. simpl in Hcalls.
  assert (Forall (removal_ok now all) (st.1 ++ calls ++ [CallInvalidateCache g]) ∧
    (ForceDeleteLongUnregisteredNodes = false → Forall (λ c, is_forced c = false) (st.1 ++ calls ++ [CallInvalidateCache g])))
    as Hdone; [|by destruct err].
  rewrite !Forall_app. split.
  - split; [done|]. split; [|by constructor]. apply Forall_forall. intros c Hc.
    destruct (Hcalls c Hc) as [[->| ->] _]; simpl; (split; [done|]; split; [done|]; by exists old).
  - intros Hf. split; [by apply Hforce|]. split; [|by constructor].
    apply Forall_forall. intros c Hc. destruct (Hcalls c Hc) as [_ Hc']. destruct (is_forced c); [|done].
    by rewrite Hc' in Hf.
Qed.

(** Groups of unregistered nodes that the provider lists. *)
Definition groups_listed (all : list UnregisteredNode) : Prop :=
  ∀ n g, n ∈ all → EnvNodeGroupForNode env (UnrNode n) = Ok (Some g) → ∃ g', g' ∈ NodeGroups env ∧ Id g' = Id g.

Lemma old_groups_listed all now m : groups_listed all → oldUnregisteredNodes all now = Ok m →
  ∀ kv, kv ∈ go_range m → is_Some (nodeGroupsById !! kv.1).
Proof.
  intros Hlisted Hold [k l] Hkl%elem_of_go_range. pose proof (oldUnregisteredNodes_overdue all now m Hold k l Hkl) as Hover.
  destruct l as [|n l]; [exfalso; by eapply (oldUnregisteredNodes_nonempty all now m)|].
  inversion Hover as [|? ? (Hn & g & t & Hg & Hid & _) _]; subst.
  destruct (Hlisted n g Hn Hg) as (g' & Hg' & Hid'). simpl. rewrite <- Hid'. by apply nodeGroupsById_listed.
Qed.

Lemma remove_no_panic l st : (∀ kv, kv ∈ l → is_Some (nodeGroupsById !! kv.1)) →
  (fold_err remove_step l st).2 ≠ Some Panic.
Proof.
  revert st. induction l as [|kv l IH]; intros st Hin; [done|]. cbn [fold_err].
  destruct (remove_step st kv) as [st' [e|]] eqn:Hstep; [|apply IH; intros; apply Hin; by right].
  simpl. intros [= ->]. unfold remove_step in Hstep.
  destruct (Hin kv ltac:(left)) as [g Hg]. rewrite Hg in Hstep. repeat (case_match; simplify_eq/=).
Qed.

Lemma removal_returns all now : groups_listed all → is_Some (removeOldUnregisteredNodes all now).
Proof.
  intros Hlisted. unfold removeOldUnregisteredNodes. destruct (oldUnregisteredNodes all now) as [m|e] eqn:Hold; [|done].
  pose proof (remove_no_panic (go_range m) ([], false) (old_groups_listed all now m Hlisted Hold)) as Hp.
  destruct (fold_err remove_step (go_range m) ([], false)) as [st [[|e]|]]; [done|by eexists..].
Qed.

(** C22. Removing nodes that never registered only asks the cloud to delete nodes
    of listed groups that have been missing for longer than their group may
    take to start, never forces it unless configured to, and leaves the group
    its minimal size: without force, no more nodes are chosen than the target
    size exceeds it by. Groups that scale all or nothing are asked to delete
    all their instances instead of the chosen nodes. It does not panic when the
    groups of the nodes are listed. *)
Theorem unregistered_removal_safe all now :
  groups_listed all →
  ∃ calls removed err, removeOldUnregisteredNodes all now = Some (calls, removed, err) ∧
    Forall (removal_ok now all) calls ∧
    (ForceDeleteLongUnregisteredNodes = false → Forall (λ c, is_forced c = false) calls).
Proof.
  intros Hlisted. destruct (removal_returns all now Hlisted) as [[[calls removed] err] Hr].
  exists calls, removed, err. split; [done|]. revert Hr. unfold removeOldUnregisteredNodes.
  destruct (oldUnregisteredNodes all now) as [m|e] eqn:Hold; [|by intros [= <- <- <-]].
  pose proof (oldUnregisteredNodes_overdue all now m Hold) as Hover.
  pose proof (fold_err_inv (λ st : list provider_call * bool, Forall (removal_ok now all) st.1 ∧
    (ForceDeleteLongUnregisteredNodes = false → Forall (λ c, is_forced c = false) st.1)) remove_step (go_range m) ([], false))
    as Hinv.
  destruct (fold_err remove_step (go_range m) ([], false)) as [st stopped].
  destruct Hinv as [Hcalls Hforced]; [done| |].
  { intros st' [k l] Hkl. apply remove_step_ok. simpl. apply Hover. by apply elem_of_go_range. }
  destruct stopped as [[|e]|]; [done|by intros [= -> <-]..].
Qed.

(** ** Nodes whose creation failed *)

Definition failed_ok csr (c : provider_call) : Prop :=
  match c with
  | CallDeleteNodes g nodes | CallForceDeleteNodes g nodes =>
      g ∈ NodeGroups env ∧ nodes ≠ [] ∧
      ∃ failed, GetCreatedNodesWithErrors csr !! Id g = Some failed ∧ asks_for g failed nodes
  | CallInvalidateCache g => g ∈ NodeGroups env
  | CallDecreaseTargetSize _ _ => False
  end.

(** Only nodes whose creation failed are deleted, or whole groups that scale all
    or nothing; the registry only changes its acceptable ranges. *)
Lemma failed_deletion_safe csr :
  let '(csr', calls) := deleteCreatedNodesWithErrors csr in
  Forall (failed_ok csr) calls ∧ (csr' = csr ∨ csr' = Recalculate env csr).
Proof.
  unfold deleteCreatedNodesWithErrors.
  pose proof (foldl_inv (λ st : list provider_call * bool, Forall (failed_ok csr) st.1) delete_failed_step
    (go_range (GetCreatedNodesWithErrors csr)) ([], false)) as Hinv.
  destruct (foldl delete_failed_step _ _) as [calls any]. split; [|by destruct any; [right|left]].
  apply Hinv; [done|]. clear Hinv. intros st [k failed] Hk%elem_of_go_range Hst. unfold delete_failed_step. simpl.
  destruct (nodeGroupsById !! k) as [g|] eqn:Hg; [|done]. apply lookup_nodeGroupsById in Hg as [Hg <-].
  destruct (overrideNodesToDeleteForZeroOrMax g failed) as [nodes|] eqn:Hov; [|done].
  case_bool_decide as Hne; [done|]. pose proof (override_asks _ _ _ Hov Hne) as Hasks.
  pose proof (delete_nodes_calls ForceDeleteFailedNodes g nodes) as Hcalls.
  destruct (delete_nodes _ g nodes) as [cs err]. simpl in Hcalls.
  assert (Forall (failed_ok csr) cs) as Hall.
  { apply Forall_forall. intros c Hc.
    destruct (Hcalls c Hc) as [[->| ->] _]; simpl; (split; [done|]; split; [done|]; by exists failed). }
  destruct err; simpl; rewrite ?Forall_app; [done|]. split; [done|]. split; [done|]. by constructor.
Qed.

(** ** Target sizes *)

(** How much the target of a group is to be lowered: what it lacks to its
    target, when that was seen for longer than the group may take to start. *)
Definition size_excess csr now g : option Z :=
  match incorrectNodeGroupSizes csr !! Id g, GetMaxNodeProvisionTime env g with
  | Some inc, Ok t =>
      if (FirstObserved inc + t <? now) && (IncCurrentSize inc <? IncExpectedSize inc)
      then Some (IncExpectedSize inc - IncCurrentSize inc) else None
  | _, _ => None
  end.

Definition expected_fixes csr now (groups : list NodeGroup) : list provider_call :=
  omap (λ g, (λ d, CallDecreaseTargetSize g (- d)) <$> size_excess csr now g) groups.

Lemma fix_step_spec csr now st g :
  let '((calls, fixed), err) := fix_step csr now st g in
  calls = st.1 ++ expected_fixes csr now [g] ∧
  (err = None → fixed = st.2 || negb (bool_decide (expected_fixes csr now [g] = []))) ∧
  (∀ b e, err = Some (b, e) → e = ProvisionTimeError (Id g) ∨ ∃ e', e = DecreaseError (Id g) e').
Proof.
  unfold fix_step, expected_fixes, size_excess. destruct st as [calls fixed]. csimpl.
  destruct (incorrectNodeGroupSizes csr !! Id g) as [inc|]; csimpl; [|by rewrite app_nil_r, orb_false_r].
  destruct (GetMaxNodeProvisionTime env g) as [t|]; csimpl; [|rewrite app_nil_r; naive_solver].
  destruct (FirstObserved inc + t <? now); simpl; [|by rewrite app_nil_r, orb_false_r].
  assert ((IncCurrentSize inc - IncExpectedSize inc <? 0) = (IncCurrentSize inc <? IncExpectedSize inc)) as -> by lia.
  destruct (IncCurrentSize inc <? IncExpectedSize inc); csimpl; [|by rewrite app_nil_r, orb_false_r].
  replace (- (IncExpectedSize inc - IncCurrentSize inc)) with (IncCurrentSize inc - IncExpectedSize inc) by lia.
  destruct (DecreaseTargetSize g _); [naive_solver|]. by rewrite orb_true_r.
Qed.

Lemma expected_fixes_cons csr now g (l : list NodeGroup) :
  expected_fixes csr now (g :: l) = expected_fixes csr now [g] ++ expected_fixes csr now l.
Proof. unfold expected_fixes. csimpl. by destruct (size_excess csr now g). Qed.

Lemma fix_steps csr now (l done0 : list NodeGroup) (st : list provider_call * bool) :
  let '((calls, fixed), err) := fold_err (fix_step csr now) l st in
  ∃ k, calls = st.1 ++ expected_fixes csr now (take k l) ∧
    match err with
    | None => k = length l ∧ fixed = st.2 || negb (bool_decide (expected_fixes csr now l = []))
    | Some (_, e) => ∃ g, (done0 ++ l) !! (length done0 + (k - 1))%nat = Some g ∧ (0 < k)%nat ∧
                    (e = ProvisionTimeError (Id g) ∨ ∃ e', e = DecreaseError (Id g) e')
    end.
Proof.
  revert done0 st. induction l as [|g l IH]; intros done0 [calls0 fixed0]; cbn [fold_err].
  { exists 0%nat. simpl. by rewrite app_nil_r, orb_false_r. }
  pose proof (fix_step_spec csr now (calls0, fixed0) g) as Hstep.
  destruct (fix_step csr now (calls0, fixed0) g) as [[calls1 fixed1] [[b e]|]]; destruct Hstep as (-> & Hfixed & Herr).
  - exists 1%nat. split; [done|]. exists g. split; [|split; [lia|by eapply Herr]].
    rewrite lookup_app_r by lia. by replace (length done0 + (1 - 1) - length done0)%nat with 0%nat by lia.
  - specialize (IH (done0 ++ [g]) (calls0 ++ expected_fixes csr now [g], fixed1)). cbn [fst snd] in *.
    destruct (fold_err _ l _) as [[calls fixed] err]. destruct IH as (k & -> & Hk).
    exists (Datatypes.S k). cbn [take]. rewrite (expected_fixes_cons csr now g (take k l)), app_assoc. split; [done|].
    destruct err as [[b e]|].
    + destruct Hk as (g' & Hg' & Hpos & He). exists g'. split; [|split; [lia|done]].
      rewrite <- app_assoc, length_app in Hg'. simpl in Hg'. rewrite <- Hg'. f_equal. lia.
    + destruct Hk as [-> ->]. split; [done|]. rewrite (expected_fixes_cons csr now g l), (Hfixed eq_refl), <- orb_assoc. f_equal.
      destruct (expected_fixes csr now [g]), (expected_fixes csr now l); done.
Qed.

(** When nothing was fixed and no error arose, no target was changed. *)
Lemma nothing_fixed csr now calls : fixNodeGroupSize csr now = (calls, false, None) → calls = [].
Proof.
  unfold fixNodeGroupSize. pose proof (fix_steps csr now (NodeGroups env) [] ([], false)) as Hl.
  destruct (fold_err _ _ _) as [[calls' fixed] [[b e]|]]; destruct Hl as (k & -> & Hk); [done|]. intros [= <- ->].
  destruct Hk as [-> Hf]. rewrite firstn_all. simpl in *. symmetry in Hf. by apply negb_false_iff, bool_decide_eq_true in Hf.
Qed.

(** Correcting target sizes lowers exactly the groups, in their order, that
    have had fewer nodes than their target for longer than a node may take to
    start, each to the number of nodes it has; it stops at the first error. It
    reports whether something was corrected. *)
Theorem size_fix_exact csr now :
  let '(calls, fixed, err) := fixNodeGroupSize csr now in
  ∃ k, calls = expected_fixes csr now (take k (NodeGroups env)) ∧
    match err with
    | None => k = length (NodeGroups env) ∧ (fixed = true ↔ calls ≠ [])
    | Some e => ∃ g, NodeGroups env !! (k - 1)%nat = Some g ∧ (0 < k)%nat ∧
                  (e = ProvisionTimeError (Id g) ∨ ∃ e', e = DecreaseError (Id g) e')
    end.
Proof.
  unfold fixNodeGroupSize. pose proof (fix_steps csr now (NodeGroups env) [] ([], false)) as Hl.
  destruct (fold_err _ _ _) as [[calls fixed] [[b e]|]]; destruct Hl as (k & -> & Hk); exists k; (split; [done|]).
  - destruct Hk as (g & Hg & Hpos & He). by exists g.
  - destruct Hk as [-> ->]. split; [done|]. simpl. rewrite firstn_all, negb_true_iff, bool_decide_eq_false. done.
Qed.
End repairs.

(** A group of two nodes, of which one may go, and two that never came. *)
Module RepairsExample.
Definition g : NodeGroup :=
  mkNodeGroup "g" 2 10 (Ok 3) (Ok ["a"; "b"; "c"]%string) (λ _, (None, Some ErrNotImplemented)).
Definition env : ClusterEnv :=
  mkEnv [g] (λ _, Ok (Some g)) (λ _, Ok true) (λ _, false) (λ _, Ok 100) (λ _, Ok 100) (λ _, true) (λ _, ""%string).
Definition missing (name : string) (since : Z) : UnregisteredNode :=
  mkUnregistered (FakeNode (mkInstance name None) FakeNodeUnregistered) since.
Definition all : list UnregisteredNode := [missing "a" 0; missing "b" 50; missing "c" 60].
Definition no_options : NodeGroupAutoscalingOptions := mkOptions (of_int 0) (of_int 0) 0 0 0 0 false false false.

Definition names (c : provider_call) : list string :=
  match c with CallDeleteNodes _ nodes | CallForceDeleteNodes _ nodes => Name <$> nodes | _ => [] end.

(** Two are overdue at time 151, and one of them may go. *)
Example one_removed :
  match removeOldUnregisteredNodes env no_options false (λ _ _, None) (λ _ _, None) all 151 with
  | Some (calls, _, _) => names <$> calls
  | None => []
  end = [["a"]; []]%string.
Proof. by vm_compute. Qed.

Lemma unregistered_removal_safe_witness :
  length all = 3%nat ∧
  ∃ calls removed err, removeOldUnregisteredNodes env no_options false (λ _ _, None) (λ _ _, None) all 151 = Some (calls, removed, err) ∧
    Forall (removal_ok env no_options false 151 all) calls ∧ length calls = 2%nat.
Proof.
  split; [reflexivity|].
  destruct (unregistered_removal_safe env no_options false (λ _ _, None) (λ _ _, None) all 151)
    as (calls & removed & err & Heq & Hok & _).
  - intros n g' _ [= <-]. exists g. split; [left|done].
  - exists calls, removed, err. split; [exact Heq|]. split; [exact Hok|].
    apply (f_equal (λ r, match r with Some (c, _, _) => length c | None => 0%nat end)) in Heq. by vm_compute in Heq.
Defined.
End RepairsExample.
