(* ===== verification/Quotas.v ===== *)
(** Resource quotas (src/pkg/resourcequotas/): what the nodes of each quota use,
    how much may still be added (maximal quotas) or removed (minimal quotas),
    and the tracker that scale-up and scale-down consume it from. Quantities are
    64-bit. *)
From stdpp Require Import prelude gmap strings list numbers fin_maps.
From S2P Require Import Prelude Api.
Local Open Scope Z_scope.

(** ** Limits *)

Record Quota : Type := mkQuota {
  QuotaID : string;
  AppliesTo : Node → bool;
  Limits : gmap string Z
}.

Definition ResourceNodes : string := "nodes".
Definition ResourceCPU : string := "cpu".
Definition ResourceMemory : string := "memory".

(** [cloudprovider.ResourceLimiter]. *)
Record ResourceLimiter : Type := mkLimits { minLimits : gmap string Z; maxLimits : gmap string Z }.

Definition GetMin (r : ResourceLimiter) (name : string) : Z := default 0 (minLimits r !! name).
Definition GetMax (r : ResourceLimiter) (name : string) : Z :=
  default int64_max (maxLimits r !! name).

(** In sorted order in the code; the callers build a map of it. *)
Definition GetResources (r : ResourceLimiter) : list string :=
  elements (dom (minLimits r) ∪ dom (maxLimits r)).

Definition min_Limits (r : ResourceLimiter) : gmap string Z :=
  foldl (λ limits name, <[name := GetMin r name]> limits) ∅ (GetResources r).
Definition max_Limits (r : ResourceLimiter) : gmap string Z :=
  foldl (λ limits name, <[name := GetMax r name]> limits) ∅ (GetResources r).

Definition minQuotaAdapter (r : ResourceLimiter) : Quota :=
  mkQuota "cluster-wide" (λ _, true) (min_Limits r).
Definition maxQuotaAdapter (r : ResourceLimiter) : Quota :=
  mkQuota "cluster-wide" (λ _, true) (max_Limits r).

(** [CombinedQuotasProvider.Quotas]; a provider is its answer. *)
Definition combined_Quotas (providers : list (result cp_error (list Quota)))
    : result cp_error (list Quota) :=
  match fold_err (λ all p, match p with Ok quotas => (all ++ quotas, None) | Err e => (all, Some e) end)
          providers [] with
  | (all, None) => Ok all
  | (_, Some e) => Err e
  end.

(** ** State *)

Record quotaStatus : Type := mkStatus { quota : Quota; limitsLeft : gmap string Z }.

Record Tracker : Type := mkTracker {
  quotaStatuses : list quotaStatus;
  nodeCache : gmap string (gmap string Z)
}.

Record ExceededQuota : Type := mkExceeded { ExceededID : string; ExceededResources : list string }.

Record CheckDeltaResult : Type := mkCheck {
  ExceededQuotas : list ExceededQuota;
  AllowedDelta : Z
}.

Definition Exceeded (r : CheckDeltaResult) : bool :=
  negb (bool_decide (length (ExceededQuotas r) = 0%nat)).

Inductive quota_error : Type := ErrNegativeDelta | ErrCustomResources (e : cp_error)
  | ErrNodeGroup (e : cp_error).

Section quotas.
Context `{GR : GoRange}.
(** The capacity of a node, [node.Status.Capacity[r].Value()], and the answer of
    the custom resources processor. *)
Context (Capacity : Node → string → option Z)
  (GetNodeResourceTargets : Node → option NodeGroup → result cp_error (list (string * Z))).
Implicit Types (t : Tracker) (node : Node) (delta : gmap string Z) (qs : quotaStatus).

(** ** Resources of a node *)

Definition getNodeResource node (resource : string) : Z :=
  match Capacity node resource with
  | None => 0
  | Some v => if v <? 0 then 0 else v
  end.

Definition GetNodeCoresAndMemory node : Z * Z :=
  (getNodeResource node ResourceCPU, getNodeResource node ResourceMemory).

Definition totalNodeResources node (nodeGroup : option NodeGroup)
    : result quota_error (gmap string Z) :=
  let '(nodeCPU, nodeMemory) := GetNodeCoresAndMemory node in
  let nodeResources := <[ResourceCPU := nodeCPU]> (<[ResourceMemory := nodeMemory]>
                         (<[ResourceNodes := 1]> (∅ : gmap string Z))) in
  match GetNodeResourceTargets node nodeGroup with
  | Err e => Err (ErrCustomResources e)
  | Ok targets =>
      Ok (foldl (λ rs target, if negb (bool_decide (target.1 = "")) && (0 <? target.2)
                              then <[target.1 := target.2]> rs else rs) nodeResources targets)
  end.

(** The method of the cache; the state is the cached resources. *)
Definition cached_totalNodeResources (cache : gmap string (gmap string Z)) node
    (nodeGroup : option NodeGroup)
    : gmap string (gmap string Z) * result quota_error (gmap string Z) :=
  match nodeGroup with
  | Some g =>
      match cache !! Id g with
      | Some resources => (cache, Ok resources)
      | None => match totalNodeResources node nodeGroup with
                | Err e => (cache, Err e)
                | Ok resources => (<[Id g := resources]> cache, Ok resources)
                end
      end
  | None => (cache, totalNodeResources node nodeGroup)
  end.

(** ** Usage *)

(** [usages[id][resourceType] += resourceCount] for every resource. *)
Definition add_usage (usage delta : gmap string Z) : gmap string Z :=
  foldl (λ u rc, <[rc.1 := wrap64 (default 0 (u !! rc.1) + rc.2)]> u) usage (go_range delta).

Definition usage_step (excluded : Node → bool)
    (NodeGroupForNode : Node → result cp_error (option NodeGroup)) (quotas : list Quota)
    (st : gmap string (gmap string Z) * gmap string (gmap string Z)) node
    : gmap string (gmap string Z) * gmap string (gmap string Z) * option quota_error :=
  let '(usages, cache) := st in
  if excluded node then (usages, cache, None)
  else match NodeGroupForNode node with
  | Err e => (usages, cache, Some (ErrNodeGroup e))
  | Ok ng =>
      match cached_totalNodeResources cache node ng with
      | (cache, Err e) => (usages, cache, Some e)
      | (cache, Ok delta) =>
          (foldl (λ us rq, if AppliesTo rq node
                           then <[QuotaID rq := add_usage (default ∅ (us !! QuotaID rq)) delta]> us
                           else us) usages quotas, cache, None)
      end
  end.

Definition calculateUsages (excluded : Node → bool)
    (NodeGroupForNode : Node → result cp_error (option NodeGroup)) (nodes : list Node)
    (quotas : list Quota) (cache : gmap string (gmap string Z))
    : gmap string (gmap string Z) * result quota_error (gmap string (gmap string Z)) :=
  let usages := foldl (λ us rl, <[QuotaID rl := ∅]> us) ∅ quotas in
  match fold_err (usage_step excluded NodeGroupForNode quotas) nodes (usages, cache) with
  | ((usages, cache), None) => (cache, Ok usages)
  | ((_, cache), Some e) => (cache, Err e)
  end.

Definition limits_left (isMin : bool) (usage limits : gmap string Z) : gmap string Z :=
  foldl (λ room rl,
    let used := default 0 (usage !! rl.1) in
    <[rl.1 := 0 `max` (if isMin then wrap64 (used - rl.2) else wrap64 (rl.2 - used))]> room)
    ∅ (go_range limits).

Definition newQuotasTracker (excluded : Node → bool)
    (NodeGroupForNode : Node → result cp_error (option NodeGroup)) (quotas : list Quota)
    (nodes : list Node) (isMinEnforcement : bool) : result quota_error Tracker :=
  match calculateUsages excluded NodeGroupForNode nodes quotas ∅ with
  | (_, Err e) => Err e
  | (cache, Ok usages) =>
      Ok (mkTracker (foldl (λ l rq, l ++ [mkStatus rq (limits_left isMinEnforcement
             (default ∅ (usages !! QuotaID rq)) (Limits rq))]) [] quotas) cache)
  end.

(** ** Checking and consuming *)

Definition matchingQuotaStatuses t node : list quotaStatus :=
  foldl (λ l qs, if AppliesTo (quota qs) node then l ++ [qs] else l) [] (quotaStatuses t).

(** One resource of one quota; the state is the allowed delta and the resources
    exceeded. *)
Definition check_resource (nodeDelta : Z) qs (st : Z * list string) (rd : string * Z)
    : Z * list string :=
  if rd.2 <=? 0 then st
  else match limitsLeft qs !! rd.1 with
  | None => st
  | Some room =>
      if room <? wrap64 (rd.2 * nodeDelta)
      then (st.1 `min` (room `quot` rd.2), st.2 ++ [rd.1]) else st
  end.

Definition check_status (nodeDelta : Z) delta (result : CheckDeltaResult) qs : CheckDeltaResult :=
  let '(allowed, exceeded) :=
    foldl (check_resource nodeDelta qs) (AllowedDelta result, []) (go_range delta) in
  mkCheck (match exceeded with
           | [] => ExceededQuotas result
           | _ => ExceededQuotas result ++ [mkExceeded (QuotaID (quota qs)) exceeded]
           end) allowed.

Definition checkQuota delta (matching : list quotaStatus) (nodeDelta : Z) : CheckDeltaResult :=
  foldl (check_status nodeDelta delta) (mkCheck [] nodeDelta) matching.

Definition CheckQuota t (nodeGroup : option NodeGroup) node (nodeDelta : Z)
    : Tracker * result quota_error CheckDeltaResult :=
  if nodeDelta <? 0 then (t, Err ErrNegativeDelta)
  else match cached_totalNodeResources (nodeCache t) node nodeGroup with
  | (cache, Err e) => (mkTracker (quotaStatuses t) cache, Err e)
  | (cache, Ok delta) =>
      let t := mkTracker (quotaStatuses t) cache in
      (t, Ok (checkQuota delta (matchingQuotaStatuses t node) nodeDelta))
  end.

Definition consume_status (allowed : Z) delta qs : quotaStatus :=
  mkStatus (quota qs) (foldl (λ room rd,
    match room !! rd.1 with
    | Some limit => <[rd.1 := wrap64 (limit - wrap64 (allowed * rd.2)) `max` 0]> room
    | None => room
    end) (limitsLeft qs) (go_range delta)).

(** The matching statuses are pointers into the tracker's list. *)
Definition ConsumeQuota t (nodeGroup : option NodeGroup) node (nodeDelta : Z)
    : Tracker * result quota_error CheckDeltaResult :=
  if nodeDelta <? 0 then (t, Err ErrNegativeDelta)
  else match cached_totalNodeResources (nodeCache t) node nodeGroup with
  | (cache, Err e) => (mkTracker (quotaStatuses t) cache, Err e)
  | (cache, Ok delta) =>
      let t := mkTracker (quotaStatuses t) cache in
      let result := checkQuota delta (matchingQuotaStatuses t node) nodeDelta in
      if negb (AllowedDelta result =? nodeDelta) then (t, Ok result)
      else
        (mkTracker ((λ qs, if AppliesTo (quota qs) node
                           then consume_status (AllowedDelta result) delta qs else qs)
                      <$> quotaStatuses t) cache, Ok result)
  end.


(** ** The allowed delta is the largest one that fits *)

Definition status_ok qs : Prop := map_Forall (λ _ l, 0 ≤ l ≤ int64_max) (limitsLeft qs).
Definition tracker_ok t : Prop := Forall status_ok (quotaStatuses t).

(** The products of the check do not overflow. *)
Definition delta_ok delta (nodeDelta : Z) : Prop :=
  map_Forall (λ _ rd, 0 ≤ rd ∧ rd * nodeDelta ≤ int64_max) delta.

(** [k] nodes fit into what is left of a quota. *)
Definition fits delta (k : Z) qs : Prop :=
  ∀ r rd room, delta !! r = Some rd → limitsLeft qs !! r = Some room → rd * k ≤ room.

Definition fits_entry (k : Z) qs (rd : string * Z) : Prop :=
  ∀ room, limitsLeft qs !! rd.1 = Some room → rd.2 * k ≤ room.

Lemma check_resource_spec nd qs st rd :
  0 ≤ nd → status_ok qs → 0 ≤ rd.2 → rd.2 * nd ≤ int64_max → 0 ≤ st.1 ≤ nd →
  let st' := check_resource nd qs st rd in
  0 ≤ st'.1 ≤ nd ∧
  (∀ k, 0 ≤ k ≤ nd → k ≤ st'.1 ↔ k ≤ st.1 ∧ fits_entry k qs rd) ∧
  (st' = st ∨ st'.2 ≠ [] ∧ st'.1 < nd).
Proof.
  destruct st as [a exc], rd as [r rd]. simpl. intros Hnd Hqs Hrd Hov Ha.
  unfold check_resource, fits_entry. simpl.
  destruct (Z.leb_spec rd 0) as [Hz|Hpos].
  { simpl. split_and!; [lia|lia| |by left]. intros k Hk. split; [|tauto]. intros Hka. split; [done|].
    intros room Hr. destruct (Hqs _ _ Hr). replace rd with 0 by lia. lia. }
  destruct (limitsLeft qs !! r) as [room|] eqn:Hr; simpl;
    [|split_and!; [lia|lia|naive_solver|by left]].
  destruct (Hqs _ _ Hr) as [Hroom _].
  rewrite wrap64_id by (unfold int64_min, int64_max in *; nia).
  destruct (Z.ltb_spec room (rd * nd)) as [Hex|Hfit]; simpl.
  - assert (∀ k, k ≤ room `quot` rd ↔ rd * k ≤ room) as Hq.
    { intros k. rewrite Z.quot_div_nonneg by lia. split; intros Hk.
      - pose proof (Z.mul_div_le room rd ltac:(lia)). nia.
      - apply Z.div_le_lower_bound; lia. }
    assert (0 ≤ room `quot` rd) by (apply Hq; lia).
    assert (¬ nd ≤ room `quot` rd) by (rewrite Hq; lia).
    split_and!; [lia|lia| |right; split; [by destruct exc|lia]].
    intros k Hk. rewrite Z.min_glb_iff, Hq. naive_solver.
  - split_and!; [lia|lia| |by left]. intros k Hk. split; [|tauto]. intros Hka. split; [done|].
    intros room' [= <-]. nia.
Qed.

Lemma check_resources_spec nd qs l : ∀ st,
  0 ≤ nd → status_ok qs → Forall (λ rd : string * Z, 0 ≤ rd.2 ∧ rd.2 * nd ≤ int64_max) l →
  0 ≤ st.1 ≤ nd →
  let st' := foldl (check_resource nd qs) st l in
  0 ≤ st'.1 ≤ nd ∧
  (∀ k, 0 ≤ k ≤ nd → k ≤ st'.1 ↔ k ≤ st.1 ∧ Forall (fits_entry k qs) l) ∧
  (st' = st ∨ st'.2 ≠ [] ∧ st'.1 < nd).
Proof.
  induction l as [|rd l IH]; intros st Hnd Hqs Hl Ha; simpl.
  { split_and!; [lia|lia| |by left]. intros k _. split; [by split|tauto]. }
  apply Forall_cons in Hl as [[H1 H2] Hl].
  destruct (check_resource_spec nd qs st rd Hnd Hqs H1 H2 Ha) as (Ha1 & Hk1 & Hc1).
  destruct (IH (check_resource nd qs st rd) Hnd Hqs Hl Ha1) as (Ha2 & Hk2 & Hc2).
  split_and!; [lia|lia| |].
  - intros k Hk. rewrite Hk2, Hk1, Forall_cons by done. tauto.
  - destruct Hc2 as [Heq|Hc2]; [rewrite Heq|by right]. exact Hc1.
Qed.

Lemma fits_Forall delta k qs : fits delta k qs ↔ Forall (fits_entry k qs) (go_range delta).
Proof.
  rewrite Forall_forall. unfold fits, fits_entry. split.
  - intros H [r rd] Hin room Hr. apply (H r rd); [by apply elem_of_go_range|done].
  - intros H r rd room Hd Hr. apply (H (r, rd)); [by apply elem_of_go_range|done].
Qed.

(** A result lists an exceeded quota exactly when it allows fewer nodes. *)
Definition settled (nd : Z) (res : CheckDeltaResult) : Prop :=
  ExceededQuotas res = [] ∧ AllowedDelta res = nd ∨
  ExceededQuotas res ≠ [] ∧ 0 ≤ AllowedDelta res < nd.

Lemma delta_ok_entries delta nd :
  delta_ok delta nd →
  Forall (λ rd : string * Z, 0 ≤ rd.2 ∧ rd.2 * nd ≤ int64_max) (go_range delta).
Proof. intros Hd. apply Forall_forall. intros [r rd] Hin%elem_of_go_range. exact (Hd _ _ Hin). Qed.

Lemma check_status_spec delta nd res qs :
  0 ≤ nd → delta_ok delta nd → status_ok qs → settled nd res →
  let res' := check_status nd delta res qs in
  settled nd res' ∧
  ∀ k, 0 ≤ k ≤ nd → k ≤ AllowedDelta res' ↔ k ≤ AllowedDelta res ∧ fits delta k qs.
Proof.
  intros Hnd Hd Hqs Hres. assert (0 ≤ AllowedDelta res ≤ nd) as Ha by (destruct Hres; lia).
  destruct (check_resources_spec nd qs (go_range delta) (AllowedDelta res, []) Hnd Hqs
    (delta_ok_entries _ _ Hd) Ha) as (Ha1 & Hk1 & Hc1). unfold check_status.
  destruct (foldl (check_resource nd qs) _ _) as [a exc]. simpl in *. split.
  - destruct Hc1 as [Heq|[Hne Hlt]].
    + injection Heq as -> ->. exact Hres.
    + right. simpl. split; [|lia]. destruct exc; [done|]. by destruct (ExceededQuotas res).
  - intros k Hk. by rewrite Hk1, fits_Forall.
Qed.

Lemma check_statuses_spec delta nd matching : ∀ res,
  0 ≤ nd → delta_ok delta nd → Forall status_ok matching → settled nd res →
  let res' := foldl (check_status nd delta) res matching in
  settled nd res' ∧
  ∀ k, 0 ≤ k ≤ nd → k ≤ AllowedDelta res' ↔ k ≤ AllowedDelta res ∧ Forall (fits delta k) matching.
Proof.
  induction matching as [|qs matching IH]; intros res Hnd Hd Hm Hres; simpl.
  { split; [done|]. intros k _. split; [by split|tauto]. }
  apply Forall_cons in Hm as [Hqs Hm].
  destruct (check_status_spec delta nd res qs Hnd Hd Hqs Hres) as [Hi1 Hk1].
  destruct (IH _ Hnd Hd Hm Hi1) as [Hi2 Hk2]. split; [exact Hi2|].
  intros k Hk. rewrite Hk2, Hk1, Forall_cons by done. tauto.
Qed.

Lemma checkQuota_spec delta matching nd :
  0 ≤ nd → delta_ok delta nd → Forall status_ok matching →
  let res := checkQuota delta matching nd in
  0 ≤ AllowedDelta res ≤ nd ∧
  (∀ k, 0 ≤ k ≤ nd → k ≤ AllowedDelta res ↔ Forall (fits delta k) matching) ∧
  (Exceeded res = true ↔ AllowedDelta res < nd).
Proof.
  intros Hnd Hd Hm.
  destruct (check_statuses_spec delta nd matching (mkCheck [] nd) Hnd Hd Hm ltac:(by left)) as [Hi Hk].
  unfold checkQuota, Exceeded, settled in *. destruct (foldl _ _ matching) as [exc a]. simpl in *.
  split_and!.
  - lia.
  - lia.
  - intros k Hkk. rewrite Hk by done. intuition lia.
  - rewrite negb_true_iff, bool_decide_eq_false, length_zero_iff_nil. destruct Hi as [[-> ->]|[Hne ?]].
    + split; [done|lia].
    + split; [lia|done].
Qed.


Lemma matching_elem t node qs :
  qs ∈ matchingQuotaStatuses t node ↔ AppliesTo (quota qs) node = true ∧ qs ∈ quotaStatuses t.
Proof.
  unfold matchingQuotaStatuses. rewrite (foldl_keep (λ qs, AppliesTo (quota qs) node)).
  by rewrite list_elem_of_filter.
Qed.

Lemma matching_ok t node : tracker_ok t → Forall status_ok (matchingQuotaStatuses t node).
Proof.
  unfold tracker_ok. rewrite !Forall_forall. intros Ht qs [_ Hqs]%matching_elem. by apply Ht.
Qed.

(** CheckQuota answers the largest number of nodes, at most the number asked
    for, whose resources fit into what every matching quota has left, and
    reports an exceeded quota exactly when that is fewer than asked for. *)
Theorem check_quota_exact t ng node nd cache delta :
  tracker_ok t → 0 ≤ nd →
  cached_totalNodeResources (nodeCache t) node ng = (cache, Ok delta) → delta_ok delta nd →
  ∃ res, CheckQuota t ng node nd = (mkTracker (quotaStatuses t) cache, Ok res) ∧
    0 ≤ AllowedDelta res ≤ nd ∧
    (∀ k, 0 ≤ k ≤ nd → k ≤ AllowedDelta res ↔
       ∀ qs, qs ∈ quotaStatuses t → AppliesTo (quota qs) node = true → fits delta k qs) ∧
    (Exceeded res = true ↔ AllowedDelta res < nd).
Proof.
  intros Ht Hnd Hc Hd. unfold CheckQuota. rewrite (proj2 (Z.ltb_ge nd 0)), Hc by done.
  destruct (checkQuota_spec delta (matchingQuotaStatuses t node) nd Hnd Hd (matching_ok _ _ Ht))
    as (Ha & Hk & He).
  exists (checkQuota delta (matchingQuotaStatuses t node) nd). split_and!; [done|lia|lia| |done].
  intros k Hkk. rewrite Hk, Forall_forall by done.
  split; [|intros H qs Hqs; apply matching_elem in Hqs as [? ?]; by apply H].
  intros H qs Hin Happ. apply H. by apply matching_elem.
Qed.

(** ** Consumption *)

Lemma consume_status_lookup delta nd qs r :
  0 ≤ nd → delta_ok delta nd → status_ok qs → fits delta nd qs →
  limitsLeft (consume_status nd delta qs) !! r =
  (λ room, room - nd * default 0 (delta !! r)) <$> limitsLeft qs !! r.
Proof.
  intros Hnd Hd Hqs Hfit. unfold consume_status. simpl.
  set (g rd room := wrap64 (room - wrap64 (nd * rd)) `max` 0).
  assert (foldl (λ room rd, match room !! rd.1 with
      | Some limit => <[rd.1 := g rd.2 limit]> room | None => room end) (limitsLeft qs)
      (go_range delta) !! r =
    match delta !! r with Some rd => g rd <$> limitsLeft qs !! r | None => limitsLeft qs !! r end)
    as Hl.
  { rewrite <- (lookup_range_partial_alter (λ _ rd (o : option Z), g rd <$> o)).
    f_equal. apply foldl_ext'; [|done]. intros m [k rd]. simpl. apply map_eq. intros j.
    rewrite lookup_partial_alter.
    destruct (decide (k = j)) as [->|Hne]; destruct (m !! _) eqn:Hm;
      rewrite ?lookup_insert_eq, ?lookup_insert_ne, ?Hm by done; done. }
  etransitivity; [exact Hl|]. destruct (delta !! r) as [rd|] eqn:Hr; [|by destruct (limitsLeft qs !! r); simpl; [f_equal; lia|]].
  destruct (limitsLeft qs !! r) as [room|] eqn:Hroom; [|done]. simpl. f_equal. unfold g.
  destruct (Hd _ _ Hr) as [H1 H2]. destruct (Hqs _ _ Hroom) as [H3 H4].
  pose proof (Hfit r rd room Hr Hroom) as H5.
  assert (0 ≤ nd * rd ≤ int64_max) as H6 by nia.
  rewrite !wrap64_id by (rewrite ?wrap64_id; unfold int64_min, int64_max in *; lia). lia.
Qed.


(** ** Resources are bounded *)

Definition resources_in (B : Z) delta : Prop := map_Forall (λ _ rd, 0 ≤ rd ≤ B) delta.
Definition cache_in (B : Z) (cache : gmap string (gmap string Z)) : Prop :=
  map_Forall (λ _ m, resources_in B m) cache.

(** No node has more than [B] of any resource. *)
Definition nodes_in (B : Z) : Prop :=
  ∀ node ng m r v, totalNodeResources node ng = Ok m → m !! r = Some v → v ≤ B.

Lemma getNodeResource_nonneg node r : 0 ≤ getNodeResource node r.
Proof.
  unfold getNodeResource. destruct (Capacity node r) as [v|]; [|lia]. destruct (Z.ltb_spec v 0); lia.
Qed.

Lemma totalNodeResources_nonneg node ng m :
  totalNodeResources node ng = Ok m → map_Forall (λ _ v, 0 ≤ v) m.
Proof.
  unfold totalNodeResources. simpl. destruct (GetNodeResourceTargets node ng) as [targets|]; [|done].
  intros [= <-]. apply foldl_inv.
  - apply map_Forall_insert_2; [apply getNodeResource_nonneg|].
    apply map_Forall_insert_2; [apply getNodeResource_nonneg|].
    apply map_Forall_insert_2; [lia|apply map_Forall_empty].
  - intros rs [r v] _ Hrs. simpl. destruct (negb _); [|done]. simpl.
    destruct (Z.ltb_spec 0 v); [|done]. apply map_Forall_insert_2; [lia|done].
Qed.

Lemma cached_resources_in B cache node ng :
  nodes_in B → cache_in B cache →
  cache_in B (cached_totalNodeResources cache node ng).1 ∧
  ∀ delta, (cached_totalNodeResources cache node ng).2 = Ok delta → resources_in B delta.
Proof.
  intros HB Hc.
  assert (∀ m, totalNodeResources node ng = Ok m → resources_in B m) as Hm.
  { intros m Hm r v Hr. split; [by eapply totalNodeResources_nonneg|by eapply HB]. }
  unfold cached_totalNodeResources. destruct ng as [g|]; [|by split].
  destruct (cache !! Id g) as [m|] eqn:Hg; simpl.
  { split; [done|]. intros delta [= <-]. by apply (Hc (Id g)). }
  destruct (totalNodeResources node (Some g)) as [m|]; simpl; [|done].
  split; [apply map_Forall_insert_2; [by apply Hm|done]|]. intros delta [= <-]. by apply Hm.
Qed.

Lemma resources_in_ok B delta nd : resources_in B delta → 0 ≤ nd → nd * B ≤ int64_max → delta_ok delta nd.
Proof. intros Hd Hnd HB r rd Hr. destruct (Hd _ _ Hr). split; [done|nia]. Qed.

(** ** Runs of requests *)

Record quota_request : Type := mkRequest {
  rq_group : option NodeGroup; rq_node : Node; rq_delta : Z
}.

Definition consume t (q : quota_request) : Tracker * result quota_error CheckDeltaResult :=
  ConsumeQuota t (rq_group q) (rq_node q) (rq_delta q).

Definition consume_all t (reqs : list quota_request) : Tracker :=
  foldl (λ t q, (consume t q).1) t reqs.

(** The request was granted: nothing was exceeded and the quota was consumed. *)
Definition granted (q : quota_request) (res : result quota_error CheckDeltaResult) : bool :=
  match res with Ok c => AllowedDelta c =? rq_delta q | Err _ => false end.

(** How much of resource [r] one request takes from a quota. *)
Definition taken t (q : quota_request) (rq : Quota) (r : string) : Z :=
  match (cached_totalNodeResources (nodeCache t) (rq_node q) (rq_group q)).2 with
  | Ok delta => if granted q (consume t q).2 && AppliesTo rq (rq_node q)
                then rq_delta q * default 0 (delta !! r) else 0
  | Err _ => 0
  end.

Fixpoint total_taken t (reqs : list quota_request) (rq : Quota) (r : string) : Z :=
  match reqs with
  | [] => 0
  | q :: reqs' => taken t q rq r + total_taken (consume t q).1 reqs' rq r
  end.

(** [qs'] is [qs] less the amounts [f], which were there. *)
Definition drawn (f : Quota → string → Z) qs qs' : Prop :=
  quota qs' = quota qs ∧
  ∀ r, limitsLeft qs' !! r = (λ room, room - f (quota qs) r) <$> limitsLeft qs !! r ∧
       ∀ room, limitsLeft qs !! r = Some room → 0 ≤ f (quota qs) r ≤ room.

Lemma drawn_nothing f qs : status_ok qs → (∀ r, f (quota qs) r = 0) → drawn f qs qs.
Proof.
  intros Hqs Hf. split; [done|]. intros r. rewrite Hf. split.
  - destruct (limitsLeft qs !! r); simpl; [f_equal; lia|done].
  - intros room Hr. destruct (Hqs _ _ Hr). lia.
Qed.

Lemma drawn_nothing_all f t :
  tracker_ok t → (∀ rq r, f rq r = 0) → Forall2 (drawn f) (quotaStatuses t) (quotaStatuses t).
Proof.
  intros Ht Hf. apply Forall_Forall2_diag. eapply Forall_impl; [exact Ht|].
  intros qs Hqs. by apply drawn_nothing.
Qed.

Lemma drawn_consumed delta nd f qs :
  0 ≤ nd → delta_ok delta nd → status_ok qs → fits delta nd qs →
  (∀ r, f (quota qs) r = nd * default 0 (delta !! r)) → drawn f qs (consume_status nd delta qs).
Proof.
  intros Hnd Hok Hqs Hfit Hf. split; [done|]. intros r. rewrite Hf. split; [by apply consume_status_lookup|].
  intros room Hroom. destruct (Hqs _ _ Hroom) as [? _]. destruct (delta !! r) as [rd|] eqn:Hr; simpl; [|lia].
  destruct (Hok _ _ Hr). pose proof (Hfit r rd room Hr Hroom). nia.
Qed.

Lemma consume_step B t q :
  tracker_ok t → nodes_in B → cache_in B (nodeCache t) → rq_delta q * B ≤ int64_max →
  let t' := (consume t q).1 in
  cache_in B (nodeCache t') ∧ Forall2 (drawn (taken t q)) (quotaStatuses t) (quotaStatuses t').
Proof.
  intros Ht HB Hc Hq.
  assert (∀ rq r, taken t q rq r =
    match (cached_totalNodeResources (nodeCache t) (rq_node q) (rq_group q)).2 with
    | Ok delta => if granted q (consume t q).2 && AppliesTo rq (rq_node q)
                  then rq_delta q * default 0 (delta !! r) else 0
    | Err _ => 0 end) as Htk by done.
  revert Htk. generalize (taken t q). intros f Hf. destruct q as [ng node nd].
  unfold consume, ConsumeQuota in *. simpl in *.
  pose proof (cached_resources_in B (nodeCache t) node ng HB Hc) as [Hc' Hd].
  destruct (Z.ltb_spec nd 0) as [Hneg|Hnd]; simpl in *.
  { split; [done|]. apply drawn_nothing_all; [done|]. intros rq r. rewrite Hf. by case_match. }
  destruct (cached_totalNodeResources (nodeCache t) node ng) as [cache [delta|e]]; simpl in *;
    [|by split; [|apply drawn_nothing_all]].
  assert (delta_ok delta nd) as Hok by (apply (resources_in_ok B); [by apply Hd|done|done]).
  destruct (checkQuota_spec delta (matchingQuotaStatuses t node) nd Hnd Hok (matching_ok _ _ Ht))
    as (_ & Hk & _).
  change (matchingQuotaStatuses (mkTracker (quotaStatuses t) cache) node)
    with (matchingQuotaStatuses t node) in *.
  set (res := checkQuota delta (matchingQuotaStatuses t node) nd) in *.
  destruct (Z.eqb_spec (AllowedDelta res) nd) as [Heq|Hne]; simpl in *.
  2:{ split; [done|]. apply drawn_nothing_all; [done|]. intros rq r. rewrite Hf.
      by rewrite (proj2 (Z.eqb_neq _ _) Hne). }
  rewrite Heq, Z.eqb_refl in Hf. simpl in Hf.
  split; [done|]. rewrite Heq. apply Forall2_fmap_r, Forall_Forall2_diag, Forall_forall. intros qs Hin.
  pose proof (Forall_elem Ht qs Hin) as Hqs.
  unfold compose. destruct (AppliesTo (quota qs) node) eqn:Happ.
  - apply drawn_consumed; [done..| |intros r; by rewrite Hf, Happ].
    apply (Forall_elem (proj1 (Hk nd ltac:(lia)) ltac:(lia))). by apply matching_elem.
  - apply drawn_nothing; [done|]. intros r. by rewrite Hf, Happ.
Qed.

Lemma drawn_ok f qs qs' : status_ok qs → drawn f qs qs' → status_ok qs'.
Proof.
  intros Hqs [_ Hd] r room' Hr'. destruct (Hd r) as [Hl Hroom]. rewrite Hl in Hr'.
  destruct (limitsLeft qs !! r) as [room|] eqn:Hr; [|done]. injection Hr' as <-.
  destruct (Hroom room eq_refl), (Hqs _ _ Hr). lia.
Qed.

(** ** What holds whatever the sizes *)

Lemma check_resource_bounds nd qs st rd :
  status_ok qs → 0 ≤ st.1 ≤ nd → 0 ≤ (check_resource nd qs st rd).1 ≤ nd.
Proof.
  intros Hqs Ha. unfold check_resource. destruct (Z.leb_spec rd.2 0); [done|].
  destruct (limitsLeft qs !! rd.1) as [room|] eqn:Hr; [|done]. destruct (Hqs _ _ Hr).
  destruct (room <? _); [|done]. cbn [fst]. assert (0 ≤ room `quot` rd.2) by (apply Z.quot_pos; lia). lia.
Qed.

(** The answer is between nothing and what was asked, even if a product
    overflows, and only the cache of the tracker changes. *)
Lemma CheckQuota_bounds t ng node nd t' res :
  tracker_ok t → CheckQuota t ng node nd = (t', res) →
  quotaStatuses t' = quotaStatuses t ∧ ∀ r, res = Ok r → 0 ≤ AllowedDelta r ≤ nd.
Proof.
  intros Ht. unfold CheckQuota. destruct (Z.ltb_spec nd 0) as [|Hnd]; [by intros [= <- <-]|].
  destruct (cached_totalNodeResources _ node ng) as [cache [delta|e]]; intros [= <- <-]; [|done].
  split; [done|]. intros r [= <-]. unfold checkQuota.
  assert (Forall status_ok (matchingQuotaStatuses (mkTracker (quotaStatuses t) cache) node)) as Hm
    by by apply matching_ok.
  apply (foldl_inv (λ res, 0 ≤ AllowedDelta res ≤ nd)); [simpl; lia|].
  intros res qs Hin Hres. rewrite Forall_forall in Hm. specialize (Hm _ Hin). unfold check_status.
  pose proof (foldl_inv (λ st : Z * list string, 0 ≤ st.1 ≤ nd) (check_resource nd qs) (go_range delta)
    (AllowedDelta res, []) Hres (λ st rd _, check_resource_bounds nd qs st rd Hm)) as Hb.
  destruct (foldl (check_resource nd qs) _ _) as [a exc]. exact Hb.
Qed.

Lemma consume_status_ok nd delta qs : status_ok qs → status_ok (consume_status nd delta qs).
Proof.
  intros Hqs. unfold status_ok, consume_status. cbn [limitsLeft].
  apply (foldl_inv (map_Forall (λ _ l, 0 ≤ l ≤ int64_max))); [done|].
  intros room rd _ Hroom. destruct (room !! rd.1) as [limit|]; [|done]. apply map_Forall_insert_2; [|done].
  pose proof (wrap64_range (limit - wrap64 (nd * rd.2))). unfold int64_max in *. lia.
Qed.

Lemma ConsumeQuota_ok t ng node nd : tracker_ok t → tracker_ok (ConsumeQuota t ng node nd).1.
Proof.
  intros Ht. unfold ConsumeQuota. destruct (nd <? 0); [done|].
  destruct (cached_totalNodeResources _ node ng) as [cache [delta|e]]; [|done].
  destruct (negb _); [done|]. unfold tracker_ok. cbn [fst quotaStatuses]. apply Forall_fmap.
  eapply Forall_impl; [exact Ht|]. intros qs Hqs. cbn. destruct (AppliesTo _ _); [|done]. by apply consume_status_ok.
Qed.

(** The cache only grows. *)
Lemma cached_resources_grow cache node g :
  cache ⊆ (cached_totalNodeResources cache node (Some g)).1 ∧
  ∀ delta, (cached_totalNodeResources cache node (Some g)).2 = Ok delta →
    (cached_totalNodeResources cache node (Some g)).1 !! Id g = Some delta.
Proof.
  unfold cached_totalNodeResources. destruct (cache !! Id g) as [m|] eqn:Hg; cbn [fst snd].
  - split; [done|]. by intros delta [= <-].
  - destruct (totalNodeResources node (Some g)) as [m|]; cbn [fst snd]; [|done].
    split; [by apply insert_subseteq|]. intros delta [= <-]. apply lookup_insert_eq.
Qed.

(** ** Consuming what was allowed *)

Lemma drawn_ext f g qs qs' : drawn f qs qs' → (∀ rq r, g rq r = f rq r) → drawn g qs qs'.
Proof. intros [Hq Hd] Hfg. split; [done|]. intros r. rewrite Hfg. apply Hd. Qed.

Lemma drawn_trans f g h (l1 l2 l3 : list quotaStatus) :
  Forall2 (drawn f) l1 l2 → Forall2 (drawn g) l2 l3 → (∀ rq r, h rq r = f rq r + g rq r) →
  Forall2 (drawn h) l1 l3.
Proof.
  intros H12 H23 Hh. eapply Forall2_trans; [|exact H12|exact H23].
  intros qs1 qs2 qs3 [Hq1 H1] [Hq2 H2]. split; [congruence|]. intros r. rewrite Hh.
  destruct (H1 r) as [Hl1 Hr1], (H2 r) as [Hl2 Hr2]. rewrite Hq1 in *. split.
  - rewrite Hl2, Hl1. destruct (limitsLeft qs1 !! r); simpl; [f_equal; lia|done].
  - intros room Hroom. rewrite Hl1, Hroom in Hr2. specialize (Hr1 room Hroom).
    specialize (Hr2 _ eq_refl). lia.
Qed.

Lemma consume_all_drawn B reqs : ∀ t,
  tracker_ok t → nodes_in B → cache_in B (nodeCache t) →
  Forall (λ q, rq_delta q * B ≤ int64_max) reqs →
  Forall2 (drawn (total_taken t reqs)) (quotaStatuses t) (quotaStatuses (consume_all t reqs)).
Proof.
  induction reqs as [|q reqs IH]; intros t Ht HB Hc Hq; [by apply drawn_nothing_all|].
  apply Forall_cons in Hq as [Hq Hqs]. destruct (consume_step B t q Ht HB Hc Hq) as [Hc' Hd].
  assert (tracker_ok (consume t q).1) as Ht'.
  { apply Forall_forall. intros qs' Hin. apply list_elem_of_lookup_1 in Hin as [i Hi].
    destruct (Forall2_lookup_r _ _ _ _ _ Hd Hi) as (qs & Hqs' & Hdr).
    eapply drawn_ok; [by eapply (proj1 (Forall_lookup _ _) Ht)|exact Hdr]. }
  specialize (IH _ Ht' HB Hc' Hqs). cbn [consume_all foldl] in *.
  by eapply drawn_trans; [exact Hd|exact IH|].
Qed.


(** What a check allowed can be consumed, all of it. *)
Definition drawing (g : NodeGroup) node (delta : gmap string Z) (nd : Z) (rq : Quota) (r : string) : Z :=
  if AppliesTo rq node then nd * default 0 (delta !! r) else 0.

Lemma allowed_is_consumed B t g node nd t1 res :
  tracker_ok t → nodes_in B → cache_in B (nodeCache t) → nd * B ≤ int64_max →
  CheckQuota t (Some g) node nd = (t1, Ok res) →
  let t2 := if 0 <? AllowedDelta res then (ConsumeQuota t1 (Some g) node (AllowedDelta res)).1 else t1 in
  ∃ delta, nodeCache t2 !! Id g = Some delta ∧ nodeCache t ⊆ nodeCache t2 ∧ cache_in B (nodeCache t2) ∧
    Forall2 (drawn (drawing g node delta (AllowedDelta res))) (quotaStatuses t) (quotaStatuses t2).
Proof.
  intros Ht HB Hc Hov Hck. pose proof (CheckQuota_bounds _ _ _ _ _ _ Ht Hck) as [Hqs Hb].
  specialize (Hb _ eq_refl). unfold CheckQuota in Hck. destruct (Z.ltb_spec nd 0) as [|Hnd]; [done|].
  pose proof (cached_resources_in B (nodeCache t) node (Some g) HB Hc) as [Hc' Hd].
  pose proof (cached_resources_grow (nodeCache t) node g) as [Hgrow Hg].
  destruct (cached_totalNodeResources _ node (Some g)) as [cache [delta|e]] eqn:Hct; [|done].
  injection Hck as <- <-. cbn [fst snd] in *. specialize (Hd _ eq_refl). specialize (Hg _ eq_refl).
  change (matchingQuotaStatuses (mkTracker (quotaStatuses t) cache) node)
    with (matchingQuotaStatuses t node) in *.
  assert (delta_ok delta nd) as Hok by by apply (resources_in_ok B).
  destruct (checkQuota_spec delta (matchingQuotaStatuses t node) nd Hnd Hok (matching_ok _ _ Ht)) as (_ & Hk & _).
  set (a := AllowedDelta (checkQuota delta (matchingQuotaStatuses t node) nd)) in *.
  destruct (Z.ltb_spec 0 a) as [Ha|Ha].
  2:{ exists delta. cbn [nodeCache quotaStatuses]. split_and!; [done..|]. apply drawn_nothing_all; [done|].
      intros rq r. unfold drawing. case_match; [|done]. replace a with 0 by lia. lia. }
  assert (delta_ok delta a) as Hoka by (intros r rd Hr; destruct (Hok r rd Hr); split; [done|nia]).
  assert (Forall (fits delta a) (matchingQuotaStatuses t node)) as Hfit by (apply Hk; lia).
  unfold ConsumeQuota. rewrite (proj2 (Z.ltb_ge a 0)) by lia. cbn [nodeCache].
  unfold cached_totalNodeResources. rewrite Hg.
  change (matchingQuotaStatuses (mkTracker (quotaStatuses (mkTracker (quotaStatuses t) cache)) cache) node)
    with (matchingQuotaStatuses t node).
  destruct (checkQuota_spec delta (matchingQuotaStatuses t node) a ltac:(lia) Hoka (matching_ok _ _ Ht)) as (Hb2 & Hk2 & _).
  assert (AllowedDelta (checkQuota delta (matchingQuotaStatuses t node) a) = a) as ->.
  { apply Hk2 in Hfit; lia. }
  rewrite Z.eqb_refl. cbn [negb fst nodeCache quotaStatuses]. exists delta. split_and!; [done..|].
  apply Forall2_fmap_r, Forall_Forall2_diag, Forall_forall. intros qs Hin.
  pose proof (Forall_elem Ht qs Hin) as Hqsok. unfold compose. destruct (AppliesTo (quota qs) node) eqn:Happ.
  - apply drawn_consumed; [lia|done|done| |intros r; unfold drawing; by rewrite Happ].
    apply (Forall_elem Hfit). by apply matching_elem.
  - apply drawn_nothing; [done|]. intros r. unfold drawing. by rewrite Happ.
Qed.

(** ** From the usage to the limit *)

Section factory.
Context (excluded : Node → bool) (NodeGroupForNode : Node → result cp_error (option NodeGroup))
  (quotas : list Quota) (nodes : list Node).

Lemma calculateUsages_cache B cache :
  nodes_in B → cache_in B cache →
  cache_in B (calculateUsages excluded NodeGroupForNode nodes quotas cache).1.
Proof.
  intros HB Hc. unfold calculateUsages.
  pose proof (fold_err_inv (λ st, cache_in B st.2) (usage_step excluded NodeGroupForNode quotas) nodes
    (foldl (λ us rl, <[QuotaID rl := ∅]> us) ∅ quotas, cache) Hc) as Hinv.
  destruct (fold_err _ _ _) as [[usages cache'] [e|]]; apply Hinv; clear Hinv;
    (intros [us ca] node _ Hca; unfold usage_step; simpl in *; destruct (excluded node); [done|];
     destruct (NodeGroupForNode node) as [ng|]; [|done];
     pose proof (proj1 (cached_resources_in B ca node ng HB Hca)) as H;
     by destruct (cached_totalNodeResources ca node ng) as [ca' [delta|]]).
Qed.

Lemma lookup_limits_left isMin usage limits r :
  limits_left isMin usage limits !! r =
  (λ lim, let used := default 0 (usage !! r) in
     0 `max` (if isMin then wrap64 (used - lim) else wrap64 (lim - used))) <$> limits !! r.
Proof.
  unfold limits_left.
  pose proof (lookup_range_partial_alter (W := Z) (λ k lim _, let used := default 0 (usage !! k) in
    Some (0 `max` (if isMin then wrap64 (used - lim) else wrap64 (lim - used)))) limits ∅ r) as H.
  etransitivity; [exact H|]. by destruct (limits !! r).
Qed.

Lemma limits_left_ok isMin usage limits rq : status_ok (mkStatus rq (limits_left isMin usage limits)).
Proof.
  intros r room. simpl. rewrite lookup_limits_left. destruct (limits !! r) as [lim|]; [|done].
  intros [= <-]. pose proof (wrap64_range (default 0 (usage !! r) - lim)).
  pose proof (wrap64_range (lim - default 0 (usage !! r))). unfold int64_max in *. destruct isMin; lia.
Qed.

Lemma new_tracker_ok isMin t :
  newQuotasTracker excluded NodeGroupForNode quotas nodes isMin = Ok t →
  tracker_ok t ∧ ∃ usages,
    calculateUsages excluded NodeGroupForNode nodes quotas ∅ = (nodeCache t, Ok usages) ∧
    ∀ i q, quotas !! i = Some q → quotaStatuses t !! i =
      Some (mkStatus q (limits_left isMin (default ∅ (usages !! QuotaID q)) (Limits q))).
Proof.
  unfold newQuotasTracker.
  destruct (calculateUsages _ _ _ _ _) as [cache [usages|]]; [|done]. intros [= <-]. simpl.
  rewrite (foldl_snoc_fmap (λ rq, mkStatus rq (limits_left isMin (default ∅ (usages !! QuotaID rq))
    (Limits rq)))). simpl. split.
  - apply Forall_fmap, Forall_forall. intros rq _. apply limits_left_ok.
  - exists usages. split; [done|]. intros i q Hq. by rewrite list_lookup_fmap, Hq.
Qed.

(** C23. Whatever is requested of a tracker, a maximal quota is never exceeded and
    a minimal quota is never undercut by what the tracker grants: the
    resources its granted requests add to (or remove from) the usage it
    started from stay between that usage and the limit. *)
Theorem quotas_never_crossed B isMin t usages reqs i q r lim :
  newQuotasTracker excluded NodeGroupForNode quotas nodes isMin = Ok t →
  calculateUsages excluded NodeGroupForNode nodes quotas ∅ = (nodeCache t, Ok usages) →
  nodes_in B → Forall (λ req, rq_delta req * B ≤ int64_max) reqs →
  quotas !! i = Some q → Limits q !! r = Some lim →
  let used := default 0 (default ∅ (usages !! QuotaID q) !! r) in
  0 ≤ used ≤ int64_max → 0 ≤ lim ≤ int64_max →
  let c := total_taken t reqs q r in
  0 ≤ c ∧ (if isMin then used `min` lim ≤ used - c else used + c ≤ used `max` lim) ∧
  ∃ qs, quotaStatuses (consume_all t reqs) !! i = Some qs ∧ quota qs = q ∧
    limitsLeft qs !! r = Some (0 `max` (if isMin then used - lim else lim - used) - c).
Proof.
  intros Hnew Hcalc HB Hreqs Hq Hlim used Hused Hl c.
  destruct (new_tracker_ok isMin t Hnew) as (Ht & usages' & Hcalc' & Hst).
  assert (usages' = usages) as -> by congruence. specialize (Hst i q Hq).
  assert (cache_in B (nodeCache t)) as Hc.
  { pose proof (calculateUsages_cache B ∅ HB (map_Forall_empty _)) as H. by rewrite Hcalc in H. }
  pose proof (consume_all_drawn B reqs t Ht HB Hc Hreqs) as Hd.
  destruct (Forall2_lookup_l _ _ _ _ _ Hd Hst) as (qs & Hqs & Hquota & Hr).
  destruct (Hr r) as [Hleft Hroom]. simpl in *. rewrite lookup_limits_left, Hlim in Hleft, Hroom.
  simpl in *. fold used in Hleft, Hroom. specialize (Hroom _ eq_refl). fold c in Hleft, Hroom.
  rewrite !wrap64_id in Hleft, Hroom by (unfold int64_min, int64_max in *; lia).
  split_and!; [lia|destruct isMin; lia|]. exists qs. by split_and!.
Qed.
End factory.
End quotas.

(** A cluster of nodes with four cores each and a limit of ten cores. *)
Module QuotaExample.
Definition capacity (n : Node) (r : string) : option Z :=
  if decide (r = ResourceCPU) then Some 4 else if decide (r = ResourceMemory) then Some 16 else None.
Definition targets (n : Node) (g : option NodeGroup) : result cp_error (list (string * Z)) := Ok [].
Definition node : Node := mkNode "n" "n" ∅ ∅ [] false 0 [].
Definition pool : NodeGroup := mkNodeGroup "pool" 0 10 (Ok 1) (Ok []) (λ _, (None, None)).
Definition ten_cores : Quota := mkQuota "ten" (λ _, true) {[ResourceCPU := 10]}.
Definition tracker : Tracker := mkTracker [mkStatus ten_cores {[ResourceCPU := 6]}]
  {["pool" := {[ResourceCPU := 4; ResourceMemory := 16; ResourceNodes := 1]}]}.
Definition request : quota_request := mkRequest (Some pool) node 1.
Definition usages : gmap string (gmap string Z) :=
  {["ten" := {[ResourceCPU := 4; ResourceMemory := 16; ResourceNodes := 1]}]}.
End QuotaExample.

Lemma example_nodes_in : nodes_in QuotaExample.capacity QuotaExample.targets 16.
Proof.
  intros node ng m r v. unfold totalNodeResources. simpl. intros [= <-].
  rewrite !lookup_insert. repeat case_decide; intros [= <-] || (rewrite lookup_empty; done);
    unfold getNodeResource, QuotaExample.capacity; simpl; lia.
Qed.

Lemma check_quota_exact_witness :
  ∃ res, (CheckQuota QuotaExample.capacity QuotaExample.targets QuotaExample.tracker
            (Some QuotaExample.pool) QuotaExample.node 3).2 = Ok res ∧ 1 ≤ AllowedDelta res < 3.
Proof.
  destruct (check_quota_exact QuotaExample.capacity QuotaExample.targets QuotaExample.tracker
    (Some QuotaExample.pool) QuotaExample.node 3
    {["pool" := {[ResourceCPU := 4; ResourceMemory := 16; ResourceNodes := 1]}]}
    {[ResourceCPU := 4; ResourceMemory := 16; ResourceNodes := 1]}) as (res & Hc & Ha & Hk & He).
  - apply Forall_singleton. apply map_Forall_singleton. unfold int64_max. simpl. lia.
  - lia.
  - vm_compute. reflexivity.
  - apply (bool_decide_unpack _). vm_compute. exact I.
  - exists res. rewrite Hc. split; [reflexivity|]. split.
    + apply Hk; [lia|]. intros qs ->%list_elem_of_singleton _ r rd room Hrd Hroom.
      simpl in Hroom. apply lookup_singleton_Some in Hroom as [<- <-].
      vm_compute in Hrd. injection Hrd as <-. lia.
    + apply He. vm_compute in Hc. injection Hc as <-. reflexivity.
Defined.

Lemma quotas_never_crossed_witness :
  let c := total_taken QuotaExample.capacity QuotaExample.targets QuotaExample.tracker
             [QuotaExample.request; QuotaExample.request] QuotaExample.ten_cores ResourceCPU in
  0 ≤ c ∧ 4 + c ≤ 10 ∧ c = 4.
Proof.
  destruct (quotas_never_crossed QuotaExample.capacity QuotaExample.targets (λ _, false)
    (λ _, Ok (Some QuotaExample.pool)) [QuotaExample.ten_cores] [QuotaExample.node] 16 false
    QuotaExample.tracker QuotaExample.usages [QuotaExample.request; QuotaExample.request] 0
    QuotaExample.ten_cores ResourceCPU 10) as (H1 & H2 & _).
  - vm_compute. reflexivity.
  - vm_compute. reflexivity.
  - exact example_nodes_in.
  - repeat constructor; unfold int64_max; simpl; lia.
  - reflexivity.
  - reflexivity.
  - vm_compute. split; discriminate.
  - unfold int64_max. lia.
  - cbv zeta. split_and!; [exact H1|exact H2|vm_compute; reflexivity].
Defined.
