(* ===== verification/Unneeded.v ===== *)
(** The nodes the scale-down planner keeps track of: the unneeded nodes with the
    time since when they are unneeded
    (src/pkg/core/scaledown/unneeded/nodes.go) and the nodes that cannot be
    removed (src/pkg/core/scaledown/unremovable/nodes.go). *)
From Stdlib Require Import Ascii String.
From stdpp Require Import prelude gmap strings list numbers fin_maps.
From S2P Require Import Prelude Api Taints ClusterState Quotas.
Local Open Scope Z_scope.
Local Open Scope ca_scope.

(** ** Data *)

Inductive UnremovableReason : Type :=
| NoReason | ScaleDownDisabledAnnotation | ScaleDownUnreadyDisabled | NotAutoscaled
| NotUnneededLongEnough | NotUnreadyLongEnough | NodeGroupMinSizeReached
| NodeGroupMaxDeletionCountReached | AtomicScaleDownFailed | MinimalResourceLimitExceeded
| CurrentlyBeingDeleted | NotUnderutilized | NotUnneededOtherReason | RecentlyUnremovable
| NoPlaceToMovePods | BlockedByPod | UnexpectedError | NoNodeInfo | BlockedByOnCompletionPod.
#[export] Instance UnremovableReason_eq_dec : EqDecision UnremovableReason.
Proof. solve_decision. Defined.

Definition ScaleDownDisabledKey : string := "cluster-autoscaler.kubernetes.io/scale-down-disabled".

Definition HasNoScaleDownAnnotation (node : Node) : bool :=
  bool_decide (Annotations node !! ScaleDownDisabledKey = Some "true").

Definition GetNodeGroupSizeMap (groups : list NodeGroup) : gmap string Z :=
  foldl (λ m g, match TargetSize g with Ok size => <[Id g := size]> m | Err _ => m end) ∅ groups.

Section unneeded.
Context `{GR : GoRange} {Pod BlockingPod : Type}.

Record NodeToBeRemoved : Type := mkNtbr {
  NtbrNode : Node;
  IsRisky : bool;
  PodsToReschedule : list Pod;
  DaemonSetPods : list Pod;
  OnCompletionPods : list Pod
}.

Record UnremovableNode : Type := mkUnremovable {
  UrNode : Node; Reason : UnremovableReason; UrBlockingPod : option BlockingPod
}.

(** The struct [node] of the package. *)
Record node : Type := mkUnneeded {
  ntbr : NodeToBeRemoved;
  since : Z;
  removalThreshold : Z;
  thresholdRetrievalFailed : bool
}.

Record UnneededNode : Type := mkUnneededNode { UnNode : Node; RemovalThreshold : Z }.

(** [cachedList] is [None] for the nil slice. *)
Record Nodes : Type := mkNodes {
  cachedList : option (list UnneededNode);
  byName : gmap string node
}.

(** What one call asks of the cloud provider and of the configuration. *)
Record UnneededEnv : Type := mkUnneededEnv {
  UnNodeGroups : list NodeGroup;
  NodeGroupForNode : Node → result cp_error (option NodeGroup);
  GetScaleDownUnneededTime : NodeGroup → result cp_error Z;
  GetScaleDownUnreadyTime : NodeGroup → result cp_error Z
}.

Implicit Types (n : Nodes) (env : UnneededEnv) (ts : Z) (v : node) (nn : NodeToBeRemoved).

Definition NewNodes : Nodes := mkNodes None ∅.

(** ** Updating *)

Definition lookupAndSetRemovalThreshold env v : node :=
  match NodeGroupForNode env (NtbrNode (ntbr v)) with
  | Ok (Some g) =>
      let readiness := (GetNodeReadiness (NtbrNode (ntbr v))).1 in
      match (if NrReady readiness then GetScaleDownUnneededTime env g
             else GetScaleDownUnreadyTime env g) with
      | Err _ => mkUnneeded (ntbr v) (since v) (removalThreshold v) true
      | Ok t => mkUnneeded (ntbr v) (since v) t (thresholdRetrievalFailed v)
      end
  | _ => v
  end.

Definition newNode env nn (timestampGetter : NodeToBeRemoved → option Z) ts : node :=
  let since := match timestampGetter nn with Some t => t | None => ts end in
  lookupAndSetRemovalThreshold env (mkUnneeded nn since 0 false).

Definition update_step env n ts (timestampGetter : NodeToBeRemoved → option Z)
    (updated : gmap string node) nn : gmap string node :=
  <[Name (NtbrNode nn) :=
      match byName n !! Name (NtbrNode nn) with
      | Some val => lookupAndSetRemovalThreshold env (mkUnneeded nn (since val) 0 false)
      | None => newNode env nn timestampGetter ts
      end]> updated.

Definition updateInternalState env n (nodes : list NodeToBeRemoved) ts
    (timestampGetter : NodeToBeRemoved → option Z) : Nodes :=
  mkNodes None (foldl (update_step env n ts timestampGetter) ∅ nodes).

Definition Update env n (nodes : list NodeToBeRemoved) ts : Nodes :=
  updateInternalState env n nodes ts (λ _, None).

(** The caller passes nodes whose taint has a readable time only. *)
Definition initialize env n (nodes : list NodeToBeRemoved) ts : Nodes :=
  updateInternalState env n nodes ts
    (λ nn, match GetDeletionCandidateTime (NtbrNode nn) with Ok since => since | Err _ => None end).

Definition LoadFromExistingTaints env n (allNodes : result cp_error (list Node))
    (deletionCandidateStalenessTTL : Z) ts : Nodes * option cp_error :=
  match allNodes with
  | Err e => (n, Some e)
  | Ok allNodes =>
      let nodesWithTaints := foldl (λ l x,
        match GetDeletionCandidateTime x with
        | Ok (Some since) =>
            if since + deletionCandidateStalenessTTL <? ts then l else l ++ [mkNtbr x false [] [] []]
        | _ => l
        end) [] allNodes in
      (match nodesWithTaints with [] => n | _ => initialize env n nodesWithTaints ts end, None)
  end.

(** The context is not used without nodes; the zero time is 0. *)
Definition Clear env n : Nodes := Update env n [] 0.

Definition Contains n (nodeName : string) : bool :=
  match byName n !! nodeName with Some _ => true | None => false end.

Definition AsList n : Nodes * list UnneededNode :=
  match cachedList n with
  | Some l => (n, l)
  | None =>
      let l := foldl (λ l kv, l ++ [mkUnneededNode (NtbrNode (ntbr kv.2)) (removalThreshold kv.2)])
                 [] (go_range (byName n)) in
      (mkNodes (Some l) (byName n), l)
  end.

Definition Drop n (name : string) : Nodes := mkNodes None (delete name (byName n)).

(** ** Removal *)

Definition verifyMinSize (g : NodeGroup) (nodeGroupSize : gmap string Z)
    (DeletionsCount : string → Z) : UnremovableReason :=
  match nodeGroupSize !! Id g with
  | None => UnexpectedError
  | Some size => if size - DeletionsCount (Id g) <=? MinSize g
                 then NodeGroupMinSizeReached else NoReason
  end.

(** The capacity of nodes and the custom resources, as the quota tracker reads them. *)
Context (Capacity : Node → string → option Z)
  (GetNodeResourceTargets : Node → option NodeGroup → result cp_error (list (string * Z))).

(** The reason, the group sizes and the quota tracker after the call. *)
Definition unremovableReason env (DeletionsCount : string → Z) v ts
    (nodeGroupSize : gmap string Z) (tracker : Tracker)
    : UnremovableReason * gmap string Z * Tracker :=
  if thresholdRetrievalFailed v then (UnexpectedError, nodeGroupSize, tracker)
  else
    let x := NtbrNode (ntbr v) in
    if HasNoScaleDownAnnotation x then (ScaleDownDisabledAnnotation, nodeGroupSize, tracker)
    else if (0 <? removalThreshold v) && negb (since v + removalThreshold v <? ts) then
      (if NrReady (GetNodeReadiness x).1 then NotUnneededLongEnough else NotUnreadyLongEnough,
       nodeGroupSize, tracker)
    else match NodeGroupForNode env x with
    | Ok (Some g) =>
        match verifyMinSize g nodeGroupSize DeletionsCount with
        | NoReason =>
            match ConsumeQuota Capacity GetNodeResourceTargets tracker (Some g) x 1 with
            | (tracker, Err _) => (UnexpectedError, nodeGroupSize, tracker)
            | (tracker, Ok checkResult) =>
                if Exceeded checkResult then (MinimalResourceLimitExceeded, nodeGroupSize, tracker)
                else (NoReason,
                      <[Id g := default 0 (nodeGroupSize !! Id g) - 1]> nodeGroupSize, tracker)
            end
        | reason => (reason, nodeGroupSize, tracker)
        end
    | _ => (NotAutoscaled, nodeGroupSize, tracker)
    end.

Definition splitEmptyAndNonEmptyNodes n : gmap string node * gmap string node :=
  foldl (λ en kv,
    match PodsToReschedule (ntbr kv.2) with
    | [] => (<[kv.1 := kv.2]> en.1, en.2)
    | _ => (en.1, <[kv.1 := kv.2]> en.2)
    end) (∅, ∅) (go_range (byName n)).

(** The state of the loops of [RemovableAt]: the nodes chosen by the loop so
    far, the unremovable nodes, the group sizes and the tracker. *)
Record removal : Type := mkRemoval {
  rm_chosen : list NodeToBeRemoved;
  rm_unremovable : list UnremovableNode;
  rm_sizes : gmap string Z;
  rm_tracker : Tracker
}.

Definition removal_step env (DeletionsCount : string → Z) ts (st : removal) (kv : string * node)
    : removal :=
  let '(mkRemoval chosen unremovable sizes tracker) := st in
  match unremovableReason env DeletionsCount kv.2 ts sizes tracker with
  | (NoReason, sizes, tracker) => mkRemoval (chosen ++ [ntbr kv.2]) unremovable sizes tracker
  | (reason, sizes, tracker) =>
      mkRemoval chosen (unremovable ++ [mkUnremovable (NtbrNode (ntbr kv.2)) reason None]) sizes tracker
  end.

(** The empty nodes, the nodes to drain, the unremovable nodes and the tracker. *)
Definition RemovableAt env n (DeletionsCount : string → Z) (tracker : Tracker) ts
    : list NodeToBeRemoved * list NodeToBeRemoved * list UnremovableNode * Tracker :=
  let nodeGroupSize := GetNodeGroupSizeMap (UnNodeGroups env) in
  let '(emptyNodes, drainNodes) := splitEmptyAndNonEmptyNodes n in
  let '(mkRemoval empty unremovable sizes tracker) :=
    foldl (removal_step env DeletionsCount ts) (mkRemoval [] [] nodeGroupSize tracker)
      (go_range emptyNodes) in
  let '(mkRemoval needDrain unremovable sizes tracker) :=
    foldl (removal_step env DeletionsCount ts) (mkRemoval [] unremovable sizes tracker)
      (go_range drainNodes) in
  (empty, needDrain, unremovable, tracker).

(** ** Unremovable nodes *)

Record UnremovableNodes : Type := mkUnremovableNodes {
  ttls : gmap string Z;
  reasons : gmap string UnremovableNode
}.

Definition unremovable_NewNodes : UnremovableNodes := mkUnremovableNodes ∅ ∅.

(** [known] tells whether the snapshot has the node. *)
Definition unremovable_Update (u : UnremovableNodes) (known : string → bool) (timestamp : Z)
    : UnremovableNodes :=
  if bool_decide (size (ttls u) ≤ 0)%nat then mkUnremovableNodes (ttls u) ∅
  else mkUnremovableNodes (foldl (λ newTTLs kv,
    if negb (known kv.1) then newTTLs
    else if timestamp <? kv.2 then <[kv.1 := kv.2]> newTTLs else newTTLs)
    ∅ (go_range (ttls u))) ∅.

Definition unremovable_Contains (u : UnremovableNodes) (nodeName : string) : bool :=
  match reasons u !! nodeName with Some _ => true | None => false end.

Definition Add (u : UnremovableNodes) (x : UnremovableNode) : UnremovableNodes :=
  mkUnremovableNodes (ttls u) (<[Name (UrNode x) := x]> (reasons u)).

Definition AddTimeout (u : UnremovableNodes) (x : UnremovableNode) (timeout : Z) : UnremovableNodes :=
  Add (mkUnremovableNodes (<[Name (UrNode x) := timeout]> (ttls u)) (reasons u)) x.

Definition AddReason (u : UnremovableNodes) (x : Node) (reason : UnremovableReason)
    : UnremovableNodes := Add u (mkUnremovable x reason None).

Definition unremovable_AsList (u : UnremovableNodes) : list UnremovableNode :=
  foldl (λ l kv, l ++ [kv.2]) [] (go_range (reasons u)).

Definition HasReason (u : UnremovableNodes) (nodeName : string) : bool :=
  match reasons u !! nodeName with Some _ => true | None => false end.

Definition IsRecent (u : UnremovableNodes) (nodeName : string) : bool :=
  match ttls u !! nodeName with Some _ => true | None => false end.


(** ** Since when a node is unneeded *)

Inductive unneeded_event : Type :=
| UnUpdate (env : UnneededEnv) (nodes : list NodeToBeRemoved) (ts : Z)
| UnDrop (name : string)
| UnClear (env : UnneededEnv)
| UnAsList.

Definition unneeded_step n (ev : unneeded_event) : Nodes :=
  match ev with
  | UnUpdate env nodes ts => Update env n nodes ts
  | UnDrop name => Drop n name
  | UnClear env => Clear env n
  | UnAsList => (AsList n).1
  end.

Definition unneeded_run n (evs : list unneeded_event) : Nodes := foldl unneeded_step n evs.

(** The life of one node: it becomes unneeded at the first update that lists it
    and stays so until an update leaves it out or it is dropped. *)
Definition life_step (name : string) (o : option Z) (ev : unneeded_event) : option Z :=
  match ev with
  | UnUpdate _ nodes ts =>
      if decide (name ∈ (λ nn, Name (NtbrNode nn)) <$> nodes)
      then Some (default ts o) else None
  | UnDrop x => if decide (x = name) then None else o
  | UnClear _ => None
  | UnAsList => o
  end.

Definition life (name : string) (o : option Z) (evs : list unneeded_event) : option Z :=
  foldl (life_step name) o evs.

Definition tracked_since n (name : string) : option Z := since <$> byName n !! name.

Definition list_entry (kv : string * node) : UnneededNode :=
  mkUnneededNode (NtbrNode (ntbr kv.2)) (removalThreshold kv.2).

(** The cached list is the list of the tracked nodes. *)
Definition cache_ok n : Prop :=
  match cachedList n with
  | Some l => l ≡ₚ list_entry <$> map_to_list (byName n)
  | None => True
  end.

Lemma threshold_since env v : since (lookupAndSetRemovalThreshold env v) = since v.
Proof. unfold lookupAndSetRemovalThreshold. by repeat case_match. Qed.

Lemma threshold_ntbr env v : ntbr (lookupAndSetRemovalThreshold env v) = ntbr v.
Proof. unfold lookupAndSetRemovalThreshold. by repeat case_match. Qed.

Lemma Update_since env n nodes ts name :
  tracked_since (Update env n nodes ts) name = life_step name (tracked_since n name) (UnUpdate env nodes ts).
Proof.
  unfold tracked_since, Update, updateInternalState. simpl.
  induction nodes as [|nn nodes IH] using rev_ind; [done|].
  rewrite foldl_app, fmap_app. simpl. unfold update_step at 1.
  destruct (decide (Name (NtbrNode nn) = name)) as [<-|Hne].
  - rewrite lookup_insert_eq, decide_True by (apply elem_of_app; right; left). simpl. f_equal.
    unfold newNode. destruct (byName n !! Name (NtbrNode nn)); by rewrite threshold_since.
  - rewrite lookup_insert_ne, IH by done. apply decide_ext.
    rewrite elem_of_app, list_elem_of_singleton. split; [by left|]. intros [?|?]; [done|congruence].
Qed.

Lemma AsList_spec n :
  cache_ok n → (AsList n).2 ≡ₚ list_entry <$> map_to_list (byName n) ∧
    cache_ok (AsList n).1 ∧ byName (AsList n).1 = byName n.
Proof.
  unfold cache_ok, AsList. destruct (cachedList n) as [l|] eqn:Hl; intros Hc; simpl.
  - by rewrite Hl.
  - rewrite (foldl_snoc_fmap list_entry), go_range_perm. by split_and!.
Qed.

Lemma unneeded_step_life n ev name :
  cache_ok n →
  cache_ok (unneeded_step n ev) ∧
  tracked_since (unneeded_step n ev) name = life_step name (tracked_since n name) ev.
Proof.
  intros Hc. destruct ev as [env nodes ts|x|env|]; simpl.
  - split; [done|apply Update_since].
  - split; [done|]. unfold tracked_since, Drop. simpl. rewrite lookup_delete. by case_decide.
  - split; [done|]. by unfold tracked_since, Clear.
  - destruct (AsList_spec n Hc) as (_ & Hc' & Hb). split; [done|]. unfold tracked_since. by rewrite Hb.
Qed.

Lemma unneeded_run_life name evs : ∀ n,
  cache_ok n →
  cache_ok (unneeded_run n evs) ∧
  tracked_since (unneeded_run n evs) name = life name (tracked_since n name) evs.
Proof.
  induction evs as [|ev evs IH]; intros n Hc; [done|].
  destruct (unneeded_step_life n ev name Hc) as [Hc' Hl]. simpl.
  destruct (IH _ Hc') as [Hc'' Hl']. split; [exact Hc''|]. unfold life in *. simpl. by rewrite <- Hl.
Qed.

(** After any history of updates, drops, clears and listings a node is tracked
    exactly while it is unneeded, with the time of the first update of the
    current streak: a node that stays unneeded keeps its timestamp, a node
    that was needed in between starts anew; and AsList always lists exactly
    the tracked nodes, its cache is never stale. *)
Theorem unneeded_since_exact evs :
  let n := unneeded_run NewNodes evs in
  (∀ name, tracked_since n name = life name None evs) ∧
  (AsList n).2 ≡ₚ list_entry <$> map_to_list (byName n).
Proof.
  cbv zeta. split.
  - intros name. exact (proj2 (unneeded_run_life name evs NewNodes I)).
  - apply AsList_spec. apply (unneeded_run_life "" evs NewNodes I).
Qed.

(** ** What one pass removes *)

Section pass.
Context (env : UnneededEnv) (DeletionsCount : string → Z) (ts : Z).

Definition in_pool (id : string) nn : Prop :=
  match NodeGroupForNode env (NtbrNode nn) with Ok (Some g) => Id g = id | _ => False end.
#[local] Instance in_pool_dec id nn : Decision (in_pool id nn).
Proof. unfold in_pool. repeat case_match; apply _. Defined.

(** Why a node may be removed now. *)
Definition removable v : Prop :=
  thresholdRetrievalFailed v = false ∧ HasNoScaleDownAnnotation (NtbrNode (ntbr v)) = false ∧
  (removalThreshold v ≤ 0 ∨ since v + removalThreshold v < ts) ∧
  ∃ g, NodeGroupForNode env (NtbrNode (ntbr v)) = Ok (Some g).

Lemma unremovableReason_NoReason v sizes tracker sizes' tracker' :
  unremovableReason env DeletionsCount v ts sizes tracker = (NoReason, sizes', tracker') →
  removable v ∧ ∃ g s, NodeGroupForNode env (NtbrNode (ntbr v)) = Ok (Some g) ∧
    sizes !! Id g = Some s ∧ MinSize g < s - DeletionsCount (Id g) ∧ sizes' = <[Id g := s - 1]> sizes.
Proof.
  unfold unremovableReason, removable. destruct (thresholdRetrievalFailed v); [done|].
  destruct (HasNoScaleDownAnnotation _); [done|].
  destruct ((0 <? removalThreshold v) && _) eqn:Hlong; [by case_match|].
  assert (removalThreshold v ≤ 0 ∨ since v + removalThreshold v < ts) as Hok.
  { destruct (Z.ltb_spec 0 (removalThreshold v)); [right|by left]. simpl in Hlong.
    by apply negb_false_iff, Z.ltb_lt in Hlong. }
  destruct (NodeGroupForNode env _) as [[g|]|]; [|done..]. unfold verifyMinSize.
  destruct (sizes !! Id g) as [s|] eqn:Hs; [|done].
  destruct (Z.leb_spec (s - DeletionsCount (Id g)) (MinSize g)); [done|].
  destruct (ConsumeQuota _ _ _ _ _ _) as [tr [res|]]; [|done].
  destruct (Exceeded res); [done|]. intros [= <- <-]. simpl.
  split; [by eauto|]. by exists g, s.
Qed.

Lemma unremovableReason_sizes v sizes tracker reason sizes' tracker' :
  unremovableReason env DeletionsCount v ts sizes tracker = (reason, sizes', tracker') →
  reason ≠ NoReason → sizes' = sizes.
Proof.
  unfold unremovableReason. intros H Hr. revert H. repeat case_match; intros; simplify_eq; done.
Qed.


(** The invariant of the loops: [prev] are the nodes of the earlier loop. *)
Record removal_inv (sizes0 : gmap string Z) (prev : list NodeToBeRemoved) (st : removal) : Prop := {
  rv_sizes : ∀ id, rm_sizes st !! id =
    (λ s, s - ⟪ filter (in_pool id) (prev ++ rm_chosen st) ⟫) <$> sizes0 !! id;
  rv_min : ∀ x, x ∈ prev ++ rm_chosen st → ∃ g s,
    NodeGroupForNode env (NtbrNode x) = Ok (Some g) ∧ rm_sizes st !! Id g = Some s ∧
    MinSize g ≤ s - DeletionsCount (Id g)
}.

Definition same_minimum : Prop := ∀ x y g h,
  NodeGroupForNode env x = Ok (Some g) → NodeGroupForNode env y = Ok (Some h) →
  Id g = Id h → MinSize g = MinSize h.

Lemma removal_step_inv sizes0 prev st kv :
  same_minimum → removal_inv sizes0 prev st →
  removal_inv sizes0 prev (removal_step env DeletionsCount ts st kv).
Proof.
  intros Hmin [Hs Hm]. destruct st as [chosen unr sizes tracker]. simpl in *.
  destruct (unremovableReason env DeletionsCount kv.2 ts sizes tracker) as [[reason sizes'] tracker'] eqn:Hr.
  destruct (decide (reason = NoReason)) as [->|Hne].
  2:{ pose proof (unremovableReason_sizes _ _ _ _ _ _ Hr Hne) as ->. destruct reason; [done|split; done..]. }
  apply unremovableReason_NoReason in Hr as (_ & g & s & Hg & Hsz & Hlt & ->).
  assert (∀ id, length (filter (in_pool id) (prev ++ chosen ++ [ntbr kv.2])) =
    (length (filter (in_pool id) (prev ++ chosen)) + if decide (Id g = id) then 1 else 0)%nat) as Hlen.
  { intros id. rewrite app_assoc, filter_app, length_app, filter_cons, filter_nil. f_equal.
    assert (in_pool id (ntbr kv.2) ↔ Id g = id) as Hiff by (unfold in_pool; by rewrite Hg).
    destruct (decide (in_pool id (ntbr kv.2))), (decide (Id g = id)); tauto. }
  split; simpl.
  - intros id. rewrite Hlen, lookup_insert. destruct (decide (Id g = id)) as [<-|].
    + specialize (Hs (Id g)). rewrite Hsz in Hs. destruct (sizes0 !! Id g); [|done].
      injection Hs as ->. simpl. f_equal. lia.
    + rewrite Hs. by rewrite Nat.add_0_r.
  - intros x. rewrite app_assoc, elem_of_app, list_elem_of_singleton. intros [Hx| ->].
    + destruct (Hm x Hx) as (h & s' & Hh & Hs' & Hle). exists h.
      destruct (decide (Id g = Id h)) as [Heq|Hneq].
      * exists (s - 1). rewrite <- Heq, lookup_insert_eq. split_and!; [done|done|].
        rewrite (Hmin _ _ _ _ Hh Hg (eq_sym Heq)). lia.
      * exists s'. by rewrite lookup_insert_ne.
    + exists g, (s - 1). rewrite lookup_insert_eq. split_and!; [done|done|lia].
Qed.

Lemma removal_loop_inv sizes0 prev st l :
  same_minimum → removal_inv sizes0 prev st →
  removal_inv sizes0 prev (foldl (removal_step env DeletionsCount ts) st l).
Proof. intros Hmin Hst. apply foldl_inv; [done|]. intros s kv _ Hs. by apply removal_step_inv. Qed.

(** C24. One pass never takes a node group below its minimal size: the target size
    of the group of every chosen node, less the deletions in progress and
    less all nodes of the group chosen in this pass, is at least the minimum,
    in whatever order the nodes are visited. *)
Theorem removable_keeps_min_size n tracker :
  same_minimum →
  let '(empty, needDrain, _, _) := RemovableAt env n DeletionsCount tracker ts in
  ∀ x, x ∈ empty ++ needDrain → ∃ g size,
    NodeGroupForNode env (NtbrNode x) = Ok (Some g) ∧
    GetNodeGroupSizeMap (UnNodeGroups env) !! Id g = Some size ∧
    MinSize g ≤ size - DeletionsCount (Id g) -
      ⟪ filter (in_pool (Id g)) (empty ++ needDrain) ⟫.
Proof.
  intros Hmin. unfold RemovableAt. set (sizes0 := GetNodeGroupSizeMap _).
  destruct (splitEmptyAndNonEmptyNodes n) as [emptyNodes drainNodes].
  assert (removal_inv sizes0 [] (mkRemoval [] [] sizes0 tracker)) as H0.
  { split; simpl; [|set_solver]. intros id. destruct (sizes0 !! id); simpl; [f_equal; lia|done]. }
  pose proof (removal_loop_inv sizes0 [] _ (go_range emptyNodes) Hmin H0) as H1.
  destruct (foldl _ _ (go_range emptyNodes)) as [empty unr sizes1 tracker1].
  assert (removal_inv sizes0 empty (mkRemoval [] unr sizes1 tracker1)) as H2
    by (destruct H1 as [Hs Hm]; split; simpl in *; intros; rewrite app_nil_r in *; auto).
  pose proof (removal_loop_inv sizes0 empty _ (go_range drainNodes) Hmin H2) as [Hs Hm].
  destruct (foldl _ _ (go_range drainNodes)) as [needDrain unr' sizes2 tracker2]. simpl in *.
  intros x Hx. destruct (Hm x Hx) as (g & s & Hg & Hsz & Hle). rewrite Hs in Hsz.
  destruct (sizes0 !! Id g) as [size|] eqn:Hsize; [|done]. injection Hsz as <-.
  exists g, size. split_and!; [done|done|lia].
Qed.

(** ** Every tracked node is decided once *)

Lemma removal_loop_partition l : ∀ st,
  let st' := foldl (removal_step env DeletionsCount ts) st l in
  ∃ chosen rejected,
    rm_chosen st' = rm_chosen st ++ (ntbr <$> chosen) ∧
    UrNode <$> rm_unremovable st' = (UrNode <$> rm_unremovable st) ++ ((NtbrNode ∘ ntbr) <$> rejected) ∧
    chosen ++ rejected ≡ₚ l.*2 ∧ Forall removable chosen.
Proof.
  induction l as [|kv l IH]; intros st; simpl.
  { exists [], []. by rewrite !app_nil_r. }
  destruct (IH (removal_step env DeletionsCount ts st kv)) as (chosen & rejected & Hc & Hr & Hp & Hf).
  destruct st as [ch unr sizes tracker]. simpl in *.
  destruct (unremovableReason env DeletionsCount kv.2 ts sizes tracker) as [[reason sizes'] tracker'] eqn:Hreason.
  destruct (decide (reason = NoReason)) as [->|Hne].
  - exists (kv.2 :: chosen), rejected. simpl in *. rewrite Hc, <- app_assoc. split_and!; [done|done|by rewrite <- Hp|].
    constructor; [|done]. by apply unremovableReason_NoReason in Hreason as [? _].
  - exists chosen, (kv.2 :: rejected).
    assert (∃ s, removal_step env DeletionsCount ts (mkRemoval ch unr sizes tracker) kv = s ∧
      rm_chosen s = ch ∧ rm_unremovable s = unr ++ [mkUnremovable (NtbrNode (ntbr kv.2)) reason None])
      as (s & Hs & Hs1 & Hs2).
    { unfold removal_step. rewrite Hreason. eexists. split; [reflexivity|]. by destruct reason. }
    unfold removal_step in Hs. rewrite Hreason in Hs. rewrite Hs in Hc, Hr |- *.
    rewrite Hc, Hr, Hs1, Hs2, fmap_app, <- app_assoc. split_and!; [done|done| |done].
    rewrite <- Hp. symmetry. apply Permutation_middle.
Qed.


Lemma split_loop l :
  NoDup l.*1 →
  let '(e, d) := foldl (λ en kv,
    match PodsToReschedule (ntbr kv.2) with
    | [] => (<[kv.1 := kv.2]> en.1, en.2)
    | _ => (en.1, <[kv.1 := kv.2]> en.2)
    end) (∅ : gmap string node, ∅ : gmap string node) l in
  map_to_list e ++ map_to_list d ≡ₚ l ∧
  map_Forall (λ _ v, PodsToReschedule (ntbr v) = []) e ∧
  map_Forall (λ _ v, PodsToReschedule (ntbr v) ≠ []) d.
Proof.
  induction l as [|[k v] l IH] using rev_ind; intros Hnd.
  { split_and!; [by rewrite map_to_list_empty|apply map_Forall_empty..]. }
  rewrite fmap_app, NoDup_app in Hnd. destruct Hnd as (Hnd & Hdis & _). specialize (IH Hnd).
  rewrite foldl_app. destruct (foldl _ _ l) as [e d]. destruct IH as (Hp & He & Hd). simpl.
  assert (∀ m : gmap string node, map_to_list m ⊆ map_to_list e ++ map_to_list d → m !! k = None) as Hfresh.
  { intros m Hm. apply eq_None_not_Some. intros [w Hw]. apply elem_of_map_to_list, Hm in Hw.
    rewrite Hp in Hw. apply (Hdis k); [|left]. by apply (list_elem_of_fmap_2 fst l (k, w)). }
  destruct (PodsToReschedule (ntbr v)) eqn:Hpods; simpl.
  - rewrite map_to_list_insert by (apply Hfresh; set_solver). split_and!; [|by apply map_Forall_insert_2|done].
    rewrite <- Hp. solve_Permutation.
  - rewrite map_to_list_insert by (apply Hfresh; set_solver).
    split_and!; [|done|apply map_Forall_insert_2; [by rewrite Hpods|done]].
    rewrite <- Hp. solve_Permutation.
Qed.

Lemma splitEmptyAndNonEmptyNodes_spec n :
  let '(e, d) := splitEmptyAndNonEmptyNodes n in
  (go_range e).*2 ++ (go_range d).*2 ≡ₚ (map_to_list (byName n)).*2 ∧
  Forall (λ v, PodsToReschedule (ntbr v) = []) (go_range e).*2 ∧
  Forall (λ v, PodsToReschedule (ntbr v) ≠ []) (go_range d).*2.
Proof.
  pose proof (split_loop (go_range (byName n)) (NoDup_go_range_fst _)) as H.
  unfold splitEmptyAndNonEmptyNodes. destruct (foldl _ _ _) as [e d]. destruct H as (Hp & He & Hd).
  split_and!.
  - rewrite !go_range_perm, <- fmap_app, Hp. by rewrite go_range_perm.
  - apply Forall_fmap, Forall_forall. intros [k v] Hin%elem_of_go_range. exact (He _ _ Hin).
  - apply Forall_fmap, Forall_forall. intros [k v] Hin%elem_of_go_range. exact (Hd _ _ Hin).
Qed.

Lemma RemovableAt_decides n tracker :
  let '(empty, needDrain, unremovable, _) := RemovableAt env n DeletionsCount tracker ts in
  ∃ ce cd rejected,
    empty = ntbr <$> ce ∧ needDrain = ntbr <$> cd ∧
    UrNode <$> unremovable = (NtbrNode ∘ ntbr) <$> rejected ∧
    ce ++ cd ++ rejected ≡ₚ (map_to_list (byName n)).*2 ∧ Forall removable (ce ++ cd) ∧
    Forall (λ v, PodsToReschedule (ntbr v) = []) ce ∧
    Forall (λ v, PodsToReschedule (ntbr v) ≠ []) cd.
Proof.
  unfold RemovableAt. pose proof (splitEmptyAndNonEmptyNodes_spec n) as Hsplit.
  destruct (splitEmptyAndNonEmptyNodes n) as [e d]. destruct Hsplit as (Hp & He & Hd).
  destruct (removal_loop_partition (go_range e)
    (mkRemoval [] [] (GetNodeGroupSizeMap (UnNodeGroups env)) tracker)) as (ce & re & Hc1 & Hr1 & Hp1 & Hf1).
  destruct (foldl _ _ (go_range e)) as [empty unr sizes1 tracker1]. simpl in *.
  destruct (removal_loop_partition (go_range d) (mkRemoval [] unr sizes1 tracker1))
    as (cd & rd & Hc2 & Hr2 & Hp2 & Hf2).
  destruct (foldl _ _ (go_range d)) as [needDrain unr' sizes2 tracker2]. simpl in *.
  exists ce, cd, (re ++ rd). rewrite Hr2, Hr1, fmap_app. split_and!; [done..| | | |].
  - rewrite <- Hp, <- Hp1, <- Hp2. solve_Permutation.
  - by apply Forall_app.
  - rewrite <- Hp1 in He. by apply Forall_app in He as [? _].
  - rewrite <- Hp2 in Hd. by apply Forall_app in Hd as [? _].
Qed.

(** One pass decides about every tracked node exactly once: it is returned
    among the empty nodes, among the nodes to drain or among the unremovable
    ones; the returned nodes were unneeded for longer than their threshold,
    are not protected by the scale-down annotation and belong to a node
    group; the empty ones have no pod to move, the others have one. *)
Theorem removable_decides_all n tracker :
  let '(empty, needDrain, unremovable, _) := RemovableAt env n DeletionsCount tracker ts in
  ∃ ce cd rejected,
    empty = ntbr <$> ce ∧ needDrain = ntbr <$> cd ∧
    UrNode <$> unremovable = (NtbrNode ∘ ntbr) <$> rejected ∧
    ce ++ cd ++ rejected ≡ₚ (map_to_list (byName n)).*2 ∧ Forall removable (ce ++ cd) ∧
    Forall (λ v, PodsToReschedule (ntbr v) = []) ce ∧
    Forall (λ v, PodsToReschedule (ntbr v) ≠ []) cd.
Proof. apply RemovableAt_decides. Qed.
End pass.


(** ** Recently unremovable nodes *)

Inductive unremovable_event : Type :=
| UrAdd (x : UnremovableNode)
| UrAddTimeout (x : UnremovableNode) (timeout : Z)
| UrAddReason (x : Node) (reason : UnremovableReason)
| UrUpdate (known : string → bool) (timestamp : Z).

Definition unremovable_step (u : UnremovableNodes) (ev : unremovable_event) : UnremovableNodes :=
  match ev with
  | UrAdd x => Add u x
  | UrAddTimeout x timeout => AddTimeout u x timeout
  | UrAddReason x reason => AddReason u x reason
  | UrUpdate known timestamp => unremovable_Update u known timestamp
  end.

(** One node: until when it is unremovable, and why. *)
Definition verdict_step (name : string) (o : option Z * option UnremovableNode)
    (ev : unremovable_event) : option Z * option UnremovableNode :=
  match ev with
  | UrAdd x => (o.1, if decide (Name (UrNode x) = name) then Some x else o.2)
  | UrAddTimeout x timeout => if decide (Name (UrNode x) = name) then (Some timeout, Some x) else o
  | UrAddReason x reason =>
      (o.1, if decide (Name x = name) then Some (mkUnremovable x reason None) else o.2)
  | UrUpdate known timestamp =>
      (match o.1 with
       | Some t => if known name && (timestamp <? t) then Some t else None
       | None => None
       end, None)
  end.

Lemma lookup_unremovable_Update u known timestamp name :
  ttls (unremovable_Update u known timestamp) !! name =
  match ttls u !! name with
  | Some t => if known name && (timestamp <? t) then Some t else None
  | None => None
  end.
Proof.
  unfold unremovable_Update. case_bool_decide as Hsize; simpl.
  { assert (ttls u = ∅) as -> by (apply map_size_empty_iff; lia). by rewrite lookup_empty. }
  pose proof (lookup_range_partial_alter (λ k t (o : option Z),
    if known k && (timestamp <? t) then Some t else o) (ttls u) ∅ name) as H.
  etransitivity; [|etransitivity; [exact H|]].
  - f_equal. apply foldl_ext'; [|done]. intros m [k t]. simpl.
    apply map_eq. intros j. rewrite lookup_partial_alter.
    destruct (known k); simpl; [destruct (timestamp <? t)|]; rewrite ?lookup_insert;
      case_decide; by subst.
  - destruct (ttls u !! name) as [t|]; rewrite ?lookup_empty; done.
Qed.

(** After any history a node counts as recently unremovable exactly while the
    timeout of its last report lies in the future of every update since, and
    the snapshot of every such update has the node; a reason is known exactly
    for the nodes reported since the last update. *)
Theorem unremovable_verdicts_exact evs name :
  let u := foldl unremovable_step unremovable_NewNodes evs in
  (ttls u !! name, reasons u !! name) = foldl (verdict_step name) (None, None) evs.
Proof.
  cbv zeta. induction evs as [|ev evs IH] using rev_ind; [done|].
  rewrite !foldl_app. simpl. rewrite <- IH. set (u := foldl unremovable_step _ evs).
  destruct ev as [x|x t|x r|known ts']; simpl.
  - f_equal. rewrite lookup_insert. by case_decide.
  - rewrite !lookup_insert. by case_decide.
  - f_equal. rewrite lookup_insert. by case_decide.
  - f_equal; [apply lookup_unremovable_Update|]. unfold unremovable_Update. by case_bool_decide.
Qed.
End unneeded.

(** Three unneeded nodes of a group of five with a minimum of three, one
    deletion in progress: one node may go. *)
Module UnneededExample.
Definition pool : NodeGroup := mkNodeGroup "pool" 3 10 (Ok 5) (Ok []) (λ _, (None, None)).
Definition env : UnneededEnv :=
  mkUnneededEnv [pool] (λ _, Ok (Some pool)) (λ _, Ok 600) (λ _, Ok 1200).
Definition candidate (name : string) (pods : list nat) : NodeToBeRemoved (Pod := nat) :=
  mkNtbr (mkNode name name ∅ ∅ [] false 0 [mkCondition "Ready" ConditionTrue "" 0]) false pods [] [].
Definition nodes : Nodes (Pod := nat) :=
  Update env NewNodes [candidate "a" []; candidate "b" []; candidate "c" [7%nat]] 0.
Definition removed : list string :=
  let '(empty, drain, _, _) :=
    RemovableAt (BlockingPod := nat) QuotaExample.capacity QuotaExample.targets env nodes (λ _, 1)
      (mkTracker [] ∅) 1000 in
  (λ x, Name (NtbrNode x)) <$> (empty ++ drain).
End UnneededExample.

Lemma removable_keeps_min_size_witness :
  length UnneededExample.removed = 1%nat ∧
  let '(empty, drain, _, _) :=
    RemovableAt (BlockingPod := nat) QuotaExample.capacity QuotaExample.targets UnneededExample.env
      UnneededExample.nodes (λ _, 1) (mkTracker [] ∅) 1000 in
  ∀ x, x ∈ empty ++ drain → ∃ g size, Id g = "pool" ∧ size = 5 ∧ MinSize g ≤ size - 1 - 1.
Proof.
  split; [vm_compute; reflexivity|].
  pose proof (removable_keeps_min_size (BlockingPod := nat) QuotaExample.capacity QuotaExample.targets
    UnneededExample.env (λ _, 1) 1000 UnneededExample.nodes (mkTracker [] ∅)) as H.
  assert (same_minimum UnneededExample.env) as Hmin
    by (intros x y g h Hg Hh _; injection Hg as <-; injection Hh as <-; reflexivity).
  specialize (H Hmin).
  destruct (RemovableAt _ _ _ _ _ _) as [[[empty drain] unr] tr].
  intros x Hx. destruct (H x Hx) as (g & size & Hg & Hs & _). injection Hg as <-.
  injection Hs as <-. exists UnneededExample.pool, 5. simpl. split_and!; [done|done|lia].
Defined.
