(* ===== verification/Equivalence.v ===== *)
(** Pod equivalence groups of a scale-up
    (src/pkg/core/scaleup/equivalence/groups.go) and the comparison of pod
    specs they use (src/pkg/utils/utils.go). Pod specs are passed by value, but
    their containers live in arrays shared with the caller, so the comparison
    is modelled over a store of container arrays. *)
From stdpp Require Import prelude gmap strings list numbers fin_maps.
From S2P Require Import Prelude.

(** ** Pod specs *)

Section specs.
(** The fields of containers, volumes and specs nothing here looks into. *)
Context {EnvVar MountData VolumeData ContainerData SpecData : Type}.

Record VolumeMount : Type := mkMount { MountName : string; mount_data : MountData }.
Record Volume : Type := mkVolume { VolumeName : string; Projected : bool; volume_data : VolumeData }.
Record Container : Type := mkContainer {
  Env : list EnvVar;
  VolumeMounts : list VolumeMount;
  container_data : ContainerData
}.

(** [apiv1.PodSpec]: a slice of containers is the location of its array, or
    [None] when it is nil. *)
Record PodSpec : Type := mkSpec {
  Volumes : list Volume;
  Containers : option nat;
  InitContainers : option nat;
  Hostname : string;
  spec_data : SpecData
}.

(** A spec with its containers, as a deep comparison sees it. *)
Record SpecValue : Type := mkValue {
  v_volumes : list Volume;
  v_containers : list Container;
  v_init : list Container;
  v_hostname : string;
  v_data : SpecData
}.

Implicit Types (h : gmap nat (list Container)) (spec : PodSpec) (c : Container).

Definition array h (slice : option nat) : list Container :=
  match slice with Some l => default [] (h !! l) | None => [] end.

Definition value h spec : SpecValue :=
  mkValue (Volumes spec) (array h (Containers spec)) (array h (InitContainers spec))
    (Hostname spec) (spec_data spec).

(** [for i := range s { s[i] = f(s[i]) }]. *)
Definition update_array h (slice : option nat) (f : Container → Container) : gmap nat (list Container) :=
  match slice with
  | Some l => <[l := f <$> default [] (h !! l)]> h
  | None => h
  end.

Definition drop_mounts (names : gset string) c : Container :=
  mkContainer (Env c)
    (foldl (λ mounts m, if bool_decide (MountName m ∈ names) then mounts else mounts ++ [m])
       [] (VolumeMounts c)) (container_data c).

Definition dropProjectedVolumesAndMounts h spec : gmap nat (list Container) * PodSpec :=
  let '(volumes, projectedVolumeNames) :=
    foldl (λ (st : list Volume * gset string) v,
      if Projected v then (st.1, {[VolumeName v]} ∪ st.2) else (st.1 ++ [v], st.2))
      ([], ∅) (Volumes spec) in
  let h := update_array h (Containers spec) (drop_mounts projectedVolumeNames) in
  let h := update_array h (InitContainers spec) (drop_mounts projectedVolumeNames) in
  (h, mkSpec volumes (Containers spec) (InitContainers spec) (Hostname spec) (spec_data spec)).

Definition dropHostname spec : PodSpec :=
  mkSpec (Volumes spec) (Containers spec) (InitContainers spec) "" (spec_data spec).

Definition no_env c : Container := mkContainer [] (VolumeMounts c) (container_data c).

Definition dropEnv h spec : gmap nat (list Container) :=
  update_array (update_array h (Containers spec) no_env) (InitContainers spec) no_env.

Definition sanitizePodSpec h spec : gmap nat (list Container) * PodSpec :=
  let '(h, spec) := dropProjectedVolumesAndMounts h spec in
  let spec := dropHostname spec in
  (dropEnv h spec, spec).

(** [apiequality.Semantic.DeepEqual] on pod specs. *)
Context (DeepEqual : SpecValue → SpecValue → bool).

Definition PodSpecSemanticallyEqual h (p1 p2 : PodSpec) : gmap nat (list Container) * bool :=
  let '(h, p1Spec) := sanitizePodSpec h p1 in
  let '(h, p2Spec) := sanitizePodSpec h p2 in
  (h, DeepEqual (value h p1Spec) (value h p2Spec)).

(** ** Grouping *)

Record OwnerReference : Type := mkOwner { OwnerUID : string; OwnerKind : string }.

Record Pod : Type := mkPod {
  PodLabels : gmap string string;
  PodAnnotations : gmap string string;
  (** the owner reference marked as controller, [metav1.GetControllerOf] *)
  ControllerRef : option OwnerReference;
  Spec : PodSpec
}.

Definition DaemonSetPodAnnotationKey : string := "cluster-autoscaler.kubernetes.io/daemonset-pod".

Definition IsDaemonSetPod (pod : Pod) : bool :=
  match ControllerRef pod with
  | Some ref => bool_decide (OwnerKind ref = "DaemonSet")
  | None => false
  end || bool_decide (PodAnnotations pod !! DaemonSetPodAnnotationKey = Some "true").

Record equivalenceGroup : Type := mkGroup { eg_id : nat; representant : Pod }.

Definition maxEquivalenceGroupsByController : nat := 10.

Fixpoint match_ h (egs : list equivalenceGroup) (pod : Pod) : gmap nat (list Container) * option nat :=
  match egs with
  | [] => (h, None)
  | g :: egs' =>
      if bool_decide (PodLabels pod = PodLabels (representant g)) then
        match PodSpecSemanticallyEqual h (Spec pod) (Spec (representant g)) with
        | (h, true) => (h, Some (eg_id g))
        | (h, false) => match_ h egs' pod
        end
      else match_ h egs' pod
  end.

(** The variables of the loop, with the store of containers. *)
Record grouping : Type := mkGrouping {
  podEquivalenceGroups : gmap nat (list Pod);
  equivalenceGroupsByController : gmap string (list equivalenceGroup);
  nextGroupId : nat;
  containers : gmap nat (list Container)
}.

Definition group_pod (st : grouping) (pod : Pod) : grouping :=
  let '(mkGrouping groups byController next h) := st in
  match ControllerRef pod with
  | Some ref =>
      if IsDaemonSetPod pod then mkGrouping (<[next := [pod]]> groups) byController (S next) h
      else
        let egs := default [] (byController !! OwnerUID ref) in
        match match_ h egs pod with
        | (h, Some gid) => mkGrouping (<[gid := default [] (groups !! gid) ++ [pod]]> groups)
                             byController next h
        | (h, None) =>
            let byController :=
              if bool_decide (length egs < maxEquivalenceGroupsByController)
              then <[OwnerUID ref := egs ++ [mkGroup next pod]]> byController else byController in
            mkGrouping (<[next := default [] (groups !! next) ++ [pod]]> groups) byController (S next) h
        end
  | None => mkGrouping (<[next := [pod]]> groups) byController (S next) h
  end.

Definition groupPodsBySchedulingProperties h (pods : list Pod) : grouping :=
  foldl group_pod (mkGrouping ∅ ∅ 0 h) pods.

(** [PodGroup]; scheduling errors map a node group to its reasons. *)
Context {Reasons : Type}.
Record PodGroup : Type := mkPodGroup {
  GroupPods : list Pod;
  SchedulingErrors : gmap string Reasons;
  SchedulableGroups : option (list string);
  Schedulable : bool
}.

Context `{GR : GoRange}.

Definition BuildPodGroups h (pods : list Pod) : gmap nat (list Container) * list PodGroup :=
  let st := groupPodsBySchedulingProperties h pods in
  (containers st,
   foldl (λ l kv, l ++ [mkPodGroup kv.2 ∅ None false]) [] (go_range (podEquivalenceGroups st))).

Definition PodGroup_Clone (eg : option PodGroup) : option PodGroup :=
  match eg with
  | None => None
  | Some eg =>
      let clonedErrors := foldl (λ m kv, <[kv.1 := kv.2]> m) ∅ (go_range (SchedulingErrors eg)) in
      Some (mkPodGroup (GroupPods eg) clonedErrors (SchedulableGroups eg) (Schedulable eg))
  end.


(** ** What the comparison compares *)

Definition projected_names spec : gset string :=
  (foldl (λ (st : list Volume * gset string) v,
      if Projected v then (st.1, {[VolumeName v]} ∪ st.2) else (st.1 ++ [v], st.2))
      ([], ∅) (Volumes spec)).2.

Definition kept_volumes spec : list Volume :=
  (foldl (λ (st : list Volume * gset string) v,
      if Projected v then (st.1, {[VolumeName v]} ∪ st.2) else (st.1 ++ [v], st.2))
      ([], ∅) (Volumes spec)).1.

(** A container without environment and without mounts of projected volumes. *)
Definition strip (names : gset string) c : Container := no_env (drop_mounts names c).

(** The part of a spec the comparison looks at. *)
Definition clean h spec : SpecValue :=
  mkValue (kept_volumes spec) (strip (projected_names spec) <$> array h (Containers spec))
    (strip (projected_names spec) <$> array h (InitContainers spec)) "" (spec_data spec).

Lemma drop_mounts_filter names c :
  VolumeMounts (drop_mounts names c) = filter (λ m, MountName m ∉ names) (VolumeMounts c).
Proof.
  unfold drop_mounts. simpl. induction (VolumeMounts c) as [|m l IH] using rev_ind; [done|].
  rewrite foldl_app, filter_app, filter_cons, filter_nil. simpl. rewrite IH.
  case_bool_decide; [rewrite decide_False by tauto; by rewrite app_nil_r|by rewrite decide_True].
Qed.

Lemma no_env_mounts c : VolumeMounts (no_env c) = VolumeMounts c.
Proof. done. Qed.

Lemma drop_mounts_idemp names c :
  VolumeMounts (drop_mounts names (no_env (drop_mounts names c))) = VolumeMounts (drop_mounts names c) ∧
  VolumeMounts (drop_mounts names (drop_mounts names c)) = VolumeMounts (drop_mounts names c).
Proof.
  rewrite !drop_mounts_filter, no_env_mounts, drop_mounts_filter, list_filter_filter.
  split; apply list_filter_iff; tauto.
Qed.

Lemma strip_idemp names c : strip names (strip names c) = strip names c.
Proof. unfold strip, no_env at 1 3. f_equal. apply drop_mounts_idemp. Qed.

Lemma strip_parts names c :
  no_env (no_env (drop_mounts names (drop_mounts names c))) = strip names c.
Proof. unfold strip, no_env at 1 3. f_equal. rewrite no_env_mounts. apply drop_mounts_idemp. Qed.

Lemma lookup_update_array h s f l :
  update_array h s f !! l = if decide (s = Some l) then Some (f <$> default [] (h !! l)) else h !! l.
Proof.
  destruct s as [k|]; cbn [update_array]; [|by rewrite decide_False].
  rewrite lookup_insert. destruct (decide (k = l)) as [->|Hne].
  - by rewrite decide_True.
  - by rewrite decide_False by congruence.
Qed.

Definition owns spec (l : nat) : Prop := Containers spec = Some l ∨ InitContainers spec = Some l.
#[local] Instance owns_dec spec l : Decision (owns spec l).
Proof. unfold owns. apply _. Defined.

Lemma sanitize_store h spec l :
  (sanitizePodSpec h spec).1 !! l =
  if decide (owns spec l) then Some (strip (projected_names spec) <$> default [] (h !! l)) else h !! l.
Proof.
  unfold sanitizePodSpec, dropProjectedVolumesAndMounts, projected_names.
  destruct (foldl _ _ (Volumes spec)) as [volumes names]. unfold dropEnv. simpl.
  rewrite !lookup_update_array. unfold owns.
  destruct (decide (Containers spec = Some l)) as [Hc|Hc], (decide (InitContainers spec = Some l)) as [Hi|Hi];
    [rewrite decide_True by tauto|rewrite decide_True by tauto|rewrite decide_True by tauto|
     rewrite decide_False by tauto; done];
    simpl; f_equal; rewrite <- !list_fmap_compose; apply list_fmap_ext; intros i c _; simpl;
    [apply strip_parts|done|done].
Qed.

Lemma sanitize_spec h spec :
  (sanitizePodSpec h spec).2 =
  mkSpec (kept_volumes spec) (Containers spec) (InitContainers spec) "" (spec_data spec).
Proof.
  unfold sanitizePodSpec, dropProjectedVolumesAndMounts, kept_volumes.
  by destruct (foldl _ _ (Volumes spec)) as [volumes names].
Qed.

Lemma sanitize_array h spec s :
  array (sanitizePodSpec h spec).1 s =
  match s with
  | Some l => if decide (owns spec l) then strip (projected_names spec) <$> array h s else array h s
  | None => []
  end.
Proof. destruct s as [l|]; [|done]. simpl. rewrite sanitize_store. by case_decide. Qed.

(** Two specs are one spec or have no array in common. *)
Definition separate spec1 spec2 : Prop := spec1 = spec2 ∨ ∀ l, owns spec1 l → ¬ owns spec2 l.

Lemma sanitize_strip_array h spec1 spec2 s :
  separate spec1 spec2 → (∀ l, s = Some l → owns spec2 l) →
  strip (projected_names spec2) <$> array (sanitizePodSpec h spec1).1 s =
  strip (projected_names spec2) <$> array h s.
Proof.
  intros Hsep Hs. rewrite sanitize_array. destruct s as [l|]; [|done]. case_decide as Ho; [|done].
  destruct Hsep as [->|Hsep]; [|destruct (Hsep l Ho); by apply Hs].
  rewrite <- list_fmap_compose. apply list_fmap_ext. intros; apply strip_idemp.
Qed.

Lemma sanitize_clean h spec1 spec2 :
  separate spec1 spec2 → clean (sanitizePodSpec h spec1).1 spec2 = clean h spec2.
Proof.
  intros Hsep. unfold clean. by rewrite !sanitize_strip_array by (done || unfold owns; auto).
Qed.

Lemma sanitize_own_array h spec s :
  (∀ l, s = Some l → owns spec l) →
  array (sanitizePodSpec h spec).1 s = strip (projected_names spec) <$> array h s.
Proof.
  intros Hs. rewrite sanitize_array. destruct s as [l|]; [|done]. by rewrite decide_True by auto.
Qed.

Lemma sanitize_value h spec :
  value (sanitizePodSpec h spec).1 (sanitizePodSpec h spec).2 = clean h spec.
Proof.
  unfold value, clean. rewrite sanitize_spec. simpl.
  by rewrite !sanitize_own_array by (unfold owns; auto).
Qed.

Lemma sanitize_other_array h spec1 spec2 s :
  separate spec2 spec1 → (∀ l, s = Some l → owns spec1 l) →
  array (sanitizePodSpec (sanitizePodSpec h spec1).1 spec2).1 s =
  strip (projected_names spec1) <$> array h s.
Proof.
  intros Hsep Hs. rewrite sanitize_array. destruct s as [l|]; [|done].
  rewrite sanitize_own_array by done. case_decide as Ho; [|done].
  destruct Hsep as [->|Hsep]; [|destruct (Hsep l Ho); by apply Hs].
  rewrite <- list_fmap_compose. apply list_fmap_ext. intros; apply strip_idemp.
Qed.

(** The comparison compares the clean specs and leaves them as they were, for
    the two pods and for every other one. *)
Lemma PodSpecSemanticallyEqual_spec h p1 p2 :
  separate p1 p2 → separate p2 p1 →
  (PodSpecSemanticallyEqual h p1 p2).2 = DeepEqual (clean h p1) (clean h p2) ∧
  ∀ s, separate p1 s → separate p2 s → clean (PodSpecSemanticallyEqual h p1 p2).1 s = clean h s.
Proof.
  intros H12 H21. unfold PodSpecSemanticallyEqual.
  pose proof (sanitize_clean h p1) as Hc1. pose proof (sanitize_spec h p1) as Hs1.
  pose proof (λ s, sanitize_other_array h p1 p2 s H21) as Ha.
  destruct (sanitizePodSpec h p1) as [h1 s1]. simpl in *. subst s1.
  pose proof (sanitize_value h1 p2) as Hv2. pose proof (sanitize_clean h1 p2) as Hc2.
  destruct (sanitizePodSpec h1 p2) as [h2 s2]. simpl in *. split.
  - rewrite Hv2, (Hc1 p2) by done. f_equal. unfold value, clean. simpl.
    by rewrite !Ha by (unfold owns; auto).
  - intros s Hs1 Hs2. by rewrite Hc2, Hc1.
Qed.


Lemma PodSpecSemanticallyEqual_store h p1 p2 l :
  owns p1 l ∨ owns p2 l →
  Forall (λ c, Env c = []) (default [] ((PodSpecSemanticallyEqual h p1 p2).1 !! l)).
Proof.
  intros Ho. unfold PodSpecSemanticallyEqual. pose proof (sanitize_store h p1 l) as H1.
  destruct (sanitizePodSpec h p1) as [h1 s1]. pose proof (sanitize_store h1 p2 l) as H2.
  destruct (sanitizePodSpec h1 p2) as [h2 s2]. simpl in *. rewrite H2.
  destruct (decide (owns p2 l)); [simpl; apply Forall_fmap, Forall_true; done|].
  rewrite H1, decide_True by tauto. simpl. apply Forall_fmap, Forall_true. done.
Qed.

(** Comparing two pod specs changes the pods it compares: sanitizePodSpec
    receives a copy of the spec, but the copy shares its containers with the
    caller, so after the comparison every container and init container of
    both pods has lost its environment variables. *)
Theorem comparison_erases_env h p1 p2 l c :
  owns p1 l ∨ owns p2 l → c ∈ default [] ((PodSpecSemanticallyEqual h p1 p2).1 !! l) → Env c = [].
Proof. intros Ho Hc. exact (Forall_elem (PodSpecSemanticallyEqual_store h p1 p2 l Ho) c Hc). Qed.

(** ** The groups *)

Section grouping.
Context (h0 : gmap nat (list Container)) (pods : list Pod)
  (Hsep : ∀ p q, p ∈ pods → q ∈ pods → separate (Spec p) (Spec q)).

(** Two pods that may share a group. *)
Definition same (q p : Pod) : bool :=
  bool_decide (PodLabels q = PodLabels p) && DeepEqual (clean h0 (Spec q)) (clean h0 (Spec p)).

(** The controller a pod is grouped by. *)
Definition controller (p : Pod) : option string :=
  if IsDaemonSetPod p then None else OwnerUID <$> ControllerRef p.

(** Comparisons so far have left the clean specs alone. *)
Definition agrees h : Prop := ∀ p, p ∈ pods → clean h (Spec p) = clean h0 (Spec p).

Definition first_match (egs : list equivalenceGroup) (pod : Pod) : option equivalenceGroup :=
  find (λ g, same pod (representant g)) egs.

Lemma match_spec pod egs : ∀ h,
  pod ∈ pods → Forall (λ g, representant g ∈ pods) egs → agrees h →
  agrees (match_ h egs pod).1 ∧ (match_ h egs pod).2 = eg_id <$> first_match egs pod.
Proof using Hsep.
  induction egs as [|g egs IH]; intros h Hpod Hegs Hag; simpl; [done|].
  apply Forall_cons in Hegs as [Hg Hegs]. unfold first_match. simpl. unfold same at 1.
  destruct (PodSpecSemanticallyEqual_spec h (Spec pod) (Spec (representant g))) as [Hres Hclean];
    [by apply Hsep..|].
  assert (agrees (PodSpecSemanticallyEqual h (Spec pod) (Spec (representant g))).1) as Hag'.
  { intros p Hp. rewrite Hclean by (by apply Hsep). by apply Hag. }
  destruct (PodSpecSemanticallyEqual h (Spec pod) (Spec (representant g))) as [h' b]. simpl in *.
  rewrite !Hag in Hres by done. rewrite <- Hres.
  case_bool_decide as Hl; simpl; [destruct b; simpl; [done|]|];
    (match goal with |- agrees (match_ ?hh _ _).1 ∧ _ => destruct (IH hh) as [H1 H2] end; [done..|]);
    by split.
Qed.

(** A group: its first pod, and pods of the same controller equal to it. *)
Definition group_ok (ps : list Pod) : Prop :=
  ∃ rep rest, ps = rep :: rest ∧
    Forall (λ q, same q rep = true ∧ controller q = controller rep ∧ is_Some (controller rep)) rest.

(** An entry of a controller's list: its group exists and starts with it. *)
Definition entry_ok (groups : gmap nat (list Pod)) (uid : string) (g : equivalenceGroup) : Prop :=
  representant g ∈ pods ∧ controller (representant g) = Some uid ∧
  ∃ rest, groups !! eg_id g = Some (representant g :: rest).

Record grouping_inv (done : list Pod) (st : grouping) : Prop := {
  gi_agrees : agrees (containers st);
  gi_next : ∀ i ps, podEquivalenceGroups st !! i = Some ps → i < nextGroupId st;
  gi_pods : concat (map_to_list (podEquivalenceGroups st)).*2 ≡ₚ done;
  gi_groups : map_Forall (λ _ ps, group_ok ps) (podEquivalenceGroups st);
  gi_entries : map_Forall (λ uid egs,
    length egs ≤ maxEquivalenceGroupsByController ∧
    Forall (entry_ok (podEquivalenceGroups st) uid) egs ∧
    (∀ i j g g', i < j → egs !! i = Some g → egs !! j = Some g' →
       same (representant g') (representant g) = false)) (equivalenceGroupsByController st);
  gi_shared : ∀ i rep q rest uid, podEquivalenceGroups st !! i = Some (rep :: q :: rest) →
    controller rep = Some uid →
    i ∈ eg_id <$> default [] (equivalenceGroupsByController st !! uid);
  gi_listed : ∀ i rep rest uid, podEquivalenceGroups st !! i = Some (rep :: rest) →
    controller rep = Some uid →
    length (default [] (equivalenceGroupsByController st !! uid)) < maxEquivalenceGroupsByController →
    i ∈ eg_id <$> default [] (equivalenceGroupsByController st !! uid)
}.


Lemma entries_insert_fresh (groups : gmap nat (list Pod)) i (p : Pod) :
  groups !! i = None →
  concat (map_to_list (<[i := [p]]> groups)).*2 ≡ₚ concat (map_to_list groups).*2 ++ [p].
Proof. intros Hi. rewrite map_to_list_insert by done. simpl. solve_Permutation. Qed.

Lemma entries_insert_snoc (groups : gmap nat (list Pod)) i ps (p : Pod) :
  groups !! i = Some ps →
  concat (map_to_list (<[i := ps ++ [p]]> groups)).*2 ≡ₚ concat (map_to_list groups).*2 ++ [p].
Proof.
  intros Hi. rewrite <- (insert_id groups i ps Hi) at 2. rewrite <- !(insert_delete_eq groups i).
  rewrite !map_to_list_insert by apply lookup_delete_eq. simpl. solve_Permutation.
Qed.

Lemma entry_ok_insert groups uid g i ps :
  (∀ rep rest, groups !! i = Some (rep :: rest) → ∃ rest', ps = rep :: rest') →
  entry_ok groups uid g → entry_ok (<[i := ps]> groups) uid g.
Proof.
  intros Hps (Hin & Hc & rest & Hg). split_and!; [done|done|].
  destruct (decide (i = eg_id g)) as [->|Hne].
  - rewrite lookup_insert_eq. destruct (Hps _ _ Hg) as [rest' ->]. by exists rest'.
  - rewrite lookup_insert_ne by done. by exists rest.
Qed.

Lemma entries_ok_insert groups (byc : gmap string (list equivalenceGroup)) i ps :
  (∀ rep rest, groups !! i = Some (rep :: rest) → ∃ rest', ps = rep :: rest') →
  map_Forall (λ uid egs,
    length egs ≤ maxEquivalenceGroupsByController ∧ Forall (entry_ok groups uid) egs ∧
    (∀ i j g g', i < j → egs !! i = Some g → egs !! j = Some g' →
       same (representant g') (representant g) = false)) byc →
  map_Forall (λ uid egs,
    length egs ≤ maxEquivalenceGroupsByController ∧ Forall (entry_ok (<[i := ps]> groups) uid) egs ∧
    (∀ i j g g', i < j → egs !! i = Some g → egs !! j = Some g' →
       same (representant g') (representant g) = false)) byc.
Proof.
  intros Hps Hbyc uid egs Hegs. destruct (Hbyc uid egs Hegs) as (Hlen & Hok & Hne).
  split_and!; [done| |done]. eapply Forall_impl; [exact Hok|]. intros g. by apply entry_ok_insert.
Qed.

Lemma inv_fresh done st : grouping_inv done st → podEquivalenceGroups st !! nextGroupId st = None.
Proof.
  intros Hinv. apply eq_None_not_Some. intros [ps Hps]. apply (gi_next _ _ Hinv) in Hps. lia.
Qed.

(** A pod that is on its own gets a fresh group. *)
Lemma inv_single done groups byc next h h' pod :
  controller pod = None → agrees h' →
  grouping_inv done (mkGrouping groups byc next h) →
  grouping_inv (done ++ [pod]) (mkGrouping (<[next := [pod]]> groups) byc (S next) h').
Proof.
  intros Hc Hag Hinv. pose proof (inv_fresh _ _ Hinv) as Hfresh. simpl in Hfresh.
  destruct Hinv as [_ Hnext Hpods Hgroups Hentries Hshared Hlisted]. simpl in *. split; simpl.
  - done.
  - intros i ps [[<- _]|[_ Hi]]%lookup_insert_Some; [lia|]. apply Hnext in Hi. lia.
  - by rewrite entries_insert_fresh, Hpods.
  - apply map_Forall_insert_2; [by exists pod, []|done].
  - apply entries_ok_insert; [|done]. by rewrite Hfresh.
  - intros i rep q rest uid [[_ [=]]|[_ Hi]]%lookup_insert_Some. by eapply Hshared.
  - intros i rep rest uid [[_ [= <- _]]|[_ Hi]]%lookup_insert_Some; [by rewrite Hc|]. by eapply Hlisted.
Qed.

(** A pod that matches a listed group joins it. *)
Lemma inv_join done groups byc next h h' pod uid egs g :
  controller pod = Some uid → agrees h' → byc !! uid = Some egs → g ∈ egs →
  same pod (representant g) = true →
  grouping_inv done (mkGrouping groups byc next h) →
  grouping_inv (done ++ [pod]) (mkGrouping (<[eg_id g := default [] (groups !! eg_id g) ++ [pod]]> groups)
    byc next h').
Proof.
  intros Hc Hag Hegs Hg Hsame Hinv.
  destruct Hinv as [_ Hnext Hpods Hgroups Hentries Hshared Hlisted]. simpl in *.
  destruct (Hentries _ _ Hegs) as (_ & Hok & _).
  destruct (Forall_elem Hok g Hg) as (Hrep & Hrc & rest & Hgr). rewrite Hgr. simpl.
  destruct (Hgroups _ _ Hgr) as (rep' & rest' & [= <- <-] & Hrest). split; simpl.
  - done.
  - intros i ps [[<- _]|[_ Hi]]%lookup_insert_Some; by eapply Hnext.
  - rewrite <- Hpods. by apply (entries_insert_snoc groups _ (representant g :: rest)).
  - apply map_Forall_insert_2; [|done]. exists (representant g), (rest ++ [pod]). split; [done|].
    apply Forall_app. split; [done|]. apply Forall_singleton. rewrite Hc, Hrc. by split_and!.
  - apply entries_ok_insert; [|done]. rewrite Hgr. intros r l [= <- _]. by eexists.
  - intros i rep q l uid' [[<- [= <- _]]|[_ Hi]]%lookup_insert_Some Huid; [|by eapply Hshared].
    rewrite Hrc in Huid. injection Huid as <-. rewrite Hegs. simpl. by apply list_elem_of_fmap_2.
  - intros i rep l uid' [[<- [= <- _]]|[_ Hi]]%lookup_insert_Some Huid Hlt; [|by eapply Hlisted].
    rewrite Hrc in Huid. injection Huid as <-. rewrite Hegs. simpl. by apply list_elem_of_fmap_2.
Qed.

(** A pod that matches no listed group starts one, listed while there is room. *)
Lemma inv_new done groups byc next h h' pod uid :
  pod ∈ pods → controller pod = Some uid → agrees h' →
  Forall (λ g, same pod (representant g) = false) (default [] (byc !! uid)) →
  grouping_inv done (mkGrouping groups byc next h) →
  grouping_inv (done ++ [pod]) (mkGrouping (<[next := [pod]]> groups)
    (if bool_decide (length (default [] (byc !! uid)) < maxEquivalenceGroupsByController)
     then <[uid := default [] (byc !! uid) ++ [mkGroup next pod]]> byc else byc) (S next) h').
Proof.
  intros Hpod Hc Hag Hno Hinv. pose proof (inv_fresh _ _ Hinv) as Hfresh. simpl in Hfresh.
  destruct Hinv as [_ Hnext Hpods Hgroups Hentries Hshared Hlisted]. simpl in *.
  set (egs := default [] (byc !! uid)) in *.
  set (byc' := if bool_decide _ then _ else byc).
  assert (∀ u, eg_id <$> default [] (byc !! u) ⊆ eg_id <$> default [] (byc' !! u)) as Hsub.
  { intros u. unfold byc'. case_bool_decide; [|done].
    destruct (decide (u = uid)) as [->|Hne]; [rewrite lookup_insert_eq|by rewrite lookup_insert_ne].
    simpl. fold egs. rewrite fmap_app. set_solver. }
  split; simpl.
  - done.
  - intros i ps [[<- _]|[_ Hi]]%lookup_insert_Some; [lia|]. apply Hnext in Hi. lia.
  - by rewrite entries_insert_fresh, Hpods.
  - apply map_Forall_insert_2; [by exists pod, []|done].
  - pose proof (entries_ok_insert groups byc next [pod] ltac:(by rewrite Hfresh) Hentries) as Hent.
    unfold byc'. case_bool_decide as Hlen; [|done]. apply map_Forall_insert_2; [|done].
    assert (length egs ≤ maxEquivalenceGroupsByController ∧
      Forall (entry_ok (<[next:=[pod]]> groups) uid) egs ∧
      (∀ i j g g', i < j → egs !! i = Some g → egs !! j = Some g' →
         same (representant g') (representant g) = false)) as (_ & Hok & Hne).
    { unfold egs. destruct (byc !! uid) as [l|] eqn:Hl; [exact (Hent _ _ Hl)|].
      simpl. split_and!; [lia|done|]. intros i j g g' _ Hi. by rewrite lookup_nil in Hi. }
    split_and!.
    + rewrite length_app. simpl. lia.
    + apply Forall_app. split; [done|]. apply Forall_singleton. split_and!; [done|done|].
      exists []. by rewrite lookup_insert_eq.
    + intros i j g g' Hij Hi Hj.
      apply lookup_app_Some in Hj as [Hj|[Hjl Hj]].
      * apply lookup_lt_Some in Hj as Hjl. rewrite lookup_app_l in Hi by lia. by apply (Hne i j).
      * apply list_lookup_singleton_Some in Hj as [Hz <-]. rewrite lookup_app_l in Hi by lia. simpl.
        apply (Forall_elem Hno g). by eapply list_elem_of_lookup_2.
  - intros i rep q rest u [[_ [=]]|[_ Hi]]%lookup_insert_Some Hu. apply Hsub. by eapply Hshared.
  - intros i rep rest u [[<- [= <- _]]|[_ Hi]]%lookup_insert_Some Hu Hlt.
    + rewrite Hc in Hu. injection Hu as <-. unfold byc' in *. case_bool_decide as Hlen; [|done].
      rewrite lookup_insert_eq. simpl. rewrite fmap_app. set_solver.
    + apply Hsub. eapply Hlisted; [done|done|]. eapply Nat.le_lt_trans; [|exact Hlt].
      unfold byc'. case_bool_decide; [|done].
      destruct (decide (u = uid)) as [->|Hne]; [rewrite lookup_insert_eq|by rewrite lookup_insert_ne].
      simpl. fold egs. rewrite length_app. lia.
Qed.


Lemma gi_fresh_default done groups byc next h :
  grouping_inv done (mkGrouping groups byc next h) → default [] (groups !! next) = [].
Proof. intros Hinv. apply inv_fresh in Hinv. simpl in Hinv. by rewrite Hinv. Qed.

Lemma group_pod_inv done st pod :
  pod ∈ pods → grouping_inv done st → grouping_inv (done ++ [pod]) (group_pod st pod).
Proof using Hsep.
  intros Hpod Hinv. destruct st as [groups byc next h]. pose proof (gi_agrees _ _ Hinv) as Hag.
  simpl in Hag. unfold group_pod.
  assert (controller pod = match ControllerRef pod with
    | Some ref => if IsDaemonSetPod pod then None else Some (OwnerUID ref) | None => None end) as Hctl
    by (unfold controller; by destruct (IsDaemonSetPod pod), (ControllerRef pod)).
  destruct (ControllerRef pod) as [ref|]; [|by apply (inv_single _ _ _ _ h)].
  destruct (IsDaemonSetPod pod); [by apply (inv_single _ _ _ _ h)|].
  set (egs := default [] (byc !! OwnerUID ref)).
  assert (Forall (λ g, representant g ∈ pods) egs) as Hreps.
  { unfold egs. destruct (byc !! OwnerUID ref) as [l|] eqn:Hl; [|done].
    destruct (gi_entries _ _ Hinv _ _ Hl) as (_ & Hok & _). eapply Forall_impl; [exact Hok|]. by intros g []. }
  destruct (match_spec pod egs h Hpod Hreps Hag) as [Hag' Hm].
  destruct (match_ h egs pod) as [h' gid]. simpl in *.
  destruct (first_match egs pod) as [g|] eqn:Hfirst; simpl in Hm; subst gid.
  - apply find_some in Hfirst as [Hin Hs]. apply list_elem_of_In in Hin.
    unfold egs in Hin. destruct (byc !! OwnerUID ref) as [l|] eqn:Hl; [|by apply elem_of_nil in Hin].
    by eapply (inv_join _ _ _ _ h).
  - rewrite (gi_fresh_default _ _ _ _ _ Hinv). eapply (inv_new _ _ _ _ h); [done..| |done].
    apply Forall_forall. intros g Hg. eapply (find_none _ _ Hfirst). by apply list_elem_of_In.
Qed.

Lemma grouping_inv_all : grouping_inv pods (groupPodsBySchedulingProperties h0 pods).
Proof using Hsep.
  assert (∀ l, l ⊆ pods → grouping_inv l (foldl group_pod (mkGrouping ∅ ∅ 0 h0) l)) as Hl; [|by apply Hl].
  induction l as [|p l IH] using rev_ind; intros Hsub.
  - split; simpl; [done|by intros ? ? ?%lookup_empty_Some|by rewrite map_to_list_empty|
      apply map_Forall_empty|apply map_Forall_empty|by intros ? ? ? ? ? ?%lookup_empty_Some|
      by intros ? ? ? ? ?%lookup_empty_Some].
  - rewrite foldl_app. apply group_pod_inv; [set_solver|]. apply IH. set_solver.
Qed.

(** The group belongs to the controller [uid]. *)
Definition headed (uid : string) (ps : list Pod) : bool :=
  match ps with p :: _ => bool_decide (controller p = Some uid) | [] => false end.

Definition shared (ps : list Pod) : bool := bool_decide (2 ≤ length ps).


(** The groups [P] selects, counted by their ids. *)
Definition selected (P : list Pod → bool) (groups : gmap nat (list Pod)) : list nat :=
  (filter (λ kv, P kv.2 = true) (map_to_list groups)).*1.

Lemma selected_NoDup P groups : NoDup (selected P groups).
Proof.
  unfold selected. eapply sublist_NoDup; [apply (NoDup_fst_map_to_list groups)|].
  apply fmap_sublist, sublist_filter.
Qed.

Lemma selected_elem P groups i : i ∈ selected P groups ↔ ∃ ps, groups !! i = Some ps ∧ P ps = true.
Proof.
  unfold selected. rewrite list_elem_of_fmap. setoid_rewrite list_elem_of_filter. split.
  - intros ([k ps] & -> & HP & Hin%elem_of_map_to_list). by exists ps.
  - intros (ps & Hi & HP). exists (i, ps). by rewrite elem_of_map_to_list.
Qed.

Lemma shared_groups_bounded done st uid :
  grouping_inv done st →
  length (selected (λ ps, headed uid ps && shared ps) (podEquivalenceGroups st)) ≤
    maxEquivalenceGroupsByController.
Proof.
  intros Hinv. set (egs := default [] (equivalenceGroupsByController st !! uid)).
  assert (length egs ≤ maxEquivalenceGroupsByController) as Hlen.
  { unfold egs. destruct (equivalenceGroupsByController st !! uid) as [l|] eqn:Hl; [|simpl; lia].
    by destruct (gi_entries _ _ Hinv _ _ Hl). }
  rewrite <- Hlen, <- (length_fmap eg_id egs). apply submseteq_length, NoDup_submseteq;
    [apply selected_NoDup|].
  intros i (ps & Hi & HP)%selected_elem. apply andb_true_iff in HP as [Hh Hs].
  apply bool_decide_eq_true in Hs. destruct ps as [|rep [|q rest]]; simpl in *; [lia..|].
  apply bool_decide_eq_true in Hh. by eapply (gi_shared _ _ Hinv).
Qed.

Lemma entry_ids_NoDup done st uid egs :
  (∀ a, DeepEqual a a = true) → grouping_inv done st →
  equivalenceGroupsByController st !! uid = Some egs → NoDup (eg_id <$> egs).
Proof.
  intros Hrefl Hinv Hl. destruct (gi_entries _ _ Hinv _ _ Hl) as (_ & Hok & Hne).
  apply NoDup_alt. intros a b k Ha Hb. rewrite list_lookup_fmap in Ha, Hb.
  destruct (egs !! a) as [g|] eqn:Hga; [|done]. destruct (egs !! b) as [g'|] eqn:Hgb; [|done].
  injection Ha as Ha. injection Hb as Hb. subst k.
  assert (representant g' = representant g) as Hrep.
  { destruct (proj1 (Forall_lookup _ _) Hok a g Hga) as (_ & _ & r & Hr).
    destruct (proj1 (Forall_lookup _ _) Hok b g' Hgb) as (_ & _ & r' & Hr'). congruence. }
  assert (∀ x, same x x = true) as Hss
    by (intros x; unfold same; by rewrite Hrefl, bool_decide_eq_true_2).
  destruct (Nat.lt_trichotomy a b) as [Hab|[?|Hab]]; [|done|]; exfalso.
  - pose proof (Hne a b g g' Hab Hga Hgb) as H. rewrite Hrep, Hss in H. done.
  - pose proof (Hne b a g' g Hab Hgb Hga) as H. rewrite Hrep, Hss in H. done.
Qed.

Lemma split_groups_full done st i j p q ps qs uid :
  (∀ a, DeepEqual a a = true) → (∀ a b, DeepEqual a b = DeepEqual b a) →
  grouping_inv done st → i ≠ j →
  podEquivalenceGroups st !! i = Some (p :: ps) → podEquivalenceGroups st !! j = Some (q :: qs) →
  controller p = Some uid → controller q = Some uid → same p q = true →
  maxEquivalenceGroupsByController ≤ length (selected (headed uid) (podEquivalenceGroups st)).
Proof.
  intros Hrefl Hsym Hinv Hij Hi Hj Hp Hq Hpq.
  assert (same q p = true) as Hqp.
  { unfold same in *. rewrite Hsym. apply andb_true_iff in Hpq as [H1 ->].
    apply bool_decide_eq_true in H1. by rewrite bool_decide_eq_true_2. }
  destruct (Nat.le_gt_cases maxEquivalenceGroupsByController
    (length (default [] (equivalenceGroupsByController st !! uid)))) as [Hfull|Hroom].
  - destruct (equivalenceGroupsByController st !! uid) as [egs|] eqn:Hl; simpl in Hfull;
      [|unfold maxEquivalenceGroupsByController in Hfull; lia].
    destruct (gi_entries _ _ Hinv _ _ Hl) as (_ & Hok & Hne).
    rewrite Hfull, <- (length_fmap eg_id egs). apply submseteq_length, NoDup_submseteq.
    + by eapply entry_ids_NoDup.
    + intros k (g & -> & Hg)%list_elem_of_fmap. apply selected_elem.
      destruct (Forall_elem Hok g Hg) as (_ & Hc & rest & Hr).
      exists (representant g :: rest). split; [done|]. by apply bool_decide_eq_true.
  - exfalso. pose proof (gi_listed _ _ Hinv _ _ _ _ Hi Hp Hroom) as Hii.
    pose proof (gi_listed _ _ Hinv _ _ _ _ Hj Hq Hroom) as Hjj.
    destruct (equivalenceGroupsByController st !! uid) as [egs|] eqn:Hl; [|by apply elem_of_nil in Hii].
    destruct (gi_entries _ _ Hinv _ _ Hl) as (_ & Hok & Hne). simpl in *.
    apply list_elem_of_fmap in Hii as (g & -> & Hg), Hjj as (g' & -> & Hg').
    destruct (Forall_elem Hok g Hg) as (_ & _ & r & Hr).
    destruct (Forall_elem Hok g' Hg') as (_ & _ & r' & Hr').
    rewrite Hr in Hi. rewrite Hr' in Hj. injection Hi as <- _. injection Hj as <- _.
    apply list_elem_of_lookup_1 in Hg as [a Ha], Hg' as [b Hb].
    destruct (Nat.lt_trichotomy a b) as [Hab|[->|Hab]].
    + rewrite (Hne a b g g') in Hqp by done. done.
    + congruence.
    + rewrite (Hne b a g' g) in Hpq by done. done.
Qed.

Lemma BuildPodGroups_groups :
  let egs := (BuildPodGroups h0 pods).2 in
  (GroupPods <$> egs) ≡ₚ (map_to_list (podEquivalenceGroups (groupPodsBySchedulingProperties h0 pods))).*2 ∧
  concat (GroupPods <$> egs) ≡ₚ pods ∧ Forall (λ g, group_ok (GroupPods g)) egs.
Proof using Hsep.
  pose proof grouping_inv_all as Hinv. set (groups := podEquivalenceGroups _).
  assert (GroupPods <$> (BuildPodGroups h0 pods).2 = (go_range groups).*2) as Hgp.
  { unfold BuildPodGroups. simpl. rewrite (foldl_snoc_fmap (λ kv, mkPodGroup kv.2 ∅ None false)).
    simpl. by rewrite <- list_fmap_compose. }
  cbv zeta. split_and!.
  - rewrite Hgp, go_range_perm. done.
  - rewrite Hgp, go_range_perm. apply (gi_pods _ _ Hinv).
  - apply (proj1 (Forall_fmap GroupPods group_ok _)). rewrite Hgp. apply Forall_fmap, Forall_forall.
    intros [i ps] Hin%elem_of_go_range. exact (gi_groups _ _ Hinv _ _ Hin).
Qed.

(** C34. The groups of a scale-up partition its pods; a group holds pods with equal
    labels and specs of one controller (a pod without one, or of a daemon set,
    is alone); a controller has at most ten groups of several pods; and two
    equal pods of one controller are in different groups only when the
    controller already has ten groups. *)
Theorem equivalence_groups_exact :
  (∀ a, DeepEqual a a = true) → (∀ a b, DeepEqual a b = DeepEqual b a) →
  let groups := podEquivalenceGroups (groupPodsBySchedulingProperties h0 pods) in
  concat (GroupPods <$> (BuildPodGroups h0 pods).2) ≡ₚ pods ∧
  Forall (λ g, group_ok (GroupPods g)) (BuildPodGroups h0 pods).2 ∧
  (GroupPods <$> (BuildPodGroups h0 pods).2) ≡ₚ (map_to_list groups).*2 ∧
  (∀ uid, length (selected (λ ps, headed uid ps && shared ps) groups) ≤ maxEquivalenceGroupsByController) ∧
  (∀ i j p q ps qs uid, i ≠ j → groups !! i = Some (p :: ps) → groups !! j = Some (q :: qs) →
     controller p = Some uid → controller q = Some uid → same p q = true →
     maxEquivalenceGroupsByController ≤ length (selected (headed uid) groups)).
Proof using Hsep.
  intros Hrefl Hsym groups. pose proof grouping_inv_all as Hinv. destruct BuildPodGroups_groups as (Hg & Hc & Hok).
  split_and!; [done..| |].
  - intros uid. by eapply shared_groups_bounded.
  - intros i j p q ps qs uid Hij Hi Hj Hp Hq Hpq. by eapply (split_groups_full _ _ i j p q).
Qed.
End grouping.
End specs.

#[export] Instance VolumeMount_eq_dec `{EqDecision MD} : EqDecision (VolumeMount (MountData := MD)).
Proof. solve_decision. Defined.
#[export] Instance Volume_eq_dec `{EqDecision VD} : EqDecision (Volume (VolumeData := VD)).
Proof. solve_decision. Defined.
#[export] Instance Container_eq_dec `{EqDecision EV, EqDecision MD, EqDecision CD} :
  EqDecision (Container (EnvVar := EV) (MountData := MD) (ContainerData := CD)).
Proof. solve_decision. Defined.
#[export] Instance SpecValue_eq_dec
  `{EqDecision EV, EqDecision MD, EqDecision VD, EqDecision CD, EqDecision SD} :
  EqDecision (SpecValue (EnvVar := EV) (MountData := MD) (VolumeData := VD) (ContainerData := CD)
    (SpecData := SD)).
Proof. solve_decision. Defined.

(** Three pods: two replicas of one controller that differ in their environment
    only, and a bare pod. *)
Module EquivalenceExample.
Definition deep_equal (a b : SpecValue (EnvVar := string) (MountData := unit) (VolumeData := unit)
    (ContainerData := string) (SpecData := unit)) : bool := bool_decide (a = b).
Definition containers : gmap nat (list (Container (EnvVar := string) (MountData := unit)
    (ContainerData := string))) :=
  {[0 := [mkContainer ["POD=a"] [mkMount "token" tt] "web"];
    1 := [mkContainer ["POD=b"] [mkMount "token" tt] "web"];
    2 := [mkContainer [] [] "tool"]]}.
Definition spec (l : nat) : PodSpec (VolumeData := unit) (SpecData := unit) :=
  mkSpec [mkVolume "token" true tt] (Some l) None "" tt.
Definition pods : list (Pod (VolumeData := unit) (SpecData := unit)) :=
  [mkPod {["app" := "web"]} ∅ (Some (mkOwner "uid" "ReplicaSet")) (spec 0);
   mkPod {["app" := "web"]} ∅ (Some (mkOwner "uid" "ReplicaSet")) (spec 1);
   mkPod ∅ ∅ None (spec 2)].
Definition groups : list (PodGroup (VolumeData := unit) (SpecData := unit) (Reasons := unit)) :=
  (BuildPodGroups deep_equal containers pods).2.
End EquivalenceExample.

Lemma example_separate p q : p ∈ EquivalenceExample.pods → q ∈ EquivalenceExample.pods →
  separate (Spec p) (Spec q).
Proof.
  intros Hp Hq. unfold EquivalenceExample.pods in *.
  repeat (apply elem_of_cons in Hp as [->|Hp]; [|]); [| | |by apply elem_of_nil in Hp];
    (repeat (apply elem_of_cons in Hq as [->|Hq]; [|]); [| | |by apply elem_of_nil in Hq]);
    (left; reflexivity) || (right; intros l [[= <-]|[=]] [[=]|[=]]).
Qed.

Lemma equivalence_groups_exact_witness :
  concat (GroupPods <$> EquivalenceExample.groups) ≡ₚ EquivalenceExample.pods ∧
  length EquivalenceExample.groups = 2.
Proof.
  split; [|vm_compute; reflexivity].
  apply (equivalence_groups_exact (Reasons := unit) EquivalenceExample.deep_equal
    EquivalenceExample.containers EquivalenceExample.pods).
  - exact example_separate.
  - intros a. by apply bool_decide_eq_true.
  - intros a b. apply bool_decide_ext. split; congruence.
Defined.

Lemma comparison_erases_env_witness :
  Env <$> default [] (EquivalenceExample.containers !! 0) = [["POD=a"]] ∧
  Forall (λ c, Env c = []) (default [] ((PodSpecSemanticallyEqual EquivalenceExample.deep_equal
    EquivalenceExample.containers (EquivalenceExample.spec 0) (EquivalenceExample.spec 1)).1 !! 0)).
Proof.
  split; [reflexivity|]. apply Forall_forall. intros c Hc.
  apply (comparison_erases_env EquivalenceExample.deep_equal EquivalenceExample.containers
    (EquivalenceExample.spec 0) (EquivalenceExample.spec 1) 0 c); [left; left; reflexivity|exact Hc].
Defined.
