(* ===== verification/ClusterSnapshot.v ===== *)
(** The cluster snapshot the simulations run on: the interface
    [ClusterSnapshot] (src/pkg/simulator/clustersnapshot/clustersnapshot.go),
    with what its comments promise as laws over the visible nodes and the
    enclosing forks, and a reference implementation of it. *)
From stdpp Require Import prelude gmap strings list fin_maps.
From S2P Require Import Prelude Api Drain Framework.
From S2P Require Import SnapshotSpec.

(** [SchedulingError] (src/pkg/simulator/clustersnapshot/scheduling_error.go):
    its type, with the predicate and its reasons when one fails. *)
Inductive SchedulingError : Type :=
| SchedulingInternalError
| FailingPredicateError (predicate : string) (reasons : list string)
| NoNodesPassingPredicatesFoundError.

Definition IsInternal (e : SchedulingError) : bool :=
  match e with SchedulingInternalError => true | _ => false end.

(** An error of the snapshot: of its store, or of the dynamic resources. *)
Inductive snapshot_error : Type :=
| StoreError (e : store_error)
| ResourceError (msg : string).
#[export] Instance snapshot_error_eq_dec : EqDecision snapshot_error.
Proof. solve_decision. Defined.

Section interface.
Context {S Slice CSI : Type} `{SchedNodeInfo S}.
Abbreviation NI := (NodeInfo S Slice CSI).

(** [SchedulingOptions]; a custom order is given by its comparison. *)
Record SchedulingOptions : Type := mkSchedulingOptions {
  NodeOrdering : option (NI → NI → bool);
  IsNodeAcceptable : option (NI → bool)
}.

Definition acceptable (opts : SchedulingOptions) (ni : NI) : bool :=
  match IsNodeAcceptable opts with Some f => f ni | None => true end.

(** A pod is placed on a node: some PodInfo of it is added. *)
Definition placed (m m' : gmap string NI) (pod : Pod) (n : string) : Prop :=
  ∃ ni pi, m !! n = Some ni ∧ pi_Pod pi = pod ∧ m' = <[n := AddPodInfo ni pi]> m.

(** A pod is taken from a node. *)
Definition taken (m m' : gmap string NI) (ns name n : string) : Prop :=
  ∃ ni pi, m !! n = Some ni ∧ find_pod ns name (GetPods ni) = Some pi ∧
    m' = <[n := (RemovePod ni pi).1]> m.

Class ClusterSnapshot (T : Type) : Type := {
  GetNodeInfo : T → string → T * result snapshot_error NI;
  AddNodeInfo : T → NI → T * option snapshot_error;
  RemoveNodeInfo : T → string → T * option snapshot_error;
  SchedulePod : T → Pod → string → T * option SchedulingError;
  SchedulePodOnAnyNodeMatching : T → Pod → SchedulingOptions → T * result SchedulingError string;
  CheckPredicates : T → Pod → string → T * option SchedulingError;
  UnschedulePod : T → string → string → string → T * option snapshot_error;
  Fork : T → T;
  Revert : T → T;
  Commit : T → T * option snapshot_error;

  (** The states the operations produce, their visible nodes, and what every
      enclosing fork reverts to. *)
  snap_ok : T → Prop;
  snap_nodes : T → gmap string NI;
  snap_saved : T → list (gmap string NI);
  snap_named : ∀ t, snap_ok t → map_Forall (λ n ni, NodeName ni = n) (snap_nodes t);

  snap_get : ∀ t n, snap_ok t → let '(t', r) := GetNodeInfo t n in
    snap_ok t' ∧ snap_saved t' = snap_saved t ∧ snap_nodes t' = snap_nodes t ∧
    r = match snap_nodes t !! n with Some ni => Ok ni | None => Err (StoreError ErrNodeNotFound) end;
  snap_add : ∀ t ni, snap_ok t → let '(t', r) := AddNodeInfo t ni in
    snap_ok t' ∧ snap_saved t' = snap_saved t ∧
    match r with
    | None => snap_nodes t !! NodeName ni = None ∧ snap_nodes t' = <[NodeName ni := ni]> (snap_nodes t)
    | Some _ => snap_nodes t' = snap_nodes t
    end;
  snap_remove : ∀ t n, snap_ok t → let '(t', r) := RemoveNodeInfo t n in
    snap_ok t' ∧ snap_saved t' = snap_saved t ∧
    match r with
    | None => is_Some (snap_nodes t !! n) ∧ snap_nodes t' = delete n (snap_nodes t)
    | Some _ => snap_nodes t !! n = None ∧ snap_nodes t' = snap_nodes t
    end;
  snap_schedule : ∀ t pod n, snap_ok t → let '(t', r) := SchedulePod t pod n in
    snap_ok t' ∧ snap_saved t' = snap_saved t ∧
    match r with
    | None => placed (snap_nodes t) (snap_nodes t') pod n
    | Some _ => snap_nodes t' = snap_nodes t
    end;
  snap_schedule_any : ∀ t pod opts, snap_ok t →
    let '(t', r) := SchedulePodOnAnyNodeMatching t pod opts in
    snap_ok t' ∧ snap_saved t' = snap_saved t ∧
    match r with
    | Ok n => placed (snap_nodes t) (snap_nodes t') pod n ∧
              ∃ ni, snap_nodes t !! n = Some ni ∧ acceptable opts ni = true
    | Err _ => snap_nodes t' = snap_nodes t
    end;
  snap_check : ∀ t pod n, snap_ok t → let '(t', r) := CheckPredicates t pod n in
    snap_ok t' ∧ snap_saved t' = snap_saved t ∧ snap_nodes t' = snap_nodes t;
  snap_unschedule : ∀ t ns name n, snap_ok t → let '(t', r) := UnschedulePod t ns name n in
    snap_ok t' ∧ snap_saved t' = snap_saved t ∧
    match r with
    | None => taken (snap_nodes t) (snap_nodes t') ns name n
    | Some _ => snap_nodes t' = snap_nodes t
    end;
  snap_fork : ∀ t, snap_ok t →
    snap_ok (Fork t) ∧ snap_nodes (Fork t) = snap_nodes t ∧
    snap_saved (Fork t) = snap_nodes t :: snap_saved t;
  snap_revert : ∀ t m l, snap_ok t → snap_saved t = m :: l →
    snap_ok (Revert t) ∧ snap_nodes (Revert t) = m ∧ snap_saved (Revert t) = l;
  snap_commit : ∀ t, snap_ok t → let '(t', r) := Commit t in
    snap_ok t' ∧ r = None ∧ snap_nodes t' = snap_nodes t ∧ snap_saved t' = tail (snap_saved t)
}.
End interface.
Arguments SchedulingOptions S Slice CSI : clear implicits.
Arguments ClusterSnapshot S Slice CSI {_} T.

(** ** The reference implementation: the specification of the stores, with a
       predicate in place of the scheduler's plug-ins *)

Section reference.
Context {S Slice CSI : Type} `{SchedNodeInfo S} (fits : NodeInfo S Slice CSI → Pod → bool).
Abbreviation NI := (NodeInfo S Slice CSI).
Abbreviation state := (spec_state S Slice CSI).

Definition out_err (r : store_out S Slice CSI) : option snapshot_error :=
  match r with RErr (Some e) => Some (StoreError e) | _ => None end.

Definition ref_exec (o : store_op S Slice CSI) (t : state) : state * option snapshot_error :=
  let '(t', r) := spec_exec o t in (t', out_err r).

Definition ref_place (t : state) (pod : Pod) (n : string) : state :=
  (spec_exec (StorePodInfo (NewPodInfo pod []) n) t).1.

Definition ref_SchedulePod (t : state) (pod : Pod) (n : string) : state * option SchedulingError :=
  match cur t !! n with
  | None => (t, Some SchedulingInternalError)
  | Some ni => if fits ni pod then (ref_place t pod n, None)
               else (t, Some (FailingPredicateError "fits" []))
  end.

Definition ref_CheckPredicates (t : state) (pod : Pod) (n : string) : option SchedulingError :=
  match cur t !! n with
  | None => Some SchedulingInternalError
  | Some ni => if fits ni pod then None else Some (FailingPredicateError "fits" [])
  end.

Definition ref_ScheduleAny (t : state) (pod : Pod) (opts : SchedulingOptions S Slice CSI)
    : state * result SchedulingError string :=
  match list_find (λ kv, acceptable opts kv.2 && fits kv.2 pod = true) (map_to_list (cur t)) with
  | Some (_, (n, _)) => (ref_place t pod n, Ok n)
  | None => (t, Err NoNodesPassingPredicatesFoundError)
  end.

Lemma ref_place_placed t pod n :
  is_Some (cur t !! n) →
  saved (ref_place t pod n) = saved t ∧ placed (cur t) (cur (ref_place t pod n)) pod n.
Proof.
  intros [ni Hn]. unfold ref_place. simpl. rewrite Hn. simpl. split; [done|].
  by exists ni, (NewPodInfo pod []).
Qed.

Definition all_named (l : list (gmap string NI)) : Prop := Forall (λ m, named m) l.

Lemma ref_named t o : named (cur t) → all_named (saved t) →
  named (cur (spec_exec o t).1) ∧ all_named (saved (spec_exec o t).1).
Proof.
  unfold all_named. intros Hn Hs.
  destruct o as [ni|n|p n|ns name n| | | | |n| | |]; simpl; try done.
  - destruct (cur t !! NodeName ni); simpl; eauto with ca.
  - destruct (cur t !! n); simpl; eauto with ca.
  - destruct (cur t !! n) as [ni|] eqn:Hx; simpl; [|done]. split; [|done].
    eapply named_update; [done..|]. apply NodeName_AddPodInfo.
  - destruct (cur t !! n) as [ni|] eqn:Hx; simpl; [|done].
    destruct (find_pod ns name (GetPods ni)) as [p|]; simpl; [|done].
    pose proof (NodeName_RemovePod ni p) as Hp. destruct (RemovePod ni p) as [ni' e]. simpl in *.
    split; [|done]. by eapply named_update.
  - split; [done|]. by constructor.
  - destruct (saved t) as [|m l] eqn:Hl; [by rewrite Hl|]. simpl. by apply Forall_cons in Hs.
  - split; [done|]. destruct (saved t); [done|]. by inversion Hs.
Qed.

Definition ref_ok (t : state) : Prop := named (cur t) ∧ all_named (saved t).

Lemma ref_ok_exec o t : ref_ok t → ref_ok (spec_exec o t).1.
Proof. intros [Hn Hs]. by apply ref_named. Qed.

#[refine] Definition ref_snapshot : ClusterSnapshot S Slice CSI state := {|
  GetNodeInfo t n := (t, match cur t !! n with Some ni => Ok ni | None => Err (StoreError ErrNodeNotFound) end);
  AddNodeInfo t ni := ref_exec (StoreNodeInfo ni) t;
  RemoveNodeInfo t n := ref_exec (SnapshotSpec.RemoveNodeInfo n) t;
  SchedulePod := ref_SchedulePod;
  SchedulePodOnAnyNodeMatching := ref_ScheduleAny;
  CheckPredicates t pod n := (t, ref_CheckPredicates t pod n);
  UnschedulePod t ns name n := ref_exec (RemovePodInfo ns name n) t;
  Fork t := (spec_exec SnapshotSpec.Fork t).1;
  Revert t := (spec_exec SnapshotSpec.Revert t).1;
  Commit t := ref_exec SnapshotSpec.Commit t;
  snap_ok := ref_ok;
  snap_nodes := cur;
  snap_saved := saved
|}.
Proof.
  - by intros t [Hn _].
  - intros t n Ht. done.
  - intros t ni Ht. unfold ref_exec. pose proof (ref_ok_exec (StoreNodeInfo ni) t Ht) as Ho.
    revert Ho. simpl. destruct (cur t !! NodeName ni) eqn:Hx; simpl; intros Ho; by split_and!.
  - intros t n Ht. unfold ref_exec. pose proof (ref_ok_exec (SnapshotSpec.RemoveNodeInfo n) t Ht) as Ho.
    revert Ho. simpl. destruct (cur t !! n) eqn:Hx; simpl; intros Ho; by split_and!.
  - intros t pod n Ht. unfold ref_SchedulePod. destruct (cur t !! n) as [ni|] eqn:Hx; [|by split_and!].
    destruct (fits ni pod); [|by split_and!].
    destruct (ref_place_placed t pod n) as [H1 H2]; [by eexists|].
    split_and!; [by apply ref_ok_exec|done|done].
  - intros t pod opts Ht. unfold ref_ScheduleAny.
    destruct (list_find _ _) as [[i [n ni]]|] eqn:Hf; [|by split_and!].
    apply list_find_Some in Hf as (Hf & Hp & _). simpl in Hp. apply andb_true_iff in Hp as [Hacc _].
    apply list_elem_of_lookup_2, elem_of_map_to_list in Hf.
    destruct (ref_place_placed t pod n) as [H1 H2]; [by eexists|].
    split_and!; [by apply ref_ok_exec|done|done|by eexists].
  - done.
  - intros t ns name n Ht. unfold ref_exec.
    pose proof (ref_ok_exec (RemovePodInfo ns name n) t Ht) as Ho.
    revert Ho. simpl. destruct (cur t !! n) as [ni|] eqn:Hx; [|simpl; intros; by split_and!].
    destruct (find_pod ns name (GetPods ni)) as [p|] eqn:Hp; [|simpl; intros; by split_and!].
    pose proof (RemovePod_err ni p) as He. destruct (RemovePod ni p) as [ni' [e|]] eqn:Hr; simpl; intros.
    + split_and!; [done..|]. simpl in He. rewrite (He e) by done. by apply insert_id.
    + split_and!; [done..|]. exists ni, p. by rewrite Hr.
  - intros t Ht. split_and!; [by apply ref_ok_exec|done|done].
  - intros t m l Ht Hm. pose proof (ref_ok_exec SnapshotSpec.Revert t Ht) as Ho. revert Ho. simpl.
    rewrite Hm. intros Ho. by split_and!.
  - intros t Ht. unfold ref_exec. pose proof (ref_ok_exec SnapshotSpec.Commit t Ht) as Ho. by split_and!.
Defined.
End reference.
