(* ===== verification/Pdb.v ===== *)
(** Remaining pod disruption budgets during a scale-down simulation
    (src/pkg/core/scaledown/pdb/basic.go). Label selectors are third-party code:
    a selector is the function that tells which labels it matches. The allowed
    disruptions are 32-bit. *)
From stdpp Require Import prelude gmap strings list numbers fin_maps.
From S2P Require Import Prelude Drain.
Local Open Scope Z_scope.

(** Go's [int32] arithmetic. *)
Definition int32_max : Z := 2 ^ 31 - 1.
Definition wrap32 (z : Z) : Z := (z + 2 ^ 31) `mod` 2 ^ 32 - 2 ^ 31.

Lemma wrap32_id z : - 2 ^ 31 ≤ z ≤ int32_max → wrap32 z = z.
Proof. unfold wrap32, int32_max. intros. rewrite Z.mod_small; lia. Qed.

Section pdb.
(** The [Spec.Selector] of a budget and [metav1.LabelSelectorAsSelector]. *)
Context {LabelSelector SelectorError : Type}
  (LabelSelectorAsSelector : LabelSelector → result SelectorError (gmap string string → bool)).

Record PodDisruptionBudget : Type := mkPdb {
  PdbNamespace : string;
  PdbName : string;
  Selector : LabelSelector;
  DisruptionsAllowed : Z
}.

Record pdbInfo : Type := mkPdbInfo {
  pdb : PodDisruptionBudget;
  selector : gmap string string → bool
}.

(** [basicRemainingPdbTracker], its budgets are copies of its own. *)
Record basicRemainingPdbTracker : Type := mkPdbTracker { pdbInfos : list pdbInfo }.

Implicit Types (t : basicRemainingPdbTracker) (i : pdbInfo) (pods : list Pod).

Definition NewBasicRemainingPdbTracker : basicRemainingPdbTracker := mkPdbTracker [].

Definition Clear t : basicRemainingPdbTracker := mkPdbTracker [].

Definition SetPdbs t (pdbs : list PodDisruptionBudget)
    : basicRemainingPdbTracker * option SelectorError :=
  fold_err (λ t p,
    match LabelSelectorAsSelector (Selector p) with
    | Err e => (t, Some e)
    | Ok s => (mkPdbTracker (pdbInfos t ++ [mkPdbInfo p s]), None)
    end) pdbs (Clear t).

Definition GetPdbs t : list PodDisruptionBudget := foldl (λ l i, l ++ [pdb i]) [] (pdbInfos t).

(** The condition of every loop over pods. *)
Definition covers i (pod : Pod) : bool :=
  bool_decide (PodNamespace pod = PdbNamespace (pdb i)) && selector i (PodLabels pod).

Definition MatchingPdbs t (pod : Pod) : list PodDisruptionBudget :=
  foldl (λ l i, if covers i pod then l ++ [pdb i] else l) [] (pdbInfos t).

(** The inner loop of [CanRemovePods]; [None] is the return that refuses. *)
Fixpoint count_pods i pods (count : Z) (inParallel : bool) (blocking : option BlockingPod)
    : (bool * option BlockingPod) + BlockingPod :=
  match pods with
  | [] => inl (inParallel, blocking)
  | pod :: pods' =>
      if covers i pod then
        let count := wrap32 (count + 1) in
        if DisruptionsAllowed (pdb i) <? 1 then inr (mkBlocking pod BlockingPodReason.NotEnoughPdb)
        else if DisruptionsAllowed (pdb i) <? count
        then count_pods i pods' count false (Some (mkBlocking pod BlockingPodReason.NotEnoughPdb))
        else count_pods i pods' count inParallel blocking
      else count_pods i pods' count inParallel blocking
  end.

Fixpoint can_remove_loop (infos : list pdbInfo) pods (inParallel : bool)
    (blocking : option BlockingPod) : bool * bool * option BlockingPod :=
  match infos with
  | [] => (true, inParallel, blocking)
  | i :: infos' =>
      match count_pods i pods 0 inParallel blocking with
      | inr b => (false, false, Some b)
      | inl (inParallel, blocking) => can_remove_loop infos' pods inParallel blocking
      end
  end.

Definition CanRemovePods t pods : bool * bool * option BlockingPod :=
  can_remove_loop (pdbInfos t) pods true None.

Definition disrupt (p : PodDisruptionBudget) : PodDisruptionBudget :=
  mkPdb (PdbNamespace p) (PdbName p) (Selector p) (wrap32 (DisruptionsAllowed p - 1)).

(** The inner loop of [RemovePods], on one budget. *)
Definition disrupt_pods i pods : pdbInfo :=
  foldl (λ i pod, if covers i pod then mkPdbInfo (disrupt (pdb i)) (selector i) else i) i pods.

Definition RemovePods t pods : basicRemainingPdbTracker :=
  mkPdbTracker ((λ i, disrupt_pods i pods) <$> pdbInfos t).

(** ** What the answers mean *)

(** How many of the pods a budget covers. *)
Definition covered i pods : Z := Z.of_nat (length (filter (λ p, covers i p = true) pods)).

Lemma count_pods_spec i pods : ∀ count par blocking,
  0 ≤ count → count + Z.of_nat (length pods) ≤ int32_max →
  match count_pods i pods count par blocking with
  | inr b => DisruptionsAllowed (pdb i) < 1 ∧ 0 < covered i pods ∧ BlockPod b ∈ pods ∧
             covers i (BlockPod b) = true ∧ BlockReason b = BlockingPodReason.NotEnoughPdb
  | inl (par', blocking') =>
      (0 < covered i pods → 1 ≤ DisruptionsAllowed (pdb i)) ∧
      (par' = true ↔ par = true ∧
         (0 < covered i pods → count + covered i pods ≤ DisruptionsAllowed (pdb i)))
  end.
Proof.
  induction pods as [|p pods IH]; intros count par blocking Hc Hlen; cbn [count_pods].
  { unfold covered. simpl. split; [lia|]. intuition lia. }
  simpl in Hlen. unfold covered. rewrite filter_cons. destruct (covers i p) eqn:Hp.
  - rewrite decide_True by done. rewrite wrap32_id by (unfold int32_max in *; lia).
    destruct (Z.ltb_spec (DisruptionsAllowed (pdb i)) 1).
    { simpl. split_and!; [lia|lia|left|done|done]. }
    specialize (IH (count + 1)). unfold covered in IH.
    destruct (Z.ltb_spec (DisruptionsAllowed (pdb i)) (count + 1)).
    + specialize (IH false (Some (mkBlocking p BlockingPodReason.NotEnoughPdb)) ltac:(lia) ltac:(lia)).
      destruct (count_pods _ _ _ _ _) as [[par' b']|b]; simpl.
      * destruct IH as [_ IH]. split; [lia|]. rewrite IH. split; [by intros [[=] _]|lia].
      * lia.
    + specialize (IH par blocking ltac:(lia) ltac:(lia)).
      destruct (count_pods _ _ _ _ _) as [[par' b']|b]; simpl.
      * destruct IH as [_ IH]. split; [lia|]. rewrite IH. 
        destruct (decide (0 < Z.of_nat (length (filter (λ p, covers i p = true) pods)))); intuition lia.
      * lia.
  - rewrite decide_False by congruence. specialize (IH count par blocking ltac:(lia) ltac:(lia)).
    unfold covered in IH. destruct (count_pods _ _ _ _ _) as [[par' b']|b]; [done|].
    destruct IH as (? & ? & ? & ? & ?). split_and!; [done|done|by right|done|done].
Qed.

Lemma MatchingPdbs_filter t (pod : Pod) :
  MatchingPdbs t pod = pdb <$> filter (λ i, covers i pod = true) (pdbInfos t).
Proof.
  unfold MatchingPdbs. induction (pdbInfos t) as [|i l IH] using rev_ind; [done|].
  rewrite foldl_app, filter_app, filter_cons, filter_nil, fmap_app, IH. cbn [foldl].
  destruct (covers i pod); [by rewrite decide_True|]. by rewrite decide_False, app_nil_r.
Qed.

(** A budget that has to refuse: exhausted, and covering one of the pods. *)
Definition refuses pods i : Prop := 0 < covered i pods ∧ DisruptionsAllowed (pdb i) < 1.

Lemma can_remove_loop_spec infos pods : ∀ par blocking,
  Z.of_nat (length pods) ≤ int32_max →
  let '(can, par', b) := can_remove_loop infos pods par blocking in
  (can = true ↔ Forall (λ i, ¬ refuses pods i) infos) ∧
  (par' = true ↔ par = true ∧
     Forall (λ i, 0 < covered i pods → covered i pods ≤ DisruptionsAllowed (pdb i)) infos) ∧
  (can = false → ∃ bp i, b = Some bp ∧ BlockReason bp = BlockingPodReason.NotEnoughPdb ∧
     BlockPod bp ∈ pods ∧ i ∈ infos ∧ covers i (BlockPod bp) = true ∧ DisruptionsAllowed (pdb i) < 1).
Proof.
  induction infos as [|i infos IH]; intros par blocking Hlen; cbn [can_remove_loop].
  { split; [done|]. naive_solver. }
  pose proof (count_pods_spec i pods 0 par blocking ltac:(lia) ltac:(lia)) as Hi.
  destruct (count_pods i pods 0 par blocking) as [[par' b']|b].
  - destruct Hi as [Ha Hp]. specialize (IH par' b' Hlen).
    destruct (can_remove_loop infos pods par' b') as [[can par''] b'']. destruct IH as (IH1 & IH2 & IH3).
    rewrite !Forall_cons, IH1, IH2, Hp. simpl. split_and!.
    + assert (¬ refuses pods i) by (unfold refuses; lia). tauto.
    + tauto.
    + intros Hc. destruct (IH3 Hc) as (bp & j & ?). exists bp, j. set_solver.
  - destruct Hi as (Ha & Hc & Hin & Hcov & Hr). rewrite !Forall_cons. split_and!.
    + split; [done|]. intros [H _]. destruct H. by split.
    + split; [done|]. intros [_ [H _]]. lia.
    + intros _. exists b, i. set_solver.
Qed.

Lemma RemovePods_info i pods :
  let i' := disrupt_pods i pods in
  0 ≤ DisruptionsAllowed (pdb i) ≤ int32_max → covered i pods ≤ DisruptionsAllowed (pdb i) →
  DisruptionsAllowed (pdb i') = DisruptionsAllowed (pdb i) - covered i pods ∧
  (∀ p, covers i' p = covers i p).
Proof.
  cbv zeta. unfold disrupt_pods. revert i.
  induction pods as [|p pods IH]; intros i Hr Hc; simpl.
  { unfold covered. simpl. split; [lia|done]. }
  unfold covered in *. rewrite filter_cons in *. destruct (covers i p) eqn:Hp.
  - rewrite decide_True in * by done. simpl in Hc.
    destruct (IH (mkPdbInfo (disrupt (pdb i)) (selector i))) as [IH1 IH2]; simpl.
    + rewrite wrap32_id; unfold int32_max in *; lia.
    + rewrite wrap32_id by (unfold int32_max in *; lia).
      change (covers (mkPdbInfo (disrupt (pdb i)) (selector i))) with (covers i). lia.
    + change (covers (mkPdbInfo (disrupt (pdb i)) (selector i))) with (covers i) in *.
      rewrite IH1. simpl. rewrite wrap32_id by (unfold int32_max in *; lia). split; [lia|done].
  - rewrite decide_False in * by congruence. apply IH; [done|exact Hc].
Qed.

(** ** Sequences of removals *)

(** Remove the pods of every node that may be removed in parallel. *)
Definition guarded_step (st : basicRemainingPdbTracker * list (list Pod)) pods
    : basicRemainingPdbTracker * list (list Pod) :=
  let '(can, inParallel, _) := CanRemovePods st.1 pods in
  if can && inParallel then (RemovePods st.1 pods, st.2 ++ [pods]) else st.

Lemma covered_ext i i' pods : (∀ p, covers i' p = covers i p) → covered i' pods = covered i pods.
Proof. intros Hc. unfold covered. do 2 f_equal. apply list_filter_iff. intros p. by rewrite Hc. Qed.

Lemma covered_app i l1 l2 : covered i (l1 ++ l2) = covered i l1 + covered i l2.
Proof. unfold covered. rewrite filter_app, length_app. lia. Qed.

(** The budget [i] after [removed] pods were disrupted from [i0]. *)
Definition charged (removed : list (list Pod)) (i0 i : pdbInfo) : Prop :=
  (∀ p, covers i p = covers i0 p) ∧
  DisruptionsAllowed (pdb i) = DisruptionsAllowed (pdb i0) - covered i0 (concat removed) ∧
  0 ≤ DisruptionsAllowed (pdb i).

Lemma guarded_step_inv infos st pods :
  Z.of_nat (length pods) ≤ int32_max →
  Forall (λ i, 0 ≤ DisruptionsAllowed (pdb i) ≤ int32_max) infos →
  Forall2 (charged st.2) infos (pdbInfos st.1) →
  Forall2 (charged (guarded_step st pods).2) infos (pdbInfos (guarded_step st pods).1).
Proof.
  intros Hlen Hr Hst. unfold guarded_step, CanRemovePods.
  pose proof (can_remove_loop_spec (pdbInfos st.1) pods true None Hlen) as Hspec.
  destruct (can_remove_loop _ _ _ _) as [[can par] b]. destruct Hspec as (_ & Hp & _).
  destruct can, par; [simpl|done..]. destruct Hp as [Hp _]. destruct (Hp eq_refl) as [_ Hall].
  apply Forall2_fmap_r.
  revert Hr Hall. induction Hst as [|i0 i infos0 infos' Hi _ IH]; intros Hr Hall; [constructor|].
  apply Forall_cons in Hr as [Hr0 Hr]. apply Forall_cons in Hall as [Ha Hall].
  constructor; [|by apply IH]. destruct Hi as (Hc & Hd & H0).
  assert (0 ≤ covered i0 (concat st.2)) by (unfold covered; lia).
  assert (covered i pods ≤ DisruptionsAllowed (pdb i)) as Hle.
  { destruct (decide (0 < covered i pods)); [by apply Ha|lia]. }
  destruct (RemovePods_info i pods) as [H1 H2]; [lia|done|]. unfold charged, compose.
  rewrite H1, concat_app, covered_app. simpl. rewrite app_nil_r, (covered_ext i0 i) in * by done.
  split_and!; [intros p; by rewrite H2|lia..].
Qed.

(** C30. The remaining budgets are never overdrawn and the accounting is exact:
    when the pods of a sequence of nodes are removed, each after a check that
    allows removing them in parallel, every budget has at the end what it had
    at the start less the removed pods it covers, and that is not negative. *)
Theorem pdb_never_overdrawn t (batches : list (list Pod)) :
  Forall (λ i, 0 ≤ DisruptionsAllowed (pdb i) ≤ int32_max) (pdbInfos t) →
  Forall (λ pods, Z.of_nat (length pods) ≤ int32_max) batches →
  let '(t', removed) := foldl guarded_step (t, []) batches in
  Forall2 (charged removed) (pdbInfos t) (pdbInfos t').
Proof.
  intros Hr Hb.
  assert (Forall2 (charged []) (pdbInfos t) (pdbInfos t)) as H0.
  { apply Forall_Forall2_diag. eapply Forall_impl; [exact Hr|]. intros i Hi. unfold charged, covered.
    simpl. simpl in Hi. split_and!; [done|lia..]. }
  pose proof (foldl_inv (λ st, Forall2 (charged st.2) (pdbInfos t) (pdbInfos st.1)) guarded_step
    batches (t, []) H0) as Hinv.
  destruct (foldl guarded_step (t, []) batches) as [t' removed]. apply Hinv.
  intros st pods Hpods. apply guarded_step_inv; [|done]. by apply (Forall_elem Hb).
Qed.

(** The answers of the check are exact: pods may be removed iff no budget
    covering one of them is exhausted, in parallel iff every budget covering
    some of them has a disruption left for each, and a refusal names one of the
    pods and the exhausted budget's reason. *)
Theorem pdb_answers_exact t pods :
  Z.of_nat (length pods) ≤ int32_max →
  let '(can, inParallel, blocking) := CanRemovePods t pods in
  (can = true ↔ ∀ i, i ∈ pdbInfos t → ¬ refuses pods i) ∧
  (inParallel = true ↔
     ∀ i, i ∈ pdbInfos t → 0 < covered i pods → covered i pods ≤ DisruptionsAllowed (pdb i)) ∧
  (can = false → ∃ bp i, blocking = Some bp ∧ BlockReason bp = BlockingPodReason.NotEnoughPdb ∧
     BlockPod bp ∈ pods ∧ i ∈ pdbInfos t ∧ covers i (BlockPod bp) = true ∧
     DisruptionsAllowed (pdb i) < 1).
Proof.
  intros Hlen. pose proof (can_remove_loop_spec (pdbInfos t) pods true None Hlen) as H.
  unfold CanRemovePods. destruct (can_remove_loop _ _ _ _) as [[can par] b].
  rewrite !Forall_forall in H. naive_solver.
Qed.
End pdb.
Arguments PodDisruptionBudget LabelSelector : clear implicits.
Arguments pdbInfo LabelSelector : clear implicits.
Arguments basicRemainingPdbTracker LabelSelector : clear implicits.

(** ** A concrete run *)

(** A selector is the labels a pod must have, all of them. *)
Definition demo_selector (s : gmap string string) : result unit (gmap string string → bool) :=
  Ok (λ l, bool_decide (s ⊆ l)).

Definition demo_tracker : basicRemainingPdbTracker (gmap string string) :=
  (SetPdbs demo_selector NewBasicRemainingPdbTracker
     [mkPdb "default" "web" {["app" := "web"]} 2; mkPdb "default" "db" {["app" := "db"]} 0]).1.

Definition demo_batches : list (list Pod) :=
  [[simple_pod "default" "a" {["app" := "web"]} []]; [simple_pod "default" "b" {["app" := "db"]} []];
   [simple_pod "default" "c" {["app" := "web"]} []]; [simple_pod "default" "d" {["app" := "web"]} []]]%string.

Lemma pdb_never_overdrawn_witness :
  let '(t', removed) := foldl guarded_step (demo_tracker, []) demo_batches in
  length removed = 2%nat ∧ Forall2 (charged removed) (pdbInfos demo_tracker) (pdbInfos t').
Proof.
  pose proof (pdb_never_overdrawn demo_tracker demo_batches) as H.
  destruct (foldl guarded_step (demo_tracker, []) demo_batches) as [t' removed] eqn:He. split.
  - apply (f_equal (λ st, length st.2)) in He. vm_compute in He. symmetry. exact He.
  - apply H; repeat constructor; vm_compute; done.
Defined.

Lemma pdb_answers_exact_witness :
  (CanRemovePods demo_tracker (concat demo_batches)).1.1 = false ∧
  ∃ i, i ∈ pdbInfos demo_tracker ∧ DisruptionsAllowed (pdb i) < 1.
Proof.
  pose proof (pdb_answers_exact demo_tracker (concat demo_batches) ltac:(by vm_compute)) as H.
  destruct (CanRemovePods demo_tracker (concat demo_batches)) as [[can par] b] eqn:He.
  apply (f_equal (λ r, r.1.1)) in He. vm_compute in He. simpl in *. split; [by symmetry|].
  destruct H as (_ & _ & H). destruct (H (eq_sym He)) as (_ & i & _ & _ & _ & Hi & _ & Hd). eauto.
Defined.
