(* ===== verification/Drainability.v ===== *)
(** Whether a pod can be drained: the status of a pod, the rules of
    src/pkg/simulator/drainability/rules, their evaluation, and the options of
    a deletion (src/pkg/simulator/options/nodedelete.go). *)
From stdpp Require Import prelude gmap strings list numbers fin_maps.
From S2P Require Import Prelude Drain Pdb.
Local Open Scope Z_scope.

(** ** Statuses *)

Inductive OutcomeType : Type :=
| UndefinedOutcome | DrainOk | BlockDrain | SkipDrain | WaitForCompletion.
#[export] Instance OutcomeType_eq_dec : EqDecision OutcomeType.
Proof. solve_decision. Defined.

(** The messages of the rules, without the text of the errors they wrap. *)
Inductive drain_error : Type :=
| ErrControllerNotAvailable (kind namespace name : string)
| ErrTooFewReplicas (namespace name : string) (replicas min : Z)
| ErrDaemonSetNotPresent (namespace name : string)
| ErrDaemonSetLookup (namespace name : string)
| ErrNotReplicated (namespace name : string)
| ErrSystemPod (name : string)
| ErrNotSafeToEvict (name : string)
| ErrLocalStorage (name : string)
| ErrNotEnoughPdb (namespace name : string).

Record Status : Type := mkStatus {
  Outcome : OutcomeType;
  Overrides : list OutcomeType;
  BlockingReason : BlockingPodReason.t;
  StatusError : option drain_error
}.

Definition NewDrainableStatus : Status := mkStatus DrainOk [] BlockingPodReason.NoReason None.
Definition NewBlockedStatus (reason : BlockingPodReason.t) (err : option drain_error) : Status :=
  mkStatus BlockDrain [] reason err.
Definition NewSkipStatus : Status := mkStatus SkipDrain [] BlockingPodReason.NoReason None.
Definition NewWaitStatus : Status := mkStatus WaitForCompletion [] BlockingPodReason.NoReason None.
Definition NewUndefinedStatus : Status :=
  mkStatus UndefinedOutcome [] BlockingPodReason.NoReason None.

(** ** Context *)

(** What [Get] of a lister answers: an object that may be nil, and an error
    that may be "not found". *)
Inductive lister_error : Type := NotFoundError | OtherListerError.
Definition IsNotFound (e : lister_error) : bool :=
  match e with NotFoundError => true | OtherListerError => false end.

(** The replicas of the spec of a controller, a pointer. *)
Record Controller : Type := mkController { SpecReplicas : option Z }.

(** The listers, by namespace and name. *)
Record ListerRegistry : Type := mkListers {
  GetReplicationController : string → string → option Controller * option lister_error;
  GetDaemonSet : string → string → option Controller * option lister_error;
  GetJob : string → string → option Controller * option lister_error;
  GetReplicaSet : string → string → option Controller * option lister_error;
  GetStatefulSet : string → string → option Controller * option lister_error
}.

Record NodeDeleteOptions : Type := mkDeleteOptions {
  SkipNodesWithSystemPods : bool;
  SkipNodesWithLocalStorage : bool;
  SkipNodesWithCustomControllerPods : bool;
  MinReplicaCount : Z;
  BspDisruptionTimeout : Z
}.

Section drainability.
Context `{KubeLib} {LabelSelector NodeInfo : Type}.
Abbreviation Tracker := (basicRemainingPdbTracker LabelSelector).

Record DrainContext : Type := mkDrainContext {
  RemainingPdbTracker : option Tracker;
  Listers : option ListerRegistry;
  Timestamp : Z
}.

(** [Rules.Drainable] gives every rule a context with a tracker, so the rules
    read it; without one they would panic, and read an empty one here. *)
Definition ctx_tracker (drainCtx : DrainContext) : Tracker :=
  default NewBasicRemainingPdbTracker (RemainingPdbTracker drainCtx).

(** The interface [Rule]. *)
Record Rule : Type := mkRule {
  RuleName : string;
  RuleDrainable : DrainContext → Pod → NodeInfo → Status
}.

Implicit Types (drainCtx : DrainContext) (pod : Pod) (nodeInfo : NodeInfo).

(** ** The rules *)

Definition mirror_Drainable drainCtx pod nodeInfo : Status :=
  if IsMirrorPod pod then NewSkipStatus else NewUndefinedStatus.

Definition longterminating_Drainable drainCtx pod nodeInfo : Status :=
  if IsPodLongTerminating pod (Timestamp drainCtx) then NewSkipStatus else NewUndefinedStatus.

Definition daemonset_Drainable drainCtx pod nodeInfo : Status :=
  if IsDaemonSetPod pod then NewDrainableStatus else NewUndefinedStatus.

Definition safetoevict_Drainable drainCtx pod nodeInfo : Status :=
  if HasSafeToEvictAnnotation pod then NewDrainableStatus else NewUndefinedStatus.

Definition terminal_Drainable drainCtx pod nodeInfo : Status :=
  if IsPodTerminal pod then NewDrainableStatus else NewUndefinedStatus.

Definition oncompletion_Drainable drainCtx pod nodeInfo : Status :=
  if HasSafeToEvictOnCompletionAnnotation pod then NewWaitStatus else NewUndefinedStatus.

Definition notsafetoevict_Drainable drainCtx pod nodeInfo : Status :=
  if HasNotSafeToEvictAnnotation pod
  then NewBlockedStatus BlockingPodReason.NotSafeToEvictAnnotation
         (Some (ErrNotSafeToEvict (PodName pod)))
  else NewUndefinedStatus.

Definition localstorage_Drainable drainCtx pod nodeInfo : Status :=
  if HasBlockingLocalStorage pod
  then NewBlockedStatus BlockingPodReason.LocalStorageRequested
         (Some (ErrLocalStorage (PodName pod)))
  else NewUndefinedStatus.

Definition pdb_Drainable drainCtx pod nodeInfo : Status :=
  if existsb (λ p, DisruptionsAllowed p <? 1) (MatchingPdbs (ctx_tracker drainCtx) pod)
  then NewBlockedStatus BlockingPodReason.NotEnoughPdb
         (Some (ErrNotEnoughPdb (PodNamespace pod) (PodName pod)))
  else NewUndefinedStatus.

Definition replicatedKind (kind : string) : bool :=
  bool_decide (kind ∈ ["ReplicationController"; "Job"; "ReplicaSet"; "StatefulSet"]%string).

Definition replicated_Drainable (skipNodesWithCustomControllerPods : bool)
    drainCtx pod nodeInfo : Status :=
  let controllerRef := ControllerRef pod in
  let replicated := bool_decide (is_Some controllerRef) in
  let replicated := if skipNodesWithCustomControllerPods
                    then match controllerRef with
                         | Some ref => replicatedKind (OwnerKind ref)
                         | None => false
                         end
                    else replicated in
  if negb replicated
  then NewBlockedStatus BlockingPodReason.NotReplicated
         (Some (ErrNotReplicated (PodNamespace pod) (PodName pod)))
  else NewUndefinedStatus.

Definition KubeSystemNamespace : string := "kube-system".

Definition isBlockingSystemPod drainCtx pod : bool :=
  bool_decide (PodNamespace pod = KubeSystemNamespace) &&
  bool_decide (length (MatchingPdbs (ctx_tracker drainCtx) pod) = 0)%nat.

Definition isBspPassedDisruptionTimeout (bspDisruptionTimeout : Z) pod (drainTime : Z) : bool :=
  match PodCreationTimestamp pod with
  | None => false
  | Some creation => creation + bspDisruptionTimeout <? drainTime
  end.

Definition system_Drainable (bspDisruptionTimeout : Z) drainCtx pod nodeInfo : Status :=
  if isBlockingSystemPod drainCtx pod then
    if isBspPassedDisruptionTimeout bspDisruptionTimeout pod (Timestamp drainCtx)
    then NewDrainableStatus
    else NewBlockedStatus BlockingPodReason.UnmovableKubeSystemPod (Some (ErrSystemPod (PodName pod)))
  else NewUndefinedStatus.

(** The replicas are too few: set, and below the minimum. *)
Definition too_few (minReplicaCount : Z) (c : Controller) : option Z :=
  match SpecReplicas c with
  | Some r => if r <? minReplicaCount then Some r else None
  | None => None
  end.

Definition replicacount_Drainable (minReplicaCount : Z) drainCtx pod nodeInfo : Status :=
  match Listers drainCtx with
  | None => NewUndefinedStatus
  | Some listers =>
      let ns := PodNamespace pod in
      match ControllerRef pod with
      | None => NewUndefinedStatus
      | Some ref =>
          match ParseGroupVersion (OwnerAPIVersion ref) with
          | None => NewUndefinedStatus
          | Some refGroup =>
              let refKind := OwnerKind ref in
              let gone := NewBlockedStatus BlockingPodReason.ControllerNotFound
                            (Some (ErrControllerNotAvailable refKind ns (PodName pod))) in
              if bool_decide (refKind = "ReplicationController"%string) then
                match GetReplicationController listers ns (OwnerName ref) with
                | (Some rc, None) =>
                    match too_few minReplicaCount rc with
                    | Some r => NewBlockedStatus BlockingPodReason.MinReplicasReached
                                  (Some (ErrTooFewReplicas ns (PodName pod) r minReplicaCount))
                    | None => NewUndefinedStatus
                    end
                | _ => gone
                end
              else if IsDaemonSetPod pod then
                if negb (bool_decide (refGroup = "apps"%string)) || negb (bool_decide (refKind = "DaemonSet"%string))
                then NewUndefinedStatus
                else match (GetDaemonSet listers ns (OwnerName ref)).2 with
                     | Some e =>
                         if IsNotFound e
                         then NewBlockedStatus BlockingPodReason.ControllerNotFound
                                (Some (ErrDaemonSetNotPresent ns (PodName pod)))
                         else NewBlockedStatus BlockingPodReason.UnexpectedError
                                (Some (ErrDaemonSetLookup ns (PodName pod)))
                     | None => NewUndefinedStatus
                     end
              else if bool_decide (refKind = "Job"%string) then
                match GetJob listers ns (OwnerName ref) with
                | (Some _, None) => NewUndefinedStatus
                | _ => gone
                end
              else if bool_decide (refKind = "ReplicaSet"%string) then
                match GetReplicaSet listers ns (OwnerName ref) with
                | (Some rs, None) =>
                    match too_few minReplicaCount rs with
                    | Some r => NewBlockedStatus BlockingPodReason.MinReplicasReached
                                  (Some (ErrTooFewReplicas ns (PodName pod) r minReplicaCount))
                    | None => NewUndefinedStatus
                    end
                | _ => gone
                end
              else if bool_decide (refKind = "StatefulSet"%string) then
                if negb (bool_decide (refGroup = "apps"%string)) then NewUndefinedStatus
                else match GetStatefulSet listers ns (OwnerName ref) with
                     | (None, Some _) => gone
                     | _ => NewUndefinedStatus
                     end
              else NewUndefinedStatus
          end
      end
  end.

(** ** The evaluation *)

Definition Default (deleteOptions : NodeDeleteOptions) : list Rule :=
  foldl (λ rules (r : Rule * bool), if negb r.2 then rules ++ [r.1] else rules) []
    [(mkRule "Mirror" mirror_Drainable, false);
     (mkRule "LongTerminating" longterminating_Drainable, false);
     (mkRule "ReplicaCount" (replicacount_Drainable (MinReplicaCount deleteOptions)),
      negb (SkipNodesWithCustomControllerPods deleteOptions));
     (mkRule "DaemonSet" daemonset_Drainable, false);
     (mkRule "SafeToEvict" safetoevict_Drainable, false);
     (mkRule "Terminal" terminal_Drainable, false);
     (mkRule "OnCompletion" oncompletion_Drainable, false);
     (mkRule "Replicated" (replicated_Drainable (SkipNodesWithCustomControllerPods deleteOptions)), false);
     (mkRule "System" (system_Drainable (BspDisruptionTimeout deleteOptions)),
      negb (SkipNodesWithSystemPods deleteOptions));
     (mkRule "NotSafeToEvict" notsafetoevict_Drainable, false);
     (mkRule "LocalStorage" localstorage_Drainable, negb (SkipNodesWithLocalStorage deleteOptions));
     (mkRule "PDB" pdb_Drainable, false)].

Record overrideCandidate : Type := mkCandidate { CandName : string; CandStatus : Status }.

(** The first candidate that trumps the outcome. *)
Definition override (candidates : list overrideCandidate) (outcome : OutcomeType) : option Status :=
  CandStatus ∘ snd <$>
  list_find (λ c, existsb (λ o, bool_decide (outcome = o)) (Overrides (CandStatus c)) = true) candidates.

Fixpoint drainable_loop (rs : list Rule) drainCtx pod nodeInfo (candidates : list overrideCandidate)
    : Status :=
  match rs with
  | [] => NewUndefinedStatus
  | r :: rs' =>
      let status := RuleDrainable r drainCtx pod nodeInfo in
      if bool_decide (0 < length (Overrides status))%nat
      then drainable_loop rs' drainCtx pod nodeInfo (candidates ++ [mkCandidate (RuleName r) status])
      else match override candidates (Outcome status) with
           | Some s => s
           | None =>
               if bool_decide (Outcome status ≠ UndefinedOutcome) then status
               else drainable_loop rs' drainCtx pod nodeInfo candidates
           end
  end.

(** A nil context, or a nil tracker in it, is replaced. *)
Definition Rules_Drainable (rs : list Rule) (drainCtx : option DrainContext) pod nodeInfo : Status :=
  let drainCtx := default (mkDrainContext None None 0) drainCtx in
  let drainCtx := mkDrainContext (Some (ctx_tracker drainCtx)) (Listers drainCtx) (Timestamp drainCtx) in
  drainable_loop rs drainCtx pod nodeInfo [].

(** ** The decision of the default rules *)

(** No default rule overrides another. *)
Definition plain (r : Rule) : Prop :=
  ∀ drainCtx pod nodeInfo, Overrides (RuleDrainable r drainCtx pod nodeInfo) = [].

Lemma drainable_loop_plain rs drainCtx pod nodeInfo :
  Forall plain rs →
  drainable_loop rs drainCtx pod nodeInfo [] =
  default NewUndefinedStatus
    (snd <$> list_find (λ s, Outcome s ≠ UndefinedOutcome)
       ((λ r, RuleDrainable r drainCtx pod nodeInfo) <$> rs)).
Proof.
  induction 1 as [|r rs Hr _ IH]; [done|]. cbn [drainable_loop fmap list_fmap].
  rewrite (Hr drainCtx pod nodeInfo), bool_decide_false by (simpl; lia).
  cbn [list_find]. change (override [] _) with (@None Status).
  case_bool_decide; [by rewrite decide_True|]. rewrite decide_False by (intros Hn; by apply Hn).
  rewrite IH. by destruct (list_find _ _) as [[]|].
Qed.

Lemma Default_plain opts : Forall plain (Default opts).
Proof.
  assert (Forall plain [mkRule "Mirror" mirror_Drainable; mkRule "LongTerminating" longterminating_Drainable;
    mkRule "ReplicaCount" (replicacount_Drainable (MinReplicaCount opts));
    mkRule "DaemonSet" daemonset_Drainable; mkRule "SafeToEvict" safetoevict_Drainable;
    mkRule "Terminal" terminal_Drainable; mkRule "OnCompletion" oncompletion_Drainable;
    mkRule "Replicated" (replicated_Drainable (SkipNodesWithCustomControllerPods opts));
    mkRule "System" (system_Drainable (BspDisruptionTimeout opts));
    mkRule "NotSafeToEvict" notsafetoevict_Drainable; mkRule "LocalStorage" localstorage_Drainable;
    mkRule "PDB" pdb_Drainable]) as Hall.
  { repeat constructor; intros ctx pod ni; simpl;
      unfold mirror_Drainable, longterminating_Drainable, replicacount_Drainable, daemonset_Drainable,
        safetoevict_Drainable, terminal_Drainable, oncompletion_Drainable, replicated_Drainable,
        system_Drainable, notsafetoevict_Drainable, localstorage_Drainable, pdb_Drainable;
      repeat case_match; done. }
  rewrite !Forall_cons in Hall. destruct opts as [[] [] [] ? ?]; unfold Default; simpl;
    rewrite !Forall_cons; tauto.
Qed.

Lemma MatchingPdbs_elem (t : Tracker) pod p :
  p ∈ MatchingPdbs t pod ↔ ∃ i, i ∈ pdbInfos t ∧ covers i pod = true ∧ pdb i = p.
Proof.
  rewrite MatchingPdbs_filter, list_elem_of_fmap. setoid_rewrite list_elem_of_filter.
  split; intros (i & ? & ?); exists i; intuition congruence.
Qed.

(** *** The conditions, as the documentation lists them *)

Definition skipped drainCtx pod : Prop :=
  IsMirrorPod pod = true ∨ IsPodLongTerminating pod (Timestamp drainCtx) = true.

Definition evictable pod : Prop :=
  IsDaemonSetPod pod = true ∨ HasSafeToEvictAnnotation pod = true ∨ IsPodTerminal pod = true.

(** The controller is gone or has too few replicas. *)
Definition controller_blocks opts drainCtx pod nodeInfo : Prop :=
  SkipNodesWithCustomControllerPods opts = true ∧
  Outcome (replicacount_Drainable (MinReplicaCount opts) drainCtx pod nodeInfo) = BlockDrain.

Definition unreplicated opts pod : Prop :=
  match ControllerRef pod with
  | None => True
  | Some ref => SkipNodesWithCustomControllerPods opts = true ∧ replicatedKind (OwnerKind ref) = false
  end.

(** A kube-system pod without a budget, where those are considered. *)
Definition unbudgeted_system opts drainCtx pod : Prop :=
  SkipNodesWithSystemPods opts = true ∧ PodNamespace pod = KubeSystemNamespace ∧
  ∀ i, i ∈ pdbInfos (ctx_tracker drainCtx) → covers i pod = false.

Definition past_timeout opts drainCtx pod : Prop :=
  ∃ creation, PodCreationTimestamp pod = Some creation ∧
    creation + BspDisruptionTimeout opts < Timestamp drainCtx.

Definition last_checks_block opts drainCtx pod : Prop :=
  HasNotSafeToEvictAnnotation pod = true ∨
  (SkipNodesWithLocalStorage opts = true ∧
     ∃ v, v ∈ PodVolumes pod ∧ isLocalVolume v = true ∧ VolumeName v ∉ listed_volumes pod) ∨
  ∃ i, i ∈ pdbInfos (ctx_tracker drainCtx) ∧ covers i pod = true ∧ DisruptionsAllowed (pdb i) < 1.

Definition blocks opts drainCtx pod nodeInfo : Prop :=
  ¬ skipped drainCtx pod ∧
  (controller_blocks opts drainCtx pod nodeInfo ∨
   (¬ evictable pod ∧ HasSafeToEvictOnCompletionAnnotation pod = false ∧
    (unreplicated opts pod ∨
     (unbudgeted_system opts drainCtx pod ∧ ¬ past_timeout opts drainCtx pod) ∨
     (¬ unbudgeted_system opts drainCtx pod ∧ last_checks_block opts drainCtx pod)))).

(** One more rule before the [rest]. *)
Definition next_rule (skip : bool) (s rest : Status) : Status :=
  if skip then rest else if decide (Outcome s = UndefinedOutcome) then rest else s.

(** The default rules with a tracker in the context, as one cascade. *)
Lemma Default_cascade opts drainCtx pod nodeInfo :
  Rules_Drainable (Default opts) (Some drainCtx) pod nodeInfo =
  let ctx := mkDrainContext (Some (ctx_tracker drainCtx)) (Listers drainCtx) (Timestamp drainCtx) in
  next_rule false (mirror_Drainable ctx pod nodeInfo)
  (next_rule false (longterminating_Drainable ctx pod nodeInfo)
  (next_rule (negb (SkipNodesWithCustomControllerPods opts))
     (replicacount_Drainable (MinReplicaCount opts) ctx pod nodeInfo)
  (next_rule false (daemonset_Drainable ctx pod nodeInfo)
  (next_rule false (safetoevict_Drainable ctx pod nodeInfo)
  (next_rule false (terminal_Drainable ctx pod nodeInfo)
  (next_rule false (oncompletion_Drainable ctx pod nodeInfo)
  (next_rule false (replicated_Drainable (SkipNodesWithCustomControllerPods opts) ctx pod nodeInfo)
  (next_rule (negb (SkipNodesWithSystemPods opts)) (system_Drainable (BspDisruptionTimeout opts) ctx pod nodeInfo)
  (next_rule false (notsafetoevict_Drainable ctx pod nodeInfo)
  (next_rule (negb (SkipNodesWithLocalStorage opts)) (localstorage_Drainable ctx pod nodeInfo)
  (next_rule false (pdb_Drainable ctx pod nodeInfo) NewUndefinedStatus))))))))))).
Proof.
  unfold Rules_Drainable. rewrite drainable_loop_plain by apply Default_plain. simpl.
  set (ctx := mkDrainContext _ _ _).
  assert (∀ (ss : list Status),
    default NewUndefinedStatus (snd <$> list_find (λ s, Outcome s ≠ UndefinedOutcome) ss) =
    foldr (λ s rest, if decide (Outcome s = UndefinedOutcome) then rest else s) NewUndefinedStatus ss)
    as Hfold.
  { induction ss as [|s ss IH]; [done|]. simpl. rewrite <- IH.
    destruct (decide (Outcome s = UndefinedOutcome)) as [Hs|Hs].
    - rewrite decide_False by (intros Hn; by apply Hn). by destruct (list_find _ _) as [[]|].
    - by rewrite decide_True. }
  rewrite Hfold. by destruct opts as [[] [] [] ? ?].
Qed.

(** *** What each blocking rule checks *)

Lemma replicacount_outcome min drainCtx pod nodeInfo :
  let s := replicacount_Drainable min drainCtx pod nodeInfo in
  s = NewUndefinedStatus ∨
  Outcome s = BlockDrain ∧ is_Some (StatusError s) ∧ BlockingReason s ≠ BlockingPodReason.NoReason.
Proof. unfold replicacount_Drainable. repeat case_match; simpl; eauto. Qed.

Lemma replicated_outcome opts drainCtx pod nodeInfo :
  let s := replicated_Drainable (SkipNodesWithCustomControllerPods opts) drainCtx pod nodeInfo in
  unreplicated opts pod ∧ Outcome s = BlockDrain ∨
  ¬ unreplicated opts pod ∧ s = NewUndefinedStatus.
Proof.
  unfold replicated_Drainable, unreplicated. cbv zeta.
  destruct (ControllerRef pod) as [ref|], (SkipNodesWithCustomControllerPods opts);
    try destruct (replicatedKind (OwnerKind ref)) eqn:Hk; simpl; naive_solver.
Qed.

Lemma system_outcome opts drainCtx pod nodeInfo :
  SkipNodesWithSystemPods opts = true →
  let s := system_Drainable (BspDisruptionTimeout opts) drainCtx pod nodeInfo in
  unbudgeted_system opts drainCtx pod ∧ past_timeout opts drainCtx pod ∧ s = NewDrainableStatus ∨
  unbudgeted_system opts drainCtx pod ∧ ¬ past_timeout opts drainCtx pod ∧ Outcome s = BlockDrain ∨
  ¬ unbudgeted_system opts drainCtx pod ∧ s = NewUndefinedStatus.
Proof.
  intros Hskip. unfold system_Drainable. cbv zeta.
  assert (isBlockingSystemPod drainCtx pod = true ↔ unbudgeted_system opts drainCtx pod) as Hb.
  { unfold isBlockingSystemPod, unbudgeted_system. rewrite andb_true_iff, !bool_decide_eq_true.
    rewrite length_zero_iff_nil, MatchingPdbs_filter.
    split; [intros [Hns Hm]|intros (_ & Hns & Hm)]; (split; [done|]).
    - split; [done|]. intros i Hi. apply fmap_nil_inv in Hm. destruct (covers i pod) eqn:Hc; [|done].
      assert (i ∈ filter (λ i, covers i pod = true) (pdbInfos (ctx_tracker drainCtx))) as Hf
        by by apply list_elem_of_filter.
      rewrite Hm in Hf. by apply elem_of_nil in Hf.
    - destruct (filter _ _) as [|i l] eqn:Hf; [done|]. exfalso.
      assert (i ∈ i :: l) as Hi by left. rewrite <- Hf in Hi.
      apply list_elem_of_filter in Hi as [Hc Hi]. rewrite Hm in Hc by done. done. }
  assert (isBspPassedDisruptionTimeout (BspDisruptionTimeout opts) pod (Timestamp drainCtx) = true ↔
    past_timeout opts drainCtx pod) as Ht.
  { unfold isBspPassedDisruptionTimeout, past_timeout. destruct (PodCreationTimestamp pod) as [c|].
    - rewrite Z.ltb_lt. naive_solver.
    - naive_solver. }
  destruct (isBlockingSystemPod _ _); [destruct (isBspPassedDisruptionTimeout _ _ _)|]; naive_solver.
Qed.

Lemma pdb_outcome drainCtx pod nodeInfo :
  let s := pdb_Drainable drainCtx pod nodeInfo in
  let exhausted := ∃ i, i ∈ pdbInfos (ctx_tracker drainCtx) ∧ covers i pod = true ∧
                        DisruptionsAllowed (pdb i) < 1 in
  exhausted ∧ Outcome s = BlockDrain ∨ ¬ exhausted ∧ s = NewUndefinedStatus.
Proof.
  unfold pdb_Drainable. cbv zeta.
  destruct (existsb _ _) eqn:He.
  - left. split; [|done]. apply existsb_exists in He as (p & Hp & Hd).
    apply list_elem_of_In, MatchingPdbs_elem in Hp as (i & Hi & Hc & <-).
    exists i. split_and!; [done..|by apply Z.ltb_lt].
  - right. split; [|done]. intros (i & Hi & Hc & Hd). apply not_true_iff_false in He. apply He.
    apply existsb_exists. exists (pdb i). split; [|by apply Z.ltb_lt].
    apply list_elem_of_In, MatchingPdbs_elem. eauto.
Qed.

Lemma localstorage_outcome drainCtx pod nodeInfo :
  let s := localstorage_Drainable drainCtx pod nodeInfo in
  let local := ∃ v, v ∈ PodVolumes pod ∧ isLocalVolume v = true ∧ VolumeName v ∉ listed_volumes pod in
  local ∧ Outcome s = BlockDrain ∨ ¬ local ∧ s = NewUndefinedStatus.
Proof.
  unfold localstorage_Drainable. cbv zeta. rewrite <- HasBlockingLocalStorage_spec.
  destruct (HasBlockingLocalStorage pod); [by left|by right].
Qed.

(** A status is sound if a block carries its error and reason. *)
Definition sound (s : Status) : Prop :=
  Outcome s = BlockDrain → is_Some (StatusError s) ∧ BlockingReason s ≠ BlockingPodReason.NoReason.

(** A rule that builds its status with the constructors is sound. *)
Ltac solve_sound :=
  unfold sound; repeat case_match; simpl; intros Hs; first [discriminate Hs | split; [by eexists|done]].

Lemma Default_sound opts drainCtx pod nodeInfo :
  sound (Rules_Drainable (Default opts) (Some drainCtx) pod nodeInfo).
Proof.
  rewrite Default_cascade. cbv zeta. set (ctx := mkDrainContext _ _ _).
  assert (∀ skip s rest, sound s → sound rest → sound (next_rule skip s rest)) as Hnext.
  { intros [] s rest Hs Hrest; [done|]. unfold next_rule. by case_decide. }
  assert (∀ min, sound (replicacount_Drainable min ctx pod nodeInfo)) as Hrc.
  { intros min Hb. destruct (replicacount_outcome min ctx pod nodeInfo) as [Hu|[_ ?]]; [|done].
    by rewrite Hu in Hb. }
  repeat match goal with |- sound (next_rule _ _ _) => apply Hnext end; try apply Hrc;
    unfold mirror_Drainable, longterminating_Drainable, daemonset_Drainable, safetoevict_Drainable,
      terminal_Drainable, oncompletion_Drainable, replicated_Drainable, system_Drainable,
      notsafetoevict_Drainable, localstorage_Drainable, pdb_Drainable; solve_sound.
Qed.

Lemma next_if b s rest :
  Outcome s ≠ UndefinedOutcome →
  next_rule false (if b : bool then s else NewUndefinedStatus) rest = if b then s else rest.
Proof. intros Hs. unfold next_rule. destruct b; [by rewrite decide_False|done]. Qed.

Lemma next_undef skip rest : next_rule skip NewUndefinedStatus rest = rest.
Proof. by destruct skip. Qed.

Lemma next_block s rest : Outcome s = BlockDrain → Outcome (next_rule false s rest) = BlockDrain.
Proof. intros Hs. unfold next_rule. by rewrite decide_False by (by rewrite Hs). Qed.

(** The checks after the one on replication. *)
Lemma last_rules_block opts drainCtx pod nodeInfo :
  Outcome (next_rule false (notsafetoevict_Drainable drainCtx pod nodeInfo)
    (next_rule (negb (SkipNodesWithLocalStorage opts)) (localstorage_Drainable drainCtx pod nodeInfo)
    (next_rule false (pdb_Drainable drainCtx pod nodeInfo) NewUndefinedStatus))) = BlockDrain ↔
  last_checks_block opts drainCtx pod.
Proof.
  unfold last_checks_block, notsafetoevict_Drainable. rewrite next_if by done.
  destruct (HasNotSafeToEvictAnnotation pod); [simpl; tauto|].
  assert (Outcome (next_rule false (pdb_Drainable drainCtx pod nodeInfo) NewUndefinedStatus) = BlockDrain ↔
    ∃ i, i ∈ pdbInfos (ctx_tracker drainCtx) ∧ covers i pod = true ∧ DisruptionsAllowed (pdb i) < 1) as <-.
  { destruct (pdb_outcome drainCtx pod nodeInfo) as [[He Hb]|[He ->]].
    - by rewrite next_block.
    - rewrite next_undef. simpl. split; [done|]. intros; by destruct He. }
  destruct (SkipNodesWithLocalStorage opts); [|simpl; naive_solver].
  destruct (localstorage_outcome drainCtx pod nodeInfo) as [[He Hb]|[He ->]].
  - rewrite next_block by done. tauto.
  - rewrite next_undef. intuition congruence.
Qed.

Lemma system_rules_block opts drainCtx pod nodeInfo rest :
  Outcome (next_rule (negb (SkipNodesWithSystemPods opts))
    (system_Drainable (BspDisruptionTimeout opts) drainCtx pod nodeInfo) rest) = BlockDrain ↔
  (unbudgeted_system opts drainCtx pod ∧ ¬ past_timeout opts drainCtx pod) ∨
  (¬ unbudgeted_system opts drainCtx pod ∧ Outcome rest = BlockDrain).
Proof.
  destruct (SkipNodesWithSystemPods opts) eqn:Hs.
  - destruct (system_outcome opts drainCtx pod nodeInfo Hs) as [(Hu & Hp & ->)|[(Hu & Hp & Hb)|(Hu & ->)]].
    + simpl. split; [done|tauto].
    + rewrite next_block by done. tauto.
    + rewrite next_undef. tauto.
  - assert (¬ unbudgeted_system opts drainCtx pod) by (intros [? _]; congruence). simpl. tauto.
Qed.

Lemma Default_block_spec opts drainCtx pod nodeInfo :
  Outcome (Rules_Drainable (Default opts) (Some drainCtx) pod nodeInfo) = BlockDrain ↔
  blocks opts drainCtx pod nodeInfo.
Proof.
  rewrite Default_cascade. cbv zeta. set (ctx := mkDrainContext _ _ _).
  change (blocks opts drainCtx pod nodeInfo) with (blocks opts ctx pod nodeInfo). clearbody ctx.
  unfold blocks, skipped, evictable, controller_blocks, mirror_Drainable, longterminating_Drainable,
    daemonset_Drainable, safetoevict_Drainable, terminal_Drainable, oncompletion_Drainable.
  rewrite !next_if by done.
  destruct (IsMirrorPod pod); [simpl; split; [done|tauto]|].
  destruct (IsPodLongTerminating pod (Timestamp ctx)); [simpl; split; [done|tauto]|].
  set (after := if IsDaemonSetPod pod then _ else _).
  assert (Outcome after = BlockDrain ↔
    ¬ (IsDaemonSetPod pod = true ∨ HasSafeToEvictAnnotation pod = true ∨ IsPodTerminal pod = true) ∧
    HasSafeToEvictOnCompletionAnnotation pod = false ∧
    (unreplicated opts pod ∨ unbudgeted_system opts ctx pod ∧ ¬ past_timeout opts ctx pod ∨
     ¬ unbudgeted_system opts ctx pod ∧ last_checks_block opts ctx pod)) as Hafter.
  { unfold after. destruct (IsDaemonSetPod pod); [simpl; split; [done|tauto]|].
    destruct (HasSafeToEvictAnnotation pod); [simpl; split; [done|tauto]|].
    destruct (IsPodTerminal pod); [simpl; split; [done|tauto]|].
    destruct (HasSafeToEvictOnCompletionAnnotation pod); [simpl; split; [done|intros [_ [[=] _]]]|].
    destruct (replicated_outcome opts ctx pod nodeInfo) as [[Hu Hb]|[Hu ->]].
    - rewrite next_block by done. intuition discriminate.
    - rewrite next_undef, system_rules_block, last_rules_block. intuition discriminate. }
  rewrite <- Hafter. clearbody after.
  destruct (SkipNodesWithCustomControllerPods opts); [|simpl; intuition discriminate].
  destruct (replicacount_outcome (MinReplicaCount opts) ctx pod nodeInfo) as [->|[Hb _]].
  - rewrite next_undef. simpl. intuition discriminate.
  - rewrite next_block by done. intuition discriminate.
Qed.

(** What blocks the drain of a pod, under the default rules, is exactly what
    is documented: a pod that is neither a mirror pod nor long terminating
    blocks iff its controller is gone or has too few replicas (where that is
    checked), or it is not evictable and is unreplicated, or is a system pod
    without budget still within the disruption timeout, or, unless it is such a
    system pod, is annotated as not safe to evict, has blocking local storage
    or is covered by an exhausted budget. A blocked pod always comes with an
    error and a reason. *)
Theorem default_blocks_iff opts drainCtx pod nodeInfo :
  let s := Rules_Drainable (Default opts) (Some drainCtx) pod nodeInfo in
  (Outcome s = BlockDrain ↔ blocks opts drainCtx pod nodeInfo) ∧
  (Outcome s = BlockDrain → is_Some (StatusError s) ∧ BlockingReason s ≠ BlockingPodReason.NoReason).
Proof. split; [apply Default_block_spec|apply Default_sound]. Qed.

End drainability.
