(* ===== verification/Hinting.v ===== *)
(** Scheduling simulation with hints (src/pkg/simulator/scheduling): the hints,
    the record of similar unschedulable pods, and the simulator that places
    pods in a cluster snapshot. *)
From stdpp Require Import prelude gmap strings list numbers fin_maps fin_sets sorting.
From S2P Require Import Prelude Api Drain Framework SnapshotSpec ClusterSnapshot.
Local Open Scope Z_scope.

(** ** Hints *)

Definition HintKeyFromPod (pod : Pod) : string :=
  if bool_decide (PodUID pod ≠ "") then PodUID pod
  else PodNamespace pod +:+ "/" +:+ PodName pod.

Record Hints : Type := mkHints { current : gmap string string; old : gmap string string }.

Definition NewHints : Hints := mkHints ∅ ∅.

Definition Get (h : Hints) (hk : string) : option string :=
  match current h !! hk with Some v => Some v | None => old h !! hk end.

Definition Set_ (h : Hints) (hk nodeName : string) : Hints :=
  mkHints (<[hk := nodeName]> (current h)) (old h).

Definition DropOld (h : Hints) : Hints := mkHints ∅ (current h).

(** ** Results *)

Record Status : Type := mkStatus { StatusPod : Pod; StatusNodeName : string }.

Record Result : Type := mkResult {
  Statuses : list Status;
  UnprocessedPods : list Pod;
  OverflowingControllers : Z
}.

(** What [ctx.Err()] answers once the context is done. *)
Inductive context_error : Type := DeadlineExceeded | Canceled.

Inductive try_error : Type :=
| ContextError (e : context_error)
| ScheduleError (e : SchedulingError).

Section simulator.
Context `{GR : GoRange} `{SortSlice} `{KubeLib}.
Context {S Slice CSI T : Type} `{SchedNodeInfo S} `{!ClusterSnapshot S Slice CSI T}.
Abbreviation NI := (NodeInfo S Slice CSI).

(** [corev1helpers.PodPriority], and the spec of a pod with the comparison
    [utils.PodSpecSemanticallyEqual] of specs (modelled in Equivalence.v). *)
Context (PodPriority : Pod → Z) {PodSpec : Type} (Spec : Pod → PodSpec)
  (PodSpecSemanticallyEqual : PodSpec → PodSpec → bool).

(** The readings of [ctx.Err()], in order. *)
Context (ctx_Err : nat → option context_error).

Implicit Types (pod : Pod) (pods : list Pod) (t : T) (opts : SchedulingOptions S Slice CSI).

(** ** Similar pods *)

Record SimilarPodsSchedulingInfo : Type := mkPsi { psi_spec : PodSpec; psi_labels : gmap string string }.

Definition Match (psi : SimilarPodsSchedulingInfo) pod : bool :=
  bool_decide (PodLabels pod = psi_labels psi) && PodSpecSemanticallyEqual (Spec pod) (psi_spec psi).

Definition maxPodsPerOwnerRef : nat := 10.

Record SimilarPodsScheduling : Type := mkSimilar {
  items : gmap string (list SimilarPodsSchedulingInfo);
  overflowingControllers : gset string
}.

Definition NewSimilarPodsScheduling : SimilarPodsScheduling := mkSimilar ∅ ∅.

Definition IsSimilarUnschedulable (p : SimilarPodsScheduling) pod : bool :=
  match ControllerRef pod with
  | None => false
  | Some ref =>
      match items p !! OwnerUID ref with
      | Some infos => existsb (λ info, Match info pod) infos
      | None => false
      end
  end.

Definition SetUnschedulable (p : SimilarPodsScheduling) pod : SimilarPodsScheduling :=
  match ControllerRef pod with
  | None => p
  | Some ref =>
      if IsDaemonSetPod pod then p
      else
        let uid := OwnerUID ref in
        let pm := default [] (items p !! uid) in
        if bool_decide (maxPodsPerOwnerRef ≤ length pm)%nat
        then mkSimilar (items p) ({[uid]} ∪ overflowingControllers p)
        else mkSimilar (<[uid := pm ++ [mkPsi (Spec pod) (PodLabels pod)]]> (items p))
               (overflowingControllers p)
  end.

Definition OverflowingControllerCount (p : SimilarPodsScheduling) : Z :=
  Z.of_nat (size (overflowingControllers p)).

(** ** One pod *)

(** What a simulation changes: the snapshot, the hints, the similar pods, and
    how often the context was asked. *)
Record sim : Type := mkSim {
  sm_snap : T;
  sm_hints : Hints;
  sm_similar : SimilarPodsScheduling;
  sm_clock : nat
}.
Implicit Types (s : sim).

Definition with_snap s t : sim := mkSim t (sm_hints s) (sm_similar s) (sm_clock s).
Definition with_hint s t (hk nodeName : string) : sim :=
  mkSim t (Set_ (sm_hints s) hk nodeName) (sm_similar s) (sm_clock s).

Definition tryScheduleUsingHints s pod (isNodeAcceptable : option (NI → bool))
    : sim * result SchedulingError string :=
  let hk := HintKeyFromPod pod in
  match Get (sm_hints s) hk with
  | None => (s, Ok "")
  | Some hintedNode =>
      match GetNodeInfo (sm_snap s) hintedNode with
      | (t, Err _) => (with_snap s t, Ok "")
      | (t, Ok nodeInfo) =>
          if match isNodeAcceptable with Some f => negb (f nodeInfo) | None => false end
          then (with_snap s t, Ok "")
          else
            match SchedulePod t pod hintedNode with
            | (t, Some err) =>
                (with_snap s t, if IsInternal err then Err err else Ok "")
            | (t, None) => (with_hint s t hk hintedNode, Ok hintedNode)
            end
      end
  end.

Definition trySchedule s pod opts : sim * result SchedulingError string :=
  if IsSimilarUnschedulable (sm_similar s) pod then (s, Ok "")
  else
    match SchedulePodOnAnyNodeMatching (sm_snap s) pod opts with
    | (t, Err err) =>
        if IsInternal err then (with_snap s t, Err err)
        else (mkSim t (sm_hints s) (SetUnschedulable (sm_similar s) pod) (sm_clock s), Ok "")
    | (t, Ok newNodeName) => (with_hint s t (HintKeyFromPod pod) newNodeName, Ok newNodeName)
    end.

(** ** A priority group *)

Definition ask_context s : sim * option context_error :=
  (mkSim (sm_snap s) (sm_hints s) (sm_similar s) (Datatypes.S (sm_clock s)), ctx_Err (sm_clock s)).

(** The pods without hints, the statuses, the error. *)
Fixpoint tryScheduleWithHints s pods opts (podsWithoutHints : list Pod) (statuses : list Status)
    : sim * list Pod * list Status * option try_error :=
  match pods with
  | [] => (s, podsWithoutHints, statuses, None)
  | pod :: pods' =>
      match ask_context s with
      | (s, Some err) => (s, podsWithoutHints, statuses, Some (ContextError err))
      | (s, None) =>
          match tryScheduleUsingHints s pod (IsNodeAcceptable opts) with
          | (s, Err err) => (s, podsWithoutHints, statuses, Some (ScheduleError err))
          | (s, Ok nodeName) =>
              if bool_decide (nodeName = "")
              then tryScheduleWithHints s pods' opts (podsWithoutHints ++ [pod]) statuses
              else tryScheduleWithHints s pods' opts podsWithoutHints
                     (statuses ++ [mkStatus pod nodeName])
          end
      end
  end.

(** The unschedulable pods by UID, the statuses, the error. *)
Fixpoint tryScheduleWithoutHints s pods (unschedulablePods : gset string) (breakOnFailure : bool) opts
    (statuses : list Status) : sim * gset string * list Status * option try_error :=
  match pods with
  | [] => (s, unschedulablePods, statuses, None)
  | pod :: pods' =>
      match ask_context s with
      | (s, Some err) => (s, unschedulablePods, statuses, Some (ContextError err))
      | (s, None) =>
          match trySchedule s pod opts with
          | (s, Err err) => (s, unschedulablePods, statuses, Some (ScheduleError err))
          | (s, Ok nodeName) =>
              if negb (bool_decide (nodeName = ""))
              then tryScheduleWithoutHints s pods' unschedulablePods breakOnFailure opts
                     (statuses ++ [mkStatus pod nodeName])
              else if breakOnFailure then (s, {[PodUID pod]} ∪ unschedulablePods, statuses, None)
              else tryScheduleWithoutHints s pods' ({[PodUID pod]} ∪ unschedulablePods)
                     breakOnFailure opts statuses
          end
      end
  end.

(** ** All pods *)

Definition groupByPriority pods : list (list Pod) :=
  let podGroups := foldl (λ (m : gmap Z (list Pod)) pod,
    <[PodPriority pod := default [] (m !! PodPriority pod) ++ [pod]]> m) ∅ pods in
  let priorities := foldl (λ l kv, l ++ [kv.1]) [] (go_range podGroups) in
  let priorities := sort_slice (λ p, - p) priorities in
  foldl (λ result p, result ++ [default [] (podGroups !! p)]) [] priorities.

Definition newResult (allPods : list Pod) (unschedulablePods : gset string) (statuses : list Status)
    (similarPods : SimilarPodsScheduling) : Result :=
  let processed := foldl (λ (m : gset string) st, {[PodUID (StatusPod st)]} ∪ m) ∅ statuses in
  let unprocessed := foldl (λ l pod,
    if negb (bool_decide (PodUID pod ∈ processed)) && negb (bool_decide (PodUID pod ∈ unschedulablePods))
    then l ++ [pod] else l) [] allPods in
  mkResult statuses unprocessed (OverflowingControllerCount similarPods).

Definition handleContextError s pods (unschedulablePods : gset string) (statuses : list Status)
    (err : try_error) : result try_error Result :=
  match err with
  | ContextError _ => Ok (newResult pods unschedulablePods statuses (sm_similar s))
  | ScheduleError _ => Err err
  end.

(** The loop over the priority groups. *)
Fixpoint try_groups s (allPods : list Pod) (groups : list (list Pod)) (unschedulablePods : gset string)
    (breakOnFailure : bool) opts (statuses : list Status) : sim * result try_error Result :=
  match groups with
  | [] => (s, Ok (newResult allPods unschedulablePods statuses (sm_similar s)))
  | podGroup :: groups' =>
      match tryScheduleWithHints s podGroup opts [] [] with
      | (s, _, groupStatuses, Some err) =>
          (s, handleContextError s allPods unschedulablePods (statuses ++ groupStatuses) err)
      | (s, podsWithoutHints, groupStatuses, None) =>
          let statuses := statuses ++ groupStatuses in
          match tryScheduleWithoutHints s podsWithoutHints unschedulablePods breakOnFailure opts [] with
          | (s, unschedulablePods, groupStatuses, Some err) =>
              (s, handleContextError s allPods unschedulablePods (statuses ++ groupStatuses) err)
          | (s, unschedulablePods, groupStatuses, None) =>
              try_groups s allPods groups' unschedulablePods breakOnFailure opts
                (statuses ++ groupStatuses)
          end
      end
  end.

(** The simulator keeps the hints only; every call starts with no similar pods. *)
Definition TrySchedulePods (hints : Hints) t pods (breakOnFailure : bool) opts
    : T * Hints * result try_error Result :=
  let '(s, r) := try_groups (mkSim t hints NewSimilarPodsScheduling 0) pods (groupByPriority pods)
                   ∅ breakOnFailure opts [] in
  (sm_snap s, sm_hints s, r).

(** ** Where the pods go *)

(** The pods of the statuses are placed one after the other, each on a node
    that is acceptable when it is placed. *)
Inductive places opts (m : gmap string NI) : list Status → gmap string NI → Prop :=
| places_nil : places opts m [] m
| places_snoc sts m1 m2 pod n ni :
    places opts m sts m1 → m1 !! n = Some ni → acceptable opts ni = true → placed m1 m2 pod n →
    places opts m (sts ++ [mkStatus pod n]) m2.

(** The state of a simulation that began at [t0] and has placed [sts]. *)
Record placing opts t0 (sts : list Status) s : Prop := mkPlacing {
  placing_ok : snap_ok (sm_snap s);
  placing_saved : snap_saved (sm_snap s) = snap_saved t0;
  placing_nodes : places opts (snap_nodes t0) sts (snap_nodes (sm_snap s));
  placing_named : snap_nodes (sm_snap s) !! "" = None
}.

Lemma placing_ask opts t0 sts s s' e :
  ask_context s = (s', e) → placing opts t0 sts s → placing opts t0 sts s'.
Proof. unfold ask_context. intros [= <- _] [? ? ? ?]. by split. Qed.

(** A step that leaves the nodes alone. *)
Lemma placing_same opts t0 sts s s' :
  placing opts t0 sts s → snap_ok (sm_snap s') → snap_saved (sm_snap s') = snap_saved (sm_snap s) →
  snap_nodes (sm_snap s') = snap_nodes (sm_snap s) → placing opts t0 sts s'.
Proof.
  intros [Ho Hs Hp Hn] Ho' Hs' Hn'. split; [done|by rewrite Hs'|by rewrite Hn'|by rewrite Hn'].
Qed.

Lemma placed_named (m m' : gmap string NI) pod n k :
  placed m m' pod n → m' !! k = None ↔ m !! k = None.
Proof.
  intros (ni & pi & Hn & _ & ->). rewrite lookup_insert. case_decide; [subst|done].
  rewrite Hn. done.
Qed.

Lemma placing_placed opts t0 sts s s' pod n ni :
  placing opts t0 sts s → snap_ok (sm_snap s') → snap_saved (sm_snap s') = snap_saved (sm_snap s) →
  snap_nodes (sm_snap s) !! n = Some ni → acceptable opts ni = true →
  placed (snap_nodes (sm_snap s)) (snap_nodes (sm_snap s')) pod n →
  n ≠ "" ∧ placing opts t0 (sts ++ [mkStatus pod n]) s'.
Proof.
  intros [Ho Hs Hp Hn] Ho' Hs' Hni Hacc Hpl. split; [congruence|].
  split; [done|by rewrite Hs'|by eapply places_snoc|by eapply placed_named].
Qed.

(** What one attempt does: nothing, or the placement it reports. *)
Definition attempt opts t0 sts pod (s' : sim) (r : result SchedulingError string) : Prop :=
  match r with
  | Ok n => if bool_decide (n = "") then placing opts t0 sts s'
            else placing opts t0 (sts ++ [mkStatus pod n]) s'
  | Err _ => placing opts t0 sts s'
  end.

Lemma tryScheduleUsingHints_attempt opts t0 sts s pod :
  placing opts t0 sts s →
  let '(s', r) := tryScheduleUsingHints s pod (IsNodeAcceptable opts) in attempt opts t0 sts pod s' r.
Proof.
  intros Hs. unfold tryScheduleUsingHints. destruct (Get _ _) as [n|]; [|done].
  pose proof (snap_get (sm_snap s) n (placing_ok _ _ _ _ Hs)) as Hget.
  destruct (GetNodeInfo (sm_snap s) n) as [t1 r1]. destruct Hget as (Ho1 & Hs1 & Hn1 & ->).
  destruct (snap_nodes (sm_snap s) !! n) as [ni|] eqn:Hni; [|by eapply placing_same].
  destruct (match IsNodeAcceptable opts with Some f => negb (f ni) | None => false end) eqn:Hacc;
    [by eapply placing_same|].
  assert (acceptable opts ni = true) as Ha.
  { unfold acceptable. destruct (IsNodeAcceptable opts); [by apply negb_false_iff|done]. }
  pose proof (snap_schedule t1 pod n Ho1) as Hsch. destruct (SchedulePod t1 pod n) as [t2 e].
  destruct Hsch as (Ho2 & Hs2 & Hr). destruct e as [err|].
  - assert (placing opts t0 sts (with_snap s t2)) by (eapply placing_same; [exact Hs|exact Ho2|simpl; congruence..]).
    by destruct (IsInternal err).
  - rewrite Hn1 in Hr. destruct (placing_placed opts t0 sts s (with_hint s t2 (HintKeyFromPod pod) n) pod n ni)
      as [Hne Hp]; [done|done|simpl; congruence|done..|].
    unfold attempt. by rewrite bool_decide_false.
Qed.

Lemma trySchedule_attempt opts t0 sts s pod :
  placing opts t0 sts s →
  let '(s', r) := trySchedule s pod opts in attempt opts t0 sts pod s' r.
Proof.
  intros Hs. unfold trySchedule. destruct (IsSimilarUnschedulable _ _); [done|].
  pose proof (snap_schedule_any (sm_snap s) pod opts (placing_ok _ _ _ _ Hs)) as Hsch.
  destruct (SchedulePodOnAnyNodeMatching _ _ _) as [t1 [n|err]]; destruct Hsch as (Ho & Hsv & Hr).
  - destruct Hr as (Hpl & ni & Hni & Hacc).
    destruct (placing_placed opts t0 sts s (with_hint s t1 (HintKeyFromPod pod) n) pod n ni) as [Hne Hp];
      [done..|]. unfold attempt. by rewrite bool_decide_false.
  - destruct (IsInternal err); by eapply placing_same.
Qed.

(** The loops keep the placements, and give every pod to one list at most. *)
Lemma tryScheduleWithHints_placing opts t0 sts pods : ∀ s without statuses,
  placing opts t0 (sts ++ statuses) s →
  let '(s', without', statuses', err) := tryScheduleWithHints s pods opts without statuses in
  placing opts t0 (sts ++ statuses') s' ∧
  (StatusPod <$> statuses') ++ without' ⊆+ (StatusPod <$> statuses) ++ without ++ pods.
Proof.
  induction pods as [|pod pods IH]; intros s without statuses Hs; cbn [tryScheduleWithHints].
  { by rewrite app_nil_r. }
  destruct (ask_context s) as [s1 [e|]] eqn:Ha; apply (placing_ask opts t0 _ _ _ _ Ha) in Hs; [|clear Ha].
  { split; [done|]. rewrite app_assoc. by apply submseteq_inserts_r. }
  pose proof (tryScheduleUsingHints_attempt opts t0 _ s1 pod Hs) as Hatt.
  destruct (tryScheduleUsingHints s1 pod _) as [s2 [n|err]]; unfold attempt in Hatt.
  - case_bool_decide.
    + specialize (IH s2 (without ++ [pod]) statuses Hatt).
      destruct (tryScheduleWithHints _ _ _ _ _) as [[[s' w'] st'] e']. destruct IH as [? IH].
      split; [done|]. by rewrite <- !app_assoc in IH.
    + rewrite <- app_assoc in Hatt. specialize (IH s2 without (statuses ++ [mkStatus pod n]) Hatt).
      destruct (tryScheduleWithHints _ _ _ _ _) as [[[s' w'] st'] e']. destruct IH as [? IH].
      split; [done|]. etrans; [exact IH|]. rewrite fmap_app, <- app_assoc. simpl.
      apply submseteq_app; [done|]. by rewrite Permutation_middle.
  - split; [done|]. rewrite app_assoc. by apply submseteq_inserts_r.
Qed.

Lemma tryScheduleWithoutHints_placing opts t0 sts brk pods : ∀ s uns statuses,
  placing opts t0 (sts ++ statuses) s →
  let '(s', uns', statuses', err) := tryScheduleWithoutHints s pods uns brk opts statuses in
  placing opts t0 (sts ++ statuses') s' ∧
  (StatusPod <$> statuses') ⊆+ (StatusPod <$> statuses) ++ pods.
Proof.
  induction pods as [|pod pods IH]; intros s uns statuses Hs; cbn [tryScheduleWithoutHints].
  { by rewrite app_nil_r. }
  destruct (ask_context s) as [s1 [e|]] eqn:Ha; apply (placing_ask opts t0 _ _ _ _ Ha) in Hs; [|clear Ha].
  { split; [done|]. by apply submseteq_inserts_r. }
  pose proof (trySchedule_attempt opts t0 _ s1 pod Hs) as Hatt.
  destruct (trySchedule s1 pod opts) as [s2 [n|err]]; unfold attempt in Hatt.
  - case_bool_decide; simpl.
    + destruct brk; [split; [done|]; by apply submseteq_inserts_r|].
      specialize (IH s2 ({[PodUID pod]} ∪ uns) statuses Hatt).
      destruct (tryScheduleWithoutHints _ _ _ _ _ _) as [[[s' u'] st'] e']. destruct IH as [? IH].
      split; [done|]. etrans; [exact IH|]. apply submseteq_app; [done|]. by apply submseteq_cons.
    + rewrite <- app_assoc in Hatt. specialize (IH s2 uns (statuses ++ [mkStatus pod n]) Hatt).
      destruct (tryScheduleWithoutHints _ _ _ _ _ _) as [[[s' u'] st'] e']. destruct IH as [? IH].
      split; [done|]. etrans; [exact IH|]. by rewrite fmap_app, <- app_assoc.
  - split; [done|]. by apply submseteq_inserts_r.
Qed.

Lemma try_groups_placing opts t0 brk allPods groups : ∀ s uns statuses,
  placing opts t0 statuses s →
  let '(s', r) := try_groups s allPods groups uns brk opts statuses in
  ∃ sts, placing opts t0 sts s' ∧ StatusPod <$> sts ⊆+ (StatusPod <$> statuses) ++ concat groups ∧
    ∀ res, r = Ok res → Statuses res = sts.
Proof.
  induction groups as [|g groups IH]; intros s uns statuses Hs; cbn [try_groups].
  { exists statuses. rewrite app_nil_r. split_and!; [done..|]. by intros res [= <-]. }
  assert (∀ u sts (s' : sim) err res, handleContextError s' allPods u sts err = Ok res → Statuses res = sts)
    as Hctx by (intros ???[] ?; simpl; [by intros [= <-]|done]).
  rewrite <- (app_nil_r statuses) in Hs.
  pose proof (tryScheduleWithHints_placing opts t0 statuses g s [] [] Hs) as HW1.
  destruct (tryScheduleWithHints s g opts [] []) as [[[s1 w] st1] [err|]]; destruct HW1 as [Hp1 Hm1]; simpl in Hm1.
  { exists (statuses ++ st1). rewrite fmap_app. split_and!; [done| |by intros; eapply Hctx].
    apply submseteq_app; [done|]. simpl. apply submseteq_inserts_r.
    etrans; [|exact Hm1]. by apply submseteq_inserts_r. }
  rewrite <- (app_nil_r (statuses ++ st1)) in Hp1.
  pose proof (tryScheduleWithoutHints_placing opts t0 (statuses ++ st1) brk w s1 uns [] Hp1) as HW2.
  destruct (tryScheduleWithoutHints s1 w uns brk opts []) as [[[s2 uns'] st2] [err|]];
    destruct HW2 as [Hp2 Hm2]; simpl in Hm2.
  { exists ((statuses ++ st1) ++ st2). split_and!; [done| |by intros; eapply Hctx].
    rewrite !fmap_app, <- app_assoc.
    apply submseteq_app; [done|]. simpl. apply submseteq_inserts_r.
    etrans; [|exact Hm1]. by apply submseteq_app. }
  specialize (IH s2 uns' ((statuses ++ st1) ++ st2) Hp2).
  destruct (try_groups s2 _ _ _ _ _ _) as [s' r]. destruct IH as (sts & Hp & Hm & Hr).
  exists sts. split_and!; [done| |done]. etrans; [exact Hm|]. rewrite !fmap_app, <- !app_assoc.
  apply submseteq_app; [done|]. simpl. rewrite app_assoc. apply submseteq_app; [|done].
  etrans; [|exact Hm1]. by apply submseteq_app.
Qed.

(** ** Priorities *)

Definition priority_groups pods : gmap Z (list Pod) :=
  foldl (λ (m : gmap Z (list Pod)) pod,
    <[PodPriority pod := default [] (m !! PodPriority pod) ++ [pod]]> m) ∅ pods.

Lemma lookup_priority_groups pods p :
  priority_groups pods !! p =
  match filter (λ x, PodPriority x = p) pods with [] => None | l => Some l end.
Proof.
  unfold priority_groups. revert p. induction pods as [|x pods IH] using rev_ind; intros p; [done|].
  rewrite foldl_app, filter_app, filter_cons, filter_nil. cbn [foldl]. rewrite lookup_insert.
  case_decide as Hp; [subst|by rewrite app_nil_r, IH].
  rewrite IH. by destruct (filter _ pods).
Qed.

(** The groups are those of the priorities that occur, from the highest down. *)
Lemma groupByPriority_spec pods :
  ∃ ps, groupByPriority pods = (λ p, filter (λ x, PodPriority x = p) pods) <$> ps ∧
    StronglySorted (λ p q, q < p) ps ∧ (∀ p, p ∈ ps ↔ p ∈ PodPriority <$> pods).
Proof.
  unfold groupByPriority. fold (priority_groups pods). rewrite !foldl_snoc_fmap. cbn [app].
  set (keys := fst <$> go_range (priority_groups pods)).
  assert (sort_slice (λ p, - p) keys ≡ₚ keys) as Hperm by apply sort_slice_perm.
  assert (NoDup (sort_slice (λ p, - p) keys)) as Hnd
    by (rewrite Hperm; apply NoDup_go_range_fst).
  assert (∀ p, p ∈ sort_slice (λ p, - p) keys ↔ p ∈ PodPriority <$> pods) as Hin.
  { intros p. rewrite Hperm. unfold keys. rewrite !list_elem_of_fmap. split.
    - intros ([q l] & -> & Hq). apply elem_of_go_range in Hq. rewrite lookup_priority_groups in Hq.
      destruct (filter _ pods) as [|x l'] eqn:Hf; [done|].
      assert (x ∈ x :: l') as Hx by left. rewrite <- Hf in Hx. apply list_elem_of_filter in Hx as [<- Hx].
      by exists x.
    - intros (x & -> & Hx). 
      assert (x ∈ filter (λ y, PodPriority y = PodPriority x) pods) as Hf by by apply list_elem_of_filter.
      exists (PodPriority x, filter (λ y, PodPriority y = PodPriority x) pods). split; [done|].
      apply elem_of_go_range. rewrite lookup_priority_groups.
      destruct (filter _ pods); [by apply elem_of_nil in Hf|done]. }
  exists (sort_slice (λ p, - p) keys). split_and!; [| |done].
  - apply list_fmap_ext. intros i p Hp%list_elem_of_lookup_2. rewrite lookup_priority_groups.
    by destruct (filter _ pods).
  - pose proof (sort_slice_sorted (λ p, - p) keys) as Hs. clear -Hs Hnd. revert Hnd.
    induction Hs as [|p ps _ IH Hp]; [constructor|]. rewrite NoDup_cons. intros [Hni Hnd].
    constructor; [by apply IH|]. rewrite Forall_forall in Hp |- *. intros q Hq. specialize (Hp q Hq).
    assert (p ≠ q) by (intros ->; done). simpl in *. lia.
Qed.

Lemma concat_filter_perm pods ps :
  NoDup ps → (∀ x, x ∈ pods → PodPriority x ∈ ps) →
  concat ((λ p, filter (λ x, PodPriority x = p) pods) <$> ps) ≡ₚ pods.
Proof.
  intros Hnd. revert pods. induction Hnd as [|p ps Hp _ IH]; intros pods Hin; simpl.
  { destruct pods as [|x pods]; [done|]. exfalso. apply (not_elem_of_nil (PodPriority x)), Hin. left. }
  rewrite <- (filter_app_complement (λ x, PodPriority x = p) pods) at 2.
  apply Permutation_app; [done|].
  rewrite <- (IH (filter (λ x, PodPriority x ≠ p) pods)).
  - apply (reflexive_eq (R := (≡ₚ))). f_equal. apply list_fmap_ext. intros i q Hq%list_elem_of_lookup_2.
    assert (q ≠ p) by (intros ->; done).
    rewrite list_filter_filter. apply list_filter_iff. intros x. intuition congruence.
  - intros x [Hx Hx']%list_elem_of_filter. specialize (Hin x Hx'). set_solver.
Qed.

Lemma StronglySorted_gt_NoDup (ps : list Z) : StronglySorted (λ p q, q < p) ps → NoDup ps.
Proof.
  induction 1 as [|p ps _ IH Hp]; constructor; [|done]. intros Hin.
  rewrite Forall_forall in Hp. specialize (Hp p Hin). simpl in Hp. lia.
Qed.

Lemma groupByPriority_perm pods : concat (groupByPriority pods) ≡ₚ pods.
Proof.
  destruct (groupByPriority_spec pods) as (ps & -> & Hs & Hin).
  apply concat_filter_perm; [by apply StronglySorted_gt_NoDup|].
  intros x Hx. apply Hin. by apply list_elem_of_fmap_2.
Qed.

Lemma TrySchedulePods_places (hints : Hints) t pods (breakOnFailure : bool) opts :
  snap_ok t → snap_nodes t !! "" = None →
  let '(t', _, r) := TrySchedulePods hints t pods breakOnFailure opts in
  snap_ok t' ∧ snap_saved t' = snap_saved t ∧
  ∃ sts, places opts (snap_nodes t) sts (snap_nodes t') ∧ StatusPod <$> sts ⊆+ pods ∧
    ∀ res, r = Ok res → Statuses res = sts ∧
      (length (Statuses res) = length pods → StatusPod <$> Statuses res ≡ₚ pods).
Proof.
  intros Ht Hn. unfold TrySchedulePods.
  pose proof (try_groups_placing opts t breakOnFailure pods (groupByPriority pods)
    (mkSim t hints NewSimilarPodsScheduling 0) ∅ []) as Hg.
  destruct (try_groups _ _ _ _ _ _ _) as [s r].
  destruct Hg as (sts & [Hok Hsv Hp _] & Hm & Hr); [by split; try constructor|].
  simpl in Hm. rewrite groupByPriority_perm in Hm. split_and!; [done..|].
  exists sts. split_and!; [done..|]. intros res Hres. rewrite (Hr res Hres). split; [done|].
  intros Hlen. apply submseteq_length_Permutation; [done|]. rewrite length_fmap. lia.
Qed.

(** C29. A scheduling simulation only does what it reports: the snapshot after it
    is the snapshot before it with the pods of the statuses placed one after
    the other, each on a node that exists and is acceptable when the pod is
    placed; every pod is placed at most once, no pod is invented, and the
    enclosing forks are untouched, whatever the hints, the similar pods, the
    deadline and the scheduler say. When there are as many statuses as pods,
    every pod has been placed. *)
Theorem simulation_places_what_it_reports (hints : Hints) t pods (breakOnFailure : bool) opts :
  snap_ok t → snap_nodes t !! "" = None →
  let '(t', _, r) := TrySchedulePods hints t pods breakOnFailure opts in
  snap_ok t' ∧ snap_saved t' = snap_saved t ∧
  ∃ sts, places opts (snap_nodes t) sts (snap_nodes t') ∧ StatusPod <$> sts ⊆+ pods ∧
    ∀ res, r = Ok res → Statuses res = sts ∧
      (length (Statuses res) = length pods → StatusPod <$> Statuses res ≡ₚ pods).
Proof.
  intros Ht Hn. apply TrySchedulePods_places; done.
Qed.


(** *** What is left unprocessed *)

Lemma foldl_insert_set {A} (f : A → string) l (X : gset string) x :
  x ∈ foldl (λ (m : gset string) a, {[f a]} ∪ m) X l ↔ x ∈ X ∨ x ∈ f <$> l.
Proof. revert X. induction l as [|a l IH]; intros X; csimpl; [set_solver|]. rewrite IH. set_solver. Qed.

Definition placed_uids (sts : list Status) : list string := (λ st, PodUID (StatusPod st)) <$> sts.

(** The unprocessed pods of a result: neither placed nor found unschedulable. *)
Lemma newResult_unprocessed pods (uns : gset string) sts sim :
  UnprocessedPods (newResult pods uns sts sim) =
  filter (λ pod, (PodUID pod ∉ placed_uids sts) ∧ (PodUID pod ∉ uns)) pods.
Proof.
  unfold newResult. cbn [UnprocessedPods]. rewrite foldl_keep. apply list_filter_iff. intros pod.
  rewrite andb_true_iff, !negb_true_iff, !bool_decide_eq_false, foldl_insert_set. set_solver.
Qed.

Lemma try_groups_unprocessed opts brk allPods groups : ∀ s uns statuses s' res,
  try_groups s allPods groups uns brk opts statuses = (s', Ok res) →
  ∃ uns' : gset string, UnprocessedPods res =
    filter (λ pod, (PodUID pod ∉ placed_uids (Statuses res)) ∧ (PodUID pod ∉ uns')) allPods.
Proof.
  induction groups as [|g groups IH]; intros s uns statuses s' res; cbn [try_groups].
  { intros [= _ <-]. eexists. by rewrite newResult_unprocessed. }
  assert (∀ u sts (s1 s2 : sim) err, (s1, handleContextError s2 allPods u sts err) = (s', Ok res) →
    ∃ uns' : gset string, UnprocessedPods res =
      filter (λ pod, (PodUID pod ∉ placed_uids (Statuses res)) ∧ (PodUID pod ∉ uns')) allPods) as Hctx.
  { intros u sts s1 s2 [e|e]; [|done]. intros [= _ <-]. eexists. by rewrite newResult_unprocessed. }
  destruct (tryScheduleWithHints s g opts [] []) as [[[s1 w] st1] [err|]]; [apply Hctx|].
  destruct (tryScheduleWithoutHints s1 w uns brk opts []) as [[[s2 uns'] st2] [err|]]; [apply Hctx|apply IH].
Qed.

Lemma TrySchedulePods_unprocessed (hints : Hints) t pods (breakOnFailure : bool) opts res :
  (TrySchedulePods hints t pods breakOnFailure opts).2 = Ok res →
  ∃ uns : gset string, UnprocessedPods res =
    filter (λ pod, (PodUID pod ∉ placed_uids (Statuses res)) ∧ (PodUID pod ∉ uns)) pods.
Proof.
  unfold TrySchedulePods. destruct (try_groups _ _ _ _ _ _ _) as [s r] eqn:Hg. simpl. intros ->.
  by eapply try_groups_unprocessed.
Qed.


(** *** Without a deadline every pod is tried *)

Lemma tryScheduleWithHints_covers opts : (∀ i, ctx_Err i = None) → ∀ pods s without statuses s' w' st',
  tryScheduleWithHints s pods opts without statuses = (s', w', st', None) →
  ∀ pod, pod ∈ pods ∨ pod ∈ without ∨ pod ∈ StatusPod <$> statuses → pod ∈ w' ∨ pod ∈ StatusPod <$> st'.
Proof.
  intros Hctx. induction pods as [|p pods IH]; intros s without statuses s' w' st'; cbn [tryScheduleWithHints].
  { intros [= <- <- <-] pod [[]%not_elem_of_nil|?]; done. }
  unfold ask_context at 1. rewrite Hctx.
  destruct (tryScheduleUsingHints _ p _) as [s2 [n|err]]; [|done].
  case_bool_decide; intros Hr pod Hpod; apply (IH _ _ _ _ _ _ Hr pod); rewrite elem_of_cons in Hpod.
  - rewrite elem_of_app, list_elem_of_singleton. tauto.
  - rewrite fmap_app, elem_of_app. csimpl. rewrite list_elem_of_singleton. tauto.
Qed.

Lemma tryScheduleWithoutHints_covers opts : (∀ i, ctx_Err i = None) → ∀ pods s (uns : gset string) statuses s' uns' st',
  tryScheduleWithoutHints s pods uns false opts statuses = (s', uns', st', None) →
  uns ⊆ uns' ∧ ∀ pod, pod ∈ pods ∨ pod ∈ StatusPod <$> statuses → PodUID pod ∈ uns' ∨ pod ∈ StatusPod <$> st'.
Proof.
  intros Hctx. induction pods as [|p pods IH]; intros s uns statuses s' uns' st'; cbn [tryScheduleWithoutHints].
  { intros [= <- <- <-]. split; [done|]. intros pod [[]%not_elem_of_nil|?]. by right. }
  unfold ask_context at 1. rewrite Hctx.
  destruct (trySchedule _ p _) as [s2 [n|err]]; [|done].
  case_bool_decide; simpl; intros Hr; destruct (IH _ _ _ _ _ _ Hr) as [Hsub Hc].
  - split; [intros x Hx; apply Hsub, elem_of_union_r, Hx|]. intros pod. rewrite elem_of_cons.
    intros [[-> |Hpod]|Hpod]; [left; apply Hsub, elem_of_union_l; by apply elem_of_singleton|by apply Hc; left|by apply Hc; right].
  - split; [done|]. intros pod. rewrite elem_of_cons. intros [[-> |Hpod]|Hpod]; apply Hc.
    + right. rewrite fmap_app, elem_of_app. right. left.
    + by left.
    + right. rewrite fmap_app, elem_of_app. by left.
Qed.

Lemma try_groups_covers opts allPods groups : (∀ i, ctx_Err i = None) → ∀ s (uns : gset string) statuses s' res,
  (∀ pod, pod ∈ allPods → PodUID pod ∈ uns ∨ pod ∈ (StatusPod <$> statuses) ∨ pod ∈ concat groups) →
  try_groups s allPods groups uns false opts statuses = (s', Ok res) → UnprocessedPods res = [].
Proof.
  intros Hctx. induction groups as [|g groups IH]; intros s uns statuses s' res Hall; cbn [try_groups].
  { intros [= _ <-]. rewrite newResult_unprocessed. apply filter_none. intros pod Hpod [Hn1 Hn2].
    destruct (Hall pod Hpod) as [?|[Hin|Hin]]; [done| |by apply not_elem_of_nil in Hin].
    apply Hn1. unfold placed_uids. apply list_elem_of_fmap in Hin as (st & -> & Hst). apply list_elem_of_fmap. by exists st. }
  destruct (tryScheduleWithHints s g opts [] []) as [[[s1 w] st1] err1] eqn:Hw1. destruct err1 as [err|].
  { intros [= _ Heq]. destruct err as [e|e]; [|done]. simpl in Heq.
    exfalso. clear -Hw1 Hctx. revert Hw1. generalize (@nil Pod) (@nil Status). revert s.
    induction g as [|p g IH]; intros s w0 st0; cbn [tryScheduleWithHints]; [done|].
    unfold ask_context at 1. rewrite Hctx. destruct (tryScheduleUsingHints _ p _) as [s2 [n|err]]; [|done].
    case_bool_decide; apply IH. }
  destruct (tryScheduleWithoutHints s1 w uns false opts []) as [[[s2 uns'] st2] err2] eqn:Hw2. destruct err2 as [err|].
  { intros [= _ Heq]. destruct err as [e|e]; [|done]. simpl in Heq.
    exfalso. clear -Hw2 Hctx. revert Hw2. generalize (@nil Status). revert s1 uns.
    induction w as [|p w IH]; intros s uns st0; cbn [tryScheduleWithoutHints]; [done|].
    unfold ask_context at 1. rewrite Hctx. destruct (trySchedule _ p _) as [s3 [n|err]]; [|done].
    case_bool_decide; simpl; apply IH. }
  apply IH. intros pod Hpod.
  destruct (tryScheduleWithoutHints_covers opts Hctx _ _ _ _ _ _ _ Hw2) as [Hsub Hc].
  rewrite !fmap_app, !elem_of_app. destruct (Hall pod Hpod) as [?|[?|Hin]]; [left; by apply Hsub|tauto|].
  cbn [concat] in Hin. apply elem_of_app in Hin as [Hin|?]; [|tauto].
  destruct (tryScheduleWithHints_covers opts Hctx _ _ _ _ _ _ _ Hw1 pod) as [Hw|Hst]; [by left| |tauto].
  destruct (Hc pod (or_introl Hw)) as [?|?]; tauto.
Qed.

Lemma TrySchedulePods_covers (hints : Hints) t pods opts res : (∀ i, ctx_Err i = None) →
  (TrySchedulePods hints t pods false opts).2 = Ok res → UnprocessedPods res = [].
Proof.
  intros Hctx. unfold TrySchedulePods. destruct (try_groups _ _ _ _ _ _ _) as [s r] eqn:Hg. simpl. intros ->.
  eapply try_groups_covers; [done| |exact Hg]. intros pod Hpod. right. right. by rewrite groupByPriority_perm.
Qed.
End simulator.

(** ** Hints over a history *)

Inductive hint_event : Type := HintSet (hk nodeName : string) | HintDropOld.

Definition hint_step (h : Hints) (ev : hint_event) : Hints :=
  match ev with HintSet hk n => Set_ h hk n | HintDropOld => DropOld h end.

(** The last value set, looking back over at most [drops] calls of [DropOld]. *)
Fixpoint last_hint (hk : string) (drops : nat) (newest_first : list hint_event) : option string :=
  match newest_first with
  | [] => None
  | HintSet k n :: evs => if bool_decide (k = hk) then Some n else last_hint hk drops evs
  | HintDropOld :: evs => match drops with O => None | S d => last_hint hk d evs end
  end.

(** A hint lives for two generations: after any history of settings and
    drops, [Get] answers the last node set for the key, unless [DropOld] has
    been called twice since. *)
Theorem hints_live_two_generations (evs : list hint_event) (hk : string) :
  Get (foldl hint_step NewHints evs) hk = last_hint hk 1 (reverse evs).
Proof.
  assert (current (foldl hint_step NewHints evs) !! hk = last_hint hk 0 (reverse evs) ∧
    Get (foldl hint_step NewHints evs) hk = last_hint hk 1 (reverse evs)) as [_ ?]; [|done].
  induction evs as [|ev evs IH] using rev_ind; [done|].
  rewrite foldl_app, reverse_app. destruct (foldl hint_step NewHints evs) as [c o].
  unfold Get in *. simpl in *. destruct IH as [IH1 IH2]. destruct ev as [k n|]; simpl.
  - rewrite lookup_insert. case_decide; [subst|].
    + by rewrite bool_decide_true.
    + by rewrite bool_decide_false.
  - rewrite lookup_empty. by rewrite IH1.
Qed.

(** ** A concrete simulation: every node takes two pods, none takes "big" *)

Definition demo_fits (ni : NodeInfo demo_sched unit unit) (pod : Pod) : bool :=
  bool_decide (length (GetPods ni) < 2)%nat && negb (bool_decide (PodName pod = "big")).
#[local] Instance demo_kl : KubeLib := demo_kubelib.
#[local] Instance demo_cs : ClusterSnapshot demo_sched unit unit (spec_state demo_sched unit unit) :=
  ref_snapshot demo_fits.

Definition demo_cluster : spec_state demo_sched unit unit :=
  mkSpec (list_to_map ((λ n, (n, mkNodeInfo (named_node n, []) [] None)) <$> ["n1"; "n2"]%string)) [].
Definition demo_p (name : string) : Pod := simple_pod "default" name ∅ [].
Definition demo_opts : SchedulingOptions demo_sched unit unit :=
  mkSchedulingOptions None (Some (λ ni, bool_decide (NodeName ni ≠ "n1"%string))).
Definition demo_priority (pod : Pod) : Z := if bool_decide (PodName pod = "big"%string) then 10 else 0.

Definition demo_try (names : list string) (breakOnFailure : bool) :
    spec_state demo_sched unit unit * Hints * result try_error Result :=
  TrySchedulePods demo_priority (λ p, p) (λ _ _, true) (λ _, None) NewHints demo_cluster
    (demo_p <$> names) breakOnFailure demo_opts.

Lemma demo_cluster_ok : snap_ok demo_cluster ∧ snap_nodes demo_cluster !! ""%string = None.
Proof.
  split; [|reflexivity]. split; [|constructor].
  intros n ni Hn. apply elem_of_list_to_map_2 in Hn.
  apply list_elem_of_fmap in Hn as (m & [= -> ->] & _). reflexivity.
Qed.

Lemma simulation_places_what_it_reports_witness :
  let '(t', _, r) := demo_try ["a"; "b"]%string true in
  snap_saved t' = [] ∧ ∃ res, r = Ok res ∧ StatusPod <$> Statuses res ≡ₚ demo_p <$> ["a"; "b"]%string.
Proof.
  destruct demo_cluster_ok as [Hok Hn].
  pose proof (simulation_places_what_it_reports demo_priority (λ p, p) (λ _ _, true) (λ _, None)
    NewHints demo_cluster (demo_p <$> ["a"; "b"]%string) true demo_opts Hok Hn) as H.
  unfold demo_try. destruct (TrySchedulePods _ _ _ _ _ _ _ _ _) as [[t' h'] r] eqn:He.
  destruct H as (_ & Hs & sts & _ & _ & Hr). split; [exact Hs|].
  apply (f_equal (λ x, match x.2 with Ok res => Some (length (Statuses res)) | Err _ => None end)) in He.
  vm_compute in He. destruct r as [res|]; [|discriminate He]. injection He as He.
  exists res. split; [reflexivity|]. destruct (Hr res eq_refl) as [_ Hp]. apply Hp.
  transitivity 2%nat; [symmetry; exact He|reflexivity].
Defined.

(** With [breakOnFailure] the pods after a failure are skipped within a
    priority, but the next priority is still tried. *)
Example break_on_failure_next_priority :
  match demo_try ["big"; "a"]%string true with
  | (_, _, Ok res) => (λ st, (PodName (StatusPod st), StatusNodeName st)) <$> Statuses res
  | _ => []
  end = [("a", "n2")]%string.
Proof. vm_compute. reflexivity. Qed.
