(* ===== verification/PodLists.v ===== *)
(** The pods a scale-up is asked to help: how the pods of the cluster are
    arranged (src/pkg/utils/kubernetes/listers.go), the chain of pod list
    processors (src/pkg/core/podlistprocessor, src/pkg/processors/pods) and the
    tests on their age (src/pkg/core/utils, src/pkg/core/static_autoscaler.go). *)
From stdpp Require Import prelude gmap strings list numbers sorting fin_maps fin_sets.
From S2P Require Import Prelude Api Drain Framework ClusterSnapshot Hinting.
Local Open Scope Z_scope.
Local Open Scope ca_scope.

(** ** Pods of the cluster *)

Definition isScheduled (pod : Pod) : bool := negb (bool_decide (PodNodeName pod = "")).
Definition isDeleted (pod : Pod) : bool := bool_decide (is_Some (PodDeletionTimestamp pod)).

(** [AllPodLister.List]: pods that ended are left out. *)
Definition AllPodLister_List (allPods : list Pod) : list Pod :=
  filter (λ p, PodStatusPhase p ≠ PodSucceeded ∧ PodStatusPhase p ≠ PodFailed) allPods.

Definition ScheduledPods (allPods : list Pod) : list Pod :=
  foldl (λ l pod, if isScheduled pod then l ++ [pod] else l) [] allPods.

Definition PodReasonUnschedulable : string := "Unschedulable".
Definition PodReasonSchedulingGated : string := "SchedulingGated".

Record PodsBySchedulability : Type := mkPodsBy {
  Scheduled : list Pod; NominatedNode : list Pod; UnschedulablePods : list Pod; Unprocessed : list Pod
}.

Definition arrange_step (bypassedSchedulers : gset string) (by_ : PodsBySchedulability) (pod : Pod)
    : PodsBySchedulability :=
  let '(mkPodsBy scheduled nominated unschedulable unprocessed) := by_ in
  if isScheduled pod then mkPodsBy (scheduled ++ [pod]) nominated unschedulable unprocessed
  else if isDeleted pod then by_
  else if negb (bool_decide (PodNominatedNodeName pod = ""))
  then mkPodsBy scheduled (nominated ++ [pod]) unschedulable unprocessed
  else
    if match PodScheduledCondition pod with
       | Some (status, reason) =>
           bool_decide (status = ConditionFalse) && bool_decide (reason = PodReasonUnschedulable)
       | None => false
       end
    then mkPodsBy scheduled nominated (unschedulable ++ [pod]) unprocessed
    else if bool_decide (PodSchedulerName pod ∈ bypassedSchedulers)
    then if match PodScheduledCondition pod with
            | Some (status, reason) => bool_decide (status = ConditionFalse) && bool_decide (reason = ""%string)
            | None => true
            end
         then mkPodsBy scheduled nominated unschedulable (unprocessed ++ [pod])
         else by_
    else by_.

Definition ArrangePodsBySchedulability (allPods : list Pod) (bypassedSchedulers : gset string) : PodsBySchedulability :=
  foldl (arrange_step bypassedSchedulers) (mkPodsBy [] [] [] []) allPods.

Definition FilterOutPodsByScheduler (allPods : list Pod) (allowedSchedulers : gset string) : list Pod :=
  foldl (λ l pod, if bool_decide (PodSchedulerName pod ∈ allowedSchedulers) then l ++ [pod] else l) [] allPods.

Definition isSchedulingGated (pod : Pod) : bool :=
  if isScheduled pod || isDeleted pod then false
  else match PodScheduledCondition pod with
       | Some (status, reason) =>
           bool_decide (status = ConditionFalse) && bool_decide (reason = PodReasonSchedulingGated)
       | None => false
       end.

Definition SchedulingGatedPods (allPods : list Pod) : list Pod :=
  foldl (λ l pod, if isSchedulingGated pod then l ++ [pod] else l) [] allPods.

(** [listPods] of the main loop, after the lister. *)
Definition listPods (pods : list Pod) (bypassedSchedulers allowedSchedulers : gset string) : PodsBySchedulability :=
  ArrangePodsBySchedulability
    (if bool_decide (allowedSchedulers = ∅) then pods else FilterOutPodsByScheduler pods allowedSchedulers)
    bypassedSchedulers.

(** ** Expendable pods *)

Definition IsExpendablePod (pod : Pod) (expendablePodsPriorityCutoff : Z) : bool :=
  match PodSpecPriority pod with Some p => p <? expendablePodsPriorityCutoff | None => false end.

Definition FilterOutExpendablePods (pods : list Pod) (expendablePodsPriorityCutoff : Z) : list Pod :=
  foldl (λ l pod, if negb (IsExpendablePod pod expendablePodsPriorityCutoff) then l ++ [pod] else l) [] pods.

(** ** Ages *)

Definition unschedulablePodTimeBuffer : Z := 2 * 10 ^ 9.
Definition unschedulablePodWithGpuTimeBuffer : Z := 30 * 10 ^ 9.
Definition PodScaleUpDelayAnnotationKey : string := "cluster-autoscaler.kubernetes.io/pod-scale-up-delay".
Definition GPUVendorResourceNames : list string :=
  ["nvidia.com/gpu"; "habana.ai/gaudi"; "gpu.intel.com/xe"; "amd.com/gpu"; "microsoft.com/directx"]%string.

(** The zero time of a pod without a creation time is long ago. *)
Definition zero_creation : Z := - 10 ^ 30.
Definition created (pod : Pod) : Z := default zero_creation (PodCreationTimestamp pod).

Section ages.
(** The requests of a pod (the resource helpers of Kubernetes) and
    [time.ParseDuration]. *)
Context (PodRequests : Pod → gmap string Z) (ParseDuration : string → option Z).

Definition PodRequestsGpu (pod : Pod) : bool :=
  existsb (λ name, bool_decide (is_Some (PodRequests pod !! name))) GPUVendorResourceNames.

(** [now] is the reading of the clock the search starts from. *)
Definition GetOldestCreateTime (now : Z) (pods : list Pod) : Z :=
  foldl (λ oldest pod, if created pod <? oldest then created pod else oldest) now pods.

Definition GetOldestCreateTimeWithGpu (now : Z) (pods : list Pod) : bool * Z :=
  foldl (λ st pod, if PodRequestsGpu pod
                   then (true, if created pod <? st.2 then created pod else st.2) else st) (false, now) pods.

Definition allPodsAreNew (now now' : Z) (pods : list Pod) (currentTime : Z) : bool :=
  if currentTime <? GetOldestCreateTime now pods + unschedulablePodTimeBuffer then true
  else
    let '(found, oldest) := GetOldestCreateTimeWithGpu now' pods in
    found && (currentTime <? oldest + unschedulablePodWithGpuTimeBuffer).

(** The delay of a pod: its annotation may only make it longer. *)
Definition pod_scale_up_delay (newPodScaleUpDelay : Z) (pod : Pod) : Z :=
  match PodAnnotations pod !! PodScaleUpDelayAnnotationKey with
  | None => newPodScaleUpDelay
  | Some s => match ParseDuration s with
              | None => newPodScaleUpDelay
              | Some d => if d <? newPodScaleUpDelay then newPodScaleUpDelay else d
              end
  end.

(** [Time.Sub] saturates. *)
Definition time_sub (a b : Z) : Z := Z.max int64_min (Z.min int64_max (a - b)).

Definition filterOutYoungPods (newPodScaleUpDelay : Z) (allUnschedulablePods : list Pod) (currentTime : Z) : list Pod :=
  foldl (λ l pod, if pod_scale_up_delay newPodScaleUpDelay pod <? time_sub currentTime (created pod)
                  then l ++ [pod] else l) [] allUnschedulablePods.
End ages.

(** ** The pod list processors *)

Inductive degradation_event : Type := GracefulDegradationStarted | GracefulDegradationStopped.

Section processors.
Context `{GR : GoRange} `{SS : SortSlice} `{KL : KubeLib}.
Context {S Slice CSI T : Type} `{SN : SchedNodeInfo S} `{CS : !ClusterSnapshot S Slice CSI T}.
Abbreviation NI := (NodeInfo S Slice CSI).
Context (PodPriority : Pod → Z) {PodSpec : Type} (Spec : Pod → PodSpec)
  (PodSpecSemanticallyEqual : PodSpec → PodSpec → bool).
(** The timeout of the batch of pending pods, the nodes pods may be packed on,
    the nodes being drained, and the options. *)
Context (ctx_Err : nat → option context_error) (nodeFilter : option (NI → bool)) (drained : list string)
  (GracefulDegradationEnabled : bool) (ExpendablePodsPriorityCutoff : Z).

(** What the processors change: the snapshot, the hints of the packing, the
    loops of graceful degradation in a row, the events. *)
Record pod_list_state : Type := mkPls {
  pl_snap : T; pl_hints : Hints; GracefulDegradationLoopCount : Z; pl_events : list degradation_event
}.
Implicit Types (st : pod_list_state) (pods : list Pod).

Definition manageGracefulDegradation st (unprocessedPods : list Pod) : pod_list_state :=
  if negb GracefulDegradationEnabled then st
  else if bool_decide (unprocessedPods = []) then
    mkPls (pl_snap st) (pl_hints st) 0
      (if 0 <? GracefulDegradationLoopCount st then pl_events st ++ [GracefulDegradationStopped] else pl_events st)
  else
    mkPls (pl_snap st) (pl_hints st) (GracefulDegradationLoopCount st + 1)
      (if GracefulDegradationLoopCount st =? 0 then pl_events st ++ [GracefulDegradationStarted] else pl_events st).

Definition uids (pods : list Pod) : gset string := foldl (λ (m : gset string) pod, {[PodUID pod]} ∪ m) ∅ pods.

(** A scheduling error leaves no result; the hints are renewed on success only. *)
Definition filterOutSchedulableByPacking st pods : pod_list_state * result try_error (list Pod) :=
  let candidates := sort_slice (λ p, - PodPriority p) pods in
  let ctx := if GracefulDegradationEnabled then ctx_Err else λ _, None in
  let '(t, hints, r) := TrySchedulePods PodPriority Spec PodSpecSemanticallyEqual ctx (pl_hints st) (pl_snap st)
                          candidates false (mkSchedulingOptions None nodeFilter) in
  let st := mkPls t hints (GracefulDegradationLoopCount st) (pl_events st) in
  match r with
  | Err e => (manageGracefulDegradation st [], Err e)
  | Ok res =>
      let st := manageGracefulDegradation st (UnprocessedPods res) in
      let scheduledPods := uids (StatusPod <$> Statuses res) in
      let unprocessedPods := uids (UnprocessedPods res) in
      (mkPls (pl_snap st) (DropOld (pl_hints st)) (GracefulDegradationLoopCount st) (pl_events st),
       Ok (foldl (λ l pod,
             if negb (bool_decide (PodUID pod ∈ scheduledPods)) && negb (bool_decide (PodUID pod ∈ unprocessedPods))
             then l ++ [pod] else l) [] candidates))
  end.

Definition drained_pods (st_pods : T * list Pod) (nodeName : string) : T * list Pod :=
  match GetNodeInfo st_pods.1 nodeName with
  | (t, Err _) => (t, st_pods.2)
  | (t, Ok nodeInfo) =>
      (t, foldl (λ l p, if bool_decide (is_Some (PodDeletionTimestamp (pi_Pod p))) then l else l ++ [pi_Pod p])
            st_pods.2 (GetPods nodeInfo))
  end.

Definition currentlyDrainedPods t : T * list Pod := foldl drained_pods (t, []) drained.

(** The processors, each from the state and the pods to the state and the
    pods or an error. *)
Definition processor : Type := pod_list_state → list Pod → pod_list_state * result try_error (list Pod).

Definition clearTpuRequests_Process : processor := λ st pods, (st, Ok (ClearTPURequests pods)).

Definition filterOutExpendable_Process : processor := λ st pods,
  (st, Ok (FilterOutExpendablePods pods ExpendablePodsPriorityCutoff)).

Definition currentlyDrainedNodes_Process : processor := λ st pods,
  let '(t, drainedPods) := currentlyDrainedPods (pl_snap st) in
  (mkPls t (pl_hints st) (GracefulDegradationLoopCount st) (pl_events st),
   Ok (pods ++ ClearPodNodeNames (FilterRecreatablePods drainedPods))).

Definition filterOutSchedulable_Process : processor := filterOutSchedulableByPacking.

Definition filterOutDaemonSet_Process : processor := λ st pods,
  (st, Ok (foldl (λ l pod, if negb (IsDaemonSetPod pod) then l ++ [pod] else l) [] pods)).

Fixpoint Combined_Process (processors : list processor) : processor := λ st pods,
  match processors with
  | [] => (st, Ok pods)
  | p :: processors =>
      match p st pods with
      | (st, Err e) => (st, Err e)
      | (st, Ok pods) => Combined_Process processors st pods
      end
  end.

Definition DefaultPodListProcessor : list processor :=
  [clearTpuRequests_Process; filterOutExpendable_Process; currentlyDrainedNodes_Process;
   filterOutSchedulable_Process; filterOutDaemonSet_Process].

Implicit Types (opts : SchedulingOptions S Slice CSI).

(** ** What the processors do *)

Lemma elem_of_uids pods u : u ∈ uids pods ↔ u ∈ PodUID <$> pods.
Proof. unfold uids. rewrite foldl_insert_set. set_solver. Qed.

(** The pods being drained, read off the visible nodes. *)
Definition pods_on (m : gmap string NI) (n : string) : list Pod :=
  match m !! n with
  | Some ni => filter (λ p, PodDeletionTimestamp p = None) (pi_Pod <$> GetPods ni)
  | None => []
  end.

Lemma drained_fold (l : list PodInfo) acc :
  foldl (λ l p, if bool_decide (is_Some (PodDeletionTimestamp (pi_Pod p))) then l else l ++ [pi_Pod p]) acc l =
  acc ++ filter (λ p, PodDeletionTimestamp p = None) (pi_Pod <$> l).
Proof.
  revert acc. induction l as [|p l IH]; intros acc; csimpl; [by rewrite app_nil_r|].
  rewrite IH, filter_cons. case_decide as Hd; rewrite Hd || rewrite bool_decide_true by (by destruct (PodDeletionTimestamp _)).
  - rewrite bool_decide_false by (intros [? ?]; done). by rewrite <- app_assoc.
  - done.
Qed.

Lemma currentlyDrainedPods_spec t : snap_ok t →
  let '(t', pods) := currentlyDrainedPods t in
  snap_ok t' ∧ snap_saved t' = snap_saved t ∧ snap_nodes t' = snap_nodes t ∧
  pods = concat (pods_on (snap_nodes t) <$> drained).
Proof.
  unfold currentlyDrainedPods. intros Ht.
  assert (∀ names t0 acc, snap_ok t0 → snap_saved t0 = snap_saved t → snap_nodes t0 = snap_nodes t →
    let '(t', pods) := foldl drained_pods (t0, acc) names in
    snap_ok t' ∧ snap_saved t' = snap_saved t ∧ snap_nodes t' = snap_nodes t ∧
    pods = acc ++ concat (pods_on (snap_nodes t) <$> names)) as Hloop; [|by apply Hloop].
  induction names as [|n names IH]; intros t0 acc H0 H1 H2; cbn [foldl].
  { split_and!; [done..|]. simpl. by rewrite app_nil_r. }
  pose proof (snap_get t0 n H0) as Hg. unfold drained_pods at 2. cbn [fst snd].
  destruct (GetNodeInfo t0 n) as [t1 r]. destruct Hg as (Ho & Hs & Hn & ->).
  csimpl. unfold pods_on at 1. rewrite <- H2.
  destruct (snap_nodes t0 !! n) as [ni|].
  - specialize (IH t1 (acc ++ filter (λ p, PodDeletionTimestamp p = None) (pi_Pod <$> GetPods ni))).
    rewrite <- H2 in IH. rewrite drained_fold, app_assoc. apply IH; [done|congruence|congruence].
  - specialize (IH t1 acc). rewrite <- H2 in IH. apply IH; [done|congruence|congruence].
Qed.

(** The pods the packing is tried for: those that may need a new node, and
    copies without a node of the pods that lose theirs. *)
Definition packing_candidates (m : gmap string NI) pods : list Pod :=
  FilterOutExpendablePods (ClearTPURequests pods) ExpendablePodsPriorityCutoff ++
  ClearPodNodeNames (FilterRecreatablePods (concat (pods_on m <$> drained))).

(** The loop counter after one run. *)
Definition next_loop_count st (unprocessed : list Pod) : Z :=
  if GracefulDegradationEnabled
  then (if bool_decide (unprocessed = []) then 0 else GracefulDegradationLoopCount st + 1)
  else GracefulDegradationLoopCount st.

Lemma manageGracefulDegradation_fields st unprocessed :
  let st' := manageGracefulDegradation st unprocessed in
  pl_snap st' = pl_snap st ∧ pl_hints st' = pl_hints st ∧ GracefulDegradationLoopCount st' = next_loop_count st unprocessed.
Proof.
  unfold manageGracefulDegradation, next_loop_count. destruct GracefulDegradationEnabled; simpl; [|done].
  by case_bool_decide.
Qed.

Lemma submseteq_NoDup {A} (l k : list A) : l ⊆+ k → NoDup k → NoDup l.
Proof.
  intros [r Hr]%submseteq_Permutation. rewrite Hr. rewrite NoDup_app. by intros (? & _).
Qed.

(** Splitting a list without repeated UIDs by what became of its pods. *)
Lemma split_by_fate (cands sts unprocessed : list Pod) :
  NoDup (PodUID <$> cands) → sts ⊆+ cands → unprocessed ⊆+ cands →
  (∀ p, p ∈ unprocessed → PodUID p ∉ PodUID <$> sts) →
  cands ≡ₚ sts ++ unprocessed ++ filter (λ p, (PodUID p ∉ PodUID <$> sts) ∧ (PodUID p ∉ PodUID <$> unprocessed)) cands.
Proof.
  intros Hnd Hsts Hun Hdisj. pose proof (NoDup_fmap_1 _ _ Hnd) as Hndc.
  assert (∀ l p, l ⊆+ cands → p ∈ cands → PodUID p ∈ PodUID <$> l → p ∈ l) as Hback.
  { intros l p Hl Hp (q & Heq & Hq)%list_elem_of_fmap.
    assert (q ∈ cands) as Hqc by (by eapply elem_of_submseteq).
    assert (p = q) as ->; [|done].
    apply list_elem_of_lookup in Hp as [i Hi]. apply list_elem_of_lookup in Hqc as [j Hj].
    assert (i = j) as ->; [|congruence]. eapply (NoDup_lookup (PodUID <$> cands)); [done| |].
    - by rewrite list_lookup_fmap, Hi.
    - rewrite list_lookup_fmap, Hj. simpl. by rewrite Heq. }
  apply NoDup_Permutation.
  - done.
  - apply NoDup_app. split; [by eapply submseteq_NoDup|]. split.
    + intros p Hp. rewrite elem_of_app. intros [Hp'|[[Hno _] _]%list_elem_of_filter].
      * apply (Hdisj p Hp'). by apply list_elem_of_fmap_2.
      * apply Hno. by apply list_elem_of_fmap_2.
    + apply NoDup_app. split; [by eapply submseteq_NoDup|]. split; [|by apply NoDup_filter].
      intros p Hp [[_ Hno] _]%list_elem_of_filter. apply Hno. by apply list_elem_of_fmap_2.
  - intros p. rewrite !elem_of_app, list_elem_of_filter. split.
    + intros Hp. destruct (decide (PodUID p ∈ PodUID <$> sts)) as [Hs|Hs]; [left; by apply Hback|right].
      destruct (decide (PodUID p ∈ PodUID <$> unprocessed)) as [Hu|Hu]; [left; by apply Hback|by right].
    + intros [Hp|[Hp|[_ ?]]]; [by eapply elem_of_submseteq..|done].
Qed.

End processors.

(** Three pending pods and a node that is being drained. *)
Module PodListsExample.
#[local] Instance kl : KubeLib := demo_kubelib.
#[local] Instance cs : ClusterSnapshot demo_sched unit unit (SnapshotSpec.spec_state demo_sched unit unit) :=
  ref_snapshot demo_fits.

Definition replica : Pod :=
  mkPod "default" "r" "r" ∅ ∅ [mkOwner "apps/v1" "ReplicaSet" "rs" "uid" (Some true)] None None None
    RestartPolicyAlways PodRunning [] [] [] None "" "n3" "default-scheduler" None.
Definition daemon : Pod :=
  mkPod "default" "big" "d" ∅ ∅ [mkOwner "apps/v1" "DaemonSet" "ds" "uid2" (Some true)] None None None
    RestartPolicyAlways PodPending [] [] [] None "" "" "default-scheduler" None.
Definition cheap : Pod :=
  mkPod "default" "cheap" "c" ∅ ∅ [] None None None
    RestartPolicyAlways PodPending [] [] [] (Some (-20)) "" "" "default-scheduler" None.

Definition cluster : SnapshotSpec.spec_state demo_sched unit unit :=
  SnapshotSpec.mkSpec (list_to_map ((λ np, (np.1, mkNodeInfo (named_node np.1, np.2) [] None)) <$>
    [("n1"%string, []); ("n3"%string, [NewPodInfo replica []])])) [].
Definition start : pod_list_state := mkPls cluster NewHints 0 [].
Definition pending : list Pod := [demo_p "big"; demo_p "a"; daemon; cheap].

Abbreviation run := (Combined_Process (DefaultPodListProcessor demo_priority (λ p : Pod, p) (λ _ _, true) (λ _, None)
  (Some (λ ni, bool_decide (NodeName ni ≠ "n3"%string))) ["n3"%string] true (-10)) start pending).

Example helped : match run.2 with Ok help => PodUID <$> help | Err _ => [] end = ["big"]%string.
Proof. by vm_compute. Qed.

Lemma cluster_ok : snap_ok cluster ∧ snap_nodes cluster !! ""%string = None.
Proof.
  split; [|reflexivity]. split; [|constructor].
  intros n ni Hn. apply elem_of_list_to_map_2 in Hn.
  apply list_elem_of_fmap in Hn as ([m l] & [= -> ->] & _). reflexivity.
Qed.

End PodListsExample.
