(* ===== verification/Removal.v ===== *)
(** The simulation of a node removal: which pods have to move
    (src/pkg/simulator/drain.go) and whether there is a place for them
    (src/pkg/simulator/cluster.go). *)
From stdpp Require Import prelude gmap strings pretty list numbers fin_maps fin_sets.
From S2P Require Import Prelude Api Taints Unneeded Drain Framework SnapshotSpec ClusterSnapshot.
From S2P Require Import Pdb Drainability Hinting.
Local Open Scope Z_scope.

Record PodMoveInfo : Type := mkMove {
  MovePods : list Pod;
  MoveDaemonSetPods : list Pod;
  MoveOnCompletionPods : list Pod;
  MoveBlockingPod : option BlockingPod
}.

(** The errors of [findPlaceFor]. *)
Inductive place_error : Type :=
| ErrGetNode (e : snapshot_error)
| ErrRemoveNode (e : snapshot_error)
| ErrAddGhost (e : snapshot_error)
| ErrTry (e : try_error)
| ErrOnly (rescheduled total : Z).

Section removal.
Context `{GR : GoRange} `{SortSlice} `{KubeLib} {LabelSelector : Type}.
Context {S Slice CSI T : Type} `{SchedNodeInfo S} `{!ClusterSnapshot S Slice CSI T}.
Abbreviation NI := (NodeInfo S Slice CSI).
Abbreviation Tracker := (basicRemainingPdbTracker LabelSelector).
Context (PodPriority : Pod → Z) {PodSpec : Type} (Spec : Pod → PodSpec)
  (PodSpecSemanticallyEqual : PodSpec → PodSpec → bool).
Abbreviation Rules := (list (Rule (LabelSelector := LabelSelector) (NodeInfo := NI))).
Implicit Types (pod : Pod) (pods : list Pod) (t : T) (nodeInfo : NI).

(** ** The pods to move *)

(** One iteration; [Some] is the return that blocks. *)
Definition move_step (drainCtx : DrainContext (LabelSelector := LabelSelector)) (rules : Rules)
    nodeInfo (info : PodMoveInfo) pod : PodMoveInfo * option (option drain_error) :=
  let '(mkMove mv ds oc bl) := info in
  let status := Rules_Drainable rules (Some drainCtx) pod nodeInfo in
  match Outcome status with
  | UndefinedOutcome | DrainOk =>
      if IsDaemonSetPod pod then (mkMove mv (ds ++ [pod]) oc bl, None)
      else (mkMove (mv ++ [pod]) ds oc bl, None)
  | WaitForCompletion => (mkMove mv ds (oc ++ [pod]) bl, None)
  | BlockDrain => (mkMove mv ds oc (Some (mkBlocking pod (BlockingReason status))), Some (StatusError status))
  | SkipDrain => (info, None)
  end.

Definition GetPodsToMove nodeInfo (deleteOptions : NodeDeleteOptions) (drainabilityRules : option Rules)
    (listers : option ListerRegistry) (remainingPdbTracker : option Tracker) (timestamp : Z)
    : PodMoveInfo * option drain_error :=
  let rules := default (Default deleteOptions) drainabilityRules in
  let tracker := default NewBasicRemainingPdbTracker remainingPdbTracker in
  let drainCtx := mkDrainContext (Some tracker) listers timestamp in
  match fold_err (move_step drainCtx rules nodeInfo) (pi_Pod <$> Pods (Some nodeInfo))
          (mkMove [] [] [] None) with
  | (info, Some err) => (info, err)
  | (info, None) => (info, None)
  end.

(** ** The simulation *)

(** [RemovalSimulator]; of the scheduling simulator the hints are its state. *)
Record RemovalSimulator : Type := mkSimulator {
  rs_listers : option ListerRegistry;
  rs_canPersist : bool;
  rs_deleteOptions : NodeDeleteOptions;
  rs_drainabilityRules : option Rules
}.

Implicit Types (r : RemovalSimulator) (hints : Hints).

Definition replaceWithTaintedGhostNode t (nodeName : string) (timestamp : Z)
    : T * option place_error :=
  match GetNodeInfo t nodeName with
  | (t, Err e) => (t, Some (ErrGetNode e))
  | (t, Ok nodeInfo) =>
      match RemoveNodeInfo t nodeName with
      | (t, Some e) => (t, Some (ErrRemoveNode e))
      | (t, None) =>
          let node := ni_Node nodeInfo in
          let taintedNode := mkNode (Name node) (ProviderID node) (Labels node) (Annotations node)
            (Taints node ++ [mkTaint ToBeDeletedTaint (pretty (timestamp / 10 ^ 9)) NoSchedule None])
            (Unschedulable node) (CreationTimestamp node) (Conditions node) in
          let ghostNodeInfo := NewNodeInfo (Some taintedNode) (LocalResourceSlices nodeInfo) [] in
          let ghostNodeInfo :=
            match CSINode nodeInfo with
            | Some csi => SetCSINode ghostNodeInfo (Some csi)
            | None => ghostNodeInfo
            end in
          match AddNodeInfo t ghostNodeInfo with
          | (t, Some e) => (t, Some (ErrAddGhost e))
          | (t, None) => (t, None)
          end
      end
  end.

Definition isCandidateNode (removedNode : string) (nodes : gmap string bool) nodeInfo : bool :=
  negb (bool_decide (NodeName nodeInfo = removedNode)) && default false (nodes !! NodeName nodeInfo).

(** The scheduling simulation runs with the background context, which is
    never done. *)
Definition findPlaceFor (th : T * Hints) (removedNode : string) pods (nodes : gmap string bool)
    (timestamp : Z) : T * Hints * option place_error :=
  let '(t, hints) := th in
  let pods := ClearTPURequests pods in
  let t := foldl (λ t pod, (UnschedulePod t (PodNamespace pod) (PodName pod) removedNode).1) t pods in
  match replaceWithTaintedGhostNode t removedNode timestamp with
  | (t, Some e) => (t, hints, Some e)
  | (t, None) =>
      let newpods := foldl (λ l pod, l ++ [clear_node_name pod]) [] pods in
      match TrySchedulePods PodPriority Spec PodSpecSemanticallyEqual (λ _, None) hints t newpods true
              (mkSchedulingOptions None (Some (isCandidateNode removedNode nodes))) with
      | (t, hints, Err e) => (t, hints, Some (ErrTry e))
      | (t, hints, Ok schedulingResult) =>
          let n := Z.of_nat (length (Statuses schedulingResult)) in
          let total := Z.of_nat (length newpods) in
          if negb (n =? total) then (t, hints, Some (ErrOnly n total))
          else
            match RemoveNodeInfo t removedNode with
            | (t, Some e) => (t, hints, Some (ErrRemoveNode e))
            | (t, None) => (t, hints, None)
            end
      end
  end.

(** [None] is the fatal exit after a failing commit. *)
Definition withForkedSnapshot r (f : T * Hints → T * Hints * option place_error) (th : T * Hints)
    : option (T * Hints * option place_error) :=
  match f (Fork th.1, th.2) with
  | (t, hints, None) =>
      if rs_canPersist r
      then match Commit t with
           | (t, None) => Some (t, hints, None)
           | (_, Some _) => None
           end
      else Some (Revert t, hints, None)
  | (t, hints, Some e) => Some (Revert t, hints, Some e)
  end.

Definition SimulateNodeRemoval r (th : T * Hints) (nodeName : string) (destinationMap : gmap string bool)
    (timestamp : Z) (remainingPdbTracker : option Tracker)
    : option (T * Hints * option (NodeToBeRemoved (Pod := Pod)) *
              option (UnremovableNode (BlockingPod := BlockingPod))) :=
  let '(t, hints) := th in
  match GetNodeInfo t nodeName with
  | (t, Err e) =>
      let unremovableReason :=
        if bool_decide (e = StoreError ErrNodeNotFound) then NoNodeInfo else UnexpectedError in
      Some (t, hints, None, Some (mkUnremovable (named_node nodeName) unremovableReason None))
  | (t, Ok nodeInfo) =>
      match GetPodsToMove nodeInfo (rs_deleteOptions r) (rs_drainabilityRules r) (rs_listers r)
              remainingPdbTracker timestamp with
      | (podMoveInfo, Some err) =>
          match MoveBlockingPod podMoveInfo with
          | Some b => Some (t, hints, None, Some (mkUnremovable (ni_Node nodeInfo) BlockedByPod (Some b)))
          | None => Some (t, hints, None, Some (mkUnremovable (ni_Node nodeInfo) UnexpectedError None))
          end
      | (podMoveInfo, None) =>
          match withForkedSnapshot r
                  (λ th, findPlaceFor th nodeName (MovePods podMoveInfo) destinationMap timestamp)
                  (t, hints) with
          | None => None
          | Some (t, hints, Some err) =>
              Some (t, hints, None, Some (mkUnremovable (ni_Node nodeInfo) NoPlaceToMovePods None))
          | Some (t, hints, None) =>
              Some (t, hints,
                Some (mkNtbr (ni_Node nodeInfo) false (MovePods podMoveInfo)
                        (MoveDaemonSetPods podMoveInfo) (MoveOnCompletionPods podMoveInfo)), None)
          end
      end
  end.

Definition DropOldHints hints : Hints := DropOld hints.

(** ** The pods to move, exactly *)

Section pods_to_move.
Context (drainCtx : DrainContext (LabelSelector := LabelSelector)) (rules : Rules) (nodeInfo : NI).

Definition pod_status pod : Drainability.Status := Rules_Drainable rules (Some drainCtx) pod nodeInfo.
Definition pod_blocks pod : Prop := Outcome (pod_status pod) = BlockDrain.
Definition pod_waits pod : Prop := Outcome (pod_status pod) = WaitForCompletion.
Definition pod_skipped pod : Prop := Outcome (pod_status pod) = SkipDrain.
Definition pod_evicted pod : Prop :=
  Outcome (pod_status pod) = UndefinedOutcome ∨ Outcome (pod_status pod) = DrainOk.
#[export] Instance pod_blocks_dec pod : Decision (pod_blocks pod).
Proof. unfold pod_blocks. apply _. Defined.
#[export] Instance pod_waits_dec pod : Decision (pod_waits pod).
Proof. unfold pod_waits. apply _. Defined.
#[export] Instance pod_skipped_dec pod : Decision (pod_skipped pod).
Proof. unfold pod_skipped. apply _. Defined.
#[export] Instance pod_evicted_dec pod : Decision (pod_evicted pod).
Proof. unfold pod_evicted. apply _. Defined.

(** The lists a run over pods builds when none of them blocks. *)
Definition sorted_out pods : PodMoveInfo :=
  mkMove (filter (λ p, pod_evicted p ∧ IsDaemonSetPod p = false) pods)
    (filter (λ p, pod_evicted p ∧ IsDaemonSetPod p = true) pods)
    (filter pod_waits pods) None.

Definition append_move (a b : PodMoveInfo) : PodMoveInfo :=
  mkMove (MovePods a ++ MovePods b) (MoveDaemonSetPods a ++ MoveDaemonSetPods b)
    (MoveOnCompletionPods a ++ MoveOnCompletionPods b) (MoveBlockingPod b).

Lemma move_step_cases info pod :
  MoveBlockingPod info = None →
  move_step drainCtx rules nodeInfo info pod =
  if decide (pod_blocks pod)
  then (mkMove (MovePods info) (MoveDaemonSetPods info) (MoveOnCompletionPods info)
          (Some (mkBlocking pod (BlockingReason (pod_status pod)))), Some (StatusError (pod_status pod)))
  else (append_move info (sorted_out [pod]), None).
Proof.
  destruct info as [mv ds oc bl]. simpl. intros ->. unfold move_step, append_move, sorted_out.
  rewrite !filter_cons, !filter_nil. fold (pod_status pod). repeat case_decide;
    unfold pod_blocks, pod_evicted, pod_waits in *; destruct (Outcome (pod_status pod)) eqn:Ho;
    destruct (IsDaemonSetPod pod); simpl; rewrite ?app_nil_r; intuition congruence.
Qed.

Lemma sorted_out_cons pod pods :
  append_move (sorted_out [pod]) (sorted_out pods) = sorted_out (pod :: pods).
Proof. unfold append_move, sorted_out. simpl. by rewrite <- !filter_app. Qed.

Lemma append_move_assoc a b c : append_move (append_move a b) c = append_move a (append_move b c).
Proof. unfold append_move. simpl. by rewrite !app_assoc. Qed.

(** The run stops at the first pod that blocks. *)
Lemma move_loop_spec pods : ∀ info, MoveBlockingPod info = None →
  fold_err (move_step drainCtx rules nodeInfo) pods info =
  match list_find pod_blocks pods with
  | None => (append_move info (sorted_out pods), None)
  | Some (i, pod) =>
      let done := append_move info (sorted_out (take i pods)) in
      (mkMove (MovePods done) (MoveDaemonSetPods done) (MoveOnCompletionPods done)
         (Some (mkBlocking pod (BlockingReason (pod_status pod)))), Some (StatusError (pod_status pod)))
  end.
Proof.
  induction pods as [|pod pods IH]; intros info Hi; cbn [fold_err list_find].
  { destruct info. simpl in *. subst. unfold append_move, sorted_out. simpl. by rewrite !app_nil_r. }
  rewrite move_step_cases by done. case_decide as Hb.
  { destruct info. simpl. unfold append_move, sorted_out. simpl. by rewrite !app_nil_r. }
  rewrite IH by done. destruct (list_find pod_blocks pods) as [[i p]|].
  - change (prod_map _ _ <$> Some (i, p)) with (Some (Datatypes.S i, p)). cbv zeta beta iota.
    cbn [take]. by rewrite <- (sorted_out_cons pod (take i pods)), <- append_move_assoc.
  - change (prod_map _ _ <$> None) with (@None (nat * Pod)). cbv iota.
    by rewrite append_move_assoc, sorted_out_cons.
Qed.

(** Every pod of the node is in exactly one list, or skipped. *)
Lemma sorted_out_perm pods :
  Forall (λ p, ¬ pod_blocks p) pods →
  MovePods (sorted_out pods) ++ MoveDaemonSetPods (sorted_out pods) ++
    MoveOnCompletionPods (sorted_out pods) ++ filter pod_skipped pods ≡ₚ pods.
Proof.
  induction 1 as [|pod pods Hp _ IH]; [done|]. rewrite <- sorted_out_cons.
  unfold append_move, sorted_out in *. simpl in *. rewrite !filter_cons, !filter_nil.
  revert IH. generalize (filter (λ p, pod_evicted p ∧ IsDaemonSetPod p = false) pods) as a.
  generalize (filter (λ p, pod_evicted p ∧ IsDaemonSetPod p = true) pods) as b.
  generalize (filter pod_waits pods) as c. generalize (filter pod_skipped pods) as d.
  intros d c b a IH. repeat case_decide;
    unfold pod_blocks, pod_evicted, pod_waits, pod_skipped in *; destruct (Outcome (pod_status pod)) eqn:Ho;
    destruct (IsDaemonSetPod pod); first [exfalso; by intuition congruence | simpl; rewrite <- IH; solve_Permutation].
Qed.
End pods_to_move.

(** ** The simulation, step by step *)

(** The states agree except on one node, with the enclosing forks. *)
Record apart (n : string) t t' : Prop := mkApart {
  apart_ok : snap_ok t';
  apart_saved : snap_saved t' = snap_saved t;
  apart_nodes : ∀ k, k ≠ n → snap_nodes t' !! k = snap_nodes t !! k
}.

Lemma apart_refl n t : snap_ok t → apart n t t.
Proof. by split. Qed.

Lemma apart_trans n t1 t2 t3 : apart n t1 t2 → apart n t2 t3 → apart n t1 t3.
Proof.
  intros [? Hs1 Hn1] [? Hs2 Hn2]. split; [done|congruence|]. intros k Hk. by rewrite Hn2, Hn1.
Qed.

Lemma unschedule_apart t ns name n :
  snap_ok t → apart n t (UnschedulePod t ns name n).1.
Proof.
  intros Ht. pose proof (snap_unschedule t ns name n Ht) as Hu.
  destruct (UnschedulePod t ns name n) as [t' [e|]]; destruct Hu as (Ho & Hs & Hr); split; try done; simpl.
  - by rewrite Hr.
  - destruct Hr as (ni & pi & _ & _ & Heq). intros k Hk. by rewrite Heq, lookup_insert_ne.
Qed.

Lemma unschedule_all_apart t pods n :
  snap_ok t →
  apart n t (foldl (λ t pod, (UnschedulePod t (PodNamespace pod) (PodName pod) n).1) t pods).
Proof.
  intros Ht. apply (foldl_inv (apart n t)); [by apply apart_refl|].
  intros t' pod _ Ha. eapply apart_trans; [exact Ha|]. apply unschedule_apart, Ha.
Qed.

Lemma ghost_apart t n ts :
  snap_ok t → let '(t', e) := replaceWithTaintedGhostNode t n ts in
  apart n t t' ∧ (e = None → is_Some (snap_nodes t' !! n)).
Proof.
  intros Ht. unfold replaceWithTaintedGhostNode.
  pose proof (snap_get t n Ht) as Hg. destruct (GetNodeInfo t n) as [t1 r1].
  destruct Hg as (Ho1 & Hs1 & Hn1 & ->).
  assert (apart n t t1) as Ha1 by (split; [done..|]; by rewrite Hn1).
  destruct (snap_nodes t !! n) as [ni|] eqn:Hni; [|by split].
  pose proof (snap_remove t1 n Ho1) as Hr. destruct (RemoveNodeInfo t1 n) as [t2 e2].
  destruct Hr as (Ho2 & Hs2 & Hr2). rewrite Hn1 in Hr2.
  destruct e2 as [e|]; [destruct Hr2; congruence|]. destruct Hr2 as [_ Hn2].
  set (tainted := mkNode _ _ _ _ _ _ _ _). set (ghost := match CSINode ni with Some _ => _ | None => _ end).
  assert (NodeName ghost = n) as Hname.
  { assert (NodeName ghost = Name tainted) as ->.
    { unfold ghost, NewNodeInfo, NodeName, ni_Node. destruct (CSINode ni); simpl; by rewrite sched_node_new. }
    pose proof (snap_named t Ht n ni Hni) as Hnm. simpl in Hnm. exact Hnm. }
  pose proof (snap_add t2 ghost Ho2) as Ha. destruct (AddNodeInfo t2 ghost) as [t3 e3].
  destruct Ha as (Ho3 & Hs3 & Hr3). rewrite Hname in Hr3.
  assert (∀ k, k ≠ n → snap_nodes t2 !! k = snap_nodes t !! k) as Hk2
    by (intros k Hk; by rewrite Hn2, lookup_delete_ne).
  destruct e3 as [e|].
  - split; [|done]. split; [done|congruence|]. rewrite Hr3. done.
  - destruct Hr3 as [_ Hn3]. split.
    + split; [done|congruence|]. intros k Hk. rewrite Hn3, lookup_insert_ne by done. by apply Hk2.
    + intros _. rewrite Hn3, lookup_insert_eq. by eexists.
Qed.

Lemma places_named opts (m m' : gmap string NI) sts :
  places opts m sts m' → map_Forall (λ n ni, NodeName ni = n) m →
  map_Forall (λ n ni, NodeName ni = n) m'.
Proof.
  induction 1 as [|sts m1 m2 pod n ni _ IH Hni Hacc (ni' & pi & Hni' & _ & ->)]; [done|].
  intros Hm. specialize (IH Hm). apply map_Forall_insert_2; [|done].
  rewrite NodeName_AddPodInfo. by apply (IH n).
Qed.

(** Pods are only ever placed on candidate nodes. *)
Lemma places_candidates removed dest (m m' : gmap string NI) sts :
  places (mkSchedulingOptions None (Some (isCandidateNode removed dest))) m sts m' →
  map_Forall (λ n ni, NodeName ni = n) m →
  Forall (λ st, StatusNodeName st ≠ removed ∧ dest !! StatusNodeName st = Some true ∧
                is_Some (m !! StatusNodeName st)) sts.
Proof.
  intros Hp Hm. revert m' Hp. induction sts as [|st sts IH] using rev_ind; [constructor|].
  intros m' Hp. inversion Hp as [Heq|sts' m1 m2 pod n ni Hp1 Hni Hacc Hpl Heq]; subst.
  { by destruct sts. }
  match goal with E : _ ++ [_] = _ ++ [_] |- _ => apply app_inj_tail in E as [-> <-] end.
  apply Forall_app. split; [by apply (IH m1)|]. constructor; [|constructor]. simpl.
  pose proof (places_named _ _ _ _ Hp1 Hm n ni Hni) as Hname. simpl in Hname.
  unfold acceptable, isCandidateNode in Hacc. simpl in Hacc. rewrite Hname in Hacc.
  apply andb_true_iff in Hacc as [Hne Hd]. apply negb_true_iff, bool_decide_eq_false in Hne.
  split_and!; [done|by destruct (dest !! n) as [[]|]|].
  destruct (m !! n) eqn:Hmn; [done|]. exfalso. clear -Hp1 Hmn Hni.
  assert (m1 !! n = None) as Hx; [|congruence]. clear Hni ni.
  induction Hp1 as [|? ? ? ? ? ? _ IH' _ _ Hpl]; [done|]. by apply (placed_named _ _ _ _ n Hpl), IH'.
Qed.

(** What a successful [findPlaceFor] has done. *)
Definition found_place t t' (removed : string) pods (dest : gmap string bool) : Prop :=
  ∃ (m0 m1 : gmap string NI) sts,
    (∀ k, k ≠ removed → m0 !! k = snap_nodes t !! k) ∧
    places (mkSchedulingOptions None (Some (isCandidateNode removed dest))) m0 sts m1 ∧
    StatusPod <$> sts ≡ₚ clear_node_name <$> (without_tpu <$> pods) ∧
    Forall (λ st, StatusNodeName st ≠ removed ∧ dest !! StatusNodeName st = Some true ∧
                  is_Some (snap_nodes t !! StatusNodeName st)) sts ∧
    snap_nodes t' = delete removed m1.

Lemma findPlaceFor_spec t hints removed pods dest ts :
  snap_ok t → snap_nodes t !! "" = None → removed ≠ "" →
  let '(t', _, e) := findPlaceFor (t, hints) removed pods dest ts in
  snap_ok t' ∧ snap_saved t' = snap_saved t ∧ (e = None → found_place t t' removed pods dest).
Proof.
  intros Ht Hempty Hne. unfold findPlaceFor.
  set (t1 := foldl _ t _). assert (apart removed t t1) as Ha1 by by apply unschedule_all_apart.
  pose proof (ghost_apart t1 removed ts (apart_ok _ _ _ Ha1)) as Hg.
  destruct (replaceWithTaintedGhostNode t1 removed ts) as [t2 e2]. destruct Hg as [Ha2 Hghost].
  pose proof (apart_trans _ _ _ _ Ha1 Ha2) as Ha. clear Ha1 Ha2 t1.
  destruct Ha as [Ho2 Hs2 Hn2]. destruct e2 as [e|]; [by split_and!|].
  rewrite foldl_snoc_fmap. cbn [app].
  pose proof (TrySchedulePods_places PodPriority Spec PodSpecSemanticallyEqual (λ _, None) hints t2
    (clear_node_name <$> ClearTPURequests pods) true
    (mkSchedulingOptions None (Some (isCandidateNode removed dest))) Ho2
    ltac:(by rewrite Hn2)) as Htry.
  destruct (TrySchedulePods _ _ _ _ _ _ _ _ _) as [[t3 h3] [res|e]].
  all: destruct Htry as (Ho3 & Hs3 & sts & Hp & _ & Hres).
  2: split_and!; [done|congruence|done].
  destruct (Hres res eq_refl) as [Hsts Hperm].
  destruct (negb _) eqn:Hlen; [split_and!; [done|congruence|done]|].
  apply negb_false_iff, Z.eqb_eq, Nat2Z.inj in Hlen.
  pose proof (snap_remove t3 removed Ho3) as Hr. destruct (RemoveNodeInfo t3 removed) as [t4 e4].
  destruct Hr as (Ho4 & Hs4 & Hr4).
  destruct e4 as [e|]; split_and!; [done|congruence|done|done|congruence|].
  intros _. destruct Hr4 as [_ Hn4].
  exists (snap_nodes t2), (snap_nodes t3), sts. split_and!; [done|done| | |done].
  - rewrite <- ClearTPURequests_fmap, <- Hsts. by apply Hperm.
  - eapply Forall_impl; [apply (places_candidates removed dest _ _ _ Hp), snap_named, Ho2|].
    intros st (Hst1 & Hst2 & Hst3). split_and!; [done..|]. by rewrite <- Hn2.
Qed.

(** ** The verdict *)

Definition sim_rules r : Rules := default (Default (rs_deleteOptions r)) (rs_drainabilityRules r).

Definition sim_ctx r (tracker : option Tracker) (ts : Z) : DrainContext (LabelSelector := LabelSelector) :=
  mkDrainContext (Some (default NewBasicRemainingPdbTracker tracker)) (rs_listers r) ts.

(** Every blocking rule gives an error, as the default ones do. *)
Definition sound_rules r : Prop :=
  ∀ drainCtx pod nodeInfo, sound (Rules_Drainable (sim_rules r) (Some drainCtx) pod nodeInfo).

Lemma default_rules_sound r : rs_drainabilityRules r = None → sound_rules r.
Proof. unfold sound_rules, sim_rules. intros -> ???. apply Default_sound. Qed.

Definition node_pods nodeInfo : list Pod := pi_Pod <$> GetPods nodeInfo.

Lemma GetPodsToMove_spec r nodeInfo (tracker : option Tracker) ts :
  GetPodsToMove nodeInfo (rs_deleteOptions r) (rs_drainabilityRules r) (rs_listers r) tracker ts =
  match list_find (pod_blocks (sim_ctx r tracker ts) (sim_rules r) nodeInfo) (node_pods nodeInfo) with
  | None => (sorted_out (sim_ctx r tracker ts) (sim_rules r) nodeInfo (node_pods nodeInfo), None)
  | Some (i, pod) =>
      let before := sorted_out (sim_ctx r tracker ts) (sim_rules r) nodeInfo (take i (node_pods nodeInfo)) in
      let status := pod_status (sim_ctx r tracker ts) (sim_rules r) nodeInfo pod in
      (mkMove (MovePods before) (MoveDaemonSetPods before) (MoveOnCompletionPods before)
         (Some (mkBlocking pod (BlockingReason status))), StatusError status)
  end.
Proof.
  unfold GetPodsToMove. fold (sim_rules r). fold (sim_ctx r tracker ts).
  rewrite Pods_GetPods. fold (node_pods nodeInfo). rewrite move_loop_spec by done.
  by destruct (list_find _ _) as [[i pod]|].
Qed.

Lemma withForkedSnapshot_spec r f t hints :
  snap_ok t →
  (∀ t1 h1, snap_ok t1 → snap_nodes t1 = snap_nodes t →
     snap_ok (f (t1, h1)).1.1 ∧ snap_saved (f (t1, h1)).1.1 = snap_saved t1) →
  ∃ t' h', withForkedSnapshot r f (t, hints) = Some (t', h', (f (Fork t, hints)).2) ∧
    snap_ok t' ∧ snap_saved t' = snap_saved t ∧
    snap_nodes t' = if rs_canPersist r && bool_decide ((f (Fork t, hints)).2 = None)
                    then snap_nodes (f (Fork t, hints)).1.1 else snap_nodes t.
Proof.
  intros Ht Hf. unfold withForkedSnapshot. cbn [fst snd].
  destruct (snap_fork t Ht) as (Hok & Hn & Hs).
  destruct (Hf (Fork t) hints Hok Hn) as [Ho1 Hs1].
  destruct (f (Fork t, hints)) as [[t1 h1] [e|]]; cbn [fst snd] in *; rewrite Hs in Hs1.
  - destruct (snap_revert t1 _ _ Ho1 Hs1) as (? & ? & ?). exists (Revert t1), h1.
    rewrite bool_decide_false, andb_false_r by done. by split_and!.
  - rewrite bool_decide_true, andb_true_r by done. destruct (rs_canPersist r).
    + pose proof (snap_commit t1 Ho1) as Hc. destruct (Commit t1) as [t2 e2].
      destruct Hc as (Ho2 & -> & Hn2 & Hs2). exists t2, h1. rewrite Hs2, Hs1. by split_and!.
    + destruct (snap_revert t1 _ _ Ho1 Hs1) as (? & ? & ?). exists (Revert t1), h1. by split_and!.
Qed.

(** The node can go: no pod blocks, every pod has its list, and those to move
    have found a place. *)
Definition verdict_removable r t t' (n : string) (dest : gmap string bool) ts (tracker : option Tracker)
    (nb : NodeToBeRemoved (Pod := Pod)) : Prop :=
  ∃ ni t1, snap_nodes t !! n = Some ni ∧
    let ctx := sim_ctx r tracker ts in
    let lists := sorted_out ctx (sim_rules r) ni (node_pods ni) in
    Forall (λ p, ¬ pod_blocks ctx (sim_rules r) ni p) (node_pods ni) ∧
    nb = mkNtbr (ni_Node ni) false (MovePods lists) (MoveDaemonSetPods lists) (MoveOnCompletionPods lists) ∧
    found_place t t1 n (MovePods lists) dest ∧
    snap_nodes t' = if rs_canPersist r then snap_nodes t1 else snap_nodes t.

(** The node stays, and the reason is the true one. *)
Definition verdict_unremovable r t (n : string) ts (tracker : option Tracker)
    (u : UnremovableNode (BlockingPod := BlockingPod)) : Prop :=
  match snap_nodes t !! n with
  | None => u = mkUnremovable (named_node n) NoNodeInfo None
  | Some ni =>
      let ctx := sim_ctx r tracker ts in
      match list_find (pod_blocks ctx (sim_rules r) ni) (node_pods ni) with
      | Some (_, pod) => u = mkUnremovable (ni_Node ni) BlockedByPod
          (Some (mkBlocking pod (BlockingReason (pod_status ctx (sim_rules r) ni pod))))
      | None => u = mkUnremovable (ni_Node ni) NoPlaceToMovePods None
      end
  end.

Lemma SimulateNodeRemoval_spec r t hints n dest ts (tracker : option Tracker) :
  snap_ok t → snap_nodes t !! "" = None → sound_rules r →
  ∃ t' hints' rem unrem,
    SimulateNodeRemoval r (t, hints) n dest ts tracker = Some (t', hints', rem, unrem) ∧
    snap_ok t' ∧ snap_saved t' = snap_saved t ∧
    match rem, unrem with
    | Some nb, None => verdict_removable r t t' n dest ts tracker nb
    | None, Some u => snap_nodes t' = snap_nodes t ∧ verdict_unremovable r t n ts tracker u
    | _, _ => False
    end.
Proof.
  intros Ht Hempty Hsound. unfold SimulateNodeRemoval, verdict_unremovable.
  pose proof (snap_get t n Ht) as Hg. destruct (GetNodeInfo t n) as [t1 r1].
  destruct Hg as (Ho1 & Hs1 & Hn1 & ->). destruct (snap_nodes t !! n) as [ni|] eqn:Hni.
  2: { eexists _, _, _, _. split_and!; [done..|]. by rewrite bool_decide_true. }
  rewrite GetPodsToMove_spec. destruct (list_find _ _) as [[i pod]|] eqn:Hfind.
  - apply list_find_Some in Hfind as (_ & Hb & _).
    destruct (Hsound (sim_ctx r tracker ts) pod ni Hb) as [[e He] _].
    unfold pod_status. rewrite He. by eexists _, _, _, _; split_and!.
  - set (lists := sorted_out _ _ _ _).
    assert (n ≠ "") as Hne by congruence.
    set (f := λ th, findPlaceFor th n (MovePods lists) dest ts).
    assert (∀ t2 h2, snap_ok t2 → snap_nodes t2 = snap_nodes t1 →
      snap_ok (f (t2, h2)).1.1 ∧ snap_saved (f (t2, h2)).1.1 = snap_saved t2 ∧
      ((f (t2, h2)).2 = None → found_place t2 (f (t2, h2)).1.1 n (MovePods lists) dest)) as Hf.
    { intros t2 h2 Ho2 Hn2. unfold f.
      pose proof (findPlaceFor_spec t2 h2 n (MovePods lists) dest ts Ho2
        ltac:(by rewrite Hn2, Hn1) Hne) as Hfp.
      by destruct (findPlaceFor (t2, h2) n (MovePods lists) dest ts) as [[t3 h3] e3]. }
    destruct (withForkedSnapshot_spec r f t1 hints Ho1) as (t' & h' & Heq & Ho' & Hs' & Hn').
    { intros t2 h2 Ho2 Hn2. destruct (Hf t2 h2 Ho2 Hn2) as (? & ? & _). done. }
    rewrite Heq. clear Heq. destruct (snap_fork t1 Ho1) as (Hof & Hnf & _).
    destruct (Hf (Fork t1) hints Hof Hnf) as (_ & _ & Hfound). clear Hf.
    destruct ((f (Fork t1, hints)).2) as [e|] eqn:He.
    + eexists _, _, _, _. split_and!; [done|done|congruence|].
      rewrite bool_decide_false, andb_false_r in Hn' by done. split; [congruence|done].
    + eexists _, _, _, _. split_and!; [done|done|congruence|].
      rewrite bool_decide_true, andb_true_r in Hn' by done.
      exists ni, (f (Fork t1, hints)).1.1. split; [done|]. cbv zeta.
      split; [exact (proj1 (list_find_None _ _) Hfind)|]. split; [done|]. split.
      * destruct (Hfound eq_refl) as (m0 & m1 & sts & Hm & ?). exists m0, m1, sts.
        by rewrite Hnf, Hn1 in *.
      * by rewrite Hn', Hn1.
Qed.


(** The pods of a node are sorted out completely: unless some pod blocks,
    every pod is in exactly one of the lists or skipped, in the order of the
    node; otherwise the run stops at the first pod that blocks and reports
    it. *)
Theorem pods_to_move_partition r nodeInfo (tracker : option Tracker) ts :
  let ctx := sim_ctx r tracker ts in
  let blocks := pod_blocks ctx (sim_rules r) nodeInfo in
  let '(info, err) :=
    GetPodsToMove nodeInfo (rs_deleteOptions r) (rs_drainabilityRules r) (rs_listers r) tracker ts in
  match MoveBlockingPod info with
  | None =>
      err = None ∧ Forall (λ p, ¬ blocks p) (node_pods nodeInfo) ∧
      MovePods info ++ MoveDaemonSetPods info ++ MoveOnCompletionPods info ++
        filter (pod_skipped ctx (sim_rules r) nodeInfo) (node_pods nodeInfo) ≡ₚ node_pods nodeInfo ∧
      MovePods info `sublist_of` node_pods nodeInfo
  | Some b =>
      ∃ i, node_pods nodeInfo !! i = Some (BlockPod b) ∧ blocks (BlockPod b) ∧
        Forall (λ p, ¬ blocks p) (take i (node_pods nodeInfo)) ∧
        BlockReason b = BlockingReason (pod_status ctx (sim_rules r) nodeInfo (BlockPod b)) ∧
        err = StatusError (pod_status ctx (sim_rules r) nodeInfo (BlockPod b))
  end.
Proof.
  cbv zeta. rewrite GetPodsToMove_spec. destruct (list_find _ _) as [[i pod]|] eqn:Hfind; simpl.
  - apply list_find_Some in Hfind as (Hi & Hb & Hbefore). exists i. split_and!; [done..| |done|done].
    apply Forall_forall. intros p (j & Hj)%list_elem_of_lookup_1.
    apply lookup_take_Some in Hj as [Hj Hlt]. by apply (Hbefore j).
  - apply list_find_None in Hfind. split_and!; [done|done|by apply sorted_out_perm|].
    apply sublist_filter.
Qed.
End removal.

(** ** A concrete simulation *)

#[local] Instance demo_kl : KubeLib := demo_kubelib.
#[local] Instance demo_cs : ClusterSnapshot demo_sched unit unit (spec_state demo_sched unit unit) :=
  ref_snapshot demo_fits.

(** A pod of a replica set. *)
Definition demo_replica (name : string) : Pod :=
  mkPod "default" name name ∅ ∅ [mkOwner "apps/v1" "ReplicaSet" "rs" "uid" (Some true)] None None None
    RestartPolicyAlways PodRunning [] [] [] None "" "n1" "default-scheduler" None.

Definition demo_removal_cluster : spec_state demo_sched unit unit :=
  mkSpec (list_to_map ((λ np, (np.1, mkNodeInfo (named_node np.1, np.2) [] None)) <$>
    [("n1"%string, [NewPodInfo (demo_replica "a") []]); ("n2"%string, [])])) [].

Definition demo_simulator :
    RemovalSimulator (LabelSelector := unit) (S := demo_sched) (Slice := unit) (CSI := unit) :=
  mkSimulator None true (mkDeleteOptions true true false 0 0) None.

Definition demo_simulate : option _ :=
  SimulateNodeRemoval demo_priority (λ p, p) (λ _ _, true) demo_simulator
    (demo_removal_cluster, NewHints) "n1" {["n2" := true]} 0 None.

Lemma demo_removal_cluster_ok :
  snap_ok demo_removal_cluster ∧ snap_nodes demo_removal_cluster !! ""%string = None.
Proof.
  split; [|reflexivity]. split; [|constructor].
  intros n ni Hn. apply elem_of_list_to_map_2 in Hn.
  apply list_elem_of_fmap in Hn as ([m l] & [= -> ->] & _). reflexivity.
Qed.

