(* ===== verification/NodeProcessors.v ===== *)
(** The node processors of scale-down (src/pkg/processors/nodes): which nodes
    are candidates at all, and which of the nodes that could be removed are
    removed now, so that groups scaled as one unit are never removed in part;
    and the time nodes are left unprocessed
    (src/pkg/core/scaledown/nodeevaltracker). *)
From stdpp Require Import prelude gmap strings list numbers fin_maps fin_sets.
From S2P Require Import Prelude Float64 Api Budgets Unneeded.
Local Open Scope Z_scope.
Local Open Scope ca_scope.

(** ** The candidates *)

Definition GetPodDestinationCandidates (nodes : list Node) : list Node := nodes.

Definition GetScaleDownCandidates (groups : list NodeGroup)
    (NodeGroupForNode : Node → result cp_error (option NodeGroup)) (nodes : list Node) : list Node :=
  let nodeGroupSize := GetNodeGroupSizeMap groups in
  foldl (λ result node,
    match NodeGroupForNode node with
    | Err _ | Ok None => result
    | Ok (Some nodeGroup) =>
        match nodeGroupSize !! Id nodeGroup with
        | None => result
        | Some size => if size <=? MinSize nodeGroup then result else result ++ [node]
        end
    end) [] nodes.

(** Exactly the nodes of the groups above their minimal size, in order. *)
Definition above_min (groups : list NodeGroup) (group_for : Node → result cp_error (option NodeGroup))
    (n : Node) : Prop :=
  match group_for n with
  | Ok (Some g) => match GetNodeGroupSizeMap groups !! Id g with Some size => MinSize g < size | None => False end
  | _ => False
  end.
#[export] Instance above_min_dec groups group_for n : Decision (above_min groups group_for n).
Proof.
  unfold above_min. destruct (group_for n) as [[g|]|]; [|apply _..].
  destruct (GetNodeGroupSizeMap groups !! Id g); apply _.
Defined.

Lemma GetScaleDownCandidates_spec groups group_for nodes :
  GetScaleDownCandidates groups group_for nodes = filter (above_min groups group_for) nodes.
Proof.
  unfold GetScaleDownCandidates. rewrite <- (app_nil_l (filter _ nodes)).
  match goal with |- foldl ?f _ _ = _ => set (F := f) end. generalize ([] : list Node) as acc. subst F.
  induction nodes as [|n nodes IH]; intros acc; [by rewrite app_nil_r|]. cbn [foldl]. rewrite filter_cons.
  case_decide as Hn; unfold above_min in Hn; destruct (group_for n) as [[g|]|e]; try done;
    destruct (GetNodeGroupSizeMap groups !! Id g) as [size|]; try done;
    destruct (Z.leb_spec size (MinSize g)); try lia; rewrite IH; by rewrite <- ?app_assoc.
Qed.

(** ** The set of nodes to remove *)

Section set_processor.
Context `{GR : GoRange} {Pod BlockingPod : Type}.
Abbreviation NodeToBeRemoved := (NodeToBeRemoved (Pod := Pod)).
Abbreviation UnremovableNode := (UnremovableNode (BlockingPod := BlockingPod)).

(** What one call asks: the cloud provider, the default options, the nodes of
    the snapshot (nil when they cannot be listed). *)
Context (NodeGroupForNode : Node → result cp_error (option NodeGroup))
  (NodeGroupDefaults : NodeGroupAutoscalingOptions) (snapshotNodes : list Node).
Implicit Types (candidates : list NodeToBeRemoved) (c : NodeToBeRemoved) (g : NodeGroup).

Definition processors_getAllRegisteredNodesForNodeGroup g (allNodes : list Node)
    : result cp_error (list Node) :=
  match Api.Nodes g with
  | Err e => Err e
  | Ok instances =>
      let nodeByNodeName : gset string := foldl (λ s i, {[i]} ∪ s) ∅ instances in
      Ok (foldl (λ registered node,
        if is_upcoming node then registered
        else if bool_decide (ProviderID node ∈ nodeByNodeName) then registered ++ [node]
        else registered) [] allNodes)
  end.

Definition atomicScaleDownFailed (nodes : list NodeToBeRemoved) (unremovable : list UnremovableNode)
    : list UnremovableNode :=
  foldl (λ l c, l ++ [mkUnremovable (NtbrNode c) AtomicScaleDownFailed None]) unremovable nodes.

(** The lists, and the atomic nodes by group; groups are identified by their ids. *)
Record set_state : Type := mkSet {
  set_removed : list NodeToBeRemoved;
  set_unremovable : list UnremovableNode;
  nodesByGroup : gmap string (NodeGroup * list NodeToBeRemoved)
}.

Definition candidate_step (st : set_state) c : set_state :=
  let '(mkSet removed unremovable byGroup) := st in
  let refuse reason :=
    mkSet removed (unremovable ++ [mkUnremovable (NtbrNode c) reason None]) byGroup in
  match NodeGroupForNode (NtbrNode c) with
  | Err _ => refuse UnexpectedError
  | Ok None => refuse NotAutoscaled
  | Ok (Some g) =>
      match GetOptions g NodeGroupDefaults with
      | (_, Some (OtherError _)) => refuse UnexpectedError
      | (o, _) =>
          if match o with Some o => ZeroOrMaxNodeScaling o | None => false end
          then mkSet removed unremovable
                 (<[Id g := (g, match byGroup !! Id g with Some v => v.2 | None => [] end ++ [c])]> byGroup)
          else mkSet (removed ++ [c]) unremovable byGroup
      end
  end.

Definition atomic_group_step (st : list NodeToBeRemoved * list UnremovableNode)
    (kv : string * (NodeGroup * list NodeToBeRemoved))
    : list NodeToBeRemoved * list UnremovableNode :=
  let '(removed, unremovable) := st in
  let '(g, considered) := kv.2 in
  match TargetSize g with
  | Err _ =>
      (removed, foldl (λ l c, l ++ [mkUnremovable (NtbrNode c) UnexpectedError None]) unremovable considered)
  | Ok ngSize =>
      if ngSize =? ⟪ considered ⟫ then (removed ++ considered, unremovable)
      else
        match processors_getAllRegisteredNodesForNodeGroup g snapshotNodes with
        | Err _ => (removed, atomicScaleDownFailed considered unremovable)
        | Ok registeredNodes =>
            if ⟪ registeredNodes ⟫ =? ⟪ considered ⟫ then (removed ++ considered, unremovable)
            else (removed, atomicScaleDownFailed considered unremovable)
        end
  end.

(** [AtomicResizeFilteringProcessor.FilterUnremovableNodes]. *)
Definition atomic_FilterUnremovableNodes candidates : list NodeToBeRemoved * list UnremovableNode :=
  let '(mkSet removed unremovable byGroup) := foldl candidate_step (mkSet [] [] ∅) candidates in
  foldl atomic_group_step (removed, unremovable) (go_range byGroup).

(** [CompositeScaleDownSetProcessor.FilterUnremovableNodes]; the sanity check
    only logs. *)
Definition composite_FilterUnremovableNodes
    (orderedProcessorList : list (list NodeToBeRemoved → list NodeToBeRemoved * list UnremovableNode))
    candidates : list NodeToBeRemoved * list UnremovableNode :=
  foldl (λ st p,
    let '(processorRemovableNodes, processorUnremovableNodes) := p st.1 in
    (processorRemovableNodes, st.2 ++ processorUnremovableNodes)) (candidates, []) orderedProcessorList.

(** ** Every candidate is decided once *)

(** What the interface asks of a set processor. *)
Definition decides (p : list NodeToBeRemoved → list NodeToBeRemoved * list UnremovableNode) : Prop :=
  ∀ candidates, let '(removed, unremovable) := p candidates in
    removed ⊆+ candidates ∧ (NtbrNode <$> removed) ++ (UrNode <$> unremovable) ≡ₚ NtbrNode <$> candidates.

Lemma foldl_refuse reason considered (l : list UnremovableNode) :
  UrNode <$> foldl (λ l c, l ++ [mkUnremovable (NtbrNode c) reason None]) l considered =
  (UrNode <$> l) ++ (NtbrNode <$> considered).
Proof.
  revert l. induction considered as [|c cs IH]; intros l; simpl; [by rewrite app_nil_r|].
  by rewrite IH, fmap_app, <- app_assoc.
Qed.

(** The atomic nodes of all groups. *)
Definition pending (byGroup : gmap string (NodeGroup * list NodeToBeRemoved)) : list NodeToBeRemoved :=
  (map_to_list byGroup).*2 ≫= snd.

Lemma pending_fresh byGroup k v : byGroup !! k = None → pending (<[k := v]> byGroup) ≡ₚ v.2 ++ pending byGroup.
Proof. intros Hk. unfold pending. rewrite map_to_list_insert by done. by csimpl. Qed.

Lemma pending_delete byGroup k v : byGroup !! k = Some v → pending byGroup ≡ₚ v.2 ++ pending (delete k byGroup).
Proof.
  intros Hk. rewrite <- (insert_delete_id byGroup k v Hk) at 1. apply pending_fresh, lookup_delete_eq.
Qed.

Lemma pending_insert byGroup g c :
  pending (<[Id g := (g, match byGroup !! Id g with Some v => v.2 | None => [] end ++ [c])]> byGroup) ≡ₚ
  c :: pending byGroup.
Proof.
  destruct (byGroup !! Id g) as [v|] eqn:Hg.
  - rewrite (pending_delete byGroup (Id g) v Hg), <- insert_delete_eq, pending_fresh by apply lookup_delete_eq.
    simpl. solve_Permutation.
  - by rewrite pending_fresh.
Qed.

Lemma candidate_step_perm st c :
  set_removed (candidate_step st c) ++ pending (nodesByGroup (candidate_step st c)) ⊆+
    c :: set_removed st ++ pending (nodesByGroup st) ∧
  (NtbrNode <$> set_removed (candidate_step st c)) ++ (UrNode <$> set_unremovable (candidate_step st c)) ++
    (NtbrNode <$> pending (nodesByGroup (candidate_step st c))) ≡ₚ
  NtbrNode c :: (NtbrNode <$> set_removed st) ++ (UrNode <$> set_unremovable st) ++
    (NtbrNode <$> pending (nodesByGroup st)).
Proof.
  destruct st as [rm un bg]. unfold candidate_step.
  assert (∀ reason, rm ++ pending bg ⊆+ c :: rm ++ pending bg ∧
    (NtbrNode <$> rm) ++ (UrNode <$> un ++ [mkUnremovable (BlockingPod := BlockingPod) (NtbrNode c) reason None])
      ++ (NtbrNode <$> pending bg) ≡ₚ
    NtbrNode c :: (NtbrNode <$> rm) ++ (UrNode <$> un) ++ (NtbrNode <$> pending bg)) as Hrefuse.
  { intros reason. split; [by apply submseteq_cons|]. rewrite fmap_app. simpl. solve_Permutation. }
  destruct (NodeGroupForNode (NtbrNode c)) as [[g|]|e]; [|apply Hrefuse..].
  destruct (GetOptions g NodeGroupDefaults) as [o [[|msg]|]]; [|apply Hrefuse|].
  all: destruct (match o with Some o => ZeroOrMaxNodeScaling o | None => false end); simpl.
  all: try rewrite (pending_insert bg g c); try (rewrite fmap_app; simpl).
  all: split; [|solve_Permutation].
  all: apply Permutation_submseteq; solve_Permutation.
Qed.

Lemma candidates_perm candidates st :
  let st' := foldl candidate_step st candidates in
  set_removed st' ++ pending (nodesByGroup st') ⊆+ candidates ++ set_removed st ++ pending (nodesByGroup st) ∧
  (NtbrNode <$> set_removed st') ++ (UrNode <$> set_unremovable st') ++ (NtbrNode <$> pending (nodesByGroup st'))
    ≡ₚ (NtbrNode <$> candidates) ++ (NtbrNode <$> set_removed st) ++ (UrNode <$> set_unremovable st) ++
       (NtbrNode <$> pending (nodesByGroup st)).
Proof.
  cbv zeta. revert st. induction candidates as [|c cs IH]; intros st; [done|]. simpl.
  destruct (IH (candidate_step st c)) as [IH1 IH2]. destruct (candidate_step_perm st c) as [HS HP]. split.
  - etrans; [exact IH1|]. etrans; [exact (submseteq_skips_l cs _ _ HS)|].
    apply Permutation_submseteq. solve_Permutation.
  - rewrite IH2, HP. solve_Permutation.
Qed.

Lemma atomic_group_step_perm removed unremovable kv :
  let '(removed', unremovable') := atomic_group_step (removed, unremovable) kv in
  removed' ⊆+ removed ++ kv.2.2 ∧
  (NtbrNode <$> removed') ++ (UrNode <$> unremovable') ≡ₚ
    (NtbrNode <$> removed) ++ (UrNode <$> unremovable) ++ (NtbrNode <$> kv.2.2).
Proof.
  destruct kv as [k [g considered]]. unfold atomic_group_step, atomicScaleDownFailed. cbn [fst snd].
  assert (∀ reason, removed ⊆+ removed ++ considered ∧
    (NtbrNode <$> removed) ++ (UrNode <$> foldl (λ l c, l ++ [mkUnremovable (NtbrNode c) reason None])
      unremovable considered) ≡ₚ
    (NtbrNode <$> removed) ++ (UrNode <$> unremovable) ++ (NtbrNode <$> considered)) as Hno.
  { intros reason. split; [by apply submseteq_inserts_r|]. by rewrite foldl_refuse. }
  assert (removed ++ considered ⊆+ removed ++ considered ∧
    (NtbrNode <$> removed ++ considered) ++ (UrNode <$> unremovable) ≡ₚ
    (NtbrNode <$> removed) ++ (UrNode <$> unremovable) ++ (NtbrNode <$> considered)) as Hyes.
  { split; [done|]. rewrite fmap_app. solve_Permutation. }
  destruct (TargetSize g) as [ngSize|e]; [|apply Hno]. destruct (_ =? _); [apply Hyes|].
  destruct (processors_getAllRegisteredNodesForNodeGroup g snapshotNodes) as [rs|e]; [|apply Hno].
  destruct (_ =? _); [apply Hyes|apply Hno].
Qed.

Lemma atomic_groups_perm groups : ∀ removed unremovable,
  let '(removed', unremovable') := foldl atomic_group_step (removed, unremovable) groups in
  removed' ⊆+ removed ++ (groups.*2 ≫= snd) ∧
  (NtbrNode <$> removed') ++ (UrNode <$> unremovable') ≡ₚ
    (NtbrNode <$> removed) ++ (UrNode <$> unremovable) ++ (NtbrNode <$> (groups.*2 ≫= snd)).
Proof.
  induction groups as [|kv groups IH]; intros removed unremovable; [by csimpl; rewrite !app_nil_r|].
  change (foldl atomic_group_step ?st (kv :: groups)) with
    (foldl atomic_group_step (atomic_group_step st kv) groups).
  rewrite fmap_cons, bind_cons.
  pose proof (atomic_group_step_perm removed unremovable kv) as Hstep.
  destruct (atomic_group_step (removed, unremovable) kv) as [rm1 un1]. destruct Hstep as [HS HP].
  specialize (IH rm1 un1). destruct (foldl _ _ groups) as [rm2 un2]. destruct IH as [IH1 IH2]. split.
  - etrans; [exact IH1|]. rewrite app_assoc. by apply submseteq_app.
  - rewrite IH2, app_assoc, HP, fmap_app. solve_Permutation.
Qed.

Lemma atomic_filter_decides : decides atomic_FilterUnremovableNodes.
Proof.
  intros candidates. unfold atomic_FilterUnremovableNodes.
  destruct (candidates_perm candidates (mkSet [] [] ∅)) as [HS HP].
  destruct (foldl candidate_step (mkSet [] [] ∅) candidates) as [rm un bg]. simpl in HS, HP.
  rewrite !app_nil_r in *.
  pose proof (atomic_groups_perm (go_range bg) rm un) as Hg.
  destruct (foldl atomic_group_step (rm, un) (go_range bg)) as [rm' un']. destruct Hg as [HS' HP'].
  assert ((go_range bg).*2 ≫= snd ≡ₚ pending bg) as Hpend by (unfold pending; by rewrite go_range_perm).
  split; [etrans; [exact HS'|]; by rewrite Hpend|]. by rewrite HP', Hpend.
Qed.

(** A chain of processors that decide decides, so nothing is lost in a chain. *)
Lemma composite_decides ps : Forall decides ps → decides (composite_FilterUnremovableNodes ps).
Proof.
  intros Hps candidates. unfold composite_FilterUnremovableNodes.
  assert (∀ rm un, rm ⊆+ candidates →
    (NtbrNode <$> rm) ++ (UrNode <$> un) ≡ₚ NtbrNode <$> candidates →
    let '(rm', un') := foldl (λ (st : list NodeToBeRemoved * list UnremovableNode) p,
      let '(a, b) := p st.1 in (a, st.2 ++ b)) (rm, un) ps in
    rm' ⊆+ candidates ∧ (NtbrNode <$> rm') ++ (UrNode <$> un') ≡ₚ NtbrNode <$> candidates) as Hgen.
  { induction Hps as [|p ps Hp _ IH]; intros rm un HS HP; [done|]. simpl.
    specialize (Hp rm). destruct (p rm) as [a b]. destruct Hp as [HS' HP']. apply IH; [by etrans|].
    rewrite fmap_app, <- HP, <- HP'. solve_Permutation. }
  apply Hgen; [done|]. simpl. by rewrite app_nil_r.
Qed.

(** ** Atomic groups *)

(** The group a candidate is removed with as a whole. *)
Definition atomic_group_of c : option NodeGroup :=
  match NodeGroupForNode (NtbrNode c) with
  | Ok (Some g) =>
      match GetOptions g NodeGroupDefaults with
      | (_, Some (OtherError _)) => None
      | (o, _) => if match o with Some o => ZeroOrMaxNodeScaling o | None => false end
                  then Some g else None
      end
  | _ => None
  end.

Definition in_atomic (k : string) c : Prop := Id <$> atomic_group_of c = Some k.
#[export] Instance in_atomic_dec k c : Decision (in_atomic k c).
Proof. unfold in_atomic. apply _. Defined.

(** The removal is complete: it takes all nodes of the group, by its target size
    or by the nodes that are registered. *)
Definition complete g (nodes : list NodeToBeRemoved) : Prop :=
  ∃ size, TargetSize g = Ok size ∧
    (size = ⟪ nodes ⟫ ∨
     ∃ rs, processors_getAllRegisteredNodesForNodeGroup g snapshotNodes = Ok rs ∧ ⟪ rs ⟫ = ⟪ nodes ⟫).

(** The state of the first loop after [cs]. *)
Record classified (cs : list NodeToBeRemoved) (st : set_state) : Prop := mkClassified {
  cl_removed : ∀ k, filter (in_atomic k) (set_removed st) = [];
  cl_groups : ∀ k g l, nodesByGroup st !! k = Some (g, l) →
    l = filter (in_atomic k) cs ∧ ∃ c, c ∈ l ∧ atomic_group_of c = Some g;
  cl_none : ∀ k, nodesByGroup st !! k = None → filter (in_atomic k) cs = []
}.

Lemma in_atomic_one k c : filter (in_atomic k) [c] =
  match atomic_group_of c with Some g => if decide (Id g = k) then [c] else [] | None => [] end.
Proof.
  rewrite filter_cons, filter_nil. case_decide as Hk; unfold in_atomic in Hk;
    destruct (atomic_group_of c) as [g|]; simpl in Hk; [|done| |done]; case_decide; congruence.
Qed.

Lemma candidate_step_classified cs st c :
  classified cs st → classified (cs ++ [c]) (candidate_step st c).
Proof.
  intros [Hr Hg Hn].
  assert (candidate_step st c =
    match atomic_group_of c with
    | Some g => mkSet (set_removed st) (set_unremovable st)
        (<[Id g := (g, match nodesByGroup st !! Id g with Some v => v.2 | None => [] end ++ [c])]> (nodesByGroup st))
    | None => mkSet (set_removed (candidate_step st c)) (set_unremovable (candidate_step st c)) (nodesByGroup st)
    end ∧ (atomic_group_of c = None → set_removed (candidate_step st c) = set_removed st ∨
           set_removed (candidate_step st c) = set_removed st ++ [c])) as [Heq Hrm].
  { destruct st as [rm un bg]. unfold candidate_step, atomic_group_of.
    destruct (NodeGroupForNode (NtbrNode c)) as [[g|]|e]; [|by auto..].
    destruct (GetOptions g NodeGroupDefaults) as [o [[|msg]|]]; [|by auto|];
      destruct (match o with Some o => ZeroOrMaxNodeScaling o | None => false end); by auto. }
  pose proof (λ k, in_atomic_one k c) as Hone. rewrite Heq.
  destruct (atomic_group_of c) as [g|] eqn:Hc; split; simpl; [done|..].
  - intros k g' l. rewrite lookup_insert, filter_app, Hone. case_decide as Hk.
    + intros [= <- <-]. subst k. split.
      * f_equal. destruct (nodesByGroup st !! Id g) as [[g'' l'']|] eqn:Hl; [by apply (Hg _ g'')|].
        by rewrite Hn.
      * exists c. split; [|done]. rewrite elem_of_app, list_elem_of_singleton. by right.
    + intros Hl. rewrite app_nil_r. by apply Hg.
  - intros k. rewrite lookup_insert, filter_app, Hone. case_decide; [done|]. intros Hl. by rewrite Hn.
  - intros k. destruct (Hrm eq_refl) as [->| ->]; [done|]. by rewrite filter_app, Hr, Hone.
  - intros k g l Hl. rewrite filter_app, Hone, app_nil_r. by apply Hg.
  - intros k Hl. by rewrite filter_app, Hone, app_nil_r, Hn.
Qed.

Lemma candidates_classified candidates :
  classified candidates (foldl candidate_step (mkSet [] [] ∅) candidates).
Proof.
  induction candidates as [|c cs IH] using rev_ind.
  - split; simpl; [done|intros k g l; by rewrite lookup_empty|done].
  - rewrite foldl_app. by apply candidate_step_classified.
Qed.

(** One group in the second loop. *)
Lemma atomic_group_step_removed removed unremovable k g considered :
  let removed' := (atomic_group_step (removed, unremovable) (k, (g, considered))).1 in
  removed' = removed ∨ removed' = removed ++ considered ∧ complete g considered.
Proof.
  unfold atomic_group_step, complete. cbn [fst snd].
  destruct (TargetSize g) as [size|e]; [|by left].
  destruct (Z.eqb_spec size ⟪ considered ⟫); [right; split; [done|]; exists size; by auto|].
  destruct (processors_getAllRegisteredNodesForNodeGroup g snapshotNodes) as [rs|e]; [|by left].
  destruct (Z.eqb_spec ⟪ rs ⟫ ⟪ considered ⟫); [|by left].
  right. split; [done|]. exists size. split; [done|]. right. by exists rs.
Qed.


Lemma filter_in_atomic_ne k k' (cs : list NodeToBeRemoved) : k ≠ k' → filter (in_atomic k) (filter (in_atomic k') cs) = [].
Proof.
  intros Hk. induction cs as [|c cs IH]; [done|]. rewrite filter_cons. case_decide as Hc; [|done].
  rewrite filter_cons_False; [done|]. unfold in_atomic in *. congruence.
Qed.

Lemma filter_in_atomic_idemp k (cs : list NodeToBeRemoved) : filter (in_atomic k) (filter (in_atomic k) cs) = filter (in_atomic k) cs.
Proof. by apply list_filter_filter_l. Qed.

Lemma atomic_groups_removed (cs : list NodeToBeRemoved) k groups : ∀ removed unremovable,
  NoDup groups.*1 → (∀ k g l, (k, (g, l)) ∈ groups → l = filter (in_atomic k) cs) →
  let removed' := (foldl atomic_group_step (removed, unremovable) groups).1 in
  filter (in_atomic k) removed' = filter (in_atomic k) removed ∨
  ∃ g l, (k, (g, l)) ∈ groups ∧ filter (in_atomic k) removed' = filter (in_atomic k) removed ++ l ∧ complete g l.
Proof.
  induction groups as [|[k' [g l]] groups IH]; intros removed unremovable Hnd Hl; [by left|].
  apply NoDup_cons in Hnd as [Hk' Hnd].
  change (foldl atomic_group_step ?st ((k', (g, l)) :: groups)) with
    (foldl atomic_group_step (atomic_group_step st (k', (g, l))) groups).
  pose proof (atomic_group_step_removed removed unremovable k' g l) as Hstep. cbv zeta in Hstep |- *.
  destruct (atomic_group_step (removed, unremovable) (k', (g, l))) as [rm un]. simpl in Hstep.
  assert (l = filter (in_atomic k') cs) as -> by (apply (Hl k' g); left).
  specialize (IH rm un Hnd ltac:(intros; eapply Hl; right; eassumption)). cbv zeta in IH.
  destruct Hstep as [->|[-> Hc]].
  { destruct IH as [IH|(g' & l' & Hin & IH & Hc')]; [by left|]. right. exists g', l'. split; [by right|done]. }
  rewrite filter_app in IH. destruct (decide (k = k')) as [->|Hk].
  - rewrite filter_in_atomic_idemp in IH. right. exists g, (filter (in_atomic k') cs).
    split; [left|]. split; [|done]. destruct IH as [IH|(g' & l' & Hin & _)]; [done|].
    destruct Hk'. apply list_elem_of_fmap. by exists (k', (g', l')).
  - rewrite filter_in_atomic_ne, app_nil_r in IH by done.
    destruct IH as [IH|(g' & l' & Hin & IH & Hc')]; [by left|]. right. exists g', l'. split; [by right|done].
Qed.

Lemma atomic_filter_whole (cs : list NodeToBeRemoved) k :
  let taken := filter (in_atomic k) (atomic_FilterUnremovableNodes cs).1 in
  taken = [] ∨
  taken = filter (in_atomic k) cs ∧ ∃ c g, c ∈ taken ∧ atomic_group_of c = Some g ∧ complete g taken.
Proof.
  unfold atomic_FilterUnremovableNodes. pose proof (candidates_classified cs) as [Hr Hg Hn].
  destruct (foldl candidate_step (mkSet [] [] ∅) cs) as [rm un bg]. simpl in *.
  destruct (atomic_groups_removed cs k (go_range bg) rm un) as [->|(g & l & Hin & -> & Hc)].
  - apply NoDup_go_range_fst.
  - intros k' g l Hin. apply elem_of_go_range in Hin. by apply (Hg _ _ _ Hin).
  - left. apply Hr.
  - right. apply elem_of_go_range in Hin. destruct (Hg _ _ _ Hin) as [-> (c & Hcl & Hcg)].
    rewrite Hr. simpl. split; [done|]. by exists c, g.
Qed.

(** A chain of set processors that ends with the atomic one decides every
    candidate exactly once, as a node to remove or as an unremovable one, and
    never removes a group that is scaled as a unit in part: of each such group it
    takes nothing, or as many nodes as its target size or as it has registered. *)
Theorem atomic_groups_all_or_nothing ps candidates (Hps : Forall decides ps) :
  let '(removed, unremovable) :=
    composite_FilterUnremovableNodes (ps ++ [atomic_FilterUnremovableNodes]) candidates in
  removed ⊆+ candidates ∧
  (NtbrNode <$> removed) ++ (UrNode <$> unremovable) ≡ₚ NtbrNode <$> candidates ∧
  ∀ k, let taken := filter (in_atomic k) removed in
    taken = [] ∨ ∃ c g, c ∈ taken ∧ atomic_group_of c = Some g ∧ complete g taken.
Proof.
  assert (Forall decides (ps ++ [atomic_FilterUnremovableNodes])) as Hall
    by (apply Forall_app_2; [done|]; apply Forall_singleton, atomic_filter_decides).
  pose proof (composite_decides _ Hall candidates) as Hd.
  unfold composite_FilterUnremovableNodes in *. rewrite foldl_app in *. simpl in *.
  destruct (foldl _ _ ps) as [rm un]. simpl in *.
  pose proof (atomic_filter_whole rm) as Hw. destruct (atomic_FilterUnremovableNodes rm) as [rm' un'].
  destruct Hd as [HS HP]. split_and!; [done|done|]. intros k. destruct (Hw k) as [H|[_ H]]; by auto.
Qed.
End set_processor.

(** ** The time nodes stay unprocessed *)

Module MaxNodeSkipEvalTime.
Record MaxNodeSkipEvalTime : Type := mkTracker {
  lastEvalTime : Z;
  nodeNamesWithTimeStamps : gmap string Z
}.

Definition New (currentTime : Z) : MaxNodeSkipEvalTime := mkTracker currentTime ∅.

Definition get (l : MaxNodeSkipEvalTime) (nodeName : string) : Z :=
  match nodeNamesWithTimeStamps l !! nodeName with
  | Some t => t
  | None => lastEvalTime l
  end.

Section tracker.
Context `{GR : GoRange}.

Definition getMin (l : MaxNodeSkipEvalTime) : Z :=
  foldl (λ minimumTime kv, if kv.2 <? minimumTime then kv.2 else minimumTime)
    (lastEvalTime l) (go_range (nodeNamesWithTimeStamps l)).

(** [Update], and the duration it returns. *)
Definition Update (nodeNames : list string) (currentTime : Z) (l : MaxNodeSkipEvalTime)
    : MaxNodeSkipEvalTime * Z :=
  let newNodes := foldl (λ m nodeName, <[nodeName := get l nodeName]> m) ∅ nodeNames in
  let l' := mkTracker currentTime newNodes in
  (l', currentTime - getMin l').

(** The reference: the calls so far, the latest first; when was a node last
    processed, that is not named by a call? *)
Fixpoint lastProcessed (start : Z) (calls : list (list string * Z)) (n : string) : Z :=
  match calls with
  | [] => start
  | (skipped, t) :: calls => if decide (n ∈ skipped) then lastProcessed start calls n else t
  end.

Definition run (start : Z) (calls : list (list string * Z)) : MaxNodeSkipEvalTime :=
  foldr (λ call l, (Update call.1 call.2 l).1) (New start) calls.

Lemma lookup_newNodes (f : string → Z) nodeNames (m : gmap string Z) n :
  foldl (λ m nodeName, <[nodeName := f nodeName]> m) m nodeNames !! n =
  if decide (n ∈ nodeNames) then Some (f n) else m !! n.
Proof.
  revert m. induction nodeNames as [|x xs IH]; intros m.
  - by rewrite decide_False by apply not_elem_of_nil.
  - cbn [foldl]. rewrite IH, lookup_insert. repeat case_decide; subst; try done; set_solver.
Qed.

Lemma get_run start calls n : get (run start calls) n = lastProcessed start calls n.
Proof.
  induction calls as [|[skipped t] calls IH]; simpl; [done|].
  unfold Update, get at 1. simpl. rewrite lookup_newNodes, lookup_empty. by case_decide.
Qed.

Lemma getMin_fold (kvs : list (string * Z)) b :
  let m := foldl (λ m (kv : string * Z), if kv.2 <? m then kv.2 else m) b kvs in
  m ≤ b ∧ (∀ kv, kv ∈ kvs → m ≤ kv.2) ∧ (m = b ∨ ∃ kv, kv ∈ kvs ∧ m = kv.2).
Proof.
  revert b. induction kvs as [|kv kvs IH]; intros b; simpl.
  { split; [lia|]. split; [|by left]. intros kv Hkv. by apply not_elem_of_nil in Hkv. }
  destruct (IH (if kv.2 <? b then kv.2 else b)) as (H1 & H2 & H3).
  assert ((if kv.2 <? b then kv.2 else b) = Z.min kv.2 b) as Hmin by (destruct (Z.ltb_spec kv.2 b); lia).
  rewrite Hmin in *. set (m := foldl _ (kv.2 `min` b) kvs) in *. clearbody m. split; [lia|]. split.
  - intros kv' [->|Hkv']%elem_of_cons; [lia|by apply H2].
  - destruct H3 as [H3|(kv' & Hkv' & H3)].
    + destruct (Z.min_spec kv.2 b) as [[_ Hm]|[_ Hm]]; rewrite Hm in H3; [right|by left].
      exists kv. split; [left|done].
    + right. exists kv'. split; [by right|done].
Qed.

(** After any sequence of calls, [Update] returns the largest time since a
    node it is given was last processed, and zero when no such node is
    outstanding: the duration bounds the wait of every node it is given, and one
    of them waited that long, unless it is zero. *)
Theorem skip_time_exact start calls nodeNames currentTime :
  let d := (Update nodeNames currentTime (run start calls)).2 in
  0 ≤ d ∧
  (∀ n, n ∈ nodeNames → currentTime - lastProcessed start calls n ≤ d) ∧
  (d = 0 ∨ ∃ n, n ∈ nodeNames ∧ d = currentTime - lastProcessed start calls n).
Proof.
  unfold Update. cbn [snd]. unfold getMin. cbn [lastEvalTime nodeNamesWithTimeStamps].
  set (m := foldl (λ m nodeName, <[nodeName := get (run start calls) nodeName]> m) ∅ nodeNames).
  assert (∀ n t, (n, t) ∈ go_range m ↔ n ∈ nodeNames ∧ t = lastProcessed start calls n) as Hm.
  { intros n t. rewrite elem_of_go_range. unfold m. rewrite lookup_newNodes, lookup_empty, get_run.
    case_decide; naive_solver. }
  destruct (getMin_fold (go_range m) currentTime) as (H1 & H2 & H3). split; [lia|]. split.
  - intros n Hn. specialize (H2 (n, lastProcessed start calls n)). rewrite Hm in H2.
    specialize (H2 (conj Hn eq_refl)). simpl in H2. lia.
  - destruct H3 as [H3|([n t] & Hin & H3)]; [left; lia|]. apply Hm in Hin as [Hn ->]. right. exists n.
    split; [done|]. simpl in H3. lia.
Qed.
End tracker.
End MaxNodeSkipEvalTime.

(** ** A concrete run: three of the four nodes of an atomic group are candidates *)

Definition np_group (id : string) (size : Z) (atomic : bool) : NodeGroup :=
  mkNodeGroup id 0 10 (Ok size) (Ok []) (λ _, (Some (mkOptions (of_int 0) (of_int 0) 600 1200 900 900 atomic false false), None)).

Definition np_group_for (n : Node) : result cp_error (option NodeGroup) :=
  if decide (Name n ∈ ["a1"; "a2"; "a3"]) then Ok (Some (np_group "a" 4 true))
  else if decide (Name n ∈ ["b1"]) then Ok (Some (np_group "b" 1 true))
  else if decide (Name n ∈ ["s1"]) then Ok (Some (np_group "s" 9 false))
  else Ok None.

Definition np_ntbr (name : string) : NodeToBeRemoved (Pod := unit) := mkNtbr (named_node name) false [] [] [].

Definition np_run (names : list string) : list string * list (string * UnremovableReason) :=
  let '(removed, unremovable) :=
    composite_FilterUnremovableNodes (BlockingPod := unit)
      [atomic_FilterUnremovableNodes np_group_for demo_defaults []] (np_ntbr <$> names) in
  ((λ c, Name (NtbrNode c)) <$> removed, (λ u, (Name (UrNode u), Reason u)) <$> unremovable).

Example np_run_example :
  np_run ["a1"; "s1"; "b1"; "a2"; "x"; "a3"] =
    (["s1"; "b1"], [("x", NotAutoscaled); ("a1", AtomicScaleDownFailed); ("a2", AtomicScaleDownFailed);
                    ("a3", AtomicScaleDownFailed)]).
Proof. vm_compute. reflexivity. Qed.

Lemma atomic_groups_all_or_nothing_witness :
  let '(removed, unremovable) :=
    composite_FilterUnremovableNodes (BlockingPod := unit)
      ([atomic_FilterUnremovableNodes np_group_for demo_defaults []] ++
       [atomic_FilterUnremovableNodes np_group_for demo_defaults []]) (np_ntbr <$> ["a1"; "s1"; "b1"]) in
  removed ⊆+ (np_ntbr <$> ["a1"; "s1"; "b1"]) ∧
  (NtbrNode <$> removed) ++ (UrNode <$> unremovable) ≡ₚ NtbrNode <$> (np_ntbr <$> ["a1"; "s1"; "b1"]) ∧
  ∀ k, let taken := filter (in_atomic np_group_for demo_defaults k) removed in
    taken = [] ∨ ∃ c g, c ∈ taken ∧ atomic_group_of np_group_for demo_defaults c = Some g ∧ complete [] g taken.
Proof.
  apply (atomic_groups_all_or_nothing np_group_for demo_defaults []
    [atomic_FilterUnremovableNodes np_group_for demo_defaults []]).
  apply Forall_singleton, atomic_filter_decides.
Defined.
