(* ===== verification/NodeGroupConfig.v ===== *)
(** The options of a node group
    (src/pkg/processors/nodegroupconfig/node_group_config_processor.go): those
    the group declares, or the defaults. *)
From stdpp Require Import prelude strings.
From S2P Require Import Prelude Float64 Api.

Section config.
(** [DelegatingNodeGroupConfigProcessor]. *)
Context (nodeGroupDefaults : NodeGroupAutoscalingOptions).
Implicit Types (nodeGroup : NodeGroup).

Definition GetScaleDownUnneededTime nodeGroup : Z * option cp_error :=
  match GetOptions nodeGroup nodeGroupDefaults with
  | (_, Some (OtherError m)) => (0%Z, Some (OtherError m))
  | (None, _) | (_, Some ErrNotImplemented) => (ScaleDownUnneededTime nodeGroupDefaults, None)
  | (Some ngConfig, None) => (ScaleDownUnneededTime ngConfig, None)
  end.

Definition GetScaleDownUnreadyTime nodeGroup : Z * option cp_error :=
  match GetOptions nodeGroup nodeGroupDefaults with
  | (_, Some (OtherError m)) => (0%Z, Some (OtherError m))
  | (None, _) | (_, Some ErrNotImplemented) => (ScaleDownUnreadyTime nodeGroupDefaults, None)
  | (Some ngConfig, None) => (ScaleDownUnreadyTime ngConfig, None)
  end.

Definition GetScaleDownUtilizationThreshold nodeGroup : float64 * option cp_error :=
  match GetOptions nodeGroup nodeGroupDefaults with
  | (_, Some (OtherError m)) => (of_int 0, Some (OtherError m))
  | (None, _) | (_, Some ErrNotImplemented) => (ScaleDownUtilizationThreshold nodeGroupDefaults, None)
  | (Some ngConfig, None) => (ScaleDownUtilizationThreshold ngConfig, None)
  end.

Definition GetScaleDownGpuUtilizationThreshold nodeGroup : float64 * option cp_error :=
  match GetOptions nodeGroup nodeGroupDefaults with
  | (_, Some (OtherError m)) => (of_int 0, Some (OtherError m))
  | (None, _) | (_, Some ErrNotImplemented) => (ScaleDownGpuUtilizationThreshold nodeGroupDefaults, None)
  | (Some ngConfig, None) => (ScaleDownGpuUtilizationThreshold ngConfig, None)
  end.

Definition GetMaxNodeProvisionTime nodeGroup : Z * option cp_error :=
  match GetOptions nodeGroup nodeGroupDefaults with
  | (_, Some (OtherError m)) => (0%Z, Some (OtherError m))
  | (None, _) | (_, Some ErrNotImplemented) => (MaxNodeProvisionTime nodeGroupDefaults, None)
  | (Some ngConfig, None) => (MaxNodeProvisionTime ngConfig, None)
  end.

(** The only getter that answers the default with an error. *)
Definition GetMaxNodeStartupTime nodeGroup : Z * option cp_error :=
  match GetOptions nodeGroup nodeGroupDefaults with
  | (_, Some (OtherError m)) => (MaxNodeStartupTime nodeGroupDefaults, Some (OtherError m))
  | (None, _) | (_, Some ErrNotImplemented) => (MaxNodeStartupTime nodeGroupDefaults, None)
  | (Some ngConfig, None) => (MaxNodeStartupTime ngConfig, None)
  end.

Definition GetIgnoreDaemonSetsUtilization nodeGroup : bool * option cp_error :=
  match GetOptions nodeGroup nodeGroupDefaults with
  | (_, Some (OtherError m)) => (false, Some (OtherError m))
  | (None, _) | (_, Some ErrNotImplemented) => (IgnoreDaemonSetsUtilization nodeGroupDefaults, None)
  | (Some ngConfig, None) => (IgnoreDaemonSetsUtilization ngConfig, None)
  end.

(** The options in force: [None] when the group answers an error. *)
Definition effective nodeGroup : option NodeGroupAutoscalingOptions :=
  match GetOptions nodeGroup nodeGroupDefaults with
  | (Some o, None) => Some o
  | (_, Some (OtherError _)) => None
  | _ => Some nodeGroupDefaults
  end.

(** A getter fails exactly when the options cannot be read, and answers a
    field of the options in force otherwise. *)
Definition reads {A} (getter : NodeGroup → A * option cp_error)
    (field : NodeGroupAutoscalingOptions → A) : Prop :=
  ∀ g, match effective g with
       | Some o => getter g = (field o, None)
       | None => ∃ m, (getter g).2 = Some (OtherError m) ∧ (GetOptions g nodeGroupDefaults).2 = Some (OtherError m)
       end.

Ltac solve_reads :=
  intros g; unfold effective;
  destruct (GetOptions g nodeGroupDefaults) as [[o|] [[|m]|]] eqn:Ho; simpl; rewrite ?Ho; simpl; by eauto.

(** Every getter of the configuration reads its field of one and the same
    options: those the group declares, the defaults when it declares none or
    does not implement options, and an error exactly when the group answers
    another error. *)
Theorem config_getters_agree :
  reads GetScaleDownUnneededTime ScaleDownUnneededTime ∧
  reads GetScaleDownUnreadyTime ScaleDownUnreadyTime ∧
  reads GetScaleDownUtilizationThreshold ScaleDownUtilizationThreshold ∧
  reads GetScaleDownGpuUtilizationThreshold ScaleDownGpuUtilizationThreshold ∧
  reads GetMaxNodeProvisionTime MaxNodeProvisionTime ∧
  reads GetMaxNodeStartupTime MaxNodeStartupTime ∧
  reads GetIgnoreDaemonSetsUtilization IgnoreDaemonSetsUtilization.
Proof.
  unfold GetScaleDownUnneededTime, GetScaleDownUnreadyTime, GetScaleDownUtilizationThreshold,
    GetScaleDownGpuUtilizationThreshold, GetMaxNodeProvisionTime, GetMaxNodeStartupTime,
    GetIgnoreDaemonSetsUtilization.
  refine (conj _ (conj _ (conj _ (conj _ (conj _ (conj _ _)))))); solve_reads.
Qed.
End config.
