(* ===== verification/Utilization.v ===== *)
(** The utilization of a node (src/pkg/simulator/utilization/info.go), with Go's
    float64 arithmetic. Quantities are third-party code and a parameter. *)
From stdpp Require Import prelude gmap strings list numbers fin_maps.
From S2P Require Import Prelude Float64 Api Drain Framework.
Local Open Scope Z_scope.

(** [resource.Quantity]. *)
Class QuantityLib : Type := {
  Quantity : Type;
  qty_zero : Quantity;
  qty_add : Quantity → Quantity → Quantity;
  MilliValue : Quantity → Z;
  QtyValue : Quantity → Z
}.

Definition qty_sum `{QuantityLib} (l : list Quantity) : Quantity := foldl qty_add qty_zero l.

Definition ResourceCPU : string := "cpu".
Definition ResourceMemory : string := "memory".

(** [cloudprovider.GpuConfig]. *)
Record GpuConfig : Type := mkGpuConfig {
  GpuLabel : string;
  GpuType : string;
  ExtendedResourceName : string;
  DraDriverName : string
}.

Definition ExposedViaDra (gpu : GpuConfig) : bool := negb (bool_decide (DraDriverName gpu = "")).

Record Info : Type := mkInfo {
  CpuUtil : float64;
  MemUtil : float64;
  GpuUtil : float64;
  DynamicResourceUtil : float64;
  ResourceName : string;
  Utilization : float64
}.

Definition fzero : float64 := of_int 0.
Definition no_info : Info := mkInfo fzero fzero fzero fzero "" fzero.

Inductive util_error : Type :=
| ErrNoResource (resource node : string)
| ErrZeroResource (resource node : string)
| ErrDynamicResources (msg : string).

Section utilization.
Context `{QuantityLib} `{KubeLib} {S Slice CSI : Type} `{SchedNodeInfo S}.
Abbreviation NI := (NodeInfo S Slice CSI).
(** [Status.Allocatable] of a node, the requests of a pod, and the utilization of
    dynamic resources. *)
Context (Allocatable : Node → string → option Quantity) (PodRequests : Pod → string → Quantity)
  (HighestDynamicResourceUtilization : NI → result string (string * float64)).
Implicit Types (nodeInfo : NI) (pod : Pod) (resourceName : string).

(** One pod: the requests counted, and those of the daemon set and mirror pods
    left out. *)
Definition pod_usage_step resourceName (skipDaemonSetPods skipMirrorPods : bool) (currentTime : Z)
    (st : Quantity * Quantity) pod : Quantity * Quantity :=
  let '(podsRequest, daemonSetAndMirrorPodsUtilization) := st in
  let resourceValue := PodRequests pod resourceName in
  if skipDaemonSetPods && IsDaemonSetPod pod
  then (podsRequest, qty_add daemonSetAndMirrorPodsUtilization resourceValue)
  else if skipMirrorPods && IsMirrorPod pod
  then (podsRequest, qty_add daemonSetAndMirrorPodsUtilization resourceValue)
  else if IsPodLongTerminating pod currentTime then st
  else (qty_add podsRequest resourceValue, daemonSetAndMirrorPodsUtilization).

Definition CalculateUtilizationOfResource nodeInfo resourceName
    (skipDaemonSetPods skipMirrorPods : bool) (currentTime : Z) : result util_error float64 :=
  match Allocatable (ni_Node nodeInfo) resourceName with
  | None => Err (ErrNoResource resourceName (Name (ni_Node nodeInfo)))
  | Some nodeAllocatable =>
      if MilliValue nodeAllocatable =? 0 then Err (ErrZeroResource resourceName (Name (ni_Node nodeInfo)))
      else
        let '(podsRequest, daemonSetAndMirrorPodsUtilization) :=
          foldl (pod_usage_step resourceName skipDaemonSetPods skipMirrorPods currentTime)
            (qty_zero, qty_zero) (pi_Pod <$> Pods (Some nodeInfo)) in
        Ok (fdiv (of_int (MilliValue podsRequest))
              (of_int (wrap64 (MilliValue nodeAllocatable - MilliValue daemonSetAndMirrorPodsUtilization))))
  end.

Definition Calculate nodeInfo (skipDaemonSetPods skipMirrorPods draEnabled : bool)
    (gpuConfig : option GpuConfig) (currentTime : Z) : result util_error Info :=
  let of_resource r := CalculateUtilizationOfResource nodeInfo r skipDaemonSetPods skipMirrorPods currentTime in
  let without_gpu :=
    if draEnabled && negb (bool_decide (LocalResourceSlices nodeInfo = []))
    then match HighestDynamicResourceUtilization nodeInfo with
         | Err m => Err (ErrDynamicResources m)
         | Ok (resourceName, highestUtil) =>
             Ok (mkInfo fzero fzero fzero highestUtil resourceName highestUtil)
         end
    else match of_resource ResourceCPU with
         | Err e => Err e
         | Ok cpu =>
             match of_resource ResourceMemory with
             | Err e => Err e
             | Ok mem =>
                 if fltb mem cpu then Ok (mkInfo cpu mem fzero fzero ResourceCPU cpu)
                 else Ok (mkInfo cpu mem fzero fzero ResourceMemory mem)
             end
         end in
  match gpuConfig with
  | Some gpu =>
      if ExposedViaDra gpu then without_gpu
      else match of_resource (ExtendedResourceName gpu) with
           | Err _ => Ok (mkInfo fzero fzero fzero fzero (ExtendedResourceName gpu) fzero)
           | Ok gpuUtil => Ok (mkInfo fzero fzero gpuUtil fzero (ExtendedResourceName gpu) gpuUtil)
           end
  | None => without_gpu
  end.

(** ** What is counted *)

Section counted.
Context (skipDaemonSetPods skipMirrorPods : bool) (currentTime : Z).

(** The pods whose requests lower what is allocatable. *)
Definition left_out pod : Prop :=
  skipDaemonSetPods && IsDaemonSetPod pod || skipMirrorPods && IsMirrorPod pod = true.
(** The pods whose requests count as used. *)
Definition counted pod : Prop := ¬ left_out pod ∧ IsPodLongTerminating pod currentTime = false.

#[export] Instance left_out_dec pod : Decision (left_out pod).
Proof. unfold left_out. apply _. Defined.
#[export] Instance counted_dec pod : Decision (counted pod).
Proof. unfold counted. apply _. Defined.

Lemma usage_spec resourceName pods :
  foldl (pod_usage_step resourceName skipDaemonSetPods skipMirrorPods currentTime) (qty_zero, qty_zero) pods =
  (qty_sum ((λ p, PodRequests p resourceName) <$> filter counted pods),
   qty_sum ((λ p, PodRequests p resourceName) <$> filter left_out pods)).
Proof.
  induction pods as [|pod pods IH] using rev_ind; [done|].
  rewrite foldl_app, IH, !filter_app, !fmap_app. unfold qty_sum. rewrite !foldl_app. simpl.
  rewrite !filter_cons, !filter_nil. unfold pod_usage_step. cbn [fst snd].
  case_decide as Hc; case_decide as Hl; unfold counted, left_out in Hc, Hl;
    destruct (skipDaemonSetPods && IsDaemonSetPod pod), (skipMirrorPods && IsMirrorPod pod),
      (IsPodLongTerminating pod currentTime); simpl in *; try done; exfalso; by intuition congruence.
Qed.
End counted.

Lemma Calculate_cpu_mem nodeInfo ds mirror dra gpuConfig ts :
  match gpuConfig with Some gpu => ExposedViaDra gpu = true | None => True end →
  dra && negb (bool_decide (LocalResourceSlices nodeInfo = [])) = false →
  Calculate nodeInfo ds mirror dra gpuConfig ts =
  match CalculateUtilizationOfResource nodeInfo ResourceCPU ds mirror ts,
        CalculateUtilizationOfResource nodeInfo ResourceMemory ds mirror ts with
  | Ok cpu, Ok mem => Ok (mkInfo cpu mem fzero fzero (if fltb mem cpu then ResourceCPU else ResourceMemory)
                        (if fltb mem cpu then cpu else mem))
  | Err e, _ => Err e
  | _, Err e => Err e
  end.
Proof.
  intros Hgpu Hdra. unfold Calculate. rewrite Hdra. destruct gpuConfig as [gpu|]; [rewrite Hgpu|];
    (destruct (CalculateUtilizationOfResource nodeInfo ResourceCPU ds mirror ts); [|done];
     destruct (CalculateUtilizationOfResource nodeInfo ResourceMemory ds mirror ts); [|done];
     by destruct (fltb _ _)).
Qed.

(** The utilization of a resource is the quotient, rounded once, of the
    requests of the pods that count by what is allocatable less the requests of
    the pods left out: those of daemon sets and mirror pods if asked so, while
    pods that terminate for too long are neither. It is an error exactly when
    nothing of the resource is allocatable, and the utilization of a node without
    own GPUs is not below that of its CPU or of its memory. *)
Theorem utilization_exact nodeInfo resourceName ds mirror dra gpuConfig ts :
  let sum pods := MilliValue (qty_sum ((λ p, PodRequests p resourceName) <$> pods)) in
  let pods := pi_Pod <$> GetPods nodeInfo in
  match CalculateUtilizationOfResource nodeInfo resourceName ds mirror ts with
  | Ok u => ∃ a, Allocatable (ni_Node nodeInfo) resourceName = Some a ∧ MilliValue a ≠ 0 ∧
      u = fdiv (of_int (sum (filter (counted ds mirror ts) pods)))
            (of_int (wrap64 (MilliValue a - sum (filter (left_out ds mirror) pods))))
  | Err _ => ∀ a, Allocatable (ni_Node nodeInfo) resourceName = Some a → MilliValue a = 0
  end ∧
  (match gpuConfig with Some gpu => ExposedViaDra gpu = true | None => True end →
   dra && negb (bool_decide (LocalResourceSlices nodeInfo = [])) = false →
   ∀ i, Calculate nodeInfo ds mirror dra gpuConfig ts = Ok i →
     fltb (Utilization i) (CpuUtil i) = false ∧ fltb (Utilization i) (MemUtil i) = false ∧
     (Utilization i = CpuUtil i ∨ Utilization i = MemUtil i)).
Proof.
  cbv zeta. split.
  - unfold CalculateUtilizationOfResource.
    destruct (Allocatable (ni_Node nodeInfo) resourceName) as [a|]; [|done].
    destruct (Z.eqb_spec (MilliValue a) 0) as [Ha|Ha]; [by intros ? [= <-]|].
    rewrite Pods_GetPods, usage_spec. by exists a.
  - intros Hgpu Hdra i. rewrite Calculate_cpu_mem by done.
    destruct (CalculateUtilizationOfResource nodeInfo ResourceCPU ds mirror ts) as [cpu|]; [|done].
    destruct (CalculateUtilizationOfResource nodeInfo ResourceMemory ds mirror ts) as [mem|]; [|done].
    intros [= <-]. simpl. destruct (fltb mem cpu) eqn:Hlt.
    + rewrite (fltb_asym _ _ Hlt), fltb_irrefl. by auto.
    + rewrite Hlt, fltb_irrefl. by auto.
Qed.
End utilization.
