(* ===== verification/Eligibility.v ===== *)
(** Which candidates may be considered for scale-down at all
    (src/pkg/core/scaledown/eligibility/eligibility.go): the checks that need no
    simulation. *)
From stdpp Require Import prelude gmap strings pretty list numbers fin_maps.
From S2P Require Import Prelude Float64 Api Taints ClusterState Unneeded Drain Framework SnapshotSpec.
From S2P Require Import ClusterSnapshot Pdb Drainability Hinting Removal NodeGroupConfig Utilization.
Local Open Scope Z_scope.

Definition MaxKubernetesEmptyNodeDeletionTime : Z := 3 * 60 * 10 ^ 9.
Definition MaxCloudProviderNodeDeletionTime : Z := 5 * 60 * 10 ^ 9.

(** An unreadable time counts as none. *)
Definition IsNodeBeingDeleted (node : Node) (timestamp : Z) : bool :=
  match GetTaintTime node ToBeDeletedTaint with
  | Ok (Some deleteTime) =>
      (timestamp - deleteTime <? MaxCloudProviderNodeDeletionTime) ||
      (timestamp - deleteTime <? MaxKubernetesEmptyNodeDeletionTime)
  | _ => false
  end.

(** What the checks ask of the context, the cloud provider and the configuration. *)
Record EligibilityContext : Type := mkEligibilityContext {
  el_NodeGroupForNode : Node → result cp_error (option NodeGroup);
  GetNodeGpuConfig : Node → option GpuConfig;
  el_NodeGroupDefaults : NodeGroupAutoscalingOptions;
  IgnoreMirrorPodsUtilization : bool;
  DynamicResourceAllocationEnabled : bool;
  ScaleDownUnreadyEnabled : bool
}.

Section eligibility.
Context `{QuantityLib} `{KubeLib} {S Slice CSI T : Type} `{SchedNodeInfo S} `{!ClusterSnapshot S Slice CSI T}.
Abbreviation NI := (NodeInfo S Slice CSI).
Context (Allocatable : Node → string → option Quantity) (PodRequests : Pod → string → Quantity)
  (HighestDynamicResourceUtilization : NI → result string (string * float64)).
Context {BlockingPod : Type}.
Abbreviation UnremovableNode := (UnremovableNode (BlockingPod := BlockingPod)).
Abbreviation UnremovableNodes := (UnremovableNodes (BlockingPod := BlockingPod)).
Implicit Types (c : EligibilityContext) (nodeInfo : NI) (t : T) (unremovableNodes : UnremovableNodes).

Definition isNodeAtOrBelowUtilizationThreshold c (node : Node) (nodeGroup : NodeGroup) (utilInfo : Info)
    : bool * option cp_error :=
  let threshold :=
    match GetNodeGpuConfig c node with
    | Some _ => GetScaleDownGpuUtilizationThreshold (el_NodeGroupDefaults c) nodeGroup
    | None => GetScaleDownUtilizationThreshold (el_NodeGroupDefaults c) nodeGroup
    end in
  match threshold with
  | (_, Some err) => (false, Some err)
  | (threshold, None) =>
      if fltb threshold (Utilization utilInfo) then (false, None) else (true, None)
  end.

Definition unremovableReasonAndNodeUtilization c (timestamp : Z) nodeInfo
    : UnremovableReason * option Info :=
  let node := ni_Node nodeInfo in
  if IsNodeBeingDeleted node timestamp then (CurrentlyBeingDeleted, None)
  else if HasNoScaleDownAnnotation node then (ScaleDownDisabledAnnotation, None)
  else match el_NodeGroupForNode c node with
  | Err _ => (UnexpectedError, None)
  | Ok None => (NotAutoscaled, None)
  | Ok (Some nodeGroup) =>
      match GetIgnoreDaemonSetsUtilization (el_NodeGroupDefaults c) nodeGroup with
      | (_, Some _) => (UnexpectedError, None)
      | (ignoreDaemonSetsUtilization, None) =>
          match Calculate Allocatable PodRequests HighestDynamicResourceUtilization nodeInfo
                  ignoreDaemonSetsUtilization (IgnoreMirrorPodsUtilization c)
                  (DynamicResourceAllocationEnabled c) (GetNodeGpuConfig c node) timestamp with
          | Err _ => (UnexpectedError, None)
          | Ok utilInfo =>
              if negb (ScaleDownUnreadyEnabled c) && negb (NrReady (GetNodeReadiness node).1)
              then (ScaleDownUnreadyDisabled, None)
              else match isNodeAtOrBelowUtilizationThreshold c node nodeGroup utilInfo with
              | (_, Some _) => (UnexpectedError, None)
              | (false, None) => (NotUnderutilized, Some utilInfo)
              | (true, None) => (NoReason, Some utilInfo)
              end
          end
      end
  end.

(** The state of the loop. *)
Record eligibility_state : Type := mkEligibility {
  el_snapshot : T;
  currentlyUnneededNodeNames : list string;
  utilizationMap : gmap string Info;
  ineligible : list UnremovableNode
}.

Definition eligibility_step c (timestamp : Z) unremovableNodes (st : eligibility_state) (node : Node)
    : eligibility_state :=
  let '(mkEligibility t names util inel) := st in
  match GetNodeInfo t (Name node) with
  | (t, Err _) => mkEligibility t names util (inel ++ [mkUnremovable node UnexpectedError None])
  | (t, Ok nodeInfo) =>
      if IsRecent unremovableNodes (Name node)
      then mkEligibility t names util (inel ++ [mkUnremovable node RecentlyUnremovable None])
      else
        let '(reason, utilInfo) := unremovableReasonAndNodeUtilization c timestamp nodeInfo in
        let util := match utilInfo with Some i => <[Name node := i]> util | None => util end in
        if bool_decide (reason ≠ NoReason)
        then mkEligibility t names util (inel ++ [mkUnremovable node reason None])
        else mkEligibility t (names ++ [Name node]) util inel
  end.

(** The snapshot after the reads, then the three results. *)
Definition FilterOutUnremovable c t (scaleDownCandidates : list Node) (timestamp : Z)
    unremovableNodes : T * list string * gmap string Info * list UnremovableNode :=
  let '(mkEligibility t names util inel) :=
    foldl (eligibility_step c timestamp unremovableNodes) (mkEligibility t [] ∅ []) scaleDownCandidates in
  (t, names, util, inel).

(** ** Exactness *)

(** The verdict on one candidate, and the utilization recorded for it. *)
Definition verdict c (m : gmap string NI) (timestamp : Z) unremovableNodes (node : Node)
    : UnremovableReason * option Info :=
  match m !! Name node with
  | None => (UnexpectedError, None)
  | Some nodeInfo =>
      if IsRecent unremovableNodes (Name node) then (RecentlyUnremovable, None)
      else unremovableReasonAndNodeUtilization c timestamp nodeInfo
  end.

Definition eligible c (m : gmap string NI) ts unremovableNodes (node : Node) : Prop :=
  (verdict c m ts unremovableNodes node).1 = NoReason.
#[export] Instance eligible_dec c m ts u node : Decision (eligible c m ts u node).
Proof. unfold eligible. apply _. Defined.

Definition note_util c (m : gmap string NI) ts unremovableNodes (util : gmap string Info) (node : Node)
    : gmap string Info :=
  match (verdict c m ts unremovableNodes node).2 with
  | Some i => <[Name node := i]> util
  | None => util
  end.

(** Utilization comes with the two verdicts of the threshold only. *)
Lemma verdict_utilized c m ts unremovableNodes n reason i :
  verdict c m ts unremovableNodes n = (reason, Some i) → reason = NoReason ∨ reason = NotUnderutilized.
Proof.
  unfold verdict, unremovableReasonAndNodeUtilization. destruct (m !! Name n) as [ni|]; [|done].
  repeat case_match; intros Heq; simplify_eq; by auto.
Qed.

Lemma eligibility_loop_spec c ts unremovableNodes candidates t : snap_ok t →
  ∃ t', snap_ok t' ∧ snap_nodes t' = snap_nodes t ∧ snap_saved t' = snap_saved t ∧
  foldl (eligibility_step c ts unremovableNodes) (mkEligibility t [] ∅ []) candidates =
  mkEligibility t'
    (Name <$> filter (eligible c (snap_nodes t) ts unremovableNodes) candidates)
    (foldl (note_util c (snap_nodes t) ts unremovableNodes) ∅ candidates)
    ((λ n, mkUnremovable n (verdict c (snap_nodes t) ts unremovableNodes n).1 None) <$>
       filter (λ n, ¬ eligible c (snap_nodes t) ts unremovableNodes n) candidates).
Proof.
  intros Ht. induction candidates as [|n candidates IH] using rev_ind; [by exists t|].
  destruct IH as (t' & Ho & Hn & Hs & IH). rewrite !foldl_app, IH. cbn [foldl].
  unfold eligibility_step. pose proof (snap_get t' (Name n) Ho) as Hg.
  destruct (GetNodeInfo t' (Name n)) as [t'' r]. destruct Hg as (Ho' & Hs' & Hn' & ->).
  exists t''. split_and!; [done|congruence|congruence|].
  rewrite !filter_app, !fmap_app, !filter_cons, !filter_nil. rewrite Hn.
  assert (∀ e, verdict c (snap_nodes t) ts unremovableNodes n = e → e =
    match snap_nodes t !! Name n with
    | None => (UnexpectedError, None)
    | Some nodeInfo =>
      if IsRecent unremovableNodes (Name n) then (RecentlyUnremovable, None)
      else unremovableReasonAndNodeUtilization c ts nodeInfo
    end) as Hv by (by intros e <-).
  assert (note_util c (snap_nodes t) ts unremovableNodes
            (foldl (note_util c (snap_nodes t) ts unremovableNodes) ∅ candidates) n =
          match (verdict c (snap_nodes t) ts unremovableNodes n).2 with
          | Some i => <[Name n := i]> (foldl (note_util c (snap_nodes t) ts unremovableNodes) ∅ candidates)
          | None => foldl (note_util c (snap_nodes t) ts unremovableNodes) ∅ candidates
          end) as -> by done.
  case_decide as He; case_decide as Hne; try (exfalso; by auto); unfold eligible in He;
    cbn [fmap list_fmap]; destruct (verdict c (snap_nodes t) ts unremovableNodes n) as [reason info];
    specialize (Hv _ eq_refl); cbn [fst snd] in *; rewrite ?app_nil_r;
    (destruct (snap_nodes t !! Name n) as [ni|]; [destruct (IsRecent unremovableNodes (Name n))|]);
    try (injection Hv as -> ->; congruence);
    first [injection Hv as -> ->; by rewrite ?app_nil_r
          | rewrite <- Hv; case_bool_decide; first [done|congruence]].
Qed.

(** The eligibility checks decide every candidate and change nothing. The
    candidates that pass are returned in order; every other candidate is reported
    once, in order, with the first reason that applies: unknown to the snapshot,
    recently unremovable, being deleted, annotated, not autoscaled, without
    utilization or options, unready, or used above the threshold. The recorded
    utilization is that of the nodes whose threshold was compared. *)
Theorem eligibility_exact c t candidates ts unremovableNodes (Ht : snap_ok t) :
  let '(t', names, util, inel) := FilterOutUnremovable c t candidates ts unremovableNodes in
  snap_ok t' ∧ snap_nodes t' = snap_nodes t ∧ snap_saved t' = snap_saved t ∧
  names = Name <$> filter (eligible c (snap_nodes t) ts unremovableNodes) candidates ∧
  inel = (λ n, mkUnremovable n (verdict c (snap_nodes t) ts unremovableNodes n).1 None) <$>
           filter (λ n, ¬ eligible c (snap_nodes t) ts unremovableNodes n) candidates ∧
  (∀ name i, util !! name = Some i → ∃ n, n ∈ candidates ∧ Name n = name ∧
     ∃ reason, verdict c (snap_nodes t) ts unremovableNodes n = (reason, Some i) ∧
       (reason = NoReason ∨ reason = NotUnderutilized)).
Proof.
  destruct (eligibility_loop_spec c ts unremovableNodes candidates t Ht) as (t' & Ho & Hn & Hs & Heq).
  unfold FilterOutUnremovable. rewrite Heq. split_and!; [done..|]. clear Heq.
  induction candidates as [|n candidates IH] using rev_ind; intros name i; [cbn [foldl]; by rewrite lookup_empty|].
  rewrite foldl_app. cbn [foldl]. intros Hl.
  assert (n ∈ candidates ++ [n]) as Hin by (apply elem_of_app; right; left).
  assert (∀ x, x ∈ candidates → x ∈ candidates ++ [n]) as Hsub by (intros; apply elem_of_app; by left).
  unfold note_util at 1 in Hl. destruct (verdict c (snap_nodes t) ts unremovableNodes n) as [reason [j|]] eqn:Hv.
  - cbn [snd] in Hl. destruct (decide (Name n = name)) as [Hname|Hname].
    + rewrite Hname, lookup_insert_eq in Hl. injection Hl as ->. exists n. split_and!; [done..|].
      exists reason. split; [done|]. by eapply verdict_utilized.
    + rewrite lookup_insert_ne in Hl by done. destruct (IH name i Hl) as (x & ? & ?). exists x. by auto.
  - cbn [snd] in Hl. destruct (IH name i Hl) as (x & ? & ?). exists x. by auto.
Qed.
End eligibility.

(** ** A concrete check *)

(** Quantities in thousandths. *)
Definition demo_quantities : QuantityLib := {|
  Quantity := Z; qty_zero := 0; qty_add := Z.add; MilliValue q := q; QtyValue q := q `div` 1000
|}.
#[local] Instance elig_ql : QuantityLib := demo_quantities.
#[local] Instance elig_kl : KubeLib := demo_kubelib.
#[local] Instance elig_cs : ClusterSnapshot demo_sched unit unit (spec_state demo_sched unit unit) :=
  ref_snapshot demo_fits.

(** Half a node is the threshold. *)
Definition demo_half : float64 := fdiv (of_int 1) (of_int 2).
Definition demo_options : NodeGroupAutoscalingOptions :=
  mkOptions demo_half demo_half 600 1200 900 900 false false false.
Definition demo_eligibility : EligibilityContext :=
  mkEligibilityContext
    (λ n, if decide (Name n = "alien"%string) then Ok None
          else Ok (Some (mkNodeGroup "pool" 0 10 (Ok 2) (Ok []) (λ _, (None, Some ErrNotImplemented)))))
    (λ _, None) demo_options false false true.

(** Every node has two cores; the pod uses one and the other pod a core and a half. *)
Definition demo_alloc (n : Node) (r : string) : option (@Quantity demo_quantities) := Some 2000.
Definition demo_requests (p : Pod) (r : string) : @Quantity demo_quantities :=
  if decide (PodName p = "big"%string) then 1500 else 1000.

Definition demo_eligible_cluster : spec_state demo_sched unit unit :=
  mkSpec (list_to_map ((λ np, (np.1, mkNodeInfo (named_node np.1, np.2) [] None)) <$>
    [("n1"%string, [NewPodInfo (demo_replica "a") []]); ("n2"%string, [NewPodInfo (demo_replica "big") []]);
     ("alien"%string, [])])) [].

Definition demo_filter (names : list string) : _ :=
  FilterOutUnremovable (BlockingPod := unit) demo_alloc demo_requests (λ _, Err "no devices"%string)
    demo_eligibility demo_eligible_cluster (named_node <$> names) 0 unremovable_NewNodes.

Example demo_filter_example :
  let '(_, names, util, inel) := demo_filter ["n1"; "n2"; "alien"; "gone"] in
  names = ["n1"%string] ∧ Utilization <$> util !! "n1"%string = Some demo_half ∧
  (λ u, (Name (UrNode u), Reason u)) <$> inel =
    [("n2"%string, NotUnderutilized); ("alien"%string, NotAutoscaled); ("gone"%string, UnexpectedError)].
Proof. vm_compute. by split_and!. Qed.

Lemma demo_eligible_cluster_ok : snap_ok demo_eligible_cluster.
Proof.
  split; [|constructor]. intros n ni Hn. apply elem_of_list_to_map_2 in Hn.
  apply list_elem_of_fmap in Hn as ([m l] & [= -> ->] & _). reflexivity.
Qed.

Lemma eligibility_exact_witness :
  let '(_, names, _, inel) := demo_filter ["n1"; "gone"] in
  names = ["n1"%string] ∧ UrNode <$> inel = [named_node "gone"].
Proof.
  pose proof (eligibility_exact (BlockingPod := unit) demo_alloc demo_requests (λ _, Err "no devices"%string)
    demo_eligibility demo_eligible_cluster (named_node <$> ["n1"; "gone"]%string) 0 unremovable_NewNodes
    demo_eligible_cluster_ok) as H.
  fold (demo_filter ["n1"; "gone"]%string) in H.
  destruct (demo_filter ["n1"; "gone"]%string) as [[[t names] util] inel].
  destruct H as (_ & _ & _ & -> & -> & _). split; vm_compute; reflexivity.
Defined.
