(* ===== verification/Planner.v ===== *)
(** The scale-down planner (src/pkg/core/scaledown/planner): every loop it
    simulates the removal of the eligible nodes one after the other, keeps what
    it found, and answers which nodes may be removed now. It composes the
    eligibility checks, the removal simulation, the disruption budgets, the
    unneeded and unremovable nodes, the quotas and the set processors. *)
From stdpp Require Import prelude gmap strings pretty list numbers fin_maps fin_sets.
From S2P Require Import Prelude Float64 Api ClusterState Quotas Unneeded Drain Framework SnapshotSpec.
From S2P Require Import ClusterSnapshot Pdb Drainability Hinting Removal NodeProcessors NodeGroupConfig.
From S2P Require Import Utilization Eligibility.
Local Open Scope Z_scope.
Local Open Scope ca_scope.

(** ** Replicas (controller.go) *)

(** The fields read of a stateful set, a replica set or a replication
    controller: the current replicas of its status and the wanted ones. *)
Record ReplicaStatus : Type := mkReplicaStatus { StatusReplicas : Z; WantedReplicas : option Z }.

Record JobStatus : Type := mkJobStatus {
  JobActive : Z;
  JobSucceeded : Z;
  JobParallelism : option Z;
  JobCompletions : option Z
}.

Record replicasInfo : Type := mkReplicas { targetReplicas : Z; currentReplicas : Z }.

(** What the listers answer for a namespace and a name. *)
Record ReplicaListers : Type := mkReplicaListers {
  StatefulSetStatus : string → string → result string ReplicaStatus;
  ReplicaSetStatus : string → string → result string ReplicaStatus;
  ReplicationControllerStatus : string → string → result string ReplicaStatus;
  JobStatusOf : string → string → result string JobStatus
}.

Definition replicas_of (r : result string ReplicaStatus) : result string replicasInfo :=
  match r with
  | Err e => Err e
  | Ok s => Ok (mkReplicas (default 1 (WantedReplicas s)) (StatusReplicas s))
  end.

Definition getReplicas (c : ReplicaListers) (ownerRef : OwnerReference) (namespace : string)
    : result string replicasInfo :=
  if decide (OwnerKind ownerRef = "StatefulSet") then replicas_of (StatefulSetStatus c namespace (OwnerName ownerRef))
  else if decide (OwnerKind ownerRef = "ReplicaSet") then replicas_of (ReplicaSetStatus c namespace (OwnerName ownerRef))
  else if decide (OwnerKind ownerRef = "ReplicationController")
  then replicas_of (ReplicationControllerStatus c namespace (OwnerName ownerRef))
  else if decide (OwnerKind ownerRef = "Job") then
    match JobStatusOf c namespace (OwnerName ownerRef) with
    | Err e => Err e
    | Ok job =>
        let targetReplicas := default 1 (JobParallelism job) in
        let targetReplicas :=
          match JobCompletions job with
          | Some completions =>
              if wrap32 (completions - JobSucceeded job) <? targetReplicas
              then wrap32 (completions - JobSucceeded job) else targetReplicas
          | None => targetReplicas
          end in
        Ok (mkReplicas targetReplicas (JobActive job))
    end
  else Err "unhandled controller type: ".

Definition knownKinds : list string := ["StatefulSet"; "Job"; "ReplicaSet"; "ReplicationController"].

Definition getKnownOwnerRef (ownerRefs : list OwnerReference) : option OwnerReference :=
  snd <$> list_find (λ r, OwnerKind r ∈ knownKinds) ownerRefs.

(** One pod; [cc] answers the replicas of an owner in a namespace. *)
Definition recreated_step (cc : OwnerReference → string → result string replicasInfo)
    (st : list Pod * gmap string Z) (pod : Pod) : list Pod * gmap string Z :=
  let '(podsToInject, addedReplicas) := st in
  match getKnownOwnerRef (PodOwnerReferences pod) with
  | None => (podsToInject ++ [pod], addedReplicas)
  | Some ownerRef =>
      match cc ownerRef (PodNamespace pod) with
      | Err _ => (podsToInject ++ [pod], addedReplicas)
      | Ok rep =>
          let added := default 0 (addedReplicas !! OwnerUID ownerRef) in
          if (currentReplicas rep <? targetReplicas rep) &&
             (added <? wrap32 (targetReplicas rep - currentReplicas rep))
          then (podsToInject ++ [pod], <[OwnerUID ownerRef := wrap32 (added + 1)]> addedReplicas)
          else st
      end
  end.

Definition filterOutRecreatedPods (pods : list Pod)
    (cc : OwnerReference → string → result string replicasInfo) : list Pod :=
  (foldl (recreated_step cc) ([], ∅) pods).1.

(** ** Small helpers (planner.go) *)

Definition merged (a b : list string) : list string := [] ++ a ++ b.

Definition asMap (strs : list string) : gmap string bool := foldl (λ m s, <[s := true]> m) ∅ strs.

Definition nodeNames (nodes : list Node) : list string := foldl (λ names n, names ++ [Name n]) [] nodes.

Definition filterOutOngoingDeletions (ns : list Node) (deleted : gmap string bool) : list Node :=
  foldl (λ rv n, if default false (deleted !! Name n) then rv else rv ++ [n]) [] ns.

Definition sortByRisk (nodes : list (NodeToBeRemoved (Pod := Pod))) : list (NodeToBeRemoved (Pod := Pod)) :=
  let '(riskyNodes, okNodes) := foldl (λ st n,
    if IsRisky n then (st.1 ++ [n], st.2) else (st.1, st.2 ++ [n])) ([], []) nodes in
  okNodes ++ riskyNodes.

(** [Time.Sub] saturates. *)
Definition time_sub (a b : Z) : Z := Z.max int64_min (Z.min int64_max (a - b)).

(** [unneededNodesLimit], of the number of unneeded nodes; [None] is the panic of
    a division by zero. *)
Definition unneeded_limit (MaxScaleDownParallelism ScaleDownUnneededTime unneeded minUpdateInterval : Z)
    : option Z :=
  let n := MaxScaleDownParallelism in
  let extraBuffer := n in
  let limit := wrap64 (unneeded + n + extraBuffer) in
  let loopInterval := minUpdateInterval in
  let u := if ScaleDownUnneededTime <? loopInterval then loopInterval else ScaleDownUnneededTime in
  if loopInterval =? 0 then None
  else
    let upperBound := wrap64 (n * wrap64 (u `quot` loopInterval) + extraBuffer) in
    Some (if upperBound <? limit then upperBound else limit).

(** ** Evicted pods that are not recreated yet *)

Section recreated.
Context (cc : OwnerReference → string → result string replicasInfo).

(** The owner whose replicas are counted for a pod. *)
Definition counted_owner (pod : Pod) : option (OwnerReference * replicasInfo) :=
  match getKnownOwnerRef (PodOwnerReferences pod) with
  | Some ownerRef => match cc ownerRef (PodNamespace pod) with
                     | Ok rep => Some (ownerRef, rep)
                     | Err _ => None
                     end
  | None => None
  end.

Definition owned_by (uid : string) (pod : Pod) : Prop := (OwnerUID ∘ fst) <$> counted_owner pod = Some uid.
#[export] Instance owned_by_dec uid pod : Decision (owned_by uid pod).
Proof. unfold owned_by. apply _. Defined.

Definition unowned (pod : Pod) : Prop := counted_owner pod = None.
#[export] Instance unowned_dec pod : Decision (unowned pod).
Proof. unfold unowned. destruct (counted_owner pod); [by right|by left]. Defined.

(** The replicas an owner misses. *)
Definition missing (rep : replicasInfo) : nat := Z.to_nat (targetReplicas rep - currentReplicas rep).

(** All pods of an owner are told the same numbers of replicas, 32-bit numbers
    that are not negative. *)
Definition owner_replicas (uid : string) (rep : replicasInfo) (pods : list Pod) : Prop :=
  0 ≤ currentReplicas rep ≤ int32_max ∧ 0 ≤ targetReplicas rep ≤ int32_max ∧
  ∀ pod ref r, pod ∈ pods → counted_owner pod = Some (ref, r) → OwnerUID ref = uid → r = rep.

Lemma recreated_step_eq l m pod :
  recreated_step cc (l, m) pod =
  match counted_owner pod with
  | None => (l ++ [pod], m)
  | Some (ref, rep) =>
      let added := default 0 (m !! OwnerUID ref) in
      if (currentReplicas rep <? targetReplicas rep) &&
         (added <? wrap32 (targetReplicas rep - currentReplicas rep))
      then (l ++ [pod], <[OwnerUID ref := wrap32 (added + 1)]> m) else (l, m)
  end.
Proof.
  unfold recreated_step, counted_owner. destruct (getKnownOwnerRef (PodOwnerReferences pod)) as [ref|]; [|done].
  by destruct (cc ref (PodNamespace pod)).
Qed.

Lemma owned_by_one uid pod : filter (owned_by uid) [pod] =
  match counted_owner pod with Some (ref, _) => if decide (OwnerUID ref = uid) then [pod] else [] | None => [] end.
Proof.
  rewrite filter_cons, filter_nil. case_decide as Ho; unfold owned_by in Ho;
    destruct (counted_owner pod) as [[ref rep]|]; simpl in Ho; [|done| |done]; case_decide; congruence.
Qed.

Lemma unowned_one pod :
  filter unowned [pod] = match counted_owner pod with Some _ => [] | None => [pod] end.
Proof.
  rewrite filter_cons, filter_nil. case_decide as Ho; unfold unowned in Ho; by destruct (counted_owner pod).
Qed.

Lemma take_snoc_full {A} (n : nat) (l : list A) x :
  (length (take n l) < n)%nat → take n (l ++ [x]) = take n l ++ [x].
Proof. rewrite length_take. intros Hn. rewrite !take_ge; [done|lia|rewrite length_app; simpl; lia]. Qed.

Lemma take_snoc_stop {A} (n : nat) (l : list A) x :
  (n ≤ length (take n l))%nat → take n (l ++ [x]) = take n l.
Proof. rewrite length_take. intros Hn. by rewrite take_app_le by lia. Qed.

Lemma recreated_spec pods uid rep : owner_replicas uid rep pods →
  let '(out, m) := foldl (recreated_step cc) ([], ∅) pods in
  filter (owned_by uid) out = take (missing rep) (filter (owned_by uid) pods) ∧
  default 0 (m !! uid) = ⟪ filter (owned_by uid) out ⟫.
Proof.
  intros (Hc & Ht & Hsame). induction pods as [|pod pods IH] using rev_ind; [by cbn; rewrite take_nil|].
  rewrite foldl_app. cbn [foldl].
  assert (∀ p ref r, p ∈ pods → counted_owner p = Some (ref, r) → OwnerUID ref = uid → r = rep) as Hsub.
  { intros p ref r Hp. apply Hsame, elem_of_app. by left. }
  specialize (IH Hsub). destruct (foldl (recreated_step cc) ([], ∅) pods) as [out m]. destruct IH as [IH Hm].
  rewrite recreated_step_eq, filter_app, owned_by_one.
  destruct (counted_owner pod) as [[ref r]|] eqn:Hpod; [|by rewrite filter_app, owned_by_one, Hpod, !app_nil_r].
  destruct (decide (OwnerUID ref = uid)) as [Huid|Huid].
  - rewrite (Hsame pod ref r) by (done || (apply elem_of_app; right; left)). rewrite Huid, Hm. cbv zeta.
    unfold int32_max in *. rewrite (wrap32_id (targetReplicas rep - currentReplicas rep)) by (unfold int32_max; lia).
    rewrite IH. destruct (Z.ltb_spec (currentReplicas rep) (targetReplicas rep)) as [Hlt|Hge]; simpl.
    + destruct (Z.ltb_spec ⟪ take (missing rep) (filter (owned_by uid) pods) ⟫
                  (targetReplicas rep - currentReplicas rep)) as [Hl|Hl].
      * rewrite filter_app, owned_by_one, Hpod, decide_True, IH by done.
        rewrite take_snoc_full by (unfold missing in *; lia). split; [done|].
        rewrite lookup_insert_eq, length_app. simpl. rewrite wrap32_id by (unfold int32_max; lia). lia.
      * rewrite take_snoc_stop by (unfold missing in *; lia). by rewrite <- IH.
    + rewrite take_snoc_stop by (unfold missing in *; lia). by rewrite <- IH.
  - rewrite app_nil_r. cbv zeta. destruct (_ && _); [|by split].
    rewrite filter_app, owned_by_one, Hpod, decide_False, app_nil_r by done. split; [done|].
    by rewrite lookup_insert_ne.
Qed.

Lemma recreated_unowned pods :
  let out := filterOutRecreatedPods pods cc in
  filter unowned out = filter unowned pods ∧ out `sublist_of` pods.
Proof.
  unfold filterOutRecreatedPods. induction pods as [|pod pods [IH1 IH2]] using rev_ind; [done|].
  rewrite foldl_app, filter_app, unowned_one. cbn [foldl].
  destruct (foldl (recreated_step cc) ([], ∅) pods) as [out m]. cbn [fst] in *. rewrite recreated_step_eq.
  pose proof (unowned_one pod) as Hone. destruct (counted_owner pod) as [[ref r]|].
  - rewrite app_nil_r. cbv zeta. destruct (_ && _); cbn [fst].
    + rewrite filter_app, Hone, app_nil_r. split; [done|]. by apply sublist_app.
    + split; [done|]. by apply sublist_inserts_r.
  - cbn [fst]. rewrite filter_app, Hone, IH1. split; [done|]. by apply sublist_app.
Qed.

(** Of the recently evicted pods, exactly those that are still to be
    recreated are injected into the snapshot: of each controller whose replicas
    are known the first pods, as many as it misses; and every pod without such a
    controller. *)
Theorem evicted_pods_injected pods uid rep (Hrep : owner_replicas uid rep pods) :
  let out := filterOutRecreatedPods pods cc in
  out `sublist_of` pods ∧
  filter (owned_by uid) out = take (missing rep) (filter (owned_by uid) pods) ∧
  filter unowned out = filter unowned pods.
Proof.
  destruct (recreated_unowned pods) as [Hu Hs]. pose proof (recreated_spec pods uid rep Hrep) as Ho.
  unfold filterOutRecreatedPods in *. destruct (foldl (recreated_step cc) ([], ∅) pods) as [out m].
  destruct Ho as [Ho _]. by split_and!.
Qed.
End recreated.

Lemma unneeded_limit_none n unneededTime l interval :
  unneeded_limit n unneededTime l interval = None ↔ interval = 0.
Proof.
  unfold unneeded_limit.
  destruct (interval =? 0) eqn:Hz; [apply Z.eqb_eq in Hz|apply Z.eqb_neq in Hz]; by split.
Qed.

(** The number of unneeded nodes after which the simulation stops: with a
    parallelism of [n], [l] unneeded nodes, and [k] loops in the unneeded time (at
    least one), it is the least of [l + 2 n] and [n k + n], so never less than
    [2 n], if these numbers are 64-bit. It is computed exactly when the interval
    between two updates is not zero: otherwise the division panics. *)
Theorem unneeded_limit_exact n unneededTime l interval :
  (unneeded_limit n unneededTime l interval = None ↔ interval = 0) ∧
  (0 < interval → 0 ≤ n → 0 ≤ l → l + 2 * n ≤ int64_max →
   let k := Z.max 1 (unneededTime `div` interval) in
   k ≤ int64_max → n * k + n ≤ int64_max →
   unneeded_limit n unneededTime l interval = Some (Z.min (l + 2 * n) (n * k + n)) ∧
   2 * n ≤ Z.min (l + 2 * n) (n * k + n)).
Proof.
  split; [apply unneeded_limit_none|]. unfold unneeded_limit.
  - intros Hi Hn Hl Hlim. set (k := Z.max 1 (unneededTime `div` interval)). intros Hk Hub. destruct (Z.eqb_spec interval 0); [lia|].
    assert ((if unneededTime <? interval then interval else unneededTime) `quot` interval = k) as ->.
    { unfold k. destruct (Z.ltb_spec unneededTime interval) as [Hlt|Hge].
      - rewrite Z.quot_same by lia. destruct (Z.lt_ge_cases unneededTime 0) as [Hneg|Hpos].
        + pose proof (Z.div_lt_upper_bound unneededTime interval 0 Hi ltac:(lia)). lia.
        + rewrite Z.div_small by lia. done.
      - rewrite Z.quot_div_nonneg by lia. pose proof (Z.div_le_lower_bound unneededTime interval 1 Hi). lia. }
    assert (1 ≤ k) by (unfold k; lia). unfold int64_max in *.
    rewrite (wrap64_id k), (wrap64_id (n * k + n)), (wrap64_id (l + n + n)) by (unfold int64_min, int64_max; nia).
    split; [|nia]. f_equal. destruct (Z.ltb_spec (n * k + n) (l + n + n)); lia.
Qed.

Lemma unneeded_limit_exact_witness :
  unneeded_limit 10 (600 * 10 ^ 9) 3 (60 * 10 ^ 9) = Some 23 ∧ unneeded_limit 10 (600 * 10 ^ 9) 3 0 = None.
Proof.
  destruct (unneeded_limit_exact 10 (600 * 10 ^ 9) 3 (60 * 10 ^ 9)) as [_ H].
  destruct (unneeded_limit_exact 10 (600 * 10 ^ 9) 3 0) as [[_ H0] _].
  split; [|by apply H0]. apply H; vm_compute; congruence.
Defined.

(** ** The planner *)

(** What the planner reads of an [ActuationStatus]. *)
Record ActuationStatus : Type := mkActuationStatus {
  RecentEvictions : list Pod;
  DeletionsInProgress : list string * list string;
  DeletionsCount : string → Z
}.

Definition no_actuation : ActuationStatus := mkActuationStatus [] ([], []) (λ _, 0).

(** How the process ends: the fatal exit of a failing commit, the panic of a
    division by zero. *)
Inductive crash : Type := CommitFailed | DivisionByZero.

Lemma names_snoc (l : list string) (n : string) (D : gset string) :
  n ∈ D ∖ list_to_set l → NoDup l → (∀ x, x ∈ l → x ∈ D) →
  D ∖ list_to_set l ∖ {[n]} = D ∖ list_to_set (l ++ [n]) ∧ NoDup (l ++ [n]) ∧ ∀ x, x ∈ l ++ [n] → x ∈ D.
Proof.
  intros Hn Hnd Hl. split_and!; [set_solver| |set_solver].
  apply NoDup_app. split_and!; [done|set_solver|apply NoDup_singleton].
Qed.

Lemma gone_snoc (l : list string) (n k : string) (v : option bool) :
  (if decide (n = k) then None else if decide (k ∈ l) then None else v) =
  (if decide (k ∈ l ++ [n]) then None else v).
Proof. repeat case_decide; subst; try done; set_solver. Qed.

Lemma AddTimeout_ttls timeout (us : list (UnremovableNode (BlockingPod := BlockingPod))) : ∀ (u : UnremovableNodes (BlockingPod := BlockingPod)) k,
  ttls (foldl (λ u x, AddTimeout u x timeout) u us) !! k =
  if decide (k ∈ (Name ∘ UrNode) <$> us) then Some timeout else ttls u !! k.
Proof.
  induction us as [|x us IH]; intros u k; cbn [foldl].
  { by rewrite decide_False by apply not_elem_of_nil. }
  rewrite IH. cbn [ttls AddTimeout Add]. rewrite lookup_insert. simpl.
  repeat case_decide; subst; try done; set_solver.
Qed.

Section planner.
Context `{GR : GoRange} `{SortSlice} `{QuantityLib} `{KubeLib} {LabelSelector : Type}.
Context {S Slice CSI T : Type} `{SchedNodeInfo S} `{!ClusterSnapshot S Slice CSI T}.
Abbreviation NI := (NodeInfo S Slice CSI).
Abbreviation PdbTracker := (basicRemainingPdbTracker LabelSelector).
Abbreviation Ntbr := (NodeToBeRemoved (Pod := Pod)).
Abbreviation Unremovable := (UnremovableNode (BlockingPod := BlockingPod)).
Context (PodPriority : Pod → Z) {PodSpec : Type} (Spec : Pod → PodSpec)
  (PodSpecSemanticallyEqual : PodSpec → PodSpec → bool)
  (Allocatable : Node → string → option Quantity) (PodRequests : Pod → string → Quantity)
  (HighestDynamicResourceUtilization : NI → result string (string * float64))
  (Capacity : Node → string → option Z)
  (GetNodeResourceTargets : Node → option NodeGroup → result cp_error (list (string * Z))).

(** The parts of the autoscaling context and of the planner that do not change
    during a loop. *)
Record PlannerContext : Type := mkPlannerContext {
  pc_eligibility : EligibilityContext;
  pc_NodeGroups : list NodeGroup;
  MaxScaleDownParallelism : Z;
  UnremovableNodeRecheckTimeout : Z;
  MaxNodeSkipEvalTimeTrackerEnabled : bool;
  pc_rs : RemovalSimulator (LabelSelector := LabelSelector) (S := S) (Slice := Slice) (CSI := CSI);
  pc_cc : ReplicaListers;
  quotas_excluded : Node → bool;
  pc_quotas : result quota_error (list Quota);
  scaleDownSetProcessor : list Ntbr → list Ntbr * list Unremovable
}.

(** The struct [Planner], with the snapshot and the budgets of the context. *)
Record Planner : Type := mkPlanner {
  pl_snapshot : T;
  RemainingPdbs : PdbTracker;
  unremovableNodes : UnremovableNodes (BlockingPod := BlockingPod);
  unneededNodes : Unneeded.Nodes (Pod := Pod);
  rs_hints : Hints;
  injector_hints : Hints;
  latestUpdate : Z;
  minUpdateInterval : Z;
  nodeUtilizationMap : gmap string Info;
  scaleDownContext : ActuationStatus;
  maxNodeSkipEvalTime : option MaxNodeSkipEvalTime.MaxNodeSkipEvalTime
}.

Implicit Types (c : PlannerContext) (p : Planner) (t : T).

Definition pc_defaults c : NodeGroupAutoscalingOptions := el_NodeGroupDefaults (pc_eligibility c).

Definition to_result {A} (r : A * option cp_error) : result cp_error A :=
  match r with (a, None) => Ok a | (_, Some e) => Err e end.

(** The unneeded nodes read their thresholds through the configuration. *)
Definition pc_unneeded c : UnneededEnv :=
  mkUnneededEnv (pc_NodeGroups c) (el_NodeGroupForNode (pc_eligibility c))
    (λ g, to_result (NodeGroupConfig.GetScaleDownUnneededTime (pc_defaults c) g))
    (λ g, to_result (NodeGroupConfig.GetScaleDownUnreadyTime (pc_defaults c) g)).

(** The zero time is long ago. *)
Definition zero_time : Z := - 10 ^ 30.

(** [New]; with a TTL the unneeded nodes are read from the taints of a former
    run, and an error of the lister is only logged. *)
Definition New c t (pdbs : PdbTracker) (allNodes : result cp_error (list Node))
    (NodeDeletionCandidateTTL now : Z) : Planner :=
  let minUpdateInterval :=
    if ScaleDownUnneededTime (pc_defaults c) =? 0 then 1 else ScaleDownUnneededTime (pc_defaults c) in
  let unneededNodes :=
    if NodeDeletionCandidateTTL =? 0 then NewNodes
    else (LoadFromExistingTaints (pc_unneeded c) NewNodes allNodes NodeDeletionCandidateTTL now).1 in
  mkPlanner t pdbs unremovable_NewNodes unneededNodes NewHints NewHints zero_time minUpdateInterval ∅ no_actuation
    (if MaxNodeSkipEvalTimeTrackerEnabled c then Some (MaxNodeSkipEvalTime.New now) else None).

(** *** Pods that are still to be recreated *)

Definition injectPods t (hints : Hints) (pods : list Pod) : T * Hints * bool :=
  let pods := ClearPodNodeNames pods in
  match TrySchedulePods PodPriority Spec PodSpecSemanticallyEqual (λ _, None) hints t pods true
          (mkSchedulingOptions None (Some (λ _, true))) with
  | (t, hints, Err _) => (t, hints, false)
  | (t, hints, Ok res) => (t, hints, ⟪ Statuses res ⟫ =? ⟪ pods ⟫)
  end.

(** The answer tells whether all pods were injected; the planner only warns. *)
Definition injectRecentlyEvictedPods c (as_ : ActuationStatus) t (hints : Hints) : T * Hints * bool :=
  injectPods t hints
    (filterOutRecreatedPods (FilterRecreatablePods (RecentEvictions as_)) (getReplicas (pc_cc c))).

(** *** Categorizing the nodes *)

Definition atomicScaleDownNode c (node : Ntbr) : bool :=
  match el_NodeGroupForNode (pc_eligibility c) (NtbrNode node) with
  | Err _ | Ok None => false
  | Ok (Some nodeGroup) =>
      match GetOptions nodeGroup (pc_defaults c) with
      | (_, Some (OtherError _)) => false
      | (o, _) => match o with Some o => ZeroOrMaxNodeScaling o | None => false end
      end
  end.

(** [unneededNodesLimit]: reading the list of unneeded nodes fills its cache. *)
Definition unneededNodesLimit c (unneeded : Unneeded.Nodes (Pod := Pod)) (interval : Z)
    : Unneeded.Nodes (Pod := Pod) * option Z :=
  let '(unneeded, l) := AsList unneeded in
  (unneeded, unneeded_limit (MaxScaleDownParallelism c) (ScaleDownUnneededTime (pc_defaults c)) ⟪ l ⟫ interval).

(** The state of the loop of [categorizeNodes]. *)
Record categorizing : Type := mkCategorizing {
  cg_snapshot : T;
  cg_hints : Hints;
  cg_pdbs : PdbTracker;
  cg_unremovable : UnremovableNodes (BlockingPod := BlockingPod);
  cg_unneeded : Unneeded.Nodes (Pod := Pod);
  podDestinations : gmap string bool;
  removableList : list Ntbr;
  atomicScaleDownNodesCount : Z
}.

(** The body of the loop, after the checks that end it. *)
Definition categorize_node c (ts unremovableTimeout : Z) (st : categorizing) (node : string)
    : result crash categorizing :=
  match SimulateNodeRemoval PodPriority Spec PodSpecSemanticallyEqual (pc_rs c)
          (cg_snapshot st, cg_hints st) node (podDestinations st) ts (Some (cg_pdbs st)) with
  | None => Err CommitFailed
  | Some (t, hints, removable, unremovable) =>
      let st := mkCategorizing t hints (cg_pdbs st) (cg_unremovable st) (cg_unneeded st)
                  (podDestinations st) (removableList st) (atomicScaleDownNodesCount st) in
      let st :=
        match removable with
        | None => st
        | Some r =>
            let '(_, inParallel, _) := CanRemovePods (cg_pdbs st) (PodsToReschedule r) in
            let r := mkNtbr (NtbrNode r) (if negb inParallel then true else IsRisky r)
                       (PodsToReschedule r) (DaemonSetPods r) (OnCompletionPods r) in
            mkCategorizing (cg_snapshot st) (cg_hints st) (RemovePods (cg_pdbs st) (PodsToReschedule r))
              (cg_unremovable st) (cg_unneeded st) (delete (Name (NtbrNode r)) (podDestinations st))
              (removableList st ++ [r])
              (if atomicScaleDownNode c r then atomicScaleDownNodesCount st + 1
               else atomicScaleDownNodesCount st)
        end in
      Ok match unremovable with
         | None => st
         | Some u => mkCategorizing (cg_snapshot st) (cg_hints st) (cg_pdbs st)
             (AddTimeout (cg_unremovable st) u unremovableTimeout) (cg_unneeded st) (podDestinations st)
             (removableList st) (atomicScaleDownNodesCount st)
         end
  end.

(** The loop, and the nodes skipped at its end; [timedOut i] is what the timer
    says before node [i]. *)
Fixpoint categorize_loop c (ts unremovableTimeout interval : Z) (timedOut : nat → bool) (i : nat)
    (st : categorizing) (names : list string) : result crash (categorizing * list string) :=
  match names with
  | [] => Ok (st, [])
  | node :: rest =>
      if timedOut i then Ok (st, names)
      else
        let '(unneeded, limit) := unneededNodesLimit c (cg_unneeded st) interval in
        match limit with
        | None => Err DivisionByZero
        | Some limit =>
            let st := mkCategorizing (cg_snapshot st) (cg_hints st) (cg_pdbs st) (cg_unremovable st) unneeded
                        (podDestinations st) (removableList st) (atomicScaleDownNodesCount st) in
            if limit <=? ⟪ removableList st ⟫ - atomicScaleDownNodesCount st then Ok (st, names)
            else match categorize_node c ts unremovableTimeout st node with
                 | Err e => Err e
                 | Ok st => categorize_loop c ts unremovableTimeout interval timedOut (Datatypes.S i) st rest
                 end
        end
  end.

Definition handleUnprocessedNodes (tracker : option MaxNodeSkipEvalTime.MaxNodeSkipEvalTime)
    (unprocessedNodeNames : list string) (now : Z) : option MaxNodeSkipEvalTime.MaxNodeSkipEvalTime :=
  match tracker with
  | None => None
  | Some l => Some (MaxNodeSkipEvalTime.Update unprocessedNodeNames now l).1
  end.

(** The reads of the nodes that are no longer in the snapshot do not change
    what the snapshot answers. *)
Definition known t (nodeName : string) : bool := is_ok (GetNodeInfo t nodeName).2.

Definition categorizeNodes c (timedOut : nat → bool) (now : Z) (dest : gmap string bool)
    (scaleDownCandidates : list Node) p : result crash Planner :=
  let ts := latestUpdate p in
  let unremovableTimeout := ts + UnremovableNodeRecheckTimeout c in
  let unremovable := unremovable_Update (unremovableNodes p) (known (pl_snapshot p)) ts in
  let '(t, currentlyUnneededNodeNames, utilizationMap, ineligible) :=
    FilterOutUnremovable Allocatable PodRequests HighestDynamicResourceUtilization (pc_eligibility c)
      (pl_snapshot p) scaleDownCandidates ts unremovable in
  let unremovable := foldl Add unremovable ineligible in
  match categorize_loop c ts unremovableTimeout (minUpdateInterval p) timedOut 0
          (mkCategorizing t (rs_hints p) (RemainingPdbs p) unremovable (unneededNodes p) dest [] 0)
          currentlyUnneededNodeNames with
  | Err e => Err e
  | Ok (st, skippedNodes) =>
      Ok (mkPlanner (cg_snapshot st) (cg_pdbs st) (cg_unremovable st)
            (Unneeded.Update (pc_unneeded c) (cg_unneeded st) (removableList st) ts)
            (cg_hints st) (injector_hints p) ts (minUpdateInterval p) utilizationMap (scaleDownContext p)
            (handleUnprocessedNodes (maxNodeSkipEvalTime p) skippedNodes now))
  end.

Definition with_snapshot t p : Planner :=
  mkPlanner t (RemainingPdbs p) (unremovableNodes p) (unneededNodes p) (rs_hints p) (injector_hints p)
    (latestUpdate p) (minUpdateInterval p) (nodeUtilizationMap p) (scaleDownContext p) (maxNodeSkipEvalTime p).

Definition UpdateClusterState c (timedOut : nat → bool) (podDestinations scaleDownCandidates : list Node)
    (as_ : ActuationStatus) (currentTime now : Z) p : result crash Planner :=
  let updateInterval := time_sub currentTime (latestUpdate p) in
  let interval := if updateInterval <? minUpdateInterval p then updateInterval else minUpdateInterval p in
  let t := Fork (pl_snapshot p) in
  let '(t, injector, _) := injectRecentlyEvictedPods c as_ t (injector_hints p) in
  let deletions := asMap (merged (DeletionsInProgress as_).1 (DeletionsInProgress as_).2) in
  let podDestinations := filterOutOngoingDeletions podDestinations deletions in
  let scaleDownCandidates := filterOutOngoingDeletions scaleDownCandidates deletions in
  let p := mkPlanner t (RemainingPdbs p) (unremovableNodes p) (unneededNodes p) (rs_hints p) injector
             currentTime interval (nodeUtilizationMap p) as_ (maxNodeSkipEvalTime p) in
  match categorizeNodes c timedOut now (asMap (nodeNames podDestinations)) scaleDownCandidates p with
  | Err e => Err e
  | Ok p =>
      Ok (mkPlanner (Revert (pl_snapshot p)) (RemainingPdbs p) (unremovableNodes p) (unneededNodes p)
            (DropOldHints (rs_hints p)) (DropOld (injector_hints p)) (latestUpdate p) (minUpdateInterval p)
            (nodeUtilizationMap p) (scaleDownContext p) (maxNodeSkipEvalTime p))
  end.

Definition CleanUpUnneededNodes c p : Planner :=
  mkPlanner (pl_snapshot p) (RemainingPdbs p) (unremovableNodes p) (Unneeded.Clear (pc_unneeded c) (unneededNodes p))
    (rs_hints p) (injector_hints p) (latestUpdate p) (minUpdateInterval p) (nodeUtilizationMap p)
    (scaleDownContext p) (maxNodeSkipEvalTime p).

(** *** The nodes to delete *)

Definition with_unremovable (u : UnremovableNodes (BlockingPod := BlockingPod)) p : Planner :=
  mkPlanner (pl_snapshot p) (RemainingPdbs p) u (unneededNodes p) (rs_hints p) (injector_hints p)
    (latestUpdate p) (minUpdateInterval p) (nodeUtilizationMap p) (scaleDownContext p) (maxNodeSkipEvalTime p).

Definition addUnremovableNodes (unremovable : list Unremovable) p : Planner :=
  with_unremovable (foldl Add (unremovableNodes p) unremovable) p.

Definition delete_step (st : Planner * list Node * list Node) (n : Ntbr) : Planner * list Node * list Node :=
  let '(p, empty, needDrain) := st in
  if 0 <? ⟪ OnCompletionPods n ⟫
  then (addUnremovableNodes [mkUnremovable (NtbrNode n) BlockedByOnCompletionPod None] p, empty, needDrain)
  else if 0 <? ⟪ PodsToReschedule n ⟫ then (p, empty, needDrain ++ [NtbrNode n])
  else (p, empty ++ [NtbrNode n], needDrain).

(** [NewMinQuotasTracker], with the quotas of the provider. *)
Definition NewMinQuotasTracker c (nodes : list Node) : result quota_error Tracker :=
  match pc_quotas c with
  | Err e => Err e
  | Ok quotas => newQuotasTracker Capacity GetNodeResourceTargets (quotas_excluded c)
      (el_NodeGroupForNode (pc_eligibility c)) quotas nodes true
  end.

(** [allNodes] is what the snapshot lists. *)
Definition NodesToDelete c (allNodes : result snapshot_error (list Node)) p : Planner * list Node * list Node :=
  match allNodes with
  | Err _ => (p, [], [])
  | Ok nodes =>
      match NewMinQuotasTracker c nodes with
      | Err _ => (p, [], [])
      | Ok tracker =>
          let '(emptyRemovableNodes, needDrainRemovableNodes, unremovable, _) :=
            RemovableAt Capacity GetNodeResourceTargets (pc_unneeded c) (unneededNodes p)
              (DeletionsCount (scaleDownContext p)) tracker (latestUpdate p) in
          let p := addUnremovableNodes unremovable p in
          let candidatesToBeRemoved := emptyRemovableNodes ++ sortByRisk needDrainRemovableNodes in
          let '(nodesToRemove, unremovable) := scaleDownSetProcessor c candidatesToBeRemoved in
          foldl delete_step (addUnremovableNodes unremovable p, [], []) nodesToRemove
      end
  end.

(** ** What one update plans *)

(** The removals found one after the other from a snapshot, with destinations
    and budgets: each verdict holds in the state the previous removals left. *)
Inductive planned c (ts : Z) (t0 : T) (dest0 : gmap string bool) (pdbs0 : PdbTracker) :
    list string → T → gmap string bool → PdbTracker → list Ntbr → list Unremovable → Prop :=
| planned_nil : planned c ts t0 dest0 pdbs0 [] t0 dest0 pdbs0 [] []
| planned_removable names t dest pdbs rs us n t' r :
    planned c ts t0 dest0 pdbs0 names t dest pdbs rs us →
    verdict_removable (pc_rs c) t t' n dest ts (Some pdbs) r → Name (NtbrNode r) = n →
    planned c ts t0 dest0 pdbs0 (names ++ [n]) t' (delete n dest) (RemovePods pdbs (PodsToReschedule r))
      (rs ++ [mkNtbr (NtbrNode r) (negb (CanRemovePods pdbs (PodsToReschedule r)).1.2)
                (PodsToReschedule r) (DaemonSetPods r) (OnCompletionPods r)]) us
| planned_unremovable names t dest pdbs rs us n t' u :
    planned c ts t0 dest0 pdbs0 names t dest pdbs rs us →
    snap_nodes t' = snap_nodes t → verdict_unremovable (pc_rs c) t n ts (Some pdbs) u →
    planned c ts t0 dest0 pdbs0 (names ++ [n]) t' dest pdbs rs (us ++ [u]).

Lemma placed_dom (m m' : gmap string NI) pod n : placed m m' pod n → dom m' = dom m.
Proof using Type.
  intros (ni & pi & Hni & _ & ->). by apply dom_insert_lookup_L.
Qed.

Lemma places_dom opts (m m' : gmap string NI) sts : places opts m sts m' → dom m' = dom m.
Proof. induction 1 as [|sts m1 m2 pod n ni _ IH _ _ Hpl]; [done|]. by rewrite (placed_dom _ _ _ _ Hpl). Qed.

Lemma found_place_dom t t' n pods dest :
  found_place (S := S) t t' n pods dest → dom (snap_nodes t') = dom (snap_nodes t) ∖ {[n]}.
Proof using Type.
  intros (m0 & m1 & sts & Hm0 & Hp & _ & _ & ->). rewrite dom_delete_L, (places_dom _ _ _ _ Hp).
  apply set_eq. intros k. rewrite !elem_of_difference, elem_of_singleton, !elem_of_dom.
  split; intros [Hk Hne]; (split; [|done]); [rewrite <- Hm0|rewrite Hm0]; done.
Qed.

Lemma verdict_removable_dom r t t' n dest ts (pdbs : option PdbTracker) nb :
  rs_canPersist r = true → verdict_removable r t t' n dest ts pdbs nb →
  dom (snap_nodes t') = dom (snap_nodes t) ∖ {[n]} ∧ n ∈ dom (snap_nodes t).
Proof.
  intros Hc (ni & t1 & Hni & _ & _ & Hf & Ht'). rewrite Hc in Ht'. rewrite Ht'.
  split; [by eapply found_place_dom|by eapply elem_of_dom_2].
Qed.

Lemma verdict_removable_name r t t' n dest ts (pdbs : option PdbTracker) nb :
  snap_ok t → verdict_removable r t t' n dest ts pdbs nb → Name (NtbrNode nb) = n ∧ IsRisky nb = false.
Proof.
  intros Ht (ni & t1 & Hni & _ & -> & _). split; [|done]. exact (snap_named t Ht n ni Hni).
Qed.

Lemma verdict_removable_fresh r t t' n dest ts (pdbs : option PdbTracker) nb :
  snap_nodes t !! "" = None → verdict_removable r t t' n dest ts pdbs nb → snap_nodes t' !! "" = None.
Proof using Type.
  intros Hn (ni & t1 & _ & _ & _ & Hf & ->). destruct (rs_canPersist r); [|done].
  apply not_elem_of_dom. rewrite (found_place_dom _ _ _ _ _ Hf). apply not_elem_of_dom in Hn.
  intros [Hx _]%elem_of_difference. by apply Hn.
Qed.

(** The invariant of the loop after the nodes [names]. *)
Record cat_inv c (ts unremovableTimeout : Z) (st0 : categorizing) (names : list string) (st : categorizing)
    : Prop := mkCatInv {
  ci_ok : snap_ok (cg_snapshot st);
  ci_saved : snap_saved (cg_snapshot st) = snap_saved (cg_snapshot st0);
  ci_named : snap_nodes (cg_snapshot st) !! "" = None;
  ci_unneeded : cg_unneeded st = cg_unneeded st0 ∨ cg_unneeded st = (AsList (cg_unneeded st0)).1;
  ci_atomic : atomicScaleDownNodesCount st = ⟪ filter (λ r, atomicScaleDownNode c r = true) (removableList st) ⟫;
  ci_planned : ∃ us,
    planned c ts (cg_snapshot st0) (podDestinations st0) (cg_pdbs st0) names (cg_snapshot st)
      (podDestinations st) (cg_pdbs st) (removableList st) us ∧
    cg_unremovable st = foldl (λ u x, AddTimeout u x unremovableTimeout) (cg_unremovable st0) us
}.

Lemma categorize_node_inv c ts timeout st0 names st n :
  sound_rules (pc_rs c) → cat_inv c ts timeout st0 names st →
  ∃ st', categorize_node c ts timeout st n = Ok st' ∧ cat_inv c ts timeout st0 (names ++ [n]) st' ∧
    (removableList st' = removableList st ∧ atomicScaleDownNodesCount st' = atomicScaleDownNodesCount st ∨
     ∃ r, removableList st' = removableList st ++ [r] ∧
       atomicScaleDownNodesCount st ≤ atomicScaleDownNodesCount st').
Proof.
  intros Hsound [Hok Hs Hn Hu Ha (us & Hp & Hus)]. unfold categorize_node.
  destruct (SimulateNodeRemoval_spec PodPriority Spec PodSpecSemanticallyEqual (pc_rs c) (cg_snapshot st)
    (cg_hints st) n (podDestinations st) ts (Some (cg_pdbs st)) Hok Hn Hsound)
    as (t' & h' & rem & unrem & -> & Hok' & Hs' & Hv).
  destruct rem as [r|], unrem as [u|]; [done| | |done].
  - destruct (verdict_removable_name _ _ _ _ _ _ _ _ Hok Hv) as [Hname Hrisk]. cbn [cg_pdbs].
    destruct (CanRemovePods (cg_pdbs st) (PodsToReschedule r)) as [[can par] bl] eqn:Hcan.
    eexists. split; [reflexivity|]. split; [split; cbn|right; eexists; split; [reflexivity|]].
    + done.
    + congruence.
    + by eapply verdict_removable_fresh.
    + done.
    + rewrite filter_app, length_app, filter_cons, filter_nil, Ha.
      case_decide as Hd; [rewrite Hd; simpl; lia|]. apply not_true_is_false in Hd. rewrite Hd. simpl. lia.
    + exists us. split; [|done]. rewrite Hname, Hrisk.
      pose proof (planned_removable _ _ _ _ _ _ _ _ _ _ _ _ _ _ Hp Hv Hname) as H'. rewrite Hcan in H'.
      cbn [fst snd] in H'. by destruct par.
    + cbn. destruct (atomicScaleDownNode _ _); lia.
  - destruct Hv as [Hnodes Hv]. eexists. split; [reflexivity|]. split; [split; cbn|by left].
    + done.
    + congruence.
    + congruence.
    + done.
    + done.
    + exists (us ++ [u]). rewrite foldl_app, Hus. split; [|done]. by eapply planned_unremovable.
Qed.

(** Reading the list twice reads the same list. *)
Lemma AsList_cached (n m : Unneeded.Nodes (Pod := Pod)) :
  m = n ∨ m = (AsList n).1 → AsList m = ((AsList n).1, (AsList n).2) ∧ byName m = byName n.
Proof. intros [->| ->]; unfold AsList; destruct n as [[l|] nodes]; by split. Qed.

(** The limit on the nodes found, atomic groups apart. *)
Definition plan_limit c (unneeded : Unneeded.Nodes (Pod := Pod)) (interval : Z) : option Z :=
  (unneededNodesLimit c unneeded interval).2.
Definition plan_count (st : categorizing) : Z := ⟪ removableList st ⟫ - atomicScaleDownNodesCount st.

Lemma categorize_loop_spec c ts timeout interval timedOut st0 : sound_rules (pc_rs c) → interval ≠ 0 →
  ∀ rest i names st, cat_inv c ts timeout st0 names st →
  ∃ st' processed skipped limit, rest = processed ++ skipped ∧
    categorize_loop c ts timeout interval timedOut i st rest = Ok (st', skipped) ∧
    cat_inv c ts timeout st0 (names ++ processed) st' ∧
    plan_limit c (cg_unneeded st0) interval = Some limit ∧
    (plan_count st ≤ limit → plan_count st' ≤ limit) ∧
    (skipped = [] ∨ timedOut (i + length processed)%nat = true ∨ limit ≤ plan_count st').
Proof.
  intros Hsound Hi.
  destruct (plan_limit c (cg_unneeded st0) interval) as [limit|] eqn:Hlim.
  2: { exfalso. unfold plan_limit, unneededNodesLimit in Hlim. destruct (AsList _).
       by apply unneeded_limit_none in Hlim. }
  induction rest as [|n rest IH]; intros i names st Hinv; cbn [categorize_loop].
  { exists st, [], [], limit. rewrite !app_nil_r. split_and!; [done..|by left]. }
  destruct (timedOut i) eqn:Hto.
  { exists st, [], (n :: rest), limit. rewrite !app_nil_r, Nat.add_0_r. split_and!; [done..|by auto]. }
  destruct (AsList_cached _ _ (ci_unneeded _ _ _ _ _ _ Hinv)) as [Has Hby].
  assert (unneededNodesLimit c (cg_unneeded st) interval = ((AsList (cg_unneeded st0)).1, Some limit)) as ->.
  { revert Hlim. unfold plan_limit, unneededNodesLimit. rewrite Has. by destruct (AsList (cg_unneeded st0)); intros <-. }
  set (st1 := mkCategorizing _ _ _ _ _ _ _ _).
  assert (cat_inv c ts timeout st0 names st1) as Hinv1 by (destruct Hinv; split; [done..|by right|done|done]).
  destruct (Z.leb_spec limit (⟪ removableList st1 ⟫ - atomicScaleDownNodesCount st1)) as [Hl|Hl].
  { exists st1, [], (n :: rest), limit. rewrite !app_nil_r. split_and!; [done..|by auto]. }
  destruct (categorize_node_inv c ts timeout st0 names st1 n Hsound Hinv1) as (st2 & -> & Hinv2 & Hcnt).
  destruct (IH (Datatypes.S i) (names ++ [n]) st2 Hinv2)
    as (st' & processed & skipped & limit' & -> & -> & Hinv' & [= <-] & Hle & Hstop).
  exists st', (n :: processed), skipped, limit. rewrite <- app_assoc in Hinv'. split_and!; try done.
  - intros _. apply Hle. unfold plan_count.
    destruct Hcnt as [[-> ->]|(r & -> & Ha)]; [by apply Z.lt_le_incl|]. rewrite length_app. cbn [length]. lia.
  - destruct Hstop as [?|[Hst|?]]; [by auto| |by auto]. right. left. rewrite <- Hst. f_equal. simpl. lia.
Qed.

Definition removed_names (rs : list Ntbr) : list string := (Name ∘ NtbrNode) <$> rs.

(** What a sequence of verdicts amounts to. *)
Lemma planned_facts c ts t0 dest0 pdbs0 names t dest pdbs rs us :
  planned c ts t0 dest0 pdbs0 names t dest pdbs rs us →
  length names = (length rs + length us)%nat ∧ removed_names rs `sublist_of` names ∧
  pdbs = foldl RemovePods pdbs0 (PodsToReschedule <$> rs) ∧
  (∀ k, dest !! k = if decide (k ∈ removed_names rs) then None else dest0 !! k) ∧
  (rs_canPersist (pc_rs c) = true →
     dom (snap_nodes t) = dom (snap_nodes t0) ∖ list_to_set (removed_names rs) ∧
     NoDup (removed_names rs) ∧ ∀ n, n ∈ removed_names rs → n ∈ dom (snap_nodes t0)).
Proof using Type.
  unfold removed_names. induction 1 as [|names t dest pdbs rs us n t' r _ IH Hv Hname|names t dest pdbs rs us n t' u _ IH Ht Hv].
  - split_and!; [done|done|done| |].
    + intros k. by rewrite decide_False by apply not_elem_of_nil.
    + intros _. split_and!; [by cbn; rewrite difference_empty_L|constructor|]. intros n Hn. by apply not_elem_of_nil in Hn.
  - destruct IH as (Hlen & Hsub & Hpdb & Hdest & Hdom). rewrite !fmap_app, foldl_app, !length_app. simpl.
    rewrite Hname, Hpdb. split_and!; [lia|by apply sublist_app|done| |].
    + intros k. rewrite lookup_delete, Hdest. apply gone_snoc.
    + intros Hc. destruct (Hdom Hc) as (Hd & Hnd & Hin).
      destruct (verdict_removable_dom _ _ _ _ _ _ _ _ Hc Hv) as [Hd' Hn].
      rewrite Hd in Hn. rewrite Hd', Hd. by apply names_snoc.
  - destruct IH as (Hlen & Hsub & Hpdb & Hdest & Hdom). rewrite !length_app. simpl. rewrite Ht.
    split_and!; [lia|by apply sublist_inserts_r|done|done|done].
Qed.

Lemma injectRecentlyEvictedPods_spec c as_ t hints :
  snap_ok t → snap_nodes t !! "" = None →
  let '(t', _, _) := injectRecentlyEvictedPods c as_ t hints in
  snap_ok t' ∧ snap_saved t' = snap_saved t ∧ snap_nodes t' !! "" = None ∧
  ∃ sts, places (mkSchedulingOptions None (Some (λ _, true))) (snap_nodes t) sts (snap_nodes t') ∧
    StatusPod <$> sts ⊆+ clear_node_name <$>
      filterOutRecreatedPods (FilterRecreatablePods (RecentEvictions as_)) (getReplicas (pc_cc c)).
Proof.
  intros Ht Hn. unfold injectRecentlyEvictedPods, injectPods. rewrite ClearPodNodeNames_fmap.
  pose proof (TrySchedulePods_places PodPriority Spec PodSpecSemanticallyEqual (λ _, None) hints t
    (clear_node_name <$> filterOutRecreatedPods (FilterRecreatablePods (RecentEvictions as_)) (getReplicas (pc_cc c)))
    true (mkSchedulingOptions None (Some (λ _, true))) Ht Hn) as H'.
  destruct (TrySchedulePods _ _ _ _ _ _ _ _ _) as [[t' h'] [res|e]].
  all: destruct H' as (Ho & Hs & sts & Hp & Hsub & _); split_and!; [done|done| |by exists sts].
  all: apply not_elem_of_dom; rewrite (places_dom _ _ _ _ Hp); by apply not_elem_of_dom.
Qed.

(** The interval between updates after this one. *)
Definition next_interval p (currentTime : Z) : Z :=
  Z.min (time_sub currentTime (latestUpdate p)) (minUpdateInterval p).

(** The names of the candidates that pass the eligibility checks. *)
Definition plan_names c p t0 (ts : Z) (candidates : list Node) : list string :=
  Name <$> filter (eligible Allocatable PodRequests HighestDynamicResourceUtilization (pc_eligibility c)
    (snap_nodes t0) ts (unremovable_Update (unremovableNodes p) (known t0) ts)) candidates.

Lemma known_same t t' :
  snap_ok t → snap_ok t' → snap_nodes t' = snap_nodes t → ∀ n, known t' n = known t n.
Proof.
  intros Ht Ht' Heq n. unfold known. pose proof (snap_get t n Ht) as H1'. pose proof (snap_get t' n Ht') as H2'.
  destruct (GetNodeInfo t n) as [s r], (GetNodeInfo t' n) as [s' r'].
  destruct H1' as (_ & _ & _ & ->), H2' as (_ & _ & _ & ->). by rewrite Heq.
Qed.

Lemma unremovable_Update_ext (u : UnremovableNodes (BlockingPod := BlockingPod)) (f g : string → bool) ts :
  (∀ n, f n = g n) → unremovable_Update u f ts = unremovable_Update u g ts.
Proof.
  intros Hfg. unfold unremovable_Update. case_bool_decide; [done|]. f_equal. apply foldl_ext'; [|done].
  intros m kv. by rewrite Hfg.
Qed.

Lemma Add_ttls l : ∀ u : UnremovableNodes (BlockingPod := BlockingPod), ttls (foldl Add u l) = ttls u.
Proof. induction l as [|x l IH]; intros u; [done|]. cbn [foldl]. by rewrite IH. Qed.

Lemma Update_by_name env (n m : Unneeded.Nodes (Pod := Pod)) rs ts :
  byName n = byName m → Unneeded.Update env n rs ts = Unneeded.Update env m rs ts.
Proof. intros Heq. unfold Unneeded.Update, updateInternalState, update_step. by rewrite Heq. Qed.



(** ** The nodes to delete *)

Lemma sortByRisk_spec (l : list Ntbr) :
  sortByRisk l = filter (λ n, IsRisky n = false) l ++ filter (λ n, IsRisky n = true) l.
Proof.
  unfold sortByRisk.
  assert (foldl (λ st n, if IsRisky n then (st.1 ++ [n], st.2) else (st.1, st.2 ++ [n])) ([], []) l =
    (filter (λ n, IsRisky n = true) l, filter (λ n, IsRisky n = false) l)) as ->; [|done].
  induction l as [|n l IH] using rev_ind; [done|]. rewrite foldl_app, IH, !filter_app, !filter_cons, !filter_nil.
  simpl. destruct (IsRisky n); by rewrite ?app_nil_r.
Qed.

Lemma sortByRisk_perm (l : list Ntbr) : sortByRisk l ≡ₚ l.
Proof.
  rewrite sortByRisk_spec. induction l as [|n l IH]; [done|]. rewrite !filter_cons.
  destruct (IsRisky n); simpl; [by rewrite <- Permutation_middle, IH|by rewrite IH].
Qed.

Definition has_reason p (node : Node) : Prop := is_Some (reasons (unremovableNodes p) !! Name node).

Lemma Add_reasons l : ∀ (u : UnremovableNodes (BlockingPod := BlockingPod)) k,
  is_Some (reasons (foldl Add u l) !! k) ↔ k ∈ (Name ∘ UrNode) <$> l ∨ is_Some (reasons u !! k).
Proof using Type.
  induction l as [|x l IH]; intros u k; cbn [foldl].
  { split; [by right|intros [Hk|]; [by apply not_elem_of_nil in Hk|done]]. }
  rewrite IH. cbn [reasons Add]. rewrite fmap_cons, elem_of_cons, lookup_insert. simpl.
  case_decide; [subst|]; naive_solver.
Qed.

Lemma Add_reasons_in l (u : UnremovableNodes (BlockingPod := BlockingPod)) (x : Node) :
  x ∈ UrNode <$> l ∨ is_Some (reasons u !! Name x) → is_Some (reasons (foldl Add u l) !! Name x).
Proof.
  intros [(y & -> & Hy)%list_elem_of_fmap|Hu]; apply Add_reasons; [left|by right].
  by apply (list_elem_of_fmap_2 (Name ∘ UrNode) l y).
Qed.

(** The nodes the last loop keeps back, and those it returns. *)
Definition waiting (n : Ntbr) : Prop := OnCompletionPods n ≠ [].
#[export] Instance waiting_dec n : Decision (waiting n).
Proof. unfold waiting. apply _. Defined.
Definition movable (n : Ntbr) : Prop := PodsToReschedule n ≠ [].
#[export] Instance movable_dec n : Decision (movable n).
Proof. unfold movable. apply _. Defined.

(** A part of an image is the image of a part. *)
Lemma submseteq_fmap_part {A B} (f : A → B) (l : list A) (k : list B) :
  k ⊆+ f <$> l → ∃ vs rest, k = f <$> vs ∧ vs ++ rest ≡ₚ l.
Proof.
  intros Hk. apply submseteq_Permutation in Hk as [k' Hk]. symmetry in Hk.
  apply Permutation_map_inv in Hk as (l' & Heq & Hl'). symmetry in Heq.
  apply fmap_app_inv in Heq as (vs & rest & -> & -> & ->). by exists vs, rest.
Qed.

Lemma fmap_filter {A B} (f : A → B) (P : B → Prop) `{∀ x, Decision (P x)} (l : list A) :
  filter P (f <$> l) = f <$> filter (λ x, P (f x)) l.
Proof.
  induction l as [|x l IH]; [done|]. rewrite fmap_cons, !filter_cons. by case_decide; rewrite IH.
Qed.

Lemma delete_step_eq p e d n :
  delete_step (p, e, d) n =
  if decide (waiting n)
  then (addUnremovableNodes [mkUnremovable (NtbrNode n) BlockedByOnCompletionPod None] p, e, d)
  else if decide (movable n) then (p, e, d ++ [NtbrNode n]) else (p, e ++ [NtbrNode n], d).
Proof.
  unfold delete_step. repeat case_decide; unfold waiting, movable in *;
    destruct (OnCompletionPods n), (PodsToReschedule n); simpl in *; done || (exfalso; by auto).
Qed.

Lemma delete_loop nodes : ∀ p e d,
  foldl delete_step (p, e, d) nodes =
  (addUnremovableNodes ((λ n, mkUnremovable (NtbrNode n) BlockedByOnCompletionPod None) <$> filter waiting nodes) p,
   e ++ (NtbrNode <$> filter (λ n, ¬ waiting n ∧ ¬ movable n) nodes),
   d ++ (NtbrNode <$> filter (λ n, ¬ waiting n ∧ movable n) nodes)).
Proof.
  induction nodes as [|n nodes IH]; intros p e d.
  { cbn. rewrite !app_nil_r. by destruct p. }
  cbn [foldl]. rewrite delete_step_eq, !filter_cons.
  repeat case_decide; try (exfalso; tauto); rewrite IH; cbn [fmap list_fmap]; by rewrite <- ?app_assoc.
Qed.

Lemma delete_loop_perm (nodes : list Ntbr) :
  filter (λ n, ¬ waiting n ∧ ¬ movable n) nodes ++ filter (λ n, ¬ waiting n ∧ movable n) nodes ++
    filter waiting nodes ≡ₚ nodes.
Proof.
  induction nodes as [|n nodes IH]; [done|]. rewrite !filter_cons.
  repeat case_decide; try (exfalso; tauto); rewrite <- IH at 4; solve_Permutation.
Qed.

(** C27. The nodes to delete are exact. Every unneeded node is decided once: it is
    returned as empty, as needing a drain, or not at all, and then it is reported
    as unremovable. The returned nodes have been unneeded for longer than their
    threshold and run no pod that has to complete; the empty ones have no pod to
    move and the others have one. If the nodes cannot be listed or the quotas not
    be read, nothing is deleted. *)
Theorem nodes_to_delete_exact c allNodes p :
  decides (scaleDownSetProcessor c) →
  let '(p', empty, needDrain) := NodesToDelete c allNodes p in
  unneededNodes p' = unneededNodes p ∧ pl_snapshot p' = pl_snapshot p ∧
  match (match allNodes with Ok nodes => is_ok (NewMinQuotasTracker c nodes) | Err _ => false end) with
  | false => p' = p ∧ empty = [] ∧ needDrain = []
  | true =>
      ∃ (ve vd : list (Unneeded.node (Pod := Pod))) (rejected : list Node),
        empty = (NtbrNode ∘ ntbr) <$> ve ∧ needDrain = (NtbrNode ∘ ntbr) <$> vd ∧
        empty ++ needDrain ++ rejected ≡ₚ (NtbrNode ∘ ntbr) <$> (map_to_list (byName (unneededNodes p))).*2 ∧
        Forall (λ v, removable (pc_unneeded c) (latestUpdate p) v ∧ OnCompletionPods (ntbr v) = []) (ve ++ vd) ∧
        Forall (λ v, PodsToReschedule (ntbr v) = []) ve ∧ Forall (λ v, PodsToReschedule (ntbr v) ≠ []) vd ∧
        Forall (has_reason p') rejected
  end.
Proof.
  intros Hdec. unfold NodesToDelete. destruct allNodes as [nodes|e]; [|by split_and!].
  destruct (NewMinQuotasTracker c nodes) as [tracker|e]; [|by split_and!]. cbn [is_ok].
  pose proof (RemovableAt_decides (BlockingPod := BlockingPod) Capacity GetNodeResourceTargets (pc_unneeded c)
    (DeletionsCount (scaleDownContext p)) (latestUpdate p) (unneededNodes p) tracker) as Hrm.
  destruct (RemovableAt _ _ _ _ _ _ _) as [[[em nd] unr] tr].
  destruct Hrm as (ce & cd & rej & -> & -> & Hunr & Hperm & Hrem & _ & _).
  pose proof (Hdec ((ntbr <$> ce) ++ sortByRisk (ntbr <$> cd))) as Hd.
  destruct (scaleDownSetProcessor c _) as [removed unr2]. destruct Hd as [Hsub Hall].
  rewrite sortByRisk_perm, <- fmap_app in Hsub, Hall.
  apply submseteq_fmap_part in Hsub as (vs & rest & -> & Hvs).
  rewrite delete_loop, !fmap_filter. cbn [app]. split; [done|]. split; [done|].
  exists (filter (λ v, ¬ waiting (ntbr v) ∧ ¬ movable (ntbr v)) vs),
    (filter (λ v, ¬ waiting (ntbr v) ∧ movable (ntbr v)) vs),
    ((UrNode <$> unr) ++ (UrNode <$> unr2) ++ (NtbrNode <$> filter waiting (ntbr <$> vs))).
  split; [by rewrite list_fmap_compose|]. split; [by rewrite list_fmap_compose|]. split_and!.
  - assert (NtbrNode <$> (ntbr <$> vs) ≡ₚ
      (NtbrNode <$> (ntbr <$> filter (λ v, ¬ waiting (ntbr v) ∧ ¬ movable (ntbr v)) vs)) ++
      (NtbrNode <$> (ntbr <$> filter (λ v, ¬ waiting (ntbr v) ∧ movable (ntbr v)) vs)) ++
      (NtbrNode <$> filter waiting (ntbr <$> vs))) as Hsplit.
    { pose proof (delete_loop_perm (ntbr <$> vs)) as Hv. rewrite !fmap_filter in Hv. rewrite !fmap_filter.
      apply (fmap_Permutation NtbrNode) in Hv. by rewrite !fmap_app in Hv. }
    rewrite <- Hperm, Hunr, (app_assoc ce), fmap_app, (list_fmap_compose ntbr NtbrNode (ce ++ cd)), <- Hall, Hsplit.
    solve_Permutation.
  - assert (Forall (removable (pc_unneeded c) (latestUpdate p)) vs) as Hvr.
    { apply (Forall_app _ vs rest). by rewrite Hvs. }
    rewrite Forall_app, !Forall_forall in *. unfold waiting.
    split; intros v [[Hw _] Hv]%list_elem_of_filter; (split; [by apply Hvr|by apply dec_stable]).
  - apply Forall_forall. intros v [[_ Hm] _]%list_elem_of_filter. by apply dec_stable.
  - apply Forall_forall. by intros v [[_ Hm] _]%list_elem_of_filter.
  - rewrite !Forall_app, !Forall_forall. unfold has_reason. cbn [unremovableNodes addUnremovableNodes with_unremovable].
    split_and!; intros x Hx; apply Add_reasons_in; [right; apply Add_reasons_in..|].
    + right. apply Add_reasons_in. by left.
    + by left.
    + left. rewrite fmap_filter in Hx. rewrite <- !list_fmap_compose in *. exact Hx.
Qed.
End planner.

(** ** A concrete planner: two nodes, one pod that fits on either *)

#[local] Instance planner_ql : QuantityLib := demo_quantities.
#[local] Instance planner_kl : KubeLib := demo_kubelib.
#[local] Instance planner_cs : ClusterSnapshot demo_sched unit unit (spec_state demo_sched unit unit) :=
  ref_snapshot demo_fits.

Definition demo_listers : ReplicaListers :=
  mkReplicaListers (λ _ _, Err "none"%string) (λ _ _, Ok (mkReplicaStatus 1 (Some 3))) (λ _ _, Err "none"%string)
    (λ _ _, Err "none"%string).

Definition demo_planner_context :
    PlannerContext (LabelSelector := unit) (S := demo_sched) (Slice := unit) (CSI := unit) :=
  mkPlannerContext demo_eligibility [mkNodeGroup "pool" 0 10 (Ok 2) (Ok []) (λ _, (None, Some ErrNotImplemented))]
    5 300 false demo_simulator demo_listers (λ _, false) (Ok [])
    (atomic_FilterUnremovableNodes (el_NodeGroupForNode demo_eligibility) demo_options []).

Definition demo_planner :
    Planner (LabelSelector := unit) (T := spec_state demo_sched unit unit) :=
  New demo_planner_context demo_removal_cluster NewBasicRemainingPdbTracker (Ok []) 0 0.

Definition demo_update (p : Planner) (currentTime : Z) : result crash Planner :=
  UpdateClusterState demo_priority (λ p, p) (λ _ _, true) demo_alloc demo_requests (λ _, Err "no devices"%string)
    demo_planner_context (λ _, false) (named_node <$> ["n1"; "n2"]) (named_node <$> ["n1"; "n2"]) no_actuation
    currentTime currentTime p.

Definition planner_summary (p : Planner (LabelSelector := unit) (T := spec_state demo_sched unit unit)) :
    list (string * Z) * list (string * UnremovableReason) :=
  ((λ kv, (kv.1, since kv.2)) <$> map_to_list (byName (unneededNodes p)),
   (λ kv, (kv.1, Reason kv.2)) <$> map_to_list (reasons (unremovableNodes p))).

(** The first node can go, its pod moves to the second, which then has to stay. *)
Example demo_update_example :
  match demo_update demo_planner 1000 with
  | Ok p => planner_summary p = ([("n1"%string, 1000)], [("n2"%string, NoPlaceToMovePods)])
  | Err _ => False
  end.
Proof. vm_compute. reflexivity. Qed.

(** Two updates at the same time: the interval is zero and the planner panics. *)
Example demo_update_twice :
  match demo_update demo_planner 1000 with
  | Ok p => demo_update p 1000 = Err DivisionByZero
  | Err _ => False
  end.
Proof. vm_compute. reflexivity. Qed.

(** An owner that misses two of three replicas, with three evicted pods. *)
Lemma demo_owner_replicas :
  owner_replicas (getReplicas demo_listers) "uid" (mkReplicas 3 1)
    [demo_replica "a"; demo_replica "b"; demo_replica "c"].
Proof.
  split; [vm_compute; split; congruence|]. split; [vm_compute; split; congruence|].
  intros pod ref r Hin Hpod _.
  assert (counted_owner (getReplicas demo_listers) pod =
    Some (mkOwner "apps/v1" "ReplicaSet" "rs" "uid" (Some true), mkReplicas 3 1)) as Hc.
  { repeat (apply elem_of_cons in Hin as [->|Hin]; [vm_compute; reflexivity|]). by apply not_elem_of_nil in Hin. }
  congruence.
Qed.

Lemma evicted_pods_injected_witness :
  let pods := [demo_replica "a"; demo_replica "b"; demo_replica "c"] in
  filter (owned_by (getReplicas demo_listers) "uid") (filterOutRecreatedPods pods (getReplicas demo_listers)) =
    [demo_replica "a"; demo_replica "b"].
Proof.
  cbv zeta.
  destruct (evicted_pods_injected (getReplicas demo_listers) _ "uid" (mkReplicas 3 1) demo_owner_replicas)
    as (_ & H & _).
  rewrite H. vm_compute. reflexivity.
Defined.


Definition demo_start : categorizing (LabelSelector := unit) (T := spec_state demo_sched unit unit) :=
  mkCategorizing demo_removal_cluster NewHints NewBasicRemainingPdbTracker unremovable_NewNodes NewNodes
    {["n1" := true; "n2" := true]} [] 0.

Definition demo_plan : result crash (categorizing * list string) :=
  categorize_loop demo_priority (λ p, p) (λ _ _, true) demo_planner_context 1000 1300 1 (λ _, false) 0
    demo_start ["n1"; "n2"].

Example demo_plan_example :
  match demo_plan with
  | Ok (st, skipped) => removed_names (removableList st) = ["n1"%string] ∧ skipped = []
  | Err _ => False
  end.
Proof. vm_compute. by split. Qed.


Definition demo_delete (p : Planner (LabelSelector := unit) (T := spec_state demo_sched unit unit)) : _ :=
  NodesToDelete (λ _ _, None) (λ _ _, Ok []) demo_planner_context (Ok (named_node <$> ["n1"; "n2"])) p.

(** Long after the update the node may go; it has a pod to drain. *)
Definition demo_long_after : Planner (LabelSelector := unit) (T := spec_state demo_sched unit unit) :=
  match demo_update demo_planner 1000 with
  | Ok p => match demo_update p 5000 with Ok p => p | Err _ => demo_planner end
  | Err _ => demo_planner
  end.

Lemma nodes_to_delete_exact_witness :
  let '(p', empty, needDrain) := demo_delete demo_long_after in
  unneededNodes p' = unneededNodes demo_long_after ∧ Name <$> needDrain = ["n1"%string] ∧ empty = [].
Proof.
  pose proof (nodes_to_delete_exact (LabelSelector := unit) (S := demo_sched) (Slice := unit) (CSI := unit)
    (λ _ _, None) (λ _ _, Ok []) demo_planner_context (Ok (named_node <$> ["n1"; "n2"]%string)) demo_long_after
    (atomic_filter_decides _ _ _)) as H.
  fold (demo_delete demo_long_after) in H.
  assert (((λ n, Name n) <$> (demo_delete demo_long_after).1.2, (λ n, Name n) <$> (demo_delete demo_long_after).2) =
    ([], ["n1"%string])) as Hc by (vm_compute; reflexivity).
  destruct (demo_delete demo_long_after) as [[p' empty] needDrain]. destruct H as (Hu & _ & _).
  simpl in Hc. injection Hc as He Hd. split; [exact Hu|]. split; [exact Hd|]. by destruct empty.
Defined.
