(* ===== verification/Expanders.v ===== *)
(** The expanders (src/pkg/expander): which of the options to grow the cluster
    is taken. Each expander is a filter that keeps its best options; a chain of
    filters ends with a random choice. *)
From stdpp Require Import prelude gmap strings list numbers fin_maps.
From S2P Require Import Prelude Float64 Api Drain Framework Utilization.
Local Open Scope Z_scope.
Local Open Scope ca_scope.

Record Option : Type := mkOption {
  OptNodeGroup : NodeGroup;
  OptSimilarNodeGroups : list NodeGroup;
  NodeCount : Z;
  OptDebug : string;
  OptPods : list Pod
}.

(** ** The best options of a fold *)

Section select.
Context {A K : Type} (lt eq : K → K → bool) (valid : K → Prop).
Context (Hirrefl : ∀ a, valid a → lt a a = false)
  (Hsplit : ∀ a b c, valid b → lt a c = true → lt a b = true ∨ lt b c = true)
  (Htrans : ∀ a b c, lt a b = true → lt b c = true → lt a c = true)
  (Heq : ∀ a b, valid a → valid b → eq a b = true ↔ lt a b = false ∧ lt b a = false).
Context (score : A → K).

(** What the loops below have in common: keep the options with the least score. *)
Definition select_step (st : K * list A) (x : A) : K * list A :=
  match st.2 with
  | [] => (score x, [x])
  | _ => if eq (score x) st.1 then (st.1, st.2 ++ [x])
         else if lt (score x) st.1 then (score x, [x]) else st
  end.

Definition minimal (l : list A) (x : A) : Prop := Forall (λ y, lt (score y) (score x) = false) l.
#[export] Instance minimal_dec l x : Decision (minimal l x).
Proof. unfold minimal. apply _. Defined.

Definition best_of (l : list A) : list A := filter (minimal l) l.

Lemma minimal_snoc l x y :
  minimal (l ++ [x]) y ↔ minimal l y ∧ lt (score x) (score y) = false.
Proof. unfold minimal. by rewrite Forall_app, Forall_singleton. Qed.

Lemma filter_minimal_snoc l x :
  best_of (l ++ [x]) =
  filter (λ y, lt (score x) (score y) = false) (best_of l) ++
  (if decide (minimal l x ∧ lt (score x) (score x) = false) then [x] else []).
Proof.
  unfold best_of. rewrite filter_app, list_filter_filter, filter_cons, filter_nil. f_equal.
  - apply list_filter_iff. intros y. rewrite minimal_snoc. tauto.
  - assert (minimal (l ++ [x]) x ↔ minimal l x ∧ lt (score x) (score x) = false) as Hiff by apply minimal_snoc.
    repeat case_decide; tauto.
Qed.

(** The best score is equal to that of every option kept. *)
Lemma select_spec l b0 : Forall (λ x, valid (score x)) l →
  let '(b, sel) := foldl select_step (b0, []) l in
  sel = best_of l ∧ (l ≠ [] → sel ≠ [] ∧ ∃ x, x ∈ l ∧ b = score x ∧ minimal l x).
Proof.
  induction l as [|x l IH] using rev_ind; intros Hv; [done|].
  rewrite Forall_app, Forall_singleton in Hv. destruct Hv as [Hv Hx]. specialize (IH Hv).
  rewrite foldl_app, filter_minimal_snoc. cbn [foldl].
  destruct (foldl select_step (b0, []) l) as [b sel]. destruct IH as [-> IH].
  unfold select_step. cbn [fst snd].
  assert (lt (score x) (score x) = false) as Hxx by by apply Hirrefl.
  destruct (decide (l = [])) as [->|Hl].
  { cbn. rewrite decide_True by (split; [constructor|done]). split; [done|]. intros _. split; [done|].
    exists x. split; [left|]. split; [done|]. apply Forall_singleton. done. }
  destruct (IH Hl) as [Hne (z & Hz & -> & Hzmin)]. destruct (best_of l) as [|y ys] eqn:Hbest; [done|].
  assert (∀ w, w ∈ y :: ys → lt (score w) (score z) = false ∧ lt (score z) (score w) = false ∧ valid (score w)) as Hsel.
  { intros w Hw. rewrite <- Hbest in Hw. apply list_elem_of_filter in Hw as [Hmin Hw].
    rewrite !Forall_forall in *. unfold minimal in *. rewrite !Forall_forall in *.
    split; [by apply Hzmin|]. split; [by apply Hmin|by apply Hv]. }
  assert (valid (score z)) as Hvz by (rewrite Forall_forall in Hv; by apply Hv).
  destruct (eq (score x) (score z)) eqn:He; [|destruct (lt (score x) (score z)) eqn:Hlt].
  - apply Heq in He as [He1 He2]; [|done..].
    rewrite list_filter_Forall by (apply Forall_forall; intros w Hw; destruct (Hsel w Hw) as (Hw1 & Hw2 & Hvw);
      apply not_true_is_false; intros Hlt'; destruct (Hsplit _ (score z) _ Hvz Hlt'); congruence).
    rewrite decide_True.
    + split; [done|]. intros _. split; [by destruct ys|]. exists z. split; [by apply elem_of_app; left|].
      split; [done|]. apply minimal_snoc. done.
    + split; [|done]. apply Forall_forall. intros w Hw. apply not_true_is_false. intros Hlt'.
      unfold minimal in Hzmin. rewrite Forall_forall in Hzmin, Hv.
      destruct (Hsplit _ (score z) _ Hvz Hlt') as [Hc|Hc]; [rewrite (Hzmin w Hw) in Hc; done|congruence].
  - assert (filter (λ w, lt (score x) (score w) = false) (y :: ys) = []) as ->.
    { apply filter_none. intros w Hw. destruct (Hsel w Hw) as (Hw1 & Hw2 & Hvw).
      destruct (Hsplit _ (score w) _ Hvw Hlt); congruence. }
    assert (minimal l x) as Hmin.
    { apply Forall_forall. intros w Hw. apply not_true_is_false. intros Hlt'.
      unfold minimal in Hzmin. rewrite Forall_forall in Hzmin.
      pose proof (Htrans _ _ _ Hlt' Hlt). rewrite (Hzmin w Hw) in *. done. }
    rewrite decide_True by done. cbn [app]. split; [done|]. intros _. split; [done|]. exists x.
    split; [apply elem_of_app; right; left|]. split; [done|]. by apply minimal_snoc.
  - assert (lt (score z) (score x) = true) as Hzx.
    { apply not_false_is_true. intros Hc. assert (eq (score x) (score z) = true) by (apply Heq; done). congruence. }
    rewrite list_filter_Forall, decide_False.
    + rewrite app_nil_r. split; [done|]. intros _. split; [done|]. exists z. split; [by apply elem_of_app; left|].
      split; [done|]. by apply minimal_snoc.
    + intros [Hmin _]. unfold minimal in Hmin. rewrite Forall_forall in Hmin. rewrite (Hmin z Hz) in Hzx. done.
    + apply Forall_forall. intros w Hw. destruct (Hsel w Hw) as (Hw1 & Hw2 & Hvw).
      apply not_true_is_false. intros Hxw. destruct (Hsplit _ (score z) _ Hvz Hxw); congruence.
Qed.
End select.

(** ** Least nodes and most pods *)

Definition MaxInt : Z := int64_max.

Definition leastnodes_step (st : Z * list Option) (option : Option) : Z * list Option :=
  let '(leastNodes, leastOptions) := st in
  if NodeCount option =? 0 then st
  else if NodeCount option =? leastNodes then (leastNodes, leastOptions ++ [option])
  else if NodeCount option <? leastNodes then (NodeCount option, [option])
  else st.

Definition leastnodes_BestOptions (expansionOptions : list Option) : list Option :=
  (foldl leastnodes_step (MaxInt, []) expansionOptions).2.

Definition mostpods_step (st : Z * list Option) (option : Option) : Z * list Option :=
  let '(maxPods, maxOptions) := st in
  if ⟪ OptPods option ⟫ =? maxPods then (maxPods, maxOptions ++ [option])
  else if maxPods <? ⟪ OptPods option ⟫ then (⟪ OptPods option ⟫, [option])
  else st.

Definition mostpods_BestOptions (expansionOptions : list Option) : list Option :=
  (foldl mostpods_step (0, []) expansionOptions).2.

(** ** Least waste *)

Section waste.
Context `{QuantityLib} {S Slice CSI : Type} `{SchedNodeInfo S}.
Abbreviation NI := (NodeInfo S Slice CSI).
(** [Status.Capacity] of a node, zero when the resource is missing. *)
Context (NodeCapacity : Node → string → Quantity) (PodRequests : Pod → string → Quantity).
Implicit Types (option : Option) (nodeInfo : gmap string NI).

Definition resourcesForPods (pods : list Pod) : Quantity * Quantity :=
  foldl (λ st pod, (qty_add st.1 (PodRequests pod ResourceCPU), qty_add st.2 (PodRequests pod ResourceMemory)))
    (qty_zero, qty_zero) pods.

Definition resourcesForNode (node : Node) : Quantity * Quantity :=
  (NodeCapacity node ResourceCPU, NodeCapacity node ResourceMemory).

(** The blended waste of an option on a node. *)
Definition wastedScore option (node : NI) : float64 :=
  let '(requestedCPU, requestedMemory) := resourcesForPods (OptPods option) in
  let '(nodeCPU, nodeMemory) := resourcesForNode (ni_Node node) in
  let availCPU := wrap64 (MilliValue nodeCPU * NodeCount option) in
  let availMemory := wrap64 (QtyValue nodeMemory * NodeCount option) in
  let wastedCPU := fdiv (of_int (wrap64 (availCPU - MilliValue requestedCPU))) (of_int availCPU) in
  let wastedMemory := fdiv (of_int (wrap64 (availMemory - QtyValue requestedMemory))) (of_int availMemory) in
  fadd wastedCPU wastedMemory.

(** The second test follows the first: an option that ties is appended, and then
    the list is not nil any more. *)
Definition waste_step nodeInfo (st : float64 * list Option) option : float64 * list Option :=
  let '(leastWastedScore, leastWastedOptions) := st in
  match nodeInfo !! Id (OptNodeGroup option) with
  | None => st
  | Some node =>
      let wastedScore := wastedScore option node in
      let leastWastedOptions :=
        if feqb wastedScore leastWastedScore then leastWastedOptions ++ [option] else leastWastedOptions in
      if bool_decide (leastWastedOptions = []) || fltb wastedScore leastWastedScore
      then (wastedScore, [option]) else (leastWastedScore, leastWastedOptions)
  end.

Definition waste_BestOptions nodeInfo (expansionOptions : list Option) : list Option :=
  (foldl (waste_step nodeInfo) (of_int 0, []) expansionOptions).2.
End waste.

(** ** Price *)

Section price.
Context {S Slice CSI : Type} `{SchedNodeInfo S}.
Abbreviation NI := (NodeInfo S Slice CSI).

(** [cloudprovider.PricingModel]: a price and perhaps an error. *)
Record PricingModel : Type := mkPricing {
  NodePrice : Node → float64 * option string;
  PodPrice : Pod → float64 * option string
}.

(** [math.Tanh], the texts of debugging, the label of GPU nodes and whether a
    group exists; a preferred node is its CPU and its memory. *)
Context (Tanh : float64 → float64) (price_debug : list float64 → string) (NodeHasGpu : Node → bool)
  (Exist : NodeGroup → bool) (Capacity_milli_cpu : Node → Z).
Implicit Types (option : Option) (nodeInfos : gmap string NI) (pricing : PricingModel).

Definition MiB : Z := 1024 * 1024.
Definition GiB : Z := 1024 * 1024 * 1024.

(** [SimplePreferredNodeProvider.Node], of the number of nodes. *)
Definition preferred_node (size : Z) : Z * Z :=
  let cpu := 1000 in
  if size <=? 2 then (1 * cpu, 3750 * MiB)
  else if size <=? 6 then (2 * cpu, 7500 * MiB)
  else if size <=? 20 then (4 * cpu, 15000 * MiB)
  else if size <=? 60 then (8 * cpu, 30000 * MiB)
  else if size <=? 200 then (16 * cpu, 60000 * MiB)
  else (32 * cpu, 120000 * MiB).

Definition defaultPreferredNode : Z * Z := (4 * 1000, 4 * 4 * GiB).

(** [math.Max]: NaN unless one of them is positive infinity. *)
Definition fmax (a b : float64) : float64 :=
  match a, b with
  | SpecFloat.S754_infinity false, _ | _, SpecFloat.S754_infinity false => SpecFloat.S754_infinity false
  | SpecFloat.S754_nan, _ | _, SpecFloat.S754_nan => SpecFloat.S754_nan
  | SpecFloat.S754_zero s, SpecFloat.S754_zero s' => SpecFloat.S754_zero (s && s')
  | _, _ => if fltb b a then a else b
  end.

Definition SimpleNodeUnfitness (preferredNode : Z * Z) (evaluatedNode : Node) : float64 :=
  let preferredCpu := of_int preferredNode.1 in
  let evaluatedCpu := of_int (Capacity_milli_cpu evaluatedNode) in
  fmax (fdiv preferredCpu evaluatedCpu) (fdiv evaluatedCpu preferredCpu).

Definition gpuUnfitnessOverride : float64 := of_int 1000.
Definition notExistCoeficient : float64 := of_int 2.

(** The total price of the pods; [None] at the first pod without a price. *)
Fixpoint pods_price pricing (pods : list Pod) (total : float64) : option float64 :=
  match pods with
  | [] => Some total
  | pod :: pods =>
      match PodPrice pricing pod with
      | (_, Some _) => None
      | (podPrice, None) => pods_price pricing pods (fadd total podPrice)
      end
  end.

(** The score of an option and the numbers it reports; [None] skips the option. *)
Definition option_score pricing nodeInfos (preferredNode : Z * Z) (stabilizationPrice : float64) (opt : Option)
    : option (float64 * list float64) :=
  match nodeInfos !! Id (OptNodeGroup opt) with
  | None => None
  | Some nodeInfo =>
      match NodePrice pricing (ni_Node nodeInfo) with
      | (_, Some _) => None
      | (nodePrice, None) =>
          let totalNodePrice := fmul nodePrice (of_int (NodeCount opt)) in
          match pods_price pricing (OptPods opt) (of_int 0) with
          | None => None
          | Some totalPodPrice =>
              let priceSubScore := fdiv (fadd totalNodePrice stabilizationPrice)
                                        (fadd totalPodPrice stabilizationPrice) in
              let nodeUnfitness := SimpleNodeUnfitness preferredNode (ni_Node nodeInfo) in
              let supressedUnfitness :=
                fadd (fmul (fsub nodeUnfitness (of_int 1))
                        (fsub (of_int 1) (Tanh (fdiv (of_int (wrap64 (NodeCount opt - 1))) (of_int 15)))))
                     (of_int 1) in
              let supressedUnfitness :=
                if NodeHasGpu (ni_Node nodeInfo) then gpuUnfitnessOverride else supressedUnfitness in
              let optionScore := fmul supressedUnfitness priceSubScore in
              let optionScore :=
                if negb (Exist (OptNodeGroup opt)) then fmul optionScore notExistCoeficient else optionScore in
              Some (optionScore, [totalNodePrice; totalPodPrice; priceSubScore; nodeUnfitness;
                                  supressedUnfitness; optionScore])
          end
      end
  end.

(** The option returned has no similar groups: they are not copied. *)
Definition price_option option (numbers : list float64) : Option :=
  mkOption (OptNodeGroup option) [] (NodeCount option)
    (OptDebug option +:+ " | price-expander: " +:+ price_debug numbers) (OptPods option).

Definition price_step pricing nodeInfos (preferredNode : Z * Z) (stabilizationPrice : float64)
    (st : float64 * list Option) option : float64 * list Option :=
  let '(bestOptionScore, bestOptions) := st in
  match option_score pricing nodeInfos preferredNode stabilizationPrice option with
  | None => st
  | Some (optionScore, numbers) =>
      let maybeBestOption := price_option option numbers in
      if bool_decide (bestOptions = []) || feqb bestOptionScore optionScore
      then (optionScore, bestOptions ++ [maybeBestOption])
      else if fltb optionScore bestOptionScore then (optionScore, [maybeBestOption])
      else st
  end.

(** [None] is the panic of calling a pricing model that could not be had. *)
Definition price_BestOptions (preferred : result string (Z * Z)) (pricing : option PricingModel)
    (priceStabilizationPod : Pod) nodeInfos (expansionOptions : list Option) : option (list Option) :=
  let preferredNode := match preferred with Ok n => n | Err _ => defaultPreferredNode end in
  match pricing with
  | None => None
  | Some pricing =>
      let stabilizationPrice := (PodPrice pricing priceStabilizationPod).1 in
      Some (foldl (price_step pricing nodeInfos preferredNode stabilizationPrice) (of_int 0, [])
              expansionOptions).2
  end.
End price.

(** ** Priority *)

Section priority.
Context `{GR : GoRange}.

(** A compiled expression matches names. *)
Abbreviation regexp := (string → bool).
Abbreviation priorities := (gmap Z (list regexp)).

Definition groupIDMatchesList (id : string) (nameRegexpList : list regexp) : bool :=
  existsb (λ re, re id) nameRegexpList.

(** The inner loop, over the priorities. *)
Definition priority_option_step (option : Option) (st : Z * list Option * bool) (kv : Z * list regexp)
    : Z * list Option * bool :=
  let '(maxPrio, best, found) := st in
  if negb (groupIDMatchesList (Id (OptNodeGroup option)) kv.2) then st
  else if kv.1 <? maxPrio then (maxPrio, best, true)
  else
    let '(maxPrio, best) := if maxPrio <? kv.1 then (kv.1, []) else (maxPrio, best) in
    (maxPrio, best ++ [option], true).

(** The priorities, and the numbers of good and of bad updates. *)
Definition priority_step (priorities : priorities) (st : Z * list Option * Z) (option : Option)
    : Z * list Option * Z :=
  let '(maxPrio, best, badConfigUpdates) := st in
  let '(maxPrio, best, found) :=
    foldl (priority_option_step option) (maxPrio, best, false) (go_range priorities) in
  (maxPrio, best, if found then badConfigUpdates else badConfigUpdates + 1).

(** [reload] is what reading the config map gives, or an error that counts as a
    bad update when [true]. *)
Definition priority_BestOptions (reload : result bool priorities) (counts : Z * Z)
    (expansionOptions : list Option) : Z * Z * list Option :=
  match expansionOptions with
  | [] => (counts, [])
  | _ =>
      match reload with
      | Err bad => ((counts.1, if bad then counts.2 + 1 else counts.2), expansionOptions)
      | Ok priorities =>
          let '(_, best, badConfigUpdates) :=
            foldl (priority_step priorities) (-1, [], counts.2) expansionOptions in
          match best with
          | [] => ((counts.1 + 1, badConfigUpdates + 1), expansionOptions)
          | _ => ((counts.1 + 1, badConfigUpdates), best)
          end
      end
  end.
End priority.

(** ** The chain *)

Abbreviation filter_fn := (list Option → list Option).

(** [random.BestOption]; [Int31n] draws a position. *)
Definition random_BestOption (Int31n : Z → Z) (expansionOptions : list Option) : option Option :=
  if ⟪ expansionOptions ⟫ <=? 0 then None
  else expansionOptions !! Z.to_nat (Int31n ⟪ expansionOptions ⟫).

Definition random_BestOptions (Int31n : Z → Z) (expansionOptions : list Option) : list Option :=
  match random_BestOption Int31n expansionOptions with Some best => [best] | None => [] end.

(** [chainStrategy.BestOption]. *)
Fixpoint chain_BestOption (fallback : list Option → option Option) (filters : list filter_fn)
    (filteredOptions : list Option) : option Option :=
  match filters with
  | [] => fallback filteredOptions
  | f :: filters =>
      match f filteredOptions with
      | [option] => Some option
      | filteredOptions => chain_BestOption fallback filters filteredOptions
      end
  end.

Inductive build_error : Type := ErrTwice (name : string) | ErrAfterStrategy (name : string) | ErrUnknown (name : string).

(** [Factory.Build]; a registered filter comes with whether it is a strategy. *)
Fixpoint build_filters (createFunc : gmap string (filter_fn * bool)) (names : list string)
    (filters : list filter_fn) (seenExpanders : gset string) (strategySeen : bool)
    : result build_error (list filter_fn) :=
  match names with
  | [] => Ok filters
  | name :: names =>
      if bool_decide (name ∈ seenExpanders) then Err (ErrTwice name)
      else if strategySeen then Err (ErrAfterStrategy name)
      else match createFunc !! name with
      | None => Err (ErrUnknown name)
      | Some (f, strategy) =>
          build_filters createFunc names (filters ++ [f]) ({[name]} ∪ seenExpanders) strategy
      end
  end.

Definition Build (createFunc : gmap string (filter_fn * bool)) (Int31n : Z → Z) (names : list string)
    : result build_error (list Option → option Option) :=
  match build_filters createFunc names [] ∅ false with
  | Err e => Err e
  | Ok filters => Ok (chain_BestOption (random_BestOption Int31n) filters)
  end.

(** ** Every expander keeps the best options *)

Lemma Z_select {A} (score : A → Z) (l : list A) b0 :
  (foldl (select_step Z.ltb Z.eqb score) (b0, []) l).2 = best_of Z.ltb score l.
Proof.
  pose proof (select_spec Z.ltb Z.eqb (λ _, True)
    ltac:(intros; apply Z.ltb_irrefl) ltac:(intros a b c _; rewrite !Z.ltb_lt; lia)
    ltac:(intros a b c; rewrite !Z.ltb_lt; lia) ltac:(intros; rewrite Z.eqb_eq, !Z.ltb_ge; lia)
    score l b0 ltac:(by apply Forall_true)) as H.
  destruct (foldl _ _ l). by destruct H as [-> _].
Qed.

Lemma leastnodes_exact options :
  Forall (λ o, NodeCount o ≤ MaxInt) options →
  leastnodes_BestOptions options = best_of Z.ltb NodeCount (filter (λ o, NodeCount o ≠ 0) options).
Proof.
  intros Hmax. unfold leastnodes_BestOptions. rewrite <- (Z_select _ _ MaxInt).
  assert (∀ b l, (l = [] → b = MaxInt) →
    foldl leastnodes_step (b, l) options =
    foldl (select_step Z.ltb Z.eqb NodeCount) (b, l) (filter (λ o, NodeCount o ≠ 0) options)) as Hgen; [|by rewrite Hgen].
  induction Hmax as [|o options Ho _ IH]; intros b l Hb; [done|]. cbn [foldl]. rewrite filter_cons.
  unfold leastnodes_step at 2. destruct (Z.eqb_spec (NodeCount o) 0); case_decide; try done; [by apply IH|].
  cbn [foldl]. unfold select_step at 2. cbn [fst snd]. destruct l as [|x l].
  - rewrite Hb by done. destruct (Z.eqb_spec (NodeCount o) MaxInt) as [->|]; [by rewrite IH|].
    destruct (Z.ltb_spec (NodeCount o) MaxInt); [by rewrite IH|lia].
  - destruct (Z.eqb_spec (NodeCount o) b); [by rewrite IH by done|].
    destruct (NodeCount o <? b); by rewrite IH.
Qed.

Lemma mostpods_exact options :
  mostpods_BestOptions options = best_of Z.ltb (λ o, - ⟪ OptPods o ⟫) options.
Proof.
  unfold mostpods_BestOptions. rewrite <- (Z_select _ _ 0).
  assert (∀ b l, (l = [] → b = 0) →
    (foldl mostpods_step (b, l) options).2 =
    (foldl (select_step Z.ltb Z.eqb (λ o, - ⟪ OptPods o ⟫)) (- b, l) options).2) as Hgen; [|by apply Hgen].
  induction options as [|o options IH]; intros b l Hb; [done|]. cbn [foldl].
  unfold mostpods_step at 2, select_step at 2. cbn [fst snd]. destruct l as [|x l].
  - rewrite Hb by done. destruct (Z.eqb_spec ⟪ OptPods o ⟫ 0) as [->|]; [by rewrite IH|].
    destruct (Z.ltb_spec 0 ⟪ OptPods o ⟫); [by rewrite IH|lia].
  - destruct (Z.eqb_spec ⟪ OptPods o ⟫ b), (Z.eqb_spec (- ⟪ OptPods o ⟫) (- b)); try lia.
    { by rewrite IH by done. }
    destruct (Z.ltb_spec b ⟪ OptPods o ⟫), (Z.ltb_spec (- ⟪ OptPods o ⟫) (- b)); try lia; by rewrite IH.
Qed.

(** Comparisons look at the keys of numbers only. *)
Lemma fltb_proper a a' b b' : key a = key a' → key b = key b' → fltb a b = fltb a' b'.
Proof. intros Ha Hb. apply eq_bool_prop_intro. rewrite !Is_true_true, !fltb_key. by rewrite Ha, Hb. Qed.

Lemma feqb_proper a a' b b' : key a = key a' → key b = key b' → feqb a b = feqb a' b'.
Proof. intros Ha Hb. apply eq_bool_prop_intro. rewrite !Is_true_true, !feqb_key. by rewrite Ha, Hb. Qed.

Lemma float_select {A} (score : A → float64) (l : list A) b0 :
  Forall (λ x, is_nan (score x) = false) l →
  (foldl (select_step fltb feqb score) (b0, []) l).2 = best_of fltb score l.
Proof.
  intros Hl.
  pose proof (select_spec fltb feqb (λ a, is_nan a = false)
    ltac:(intros; apply fltb_irrefl) fltb_split fltb_trans feqb_iff score l b0 Hl) as H.
  destruct (foldl _ _ l). by destruct H as [-> _].
Qed.

(** A loop that keeps its best options, up to the sign of a zero score and an
    image of the options. *)
Lemma float_fold {A B} (step : float64 * list B → A → float64 * list B) (score : A → option float64)
    (f : A → B) (options : list A) b0 :
  (∀ st x, score x = None → step st x = st) →
  (∀ b l x s, score x = Some s → ∃ b', step (b, l) x =
     (b', if bool_decide (l = []) then [f x] else if feqb s b then l ++ [f x] else if fltb s b then [f x] else l) ∧
     key b' = if bool_decide (l = []) then (if feqb s b then key b else key s)
              else if feqb s b then key b else if fltb s b then key s else key b) →
  Forall (λ x, ∀ s, score x = Some s → is_nan s = false) options →
  (foldl step (b0, []) options).2 =
  f <$> best_of fltb (λ x, default SpecFloat.S754_nan (score x)) (filter (λ x, is_Some (score x)) options).
Proof.
  intros Hskip Hstep Hnan. set (sc := λ x, default SpecFloat.S754_nan (score x)).
  rewrite <- (float_select sc _ b0).
  2: { apply Forall_forall. intros x [[s Hs] Hx]%list_elem_of_filter. unfold sc. rewrite Hs.
       rewrite Forall_forall in Hnan. by apply (Hnan x Hx). }
  assert (∀ b b' l, (l = [] ∨ key b = key b') →
    (foldl step (b, f <$> l) options).2 =
    f <$> (foldl (select_step fltb feqb sc) (b', l) (filter (λ x, is_Some (score x)) options)).2) as Hgen.
  2: { by apply (Hgen b0 b0 []); left. }
  induction Hnan as [|x options Hx _ IH]; intros b b' l Hb; [done|]. cbn [foldl]. rewrite filter_cons.
  destruct (score x) as [s|] eqn:Hs; case_decide as Hsome.
  2: { exfalso. apply Hsome. by eauto. }
  2: { by destruct Hsome. }
  2: { rewrite Hskip by done. by apply IH. }
  destruct (Hstep b (f <$> l) x s Hs) as (b1 & -> & Hkey). cbn [foldl]. unfold select_step at 2. cbn [fst snd].
  assert (sc x = s) as -> by (unfold sc; by rewrite Hs).
  destruct l as [|y l].
  - cbn [fmap list_fmap] in *. rewrite bool_decide_true in * by done. apply (IH b1 s [x]). right.
    rewrite Hkey. destruct (feqb s b) eqn:He; [|done]. by apply feqb_key in He as [_ ->].
  - rewrite bool_decide_false in * by done. destruct Hb as [?|Hb]; [done|].
    rewrite (feqb_proper s s b' b), (fltb_proper s s b' b) by done.
    destruct (feqb s b); [|destruct (fltb s b)].
    + rewrite <- (fmap_app f _ [x]). apply IH. right. congruence.
    + apply (IH b1 s [x]). by right.
    + apply IH. right. congruence.
Qed.

Lemma waste_exact `{QuantityLib} {S Slice CSI : Type} `{SchedNodeInfo S}
    (cap : Node → string → Quantity) (req : Pod → string → Quantity)
    (nodeInfo : gmap string (NodeInfo S Slice CSI)) options :
  let score o := wastedScore cap req o <$> nodeInfo !! Id (OptNodeGroup o) in
  Forall (λ o, ∀ s, score o = Some s → is_nan s = false) options →
  waste_BestOptions cap req nodeInfo options =
  best_of fltb (λ o, default SpecFloat.S754_nan (score o)) (filter (λ o, is_Some (score o)) options).
Proof.
  cbv zeta. intros Hnan. unfold waste_BestOptions.
  rewrite (float_fold _ (λ o, wastedScore cap req o <$> nodeInfo !! Id (OptNodeGroup o)) (λ o, o)); [by rewrite list_fmap_id| | |done].
  - intros [b l] o Ho. unfold waste_step. by destruct (nodeInfo !! Id (OptNodeGroup o)).
  - intros b l o s Ho. unfold waste_step. destruct (nodeInfo !! Id (OptNodeGroup o)) as [ni|]; [|done].
    injection Ho as ->. destruct (feqb s b) eqn:He.
    + apply feqb_key in He as [[k Hk] Heq].
      assert (fltb s b = false) as -> by (rewrite (fltb_proper s s b s) by congruence; apply fltb_irrefl).
      exists b. destruct l as [|x l]; repeat case_bool_decide; done.
    + destruct l as [|x l]; repeat case_bool_decide; try done; cbn [orb]; [by exists s|].
      destruct (fltb s b); [by exists s|by exists b].
Qed.

Section price_proofs.
Context {S Slice CSI : Type} `{SchedNodeInfo S}.
Context (Tanh : float64 → float64) (price_debug : list float64 → string) (NodeHasGpu : Node → bool)
  (Exist : NodeGroup → bool) (Capacity_milli_cpu : Node → Z) (pricing : PricingModel)
  (nodeInfos : gmap string (NodeInfo S Slice CSI)) (preferredNode : Z * Z) (stabilization : float64).

Definition priced (o : Option) : option (float64 * list float64) :=
  option_score Tanh NodeHasGpu Exist Capacity_milli_cpu pricing nodeInfos preferredNode stabilization o.

(** The option with what it says for debugging. *)
Definition reported (o : Option) : Option :=
  price_option price_debug o (default [] (snd <$> priced o)).

Lemma price_exact options :
  Forall (λ o, ∀ s, fst <$> priced o = Some s → is_nan s = false) options →
  (foldl (price_step Tanh price_debug NodeHasGpu Exist Capacity_milli_cpu pricing nodeInfos preferredNode
     stabilization) (of_int 0, []) options).2 =
  reported <$> best_of fltb (λ o, default SpecFloat.S754_nan (fst <$> priced o))
    (filter (λ o, is_Some (fst <$> priced o)) options).
Proof.
  intros Hnan. apply float_fold; [| |done].
  - intros [b l] o Ho. unfold price_step. fold (priced o). by destruct (priced o).
  - intros b l o s Ho. unfold price_step. fold (priced o).
    assert (reported o = price_option price_debug o (default [] (snd <$> priced o))) as Hrep by done.
    destruct (priced o) as [[s' numbers]|]; [|done]. injection Ho as ->. cbn [fmap option_fmap option_map default snd] in Hrep.
    cbn in Hrep. rewrite <- Hrep.
    assert (feqb b s = feqb s b) as ->.
    { apply eq_bool_prop_intro. rewrite !Is_true_true, !feqb_key. split; intros [[k Hk] Heq]; (split; [exists k|]); congruence. }
    destruct (bool_decide (l = [])) eqn:Hl; [apply bool_decide_eq_true in Hl as ->|].
    + cbn [orb app]. exists s. split; [done|]. destruct (feqb s b) eqn:He; [|done].
      by apply feqb_key in He as [_ ?].
    + cbn [orb]. destruct (feqb s b) eqn:He; [|destruct (fltb s b); [by exists s|by exists b]].
      exists s. split; [done|]. by apply feqb_key in He as [_ ?].
Qed.
End price_proofs.

(** ** Priorities *)

Section priority_proofs.
Context `{GR : GoRange}.
Abbreviation priorities := (gmap Z (list (string → bool))).
Implicit Types (prios : priorities) (o : Option).

Definition matches prios o (p : Z) : Prop :=
  match prios !! p with Some l => groupIDMatchesList (Id (OptNodeGroup o)) l = true | None => False end.
#[export] Instance matches_dec prios o p : Decision (matches prios o p).
Proof. unfold matches. destruct (prios !! p); apply _. Defined.

(** The priorities that match, of the entries given. *)
Definition matching o (kvs : list (Z * list (string → bool))) : list Z :=
  (filter (λ kv, groupIDMatchesList (Id (OptNodeGroup o)) kv.2 = true) kvs).*1.

Lemma elem_of_matching prios o p : p ∈ matching o (go_range prios) ↔ matches prios o p.
Proof.
  unfold matching, matches. rewrite list_elem_of_fmap. split.
  - intros ([q l] & -> & [Hm Hin]%list_elem_of_filter). apply elem_of_go_range in Hin. simpl in *. by rewrite Hin.
  - destruct (prios !! p) as [l|] eqn:Hp; [|done]. intros Hm. exists (p, l). split; [done|].
    apply list_elem_of_filter. split; [done|]. by apply elem_of_go_range.
Qed.

Lemma foldl_max_le ps m : m ≤ foldl Z.max m ps.
Proof. revert m. induction ps as [|p ps IH]; intros m; simpl; [lia|]. specialize (IH (m `max` p)). lia. Qed.

Lemma priority_option_loop o kvs : NoDup kvs.*1 → ∀ m best found,
  foldl (priority_option_step o) (m, best, found) kvs =
  (foldl Z.max m (matching o kvs),
   if decide (foldl Z.max m (matching o kvs) = m)
   then (if decide (m ∈ matching o kvs) then best ++ [o] else best) else [o],
   found || negb (bool_decide (matching o kvs = []))).
Proof.
  induction kvs as [|[p l] kvs IH]; intros Hnd m best found.
  { change (matching o []) with (@nil Z). cbn [foldl].
    rewrite decide_True by done. rewrite decide_False by apply not_elem_of_nil. by rewrite orb_false_r. }
  apply NoDup_cons in Hnd as [Hp Hnd]. specialize (IH Hnd). cbn [foldl].
  unfold priority_option_step at 2, matching. rewrite filter_cons. cbn [fst snd].
  destruct (groupIDMatchesList (Id (OptNodeGroup o)) l) eqn:Hm; cbn [negb].
  2: { rewrite decide_False by congruence. apply IH. }
  rewrite decide_True by done. rewrite fmap_cons. cbn [foldl fst]. fold (matching o kvs).
  assert (p ∉ matching o kvs) as Hpm.
  { intros ([q l'] & -> & [_ Hin]%list_elem_of_filter)%list_elem_of_fmap. apply Hp.
    by apply (list_elem_of_fmap_2 fst kvs (q, l')). }
  assert (negb (bool_decide (p :: matching o kvs = [])) = true) as -> by by rewrite bool_decide_false.
  rewrite orb_true_r. destruct (Z.ltb_spec p m) as [Hlt|Hge].
  - rewrite IH, orb_true_l. rewrite (Z.max_l m p) by lia. f_equal. f_equal.
    destruct (decide (foldl _ _ _ = m)); [|done].
    assert (m ∈ p :: matching o kvs ↔ m ∈ matching o kvs) as Hiff by (rewrite elem_of_cons; split; [intros [?|?]; [lia|done]|by right]).
    repeat case_decide; tauto.
  - rewrite (Z.max_r m p) by lia. destruct (Z.ltb_spec m p) as [Hmp|Hmp]; rewrite IH, orb_true_l.
    + pose proof (foldl_max_le (matching o kvs) p). f_equal. f_equal.
      rewrite (decide_False (P := _ = m)) by lia. repeat case_decide; done.
    + assert (p = m) as -> by lia. f_equal. f_equal. destruct (decide (foldl _ _ _ = m)); [|done].
      rewrite decide_False, decide_True by (done || left). done.
Qed.


Lemma foldl_max_in ps m : foldl Z.max m ps = m ∨ foldl Z.max m ps ∈ ps.
Proof.
  revert m. induction ps as [|p ps IH]; intros m; simpl; [by left|]. rewrite elem_of_cons.
  destruct (IH (m `max` p)) as [->|?]; [|by auto]. destruct (Z.max_spec m p) as [[_ ->]|[_ ->]]; by auto.
Qed.

Lemma foldl_max_ub ps m p : p ∈ ps → p ≤ foldl Z.max m ps.
Proof.
  revert m. induction ps as [|q ps IH]; intros m; [by intros ?%not_elem_of_nil|]. cbn [foldl].
  intros [->|Hp]%elem_of_cons; [|by apply IH]. pose proof (foldl_max_le ps (m `max` q)). lia.
Qed.

(** The invariant of the loop over the options. *)
Lemma priority_loop prios options : ∀ bad,
  let '(m, best, _) := foldl (priority_step prios) (-1, [], bad) options in
  -1 ≤ m ∧ (∀ o p, o ∈ options → matches prios o p → p ≤ m) ∧
  best = filter (λ o, matches prios o m) options ∧ (best = [] → m = -1).
Proof.
  intros bad. induction options as [|o options IH] using rev_ind.
  { split; [done|]. split; [by intros ?? ?%not_elem_of_nil|done]. }
  rewrite foldl_app. cbn [foldl]. destruct (foldl _ _ options) as [[m best] bad']. destruct IH as (Hm & Hub & -> & Hnil).
  unfold priority_step. rewrite priority_option_loop by apply NoDup_go_range_fst.
  set (ps := matching o (go_range prios)). pose proof (foldl_max_le ps m) as Hle.
  assert (∀ o' p, o' ∈ options ++ [o] → matches prios o' p → p ≤ foldl Z.max m ps) as Hub'.
  { intros o' p [Ho'|Ho']%elem_of_app Hp; [specialize (Hub o' p Ho' Hp); lia|].
    apply list_elem_of_singleton in Ho' as ->. apply foldl_max_ub. by apply elem_of_matching. }
  rewrite filter_app, filter_cons, filter_nil.
  destruct (decide (foldl Z.max m ps = m)) as [Heq|Hne].
  - rewrite Heq in *. split; [lia|]. split; [done|].
    destruct (decide (m ∈ ps)) as [Hin|Hin]; unfold ps in Hin; rewrite elem_of_matching in Hin;
      case_decide; try done; rewrite ?app_nil_r; (split; [done|]); [by intros [_ ?]%app_nil|exact Hnil].
  - split; [lia|]. split; [done|]. destruct (foldl_max_in ps m) as [?|Hin]; [done|].
    apply elem_of_matching in Hin. rewrite decide_True by done.
    rewrite filter_none; [done|]. intros o' Ho' Hmt. specialize (Hub o' _ Ho' Hmt). lia.
Qed.

(** The priority expander keeps exactly the options with the highest priority
    that any option has, whatever order Go ranges over the priorities in; without
    any option of priority -1 or more, or when the priorities cannot be read, it
    keeps all of them. *)
Theorem priority_exact prios counts options M :
  let '(_, best) := priority_BestOptions (Ok prios) counts options in
  (-1 ≤ M → (∃ o, o ∈ options ∧ matches prios o M) → (∀ o p, o ∈ options → matches prios o p → p ≤ M) →
   best = filter (λ o, matches prios o M) options) ∧
  ((∀ o p, o ∈ options → matches prios o p → p < -1) → best = options) ∧
  ∀ bad, (priority_BestOptions (Err bad) counts options).2 = options.
Proof.
  unfold priority_BestOptions. destruct options as [|o0 options']; [by split_and!|].
  set (options := o0 :: options'). pose proof (priority_loop prios options counts.2) as H.
  destruct (foldl _ _ options) as [[m best] bad]. destruct H as (Hm & Hub & -> & Hnil).
  destruct (filter (λ o, matches prios o m) options) as [|b bs] eqn:Hbest.
  - specialize (Hnil eq_refl) as ->. split; [|done]. intros HM (o & Ho & Hmt) Hmax. exfalso.
    specialize (Hub o M Ho Hmt). assert (M = -1) as -> by lia.
    assert (o ∈ filter (λ o, matches prios o (-1)) options) as Hin by by apply list_elem_of_filter.
    rewrite Hbest in Hin. by apply not_elem_of_nil in Hin.
  - assert (b ∈ filter (λ o, matches prios o m) options) as Hb by (rewrite Hbest; left).
    apply list_elem_of_filter in Hb as [Hbm Hb]. split; [|split; [|done]].
    + intros HM (o & Ho & Hmt) Hmax. specialize (Hub o M Ho Hmt). specialize (Hmax b m Hb Hbm).
      assert (M = m) as -> by lia. by rewrite Hbest.
    + intros Hlow. specialize (Hlow b m Hb Hbm). lia.
Qed.
End priority_proofs.

(** Every filter keeps exactly its best options, in order: the least nodes
    (options without nodes left out), the most pods, the least blended waste of the
    options with a node template, and the least score of the options with a price,
    which come back with a debugging text and without their similar groups. The
    scores compared must be numbers. *)
Theorem expanders_keep_the_best `{QuantityLib} {S Slice CSI : Type} `{SchedNodeInfo S}
    (cap : Node → string → Quantity) (req : Pod → string → Quantity)
    (Tanh : float64 → float64) price_debug NodeHasGpu Exist Capacity_milli_cpu pricing preferred
    (pod : Pod) (nodeInfos : gmap string (NodeInfo S Slice CSI)) options :
  let waste o := wastedScore cap req o <$> nodeInfos !! Id (OptNodeGroup o) in
  let price o := priced Tanh NodeHasGpu Exist Capacity_milli_cpu pricing nodeInfos preferred
                   (PodPrice pricing pod).1 o in
  Forall (λ o, NodeCount o ≤ MaxInt) options →
  Forall (λ o, ∀ s, waste o = Some s → is_nan s = false) options →
  Forall (λ o, ∀ s, fst <$> price o = Some s → is_nan s = false) options →
  leastnodes_BestOptions options = best_of Z.ltb NodeCount (filter (λ o, NodeCount o ≠ 0) options) ∧
  mostpods_BestOptions options = best_of Z.ltb (λ o, - ⟪ OptPods o ⟫) options ∧
  waste_BestOptions cap req nodeInfos options =
    best_of fltb (λ o, default SpecFloat.S754_nan (waste o)) (filter (λ o, is_Some (waste o)) options) ∧
  price_BestOptions Tanh price_debug NodeHasGpu Exist Capacity_milli_cpu (Ok preferred) (Some pricing) pod
    nodeInfos options =
    Some (reported Tanh price_debug NodeHasGpu Exist Capacity_milli_cpu pricing nodeInfos preferred
            (PodPrice pricing pod).1 <$>
          best_of fltb (λ o, default SpecFloat.S754_nan (fst <$> price o))
            (filter (λ o, is_Some (fst <$> price o)) options)).
Proof.
  intros waste price Hmax Hwaste Hprice. split_and!.
  - by apply leastnodes_exact.
  - apply mostpods_exact.
  - by apply waste_exact.
  - unfold price_BestOptions. f_equal. by apply price_exact.
Qed.

(** ** Chains *)

Section chains.
Context (createFunc : gmap string (filter_fn * bool)) (Int31n : Z → Z).

Lemma build_filters_spec names : ∀ filters seen strategySeen,
  match build_filters createFunc names filters seen strategySeen with
  | Ok fs => ∃ gs, fs = filters ++ gs ∧
      Forall2 (λ name f, ∃ s, createFunc !! name = Some (f, s)) names gs ∧
      NoDup names ∧ (∀ name, name ∈ names → name ∉ seen) ∧ (names ≠ [] → strategySeen = false) ∧
      ∀ i name f, names !! i = Some name → createFunc !! name = Some (f, true) → Datatypes.S i = length names
  | Err _ =>
      ¬ (NoDup names ∧ (∀ name, name ∈ names → (name ∉ seen) ∧ is_Some (createFunc !! name)) ∧
         (names ≠ [] → strategySeen = false) ∧
         ∀ i name f, names !! i = Some name → createFunc !! name = Some (f, true) → Datatypes.S i = length names)
  end.
Proof.
  induction names as [|name names IH]; intros filters seen strategySeen; cbn [build_filters].
  { exists []. rewrite app_nil_r. split_and!; try done; [constructor|by intros ? ?%not_elem_of_nil]. }
  case_bool_decide as Hseen.
  { intros (_ & Hin & _). by destruct (Hin name ltac:(left)). }
  destruct strategySeen; [by intros (_ & _ & Hs & _); specialize (Hs ltac:(done))|].
  destruct (createFunc !! name) as [[f strategy]|] eqn:Hf.
  2: { intros (_ & Hin & _). destruct (Hin name ltac:(left)) as [_ [? ?]]. congruence. }
  specialize (IH (filters ++ [f]) ({[name]} ∪ seen) strategy).
  destruct (build_filters _ _ _ _ _) as [fs|e].
  - destruct IH as (gs & -> & Hgs & Hnd & Hfresh & Hstr & Hlast). exists (f :: gs). rewrite <- app_assoc.
    split; [done|]. split; [constructor; eauto|]. split; [constructor; [intros Hin; specialize (Hfresh name Hin); set_solver|done]|].
    split; [intros n [->|Hn]%elem_of_cons; [done|specialize (Hfresh n Hn); set_solver]|]. split; [done|].
    intros [|i] n g Hi Hg; simpl in *.
    + injection Hi as <-. destruct names; [done|]. rewrite Hf in Hg. injection Hg as -> ->. by specialize (Hstr ltac:(done)).
    + f_equal. by eapply Hlast.
  - intros (Hnd & Hin & _ & Hlast). apply IH. apply NoDup_cons in Hnd as [Hn Hnd]. split; [done|]. split.
    { intros n Hn'. destruct (Hin n ltac:(by right)). split; [|done]. intros [->%elem_of_singleton|?]%elem_of_union; done. }
    split.
    + intros Hne. destruct strategy; [|done]. specialize (Hlast 0%nat name f eq_refl Hf). simpl in Hlast. by destruct names.
    + intros i n g Hi Hg. specialize (Hlast (Datatypes.S i) n g Hi Hg). simpl in Hlast. lia.
Qed.

Lemma chain_in fallback filters : 
  Forall (λ f : filter_fn, ∀ os o, o ∈ f os → o ∈ os) filters →
  (∀ os o, fallback os = Some o → o ∈ os) →
  ∀ os o, chain_BestOption fallback filters os = Some o → o ∈ os.
Proof.
  intros Hf Hfb. induction Hf as [|f filters Hf _ IH]; intros os o Hbest; [by apply Hfb|]. cbn [chain_BestOption] in Hbest.
  destruct (f os) as [|x [|y l]] eqn:Hos.
  - apply IH in Hbest. by apply not_elem_of_nil in Hbest.
  - injection Hbest as ->. apply Hf. rewrite Hos. left.
  - apply Hf. rewrite Hos. by apply IH.
Qed.

Lemma chain_some fallback filters :
  Forall (λ f : filter_fn, ∀ os, os ≠ [] → f os ≠ []) filters →
  (∀ os, os ≠ [] → is_Some (fallback os)) →
  ∀ os, os ≠ [] → is_Some (chain_BestOption fallback filters os).
Proof.
  intros Hf Hfb. induction Hf as [|f filters Hf _ IH]; intros os Hos; [by apply Hfb|]. cbn [chain_BestOption].
  specialize (Hf os Hos). destruct (f os) as [|x [|y l]]; [done|by eauto|by apply IH].
Qed.

Lemma random_spec os :
  (∀ o, random_BestOption Int31n os = Some o → o ∈ os) ∧
  ((∀ n, 0 < n → 0 ≤ Int31n n < n) → os ≠ [] → is_Some (random_BestOption Int31n os)).
Proof.
  unfold random_BestOption. split.
  - intros o. destruct (Z.leb_spec ⟪ os ⟫ 0); [done|]. apply list_elem_of_lookup_2.
  - intros Hr Hos. destruct os as [|o os]; [done|]. destruct (Z.leb_spec ⟪ o :: os ⟫ 0) as [Hl|Hl]; [simpl in Hl; lia|].
    apply lookup_lt_is_Some_2. specialize (Hr _ Hl). lia.
Qed.

(** A strategy is built exactly from distinct registered names of which only
    the last may be a strategy of its own. It answers one of the options it is
    given, if its filters only ever drop options, and always answers one when
    there are some, if no filter drops them all. *)
Theorem expander_chain_exact names :
  (is_ok (Build createFunc Int31n names) = true ↔
   NoDup names ∧ (∀ name, name ∈ names → is_Some (createFunc !! name)) ∧
   ∀ i name f, names !! i = Some name → createFunc !! name = Some (f, true) → Datatypes.S i = length names) ∧
  ∀ strategy, Build createFunc Int31n names = Ok strategy →
    ((∀ name f s, createFunc !! name = Some (f, s) → ∀ os o, o ∈ f os → o ∈ os) →
     ∀ os o, strategy os = Some o → o ∈ os) ∧
    ((∀ name f s, createFunc !! name = Some (f, s) → ∀ os, os ≠ [] → f os ≠ []) →
     (∀ n, 0 < n → 0 ≤ Int31n n < n) → ∀ os, os ≠ [] → is_Some (strategy os)).
Proof.
  unfold Build. pose proof (build_filters_spec names [] ∅ false) as H.
  destruct (build_filters _ _ _ _ _) as [fs|e]; cbn [is_ok].
  - destruct H as (gs & -> & Hgs & Hnd & _ & _ & Hlast). cbn [app]. split.
    + split; [|done]. intros _. split; [done|]. split; [|done]. intros n [i Hi]%list_elem_of_lookup_1.
      destruct (Forall2_lookup_l _ _ _ _ _ Hgs Hi) as (f & _ & s & ->). by eauto.
    + intros strategy [= <-]. split.
      * intros Hall. apply chain_in; [|intros os; apply random_spec]. apply Forall_forall. intros f [i Hi]%list_elem_of_lookup_1.
        destruct (Forall2_lookup_r _ _ _ _ _ Hgs Hi) as (n & _ & s & Hn). by eapply Hall.
      * intros Hall Hr. apply chain_some; [|intros os; by apply random_spec]. apply Forall_forall.
        intros f [i Hi]%list_elem_of_lookup_1.
        destruct (Forall2_lookup_r _ _ _ _ _ Hgs Hi) as (n & _ & s & Hn). by eapply Hall.
  - split; [|done]. split; [done|]. intros (Hnd & Hk & Hlast). exfalso. apply H. split_and!; try done.
    intros n Hn. split; [apply not_elem_of_empty|by apply Hk].
Qed.
End chains.

(** ** Concrete options *)

Definition exp_group (id : string) : NodeGroup :=
  mkNodeGroup id 0 10 (Ok 1) (Ok []) (λ _, (None, Some ErrNotImplemented)).
Definition exp_option (id : string) (count : Z) (pods : list string) : Option :=
  mkOption (exp_group id) [] count "" ((λ n, simple_pod "default" n ∅ []) <$> pods).

(** The first takes two nodes, the others one; the second has most pods. *)
Definition exp_options : list Option :=
  [exp_option "a" 2 ["p"]; exp_option "b" 1 ["p"; "q"]; exp_option "c" 1 ["p"]].
Definition exp_names (l : list Option) : list string := (λ o, Id (OptNodeGroup o)) <$> l.

Definition exp_quantities : QuantityLib := {|
  Quantity := Z; qty_zero := 0; qty_add := Z.add; MilliValue q := 1000 * q; QtyValue q := q
|}.
#[local] Instance exp_ql : QuantityLib := exp_quantities.

Definition exp_infos : gmap string (NodeInfo demo_sched unit unit) :=
  list_to_map ((λ n, (n, mkNodeInfo (named_node n, []) [] None)) <$> ["a"; "b"; "c"]).
Definition exp_cap (n : Node) (r : string) : @Quantity exp_quantities := 4.
Definition exp_req (p : Pod) (r : string) : @Quantity exp_quantities := 1.
Definition exp_pricing : PricingModel := mkPricing (λ _, (of_int 10, None)) (λ _, (of_int 2, None)).
Definition exp_price : list Option → option (list Option) :=
  price_BestOptions (λ x, x) (λ _, "") (λ _, false) (λ _, true) (λ _, 4000) (Ok (4000, 0)) (Some exp_pricing)
    (simple_pod "default" "stabilize" ∅ []) exp_infos.

Lemma expanders_keep_the_best_witness :
  exp_names (leastnodes_BestOptions exp_options) = ["b"; "c"] ∧
  exp_names (mostpods_BestOptions exp_options) = ["b"] ∧
  exp_names (waste_BestOptions exp_cap exp_req exp_infos exp_options) = ["b"] ∧
  exp_names <$> exp_price exp_options = Some ["b"].
Proof.
  destruct (expanders_keep_the_best exp_cap exp_req (λ x, x) (λ _, "") (λ _, false) (λ _, true) (λ _, 4000)
    exp_pricing (4000, 0) (simple_pod "default" "stabilize" ∅ []) exp_infos exp_options) as (H1 & H2 & H3 & H4).
  - repeat (apply Forall_cons; split; [vm_compute; congruence|]). constructor.
  - repeat (apply Forall_cons; split; [intros s Hs; vm_compute in Hs; injection Hs as <-; reflexivity|]). constructor.
  - repeat (apply Forall_cons; split; [intros s Hs; vm_compute in Hs; injection Hs as <-; reflexivity|]). constructor.
  - unfold exp_price. rewrite H1, H2, H3, H4. vm_compute. repeat split; reflexivity.
Defined.

Lemma priority_exact_witness :
  let prios : gmap Z (list (string → bool)) :=
    {[10 := [λ n, bool_decide (n = "a")]; 50 := [λ n, bool_decide (n ∈ ["b"; "c"])]]} in
  exp_names (priority_BestOptions (Ok prios) (0, 0) exp_options).2 = ["b"; "c"].
Proof.
  cbv zeta.
  set (prios := {[10 := [λ n, bool_decide (n = "a"%string)];
                  50 := [λ n, bool_decide (n ∈ ["b"; "c"]%string)]]} : gmap Z (list (string → bool))).
  pose proof (priority_exact prios (0, 0) exp_options 50) as H.
  destruct (priority_BestOptions (Ok prios) (0, 0) exp_options) as [counts best]. destruct H as [H _].
  cbn [snd]. rewrite H.
  - vm_compute. reflexivity.
  - lia.
  - exists (exp_option "b" 1 ["p"; "q"]%string). split; [right; left|vm_compute; reflexivity].
  - intros o p _ Hm. unfold matches, prios in Hm. rewrite lookup_insert, lookup_singleton in Hm.
    repeat case_decide; subst; done || lia.
Defined.

Definition exp_filters : gmap string (filter_fn * bool) :=
  {["least-nodes" := (leastnodes_BestOptions, false); "most-pods" := (mostpods_BestOptions, false);
    "random" := (random_BestOptions (λ _, 0), true)]}.

(** Least nodes leave two options, most pods the one of them. *)
Lemma expander_chain_exact_witness :
  is_ok (Build exp_filters (λ _, 0) ["least-nodes"; "most-pods"]) = true ∧
  is_ok (Build exp_filters (λ _, 0) ["random"; "most-pods"]) = false ∧
  exp_names (option_list (chain_BestOption (random_BestOption (λ _, 0))
    [leastnodes_BestOptions; mostpods_BestOptions] exp_options)) = ["b"].
Proof.
  split; [|split; [|vm_compute; reflexivity]].
  - apply (expander_chain_exact exp_filters (λ _, 0) ["least-nodes"; "most-pods"]%string). split_and!.
    + apply (bool_decide_unpack _). vm_compute. reflexivity.
    + intros n Hn. repeat (apply elem_of_cons in Hn as [->|Hn]; [vm_compute; by eauto|]). by apply not_elem_of_nil in Hn.
    + intros [|[|i]] n f; [intros [= <-]..|done]; intros Hf; vm_compute in Hf; discriminate Hf.
  - destruct (Build exp_filters (λ _, 0) ["random"; "most-pods"]%string) eqn:Hb; [|reflexivity].
    vm_compute in Hb. discriminate Hb.
Defined.
