(* ===== verification/ScaleUpExecutor.v ===== *)
(** The scale-up executor (src/pkg/core/scaleup/orchestrator/executor.go): it
    carries out a plan group by group, or all groups at once, asks the cloud
    provider for the nodes and registers what came of it. The goroutines of the
    parallel mode are workers whose steps a schedule interleaves. *)
From stdpp Require Import prelude gmap strings pretty list numbers fin_maps.
From S2P Require Import Prelude Errors Api Backoff Balancing ClusterState.
Local Open Scope Z_scope.
Local Open Scope ca_scope.

(** [cloudprovider.ErrNotImplemented], compared by its fields. *)
Definition cp_ErrNotImplemented : go_error := as_error (NewAutoscalerError InternalError "Not implemented").

Definition OtherErrorClass : Z := 99.

Section executor.
(** The outside world: the cloud provider and the clock. *)
Context {World : Type}
  (IncreaseSize AtomicIncreaseSize : World → NodeGroup → Z → World * option go_error)
  (Now : World → Z) (env : World → ClusterEnv) (Exist : NodeGroup → bool).
Context `{SB : SortSliceBy} (quote : string → string).
Context {NI : Type}.
Implicit Types (w : World) (csr : ClusterStateRegistry) (info : ScaleUpInfo) (nodeInfos : gmap string NI).

(** ** One group *)

Definition increaseSize w (nodeGroup : NodeGroup) (increase : Z) (atomic : bool) : World * option go_error :=
  if atomic then
    match AtomicIncreaseSize w nodeGroup increase with
    | (w, err) =>
        if bool_decide (err = Some cp_ErrNotImplemented) then IncreaseSize w nodeGroup increase
        else (w, err)
    end
  else IncreaseSize w nodeGroup increase.

Definition increase_of info : Z := NewSize info - CurrentSize info.

(** The error of [executeScaleUp] for what the cloud provider answered. *)
Definition call_error info (err : option go_error) : option AutoscalerError :=
  match err with
  | Some err => Some (AddPrefix (typed_error CloudProviderError err) "failed to increase node group size: ")
  | None =>
      if increase_of info <? 0 then
        Some (NewAutoscalerError InternalError
                ("increase in number of nodes cannot be negative, got: " +:+ pretty (increase_of info)))
      else None
  end.

(** What follows the call: the registry is told. *)
Definition register_answer w csr info (now : Z) (err : option go_error) : ClusterStateRegistry :=
  match err, call_error info err with
  | Some _, Some aerr =>
      RegisterFailedScaleUp (env w) csr (ScaleUpGroup info) (increase_of info)
        (mkErrorInfo OtherErrorClass (errorType aerr) (Error aerr)) now
  | _, Some _ => csr
  | _, None =>
      if negb (Exist (ScaleUpGroup info)) && IsUpcoming (env w) (ScaleUpGroup info) then csr
      else RegisterScaleUp (env w) csr (ScaleUpGroup info) (increase_of info) (Now w)
  end.

Definition executeScaleUp w csr info (now : Z) (atomic : bool)
    : World * ClusterStateRegistry * option AutoscalerError :=
  let '(w, err) := increaseSize w (ScaleUpGroup info) (increase_of info) atomic in
  (w, register_answer w csr info now err, call_error info err).

(** ** One after the other *)

Fixpoint executeScaleUpsSync w csr (scaleUpInfos : list ScaleUpInfo) nodeInfos (now : Z) (atomic : bool)
    : World * ClusterStateRegistry * option AutoscalerError * list NodeGroup :=
  match scaleUpInfos with
  | [] => (w, csr, None, [])
  | info :: scaleUpInfos =>
      match nodeInfos !! Id (ScaleUpGroup info) with
      | None => executeScaleUpsSync w csr scaleUpInfos nodeInfos now atomic
      | Some _ =>
          match executeScaleUp w csr info now atomic with
          | (w, csr, Some aErr) => (w, csr, Some aErr, [ScaleUpGroup info])
          | (w, csr, None) => executeScaleUpsSync w csr scaleUpInfos nodeInfos now atomic
          end
      end
  end.

(** ** All at once *)

Fixpoint check_unique (scaleUpInfos : list ScaleUpInfo) (uniqueGroups : gset string) : option AutoscalerError :=
  match scaleUpInfos with
  | [] => None
  | info :: scaleUpInfos =>
      if bool_decide (Id (ScaleUpGroup info) ∈ uniqueGroups) then
        Some (NewAutoscalerError InternalError
                ("assertion failure: detected group double scaling: " +:+ Id (ScaleUpGroup info)))
      else check_unique scaleUpInfos ({[Id (ScaleUpGroup info)]} ∪ uniqueGroups)
  end.

Definition checkUniqueNodeGroups (scaleUpInfos : list ScaleUpInfo) : option AutoscalerError :=
  check_unique scaleUpInfos ∅.

Definition extractNodeGroups (scaleUpInfos : list ScaleUpInfo) : list NodeGroup :=
  ScaleUpGroup <$> scaleUpInfos.

(** Where a goroutine is: before its first call to the cloud provider, before
    the second one (the fallback of an atomic increase), holding the answer,
    about to send its error, done (with the answer, if it asked). *)
Inductive phase : Type :=
| Starting
| FallingBack
| Returned (err : option go_error)
| Sending (err : option go_error) (aErr : AutoscalerError)
| Done (asked : option (option go_error)).

Record parallel_state : Type := mkParallel {
  par_world : World;
  par_csr : ClusterStateRegistry;
  workers : list (ScaleUpInfo * phase);
  errResults : list (AutoscalerError * NodeGroup)
}.

(** The next step of a goroutine; every one is atomic. *)
Definition worker_step nodeInfos (now : Z) (atomic : bool) (st : parallel_state) info (ph : phase)
    : World * ClusterStateRegistry * phase * list (AutoscalerError * NodeGroup) :=
  let '(mkParallel w csr _ results) := st in
  let group := ScaleUpGroup info in
  match ph with
  | Starting =>
      match nodeInfos !! Id group with
      | None => (w, csr, Done None, results)
      | Some _ =>
          if atomic then
            match AtomicIncreaseSize w group (increase_of info) with
            | (w, err) =>
                (w, csr, if bool_decide (err = Some cp_ErrNotImplemented) then FallingBack else Returned err, results)
            end
          else let '(w, err) := IncreaseSize w group (increase_of info) in (w, csr, Returned err, results)
      end
  | FallingBack => let '(w, err) := IncreaseSize w group (increase_of info) in (w, csr, Returned err, results)
  | Returned err =>
      let csr := register_answer w csr info now err in
      (w, csr, match call_error info err with Some aErr => Sending err aErr | None => Done (Some err) end, results)
  | Sending err aErr => (w, csr, Done (Some err), results ++ [(aErr, group)])
  | Done asked => (w, csr, Done asked, results)
  end.

Definition parallel_step nodeInfos now atomic (st : parallel_state) (i : nat) : parallel_state :=
  match workers st !! i with
  | None => st
  | Some (info, ph) =>
      let '(w, csr, ph, results) := worker_step nodeInfos now atomic st info ph in
      mkParallel w csr (<[i := (info, ph)]> (workers st)) results
  end.

Definition all_done (st : parallel_state) : bool :=
  forallb (λ wk, match wk.2 with Done _ => true | _ => false end) (workers st).

(** [schedule] says which goroutine moves next; [None] when it ends before all of
    them are done, which is when [wg.Wait] returns. *)
Definition executeScaleUpsParallel (schedule : list nat) w csr (scaleUpInfos : list ScaleUpInfo) nodeInfos
    (now : Z) (atomic : bool)
    : option (World * ClusterStateRegistry * option AutoscalerError * list NodeGroup) :=
  match checkUniqueNodeGroups scaleUpInfos with
  | Some err => Some (w, csr, Some err, extractNodeGroups scaleUpInfos)
  | None =>
      let st := foldl (parallel_step nodeInfos now atomic)
                  (mkParallel w csr ((λ info, (info, Starting)) <$> scaleUpInfos) []) schedule in
      if all_done st then
        Some (match errResults st with
              | [] => (par_world st, par_csr st, None, [])
              | _ => (par_world st, par_csr st, Combine quote (errResults st).*1, (errResults st).*2)
              end)
      else None
  end.

Definition ExecuteScaleUps (ParallelScaleUp : bool) (schedule : list nat) w csr
    (scaleUpInfos : list ScaleUpInfo) nodeInfos (now : Z) (atomic : bool)
    : option (World * ClusterStateRegistry * option AutoscalerError * list NodeGroup) :=
  if ParallelScaleUp then executeScaleUpsParallel schedule w csr scaleUpInfos nodeInfos now atomic
  else Some (executeScaleUpsSync w csr scaleUpInfos nodeInfos now atomic).
End executor.

(** ** What the registry learns *)

(** The nodes the registry waits for in a group. *)
Definition expected (csr : ClusterStateRegistry) (id : string) : Z :=
  default 0 (Increase <$> scaleUpRequests csr !! id).

Lemma RegisterScaleUp_expected env csr g delta now id d :
  requests_ok csr → 0 ≤ delta → GetMaxNodeProvisionTime env g = Ok d →
  expected (RegisterScaleUp env csr g delta now) id =
  expected csr id + (if bool_decide (Id g = id) then delta else 0).
Proof.
  intros Hok Hd Hp. unfold RegisterScaleUp, registerOrUpdateScaleUpNoLock, expected. rewrite Hp.
  destruct (scaleUpRequests csr !! Id g) as [r|] eqn:Hr.
  - destruct (Hok _ _ Hr) as [Hi _]. destruct (Z.leb_spec (Increase r + delta) 0); [lia|]. simpl.
    case_bool_decide as Hid; [subst; rewrite lookup_insert_eq, Hr; simpl; by case_match|].
    rewrite lookup_insert_ne by done. lia.
  - destruct (Z.ltb_spec 0 delta) as [H0|H0]; [|case_bool_decide; lia]. simpl.
    case_bool_decide as Hid; [subst; by rewrite lookup_insert_eq, Hr|]. rewrite lookup_insert_ne by done. lia.
Qed.

Lemma check_unique_None infos : ∀ seen,
  check_unique infos seen = None ↔
  NoDup ((λ info, Id (ScaleUpGroup info)) <$> infos) ∧ ∀ info, info ∈ infos → Id (ScaleUpGroup info) ∉ seen.
Proof.
  induction infos as [|info infos IH]; intros seen; cbn [check_unique fmap list_fmap].
  { split; [intros _; split; [constructor|by intros ? ?%not_elem_of_nil]|done]. }
  case_bool_decide as Hin.
  - split; [done|]. intros [_ H]. by destruct (H info); [left|].
  - rewrite IH, NoDup_cons, list_elem_of_fmap. split.
    + intros [Hnd Hseen]. split; [split; [|done]|].
      * intros (y & Hy & Hyin). specialize (Hseen y Hyin). set_solver.
      * intros y [->|Hy]%elem_of_cons; [done|]. specialize (Hseen y Hy). set_solver.
    + intros [[Hni Hnd] Hseen]. split; [done|]. intros y Hy [Heq%elem_of_singleton|Hs]%elem_of_union.
      * apply Hni. by exists y.
      * by apply (Hseen y); [right|].
Qed.

Section executor_proofs.
Context {World : Type}
  (IncreaseSize AtomicIncreaseSize : World → NodeGroup → Z → World * option go_error)
  (Now : World → Z) (env : World → ClusterEnv) (Exist : NodeGroup → bool).
Context `{SB : SortSliceBy} `{GR : GoRange} (quote : string → string) {NI : Type}.
Context (upcoming : NodeGroup → bool) (templated : string → bool).
(** What the registry asks about node groups does not change while the plan is
    carried out. *)
Context (Hprovision : ∀ w g, ∃ d, GetMaxNodeProvisionTime (env w) g = Ok d)
  (Hupcoming : ∀ w g, IsUpcoming (env w) g = upcoming g)
  (Htemplated : ∀ w id, HasTemplate (env w) id = templated id).
Implicit Types (w : World) (csr : ClusterStateRegistry) (info : ScaleUpInfo) (nodeInfos : gmap string NI).

(** A group and what the cloud provider answered, if it was asked. *)
Abbreviation answer := (ScaleUpInfo * option (option go_error))%type.
Implicit Types (answers : list answer).

(** The increase was made and is registered: an upcoming group is not. *)
Definition registers info (err : option go_error) : bool :=
  bool_decide (err = None) && (0 <=? increase_of info) &&
  negb (negb (Exist (ScaleUpGroup info)) && upcoming (ScaleUpGroup info)).

Definition amount (id : string) (a : answer) : Z :=
  match a.2 with
  | Some err => if registers a.1 err && bool_decide (Id (ScaleUpGroup a.1) = id) then increase_of a.1 else 0
  | None => 0
  end.

(** The registry holds exactly what the answers say. *)
Record told csr0 csr (now : Z) answers : Prop := {
  told_expected : ∀ id, expected csr id = expected csr0 id + foldr (λ (a : answer) n, amount id a + n) 0 answers;
  told_requests : requests_ok csr;
  told_backoff : csr_backoff_ok csr;
  told_blocked : ∀ info err, (info, Some (Some err)) ∈ answers →
    templated (Id (ScaleUpGroup info)) → blocked (csr_backoff csr) now (ScaleUpGroup info)
}.

Lemma registers_None info :
  registers info None = true →
  (increase_of info <? 0) = false ∧
  negb (Exist (ScaleUpGroup info)) && upcoming (ScaleUpGroup info) = false ∧ 0 ≤ increase_of info.
Proof.
  unfold registers. rewrite bool_decide_true by done. cbn [andb]. intros H.
  apply andb_true_iff in H as [H1 H2]. rewrite negb_true_iff in H2. split; [lia|]. split; [done|lia].
Qed.

Lemma register_answer_expected w csr info now err id :
  requests_ok csr →
  expected (register_answer Now env Exist w csr info now err) id = expected csr id + amount id (info, Some err) ∧
  requests_ok (register_answer Now env Exist w csr info now err).
Proof.
  intros Hok. unfold register_answer, amount. cbn [fst snd]. destruct err as [err|].
  { cbn. unfold expected, requests_ok. rewrite RegisterFailedScaleUp_requests. split; [lia|done]. }
  unfold call_error. destruct (registers info None) eqn:Hreg.
  - apply registers_None in Hreg as (-> & Hup & Hd). rewrite Hupcoming, Hup. split.
    + destruct (Hprovision w (ScaleUpGroup info)) as [d Hp].
      by rewrite (RegisterScaleUp_expected _ _ _ _ _ _ d) by done.
    + by apply registerOrUpdate_requests_ok.
  - unfold registers in Hreg. cbn in Hreg. destruct (Z.ltb_spec (increase_of info) 0); [split; [simpl; lia|done]|].
    rewrite (proj2 (Z.leb_le _ _)) in Hreg by done. rewrite Hupcoming.
    cbn in Hreg. apply negb_false_iff in Hreg. rewrite Hreg. split; [simpl; lia|done].
Qed.

Lemma register_answer_backoff w csr info now err :
  csr_backoff_ok csr →
  let csr' := register_answer Now env Exist w csr info now err in
  csr_backoff_ok csr' ∧
  (err ≠ None → templated (Id (ScaleUpGroup info)) → blocked (csr_backoff csr') now (ScaleUpGroup info)) ∧
  (∀ g, blocked (csr_backoff csr) now g → blocked (csr_backoff csr') now g).
Proof.
  intros Hok csr'. subst csr'. unfold register_answer. destruct err as [err|].
  - destruct (RegisterFailedScaleUp_backoff (env w) csr (ScaleUpGroup info) (increase_of info)
      (mkErrorInfo OtherErrorClass
         (errorType (AddPrefix (typed_error CloudProviderError err) "failed to increase node group size: "))
         (Error (AddPrefix (typed_error CloudProviderError err) "failed to increase node group size: "))) now Hok)
      as (H1 & H2 & H3). simpl. split; [done|]. split; [|done]. intros _ Ht. apply H2. by rewrite Htemplated.
  - assert (∀ csr', csr_backoff csr' = csr_backoff csr →
      csr_backoff_ok csr' ∧ (None ≠ @None go_error → templated (Id (ScaleUpGroup info)) →
        blocked (csr_backoff csr') now (ScaleUpGroup info)) ∧
      (∀ g, blocked (csr_backoff csr) now g → blocked (csr_backoff csr') now g)) as Hsame.
    { intros csr' Heq. unfold csr_backoff_ok. rewrite Heq. done. }
    apply Hsame. destruct (call_error info None); [done|]. destruct (_ && _); [done|].
    unfold RegisterScaleUp, registerOrUpdateScaleUpNoLock. by repeat case_match.
Qed.

(** One more answer is registered. *)
Lemma told_answer csr0 csr now answers i info err w :
  told csr0 csr now answers → answers !! i = Some (info, None) →
  told csr0 (register_answer Now env Exist w csr info now err) now (<[i := (info, Some err)]> answers).
Proof.
  intros [He Hr Hb Hbl] Hi.
  destruct (register_answer_backoff w csr info now err Hb) as (Hb' & Hnew & Hold).
  split; [|by apply (register_answer_expected w csr info now err "")|done|].
  - intros id. destruct (register_answer_expected w csr info now err id Hr) as [-> _].
    rewrite He, (foldr_sum_insert (amount id) answers i (info, None)) by done. change (amount id (info, None)) with 0. cbn [fst snd]. lia.
  - intros info' err' [j Hj]%list_elem_of_lookup Ht.
    apply list_lookup_insert_Some in Hj as [(_ & Heq & _)|[_ Hj]]; [injection Heq as <- ->; by apply Hnew|].
    apply Hold. eapply Hbl; [by eapply list_elem_of_lookup_2|done].
Qed.

(** *** What the cloud provider can answer for a group *)

Definition provider_answers (atomic : bool) info (err : option go_error) : Prop :=
  if atomic then
    (err ≠ Some cp_ErrNotImplemented ∧
     ∃ w w', AtomicIncreaseSize w (ScaleUpGroup info) (increase_of info) = (w', err)) ∨
    ((∃ w w', AtomicIncreaseSize w (ScaleUpGroup info) (increase_of info) = (w', Some cp_ErrNotImplemented)) ∧
     ∃ w w', IncreaseSize w (ScaleUpGroup info) (increase_of info) = (w', err))
  else ∃ w w', IncreaseSize w (ScaleUpGroup info) (increase_of info) = (w', err).

Lemma increaseSize_answers w info atomic :
  provider_answers atomic info
    (increaseSize IncreaseSize AtomicIncreaseSize w (ScaleUpGroup info) (increase_of info) atomic).2.
Proof.
  unfold increaseSize, provider_answers. destruct atomic.
  - destruct (AtomicIncreaseSize w _ _) as [w1 err] eqn:Ha. case_bool_decide as He.
    + right. subst. split; [by eexists _, _|].
      destruct (IncreaseSize w1 _ _) as [w2 err'] eqn:Hi. by exists w1, w2.
    + left. split; [done|by eexists _, _].
  - destruct (IncreaseSize w _ _) as [w2 err'] eqn:Hi. by exists w, w2.
Qed.

(** The answers of a plan: which groups were asked, and with which error each of
    them failed. *)
Definition answer_ok nodeInfos (atomic : bool) (a : answer) : Prop :=
  ∀ err, a.2 = Some err → is_Some (nodeInfos !! Id (ScaleUpGroup a.1)) ∧ provider_answers atomic a.1 err.

Definition failure (a : answer) : option (AutoscalerError * NodeGroup) :=
  match a.2 with Some err => (λ e, (e, ScaleUpGroup a.1)) <$> call_error a.1 err | None => None end.

(** *** One after the other *)

Definition unasked (infos : list ScaleUpInfo) : list answer := (λ info, (info, None)) <$> infos.

Lemma told_start csr now infos : requests_ok csr → csr_backoff_ok csr → told csr csr now (unasked infos).
Proof.
  intros Hr Hb. split; [|done|done|].
  - intros id. assert (foldr (λ (a : answer) n, amount id a + n) 0 (unasked infos) = 0) as ->; [|lia].
    induction infos as [|info infos IH]; [done|]. simpl. by rewrite IH.
  - intros info err Hin. apply list_elem_of_fmap in Hin as (? & ? & _). done.
Qed.

Lemma failure_unasked infos : omap failure (unasked infos) = [].
Proof. induction infos as [|info infos IH]; [done|exact IH]. Qed.

Lemma sync_spec nodeInfos now atomic csr0 infos : ∀ w csr pre,
  told csr0 csr now (pre ++ unasked infos) →
  let '(_, csr', aErr, failed) :=
    executeScaleUpsSync IncreaseSize AtomicIncreaseSize Now env Exist w csr infos nodeInfos now atomic in
  ∃ answers, answers.*1 = infos ∧ told csr0 csr' now (pre ++ answers) ∧ Forall (answer_ok nodeInfos atomic) answers ∧
    omap failure answers = match aErr with Some e => (λ g, (e, g)) <$> failed | None => [] end ∧
    (aErr = None ↔ failed = []) ∧
    (aErr = None → ∀ a, a ∈ answers → is_Some (nodeInfos !! Id (ScaleUpGroup a.1)) → a.2 ≠ None).
Proof.
  induction infos as [|info infos IH]; intros w csr pre Ht; simpl.
  { exists []. split_and!; [done..| |done|by intros _ a ?%not_elem_of_nil]. by constructor. }
  destruct (nodeInfos !! Id (ScaleUpGroup info)) as [ni|] eqn:Hni.
  2:{ specialize (IH w csr (pre ++ [(info, None)])). rewrite <- app_assoc in IH. specialize (IH Ht).
      destruct (executeScaleUpsSync _ _ _ _ _ _ _ _ _ _ _) as [[[w' csr'] aErr] failed].
      destruct IH as (answers & <- & Ht' & Hok & Hf & He & Hall). rewrite <- app_assoc in Ht'.
      exists ((info, None) :: answers). split_and!; [done|done| |done|done|].
      - by constructor.
      - intros HaErr a [->|Ha]%elem_of_cons Hs; [cbn in Hs; rewrite Hni in Hs; by destruct Hs|by apply (Hall HaErr)]. }
  unfold executeScaleUp. pose proof (increaseSize_answers w info atomic) as Hans.
  destruct (increaseSize _ _ w _ _ atomic) as [w1 err]. cbn [snd] in Hans.
  pose proof (told_answer csr0 csr now (pre ++ (info, None) :: unasked infos) (length pre) info err w1 Ht) as Ht1.
  rewrite list_lookup_middle in Ht1 by done. specialize (Ht1 eq_refl).
  rewrite insert_app_r_alt, Nat.sub_diag in Ht1 by done. cbn in Ht1.
  assert (answer_ok nodeInfos atomic (info, Some err)) as Haok by (intros e [= <-]; split; [by eexists|done]).
  destruct (call_error info err) as [aErr|] eqn:Hce.
  - exists ((info, Some err) :: unasked infos). split_and!.
    + cbn. f_equal. unfold unasked. rewrite <- list_fmap_compose. apply list_fmap_id.
    + exact Ht1.
    + constructor; [done|]. apply Forall_fmap, Forall_true. by intros i e.
    + cbn. unfold failure. cbn. rewrite Hce. cbn. f_equal. apply failure_unasked.
    + done.
    + done.
  - specialize (IH w1 (register_answer Now env Exist w1 csr info now err) (pre ++ [(info, Some err)])).
    rewrite <- app_assoc in IH. specialize (IH Ht1).
    destruct (executeScaleUpsSync _ _ _ _ _ _ _ _ _ _ _) as [[[w' csr'] aErr] failed].
    destruct IH as (answers & <- & Ht' & Hok & Hf & He & Hall). rewrite <- app_assoc in Ht'.
    exists ((info, Some err) :: answers). split_and!; [done|done| | |done|].
    + by constructor.
    + cbn. unfold failure at 1. cbn. rewrite Hce. exact Hf.
    + intros HaErr a [->|Ha]%elem_of_cons Hs; [done|by apply (Hall HaErr)].
Qed.

(** *** All at once *)

(** What a goroutine has registered, and the error it has sent. *)
Definition told_of (ph : phase) : option (option go_error) :=
  match ph with Sending err _ => Some err | Done asked => asked | _ => None end.
Definition sent (wk : ScaleUpInfo * phase) : option (AutoscalerError * NodeGroup) :=
  match wk.2 with Done asked => failure (wk.1, asked) | _ => None end.
Definition answer_of (wk : ScaleUpInfo * phase) : answer := (wk.1, told_of wk.2).

Definition phase_ok nodeInfos (atomic : bool) (wk : ScaleUpInfo * phase) : Prop :=
  let '(info, ph) := wk in
  let asked err := is_Some (nodeInfos !! Id (ScaleUpGroup info)) ∧ provider_answers atomic info err in
  match ph with
  | Starting => True
  | FallingBack => is_Some (nodeInfos !! Id (ScaleUpGroup info)) ∧ atomic = true ∧
      ∃ w w', AtomicIncreaseSize w (ScaleUpGroup info) (increase_of info) = (w', Some cp_ErrNotImplemented)
  | Returned err => asked err
  | Sending err aErr => asked err ∧ call_error info err = Some aErr
  | Done None => nodeInfos !! Id (ScaleUpGroup info) = None
  | Done (Some err) => asked err
  end.

Record par_inv csr0 (infos : list ScaleUpInfo) nodeInfos (now : Z) (atomic : bool) (st : parallel_state (World := World)) : Prop := {
  pi_infos : (workers st).*1 = infos;
  pi_phases : Forall (phase_ok nodeInfos atomic) (workers st);
  pi_told : told csr0 (par_csr st) now (answer_of <$> workers st);
  pi_sent : errResults st ≡ₚ omap sent (workers st)
}.

(** One worker moves on: the answers it has registered and the errors it has
    sent are those of its new phase. *)
Lemma omap_insert_perm {A B} (f : A → option B) (l : list A) i x y :
  l !! i = Some x → f x = None →
  omap f (<[i := y]> l) ≡ₚ omap f l ++ match f y with Some z => [z] | None => [] end.
Proof.
  revert i. induction l as [|a l IH]; intros [|i] Hi Hx; [done..| |].
  - injection Hi as ->. cbn. rewrite Hx. destruct (f y); [by rewrite Permutation_app_comm|by rewrite app_nil_r].
  - cbn. destruct (f a); cbn; by rewrite IH.
Qed.

Lemma answer_of_insert (l : list (ScaleUpInfo * phase)) i info ph ph' :
  l !! i = Some (info, ph) → told_of ph' = told_of ph →
  answer_of <$> <[i := (info, ph')]> l = answer_of <$> l.
Proof.
  intros Hi Hph. rewrite list_fmap_insert. apply list_insert_id.
  rewrite list_lookup_fmap, Hi. unfold answer_of. cbn. by rewrite Hph.
Qed.

Lemma workers_insert_infos (l : list (ScaleUpInfo * phase)) i info ph ph' :
  l !! i = Some (info, ph) → (<[i := (info, ph')]> l).*1 = l.*1.
Proof. intros Hi. rewrite list_fmap_insert. apply list_insert_id. by rewrite list_lookup_fmap, Hi. Qed.

(** The phase after a step, and what the step did. *)
Lemma worker_step_spec nodeInfos now atomic w csr wks results info ph :
  phase_ok nodeInfos atomic (info, ph) →
  let '(w', csr', ph', results') :=
    worker_step IncreaseSize AtomicIncreaseSize Now env Exist nodeInfos now atomic
      (mkParallel w csr wks results) info ph in
  phase_ok nodeInfos atomic (info, ph') ∧
  match ph with
  | Returned err => csr' = register_answer Now env Exist w csr info now err ∧ told_of ph' = Some err ∧
      results' = results ∧ sent (info, ph') = None
  | Sending err aErr => csr' = csr ∧ told_of ph' = Some err ∧
      results' = results ++ [(aErr, ScaleUpGroup info)] ∧ sent (info, ph') = Some (aErr, ScaleUpGroup info)
  | Done asked => csr' = csr ∧ ph' = ph ∧ results' = results
  | _ => csr' = csr ∧ told_of ph' = None ∧ results' = results ∧ sent (info, ph') = None
  end.
Proof.
  intros Hok. destruct ph as [| |err|err aErr|asked]; simpl in *.
  - destruct (nodeInfos !! _) as [ni|] eqn:Hni; [|by split].
    destruct atomic eqn:Hat.
    + destruct (AtomicIncreaseSize w _ _) as [w1 err] eqn:Ha. case_bool_decide as He; cbn; split_and!; try done.
      * subst. by eexists _, _.
      * left. split; [done|by eexists _, _].
    + destruct (IncreaseSize w _ _) as [w1 err] eqn:Hi. cbn. split_and!; try done; by repeat eexists.
  - destruct Hok as (Hni & -> & Ha). destruct (IncreaseSize w _ _) as [w1 err] eqn:Hi.
    split_and!; try done. right. split; [done|by eexists _, _].
  - destruct (call_error info err) as [aErr|] eqn:Hce; cbn; split_and!; try done; try apply Hok.
    unfold sent, failure. cbn. by rewrite Hce.
  - destruct Hok as [Hok Hce]. split_and!; try done; try apply Hok.
    unfold sent, failure. cbn. by rewrite Hce.
  - by split_and!.
Qed.

Lemma parallel_step_inv csr0 infos nodeInfos now atomic st i :
  par_inv csr0 infos nodeInfos now atomic st →
  par_inv csr0 infos nodeInfos now atomic
    (parallel_step IncreaseSize AtomicIncreaseSize Now env Exist nodeInfos now atomic st i).
Proof.
  intros [Hi Hp Ht Hs]. unfold parallel_step. destruct (workers st !! i) as [[info ph]|] eqn:Hw; [|done].
  pose proof (Forall_lookup_1 _ _ _ _ Hp Hw) as Hok. destruct st as [w csr wks results].
  cbn [workers par_csr errResults] in *.
  pose proof (worker_step_spec nodeInfos now atomic w csr wks results info ph Hok) as Hst.
  destruct (worker_step _ _ _ _ _ _ _ _ _ _ _) as [[[w' csr'] ph'] results']. destruct Hst as [Hok' Hst].
  assert (Forall (phase_ok nodeInfos atomic) (<[i := (info, ph')]> wks)) as Hp'
    by (apply Forall_insert; [exact Hp|exact Hok']).
  assert ((<[i := (info, ph')]> wks).*1 = infos) as Hi' by (rewrite (workers_insert_infos _ _ _ _ _ Hw); done).
  assert (sent (info, ph) = None ∨ ∃ asked, ph = Done asked) as Hph by (destruct ph; eauto).
  assert (∀ z, sent (info, ph) = None → sent (info, ph') = z →
    omap sent (<[i := (info, ph')]> wks) ≡ₚ omap sent wks ++ match z with Some z => [z] | None => [] end) as Hom
    by (intros z H1 <-; by apply (omap_insert_perm sent _ _ _ _ Hw)).
  change (par_inv csr0 infos nodeInfos now atomic (mkParallel w' csr' (<[i := (info, ph')]> wks) results')).
  destruct ph as [| |err|err aErr|asked].
  1,2: destruct Hst as (-> & Hto & -> & Hse); split; [exact Hi'|exact Hp'| |];
    cbn [workers par_csr errResults];
    [by rewrite (answer_of_insert _ _ _ _ _ Hw)|by rewrite (Hom None), app_nil_r].
  - destruct Hst as (-> & Hto & -> & Hse). split; [exact Hi'|exact Hp'| |cbn [workers errResults]; by rewrite (Hom None), app_nil_r].
    cbn [workers par_csr]. rewrite list_fmap_insert. unfold answer_of at 1. cbn [fst snd]. rewrite Hto. apply told_answer; [done|].
    by rewrite list_lookup_fmap, Hw.
  - destruct Hst as (-> & Hto & -> & Hse). split; [exact Hi'|exact Hp'| |].
    + cbn [workers par_csr]. by rewrite (answer_of_insert _ _ _ _ _ Hw).
    + cbn [workers errResults]. by rewrite (Hom (Some (aErr, ScaleUpGroup info))), Hs.
  - destruct Hst as (-> & -> & ->). rewrite list_insert_id by done. by split.
Qed.

Lemma parallel_start csr infos nodeInfos now atomic w : requests_ok csr → csr_backoff_ok csr →
  par_inv csr infos nodeInfos now atomic (mkParallel w csr ((λ info, (info, Starting)) <$> infos) []).
Proof.
  intros Hr Hb. split; simpl.
  - rewrite <- list_fmap_compose. by rewrite list_fmap_id.
  - by apply Forall_fmap, Forall_true.
  - rewrite <- list_fmap_compose. by apply told_start.
  - assert (omap sent ((λ info, (info, Starting)) <$> infos) = []) as ->; [|done].
    induction infos as [|info infos IH]; [done|exact IH].
Qed.

Lemma all_done_answers csr0 infos nodeInfos now atomic st :
  par_inv csr0 infos nodeInfos now atomic st → all_done st = true →
  omap sent (workers st) = omap failure (answer_of <$> workers st) ∧
  Forall (answer_ok nodeInfos atomic) (answer_of <$> workers st) ∧
  (∀ a, a ∈ answer_of <$> workers st → is_Some (nodeInfos !! Id (ScaleUpGroup a.1)) → a.2 ≠ None).
Proof.
  intros [_ Hp _ _] Hd. unfold all_done in Hd. rewrite forallb_forall in Hd.
  assert (∀ wk, wk ∈ workers st → ∃ asked, wk.2 = Done asked) as Hdone.
  { intros wk Hwk%list_elem_of_In. specialize (Hd _ Hwk). destruct wk.2; try done. by eexists. }
  rewrite Forall_forall in Hp. split_and!.
  - clear -Hdone. induction (workers st) as [|[info ph] wks IH]; [done|].
    destruct (Hdone (info, ph)) as [asked Has]; [left|]. cbn in *. subst ph. unfold sent at 1. cbn.
    rewrite IH by (intros; apply Hdone; by right). unfold answer_of. cbn. done.
  - apply Forall_fmap, Forall_forall. intros [info ph] Hwk. destruct (Hdone _ Hwk) as [asked Has].
    specialize (Hp _ Hwk). cbn in *. subst ph. intros err Herr. cbn in Herr. subst asked. exact Hp.
  - intros a [[info ph] [-> Hwk]]%list_elem_of_fmap Hs Hn. destruct (Hdone _ Hwk) as [asked Has].
    specialize (Hp _ Hwk). cbn in *. subst ph. cbn in Hn. subst asked. cbn in Hp. rewrite Hp in Hs. by destruct Hs.
Qed.

(** *** Every schedule that lets each goroutine move four times is long enough *)

Definition moves_left (ph : phase) : nat :=
  match ph with Starting => 4 | FallingBack => 3 | Returned _ => 2 | Sending _ _ => 1 | Done _ => 0 end.

Lemma worker_step_moves nodeInfos now atomic st info ph :
  let '(_, _, ph', _) := worker_step IncreaseSize AtomicIncreaseSize Now env Exist nodeInfos now atomic st info ph in
  (moves_left ph' ≤ pred (moves_left ph))%nat.
Proof using Type.
  destruct st as [w csr wks results]. destruct ph; simpl; repeat case_match; simplify_eq; simpl; lia.
Qed.

Lemma parallel_moves nodeInfos now atomic schedule : ∀ st,
  (∀ i info ph, workers st !! i = Some (info, ph) → (moves_left ph ≤ length (filter (eq i) schedule))%nat) →
  all_done (foldl (parallel_step IncreaseSize AtomicIncreaseSize Now env Exist nodeInfos now atomic) st schedule) = true.
Proof using Type.
  induction schedule as [|j schedule IH]; intros st Hm; simpl.
  - unfold all_done. apply forallb_forall. intros [info ph] [i Hi]%list_elem_of_In%list_elem_of_lookup.
    specialize (Hm _ _ _ Hi). simpl in *. destruct ph; simpl in *; (lia || done).
  - apply IH. intros i info ph Hi. unfold parallel_step in Hi.
    destruct (workers st !! j) as [[info' ph']|] eqn:Hj.
    + pose proof (worker_step_moves nodeInfos now atomic st info' ph') as Hw.
      destruct (worker_step _ _ _ _ _ _ _ _ _ _ _) as [[[w1 csr1] ph1] results1]. cbn [workers] in Hi.
      apply list_lookup_insert_Some in Hi as [(-> & [= -> ->] & _)|[Hne Hi]].
      * pose proof (Hm _ _ _ Hj) as Hmj. rewrite filter_cons_True in Hmj by done. simpl in Hmj. lia.
      * specialize (Hm _ _ _ Hi). by rewrite filter_cons_False in Hm by done.
    + specialize (Hm _ _ _ Hi). rewrite filter_cons_False in Hm by (intros ->; congruence). done.
Qed.

Lemma Combine_None errs : Combine quote errs = None ↔ errs = [].
Proof using Type. apply (Combine_order quote errs errs). done. Qed.

(** In the parallel mode every schedule that lets each goroutine move four times
    lets all of them finish, so the executor always has an answer. *)
Lemma ExecuteScaleUps_answers parallel schedule w csr infos nodeInfos now atomic :
  (∀ i, (i < length infos)%nat → (4 ≤ length (filter (eq i) schedule))%nat) →
  is_Some (ExecuteScaleUps IncreaseSize AtomicIncreaseSize Now env Exist quote parallel schedule w csr
             infos nodeInfos now atomic).
Proof using Type.
  intros Hs. unfold ExecuteScaleUps, executeScaleUpsParallel. destruct parallel; [|by eexists].
  destruct (checkUniqueNodeGroups infos); [by eexists|].
  rewrite parallel_moves; [by eexists|]. cbn [workers]. intros i info ph Hi.
  rewrite list_lookup_fmap in Hi. destruct (infos !! i) as [info'|] eqn:Hinfo; [|done]. injection Hi as <- <-.
  apply Hs. by eapply lookup_lt_Some.
Qed.

(** C16. Whatever order the goroutines run in, the registry expects exactly the
    nodes of the increases that were made (registered ones: not of upcoming
    groups), the groups reported as failed are exactly those that failed, each
    of which is backed off, and the error is nil when there are none. Every
    answer is one the cloud provider can give; one after the other, groups are
    asked until the first failure, in parallel all of them. A plan with a group
    twice is refused as a whole in parallel. *)
Theorem scale_up_registers_exactly parallel schedule w csr infos nodeInfos now atomic w' csr' aErr failed :
  requests_ok csr → csr_backoff_ok csr →
  ExecuteScaleUps IncreaseSize AtomicIncreaseSize Now env Exist quote parallel schedule w csr
    infos nodeInfos now atomic = Some (w', csr', aErr, failed) →
  let doubled := parallel && negb (bool_decide (NoDup ((λ info, Id (ScaleUpGroup info)) <$> infos))) in
  if doubled then (w', csr') = (w, csr) ∧ aErr ≠ None ∧ failed = extractNodeGroups infos
  else ∃ answers, answers.*1 = infos ∧ told csr csr' now answers ∧ Forall (answer_ok nodeInfos atomic) answers ∧
    failed ≡ₚ (omap failure answers).*2 ∧ (aErr = None ↔ failed = []) ∧
    (parallel = true ∨ aErr = None → ∀ a, a ∈ answers → is_Some (nodeInfos !! Id (ScaleUpGroup a.1)) → a.2 ≠ None).
Proof.
  intros Hr Hb. unfold ExecuteScaleUps. destruct parallel; cbn [andb].
  2:{ intros [= Hsync]. pose proof (sync_spec nodeInfos now atomic csr infos w csr [] (told_start csr now infos Hr Hb)) as Hs.
      rewrite Hsync in Hs. destruct Hs as (answers & Hi & Ht & Hok & Hf & He & Hall).
      exists answers. split_and!; [done..| |done|intros [?|?]; [done|by apply Hall]].
      rewrite Hf. destruct aErr as [e|]; [rewrite <- list_fmap_compose, list_fmap_id; done|].
      by rewrite (proj1 He). }
  unfold executeScaleUpsParallel. pose proof (check_unique_None infos ∅) as Hu. fold (checkUniqueNodeGroups infos) in Hu.
  destruct (checkUniqueNodeGroups infos) as [e|].
  { intros [= <- <- <- <-]. rewrite bool_decide_false; [by split_and!|]. intros Hnd.
    assert (Some e = None) by (apply Hu; split; [done|]; intros; apply not_elem_of_empty). done. }
  rewrite bool_decide_true by by apply Hu. cbn [negb andb].
  set (st := foldl _ _ schedule).
  assert (par_inv csr infos nodeInfos now atomic st) as Hinv.
  { subst st. apply (foldl_inv (par_inv csr infos nodeInfos now atomic)); [by apply parallel_start|].
    intros st i _. apply parallel_step_inv. }
  destruct (all_done st) eqn:Hd; [|done].
  assert (match errResults st with [] => (par_world st, par_csr st, None, [])
          | _ => (par_world st, par_csr st, Combine quote (errResults st).*1, (errResults st).*2) end =
    (par_world st, par_csr st, Combine quote (errResults st).*1, (errResults st).*2)) as -> by by destruct (errResults st).
  intros [= Hw <- HaErr <-].
  destruct (all_done_answers _ _ _ _ _ _ Hinv Hd) as (Hsent & Hok & Hall). destruct Hinv as [Hi _ Ht Hs].
  exists (answer_of <$> workers st). rewrite Hsent in Hs. split_and!.
  - by rewrite <- list_fmap_compose.
  - done.
  - done.
  - by rewrite Hs.
  - rewrite <- HaErr, Combine_None. split; intros ->%fmap_nil_inv; done.
  - intros _. exact Hall.
Qed.
End executor_proofs.

(** Two groups grow at once; the cloud provider is out of stock for one. *)
Module ExecutorExample.
Definition stockout : go_error := PlainError 1 "out of stock".
Definition increase (w : nat) (g : NodeGroup) (n : Z) : nat * option go_error :=
  (S w, if decide (Id g = "b") then Some stockout else None).
Definition atomic_increase (w : nat) (g : NodeGroup) (n : Z) : nat * option go_error :=
  (S w, Some cp_ErrNotImplemented).
Definition clock (w : nat) : Z := 1000 + Z.of_nat w.
Definition env (w : nat) : ClusterEnv := CsrExample.env.
Definition infos : list ScaleUpInfo :=
  [mkScaleUp CsrExample.ga 3 5 10; mkScaleUp CsrExample.gb 1 4 10].
Definition node_infos : gmap string unit := {["a" := tt; "b" := tt]}.
(** The goroutines take turns, and the atomic increases fall back. *)
Definition schedule : list nat := [0; 1; 1; 0; 1; 0; 1; 0]%nat.
Definition run (parallel : bool) :=
  ExecuteScaleUps increase atomic_increase clock env (λ _, true) ErrorExample.quote parallel schedule 0%nat
    CsrExample.csr0 infos node_infos 1000 true.
End ExecutorExample.

Example executor_run :
  match ExecutorExample.run true with
  | Some (w, csr, aErr, failed) => (w, expected csr "a", expected csr "b", Error <$> aErr, Id <$> failed)
  | None => (0%nat, 0, 0, None, [])
  end = (4%nat, 2, 0, Some "failed to increase node group size: out of stock", ["b"]).
Proof. vm_compute. reflexivity. Qed.

Lemma scale_up_registers_exactly_witness :
  ∃ w csr aErr failed answers, ExecutorExample.run true = Some (w, csr, aErr, failed) ∧
    answers.*1 = ExecutorExample.infos ∧ (aErr = None ↔ failed = []) ∧
    expected csr "a" = 0 + foldr (λ a n, amount (λ _, true) (λ _, false) "a" a + n) 0 answers.
Proof.
  destruct (ExecutorExample.run true) as [[[[w csr] aErr] failed]|] eqn:Hrun; [|vm_compute in Hrun; discriminate].
  destruct (scale_up_registers_exactly ExecutorExample.increase ExecutorExample.atomic_increase
    ExecutorExample.clock ExecutorExample.env (λ _, true) ErrorExample.quote (λ _, false) (λ _, true)
    (λ w g, ex_intro _ _ eq_refl) (λ _ _, eq_refl) (λ _ _, eq_refl)
    true ExecutorExample.schedule 0%nat CsrExample.csr0 ExecutorExample.infos ExecutorExample.node_infos 1000 true
    w csr aErr failed) as (answers & Hi & Ht & Hok & Hf & He & Hall).
  - apply csr0_ok.
  - apply csr0_ok.
  - exact Hrun.
  - exists w, csr, aErr, failed, answers. split; [reflexivity|]. split; [exact Hi|]. split; [exact He|].
    exact (told_expected _ _ _ _ _ _ _ Ht "a").
Defined.
