(* ===== verification/ScaleUpPods.v ===== *)
(** The pods of a scale-up (src/pkg/core/scaleup/orchestrator/orchestrator.go,
    skippedreasons.go, rejectedreasons.go): which node groups could host each
    group of equivalent pods, and what is reported of the pods that stay
    unschedulable. *)
From stdpp Require Import prelude gmap strings list numbers fin_maps.
From S2P Require Import Prelude Api Quotas Drain Framework ClusterSnapshot Balancing.
Local Open Scope Z_scope.
Local Open Scope ca_scope.

(** ** Reasons *)

(** [status.Reasons]: an error of the scheduler, or why a node group was skipped
    or rejected. *)
Inductive Reasons : Type :=
| SchedulingReasons (e : SchedulingError)
| SkippedReasons (messages : list string)
| RejectedReasons (messages : list string)
| MaxResourceLimitReached (messages resources : list string).

Definition NewSkippedReasons (m : string) : Reasons := SkippedReasons [m].
Definition NewRejectedReasons (m : string) : Reasons := RejectedReasons [m].

Definition BackoffReason : Reasons := NewSkippedReasons "in backoff after failed scale-up".
Definition MaxLimitReachedReason : Reasons := NewSkippedReasons "max node group size reached".
Definition NotReadyReason : Reasons := NewSkippedReasons "not ready for scale-up".
Definition AllOrNothingReason : Reasons :=
  NewRejectedReasons "not all pods would fit and scale-up is using all-or-nothing strategy".
Definition ExpansionOptionsFilteredOutReason : Reasons :=
  NewRejectedReasons "expansion options filtered out and no longer considered".
Definition ScaleUpExecutionErrorReason : Reasons := NewRejectedReasons "scale-up execution failed".

(** The resources are those of a set, in any order. *)
Definition NewMaxResourceLimitReached `{GR : GoRange} (quote : string → string)
    (exceededQuotas : list ExceededQuota) : Reasons :=
  let '(messages, resources) :=
    foldl (λ (st : list string * gmap string unit) quota,
      (st.1 ++ ["exceeded quota: " +:+ quote (ExceededID quota) +:+ ", resources: " +:+
                String.concat ", " (ExceededResources quota)],
       foldl (λ s r, <[r := tt]> s) st.2 (ExceededResources quota)))
      ([], ∅) exceededQuotas in
  MaxResourceLimitReached messages (go_range resources).*1.

(** ** Groups of equivalent pods *)

(** [equivalence.PodGroup], by the fields of the pods the scheduler sees. *)
Record PodGroup : Type := mkPodGroup {
  GroupPods : list Pod;
  SchedulingErrors : gmap string Reasons;
  SchedulableGroups : list string;
  Schedulable : bool
}.

Record NoScaleUpInfo : Type := mkNoScaleUp {
  NoScaleUpPod : Pod;
  RejectedNodeGroups : gmap string Reasons;
  SkippedNodeGroups : gmap string Reasons
}.

Definition PodGroup_Clone (eg : PodGroup) : PodGroup :=
  mkPodGroup (GroupPods eg) (SchedulingErrors eg) (SchedulableGroups eg) (Schedulable eg).

Definition set_group (eg : PodGroup) errors groups schedulable : PodGroup :=
  mkPodGroup (GroupPods eg) errors groups schedulable.

Definition mark_all_step (reason : Reasons) (eg : PodGroup) : PodGroup :=
  if Schedulable eg then
    set_group eg (foldl (λ m sg, <[sg := reason]> m) (SchedulingErrors eg) (SchedulableGroups eg))
      (SchedulableGroups eg) false
  else eg.

Definition markAllGroupsAsUnschedulable (egs : list PodGroup) (reason : Reasons) : list PodGroup :=
  mark_all_step reason <$> egs.

Definition mark_failed_step (failedGroups : gset string) (reason : Reasons) (eg : PodGroup) : PodGroup :=
  if negb (Schedulable eg) || (⟪ SchedulableGroups eg ⟫ =? 0) then eg
  else
    let '(errors, allFailed) :=
      foldl (λ (st : gmap string Reasons * bool) sg,
        if decide (sg ∈ failedGroups) then (<[sg := reason]> st.1, st.2) else (st.1, false))
        (SchedulingErrors eg, true) (SchedulableGroups eg) in
    set_group eg errors (SchedulableGroups eg) (if allFailed then false else Schedulable eg).

Definition markFailedGroupsAsUnschedulable (egs : list PodGroup) (failedGroups : gset string)
    (reason : Reasons) : list PodGroup :=
  mark_failed_step failedGroups reason <$> egs.

(** One after the other, the groups after the first that failed were not tried. *)
Definition buildFailedGroupsMap (ParallelScaleUp : bool) (failedNodeGroups : list NodeGroup)
    (scaleUpInfos : list ScaleUpInfo) : gset string :=
  let failedGroupsMap : gset string := foldl (λ m ng, {[Id ng]} ∪ m) ∅ failedNodeGroups in
  match ParallelScaleUp, failedNodeGroups with
  | false, [failed] =>
      match list_find (λ sui, Id (ScaleUpGroup sui) = Id failed) scaleUpInfos with
      | Some (failedIdx, _) =>
          foldl (λ m sui, {[Id (ScaleUpGroup sui)]} ∪ m) failedGroupsMap (drop (S failedIdx) scaleUpInfos)
      | None => failedGroupsMap
      end
  | _, _ => failedGroupsMap
  end.

(** [slices.Index]. *)
Definition index_of (l : list string) (x : string) : option nat := fst <$> list_find (eq x) l.

Definition patch_step (oldId newId : string) (eg : PodGroup) : PodGroup :=
  let groups := match index_of (SchedulableGroups eg) oldId with
                | Some i => <[i := newId]> (SchedulableGroups eg)
                | None => SchedulableGroups eg
                end in
  let errors := match SchedulingErrors eg !! oldId with
                | Some err => delete oldId (<[newId := err]> (SchedulingErrors eg))
                | None => SchedulingErrors eg
                end in
  set_group eg errors groups (Schedulable eg).

Definition patchPodEquivalenceGroupsId (egs : list PodGroup) (oldId newId : string) : list PodGroup :=
  if bool_decide (oldId = newId) then egs else patch_step oldId newId <$> egs.

Definition delete_id_step (id : string) (eg : PodGroup) : PodGroup :=
  let groups := match index_of (SchedulableGroups eg) id with
                | Some i => take i (SchedulableGroups eg) ++ drop (S i) (SchedulableGroups eg)
                | None => SchedulableGroups eg
                end in
  set_group eg (delete id (SchedulingErrors eg)) groups (Schedulable eg).

Definition deletePodEquivalenceGroupsId (egs : list PodGroup) (id : string) : list PodGroup :=
  delete_id_step id <$> egs.

(** [estimator.PodEquivalenceGroup]: the pods of a group; its exemplar is a
    pointer to the first one, and pods are told apart by their fields. *)
Abbreviation Peg := (list Pod).

Definition matchingSchedulablePodGroups (podGroups similarPodGroups : list Peg) : bool :=
  let schedulableSamplePods := (λ (g : Peg), head g) <$> similarPodGroups in
  forallb (λ (g : Peg), bool_decide (head g ∈ schedulableSamplePods)) podGroups.

Definition GetPodsAwaitingEvaluation (egs : list PodGroup) (bestOption : string) : list Pod :=
  foldl (λ awaits eg,
    if Schedulable eg then
      match SchedulingErrors eg !! bestOption with
      | Some _ => awaits ++ GroupPods eg
      | None => awaits
      end
    else awaits) [] egs.

Definition findSkippedNodeGroupsSatisfyingPodPredicates `{GR : GoRange} (eg : PodGroup)
    (skipped : gmap string Reasons) : gmap string Reasons :=
  foldl (λ m kr, match SchedulingErrors eg !! kr.1 with
                 | None => <[kr.1 := kr.2]> m
                 | Some _ => m
                 end) ∅ (go_range skipped).

Section schedulable.
Context {S Slice CSI : Type} `{SchedNodeInfo S} {T : Type} `{!ClusterSnapshot S Slice CSI T} `{GR : GoRange}.
Abbreviation NI := (NodeInfo S Slice CSI).
Implicit Types (snap : T) (egs : list PodGroup) (nodeGroup : NodeGroup) (nodeInfo : NI).

(** One group of pods is tried on the template node; [None] is the panic on a
    group without pods. *)
Definition schedulable_step nodeGroup nodeInfo snap (eg : PodGroup)
    : option (T * PodGroup * option Peg) :=
  match GroupPods eg with
  | [] => None
  | samplePod :: _ =>
      match CheckPredicates snap samplePod (NodeName nodeInfo) with
      | (snap, None) =>
          Some (snap, set_group eg (SchedulingErrors eg) (SchedulableGroups eg ++ [Id nodeGroup]) true,
                Some (GroupPods eg))
      | (snap, Some err) =>
          Some (snap, set_group eg (<[Id nodeGroup := SchedulingReasons err]> (SchedulingErrors eg))
                        (SchedulableGroups eg) (Schedulable eg), None)
      end
  end.

Fixpoint schedulable_loop nodeGroup nodeInfo snap egs : option (T * list PodGroup * list Peg) :=
  match egs with
  | [] => Some (snap, [], [])
  | eg :: egs =>
      match schedulable_step nodeGroup nodeInfo snap eg with
      | None => None
      | Some (snap, eg, peg) =>
          match schedulable_loop nodeGroup nodeInfo snap egs with
          | None => None
          | Some (snap, egs, pegs) => Some (snap, eg :: egs, option_list peg ++ pegs)
          end
      end
  end.

Definition SchedulablePodGroups snap egs nodeGroup nodeInfo : option (T * list PodGroup * list Peg) :=
  match AddNodeInfo (Fork snap) nodeInfo with
  | (snap, Some _) => Some (Revert snap, egs, [])
  | (snap, None) =>
      match schedulable_loop nodeGroup nodeInfo snap egs with
      | None => None
      | Some (snap, egs, pegs) => Some (Revert snap, egs, pegs)
      end
  end.

(** ** What is reported *)

(** The simulation for the skipped node groups; the groups are clones. *)
Fixpoint skipped_loop (nodeInfos : gmap string NI) (skipped : gmap string Reasons) snap egs
    (nodeGroups : list NodeGroup) : option (T * list PodGroup) :=
  match nodeGroups with
  | [] => Some (snap, egs)
  | nodeGroup :: nodeGroups =>
      match skipped !! Id nodeGroup, nodeInfos !! Id nodeGroup with
      | Some _, Some nodeInfo =>
          match SchedulablePodGroups snap egs nodeGroup nodeInfo with
          | None => None
          | Some (snap, egs, _) => skipped_loop nodeInfos skipped snap egs nodeGroups
          end
      | _, _ => skipped_loop nodeInfos skipped snap egs nodeGroups
      end
  end.

Definition no_scale_up (skipped : PodGroup → gmap string Reasons) (eg : PodGroup) : list NoScaleUpInfo :=
  (λ pod, mkNoScaleUp pod (SchedulingErrors eg) (skipped eg)) <$> GroupPods eg.

Definition getRemainingPodsConsideringSkippedNodeGroups snap egs (nodeGroups : list NodeGroup)
    (skipped : gmap string Reasons) (nodeInfos : gmap string NI) : option (T * list NoScaleUpInfo) :=
  match skipped_loop nodeInfos skipped snap egs nodeGroups with
  | None => None
  | Some (snap, egs) =>
      Some (snap, foldl (λ remaining eg, remaining ++
              no_scale_up (λ eg, findSkippedNodeGroupsSatisfyingPodPredicates eg skipped) eg) [] egs)
  end.

Definition GetRemainingPods (ScaleUpSimulationForSkippedNodeGroupsEnabled : bool) snap egs
    (nodeGroups : list NodeGroup) (skipped : gmap string Reasons) (nodeInfos : gmap string NI)
    : option (T * list NoScaleUpInfo) :=
  if negb ScaleUpSimulationForSkippedNodeGroupsEnabled then
    Some (snap, foldl (λ remaining eg,
      if Schedulable eg then remaining else remaining ++ no_scale_up (λ _, skipped) eg) [] egs)
  else
    let nonSchedulableEgs := foldl (λ l eg, if negb (Schedulable eg) then l ++ [PodGroup_Clone eg] else l) [] egs in
    getRemainingPodsConsideringSkippedNodeGroups snap nonSchedulableEgs nodeGroups skipped nodeInfos.
End schedulable.
