(* ===== verification/ScaleUpGroups.v ===== *)
(** The node groups of a scale-up
    (src/pkg/core/scaleup/orchestrator/orchestrator.go): which of them may grow,
    within which limits, and how an increase is split between similar ones
    without crossing a quota. *)
From stdpp Require Import prelude gmap strings list numbers fin_maps.
From S2P Require Import Prelude Errors Api Backoff Quotas Drain Framework ClusterSnapshot Balancing.
From S2P Require Import ClusterState ScaleUpExecutor ScaleUpPods.
Local Open Scope Z_scope.
Local Open Scope ca_scope.

Definition cp_go_error (e : cp_error) : go_error :=
  match e with
  | ErrNotImplemented => as_error (NewAutoscalerError InternalError "Not implemented")
  | OtherError text => PlainError 0 text
  end.

(** The name of the node is left out of the last text. *)
Definition quota_go_error (e : quota_error) : go_error :=
  match e with
  | ErrNegativeDelta => PlainError 0 "negative nodeDelta received"
  | ErrCustomResources e => PlainError 0 ("failed to get custom resources: " +:+ error_text (cp_go_error e))
  | ErrNodeGroup e => PlainError 0 ("failed to get node group for node: " +:+ error_text (cp_go_error e))
  end.

(** The options of the autoscaler that the scale-up reads. *)
Record ScaleUpOptions : Type := mkScaleUpOptions {
  MaxNodesTotal : Z;
  BalanceSimilarNodeGroups : bool;
  ParallelScaleUp : bool;
  AsyncNodeGroupsEnabled : bool;
  ScaleUpSimulationForSkippedNodeGroupsEnabled : bool;
  NodeGroupDefaults : NodeGroupAutoscalingOptions
}.

(** [autoscalingOptions != nil && autoscalingOptions.ZeroOrMaxNodeScaling]; an
    error of [GetOptions] is only logged. *)
Definition zero_or_max (opts : ScaleUpOptions) (nodeGroup : NodeGroup) : bool :=
  match (GetOptions nodeGroup (NodeGroupDefaults opts)).1 with
  | Some o => ZeroOrMaxNodeScaling o
  | None => false
  end.

(** The error comes with the count that was not positive. *)
Definition GetCappedNewNodeCount (opts : ScaleUpOptions) (newNodeCount currentNodeCount : Z)
    : Z * option AutoscalerError :=
  if (0 <? MaxNodesTotal opts) && (MaxNodesTotal opts <? newNodeCount + currentNodeCount) then
    let newNodeCount := MaxNodesTotal opts - currentNodeCount in
    (newNodeCount,
     if newNodeCount <? 1 then Some (NewAutoscalerError TransientError "max node total count already reached")
     else None)
  else (newNodeCount, None).

Section groups.
Context {S Slice CSI : Type} `{SchedNodeInfo S} `{GR : GoRange} `{SS : SortSlice}.
Abbreviation NI := (NodeInfo S Slice CSI).
(** Of the quotas: the capacity of nodes and the custom resources. *)
Context (Capacity : Node → string → option Z)
  (GetNodeResourceTargets : Node → option NodeGroup → result cp_error (list (string * Z))).
(** Of the cluster state: its thresholds; what it asks its environment. *)
Context (aboveUnreadyPercentage : Z → Z → bool) (OkTotalUnreadyCount : Z) (env : ClusterEnv).
Context (Exist : NodeGroup → bool) (Comparator : NI → NI → bool) (quote : string → string)
  (opts : ScaleUpOptions).
Implicit Types (nodeGroup : NodeGroup) (nodeInfos : gmap string NI) (nodeInfo : NI) (tracker : Tracker)
  (csr : ClusterStateRegistry) (now : Z).

(** ** Which node groups may grow *)

Definition applyLimits (newNodes : Z) tracker nodeGroup nodeInfos : Tracker * result AutoscalerError Z :=
  match nodeInfos !! Id nodeGroup with
  | None => (tracker, Err (NewAutoscalerError CloudProviderError "No node info for best expansion option!"))
  | Some nodeInfo =>
      match CheckQuota Capacity GetNodeResourceTargets tracker (Some nodeGroup) (ni_Node nodeInfo) newNodes with
      | (tracker, Err err) =>
          (tracker, Err (AddPrefix (typed_error InternalError (quota_go_error err)) "failed to check resource quotas: "))
      | (tracker, Ok checkResult) => (tracker, Ok (AllowedDelta checkResult))
      end
  end.

Definition IsNodeGroupReadyToScaleUp csr nodeGroup now : option Reasons :=
  if negb (Exist nodeGroup) then None
  else
    let scaleUpSafety := NodeGroupScaleUpSafety env aboveUnreadyPercentage OkTotalUnreadyCount csr nodeGroup now in
    if negb (SafeToScale scaleUpSafety) then
      if negb (Healthy scaleUpSafety) then Some NotReadyReason else Some BackoffReason
    else None.

Definition IsNodeGroupResourceExceeded tracker nodeGroup nodeInfo (numNodes : Z) : Tracker * option Reasons :=
  match CheckQuota Capacity GetNodeResourceTargets tracker (Some nodeGroup) (ni_Node nodeInfo) numNodes with
  | (tracker, Err _) => (tracker, Some NotReadyReason)
  | (tracker, Ok checkResult) =>
      (tracker, if Exceeded checkResult then Some (NewMaxResourceLimitReached quote (ExceededQuotas checkResult))
                else None)
  end.

Definition AtomicExceedsReason : Reasons := NewSkippedReasons "atomic scale-up exceeds cluster node count limit".

(** Why a node group is skipped, if it is. *)
Definition skip_reason csr nodeInfos (currentNodeCount now : Z) tracker nodeGroup : Tracker * option Reasons :=
  match IsNodeGroupReadyToScaleUp csr nodeGroup now with
  | Some skipReason => (tracker, Some skipReason)
  | None =>
      match TargetSize nodeGroup with
      | Err _ => (tracker, Some NotReadyReason)
      | Ok currentTargetSize =>
          if MaxSize nodeGroup <=? currentTargetSize then (tracker, Some MaxLimitReachedReason)
          else
            let numNodes := if zero_or_max opts nodeGroup then MaxSize nodeGroup - currentTargetSize else 1 in
            if zero_or_max opts nodeGroup && negb (MaxNodesTotal opts =? 0) &&
               (MaxNodesTotal opts <? currentNodeCount + numNodes)
            then (tracker, Some AtomicExceedsReason)
            else
              match nodeInfos !! Id nodeGroup with
              | None => (tracker, Some NotReadyReason)
              | Some nodeInfo => IsNodeGroupResourceExceeded tracker nodeGroup nodeInfo numNodes
              end
      end
  end.

Definition filter_valid_step csr nodeInfos (currentNodeCount now : Z)
    (st : Tracker * list NodeGroup * gmap string Reasons) nodeGroup
    : Tracker * list NodeGroup * gmap string Reasons :=
  let '(tracker, validNodeGroups, skippedNodeGroups) := st in
  match skip_reason csr nodeInfos currentNodeCount now tracker nodeGroup with
  | (tracker, Some reason) => (tracker, validNodeGroups, <[Id nodeGroup := reason]> skippedNodeGroups)
  | (tracker, None) => (tracker, validNodeGroups ++ [nodeGroup], skippedNodeGroups)
  end.

Definition filterValidScaleUpNodeGroups csr (nodeGroups : list NodeGroup) nodeInfos tracker
    (currentNodeCount now : Z) : Tracker * list NodeGroup * gmap string Reasons :=
  foldl (filter_valid_step csr nodeInfos currentNodeCount now) (tracker, [], ∅) nodeGroups.

(** ** Similar node groups *)

Definition similar_ok csr (schedulablePodGroups : gmap string (list Peg)) now (podGroups : list Peg) nodeGroup : bool :=
  if Exist nodeGroup &&
     negb (SafeToScale (NodeGroupScaleUpSafety env aboveUnreadyPercentage OkTotalUnreadyCount csr nodeGroup now))
  then false
  else match schedulablePodGroups !! Id nodeGroup with
  | Some similarPodGroups => matchingSchedulablePodGroups podGroups similarPodGroups
  | None => false
  end.

Definition ComputeSimilarNodeGroups csr nodeGroup nodeInfos (schedulablePodGroups : gmap string (list Peg)) now
    : list NodeGroup :=
  if negb (BalanceSimilarNodeGroups opts) then []
  else if zero_or_max opts nodeGroup then []
  else match schedulablePodGroups !! Id nodeGroup with
  | None | Some [] => []
  | Some podGroups =>
      match FindSimilarNodeGroups Comparator (NodeGroups env) nodeGroup nodeInfos with
      | Err _ => []
      | Ok similarNodeGroups =>
          foldl (λ valid ng, if similar_ok csr schedulablePodGroups now podGroups ng then valid ++ [ng] else valid)
            [] similarNodeGroups
      end
  end.

(** ** Splitting the increase *)

(** One scale-up is capped by what its quotas still allow, which it consumes. *)
Definition cap_step nodeInfos (st : Tracker * list ScaleUpInfo) (sui : ScaleUpInfo) : Tracker * list ScaleUpInfo :=
  let '(tracker, capped) := st in
  let delta := NewSize sui - CurrentSize sui in
  if delta <=? 0 then (tracker, capped ++ [sui])
  else match nodeInfos !! Id (ScaleUpGroup sui) with
  | None => (tracker, capped ++ [sui])
  | Some nodeInfo =>
      match CheckQuota Capacity GetNodeResourceTargets tracker (Some (ScaleUpGroup sui)) (ni_Node nodeInfo) delta with
      | (tracker, Err _) => (tracker, capped ++ [sui])
      | (tracker, Ok checkResult) =>
          let allowedDelta := AllowedDelta checkResult in
          let sui := if allowedDelta <? delta
                     then mkScaleUp (ScaleUpGroup sui) (CurrentSize sui) (CurrentSize sui + allowedDelta) (ScaleUpMaxSize sui)
                     else sui in
          let tracker :=
            if 0 <? allowedDelta then
              (ConsumeQuota Capacity GetNodeResourceTargets tracker (Some (ScaleUpGroup sui)) (ni_Node nodeInfo)
                 allowedDelta).1
            else tracker in
          (tracker, capped ++ [sui])
      end
  end.

Definition capScaleUpsByQuota (scaleUpInfos : list ScaleUpInfo) nodeInfos tracker : Tracker * list ScaleUpInfo :=
  let '(tracker, scaleUpInfos) := foldl (cap_step nodeInfos) (tracker, []) scaleUpInfos in
  (tracker, filter (λ sui, NewSize sui ≠ CurrentSize sui) scaleUpInfos).

(** The similar groups with room for one more node. *)
Definition quota_valid_step nodeInfos (st : Tracker * list NodeGroup) ng : Tracker * list NodeGroup :=
  let '(tracker, quotaValidGroups) := st in
  match nodeInfos !! Id ng with
  | None => st
  | Some nodeInfo =>
      match IsNodeGroupResourceExceeded tracker ng nodeInfo 1 with
      | (tracker, Some _) => (tracker, quotaValidGroups)
      | (tracker, None) => (tracker, quotaValidGroups ++ [ng])
      end
  end.

Definition balance_autoscaler_error (e : balance_error) : AutoscalerError :=
  match e with
  | NoGroups => NewAutoscalerError InternalError "Can't balance scale up between 0 groups"
  | CloudProviderFailed e =>
      NewAutoscalerError CloudProviderError ("failed to get node group size: " +:+ error_text (cp_go_error e))
  end.

(** [None] is a panic while balancing. *)
Definition balanceScaleUps csr now nodeGroup (newNodes : Z) nodeInfos
    (schedulablePodGroups : gmap string (list Peg)) tracker
    : option (Tracker * result AutoscalerError (list ScaleUpInfo)) :=
  let similarNodeGroups := ComputeSimilarNodeGroups csr nodeGroup nodeInfos schedulablePodGroups now in
  let '(tracker, similarNodeGroups) := foldl (quota_valid_step nodeInfos) (tracker, []) similarNodeGroups in
  let targetNodeGroups := nodeGroup :: similarNodeGroups in
  match BalanceScaleUpBetweenGroups targetNodeGroups newNodes with
  | None => None
  | Some (Err aErr) => Some (tracker, Err (balance_autoscaler_error aErr))
  | Some (Ok scaleUpInfos) =>
      let '(tracker, scaleUpInfos) := capScaleUpsByQuota scaleUpInfos nodeInfos tracker in
      Some (tracker, Ok scaleUpInfos)
  end.

End groups.

Section group_proofs.
Context {S Slice CSI : Type} `{SchedNodeInfo S} `{GR : GoRange} `{SS : SortSlice}.
Abbreviation NI := (NodeInfo S Slice CSI).
Context (Capacity : Node → string → option Z)
  (GetNodeResourceTargets : Node → option NodeGroup → result cp_error (list (string * Z))).
Context (aboveUnreadyPercentage : Z → Z → bool) (OkTotalUnreadyCount : Z) (env : ClusterEnv).
Context (Exist : NodeGroup → bool) (Comparator : NI → NI → bool) (quote : string → string)
  (opts : ScaleUpOptions).
Implicit Types (nodeGroup : NodeGroup) (nodeInfos : gmap string NI) (nodeInfo : NI) (tracker : Tracker)
  (csr : ClusterStateRegistry) (now : Z).

(** ** Within sizes, limits and quotas *)

Abbreviation cap_quota := (cap_step Capacity GetNodeResourceTargets).

Definition increase_sum (infos : list ScaleUpInfo) : Z := foldr (λ x n, increase_of x + n) 0 infos.

(** A scale-up may have been capped: it grows by less, but not by less than
    nothing. *)
Definition capped (x y : ScaleUpInfo) : Prop :=
  ScaleUpGroup y = ScaleUpGroup x ∧ CurrentSize y = CurrentSize x ∧ 0 ≤ increase_of y ≤ increase_of x.

Lemma increase_sum_total infos : increase_sum infos = total_new infos - total_current infos.
Proof. unfold increase_sum, increase_of. induction infos as [|x l IH]; simpl; lia. Qed.

Lemma increase_sum_app l k : increase_sum (l ++ k) = increase_sum l + increase_sum k.
Proof. unfold increase_sum. rewrite foldr_app. induction l as [|x l IH]; simpl; lia. Qed.

Lemma increase_sum_capped l k : Forall2 capped l k → increase_sum k ≤ increase_sum l.
Proof. induction 1 as [|x y l k (_ & _ & H1) _ IH]; [done|]. unfold increase_sum in *. simpl. lia. Qed.

Lemma increase_sum_filter l :
  increase_sum (filter (λ sui, NewSize sui ≠ CurrentSize sui) l) = increase_sum l.
Proof.
  induction l as [|x l IH]; [done|]. rewrite filter_cons. unfold increase_sum, increase_of in *.
  case_decide; simpl; lia.
Qed.

(** Every step of the cap keeps the tracker, and caps one scale-up. *)
Lemma cap_step_spec nodeInfos tracker acc sui :
  tracker_ok tracker → 0 ≤ increase_of sui →
  ∃ sui', (cap_quota nodeInfos (tracker, acc) sui).2 = acc ++ [sui'] ∧ capped sui sui' ∧
    tracker_ok (cap_quota nodeInfos (tracker, acc) sui).1.
Proof using Type.
  intros Ht Hinc. unfold cap_step, increase_of in *.
  assert (capped sui sui) as Hself by (unfold capped, increase_of; split_and!; (done || lia)).
  destruct (Z.leb_spec (NewSize sui - CurrentSize sui) 0); [by exists sui|].
  destruct (nodeInfos !! _) as [ni|]; [|by exists sui].
  destruct (CheckQuota _ _ _ _ _ _) as [t1 [res|e]] eqn:Hck;
    destruct (CheckQuota_bounds _ _ _ _ _ _ _ _ Ht Hck) as [Hqs Hb].
  2:{ exists sui. split_and!; [done..|]. cbn [fst]. unfold tracker_ok in *. by rewrite Hqs. }
  specialize (Hb _ eq_refl). cbn [fst snd].
  eexists. split; [reflexivity|]. split.
  - destruct (Z.ltb_spec (AllowedDelta res) (NewSize sui - CurrentSize sui)); [|done].
    unfold capped, increase_of. cbn. split_and!; (done || lia).
  - assert (tracker_ok t1) by (unfold tracker_ok in *; by rewrite Hqs).
    destruct (0 <? _); [by apply ConsumeQuota_ok|done].
Qed.

Lemma cap_loop_spec nodeInfos infos : ∀ tracker acc,
  tracker_ok tracker → Forall (λ sui, 0 ≤ increase_of sui) infos →
  ∃ infos', (foldl (cap_quota nodeInfos) (tracker, acc) infos).2 = acc ++ infos' ∧ Forall2 capped infos infos' ∧
    tracker_ok (foldl (cap_quota nodeInfos) (tracker, acc) infos).1.
Proof using Type.
  induction infos as [|sui infos IH]; intros tracker acc Ht Hl; cbn [foldl].
  { exists []. rewrite app_nil_r. by split_and!. }
  apply Forall_cons in Hl as [Hs Hl]. destruct (cap_step_spec nodeInfos tracker acc sui Ht Hs) as (sui' & Hsnd & Hc & Ht').
  destruct (cap_quota nodeInfos (tracker, acc) sui) as [t1 acc1]. cbn [fst snd] in *. subst acc1.
  destruct (IH t1 (acc ++ [sui']) Ht' Hl) as (infos' & Hr & Hc' & Ht''). exists (sui' :: infos').
  rewrite Hr, <- app_assoc. split_and!; [done|by constructor|done].
Qed.

(** What a planned scale-up is: of a group the plan considers, by at least one
    node and to at most its maximal size. *)
Definition planned_ok (targets : list NodeGroup) (x : ScaleUpInfo) : Prop :=
  ScaleUpGroup x ∈ targets ∧ TargetSize (ScaleUpGroup x) = Ok (CurrentSize x) ∧
  CurrentSize x < NewSize x ≤ MaxSize (ScaleUpGroup x).

Lemma capScaleUpsByQuota_spec nodeInfos tracker infos targets :
  tracker_ok tracker → Forall (planned_ok targets) infos →
  let '(tracker', infos') := capScaleUpsByQuota Capacity GetNodeResourceTargets infos nodeInfos tracker in
  tracker_ok tracker' ∧ Forall (planned_ok targets) infos' ∧ increase_sum infos' ≤ increase_sum infos.
Proof using Type.
  intros Ht Hp. unfold capScaleUpsByQuota.
  assert (Forall (λ sui, 0 ≤ increase_of sui) infos) as Hinc.
  { eapply Forall_impl; [exact Hp|]. intros x (_ & _ & Hx). unfold increase_of. lia. }
  destruct (cap_loop_spec nodeInfos infos tracker [] Ht Hinc) as (infos' & Hl & Hc & Ht').
  destruct (foldl _ _ infos) as [t1 l1]. cbn [fst snd app] in *. subst l1. split_and!; [done| |].
  - apply Forall_forall. intros y [Hne Hy]%list_elem_of_filter.
    apply list_elem_of_lookup_1 in Hy as [i Hi]. destruct (Forall2_lookup_r _ _ _ _ _ Hc Hi) as (x & Hx & Hg & Hcur & Hinc').
    pose proof (Forall_lookup_1 _ _ _ _ Hp Hx) as (Hin & Hts & Hsz). unfold planned_ok, increase_of in *.
    rewrite Hg. split_and!; [done|congruence|lia|lia].
  - rewrite increase_sum_filter. by apply increase_sum_capped.
Qed.

Lemma quota_valid_spec nodeInfos groups : ∀ tracker acc,
  tracker_ok tracker →
  let '(tracker', valid) :=
    foldl (quota_valid_step Capacity GetNodeResourceTargets quote nodeInfos) (tracker, acc) groups in
  tracker_ok tracker' ∧ quotaStatuses tracker' = quotaStatuses tracker ∧
  ∃ l, valid = acc ++ l ∧ sublist l groups ∧ Forall (λ g, is_Some (nodeInfos !! Id g)) l.
Proof using Type.
  induction groups as [|g groups IH]; intros tracker acc Ht; cbn [foldl].
  { split_and!; [done..|]. exists []. by rewrite app_nil_r. }
  unfold quota_valid_step at 2. unfold IsNodeGroupResourceExceeded.
  destruct (nodeInfos !! Id g) as [ni|] eqn:Hg.
  2:{ specialize (IH tracker acc Ht). destruct (foldl _ _ groups) as [t' valid].
      destruct IH as (? & ? & l & ? & ? & ?). split_and!; [done..|]. exists l. split_and!; [done|by apply sublist_cons|done]. }
  destruct (CheckQuota _ _ _ _ _ _) as [t1 res] eqn:Hck.
  destruct (CheckQuota_bounds _ _ _ _ _ _ _ _ Ht Hck) as [Hqs _].
  assert (tracker_ok t1) as Ht1 by (unfold tracker_ok in *; by rewrite Hqs).
  assert (∀ l0, l0 = [] ∨ l0 = [g] →
    let '(tracker', valid) := foldl (quota_valid_step Capacity GetNodeResourceTargets quote nodeInfos) (t1, acc ++ l0) groups in
    tracker_ok tracker' ∧ quotaStatuses tracker' = quotaStatuses tracker ∧
    ∃ l, valid = acc ++ l ∧ sublist l (g :: groups) ∧ Forall (λ g, is_Some (nodeInfos !! Id g)) l) as Hgo.
  { intros l0 Hl0. specialize (IH t1 (acc ++ l0) Ht1). destruct (foldl _ _ groups) as [t' valid].
    destruct IH as (? & Hq & l & -> & ? & ?). split_and!; [done|congruence|]. exists (l0 ++ l). rewrite app_assoc.
    split_and!; [done| |].
    - destruct Hl0 as [->| ->]; [by apply sublist_cons|by apply sublist_skip].
    - apply Forall_app. split; [|done]. destruct Hl0 as [->| ->]; [constructor|]. constructor; [by eexists|constructor]. }
  destruct res as [r|e]; [destruct (Exceeded r)|].
  - specialize (Hgo [] (or_introl eq_refl)). by rewrite app_nil_r in Hgo.
  - exact (Hgo [g] (or_intror eq_refl)).
  - specialize (Hgo [] (or_introl eq_refl)). by rewrite app_nil_r in Hgo.
Qed.

Abbreviation similar_groups csr nodeGroup nodeInfos spg now :=
  (ComputeSimilarNodeGroups aboveUnreadyPercentage OkTotalUnreadyCount env Exist Comparator opts
     csr nodeGroup nodeInfos spg now).
Abbreviation balance_groups csr now nodeGroup newNodes nodeInfos spg tracker :=
  (balanceScaleUps Capacity GetNodeResourceTargets aboveUnreadyPercentage OkTotalUnreadyCount env Exist
     Comparator quote opts csr now nodeGroup newNodes nodeInfos spg tracker).

(** Splitting an increase always answers, within the sizes of the groups and the
    nodes that were asked for. *)
Lemma balanceScaleUps_spec csr now nodeGroup newNodes nodeInfos spg tracker :
  tracker_ok tracker → 0 ≤ newNodes →
  ∃ tracker' r, balance_groups csr now nodeGroup newNodes nodeInfos spg tracker = Some (tracker', r) ∧
    tracker_ok tracker' ∧
    ∀ infos, r = Ok infos → increase_sum infos ≤ newNodes ∧
      Forall (planned_ok (nodeGroup :: similar_groups csr nodeGroup nodeInfos spg now)) infos.
Proof.
  intros Ht Hn. unfold balanceScaleUps.
  pose proof (quota_valid_spec nodeInfos (similar_groups csr nodeGroup nodeInfos spg now) tracker [] Ht) as Hv.
  destruct (foldl _ _ (similar_groups csr nodeGroup nodeInfos spg now)) as [t1 valid].
  destruct Hv as (Ht1 & _ & l & -> & Hsub & _). cbn [app].
  destruct (balance_answers (nodeGroup :: l) newNodes ltac:(done) Hn) as (r & -> & Hr).
  destruct r as [infos|e]; [|by eexists _, _].
  destruct (Hr _ eq_refl) as (_ & Htot & Hx).
  pose proof (capScaleUpsByQuota_spec nodeInfos t1 infos (nodeGroup :: similar_groups csr nodeGroup nodeInfos spg now) Ht1) as Hc.
  destruct (capScaleUpsByQuota _ _ infos nodeInfos t1) as [t2 infos2].
  destruct Hc as (Ht2 & Hp & Hle).
  { apply Forall_forall. intros x Hin. destruct (Hx x Hin) as (Hg & Hts & Hsz). split; [|done].
    apply elem_of_cons in Hg as [->|Hg]; [left|right; by eapply elem_of_sublist]. }
  eexists _, _. split; [done|]. split; [done|]. intros ? [= <-]. split; [|done].
  rewrite increase_sum_total in Hle. rewrite increase_sum_total in *. lia.
Qed.

(** *** What a plan takes from the quotas *)

(** The nodes of a plan, times the resources of a node of their group. *)
Definition planned_usage (cache : gmap string (gmap string Z)) nodeInfos (infos : list ScaleUpInfo)
    (rq : Quota) (r : string) : Z :=
  foldr (λ sui n, match nodeInfos !! Id (ScaleUpGroup sui) with
                  | Some ni => drawing (ScaleUpGroup sui) (ni_Node ni)
                                 (default ∅ (cache !! Id (ScaleUpGroup sui))) (increase_of sui) rq r + n
                  | None => n
                  end) 0 infos.

Lemma planned_usage_app cache nodeInfos l k rq r :
  planned_usage cache nodeInfos (l ++ k) rq r =
  planned_usage cache nodeInfos l rq r + planned_usage cache nodeInfos k rq r.
Proof. unfold planned_usage. rewrite foldr_app. induction l as [|x l IH]; simpl; [lia|]. case_match; lia. Qed.

Lemma planned_usage_filter cache nodeInfos l rq r :
  planned_usage cache nodeInfos (filter (λ sui, NewSize sui ≠ CurrentSize sui) l) rq r =
  planned_usage cache nodeInfos l rq r.
Proof.
  induction l as [|x l IH]; [done|]. rewrite filter_cons. unfold planned_usage in *. case_decide as Hx; simpl.
  - by rewrite IH.
  - rewrite IH. case_match; [|done]. unfold drawing, increase_of. case_match; [|lia].
    replace (NewSize x - CurrentSize x) with 0 by lia. lia.
Qed.

Section usage.
Context (B : Z) (HB : nodes_in Capacity GetNodeResourceTargets B)
  (Hknown : ∀ node g, ∃ m, totalNodeResources Capacity GetNodeResourceTargets node (Some g) = Ok m).

Lemma CheckQuota_known tracker g node nd :
  0 ≤ nd → ∃ t' res, CheckQuota Capacity GetNodeResourceTargets tracker (Some g) node nd = (t', Ok res).
Proof using Hknown.
  intros Hnd. unfold CheckQuota. destruct (Z.ltb_spec nd 0); [lia|]. unfold cached_totalNodeResources.
  destruct (nodeCache tracker !! Id g); [by eexists _, _|]. destruct (Hknown node g) as [m ->]. by eexists _, _.
Qed.

Lemma cap_loop_usage nodeInfos infos : ∀ tracker acc,
  tracker_ok tracker → cache_in B (nodeCache tracker) →
  Forall (λ sui, 0 ≤ increase_of sui ∧ increase_of sui * B ≤ int64_max ∧
                 is_Some (nodeInfos !! Id (ScaleUpGroup sui))) infos →
  let '(tracker', infos') := foldl (cap_quota nodeInfos) (tracker, acc) infos in
  ∃ l, infos' = acc ++ l ∧ nodeCache tracker ⊆ nodeCache tracker' ∧
    Forall2 (drawn (planned_usage (nodeCache tracker') nodeInfos l)) (quotaStatuses tracker) (quotaStatuses tracker').
Proof using HB Hknown.
  induction infos as [|sui infos IH]; intros tracker acc Ht Hc Hl; cbn [foldl].
  { exists []. rewrite app_nil_r. split_and!; [done..|]. by apply drawn_nothing_all. }
  apply Forall_cons in Hl as [(Hinc & Hov & [ni Hni]) Hl].
  unfold cap_step at 2. unfold increase_of in Hinc, Hov.
  destruct (Z.leb_spec (NewSize sui - CurrentSize sui) 0) as [Hz|Hpos].
  { specialize (IH tracker (acc ++ [sui]) Ht Hc Hl). destruct (foldl _ _ infos) as [t' infos'].
    destruct IH as (l & -> & Hsub & Hd).
    exists (sui :: l). rewrite <- app_assoc. split_and!; [done..|].
    eapply Forall2_impl; [exact Hd|]. intros qs qs' Hdr. eapply drawn_ext; [exact Hdr|].
    intros rq r. unfold planned_usage. simpl. rewrite Hni. unfold drawing, increase_of.
    replace (NewSize sui - CurrentSize sui) with 0 by lia. case_match; lia. }
  rewrite Hni. destruct (CheckQuota_known tracker (ScaleUpGroup sui) (ni_Node ni) (NewSize sui - CurrentSize sui) Hinc)
    as (t1 & res & Hck). rewrite Hck.
  destruct (CheckQuota_bounds _ _ _ _ _ _ _ _ Ht Hck) as [Hqs Hb]. specialize (Hb _ eq_refl).
  destruct (allowed_is_consumed Capacity GetNodeResourceTargets B tracker (ScaleUpGroup sui) (ni_Node ni)
    (NewSize sui - CurrentSize sui) t1 res Ht HB Hc Hov Hck) as (delta & Hdelta & Hsub1 & Hc2 & Hd1).
  set (sui' := if AllowedDelta res <? _ then _ else sui).
  assert (ScaleUpGroup sui' = ScaleUpGroup sui ∧ increase_of sui' = AllowedDelta res) as [Hg Ha].
  { subst sui'. unfold increase_of. destruct (Z.ltb_spec (AllowedDelta res) (NewSize sui - CurrentSize sui));
      cbn; split; (done || lia). }
  rewrite Hg. cbn [fst snd] in *.
  set (t2 := if 0 <? AllowedDelta res then _ else t1) in *.
  assert (tracker_ok t2) as Ht2.
  { assert (tracker_ok t1) by (unfold tracker_ok in *; by rewrite Hqs).
    subst t2. destruct (0 <? _); [by apply ConsumeQuota_ok|done]. }
  specialize (IH t2 (acc ++ [sui']) Ht2 Hc2 Hl). destruct (foldl _ _ infos) as [t' infos'].
  destruct IH as (l & -> & Hsub2 & Hd2).
  exists (sui' :: l). rewrite <- app_assoc. split_and!; [done|by transitivity (nodeCache t2)|].
  eapply drawn_trans; [exact Hd1|exact Hd2|]. intros rq r. unfold planned_usage at 1. simpl.
  by rewrite Hg, Hni, Ha, (lookup_weaken _ _ _ _ Hdelta Hsub2).
Qed.

Lemma increase_sum_bound infos x : Forall (λ sui, 0 ≤ increase_of sui) infos → x ∈ infos →
  increase_of x ≤ increase_sum infos.
Proof using Type.
  intros Hl Hx. induction Hl as [|y l Hy Hl IH]; [by apply not_elem_of_nil in Hx|].
  assert (0 ≤ increase_sum l) by (clear -Hl; induction Hl; unfold increase_sum in *; simpl; lia).
  apply elem_of_cons in Hx as [->|Hx]; unfold increase_sum in *; simpl; [lia|]. specialize (IH Hx). lia.
Qed.

(** The look at the similar groups only fills the cache. *)
Lemma quota_valid_cache nodeInfos groups : ∀ tracker acc,
  cache_in B (nodeCache tracker) →
  cache_in B (nodeCache (foldl (quota_valid_step Capacity GetNodeResourceTargets quote nodeInfos) (tracker, acc) groups).1).
Proof using HB.
  induction groups as [|g groups IH]; intros tracker acc Hc; cbn [foldl]; [done|].
  unfold quota_valid_step at 2. unfold IsNodeGroupResourceExceeded, CheckQuota.
  destruct (nodeInfos !! Id g) as [ni|]; [|by apply IH]. cbn [Z.ltb Z.compare].
  pose proof (cached_resources_in Capacity GetNodeResourceTargets B (nodeCache tracker) (ni_Node ni) (Some g) HB Hc) as [Hc' _].
  destruct (cached_totalNodeResources _ _ _ _ _) as [cache [delta|e]]; cbn [fst] in Hc'; [destruct (Exceeded _)|]; by apply IH.
Qed.

(** Every node of a plan is drawn from every quota that applies to it. *)
Lemma balance_usage csr now nodeGroup newNodes nodeInfos spg tracker tracker' infos :
  tracker_ok tracker → cache_in B (nodeCache tracker) → 0 ≤ newNodes → newNodes * B ≤ int64_max → 0 ≤ B →
  is_Some (nodeInfos !! Id nodeGroup) →
  balance_groups csr now nodeGroup newNodes nodeInfos spg tracker = Some (tracker', Ok infos) →
  Forall2 (drawn (planned_usage (nodeCache tracker') nodeInfos infos)) (quotaStatuses tracker) (quotaStatuses tracker').
Proof using HB Hknown.
  intros Ht Hc Hn Hov HB0 Hni. unfold balanceScaleUps.
  pose proof (quota_valid_spec nodeInfos (similar_groups csr nodeGroup nodeInfos spg now) tracker [] Ht) as Hv.
  pose proof (quota_valid_cache nodeInfos (similar_groups csr nodeGroup nodeInfos spg now) tracker [] Hc) as Hvc.
  destruct (foldl _ _ (similar_groups csr nodeGroup nodeInfos spg now)) as [t1 valid].
  destruct Hv as (Ht1 & <- & l & -> & _ & Hinfo). cbn [app fst] in *.
  destruct (balance_answers (nodeGroup :: l) newNodes ltac:(done) Hn) as (r & -> & Hr).
  destruct r as [sui|e]; [|done]. destruct (Hr _ eq_refl) as (_ & Htot & Hx).
  assert (Forall (λ sui, 0 ≤ increase_of sui) sui) as Hpos.
  { apply Forall_forall. intros x Hin. destruct (Hx x Hin) as (_ & _ & ?). unfold increase_of. lia. }
  unfold capScaleUpsByQuota.
  pose proof (cap_loop_usage nodeInfos sui t1 [] Ht1 Hvc) as Hu. destruct (foldl _ _ sui) as [t2 capped_infos].
  intros [= <- <-]. destruct Hu as (l' & -> & Hsub & Hd).
  { apply Forall_forall. intros x Hin. rewrite Forall_forall in Hpos. split_and!; [by apply Hpos| |].
    - assert (increase_of x ≤ newNodes).
      { pose proof (increase_sum_bound sui x ltac:(by apply Forall_forall) Hin) as Hb.
        rewrite increase_sum_total in Hb. lia. }
      specialize (Hpos _ Hin). nia.
    - destruct (Hx x Hin) as ([->|Hg]%elem_of_cons & _); [done|]. rewrite Forall_forall in Hinfo. by apply Hinfo. }
  eapply Forall2_impl; [exact Hd|]. intros qs qs' Hdr. eapply drawn_ext; [exact Hdr|].
  intros rq r. cbn [app]. apply planned_usage_filter.
Qed.
End usage.

(** ** Which node groups are valid *)

Abbreviation skip csr nodeInfos n now tracker nodeGroup :=
  (skip_reason Capacity GetNodeResourceTargets aboveUnreadyPercentage OkTotalUnreadyCount env Exist quote opts
     csr nodeInfos n now tracker nodeGroup).

(** A group may grow: it is healthy and not backed off, below its maximal size,
    within the node limit when it only scales to its maximum, and its quotas have
    room for one node, or for all of them. *)
Definition may_grow csr nodeInfos (currentNodeCount now : Z) tracker nodeGroup : Prop :=
  (Exist nodeGroup = true →
     SafeToScale (NodeGroupScaleUpSafety env aboveUnreadyPercentage OkTotalUnreadyCount csr nodeGroup now) = true) ∧
  ∃ target nodeInfo res, TargetSize nodeGroup = Ok target ∧ target < MaxSize nodeGroup ∧
    nodeInfos !! Id nodeGroup = Some nodeInfo ∧
    let numNodes := if zero_or_max opts nodeGroup then MaxSize nodeGroup - target else 1 in
    (zero_or_max opts nodeGroup = true → MaxNodesTotal opts ≠ 0 → currentNodeCount + numNodes ≤ MaxNodesTotal opts) ∧
    (CheckQuota Capacity GetNodeResourceTargets tracker (Some nodeGroup) (ni_Node nodeInfo) numNodes).2 = Ok res ∧
    Exceeded res = false.

Lemma ready_None csr g now :
  IsNodeGroupReadyToScaleUp aboveUnreadyPercentage OkTotalUnreadyCount env Exist csr g now = None ↔
  (Exist g = true →
     SafeToScale (NodeGroupScaleUpSafety env aboveUnreadyPercentage OkTotalUnreadyCount csr g now) = true).
Proof.
  unfold IsNodeGroupReadyToScaleUp. destruct (Exist g); cbn [negb]; [|done].
  destruct (NodeGroupScaleUpSafety _ _ _ _ _ _) as [safe healthy b]. cbn [SafeToScale Healthy].
  destruct safe, healthy; cbn [negb]; split; try done; by intros Hs; specialize (Hs eq_refl).
Qed.

Lemma exceeded_None tracker g (ni : NI) n :
  (IsNodeGroupResourceExceeded Capacity GetNodeResourceTargets quote tracker g ni n).2 = None ↔
  ∃ res, (CheckQuota Capacity GetNodeResourceTargets tracker (Some g) (ni_Node ni) n).2 = Ok res ∧ Exceeded res = false.
Proof.
  unfold IsNodeGroupResourceExceeded. destruct (CheckQuota _ _ _ _ _ _) as [t [res|e]]; cbn [snd].
  - destruct (Exceeded res) eqn:He; split; [done| |by exists res|done]. intros (? & [= <-] & ?). congruence.
  - split; [done|by intros (? & ? & _)].
Qed.

Lemma skip_None csr nodeInfos n now tracker g :
  (skip csr nodeInfos n now tracker g).2 = None ↔ may_grow csr nodeInfos n now tracker g.
Proof.
  unfold skip_reason, may_grow. rewrite <- ready_None.
  destruct (IsNodeGroupReadyToScaleUp _ _ _ _ _ _ _); cbn [snd]; [by split; [|intros [? _]]|].
  destruct (TargetSize g) as [target|e]; cbn [snd]; [|by split; [|intros (_ & ? & ? & ? & ? & _)]].
  destruct (Z.leb_spec (MaxSize g) target); cbn [snd].
  { split; [done|]. intros (_ & ? & ? & ? & [= <-] & ? & _). lia. }
  set (num := if zero_or_max opts g then _ else 1).
  destruct (zero_or_max opts g && _ && _) eqn:Hz; cbn [snd].
  { split; [done|]. intros (_ & ? & ? & ? & [= <-] & _ & _ & Hlim & _).
    apply andb_true_iff in Hz as [[Hzm Hm]%andb_true_iff Hover]. apply negb_true_iff, Z.eqb_neq in Hm.
    apply Z.ltb_lt in Hover. specialize (Hlim Hzm Hm). fold num in Hlim. lia. }
  destruct (nodeInfos !! Id g) as [ni|]; cbn [snd];
    [|split; [done|]; by intros (_ & ? & ? & ? & _ & _ & ? & _)].
  rewrite exceeded_None. split.
  - intros (res & Hck & He). split; [done|]. exists target, ni, res. split_and!; [done..| |done|done].
    intros Hzm Hm. fold num. rewrite Hzm in Hz. apply Z.eqb_neq in Hm. rewrite Hm in Hz. cbn in Hz. lia.
  - intros (_ & ? & ? & res & [= <-] & _ & [= <-] & _ & Hck & He). by exists res.
Qed.

(** The answer about a group depends on the cache only in that group's entry,
    and it is the only entry it may fill. *)
Lemma CheckQuota_cache tracker cache g node nd :
  cache !! Id g = nodeCache tracker !! Id g →
  (CheckQuota Capacity GetNodeResourceTargets (mkTracker (quotaStatuses tracker) cache) (Some g) node nd).2 =
    (CheckQuota Capacity GetNodeResourceTargets tracker (Some g) node nd).2 ∧
  ∃ cache', (CheckQuota Capacity GetNodeResourceTargets (mkTracker (quotaStatuses tracker) cache) (Some g) node nd).1 =
      mkTracker (quotaStatuses tracker) cache' ∧ ∀ id, id ≠ Id g → cache' !! id = cache !! id.
Proof.
  intros Hc. unfold CheckQuota, cached_totalNodeResources. cbn [nodeCache quotaStatuses]. rewrite Hc.
  destruct (nd <? 0); [by split; [|exists cache]|].
  destruct (nodeCache tracker !! Id g) as [m|]; [by split; [|exists cache]|].
  destruct (totalNodeResources _ _ _ _) as [m|e]; [|by split; [|exists cache]].
  split; [done|]. eexists. split; [done|]. intros id Hid. by rewrite lookup_insert_ne.
Qed.

Lemma skip_cache csr nodeInfos n now tracker cache g :
  cache !! Id g = nodeCache tracker !! Id g →
  (skip csr nodeInfos n now (mkTracker (quotaStatuses tracker) cache) g).2 = (skip csr nodeInfos n now tracker g).2 ∧
  ∃ cache', (skip csr nodeInfos n now (mkTracker (quotaStatuses tracker) cache) g).1 =
      mkTracker (quotaStatuses tracker) cache' ∧ ∀ id, id ≠ Id g → cache' !! id = cache !! id.
Proof.
  intros Hc. unfold skip_reason.
  destruct (IsNodeGroupReadyToScaleUp _ _ _ _ _ _ _); [by split; [|exists cache]|].
  destruct (TargetSize g) as [target|e]; [|by split; [|exists cache]].
  destruct (MaxSize g <=? target); [by split; [|exists cache]|].
  destruct (zero_or_max opts g && _ && _); [by split; [|exists cache]|].
  destruct (nodeInfos !! Id g) as [ni|]; [|by split; [|exists cache]].
  unfold IsNodeGroupResourceExceeded.
  destruct (CheckQuota_cache tracker cache g (ni_Node ni)
    (if zero_or_max opts g then MaxSize g - target else 1) Hc) as [Hr (cache' & Ht & Hids)].
  destruct (CheckQuota _ _ (mkTracker _ _) _ _ _) as [t1 r1], (CheckQuota _ _ tracker _ _ _) as [t2 r2].
  cbn [fst snd] in *. subst r2 t1. split; [by destruct r1|]. exists cache'. by destruct r1.
Qed.

Abbreviation filter_valid csr nodeInfos n now :=
  (filter_valid_step Capacity GetNodeResourceTargets aboveUnreadyPercentage OkTotalUnreadyCount env Exist
     quote opts csr nodeInfos n now).

Lemma filter_valid_loop csr nodeInfos n now tracker groups : ∀ cache acc skipped,
  NoDup (Id <$> groups) → (∀ g, g ∈ groups → cache !! Id g = nodeCache tracker !! Id g) →
  let '(tracker', valid, skipped') :=
    foldl (filter_valid csr nodeInfos n now) (mkTracker (quotaStatuses tracker) cache, acc, skipped) groups in
  quotaStatuses tracker' = quotaStatuses tracker ∧
  (∃ l, valid = acc ++ l ∧ sublist l groups ∧
     ∀ g, g ∈ l ↔ g ∈ groups ∧ (skip csr nodeInfos n now tracker g).2 = None) ∧
  (∀ id, id ∉ Id <$> groups → skipped' !! id = skipped !! id) ∧
  (∀ g, g ∈ groups → skipped' !! Id g =
    match (skip csr nodeInfos n now tracker g).2 with Some r => Some r | None => skipped !! Id g end).
Proof.
  induction groups as [|g groups IH]; intros cache acc skipped Hnd Hc; cbn [foldl].
  { split_and!; [done| |done|by intros g ?%not_elem_of_nil]. exists []. rewrite app_nil_r.
    split_and!; [done..|]. intros g. split; [by intros ?%not_elem_of_nil|by intros [?%not_elem_of_nil _]]. }
  apply NoDup_cons in Hnd as [Hni Hnd]. unfold filter_valid_step at 2.
  destruct (skip_cache csr nodeInfos n now tracker cache g) as [Hr (cache' & Ht & Hids)]; [apply Hc; left|].
  destruct (skip csr nodeInfos n now (mkTracker (quotaStatuses tracker) cache) g) as [t1 reason].
  cbn [fst snd] in *. subst t1 reason.
  assert (∀ g', g' ∈ groups → Id g' ≠ Id g) as Hne.
  { intros g' Hg' Heq. apply Hni. rewrite <- Heq. by apply list_elem_of_fmap_2. }
  assert (∀ g', g' ∈ groups → cache' !! Id g' = nodeCache tracker !! Id g') as Hc'.
  { intros g' Hg'. rewrite Hids by by apply Hne. apply Hc. by right. }
  destruct ((skip csr nodeInfos n now tracker g).2) as [r|] eqn:Hskip.
  - specialize (IH cache' acc (<[Id g := r]> skipped) Hnd Hc').
    destruct (foldl _ _ groups) as [[t' valid] skipped']. destruct IH as (Hq & (l & -> & Hsub & Hl) & Hout & Hin).
    split_and!; [done| | |].
    + exists l. split_and!; [done|by apply sublist_cons|]. intros g'. rewrite Hl, elem_of_cons.
      split; [intros []; tauto|]. intros [[->|?] Hn]; [congruence|done].
    + intros id [Hid1 Hid2]%not_elem_of_cons. rewrite Hout, lookup_insert_ne by done. done.
    + intros g' [->|Hg']%elem_of_cons; [rewrite Hskip, Hout by done; apply lookup_insert_eq|].
      rewrite Hin, lookup_insert_ne by (done || by apply not_eq_sym, Hne). done.
  - specialize (IH cache' (acc ++ [g]) skipped Hnd Hc').
    destruct (foldl _ _ groups) as [[t' valid] skipped']. destruct IH as (Hq & (l & -> & Hsub & Hl) & Hout & Hin).
    split_and!; [done| | |].
    + exists (g :: l). rewrite <- app_assoc. split_and!; [done|by apply sublist_skip|]. intros g'.
      rewrite !elem_of_cons, Hl. split; [intros [->|[]]; tauto|]. intros [[->|?] Hn]; tauto.
    + intros id [Hid1 Hid2]%not_elem_of_cons. by apply Hout.
    + intros g' [->|Hg']%elem_of_cons; [by rewrite Hskip, Hout|by apply Hin].
Qed.

Lemma filterValid_spec csr nodeGroups nodeInfos tracker n now :
  NoDup (Id <$> nodeGroups) →
  let '(tracker', valid, skipped) :=
    filterValidScaleUpNodeGroups Capacity GetNodeResourceTargets aboveUnreadyPercentage OkTotalUnreadyCount env
      Exist quote opts csr nodeGroups nodeInfos tracker n now in
  quotaStatuses tracker' = quotaStatuses tracker ∧ sublist valid nodeGroups ∧
  (∀ g, g ∈ valid ↔ g ∈ nodeGroups ∧ may_grow csr nodeInfos n now tracker g) ∧
  (∀ g, g ∈ nodeGroups → skipped !! Id g = (skip csr nodeInfos n now tracker g).2) ∧
  (∀ id, id ∉ Id <$> nodeGroups → skipped !! id = None).
Proof.
  intros Hnd. unfold filterValidScaleUpNodeGroups.
  pose proof (filter_valid_loop csr nodeInfos n now tracker nodeGroups (nodeCache tracker) [] ∅ Hnd (λ _ _, eq_refl)) as Hl.
  replace (mkTracker (quotaStatuses tracker) (nodeCache tracker)) with tracker in Hl by by destruct tracker.
  destruct (foldl _ _ nodeGroups) as [[t' valid] skipped]. destruct Hl as (Hq & (l & -> & Hsub & Hiff) & Hout & Hin).
  cbn [app]. split_and!; [done..| | |done].
  - intros g. by rewrite Hiff, skip_None.
  - intros g Hg. rewrite Hin by done. rewrite lookup_empty. by destruct (_.2).
Qed.

(** A node group is considered for the scale-up exactly when it may grow;
    every other one is skipped with the first reason that applies, and nothing
    else is. Asking the quotas consumes nothing. *)
Theorem valid_groups_exact csr nodeGroups nodeInfos tracker n now :
  NoDup (Id <$> nodeGroups) →
  let '(tracker', valid, skipped) :=
    filterValidScaleUpNodeGroups Capacity GetNodeResourceTargets aboveUnreadyPercentage OkTotalUnreadyCount env
      Exist quote opts csr nodeGroups nodeInfos tracker n now in
  quotaStatuses tracker' = quotaStatuses tracker ∧ sublist valid nodeGroups ∧
  (∀ g, g ∈ valid ↔ g ∈ nodeGroups ∧ may_grow csr nodeInfos n now tracker g) ∧
  (∀ g, g ∈ nodeGroups → skipped !! Id g = (skip csr nodeInfos n now tracker g).2) ∧
  (∀ id, id ∉ Id <$> nodeGroups → skipped !! id = None).
Proof. apply filterValid_spec. Qed.
End group_proofs.
