(* ===== verification/Orchestrator.v ===== *)
(** The scale-up orchestrator (src/pkg/core/scaleup/orchestrator/orchestrator.go):
    from pods that do not fit to node groups that were asked to grow. It
    composes the pod groups, the estimator, the expanders, the balancing, the
    quotas, the cluster state and the executor. *)
From stdpp Require Import prelude gmap strings list numbers fin_maps.
From S2P Require Import Prelude Errors Api Backoff Quotas Drain Framework ClusterSnapshot Balancing.
From S2P Require Import ClusterState Expanders ScaleUpExecutor ScaleUpPods ScaleUpGroups.
From S2P Require Estimator Equivalence.
Local Open Scope Z_scope.
Local Open Scope ca_scope.

(** ** The status of a scale-up *)

Inductive ScaleUpResult : Type :=
| ScaleUpSuccessful | ScaleUpError | ScaleUpNoOptionsAvailable | ScaleUpNotNeeded | ScaleUpNotTried
| ScaleUpInCooldown | ScaleUpLimitedByMaxNodesTotal.
#[export] Instance ScaleUpResult_eq_dec : EqDecision ScaleUpResult.
Proof. solve_decision. Defined.

(** [nodegroups.CreateNodeGroupResult]; a manager that succeeds answers a main
    group. *)
Record CreateNodeGroupResult : Type := mkCreated {
  MainCreatedNodeGroup : NodeGroup;
  ExtraCreatedNodeGroups : list NodeGroup
}.

Definition AllCreatedNodeGroups (r : CreateNodeGroupResult) : list NodeGroup :=
  MainCreatedNodeGroup r :: ExtraCreatedNodeGroups r.

Record ScaleUpStatus : Type := mkStatus {
  Result : ScaleUpResult;
  StatusError : option AutoscalerError;
  ScaleUpInfos : list ScaleUpInfo;
  PodsTriggeredScaleUp : list Pod;
  PodsRemainUnschedulable : list NoScaleUpInfo;
  PodsAwaitEvaluation : list Pod;
  CreateNodeGroupResults : list CreateNodeGroupResult;
  ConsideredNodeGroups : list NodeGroup;
  FailedCreationNodeGroups : list NodeGroup;
  FailedResizeNodeGroups : list NodeGroup
}.

Definition WasSuccessful (s : ScaleUpStatus) : bool := bool_decide (Result s = ScaleUpSuccessful).

(** [UpdateScaleUpError] of a status with these fields. *)
Definition error_status (err : AutoscalerError) (triggered : list Pod) (remain : list NoScaleUpInfo)
    (created : list CreateNodeGroupResult) (failedCreation failedResize : list NodeGroup) : ScaleUpStatus :=
  mkStatus ScaleUpError (Some err) [] triggered remain [] created [] failedCreation failedResize.

(** What a function that may stop the scale-up answers. *)
Inductive outcome (A : Type) : Type :=
| Go (a : A)
| Stop (status : ScaleUpStatus) (err : option AutoscalerError).
Arguments Go {A} a.
Arguments Stop {A} status err.

Section orchestrator.
Context {S Slice CSI : Type} `{SchedNodeInfo S} {T : Type} `{!ClusterSnapshot S Slice CSI T}.
Context `{GR : GoRange} `{SS : SortSlice} `{SB : SortSliceBy} {World Limiter : Type}.
Abbreviation NI := (NodeInfo S Slice CSI).
Context (Capacity : Node → string → option Z)
  (GetNodeResourceTargets : Node → option NodeGroup → result cp_error (list (string * Z)))
  (aboveUnreadyPercentage : Z → Z → bool) (OkTotalUnreadyCount : Z) (env : World → ClusterEnv)
  (Exist : NodeGroup → bool) (Comparator : NI → NI → bool) (quote : string → string) (opts : ScaleUpOptions).
(** The cloud provider and the clock. *)
Context (IncreaseSize AtomicIncreaseSize : World → NodeGroup → Z → World * option go_error) (Now : World → Z).
(** The estimator that the builder makes, and the strategy of the expanders. *)
Context (Estimate : Estimator.EstimationContext → T → list Peg → NI → NodeGroup → T * (Z * list Pod))
  (BestOption : list Option → gmap string NI → option Option).
(** The manager of node groups, the node info of their templates, and the list
    processor, which may be missing. *)
Context (CreateNodeGroup CreateNodeGroupAsync : World → NodeGroup → World * result AutoscalerError CreateNodeGroupResult)
  (SanitizedTemplateNodeInfoFromNodeGroup : World → NodeGroup → result AutoscalerError NI)
  (Process : option (list NodeGroup → gmap string NI → list Pod → list NodeGroup * gmap string NI * option go_error)).
(** The bin-packing limiter. *)
Context (InitBinpacking : Limiter → list NodeGroup → Limiter) (MarkProcessed : Limiter → string → Limiter)
  (StopBinpacking : Limiter → list Option → Limiter * bool) (FinalizeBinpacking : Limiter → list Option → Limiter).

(** What the orchestrator reads and changes: the world, the snapshot, the pod
    groups, the node infos (one map for the whole scale-up), the registry, the
    tracker and the limiter. *)
Record su_state : Type := mkSu {
  su_world : World; su_snap : T; su_groups : list PodGroup; su_infos : gmap string NI;
  su_csr : ClusterStateRegistry; su_tracker : Tracker; su_limiter : Limiter
}.
Implicit Types (st : su_state) (nodeGroup : NodeGroup) (spg : gmap string (list Peg)).

Definition set_snap st snap := mkSu (su_world st) snap (su_groups st) (su_infos st) (su_csr st) (su_tracker st) (su_limiter st).
Definition set_groups st egs := mkSu (su_world st) (su_snap st) egs (su_infos st) (su_csr st) (su_tracker st) (su_limiter st).
Definition set_infos st infos := mkSu (su_world st) (su_snap st) (su_groups st) infos (su_csr st) (su_tracker st) (su_limiter st).
Definition set_csr st csr := mkSu (su_world st) (su_snap st) (su_groups st) (su_infos st) csr (su_tracker st) (su_limiter st).
Definition set_tracker st t := mkSu (su_world st) (su_snap st) (su_groups st) (su_infos st) (su_csr st) t (su_limiter st).
Definition set_limiter st l := mkSu (su_world st) (su_snap st) (su_groups st) (su_infos st) (su_csr st) (su_tracker st) l.
Definition set_world st w := mkSu w (su_snap st) (su_groups st) (su_infos st) (su_csr st) (su_tracker st) (su_limiter st).

(** The arguments that do not change. *)
Record scaleUpCtx : Type := mkCtx {
  ctx_nodes : list Node;
  ctx_podCount : Z;  (* len(unschedulablePods) *)
  ctx_allOrNothing : bool;
  ctx_now : Z;
  ctx_skipped : gmap string Reasons
}.
Implicit Types (ctx : scaleUpCtx).

(** ** The pods that remain *)

(** [GetRemainingPods] on the state; [None] is its panic. *)
Definition remaining st (nodeGroups : list NodeGroup) (skipped : gmap string Reasons)
    : option (su_state * list NoScaleUpInfo) :=
  match GetRemainingPods (ScaleUpSimulationForSkippedNodeGroupsEnabled opts) (su_snap st) (su_groups st)
          nodeGroups skipped (su_infos st) with
  | None => None
  | Some (snap, remain) => Some (set_snap st snap, remain)
  end.

(** The scale-up stops: every group of pods is marked, and reported. *)
Definition stop_error {A} st (nodeGroups : list NodeGroup) (skipped : gmap string Reasons) (err : AutoscalerError)
    (triggered : list Pod) (created : list CreateNodeGroupResult) : option (su_state * outcome A) :=
  let st := set_groups st (markAllGroupsAsUnschedulable (su_groups st) ScaleUpExecutionErrorReason) in
  match remaining st nodeGroups skipped with
  | None => None
  | Some (st, remain) => Some (st, Stop (error_status err triggered remain created [] []) (Some err))
  end.

Definition noOptionsAvailableStatus {A} st (nodeGroups : list NodeGroup) ctx : option (su_state * outcome A) :=
  match remaining st nodeGroups (ctx_skipped ctx) with
  | None => None
  | Some (st, remain) =>
      Some (st, Stop (mkStatus ScaleUpNoOptionsAvailable None [] [] remain [] [] nodeGroups [] []) None)
  end.

Definition abortAllOrNothing {A} st (nodeGroups : list NodeGroup) ctx : option (su_state * outcome A) :=
  noOptionsAvailableStatus (set_groups st (markAllGroupsAsUnschedulable (su_groups st) AllOrNothingReason))
    nodeGroups ctx.

(** ** Expansion options *)

Definition similar st nodeGroup spg (now : Z) : list NodeGroup :=
  ComputeSimilarNodeGroups aboveUnreadyPercentage OkTotalUnreadyCount (env (su_world st)) Exist Comparator opts
    (su_csr st) nodeGroup (su_infos st) spg now.

(** The node info is that of the group: only groups with pods reach it, and those
    were simulated on it. *)
Definition ComputeExpansionOption st ctx nodeGroup spg : su_state * Option :=
  match default [] (spg !! Id nodeGroup), su_infos st !! Id nodeGroup with
  | [], _ | _, None => (st, mkOption nodeGroup [] 0 "" [])
  | podGroups, Some nodeInfo =>
      let similarNodeGroups := similar st nodeGroup spg (ctx_now ctx) in
      let '(snap, (nodeCount, pods)) :=
        Estimate (Estimator.mkEstimationContext similarNodeGroups (MaxNodesTotal opts) ⟪ ctx_nodes ctx ⟫)
          (su_snap st) podGroups nodeInfo nodeGroup in
      let st := set_snap st snap in
      if zero_or_max opts nodeGroup then
        let '(nodeCount, pods) :=
          if ctx_allOrNothing ctx && (MaxSize nodeGroup <? nodeCount) then (0, []) else (nodeCount, pods) in
        (st, mkOption nodeGroup similarNodeGroups (if 0 <? nodeCount then MaxSize nodeGroup else nodeCount) "" pods)
      else (st, mkOption nodeGroup similarNodeGroups nodeCount "" pods)
  end.

(** The first loop of [prepareScaleUp]; a missing node info is a nil pointer. *)
Fixpoint schedulable_groups st (validNodeGroups : list NodeGroup) spg : option (su_state * gmap string (list Peg)) :=
  match validNodeGroups with
  | [] => Some (st, spg)
  | nodeGroup :: validNodeGroups =>
      match su_infos st !! Id nodeGroup with
      | None => None
      | Some nodeInfo =>
          match SchedulablePodGroups (su_snap st) (su_groups st) nodeGroup nodeInfo with
          | None => None
          | Some (snap, egs, pegs) =>
              schedulable_groups (set_groups (set_snap st snap) egs) validNodeGroups (<[Id nodeGroup := pegs]> spg)
          end
      end
  end.

(** The second loop. *)
Fixpoint expansion_options st ctx (validNodeGroups : list NodeGroup) spg (options : list Option)
    : su_state * list Option :=
  match validNodeGroups with
  | [] => (st, options)
  | nodeGroup :: validNodeGroups =>
      let '(st, option) := ComputeExpansionOption st ctx nodeGroup spg in
      let st := set_limiter st (MarkProcessed (su_limiter st) (Id nodeGroup)) in
      let options :=
        if (⟪ OptPods option ⟫ =? 0) || (NodeCount option =? 0) then options
        else if ctx_allOrNothing ctx && (⟪ OptPods option ⟫ <? ctx_podCount ctx) then options
        else options ++ [option] in
      let '(limiter, stop) := StopBinpacking (su_limiter st) options in
      let st := set_limiter st limiter in
      if stop : bool then (st, options) else expansion_options st ctx validNodeGroups spg options
  end.

(** ** New node groups *)

(** One extra group, created with the main one. *)
Definition extra_step (st_spg : su_state * gmap string (list Peg)) nodeGroup
    : option (su_state * gmap string (list Peg)) :=
  let '(st, spg) := st_spg in
  match SanitizedTemplateNodeInfoFromNodeGroup (su_world st) nodeGroup with
  | Err _ => Some (st, spg)
  | Ok nodeInfo =>
      let st := set_infos st (<[Id nodeGroup := nodeInfo]> (su_infos st)) in
      match SchedulablePodGroups (su_snap st) (su_groups st) nodeGroup nodeInfo with
      | None => None
      | Some (snap, egs, pegs) => Some (set_groups (set_snap st snap) egs, <[Id nodeGroup := pegs]> spg)
      end
  end.

Fixpoint extra_loop st spg (extra : list NodeGroup) : option (su_state * gmap string (list Peg)) :=
  match extra with
  | [] => Some (st, spg)
  | nodeGroup :: extra =>
      match extra_step (st, spg) nodeGroup with
      | None => None
      | Some (st, spg) => extra_loop st spg extra
      end
  end.

(** The node info of the created main group: that of its template, or else that
    of the candidate, which leaves the map of its old name. *)
Definition adopt_main st spg (initialOptionId : string) (result : CreateNodeGroupResult)
    : option (su_state * gmap string (list Peg)) :=
  let main := MainCreatedNodeGroup result in
  let newId := Id main in
  let template := SanitizedTemplateNodeInfoFromNodeGroup (su_world st) main in
  let infos := match template, su_infos st !! initialOptionId with
               | Ok nodeInfo, _ => <[newId := nodeInfo]> (su_infos st)
               | Err _, Some old => <[newId := old]> (su_infos st)
               | Err _, None => su_infos st
               end in
  let st := set_infos st infos in
  let spg := <[newId := default [] (spg !! initialOptionId)]> spg in
  let simulated :=
    match template with
    | Ok nodeInfo =>
        if 0 <? ⟪ ExtraCreatedNodeGroups result ⟫ then
          let egs := deletePodEquivalenceGroupsId (su_groups st) initialOptionId in
          match SchedulablePodGroups (su_snap st) egs main nodeInfo with
          | None => None
          | Some (snap, egs, pegs) => Some (set_groups (set_snap st snap) egs, <[newId := pegs]> spg)
          end
        else Some (set_groups st (patchPodEquivalenceGroupsId (su_groups st) initialOptionId newId), spg)
    | Err _ => Some (set_groups st (patchPodEquivalenceGroupsId (su_groups st) initialOptionId newId), spg)
    end in
  match simulated with
  | None => None
  | Some (st, spg) =>
      if bool_decide (initialOptionId = newId) then Some (st, spg)
      else Some (set_infos st (delete initialOptionId (su_infos st)), delete initialOptionId spg)
  end.

(** The option's node group becomes the created one. *)
Definition processCreateNodeGroupResult st spg (initialOption : Option)
    (res : result AutoscalerError CreateNodeGroupResult)
    : option (su_state * outcome (gmap string (list Peg) * Option * list CreateNodeGroupResult)) :=
  let initialOptionId := Id (OptNodeGroup initialOption) in
  match res with
  | Err aErr =>
      Some (st, Stop (error_status aErr (OptPods initialOption) [] [] [OptNodeGroup initialOption] []) (Some aErr))
  | Ok result =>
      let initialOption := mkOption (MainCreatedNodeGroup result) (OptSimilarNodeGroups initialOption)
                             (NodeCount initialOption) (OptDebug initialOption) (OptPods initialOption) in
      match adopt_main st spg initialOptionId result with
      | None => None
      | Some (st, spg) =>
          match extra_loop st spg (ExtraCreatedNodeGroups result) with
          | None => None
          | Some (st, spg) =>
              Some (set_csr st (Recalculate (env (su_world st)) (su_csr st)), Go (spg, initialOption, [result]))
          end
      end
  end.

Definition create_node_group st spg (option : Option)
    : Datatypes.option (su_state * outcome (gmap string (list Peg) * Option * list CreateNodeGroupResult)) :=
  let '(w, res) := (if AsyncNodeGroupsEnabled opts then CreateNodeGroupAsync else CreateNodeGroup)
                     (su_world st) (OptNodeGroup option) in
  processCreateNodeGroupResult (set_world st w) spg option res.

Definition appendCreatedNodeGroups (nodeGroups : list NodeGroup) (bestOptionNodeGroupId : string)
    (results : list CreateNodeGroupResult) : list NodeGroup :=
  foldl (λ nodeGroups result,
    foldl (λ nodeGroups ng,
      if bool_decide (Id ng = bestOptionNodeGroupId) then nodeGroups else nodeGroups ++ [ng])
      nodeGroups (AllCreatedNodeGroups result)) nodeGroups results.

(** ** The plan *)

Record scaleUpPlan : Type := mkPlan {
  plan_scaleUpInfos : list ScaleUpInfo;
  plan_createNodeGroupResults : list CreateNodeGroupResult;
  plan_bestOption : Option;
  plan_nodeGroups : list NodeGroup
}.

(** The number of new nodes within the cluster's limit and the quotas of the
    group. *)
Definition capped_nodes st ctx (bestOption : Option) : su_state * result AutoscalerError Z :=
  match GetCappedNewNodeCount opts (NodeCount bestOption) ⟪ ctx_nodes ctx ⟫ with
  | (_, Some aErr) => (st, Err aErr)
  | (newNodes, None) =>
      let '(tracker, res) := applyLimits Capacity GetNodeResourceTargets newNodes (su_tracker st)
                               (OptNodeGroup bestOption) (su_infos st) in
      (set_tracker st tracker, res)
  end.

Definition total_increase (infos : list ScaleUpInfo) : Z :=
  foldl (λ total sui, total + (NewSize sui - CurrentSize sui)) 0 infos.

(** From the new nodes to the plan: balance them, and check that they are all
    there if it is all or nothing. *)
Definition finish_plan st ctx (bestOption : Option) (newNodes : Z) spg (created : list CreateNodeGroupResult)
    (nodeGroups : list NodeGroup) : option (su_state * outcome scaleUpPlan) :=
  match balanceScaleUps Capacity GetNodeResourceTargets aboveUnreadyPercentage OkTotalUnreadyCount
          (env (su_world st)) Exist Comparator quote opts (su_csr st) (ctx_now ctx) (OptNodeGroup bestOption)
          newNodes (su_infos st) spg (su_tracker st) with
  | None => None
  | Some (tracker, Err aErr) =>
      stop_error (set_tracker st tracker) nodeGroups (ctx_skipped ctx) aErr (OptPods bestOption) created
  | Some (tracker, Ok scaleUpInfos) =>
      let st := set_tracker st tracker in
      if (total_increase scaleUpInfos <? newNodes) && ctx_allOrNothing ctx
      then abortAllOrNothing st nodeGroups ctx
      else Some (st, Go (mkPlan scaleUpInfos created bestOption nodeGroups))
  end.

(** The best option is grown: its group may have to be created first. *)
Definition plan_option st ctx (nodeGroups : list NodeGroup) spg (bestOption : Option)
    : option (su_state * outcome scaleUpPlan) :=
  match capped_nodes st ctx bestOption with
  | (st, Err aErr) => stop_error st nodeGroups (ctx_skipped ctx) aErr (OptPods bestOption) []
  | (st, Ok newNodes) =>
      if (newNodes <? NodeCount bestOption) && ctx_allOrNothing ctx then abortAllOrNothing st nodeGroups ctx
      else
        let oldId := Id (OptNodeGroup bestOption) in
        if negb (Exist (OptNodeGroup bestOption)) && negb (IsUpcoming (env (su_world st)) (OptNodeGroup bestOption)) then
          if ctx_allOrNothing ctx && (MaxSize (OptNodeGroup bestOption) <? newNodes)
          then abortAllOrNothing st nodeGroups ctx
          else match create_node_group st spg bestOption with
          | None => None
          | Some (st, Stop status aErr) => Some (st, Stop status aErr)
          | Some (st, Go (spg, bestOption, created)) =>
              finish_plan st ctx bestOption newNodes spg created (appendCreatedNodeGroups nodeGroups oldId created)
          end
        else finish_plan st ctx bestOption newNodes spg [] nodeGroups
  end.

Definition prepareScaleUp st ctx (validNodeGroups nodeGroups : list NodeGroup)
    : option (su_state * outcome scaleUpPlan) :=
  match schedulable_groups st validNodeGroups ∅ with
  | None => None
  | Some (st, spg) =>
      let '(st, options) := expansion_options st ctx validNodeGroups spg [] in
      let st := set_limiter st (FinalizeBinpacking (su_limiter st) options) in
      match options with
      | [] => noOptionsAvailableStatus st nodeGroups ctx
      | _ =>
          match BestOption options (su_infos st) with
          | None =>
              noOptionsAvailableStatus
                (set_groups st (markAllGroupsAsUnschedulable (su_groups st) ExpansionOptionsFilteredOutReason))
                nodeGroups ctx
          | Some bestOption =>
              if NodeCount bestOption <=? 0 then
                noOptionsAvailableStatus
                  (set_groups st (markAllGroupsAsUnschedulable (su_groups st) ExpansionOptionsFilteredOutReason))
                  nodeGroups ctx
              else plan_option st ctx nodeGroups spg bestOption
          end
      end
  end.

(** ** Scaling up *)

Definition UpcomingNodes st : result AutoscalerError (list NI) :=
  let upcomingCounts := (GetUpcomingNodes (env (su_world st)) (su_csr st) (λ _, Now (su_world st))).1 in
  match fold_err (λ upcomingNodes kn,
          match su_infos st !! kn.1 with
          | None => (upcomingNodes, Some (NewAutoscalerError InternalError
                       ("failed to find template node for node group " +:+ kn.1)))
          | Some nodeTemplate => (upcomingNodes ++ replicate (Z.to_nat kn.2) nodeTemplate, None)
          end) (go_range upcomingCounts) [] with
  | (_, Some aErr) => Err aErr
  | (upcomingNodes, None) => Ok upcomingNodes
  end.

(** The quotas of the provider, the nodes they leave out, and the groups of nodes. *)
Context (quotas : result cp_error (list Quota)) (excluded : Node → bool)
  (NodeGroupForNode : Node → result cp_error (option NodeGroup)).

Definition NewQuotasTracker (nodes : list Node) : result go_error Tracker :=
  match quotas with
  | Err e => Err (cp_go_error e)
  | Ok qs =>
      match newQuotasTracker Capacity GetNodeResourceTargets excluded NodeGroupForNode qs nodes false with
      | Err e => Err (quota_go_error e)
      | Ok tracker => Ok tracker
      end
  end.

(** The list processor may replace the node groups and the node infos, even when
    it fails. *)
Definition run_list_processor st (nodeGroups : list NodeGroup) (pods : list Pod)
    : su_state * list NodeGroup * option go_error :=
  match Process with
  | None => (st, nodeGroups, None)
  | Some process =>
      let '(nodeGroups, nodeInfos, err) := process nodeGroups (su_infos st) pods in
      (set_infos st nodeInfos, nodeGroups, err)
  end.

(** The plan is carried out and reported. *)
Definition execute_plan st ctx (schedule : list nat) (plan : scaleUpPlan)
    : option (su_state * (ScaleUpStatus * option AutoscalerError)) :=
  match ExecuteScaleUps IncreaseSize AtomicIncreaseSize Now env Exist quote (ParallelScaleUp opts) schedule
          (su_world st) (su_csr st) (plan_scaleUpInfos plan) (su_infos st) (ctx_now ctx) (ctx_allOrNothing ctx) with
  | None => None
  | Some (w, csr, Some aErr, failedNodeGroups) =>
      let st := set_csr (set_world st w) csr in
      let failedGroupsMap := buildFailedGroupsMap (ParallelScaleUp opts) failedNodeGroups (plan_scaleUpInfos plan) in
      let st := set_groups st
        (markFailedGroupsAsUnschedulable (su_groups st) failedGroupsMap ScaleUpExecutionErrorReason) in
      match remaining st (plan_nodeGroups plan) (ctx_skipped ctx) with
      | None => None
      | Some (st, remain) =>
          Some (st, (error_status aErr (OptPods (plan_bestOption plan)) remain (plan_createNodeGroupResults plan) []
                       failedNodeGroups, Some aErr))
      end
  | Some (w, csr, None, _) =>
      let st := set_csr (set_world st w) (Recalculate (env w) csr) in
      match remaining st (plan_nodeGroups plan) (ctx_skipped ctx) with
      | None => None
      | Some (st, remain) =>
          Some (st, (mkStatus ScaleUpSuccessful None (plan_scaleUpInfos plan) (OptPods (plan_bestOption plan)) remain
                       (GetPodsAwaitingEvaluation (su_groups st) (Id (OptNodeGroup (plan_bestOption plan))))
                       (plan_createNodeGroupResults plan) (plan_nodeGroups plan) [] [], None))
      end
  end.

(** The valid node groups are planned for, and the plan is carried out. *)
Definition scale_up_valid st (nodes : list Node) (podCount : Z) (allOrNothing : bool) (schedule : list nat)
    (nodeGroups : list NodeGroup) : option (su_state * (ScaleUpStatus * option AutoscalerError)) :=
  let now := Now (su_world st) in
  let '(tracker, validNodeGroups, skippedNodeGroups) :=
    filterValidScaleUpNodeGroups Capacity GetNodeResourceTargets aboveUnreadyPercentage OkTotalUnreadyCount
      (env (su_world st)) Exist quote opts (su_csr st) nodeGroups (su_infos st) (su_tracker st) ⟪ nodes ⟫ now in
  let st := set_tracker st tracker in
  let st := set_limiter st (foldl (λ l kr, MarkProcessed l kr.1) (su_limiter st) (go_range skippedNodeGroups)) in
  let ctx := mkCtx nodes podCount allOrNothing now skippedNodeGroups in
  match prepareScaleUp st ctx validNodeGroups nodeGroups with
  | None => None
  | Some (st, Stop status aErr) => Some (st, (status, aErr))
  | Some (st, Go plan) => execute_plan st ctx schedule plan
  end.

(** An error before the plan: no group of pods is schedulable yet, and no node
    group is skipped. *)
Definition early_error st (nodeGroups : list NodeGroup) (aErr : AutoscalerError)
    : option (su_state * (ScaleUpStatus * option AutoscalerError)) :=
  match stop_error (A := unit) st nodeGroups ∅ aErr [] [] with
  | Some (st, Stop status aErr) => Some (st, (status, aErr))
  | _ => None
  end.

Definition not_initialized : ScaleUpStatus * option AutoscalerError :=
  let err := NewAutoscalerError InternalError "ScaleUpOrchestrator is not initialized" in
  (error_status err [] [] [] [] [], Some err).

(** [ScaleUp], from the groups of equivalent pods on. [None] is a panic, or a
    schedule that ends before the goroutines of the executor do. *)
Definition scale_up_groups st (unschedulablePods : list Pod) (nodes : list Node) (allOrNothing : bool)
    (schedule : list nat) : option (su_state * (ScaleUpStatus * option AutoscalerError)) :=
  let nodeGroups := NodeGroups (env (su_world st)) in
  match UpcomingNodes st with
  | Err aErr => early_error st nodeGroups (AddPrefix aErr "could not get upcoming nodes: ")
  | Ok _ =>
      match run_list_processor st nodeGroups unschedulablePods with
      | (st, nodeGroups, Some err) => early_error st nodeGroups (typed_error InternalError err)
      | (st, nodeGroups, None) =>
          let st := set_limiter st (InitBinpacking (su_limiter st) nodeGroups) in
          match NewQuotasTracker nodes with
          | Err err =>
              early_error st nodeGroups
                (AddPrefix (typed_error InternalError err) "could not create quotas tracker: ")
          | Ok tracker =>
              scale_up_valid (set_tracker st tracker) nodes ⟪ unschedulablePods ⟫ allOrNothing schedule nodeGroups
          end
      end
  end.

(** ** Up to the minimal sizes *)

(** The scale-up of one node group below its minimal size, if it can be made. *)
Definition min_size_info st (now : Z) (nodeInfos : gmap string NI) tracker (ng : NodeGroup)
    : Tracker * option ScaleUpInfo :=
  if negb (Exist ng) then (tracker, None)
  else match TargetSize ng with
  | Err _ => (tracker, None)
  | Ok targetSize =>
      if MinSize ng <=? targetSize then (tracker, None)
      else match IsNodeGroupReadyToScaleUp aboveUnreadyPercentage OkTotalUnreadyCount (env (su_world st)) Exist
                   (su_csr st) ng now with
      | Some _ => (tracker, None)
      | None =>
          match nodeInfos !! Id ng with
          | None => (tracker, None)
          | Some nodeInfo =>
              match IsNodeGroupResourceExceeded Capacity GetNodeResourceTargets quote tracker ng nodeInfo 1 with
              | (tracker, Some _) => (tracker, None)
              | (tracker, None) =>
                  match CheckQuota Capacity GetNodeResourceTargets tracker (Some ng) (ni_Node nodeInfo)
                          (MinSize ng - targetSize) with
                  | (tracker, Err _) => (tracker, None)
                  | (tracker, Ok checkResult) =>
                      match GetCappedNewNodeCount opts (AllowedDelta checkResult) targetSize with
                      | (_, Some _) => (tracker, None)
                      | (newNodeCount, None) =>
                          (tracker, Some (mkScaleUp ng targetSize (targetSize + newNodeCount) (MaxSize ng)))
                      end
                  end
              end
          end
      end
  end.

Definition min_size_infos st (now : Z) (nodeInfos : gmap string NI) tracker (nodeGroups : list NodeGroup)
    : Tracker * list ScaleUpInfo :=
  foldl (λ acc ng,
    let '(tracker, infos) := acc in
    match min_size_info st now nodeInfos tracker ng with
    | (tracker, Some info) => (tracker, infos ++ [info])
    | (tracker, None) => (tracker, infos)
    end) (tracker, []) nodeGroups.

Definition ScaleUpToNodeGroupMinSize (initialized : bool) st (nodes : list Node) (nodeInfos : gmap string NI)
    (schedule : list nat) : option (su_state * (ScaleUpStatus * option AutoscalerError)) :=
  if negb initialized then Some (st, not_initialized)
  else
    let now := Now (su_world st) in
    let nodeGroups := NodeGroups (env (su_world st)) in
    match NewQuotasTracker nodes with
    | Err err =>
        let aErr := AddPrefix (typed_error InternalError err) "could not create quotas tracker: " in
        Some (st, (error_status aErr [] [] [] [] [], Some aErr))
    | Ok tracker =>
        let '(tracker, scaleUpInfos) := min_size_infos st now nodeInfos tracker nodeGroups in
        let st := set_tracker st tracker in
        match scaleUpInfos with
        | [] => Some (st, (mkStatus ScaleUpNotNeeded None [] [] [] [] [] [] [] [], None))
        | _ =>
            match ExecuteScaleUps IncreaseSize AtomicIncreaseSize Now env Exist quote (ParallelScaleUp opts) schedule
                    (su_world st) (su_csr st) scaleUpInfos nodeInfos now false with
            | None => None
            | Some (w, csr, Some aErr, failedNodeGroups) =>
                Some (set_csr (set_world st w) csr, (error_status aErr [] [] [] [] failedNodeGroups, Some aErr))
            | Some (w, csr, None, _) =>
                Some (set_csr (set_world st w) (Recalculate (env w) csr),
                      (mkStatus ScaleUpSuccessful None scaleUpInfos [] [] [] [] nodeGroups [] [], None))
            end
        end
    end.

(** ** From the pods *)

(** [ScaleUp]: the pods are grouped first; [view] is what the scheduler sees of a
    pod, [h] the store of its containers. *)
Section pods.
Context {EnvVar MountData VolumeData ContainerData SpecData : Type}.
Abbreviation EPod := (Equivalence.Pod (VolumeData := VolumeData) (SpecData := SpecData)).
Abbreviation EContainer := (Equivalence.Container (EnvVar := EnvVar) (MountData := MountData)
  (ContainerData := ContainerData)).
Abbreviation EValue := (Equivalence.SpecValue (EnvVar := EnvVar) (MountData := MountData) (VolumeData := VolumeData)
  (ContainerData := ContainerData) (SpecData := SpecData)).
Context (DeepEqual : EValue → EValue → bool) (view : EPod → Pod).

Definition of_equivalence (eg : Equivalence.PodGroup (Reasons := Reasons)) : PodGroup :=
  mkPodGroup (view <$> Equivalence.GroupPods eg) (Equivalence.SchedulingErrors eg)
    (default [] (Equivalence.SchedulableGroups eg)) (Equivalence.Schedulable eg).

Definition ScaleUp (initialized : bool) (h : gmap nat (list EContainer)) st
    (unschedulablePods : list EPod) (nodes : list Node) (nodeInfos : gmap string NI) (allOrNothing : bool)
    (schedule : list nat)
    : gmap nat (list EContainer) * option (su_state * (ScaleUpStatus * option AutoscalerError)) :=
  if negb initialized then (h, Some (st, not_initialized))
  else
    let '(h, podEquivalenceGroups) := Equivalence.BuildPodGroups DeepEqual h unschedulablePods in
    let st := set_infos (set_groups st (of_equivalence <$> podEquivalenceGroups)) nodeInfos in
    (h, scale_up_groups st (view <$> unschedulablePods) nodes allOrNothing schedule).
End pods.
End orchestrator.
