(* ===== verification/OrchestratorProofs.v ===== *)
(** Proofs about the scale-up orchestrator: the simulations leave the snapshot
    and the pods alone, the scale-up always answers, what it plans stays within
    every limit, and what it reports of the pods is exact. *)
From stdpp Require Import prelude gmap strings list numbers fin_maps.
From S2P Require Import Prelude Float64 Errors Api Backoff Quotas Drain Framework SnapshotSpec ClusterSnapshot Balancing.
From S2P Require Import ClusterState Expanders ScaleUpExecutor ScaleUpPods ScaleUpGroups Orchestrator.
From S2P Require Estimator Equivalence.
Local Open Scope Z_scope.
Local Open Scope ca_scope.

(** ** Groups of pods *)

(** The reports about a group change, its pods do not. *)
Definition same_pods (egs egs' : list PodGroup) : Prop := GroupPods <$> egs = GroupPods <$> egs'.
#[export] Instance same_pods_equivalence : Equivalence same_pods.
Proof. unfold same_pods. split; repeat intro; congruence. Qed.

Definition groups_ok (egs : list PodGroup) : Prop := Forall (λ eg, GroupPods eg ≠ []) egs.

Lemma groups_ok_pods egs : groups_ok egs ↔ Forall (λ l, l ≠ []) (GroupPods <$> egs).
Proof. unfold groups_ok. by rewrite Forall_fmap. Qed.

#[export] Instance groups_ok_proper : Proper (same_pods ==> iff) groups_ok.
Proof. intros egs egs' Hs. rewrite !groups_ok_pods. by rewrite Hs. Qed.

Lemma same_pods_fmap f egs : (∀ eg, GroupPods (f eg) = GroupPods eg) → same_pods egs (f <$> egs).
Proof. intros Hf. unfold same_pods. rewrite <- list_fmap_compose. apply list_fmap_ext. intros i eg _. symmetry. apply Hf. Qed.

Lemma mark_all_pods egs reason : same_pods egs (markAllGroupsAsUnschedulable egs reason).
Proof. apply same_pods_fmap. intros eg. unfold mark_all_step. by destruct (Schedulable eg). Qed.

Lemma mark_failed_pods egs failed reason : same_pods egs (markFailedGroupsAsUnschedulable egs failed reason).
Proof.
  apply same_pods_fmap. intros eg. unfold mark_failed_step. destruct (_ || _); [done|]. by destruct (foldl _ _ _).
Qed.

Lemma patch_pods egs oldId newId : same_pods egs (patchPodEquivalenceGroupsId egs oldId newId).
Proof. unfold patchPodEquivalenceGroupsId. case_bool_decide; [done|]. by apply same_pods_fmap. Qed.

Lemma delete_pods egs id : same_pods egs (deletePodEquivalenceGroupsId egs id).
Proof. by apply same_pods_fmap. Qed.

Lemma mark_all_unschedulable egs reason :
  Forall (λ eg, Schedulable eg = false) (markAllGroupsAsUnschedulable egs reason).
Proof.
  apply Forall_fmap, Forall_forall. intros eg _. unfold compose, mark_all_step.
  by destruct (Schedulable eg) eqn:Hs.
Qed.

(** The pods of the groups no node group can host. *)
Definition unschedulable_pods (egs : list PodGroup) : list Pod :=
  concat (GroupPods <$> filter (λ eg, Schedulable eg = false) egs).

Lemma concat_sublist {A} (ll ll' : list (list A)) : sublist ll ll' → concat ll ⊆+ concat ll'.
Proof.
  induction 1 as [|l ll ll' _ IH|l ll ll' _ IH]; simpl; [done|by apply submseteq_skips_l|by apply submseteq_inserts_l].
Qed.

Lemma submseteq_full {A} (l k : list A) : l ⊆+ k → (length k ≤ length l)%nat → l ≡ₚ k.
Proof. intros. by apply submseteq_length_Permutation. Qed.

Section snapshot.
Context {S Slice CSI : Type} `{SchedNodeInfo S} {T : Type} `{!ClusterSnapshot S Slice CSI T} `{GR : GoRange}.
Abbreviation NI := (NodeInfo S Slice CSI).
Implicit Types (snap : T) (egs : list PodGroup) (nodeGroup : NodeGroup) (nodeInfo : NI).

(** The snapshot shows what it did, and every fork is undone. *)
Definition restored snap snap' : Prop :=
  snap_ok snap → snap_ok snap' ∧ snap_nodes snap' = snap_nodes snap ∧ snap_saved snap' = snap_saved snap.

#[export] Instance restored_preorder : PreOrder restored.
Proof.
  split; [by split|]. intros a b c Hab Hbc Ha. destruct (Hab Ha) as (Hb & Hn & Hs).
  destruct (Hbc Hb) as (Hc & Hn' & Hs'). split_and!; [done|congruence..].
Qed.

(** Whatever is done under a fork that keeps the enclosing ones is undone. *)
Lemma forked_restored snap snap1 :
  (snap_ok (Fork snap) → snap_ok snap1 ∧ snap_saved snap1 = snap_saved (Fork snap)) → restored snap (Revert snap1).
Proof.
  intros Hin Hok. destruct (snap_fork snap Hok) as (Hfok & _ & Hsaved). destruct (Hin Hfok) as [H1ok H1s].
  rewrite Hsaved in H1s. by destruct (snap_revert _ _ _ H1ok H1s) as (? & ? & ?).
Qed.

Lemma schedulable_step_spec nodeGroup nodeInfo snap eg :
  GroupPods eg ≠ [] →
  ∃ snap' eg' peg, schedulable_step nodeGroup nodeInfo snap eg = Some (snap', eg', peg) ∧ restored snap snap' ∧
    GroupPods eg' = GroupPods eg ∧ (peg = None ∨ peg = Some (GroupPods eg)).
Proof.
  intros Hne. unfold schedulable_step. destruct (GroupPods eg) as [|pod pods] eqn:Hp; [done|].
  assert (restored snap (CheckPredicates snap pod (NodeName nodeInfo)).1) as Hres.
  { intros Hok. pose proof (snap_check snap pod (NodeName nodeInfo) Hok) as Hc.
    destruct (CheckPredicates _ _ _) as [snap' r]. destruct Hc as (? & ? & ?). by split_and!. }
  destruct (CheckPredicates snap pod (NodeName nodeInfo)) as [snap' [err|]]; eexists _, _, _;
    (split; [done|]); (split; [done|]); (split; [done|]); auto.
Qed.

Lemma schedulable_loop_spec nodeGroup nodeInfo egs : ∀ snap, groups_ok egs →
  ∃ snap' egs' pegs, schedulable_loop nodeGroup nodeInfo snap egs = Some (snap', egs', pegs) ∧
    restored snap snap' ∧ same_pods egs egs' ∧ sublist pegs (GroupPods <$> egs).
Proof.
  induction egs as [|eg egs IH]; intros snap Hg; cbn [schedulable_loop].
  { eexists _, _, _. split; [done|]. by split_and!; [|constructor|]. }
  apply Forall_cons in Hg as [He Hg].
  destruct (schedulable_step_spec nodeGroup nodeInfo snap eg He) as (snap1 & eg' & peg & -> & Hr1 & Hp & Hpeg).
  destruct (IH snap1 Hg) as (snap2 & egs' & pegs & -> & Hr2 & Hs & Hsub).
  eexists _, _, _. split; [done|]. split; [by transitivity snap1|]. split.
  - unfold same_pods in *. csimpl. by rewrite Hp, Hs.
  - csimpl. destruct Hpeg as [->| ->]; [by apply sublist_cons|by apply sublist_skip].
Qed.

(** Trying the pods on a template node never panics, leaves no trace in the
    snapshot, and only takes groups that it was given. *)
Lemma SchedulablePodGroups_spec snap egs nodeGroup nodeInfo : groups_ok egs →
  ∃ snap' egs' pegs, SchedulablePodGroups snap egs nodeGroup nodeInfo = Some (snap', egs', pegs) ∧
    restored snap snap' ∧ same_pods egs egs' ∧ sublist pegs (GroupPods <$> egs).
Proof.
  intros Hg. unfold SchedulablePodGroups.
  assert (snap_ok (Fork snap) → snap_ok (AddNodeInfo (Fork snap) nodeInfo).1 ∧
    snap_saved (AddNodeInfo (Fork snap) nodeInfo).1 = snap_saved (Fork snap)) as Hadd.
  { intros Hok. pose proof (snap_add (Fork snap) nodeInfo Hok) as Ha. destruct (AddNodeInfo _ _) as [t r].
    by destruct Ha as (? & ? & _). }
  destruct (AddNodeInfo (Fork snap) nodeInfo) as [snap1 [err|]]; cbn [fst] in Hadd.
  - eexists _, _, _. split; [done|]. split; [by apply forked_restored|]. split; [done|]. apply sublist_nil_l.
  - destruct (schedulable_loop_spec nodeGroup nodeInfo egs snap1 Hg) as (snap2 & egs' & pegs & -> & Hr & Hs & Hsub).
    eexists _, _, _. split; [done|]. split; [|done]. apply forked_restored. intros Hf.
    destruct (Hadd Hf) as [Hok1 Hs1]. destruct (Hr Hok1) as (? & _ & ?). split; [done|congruence].
Qed.

(** ** What remains *)

Lemma skipped_loop_spec (nodeInfos : gmap string NI) skipped nodeGroups : ∀ snap egs, groups_ok egs →
  ∃ snap' egs', skipped_loop nodeInfos skipped snap egs nodeGroups = Some (snap', egs') ∧ restored snap snap' ∧
    same_pods egs egs'.
Proof.
  induction nodeGroups as [|g nodeGroups IH]; intros snap egs Hg; cbn [skipped_loop].
  { eexists _, _. by split_and!. }
  destruct (skipped !! Id g); [|by apply IH]. destruct (nodeInfos !! Id g) as [ni|]; [|by apply IH].
  destruct (SchedulablePodGroups_spec snap egs g ni Hg) as (snap1 & egs1 & pegs & -> & Hr & Hs & _).
  destruct (IH snap1 egs1) as (snap2 & egs2 & -> & Hr2 & Hs2); [by rewrite <- Hs|].
  eexists _, _. split; [done|]. split; by etransitivity.
Qed.

Lemma no_scale_up_pods skipped eg : NoScaleUpPod <$> no_scale_up skipped eg = GroupPods eg.
Proof. unfold no_scale_up. rewrite <- list_fmap_compose. apply list_fmap_id. Qed.

Lemma foldl_remaining (f : PodGroup → list NoScaleUpInfo) egs : ∀ acc,
  foldl (λ remaining eg, remaining ++ f eg) acc egs = acc ++ concat (f <$> egs).
Proof.
  induction egs as [|eg egs IH]; intros acc; csimpl; [by rewrite app_nil_r|]. by rewrite IH, <- app_assoc.
Qed.

Lemma concat_fmap_fmap {A B} (f : A → B) (ll : list (list A)) : f <$> concat ll = concat ((λ l : list A, f <$> l) <$> ll).
Proof. induction ll as [|l ll IH]; csimpl; [done|]. by rewrite fmap_app, IH. Qed.

Lemma foldl_unschedulable skipped egs : ∀ acc,
  foldl (λ remaining eg, if Schedulable eg then remaining else remaining ++ no_scale_up (λ _, skipped) eg) acc egs =
  acc ++ concat (no_scale_up (λ _, skipped) <$> filter (λ eg, Schedulable eg = false) egs).
Proof.
  induction egs as [|eg egs IH]; intros acc; csimpl; [by rewrite app_nil_r|].
  rewrite IH, filter_cons. destruct (Schedulable eg); [by rewrite decide_False|].
  rewrite decide_True by done. csimpl. by rewrite <- app_assoc.
Qed.

Lemma foldl_clones egs : ∀ acc,
  foldl (λ l eg, if negb (Schedulable eg) then l ++ [PodGroup_Clone eg] else l) acc egs =
  acc ++ filter (λ eg, Schedulable eg = false) egs.
Proof.
  induction egs as [|eg egs IH]; intros acc; csimpl; [by rewrite app_nil_r|].
  rewrite IH, filter_cons. destruct eg as [pods errors groups b]. unfold PodGroup_Clone. cbn.
  destruct b; cbn; [by rewrite decide_False|]. rewrite decide_True by done. by rewrite <- app_assoc.
Qed.

Lemma no_scale_up_all skipped egs :
  NoScaleUpPod <$> concat (no_scale_up skipped <$> egs) = concat (GroupPods <$> egs).
Proof.
  rewrite concat_fmap_fmap, <- list_fmap_compose. f_equal. apply list_fmap_ext. intros i eg _. apply no_scale_up_pods.
Qed.

(** The report names the pods of every group that no node group can host, each
    once and in order, whether the skipped node groups are simulated or not. *)
Lemma GetRemainingPods_spec simulate snap egs nodeGroups skipped (nodeInfos : gmap string NI) : groups_ok egs →
  ∃ snap' remain, GetRemainingPods simulate snap egs nodeGroups skipped nodeInfos = Some (snap', remain) ∧
    restored snap snap' ∧ NoScaleUpPod <$> remain = unschedulable_pods egs.
Proof.
  intros Hg. unfold GetRemainingPods, unschedulable_pods. destruct simulate; cbn [negb].
  - rewrite foldl_clones. cbn [app]. unfold getRemainingPodsConsideringSkippedNodeGroups.
    destruct (skipped_loop_spec nodeInfos skipped nodeGroups snap (filter (λ eg, Schedulable eg = false) egs))
      as (snap' & egs' & -> & Hr & Hs); [by apply Forall_list_filter|].
    eexists _, _. split; [done|]. split; [done|]. rewrite foldl_remaining. cbn [app].
    rewrite no_scale_up_all. by rewrite Hs.
  - eexists _, _. split; [done|]. split; [done|]. rewrite foldl_unschedulable. cbn [app]. apply no_scale_up_all.
Qed.
End snapshot.

(** ** The orchestrator *)

Section orchestrator_proofs.
Context {S Slice CSI : Type} `{SchedNodeInfo S} {T : Type} `{!ClusterSnapshot S Slice CSI T}.
Context `{GR : GoRange} `{SS : SortSlice} `{SB : SortSliceBy} {World Limiter : Type}.
Abbreviation NI := (NodeInfo S Slice CSI).
Abbreviation state := (@su_state S Slice CSI T World Limiter).
Context (Capacity : Node → string → option Z)
  (GetNodeResourceTargets : Node → option NodeGroup → result cp_error (list (string * Z)))
  (aboveUnreadyPercentage : Z → Z → bool) (OkTotalUnreadyCount : Z) (env : World → ClusterEnv)
  (Exist : NodeGroup → bool) (Comparator : NI → NI → bool) (quote : string → string) (opts : ScaleUpOptions).
Context (IncreaseSize AtomicIncreaseSize : World → NodeGroup → Z → World * option go_error) (Now : World → Z).
Context (Estimate : Estimator.EstimationContext → T → list Peg → NI → NodeGroup → T * (Z * list Pod))
  (BestOption : list Option → gmap string NI → option Option).
Context (CreateNodeGroup CreateNodeGroupAsync : World → NodeGroup → World * result AutoscalerError CreateNodeGroupResult)
  (SanitizedTemplateNodeInfoFromNodeGroup : World → NodeGroup → result AutoscalerError NI)
  (Process : option (list NodeGroup → gmap string NI → list Pod → list NodeGroup * gmap string NI * option go_error)).
Context (InitBinpacking : Limiter → list NodeGroup → Limiter) (MarkProcessed : Limiter → string → Limiter)
  (StopBinpacking : Limiter → list Option → Limiter * bool) (FinalizeBinpacking : Limiter → list Option → Limiter).
Implicit Types (st : state) (nodeGroup : NodeGroup) (spg : gmap string (list Peg)) (ctx : scaleUpCtx).

(** What the orchestrator relies on: the estimator works on a fork of the
    snapshot and packs pods that it was given; an expander answers one of its
    options, up to the debug text. *)
Context (Hestimate : ∀ context snap pegs nodeInfo nodeGroup,
    restored snap (Estimate context snap pegs nodeInfo nodeGroup).1 ∧
    (Estimate context snap pegs nodeInfo nodeGroup).2.2 ⊆+ concat pegs)
  (Hexpander : ∀ options infos best, BestOption options infos = Some best →
    ∃ o, o ∈ options ∧ OptNodeGroup best = OptNodeGroup o ∧ NodeCount best = NodeCount o ∧ OptPods best = OptPods o).

Definition all_pods st : list Pod := concat (GroupPods <$> su_groups st).

(** From one state to a later one: the simulations are undone, and the groups
    have the same pods. *)
Record kept st st' : Prop := mkKept {
  kept_snap : restored (su_snap st) (su_snap st');
  kept_groups : same_pods (su_groups st) (su_groups st')
}.
#[export] Instance kept_preorder : PreOrder kept.
Proof. split; [by split|]. intros a b c [] []. split; by etransitivity. Qed.

Lemma kept_ok st st' : kept st st' → groups_ok (su_groups st) → groups_ok (su_groups st').
Proof. intros [_ Hs]. by rewrite Hs. Qed.

Lemma kept_all_pods st st' : kept st st' → all_pods st' = all_pods st.
Proof. intros [_ Hs]. unfold all_pods. by rewrite Hs. Qed.

(** A scale-up that stops says so, plans nothing, and reports the pods that no
    node group can host, except when a node group could not be created. *)
Definition stop_ok st (status : ScaleUpStatus) (err : option AutoscalerError) : Prop :=
  (Result status = ScaleUpError ∧ is_Some err ∨ Result status = ScaleUpNoOptionsAvailable ∧ err = None) ∧
  StatusError status = err ∧ ScaleUpInfos status = [] ∧ PodsTriggeredScaleUp status ⊆+ all_pods st ∧
  (FailedCreationNodeGroups status = [] →
   NoScaleUpPod <$> PodsRemainUnschedulable status = unschedulable_pods (su_groups st)).

(** The code answers; what it goes on with satisfies [P]. *)
Definition answers {A} st (P : state → A → Prop) (r : option (state * outcome A)) : Prop :=
  ∃ st' out, r = Some (st', out) ∧ kept st st' ∧
    match out with Go a => P st' a | Stop status err => stop_ok st' status err end.

Lemma answers_impl {A} st0 st (P Q : state → A → Prop) r :
  answers st P r → kept st0 st → (∀ st' a, kept st0 st' → P st' a → Q st' a) → answers st0 Q r.
Proof.
  intros (st' & out & -> & Hk & Hout) Hk0 Himp. exists st', out. assert (kept st0 st') by by etransitivity.
  split_and!; [done..|]. destruct out; [by apply Himp|done].
Qed.

Lemma answers_kept {A} st0 st (P : state → A → Prop) r : kept st0 st → answers st P r → answers st0 P r.
Proof. intros Hk Ha. by eapply answers_impl. Qed.

Lemma remaining_spec st nodeGroups skipped : groups_ok (su_groups st) →
  ∃ st' remain, remaining opts st nodeGroups skipped = Some (st', remain) ∧ kept st st' ∧
    su_groups st' = su_groups st ∧ NoScaleUpPod <$> remain = unschedulable_pods (su_groups st').
Proof.
  intros Hg. unfold remaining.
  destruct (GetRemainingPods_spec (ScaleUpSimulationForSkippedNodeGroupsEnabled opts) (su_snap st) (su_groups st)
    nodeGroups skipped (su_infos st) Hg) as (snap' & remain & -> & Hr & Hp).
  eexists _, _. split; [done|]. split; [by split|]. done.
Qed.

Lemma set_groups_kept st egs : same_pods (su_groups st) egs → kept st (set_groups st egs).
Proof. by split. Qed.

Lemma marked_kept st reason : kept st (set_groups st (markAllGroupsAsUnschedulable (su_groups st) reason)).
Proof. apply set_groups_kept, mark_all_pods. Qed.

Lemma stop_error_spec {A} st nodeGroups skipped err triggered created (P : state → A → Prop) :
  groups_ok (su_groups st) → triggered ⊆+ all_pods st →
  answers st P (stop_error opts st nodeGroups skipped err triggered created).
Proof.
  intros Hg Hp. unfold stop_error. pose proof (marked_kept st ScaleUpExecutionErrorReason) as Hk.
  destruct (remaining_spec _ nodeGroups skipped (kept_ok _ _ Hk Hg)) as (st' & remain & -> & Hk' & _ & Hr).
  assert (kept st st') as Hk2 by by etransitivity.
  eexists _, _. split; [done|]. split; [done|]. split_and!; [by left|done..| |done].
  by rewrite (kept_all_pods _ _ Hk2).
Qed.

Lemma noOptions_spec {A} st nodeGroups ctx (P : state → A → Prop) :
  groups_ok (su_groups st) → answers st P (noOptionsAvailableStatus opts st nodeGroups ctx).
Proof.
  intros Hg. unfold noOptionsAvailableStatus.
  destruct (remaining_spec st nodeGroups (ctx_skipped ctx) Hg) as (st' & remain & -> & Hk' & _ & Hr).
  eexists _, _. split; [done|]. split; [done|]. split_and!; [by right|done..|apply submseteq_nil_l|done].
Qed.

Lemma noOptions_marked {A} st nodeGroups ctx reason (P : state → A → Prop) :
  groups_ok (su_groups st) →
  answers st P (noOptionsAvailableStatus opts
    (set_groups st (markAllGroupsAsUnschedulable (su_groups st) reason)) nodeGroups ctx).
Proof.
  intros Hg. pose proof (marked_kept st reason) as Hk.
  eapply answers_impl; [apply (noOptions_spec _ nodeGroups ctx P), (kept_ok _ _ Hk Hg)|done|done].
Qed.

Lemma abort_spec {A} st nodeGroups ctx (P : state → A → Prop) :
  groups_ok (su_groups st) → answers st P (abortAllOrNothing opts st nodeGroups ctx).
Proof. apply noOptions_marked. Qed.

(** *** The options *)

(** Only groups of the scale-up's pods are ever matched to a node group. *)
Definition spg_ok egs spg : Prop := map_Forall (λ _ pegs, sublist pegs (GroupPods <$> egs)) spg.

Lemma spg_ok_same egs egs' spg : same_pods egs egs' → spg_ok egs spg → spg_ok egs' spg.
Proof. unfold spg_ok, same_pods. by intros ->. Qed.

Lemma spg_ok_insert egs spg id pegs :
  spg_ok egs spg → sublist pegs (GroupPods <$> egs) → spg_ok egs (<[id := pegs]> spg).
Proof. intros Hs Hp. by apply map_Forall_insert_2. Qed.

Lemma spg_ok_lookup egs spg id : spg_ok egs spg → sublist (default [] (spg !! id)) (GroupPods <$> egs).
Proof. intros Hs. destruct (spg !! id) eqn:Hid; [by apply (Hs id)|apply sublist_nil_l]. Qed.

(** One simulation, with its result in the map. *)
Lemma simulate_step st spg nodeGroup nodeInfo : groups_ok (su_groups st) → spg_ok (su_groups st) spg →
  ∃ snap egs pegs, SchedulablePodGroups (su_snap st) (su_groups st) nodeGroup nodeInfo = Some (snap, egs, pegs) ∧
    kept st (set_groups (set_snap st snap) egs) ∧ spg_ok egs spg ∧ sublist pegs (GroupPods <$> egs).
Proof.
  intros Hg Hs.
  destruct (SchedulablePodGroups_spec (su_snap st) (su_groups st) nodeGroup nodeInfo Hg)
    as (snap & egs & pegs & -> & Hr & Hsame & Hsub).
  eexists _, _, _. split; [done|]. split; [by split|]. split; [by eapply spg_ok_same|]. by rewrite <- Hsame.
Qed.

Definition has_info (infos : gmap string NI) nodeGroup : Prop := is_Some (infos !! Id nodeGroup).

Lemma schedulable_groups_spec valid : ∀ st spg,
  groups_ok (su_groups st) → spg_ok (su_groups st) spg → Forall (has_info (su_infos st)) valid →
  ∃ st' spg', schedulable_groups st valid spg = Some (st', spg') ∧ kept st st' ∧ spg_ok (su_groups st') spg' ∧
    su_infos st' = su_infos st ∧ su_tracker st' = su_tracker st ∧ su_world st' = su_world st.
Proof.
  induction valid as [|g valid IH]; intros st spg Hg Hs Hv; cbn [schedulable_groups].
  { eexists _, _. by split_and!. }
  apply Forall_cons in Hv as [[ni Hni] Hv]. rewrite Hni.
  destruct (simulate_step st spg g ni Hg Hs) as (snap & egs & pegs & -> & Hk & Hs' & Hsub).
  destruct (IH (set_groups (set_snap st snap) egs) (<[Id g := pegs]> spg)) as (st' & spg' & -> & Hk' & Hs2 & ? & ? & ?).
  - by apply (kept_ok _ _ Hk).
  - by apply spg_ok_insert.
  - done.
  - eexists _, _. split; [done|]. split; [by etransitivity|]. done.
Qed.

(** Of an option: its node group could host something, its pods are pods of the
    scale-up, and all of them when it is all or nothing. *)
Definition option_ok st ctx (valid : list NodeGroup) (o : Option) : Prop :=
  OptNodeGroup o ∈ valid ∧ OptPods o ⊆+ all_pods st ∧
  (ctx_allOrNothing ctx = true → ctx_podCount ctx ≤ ⟪ OptPods o ⟫).

Lemma option_ok_kept st st' ctx valid o : kept st st' → option_ok st ctx valid o → option_ok st' ctx valid o.
Proof. intros Hk (? & ? & ?). unfold option_ok. by rewrite (kept_all_pods _ _ Hk). Qed.

Abbreviation expansion_option := (ComputeExpansionOption aboveUnreadyPercentage OkTotalUnreadyCount env Exist
  Comparator opts Estimate).

Lemma ComputeExpansionOption_spec st ctx nodeGroup spg : spg_ok (su_groups st) spg →
  let '(st', o) := expansion_option st ctx nodeGroup spg in
  kept st st' ∧ su_groups st' = su_groups st ∧ su_infos st' = su_infos st ∧ su_tracker st' = su_tracker st ∧
  su_world st' = su_world st ∧ OptNodeGroup o = nodeGroup ∧ OptPods o ⊆+ all_pods st.
Proof.
  intros Hs. unfold ComputeExpansionOption. pose proof (spg_ok_lookup _ _ (Id nodeGroup) Hs) as Hsub.
  destruct (default [] (spg !! Id nodeGroup)) as [|peg pegs]; [by split_and!; try apply submseteq_nil_l|].
  destruct (su_infos st !! Id nodeGroup) as [ni|] eqn:Hni; [|by split_and!; try apply submseteq_nil_l].
  set (context := Estimator.mkEstimationContext _ _ _).
  destruct (Hestimate context (su_snap st) (peg :: pegs) ni nodeGroup) as [Hr Hp].
  assert (concat (peg :: pegs) ⊆+ all_pods st) as Hall by by apply concat_sublist.
  destruct (Estimate context (su_snap st) (peg :: pegs) ni nodeGroup) as [snap [n pods]]. cbn [fst snd] in Hr, Hp.
  assert (pods ⊆+ all_pods st) by by etransitivity.
  destruct (zero_or_max opts nodeGroup); [destruct (ctx_allOrNothing ctx && _)|];
    (split; [by split|]; split_and!; try done; apply submseteq_nil_l).
Qed.

Abbreviation options_loop := (expansion_options aboveUnreadyPercentage OkTotalUnreadyCount env Exist Comparator opts
  Estimate MarkProcessed StopBinpacking).

Lemma expansion_options_spec ctx all valid spg : ∀ st options,
  spg_ok (su_groups st) spg → (∀ g, g ∈ valid → g ∈ all) → Forall (option_ok st ctx all) options →
  let '(st', options') := options_loop st ctx valid spg options in
  kept st st' ∧ su_groups st' = su_groups st ∧ su_infos st' = su_infos st ∧ su_tracker st' = su_tracker st ∧
  su_world st' = su_world st ∧ Forall (option_ok st' ctx all) options'.
Proof.
  induction valid as [|g valid IH]; intros st options Hs Hv Ho; cbn [expansion_options]; [done|].
  pose proof (ComputeExpansionOption_spec st ctx g spg Hs) as Hc.
  destruct (expansion_option st ctx g spg) as [st1 o]. destruct Hc as (Hk & Hg & Hi & Ht & Hw & Hog & Hop).
  set (st2 := set_limiter st1 _).
  assert (kept st st2) as Hk2 by (destruct Hk; by split).
  set (options2 := if (_ || _) then options else _).
  assert (Forall (option_ok st2 ctx all) options2) as Ho2.
  { assert (Forall (option_ok st2 ctx all) options) as Hold.
    { eapply Forall_impl; [exact Ho|]. intros x. by apply option_ok_kept. }
    subst options2. destruct (_ || _); [done|]. destruct (ctx_allOrNothing ctx && _) eqn:Haon; [done|].
    apply Forall_app. split; [done|]. apply Forall_singleton. unfold option_ok. rewrite (kept_all_pods _ _ Hk2).
    split; [subst; apply Hv; left|]. split; [done|]. intros Ha. rewrite Ha in Haon. cbn in Haon. lia. }
  destruct (StopBinpacking (su_limiter st2) options2) as [limiter stop].
  set (st3 := set_limiter st2 limiter).
  assert (kept st st3) as Hk3 by (destruct Hk2; by split).
  assert (Forall (option_ok st3 ctx all) options2) as Ho3 by exact Ho2.
  assert (su_groups st3 = su_groups st) as Hg3 by exact Hg.
  destruct stop; [by split_and!|].
  specialize (IH st3 options2). destruct (options_loop st3 ctx valid spg options2) as [st' options'].
  destruct IH as (Hk' & ? & ? & ? & ? & ?); [by rewrite Hg3|intros; apply Hv; by right|done|].
  split; [by etransitivity|]. split_and!; try done; by etransitivity.
Qed.

(** *** New node groups *)

Abbreviation template := SanitizedTemplateNodeInfoFromNodeGroup.

(** What creating node groups leaves alone, besides the snapshot and the pods. *)
Record grown st st' : Prop := mkGrown {
  grown_kept : kept st st';
  grown_tracker : su_tracker st' = su_tracker st
}.
#[export] Instance grown_preorder : PreOrder grown.
Proof. split; [by split|]. intros a b c [] []. split; [by etransitivity|congruence]. Qed.

Lemma adopt_main_spec st spg id result : groups_ok (su_groups st) → spg_ok (su_groups st) spg →
  is_Some (su_infos st !! id) →
  ∃ st' spg', adopt_main template st spg id result = Some (st', spg') ∧ grown st st' ∧
    spg_ok (su_groups st') spg' ∧ has_info (su_infos st') (MainCreatedNodeGroup result).
Proof.
  intros Hg Hs [old Hold]. unfold adopt_main, has_info. rewrite Hold.
  set (main := MainCreatedNodeGroup result).
  match goal with |- context [set_infos st ?i] => set (infos := i) end.
  set (st1 := set_infos st infos). set (spg1 := <[Id main := default [] _]> spg).
  assert (is_Some (infos !! Id main)) as Hmain.
  { subst infos. destruct (template _ _); rewrite lookup_insert_eq; by eexists. }
  assert (spg_ok (su_groups st) spg1) as Hs1 by (by apply spg_ok_insert; [|apply spg_ok_lookup]).
  assert (∃ st2 spg2,
    match template (su_world st) main with
    | Ok nodeInfo =>
        if 0 <? ⟪ ExtraCreatedNodeGroups result ⟫ then
          match SchedulablePodGroups (su_snap st1) (deletePodEquivalenceGroupsId (su_groups st1) id) main nodeInfo with
          | None => None
          | Some (snap, egs, pegs) => Some (set_groups (set_snap st1 snap) egs, <[Id main := pegs]> spg1)
          end
        else Some (set_groups st1 (patchPodEquivalenceGroupsId (su_groups st1) id (Id main)), spg1)
    | Err _ => Some (set_groups st1 (patchPodEquivalenceGroupsId (su_groups st1) id (Id main)), spg1)
    end = Some (st2, spg2) ∧ grown st st2 ∧ spg_ok (su_groups st2) spg2 ∧ su_infos st2 = infos)
    as (st2 & spg2 & -> & Hk & Hs2 & Hi2).
  { assert (grown st (set_groups st1 (patchPodEquivalenceGroupsId (su_groups st1) id (Id main)))) as Hpatch.
    { split; [split; [done|apply patch_pods]|done]. }
    destruct (template (su_world st) main) as [ni|e]; [destruct (0 <? _)|].
    - pose proof (delete_pods (su_groups st1) id) as Hdel.
      destruct (SchedulablePodGroups_spec (su_snap st1) (deletePodEquivalenceGroupsId (su_groups st1) id) main ni)
        as (snap & egs & pegs & -> & Hr & Hsame & Hsub); [by rewrite <- Hdel|].
      assert (same_pods (su_groups st) egs) as Hall by (etransitivity; [exact Hdel|done]).
      eexists _, _. split; [done|]. split; [by split; [split|]|]. split; [|done].
      apply spg_ok_insert; [by eapply spg_ok_same|]. cbn [set_groups su_groups]. by rewrite <- Hsame.
    - eexists _, _. split; [done|]. split; [done|]. split; [|done]. eapply spg_ok_same; [apply patch_pods|done].
    - eexists _, _. split; [done|]. split; [done|]. split; [|done]. eapply spg_ok_same; [apply patch_pods|done]. }
  case_bool_decide as Hid.
  - eexists _, _. split_and!; [done..|by rewrite Hi2].
  - eexists _, _. split; [done|]. split; [by destruct Hk as [[] ?]; split; [split|]|]. split.
    + by apply map_Forall_delete.
    + cbn [set_infos su_infos]. rewrite Hi2, lookup_delete_ne by done. done.
Qed.

Lemma extra_step_spec st spg g : groups_ok (su_groups st) → spg_ok (su_groups st) spg →
  ∃ st' spg', extra_step template (st, spg) g = Some (st', spg') ∧ grown st st' ∧
    spg_ok (su_groups st') spg' ∧ dom (su_infos st) ⊆ dom (su_infos st').
Proof.
  intros Hg Hs. unfold extra_step. destruct (template _ g) as [ni|e]; [|by eexists _, _; split_and!].
  destruct (simulate_step (set_infos st (<[Id g := ni]> (su_infos st))) spg g ni Hg Hs)
    as (snap & egs & pegs & -> & [Hk1 Hk2] & Hs' & Hsub).
  eexists _, _. split; [done|]. split; [by split; [split|]|]. split; [by apply spg_ok_insert|].
  cbn. rewrite dom_insert_L. set_solver.
Qed.

Lemma extra_loop_spec extra : ∀ st spg, groups_ok (su_groups st) → spg_ok (su_groups st) spg →
  ∃ st' spg', extra_loop template st spg extra = Some (st', spg') ∧ grown st st' ∧
    spg_ok (su_groups st') spg' ∧ dom (su_infos st) ⊆ dom (su_infos st').
Proof.
  induction extra as [|g extra IH]; intros st spg Hg Hs; cbn [extra_loop]; [by eexists _, _; split_and!|].
  destruct (extra_step_spec st spg g Hg Hs) as (st1 & spg1 & -> & Hk1 & Hs1 & Hd1).
  destruct (IH st1 spg1) as (st2 & spg2 & -> & Hk2 & Hs2 & Hd2); [by apply (kept_ok _ _ (grown_kept _ _ Hk1))|done|].
  eexists _, _. split; [done|]. split; [by etransitivity|]. split; [done|by etransitivity].
Qed.

(** The option goes on with the created node group, and nothing else of it
    changes. *)
Lemma create_node_group_spec st spg o :
  groups_ok (su_groups st) → spg_ok (su_groups st) spg → has_info (su_infos st) (OptNodeGroup o) →
  OptPods o ⊆+ all_pods st →
  answers st (λ st' out, let '(spg', o', created) := out in
      su_tracker st' = su_tracker st ∧ spg_ok (su_groups st') spg' ∧ has_info (su_infos st') (OptNodeGroup o') ∧
      NodeCount o' = NodeCount o ∧ OptPods o' = OptPods o)
    (create_node_group env opts CreateNodeGroup CreateNodeGroupAsync template st spg o).
Proof.
  intros Hg Hs Hi Hp. unfold create_node_group.
  destruct ((if AsyncNodeGroupsEnabled opts then _ else _) (su_world st) (OptNodeGroup o)) as [w res].
  unfold processCreateNodeGroupResult. destruct res as [result|e].
  2:{ eexists _, _. split; [done|]. split; [by split|]. split_and!; [by left|done..]. }
  destruct (adopt_main_spec (set_world st w) spg (Id (OptNodeGroup o)) result Hg Hs Hi)
    as (st1 & spg1 & -> & [[Hk1 Hk1'] Ht1] & Hs1 & Hi1).
  destruct (extra_loop_spec (ExtraCreatedNodeGroups result) st1 spg1) as (st2 & spg2 & -> & [[Hk2 Hk2'] Ht2] & Hs2 & Hd2).
  - by rewrite <- Hk1'.
  - done.
  - eexists _, _. split; [done|]. split; [split; by etransitivity|]. cbn. split_and!; [by rewrite Ht2, Ht1|done| |done|done].
    apply elem_of_dom, Hd2, elem_of_dom. exact Hi1.
Qed.

(** *** The plan *)

Lemma total_increase_sum infos : total_increase infos = increase_sum infos.
Proof.
  unfold total_increase. assert (∀ acc, foldl (λ total sui, total + (NewSize sui - CurrentSize sui)) acc infos =
    acc + increase_sum infos) as Hl; [|by rewrite Hl].
  induction infos as [|x l IH]; intros acc; unfold increase_sum in *; simpl; [lia|]. rewrite IH. unfold increase_of. lia.
Qed.

(** Within the sizes of the node groups. *)
Definition within_sizes (x : ScaleUpInfo) : Prop :=
  TargetSize (ScaleUpGroup x) = Ok (CurrentSize x) ∧ CurrentSize x < NewSize x ≤ MaxSize (ScaleUpGroup x).

(** What the plan adds was taken from the quotas, which had it; [B] bounds the
    resources of a node, so that no product overflows. *)
Definition within_quotas (tracker tracker' : Tracker) (infos : gmap string NI) (newNodes : Z)
    (plan : list ScaleUpInfo) : Prop :=
  ∀ B, nodes_in Capacity GetNodeResourceTargets B →
    (∀ node g, ∃ m, totalNodeResources Capacity GetNodeResourceTargets node (Some g) = Ok m) →
    0 ≤ B → newNodes * B ≤ int64_max → cache_in B (nodeCache tracker) →
    Forall2 (drawn (planned_usage (nodeCache tracker') infos plan)) (quotaStatuses tracker) (quotaStatuses tracker').

Record plan_ok tracker st ctx (plan : scaleUpPlan) : Prop := mkPlanOk {
  plan_sizes : Forall within_sizes (plan_scaleUpInfos plan);
  plan_total : total_increase (plan_scaleUpInfos plan) ≤ NodeCount (plan_bestOption plan);
  plan_limit : 0 < MaxNodesTotal opts →
    ⟪ ctx_nodes ctx ⟫ + total_increase (plan_scaleUpInfos plan) ≤ MaxNodesTotal opts;
  plan_quotas : within_quotas tracker (su_tracker st) (su_infos st) (NodeCount (plan_bestOption plan))
    (plan_scaleUpInfos plan);
  plan_pods : OptPods (plan_bestOption plan) ⊆+ all_pods st;
  plan_all : ctx_allOrNothing ctx = true →
    ctx_podCount ctx ≤ ⟪ OptPods (plan_bestOption plan) ⟫ ∧
    total_increase (plan_scaleUpInfos plan) = NodeCount (plan_bestOption plan)
}.

(** The new nodes are those of the option, at most, within the cluster's limit,
    and asking the quotas takes nothing from them. *)
Definition same_room (tracker tracker' : Tracker) : Prop :=
  quotaStatuses tracker' = quotaStatuses tracker ∧
  ∀ B, nodes_in Capacity GetNodeResourceTargets B → cache_in B (nodeCache tracker) → cache_in B (nodeCache tracker').

Lemma CheckQuota_room tracker g node nd :
  same_room tracker (CheckQuota Capacity GetNodeResourceTargets tracker (Some g) node nd).1.
Proof.
  unfold CheckQuota. destruct (nd <? 0); [by split|].
  assert (∀ B, nodes_in Capacity GetNodeResourceTargets B → cache_in B (nodeCache tracker) →
    cache_in B (cached_totalNodeResources Capacity GetNodeResourceTargets (nodeCache tracker) node (Some g)).1) as Hc.
  { intros B HB Hc. apply (cached_resources_in Capacity GetNodeResourceTargets B _ node (Some g) HB Hc). }
  by destruct (cached_totalNodeResources _ _ _ _ _) as [cache [delta|e]]; split.
Qed.

Lemma capped_nodes_spec st ctx o : tracker_ok (su_tracker st) → 0 < NodeCount o →
  let '(st', res) := capped_nodes Capacity GetNodeResourceTargets opts st ctx o in
  su_snap st' = su_snap st ∧ su_groups st' = su_groups st ∧ su_infos st' = su_infos st ∧ su_world st' = su_world st ∧
  same_room (su_tracker st) (su_tracker st') ∧
  ∀ n, res = Ok n → 0 ≤ n ≤ NodeCount o ∧ has_info (su_infos st) (OptNodeGroup o) ∧
    (0 < MaxNodesTotal opts → ⟪ ctx_nodes ctx ⟫ + n ≤ MaxNodesTotal opts).
Proof.
  intros Ht Hn. unfold capped_nodes, GetCappedNewNodeCount, applyLimits.
  assert (∀ n, 0 < n ≤ NodeCount o → (0 < MaxNodesTotal opts → ⟪ ctx_nodes ctx ⟫ + n ≤ MaxNodesTotal opts) →
    let '(st', res) :=
      let '(tracker, res) := applyLimits Capacity GetNodeResourceTargets n (su_tracker st) (OptNodeGroup o) (su_infos st)
      in (set_tracker st tracker, res) in
    su_snap st' = su_snap st ∧ su_groups st' = su_groups st ∧ su_infos st' = su_infos st ∧ su_world st' = su_world st ∧
    same_room (su_tracker st) (su_tracker st') ∧
    ∀ n, res = Ok n → 0 ≤ n ≤ NodeCount o ∧ has_info (su_infos st) (OptNodeGroup o) ∧
      (0 < MaxNodesTotal opts → ⟪ ctx_nodes ctx ⟫ + n ≤ MaxNodesTotal opts)) as Hgo.
  { intros n Hb Hlim. unfold applyLimits, has_info.
    destruct (su_infos st !! Id (OptNodeGroup o)) as [ni|] eqn:Hni; [|by split_and!].
    pose proof (CheckQuota_room (su_tracker st) (OptNodeGroup o) (ni_Node ni) n) as Hroom.
    destruct (CheckQuota _ _ _ _ _ _) as [t' res] eqn:Hck.
    destruct (CheckQuota_bounds _ _ _ _ _ _ _ _ Ht Hck) as [_ Hbd].
    destruct res as [r|e]; [|by split_and!]. specialize (Hbd _ eq_refl).
    split_and!; [done..|]. intros k [= <-]. split_and!; [lia|lia|by eexists|]. intros Hm. specialize (Hlim Hm). lia. }
  destruct ((0 <? MaxNodesTotal opts) && _) eqn:Hm.
  - apply andb_true_iff in Hm as [Hm1 Hm2]. apply Z.ltb_lt in Hm1, Hm2.
    destruct (Z.ltb_spec (MaxNodesTotal opts - ⟪ ctx_nodes ctx ⟫) 1); [by split_and!|]. apply Hgo; lia.
  - apply Hgo; [lia|]. intros Hpos. apply andb_false_iff in Hm as [Hm|Hm]; apply Z.ltb_ge in Hm; lia.
Qed.

Abbreviation finish := (finish_plan Capacity GetNodeResourceTargets aboveUnreadyPercentage OkTotalUnreadyCount env Exist
  Comparator quote opts).

(** What is known of the best option once its new nodes are capped. *)
Record best_ok tracker st ctx (o : Option) (newNodes : Z) : Prop := mkBestOk {
  best_room : same_room tracker (su_tracker st);
  best_new : 0 ≤ newNodes ≤ NodeCount o;
  best_info : has_info (su_infos st) (OptNodeGroup o);
  best_limit : 0 < MaxNodesTotal opts → ⟪ ctx_nodes ctx ⟫ + newNodes ≤ MaxNodesTotal opts;
  best_pods : OptPods o ⊆+ all_pods st;
  best_all : ctx_allOrNothing ctx = true → ctx_podCount ctx ≤ ⟪ OptPods o ⟫ ∧ newNodes = NodeCount o
}.

Lemma finish_plan_spec tracker st ctx o newNodes spg created nodeGroups :
  tracker_ok tracker → groups_ok (su_groups st) → best_ok tracker st ctx o newNodes →
  answers st (λ st' plan, plan_ok tracker st' ctx plan) (finish st ctx o newNodes spg created nodeGroups).
Proof.
  intros Ht Hg [[Hqs Hcache] Hn Hi Hlim Hpods Hall]. unfold finish_plan.
  assert (tracker_ok (su_tracker st)) as Ht1 by (unfold tracker_ok in *; by rewrite Hqs).
  destruct (balanceScaleUps_spec Capacity GetNodeResourceTargets aboveUnreadyPercentage OkTotalUnreadyCount
    (env (su_world st)) Exist Comparator quote opts (su_csr st) (ctx_now ctx) (OptNodeGroup o) newNodes (su_infos st)
    spg (su_tracker st) Ht1 ltac:(lia)) as (t2 & r & Hb & Ht2 & Hr).
  rewrite Hb. destruct r as [infos|e].
  2:{ eapply answers_kept; [|by apply (stop_error_spec (set_tracker st t2))]. by split; [|split]. }
  destruct (Hr _ eq_refl) as [Hsum Hp]. rewrite total_increase_sum.
  destruct ((increase_sum infos <? newNodes) && ctx_allOrNothing ctx) eqn:Haon.
  { eapply answers_kept; [|by apply (abort_spec (set_tracker st t2))]. by split; [|split]. }
  eexists _, _. split; [done|]. split; [by split|].
  split; cbn [plan_scaleUpInfos plan_bestOption set_tracker su_tracker su_infos].
  - eapply Forall_impl; [exact Hp|]. by intros x (_ & ? & ?).
  - rewrite total_increase_sum. lia.
  - rewrite total_increase_sum. intros Hm. specialize (Hlim Hm). lia.
  - intros B HB Hknown HB0 Hov Hc. rewrite <- Hqs.
    eapply balance_usage; [| | | | | | | |exact Hb]; [done..|by apply Hcache|lia|nia|done|done].
  - exact Hpods.
  - intros Ha. destruct (Hall Ha) as [? ?]. rewrite Ha, andb_true_r in Haon. apply Z.ltb_ge in Haon.
    rewrite total_increase_sum. split; [done|lia].
Qed.

Abbreviation grow_option := (plan_option Capacity GetNodeResourceTargets aboveUnreadyPercentage OkTotalUnreadyCount env
  Exist Comparator quote opts CreateNodeGroup CreateNodeGroupAsync template).

Lemma plan_option_spec st ctx nodeGroups spg valid o :
  tracker_ok (su_tracker st) → groups_ok (su_groups st) → spg_ok (su_groups st) spg →
  0 < NodeCount o → option_ok st ctx valid o →
  answers st (λ st' plan, plan_ok (su_tracker st) st' ctx plan) (grow_option st ctx nodeGroups spg o).
Proof.
  intros Ht Hg Hs Hn (_ & Hpods & Hall). unfold plan_option. pose proof (capped_nodes_spec st ctx o Ht Hn) as Hc.
  destruct (capped_nodes _ _ _ st ctx o) as [st1 res]. destruct Hc as (Hsnap & Hgr & Hi & Hw & Hroom & Hnew).
  assert (kept st st1) as Hk by (split; [by rewrite Hsnap|by rewrite Hgr]).
  assert (groups_ok (su_groups st1)) as Hg1 by by rewrite Hgr.
  destruct res as [newNodes|e].
  2:{ eapply answers_kept; [exact Hk|]. apply (stop_error_spec st1); [done|by rewrite (kept_all_pods _ _ Hk)]. }
  specialize (Hnew _ eq_refl). destruct Hnew as (Hb & Hinfo & Hlim).
  destruct ((newNodes <? NodeCount o) && ctx_allOrNothing ctx) eqn:Haon.
  { eapply answers_kept; [|by apply (abort_spec st1)]. done. }
  assert (ctx_allOrNothing ctx = true → ctx_podCount ctx ≤ ⟪ OptPods o ⟫ ∧ newNodes = NodeCount o) as Hall1.
  { intros Ha. rewrite Ha, andb_true_r in Haon. apply Z.ltb_ge in Haon. split; [by apply Hall|lia]. }
  rewrite <- Hi in Hinfo.
  destruct (negb _ && negb _).
  2:{ eapply answers_kept; [exact Hk|]. apply (finish_plan_spec (su_tracker st) st1); [done..|].
      split; [done..|by rewrite (kept_all_pods _ _ Hk)|done]. }
  destruct (ctx_allOrNothing ctx && _). { eapply answers_kept; [|by apply (abort_spec st1)]. done. }
  destruct (create_node_group_spec st1 spg o) as (st2 & out & -> & Hk2 & Hout);
    [done|by rewrite Hgr|done|by rewrite (kept_all_pods _ _ Hk)|].
  destruct out as [[[spg' o'] created]|status err].
  2:{ eexists _, _. split; [done|]. split; [by etransitivity|done]. }
  destruct Hout as (Ht2 & Hs2 & Hi2 & Hn2 & Hp2).
  assert (kept st st2) as Hk3 by by etransitivity.
  eapply answers_kept; [exact Hk3|]. apply (finish_plan_spec (su_tracker st) st2).
  - done.
  - by apply (kept_ok _ _ Hk2).
  - split; rewrite ?Ht2, ?Hn2, ?Hp2; try done. by rewrite (kept_all_pods _ _ Hk3).
Qed.

Abbreviation prepare := (prepareScaleUp Capacity GetNodeResourceTargets aboveUnreadyPercentage OkTotalUnreadyCount env
  Exist Comparator quote opts Estimate BestOption CreateNodeGroup CreateNodeGroupAsync template MarkProcessed
  StopBinpacking FinalizeBinpacking).

Lemma prepareScaleUp_spec st ctx valid nodeGroups :
  tracker_ok (su_tracker st) → groups_ok (su_groups st) → Forall (has_info (su_infos st)) valid →
  answers st (λ st' plan, plan_ok (su_tracker st) st' ctx plan) (prepare st ctx valid nodeGroups).
Proof.
  intros Ht Hg Hv. unfold prepareScaleUp.
  destruct (schedulable_groups_spec valid st ∅ Hg ltac:(apply map_Forall_empty) Hv)
    as (st1 & spg & -> & Hk1 & Hs1 & Hi1 & Ht1 & Hw1).
  pose proof (expansion_options_spec ctx valid valid spg st1 [] Hs1 ltac:(done) ltac:(constructor)) as He.
  destruct (options_loop st1 ctx valid spg []) as [st2 options].
  destruct He as (Hk2 & Hg2 & Hi2 & Ht2 & Hw2 & Ho).
  set (st3 := set_limiter st2 (FinalizeBinpacking (su_limiter st2) options)).
  assert (kept st st3) as Hk3 by (etransitivity; [exact Hk1|by destruct Hk2; split]).
  pose proof (kept_ok _ _ Hk3 Hg) as Hg3.
  destruct options as [|o0 options'].
  { eapply answers_kept; [|by apply (noOptions_spec st3)]. done. }
  destruct (BestOption (o0 :: options') (su_infos st3)) as [best|] eqn:Hbest.
  2:{ eapply answers_kept; [|by apply (noOptions_marked st3)]. done. }
  destruct (Z.leb_spec (NodeCount best) 0).
  { eapply answers_kept; [|by apply (noOptions_marked st3)]. done. }
  destruct (Hexpander _ _ _ Hbest) as (o & Hin & HG & HN & HP).
  pose proof (Forall_elem Ho o Hin) as (H1 & H2 & H3).
  assert (su_tracker st3 = su_tracker st) as Ht3 by (cbn; congruence).
  eapply answers_kept; [exact Hk3|]. rewrite <- Ht3. apply (plan_option_spec st3 ctx nodeGroups spg valid best).
  - by rewrite Ht3.
  - done.
  - change (su_groups st3) with (su_groups st2). by rewrite Hg2.
  - done.
  - unfold option_ok. rewrite HG, HP. done.
Qed.

(** *** Carrying out the plan *)

(** What every answer says of itself and of the pods: the error is there exactly
    when the result is an error, what triggered the scale-up are its pods, and
    the pods that remain are those of the groups that nothing can host. *)
Definition report_ok st (status : ScaleUpStatus) (err : option AutoscalerError) : Prop :=
  (Result status = ScaleUpError ↔ is_Some err) ∧ StatusError status = err ∧
  PodsTriggeredScaleUp status ⊆+ all_pods st ∧
  (FailedCreationNodeGroups status = [] →
   NoScaleUpPod <$> PodsRemainUnschedulable status = unschedulable_pods (su_groups st)).

Lemma stop_report st status err : stop_ok st status err → report_ok st status err.
Proof.
  intros (Hr & He & _ & Hp & Hrem). split_and!; [|done..].
  destruct Hr as [[-> Herr]|[-> ->]]; [done|]. split; [done|by intros [? ?]].
Qed.

(** A successful scale-up carried out its plan. *)
Definition success_ok tracker st ctx (status : ScaleUpStatus) : Prop :=
  Result status = ScaleUpSuccessful → ∃ plan, plan_ok tracker st ctx plan ∧
    ScaleUpInfos status = plan_scaleUpInfos plan ∧ PodsTriggeredScaleUp status = OptPods (plan_bestOption plan).

Abbreviation carry_out := (execute_plan env Exist quote opts IncreaseSize AtomicIncreaseSize Now).

Definition long_enough (n : nat) (schedule : list nat) : Prop :=
  ∀ i, (i < n)%nat → (4 ≤ length (filter (eq i) schedule))%nat.

Lemma plan_ok_same tracker st st' ctx plan : all_pods st' = all_pods st → su_tracker st' = su_tracker st →
  su_infos st' = su_infos st → plan_ok tracker st ctx plan → plan_ok tracker st' ctx plan.
Proof. intros Hp Ht Hi []. split; rewrite ?Hp, ?Ht, ?Hi; done. Qed.

Lemma remaining_same st nodeGroups skipped st' remain :
  remaining opts st nodeGroups skipped = Some (st', remain) →
  su_tracker st' = su_tracker st ∧ su_infos st' = su_infos st.
Proof. unfold remaining. destruct (GetRemainingPods _ _ _ _ _ _) as [[snap r]|]; [|done]. by intros [= <- <-]. Qed.

Lemma execute_plan_spec tracker st ctx schedule plan :
  groups_ok (su_groups st) → plan_ok tracker st ctx plan →
  long_enough (length (plan_scaleUpInfos plan)) schedule →
  ∃ st' status err, carry_out st ctx schedule plan = Some (st', (status, err)) ∧ kept st st' ∧
    report_ok st' status err ∧ success_ok tracker st' ctx status.
Proof.
  intros Hg Hplan Hs. unfold execute_plan.
  destruct (ExecuteScaleUps_answers IncreaseSize AtomicIncreaseSize Now env Exist quote (ParallelScaleUp opts) schedule
    (su_world st) (su_csr st) (plan_scaleUpInfos plan) (su_infos st) (ctx_now ctx) (ctx_allOrNothing ctx) Hs)
    as [[[[w csr] [aErr|]] failed] Hex]; rewrite Hex.
  - set (st1 := set_groups _ _).
    assert (kept st st1) as Hk by by split; [|apply mark_failed_pods].
    destruct (remaining_spec st1 (plan_nodeGroups plan) (ctx_skipped ctx) (kept_ok _ _ Hk Hg))
      as (st' & remain & -> & Hk' & _ & Hr).
    assert (kept st st') as Hk2 by by etransitivity.
    eexists _, _, _. split; [done|]. split; [done|]. split; [|done].
    split; [done|]. split; [done|]. split; [|done]. rewrite (kept_all_pods _ _ Hk2). by destruct Hplan.
  - set (st1 := set_csr _ _). assert (kept st st1) as Hk by by split.
    destruct (remaining_spec st1 (plan_nodeGroups plan) (ctx_skipped ctx) (kept_ok _ _ Hk Hg))
      as (st' & remain & Hrem & Hk' & _ & Hr).
    destruct (remaining_same _ _ _ _ _ Hrem) as [Ht Hi]. rewrite Hrem.
    assert (kept st st') as Hk2 by by etransitivity.
    eexists _, _, _. split; [done|]. split; [done|]. split.
    + split; [by split; [|intros [? ?]]|]. split; [done|]. split; [|done].
      rewrite (kept_all_pods _ _ Hk2). by destruct Hplan.
    + intros _. exists plan. split; [|done]. eapply plan_ok_same; [by apply (kept_all_pods _ _ Hk2)|done..].
Qed.

Lemma filter_valid_infos csr nodeGroups nodeInfos n now : ∀ acc,
  tracker_ok acc.1.1 → Forall (has_info nodeInfos) acc.1.2 →
  let st := foldl (filter_valid_step Capacity GetNodeResourceTargets aboveUnreadyPercentage OkTotalUnreadyCount
    (env csr.1) Exist quote opts csr.2 nodeInfos n now) acc nodeGroups in
  same_room acc.1.1 st.1.1 ∧ Forall (has_info nodeInfos) st.1.2.
Proof.
  induction nodeGroups as [|g nodeGroups IH]; intros [[tracker valid] skipped] Ht Hv; cbn [foldl]; [done|].
  cbn [fst snd] in *. unfold filter_valid_step at 2 4. unfold skip_reason.
  assert (∀ reason, let st := foldl (filter_valid_step Capacity GetNodeResourceTargets aboveUnreadyPercentage
      OkTotalUnreadyCount (env csr.1) Exist quote opts csr.2 nodeInfos n now)
      (tracker, valid, <[Id g := reason]> skipped) nodeGroups in
    same_room tracker st.1.1 ∧ Forall (has_info nodeInfos) st.1.2) as Hskip by by intros reason; apply IH.
  destruct (IsNodeGroupReadyToScaleUp _ _ _ _ _ _ _); [by apply Hskip|].
  destruct (TargetSize g) as [target|e]; [|by apply Hskip]. destruct (MaxSize g <=? target); [by apply Hskip|].
  destruct (zero_or_max opts g && _ && _); [by apply Hskip|].
  destruct (nodeInfos !! Id g) as [ni|] eqn:Hni; [|by apply Hskip]. clear Hskip. unfold IsNodeGroupResourceExceeded.
  pose proof (CheckQuota_room tracker g (ni_Node ni) (if zero_or_max opts g then MaxSize g - target else 1)) as [Hq Hc].
  destruct (CheckQuota _ _ _ _ _ _) as [t1 res]. cbn [fst] in Hq, Hc.
  assert (tracker_ok t1) as Ht1 by (unfold tracker_ok in *; by rewrite Hq).
  assert (has_info nodeInfos g) as Hg by by exists ni.
  assert (∀ acc, acc.1.1 = t1 → Forall (has_info nodeInfos) acc.1.2 →
    let st := foldl (filter_valid_step Capacity GetNodeResourceTargets aboveUnreadyPercentage
      OkTotalUnreadyCount (env csr.1) Exist quote opts csr.2 nodeInfos n now) acc nodeGroups in
    same_room tracker st.1.1 ∧ Forall (has_info nodeInfos) st.1.2) as Hgo.
  { intros acc Hacc Hva. destruct (IH acc) as [[Hq2 Hc2] Hv2]; [by rewrite Hacc|done|].
    rewrite Hacc in Hq2, Hc2. split; [split; [congruence|auto]|done]. }
  destruct res as [r|e]; [destruct (Exceeded r)|]; apply Hgo; try done.
  cbn. apply Forall_app. by split; [|apply Forall_singleton].
Qed.

Lemma plan_ok_room tracker tracker1 st ctx plan :
  same_room tracker tracker1 → plan_ok tracker1 st ctx plan → plan_ok tracker st ctx plan.
Proof.
  intros [Hq Hc] []. split; try done. intros B HB Hk HB0 Hov Hca. rewrite <- Hq. by eauto.
Qed.

Abbreviation scale_valid := (scale_up_valid Capacity GetNodeResourceTargets aboveUnreadyPercentage OkTotalUnreadyCount env
  Exist Comparator quote opts IncreaseSize AtomicIncreaseSize Now Estimate BestOption CreateNodeGroup
  CreateNodeGroupAsync template MarkProcessed StopBinpacking FinalizeBinpacking).

(** Whatever order the goroutines of the executor run in, the scale-up answers,
    and what it says is true. *)
Definition scale_up_ok tracker st nodes (podCount : Z) (allOrNothing : bool)
    (run : list nat → option (state * (ScaleUpStatus * option AutoscalerError))) : Prop :=
  ∃ n, ∀ schedule, long_enough n schedule → ∃ st' status err ctx, run schedule = Some (st', (status, err)) ∧
    kept st st' ∧ report_ok st' status err ∧ success_ok tracker st' ctx status ∧
    ctx_nodes ctx = nodes ∧ ctx_podCount ctx = podCount ∧ ctx_allOrNothing ctx = allOrNothing.

Lemma scale_up_valid_spec st nodes podCount allOrNothing nodeGroups :
  tracker_ok (su_tracker st) → groups_ok (su_groups st) →
  scale_up_ok (su_tracker st) st nodes podCount allOrNothing
    (λ schedule, scale_valid st nodes podCount allOrNothing schedule nodeGroups).
Proof.
  intros Ht Hg. unfold scale_up_ok, scale_up_valid, filterValidScaleUpNodeGroups.
  pose proof (filter_valid_infos (su_world st, su_csr st) nodeGroups (su_infos st) ⟪ nodes ⟫ (Now (su_world st))
    (su_tracker st, [], ∅) Ht ltac:(constructor)) as Hf. cbn [fst snd] in Hf.
  destruct (foldl _ _ nodeGroups) as [[t1 valid] skipped]. cbn [fst snd] in Hf. destruct Hf as [Hroom Hv].
  assert (tracker_ok t1) as Ht1 by (unfold tracker_ok in *; destruct Hroom as [Hq _]; by rewrite Hq).
  set (st1 := set_limiter _ _). set (ctx := mkCtx _ _ _ _ _).
  assert (kept st st1) as Hk by by split.
  destruct (prepareScaleUp_spec st1 ctx valid nodeGroups Ht1 Hg Hv) as (st2 & out & -> & Hk2 & Hout).
  assert (kept st st2) as Hk3 by by etransitivity.
  destruct out as [plan|status err].
  - exists (length (plan_scaleUpInfos plan)). intros schedule Hs.
    destruct (execute_plan_spec (su_tracker st1) st2 ctx schedule plan) as (st' & status & err & -> & Hk4 & Hrep & Hsucc);
      [by apply (kept_ok _ _ Hk3)|done|done|].
    exists st', status, err, ctx. split; [done|]. split; [by etransitivity|]. split_and!; try done.
    intros Hres. destruct (Hsucc Hres) as (p & Hp & ?). exists p. split; [|done].
    by eapply plan_ok_room; [exact Hroom|].
  - exists 0%nat. intros schedule _. exists st2, status, err, ctx. split; [done|]. split; [done|].
    split_and!; try done; [by apply stop_report|]. intros Hres. destruct Hout as ([[Hr _]|[Hr _]] & _); congruence.
Qed.

Abbreviation early := (early_error opts).

Lemma early_error_spec tracker st nodes podCount allOrNothing nodeGroups aErr :
  groups_ok (su_groups st) →
  scale_up_ok tracker st nodes podCount allOrNothing (λ _, early st nodeGroups aErr).
Proof.
  intros Hg. exists 0%nat. intros _ _. unfold early_error.
  destruct (stop_error_spec (A := unit) st nodeGroups ∅ aErr [] [] (λ _ _, False) Hg ltac:(apply submseteq_nil_l))
    as (st' & out & -> & Hk & Hout).
  destruct out as [a|status err]; [done|]. exists st', status, err, (mkCtx nodes podCount allOrNothing 0 ∅).
  split; [done|]. split; [done|]. split_and!; try done; [by apply stop_report|].
  intros Hres. destruct Hout as ([[Hr _]|[Hr _]] & _); congruence.
Qed.

Context (quotas : result cp_error (list Quota)) (excluded : Node → bool)
  (NodeGroupForNode : Node → result cp_error (option NodeGroup)).

Abbreviation scale_groups := (scale_up_groups Capacity GetNodeResourceTargets aboveUnreadyPercentage OkTotalUnreadyCount
  env Exist Comparator quote opts IncreaseSize AtomicIncreaseSize Now Estimate BestOption CreateNodeGroup
  CreateNodeGroupAsync template Process InitBinpacking MarkProcessed StopBinpacking FinalizeBinpacking
  quotas excluded NodeGroupForNode).
Abbreviation new_tracker := (NewQuotasTracker Capacity GetNodeResourceTargets quotas excluded NodeGroupForNode).

(** The tracker that the scale-up starts from, if there is one. *)
Definition first_tracker nodes : Tracker :=
  match new_tracker nodes with Ok tracker => tracker | Err _ => mkTracker [] ∅ end.

Lemma new_tracker_is_ok nodes tracker : new_tracker nodes = Ok tracker → tracker_ok tracker.
Proof.
  unfold NewQuotasTracker. destruct quotas as [qs|e]; [|done].
  destruct (newQuotasTracker _ _ _ _ _ _ _) as [t|e] eqn:Hn; [|done]. intros [= <-].
  by destruct (new_tracker_ok _ _ _ _ _ _ _ _ Hn).
Qed.

Lemma scale_up_ok_kept tracker st0 st nodes podCount allOrNothing run :
  kept st0 st → scale_up_ok tracker st nodes podCount allOrNothing run →
  scale_up_ok tracker st0 nodes podCount allOrNothing run.
Proof.
  intros Hk (n & Hn). exists n. intros schedule Hs.
  destruct (Hn schedule Hs) as (st' & status & err & ctx & ? & ? & ?). exists st', status, err, ctx.
  split; [done|]. split; [by etransitivity|done].
Qed.

Lemma scale_up_groups_spec st pods nodes allOrNothing : groups_ok (su_groups st) →
  scale_up_ok (first_tracker nodes) st nodes ⟪ pods ⟫ allOrNothing
    (λ schedule, scale_groups st pods nodes allOrNothing schedule).
Proof.
  intros Hg. unfold scale_up_groups. destruct (UpcomingNodes _ _ _) as [upcoming|aErr]; [|by apply early_error_spec].
  assert (kept st (run_list_processor Process st (NodeGroups (env (su_world st))) pods).1.1) as Hk.
  { unfold run_list_processor. destruct Process as [process|]; [|done].
    by destruct (process _ _ _) as [[groups infos] err]; split. }
  destruct (run_list_processor _ _ _ _) as [[st1 nodeGroups] [err|]]; cbn [fst] in Hk;
    pose proof (kept_ok _ _ Hk Hg) as Hg1.
  { eapply scale_up_ok_kept; [exact Hk|by apply early_error_spec]. }
  set (st2 := set_limiter st1 _). unfold first_tracker.
  assert (kept st st2) as Hk2 by by destruct Hk; split.
  eapply scale_up_ok_kept; [exact Hk2|]. destruct (new_tracker nodes) as [tracker|err] eqn:Hn.
  - apply (scale_up_ok_kept _ _ (set_tracker st2 tracker)); [by split|].
    apply (scale_up_valid_spec (set_tracker st2 tracker)); [by eapply new_tracker_is_ok|done].
  - by apply early_error_spec.
Qed.

(** *** From the pods *)

Section pods.
Context {EnvVar MountData VolumeData ContainerData SpecData : Type}.
Abbreviation EPod := (Equivalence.Pod (VolumeData := VolumeData) (SpecData := SpecData)).
Abbreviation EContainer := (Equivalence.Container (EnvVar := EnvVar) (MountData := MountData)
  (ContainerData := ContainerData)).
Abbreviation EValue := (Equivalence.SpecValue (EnvVar := EnvVar) (MountData := MountData) (VolumeData := VolumeData)
  (ContainerData := ContainerData) (SpecData := SpecData)).
Context (DeepEqual : EValue → EValue → bool) (view : EPod → Pod).

Abbreviation scale_up := (ScaleUp Capacity GetNodeResourceTargets aboveUnreadyPercentage OkTotalUnreadyCount
  env Exist Comparator quote opts IncreaseSize AtomicIncreaseSize Now Estimate BestOption CreateNodeGroup
  CreateNodeGroupAsync template Process InitBinpacking MarkProcessed StopBinpacking FinalizeBinpacking
  quotas excluded NodeGroupForNode DeepEqual view).

(** The pods do not share their arrays of containers. *)
Definition separate_pods (pods : list EPod) : Prop :=
  ∀ p q, p ∈ pods → q ∈ pods → Equivalence.separate (Equivalence.Spec p) (Equivalence.Spec q).

Lemma ScaleUp_spec (h : gmap nat (list EContainer)) st pods nodes (nodeInfos : gmap string NI) allOrNothing :
  separate_pods pods →
  ∃ n, ∀ schedule, long_enough n schedule → ∃ h' st' status err ctx,
    scale_up true h st pods nodes nodeInfos allOrNothing schedule = (h', Some (st', (status, err))) ∧
    restored (su_snap st) (su_snap st') ∧ all_pods st' ≡ₚ view <$> pods ∧ report_ok st' status err ∧
    success_ok (first_tracker nodes) st' ctx status ∧
    ctx_nodes ctx = nodes ∧ ctx_podCount ctx = ⟪ pods ⟫ ∧ ctx_allOrNothing ctx = allOrNothing.
Proof.
  intros Hsep. unfold ScaleUp. cbn [negb].
  pose proof (Equivalence.BuildPodGroups_groups (Reasons := Reasons) DeepEqual h pods Hsep) as (_ & Hpods & Hok).
  destruct (Equivalence.BuildPodGroups DeepEqual h pods) as [h' egs]. cbn [snd] in Hpods, Hok.
  set (st1 := set_infos (set_groups st (of_equivalence view <$> egs)) nodeInfos).
  assert (GroupPods <$> (of_equivalence view <$> egs) =
    (λ l : list EPod, view <$> l) <$> (Equivalence.GroupPods <$> egs)) as Heq.
  { rewrite <- !list_fmap_compose. by apply list_fmap_ext. }
  assert (groups_ok (su_groups st1)) as Hg.
  { apply groups_ok_pods. cbn. rewrite Heq. apply Forall_fmap, Forall_fmap.
    eapply Forall_impl; [exact Hok|]. intros eg (rep & rest & Hp & _). cbn. by rewrite Hp. }
  destruct (scale_up_groups_spec st1 (view <$> pods) nodes allOrNothing Hg) as (n & Hn).
  exists n. intros schedule Hs. destruct (Hn schedule Hs) as (st' & status & err & ctx & Hrun & Hk & Hrep & Hsucc & Hctx).
  exists h', st', status, err, ctx. split; [by rewrite Hrun|]. split; [by destruct Hk|]. split.
  - rewrite (kept_all_pods _ _ Hk). unfold all_pods. cbn. rewrite Heq, <- concat_fmap_fmap. by rewrite Hpods.
  - rewrite length_fmap in Hctx. done.
Qed.


End pods.

(** ** Up to the minimal sizes *)

Abbreviation min_info := (min_size_info Capacity GetNodeResourceTargets aboveUnreadyPercentage OkTotalUnreadyCount env
  Exist quote opts).
Abbreviation min_infos := (min_size_infos Capacity GetNodeResourceTargets aboveUnreadyPercentage OkTotalUnreadyCount env
  Exist quote opts).

(** A scale-up of an existing group below its minimal size, to at most that
    size, and to at most the limit of nodes of the cluster. *)
Definition min_size_ok (x : ScaleUpInfo) : Prop :=
  let g := ScaleUpGroup x in
  Exist g = true ∧ TargetSize g = Ok (CurrentSize x) ∧ ScaleUpMaxSize x = MaxSize g ∧ CurrentSize x < MinSize g ∧
  CurrentSize x ≤ NewSize x ≤ MinSize g ∧ (0 < MaxNodesTotal opts → NewSize x ≤ MaxNodesTotal opts).

Lemma min_size_info_spec st now nodeInfos tracker g : tracker_ok tracker →
  let '(tracker', info) := min_info st now nodeInfos tracker g in
  quotaStatuses tracker' = quotaStatuses tracker ∧ ∀ x, info = Some x → ScaleUpGroup x = g ∧ min_size_ok x.
Proof.
  intros Ht. unfold min_size_info. destruct (Exist g) eqn:He; cbn [negb]; [|done].
  destruct (TargetSize g) as [target|e] eqn:Hts; [|done]. destruct (Z.leb_spec (MinSize g) target); [done|].
  destruct (IsNodeGroupReadyToScaleUp _ _ _ _ _ _ _); [done|]. destruct (nodeInfos !! Id g) as [ni|]; [|done].
  unfold IsNodeGroupResourceExceeded. pose proof (CheckQuota_room tracker g (ni_Node ni) 1) as [Hq _].
  destruct (CheckQuota _ _ tracker _ _ 1) as [t1 r1]. cbn [fst] in Hq.
  assert (tracker_ok t1) as Ht1 by (unfold tracker_ok in *; by rewrite Hq).
  assert (let '(tracker', info) := match CheckQuota Capacity GetNodeResourceTargets t1 (Some g) (ni_Node ni) (MinSize g - target) with
      | (tracker, Err _) => (tracker, None)
      | (tracker, Ok checkResult) =>
          match GetCappedNewNodeCount opts (AllowedDelta checkResult) target with
          | (_, Some _) => (tracker, None)
          | (newNodeCount, None) => (tracker, Some (mkScaleUp g target (target + newNodeCount) (MaxSize g)))
          end
      end in
    quotaStatuses tracker' = quotaStatuses tracker ∧ ∀ x, info = Some x → ScaleUpGroup x = g ∧ min_size_ok x) as Hgo.
  { destruct (CheckQuota _ _ t1 _ _ _) as [t2 r2] eqn:Hck.
    destruct (CheckQuota_bounds _ _ _ _ _ _ _ _ Ht1 Hck) as [Hq2 Hb]. destruct r2 as [r|e]; [|by split; [congruence|]].
    specialize (Hb _ eq_refl). unfold GetCappedNewNodeCount.
    destruct ((0 <? MaxNodesTotal opts) && _) eqn:Hm.
    - destruct (Z.ltb_spec (MaxNodesTotal opts - target) 1); [by split; [congruence|]|]. split; [congruence|].
      apply andb_true_iff in Hm as [_ Hm]. intros x [= <-]. unfold min_size_ok. cbn. split_and!; (done || lia).
    - split; [congruence|]. intros x [= <-]. unfold min_size_ok. cbn. split_and!; (done || lia). }
  destruct r1 as [r|e]; [destruct (Exceeded r)|]; done.
Qed.

(** Scaling up to the minimal sizes asks for existing groups below their
    minimum, each once and in the order of the provider, for at most what they
    lack; and it consumes no quota, so every group is checked against all of
    what is left. *)
Theorem min_size_scale_ups st now nodeInfos tracker nodeGroups : tracker_ok tracker →
  let '(tracker', infos) := min_infos st now nodeInfos tracker nodeGroups in
  quotaStatuses tracker' = quotaStatuses tracker ∧ Forall min_size_ok infos ∧
  sublist (ScaleUpGroup <$> infos) nodeGroups.
Proof.
  intros Ht. unfold min_size_infos. induction nodeGroups as [|g nodeGroups IH] using rev_ind; [by repeat constructor|].
  rewrite foldl_app. cbn [foldl]. destruct (foldl _ _ nodeGroups) as [t1 infos]. destruct IH as (Hq & Hok & Hsub).
  assert (tracker_ok t1) as Ht1 by (unfold tracker_ok in *; by rewrite Hq).
  pose proof (min_size_info_spec st now nodeInfos t1 g Ht1) as Hi.
  destruct (min_info st now nodeInfos t1 g) as [t2 [x|]]; destruct Hi as [Hq2 Hx]; (split; [congruence|]).
  - destruct (Hx _ eq_refl) as [<- Hx2]. split; [by apply Forall_app; split; [|apply Forall_singleton]|].
    rewrite fmap_app. by apply sublist_app.
  - split; [done|]. rewrite <- (app_nil_r (ScaleUpGroup <$> infos)). apply sublist_app; [done|apply sublist_nil_l].
Qed.
End orchestrator_proofs.

(** ** A cluster that scales up *)

(** Two node groups, of nodes with four cores, in a cluster of four nodes that
    may have 25 cores. An estimate is one node for every pod; the first option
    is the best. *)
Module OrchestratorExample.
#[export] Instance cs : ClusterSnapshot demo_sched unit unit (spec_state demo_sched unit unit) :=
  ref_snapshot (λ _ _, true).
Abbreviation NI := (NodeInfo demo_sched unit unit).
Definition node_info (name : string) : NI := mkNodeInfo (named_node name, []) [] None.
Definition infos : gmap string NI := {["a" := node_info "template-a"; "b" := node_info "template-b"]}.
Definition snap : spec_state demo_sched unit unit := mkSpec ∅ [].
Definition cores : Quota := mkQuota "cores" (λ _, true) {[ResourceCPU := 25]}.
Definition estimate (c : Estimator.EstimationContext) (s : spec_state demo_sched unit unit) (pegs : list Peg)
    (ni : NI) (g : NodeGroup) : spec_state demo_sched unit unit * (Z * list Pod) :=
  (s, (⟪ concat pegs ⟫, concat pegs)).
Definition best (options : list Option) (ni : gmap string NI) : option Option := head options.
Definition no_create (w : nat) (g : NodeGroup) : nat * result AutoscalerError CreateNodeGroupResult :=
  (w, Err (NewAutoscalerError InternalError "no node group can be created")).
Definition template (w : nat) (g : NodeGroup) : result AutoscalerError NI :=
  Err (NewAutoscalerError InternalError "no template").
Definition opts (total : Z) : ScaleUpOptions :=
  mkScaleUpOptions total true false false false (mkOptions (of_int 0) (of_int 0) 0 0 0 0 false false false).
Definition increase (w : nat) (g : NodeGroup) (n : Z) : nat * option go_error := (Datatypes.S w, None).
Definition nodes : list Node :=
  [CsrExample.node "a1" "a"; CsrExample.node "a2" "a"; CsrExample.node "a3" "a"; CsrExample.node "b1" "b"].
Definition view (p : Equivalence.Pod (VolumeData := unit) (SpecData := unit)) : Pod :=
  simple_pod "default" (match Equivalence.ControllerRef p with Some _ => "web" | None => "tool" end) ∅ [].
Definition start : su_state (S := demo_sched) (Slice := unit) (CSI := unit) (World := nat) (Limiter := unit) :=
  mkSu 0%nat snap [] ∅ (csr_run CsrExample.csr0 [(CsrExample.env, EvUpdate nodes (Ok ∅) 900)]) (mkTracker [] ∅) tt.
Definition scale_up (total : Z) (allOrNothing : bool) :=
  ScaleUp QuotaExample.capacity QuotaExample.targets (λ _ _, false) 10 ExecutorExample.env (λ _, true)
    (λ _ _, true) ErrorExample.quote (opts total) increase ExecutorExample.atomic_increase
    ExecutorExample.clock estimate best no_create no_create template None (λ l _, l) (λ l _, l) (λ l _, (l, false))
    (λ l _, l) (Ok [cores]) (λ _, false) (EnvNodeGroupForNode CsrExample.env) Equivalence.EquivalenceExample.deep_equal view
    true Equivalence.EquivalenceExample.containers start Equivalence.EquivalenceExample.pods nodes infos allOrNothing [].
End OrchestratorExample.

(** Two nodes are left within the 25 cores, or one within the node limit; three
    pods need three nodes, so all or nothing is nothing. *)
Example orchestrator_run :
  (λ r, match r with
        | (_, Some (_, (s, _))) => (Result s, (λ i, (Id (ScaleUpGroup i), CurrentSize i, NewSize i)) <$> ScaleUpInfos s,
                                    length (PodsTriggeredScaleUp s))
        | _ => (ScaleUpNotTried, [], 0%nat)
        end) <$> [OrchestratorExample.scale_up 0 false; OrchestratorExample.scale_up 5 false;
                  OrchestratorExample.scale_up 0 true] =
  [(ScaleUpSuccessful, [("b", 1, 3)], 3%nat); (ScaleUpSuccessful, [("b", 1, 2)], 3%nat);
   (ScaleUpNoOptionsAvailable, [], 0%nat)].
Proof. vm_compute. reflexivity. Qed.

Import OrchestratorExample.

Lemma example_estimate context snap pegs (nodeInfo : NodeInfo demo_sched unit unit) nodeGroup :
  restored snap (estimate context snap pegs nodeInfo nodeGroup).1 ∧
  (estimate context snap pegs nodeInfo nodeGroup).2.2 ⊆+ concat pegs.
Proof. by split. Qed.

Lemma example_best options infos o : best options infos = Some o →
  ∃ o', o' ∈ options ∧ OptNodeGroup o = OptNodeGroup o' ∧ NodeCount o = NodeCount o' ∧ OptPods o = OptPods o'.
Proof. destruct options as [|o' options]; [done|]. intros [= ->]. exists o. by split_and!; [left|..]. Qed.

Lemma example_snap_ok : snap_ok snap.
Proof. split; [apply map_Forall_empty|constructor]. Qed.

Lemma some_schedule n : ∃ schedule, long_enough n schedule.
Proof.
  exists (concat (replicate 4 (seq 0 n))). intros i Hi. cbn [replicate concat]. rewrite !filter_app, !length_app.
  assert (1 ≤ length (filter (eq i) (seq 0 n)))%nat; [|lia].
  destruct (filter (eq i) (seq 0 n)) as [|x l] eqn:Hf; [|simpl; lia].
  assert (i ∈ filter (eq i) (seq 0 n)) as Hin; [|rewrite Hf in Hin; by apply elem_of_nil in Hin].
  apply list_elem_of_filter. split; [done|]. apply list_elem_of_In, in_seq. lia.
Qed.


(** The plan of the run above, with nine cores left. *)
Module PlanExample.
Definition st : su_state (S := demo_sched) (Slice := unit) (CSI := unit) (World := nat) (Limiter := unit) :=
  mkSu 0%nat OrchestratorExample.snap
    [mkPodGroup (OrchestratorExample.view <$> Equivalence.EquivalenceExample.pods) ∅ [] false] OrchestratorExample.infos
    (su_csr OrchestratorExample.start) (mkTracker [Quotas.mkStatus OrchestratorExample.cores {[ResourceCPU := 9]}] ∅) tt.
Definition ctx : scaleUpCtx := mkCtx OrchestratorExample.nodes 3 false 1000 ∅.
Definition groups : list NodeGroup := [CsrExample.ga; CsrExample.gb].
Definition prepare :=
  prepareScaleUp QuotaExample.capacity QuotaExample.targets (λ _ _, false) 10 ExecutorExample.env (λ _, true)
    (λ _ _, true) ErrorExample.quote (OrchestratorExample.opts 0) OrchestratorExample.estimate OrchestratorExample.best
    OrchestratorExample.no_create OrchestratorExample.no_create OrchestratorExample.template (λ l _, l)
    (λ l _, (l, false)) (λ l _, l) st ctx groups groups.
End PlanExample.


(** Two empty groups that must have two nodes, in a cluster of four nodes that
    may have five, and five cores left. *)
Module MinSizeExample.
Definition group (id : string) : NodeGroup := mkNodeGroup id 2 10 (Ok 0) (Ok []) (λ _, (None, None)).
Definition env (w : nat) : ClusterEnv :=
  mkEnv [group "a"; group "b"] (EnvNodeGroupForNode CsrExample.env) (λ _, Ok true) (λ _, false)
    (λ _, Ok 900) (λ _, Ok 900) (λ _, true) (λ _, "").
Definition csr : ClusterStateRegistry := csr_run CsrExample.csr0 [(env 0%nat, EvRecalculate)].
Definition tracker : Tracker := mkTracker [Quotas.mkStatus OrchestratorExample.cores {[ResourceCPU := 9]}] ∅.
Definition infos (total : Z) : Tracker * list ScaleUpInfo :=
  min_size_infos QuotaExample.capacity QuotaExample.targets (λ _ _, false) 10 env (λ _, true) ErrorExample.quote
    (OrchestratorExample.opts total) (mkSu 0%nat OrchestratorExample.snap [] ∅ csr tracker tt) 1000
    OrchestratorExample.infos tracker [group "a"; group "b"].
End MinSizeExample.

(** Together the groups cross the limit of nodes (four nodes are there) and the
    quota (nine cores are left). *)
Lemma min_size_crosses_limits :
  total_increase (MinSizeExample.infos 5).2 = 4 ∧
  (λ i, (Id (ScaleUpGroup i), NewSize i)) <$> (MinSizeExample.infos 5).2 = [("a", 2); ("b", 2)] ∧
  4 * total_increase (MinSizeExample.infos 0).2 = 16.
Proof. vm_compute. by split_and!. Qed.

Lemma min_size_scale_ups_witness :
  Forall (min_size_ok (λ _, true) (OrchestratorExample.opts 5)) (MinSizeExample.infos 5).2 ∧
  length (MinSizeExample.infos 5).2 = 2%nat.
Proof.
  split; [|vm_compute; reflexivity].
  pose proof (min_size_scale_ups QuotaExample.capacity QuotaExample.targets (λ _ _, false) 10 MinSizeExample.env
    (λ _, true) ErrorExample.quote (OrchestratorExample.opts 5)
    (mkSu 0%nat OrchestratorExample.snap [] ∅ MinSizeExample.csr MinSizeExample.tracker tt) 1000
    OrchestratorExample.infos MinSizeExample.tracker [MinSizeExample.group "a"; MinSizeExample.group "b"]) as H.
  unfold MinSizeExample.infos. destruct (min_size_infos _ _ _ _ _ _ _ _ _ _ _ _ _) as [t infos].
  apply H. apply Forall_singleton. apply map_Forall_singleton. unfold int64_max. simpl. lia.
Defined.

Lemma valid_groups_exact_witness :
  let '(_, valid, skipped) :=
    filterValidScaleUpNodeGroups QuotaExample.capacity QuotaExample.targets (λ _ _, false) 10 CsrExample.env
      (λ _, true) ErrorExample.quote (OrchestratorExample.opts 0) (su_csr OrchestratorExample.start)
      [CsrExample.ga; CsrExample.gb] OrchestratorExample.infos MinSizeExample.tracker 4 1000 in
  Id <$> valid = ["a"; "b"] ∧ skipped !! "a" = None ∧
  may_grow QuotaExample.capacity QuotaExample.targets (λ _ _, false) 10 CsrExample.env (λ _, true)
    (OrchestratorExample.opts 0) (su_csr OrchestratorExample.start) OrchestratorExample.infos 4 1000
    MinSizeExample.tracker CsrExample.ga.
Proof.
  pose proof (valid_groups_exact QuotaExample.capacity QuotaExample.targets (λ _ _, false) 10 CsrExample.env
    (λ _, true) ErrorExample.quote (OrchestratorExample.opts 0) (su_csr OrchestratorExample.start)
    [CsrExample.ga; CsrExample.gb] OrchestratorExample.infos MinSizeExample.tracker 4 1000
    ltac:(apply (bool_decide_unpack _); vm_compute; exact I)) as H.
  assert (Id <$> (filterValidScaleUpNodeGroups QuotaExample.capacity QuotaExample.targets (λ _ _, false) 10
      CsrExample.env (λ _, true) ErrorExample.quote (OrchestratorExample.opts 0) (su_csr OrchestratorExample.start)
      [CsrExample.ga; CsrExample.gb] OrchestratorExample.infos MinSizeExample.tracker 4 1000).1.2 = ["a"; "b"]) as Hids
    by (vm_compute; reflexivity).
  destruct (filterValidScaleUpNodeGroups _ _ _ _ _ _ _ _ _ _ _ _ _ _) as [[t valid] skipped]. cbn [fst snd] in Hids.
  destruct H as (_ & Hsub & Hv & Hskip & _). split; [exact Hids|].
  assert (CsrExample.ga ∈ valid) as Hin.
  { assert (length valid = 2%nat) as Hlen by (by rewrite <- (length_fmap Id), Hids).
    rewrite (submseteq_full _ _ (sublist_submseteq _ _ Hsub)) by (rewrite Hlen; simpl; lia). left. }
  split; [|by apply Hv]. etransitivity; [apply (Hskip CsrExample.ga); left|]. apply skip_None, Hv, Hin.
Defined.
