(* ===== verification/Dra.v ===== *)
(** The snapshot of dynamic resource objects
    (src/pkg/simulator/dynamicresources/snapshot, dynamicresources/utils): the
    claims are objects in a heap that several layers of a patch set may point
    to, written in place only when the current layer owns them. *)
From stdpp Require Import prelude gmap strings list numbers fin_maps fin_sets.
From S2P Require Import Prelude Api Drain PatchSet.
Local Open Scope Z_scope.
Local Open Scope ca_scope.

(** ** Claims *)

Record ConsumerReference : Type := mkConsumer {
  ref_APIGroup : string; ref_Resource : string; ref_Name : string; ref_UID : string
}.
#[export] Instance ConsumerReference_eq_dec : EqDecision ConsumerReference.
Proof. solve_decision. Defined.

(** [PodResourceClaim] of the spec of a pod and its status. *)
Record ClaimRef : Type := mkClaimRef { cr_Name : string; cr_ResourceClaimName : option string }.

(** [ResourceClaimReservedForMaxSize]. *)
Definition ResourceClaimReservedForMaxSize : Z := 256.

(** [ResourceClaimId]: name and namespace. *)
Abbreviation ResourceClaimId := (string * string)%type.

Inductive dra_error : Type :=
| ErrClaimTracked (id : ResourceClaimId)
| ErrNoClaimName (ref : string)
| ErrClaimNotInSnapshot (ref : string)
| ErrClaimFull (id : ResourceClaimId)
| ErrSlicesPresent (nodeName : string)
| ErrClaimNotFound (id : ResourceClaimId)
| ErrClaimUID (id : ResourceClaimId).
#[export] Instance dra_error_eq_dec : EqDecision dra_error.
Proof. solve_decision. Defined.

Section claims.
Context {Selector ShareID Consumed ClaimData : Type}.

(** [DeviceRequestAllocationResult]. *)
Record DeviceResult : Type := mkDevice {
  dev_Driver : string; dev_Pool : string; dev_Device : string;
  dev_ShareID : option ShareID; dev_ConsumedCapacity : option Consumed
}.

Record AllocationResult : Type := mkAlloc {
  alloc_NodeSelector : option Selector; alloc_Devices : list DeviceResult
}.

(** [resourceapi.ResourceClaim]; its owners and its spec are data. *)
Record Claim : Type := mkClaim {
  cl_Name : string; cl_Namespace : string; cl_UID : string; cl_data : ClaimData;
  Allocation : option AllocationResult;
  ReservedFor : list ConsumerReference
}.

Definition GetClaimId (c : Claim) : ResourceClaimId := (cl_Name c, cl_Namespace c).

Definition set_allocation (c : Claim) a : Claim :=
  mkClaim (cl_Name c) (cl_Namespace c) (cl_UID c) (cl_data c) a (ReservedFor c).
Definition set_reserved (c : Claim) r : Claim :=
  mkClaim (cl_Name c) (cl_Namespace c) (cl_UID c) (cl_data c) (Allocation c) r.

Definition ClaimAllocated (c : Claim) : bool := bool_decide (is_Some (Allocation c)).
Definition ClaimInUse (c : Claim) : bool := 0 <? ⟪ ReservedFor c ⟫.
Definition ClaimFullyReserved (c : Claim) : bool := ResourceClaimReservedForMaxSize <=? ⟪ ReservedFor c ⟫.

(** [corev1.MatchNodeSelectorTerms] is the scheduler's. *)
Definition ClaimAvailableOnNode (MatchNodeSelectorTerms : Node → Selector → result string bool) (c : Claim)
    (node : Node) : result string bool :=
  match Allocation c with
  | None => Ok false
  | Some a => match alloc_NodeSelector a with
              | None => Ok true
              | Some selector => MatchNodeSelectorTerms node selector
              end
  end.

Definition DeallocateClaim (c : Claim) : Claim := set_allocation c None.

Definition claimConsumerReferenceMatchesPod (pod : Pod) (ref : ConsumerReference) : bool :=
  bool_decide (ref_APIGroup ref = "") && bool_decide (ref_Resource ref = "pods") &&
  bool_decide (ref_Name ref = PodName pod) && bool_decide (ref_UID ref = PodUID pod).

Definition ClearPodReservation (pod : Pod) (c : Claim) : Claim :=
  match list_find (λ ref, claimConsumerReferenceMatchesPod pod ref = true) (ReservedFor c) with
  | Some (i, _) => set_reserved c (take i (ReservedFor c) ++ drop (S i) (ReservedFor c))
  | None => c
  end.

Definition PodClaimConsumerReference (pod : Pod) : ConsumerReference :=
  mkConsumer "" "pods" (PodName pod) (PodUID pod).

(** [resourceclaim.IsForPod] and [IsReservedForPod] are the scheduler's. *)
Context (IsForPod IsReservedForPod : Pod → Claim → bool).

Definition AddPodReservation (pod : Pod) (c : Claim) : Claim :=
  if negb (IsReservedForPod pod c) then set_reserved c (ReservedFor c ++ [PodClaimConsumerReference pod]) else c.

(** ** The snapshot *)

Context {Slice Class_ : Type} `{GR : GoRange}.
(** The references to claims in the spec of a pod, and in its status. *)
Context (ClaimRefs ClaimStatuses : Pod → list ClaimRef).

Record DraSnapshot : Type := mkDra {
  heap : gmap nat Claim;
  resourceClaims : PatchSet ResourceClaimId nat;
  resourceSlices : PatchSet string (list Slice);
  deviceClasses : PatchSet string Class_
}.
Implicit Types (s : DraSnapshot) (pod : Pod) (c : Claim) (l : nat).

Definition nonNodeLocalResourceSlicesIdentifier : string := "--NON-LOCAL--".

Definition NewSnapshot (h : gmap nat Claim) (claims : gmap ResourceClaimId nat)
    (nodeLocalSlices : gmap string (list Slice)) (nonNodeLocalSlices : list Slice)
    (classes : gmap string Class_) : DraSnapshot :=
  mkDra h (NewPatchSet [NewPatchFromMap (Some claims)])
    (NewPatchSet [NewPatchFromMap (Some (<[nonNodeLocalResourceSlicesIdentifier := nonNodeLocalSlices]> nodeLocalSlices))])
    (NewPatchSet [NewPatchFromMap (Some classes)]).

Definition NewEmptySnapshot (h : gmap nat Claim) : DraSnapshot :=
  mkDra h (NewPatchSet [NewPatch]) (NewPatchSet [NewPatch]) (NewPatchSet [NewPatch]).

Definition set_claims s claims : DraSnapshot := mkDra (heap s) claims (resourceSlices s) (deviceClasses s).
Definition set_heap s h : DraSnapshot := mkDra h (resourceClaims s) (resourceSlices s) (deviceClasses s).
Definition set_slices s slices : DraSnapshot := mkDra (heap s) (resourceClaims s) slices (deviceClasses s).

(** A pointer to a claim that is not there cannot be read. *)
Definition deref s l : option Claim := heap s !! l.

(** The id of the claim behind a pointer of the caller. *)
Fixpoint tracked_claim s (newClaims : list nat) : DraSnapshot * option ResourceClaimId :=
  match newClaims with
  | [] => (s, None)
  | l :: newClaims =>
      match deref s l with
      | None => tracked_claim s newClaims
      | Some c =>
          match PatchSet_FindValue (resourceClaims s) (GetClaimId c) with
          | (claims, Some _) => (set_claims s claims, Some (GetClaimId c))
          | (claims, None) => tracked_claim (set_claims s claims) newClaims
          end
      end
  end.

Definition set_claim s l : DraSnapshot :=
  match deref s l with
  | Some c => set_claims s (PatchSet_SetCurrent (resourceClaims s) (GetClaimId c) l)
  | None => s
  end.

Definition AddClaims s (newClaims : list nat) : DraSnapshot * option dra_error :=
  match tracked_claim s newClaims with
  | (s, Some id) => (s, Some (ErrClaimTracked id))
  | (s, None) => (foldl set_claim s newClaims, None)
  end.

Definition claimRefToName pod (claimRef : ClaimRef) : string :=
  match cr_ResourceClaimName claimRef with
  | Some name => name
  | None =>
      match list_find (λ st, cr_Name st = cr_Name claimRef ∧ is_Some (cr_ResourceClaimName st)) (ClaimStatuses pod) with
      | Some (_, st) => default "" (cr_ResourceClaimName st)
      | None => ""
      end
  end.

(** The slots of the claims that are ignored stay nil. *)
Fixpoint find_claims pod (ignoreNotTracked : bool) s (refs : list ClaimRef)
    : DraSnapshot * result dra_error (list (option nat)) :=
  match refs with
  | [] => (s, Ok [])
  | claimRef :: refs =>
      let claimName := claimRefToName pod claimRef in
      let next (s : DraSnapshot) (found : option nat) :=
        match find_claims pod ignoreNotTracked s refs with
        | (s, Ok result) => (s, Ok (found :: result))
        | (s, Err e) => (s, Err e)
        end in
      if bool_decide (claimName = "") then
        if ignoreNotTracked then next s None else (s, Err (ErrNoClaimName (cr_Name claimRef)))
      else
        match PatchSet_FindValue (resourceClaims s) (claimName, PodNamespace pod) with
        | (claims, Some l) => next (set_claims s claims) (Some l)
        | (claims, None) =>
            if ignoreNotTracked then next (set_claims s claims) None
            else (set_claims s claims, Err (ErrClaimNotInSnapshot (cr_Name claimRef)))
        end
  end.

Definition findPodClaims s pod (ignoreNotTracked : bool) : DraSnapshot * result dra_error (list (option nat)) :=
  find_claims pod ignoreNotTracked s (ClaimRefs pod).

(** When nothing is ignored every slot is set. *)
Definition pointers (claims : list (option nat)) : list nat := omap id claims.

Definition PodClaims s pod : DraSnapshot * result dra_error (list nat) :=
  match findPodClaims s pod false with
  | (s, Ok claims) => (s, Ok (pointers claims))
  | (s, Err e) => (s, Err e)
  end.

(** A claim of the current layer is written in place, any other one is copied. *)
Definition ensureClaimWritable s l : DraSnapshot * nat :=
  match deref s l with
  | None => (s, l)
  | Some c =>
      if InCurrentPatch (resourceClaims s) (GetClaimId c) then (s, l)
      else let l' := fresh (dom (heap s)) in (set_heap s (<[l' := c]> (heap s)), l')
  end.

(** [claim := s.ensureClaimWritable(claim); f(claim); SetCurrent(claimId, claim)] *)
Definition write_claim (f : Claim → Claim) s l : DraSnapshot :=
  match deref s l with
  | None => s
  | Some c =>
      let '(s, l) := ensureClaimWritable s l in
      let s := set_heap s (alter f l (heap s)) in
      set_claims s (PatchSet_SetCurrent (resourceClaims s) (GetClaimId c) l)
  end.

(** [None] is the panic on a nil claim. *)
Fixpoint remove_claims pod s (claims : list (option nat)) : option DraSnapshot :=
  match claims with
  | [] => Some s
  | None :: _ => None
  | Some l :: claims =>
      match deref s l with
      | None => None
      | Some c =>
          if IsForPod pod c
          then remove_claims pod (set_claims s (PatchSet_DeleteCurrent (resourceClaims s) (GetClaimId c))) claims
          else remove_claims pod (write_claim (ClearPodReservation pod) s l) claims
      end
  end.

Definition RemovePodOwnedClaims s pod : option DraSnapshot :=
  match findPodClaims s pod true with
  | (s, Ok claims) => remove_claims pod s claims
  | (s, Err _) => Some s
  end.

Definition full_claim pod s (claims : list nat) : option ResourceClaimId :=
  match list_find (λ l, match deref s l with
                        | Some c => ClaimFullyReserved c && negb (IsReservedForPod pod c)
                        | None => false
                        end = true) claims with
  | Some (_, l) => GetClaimId <$> deref s l
  | None => None
  end.

Definition ReservePodClaims s pod : DraSnapshot * option dra_error :=
  match PodClaims s pod with
  | (s, Err e) => (s, Some e)
  | (s, Ok claims) =>
      match full_claim pod s claims with
      | Some id => (s, Some (ErrClaimFull id))
      | None => (foldl (write_claim (AddPodReservation pod)) s claims, None)
      end
  end.

Definition unreserve pod c : Claim :=
  let c' := ClearPodReservation pod c in
  if IsForPod pod c' || negb (ClaimInUse c') then DeallocateClaim c' else c'.

Definition UnreservePodClaims s pod : DraSnapshot * option dra_error :=
  match PodClaims s pod with
  | (s, Err e) => (s, Some e)
  | (s, Ok claims) => (foldl (write_claim (unreserve pod)) s claims, None)
  end.

Definition NodeResourceSlices s (nodeName : string) : DraSnapshot * option (list Slice) :=
  let '(slices, r) := PatchSet_FindValue (resourceSlices s) nodeName in (set_slices s slices, r).

Definition AddNodeResourceSlices s (nodeName : string) (slices : list Slice) : DraSnapshot * option dra_error :=
  match NodeResourceSlices s nodeName with
  | (s, Some _) => (s, Some (ErrSlicesPresent nodeName))
  | (s, None) => (set_slices s (PatchSet_SetCurrent (resourceSlices s) nodeName slices), None)
  end.

Definition RemoveNodeResourceSlices s (nodeName : string) : DraSnapshot :=
  set_slices s (PatchSet_DeleteCurrent (resourceSlices s) nodeName).

Definition dra_Fork s : DraSnapshot :=
  mkDra (heap s) (PatchSet_Fork (resourceClaims s)) (PatchSet_Fork (resourceSlices s)) (PatchSet_Fork (deviceClasses s)).
Definition dra_Revert s : DraSnapshot :=
  mkDra (heap s) (PatchSet_Revert (resourceClaims s)) (PatchSet_Revert (resourceSlices s))
    (PatchSet_Revert (deviceClasses s)).
Definition dra_Commit s : DraSnapshot :=
  mkDra (heap s) (PatchSet_Commit (resourceClaims s)) (PatchSet_Commit (resourceSlices s))
    (PatchSet_Commit (deviceClasses s)).

(** *** For the scheduler *)

Definition listResourceClaims s : DraSnapshot * list nat :=
  let '(claims, m) := PatchSet_AsMap (resourceClaims s) in (set_claims s claims, (go_range m).*2).

Definition listResourceSlices s : DraSnapshot * list Slice :=
  let '(slices, m) := PatchSet_AsMap (resourceSlices s) in (set_slices s slices, concat (go_range m).*2).

Definition listDeviceClasses s : DraSnapshot * list Class_ :=
  let '(classes, m) := PatchSet_AsMap (deviceClasses s) in
  (mkDra (heap s) (resourceClaims s) (resourceSlices s) classes, (go_range m).*2).

Definition getResourceClaim s (claimId : ResourceClaimId) : DraSnapshot * option nat :=
  let '(claims, r) := PatchSet_FindValue (resourceClaims s) claimId in (set_claims s claims, r).

Definition getDeviceClass s (className : string) : DraSnapshot * option Class_ :=
  let '(classes, r) := PatchSet_FindValue (deviceClasses s) className in
  (mkDra (heap s) (resourceClaims s) (resourceSlices s) classes, r).

Definition configureResourceClaim s l : DraSnapshot := set_claim s l.

Definition SignalClaimPendingAllocation s (claimUid : string) (allocatedClaim : nat) : DraSnapshot * option dra_error :=
  match deref s allocatedClaim with
  | None => (s, None)
  | Some a =>
      match getResourceClaim s (GetClaimId a) with
      | (s, None) => (s, Some (ErrClaimNotFound (GetClaimId a)))
      | (s, Some l) =>
          match deref s l with
          | None => (s, None)
          | Some c =>
              if bool_decide (cl_UID c = claimUid) then (configureResourceClaim s allocatedClaim, None)
              else (s, Some (ErrClaimUID (GetClaimId a)))
          end
      end
  end.
End claims.
