(* ===== verification/DraProofs.v ===== *)
(** The snapshot of dynamic resources behaves like a stack of maps of claims,
    by value: writing in place never shows in a lower layer, as long as no pod
    refers to a claim twice. *)
From stdpp Require Import prelude gmap strings list numbers fin_maps fin_sets.
From S2P Require Import Prelude Api Drain PatchSet Dra.
Local Open Scope Z_scope.
Local Open Scope ca_scope.

Section dra.
Context {Selector ShareID Consumed ClaimData Slice Class_ : Type} `{GR : GoRange}.
Abbreviation claim := (Claim (Selector := Selector) (ShareID := ShareID) (Consumed := Consumed) (ClaimData := ClaimData)).
Abbreviation snapshot := (DraSnapshot (Selector := Selector) (ShareID := ShareID) (Consumed := Consumed)
  (ClaimData := ClaimData) (Slice := Slice) (Class_ := Class_)).
Context (IsForPod IsReservedForPod : Pod → claim → bool) (ClaimRefs ClaimStatuses : Pod → list ClaimRef).
Implicit Types (s : snapshot) (pod : Pod) (c : claim) (l : nat) (m : gmap ResourceClaimId nat).

(** ** The claims that a snapshot shows *)

Definition claims_of (h : gmap nat claim) m : gmap ResourceClaimId claim := omap (λ l, h !! l) m.

(** One map for every layer, the visible one first. *)
Definition claim_stack s : list (gmap ResourceClaimId claim) := claims_of (heap s) <$> ps_abs (resourceClaims s).

(** What a layer owns is in no map below it. *)
Fixpoint owned (layers : list (Patch ResourceClaimId nat)) : Prop :=
  match layers with
  | [] => True
  | layer :: layers =>
      (∀ id l, modified layer !! id = Some l → ∀ m id', m ∈ stack_of_rev layers → m !! id' ≠ Some l) ∧
      owned layers
  end.

Record claims_ok (h : gmap nat claim) (p : PatchSet ResourceClaimId nat) : Prop := mkClaimsOk {
  co_patches : patchset_ok p;
  co_layer : patches p ≠ [];
  co_heap : ∀ m id l, m ∈ ps_abs p → m !! id = Some l → ∃ c, h !! l = Some c ∧ GetClaimId c = id;
  co_owned : owned (reverse (patches p))
}.

Lemma ps_abs_snoc (ps : list (Patch ResourceClaimId nat)) a ca b :
  ps_abs (mkPatchSet (ps ++ [a]) ca b) = flatten (ps ++ [a]) :: stack_of_rev (reverse ps).
Proof. unfold ps_abs. simpl. apply stack_of_snoc. Qed.

Lemma owned_snoc (ps : list (Patch ResourceClaimId nat)) a :
  owned (reverse (ps ++ [a])) ↔
  (∀ id l, modified a !! id = Some l → ∀ m id', m ∈ stack_of_rev (reverse ps) → m !! id' ≠ Some l) ∧
  owned (reverse ps).
Proof. by rewrite reverse_app. Qed.

(** The last layer of a patch set. *)
Lemma claims_ok_last h p : claims_ok h p → ∃ ps a ca b, p = mkPatchSet (ps ++ [a]) ca b.
Proof.
  intros [_ Hne _ _]. destruct p as [ps c b]. simpl in Hne.
  destruct ps as [|a ps _] using rev_ind; [done|]. by eexists _, _, _, _.
Qed.

Lemma claims_of_lookup h m id c : claims_of h m !! id = Some c ↔ ∃ l, m !! id = Some l ∧ h !! l = Some c.
Proof. unfold claims_of. rewrite lookup_omap. destruct (m !! id) as [l|]; simpl; naive_solver. Qed.

(** Writing a location no map points to is not seen. *)
Lemma claims_of_unseen (h h' : gmap nat claim) m :
  (∀ id l, m !! id = Some l → h' !! l = h !! l) → claims_of h' m = claims_of h m.
Proof.
  intros Hh. apply map_eq. intros id. unfold claims_of. rewrite !lookup_omap.
  destruct (m !! id) as [l|] eqn:Hid; simpl; [by apply Hh in Hid|done].
Qed.

Lemma claims_of_stack_unseen (h h' : gmap nat claim) (st : list (gmap ResourceClaimId nat)) :
  (∀ m id l, m ∈ st → m !! id = Some l → h' !! l = h !! l) → claims_of h' <$> st = claims_of h <$> st.
Proof.
  intros Hh. apply list_fmap_ext. intros i m Hm. apply claims_of_unseen. intros id l Hl.
  eapply Hh; [by eapply list_elem_of_lookup_2|done].
Qed.

(** The heap may grow anywhere. *)
Lemma claims_ok_heap h h' p :
  claims_ok h p → (∀ l c, h !! l = Some c → ∃ c', h' !! l = Some c' ∧ GetClaimId c' = GetClaimId c) → claims_ok h' p.
Proof.
  intros [Hp Hne Hh Ho] Hsame. split; [done..| |done]. intros m id l Hm Hl.
  destruct (Hh m id l Hm Hl) as (c & Hc & <-). by apply Hsame in Hc.
Qed.

(** *** Every operation of the patch set *)

Lemma claims_find h p id : claims_ok h p →
  let '(p', r) := PatchSet_FindValue p id in
  claims_ok h p' ∧ ps_abs p' = ps_abs p ∧ r = top (ps_abs p) !! id ∧ patches p' = patches p.
Proof.
  intros [Hp Hne Hh Ho]. pose proof (ps_sim_FindValue id p Hp) as Hs. unfold ps_simulates in Hs. simpl in Hs.
  assert (patches (PatchSet_FindValue p id).1 = patches p) as Hpat
    by (unfold PatchSet_FindValue; by destruct (cache p !! id)).
  destruct (PatchSet_FindValue p id) as [p' r]. cbn [fst] in Hpat. destruct Hs as [Hp' Heq]. injection Heq as Habs ->.
  split; [|done]. split; [done|by rewrite Hpat|by rewrite <- Habs|by rewrite Hpat].
Qed.

Lemma claims_asmap h p : claims_ok h p →
  let '(p', r) := PatchSet_AsMap p in claims_ok h p' ∧ ps_abs p' = ps_abs p ∧ r = top (ps_abs p).
Proof.
  intros [Hp Hne Hh Ho]. pose proof (ps_sim_AsMap p Hp) as Hs. unfold ps_simulates in Hs. simpl in Hs.
  assert (patches (PatchSet_AsMap p).1 = patches p) as Hpat by (unfold PatchSet_AsMap; by destruct (cacheInSync p)).
  destruct (PatchSet_AsMap p) as [p' r]. cbn [fst] in Hpat. destruct Hs as [Hp' Heq]. injection Heq as Habs ->.
  split; [|done]. split; [done|by rewrite Hpat|by rewrite <- Habs|by rewrite Hpat].
Qed.

Lemma claims_fork h p : claims_ok h p → claims_ok h (PatchSet_Fork p) ∧ ps_abs (PatchSet_Fork p) = top (ps_abs p) :: ps_abs p.
Proof.
  intros Hok. pose proof (co_patches _ _ Hok) as Hp. pose proof (ps_sim_Fork p Hp) as [Hp' Heq]. simpl in Hp', Heq.
  injection Heq as Habs. split; [|done]. split; [done| | |].
  - simpl. by destruct (patches p).
  - rewrite <- Habs. intros m id l [->|Hm]%elem_of_cons Hl; [|by eapply co_heap].
    destruct (ps_abs p) as [|m0 st] eqn:Hst; cbn [top] in Hl; [by apply lookup_empty_Some in Hl|].
    eapply co_heap; [done| |exact Hl]. rewrite Hst. left.
  - simpl. apply owned_snoc. split; [|apply (co_owned _ _ Hok)]. intros id l Hl. unfold NewPatch in Hl. cbn [modified] in Hl. by apply lookup_empty_Some in Hl.
Qed.

Lemma claims_revert h p : claims_ok h p → claims_ok h (PatchSet_Revert p) ∧
  ps_abs (PatchSet_Revert p) = match ps_abs p with _ :: m :: st => m :: st | st => st end.
Proof.
  intros Hok. pose proof (co_patches _ _ Hok) as Hp. pose proof (ps_sim_Revert p Hp) as [Hp' Heq]. simpl in Hp', Heq.
  destruct (claims_ok_last _ _ Hok) as (ps & b & c & y & ->).
  destruct ps as [|a ps _] using rev_ind; [done|].
  rewrite Revert_snoc in *. destruct Hok as [_ _ Hh Ho]. cbn [patches] in Ho.
  apply owned_snoc in Ho as [_ Ho]. injection Heq as Habs. split.
  - split; [done|by destruct ps| |done]. intros m id l Hm Hl. apply (Hh m id l); [|done].
    rewrite <- Habs in Hm. destruct (ps_abs (mkPatchSet ((ps ++ [a]) ++ [b]) c y)) as [|m0 [|m1 st]]; [done|done|by right].
  - rewrite <- Habs. destruct (ps_abs (mkPatchSet ((ps ++ [a]) ++ [b]) c y)) as [|m0 [|m1 st]]; done.
Qed.

Lemma lookup_merge (a b : Patch ResourceClaimId nat) id l :
  modified (mergePatchesInPlace a b) !! id = Some l → modified a !! id = Some l ∨ modified b !! id = Some l.
Proof.
  unfold mergePatchesInPlace.
  assert (∀ (ks : list (ResourceClaimId * bool)) (a0 : Patch ResourceClaimId nat),
    modified (foldl (λ a kv, Patch_Delete a kv.1) a0 ks) !! id = Some l → modified a0 !! id = Some l) as Hdel.
  { induction ks as [|[k v] ks IH]; intros a0; [done|]. simpl. intros Hl. apply IH in Hl. simpl in Hl.
    apply lookup_delete_Some in Hl. tauto. }
  intros Hl. apply Hdel in Hl. clear Hdel.
  assert (∀ (ks : list (ResourceClaimId * nat)) (a0 : Patch ResourceClaimId nat),
    modified (foldl (λ a kv, Patch_Set a kv.1 kv.2) a0 ks) !! id = Some l →
    modified a0 !! id = Some l ∨ (id, l) ∈ ks) as Hset.
  { induction ks as [|[k v] ks IH]; intros a0; [by left|]. simpl. intros Hk. apply IH in Hk as [Hk|Hk].
    - simpl in Hk. apply lookup_insert_Some in Hk as [[-> ->]|[_ Hk]]; [right; left|by left].
    - right. by right. }
  apply Hset in Hl as [Hl|Hl]; [by left|right]. by apply elem_of_go_range.
Qed.

Lemma claims_commit h p : claims_ok h p → claims_ok h (PatchSet_Commit p) ∧
  ps_abs (PatchSet_Commit p) = match ps_abs p with m :: _ :: st => m :: st | st => st end.
Proof.
  intros Hok. pose proof (co_patches _ _ Hok) as Hp. pose proof (ps_sim_Commit p Hp) as [Hp' Heq]. simpl in Hp', Heq.
  destruct (claims_ok_last _ _ Hok) as (ps & b & ca & y & ->).
  destruct ps as [|a ps _] using rev_ind; [done|].
  rewrite Commit_snoc in *. destruct Hok as [_ _ Hh Ho]. cbn [patches] in Ho.
  apply owned_snoc in Ho as [Hb Ho]. apply owned_snoc in Ho as [Ha Ho]. injection Heq as Habs. split.
  - split; [done|by destruct ps| |].
    + intros m id l Hm Hl. apply (Hh m id l); [|done]. rewrite <- Habs in Hm.
      destruct (ps_abs (mkPatchSet ((ps ++ [a]) ++ [b]) ca y)) as [|m0 [|m1 st]]; [done|done|].
      apply elem_of_cons in Hm as [->|Hm]; [left|by right; right].
    + apply owned_snoc. split; [|done]. intros id l Hl m id' Hm.
      apply lookup_merge in Hl as [Hl|Hl]; [by eapply Ha|]. eapply Hb; [done|]. rewrite stack_of_snoc. by right.
  - rewrite <- Habs. by destruct (ps_abs (mkPatchSet ((ps ++ [a]) ++ [b]) ca y)) as [|m0 [|m1 st]].
Qed.

Lemma ps_abs_cons (p : PatchSet ResourceClaimId nat) : patches p ≠ [] → ∃ m st, ps_abs p = m :: st.
Proof.
  intros Hne. destruct p as [ps ca y]. destruct ps as [|a ps _] using rev_ind; [done|].
  unfold ps_abs. simpl. rewrite stack_of_snoc. by eexists _, _.
Qed.

(** A claim put in the current layer: its object is in no layer below. *)
Lemma claims_set h p id l c : claims_ok h p → h !! l = Some c → GetClaimId c = id →
  (∀ m id', m ∈ below (ps_abs p) → m !! id' ≠ Some l) →
  claims_ok h (PatchSet_SetCurrent p id l) ∧
  ps_abs (PatchSet_SetCurrent p id l) = <[id := l]> (top (ps_abs p)) :: below (ps_abs p).
Proof.
  intros Hok Hl Hid Hbelow. pose proof (co_patches _ _ Hok) as Hp.
  pose proof (ps_sim_SetCurrent id l p Hp) as [Hp' Heq]. simpl in Hp', Heq. injection Heq as Habs.
  destruct (claims_ok_last _ _ Hok) as (ps & a & ca & y & ->). destruct Hok as [_ _ Hh Ho]. cbn [patches] in Ho.
  assert (patches (PatchSet_SetCurrent (mkPatchSet (ps ++ [a]) ca y) id l) = ps ++ [Patch_Set a id l]) as Hpat
    by (unfold PatchSet_SetCurrent; by rewrite on_current_snoc).
  split; [|done]. split; [done|by rewrite Hpat; destruct ps| |].
  - rewrite <- Habs. intros m id' l' [->|Hm]%elem_of_cons Hl'.
    + apply lookup_insert_Some in Hl' as [[<- <-]|[_ Hl']]; [by exists c|].
      apply (Hh (top (ps_abs (mkPatchSet (ps ++ [a]) ca y))) id'); [|done].
      unfold ps_abs. simpl. rewrite stack_of_snoc. left.
    + apply (Hh m id'); [|done]. unfold ps_abs in *. simpl in *. rewrite stack_of_snoc in *. by right.
  - rewrite Hpat. apply owned_snoc in Ho as [Ha Ho]. apply owned_snoc. split; [|done].
    intros id' l' Hl' m id'' Hm. cbn in Hl'. apply lookup_insert_Some in Hl' as [[_ <-]|[_ Hl']].
    + apply Hbelow. unfold ps_abs. simpl. by rewrite stack_of_snoc.
    + by eapply Ha.
Qed.

Lemma claims_delete h p id : claims_ok h p →
  claims_ok h (PatchSet_DeleteCurrent p id) ∧
  ps_abs (PatchSet_DeleteCurrent p id) = delete id (top (ps_abs p)) :: below (ps_abs p).
Proof.
  intros Hok. pose proof (co_patches _ _ Hok) as Hp.
  pose proof (ps_sim_DeleteCurrent id p Hp) as [Hp' Heq]. simpl in Hp', Heq. injection Heq as Habs.
  destruct (claims_ok_last _ _ Hok) as (ps & a & ca & y & ->). destruct Hok as [_ _ Hh Ho]. cbn [patches] in Ho.
  assert (patches (PatchSet_DeleteCurrent (mkPatchSet (ps ++ [a]) ca y) id) = ps ++ [Patch_Delete a id]) as Hpat
    by (unfold PatchSet_DeleteCurrent; by rewrite on_current_snoc).
  split; [|done]. split; [done|by rewrite Hpat; destruct ps| |].
  - rewrite <- Habs. intros m id' l' [->|Hm]%elem_of_cons Hl'.
    + apply lookup_delete_Some in Hl' as [_ Hl'].
      apply (Hh (top (ps_abs (mkPatchSet (ps ++ [a]) ca y))) id'); [|done].
      unfold ps_abs. simpl. rewrite stack_of_snoc. left.
    + apply (Hh m id'); [|done]. unfold ps_abs in *. simpl in *. rewrite stack_of_snoc in *. by right.
  - rewrite Hpat. apply owned_snoc in Ho as [Ha Ho]. apply owned_snoc. split; [|done].
    intros id' l' Hl' m id'' Hm. cbn in Hl'. apply lookup_delete_Some in Hl' as [_ Hl']. by eapply Ha.
Qed.

(** A claim that is in the current layer is the one that is shown, and is in no
    layer below. *)
Lemma claims_in_current h p id l : claims_ok h p → InCurrentPatch p id = true →
  top (ps_abs p) !! id = Some l → ∀ m id', m ∈ below (ps_abs p) → m !! id' ≠ Some l.
Proof.
  intros Hok Hin Hl. destruct (claims_ok_last _ _ Hok) as (ps & a & ca & y & ->). destruct Hok as [_ _ _ Ho].
  cbn [patches] in Ho. apply owned_snoc in Ho as [Ha _]. unfold InCurrentPatch in Hin. cbn [patches] in Hin.
  unfold ps_abs in *. cbn [patches] in *. rewrite stack_of_snoc in *. cbn [top below] in *.
  rewrite flatten_snoc, lookup_apply_patch in Hl. destruct (Patch_IsDeleted a id); [done|].
  rewrite snoc_len, list_lookup_middle in Hin by done. apply bool_decide_eq_true in Hin as [l0 Hl0].
  unfold Patch_Get in Hl0. rewrite Hl0 in Hl. injection Hl as ->. by eapply Ha.
Qed.

(** ** The snapshot *)

Record dra_ok s : Prop := mkDraOk {
  do_claims : claims_ok (heap s) (resourceClaims s);
  do_slices : patchset_ok (resourceSlices s);
  do_classes : patchset_ok (deviceClasses s)
}.

Lemma top_claim_stack s : top (claim_stack s) = claims_of (heap s) (top (ps_abs (resourceClaims s))).
Proof.
  unfold claim_stack. destruct (ps_abs (resourceClaims s)) as [|m st]; [|done]. simpl. symmetry. apply omap_empty.
Qed.

Lemma below_claim_stack s : below (claim_stack s) = claims_of (heap s) <$> below (ps_abs (resourceClaims s)).
Proof. unfold claim_stack. by destruct (ps_abs (resourceClaims s)). Qed.

Lemma claim_stack_cons s : dra_ok s → claim_stack s = top (claim_stack s) :: below (claim_stack s).
Proof.
  intros [[_ Hne _ _] _ _]. destruct (ps_abs_cons _ Hne) as (m & st & Hm). unfold claim_stack. by rewrite Hm.
Qed.

(** A pointer to the claim that the snapshot shows under its id. *)
Definition shown s l c : Prop :=
  top (ps_abs (resourceClaims s)) !! GetClaimId c = Some l ∧ heap s !! l = Some c.

Lemma shown_top s l c : shown s l c → top (claim_stack s) !! GetClaimId c = Some c.
Proof. intros [Hl Hc]. rewrite top_claim_stack. apply claims_of_lookup. by exists l. Qed.

Lemma top_shown s id c : dra_ok s → top (claim_stack s) !! id = Some c →
  ∃ l, top (ps_abs (resourceClaims s)) !! id = Some l ∧ shown s l c ∧ GetClaimId c = id.
Proof.
  intros Hok. rewrite top_claim_stack. intros (l & Hl & Hc)%claims_of_lookup. exists l. split; [done|].
  destruct (ps_abs_cons _ (co_layer _ _ (do_claims _ Hok))) as (m & st & Hm). rewrite Hm in Hl. simpl in Hl.
  destruct (co_heap _ _ (do_claims _ Hok) m id l) as (c' & Hc' & <-); [rewrite Hm; left|done|].
  rewrite Hc in Hc'. injection Hc' as <-. split; [|done]. split; [by rewrite Hm|done].
Qed.

(** What an operation on one claim leaves alone. *)
Definition others_kept s s' (id : ResourceClaimId) : Prop :=
  ∀ l c, shown s l c → GetClaimId c ≠ id → shown s' l c.

Definition heap_grows (h h' : gmap nat claim) : Prop :=
  ∀ l c, h !! l = Some c → ∃ c', h' !! l = Some c' ∧ GetClaimId c' = GetClaimId c.
#[export] Instance heap_grows_preorder : PreOrder heap_grows.
Proof.
  split; [by intros h l c Hl; exists c|]. intros h1 h2 h3 H12 H23 l c Hl.
  destruct (H12 _ _ Hl) as (c2 & H2 & Hid2). destruct (H23 _ _ H2) as (c3 & H3 & Hid3). exists c3. split; congruence.
Qed.

(** The slices and the classes, the objects of the layers below, and the ids
    of all objects stay. *)
Record same_rest s s' : Prop := mkSameRest {
  sr_slices : resourceSlices s' = resourceSlices s;
  sr_classes : deviceClasses s' = deviceClasses s;
  sr_below : below (ps_abs (resourceClaims s')) = below (ps_abs (resourceClaims s));
  sr_heap : heap_grows (heap s) (heap s')
}.
#[export] Instance same_rest_preorder : PreOrder same_rest.
Proof. split; [by split|]. intros a b c [] []. split; [congruence..|by etransitivity]. Qed.

Lemma fresh_not_in s m (id : ResourceClaimId) : dra_ok s → m ∈ ps_abs (resourceClaims s) →
  m !! id ≠ Some (fresh (dom (heap s))).
Proof.
  intros Hok Hm Hl. destruct (co_heap _ _ (do_claims _ Hok) m id _ Hm Hl) as (c & Hc & _).
  apply (is_fresh (dom (heap s))). apply elem_of_dom. by exists c.
Qed.

Lemma top_in (p : PatchSet ResourceClaimId nat) : patches p ≠ [] → top (ps_abs p) ∈ ps_abs p.
Proof. intros Hne. destruct (ps_abs_cons _ Hne) as (m & st & ->). left. Qed.

Lemma below_in (p : PatchSet ResourceClaimId nat) m : m ∈ below (ps_abs p) → m ∈ ps_abs p.
Proof. destruct (ps_abs p); [done|by right]. Qed.

(** Writing a claim changes it where it is shown, and nowhere else. *)
Lemma write_claim_spec f s l c : (∀ c, GetClaimId (f c) = GetClaimId c) → dra_ok s → shown s l c →
  let s' := write_claim f s l in
  dra_ok s' ∧ same_rest s s' ∧ others_kept s s' (GetClaimId c) ∧
  claim_stack s' = <[GetClaimId c := f c]> (top (claim_stack s)) :: below (claim_stack s).
Proof.
  intros Hf Hok [Htop Hc]. set (id := GetClaimId c) in *. pose proof (do_claims _ Hok) as Hcl.
  unfold write_claim, ensureClaimWritable, deref. rewrite Hc. fold id.
  (* the place that is written *)
  set (fresh_l := fresh (dom (heap s))).
  assert (∃ l' h', (if InCurrentPatch (resourceClaims s) id then (s, l)
                    else (set_heap s (<[fresh_l := c]> (heap s)), fresh_l)) = (set_heap s h', l') ∧
    h' !! l' = Some c ∧ (∀ k, k ≠ l' → h' !! k = heap s !! k) ∧ (l' = l ∨ heap s !! l' = None) ∧
    (∀ m id', m ∈ below (ps_abs (resourceClaims s)) → m !! id' ≠ Some l')) as (l' & h' & -> & Hc' & Hrest & Hl' & Hbelow).
  { destruct (InCurrentPatch (resourceClaims s) id) eqn:Hin.
    - exists l, (heap s). split; [by destruct s|]. split_and!; try done; [by left|].
      by eapply claims_in_current.
    - exists fresh_l, (<[fresh_l := c]> (heap s)). split; [done|]. split; [apply lookup_insert_eq|]. split.
      { intros k Hk. by rewrite lookup_insert_ne. }
      split.
      { right. apply not_elem_of_dom, is_fresh. }
      intros m id' Hm. apply fresh_not_in; [done|]. by apply below_in. }
  set (h2 := alter f l' h'). cbn [set_heap set_claims heap resourceClaims].
  assert (h2 !! l' = Some (f c)) as Hw by (unfold h2; by rewrite lookup_alter_eq, Hc').
  assert (∀ k, k ≠ l' → h2 !! k = heap s !! k) as Hh2.
  { intros k Hk. unfold h2. rewrite lookup_alter_ne by done. by apply Hrest. }
  assert (heap_grows (heap s) h2) as Hgrow.
  { intros k ck Hk. destruct (decide (k = l')) as [->|Hne].
    - exists (f c). split; [done|]. rewrite Hf. destruct Hl' as [->|Hn]; congruence.
    - exists ck. by rewrite Hh2. }
  assert (claims_ok h2 (resourceClaims s)) as Hcl2 by by eapply claims_ok_heap.
  destruct (claims_set h2 (resourceClaims s) id l' (f c) Hcl2 Hw (Hf c) Hbelow) as [Hok' Habs].
  cbv zeta.
  change (set_claims (set_heap (set_heap s h') (alter f l' h')) (PatchSet_SetCurrent (resourceClaims s) id l'))
    with (mkDra h2 (PatchSet_SetCurrent (resourceClaims s) id l') (resourceSlices s) (deviceClasses s)).
  split; [by split; [|apply Hok..]|]. split; [split; [done|done| |done]; cbn [resourceClaims]; by rewrite Habs|]. split.
  - intros k ck [Hk Hck] Hne. unfold shown. cbn [heap resourceClaims]. rewrite Habs. cbn [top]. rewrite lookup_insert_ne by done.
    split; [done|]. rewrite Hh2; [done|]. intros ->.
    destruct Hl' as [->|Hn]; [|congruence]. apply Hne. unfold id. congruence.
  - unfold claim_stack at 1. cbn [heap resourceClaims]. rewrite Habs, fmap_cons. f_equal.
    + rewrite top_claim_stack. apply map_eq. intros id'. destruct (decide (id' = id)) as [->|Hne].
      * rewrite lookup_insert_eq. apply claims_of_lookup. exists l'. by rewrite lookup_insert_eq.
      * rewrite lookup_insert_ne by done. unfold claims_of. rewrite !lookup_omap, lookup_insert_ne by done.
        destruct (top (ps_abs (resourceClaims s)) !! id') as [k|] eqn:Hk; simpl; [|done]. apply Hh2. intros ->.
        destruct (co_heap _ _ Hcl _ id' l' (top_in _ (co_layer _ _ Hcl)) Hk) as (ck & Hck & Hid).
        destruct Hl' as [->|Hn]; [|congruence]. unfold id in Hne. congruence.
    + rewrite below_claim_stack. apply claims_of_stack_unseen. intros m id' k Hm Hk. apply Hh2. intros ->.
      by eapply Hbelow.
Qed.

(** ** The specification: claims by value *)

Abbreviation value_map := (gmap ResourceClaimId claim).

Fixpoint spec_find pod (ignoreNotTracked : bool) (m : value_map) (refs : list ClaimRef)
    : result dra_error (list (option claim)) :=
  match refs with
  | [] => Ok []
  | claimRef :: refs =>
      let claimName := claimRefToName ClaimStatuses pod claimRef in
      let found := if bool_decide (claimName = "") then None else m !! (claimName, PodNamespace pod) in
      match found with
      | None =>
          if ignoreNotTracked then
            match spec_find pod ignoreNotTracked m refs with Ok r => Ok (None :: r) | Err e => Err e end
          else Err (if bool_decide (claimName = "") then ErrNoClaimName (cr_Name claimRef)
                    else ErrClaimNotInSnapshot (cr_Name claimRef))
      | Some c => match spec_find pod ignoreNotTracked m refs with Ok r => Ok (Some c :: r) | Err e => Err e end
      end
  end.

Definition update_all (f : claim → claim) (m : value_map) (cs : list claim) : value_map :=
  foldl (λ (m : value_map) c, <[GetClaimId c := f c]> m) m cs.

Definition spec_reserve pod (m : value_map) : value_map * option dra_error :=
  match spec_find pod false m (ClaimRefs pod) with
  | Err e => (m, Some e)
  | Ok cs =>
      match list_find (λ c, ClaimFullyReserved c && negb (IsReservedForPod pod c) = true) (omap id cs) with
      | Some (_, c) => (m, Some (ErrClaimFull (GetClaimId c)))
      | None => (update_all (AddPodReservation IsReservedForPod pod) m (omap id cs), None)
      end
  end.

Definition spec_unreserve pod (m : value_map) : value_map * option dra_error :=
  match spec_find pod false m (ClaimRefs pod) with
  | Err e => (m, Some e)
  | Ok cs => (update_all (unreserve IsForPod pod) m (omap id cs), None)
  end.

Fixpoint spec_remove pod (m : value_map) (cs : list (option claim)) : option value_map :=
  match cs with
  | [] => Some m
  | None :: _ => None
  | Some c :: cs =>
      spec_remove pod (if IsForPod pod c then delete (GetClaimId c) m
                       else <[GetClaimId c := ClearPodReservation pod c]> m) cs
  end.

Definition spec_add (m : value_map) (cs : list claim) : value_map * option dra_error :=
  match list_find (λ c, is_Some (m !! GetClaimId c)) cs with
  | Some (_, c) => (m, Some (ErrClaimTracked (GetClaimId c)))
  | None => (update_all (λ c, c) m cs, None)
  end.

Definition spec_signal (m : value_map) (uid : string) (c : claim) : value_map * option dra_error :=
  match m !! GetClaimId c with
  | None => (m, Some (ErrClaimNotFound (GetClaimId c)))
  | Some c0 => if bool_decide (cl_UID c0 = uid) then (<[GetClaimId c := c]> m, None)
               else (m, Some (ErrClaimUID (GetClaimId c)))
  end.

(** A pod that does not refer to a claim twice. *)
Definition distinct_refs pod : Prop :=
  NoDup (filter (λ name, name ≠ "") (claimRefToName ClaimStatuses pod <$> ClaimRefs pod)).

Lemma spec_find_ids pod (ignoreNotTracked : bool) (m : value_map) refs cs : (map_Forall (λ id c, GetClaimId c = id) m) →
  spec_find pod ignoreNotTracked m refs = Ok cs →
  sublist (GetClaimId <$> omap id cs)
    ((λ name, (name, PodNamespace pod)) <$> filter (λ name, name ≠ "") (claimRefToName ClaimStatuses pod <$> refs)).
Proof.
  intros Hm. revert cs. induction refs as [|r refs IH]; intros cs; simpl; [by intros [= <-]|].
  case_bool_decide as Hr.
  - rewrite filter_cons_False by tauto. destruct ignoreNotTracked; [|done].
    destruct (spec_find _ _ _ refs) as [r'|e]; [|done]. intros [= <-]. simpl. by apply IH.
  - rewrite filter_cons_True by done. destruct (m !! _) as [c|] eqn:Hc.
    + destruct (spec_find _ _ _ refs) as [r'|e]; [|done]. intros [= <-]. csimpl.
      rewrite (Hm _ _ Hc). by apply sublist_skip, IH.
    + destruct ignoreNotTracked; [|done].
      destruct (spec_find _ _ _ refs) as [r'|e]; [|done]. intros [= <-]. csimpl. by apply sublist_cons, IH.
Qed.

Lemma distinct_found pod (ignoreNotTracked : bool) (m : value_map) cs : (map_Forall (λ id c, GetClaimId c = id) m) → distinct_refs pod →
  spec_find pod ignoreNotTracked m (ClaimRefs pod) = Ok cs → NoDup (GetClaimId <$> omap id cs).
Proof.
  intros Hm Hd Hf. eapply sublist_NoDup; [|by eapply spec_find_ids].
  apply NoDup_fmap_2; [|done]. by intros x y [= ->].
Qed.

(** ** Reading *)

Record peeks s s' : Prop := mkPeeks {
  pk_ok : dra_ok s';
  pk_heap : heap s' = heap s;
  pk_abs : ps_abs (resourceClaims s') = ps_abs (resourceClaims s);
  pk_rest : same_rest s s'
}.

Lemma peeks_refl s : dra_ok s → peeks s s.
Proof. by split. Qed.

Lemma peeks_trans s1 s2 s3 : peeks s1 s2 → peeks s2 s3 → peeks s1 s3.
Proof. intros [] []. split; [done|congruence|congruence|by etransitivity]. Qed.

Lemma peeks_shown s s' l c : peeks s s' → shown s' l c ↔ shown s l c.
Proof. intros []. unfold shown. by rewrite pk_heap0, pk_abs0. Qed.

Lemma peeks_stack s s' : peeks s s' → claim_stack s' = claim_stack s.
Proof. intros []. unfold claim_stack. by rewrite pk_heap0, pk_abs0. Qed.

Lemma find_peeks s id : dra_ok s →
  let '(claims, r) := PatchSet_FindValue (resourceClaims s) id in
  peeks s (set_claims s claims) ∧
  match r with
  | Some l => ∃ c, shown s l c ∧ GetClaimId c = id ∧ top (claim_stack s) !! id = Some c
  | None => top (claim_stack s) !! id = None
  end.
Proof.
  intros [Hcl Hsl Hcs]. pose proof (claims_find _ _ id Hcl) as Hf.
  destruct (PatchSet_FindValue (resourceClaims s) id) as [claims r]. destruct Hf as (Hok & Habs & -> & _).
  split; [split; [by split|done|done|split; try done; cbn [set_claims resourceClaims]; by rewrite Habs]|].
  rewrite top_claim_stack. unfold claims_of. rewrite lookup_omap.
  destruct (top (ps_abs (resourceClaims s)) !! id) as [l|] eqn:Hl; simpl; [|done].
  destruct (co_heap _ _ Hcl _ _ _ (top_in _ (co_layer _ _ Hcl)) Hl) as (c & Hc & <-). by exists c.
Qed.

(** The result of looking the claims of a pod up. *)
Definition found_as s (r : result dra_error (list (option nat))) (v : result dra_error (list (option claim))) : Prop :=
  match v with
  | Err e => r = Err e
  | Ok cs => ∃ ls, r = Ok ls ∧ Forall2 (option_Forall2 (shown s)) ls cs
  end.

Lemma find_claims_spec pod ignoreNotTracked refs : ∀ s, dra_ok s →
  let '(s', r) := find_claims ClaimStatuses pod ignoreNotTracked s refs in
  peeks s s' ∧ found_as s r (spec_find pod ignoreNotTracked (top (claim_stack s)) refs).
Proof.
  induction refs as [|claimRef refs IH]; intros s Hok; cbn [find_claims spec_find].
  { split; [by apply peeks_refl|]. by exists []. }
  set (name := claimRefToName ClaimStatuses pod claimRef).
  assert (∀ s1 (found : option nat) (v : option claim), peeks s s1 → option_Forall2 (shown s) found v →
    let '(s', r) := match find_claims ClaimStatuses pod ignoreNotTracked s1 refs with
                    | (s, Ok result) => (s, Ok (found :: result)) | (s, Err e) => (s, Err e) end in
    peeks s s' ∧ found_as s r (match spec_find pod ignoreNotTracked (top (claim_stack s)) refs with
                               | Ok r => Ok (v :: r) | Err e => Err e end)) as Hnext.
  { intros s1 found v Hp Hv. specialize (IH s1 (pk_ok _ _ Hp)).
    rewrite (peeks_stack _ _ Hp) in IH. destruct (find_claims _ _ _ s1 refs) as [s2 r]. destruct IH as [Hp2 Hr].
    destruct (spec_find _ _ _ refs) as [cs|e].
    - destruct Hr as (ls & -> & Hls). split; [by eapply peeks_trans|]. exists (found :: ls). split; [done|].
      constructor; [done|]. eapply Forall2_impl; [exact Hls|]. intros o1 o2 Ho. destruct Ho; constructor.
      by rewrite <- (peeks_shown _ _ _ _ Hp).
    - simpl in Hr. subst r. split; [by eapply peeks_trans|done]. }
  case_bool_decide as Hname.
  { destruct ignoreNotTracked; [|split; [by apply peeks_refl|done]].
    apply Hnext; [by apply peeks_refl|constructor]. }
  pose proof (find_peeks s (name, PodNamespace pod) Hok) as Hf.
  destruct (PatchSet_FindValue _ _) as [claims [l|]]; destruct Hf as [Hp Hr].
  - destruct Hr as (c & Hsh & _ & ->). apply Hnext; [done|by constructor].
  - rewrite Hr. destruct ignoreNotTracked; [|by split]. apply Hnext; [done|constructor].
Qed.

(** ** Writing the claims of a pod *)

(** What an operation on the claims does to the stack of maps. *)
Definition claims_become s s' (m' : value_map) : Prop :=
  dra_ok s' ∧ same_rest s s' ∧ claim_stack s' = m' :: below (claim_stack s).

Lemma claims_become_top s s' (m' : value_map) : claims_become s s' m' → top (claim_stack s') = m'.
Proof. by intros (_ & _ & ->). Qed.

Lemma claims_become_trans s1 s2 s3 (m2 m3 : value_map) :
  claims_become s1 s2 m2 → claims_become s2 s3 m3 → claims_become s1 s3 m3.
Proof. intros (? & ? & H2) (? & ? & H3). rewrite H2 in H3. split; [done|]. split; [by etransitivity|done]. Qed.

Lemma peeks_become s s' : dra_ok s → peeks s s' → claims_become s s' (top (claim_stack s)).
Proof.
  intros Hok Hp. split; [apply Hp|]. split; [apply Hp|]. by rewrite (peeks_stack _ _ Hp), <- claim_stack_cons.
Qed.

Lemma peeks_then s s1 s2 (m' : value_map) : peeks s s1 → claims_become s1 s2 m' → claims_become s s2 m'.
Proof.
  intros Hp (Hok & Hr & Hst). rewrite (peeks_stack _ _ Hp) in Hst. split; [done|]. split; [|done].
  etransitivity; [apply Hp|done].
Qed.

Lemma Forall2_impl_in {A B} (P Q : A → B → Prop) xs ys :
  Forall2 P xs ys → (∀ x y, y ∈ ys → P x y → Q x y) → Forall2 Q xs ys.
Proof.
  induction 1 as [|x y xs ys Hxy Hs IH]; intros Hpq; constructor; [apply Hpq; [left|done]|].
  apply IH. intros a b Hb. apply Hpq. by right.
Qed.

(** Claims with other ids are still shown. *)
Lemma others_still s s' id ls cs : others_kept s s' id → id ∉ GetClaimId <$> cs →
  Forall2 (shown s) ls cs → Forall2 (shown s') ls cs.
Proof.
  intros Hkept Hid Hls. eapply Forall2_impl_in; [done|]. intros l c Hc Hsh. apply Hkept; [done|].
  intros <-. by apply Hid, list_elem_of_fmap_2.
Qed.

Lemma writes_spec f cs : (∀ c, GetClaimId (f c) = GetClaimId c) → ∀ s ls, dra_ok s →
  Forall2 (shown s) ls cs → NoDup (GetClaimId <$> cs) →
  claims_become s (foldl (write_claim f) s ls) (update_all f (top (claim_stack s)) cs).
Proof.
  intros Hf. induction cs as [|c cs IH]; intros s ls Hok Hls Hnd.
  { apply Forall2_nil_inv_r in Hls as ->. simpl. apply peeks_become; [done|by apply peeks_refl]. }
  apply Forall2_cons_inv_r in Hls as (l & ls' & Hl & Hls & ->). simpl in Hnd. apply NoDup_cons in Hnd as [Hc Hnd].
  destruct (write_claim_spec f s l c Hf Hok Hl) as (Hok' & Hr & Hkept & Hst). simpl.
  set (s1 := write_claim f s l) in *.
  assert (claims_become s s1 (<[GetClaimId c := f c]> (top (claim_stack s)))) as H1 by done.
  rewrite <- (claims_become_top _ _ _ H1). eapply claims_become_trans; [exact H1|].
  apply IH; [done|by eapply others_still|done].
Qed.

Lemma shown_pointers s ls cs : Forall2 (option_Forall2 (shown s)) ls cs → Forall2 (shown s) (pointers ls) (omap id cs).
Proof. unfold pointers. induction 1 as [|o1 o2 ls cs Ho Hs IH]; [done|]. destruct Ho; csimpl; [by constructor|done]. Qed.

Lemma top_ids s : dra_ok s → map_Forall (λ id c, GetClaimId c = id) (top (claim_stack s)).
Proof. intros Hok id c Hc. by apply top_shown in Hc as (_ & _ & _ & <-). Qed.

(** The claims of a pod, found or not. *)
Lemma PodClaims_spec s pod : dra_ok s →
  let '(s', r) := PodClaims ClaimRefs ClaimStatuses s pod in
  peeks s s' ∧ match spec_find pod false (top (claim_stack s)) (ClaimRefs pod) with
               | Err e => r = Err e
               | Ok cs => ∃ ls, r = Ok ls ∧ Forall2 (shown s') ls (omap id cs)
               end.
Proof.
  intros Hok. unfold PodClaims, findPodClaims. pose proof (find_claims_spec pod false (ClaimRefs pod) s Hok) as Hf.
  destruct (find_claims _ _ _ _ _) as [s' r]. destruct Hf as [Hp Hr].
  destruct (spec_find _ _ _ _) as [cs|e]; [|simpl in Hr; by subst].
  destruct Hr as (ls & -> & Hls). split; [done|]. eexists. split; [done|].
  eapply Forall2_impl; [by apply shown_pointers|]. intros l c. by apply peeks_shown.
Qed.

Lemma AddPodReservation_id pod c : GetClaimId (AddPodReservation IsReservedForPod pod c) = GetClaimId c.
Proof. unfold AddPodReservation. by case_match. Qed.

Lemma ClearPodReservation_id pod c : GetClaimId (ClearPodReservation pod c) = GetClaimId c.
Proof. unfold ClearPodReservation. by repeat case_match. Qed.

Lemma unreserve_id pod c : GetClaimId (unreserve IsForPod pod c) = GetClaimId c.
Proof. unfold unreserve. rewrite <- (ClearPodReservation_id pod c). by case_match. Qed.

Lemma full_claim_spec pod s ls cs : Forall2 (shown s) ls cs →
  full_claim IsReservedForPod pod s ls =
  match list_find (λ c, ClaimFullyReserved c && negb (IsReservedForPod pod c) = true) cs with
  | Some (_, c) => Some (GetClaimId c)
  | None => None
  end.
Proof.
  unfold full_claim. induction 1 as [|l c ls cs Hl Hs IH]; [done|]. cbn [list_find].
  destruct Hl as [_ Hl]. unfold deref in *. rewrite Hl. destruct (decide _) as [Hd|Hd].
  - by rewrite Hl.
  - destruct (list_find _ ls) as [[i l']|], (list_find _ cs) as [[j c']|]; simpl in *; congruence.
Qed.

Lemma ReservePodClaims_spec s pod : dra_ok s → distinct_refs pod →
  let '(s', e) := ReservePodClaims IsReservedForPod ClaimRefs ClaimStatuses s pod in
  let '(m', e') := spec_reserve pod (top (claim_stack s)) in claims_become s s' m' ∧ e = e'.
Proof.
  intros Hok Hd. unfold ReservePodClaims, spec_reserve. pose proof (PodClaims_spec s pod Hok) as Hf.
  destruct (PodClaims _ _ _ _) as [s1 r]. destruct Hf as [Hp Hr].
  destruct (spec_find _ _ _ _) as [cs|e] eqn:Hsp; [|subst r; split; [by apply peeks_become|done]].
  destruct Hr as (ls & -> & Hls). rewrite (full_claim_spec _ _ _ _ Hls).
  destruct (list_find _ _) as [[i c]|]; [split; [by apply peeks_become|done]|].
  split; [|done]. eapply peeks_then; [done|]. rewrite <- (peeks_stack _ _ Hp).
  apply writes_spec; [apply AddPodReservation_id|apply Hp|done|].
  eapply distinct_found; [by apply top_ids|done|exact Hsp].
Qed.

Lemma UnreservePodClaims_spec s pod : dra_ok s → distinct_refs pod →
  let '(s', e) := UnreservePodClaims IsForPod ClaimRefs ClaimStatuses s pod in
  let '(m', e') := spec_unreserve pod (top (claim_stack s)) in claims_become s s' m' ∧ e = e'.
Proof.
  intros Hok Hd. unfold UnreservePodClaims, spec_unreserve. pose proof (PodClaims_spec s pod Hok) as Hf.
  destruct (PodClaims _ _ _ _) as [s1 r]. destruct Hf as [Hp Hr].
  destruct (spec_find _ _ _ _) as [cs|e] eqn:Hsp; [|subst r; split; [by apply peeks_become|done]].
  destruct Hr as (ls & -> & Hls). split; [|done]. eapply peeks_then; [done|]. rewrite <- (peeks_stack _ _ Hp).
  apply writes_spec; [apply unreserve_id|apply Hp|done|].
  eapply distinct_found; [by apply top_ids|done|exact Hsp].
Qed.

(** ** Removing, adding and allocating *)

Lemma delete_claim_spec s id : dra_ok s →
  let s' := set_claims s (PatchSet_DeleteCurrent (resourceClaims s) id) in
  claims_become s s' (delete id (top (claim_stack s))) ∧ others_kept s s' id.
Proof.
  intros [Hcl Hsl Hcs]. destruct (claims_delete _ _ id Hcl) as [Hok Habs]. cbv zeta. split.
  - split; [by split|]. split; [split; try done; cbn [set_claims resourceClaims]; by rewrite Habs|]. unfold claim_stack at 1. cbn [heap resourceClaims set_claims].
    rewrite Habs, fmap_cons, below_claim_stack, top_claim_stack. f_equal. apply map_eq. intros id'.
    unfold claims_of. rewrite lookup_omap, !lookup_delete. case_decide; [done|]. by rewrite lookup_omap.
  - intros l c [Hl Hc] Hne. unfold shown. cbn [heap resourceClaims set_claims]. rewrite Habs. cbn [top].
    by rewrite lookup_delete_ne by done.
Qed.

Lemma others_still_opt s s' id ls cs : others_kept s s' id → id ∉ GetClaimId <$> omap Datatypes.id cs →
  Forall2 (option_Forall2 (shown s)) ls cs → Forall2 (option_Forall2 (shown s')) ls cs.
Proof.
  intros Hkept Hid Hls. eapply Forall2_impl_in; [done|]. intros l c Hc Hsh. destruct Hsh as [l c Hsh|]; constructor.
  apply Hkept; [done|]. intros <-. apply Hid, list_elem_of_fmap_2, list_elem_of_omap. by exists (Some c).
Qed.

Lemma remove_claims_spec pod cs : ∀ s ls, dra_ok s →
  Forall2 (option_Forall2 (shown s)) ls cs → NoDup (GetClaimId <$> omap id cs) →
  match remove_claims IsForPod pod s ls, spec_remove pod (top (claim_stack s)) cs with
  | Some s', Some m' => claims_become s s' m'
  | None, None => True
  | _, _ => False
  end.
Proof.
  induction cs as [|o cs IH]; intros s ls Hok Hls Hnd.
  { apply Forall2_nil_inv_r in Hls as ->. simpl. apply peeks_become; [done|by apply peeks_refl]. }
  apply Forall2_cons_inv_r in Hls as (o' & ls' & Ho & Hls & ->). destruct Ho as [l c Hl|]; [|done].
  csimpl in Hnd. apply NoDup_cons in Hnd as [Hc Hnd]. cbn [remove_claims spec_remove]. unfold deref.
  rewrite (proj2 Hl).
  assert (∀ s1 (m1 : value_map), claims_become s s1 m1 → others_kept s s1 (GetClaimId c) →
    match remove_claims IsForPod pod s1 ls', spec_remove pod m1 cs with
    | Some s', Some m' => claims_become s s' m' | None, None => True | _, _ => False end) as Hnext.
  { intros s1 m1 Hb Hkept. rewrite <- (claims_become_top _ _ _ Hb).
    specialize (IH s1 ls' (proj1 Hb)). destruct (remove_claims _ _ _ _), (spec_remove _ _ _).
    1: eapply claims_become_trans; [done|].
    all: apply IH; [by eapply others_still_opt|done]. }
  destruct (IsForPod pod c).
  - destruct (delete_claim_spec s (GetClaimId c) Hok) as [Hb Hkept]. by apply Hnext.
  - destruct (write_claim_spec (ClearPodReservation pod) s l c (ClearPodReservation_id pod) Hok Hl)
      as (Hok' & Hr & Hkept & Hst). by apply Hnext.
Qed.

Lemma RemovePodOwnedClaims_spec s pod : dra_ok s → distinct_refs pod →
  match spec_find pod true (top (claim_stack s)) (ClaimRefs pod) with
  | Err _ => False
  | Ok cs => match RemovePodOwnedClaims IsForPod ClaimRefs ClaimStatuses s pod, spec_remove pod (top (claim_stack s)) cs with
             | Some s', Some m' => claims_become s s' m'
             | None, None => True
             | _, _ => False
             end
  end.
Proof.
  intros Hok Hd. unfold RemovePodOwnedClaims, findPodClaims.
  pose proof (find_claims_spec pod true (ClaimRefs pod) s Hok) as Hf.
  destruct (find_claims _ _ _ _ _) as [s1 r]. destruct Hf as [Hp Hr].
  destruct (spec_find _ _ _ _) as [cs|e] eqn:Hsp.
  - destruct Hr as (ls & -> & Hls).
    assert (Forall2 (option_Forall2 (shown s1)) ls cs) as Hls1.
    { eapply Forall2_impl; [done|]. intros o1 o2 Ho. destruct Ho; constructor. by rewrite (peeks_shown _ _ _ _ Hp). }
    pose proof (remove_claims_spec pod cs s1 ls (pk_ok _ _ Hp) Hls1
      (distinct_found _ _ _ _ (top_ids s Hok) Hd Hsp)) as Hrm.
    rewrite (peeks_stack _ _ Hp) in Hrm.
    destruct (remove_claims _ _ _ _), (spec_remove _ _ _); try done. by eapply peeks_then.
  - exfalso. revert Hsp. clear. generalize (ClaimRefs pod). intros refs. revert e.
    induction refs as [|r refs IH]; intros e; simpl; [done|].
    destruct (if bool_decide _ then None else _) as [c|]; destruct (spec_find _ _ _ refs) as [cs|e']; try done;
      by intros _; eapply IH.
Qed.

(** The caller makes new claim objects and hands pointers to them over. *)
Fixpoint new_claims s (cs : list claim) : snapshot * list nat :=
  match cs with
  | [] => (s, [])
  | c :: cs =>
      let l := fresh (dom (heap s)) in
      let '(s, ls) := new_claims (set_heap s (<[l := c]> (heap s))) cs in (s, l :: ls)
  end.

(** A pointer to an object that no layer below knows. *)
Definition unknown s l c : Prop :=
  heap s !! l = Some c ∧ ∀ m id, m ∈ below (ps_abs (resourceClaims s)) → m !! id ≠ Some l.

Lemma new_claims_spec cs : ∀ s, dra_ok s →
  let '(s', ls) := new_claims s cs in
  claims_become s s' (top (claim_stack s)) ∧ resourceClaims s' = resourceClaims s ∧
  (∀ l c, heap s !! l = Some c → heap s' !! l = Some c) ∧ Forall2 (unknown s') ls cs.
Proof.
  induction cs as [|c cs IH]; intros s Hok; cbn [new_claims].
  { split; [by apply peeks_become, peeks_refl|]. done. }
  set (l := fresh (dom (heap s))). set (s1 := set_heap s (<[l := c]> (heap s))).
  assert (heap s !! l = None) as Hl by apply not_elem_of_dom, is_fresh.
  assert (∀ k ck, heap s !! k = Some ck → heap s1 !! k = Some ck) as Hgrow.
  { intros k ck Hk. unfold s1. cbn [heap set_heap]. rewrite lookup_insert_ne; [done|congruence]. }
  assert (claim_stack s1 = claim_stack s) as Hst.
  { unfold claim_stack. cbn [s1 resourceClaims set_heap]. apply claims_of_stack_unseen. intros m id k Hm Hk.
    cbn [s1 heap set_heap]. rewrite lookup_insert_ne; [done|]. intros <-. by eapply fresh_not_in. }
  assert (dra_ok s1) as Hok1.
  { destruct Hok as [Hcl ? ?]. split; [|done..]. eapply claims_ok_heap; [exact Hcl|].
    intros k ck Hk. exists ck. split; [by apply Hgrow|done]. }
  specialize (IH s1 Hok1). destruct (new_claims s1 cs) as [s2 ls]. destruct IH as ((Hok2 & Hr & Hst2) & Hcl2 & Hg2 & Hls).
  split_and!.
  - split; [done|]. split; [|by rewrite Hst2, Hst]. etransitivity; [|exact Hr]. split; try done.
    intros k ck Hk. exists ck. split; [by apply Hgrow|done].
  - done.
  - intros k ck Hk. by apply Hg2, Hgrow.
  - constructor; [|done]. split; [apply Hg2; unfold s1; cbn [heap set_heap]; apply lookup_insert_eq|].
    intros m id Hm. rewrite Hcl2 in Hm. cbn [s1 resourceClaims set_heap] in Hm. apply fresh_not_in; [done|by apply below_in].
Qed.

(** Putting a claim in the current layer. *)
Lemma set_claim_spec s l c : dra_ok s → unknown s l c →
  claims_become s (set_claim s l) (<[GetClaimId c := c]> (top (claim_stack s))) ∧
  ∀ l' c', unknown s l' c' → unknown (set_claim s l) l' c'.
Proof.
  intros [Hcl Hsl Hcs] [Hl Hb]. unfold set_claim, deref. rewrite Hl.
  destruct (claims_set _ _ _ _ _ Hcl Hl eq_refl Hb) as [Hok Habs]. split.
  - split; [by split|]. split; [split; try done; cbn [set_claims resourceClaims]; by rewrite Habs|]. unfold claim_stack at 1. cbn [heap resourceClaims set_claims].
    rewrite Habs, fmap_cons, below_claim_stack, top_claim_stack. f_equal. apply map_eq. intros id'.
    unfold claims_of. rewrite lookup_omap, !lookup_insert. case_decide; [done|]. by rewrite lookup_omap.
  - intros l' c' [Hl' Hb']. split; [done|]. intros m id Hm. cbn [resourceClaims set_claims] in Hm.
    rewrite Habs in Hm. by apply Hb'.
Qed.

Lemma set_claims_all_spec cs : ∀ s ls, dra_ok s → Forall2 (unknown s) ls cs →
  claims_become s (foldl set_claim s ls) (update_all (λ c, c) (top (claim_stack s)) cs).
Proof.
  induction cs as [|c cs IH]; intros s ls Hok Hls.
  { apply Forall2_nil_inv_r in Hls as ->. by apply peeks_become, peeks_refl. }
  apply Forall2_cons_inv_r in Hls as (l & ls' & Hl & Hls & ->). simpl.
  destruct (set_claim_spec s l c Hok Hl) as [Hb Hkept]. rewrite <- (claims_become_top _ _ _ Hb).
  eapply claims_become_trans; [done|]. apply IH; [apply Hb|]. by eapply Forall2_impl.
Qed.

Lemma peeks_unknown s s' l c : peeks s s' → unknown s l c → unknown s' l c.
Proof. intros [_ Hh Ha _]. unfold unknown. by rewrite Hh, Ha. Qed.

Lemma tracked_claim_spec cs : ∀ s ls, dra_ok s → Forall2 (unknown s) ls cs →
  let '(s', r) := tracked_claim s ls in
  peeks s s' ∧ r = match list_find (λ c, is_Some (top (claim_stack s) !! GetClaimId c)) cs with
                   | Some (_, c) => Some (GetClaimId c) | None => None end.
Proof.
  induction cs as [|c cs IH]; intros s ls Hok Hls.
  { apply Forall2_nil_inv_r in Hls as ->. split; [by apply peeks_refl|done]. }
  apply Forall2_cons_inv_r in Hls as (l & ls' & Hl & Hls & ->). cbn [tracked_claim list_find].
  unfold deref. rewrite (proj1 Hl). pose proof (find_peeks s (GetClaimId c) Hok) as Hf.
  destruct (PatchSet_FindValue _ _) as [claims [k|]]; destruct Hf as [Hp Hr].
  - destruct Hr as (c' & _ & _ & Hc'). rewrite decide_True by by rewrite Hc'. by split.
  - rewrite Hr, decide_False by by intros [? ?]. specialize (IH (set_claims s claims) ls' (pk_ok _ _ Hp)).
    assert (Forall2 (unknown (set_claims s claims)) ls' cs) as Hls'
      by (eapply Forall2_impl; [done|]; intros ? ?; by apply peeks_unknown).
    specialize (IH Hls'). rewrite (peeks_stack _ _ Hp) in IH. destruct (tracked_claim _ ls') as [s' r].
    destruct IH as [Hp' ->]. split; [by eapply peeks_trans|]. by destruct (list_find _ cs) as [[]|].
Qed.

Lemma AddClaims_unknown s ls cs : dra_ok s → Forall2 (unknown s) ls cs →
  let '(s', e) := AddClaims s ls in
  let '(m', e') := spec_add (top (claim_stack s)) cs in claims_become s s' m' ∧ e = e'.
Proof.
  intros Hok Hls. unfold AddClaims, spec_add.
  pose proof (tracked_claim_spec cs s ls Hok Hls) as Ht. destruct (tracked_claim s ls) as [s2 r].
  destruct Ht as [Hp ->]. destruct (list_find _ cs) as [[i c]|]; (split; [|done]); [by apply peeks_become|].
  eapply peeks_then; [done|]. rewrite <- (peeks_stack _ _ Hp). apply set_claims_all_spec; [apply Hp|].
  eapply Forall2_impl; [done|]. intros ? ?. by apply peeks_unknown.
Qed.

Lemma AddClaims_spec s cs : dra_ok s →
  let '(s1, ls) := new_claims s cs in
  let '(s', e) := AddClaims s1 ls in
  let '(m', e') := spec_add (top (claim_stack s)) cs in claims_become s s' m' ∧ e = e'.
Proof.
  intros Hok. pose proof (new_claims_spec cs s Hok) as Hn. destruct (new_claims s cs) as [s1 ls].
  destruct Hn as (Hb & _ & _ & Hls). pose proof (AddClaims_unknown s1 ls cs (proj1 Hb) Hls) as Ha.
  destruct (AddClaims s1 ls) as [s2 e]. rewrite (claims_become_top _ _ _ Hb) in Ha.
  destruct (spec_add _ _) as [m' e']. destruct Ha as [Ha ->]. split; [|done]. by eapply claims_become_trans.
Qed.

Lemma Signal_spec s uid c : dra_ok s →
  let '(s1, ls) := new_claims s [c] in
  let '(s', e) := SignalClaimPendingAllocation s1 uid (default 0%nat (head ls)) in
  let '(m', e') := spec_signal (top (claim_stack s)) uid c in claims_become s s' m' ∧ e = e'.
Proof.
  intros Hok. pose proof (new_claims_spec [c] s Hok) as Hn. destruct (new_claims s [c]) as [s1 ls].
  destruct Hn as (Hb & _ & _ & Hls). apply Forall2_cons_inv_r in Hls as (l & ls' & Hl & Hls & ->).
  apply Forall2_nil_inv_r in Hls as ->. unfold SignalClaimPendingAllocation, spec_signal, getResourceClaim.
  change (default 0%nat (head [l])) with l.
  unfold deref at 1. rewrite (proj1 Hl). pose proof (find_peeks s1 (GetClaimId c) (proj1 Hb)) as Hf.
  rewrite (claims_become_top _ _ _ Hb) in Hf.
  destruct (PatchSet_FindValue _ _) as [claims [k|]]; destruct Hf as [Hp Hr].
  - destruct Hr as (c0 & Hsh & _ & ->). unfold deref. cbn [heap set_claims]. rewrite (proj2 Hsh).
    case_bool_decide; (split; [|done]);
      rewrite <- (claims_become_top _ _ _ Hb); (eapply claims_become_trans; [done|]).
    + eapply peeks_then; [done|]. rewrite <- (peeks_stack _ _ Hp).
      apply set_claim_spec; [apply Hp|by apply peeks_unknown with s1].
    + by apply peeks_become; [apply Hb|].
  - rewrite Hr. split; [|done]. rewrite <- (claims_become_top _ _ _ Hb). eapply claims_become_trans; [done|].
    by apply peeks_become; [apply Hb|].
Qed.

(** ** Sequences of operations *)

(** The caller makes new objects for the claims of [OpAdd] and [OpSignal]. *)
Inductive dra_op : Type :=
| DFork | DRevert | DCommit
| DAdd (cs : list claim) | DSignal (uid : string) (c : claim)
| DReserve (pod : Pod) | DUnreserve (pod : Pod) | DRemove (pod : Pod)
| DPodClaims (pod : Pod) | DGetClaim (claimId : ResourceClaimId) | DGetClass (className : string)
| DSlices (nodeName : string) | DAddSlices (nodeName : string) (slices : list Slice) | DRemoveSlices (nodeName : string).

Inductive dra_answer : Type :=
| ADone (e : option dra_error)
| AClaims (r : result dra_error (list (option claim)))
| AClaim (c : option claim) | AClass (c : option Class_) | ASlices (slices : option (list Slice)).

(** [None] is a panic. *)
Definition dra_step s (o : dra_op) : option (snapshot * dra_answer) :=
  match o with
  | DFork => Some (dra_Fork s, ADone None)
  | DRevert => Some (dra_Revert s, ADone None)
  | DCommit => Some (dra_Commit s, ADone None)
  | DAdd cs => let '(s, ls) := new_claims s cs in let '(s, e) := AddClaims s ls in Some (s, ADone e)
  | DSignal uid c =>
      let '(s, ls) := new_claims s [c] in
      let '(s, e) := SignalClaimPendingAllocation s uid (default 0%nat (head ls)) in Some (s, ADone e)
  | DReserve pod =>
      let '(s, e) := ReservePodClaims IsReservedForPod ClaimRefs ClaimStatuses s pod in Some (s, ADone e)
  | DUnreserve pod => let '(s, e) := UnreservePodClaims IsForPod ClaimRefs ClaimStatuses s pod in Some (s, ADone e)
  | DRemove pod => s ← RemovePodOwnedClaims IsForPod ClaimRefs ClaimStatuses s pod; Some (s, ADone None)
  | DPodClaims pod =>
      let '(s, r) := PodClaims ClaimRefs ClaimStatuses s pod in
      Some (s, AClaims match r with Ok ls => Ok (deref s <$> ls) | Err e => Err e end)
  | DGetClaim claimId => let '(s, r) := getResourceClaim s claimId in Some (s, AClaim (l ← r; deref s l))
  | DGetClass className => let '(s, r) := getDeviceClass s className in Some (s, AClass r)
  | DSlices nodeName => let '(s, r) := NodeResourceSlices s nodeName in Some (s, ASlices r)
  | DAddSlices nodeName slices => let '(s, e) := AddNodeResourceSlices s nodeName slices in Some (s, ADone e)
  | DRemoveSlices nodeName => Some (RemoveNodeResourceSlices s nodeName, ADone None)
  end.

Fixpoint dra_run s (os : list dra_op) : list (option dra_answer) :=
  match os with
  | [] => []
  | o :: os => match dra_step s o with
               | Some (s, a) => Some a :: dra_run s os
               | None => [None]
               end
  end.

(** The promise: a stack of maps of claims, of slices and of classes. *)
Record dra_spec : Type := mkSpec {
  sp_claims : list value_map; sp_slices : list (gmap string (list Slice)); sp_classes : list (gmap string Class_)
}.

(** A transaction step on every stack. *)
Definition spec_layer a o1 o2 o3 : dra_spec :=
  mkSpec (stack_exec o1 (sp_claims a)).1 (stack_exec o2 (sp_slices a)).1 (stack_exec o3 (sp_classes a)).1.

(** An operation on the visible map of claims. *)
Definition on_claims (a : dra_spec) (r : value_map * option dra_error) : dra_spec * dra_answer :=
  (mkSpec (r.1 :: below (sp_claims a)) (sp_slices a) (sp_classes a), ADone r.2).

Definition on_slices (a : dra_spec) (m : gmap string (list Slice)) : dra_spec :=
  mkSpec (sp_claims a) (m :: below (sp_slices a)) (sp_classes a).

Definition spec_step (a : dra_spec) (o : dra_op) : option (dra_spec * dra_answer) :=
  let m := top (sp_claims a) in
  match o with
  | DFork => Some (spec_layer a OpFork OpFork OpFork, ADone None)
  | DRevert => Some (spec_layer a OpRevert OpRevert OpRevert, ADone None)
  | DCommit => Some (spec_layer a OpCommit OpCommit OpCommit, ADone None)
  | DAdd cs => Some (on_claims a (spec_add m cs))
  | DSignal uid c => Some (on_claims a (spec_signal m uid c))
  | DReserve pod => Some (on_claims a (spec_reserve pod m))
  | DUnreserve pod => Some (on_claims a (spec_unreserve pod m))
  | DRemove pod =>
      match spec_find pod true m (ClaimRefs pod) with
      | Ok cs => m' ← spec_remove pod m cs; Some (on_claims a (m', None))
      | Err _ => Some (a, ADone None)
      end
  | DPodClaims pod =>
      Some (a, AClaims match spec_find pod false m (ClaimRefs pod) with
                       | Ok cs => Ok (Some <$> omap id cs) | Err e => Err e end)
  | DGetClaim claimId => Some (a, AClaim (m !! claimId))
  | DGetClass className => Some (a, AClass (top (sp_classes a) !! className))
  | DSlices nodeName => Some (a, ASlices (top (sp_slices a) !! nodeName))
  | DAddSlices nodeName slices =>
      Some (match top (sp_slices a) !! nodeName with
            | Some _ => (a, ADone (Some (ErrSlicesPresent nodeName)))
            | None => (on_slices a (<[nodeName := slices]> (top (sp_slices a))), ADone None)
            end)
  | DRemoveSlices nodeName => Some (on_slices a (delete nodeName (top (sp_slices a))), ADone None)
  end.

Fixpoint spec_run (a : dra_spec) (os : list dra_op) : list (option dra_answer) :=
  match os with
  | [] => []
  | o :: os => match spec_step a o with
               | Some (a, r) => Some r :: spec_run a os
               | None => [None]
               end
  end.

Definition dra_abs s : dra_spec := mkSpec (claim_stack s) (ps_abs (resourceSlices s)) (ps_abs (deviceClasses s)).

(** The pods of an operation refer to a claim at most once. *)
Definition distinct_op (o : dra_op) : Prop :=
  match o with
  | DReserve pod | DUnreserve pod | DRemove pod => distinct_refs pod
  | _ => True
  end.

Definition step_simulated s (o : dra_op) : Prop :=
  match dra_step s o, spec_step (dra_abs s) o with
  | Some (s', r), Some (a, r') => dra_ok s' ∧ a = dra_abs s' ∧ r = r'
  | None, None => True
  | _, _ => False
  end.

Lemma become_abs s s' (m : value_map) : claims_become s s' m →
  dra_abs s' = mkSpec (m :: below (claim_stack s)) (ps_abs (resourceSlices s)) (ps_abs (deviceClasses s)).
Proof. intros (_ & [H1 H2 _ _] & Hst). unfold dra_abs. by rewrite Hst, H1, H2. Qed.

Lemma peeks_abs s s' : peeks s s' → dra_abs s' = dra_abs s.
Proof. intros Hp. unfold dra_abs. rewrite (peeks_stack _ _ Hp). destruct (pk_rest _ _ Hp) as [H1 H2 _ _]. by rewrite H1, H2. Qed.

(** A claims operation that answers an error or nothing. *)
Lemma sim_on_claims s (o : dra_op) s' (e : option dra_error) (r : value_map * option dra_error) :
  dra_step s o = Some (s', ADone e) → spec_step (dra_abs s) o = Some (on_claims (dra_abs s) r) →
  claims_become s s' r.1 ∧ e = r.2 → step_simulated s o.
Proof.
  intros Hs Ha [Hb ->]. unfold step_simulated. rewrite Hs, Ha. destruct r as [m e']. simpl in *. split; [apply Hb|].
  split; [|done]. by rewrite (become_abs _ _ _ Hb).
Qed.

(** ** The refinement *)


Lemma claim_stack_layer (o : ps_op (K := ResourceClaimId) (V := nat)) (o' : ps_op (K := ResourceClaimId) (V := claim))
    (h : gmap nat claim) st :
  match o, o' with OpFork, OpFork | OpRevert, OpRevert | OpCommit, OpCommit => True | _, _ => False end →
  claims_of h <$> (stack_exec o st).1 = (stack_exec o' (claims_of h <$> st)).1.
Proof.
  destruct o, o'; try done; intros _; destruct st as [|m0 [|m1 st]]; try done.
Qed.

(** Forking, reverting and committing: the same step of every patch set. *)
Lemma layer_sim s s' (o : ps_op (K := ResourceClaimId) (V := nat)) (o1 : ps_op (K := ResourceClaimId) (V := claim)) o2 o3 : heap s' = heap s →
  claims_ok (heap s) (resourceClaims s') → ps_abs (resourceClaims s') = (stack_exec o (ps_abs (resourceClaims s))).1 →
  match o, o1 with OpFork, OpFork | OpRevert, OpRevert | OpCommit, OpCommit => True | _, _ => False end →
  resourceSlices s' = (ps_exec o2 (resourceSlices s)).1 → deviceClasses s' = (ps_exec o3 (deviceClasses s)).1 →
  dra_ok s → dra_ok s' ∧ spec_layer (dra_abs s) o1 o2 o3 = dra_abs s'.
Proof.
  intros Hh Hcl Habs Ho H2 H3 [_ Hsl Hcs]. pose proof (ps_sim_exec o2 _ Hsl) as Hs2. pose proof (ps_sim_exec o3 _ Hcs) as Hs3.
  unfold ps_simulates in *. destruct (ps_exec o2 _) as [p2 r2], (ps_exec o3 _) as [p3 r3]. cbn [fst] in H2, H3.
  destruct Hs2 as [Hok2 Hs2], Hs3 as [Hok3 Hs3]. split; [by split; rewrite ?Hh, ?H2, ?H3|].
  unfold dra_abs, spec_layer, claim_stack. cbn [sp_claims sp_slices sp_classes].
  rewrite H2, H3, Hh, Habs, Hs2, Hs3. by rewrite (claim_stack_layer o o1 _ _ Ho).
Qed.

Lemma fork_sim s : dra_ok s → step_simulated s DFork.
Proof.
  intros Hok. destruct (claims_fork _ _ (do_claims _ Hok)) as [Hcl Habs].
  destruct (layer_sim s (dra_Fork s) OpFork OpFork OpFork OpFork) as [H1 H2]; try done.
Qed.

Lemma revert_sim s : dra_ok s → step_simulated s DRevert.
Proof.
  intros Hok. destruct (claims_revert _ _ (do_claims _ Hok)) as [Hcl Habs].
  destruct (layer_sim s (dra_Revert s) OpRevert OpRevert OpRevert OpRevert) as [H1 H2]; try done.
  simpl. rewrite Habs. by destruct (ps_abs (resourceClaims s)) as [|? []].
Qed.

Lemma commit_sim s : dra_ok s → step_simulated s DCommit.
Proof.
  intros Hok. destruct (claims_commit _ _ (do_claims _ Hok)) as [Hcl Habs].
  destruct (layer_sim s (dra_Commit s) OpCommit OpCommit OpCommit OpCommit) as [H1 H2]; try done.
  simpl. rewrite Habs. by destruct (ps_abs (resourceClaims s)) as [|? []].
Qed.

(** The slices and the classes are patch sets of values. *)
Lemma slices_sim s o : dra_ok s →
  let '(p, r) := ps_exec o (resourceSlices s) in
  stack_exec o (ps_abs (resourceSlices s)) = (ps_abs p, r) ∧ dra_ok (set_slices s p).
Proof.
  intros [Hcl Hsl Hcs]. pose proof (ps_sim_exec o _ Hsl) as Hs. unfold ps_simulates in Hs.
  destruct (ps_exec o _) as [p r]. by destruct Hs as [Hp ->].
Qed.

Lemma classes_sim s className : dra_ok s →
  let '(s', r) := getDeviceClass s className in dra_ok s' ∧ dra_abs s' = dra_abs s ∧ r = top (ps_abs (deviceClasses s)) !! className.
Proof.
  intros [Hcl Hsl Hcs]. unfold getDeviceClass. pose proof (ps_sim_FindValue className _ Hcs) as Hs.
  unfold ps_simulates in Hs. simpl in Hs. destruct (PatchSet_FindValue _ _) as [p r]. destruct Hs as [Hp Heq].
  injection Heq as Habs ->. split; [by split|]. split; [|done]. unfold dra_abs, claim_stack. simpl. by rewrite Habs.
Qed.

Lemma slices_value s nodeName : dra_ok s →
  let '(s', r) := NodeResourceSlices s nodeName in
  dra_ok s' ∧ dra_abs s' = dra_abs s ∧ r = top (ps_abs (resourceSlices s)) !! nodeName.
Proof.
  intros Hok. pose proof (slices_sim s (OpFindValue nodeName) Hok) as Hs. unfold NodeResourceSlices. simpl in Hs.
  destruct (PatchSet_FindValue _ _) as [p r]. destruct Hs as [Heq Hok']. injection Heq as Habs ->.
  split; [done|]. split; [|done]. unfold dra_abs, claim_stack. simpl. by rewrite Habs.
Qed.

Lemma slices_abs s p (m : gmap string (list Slice)) : ps_abs p = m :: below (ps_abs (resourceSlices s)) → dra_abs (set_slices s p) = on_slices (dra_abs s) m.
Proof. intros Hp. unfold dra_abs, on_slices, claim_stack. simpl. by rewrite Hp. Qed.

Lemma PodClaims_values s s' ls (cs : list claim) : Forall2 (shown s') ls cs → deref s' <$> ls = Some <$> cs.
Proof. induction 1 as [|l c ls cs [_ Hl] _ IH]; [done|]. csimpl. by rewrite IH, <- Hl. Qed.

Lemma dra_step_sim s (o : dra_op) : dra_ok s → distinct_op o → step_simulated s o.
Proof.
  intros Hok Hd. destruct o as [| | |cs|uid c|pod|pod|pod|pod|cid|className|nodeName|nodeName slices|nodeName];
    [by apply fork_sim|by apply revert_sim|by apply commit_sim|..].
  - pose proof (AddClaims_spec s cs Hok) as H. destruct (new_claims s cs) as [s1 ls] eqn:Hn.
    destruct (AddClaims s1 ls) as [s2 e] eqn:Ha. eapply (sim_on_claims _ _ s2 e); [by simpl; rewrite Hn, Ha|done|].
    simpl. by destruct (spec_add _ _).
  - pose proof (Signal_spec s uid c Hok) as H. destruct (new_claims s [c]) as [s1 ls] eqn:Hn.
    destruct (SignalClaimPendingAllocation _ _ _) as [s2 e] eqn:Ha.
    eapply (sim_on_claims _ _ s2 e); [by cbn [dra_step]; rewrite Hn, Ha|done|]. simpl. by destruct (spec_signal _ _ _).
  - pose proof (ReservePodClaims_spec s pod Hok Hd) as H. destruct (ReservePodClaims _ _ _ _ _) as [s2 e] eqn:Ha.
    eapply (sim_on_claims _ _ s2 e); [by simpl; rewrite Ha|done|]. simpl. by destruct (spec_reserve _ _).
  - pose proof (UnreservePodClaims_spec s pod Hok Hd) as H. destruct (UnreservePodClaims _ _ _ _ _) as [s2 e] eqn:Ha.
    eapply (sim_on_claims _ _ s2 e); [by simpl; rewrite Ha|done|]. simpl. by destruct (spec_unreserve _ _).
  - pose proof (RemovePodOwnedClaims_spec s pod Hok Hd) as H. unfold step_simulated. cbn [dra_step spec_step].
    cbn [dra_abs sp_claims]. destruct (spec_find _ _ _ _) as [cs|e]; [|done].
    destruct (RemovePodOwnedClaims _ _ _ _ _) as [s'|], (spec_remove _ _ _) as [m'|]; try done. simpl.
    split; [apply H|]. split; [|done]. by rewrite (become_abs _ _ _ H).
  - pose proof (PodClaims_spec s pod Hok) as H. unfold step_simulated. cbn [dra_step spec_step]. cbn [dra_abs sp_claims].
    destruct (PodClaims _ _ _ _) as [s' r]. destruct H as [Hp Hr]. split; [apply Hp|]. split; [by rewrite (peeks_abs _ _ Hp)|].
    destruct (spec_find _ _ _ _) as [cs|e]; [|by rewrite Hr]. destruct Hr as (ls & -> & Hls). do 2 f_equal.
    by apply PodClaims_values.
  - unfold step_simulated. cbn [dra_step spec_step]. unfold getResourceClaim. pose proof (find_peeks s cid Hok) as H.
    destruct (PatchSet_FindValue _ _) as [claims r]. destruct H as [Hp Hr]. split; [apply Hp|].
    split; [by rewrite (peeks_abs _ _ Hp)|]. f_equal. cbn [dra_abs sp_claims]. destruct r as [l|]; simpl; [|done].
    destruct Hr as (c & [_ Hc] & _ & ->). done.
  - unfold step_simulated. cbn [dra_step spec_step]. pose proof (classes_sim s className Hok) as H.
    destruct (getDeviceClass _ _) as [s' r]. destruct H as (? & ? & ->). done.
  - unfold step_simulated. cbn [dra_step spec_step]. pose proof (slices_value s nodeName Hok) as H.
    destruct (NodeResourceSlices _ _) as [s' r]. destruct H as (? & ? & ->). done.
  - unfold step_simulated. cbn [dra_step spec_step]. unfold AddNodeResourceSlices.
    pose proof (slices_value s nodeName Hok) as H. destruct (NodeResourceSlices _ _) as [s' r].
    destruct H as (Hok' & Habs & ->). change (sp_slices (dra_abs s)) with (ps_abs (resourceSlices s)).
    destruct (_ !! nodeName); [done|]. pose proof (slices_sim s' (OpSetCurrent nodeName slices) Hok') as H. simpl in H.
    destruct H as [Heq Hok2]. injection Heq as Heq. split; [done|]. split; [|done].
    assert (ps_abs (resourceSlices s') = ps_abs (resourceSlices s)) as Hs by by injection Habs.
    rewrite (slices_abs s' _ _ (eq_sym Heq)), Habs. by rewrite Hs.
  - unfold step_simulated. cbn [dra_step spec_step]. unfold RemoveNodeResourceSlices.
    pose proof (slices_sim s (OpDeleteCurrent nodeName) Hok) as H. simpl in H.
    destruct H as [Heq Hok2]. injection Heq as Heq. split; [done|]. split; [|done].
    by rewrite (slices_abs s _ _ (eq_sym Heq)).
Qed.

Lemma dra_run_sim os : ∀ s, dra_ok s → Forall distinct_op os → dra_run s os = spec_run (dra_abs s) os.
Proof.
  induction os as [|o os IH]; intros s Hok Hd; [done|]. apply Forall_cons in Hd as [Ho Hd]. cbn [dra_run spec_run].
  pose proof (dra_step_sim s o Hok Ho) as H. unfold step_simulated in H.
  destruct (dra_step s o) as [[s' r]|], (spec_step (dra_abs s) o) as [[a r']|]; try done.
  destruct H as (Hok' & -> & ->). f_equal. by apply IH.
Qed.

(** The snapshot that [NewSnapshot] makes. *)
Lemma new_patchset_abs {K V} `{Countable K} (m : gmap K V) : ps_abs (NewPatchSet [NewPatchFromMap (Some m)]) = [m].
Proof.
  unfold ps_abs. cbn. f_equal. unfold flatten. cbn [foldl reverse rev_append].
  apply map_eq. intros k. rewrite lookup_apply_patch. cbn. by destruct (m !! k).
Qed.

Definition stores (h : gmap nat claim) (claims : gmap ResourceClaimId nat) : Prop :=
  ∀ id l, claims !! id = Some l → ∃ c, h !! l = Some c ∧ GetClaimId c = id.

Lemma NewSnapshot_ok (h : gmap nat claim) claims nodeSlices otherSlices classes : stores h claims →
  dra_ok (NewSnapshot h claims nodeSlices otherSlices classes).
Proof.
  intros Hh. assert (∀ (K : Type) (D : EqDecision K) (C : Countable K) V (m : gmap K V),
    patchset_ok (NewPatchSet [NewPatchFromMap (Some m)])) as Hok.
  { intros. apply patchset_ok_new, Forall_singleton, patch_ok_from_map. }
  split; [|apply Hok|apply Hok]. split; [apply Hok|done| |].
  - intros m id l. unfold NewSnapshot. cbn [resourceClaims heap]. rewrite new_patchset_abs.
    intros ->%list_elem_of_singleton. apply Hh.
  - split; [|done]. intros id l _ m id' Hm. by apply elem_of_nil in Hm.
Qed.

Lemma NewSnapshot_abs (h : gmap nat claim) claims nodeSlices otherSlices classes :
  dra_abs (NewSnapshot h claims nodeSlices otherSlices classes) =
  mkSpec [claims_of h claims] [<[nonNodeLocalResourceSlicesIdentifier := otherSlices]> nodeSlices] [classes].
Proof. unfold dra_abs, claim_stack, NewSnapshot. cbn [resourceClaims heap resourceSlices deviceClasses]. by rewrite !new_patchset_abs. Qed.
End dra.

(** C10. Dynamic resources by value: whatever sequence of operations runs on
    the snapshot (forks, reverts and commits, claims added, reserved,
    unreserved, removed or allocated, slices added or removed), the snapshot
    that shares claim objects between its layers and writes them in place
    answers every query like a stack of maps of claim values, errors and panics
    included; so a revert restores the claims as they were at the fork. The
    pods must not refer to a claim twice. *)
Theorem dra_refines_values `{GR : GoRange} {Selector ShareID Consumed ClaimData Slice Class_ : Type}
    (IsForPod IsReservedForPod : Pod → Claim (Selector := Selector) (ShareID := ShareID) (Consumed := Consumed) (ClaimData := ClaimData) → bool)
    (ClaimRefs ClaimStatuses : Pod → list ClaimRef) (h : gmap nat (Claim (Selector := Selector) (ShareID := ShareID)
      (Consumed := Consumed) (ClaimData := ClaimData))) claims (nodeSlices : gmap string (list Slice)) otherSlices
    (classes : gmap string Class_) os :
  stores h claims → Forall (distinct_op ClaimRefs ClaimStatuses) os →
  dra_run IsForPod IsReservedForPod ClaimRefs ClaimStatuses (NewSnapshot h claims nodeSlices otherSlices classes) os =
  spec_run IsForPod IsReservedForPod ClaimRefs ClaimStatuses
    (mkSpec [claims_of h claims] [<[nonNodeLocalResourceSlicesIdentifier := otherSlices]> nodeSlices] [classes]) os.
Proof. intros Hh Hd. rewrite <- NewSnapshot_abs. apply dra_run_sim; [by apply NewSnapshot_ok|done]. Qed.

Module DraExample.
(** A claim of the namespace of the pods, reserved for nobody, and pods that
    refer to it, once or twice, or to a claim nobody knows. *)
Abbreviation demo_claim_t := (Claim (Selector := unit) (ShareID := unit) (Consumed := unit) (ClaimData := string)).
Definition gpu : demo_claim_t := mkClaim "gpu" "default" "uid-1" "" None [].
Definition demo_pod (name : string) : Pod := simple_pod "default" name ∅ [].

Definition refs (pod : Pod) : list ClaimRef :=
  if bool_decide (PodName pod = "once") then [mkClaimRef "a" (Some "gpu")]
  else if bool_decide (PodName pod = "twice") then [mkClaimRef "a" (Some "gpu"); mkClaimRef "b" (Some "gpu")]
  else [mkClaimRef "a" (Some "lost")].
Definition statuses (pod : Pod) : list ClaimRef := [].

(** As the scheduler's helpers: a claim is a pod's when the pod owns it, and is
    reserved for it when it is one of its consumers. *)
Definition for_pod (pod : Pod) (c : demo_claim_t) : bool := bool_decide (cl_data c = PodUID pod) && negb (bool_decide (PodUID pod = "")).
Definition reserved_for (pod : Pod) (c : demo_claim_t) : bool := existsb (claimConsumerReferenceMatchesPod pod) (ReservedFor c).

Definition demo : DraSnapshot (Slice := unit) (Class_ := unit) :=
  NewSnapshot {[ 0%nat := gpu ]} {[ ("gpu", "default") := 0%nat ]} ∅ [] ∅.
Definition run := dra_run for_pod reserved_for refs statuses demo.

(** The consumers of the claim before, in and after a fork in which it is reserved. *)
Definition session (pod : Pod) : list (dra_op (Selector := unit) (ShareID := unit) (Consumed := unit) (ClaimData := string) (Slice := unit)) :=
  [DFork; DReserve pod; DGetClaim ("gpu", "default"); DRevert; DGetClaim ("gpu", "default")].

Lemma dra_refines_values_witness :
  run (session (demo_pod "once")) =
  [Some (ADone None); Some (ADone None);
   Some (AClaim (Some (set_reserved gpu [PodClaimConsumerReference (demo_pod "once")])));
   Some (ADone None); Some (AClaim (Some gpu))].
Proof.
  unfold run, demo. rewrite dra_refines_values.
  - reflexivity.
  - intros id l. rewrite lookup_singleton_Some. intros [<- <-]. exists gpu. by split; vm_compute.
  - repeat constructor; vm_compute; set_solver.
Defined.

(** A pod that refers to a claim twice writes the object that the lower layer
    holds: the reservation is still there after the revert. *)
Lemma double_reference_leaks :
  last (run (session (demo_pod "twice"))) =
  Some (Some (AClaim (Some (set_reserved gpu [PodClaimConsumerReference (demo_pod "twice")])))).
Proof. reflexivity. Qed.

(** A pod whose claim is not in the snapshot makes [RemovePodOwnedClaims] panic. *)
Lemma missing_claim_panics : RemovePodOwnedClaims for_pod refs statuses demo (demo_pod "lost") = None.
Proof. reflexivity. Qed.

(** The reservation and the release of a claim, and its allocation cleared. *)
Lemma reserve_then_unreserve :
  run [DReserve (demo_pod "once"); DReserve (demo_pod "lost"); DUnreserve (demo_pod "once"); DGetClaim ("gpu", "default")] =
  [Some (ADone None); Some (ADone (Some (ErrClaimNotInSnapshot "a"))); Some (ADone None); Some (AClaim (Some gpu))].
Proof. reflexivity. Qed.
End DraExample.
