(* ===== verification/CsiSnapshot.v ===== *)
(** The snapshot of CSI nodes (src/pkg/simulator/csi/snapshot/snapshot.go): a
    patch set of them by name. *)
From stdpp Require Import prelude gmap strings list fin_maps.
From S2P Require Import Prelude Api Drain Framework PatchSet.
Local Open Scope ca_scope.

Inductive csi_error : Type := ErrCsiNotFound (name : string) | ErrCsiPresent (name : string).
#[export] Instance csi_error_eq_dec : EqDecision csi_error.
Proof. solve_decision. Defined.

Section csi.
Context {S Slice CSI : Type} `{SchedNodeInfo S} `{GR : GoRange} (csi_Name : CSI → string).
Abbreviation snapshot := (PatchSet string CSI).
Implicit Types (s : snapshot).

Definition csi_NewSnapshot (csiNodes : gmap string CSI) : snapshot := NewPatchSet [NewPatchFromMap (Some csiNodes)].
Definition csi_NewEmptySnapshot : snapshot := NewPatchSet [NewPatch].

Definition listCSINodes s : snapshot * list CSI := let '(s, m) := PatchSet_AsMap s in (s, (go_range m).*2).

Definition csi_Get s (name : string) : snapshot * result csi_error CSI :=
  match PatchSet_FindValue s name with
  | (s, Some csiNode) => (s, Ok csiNode)
  | (s, None) => (s, Err (ErrCsiNotFound name))
  end.

Definition AddCSINode s (csiNode : CSI) : snapshot * option csi_error :=
  match PatchSet_FindValue s (csi_Name csiNode) with
  | (s, Some _) => (s, Some (ErrCsiPresent (csi_Name csiNode)))
  | (s, None) => (PatchSet_SetCurrent s (csi_Name csiNode) csiNode, None)
  end.

Fixpoint AddCSINodes s (csiNodes : list CSI) : snapshot * option csi_error :=
  match csiNodes with
  | [] => (s, None)
  | csiNode :: csiNodes =>
      match AddCSINode s csiNode with
      | (s, Some e) => (s, Some e)
      | (s, None) => AddCSINodes s csiNodes
      end
  end.

Definition AddCSINodeInfoToNodeInfo s (nodeInfo : NodeInfo S Slice CSI) : snapshot * result csi_error (NodeInfo S Slice CSI) :=
  match csi_Get s (NodeName nodeInfo) with
  | (s, Err e) => (s, Err e)
  | (s, Ok csiNode) => (s, Ok (SetCSINode nodeInfo (Some csiNode)))
  end.

Definition RemoveCSINode s (name : string) : snapshot := PatchSet_DeleteCurrent s name.

Definition csi_Commit s : snapshot := PatchSet_Commit s.
Definition csi_Revert s : snapshot := PatchSet_Revert s.
Definition csi_Fork s : snapshot := PatchSet_Fork s.

(** ** Every operation keeps the layers below *)

(** What an operation does to the map of the current layer. *)
Definition csi_becomes s s' (m : gmap string CSI) : Prop :=
  patchset_ok s' ∧ top (ps_abs s') = m ∧ below (ps_abs s') = below (ps_abs s) ∧ (ps_abs s ≠ [] → ps_abs s' ≠ []).

Lemma csi_Get_spec s name : patchset_ok s →
  let '(s', r) := csi_Get s name in
  csi_becomes s s' (top (ps_abs s)) ∧
  r = match top (ps_abs s) !! name with Some c => Ok c | None => Err (ErrCsiNotFound name) end.
Proof.
  intros Hok. unfold csi_Get. pose proof (ps_sim_FindValue name s Hok) as Hs. unfold ps_simulates in Hs. simpl in Hs.
  destruct (PatchSet_FindValue s name) as [s' r]. destruct Hs as [Hok' Heq]. injection Heq as Habs <-.
  destruct (top (ps_abs s) !! name); (split; [|done]); unfold csi_becomes; by rewrite <- Habs.
Qed.

Lemma AddCSINode_spec s csiNode : patchset_ok s →
  let '(s', e) := AddCSINode s csiNode in
  match top (ps_abs s) !! csi_Name csiNode with
  | Some _ => e = Some (ErrCsiPresent (csi_Name csiNode)) ∧ csi_becomes s s' (top (ps_abs s))
  | None => e = None ∧ csi_becomes s s' (<[csi_Name csiNode := csiNode]> (top (ps_abs s)))
  end.
Proof.
  intros Hok. unfold AddCSINode. pose proof (ps_sim_FindValue (csi_Name csiNode) s Hok) as Hs.
  unfold ps_simulates in Hs. simpl in Hs.
  destruct (PatchSet_FindValue s (csi_Name csiNode)) as [s1 r]. destruct Hs as [Hok1 Heq]. injection Heq as Habs <-.
  destruct (top (ps_abs s) !! csi_Name csiNode) as [c|].
  - split; [done|]. unfold csi_becomes. by rewrite <- Habs.
  - split; [done|]. pose proof (ps_sim_SetCurrent (csi_Name csiNode) csiNode s1 Hok1) as [Hok2 Heq2]. simpl in Hok2, Heq2.
    injection Heq2 as Heq2. unfold csi_becomes. by rewrite <- Heq2, Habs.
Qed.

Lemma RemoveCSINode_spec s name : patchset_ok s → csi_becomes s (RemoveCSINode s name) (delete name (top (ps_abs s))).
Proof.
  intros Hok. pose proof (ps_sim_DeleteCurrent name s Hok) as [Hok2 Heq2]. simpl in Hok2, Heq2.
  injection Heq2 as Heq2. unfold csi_becomes, RemoveCSINode. by rewrite <- Heq2.
Qed.
End csi.
