(* ===== verification/Predicate.v ===== *)
(** The snapshot that the simulations run on
    (src/pkg/simulator/clustersnapshot/predicate, scheduling_opts.go): a store
    of nodes and pods with the snapshots of dynamic resources and of CSI nodes,
    asking the scheduler's plug-ins where a pod may go. *)
From stdpp Require Import prelude gmap strings list numbers sorting fin_maps fin_sets.
From S2P Require Import Prelude Api Drain Framework PatchSet.
From S2P Require SnapshotSpec.
From S2P Require Import ClusterSnapshot Dra CsiSnapshot.
Local Open Scope Z_scope.
Local Open Scope ca_scope.

(** ** Orders of the nodes *)

(** [lastIndexOrderMapping]: from after the last match. *)
Definition last_index_At (offset lastIndex len i : nat) : Z :=
  if bool_decide (len = 0%nat) then -1 else Z.of_nat ((i + offset + lastIndex) mod len).

(** [priorityNodeOrderMapping]: [sort.SliceStable] of the indices. *)
Fixpoint insert_stable {A} (less : A → A → bool) (x : A) (l : list A) : list A :=
  match l with
  | [] => [x]
  | y :: l => if less x y then x :: y :: l else y :: insert_stable less x l
  end.
Definition sort_stable {A} (less : A → A → bool) (l : list A) : list A := foldl (λ acc x, insert_stable less x acc) [] l.

Definition priority_order {A} (less : A → A → bool) (collection : list A) : list nat :=
  (sort_stable (λ x y : nat * A, less x.2 y.2) (imap pair collection)).*1.

Definition priority_At (order : list nat) (i : nat) : Z :=
  match order !! i with Some index => Z.of_nat index | None => -1 end.

(** [chunkSizeFor]: the float square root of a length is its integer part. *)
Definition chunkSizeFor (n parallelism : Z) : Z :=
  let s := Z.sqrt n in
  let r := n `quot` parallelism + 1 in
  if r <? s then r else if s <? 1 then 1 else s.

(** The status of a plug-in phase. *)
Inductive Status : Type := Success | Failure (plugin : string) (reasons : list string).

Section predicate.
Context {S Slice CSI : Type} `{SchedNodeInfo S} `{GR : GoRange} {T : Type} `{!SnapshotSpec.SnapshotStore S Slice CSI T}.
Context {Selector ShareID Consumed ClaimData Class_ : Type}.
Abbreviation NI := (NodeInfo S Slice CSI).
Abbreviation claim := (Claim (Selector := Selector) (ShareID := ShareID) (Consumed := Consumed) (ClaimData := ClaimData)).
Abbreviation dra := (DraSnapshot (Selector := Selector) (ShareID := ShareID) (Consumed := Consumed)
  (ClaimData := ClaimData) (Slice := Slice) (Class_ := Class_)).
Abbreviation csi := (PatchSet string CSI).
Context (draEnabled enableCSINodeAwareScheduling : bool).
Context (csi_Name : CSI → string).
Context (IsForPod IsReservedForPod : Pod → claim → bool) (ClaimRefs ClaimStatuses : Pod → list ClaimRef).
Context (MatchNodeSelectorTerms : Node → Selector → result string bool).

Record PredicateSnapshot : Type := mkPredicate {
  ClusterSnapshotStore : T;
  draSnapshot : dra;
  csiSnapshot : csi;
  lastIndex : nat
}.
Implicit Types (p : PredicateSnapshot) (pod : Pod) (ni : NI).

Definition set_store p t : PredicateSnapshot := mkPredicate t (draSnapshot p) (csiSnapshot p) (lastIndex p).
Definition set_dra p d : PredicateSnapshot := mkPredicate (ClusterSnapshotStore p) d (csiSnapshot p) (lastIndex p).
Definition set_csi p c : PredicateSnapshot := mkPredicate (ClusterSnapshotStore p) (draSnapshot p) c (lastIndex p).
Definition set_lastIndex p i : PredicateSnapshot := mkPredicate (ClusterSnapshotStore p) (draSnapshot p) (csiSnapshot p) i.

(** A call to the store that answers an error or nothing. *)
Definition store_call p (o : SnapshotSpec.store_op S Slice CSI) : PredicateSnapshot * option snapshot_error :=
  match SnapshotSpec.store_exec o (ClusterSnapshotStore p) with
  | (t, SnapshotSpec.RErr e) => (set_store p t, StoreError <$> e)
  | (t, _) => (set_store p t, None)
  end.

(** ** Reading nodes *)

Definition pred_GetNodeInfo p (nodeName : string) : PredicateSnapshot * result snapshot_error NI :=
  match SnapshotSpec.store_exec (SnapshotSpec.GetNodeInfo nodeName) (ClusterSnapshotStore p) with
  | (t, SnapshotSpec.RNode (Ok ni)) => (set_store p t, Ok ni)
  | (t, SnapshotSpec.RNode (Err e)) => (set_store p t, Err (StoreError e))
  | (t, _) => (set_store p t, Err (ResourceError "unexpected type in the underlying store"))
  end.

Definition ListNodeInfos p : PredicateSnapshot * list NI :=
  match SnapshotSpec.store_exec SnapshotSpec.ListNodeInfos (ClusterSnapshotStore p) with
  | (t, SnapshotSpec.RList l) => (set_store p t, l)
  | (t, _) => (set_store p t, [])
  end.

(** ** Pods and their claims *)

Definition claim_of (d : dra) (l : nat) : option ResourceClaim :=
  (λ c, mkResourceClaim (cl_UID c) (cl_Name c) l) <$> deref d l.

Definition createPodInfo p pod : PredicateSnapshot * result snapshot_error PodInfo :=
  if draEnabled then
    match PodClaims ClaimRefs ClaimStatuses (draSnapshot p) pod with
    | (d, Ok claims) => (set_dra p d, Ok (NewPodInfo pod (omap (claim_of d) claims)))
    | (d, Err _) => (set_dra p d, Err (ResourceError "couldn't obtain pod claims"))
    end
  else (p, Ok (NewPodInfo pod [])).

Definition claim_available (d : dra) (node : Node) (l : nat) : bool :=
  match deref d l with
  | None => false
  | Some c => match ClaimAvailableOnNode MatchNodeSelectorTerms c node with Ok available => available | Err _ => false end
  end.

Definition verifyScheduledPodResourceClaims p pod (node : Node) : PredicateSnapshot * option snapshot_error :=
  match PodClaims ClaimRefs ClaimStatuses (draSnapshot p) pod with
  | (d, Err _) => (set_dra p d, Some (ResourceError "couldn't obtain pod claims"))
  | (d, Ok claims) =>
      (set_dra p d, if forallb (claim_available d node) claims then None
                    else Some (ResourceError "pod needs a claim that isn't available on the node"))
  end.

(** The claims of a new pod that it owns. *)
Definition podOwnedClaims (d : dra) (podInfo : PodInfo) : list nat :=
  filter (λ l, match deref d l with Some c => IsForPod (pi_Pod podInfo) c | None => false end = true)
    (claim_ptr <$> NeededResourceClaims podInfo).

Definition modifyResourceClaimsForNewPod p (podInfo : PodInfo) : PredicateSnapshot * option snapshot_error :=
  match AddClaims (draSnapshot p) (podOwnedClaims (draSnapshot p) podInfo) with
  | (d, Some _) => (set_dra p d, Some (ResourceError "couldn't add ResourceSlices for pod to DRA snapshot"))
  | (d, None) =>
      match ReservePodClaims IsReservedForPod ClaimRefs ClaimStatuses d (pi_Pod podInfo) with
      | (d, Some _) => (set_dra p d, Some (ResourceError "couldn't add pod reservations to claims"))
      | (d, None) => (set_dra p d, None)
      end
  end.

(** ** Adding and removing nodes *)

Definition add_slices p ni : PredicateSnapshot * option snapshot_error :=
  if bool_decide (LocalResourceSlices ni = []) then (p, None)
  else match AddNodeResourceSlices (draSnapshot p) (NodeName ni) (LocalResourceSlices ni) with
       | (d, Some _) => (set_dra p d, Some (ResourceError "couldn't add ResourceSlices to DRA snapshot"))
       | (d, None) => (set_dra p d, None)
       end.

Fixpoint add_pods p (node : Node) (podInfos : list PodInfo) : PredicateSnapshot * option snapshot_error :=
  match podInfos with
  | [] => (p, None)
  | podInfo :: podInfos =>
      if bool_decide (NeededResourceClaims podInfo = []) then add_pods p node podInfos
      else
        match modifyResourceClaimsForNewPod p podInfo with
        | (p, Some e) => (p, Some e)
        | (p, None) =>
            match verifyScheduledPodResourceClaims p (pi_Pod podInfo) node with
            | (p, Some e) => (p, Some e)
            | (p, None) => add_pods p node podInfos
            end
        end
  end.

Definition add_resources p ni : PredicateSnapshot * option snapshot_error :=
  if draEnabled then
    match add_slices p ni with
    | (p, Some e) => (p, Some e)
    | (p, None) => add_pods p (ni_Node ni) (Pods (Some ni))
    end
  else (p, None).

Definition add_csi p ni : PredicateSnapshot * option snapshot_error :=
  match CSINode ni with
  | Some csiNode =>
      if enableCSINodeAwareScheduling then
        match AddCSINode csi_Name (csiSnapshot p) csiNode with
        | (c, Some _) => (set_csi p c, Some (ResourceError "csi node already in snapshot"))
        | (c, None) => (set_csi p c, None)
        end
      else (p, None)
  | None => (p, None)
  end.

Definition pred_AddNodeInfo p ni : PredicateSnapshot * option snapshot_error :=
  match add_resources p ni with
  | (p, Some e) => (p, Some e)
  | (p, None) =>
      match add_csi p ni with
      | (p, Some e) => (p, Some e)
      | (p, None) => store_call p (SnapshotSpec.StoreNodeInfo ni)
      end
  end.

(** [None] is the panic of [RemovePodOwnedClaims]. *)
Definition remove_owned (d : dra) (podInfos : list PodInfo) : option dra :=
  foldl (λ d podInfo, d ← d; RemovePodOwnedClaims IsForPod ClaimRefs ClaimStatuses d (pi_Pod podInfo)) (Some d) podInfos.

Definition pred_RemoveNodeInfo p (nodeName : string) : option (PredicateSnapshot * option snapshot_error) :=
  match pred_GetNodeInfo p nodeName with
  | (p, Err e) => Some (p, Some e)
  | (p, Ok nodeInfo) =>
      match store_call p (SnapshotSpec.RemoveNodeInfo nodeName) with
      | (p, Some e) => Some (p, Some e)
      | (p, None) =>
          p ← (if draEnabled then
                 d ← remove_owned (RemoveNodeResourceSlices (draSnapshot p) nodeName) (Pods (Some nodeInfo));
                 Some (set_dra p d)
               else Some p);
          Some (if enableCSINodeAwareScheduling && bool_decide (is_Some (CSINode nodeInfo))
                then set_csi p (RemoveCSINode (csiSnapshot p) nodeName) else p, None)
      end
  end.

(** ** The scheduler *)

(** The plug-ins are the scheduler's. They see the snapshot and the state of
    the cycle, which the filters may change; a [PreFilterResult] is the set of
    nodes it names, or [None] for all nodes. [Reserve] hands the claims that it
    allocated to the tracker one after the other and says whether it was
    successful otherwise. *)
Context {CycleState : Type}.
Context (RunPreFilterPlugins : PredicateSnapshot → Pod → CycleState * option (gset string) * Status * string).
Context (RunFilterPlugins : PredicateSnapshot → CycleState → Pod → NI → CycleState * Status).
Context (RunReservePluginsReserve : PredicateSnapshot → CycleState → Pod → string → list (string * claim) * bool).
(** [workqueue.ParallelizeUntil]: the pieces that run, in the order in which
    they finish. *)
Context (ParallelizeUntil : PredicateSnapshot → Pod → SchedulingOptions S Slice CSI → nat → list nat).

Definition allowed (preFilterResult : option (gset string)) ni : bool :=
  match preFilterResult with None => true | Some names => bool_decide (NodeName ni ∈ names) end.

Definition RunFiltersOnNode p pod (nodeName : string)
    : PredicateSnapshot * result SchedulingError (Node * CycleState) :=
  match pred_GetNodeInfo p nodeName with
  | (p, Err _) => (p, Err SchedulingInternalError)
  | (p, Ok nodeInfo) =>
      match RunPreFilterPlugins p pod with
      | (_, _, Failure plugin reasons, _) => (p, Err (FailingPredicateError plugin reasons))
      | (state, preFilterResult, Success, nodeFilteringPlugins) =>
          if negb (allowed preFilterResult nodeInfo) then (p, Err (FailingPredicateError nodeFilteringPlugins []))
          else match RunFilterPlugins p state pod nodeInfo with
               | (_, Failure plugin reasons) => (p, Err (FailingPredicateError plugin reasons))
               | (state, Success) => (p, Ok (ni_Node nodeInfo, state))
               end
      end
  end.

(** [nodeOrdering.At] after [Reset]. *)
Definition node_At (opts : SchedulingOptions S Slice CSI) (lastIndex : nat) (nodeInfosList : list NI) : nat → Z :=
  match NodeOrdering opts with
  | None => last_index_At 1 lastIndex (length nodeInfosList)
  | Some less => priority_At (priority_order less nodeInfosList)
  end.

(** One piece: the state of the cycle and the earliest match, its place in the
    order and its index. *)
Definition check_node p pod (opts : SchedulingOptions S Slice CSI) (nodeInfosList : list NI)
    (preFilterResult : option (gset string)) (st : CycleState * option (nat * nat)) (i : nat)
    : CycleState * option (nat * nat) :=
  let nodeIndex := node_At opts (lastIndex p) nodeInfosList i in
  if nodeIndex <? 0 then st
  else
    match nodeInfosList !! Z.to_nat nodeIndex with
    | None => st
    | Some nodeInfo =>
        if negb (allowed preFilterResult nodeInfo) then st
        else if Unschedulable (ni_Node nodeInfo) then st
        else if negb (acceptable opts nodeInfo) then st
        else
          match RunFilterPlugins p st.1 pod nodeInfo with
          | (state, Failure _ _) => (state, st.2)
          | (state, Success) =>
              (state, if bool_decide (i < default (length nodeInfosList) (fst <$> st.2))%nat
                      then Some (i, Z.to_nat nodeIndex) else st.2)
          end
    end.

Definition RunFiltersUntilPassingNode p pod (opts : SchedulingOptions S Slice CSI)
    : PredicateSnapshot * result SchedulingError (Node * CycleState) :=
  let '(p, nodeInfosList) := ListNodeInfos p in
  match RunPreFilterPlugins p pod with
  | (_, _, Failure plugin reasons, _) => (p, Err (FailingPredicateError plugin reasons))
  | (state, preFilterResult, Success, _) =>
      let '(state, found) := foldl (check_node p pod opts nodeInfosList preFilterResult) (state, None)
        (ParallelizeUntil p pod opts (length nodeInfosList)) in
      match found with
      | Some (_, foundIndex) =>
          match nodeInfosList !! foundIndex with
          | Some nodeInfo =>
              (match NodeOrdering opts with None => set_lastIndex p foundIndex | Some _ => p end, Ok (ni_Node nodeInfo, state))
          | None => (p, Err NoNodesPassingPredicatesFoundError)
          end
      | None => (p, Err NoNodesPassingPredicatesFoundError)
      end
  end.

(** The claims that [Reserve] allocated; it stops at the first error. The
    scheduler allocated the objects. *)
Fixpoint signal_all (d : dra) (allocated : list (string * claim)) : dra * bool :=
  match allocated with
  | [] => (d, true)
  | (uid, c) :: allocated =>
      let l := fresh (dom (heap d)) in
      match SignalClaimPendingAllocation (Dra.set_heap d (<[l := c]> (heap d))) uid l with
      | (d, Some _) => (d, false)
      | (d, None) => signal_all d allocated
      end
  end.

Definition RunReserveOnNode p pod (nodeName : string) (postFilterState : CycleState) : PredicateSnapshot * bool :=
  let '(allocated, ok) := RunReservePluginsReserve p postFilterState pod nodeName in
  let '(d, signalled) := signal_all (draSnapshot p) allocated in
  (set_dra p d, signalled && ok).

Definition modifyResourceClaimsForScheduledPod p pod (node : Node) (postFilterState : CycleState)
    : PredicateSnapshot * option snapshot_error :=
  match RunReserveOnNode p pod (Name node) postFilterState with
  | (p, false) => (p, Some (ResourceError "error while trying to run Reserve"))
  | (p, true) =>
      match ReservePodClaims IsReservedForPod ClaimRefs ClaimStatuses (draSnapshot p) pod with
      | (d, Some _) => (set_dra p d, Some (ResourceError "couldn't add pod reservations to claims"))
      | (d, None) => (set_dra p d, None)
      end
  end.

(** ** Scheduling *)

(** What [SchedulePod] and [SchedulePodOnAnyNodeMatching] do with the node
    that was found. *)
Definition place_pod p pod (node : Node) (nodeName : string) (state : CycleState) : PredicateSnapshot * option snapshot_error :=
  match (if draEnabled && negb (bool_decide (ClaimRefs pod = [])) then
           match modifyResourceClaimsForScheduledPod p pod node state with
           | (p, Some e) => (p, Some e)
           | (p, None) => verifyScheduledPodResourceClaims p pod node
           end
         else (p, None)) with
  | (p, Some e) => (p, Some e)
  | (p, None) =>
      match createPodInfo p pod with
      | (p, Err e) => (p, Some e)
      | (p, Ok podInfo) => store_call p (SnapshotSpec.StorePodInfo podInfo nodeName)
      end
  end.

Definition pred_SchedulePod p pod (nodeName : string) : PredicateSnapshot * option SchedulingError :=
  match RunFiltersOnNode p pod nodeName with
  | (p, Err e) => (p, Some e)
  | (p, Ok (node, state)) =>
      match place_pod p pod node nodeName state with
      | (p, Some _) => (p, Some SchedulingInternalError)
      | (p, None) => (p, None)
      end
  end.

Definition pred_SchedulePodOnAnyNodeMatching p pod (opts : SchedulingOptions S Slice CSI)
    : PredicateSnapshot * result SchedulingError string :=
  match RunFiltersUntilPassingNode p pod opts with
  | (p, Err e) => (p, Err e)
  | (p, Ok (node, state)) =>
      match place_pod p pod node (Name node) state with
      | (p, Some _) => (p, Err SchedulingInternalError)
      | (p, None) => (p, Ok (Name node))
      end
  end.

Definition pred_CheckPredicates p pod (nodeName : string) : PredicateSnapshot * option SchedulingError :=
  match RunFiltersOnNode p pod nodeName with
  | (p, Err e) => (p, Some e)
  | (p, Ok _) => (p, None)
  end.

Definition unreserve_found p (namespace podName nodeName : string) : PredicateSnapshot * option snapshot_error :=
  match pred_GetNodeInfo p nodeName with
  | (p, Err e) => (p, Some e)
  | (p, Ok nodeInfo) =>
      match SnapshotSpec.find_pod namespace podName (Pods (Some nodeInfo)) with
      | None => (p, Some (ResourceError "pod not found on node"))
      | Some foundPod =>
          if bool_decide (ClaimRefs (pi_Pod foundPod) = []) then (p, None)
          else match UnreservePodClaims IsForPod ClaimRefs ClaimStatuses (draSnapshot p) (pi_Pod foundPod) with
               | (d, Some _) => (set_dra p d, Some (ResourceError "couldn't unreserve claims"))
               | (d, None) => (set_dra p d, None)
               end
      end
  end.

Definition pred_UnschedulePod p (namespace podName nodeName : string) : PredicateSnapshot * option snapshot_error :=
  match (if draEnabled then unreserve_found p namespace podName nodeName else (p, None)) with
  | (p, Some e) => (p, Some e)
  | (p, None) => store_call p (SnapshotSpec.RemovePodInfo namespace podName nodeName)
  end.

Definition ForceAddPod p pod (nodeName : string) : PredicateSnapshot * option snapshot_error :=
  match createPodInfo p pod with
  | (p, Err e) => (p, Some e)
  | (p, Ok podInfo) => store_call p (SnapshotSpec.StorePodInfo podInfo nodeName)
  end.

Definition ForceRemovePod p (namespace podName nodeName : string) : PredicateSnapshot * option snapshot_error :=
  store_call p (SnapshotSpec.RemovePodInfo namespace podName nodeName).

(** ** Transactions *)

Definition pred_Clear p : PredicateSnapshot :=
  mkPredicate (SnapshotSpec.store_exec SnapshotSpec.Clear (ClusterSnapshotStore p)).1
    (Dra.NewEmptySnapshot (heap (draSnapshot p))) csi_NewEmptySnapshot (lastIndex p).

Definition pred_Fork p : PredicateSnapshot :=
  mkPredicate (SnapshotSpec.store_exec SnapshotSpec.Fork (ClusterSnapshotStore p)).1
    (dra_Fork (draSnapshot p)) (csi_Fork (csiSnapshot p)) (lastIndex p).

Definition pred_Revert p : PredicateSnapshot :=
  mkPredicate (SnapshotSpec.store_exec SnapshotSpec.Revert (ClusterSnapshotStore p)).1
    (dra_Revert (draSnapshot p)) (csi_Revert (csiSnapshot p)) (lastIndex p).

Definition pred_Commit p : PredicateSnapshot * option snapshot_error :=
  match store_call p SnapshotSpec.Commit with
  | (p, Some e) => (p, Some e)
  | (p, None) => (set_csi (set_dra p (dra_Commit (draSnapshot p))) (csi_Commit (csiSnapshot p)), None)
  end.

Definition NewPredicateSnapshot (snapshotStore : T) (h : gmap nat claim) : PredicateSnapshot :=
  mkPredicate snapshotStore (Dra.NewEmptySnapshot h) csi_NewEmptySnapshot 0.

(** ** Loading the state of the cluster *)

Fixpoint cluster_node_infos (d : dra) (c : csi) (nodes : list Node) : dra * csi * result snapshot_error (list NI) :=
  match nodes with
  | [] => (d, c, Ok [])
  | node :: nodes =>
      let '(d, slices) := if draEnabled then let '(d, r) := NodeResourceSlices d (Name node) in (d, default [] r)
                          else (d, []) in
      let nodeInfo := NewNodeInfo (Some node) slices [] in
      match (if enableCSINodeAwareScheduling then
               match csi_Get c (Name node) with
               | (c, Ok csiNode) => (c, Ok (SetCSINode nodeInfo (Some csiNode)))
               | (c, Err _) => (c, Err (ResourceError "couldn't obtain csi node"))
               end
             else (c, Ok nodeInfo)) with
      | (c, Err e) => (d, c, Err e)
      | (c, Ok nodeInfo) =>
          match cluster_node_infos d c nodes with
          | (d, c, Ok nodeInfos) => (d, c, Ok (nodeInfo :: nodeInfos))
          | (d, c, Err e) => (d, c, Err e)
          end
      end
  end.

(** The last node of a name is the one its pods go to. *)
Definition nodeNameToIdx (nodes : list Node) : gmap string nat :=
  foldl (λ m kv, <[Name kv.2 := kv.1]> m) ∅ (imap pair nodes).

Definition bound_node pod : string := if bool_decide (PodNodeName pod = "") then PodNominatedNodeName pod else PodNodeName pod.

Fixpoint setClusterStatePods p (idx : gmap string nat) (podInfosForNode : list (list PodInfo)) (scheduledPods : list Pod)
    : PredicateSnapshot * result snapshot_error (list (list PodInfo)) :=
  match scheduledPods with
  | [] => (p, Ok podInfosForNode)
  | pod :: scheduledPods =>
      match idx !! bound_node pod with
      | None => setClusterStatePods p idx podInfosForNode scheduledPods
      | Some nodeIdx =>
          match createPodInfo p pod with
          | (p, Err e) => (p, Err e)
          | (p, Ok podInfo) =>
              setClusterStatePods p idx (alter (λ l, l ++ [podInfo]) nodeIdx podInfosForNode) scheduledPods
          end
      end
  end.

Fixpoint store_all p (nodeInfos : list NI) : PredicateSnapshot * option snapshot_error :=
  match nodeInfos with
  | [] => (p, None)
  | ni :: nodeInfos =>
      match store_call p (SnapshotSpec.StoreNodeInfo ni) with
      | (p, Some e) => (p, Some e)
      | (p, None) => store_all p nodeInfos
      end
  end.

Definition SetClusterState p (nodes : list Node) (scheduledPods : list Pod) (newDra : option dra) (newCsi : option csi)
    : PredicateSnapshot * option snapshot_error :=
  let p := set_store p (SnapshotSpec.store_exec SnapshotSpec.Clear (ClusterSnapshotStore p)).1 in
  let d := default (Dra.NewEmptySnapshot (heap (draSnapshot p))) newDra in
  let c := default csi_NewEmptySnapshot newCsi in
  match cluster_node_infos d c nodes with
  | (d, c, Err e) => (set_csi (set_dra p d) c, Some e)
  | (d, c, Ok nodeInfos) =>
      match setClusterStatePods (set_csi (set_dra p d) c) (nodeNameToIdx nodes) (replicate (length nodes) []) scheduledPods with
      | (p, Err e) => (p, Some e)
      | (p, Ok podInfosForNode) => store_all p (zip_with (foldl AddPodInfo) nodeInfos podInfosForNode)
      end
  end.
End predicate.
