(* ===== verification/PredicateProofs.v ===== *)
(** What the snapshot of the simulations promises: without dynamic resources it
    is a cluster snapshot over any store, and with them a fork and a revert
    restore the nodes, the claims, the slices and the CSI nodes. *)
From stdpp Require Import prelude gmap strings list numbers sorting fin_maps fin_sets.
From S2P Require Import Prelude Api Drain Framework PatchSet.
From S2P Require SnapshotSpec DeltaStore DeltaStoreProofs.
From S2P Require Import ClusterSnapshot Dra DraProofs CsiSnapshot Predicate.
Local Open Scope Z_scope.
Local Open Scope ca_scope.

Section predicate.
Context {S Slice CSI : Type} `{SchedNodeInfo S} `{GR : GoRange} {T : Type} `{!SnapshotSpec.SnapshotStore S Slice CSI T}.
Context {Selector ShareID Consumed ClaimData Class_ : Type}.
Abbreviation NI := (NodeInfo S Slice CSI).
Abbreviation claim := (Claim (Selector := Selector) (ShareID := ShareID) (Consumed := Consumed) (ClaimData := ClaimData)).
Abbreviation dra := (DraSnapshot (Selector := Selector) (ShareID := ShareID) (Consumed := Consumed)
  (ClaimData := ClaimData) (Slice := Slice) (Class_ := Class_)).
Abbreviation csi := (PatchSet string CSI).
Abbreviation pred := (PredicateSnapshot (Slice := Slice) (CSI := CSI) (T := T) (Selector := Selector) (ShareID := ShareID)
  (Consumed := Consumed) (ClaimData := ClaimData) (Class_ := Class_)).
Context (draEnabled enableCSI : bool) (csi_Name : CSI → string).
Context (IsForPod IsReservedForPod : Pod → claim → bool) (ClaimRefs ClaimStatuses : Pod → list ClaimRef).
Context (MatchNodeSelectorTerms : Node → Selector → result string bool).
Context {CycleState : Type}.
Context (RunPreFilterPlugins : pred → Pod → CycleState * option (gset string) * Status * string).
Context (RunFilterPlugins : pred → CycleState → Pod → NI → CycleState * Status).
Context (RunReservePluginsReserve : pred → CycleState → Pod → string → list (string * claim) * bool).
Context (ParallelizeUntil : pred → Pod → SchedulingOptions S Slice CSI → nat → list nat).
Implicit Types (p : pred) (pod : Pod) (ni : NI).

Abbreviation createPodInfo := (createPodInfo draEnabled ClaimRefs ClaimStatuses).
Abbreviation verify := (verifyScheduledPodResourceClaims ClaimRefs ClaimStatuses MatchNodeSelectorTerms).
Abbreviation add_resources := (add_resources draEnabled IsForPod IsReservedForPod ClaimRefs ClaimStatuses MatchNodeSelectorTerms).
Abbreviation add_csi := (add_csi enableCSI csi_Name).
Abbreviation AddNodeInfo_ := (pred_AddNodeInfo draEnabled enableCSI csi_Name IsForPod IsReservedForPod ClaimRefs ClaimStatuses MatchNodeSelectorTerms).
Abbreviation RemoveNodeInfo_ := (pred_RemoveNodeInfo draEnabled enableCSI IsForPod ClaimRefs ClaimStatuses).
Abbreviation place := (place_pod draEnabled IsReservedForPod ClaimRefs ClaimStatuses MatchNodeSelectorTerms RunReservePluginsReserve).
Abbreviation filters_on_node := (RunFiltersOnNode RunPreFilterPlugins RunFilterPlugins).
Abbreviation filters_any := (RunFiltersUntilPassingNode RunPreFilterPlugins RunFilterPlugins ParallelizeUntil).
Abbreviation SchedulePod_ := (pred_SchedulePod draEnabled IsReservedForPod ClaimRefs ClaimStatuses MatchNodeSelectorTerms
  RunPreFilterPlugins RunFilterPlugins RunReservePluginsReserve).
Abbreviation ScheduleAny_ := (pred_SchedulePodOnAnyNodeMatching draEnabled IsReservedForPod ClaimRefs ClaimStatuses
  MatchNodeSelectorTerms RunPreFilterPlugins RunFilterPlugins RunReservePluginsReserve ParallelizeUntil).
Abbreviation CheckPredicates_ := (pred_CheckPredicates RunPreFilterPlugins RunFilterPlugins).
Abbreviation UnschedulePod_ := (pred_UnschedulePod draEnabled IsForPod ClaimRefs ClaimStatuses).
Abbreviation ForceAddPod_ := (ForceAddPod draEnabled ClaimRefs ClaimStatuses).

(** ** The store *)

Definition store_of p : SnapshotSpec.spec_state S Slice CSI := SnapshotSpec.store_abs (ClusterSnapshotStore p).
Definition nodes p : gmap string NI := SnapshotSpec.cur (store_of p).
Definition forks p : list (gmap string NI) := SnapshotSpec.saved (store_of p).

Definition store_ok p : Prop := SnapshotSpec.store_inv (ClusterSnapshotStore p) ∧ ref_ok (store_of p).

(** A store that only answered. *)
Definition store_same p p' : Prop := store_ok p' ∧ store_of p' = store_of p.

Lemma store_same_eq p p' : store_ok p → ClusterSnapshotStore p' = ClusterSnapshotStore p → store_same p p'.
Proof. intros Hok Heq. unfold store_same, store_ok, store_of. by rewrite Heq. Qed.

Lemma store_exec_spec p o : store_ok p →
  let p' := set_store p (SnapshotSpec.store_exec o (ClusterSnapshotStore p)).1 in
  store_ok p' ∧ store_of p' = (SnapshotSpec.spec_exec o (store_of p)).1.
Proof.
  intros [Hi Hr]. destruct (SnapshotSpec.store_exec_ok o _ Hi) as (Hi' & Ha & _). cbv zeta.
  unfold store_ok, store_of. cbn [ClusterSnapshotStore set_store]. rewrite <- Ha. split; [|done].
  split; [done|]. by apply ref_ok_exec.
Qed.

(** An update that answers an error or nothing. *)
Lemma store_call_spec p o : store_ok p →
  match o with SnapshotSpec.StoreNodeInfo _ | SnapshotSpec.RemoveNodeInfo _ | SnapshotSpec.StorePodInfo _ _
             | SnapshotSpec.RemovePodInfo _ _ _ | SnapshotSpec.Commit => True | _ => False end →
  let '(p', e) := store_call p o in
  store_ok p' ∧ p' = set_store p (ClusterSnapshotStore p') ∧
  (store_of p', e) = ref_exec o (store_of p).
Proof.
  intros Hok Ho. pose proof (store_exec_spec p o Hok) as Hs. destruct Hok as [Hi Hr].
  destruct (SnapshotSpec.store_exec_ok o _ Hi) as (_ & _ & Hout). unfold store_call, ref_exec. fold (store_of p) in Hout.
  destruct (SnapshotSpec.store_exec o (ClusterSnapshotStore p)) as [t r]. cbn [fst snd] in *.
  destruct Hs as [Hok' Habs]. destruct (SnapshotSpec.spec_exec o (store_of p)) as [a r'] eqn:He. cbn [fst snd] in *.
  assert (∃ e, r' = SnapshotSpec.RErr e) as [e ->].
  { revert He. destruct o; try done; simpl; repeat case_match; intros [= <- <-]; eauto. }
  destruct r as [e'|r|l]; simpl in Hout; try done. injection Hout as <-. split; [done|]. split; [done|].
  rewrite Habs. by destruct e.
Qed.

Lemma GetNodeInfo_spec p n : store_ok p →
  let '(p', r) := pred_GetNodeInfo p n in
  store_same p p' ∧ p' = set_store p (ClusterSnapshotStore p') ∧
  r = match nodes p !! n with Some ni => Ok ni | None => Err (StoreError SnapshotSpec.ErrNodeNotFound) end.
Proof.
  intros Hok. pose proof (store_exec_spec p (SnapshotSpec.GetNodeInfo n) Hok) as Hs. destruct Hok as [Hi Hr].
  destruct (SnapshotSpec.store_exec_ok (SnapshotSpec.GetNodeInfo n) _ Hi) as (_ & _ & Hout). unfold pred_GetNodeInfo.
  destruct (SnapshotSpec.store_exec _ (ClusterSnapshotStore p)) as [t r]. cbn [fst snd] in *.
  destruct Hs as [Hok' Habs]. simpl in Hout. destruct r as [e|r|l]; simpl in Hout; try done. injection Hout as <-.
  fold (store_of p). fold (nodes p). by destruct (nodes p !! n).
Qed.

Lemma ListNodeInfos_spec p : store_ok p →
  let '(p', l) := ListNodeInfos p in
  store_same p p' ∧ p' = set_store p (ClusterSnapshotStore p') ∧ l ≡ₚ (map_to_list (nodes p)).*2.
Proof.
  intros Hok. pose proof (store_exec_spec p SnapshotSpec.ListNodeInfos Hok) as Hs. destruct Hok as [Hi Hr].
  destruct (SnapshotSpec.store_exec_ok SnapshotSpec.ListNodeInfos _ Hi) as (_ & _ & Hout). unfold ListNodeInfos.
  destruct (SnapshotSpec.store_exec _ (ClusterSnapshotStore p)) as [t r]. cbn [fst snd] in *.
  destruct Hs as [Hok' Habs]. simpl in Hout. destruct r as [e|r|l]; simpl in Hout; try done.
Qed.

(** ** What leaves the store alone *)

Lemma createPodInfo_store p pod : ClusterSnapshotStore (createPodInfo p pod).1 = ClusterSnapshotStore p.
Proof. unfold createPodInfo. by repeat case_match. Qed.

Lemma verify_store p pod node : ClusterSnapshotStore (verify p pod node).1 = ClusterSnapshotStore p.
Proof. unfold verify. by repeat case_match. Qed.

Lemma modify_new_store p podInfo :
  ClusterSnapshotStore (modifyResourceClaimsForNewPod IsForPod IsReservedForPod ClaimRefs ClaimStatuses p podInfo).1 =
  ClusterSnapshotStore p.
Proof. unfold modifyResourceClaimsForNewPod. by repeat case_match. Qed.

Lemma add_pods_store node podInfos : ∀ p,
  ClusterSnapshotStore (add_pods IsForPod IsReservedForPod ClaimRefs ClaimStatuses MatchNodeSelectorTerms p node podInfos).1 =
  ClusterSnapshotStore p.
Proof.
  induction podInfos as [|podInfo podInfos IH]; intros p; [done|]. cbn [add_pods]. case_bool_decide; [done|].
  pose proof (modify_new_store p podInfo) as Hm.
  destruct (modifyResourceClaimsForNewPod _ _ _ _ _ _) as [p1 [e|]]; [done|].
  pose proof (verify_store p1 (pi_Pod podInfo) node) as Hv. destruct (verify _ _ _) as [p2 [e|]]; simpl in *; [congruence|].
  rewrite IH. congruence.
Qed.

Lemma add_resources_store p ni : ClusterSnapshotStore (add_resources p ni).1 = ClusterSnapshotStore p.
Proof.
  unfold add_resources. destruct draEnabled; [|done].
  assert (ClusterSnapshotStore (add_slices p ni).1 = ClusterSnapshotStore p) as Hs by (unfold add_slices; by repeat case_match).
  destruct (add_slices p ni) as [p1 [e|]]; [done|]. by rewrite add_pods_store.
Qed.

Lemma add_csi_store p ni : ClusterSnapshotStore (add_csi p ni).1 = ClusterSnapshotStore p.
Proof. unfold add_csi. by repeat case_match. Qed.

Lemma modify_scheduled_store p pod node state :
  ClusterSnapshotStore (modifyResourceClaimsForScheduledPod IsReservedForPod ClaimRefs ClaimStatuses
    RunReservePluginsReserve p pod node state).1 = ClusterSnapshotStore p.
Proof. unfold modifyResourceClaimsForScheduledPod, RunReserveOnNode. by repeat case_match; simplify_eq. Qed.

(** ** The laws of a cluster snapshot *)

Lemma createPodInfo_pod p pod podInfo : (createPodInfo p pod).2 = Ok podInfo → pi_Pod podInfo = pod.
Proof. unfold createPodInfo. repeat case_match; simpl; intros; by simplify_eq. Qed.

(** What an update may do to the store: its forks stay, and when it fails its
    nodes too. *)
Definition updates p p' {E} (e : option E) (done : Prop) : Prop :=
  store_ok p' ∧ forks p' = forks p ∧ match e with None => done | Some _ => nodes p' = nodes p end.

Lemma updates_from p p1 p' {E} (e : option E) (done : Prop) :
  ClusterSnapshotStore p1 = ClusterSnapshotStore p → updates p1 p' e done → updates p p' e done.
Proof. unfold updates, forks, nodes, store_of. by intros ->. Qed.

Lemma updates_nothing p p' {E} (e : E) (done : Prop) : store_ok p → store_same p p' → updates p p' (Some e) done.
Proof. intros Hok [Hok' Heq]. unfold updates, forks, nodes. by rewrite Heq. Qed.

Lemma store_pod_law p podInfo n : store_ok p →
  let '(p', e) := store_call p (SnapshotSpec.StorePodInfo podInfo n) in
  updates p p' e (placed (nodes p) (nodes p') (pi_Pod podInfo) n).
Proof.
  intros Hok. pose proof (store_call_spec p (SnapshotSpec.StorePodInfo podInfo n) Hok I) as Hs.
  destruct (store_call _ _) as [p' e]. destruct Hs as (Hok' & _ & Heq). unfold updates, forks, nodes in *.
  unfold ref_exec in Heq. simpl in Heq. split; [done|].
  destruct (SnapshotSpec.cur (store_of p) !! n) as [ni|] eqn:Hn; simpl in Heq; injection Heq as -> ->; simpl; [|done].
  split; [done|]. by exists ni, podInfo.
Qed.

Lemma place_law p pod node n state : store_ok p →
  let '(p', e) := place p pod node n state in updates p p' e (placed (nodes p) (nodes p') pod n).
Proof.
  intros Hok. unfold place.
  assert (∀ p1, ClusterSnapshotStore p1 = ClusterSnapshotStore p →
    let '(p', e) := match createPodInfo p1 pod with
      | (p, Err e) => (p, Some e) | (p, Ok podInfo) => store_call p (SnapshotSpec.StorePodInfo podInfo n) end in
    updates p p' e (placed (nodes p) (nodes p') pod n)) as Hrest.
  { intros p1 H1. pose proof (createPodInfo_store p1 pod) as Hc. pose proof (createPodInfo_pod p1 pod) as Hpod.
    destruct (createPodInfo p1 pod) as [p2 [podInfo|e]]; simpl in *.
    - specialize (Hpod _ eq_refl) as <-.
      assert (ClusterSnapshotStore p2 = ClusterSnapshotStore p) as H2 by congruence.
      pose proof (store_pod_law p2 podInfo n (proj1 (store_same_eq _ _ Hok H2))) as Hs. destruct (store_call _ _) as [p' e].
      eapply updates_from; [exact H2|]. unfold nodes, store_of in *. by rewrite H2 in Hs.
    - apply updates_nothing; [done|]. apply store_same_eq; [done|congruence]. }
  destruct (draEnabled && negb (bool_decide (ClaimRefs pod = []))); [|by apply Hrest].
  pose proof (modify_scheduled_store p pod node state) as Hm.
  destruct (modifyResourceClaimsForScheduledPod _ _ _ _ _ _ _ _) as [p1 [e|]]; simpl in Hm.
  { apply updates_nothing; [done|by apply store_same_eq]. }
  pose proof (verify_store p1 pod node) as Hv. destruct (verify p1 pod node) as [p2 [e|]]; simpl in Hv.
  { apply updates_nothing; [done|apply store_same_eq; congruence]. }
  apply Hrest. congruence.
Qed.

Lemma filters_on_node_law p pod n : store_ok p →
  let '(p', r) := filters_on_node p pod n in
  store_same p p' ∧ p' = set_store p (ClusterSnapshotStore p') ∧
  match r with Ok (node, _) => ∃ ni, nodes p !! n = Some ni ∧ node = ni_Node ni | Err _ => True end.
Proof.
  intros Hok. unfold filters_on_node. pose proof (GetNodeInfo_spec p n Hok) as Hg.
  destruct (pred_GetNodeInfo p n) as [p1 r]. destruct Hg as (Hs & Hset & ->).
  destruct (nodes p !! n) as [ni|]; [|done].
  destruct (RunPreFilterPlugins p1 pod) as [[[state res] [|plugin reasons]] plugins]; [|done].
  destruct (negb _); [done|]. destruct (RunFilterPlugins p1 state pod ni) as [state' [|plugin reasons]]; [|done].
  split; [done|]. split; [done|]. by exists ni.
Qed.

Lemma schedule_law p pod n : store_ok p →
  let '(p', e) := SchedulePod_ p pod n in updates p p' e (placed (nodes p) (nodes p') pod n).
Proof.
  intros Hok. unfold SchedulePod_. pose proof (filters_on_node_law p pod n Hok) as Hf.
  destruct (filters_on_node p pod n) as [p1 [[node state]|e]]; destruct Hf as (Hs & _ & _).
  - pose proof (place_law p1 pod node n state (proj1 Hs)) as Hp. unfold updates, forks, nodes in *. destruct Hs as [_ Hs].
    rewrite Hs in Hp. by destruct (place p1 pod node n state) as [p' [e|]].
  - by apply updates_nothing.
Qed.

(** *** Searching a node *)

(** A match is an acceptable node. *)
Definition match_ok (opts : SchedulingOptions S Slice CSI) (l : list NI) (found : option (nat * nat)) : Prop :=
  match found with
  | Some (_, index) => ∃ ni, l !! index = Some ni ∧ acceptable opts ni = true
  | None => True
  end.

Lemma check_node_ok p pod opts l res st i :
  match_ok opts l st.2 → match_ok opts l (check_node RunFilterPlugins p pod opts l res st i).2.
Proof.
  intros Hst. unfold check_node. destruct (_ <? 0); [done|].
  destruct (l !! Z.to_nat _) as [ni|] eqn:Hl; [|done]. destruct (negb (allowed _ _)); [done|].
  destruct (Unschedulable _); [done|]. destruct (acceptable opts ni) eqn:Ha; [simpl|done].
  destruct (RunFilterPlugins p st.1 pod ni) as [state [|plugin reasons]]; [|done]. simpl.
  case_bool_decide; [|done]. by exists ni.
Qed.

Lemma filters_any_law p pod opts : store_ok p →
  let '(p', r) := filters_any p pod opts in
  store_same p p' ∧ p' = set_lastIndex (set_store p (ClusterSnapshotStore p')) (lastIndex p') ∧
  match r with
  | Ok (node, _) => ∃ ni, nodes p !! Name node = Some ni ∧ node = ni_Node ni ∧ acceptable opts ni = true
  | Err _ => True
  end.
Proof.
  intros Hok. unfold filters_any. pose proof (ListNodeInfos_spec p Hok) as Hl.
  destruct (ListNodeInfos p) as [p1 l]. destruct Hl as (Hs & Hset & Hl).
  assert (p1 = set_lastIndex (set_store p (ClusterSnapshotStore p1)) (lastIndex p1)) as Hp1 by by rewrite Hset.
  destruct (RunPreFilterPlugins p1 pod) as [[[state res] [|plugin reasons]] plugins]; [|done].
  pose proof (foldl_inv (λ st, match_ok opts l st.2) (check_node RunFilterPlugins p1 pod opts l res)
    (ParallelizeUntil p1 pod opts (length l)) (state, None) I) as Hm.
  specialize (Hm (λ st i _, check_node_ok p1 pod opts l res st i)).
  destruct (foldl _ _ _) as [state' [[i index]|]]; [|done]. simpl in Hm. destruct Hm as (ni & Hi & Ha). rewrite Hi.
  assert (∃ n, nodes p !! n = Some ni) as [n Hn].
  { assert (ni ∈ (map_to_list (nodes p)).*2) as Hin by (rewrite <- Hl; by eapply list_elem_of_lookup_2).
    apply list_elem_of_fmap in Hin as [[n ni'] [-> Hin]]. exists n. by apply elem_of_map_to_list in Hin. }
  assert (NodeName ni = n) as <- by by apply (proj1 (proj2 Hok) n ni).
  destruct (NodeOrdering opts); (split; [done|]); (split; [by rewrite Hp1|]); by exists ni.
Qed.

Lemma schedule_any_law p pod opts : store_ok p →
  let '(p', r) := ScheduleAny_ p pod opts in
  store_ok p' ∧ forks p' = forks p ∧
  match r with
  | Ok n => placed (nodes p) (nodes p') pod n ∧ ∃ ni, nodes p !! n = Some ni ∧ acceptable opts ni = true
  | Err _ => nodes p' = nodes p
  end.
Proof.
  intros Hok. unfold ScheduleAny_. pose proof (filters_any_law p pod opts Hok) as Hf.
  destruct (filters_any p pod opts) as [p1 [[node state]|e]]; destruct Hf as (Hs & _ & Hn).
  - pose proof (place_law p1 pod node (Name node) state (proj1 Hs)) as Hp. unfold updates, forks, nodes in *.
    destruct Hs as [_ Hs]. rewrite Hs in Hp. destruct (place _ _ _ _ _) as [p' [e|]]; destruct Hp as (? & ? & ?); [done|].
    destruct Hn as (ni & Hn & _ & Ha). split_and!; [done..|by exists ni].
  - destruct Hs as [Hok' Hs]. unfold forks, nodes. by rewrite Hs.
Qed.

(** *** Nodes *)

Lemma add_node_law p ni : store_ok p →
  let '(p', e) := AddNodeInfo_ p ni in
  updates p p' e (nodes p !! NodeName ni = None ∧ nodes p' = <[NodeName ni := ni]> (nodes p)).
Proof.
  intros Hok. unfold AddNodeInfo_. pose proof (add_resources_store p ni) as H1.
  destruct (add_resources p ni) as [p1 [e|]]; simpl in H1; [apply updates_nothing; [done|by apply store_same_eq]|].
  pose proof (add_csi_store p1 ni) as H2. destruct (add_csi p1 ni) as [p2 [e|]]; simpl in H2.
  { apply updates_nothing; [done|apply store_same_eq; congruence]. }
  assert (ClusterSnapshotStore p2 = ClusterSnapshotStore p) as Heq by congruence.
  pose proof (store_call_spec p2 (SnapshotSpec.StoreNodeInfo ni) (proj1 (store_same_eq _ _ Hok Heq)) I) as Hs.
  destruct (store_call _ _) as [p' e]. destruct Hs as (Hok' & _ & Hr).
  unfold updates, forks, nodes, store_of, ref_exec in *. rewrite Heq in Hr. simpl in Hr. split; [done|].
  destruct (SnapshotSpec.cur _ !! NodeName ni) eqn:Hn; simpl in Hr; injection Hr as -> ->; by simpl.
Qed.

Lemma remove_node_law p n p' e : store_ok p → RemoveNodeInfo_ p n = Some (p', e) →
  store_ok p' ∧ forks p' = forks p ∧
  match e with
  | None => is_Some (nodes p !! n) ∧ nodes p' = delete n (nodes p)
  | Some _ => nodes p !! n = None ∧ nodes p' = nodes p
  end.
Proof.
  intros Hok. unfold RemoveNodeInfo_. pose proof (GetNodeInfo_spec p n Hok) as Hg.
  destruct (pred_GetNodeInfo p n) as [p1 r]. destruct Hg as ([Hok1 Hs1] & _ & ->).
  destruct (nodes p !! n) as [ni|] eqn:Hn.
  2: { intros Heq. injection Heq as <- <-. unfold forks, nodes in *. by rewrite Hs1. }
  pose proof (store_call_spec p1 (SnapshotSpec.RemoveNodeInfo n) Hok1 I) as Hs.
  destruct (store_call _ _) as [p2 e2]. destruct Hs as (Hok2 & _ & Hr).
  unfold nodes, forks in *. unfold ref_exec in Hr. rewrite Hs1 in Hr. simpl in Hr. rewrite Hn in Hr. simpl in Hr.
  injection Hr as Ha ->.
  destruct (if draEnabled then _ else _) as [p3|] eqn:Hd; simpl; [|done]. intros Heq. injection Heq as <- <-.
  assert (ClusterSnapshotStore p3 = ClusterSnapshotStore p2) as H3.
  { destruct draEnabled; [|by simplify_eq]. destruct (remove_owned _ _ _ _ _) as [d|]; simpl in Hd; by simplify_eq. }
  assert (∀ q, ClusterSnapshotStore q = ClusterSnapshotStore p2 →
    store_ok q ∧ SnapshotSpec.saved (store_of q) = SnapshotSpec.saved (store_of p) ∧
    is_Some (Some ni) ∧ SnapshotSpec.cur (store_of q) = delete n (SnapshotSpec.cur (store_of p))) as Hq.
  { intros q Hq. unfold store_ok, store_of in *. rewrite Hq, Ha. split; [split; [apply Hok2|]|done].
    rewrite <- Ha. apply Hok2. }
  destruct (enableCSI && _); by apply Hq.
Qed.

Lemma unreserve_found_store p ns name n : store_ok p →
  store_same p (unreserve_found IsForPod ClaimRefs ClaimStatuses p ns name n).1.
Proof.
  intros Hok. unfold unreserve_found. pose proof (GetNodeInfo_spec p n Hok) as Hg.
  destruct (pred_GetNodeInfo p n) as [p1 [ni|e]]; destruct Hg as (Hs & _ & _); [|done].
  destruct (SnapshotSpec.find_pod _ _ _) as [pi|]; [|done]. case_bool_decide; [done|]. by destruct (UnreservePodClaims _ _ _ _ _) as [d [e|]].
Qed.

Lemma remove_pod_law p ns name n : store_ok p →
  let '(p', e) := store_call p (SnapshotSpec.RemovePodInfo ns name n) in
  updates p p' e (taken (nodes p) (nodes p') ns name n).
Proof.
  intros Hok. pose proof (store_call_spec p (SnapshotSpec.RemovePodInfo ns name n) Hok I) as Hs.
  destruct (store_call _ _) as [p' e]. destruct Hs as (Hok' & _ & Hr). unfold updates, forks, nodes in *.
  unfold ref_exec in Hr. simpl in Hr. split; [done|].
  destruct (SnapshotSpec.cur (store_of p) !! n) as [ni|] eqn:Hn; simpl in Hr; [|by injection Hr as -> ->].
  destruct (SnapshotSpec.find_pod ns name (GetPods ni)) as [pi|] eqn:Hp; simpl in Hr; [|by injection Hr as -> ->].
  pose proof (RemovePod_err ni pi) as He. destruct (RemovePod ni pi) as [ni' [err|]] eqn:Hrm; simpl in *; injection Hr as -> ->; simpl.
  - split; [done|]. rewrite (He err) by done. by apply insert_id.
  - split; [done|]. exists ni, pi. by rewrite Hrm.
Qed.

Lemma unschedule_law p ns name n : store_ok p →
  let '(p', e) := UnschedulePod_ p ns name n in updates p p' e (taken (nodes p) (nodes p') ns name n).
Proof.
  intros Hok. unfold UnschedulePod_.
  assert (∀ p1, store_same p p1 → let '(p', e) := store_call p1 (SnapshotSpec.RemovePodInfo ns name n) in
    updates p p' e (taken (nodes p) (nodes p') ns name n)) as Hrest.
  { intros p1 [Hok1 Hs1]. pose proof (remove_pod_law p1 ns name n Hok1) as Hr. destruct (store_call _ _) as [p' e].
    unfold updates, forks, nodes in *. by rewrite Hs1 in Hr. }
  destruct draEnabled; [|by apply Hrest]. pose proof (unreserve_found_store p ns name n Hok) as Hu.
  destruct (unreserve_found _ _ _ _ _ _ _) as [p1 [e|]]; [by apply updates_nothing|by apply Hrest].
Qed.

Lemma force_add_law p pod n : store_ok p →
  let '(p', e) := ForceAddPod_ p pod n in updates p p' e (placed (nodes p) (nodes p') pod n).
Proof.
  intros Hok. unfold ForceAddPod_. pose proof (createPodInfo_store p pod) as Hc. pose proof (createPodInfo_pod p pod) as Hpod.
  destruct (createPodInfo p pod) as [p1 [podInfo|e]]; simpl in *; [|by apply updates_nothing, store_same_eq].
  specialize (Hpod _ eq_refl) as <-.
  pose proof (store_pod_law p1 podInfo n (proj1 (store_same_eq _ _ Hok Hc))) as Hs. destruct (store_call _ _) as [p' e].
  eapply updates_from; [exact Hc|]. unfold nodes, store_of in *. by rewrite Hc in Hs.
Qed.

(** *** Transactions *)

Lemma transaction_store p o p' : store_ok p →
  ClusterSnapshotStore p' = (SnapshotSpec.store_exec o (ClusterSnapshotStore p)).1 →
  store_ok p' ∧ store_of p' = (SnapshotSpec.spec_exec o (store_of p)).1.
Proof.
  intros Hok Heq. destruct (store_exec_spec p o Hok) as [H1 H2]. unfold store_ok, store_of in *. by rewrite Heq.
Qed.

Lemma commit_law p : store_ok p →
  let '(p', e) := pred_Commit p in
  store_ok p' ∧ e = None ∧ nodes p' = nodes p ∧ forks p' = tail (forks p) ∧
  draSnapshot p' = dra_Commit (draSnapshot p) ∧ csiSnapshot p' = csi_Commit (csiSnapshot p).
Proof.
  intros Hok. unfold pred_Commit. pose proof (store_call_spec p SnapshotSpec.Commit Hok I) as Hs.
  destruct (store_call _ _) as [p1 e]. destruct Hs as (Hok1 & Hset & Hr). unfold ref_exec in Hr. simpl in Hr.
  injection Hr as Ha ->. simpl. unfold forks, nodes, store_of in *. cbn [ClusterSnapshotStore set_csi set_dra]. rewrite Ha.
  rewrite Hset. done.
Qed.

(** *** The interface *)

(** Without dynamic resources no operation panics. *)
Lemma remove_node_some p n : draEnabled = false → is_Some (RemoveNodeInfo_ p n).
Proof. unfold RemoveNodeInfo_. intros ->. destruct (pred_GetNodeInfo p n) as [p1 [ni|e]]; [|done]. by destruct (store_call _ _) as [p2 [e|]]. Qed.

#[refine] Definition predicate_snapshot (no_dra : draEnabled = false) : ClusterSnapshot S Slice CSI pred := {|
  GetNodeInfo := pred_GetNodeInfo;
  AddNodeInfo := AddNodeInfo_;
  RemoveNodeInfo p n := default (p, None) (RemoveNodeInfo_ p n);
  SchedulePod := SchedulePod_;
  SchedulePodOnAnyNodeMatching := ScheduleAny_;
  CheckPredicates := CheckPredicates_;
  UnschedulePod := UnschedulePod_;
  Fork := pred_Fork;
  Revert := pred_Revert;
  Commit := pred_Commit;
  snap_ok := store_ok;
  snap_nodes := nodes;
  snap_saved := forks
|}.
Proof.
  - by intros p [_ [Hn _]].
  - intros p n Hok. pose proof (GetNodeInfo_spec p n Hok) as Hg. destruct (pred_GetNodeInfo p n) as [p' r].
    destruct Hg as ([? Hs] & _ & ->). unfold forks, nodes. by rewrite Hs.
  - intros p ni Hok. pose proof (add_node_law p ni Hok) as Ha. by destruct (AddNodeInfo_ p ni).
  - intros p n Hok. destruct (remove_node_some p n no_dra) as [[p' e] He]. rewrite He. by eapply remove_node_law.
  - intros p pod n Hok. pose proof (schedule_law p pod n Hok) as Ha. by destruct (SchedulePod_ p pod n).
  - intros p pod opts Hok. apply (schedule_any_law p pod opts Hok).
  - intros p pod n Hok. unfold CheckPredicates_. pose proof (filters_on_node_law p pod n Hok) as Hf.
    destruct (filters_on_node p pod n) as [p' [[node state]|e]]; destruct Hf as ([? Hs] & _); unfold forks, nodes; by rewrite Hs.
  - intros p ns name n Hok. pose proof (unschedule_law p ns name n Hok) as Ha. by destruct (UnschedulePod_ p ns name n).
  - intros p Hok. destruct (transaction_store p SnapshotSpec.Fork (pred_Fork p) Hok eq_refl) as [? Hs].
    unfold forks, nodes. by rewrite Hs.
  - intros p m l Hok Hf. destruct (transaction_store p SnapshotSpec.Revert (pred_Revert p) Hok eq_refl) as [? Hs].
    unfold forks, nodes in *. rewrite Hs. simpl. by rewrite Hf.
  - intros p Hok. pose proof (commit_law p Hok) as Hc. destruct (pred_Commit p) as [p' e]. by destruct Hc as (? & ? & ? & ? & _).
Defined.

(** ** Searching every node *)

(** What the filters are asked, and answer, about a node. *)
Definition eligible p pod (opts : SchedulingOptions S Slice CSI) (res : option (gset string)) (state : CycleState) ni : bool :=
  allowed res ni && negb (Unschedulable (ni_Node ni)) && acceptable opts ni &&
  match (RunFilterPlugins p state pod ni).2 with Success => true | Failure _ _ => false end.

(** The node of a piece. *)
Definition piece_node p opts (l : list NI) (i : nat) : option NI :=
  let nodeIndex := node_At opts (lastIndex p) l i in
  if nodeIndex <? 0 then None else l !! Z.to_nat nodeIndex.

(** The verdict on a node does not depend on the other nodes that were
    asked about. *)
Definition filters_independent : Prop := ∀ p state pod ni ni',
  (RunFilterPlugins p (RunFilterPlugins p state pod ni').1 pod ni).2 = (RunFilterPlugins p state pod ni).2.

Section search.
Context (independent : filters_independent) (p : pred) (pod : Pod) (opts : SchedulingOptions S Slice CSI)
  (l : list NI) (res : option (gset string)) (state : CycleState).

Definition passes (i : nat) : Prop := ∃ ni, piece_node p opts l i = Some ni ∧ eligible p pod opts res state ni = true.

(** After some pieces: the verdicts are as before, and the earliest match is
    the first of them that passes. *)
Definition searched (pieces : list nat) (st : CycleState * option (nat * nat)) : Prop :=
  (∀ ni, (RunFilterPlugins p st.1 pod ni).2 = (RunFilterPlugins p state pod ni).2) ∧
  match st.2 with
  | None => ∀ i, i ∈ pieces → ¬ passes i
  | Some (i, index) => i ∈ pieces ∧ (∀ j, j ∈ pieces → passes j → (i ≤ j)%nat) ∧
      ∃ ni, piece_node p opts l i = Some ni ∧ l !! index = Some ni ∧ eligible p pod opts res state ni = true
  end.

Lemma eligible_state st ni : (RunFilterPlugins p st pod ni).2 = (RunFilterPlugins p state pod ni).2 →
  eligible p pod opts res st ni = eligible p pod opts res state ni.
Proof. unfold eligible. by intros ->. Qed.

(** [check_node] at a node that it asks about. *)
Lemma check_node_eq st i : check_node RunFilterPlugins p pod opts l res st i =
  match piece_node p opts l i with
  | Some ni =>
      if allowed res ni && negb (Unschedulable (ni_Node ni)) && acceptable opts ni then
        ((RunFilterPlugins p st.1 pod ni).1,
         if eligible p pod opts res st.1 ni && bool_decide (i < default (length l) (fst <$> st.2))%nat
         then Some (i, Z.to_nat (node_At opts (lastIndex p) l i)) else st.2)
      else st
  | None => st
  end.
Proof.
  unfold check_node, piece_node, eligible. destruct (_ <? 0); [done|]. destruct (l !! _) as [ni|]; [|done].
  destruct (allowed res ni); [simpl|done]. destruct (Unschedulable _); [done|simpl]. destruct (acceptable opts ni); [simpl|done].
  destruct (RunFilterPlugins p st.1 pod ni) as [st' [|plugin reasons]]; simpl; by try case_bool_decide.
Qed.

Lemma not_searched pieces st i : searched pieces st → ¬ passes i → searched (pieces ++ [i]) st.
Proof.
  intros [Hv Hs] Hi. split; [done|]. destruct st.2 as [[i0 index]|].
  - destruct Hs as (Hin & Hmin & Hni). split; [set_solver|]. split; [|done].
    intros j [Hj|Hj]%elem_of_app Hp; [by apply Hmin|]. apply list_elem_of_singleton in Hj as ->. done.
  - intros j [Hj|Hj]%elem_of_app; [by apply Hs|]. by apply list_elem_of_singleton in Hj as ->.
Qed.

Lemma search_step pieces st i : (i < length l)%nat → searched pieces st →
  searched (pieces ++ [i]) (check_node RunFilterPlugins p pod opts l res st i).
Proof.
  intros Hi Hs. rewrite check_node_eq. destruct (piece_node p opts l i) as [ni|] eqn:Hni.
  2: { apply not_searched; [done|]. intros (ni & Hni' & _). congruence. }
  destruct (allowed res ni && _ && _) eqn:Ha.
  2: { apply not_searched; [done|]. intros (ni' & Hni' & He). rewrite Hni in Hni'. injection Hni' as <-.
       unfold eligible in He. by rewrite Ha in He. }
  pose proof (proj1 Hs) as Hv. rewrite (eligible_state _ _ (Hv ni)).
  assert (∀ o, searched (pieces ++ [i]) (st.1, o) → searched (pieces ++ [i]) ((RunFilterPlugins p st.1 pod ni).1, o)) as Hstate.
  { intros o [Hv' Ho]. split; [|done]. intros ni'. simpl. by rewrite independent. }
  apply Hstate. destruct st as [st0 found]. cbn [fst snd] in *.
  destruct (eligible p pod opts res state ni) eqn:He; cbn [andb].
  2: { apply not_searched; [done|]. intros (ni' & Hni' & He'). rewrite Hni in Hni'. injection Hni' as <-. congruence. }
  destruct Hs as [_ Hs]. cbn [fst snd] in Hs.
  assert (∃ index, l !! index = Some ni ∧ Z.to_nat (node_At opts (lastIndex p) l i) = index) as (index & Hindex & ->).
  { unfold piece_node in Hni. destruct (_ <? 0); [done|]. by eexists. }
  case_bool_decide as Hlt.
  - split; [done|]. cbn [snd]. split; [set_solver|]. split; [|by exists ni].
    intros j [Hj|Hj]%elem_of_app Hp; [|by apply list_elem_of_singleton in Hj as ->].
    destruct found as [[i0 index0]|]; simpl in Hlt, Hs; [|by destruct (Hs _ Hj)].
    destruct Hs as (_ & Hmin & _). specialize (Hmin _ Hj Hp). lia.
  - destruct found as [[i0 index0]|]; simpl in Hlt; [|lia]. split; [done|]. cbn [snd] in *.
    destruct Hs as (Hin & Hmin & Hni0). split; [set_solver|]. split; [|done].
    intros j [Hj|Hj]%elem_of_app Hp; [by apply Hmin|]. apply list_elem_of_singleton in Hj as ->. lia.
Qed.

Lemma search_spec pieces : Forall (λ i, i < length l)%nat pieces →
  searched pieces (foldl (check_node RunFilterPlugins p pod opts l res) (state, None) pieces).
Proof.
  induction pieces as [|i pieces IH] using rev_ind; intros Hi.
  { split; [done|]. intros i Hi'. by apply elem_of_nil in Hi'. }
  apply Forall_app in Hi as [Hi Hlast]. rewrite foldl_snoc. apply search_step; [by inversion Hlast|by apply IH].
Qed.
End search.

(** *** Every node has a piece *)

Lemma insert_stable_perm {A} (less : A → A → bool) x l : insert_stable less x l ≡ₚ x :: l.
Proof.
  induction l as [|y l IH]; [done|]. simpl. destruct (less x y); [done|]. rewrite IH. apply Permutation_swap.
Qed.

Lemma sort_stable_perm {A} (less : A → A → bool) l : sort_stable less l ≡ₚ l.
Proof.
  unfold sort_stable. assert (∀ acc, foldl (λ acc x, insert_stable less x acc) acc l ≡ₚ l ++ acc) as Hacc.
  { induction l as [|x l IH]; intros acc; [done|]. simpl. rewrite IH, insert_stable_perm. by rewrite Permutation_middle. }
  by rewrite Hacc, app_nil_r.
Qed.

Lemma priority_order_perm {A} (less : A → A → bool) l : priority_order less l ≡ₚ seq 0 (length l).
Proof.
  unfold priority_order. rewrite sort_stable_perm. rewrite fmap_imap. apply reflexive_eq.
  apply list_eq. intros i. rewrite list_lookup_imap. destruct (l !! i) as [x|] eqn:Hx; simpl.
  - symmetry. apply lookup_seq. split; [done|by eapply lookup_lt_Some].
  - symmetry. apply lookup_seq_ge. by apply lookup_ge_None.
Qed.

Lemma node_At_surjective opts last (l : list NI) ni : ni ∈ l →
  ∃ i, (i < length l)%nat ∧ 0 <= node_At opts last l i ∧ l !! Z.to_nat (node_At opts last l i) = Some ni.
Proof.
  intros [index Hindex]%list_elem_of_lookup. pose proof (lookup_lt_Some _ _ _ Hindex) as Hlt.
  assert (∃ i, (i < length l)%nat ∧ node_At opts last l i = Z.of_nat index) as (i & Hi & Hat).
  2: { exists i. rewrite Hat, Nat2Z.id. split_and!; [done|lia|done]. }
  unfold node_At. destruct (NodeOrdering opts) as [less|].
  - pose proof (priority_order_perm less l) as Hp.
    assert (index ∈ priority_order less l) as [i Hi]%list_elem_of_lookup by (rewrite Hp; apply elem_of_seq; lia).
    exists i. unfold priority_At. rewrite Hi. split; [|done]. apply lookup_lt_Some in Hi. by rewrite Hp, length_seq in Hi.
  - set (len := length l) in *. unfold last_index_At. rewrite bool_decide_false by lia.
    exists ((index + (len - (1 + last) mod len)) mod len)%nat. split; [apply Nat.mod_upper_bound; lia|]. f_equal.
    pose proof (Nat.mod_upper_bound (1 + last) len ltac:(lia)) as Hm.
    rewrite <- Nat.add_assoc, Nat.Div0.add_mod_idemp_l, <- Nat.Div0.add_mod_idemp_r.
    replace (index + (len - (1 + last) mod len) + (1 + last) mod len)%nat with (index + 1 * len)%nat by lia.
    rewrite Nat.Div0.mod_add. by apply Nat.mod_small.
Qed.

Lemma node_At_nonneg opts last (l : list NI) i : (i < length l)%nat → 0 <= node_At opts last l i.
Proof.
  intros Hi. unfold node_At. destruct (NodeOrdering opts) as [less|].
  - unfold priority_At. destruct (priority_order less l !! i) as [index|] eqn:Ho; [lia|].
    apply lookup_ge_None in Ho. pose proof (priority_order_perm less l) as Hp. apply Permutation_length in Hp.
    rewrite length_seq in Hp. lia.
  - unfold last_index_At. rewrite bool_decide_false by lia. lia.
Qed.

(** The pieces are those of the list, and each of them runs unless one of them
    cancelled the context. *)
Definition pieces_complete p pod opts (l : list NI) (res : option (gset string)) (state : CycleState) : Prop :=
  let pieces := ParallelizeUntil p pod opts (length l) in
  Forall (λ i, i < length l)%nat pieces ∧
  ∀ i, (i < length l)%nat → i ∈ pieces ∨
    ∃ j, j ∈ pieces ∧ (node_At opts (lastIndex p) l j < 0 ∨ passes p pod opts l res state j).

(** What a search answers when the first phase is successful. *)
Definition search_answer p pod opts (r : result SchedulingError (Node * CycleState)) : Prop :=
  let '(p1, l) := ListNodeInfos p in
  ∀ state res plugins, RunPreFilterPlugins p1 pod = (state, res, Success, plugins) →
  pieces_complete p1 pod opts l res state →
  match r with
  | Ok (node, _) => ∃ i ni, piece_node p1 opts l i = Some ni ∧ nodes p !! Name node = Some ni ∧ node = ni_Node ni ∧
      eligible p1 pod opts res state ni = true ∧
      ∀ j, j ∈ ParallelizeUntil p1 pod opts (length l) → passes p1 pod opts l res state j → (i ≤ j)%nat
  | Err e => e = NoNodesPassingPredicatesFoundError ∧
      ∀ n ni, nodes p !! n = Some ni → eligible p1 pod opts res state ni = false
  end.

Lemma search_answer_spec p pod opts : filters_independent → store_ok p →
  search_answer p pod opts (filters_any p pod opts).2.
Proof.
  intros Hind Hok. unfold search_answer, filters_any. pose proof (ListNodeInfos_spec p Hok) as Hl.
  destruct (ListNodeInfos p) as [p1 l]. destruct Hl as (_ & _ & Hl). intros state res plugins Hpre [Hrange Hall].
  rewrite Hpre. pose proof (search_spec Hind p1 pod opts l res state _ Hrange) as [_ Hs].
  assert (∀ ni, ni ∈ l ↔ ∃ n, nodes p !! n = Some ni) as Hnodes.
  { intros ni. rewrite Hl. split.
    - intros [[n ni'] [-> Hin]]%list_elem_of_fmap. exists n. by apply elem_of_map_to_list in Hin.
    - intros [n Hn]. apply (list_elem_of_fmap_2 snd _ (n, ni)). by apply elem_of_map_to_list. }
  destruct (foldl _ _ _) as [state' [[i index]|]]; cbn [snd] in Hs.
  - destruct Hs as (Hin & Hmin & ni & Hpiece & Hindex & He). rewrite Hindex.
    destruct (proj1 (Hnodes ni)) as [n Hn]; [by eapply list_elem_of_lookup_2|].
    assert (NodeName ni = n) as <- by by apply (proj1 (proj2 Hok) n ni).
    destruct (NodeOrdering opts); simpl; exists i, ni; by split_and!.
  - simpl. split; [done|]. intros n ni Hn. destruct (eligible _ _ _ _ _ _) eqn:He; [exfalso|done].
    assert (ni ∈ l) as Hin by (apply Hnodes; by exists n).
    destruct (node_At_surjective opts (lastIndex p1) l ni Hin) as (i & Hi & Hat & Hli).
    destruct (Hall i Hi) as [Hran|(j & Hran & [Hneg|Hp])].
    + apply (Hs i Hran). exists ni. split; [|done]. unfold piece_node. by rewrite (proj2 (Z.ltb_ge _ _) Hat).
    + apply Forall_forall with (x := j) in Hrange; [|done]. pose proof (node_At_nonneg opts (lastIndex p1) l j Hrange). lia.
    + by apply (Hs j).
Qed.

(** ** What an operation may change: the top of every stack *)

Definition top_only {A} (st st' : list A) : Prop := ∃ m m' b, st = m :: b ∧ st' = m' :: b.

Lemma top_only_trans {A} (s1 s2 s3 : list A) : top_only s1 s2 → top_only s2 s3 → top_only s1 s3.
Proof. intros (m1 & m2 & b & -> & ->) (m2' & m3 & b' & Heq & ->). injection Heq as <- <-. by exists m1, m3, b. Qed.

Lemma top_only_refl {A} (s : list A) : s ≠ [] → top_only s s.
Proof. destruct s as [|m b]; [done|]. intros _. by exists m, m, b. Qed.

Lemma top_only_ne {A} (s s' : list A) : top_only s s' → s' ≠ [].
Proof. by intros (m & m' & b & -> & ->). Qed.

Record dra_layered (d : dra) : Prop := mkLayered {
  dl_ok : dra_ok d;
  dl_slices : ps_abs (resourceSlices d) ≠ [];
  dl_classes : ps_abs (deviceClasses d) ≠ []
}.

Record dra_within (d d' : dra) : Prop := mkWithin {
  dw_ok : dra_ok d';
  dw_claims : top_only (claim_stack d) (claim_stack d');
  dw_pointers : top_only (ps_abs (resourceClaims d)) (ps_abs (resourceClaims d'));
  dw_slices : top_only (ps_abs (resourceSlices d)) (ps_abs (resourceSlices d'));
  dw_classes : top_only (ps_abs (deviceClasses d)) (ps_abs (deviceClasses d'));
  dw_heap : heap_grows (heap d) (heap d')
}.

Lemma dra_within_trans d1 d2 d3 : dra_within d1 d2 → dra_within d2 d3 → dra_within d1 d3.
Proof. intros [] []. split; try done; try by eapply top_only_trans. by etransitivity. Qed.

Lemma within_layered d d' : dra_within d d' → dra_layered d'.
Proof. intros []. split; [done|by eapply top_only_ne..]. Qed.

Lemma claims_nonempty (d : dra) : dra_ok d → ∃ m b, ps_abs (resourceClaims d) = m :: b.
Proof. intros Hok. apply ps_abs_cons, (co_layer _ _ (do_claims _ Hok)). Qed.

(** An operation on the claims. *)
Lemma become_within d d' m : dra_layered d → claims_become d d' m → dra_within d d'.
Proof.
  intros [Hok Hsl Hcs] (Hok' & [Hs Hc Hb Hh] & Hst). split; [done| | | | |done].
  - rewrite Hst, (claim_stack_cons d Hok). by eexists _, _, _.
  - destruct (claims_nonempty d Hok) as (m1 & b1 & H1), (claims_nonempty d' Hok') as (m2 & b2 & H2).
    rewrite H1, H2 in *. simpl in Hb. subst b2. by exists m1, m2, b1.
  - rewrite Hs. by apply top_only_refl.
  - rewrite Hc. by apply top_only_refl.
Qed.

Lemma peeks_within d d' : dra_layered d → peeks d d' → dra_within d d'.
Proof. intros Hl Hp. eapply become_within; [done|]. apply peeks_become; [apply Hl|done]. Qed.

Lemma dra_within_refl d : dra_layered d → dra_within d d.
Proof. intros Hl. by apply peeks_within, peeks_refl, Hl. Qed.

(** An operation on the slices of the current layer. *)
Lemma slices_within d q : dra_layered d → patchset_ok q → top_only (ps_abs (resourceSlices d)) (ps_abs q) →
  dra_within d (set_slices d q).
Proof.
  intros [[Hcl Hsl Hcs] Hs Hc] Hq Htop. destruct (claims_nonempty d (mkDraOk _ Hcl Hsl Hcs)) as (m & b & Hm).
  assert (dra_ok d) as Hok by done. split; try done.
  - change (claim_stack (set_slices d q)) with (claim_stack d). apply top_only_refl. unfold claim_stack. by rewrite Hm.
  - cbn [set_slices resourceClaims]. apply top_only_refl. by rewrite Hm.
  - by apply top_only_refl.
Qed.

Lemma PodClaims_within d pod : dra_layered d → dra_within d (PodClaims ClaimRefs ClaimStatuses d pod).1.
Proof.
  intros Hl. pose proof (PodClaims_spec ClaimRefs ClaimStatuses d pod (dl_ok _ Hl)) as Hp.
  destruct (PodClaims _ _ _ _) as [d' r]. by apply peeks_within, Hp.
Qed.

Lemma Reserve_within d pod : dra_layered d → distinct_refs ClaimRefs ClaimStatuses pod →
  dra_within d (ReservePodClaims IsReservedForPod ClaimRefs ClaimStatuses d pod).1.
Proof.
  intros Hl Hd. pose proof (ReservePodClaims_spec IsForPod IsReservedForPod ClaimRefs ClaimStatuses d pod (dl_ok _ Hl) Hd) as Hp.
  destruct (ReservePodClaims _ _ _ _ _) as [d' e], (spec_reserve _ _ _ _ _) as [m e']. by eapply become_within, Hp.
Qed.

Lemma Unreserve_within d pod : dra_layered d → distinct_refs ClaimRefs ClaimStatuses pod →
  dra_within d (UnreservePodClaims IsForPod ClaimRefs ClaimStatuses d pod).1.
Proof.
  intros Hl Hd. pose proof (UnreservePodClaims_spec IsForPod IsReservedForPod ClaimRefs ClaimStatuses d pod (dl_ok _ Hl) Hd) as Hp.
  destruct (UnreservePodClaims _ _ _ _ _) as [d' e], (spec_unreserve _ _ _ _ _) as [m e']. by eapply become_within, Hp.
Qed.

Lemma RemoveOwned_within d pod d' : dra_layered d → distinct_refs ClaimRefs ClaimStatuses pod →
  RemovePodOwnedClaims IsForPod ClaimRefs ClaimStatuses d pod = Some d' → dra_within d d'.
Proof.
  intros Hl Hd Heq. pose proof (RemovePodOwnedClaims_spec IsForPod IsReservedForPod ClaimRefs ClaimStatuses d pod (dl_ok _ Hl) Hd) as Hp.
  rewrite Heq in Hp. destruct (spec_find _ _ _ _ _) as [cs|e]; [|done]. destruct (spec_remove _ _ _ _) as [m|]; [|done].
  by eapply become_within.
Qed.

(** The pointer of a new claim: no lower layer has it. *)
Definition fresh_ptr (d : dra) (l : nat) : Prop :=
  ∀ m id, m ∈ below (ps_abs (resourceClaims d)) → m !! id ≠ Some l.

Lemma within_fresh_ptr d d' l : dra_within d d' → fresh_ptr d l → fresh_ptr d' l.
Proof. intros []. destruct dw_pointers0 as (m & m' & b & H1 & H2). unfold fresh_ptr. by rewrite H1, H2. Qed.

Lemma AddClaims_within d ls : dra_layered d → Forall (fresh_ptr d) ls → Forall (λ l, is_Some (heap d !! l)) ls →
  dra_within d (AddClaims d ls).1.
Proof.
  intros Hl Hf Hh. assert (∃ cs, Forall2 (unknown d) ls cs) as [cs Hcs].
  { clear Hl. induction ls as [|l ls IH]; [by exists []|]. apply Forall_cons in Hf as [Hl Hf].
    apply Forall_cons in Hh as [[c Hc] Hh]. destruct IH as [cs Hcs]; [done..|]. exists (c :: cs). by constructor. }
  pose proof (AddClaims_unknown d ls cs (dl_ok _ Hl) Hcs) as Ha.
  destruct (AddClaims d ls) as [d' e], (spec_add _ _) as [m e']. by eapply become_within, Ha.
Qed.

Lemma signal_all_within allocated : ∀ d, dra_layered d → dra_within d (signal_all d allocated).1.
Proof.
  induction allocated as [|[uid c] allocated IH]; intros d Hl; [by apply dra_within_refl|].
  pose proof (Signal_spec d uid c (dl_ok _ Hl)) as Hs. cbn [new_claims] in Hs. cbn [signal_all].
  change (default 0%nat (head [fresh (dom (heap d))])) with (fresh (dom (heap d))) in Hs.
  destruct (SignalClaimPendingAllocation _ _ _) as [d1 e], (spec_signal _ _ _) as [m e']. destruct Hs as [Hb _].
  assert (dra_within d d1) as H1 by by eapply become_within. destruct e as [e|]; [done|].
  eapply dra_within_trans; [exact H1|]. apply IH. by eapply within_layered.
Qed.

(** *** The resources of the whole snapshot *)

Record res_ok p : Prop := mkResOk {
  ro_dra : dra_layered (draSnapshot p);
  ro_csi : patchset_ok (csiSnapshot p);
  ro_csi_layer : ps_abs (csiSnapshot p) ≠ []
}.

Record res_within p p' : Prop := mkResWithin {
  rw_dra : dra_within (draSnapshot p) (draSnapshot p');
  rw_csi : patchset_ok (csiSnapshot p');
  rw_csi_top : top_only (ps_abs (csiSnapshot p)) (ps_abs (csiSnapshot p'))
}.

Lemma res_within_ok p p' : res_within p p' → res_ok p'.
Proof. intros []. split; [by eapply within_layered|done|by eapply top_only_ne]. Qed.

Lemma res_within_refl p : res_ok p → res_within p p.
Proof. intros []. split; [by apply dra_within_refl|done|by apply top_only_refl]. Qed.

Lemma res_within_trans p1 p2 p3 : res_within p1 p2 → (res_ok p2 → res_within p2 p3) → res_within p1 p3.
Proof.
  intros H12 H23. specialize (H23 (res_within_ok _ _ H12)). destruct H12, H23.
  split; [by eapply dra_within_trans|done|by eapply top_only_trans].
Qed.

(** Only the store, or only the dynamic resources, changed. *)
Lemma res_same p p' : res_ok p → draSnapshot p' = draSnapshot p → csiSnapshot p' = csiSnapshot p → res_within p p'.
Proof. intros Hok Hd Hc. destruct (res_within_refl p Hok). by split; rewrite ?Hd, ?Hc. Qed.

Lemma res_dra p d : res_ok p → dra_within (draSnapshot p) d → res_within p (set_dra p d).
Proof. intros Hok Hd. destruct (res_within_refl p Hok). by split. Qed.

Lemma store_call_res p o : res_ok p → res_within p (store_call p o).1.
Proof. intros Hok. apply res_same; [done|..]; unfold store_call; by destruct (SnapshotSpec.store_exec _ _) as [t []]. Qed.

Lemma GetNodeInfo_res p n : res_ok p → res_within p (pred_GetNodeInfo p n).1.
Proof. intros Hok. apply res_same; [done|..]; unfold pred_GetNodeInfo; by destruct (SnapshotSpec.store_exec _ _) as [t [|[]|]]. Qed.

Lemma ListNodeInfos_res p : res_ok p → res_within p (ListNodeInfos p).1.
Proof. intros Hok. apply res_same; [done|..]; unfold ListNodeInfos; by destruct (SnapshotSpec.store_exec _ _) as [t []]. Qed.

Lemma createPodInfo_res p pod : res_ok p → res_within p (createPodInfo p pod).1.
Proof.
  intros Hok. unfold createPodInfo. destruct draEnabled; [|by apply res_within_refl].
  pose proof (PodClaims_within _ pod (ro_dra _ Hok)) as Hw. destruct (PodClaims _ _ _ _) as [d [claims|e]]; by apply res_dra.
Qed.

Lemma verify_res p pod node : res_ok p → res_within p (verify p pod node).1.
Proof.
  intros Hok. unfold verify.
  pose proof (PodClaims_within _ pod (ro_dra _ Hok)) as Hw. destruct (PodClaims _ _ _ _) as [d [claims|e]]; by apply res_dra.
Qed.

(** What the caller of [AddNodeInfo] provides: pods without double references,
    and claims of their own that are new objects. *)
Definition new_pod (d : dra) (podInfo : PodInfo) : Prop :=
  distinct_refs ClaimRefs ClaimStatuses (pi_Pod podInfo) ∧ Forall (λ c, fresh_ptr d (claim_ptr c)) (NeededResourceClaims podInfo).

Lemma within_new_pod d d' podInfo : dra_within d d' → new_pod d podInfo → new_pod d' podInfo.
Proof. intros Hw [Hd Hf]. split; [done|]. eapply Forall_impl; [done|]. intros c. by apply within_fresh_ptr. Qed.

Lemma modify_new_res p podInfo : res_ok p → new_pod (draSnapshot p) podInfo →
  res_within p (modifyResourceClaimsForNewPod IsForPod IsReservedForPod ClaimRefs ClaimStatuses p podInfo).1.
Proof.
  intros Hok [Hd Hf]. unfold modifyResourceClaimsForNewPod.
  assert (dra_within (draSnapshot p) (AddClaims (draSnapshot p) (podOwnedClaims IsForPod (draSnapshot p) podInfo)).1) as Ha.
  { apply AddClaims_within; [apply Hok|..]; apply Forall_forall; intros l Hl; unfold podOwnedClaims in Hl;
      apply list_elem_of_filter in Hl as [Hl Hin].
    - apply list_elem_of_fmap in Hin as (c & -> & Hc). by rewrite Forall_forall in Hf; apply Hf.
    - unfold deref in Hl. by destruct (heap _ !! l). }
  destruct (AddClaims _ _) as [d1 [e|]]; [by apply res_dra|]. simpl in Ha.
  pose proof (Reserve_within d1 (pi_Pod podInfo) (within_layered _ _ Ha) Hd) as Hr.
  destruct (ReservePodClaims _ _ _ _ _) as [d2 [e|]]; apply res_dra; try done; by eapply dra_within_trans.
Qed.

Lemma add_pods_res node podInfos : ∀ p, res_ok p → Forall (new_pod (draSnapshot p)) podInfos →
  res_within p (add_pods IsForPod IsReservedForPod ClaimRefs ClaimStatuses MatchNodeSelectorTerms p node podInfos).1.
Proof.
  induction podInfos as [|podInfo podInfos IH]; intros p Hok Hnew; [by apply res_within_refl|].
  apply Forall_cons in Hnew as [Hpod Hnew]. cbn [add_pods]. case_bool_decide; [by apply IH|].
  pose proof (modify_new_res p podInfo Hok Hpod) as Hm.
  destruct (modifyResourceClaimsForNewPod _ _ _ _ _ _) as [p1 [e|]]; [done|]. simpl in Hm.
  eapply res_within_trans; [exact Hm|]. intros Hok1. pose proof (verify_res p1 (pi_Pod podInfo) node Hok1) as Hv.
  destruct (verify _ _ _) as [p2 [e|]]; [done|]. simpl in Hv. eapply res_within_trans; [exact Hv|]. intros Hok2. apply IH; [done|].
  eapply Forall_impl; [done|]. intros q Hq. eapply within_new_pod; [apply Hv|]. by eapply within_new_pod; [apply Hm|].
Qed.

Lemma ps_abs_top {K V} `{Countable K} (q : PatchSet K V) : ps_abs q ≠ [] → ps_abs q = top (ps_abs q) :: below (ps_abs q).
Proof. by destruct (ps_abs q). Qed.

Lemma find_slices_within d nodeName : dra_layered d → dra_within d (NodeResourceSlices d nodeName).1.
Proof.
  intros Hl. unfold NodeResourceSlices. destruct Hl as [Hok Hs Hc].
  pose proof (ps_sim_FindValue nodeName _ (do_slices _ Hok)) as Hf. unfold ps_simulates in Hf. simpl in Hf.
  destruct (PatchSet_FindValue _ _) as [q r]. destruct Hf as [Hq Heq]. injection Heq as Habs _.
  apply slices_within; [done|done|]. rewrite <- Habs. by apply top_only_refl.
Qed.

Lemma add_slices_within d nodeName slices : dra_layered d → dra_within d (AddNodeResourceSlices d nodeName slices).1.
Proof.
  intros Hl. unfold AddNodeResourceSlices. pose proof (find_slices_within d nodeName Hl) as Hf.
  destruct (NodeResourceSlices d nodeName) as [d1 [r|]]; [done|]. simpl in Hf.
  eapply dra_within_trans; [exact Hf|]. pose proof (within_layered _ _ Hf) as Hl1.
  pose proof (ps_sim_SetCurrent nodeName slices _ (do_slices _ (dl_ok _ Hl1))) as [Hq Heq]. simpl in Hq, Heq. injection Heq as Heq.
  apply slices_within; [done|done|]. rewrite <- Heq, (ps_abs_top _ (dl_slices _ Hl1)). by eexists _, _, _.
Qed.

Lemma remove_slices_within d nodeName : dra_layered d → dra_within d (RemoveNodeResourceSlices d nodeName).
Proof.
  intros Hl. pose proof (ps_sim_DeleteCurrent nodeName _ (do_slices _ (dl_ok _ Hl))) as [Hq Heq]. simpl in Hq, Heq.
  injection Heq as Heq. apply slices_within; [done|done|]. rewrite <- Heq, (ps_abs_top _ (dl_slices _ Hl)). by eexists _, _, _.
Qed.

Lemma csi_within p c m : res_ok p → csi_becomes (csiSnapshot p) c m → res_within p (set_csi p c).
Proof.
  intros Hok (Hc & Htop & Hb & Hne). specialize (Hne (ro_csi_layer _ Hok)).
  destruct (res_within_refl p Hok). split; [done|done|]. cbn [csiSnapshot set_csi].
  rewrite (ps_abs_top _ (ro_csi_layer _ Hok)), (ps_abs_top _ Hne), Hb. by eexists _, _, _.
Qed.

(** *** Every operation *)

Lemma add_csi_res p ni : res_ok p → res_within p (add_csi p ni).1.
Proof.
  intros Hok. unfold add_csi. destruct (CSINode ni) as [c|]; [|by apply res_within_refl].
  destruct enableCSI; [|by apply res_within_refl].
  pose proof (AddCSINode_spec csi_Name (csiSnapshot p) c (ro_csi _ Hok)) as Ha.
  destruct (AddCSINode _ _ _) as [c' e]. destruct (top _ !! _) as [x|]; destruct Ha as [-> Ha]; by eapply csi_within.
Qed.

Lemma add_node_res p ni : res_ok p → (draEnabled = true → Forall (new_pod (draSnapshot p)) (GetPods ni)) →
  res_within p (AddNodeInfo_ p ni).1.
Proof.
  intros Hok Hnew. unfold AddNodeInfo_.
  assert (res_within p (add_resources p ni).1) as H1.
  { unfold add_resources. destruct draEnabled; [|by apply res_within_refl]. specialize (Hnew eq_refl).
    assert (dra_within (draSnapshot p) (draSnapshot (add_slices p ni).1) ∧ res_within p (add_slices p ni).1) as [Hd Hs].
    { unfold add_slices. case_bool_decide.
      - split; [by apply dra_within_refl, Hok|by apply res_within_refl].
      - pose proof (add_slices_within (draSnapshot p) (NodeName ni) (LocalResourceSlices ni) (ro_dra _ Hok)) as Ha.
        destruct (AddNodeResourceSlices _ _ _) as [d [e|]]; (split; [done|by apply res_dra]). }
    destruct (add_slices p ni) as [p1 [e|]]; [done|]. eapply res_within_trans; [exact Hs|]. intros Hok1.
    rewrite Pods_GetPods. apply add_pods_res; [done|]. eapply Forall_impl; [done|]. intros q. by apply within_new_pod. }
  destruct (add_resources p ni) as [p1 [e|]]; [done|]. eapply res_within_trans; [exact H1|]. intros Hok1.
  pose proof (add_csi_res p1 ni Hok1) as H2. destruct (add_csi p1 ni) as [p2 [e|]]; [done|].
  eapply res_within_trans; [exact H2|]. intros Hok2. by apply store_call_res.
Qed.

Lemma remove_owned_within podInfos : ∀ d d', dra_layered d →
  Forall (λ q, distinct_refs ClaimRefs ClaimStatuses (pi_Pod q)) podInfos →
  remove_owned IsForPod ClaimRefs ClaimStatuses d podInfos = Some d' → dra_within d d'.
Proof.
  induction podInfos as [|q podInfos IH]; intros d d' Hl Hd; unfold remove_owned; cbn [foldl].
  { intros Heq. injection Heq as <-. by apply dra_within_refl. }
  apply Forall_cons in Hd as [Hq Hd]. simpl.
  destruct (RemovePodOwnedClaims _ _ _ d (pi_Pod q)) as [d1|] eqn:H1.
  - intros H2. pose proof (RemoveOwned_within _ _ _ Hl Hq H1) as Hw. eapply dra_within_trans; [exact Hw|].
    apply IH; [by eapply within_layered|done|done].
  - intros H2. exfalso. clear -H2. induction podInfos as [|q' podInfos IH]; [done|]. by apply IH.
Qed.

(** The pods of a node that is removed, or from which a pod is taken. *)
Definition node_pods_distinct p (n : string) : Prop :=
  draEnabled = true → ∀ ni, nodes p !! n = Some ni →
  Forall (λ q, distinct_refs ClaimRefs ClaimStatuses (pi_Pod q)) (GetPods ni).

Lemma remove_node_res p n p' e : store_ok p → res_ok p → node_pods_distinct p n →
  RemoveNodeInfo_ p n = Some (p', e) → res_within p p'.
Proof.
  intros Hst Hok Hd. unfold RemoveNodeInfo_. pose proof (GetNodeInfo_spec p n Hst) as Hg.
  pose proof (GetNodeInfo_res p n Hok) as H1. destruct (pred_GetNodeInfo p n) as [p1 r]. destruct Hg as (_ & _ & ->). simpl in H1.
  destruct (nodes p !! n) as [ni|] eqn:Hn; [|by intros [= <- <-]].
  pose proof (store_call_res p1 (SnapshotSpec.RemoveNodeInfo n) (res_within_ok _ _ H1)) as H2.
  destruct (store_call _ _) as [p2 e2]. simpl in H2.
  assert (res_within p p2) as H12 by by eapply res_within_trans.
  destruct e2 as [e2|]; [by intros [= <- <-]|].
  destruct (if draEnabled then _ else _) as [p3|] eqn:H3; simpl; [|done].
  assert (res_within p p3) as H13.
  { eapply res_within_trans; [exact H12|]. intros Hok2. destruct draEnabled eqn:Hdra; [|injection H3 as <-; by apply res_within_refl].
    destruct (remove_owned _ _ _ _ _) as [d|] eqn:Hrm; simpl in H3; [|done]. injection H3 as <-. apply res_dra; [done|].
    pose proof (remove_slices_within (draSnapshot p2) n (ro_dra _ Hok2)) as Hs. eapply dra_within_trans; [exact Hs|].
    eapply remove_owned_within; [by eapply within_layered| |exact Hrm]. rewrite Pods_GetPods. by apply (Hd Hdra). }
  intros [= <- <-]. eapply res_within_trans; [exact H13|]. intros Hok3. destruct (enableCSI && _); [|by apply res_within_refl].
  eapply csi_within; [done|]. apply RemoveCSINode_spec, Hok3.
Qed.

Lemma place_res p pod node n state : res_ok p → (draEnabled = true → distinct_refs ClaimRefs ClaimStatuses pod) →
  res_within p (place p pod node n state).1.
Proof.
  intros Hok Hd. unfold place.
  assert (∀ p1, res_within p p1 → res_within p (match createPodInfo p1 pod with
      | (p, Err e) => (p, Some e) | (p, Ok podInfo) => store_call p (SnapshotSpec.StorePodInfo podInfo n) end).1) as Hrest.
  { intros p1 H1. eapply res_within_trans; [exact H1|]. intros Hok1. pose proof (createPodInfo_res p1 pod Hok1) as H2.
    destruct (createPodInfo p1 pod) as [p2 [podInfo|e]]; [|done]. eapply res_within_trans; [exact H2|].
    intros Hok2. by apply store_call_res. }
  destruct (draEnabled && _) eqn:Hdra; [|by apply Hrest, res_within_refl]. apply andb_true_iff in Hdra as [Hdra _].
  assert (res_within p (modifyResourceClaimsForScheduledPod IsReservedForPod ClaimRefs ClaimStatuses
    RunReservePluginsReserve p pod node state).1) as Hm.
  { unfold modifyResourceClaimsForScheduledPod, RunReserveOnNode.
    destruct (RunReservePluginsReserve p state pod (Name node)) as [allocated ok].
    pose proof (signal_all_within allocated (draSnapshot p) (ro_dra _ Hok)) as Hs.
    destruct (signal_all _ _) as [d b]. destruct (b && ok); [|by apply res_dra]. simpl in Hs.
    pose proof (Reserve_within d pod (within_layered _ _ Hs) (Hd Hdra)) as Hr. cbn [draSnapshot set_dra].
    destruct (ReservePodClaims _ _ _ _ _) as [d' [e|]];
      apply (res_dra p d' Hok); by eapply dra_within_trans. }
  destruct (modifyResourceClaimsForScheduledPod _ _ _ _ _ _ _ _) as [p1 [e|]]; [done|].
  pose proof (verify_res p1 pod node (res_within_ok _ _ Hm)) as Hv.
  destruct (verify p1 pod node) as [p2 [e|]]; [by eapply res_within_trans|]. by apply Hrest; eapply res_within_trans.
Qed.

Lemma filters_on_node_res p pod n : res_ok p → res_within p (filters_on_node p pod n).1.
Proof.
  intros Hok. unfold filters_on_node. pose proof (GetNodeInfo_res p n Hok) as Hg.
  destruct (pred_GetNodeInfo p n) as [p1 [ni|e]]; [|done].
  destruct (RunPreFilterPlugins p1 pod) as [[[state res] [|plugin reasons]] plugins]; [|done].
  destruct (negb _); [done|]. by destruct (RunFilterPlugins p1 state pod ni) as [state' [|plugin reasons]].
Qed.

Lemma filters_any_res p pod opts : res_ok p → res_within p (filters_any p pod opts).1.
Proof.
  intros Hok. unfold filters_any. pose proof (ListNodeInfos_res p Hok) as Hg.
  destruct (ListNodeInfos p) as [p1 l]. destruct (RunPreFilterPlugins p1 pod) as [[[state res] [|plugin reasons]] plugins]; [|done].
  destruct (foldl _ _ _) as [state' [[i index]|]]; [|done]. destruct (l !! index); [|done].
  destruct (NodeOrdering opts); [done|]. by destruct Hg.
Qed.

Lemma unreserve_found_res p ns name n : draEnabled = true → store_ok p → res_ok p → node_pods_distinct p n →
  res_within p (unreserve_found IsForPod ClaimRefs ClaimStatuses p ns name n).1.
Proof.
  intros Hdra Hst Hok Hd. unfold unreserve_found. pose proof (GetNodeInfo_spec p n Hst) as Hg.
  pose proof (GetNodeInfo_res p n Hok) as H1. destruct (pred_GetNodeInfo p n) as [p1 r]. destruct Hg as (_ & _ & ->). simpl in H1.
  destruct (nodes p !! n) as [ni|] eqn:Hn; [|done]. rewrite Pods_GetPods.
  destruct (SnapshotSpec.find_pod _ _ _) as [q|] eqn:Hq; [|done]. case_bool_decide; [done|].
  eapply res_within_trans; [exact H1|]. intros Hok1.
  assert (distinct_refs ClaimRefs ClaimStatuses (pi_Pod q)) as Hdq.
  { specialize (Hd Hdra ni Hn). rewrite Forall_forall in Hd. apply Hd. unfold SnapshotSpec.find_pod in Hq.
    destruct (list_find _ _) as [[i q']|] eqn:Hf; simpl in Hq; [|done]. injection Hq as <-.
    apply list_find_Some in Hf as (Hf & _). by eapply list_elem_of_lookup_2. }
  pose proof (Unreserve_within (draSnapshot p1) (pi_Pod q) (ro_dra _ Hok1) Hdq) as Hu.
  destruct (UnreservePodClaims _ _ _ _ _) as [d [e|]]; by apply res_dra.
Qed.

(** *** Forks *)

(** A patch set that was forked, changed on top and reverted or committed. *)
Lemma forked_patchset {K V} `{Countable K} (q : PatchSet K V) : patchset_ok q →
  patchset_ok (PatchSet_Fork q) ∧ ps_abs (PatchSet_Fork q) = top (ps_abs q) :: ps_abs q.
Proof. intros Hq. pose proof (ps_sim_Fork _ Hq) as [Hf Heq]. simpl in Hf, Heq. injection Heq as Heq. done. Qed.

Lemma reverted_patchset {K V} `{Countable K} (q q1 : PatchSet K V) : ps_abs q ≠ [] → patchset_ok q1 →
  top_only (top (ps_abs q) :: ps_abs q) (ps_abs q1) →
  patchset_ok (PatchSet_Revert q1) ∧ ps_abs (PatchSet_Revert q1) = ps_abs q.
Proof.
  intros Hne Hq1 (m & m' & b & Hb & Ht). injection Hb as _ <-. pose proof (ps_sim_Revert _ Hq1) as [Hf Heq]. simpl in Hf, Heq.
  injection Heq as Heq. split; [done|]. rewrite <- Heq, Ht. by destruct (ps_abs q).
Qed.

Lemma committed_patchset {K V} `{Countable K} (q q1 : PatchSet K V) : ps_abs q ≠ [] → patchset_ok q1 →
  top_only (top (ps_abs q) :: ps_abs q) (ps_abs q1) →
  patchset_ok (PatchSet_Commit q1) ∧ top_only (ps_abs q) (ps_abs (PatchSet_Commit q1)).
Proof.
  intros Hne Hq1 (m & m' & b & Hb & Ht). injection Hb as _ <-. pose proof (ps_sim_Commit _ Hq1) as [Hf Heq]. simpl in Hf, Heq.
  injection Heq as Heq. split; [done|]. rewrite <- Heq, Ht. destruct (ps_abs q); [done|]. by eexists _, _, _.
Qed.

Lemma dra_forked d : dra_layered d → dra_layered (dra_Fork d) ∧
  claim_stack (dra_Fork d) = top (claim_stack d) :: claim_stack d ∧
  ps_abs (resourceClaims (dra_Fork d)) = top (ps_abs (resourceClaims d)) :: ps_abs (resourceClaims d).
Proof.
  intros [[Hcl Hsl Hcs] Hs Hc]. destruct (claims_fork _ _ Hcl) as [Hcl' Habs].
  destruct (forked_patchset _ Hsl) as [Hsl' Has], (forked_patchset _ Hcs) as [Hcs' Hac]. split.
  - split; [by split|..]; simpl; [by rewrite Has|by rewrite Hac].
  - split; [|done]. rewrite top_claim_stack. unfold claim_stack. simpl. by rewrite Habs.
Qed.

Lemma dra_reverted d d1 : dra_layered d → dra_within (dra_Fork d) d1 →
  dra_within d (dra_Revert d1) ∧ dra_abs (dra_Revert d1) = dra_abs d.
Proof.
  intros Hl Hw. destruct (dra_forked d Hl) as (_ & Hst & Hptr). destruct Hw as [[Hcl1 Hsl1 Hcs1] Hwc Hwp Hws Hwk Hh].
  destruct (forked_patchset _ (do_slices _ (dl_ok _ Hl))) as [_ Has], (forked_patchset _ (do_classes _ (dl_ok _ Hl))) as [_ Hac].
  simpl in Hws, Hwk. rewrite Has in Hws. rewrite Hac in Hwk. rewrite Hst in Hwc. rewrite Hptr in Hwp.
  destruct (reverted_patchset _ _ (dl_slices _ Hl) Hsl1 Hws) as [Hsl' Hs'],
    (reverted_patchset _ _ (dl_classes _ Hl) Hcs1 Hwk) as [Hcs' Hc'].
  destruct (claims_revert _ _ Hcl1) as [Hcl' Hp']. destruct (claims_nonempty d (dl_ok _ Hl)) as (m0 & b0 & Hm0).
  assert (ps_abs (PatchSet_Revert (resourceClaims d1)) = ps_abs (resourceClaims d)) as Hp.
  { rewrite Hp'. destruct Hwp as (m & m' & b & Hb & ->). injection Hb as _ <-. by rewrite Hm0. }
  assert (claim_stack (dra_Revert d1) = claim_stack d) as Hclaims.
  { unfold claim_stack at 1. cbn [dra_Revert heap resourceClaims]. rewrite Hp.
    destruct Hwc as (m & m' & b & Hb & H1). injection Hb as _ <-. unfold claim_stack at 1 in H1.
    destruct Hwp as (m2 & m2' & b2 & Hb2 & H2). injection Hb2 as _ <-. rewrite H2, fmap_cons in H1. by injection H1. }
  assert (dra_abs (dra_Revert d1) = dra_abs d) as Habs.
  { unfold dra_abs. rewrite Hclaims. simpl. by rewrite Hs', Hc'. }
  split; [|done]. split; [by split| | | | |done]; simpl.
  - rewrite Hclaims. apply top_only_refl. unfold claim_stack. by rewrite Hm0.
  - rewrite Hp, Hm0. by apply top_only_refl.
  - rewrite Hs'. apply top_only_refl, Hl.
  - rewrite Hc'. apply top_only_refl, Hl.
Qed.

Lemma dra_committed d d1 : dra_layered d → dra_within (dra_Fork d) d1 → dra_within d (dra_Commit d1).
Proof.
  intros Hl Hw. destruct (dra_forked d Hl) as (_ & Hst & Hptr). destruct Hw as [[Hcl1 Hsl1 Hcs1] Hwc Hwp Hws Hwk Hh].
  destruct (forked_patchset _ (do_slices _ (dl_ok _ Hl))) as [_ Has], (forked_patchset _ (do_classes _ (dl_ok _ Hl))) as [_ Hac].
  simpl in Hws, Hwk. rewrite Has in Hws. rewrite Hac in Hwk. rewrite Hst in Hwc. rewrite Hptr in Hwp.
  destruct (committed_patchset _ _ (dl_slices _ Hl) Hsl1 Hws) as [Hsl' Hs'],
    (committed_patchset _ _ (dl_classes _ Hl) Hcs1 Hwk) as [Hcs' Hc'].
  destruct (claims_commit _ _ Hcl1) as [Hcl' Hp']. destruct (claims_nonempty d (dl_ok _ Hl)) as (m0 & b0 & Hm0).
  destruct Hwp as (m2 & m2' & b2 & Hb2 & H2). injection Hb2 as _ <-. rewrite H2, Hm0 in Hp'.
  split; [by split| | |done|done|done]; simpl.
  - destruct Hwc as (m & m' & b & Hb & H1). injection Hb as _ <-. unfold claim_stack in *. cbn [dra_Commit heap resourceClaims].
    rewrite Hp', Hm0 in *. rewrite H2 in H1. rewrite !fmap_cons in *. injection H1 as Hm' Hclaims Hbelow.
    exists (claims_of (heap d) m0), (claims_of (heap d1) m2'), (claims_of (heap d) <$> b0). by rewrite <- Hbelow.
  - rewrite Hp', Hm0. by eexists _, _, _.
Qed.

(** ** Any run between a fork and its revert *)

Record pred_ok p : Prop := mkPredOk { po_store : store_ok p; po_res : res_ok p }.

Record within p p' : Prop := mkPredWithin {
  w_store : store_ok p'; w_forks : forks p' = forks p; w_res : res_within p p'
}.

Lemma within_ok p p' : within p p' → pred_ok p'.
Proof. intros []. split; [done|by eapply res_within_ok]. Qed.

Lemma within_trans p1 p2 p3 : within p1 p2 → within p2 p3 → within p1 p3.
Proof. intros [] []. split; [done|congruence|by eapply res_within_trans]. Qed.

Lemma within_refl p : pred_ok p → within p p.
Proof. intros []. split; [done|done|by apply res_within_refl]. Qed.

Inductive pred_op : Type :=
| PAddNode (ni : NI) | PRemoveNode (nodeName : string)
| PSchedule (pod : Pod) (nodeName : string) | PScheduleAny (pod : Pod) (opts : SchedulingOptions S Slice CSI)
| PUnschedule (ns podName nodeName : string)
| PForceAdd (pod : Pod) (nodeName : string) | PForceRemove (ns podName nodeName : string)
| PCheck (pod : Pod) (nodeName : string) | PGet (nodeName : string) | PList.

(** The state after an operation, failed or not; [None] is a panic. *)
Definition pred_step p (o : pred_op) : option pred :=
  match o with
  | PAddNode ni => Some (AddNodeInfo_ p ni).1
  | PRemoveNode n => fst <$> RemoveNodeInfo_ p n
  | PSchedule pod n => Some (SchedulePod_ p pod n).1
  | PScheduleAny pod opts => Some (ScheduleAny_ p pod opts).1
  | PUnschedule ns name n => Some (UnschedulePod_ p ns name n).1
  | PForceAdd pod n => Some (ForceAddPod_ p pod n).1
  | PForceRemove ns name n => Some (ForceRemovePod p ns name n).1
  | PCheck pod n => Some (CheckPredicates_ p pod n).1
  | PGet n => Some (pred_GetNodeInfo p n).1
  | PList => Some (ListNodeInfos p).1
  end.

(** With dynamic resources, the pods do not refer to a claim twice and the
    claims that a new node's pods own are new objects. *)
Definition contract p (o : pred_op) : Prop :=
  match o with
  | PAddNode ni => draEnabled = true → Forall (new_pod (draSnapshot p)) (GetPods ni)
  | PRemoveNode n | PUnschedule _ _ n => node_pods_distinct p n
  | PSchedule pod _ | PScheduleAny pod _ => draEnabled = true → distinct_refs ClaimRefs ClaimStatuses pod
  | _ => True
  end.

Lemma step_within p o p' : pred_ok p → contract p o → pred_step p o = Some p' → within p p'.
Proof.
  intros [Hst Hok] Hc. destruct o as [ni|n|pod n|pod opts|ns name n|pod n|ns name n|pod n|n|]; simpl in *;
    [intros [= <-]|intros ([p1 e] & Hr & ->)%fmap_Some|intros [= <-]..].
  - pose proof (add_node_law p ni Hst) as Hl. pose proof (add_node_res p ni Hok Hc) as Hr.
    destruct (AddNodeInfo_ p ni) as [p' e]. by split; [apply Hl..|].
  - pose proof (remove_node_law p n p1 e Hst Hr) as (? & ? & _). split; [done..|]. by eapply remove_node_res.
  - pose proof (schedule_law p pod n Hst) as Hl. unfold SchedulePod_ in *.
    pose proof (filters_on_node_res p pod n Hok) as Hr. destruct (filters_on_node p pod n) as [p1 [[node state]|e]].
    + pose proof (place_res p1 pod node n state (res_within_ok _ _ Hr) Hc) as Hp.
      destruct (place _ _ _ _ _) as [p2 [e|]]; (split; [apply Hl..|]); by eapply res_within_trans.
    + by split; [apply Hl..|].
  - pose proof (schedule_any_law p pod opts Hst) as Hl. unfold ScheduleAny_ in *.
    pose proof (filters_any_res p pod opts Hok) as Hr. destruct (filters_any p pod opts) as [p1 [[node state]|e]].
    + pose proof (place_res p1 pod node (Name node) state (res_within_ok _ _ Hr) Hc) as Hp.
      destruct (place _ _ _ _ _) as [p2 [e|]]; (split; [apply Hl..|]); by eapply res_within_trans.
    + by split; [apply Hl..|].
  - pose proof (unschedule_law p ns name n Hst) as Hl. unfold UnschedulePod_ in *.
    assert (res_within p (if draEnabled then unreserve_found IsForPod ClaimRefs ClaimStatuses p ns name n else (p, None)).1) as Hr.
    { destruct draEnabled eqn:Hdra; [by apply unreserve_found_res|by apply res_within_refl]. }
    destruct (if draEnabled then _ else _) as [p1 [e|]]; [by split; [apply Hl..|]|].
    pose proof (store_call_res p1 (SnapshotSpec.RemovePodInfo ns name n) (res_within_ok _ _ Hr)) as Hs.
    destruct (store_call _ _) as [p2 e]. split; [apply Hl..|]. by eapply res_within_trans.
  - pose proof (force_add_law p pod n Hst) as Hl. unfold ForceAddPod_ in *. pose proof (createPodInfo_res p pod Hok) as Hr.
    destruct (createPodInfo p pod) as [p1 [podInfo|e]]; [|by split; [apply Hl..|]].
    pose proof (store_call_res p1 (SnapshotSpec.StorePodInfo podInfo n) (res_within_ok _ _ Hr)) as Hs.
    destruct (store_call _ _) as [p2 e]. split; [apply Hl..|]. by eapply res_within_trans.
  - pose proof (remove_pod_law p ns name n Hst) as Hl. unfold ForceRemovePod.
    pose proof (store_call_res p (SnapshotSpec.RemovePodInfo ns name n) Hok) as Hs.
    destruct (store_call _ _) as [p2 e]. by split; [apply Hl..|].
  - pose proof (filters_on_node_law p pod n Hst) as Hl. unfold CheckPredicates_.
    pose proof (filters_on_node_res p pod n Hok) as Hr. destruct (filters_on_node p pod n) as [p1 [[node state]|e]];
      destruct Hl as ([Hst' Hs] & _); (split; [done|unfold forks; simpl; by rewrite Hs|done]).
  - pose proof (GetNodeInfo_spec p n Hst) as Hl. pose proof (GetNodeInfo_res p n Hok) as Hr.
    destruct (pred_GetNodeInfo p n) as [p1 r]. destruct Hl as ([Hst' Hs] & _). split; [done|unfold forks; simpl; by rewrite Hs|done].
  - pose proof (ListNodeInfos_spec p Hst) as Hl. pose proof (ListNodeInfos_res p Hok) as Hr.
    destruct (ListNodeInfos p) as [p1 r]. destruct Hl as ([Hst' Hs] & _). split; [done|unfold forks; simpl; by rewrite Hs|done].
Qed.

(** Operations, and forks that are reverted or committed. *)
Inductive runs : pred → pred → Prop :=
| runs_done p : runs p p
| runs_op p o p1 p2 : contract p o → pred_step p o = Some p1 → runs p1 p2 → runs p p2
| runs_reverted p p1 p2 : runs (pred_Fork p) p1 → runs (pred_Revert p1) p2 → runs p p2
| runs_committed p p1 p2 : runs (pred_Fork p) p1 → runs (pred_Commit p1).1 p2 → runs p p2.

(** What the snapshot stands for. *)
Definition pred_value p := (store_of p, dra_abs (draSnapshot p), ps_abs (csiSnapshot p)).

Lemma fork_ok p : pred_ok p → pred_ok (pred_Fork p) ∧ store_of (pred_Fork p) = SnapshotSpec.mkSpec (nodes p) (nodes p :: forks p).
Proof.
  intros [Hst [Hd Hc Hcl]]. destruct (transaction_store p SnapshotSpec.Fork (pred_Fork p) Hst eq_refl) as [Hst' Hs].
  split; [|done]. split; [done|]. destruct (forked_patchset _ Hc) as [Hc' Ha]. split; simpl; [by apply dra_forked|done|].
  unfold csi_Fork. by rewrite Ha.
Qed.

Lemma revert_within p p1 : pred_ok p → within (pred_Fork p) p1 →
  within p (pred_Revert p1) ∧ pred_value (pred_Revert p1) = pred_value p.
Proof.
  intros Hok [Hst1 Hf [Hd1 Hc1 Ht1]]. destruct (fork_ok p Hok) as [_ Hfs]. destruct Hok as [Hst [Hd Hc Hcl]].
  destruct (transaction_store p1 SnapshotSpec.Revert (pred_Revert p1) Hst1 eq_refl) as [Hst' Hs].
  unfold forks in Hf. rewrite Hfs in Hf. simpl in Hf, Hs. rewrite Hf in Hs.
  assert (store_of (pred_Revert p1) = store_of p) as Hst2 by (rewrite Hs; unfold nodes, forks; by destruct (store_of p)).
  destruct (dra_reverted _ _ Hd Hd1) as [Hdw Hda]. destruct (forked_patchset _ Hc) as [_ Ha].
  simpl in Ht1. unfold csi_Fork in Ht1. rewrite Ha in Ht1. destruct (reverted_patchset _ _ Hcl Hc1 Ht1) as [Hc' Hca]. split.
  - split; [done|by unfold forks; rewrite Hst2|]. split; [done|done|].
    cbn [pred_Revert csiSnapshot]. unfold csi_Revert. rewrite Hca. by apply top_only_refl.
  - unfold pred_value. rewrite Hst2. cbn [pred_Revert csiSnapshot draSnapshot]. unfold csi_Revert. by rewrite Hda, Hca.
Qed.

Lemma commit_within p p1 : pred_ok p → within (pred_Fork p) p1 → within p (pred_Commit p1).1.
Proof.
  intros Hok [Hst1 Hf [Hd1 Hc1 Ht1]]. destruct (fork_ok p Hok) as [_ Hfs]. destruct Hok as [Hst [Hd Hc Hcl]].
  pose proof (commit_law p1 Hst1) as Hl. destruct (pred_Commit p1) as [p2 e]. destruct Hl as (Hst2 & _ & Hn & Hf2 & Hd2 & Hc2).
  simpl. rewrite Hf in Hf2. unfold forks in Hf2 at 2. rewrite Hfs in Hf2. simpl in Hf2.
  destruct (forked_patchset _ Hc) as [_ Ha]. simpl in Ht1. unfold csi_Fork in Ht1. rewrite Ha in Ht1.
  destruct (committed_patchset _ _ Hcl Hc1 Ht1) as [Hc' Hca]. split; [done|done|].
  split; [rewrite Hd2; by apply dra_committed|by rewrite Hc2|by rewrite Hc2].
Qed.

Lemma runs_within p p' : runs p p' → pred_ok p → within p p'.
Proof.
  induction 1 as [p|p o p1 p2 Hc Hs _ IH|p p1 p2 _ IH1 _ IH2|p p1 p2 _ IH1 _ IH2]; intros Hok.
  - by apply within_refl.
  - pose proof (step_within _ _ _ Hok Hc Hs) as Hw. eapply within_trans; [exact Hw|]. by eapply IH, within_ok.
  - destruct (revert_within p p1 Hok) as [Hw _]; [by apply IH1, fork_ok|]. eapply within_trans; [exact Hw|]. by eapply IH2, within_ok.
  - pose proof (commit_within p p1 Hok) as Hw. specialize (Hw (IH1 (proj1 (fork_ok _ Hok)))).
    eapply within_trans; [exact Hw|]. by eapply IH2, within_ok.
Qed.

Lemma run_reverted p p1 : pred_ok p → runs (pred_Fork p) p1 → pred_ok (pred_Revert p1) ∧ pred_value (pred_Revert p1) = pred_value p.
Proof.
  intros Hok Hr. destruct (revert_within p p1 Hok) as [Hw Hv]; [by eapply runs_within, fork_ok|]. split; [by eapply within_ok|done].
Qed.

(** ** Loading the state of the cluster *)

Lemma NewEmptySnapshot_layered (h : gmap nat claim) : dra_layered (Dra.NewEmptySnapshot h).
Proof.
  assert (∀ (K : Type) (D : EqDecision K) (C : Countable K) V, patchset_ok (NewPatchSet [NewPatch (K := K) (V := V)])) as Hok.
  { intros. apply patchset_ok_new, Forall_singleton, patch_ok_new. }
  assert (∀ (K : Type) (D : EqDecision K) (C : Countable K) V, ps_abs (NewPatchSet [NewPatch (K := K) (V := V)]) = [∅]) as Habs.
  { done. }
  split; [|by simpl; rewrite Habs..]. split; [|apply Hok..]. split; [apply Hok|done| |].
  - intros m id l. cbn [Dra.NewEmptySnapshot resourceClaims]. rewrite Habs. intros ->%list_elem_of_singleton. by rewrite lookup_empty.
  - split; [|done]. intros id l _ m id' Hm. by apply elem_of_nil in Hm.
Qed.

Lemma empty_csi_ok : patchset_ok (csi_NewEmptySnapshot (CSI := CSI)) ∧ ps_abs (csi_NewEmptySnapshot (CSI := CSI)) ≠ [].
Proof. split; [apply patchset_ok_new, Forall_singleton, patch_ok_new|done]. Qed.

Lemma NewPredicateSnapshot_ok t h : SnapshotSpec.store_inv t → SnapshotSpec.store_abs t = SnapshotSpec.spec_empty →
  pred_ok (NewPredicateSnapshot t h).
Proof.
  intros Hi Ha. split; [split; [done|]|split; [apply NewEmptySnapshot_layered|apply empty_csi_ok..]].
  unfold store_of, ref_ok. cbn [NewPredicateSnapshot ClusterSnapshotStore]. rewrite Ha. split; [apply SnapshotSpec.named_empty|by constructor].
Qed.

Lemma node_infos_within ns : ∀ (d : dra) (c : csi), dra_layered d → patchset_ok c → ps_abs c ≠ [] →
  let '(d', c', r) := cluster_node_infos (S := S) draEnabled enableCSI d c ns in
  dra_within d d' ∧ patchset_ok c' ∧ top_only (ps_abs c) (ps_abs c').
Proof.
  induction ns as [|node ns IH]; intros d c Hd Hc Hne; cbn [cluster_node_infos].
  { split; [by apply dra_within_refl|]. split; [done|by apply top_only_refl]. }
  assert (dra_within d (if draEnabled then let '(d, r) := NodeResourceSlices d (Name node) in (d, default [] r) else (d, [])).1) as H1.
  { destruct draEnabled; [|by apply dra_within_refl]. pose proof (find_slices_within d (Name node) Hd) as Hf.
    by destruct (NodeResourceSlices d (Name node)). }
  destruct (if draEnabled then _ else _) as [d1 slices]. simpl in H1. set (ni := NewNodeInfo (Some node) slices []).
  set (look := if enableCSI then _ else _).
  assert (patchset_ok look.1 ∧ top_only (ps_abs c) (ps_abs look.1)) as [Hc1 Ht1].
  { unfold look. destruct enableCSI; [|by split; [|apply top_only_refl]].
    pose proof (csi_Get_spec c (Name node) Hc) as Hg. destruct (csi_Get c (Name node)) as [c1 r].
    destruct Hg as [(Hc1 & Ht & Hb & Hn1) _]. specialize (Hn1 Hne).
    assert (top_only (ps_abs c) (ps_abs c1)) by (rewrite (ps_abs_top _ Hne), (ps_abs_top _ Hn1), Hb; by eexists _, _, _).
    by destruct r. }
  destruct look as [c1 [ni'|e]]; simpl in *; [|done].
  specialize (IH d1 c1 (within_layered _ _ H1) Hc1 (top_only_ne _ _ Ht1)).
  destruct (cluster_node_infos _ _ d1 c1 ns) as [[d2 c2] [l|e]]; destruct IH as (Hd2 & Hc2 & Ht2);
    (split; [by eapply dra_within_trans|split; [done|by eapply top_only_trans]]).
Qed.

Lemma setClusterStatePods_within idx pods : ∀ p l, res_ok p →
  let '(p', r) := setClusterStatePods draEnabled ClaimRefs ClaimStatuses p idx l pods in
  res_within p p' ∧ ClusterSnapshotStore p' = ClusterSnapshotStore p.
Proof.
  induction pods as [|pod pods IH]; intros p l Hok; cbn [setClusterStatePods]; [by split; [apply res_within_refl|]|].
  destruct (idx !! bound_node pod) as [i|]; [|by apply IH].
  pose proof (createPodInfo_res p pod Hok) as H1. pose proof (createPodInfo_store p pod) as H2.
  destruct (createPodInfo p pod) as [p1 [podInfo|e]]; [|done]. simpl in *.
  specialize (IH p1 (alter (λ l, l ++ [podInfo]) i l) (res_within_ok _ _ H1)).
  destruct (setClusterStatePods _ _ _ _ _ _ _) as [p2 r]. destruct IH as [H3 H4].
  split; [by eapply res_within_trans|congruence].
Qed.

Lemma store_all_within nis : ∀ p, pred_ok p → let '(p', e) := store_all p nis in pred_ok p' ∧ forks p' = forks p.
Proof.
  induction nis as [|ni nis IH]; intros p Hok; cbn [store_all]; [done|].
  pose proof (store_call_spec p (SnapshotSpec.StoreNodeInfo ni) (po_store _ Hok) I) as Hs.
  pose proof (store_call_res p (SnapshotSpec.StoreNodeInfo ni) (po_res _ Hok)) as Hr.
  destruct (store_call _ _) as [p1 e]. destruct Hs as (Hst & _ & Heq). simpl in Hr.
  assert (pred_ok p1) as Hok1 by (split; [done|by eapply res_within_ok]).
  assert (forks p1 = forks p) as Hf.
  { unfold forks, ref_exec in *. simpl in Heq. destruct (_ !! NodeName ni); simpl in Heq; by injection Heq as -> _. }
  destruct e as [e|]; [done|]. specialize (IH p1 Hok1). destruct (store_all p1 nis) as [p2 e]. destruct IH. split; [done|congruence].
Qed.

(** Loaded from snapshots of the cluster's resources, the snapshot is ready and
    unforked, even when the load fails. *)
Lemma SetClusterState_ok p ns pods newDra newCsi : pred_ok p →
  (∀ d, newDra = Some d → dra_layered d) → (∀ c, newCsi = Some c → patchset_ok c ∧ ps_abs c ≠ []) →
  let '(p', e) := SetClusterState draEnabled enableCSI ClaimRefs ClaimStatuses p ns pods newDra newCsi in
  pred_ok p' ∧ forks p' = [].
Proof.
  intros [Hst Hres] Hd Hc. unfold SetClusterState.
  destruct (store_exec_spec p SnapshotSpec.Clear Hst) as [Hst1 Hs1]. set (p1 := set_store p _) in *. cbv zeta.
  assert (forks p1 = []) as Hf1 by (unfold forks; by rewrite Hs1).
  set (d := default _ newDra). set (c := default _ newCsi).
  assert (dra_layered d) as Hd1 by (destruct newDra; [by apply Hd|apply NewEmptySnapshot_layered]).
  assert (patchset_ok c ∧ ps_abs c ≠ []) as [Hc1 Hne1] by (destruct newCsi; [by apply Hc|apply empty_csi_ok]).
  pose proof (node_infos_within ns d c Hd1 Hc1 Hne1) as Hn. destruct (cluster_node_infos _ _ d c ns) as [[d2 c2] r].
  destruct Hn as (Hd2 & Hc2 & Ht2). set (p2 := set_csi (set_dra p1 d2) c2).
  assert (pred_ok p2) as Hok2.
  { split; [done|]. split; [by eapply within_layered|done|by eapply top_only_ne]. }
  destruct r as [nis|e]; [|by split]. pose proof (setClusterStatePods_within (nodeNameToIdx ns) pods p2 (replicate (length ns) []) (po_res _ Hok2)) as Hp.
  destruct (setClusterStatePods _ _ _ _ _ _ _) as [p3 r]. destruct Hp as [Hr3 Hs3].
  destruct (store_same_eq p2 p3 (po_store _ Hok2) Hs3) as [Hst3 Heq3].
  assert (pred_ok p3) as Hok3 by (split; [done|by eapply res_within_ok]).
  assert (forks p3 = []) as Hf3 by (unfold forks; rewrite Heq3; exact Hf1).
  destruct r as [l|e]; [|done]. pose proof (store_all_within (zip_with (foldl AddPodInfo) nis l) p3 Hok3) as Ha.
  destruct (store_all _ _) as [p4 e]. destruct Ha. split; [done|congruence].
Qed.

(** C11. A simulation leaves no trace: whatever runs on the snapshot between a
    fork and its revert (nodes added and removed, pods scheduled by the
    plug-ins, unscheduled or forced, nested forks, operations that fail half
    way), afterwards the nodes, the dynamic resources by value and the CSI nodes
    are what they were, in every layer. Callers must not refer to a claim twice
    in a pod, and add nodes with claim objects of their own. *)
Theorem predicate_run_reverted p p1 : pred_ok p → runs (pred_Fork p) p1 →
  pred_ok (pred_Revert p1) ∧ pred_value (pred_Revert p1) = pred_value p.
Proof. apply run_reverted. Qed.

End predicate.

Module PredicateExample.
(** Two nodes over the delta store; the first is cordoned. Pods called
    "train" need the claim "gpu"; the plug-ins accept every node, allocate the
    claim on the node they reserve, and every piece of a search runs. *)
#[local] Existing Instance DeltaStoreProofs.delta_store.

Definition claim_t : Type := Claim (Selector := string) (ShareID := unit) (Consumed := unit) (ClaimData := unit).
Definition dra_t : Type := DraSnapshot (Selector := string) (ShareID := unit) (Consumed := unit) (ClaimData := unit)
  (Slice := string) (Class_ := unit).
Definition store_t : Type := DeltaStore.DeltaSnapshotStore demo_sched string string.
Definition pred_t : Type := PredicateSnapshot (Slice := string) (CSI := string) (T := store_t) (Selector := string)
  (ShareID := unit) (Consumed := unit) (ClaimData := unit) (Class_ := unit).

Definition gpu : claim_t := mkClaim "gpu" "default" "uid-1" tt None [].
Definition train : Pod := simple_pod "default" "train" ∅ [].
Definition web : Pod := simple_pod "default" "web" ∅ [].

Definition for_pod (pod : Pod) (c : claim_t) : bool := false.
Definition reserved_for (pod : Pod) (c : claim_t) : bool := existsb (claimConsumerReferenceMatchesPod pod) (ReservedFor c).
Definition refs (pod : Pod) : list ClaimRef := if bool_decide (PodName pod = "train") then [mkClaimRef "a" (Some "gpu")] else [].
Definition statuses (pod : Pod) : list ClaimRef := [].
Definition matches (node : Node) (selector : string) : result string bool := Ok (bool_decide (Name node = selector)).

Definition prefilter (p : pred_t) (pod : Pod) : unit * option (gset string) * Status * string := (tt, None, Success, "").
Definition run_filter (p : pred_t) (state : unit) (pod : Pod) (ni : NodeInfo demo_sched string string) : unit * Status := (tt, Success).
Definition reserve (p : pred_t) (state : unit) (pod : Pod) (nodeName : string) : list (string * claim_t) * bool :=
  ([("uid-1", set_allocation gpu (Some (mkAlloc (Some nodeName) [])))], true).
Definition parallel (p : pred_t) (pod : Pod) (opts : SchedulingOptions demo_sched string string) (n : nat) : list nat := seq 0 n.

Definition demo_node (name : string) (unschedulable : bool) : NodeInfo demo_sched string string :=
  mkNodeInfo (mkNode name "" ∅ ∅ [] unschedulable 0 [], []) [] None.
Definition add (p : pred_t) (ni : NodeInfo demo_sched string string) : pred_t :=
  (pred_AddNodeInfo true false (λ c, c) for_pod reserved_for refs statuses matches p ni).1.

Definition empty : pred_t := NewPredicateSnapshot SnapshotSpec.store_new {[ 0%nat := gpu ]}.
Definition demo : pred_t :=
  add (add (Predicate.set_dra empty (AddClaims (draSnapshot empty) [0%nat]).1) (demo_node "n1" true)) (demo_node "n2" false).
Definition opts : SchedulingOptions demo_sched string string := mkSchedulingOptions None None.
Definition schedule (p : pred_t) (pod : Pod) (n : string) :=
  pred_SchedulePod true reserved_for refs statuses matches prefilter run_filter reserve p pod n.

(** The consumers and the selector of the claim that the snapshot shows. *)
Definition gpu_in (p : pred_t) : option (list string * option (option string)) :=
  l ← (getResourceClaim (draSnapshot p) ("gpu", "default")).2; c ← deref (draSnapshot p) l;
  Some (ref_Name <$> ReservedFor c, alloc_NodeSelector <$> Allocation c).

(** Scheduling the pod allocates and reserves its claim; elsewhere the claim is
    not available. *)
Example demo_schedule :
  let p := (schedule demo train "n2").1 in
  (schedule demo train "n2").2 = None ∧ gpu_in p = Some (["train"], Some (Some "n2")) ∧
  (verifyScheduledPodResourceClaims refs statuses matches p train (named_node "n1")).2 ≠ None.
Proof. by vm_compute. Qed.

Lemma empty_ok : pred_ok empty.
Proof. apply NewPredicateSnapshot_ok; apply SnapshotSpec.store_new_ok. Qed.

Lemma demo_ok : pred_ok demo.
Proof.
  assert (pred_ok (Predicate.set_dra empty (AddClaims (draSnapshot empty) [0%nat]).1)) as H0.
  { split; [apply empty_ok|]. eapply res_within_ok, res_dra; [apply empty_ok|]. apply AddClaims_within; [apply empty_ok|..].
    - repeat constructor. intros m id Hm. by apply elem_of_nil in Hm.
    - repeat constructor. by exists gpu. }
  assert (∀ p ni, pred_ok p → GetPods ni = [] → pred_ok (add p ni)) as Hadd.
  { intros p ni Hp Hni. eapply within_ok, (step_within true false (λ c, c) for_pod reserved_for refs statuses matches
      prefilter run_filter reserve parallel p (PAddNode ni)); [done| |done]. cbn [contract]. by rewrite Hni. }
  unfold demo. by repeat apply Hadd.
Qed.

Lemma predicate_run_reverted_witness :
  let p1 := (schedule (pred_Fork demo) train "n2").1 in
  gpu_in p1 = Some (["train"], Some (Some "n2")) ∧ gpu_in (pred_Revert p1) = Some ([], None) ∧
  pred_value (pred_Revert p1) = pred_value demo.
Proof.
  split; [by vm_compute|]. split; [by vm_compute|].
  apply (predicate_run_reverted true false (λ c, c) for_pod reserved_for refs statuses matches prefilter run_filter
    reserve parallel demo).
  - apply demo_ok.
  - eapply (runs_op _ _ _ _ _ _ _ _ _ _ _ _ _ (PSchedule train "n2")); [|reflexivity|apply runs_done].
    intros _. repeat constructor; vm_compute; set_solver.
Defined.

End PredicateExample.
