(* ===== verification/Eviction.v ===== *)
(** Draining a node (src/pkg/core/scaledown/actuation/drain.go and
    priority.go): its pods are grouped by priority, the groups are evicted in
    ascending order of priority and the pods of a group must be gone before
    the next group is touched. Then the soft taints of unneeded nodes
    (softtaint.go). The API server and the clock are an environment, one per
    group of pods; a goroutine sees its own attempts, and the results of a
    group arrive on the channel in any order. *)
From stdpp Require Import prelude gmap strings list numbers sorting fin_maps.
From S2P Require Import Prelude Errors Api Drain Taints Expiring DeletionTracker.
Local Open Scope Z_scope.
Local Open Scope ca_scope.

(** ** Pods to evict *)

Definition EnableDsEvictionKey : string := "cluster-autoscaler.kubernetes.io/enable-ds-eviction".

(** [daemonset.PodsToEvict] *)
Definition PodsToEvict (pods : list Pod) (evictByDefault : bool) : list Pod :=
  filter (λ pod, match PodAnnotations pod !! EnableDsEvictionKey with
                 | Some a => bool_decide (a = "true")
                 | None => evictByDefault
                 end = true) pods.

Definition FakePodAnnotationKey : string := "podtype".
Definition FakePodAnnotationValue : string := "fakepod".
Definition IsFake (pod : Pod) : bool := bool_decide (annotation pod FakePodAnnotationKey = FakePodAnnotationValue).

Definition CapacityBufferFakePodAnnotationKey : string := "podType".
Definition CapacityBufferFakePodAnnotationValue : string := "capacityBufferFakePod".
Definition IsFakeCapacityBuffersPod (pod : Pod) : bool :=
  bool_decide (annotation pod CapacityBufferFakePodAnnotationKey = CapacityBufferFakePodAnnotationValue).

Section pods.
Context `{!KubeLib}.

Definition evict_step (acc : list Pod * list Pod) (pod : Pod) : list Pod * list Pod :=
  if IsMirrorPod pod then acc
  else if IsFake pod then acc
  else if IsFakeCapacityBuffersPod pod then acc
  else if IsDaemonSetPod pod then (acc.1 ++ [pod], acc.2)
  else (acc.1, acc.2 ++ [pod]).

Definition podsToEvict (pods : list Pod) (evictDsByDefault : bool) : list Pod * list Pod :=
  let '(dsPods, nonDsPods) := foldl evict_step ([], []) pods in
  (PodsToEvict dsPods evictDsByDefault, nonDsPods).
End pods.

(** ** Priority groups *)

Record ShutdownGracePeriodByPodPriority : Type := mkGracePeriod {
  Priority : Z;
  ShutdownGracePeriodSeconds : Z
}.

Record podEvictionGroup : Type := mkEvictionGroup {
  group_period : ShutdownGracePeriodByPodPriority;
  FullEvictionPods : list Pod;
  BestEffortEvictionPods : list Pod
}.

(** [sort.Search(n, f)]: a binary search on [i, j). *)
Fixpoint search_loop (fuel : nat) (f : Z → bool) (i j : Z) : Z :=
  match fuel with
  | O => i
  | Datatypes.S fuel =>
      if i <? j then
        let h := (i + j) `div` 2 in
        if f h then search_loop fuel f i h else search_loop fuel f (h + 1) j
      else i
  end.
Definition Search (n : Z) (f : Z → bool) : Z := search_loop (Z.to_nat n) f 0 n.

Definition pod_priority (pod : Pod) : Z := default 0 (PodSpecPriority pod).

(** The priority of the group at an index (out of range is never asked). *)
Definition priority_at (groups : list podEvictionGroup) (i : Z) : Z :=
  match groups !! Z.to_nat i with
  | Some g => Priority (group_period g)
  | None => 0
  end.

Definition groupIndex (pod : Pod) (groups : list podEvictionGroup) : Z :=
  let priority := pod_priority pod in
  let index := Search ⟪groups⟫ (λ i, priority <=? priority_at groups i) in
  if index =? ⟪groups⟫ then ⟪groups⟫ - 1
  else if index <? 0 then 0
  else if (0 <? index) && (priority <? priority_at groups index) then index - 1
  else index.

Definition add_full (pod : Pod) (g : podEvictionGroup) : podEvictionGroup :=
  mkEvictionGroup (group_period g) (FullEvictionPods g ++ [pod]) (BestEffortEvictionPods g).
Definition add_best_effort (pod : Pod) (g : podEvictionGroup) : podEvictionGroup :=
  mkEvictionGroup (group_period g) (FullEvictionPods g) (BestEffortEvictionPods g ++ [pod]).

(** [groups[index].X = append(groups[index].X, pod)]: an index out of range
    panics. *)
Definition place (add : Pod → podEvictionGroup → podEvictionGroup) (groups : option (list podEvictionGroup))
    (pod : Pod) : option (list podEvictionGroup) :=
  gs ← groups;
  let index := groupIndex pod gs in
  if (index <? 0) || (⟪gs⟫ <=? index) then None
  else Some (alter (add pod) (Z.to_nat index) gs).

Definition groupByPriority (periods : list ShutdownGracePeriodByPodPriority)
    (fullEvictionPods bestEffortEvictionPods : list Pod) : option (list podEvictionGroup) :=
  let groups := (λ period, mkEvictionGroup period [] []) <$> periods in
  foldl (place add_best_effort) (foldl (place add_full) (Some groups) fullEvictionPods) bestEffortEvictionPods.

Definition SingleRuleDrainConfig (shutdownGracePeriodSeconds : Z) : list ShutdownGracePeriodByPodPriority :=
  [mkGracePeriod (2 ^ 31 - 1) shutdownGracePeriodSeconds].

(** ** The evictor *)

Definition DefaultEvictionRetryTime : Z := 10 * 10 ^ 9.
Definition DefaultPodEvictionHeadroom : Z := 30 * 10 ^ 9.

(** [evictionRegister] tells whether there is one. *)
Record Evictor : Type := mkEvictor {
  EvictionRetryTime : Z;
  PodEvictionHeadroom : Z;
  evictionRegister : bool;
  shutdownGracePeriodByPodPriority : list ShutdownGracePeriodByPodPriority;
  fullDsEviction : bool
}.

Definition NewEvictor `{!SortSlice} (register : bool) (periods : list ShutdownGracePeriodByPodPriority)
    (full : bool) : Evictor :=
  mkEvictor DefaultEvictionRetryTime DefaultPodEvictionHeadroom register (sort_slice Priority periods) full.

Record EvictionOptions : Type := mkEvictionOptions {
  MaxPodEvictionTime : Z;
  DaemonSetEvictionForOccupiedNodes : bool;
  DaemonSetEvictionForEmptyNodes : bool
}.

(** An error of the pod API. *)
Record pod_error : Type := mkPodError { IsNotFound : bool; pe_text : string }.

(** What the API server, the clock and the channel answer while one group is
    drained: to attempt [i] to evict a pod with a grace period, to its
    deletion; the time at the check after attempt [i] of the pod; the order
    in which results are received; in round [i] of the wait the time since its
    start and the state of every pod, and the state when it is over. *)
Record group_env : Type := mkGroupEnv {
  initiated_at : Z;
  evict_answer : Pod → Z → nat → option pod_error;
  retry_clock : Pod → nat → Z;
  delete_answer : Pod → option pod_error;
  receive : list PodEvictionResult → list PodEvictionResult;
  receive_perm : ∀ l, receive l ≡ₚ l;
  poll_clock : nat → Z;
  poll_answer : nat → Pod → result pod_error (option Pod);
  final_answer : Pod → result pod_error (option Pod)
}.

(** Events: those of the recorder, and the evictions registered. *)
Inductive drain_event : Type :=
| EventDeleting (pod : Pod)
| EventForceDeleteFailed (pod : Pod)
| EventScaleDownFailed (pod : Pod)
| EvictionRegistered (pod : Pod).

Definition event_pod (ev : drain_event) : Pod :=
  match ev with
  | EventDeleting pod | EventForceDeleteFailed pod | EventScaleDownFailed pod | EvictionRegistered pod => pod
  end.

Section evictor.
Context `{!KubeLib}.
Variables (e : Evictor) (ctx : EvictionOptions).
Implicit Types (env : group_env) (pod : Pod) (results : gmap string PodEvictionResult).

Definition register pod : list drain_event := if evictionRegister e then [EvictionRegistered pod] else [].

Definition grace_period pod (maxTermination : Z) : Z :=
  let termination := default DefaultTerminationGracePeriodSeconds (PodTerminationGracePeriodSeconds pod) in
  if (0 <? maxTermination) && (maxTermination <? termination) then maxTermination else termination.

(** The attempts from number [i] on: [Ok] when the eviction was accepted or
    the pod is not there, else the last error. *)
Fixpoint evict_loop (fuel : nat) env pod (termination retryUntil : Z) (i : nat) : option (result pod_error unit) :=
  match fuel with
  | O => None
  | Datatypes.S fuel =>
      match evict_answer env pod termination i with
      | None => Some (Ok tt)
      | Some lastError =>
          if IsNotFound lastError then Some (Ok tt)
          else if retry_clock env pod i <? retryUntil
          then evict_loop fuel env pod termination retryUntil (Datatypes.S i)
          else Some (Err lastError)
      end
  end.

(** Every attempt but the first starts at least a retry time after the one
    before it, and before the deadline. *)
Definition evict_fuel : nat := Z.to_nat (MaxPodEvictionTime ctx `div` EvictionRetryTime e) + 2.

Definition forceDeletePod env pod : option string * list drain_event :=
  match delete_answer env pod with
  | Some err =>
      (Some ("failed to forcefully delete unevicted pod " +:+ PodNamespace pod +:+ "/" +:+ PodName pod +:+
             " (last error: " +:+ pe_text err +:+ ")"), [EventForceDeleteFailed pod])
  | None => (None, [])
  end.

Definition evictPod env pod (retryUntil maxTermination : Z) (fullEvictionPod force : bool)
    : option (PodEvictionResult * list drain_event) :=
  outcome ← evict_loop evict_fuel env pod (grace_period pod maxTermination) retryUntil 0;
  Some match outcome with
  | Ok _ => (mkEvictionResult (PodName pod) false None, EventDeleting pod :: register pod)
  | Err lastError =>
      if force then
        match forceDeletePod env pod with
        | (Some err, events) => (mkEvictionResult (PodName pod) false (Some err), EventDeleting pod :: events)
        | (None, events) =>
            (mkEvictionResult (PodName pod) false None, EventDeleting pod :: events ++ register pod)
        end
      else
        (mkEvictionResult (PodName pod) true
           (Some ("failed to evict pod " +:+ PodNamespace pod +:+ "/" +:+ PodName pod +:+
                  " within allowed timeout (last error: " +:+ pe_text lastError +:+ ")")),
         EventDeleting pod :: if fullEvictionPod then [EventScaleDownFailed pod] else [])
  end.

Definition time_out results pod : gmap string PodEvictionResult :=
  <[PodName pod := mkEvictionResult (PodName pod) true None]> results.

Definition take_confirmation results (evictionResult : PodEvictionResult) : gmap string PodEvictionResult :=
  <[EvictedPod evictionResult := evictionResult]> results.

(** [%v] of a slice of errors. *)
Definition print_errors (errs : list (option string)) : string :=
  "[" +:+ Join " " (default "<nil>"%string <$> errs) +:+ "]".

(** The result of a pod in the map; a missing one is the zero value. *)
Definition result_of results pod : PodEvictionResult :=
  default (mkEvictionResult "" false None) (results !! PodName pod).

Definition initiateEviction env (node : Node) (fullEvictionPods bestEffortEvictionPods : list Pod) results
    (maxTermination : Z) (force : bool)
    : option (gmap string PodEvictionResult * option AutoscalerError * list drain_event) :=
  let retryUntil := initiated_at env + MaxPodEvictionTime ctx in
  let results := foldl time_out results fullEvictionPods in
  full ← mapM (λ pod, evictPod env pod retryUntil maxTermination true force) fullEvictionPods;
  bestEffort ← mapM (λ pod, evictPod env pod retryUntil maxTermination false false) bestEffortEvictionPods;
  let results := foldl take_confirmation results (receive env full.*1) in
  let evictionErrs := EvictionErr <$>
    filter (λ r, WasEvictionSuccessful r = false) (result_of results <$> fullEvictionPods) in
  Some (results,
        if bool_decide (evictionErrs = []) then None
        else Some (NewAutoscalerError ApiCallError
               ("Failed to drain node /" +:+ Name node +:+ ", due to following errors: " +:+ print_errors evictionErrs)),
        concat (full ++ bestEffort).*2).

(** [err == nil && (podReturned == nil || podReturned.Spec.NodeName == node.Name)],
    or an error that is not NotFound: the pod may still be there. *)
Definition pod_gone (node : Node) (a : result pod_error (option Pod)) : bool :=
  match a with
  | Ok None => false
  | Ok (Some podReturned) => negb (bool_decide (PodNodeName podReturned = Name node))
  | Err err => IsNotFound err
  end.

Fixpoint wait_loop (fuel : nat) env (node : Node) (pods : list Pod) (limit : Z) (i : nat) : option bool :=
  match fuel with
  | O => None
  | Datatypes.S fuel =>
      if poll_clock env i <? limit then
        if forallb (λ pod, pod_gone node (poll_answer env i pod)) pods then Some true
        else wait_loop fuel env node pods limit (Datatypes.S i)
      else Some false
  end.

(** [time.Duration(maxTermination)*time.Second + e.PodEvictionHeadroom] *)
Definition wait_limit (maxTermination : Z) : Z := wrap64 (wrap64 (maxTermination * 10 ^ 9) + PodEvictionHeadroom e).

(** A round lasts five seconds at least. *)
Definition wait_fuel (maxTermination : Z) : nat := Z.to_nat (wait_limit maxTermination `div` (5 * 10 ^ 9)) + 2.

Definition final_check env (node : Node) results pod : gmap string PodEvictionResult :=
  <[PodName pod :=
      match final_answer env pod with
      | Ok None => mkEvictionResult (PodName pod) true None
      | Ok (Some podReturned) =>
          mkEvictionResult (PodName pod)
            (bool_decide (PodName podReturned = "") || bool_decide (PodNodeName podReturned = Name node)) None
      | Err err =>
          if IsNotFound err then mkEvictionResult (PodName pod) false None
          else mkEvictionResult (PodName pod) true (Some (pe_text err))
      end]> results.

Definition waitPodsToDisappear env (node : Node) (pods : list Pod) results (maxTermination : Z)
    : option (gmap string PodEvictionResult * option AutoscalerError) :=
  allGone ← wait_loop (wait_fuel maxTermination) env node pods (wait_limit maxTermination) 0;
  Some (if allGone : bool then (results, None)
        else (foldl (final_check env node) results pods,
              Some (NewAutoscalerError TransientError
                      ("Failed to drain node /" +:+ Name node +:+ ": pods remaining after timeout")))).

(** ** The drain *)

Definition not_attempted results pod : gmap string PodEvictionResult :=
  <[PodName pod := mkEvictionResult (PodName pod) false
      (Some ("Eviction did not attempted for the pod " +:+ PodName pod +:+
             " because some of the previous evictions failed"))]> results.

(** One group: the results, the error that ends the drain, the events. *)
Definition drain_group env (node : Node) (force : bool) (group : podEvictionGroup) results
    : option (gmap string PodEvictionResult * option AutoscalerError * list drain_event) :=
  if (bool_decide (FullEvictionPods group = [])) && bool_decide (BestEffortEvictionPods group = [])
  then Some (results, None, [])
  else
    let maxTermination := ShutdownGracePeriodSeconds (group_period group) in
    '(results, err, events) ← initiateEviction env node (FullEvictionPods group) (BestEffortEvictionPods group)
                                results maxTermination force;
    match err with
    | Some _ => Some (results, err, events)
    | None =>
        '(results, err) ← waitPodsToDisappear env node (FullEvictionPods group) results maxTermination;
        Some (results, err, events)
    end.

(** The groups from number [k] on, and the events of every group touched. *)
Fixpoint drain_groups (envs : nat → group_env) (node : Node) (force : bool) (groups : list podEvictionGroup)
    (k : nat) results : option (gmap string PodEvictionResult * option AutoscalerError * list (list drain_event)) :=
  match groups with
  | [] => Some (results, None, [])
  | group :: groups =>
      '(results, err, events) ← drain_group (envs k) node force group results;
      match err with
      | Some _ => Some (results, err, [events])
      | None =>
          '(results, err, rest) ← drain_groups envs node force groups (Datatypes.S k) results;
          Some (results, err, events :: rest)
      end
  end.

(** A drain without any priority group panics. *)
Inductive drain_outcome : Type :=
| DrainPanics
| DrainReturns (results : gmap string PodEvictionResult) (err : option AutoscalerError)
    (events : list (list drain_event)).

Definition drainNodeWithPodsBasedOnPodPriority (envs : nat → group_env) (node : Node)
    (fullEvictionPods bestEffortEvictionPods : list Pod) (force : bool) : option drain_outcome :=
  match groupByPriority (shutdownGracePeriodByPodPriority e) fullEvictionPods bestEffortEvictionPods with
  | None => Some DrainPanics
  | Some groups =>
      let evictionResults := foldl not_attempted ∅ (mjoin (FullEvictionPods <$> groups)) in
      '(results, err, events) ← drain_groups envs node force groups 0 evictionResults;
      Some (DrainReturns results err events)
  end.

Definition drainNode (envs : nat → group_env) (node : Node) (pods : list Pod) (force : bool) : option drain_outcome :=
  let '(dsPods, pods) := podsToEvict pods (DaemonSetEvictionForOccupiedNodes ctx) in
  if fullDsEviction e
  then drainNodeWithPodsBasedOnPodPriority envs node (pods ++ dsPods) [] force
  else drainNodeWithPodsBasedOnPodPriority envs node pods dsPods force.

Definition DrainNode envs node pods : option drain_outcome := drainNode envs node pods false.
Definition drainNodeForce envs node pods : option drain_outcome := drainNode envs node pods true.

Definition EvictDaemonSetPods (envs : nat → group_env) (node : Node) (pods : list Pod) : option drain_outcome :=
  let '(dsPods, _) := podsToEvict pods (DaemonSetEvictionForEmptyNodes ctx) in
  drainNodeWithPodsBasedOnPodPriority envs node [] dsPods false.
End evictor.

(** ** Soft taints *)

Record budgetTracker : Type := mkBudgetTracker {
  apiCallBudget : Z;
  startTime : Z;
  timeBudget : Z;
  skippedNodes : Z
}.

Section soft.
Context {W : Type} `{!NodeClient W}.

(** The state of the loops: the server, the budget and the errors. *)
Definition soft_state : Type := (W * budgetTracker * list update_error)%type.

(** [processWithinBudget] around an update of a node. *)
Definition processWithinBudget (update : W → option (W * result update_error Node)) (st : soft_state)
    : option soft_state :=
  let '(w, b, errors) := st in
  if (apiCallBudget b <=? 0) || (timeBudget b <=? api_Now w - startTime b)
  then Some (w, mkBudgetTracker (apiCallBudget b) (startTime b) (timeBudget b) (skippedNodes b + 1), errors)
  else
    '(w, r) ← update w;
    Some (w, mkBudgetTracker (apiCallBudget b - 1) (startTime b) (timeBudget b) (skippedNodes b),
          match r with Err err => errors ++ [err] | Ok _ => errors end).

Definition soft_needed_step (st : option soft_state) (node : Node) : option soft_state :=
  st ← st;
  if HasToBeDeletedTaint node then Some st
  else if negb (HasDeletionCandidateTaint node) then Some st
  else processWithinBudget (λ w, CleanDeletionCandidate w node) st.

Definition soft_unneeded_step (st : option soft_state) (node : Node) : option soft_state :=
  st ← st;
  if HasToBeDeletedTaint node then Some st
  else if HasDeletionCandidateTaint node then Some st
  else processWithinBudget (λ w, MarkDeletionCandidate w node) st.

Definition UpdateSoftDeletionTaints w (MaxBulkSoftTaintCount MaxBulkSoftTaintTime : Z)
    (uneededNodes neededNodes : list Node) : option soft_state :=
  let b := mkBudgetTracker MaxBulkSoftTaintCount (api_Now w) MaxBulkSoftTaintTime 0 in
  foldl soft_unneeded_step (foldl soft_needed_step (Some (w, b, [])) neededNodes) uneededNodes.
End soft.
