(* ===== verification/EvictionProofs.v ===== *)
(** What a drain guarantees: the binary search finds the group of a pod, every
    pod is in exactly one group and groups follow the priorities; the loops of
    an eviction end; a drain without an error left nothing on the node, and one
    that failed never touched the pods of a later group. *)
From stdpp Require Import prelude gmap strings list numbers sorting fin_maps.
From S2P Require Import Prelude Errors Api Drain Taints Expiring DeletionTracker Eviction.
Local Open Scope Z_scope.
Local Open Scope ca_scope.

(** ** Binary search *)

Section search.
Variables (f : Z → bool) (n : Z).
Hypothesis f_monotone : ∀ a b, 0 <= a <= b → b < n → f a = true → f b = true.

Lemma search_loop_spec : ∀ fuel i j,
  0 <= i <= j → j <= n → j - i <= Z.of_nat fuel →
  (∀ k, 0 <= k < i → f k = false) → (j < n → f j = true) →
  let r := search_loop fuel f i j in
  0 <= r <= n ∧ (∀ k, 0 <= k < r → f k = false) ∧ (r < n → f r = true).
Proof using f_monotone.
  induction fuel as [|fuel IH]; intros i j Hij Hj Hfuel Hlo Hhi; simpl.
  { assert (i = j) as -> by lia. split; [lia|done]. }
  destruct (i <? j) eqn:Hlt; [|assert (i = j) as -> by lia; split; [lia|done]].
  pose proof (Z.div_mod (i + j) 2 ltac:(done)). pose proof (Z.mod_pos_bound (i + j) 2 ltac:(done)).
  destruct (f ((i + j) `div` 2)) eqn:Hf; (apply IH; [lia|lia|lia| |]).
  - done.
  - done.
  - intros k Hk. destruct (f k) eqn:Hfk; [|done].
    rewrite (f_monotone k ((i + j) `div` 2)) in Hf; [done|lia|lia|done].
  - done.
Qed.

(** [sort.Search] returns the first index of [0, n) where [f] holds, or [n]. *)
Lemma Search_spec : 0 <= n →
  0 <= Search n f <= n ∧ (∀ k, 0 <= k < Search n f → f k = false) ∧ (Search n f < n → f (Search n f) = true).
Proof using f_monotone. intros Hn. apply search_loop_spec; lia. Qed.
End search.

(** ** Groups *)

Definition empty_groups (periods : list ShutdownGracePeriodByPodPriority) : list podEvictionGroup :=
  (λ period, mkEvictionGroup period [] []) <$> periods.

(** The group of a pod: it depends on the periods only. *)
Definition pod_group (periods : list ShutdownGracePeriodByPodPriority) (pod : Pod) : Z :=
  groupIndex pod (empty_groups periods).

Definition period_priority (periods : list ShutdownGracePeriodByPodPriority) (i : Z) : Z :=
  match periods !! Z.to_nat i with Some p => Priority p | None => 0 end.

Lemma priority_at_periods gs i : priority_at gs i = period_priority (group_period <$> gs) i.
Proof. unfold priority_at, period_priority. rewrite list_lookup_fmap. by destruct (gs !! Z.to_nat i). Qed.

Lemma empty_groups_periods ps : group_period <$> empty_groups ps = ps.
Proof. unfold empty_groups. rewrite <- list_fmap_compose. apply list_fmap_id. Qed.

Lemma search_loop_ext f g : (∀ i, f i = g i) → ∀ fuel i j, search_loop fuel f i j = search_loop fuel g i j.
Proof. intros H. induction fuel as [|fuel IH]; intros i j; simpl; [done|]. rewrite H, !IH. done. Qed.

Lemma groupIndex_periods pod gs : groupIndex pod gs = pod_group (group_period <$> gs) pod.
Proof.
  unfold pod_group, groupIndex, empty_groups. rewrite !length_fmap. unfold Search.
  rewrite (search_loop_ext _ (λ i, pod_priority pod <=? priority_at
    ((λ period, mkEvictionGroup period [] []) <$> (group_period <$> gs)) i)).
  2: { intros i. rewrite !priority_at_periods, empty_groups_periods. done. }
  rewrite (priority_at_periods gs), (priority_at_periods (_ <$> _)), empty_groups_periods. done.
Qed.

Definition ascending (periods : list ShutdownGracePeriodByPodPriority) : Prop :=
  StronglySorted (λ x y, Priority x <= Priority y) periods.

Lemma ascending_le ps i j : ascending ps → 0 <= i <= j → j < ⟪ps⟫ → period_priority ps i <= period_priority ps j.
Proof.
  intros Hs Hij Hj. unfold period_priority.
  destruct (lookup_lt_is_Some_2 ps (Z.to_nat i)) as [a Ha]; [lia|].
  destruct (lookup_lt_is_Some_2 ps (Z.to_nat j)) as [b Hb]; [lia|]. rewrite Ha, Hb.
  destruct (decide (i = j)) as [->|]; [simplify_eq; lia|].
  apply (StronglySorted_app_1_elem_of (λ x y, Priority x <= Priority y)
           (take (Datatypes.S (Z.to_nat i)) ps) (drop (Datatypes.S (Z.to_nat i)) ps) a b).
  - by rewrite take_drop.
  - apply elem_of_take. exists (Z.to_nat i). split; [done|lia].
  - apply list_elem_of_lookup. exists (Z.to_nat j - Datatypes.S (Z.to_nat i))%nat.
    rewrite lookup_drop. rewrite <- Hb. f_equal. lia.
Qed.

(** The group of a pod: the last one whose priority does not exceed the pod's
    (the first, when the pod is below all of them), and the first of those with
    the pod's own priority. *)
Lemma pod_group_spec ps pod : ascending ps → ps ≠ [] →
  let i := pod_group ps pod in
  0 <= i < ⟪ps⟫ ∧
  (i = 0 ∨ period_priority ps i <= pod_priority pod) ∧
  (∀ j, i < j < ⟪ps⟫ → pod_priority pod <= period_priority ps j) ∧
  (∀ j, 0 <= j < i → period_priority ps j < pod_priority pod).
Proof.
  intros Hs Hne. unfold pod_group, groupIndex. cbv zeta.
  set (f := λ i : Z, pod_priority pod <=? priority_at (empty_groups ps) i).
  assert (⟪empty_groups ps⟫ = ⟪ps⟫) as -> by (unfold empty_groups; by rewrite length_fmap).
  assert (∀ k, f k = (pod_priority pod <=? period_priority ps k)) as Hf.
  { intros k. unfold f. by rewrite priority_at_periods, empty_groups_periods. }
  assert (0 < ⟪ps⟫) as Hlen by (destruct ps; [done|simpl; lia]).
  destruct (Search_spec f ⟪ps⟫) as (Hr & Hlo & Hhi); [|lia|].
  { intros a b Hab Hb. rewrite !Hf. intros Ha. pose proof (ascending_le ps a b Hs Hab Hb). lia. }
  set (r := Search _ _) in *.
  assert (∀ k, 0 <= k < r → period_priority ps k < pod_priority pod) as Hlo'.
  { intros k Hk. specialize (Hlo k Hk). rewrite Hf in Hlo. lia. }
  assert (∀ k, r <= k < ⟪ps⟫ → pod_priority pod <= period_priority ps k) as Hhi'.
  { intros k Hk. assert (f r = true) as Hfr by (apply Hhi; lia). rewrite Hf in Hfr.
    pose proof (ascending_le ps r k Hs ltac:(lia) ltac:(lia)). lia. }
  rewrite priority_at_periods, empty_groups_periods.
  destruct (r =? ⟪ps⟫) eqn:E1.
  { split; [lia|]. split; [right; apply Z.lt_le_incl, Hlo'; lia|]. split; [lia|]. intros j Hj. apply Hlo'. lia. }
  destruct (r <? 0) eqn:E2; [lia|].
  destruct ((0 <? r) && (pod_priority pod <? period_priority ps r)) eqn:E3.
  - split; [lia|]. split; [right; apply Z.lt_le_incl, Hlo'; lia|]. split; [intros j Hj; apply Hhi'; lia|].
    intros j Hj. apply Hlo'. lia.
  - split; [lia|]. split.
    + destruct (decide (r = 0)); [by left|]. right. apply andb_false_iff in E3 as [|]; lia.
    + split; [intros j Hj; apply Hhi'; lia|]. intros j Hj. apply Hlo'. lia.
Qed.

(** Groups follow the priorities of the pods. *)
Lemma pod_group_monotone ps p q : ascending ps → ps ≠ [] →
  pod_group ps p < pod_group ps q → pod_priority p <= pod_priority q.
Proof.
  intros Hs Hne Hlt. destruct (pod_group_spec ps p Hs Hne) as (Hp & _ & Hup & _).
  destruct (pod_group_spec ps q Hs Hne) as (Hq & [H0|Hle] & _ & _); [lia|].
  specialize (Hup (pod_group ps q) ltac:(lia)). lia.
Qed.

(** Placing the pods: who is where, and nobody is lost. *)
Record placed (periods : list ShutdownGracePeriodByPodPriority) (full best : list Pod)
    (gs : list podEvictionGroup) : Prop := mkPlaced {
  placed_periods : group_period <$> gs = periods;
  placed_group : ∀ k g p, gs !! k = Some g → p ∈ FullEvictionPods g ∨ p ∈ BestEffortEvictionPods g →
    pod_group periods p = Z.of_nat k;
  placed_full : mjoin (FullEvictionPods <$> gs) ≡ₚ full;
  placed_best : mjoin (BestEffortEvictionPods <$> gs) ≡ₚ best
}.

Lemma alter_fmap_period add (k : nat) (gs : list podEvictionGroup) : (∀ g, group_period (add g) = group_period g) →
  group_period <$> alter add k gs = group_period <$> gs.
Proof.
  intros H. apply list_eq. intros i. rewrite !list_lookup_fmap.
  destruct (decide (i = k)) as [->|Hne].
  - rewrite list_lookup_alter_eq. destruct (gs !! k) as [g|]; [|done]. cbn. f_equal. apply H.
  - by rewrite list_lookup_alter_ne.
Qed.

Lemma alter_join_snoc {A} (pods : podEvictionGroup → list A) add (k : nat) (gs : list podEvictionGroup) x :
  is_Some (gs !! k) → (∀ g, pods (add g) = pods g ++ [x]) →
  mjoin (pods <$> alter add k gs) ≡ₚ mjoin (pods <$> gs) ++ [x].
Proof.
  intros Hk Hadd. revert k Hk. induction gs as [|g gs IH]; intros k [y Hk]; [done|].
  destruct k as [|k]; csimpl.
  - rewrite Hadd. solve_Permutation.
  - rewrite (IH k); [by rewrite app_assoc|by exists y].
Qed.

Lemma alter_join_same {A} (pods : podEvictionGroup → list A) add (k : nat) (gs : list podEvictionGroup) : (∀ g, pods (add g) = pods g) →
  mjoin (pods <$> alter add k gs) = mjoin (pods <$> gs).
Proof.
  intros Hadd. revert k. induction gs as [|g gs IH]; intros [|k]; csimpl; [done|done| |].
  - by rewrite Hadd.
  - by rewrite IH.
Qed.

(** One step of either loop. *)
Lemma place_eq add ps gs pod : ascending ps → ps ≠ [] → group_period <$> gs = ps →
  place add (Some gs) pod = Some (alter (add pod) (Z.to_nat (pod_group ps pod)) gs) ∧
  is_Some (gs !! Z.to_nat (pod_group ps pod)).
Proof.
  intros Hs Hne Hps. unfold place. simpl. rewrite groupIndex_periods, Hps.
  destruct (pod_group_spec ps pod Hs Hne) as (Hi & _).
  assert (length gs = length ps) as Hlen by (rewrite <- Hps; by rewrite length_fmap).
  rewrite Hlen. destruct ((pod_group ps pod <? 0) || (⟪ps⟫ <=? pod_group ps pod)) eqn:E.
  - apply orb_true_iff in E as [E|E]; lia.
  - split; [done|]. apply lookup_lt_is_Some_2. lia.
Qed.

Lemma place_full_ok ps full best gs pod : ascending ps → ps ≠ [] → placed ps full best gs →
  ∃ gs', place add_full (Some gs) pod = Some gs' ∧ placed ps (full ++ [pod]) best gs'.
Proof.
  intros Hs Hne [Hp Hg Hf Hb]. destruct (place_eq add_full ps gs pod Hs Hne Hp) as [-> Hsome].
  eexists; split; [done|]. destruct (pod_group_spec ps pod Hs Hne) as (Hi & _). split.
  - by rewrite alter_fmap_period.
  - intros k g p. destruct (decide (k = Z.to_nat (pod_group ps pod))) as [->|Hk].
    + rewrite list_lookup_alter_eq. destruct Hsome as [g0 Hg0]. rewrite Hg0. simpl. intros [= <-]. simpl.
      rewrite elem_of_app, list_elem_of_singleton.
      intros [[H| ->]|H]; [by eapply Hg; eauto|lia|by eapply Hg; eauto].
    + rewrite list_lookup_alter_ne by done. apply Hg.
  - rewrite (alter_join_snoc _ _ _ _ pod) by done. by rewrite Hf.
  - by rewrite alter_join_same.
Qed.

Lemma place_best_ok ps full best gs pod : ascending ps → ps ≠ [] → placed ps full best gs →
  ∃ gs', place add_best_effort (Some gs) pod = Some gs' ∧ placed ps full (best ++ [pod]) gs'.
Proof.
  intros Hs Hne [Hp Hg Hf Hb]. destruct (place_eq add_best_effort ps gs pod Hs Hne Hp) as [-> Hsome].
  eexists; split; [done|]. destruct (pod_group_spec ps pod Hs Hne) as (Hi & _). split.
  - by rewrite alter_fmap_period.
  - intros k g p. destruct (decide (k = Z.to_nat (pod_group ps pod))) as [->|Hk].
    + rewrite list_lookup_alter_eq. destruct Hsome as [g0 Hg0]. rewrite Hg0. simpl. intros [= <-]. simpl.
      rewrite elem_of_app, list_elem_of_singleton.
      intros [H|[H| ->]]; [by eapply Hg; eauto|by eapply Hg; eauto|lia].
    + rewrite list_lookup_alter_ne by done. apply Hg.
  - by rewrite alter_join_same.
  - rewrite (alter_join_snoc _ _ _ _ pod) by done. by rewrite Hb.
Qed.

(** With a priority to put them under, every pod is placed once, in its own
    group. *)
Lemma groupByPriority_placed ps full best : ascending ps → ps ≠ [] →
  ∃ gs, groupByPriority ps full best = Some gs ∧ placed ps full best gs.
Proof.
  intros Hs Hne. unfold groupByPriority. fold (empty_groups ps).
  assert (∀ done1 l gs, placed ps done1 [] gs →
    ∃ gs', foldl (place add_full) (Some gs) l = Some gs' ∧ placed ps (done1 ++ l) [] gs') as H1.
  { intros done1 l. revert done1. induction l as [|pod l IH]; intros done1 gs Hgs; cbn [foldl].
    { exists gs. by rewrite app_nil_r. }
    destruct (place_full_ok ps done1 [] gs pod Hs Hne Hgs) as (gs' & -> & Hgs').
    destruct (IH _ _ Hgs') as (gs'' & -> & ?). exists gs''. rewrite <- app_assoc in H. done. }
  assert (∀ done2 l gs, placed ps full done2 gs →
    ∃ gs', foldl (place add_best_effort) (Some gs) l = Some gs' ∧ placed ps full (done2 ++ l) gs') as H2.
  { intros done2 l. revert done2. induction l as [|pod l IH]; intros done2 gs Hgs; cbn [foldl].
    { exists gs. by rewrite app_nil_r. }
    destruct (place_best_ok ps full done2 gs pod Hs Hne Hgs) as (gs' & -> & Hgs').
    destruct (IH _ _ Hgs') as (gs'' & -> & ?). exists gs''. rewrite <- app_assoc in H. done. }
  assert (placed ps [] [] (empty_groups ps)) as H0.
  { split; [apply empty_groups_periods| | |].
    - intros k g p Hk. unfold empty_groups in Hk. rewrite list_lookup_fmap in Hk.
      destruct (ps !! k); simplify_eq/=. intros [H%not_elem_of_nil|H%not_elem_of_nil]; done.
    - unfold empty_groups. clear. induction ps; csimpl; done.
    - unfold empty_groups. clear. induction ps; csimpl; done. }
  destruct (H1 [] full _ H0) as (gs & -> & Hgs). apply (H2 [] best gs Hgs).
Qed.

Lemma groupByPriority_panics full best pod : pod ∈ full ++ best → groupByPriority [] full best = None.
Proof.
  assert (∀ add l, foldl (place add) None l = None) as Hnone by (intros add l; induction l; done).
  intros Hin. unfold groupByPriority. simpl.
  destruct full as [|p full]; simpl; [|by rewrite !Hnone].
  destruct best as [|p best]; simpl; [by apply not_elem_of_nil in Hin|by rewrite Hnone].
Qed.

(** ** One group *)

Section drain.
Context `{!KubeLib}.
Variables (e : Evictor) (ctx : EvictionOptions) (node : Node) (force : bool).
Implicit Types (env : group_env) (pod : Pod) (results : gmap string PodEvictionResult).

(** Sleeping takes at least as long as asked: the attempt after the [i]-th is
    at least [i + 1] retry times after the start, the [i]-th round of the wait
    at least [i] times five seconds after its own. *)
Record on_time env : Prop := mkOnTime {
  retry_time : ∀ pod i, initiated_at env + (Z.of_nat i + 1) * EvictionRetryTime e <= retry_clock env pod i;
  poll_time : ∀ i, Z.of_nat i * (5 * 10 ^ 9) <= poll_clock env i
}.

(** The API accepted an eviction of the pod, or told that it is not there. *)
Definition accepted env pod (maxTermination : Z) : Prop :=
  ∃ i, match evict_answer env pod (grace_period pod maxTermination) i with
       | None => True
       | Some err => IsNotFound err = true
       end.

(** ... or it was deleted by force. *)
Definition removed env pod (maxTermination : Z) : Prop :=
  accepted env pod maxTermination ∨ (force = true ∧ delete_answer env pod = None).

(** In some round of the wait all the pods were gone. *)
Definition all_gone env (pods : list Pod) : Prop :=
  ∃ i, Forall (λ pod, pod_gone node (poll_answer env i pod) = true) pods.

Lemma evict_loop_total env pod termination : on_time env → 0 < EvictionRetryTime e → ∀ fuel i,
  Z.of_nat i <= Z.max 0 (MaxPodEvictionTime ctx `div` EvictionRetryTime e) →
  (Z.to_nat (MaxPodEvictionTime ctx `div` EvictionRetryTime e) + 2 <= fuel + i)%nat →
  is_Some (evict_loop fuel env pod termination (initiated_at env + MaxPodEvictionTime ctx) i).
Proof using e.
  intros Hon Hpos. induction fuel as [|fuel IH]; intros i Hi Hfuel; [lia|]. simpl.
  destruct (evict_answer env pod termination i) as [err|]; [|by eexists].
  destruct (IsNotFound err); [by eexists|].
  destruct (retry_clock env pod i <? _) eqn:Hlt; [|by eexists].
  pose proof (retry_time env Hon pod i).
  assert (Z.of_nat i + 1 <= MaxPodEvictionTime ctx `div` EvictionRetryTime e).
  { apply Z.div_le_lower_bound; lia. }
  apply IH; lia.
Qed.

Lemma evict_loop_ok env pod termination retryUntil : ∀ fuel i,
  evict_loop fuel env pod termination retryUntil i = Some (Ok tt) →
  ∃ j, match evict_answer env pod termination j with None => True | Some err => IsNotFound err = true end.
Proof.
  induction fuel as [|fuel IH]; intros i; simpl; [done|].
  destruct (evict_answer env pod termination i) as [err|] eqn:Ha.
  - destruct (IsNotFound err) eqn:Hnf; [intros _; exists i; by rewrite Ha|].
    destruct (_ <? _); [apply IH|done].
  - intros _. exists i. by rewrite Ha.
Qed.

Lemma evictPod_spec env pod maxTermination full b : on_time env → 0 < EvictionRetryTime e →
  (b = true → force = true) →
  ∃ r events, evictPod e ctx env pod (initiated_at env + MaxPodEvictionTime ctx) maxTermination full b = Some (r, events) ∧
    EvictedPod r = PodName pod ∧ Forall (λ ev, event_pod ev = pod) events ∧
    (WasEvictionSuccessful r = true → removed env pod maxTermination).
Proof using e.
  intros Hon Hpos Hb. unfold evictPod.
  destruct (evict_loop_total env pod (grace_period pod maxTermination) Hon Hpos (evict_fuel e ctx) 0) as [[u|err] Hloop];
    [lia|unfold evict_fuel; lia| |]; rewrite Hloop; simpl.
  - destruct u. eexists _, _. split; [done|]. split; [done|]. split.
    { constructor; [done|]. unfold register. destruct (evictionRegister e); repeat constructor. }
    intros _. left. by eapply evict_loop_ok.
  - destruct b.
    + unfold forceDeletePod. destruct (delete_answer env pod) eqn:Hd.
      * eexists _, _. split; [done|]. split; [done|]. split; [repeat constructor|done].
      * eexists _, _. split; [done|]. split; [done|]. split.
        { constructor; [done|]. simpl. unfold register. destruct (evictionRegister e); repeat constructor. }
        intros _. right. by rewrite Hb.
    + eexists _, _. split; [done|]. split; [done|]. split; [|done].
      constructor; [done|]. destruct full; repeat constructor.
Qed.

Lemma evictPods_spec env maxTermination full b pods : on_time env → 0 < EvictionRetryTime e →
  (b = true → force = true) →
  ∃ rs, mapM (λ pod, evictPod e ctx env pod (initiated_at env + MaxPodEvictionTime ctx) maxTermination full b) pods
        = Some rs ∧
    Forall2 (λ pod r, EvictedPod r.1 = PodName pod ∧ Forall (λ ev, event_pod ev = pod) r.2 ∧
       (WasEvictionSuccessful r.1 = true → removed env pod maxTermination)) pods rs.
Proof using e.
  intros Hon Hpos Hb. induction pods as [|pod pods [rs [IH IHall]]]; simpl; [by eexists|].
  destruct (evictPod_spec env pod maxTermination full b Hon Hpos Hb) as (r & events & -> & Hr).
  simpl. rewrite IH. simpl. eexists. split; [done|]. by constructor.
Qed.

Lemma events_of_pods (P : Pod → PodEvictionResult → Prop) pods (rs : list (PodEvictionResult * list drain_event)) ev :
  Forall2 (λ pod r, EvictedPod r.1 = PodName pod ∧ Forall (λ ev, event_pod ev = pod) r.2 ∧ P pod r.1) pods rs →
  ev ∈ concat rs.*2 → event_pod ev ∈ pods.
Proof.
  induction 1 as [|pod r pods rs (_ & Hev & _) _ IH]; csimpl.
  - intros []%not_elem_of_nil.
  - rewrite elem_of_app. intros [Hin|Hin]; apply elem_of_cons; [left|right; by apply IH].
    rewrite Forall_forall in Hev. by apply Hev.
Qed.

Lemma lookup_fold_insert {A} (name : A → string) (val : A → PodEvictionResult) (l : list A) results n :
  n ∉ name <$> l → foldl (λ m x, <[name x := val x]> m) results l !! n = results !! n.
Proof.
  revert results. induction l as [|x l IH]; intros results; csimpl; [done|].
  rewrite not_elem_of_cons. intros [Hne Hin]. rewrite IH by done. by rewrite lookup_insert_ne.
Qed.

Lemma lookup_fold_insert_in {A} (name : A → string) (val : A → PodEvictionResult) (l : list A) results x :
  NoDup (name <$> l) → x ∈ l → foldl (λ m x, <[name x := val x]> m) results l !! name x = Some (val x).
Proof.
  revert results. induction l as [|y l IH]; intros results; csimpl.
  - intros _ []%not_elem_of_nil.
  - rewrite NoDup_cons, elem_of_cons. intros [Hy Hnd] [-> |Hx]; [|by apply IH].
    rewrite lookup_fold_insert by done. by rewrite lookup_insert_eq.
Qed.

Lemma initiateEviction_spec env full best results maxTermination : on_time env → 0 < EvictionRetryTime e →
  ∃ results' err events,
    initiateEviction e ctx env node full best results maxTermination force = Some (results', err, events) ∧
    (∀ ev, ev ∈ events → event_pod ev ∈ full ++ best) ∧
    (∀ n, n ∉ PodName <$> full → results' !! n = results !! n) ∧
    (err = None → NoDup (PodName <$> full) → ∀ pod, pod ∈ full →
       WasEvictionSuccessful (result_of results' pod) = true ∧ removed env pod maxTermination).
Proof using e.
  intros Hon Hpos. unfold initiateEviction.
  destruct (evictPods_spec env maxTermination true force full Hon Hpos) as (rf & -> & Hf); [done|].
  destruct (evictPods_spec env maxTermination false false best Hon Hpos) as (rb & -> & Hb); [done|].
  simpl. set (res := foldl take_confirmation _ _). eexists _, _, _. split; [done|].
  assert (EvictedPod <$> rf.*1 = PodName <$> full) as Hnames.
  { clear -Hf. induction Hf as [|pod r pods rs (Hn & _) _ IH]; csimpl; [done|]. by rewrite Hn, IH. }
  assert (EvictedPod <$> receive env rf.*1 ≡ₚ PodName <$> full) as Hperm.
  { rewrite <- Hnames. apply fmap_Permutation, receive_perm. }
  split; [|split].
  - intros ev. rewrite fmap_app, concat_app, !elem_of_app. intros [Hin|Hin]; [left|right].
    + by eapply (events_of_pods (λ pod r, WasEvictionSuccessful r = true → removed env pod maxTermination)).
    + by eapply (events_of_pods (λ pod r, WasEvictionSuccessful r = true → removed env pod maxTermination)).
  - intros n Hn. unfold res, take_confirmation.
    rewrite (lookup_fold_insert EvictedPod (λ r, r)) by by rewrite Hperm.
    unfold time_out. by rewrite (lookup_fold_insert PodName (λ pod, mkEvictionResult (PodName pod) true None)).
  - intros Herr Hnd pod Hpod.
    assert (∃ r, r ∈ rf.*1 ∧ EvictedPod r = PodName pod ∧
      (WasEvictionSuccessful r = true → removed env pod maxTermination)) as (r & Hr & Hrn & Hrs).
    { destruct (list_elem_of_lookup_1 _ _ Hpod) as [i Hi].
      destruct (Forall2_lookup_l _ _ _ _ _ Hf Hi) as (r & Hri & Hn & _ & Hs).
      exists r.1. split; [|done]. apply list_elem_of_fmap. exists r. split; [done|]. by eapply list_elem_of_lookup_2. }
    assert (res !! PodName pod = Some r) as Hlook.
    { rewrite <- Hrn. unfold res, take_confirmation.
      apply (lookup_fold_insert_in EvictedPod (λ r, r)); [by rewrite Hperm|by rewrite receive_perm]. }
    unfold result_of. rewrite Hlook. simpl.
    assert (WasEvictionSuccessful r = true) as Hsucc; [|by split; [|apply Hrs]].
    destruct (WasEvictionSuccessful r) eqn:Hw; [done|]. exfalso.
    case_bool_decide as Hnil; [|done]. apply fmap_nil_inv in Hnil.
    assert (r ∈ filter (λ r, WasEvictionSuccessful r = false) (result_of res <$> full)) as Hin.
    { apply list_elem_of_filter. split; [done|]. apply list_elem_of_fmap. exists pod. split; [|done].
      unfold result_of. by rewrite Hlook. }
    rewrite Hnil in Hin. by apply not_elem_of_nil in Hin.
Qed.

Lemma wait_loop_spec env pods limit : on_time env → ∀ fuel i,
  Z.of_nat i <= Z.max 0 (limit `div` (5 * 10 ^ 9)) + 1 →
  (Z.to_nat (limit `div` (5 * 10 ^ 9)) + 2 <= fuel + i)%nat →
  ∃ b, wait_loop fuel env node pods limit i = Some b ∧ (b = true → all_gone env pods).
Proof using e.
  intros Hon. induction fuel as [|fuel IH]; intros i Hi Hfuel; [lia|]. simpl.
  destruct (poll_clock env i <? limit) eqn:Hlt; [|by eexists].
  destruct (forallb _ pods) eqn:Hall.
  - eexists. split; [done|]. intros _. exists i. apply Forall_forall. intros pod Hpod.
    rewrite forallb_forall in Hall. apply Hall. by apply list_elem_of_In.
  - pose proof (poll_time env Hon i). assert (Z.of_nat i <= limit `div` (5 * 10 ^ 9)).
    { apply Z.div_le_lower_bound; lia. }
    apply IH; lia.
Qed.

Lemma waitPodsToDisappear_spec env pods results maxTermination : on_time env →
  ∃ results' err, waitPodsToDisappear e env node pods results maxTermination = Some (results', err) ∧
    (∀ n, n ∉ PodName <$> pods → results' !! n = results !! n) ∧
    (err = None → results' = results ∧ all_gone env pods).
Proof using e.
  intros Hon. unfold waitPodsToDisappear.
  destruct (wait_loop_spec env pods (wait_limit e maxTermination) Hon (wait_fuel e maxTermination) 0)
    as (b & -> & Hb); [lia|unfold wait_fuel; lia|]. simpl. destruct b.
  - eexists _, _. split; [done|]. split; [done|]. intros _. split; [done|by apply Hb].
  - eexists _, _. split; [done|]. split; [|done]. intros n Hn. unfold final_check.
    by rewrite (lookup_fold_insert PodName (λ pod, match final_answer env pod with
      | Ok None => _ | Ok (Some podReturned) => _ | Err err => _ end)).
Qed.

Lemma drain_group_spec env g results : on_time env → 0 < EvictionRetryTime e →
  ∃ results' err events, drain_group e ctx env node force g results = Some (results', err, events) ∧
    (∀ ev, ev ∈ events → event_pod ev ∈ FullEvictionPods g ++ BestEffortEvictionPods g) ∧
    (∀ n, n ∉ PodName <$> FullEvictionPods g → results' !! n = results !! n) ∧
    (err = None → all_gone env (FullEvictionPods g) ∧
       (NoDup (PodName <$> FullEvictionPods g) → ∀ pod, pod ∈ FullEvictionPods g →
          WasEvictionSuccessful (result_of results' pod) = true ∧
          removed env pod (ShutdownGracePeriodSeconds (group_period g)))).
Proof using e.
  intros Hon Hpos. unfold drain_group.
  destruct (_ && _) eqn:Hempty.
  { apply andb_true_iff in Hempty as [Hempty%bool_decide_eq_true _]. rewrite Hempty.
    eexists _, _, _. split; [done|]. split; [intros ev []%not_elem_of_nil|]. split; [done|].
    intros _. split; [by exists 0%nat|]. intros _ pod []%not_elem_of_nil. }
  destruct (initiateEviction_spec env (FullEvictionPods g) (BestEffortEvictionPods g) results
    (ShutdownGracePeriodSeconds (group_period g)) Hon Hpos) as (r1 & err & events & -> & Hev & Hout & Hok).
  simpl. destruct err as [err|]; [by eexists _, _, _|].
  destruct (waitPodsToDisappear_spec env (FullEvictionPods g) r1 (ShutdownGracePeriodSeconds (group_period g)) Hon)
    as (r2 & err & -> & Hout2 & Hok2). simpl.
  eexists _, _, _. split; [done|]. split; [done|]. split.
  { intros n Hn. by rewrite Hout2, Hout. }
  intros Herr. destruct (Hok2 Herr) as [-> Hgone]. split; [done|]. by apply Hok.
Qed.


(** ** The whole drain *)

(** The group of number [k] was drained: the drain went on after it. *)
Definition drained (err : option AutoscalerError) (events : list (list drain_event)) (k : nat) : Prop :=
  err = None ∨ (k + 1 < length events)%nat.

Lemma pod_of_group gs n g pod : gs !! n = Some g → pod ∈ FullEvictionPods g → pod ∈ mjoin (FullEvictionPods <$> gs).
Proof.
  intros Hn Hpod. apply list_elem_of_join. exists (FullEvictionPods g). split; [done|].
  apply list_elem_of_fmap_2. by eapply list_elem_of_lookup_2.
Qed.

Lemma name_of_group gs n g pod : gs !! n = Some g → pod ∈ FullEvictionPods g →
  PodName pod ∈ PodName <$> mjoin (FullEvictionPods <$> gs).
Proof. intros Hn Hpod. apply list_elem_of_fmap_2. by eapply pod_of_group. Qed.

Lemma drain_groups_spec envs : (∀ k, on_time (envs k)) → 0 < EvictionRetryTime e → ∀ gs k results,
  ∃ results' err events, drain_groups e ctx envs node force gs k results = Some (results', err, events) ∧
    (err = None → length events = length gs) ∧
    (∀ n l ev, events !! n = Some l → ev ∈ l →
       ∃ g, gs !! n = Some g ∧ event_pod ev ∈ FullEvictionPods g ++ BestEffortEvictionPods g) ∧
    (∀ n g, gs !! n = Some g → drained err events n → all_gone (envs (k + n)%nat) (FullEvictionPods g)) ∧
    (∀ name, name ∉ PodName <$> mjoin (FullEvictionPods <$> gs) → results' !! name = results !! name) ∧
    (NoDup (PodName <$> mjoin (FullEvictionPods <$> gs)) → ∀ n g pod, gs !! n = Some g → pod ∈ FullEvictionPods g →
       (drained err events n → WasEvictionSuccessful (result_of results' pod) = true ∧
          removed (envs (k + n)%nat) pod (ShutdownGracePeriodSeconds (group_period g))) ∧
       ((length events <= n)%nat → results' !! PodName pod = results !! PodName pod)).
Proof using e.
  intros Hon Hpos. induction gs as [|g gs IH]; intros k results.
  { exists results, None, []. split; [done|]. split; [done|]. split; [done|]. split; [done|]. split; [done|].
    intros _ n g pod Hn. by rewrite lookup_nil in Hn. }
  cbn [drain_groups].
  destruct (drain_group_spec (envs k) g results (Hon k) Hpos) as (r1 & err & events & -> & Hev & Hout & Hok).
  csimpl. rewrite fmap_app.
  destruct err as [err|].
  - exists r1, (Some err), [events]. split; [done|]. split; [done|]. split; [|split; [|split]].
    + intros [|n] l ev; simpl; [|by rewrite lookup_nil]. intros [= <-] Hin. exists g. split; [done|]. by apply Hev.
    + intros n g' _ [?|Hlt]; [done|]. simpl in Hlt. lia.
    + intros name. rewrite elem_of_app. intros Hn. apply Hout. tauto.
    + rewrite NoDup_app. intros (_ & Hdisj & _) n g' pod Hn Hpod. split.
      { intros [?|Hlt]; [done|]. simpl in Hlt. lia. }
      simpl. intros Hlen. destruct n as [|n]; [lia|]. apply Hout. simpl in Hn. intros Hin.
      apply (Hdisj (PodName pod) Hin). by eapply name_of_group.
  - destruct (IH (Datatypes.S k) r1) as (r2 & err & rest & -> & Hlen & Hevs & Hgone & Hout2 & Hok2). simpl.
    destruct (Hok eq_refl) as [Hg Hall].
    exists r2, err, (events :: rest). split; [done|]. split; [|split; [|split; [|split]]].
    + intros He. simpl. by rewrite (Hlen He).
    + intros [|n] l ev; simpl; [|apply Hevs]. intros [= <-] Hin. exists g. split; [done|]. by apply Hev.
    + intros [|n] g'; simpl.
      * intros [= <-] _. by rewrite Nat.add_0_r.
      * intros Hn Hd. rewrite Nat.add_succ_r. apply Hgone; [done|]. destruct Hd as [?|Hd]; [by left|right].
        simpl in Hd. lia.
    + intros name. rewrite elem_of_app. intros Hn. rewrite Hout2 by tauto. apply Hout. tauto.
    + rewrite NoDup_app. intros (Hnd1 & Hdisj & Hnd2) [|n] g' pod; simpl.
      * intros [= <-] Hpod. assert (r2 !! PodName pod = r1 !! PodName pod) as Hsame.
        { apply Hout2. apply Hdisj. by apply list_elem_of_fmap_2. }
        split; [|lia]. intros _. rewrite Nat.add_0_r. unfold result_of. rewrite Hsame. by apply Hall.
      * intros Hn Hpod. destruct (Hok2 Hnd2 n g' pod Hn Hpod) as [H1 H2]. split.
        { intros Hd. rewrite Nat.add_succ_r. apply H1. destruct Hd as [?|Hd]; [by left|right]. simpl in Hd. lia. }
        intros Hle. rewrite H2 by lia. apply Hout. intros Hin.
        apply (Hdisj (PodName pod) Hin). by eapply name_of_group.
Qed.


Lemma not_attempted_result pods pod : NoDup (PodName <$> pods) → pod ∈ pods →
  WasEvictionSuccessful (result_of (foldl not_attempted ∅ pods) pod) = false.
Proof.
  intros Hnd Hpod. unfold result_of, not_attempted.
  rewrite (lookup_fold_insert_in PodName (λ pod, mkEvictionResult (PodName pod) false
      (Some ("Eviction did not attempted for the pod " +:+ PodName pod +:+
             " because some of the previous evictions failed")))) by done.
  done.
Qed.

(** The group of a pod, found again in the groups. *)
Lemma placed_lookup ps full best gs pod : ascending ps → ps ≠ [] → placed ps full best gs → pod ∈ full →
  ∃ g, gs !! Z.to_nat (pod_group ps pod) = Some g ∧ pod ∈ FullEvictionPods g ∧
    ps !! Z.to_nat (pod_group ps pod) = Some (group_period g).
Proof.
  intros Hs Hne [Hp Hg Hf Hb] Hpod. rewrite <- Hf in Hpod.
  apply list_elem_of_join in Hpod as (l & Hpod & Hl). apply list_elem_of_fmap in Hl as (g & -> & Hl).
  apply list_elem_of_lookup in Hl as [k Hk].
  rewrite (Hg k g pod Hk (or_introl Hpod)), Nat2Z.id. exists g. split; [done|]. split; [done|].
  rewrite <- Hp, list_lookup_fmap, Hk. done.
Qed.

(** C20. A drain always returns, and it follows the priorities. Whatever it did
    to a pod of one group, it did before touching a pod of a higher one. When it
    went on after a group (in particular when it reports no error), every pod it
    must evict was seen gone from the node, and, if no two of them share a
    name, its result is a success and its eviction was accepted, the pod was not
    there any more, or, in a forced drain, it was deleted. The pods of the
    groups after a failure are reported as failed. *)
Theorem drain_by_priority envs full best :
  let ps := shutdownGracePeriodByPodPriority e in
  ascending ps → ps ≠ [] → 0 < EvictionRetryTime e → (∀ k, on_time (envs k)) →
  ∃ results err events,
    drainNodeWithPodsBasedOnPodPriority e ctx envs node full best force = Some (DrainReturns results err events) ∧
    (∀ i j l1 l2 ev1 ev2, (i < j)%nat → events !! i = Some l1 → events !! j = Some l2 → ev1 ∈ l1 → ev2 ∈ l2 →
       event_pod ev1 ∈ full ++ best ∧ event_pod ev2 ∈ full ++ best ∧
       pod_priority (event_pod ev1) <= pod_priority (event_pod ev2)) ∧
    ∀ pod, pod ∈ full →
      let k := Z.to_nat (pod_group ps pod) in
      (drained err events k → ∃ i, pod_gone node (poll_answer (envs k) i pod) = true) ∧
      (NoDup (PodName <$> full) →
        (drained err events k → WasEvictionSuccessful (result_of results pod) = true ∧
           ∃ period, ps !! k = Some period ∧ removed (envs k) pod (ShutdownGracePeriodSeconds period)) ∧
        ((length events <= k)%nat → WasEvictionSuccessful (result_of results pod) = false)).
Proof using e.
  intros ps Hs Hne Hpos Hon. unfold drainNodeWithPodsBasedOnPodPriority. fold ps.
  destruct (groupByPriority_placed ps full best Hs Hne) as (gs & -> & Hgs).
  set (r0 := foldl not_attempted ∅ _).
  destruct (drain_groups_spec envs Hon Hpos gs 0 r0) as (r & err & events & -> & _ & Hev & Hgone & _ & Hres).
  simpl. exists r, err, events. split; [done|]. split.
  - intros i j l1 l2 ev1 ev2 Hij H1 H2 Hin1 Hin2.
    destruct (Hev _ _ _ H1 Hin1) as (g1 & Hg1 & Hp1). destruct (Hev _ _ _ H2 Hin2) as (g2 & Hg2 & Hp2).
    assert (∀ n g pod, gs !! n = Some g → pod ∈ FullEvictionPods g ++ BestEffortEvictionPods g → pod ∈ full ++ best) as Hin.
    { intros n g pod Hn. rewrite !elem_of_app. intros [Hp|Hp]; [left|right].
      - rewrite <- (placed_full _ _ _ _ Hgs). by eapply pod_of_group.
      - rewrite <- (placed_best _ _ _ _ Hgs). apply list_elem_of_join. exists (BestEffortEvictionPods g).
        split; [done|]. apply list_elem_of_fmap_2. by eapply list_elem_of_lookup_2. }
    split; [by apply (Hin _ _ _ Hg1)|]. split; [by apply (Hin _ _ _ Hg2)|]. apply (pod_group_monotone ps); [done|done|].
    rewrite elem_of_app in Hp1, Hp2.
    rewrite (placed_group _ _ _ _ Hgs i g1), (placed_group _ _ _ _ Hgs j g2) by done. lia.
  - intros pod Hpod. set (k := Z.to_nat (pod_group ps pod)). destruct (placed_lookup ps full best gs pod Hs Hne Hgs Hpod) as (g & Hg & Hin & Hperiod).
    split.
    { intros Hd. destruct (Hgone k g Hg Hd) as [i Hi]. exists i. by apply (Forall_elem Hi). }
    intros Hnd. assert (NoDup (PodName <$> mjoin (FullEvictionPods <$> gs))) as Hnd'.
    { by rewrite (placed_full _ _ _ _ Hgs). }
    destruct (Hres Hnd' k g pod Hg Hin) as [Hdone Hlater]. split.
    + intros Hd. destruct (Hdone Hd) as [? ?]. split; [done|]. by exists (group_period g).
    + intros Hlen. unfold result_of. rewrite Hlater by done. apply not_attempted_result; [done|]. by eapply pod_of_group.
Qed.
End drain.

(** ** Soft taints *)

Section soft_proofs.
Context {W : Type} `{!NodeClient W}.
Implicit Types (w : W) (b : budgetTracker).

(** The nodes the loops mean to update. *)
Definition soft_clean (node : Node) : bool := negb (HasToBeDeletedTaint node) && HasDeletionCandidateTaint node.
Definition soft_mark (node : Node) : bool := negb (HasToBeDeletedTaint node) && negb (HasDeletionCandidateTaint node).

(** [n] nodes considered so far: each was updated or skipped, and the calls
    stay within the budget [total]. *)
Definition soft_inv (total : Z) (n : nat) (st : @soft_state W) : Prop :=
  let '(_, b, errors) := st in
  let updates := total - apiCallBudget b in
  0 <= updates <= Z.max 0 total ∧ updates + skippedNodes b = Z.of_nat n ∧ ⟪errors⟫ <= updates.

Lemma processWithinBudget_ok total n (update : W → option (W * result update_error Node)) (st : soft_state) :
  (∀ w, is_Some (update w)) → soft_inv total n st →
  ∃ st', processWithinBudget update st = Some st' ∧ soft_inv total (Datatypes.S n) st'.
Proof.
  intros Hu. destruct st as [[w b] errors]. simpl. intros (Hb & Hn & He).
  destruct ((apiCallBudget b <=? 0) || (timeBudget b <=? api_Now w - startTime b)) eqn:Hbudget.
  - eexists. split; [done|]. simpl. lia.
  - destruct (Hu w) as [[w' r] ->]. eexists. split; [done|]. simpl.
    apply orb_false_iff in Hbudget as [Hcalls _].
    destruct r; rewrite ?length_app; simpl; lia.
Qed.

Lemma soft_loop_ok total (step : option soft_state → Node → option soft_state) (p : Node → bool)
    (update : Node → W → option (W * result update_error Node)) :
  (∀ st node, step (Some st) node = if p node then processWithinBudget (update node) st else Some st) →
  (∀ node w, is_Some (update node w)) →
  ∀ nodes n st, soft_inv total n st →
  ∃ st', foldl step (Some st) nodes = Some st' ∧
    soft_inv total (n + length (filter (λ node, p node = true) nodes)) st'.
Proof.
  intros Hstep Hu. induction nodes as [|node nodes IH]; intros n st Hst; cbn [foldl].
  { exists st. split; [done|]. by rewrite Nat.add_0_r. }
  rewrite Hstep, filter_cons. destruct (p node) eqn:Hp; cbn.
  - destruct (processWithinBudget_ok total n (update node) st (Hu node) Hst) as (st' & -> & Hst').
    rewrite decide_True by done. simpl. rewrite Nat.add_succ_r, <- Nat.add_succ_l. by apply IH.
  - rewrite decide_False by done. by apply IH.
Qed.

(** Updating the soft taints always ends, makes no more changes to nodes
    than the budget of API calls allows, counts every other node as skipped,
    and reports at most one error a change. *)
Theorem soft_taints_within_budget w count time uneededNodes neededNodes :
  ∃ w' b errors, UpdateSoftDeletionTaints w count time uneededNodes neededNodes = Some (w', b, errors) ∧
    let updates := count - apiCallBudget b in
    0 <= updates <= Z.max 0 count ∧ ⟪errors⟫ <= updates ∧
    updates + skippedNodes b = ⟪filter (λ node, soft_clean node = true) neededNodes⟫ +
                               ⟪filter (λ node, soft_mark node = true) uneededNodes⟫.
Proof.
  unfold UpdateSoftDeletionTaints. cbv zeta.
  destruct (soft_loop_ok count soft_needed_step soft_clean (λ node w, CleanDeletionCandidate w node)) with
    (nodes := neededNodes) (n := O) (st := (w, mkBudgetTracker count (api_Now w) time 0, @nil update_error) : @soft_state W)
    as (st1 & H1eq & H1); [| |simpl; lia|].
  - intros st node. unfold soft_needed_step, soft_clean. cbn. destruct (HasToBeDeletedTaint node); [done|].
    by destruct (HasDeletionCandidateTaint node).
  - intros node w0. apply rounds_enough.
  - setoid_rewrite H1eq.
    destruct (soft_loop_ok count soft_unneeded_step soft_mark (λ node w, MarkDeletionCandidate w node)) with
      (nodes := uneededNodes) (n := (0 + length (filter (λ node, soft_clean node = true) neededNodes))%nat) (st := st1)
      as ([[w2 b2] errors] & -> & H2).
    + intros st node. unfold soft_unneeded_step, soft_mark. cbn. destruct (HasToBeDeletedTaint node); [done|].
      by destruct (HasDeletionCandidateTaint node).
    + intros node w0. apply rounds_enough.
    + done.
    + exists w2, b2, errors. split; [done|]. simpl in H2. cbv zeta. lia.
Qed.
End soft_proofs.

(** A node with two pods of different priorities. *)
Module EvictionExample.
#[local] Existing Instance demo_kubelib.

Definition prio_pod (ns name : string) (priority : Z) : Pod :=
  mkPod ns name name ∅ ∅ [] None None None RestartPolicyAlways PodRunning [] [] [] (Some priority) "" "n1" "default-scheduler" None.
Definition low : Pod := prio_pod "a" "low" (-5).
Definition high : Pod := prio_pod "a" "high" 2000000.
Definition n1 : Node := named_node "n1".

Definition evictor : Evictor :=
  NewEvictor true [mkGracePeriod 1000000 30; mkGracePeriod 0 60] false.
Definition options : EvictionOptions := mkEvictionOptions (120 * 10 ^ 9) true false.

(** Evictions are accepted at the third attempt, and pods are gone ten seconds
    after that; [stubborn] pods are never evicted. *)
Definition demo_env (stubborn : Pod → bool) : group_env := {|
  initiated_at := 0;
  evict_answer pod _ i :=
    if stubborn pod || (i <? 2)%nat then Some (mkPodError false "too many requests") else None;
  retry_clock _ i := (Z.of_nat i + 1) * DefaultEvictionRetryTime;
  delete_answer _ := None;
  receive l := l;
  receive_perm _ := reflexivity _;
  poll_clock i := Z.of_nat i * (5 * 10 ^ 9);
  poll_answer i pod := if stubborn pod || (i <? 2)%nat then Ok (Some pod) else Err (mkPodError true "not found");
  final_answer pod := if stubborn pod then Ok (Some pod) else Err (mkPodError true "not found")
|}.

Lemma demo_on_time stubborn : on_time evictor (demo_env stubborn).
Proof. split; intros; simpl; unfold DefaultEvictionRetryTime; lia. Qed.

Definition outcome_of (r : option drain_outcome) : option (list (string * bool) * option string * list (list string)) :=
  match r with
  | Some (DrainReturns results err events) =>
      Some (prod_map id WasEvictionSuccessful <$> (map_to_list results : list (string * PodEvictionResult)), errorType <$> err,
            (fmap (M:=list) (λ ev, PodName (event_pod ev))) <$> events)
  | _ => None
  end.

(** The low priority first. *)
Example both_evicted :
  outcome_of (DrainNode evictor options (λ _, demo_env (λ _, false)) n1 [high; low]) =
  Some ([("low", true); ("high", true)], None, [["low"; "low"]; ["high"; "high"]]).
Proof. by vm_compute. Qed.

(** A failure leaves the higher priority alone. *)
Example low_fails :
  outcome_of (DrainNode evictor options (λ _, demo_env (λ pod, bool_decide (pod = low))) n1 [high; low]) =
  Some ([("low", false); ("high", false)], Some ApiCallError, [["low"; "low"]]).
Proof. by vm_compute. Qed.

Lemma drain_by_priority_witness :
  period_priority (shutdownGracePeriodByPodPriority evictor) 0 = 0 ∧
  ∃ results err events,
    drainNodeWithPodsBasedOnPodPriority evictor options (λ _, demo_env (λ _, false)) n1 [high; low] [] false =
      Some (DrainReturns results err events) ∧
    length events = 2%nat.
Proof.
  split; [by vm_compute|].
  destruct (drain_by_priority evictor options n1 false (λ _, demo_env (λ _, false)) [high; low] [])
    as (results & err & events & Heq & _ & _).
  - repeat constructor; vm_compute; discriminate.
  - vm_compute. discriminate.
  - done.
  - intros k. apply demo_on_time.
  - exists results, err, events. split; [exact Heq|].
    vm_compute in Heq. injection Heq as _ _ <-. reflexivity.
Defined.

(** The results are kept by the name of the pod alone: of two pods with one
    name in different namespaces, the confirmation that comes last stands for
    both. The eviction of the first one failed here and nothing tells: the
    group is waited for as if it had been accepted. *)
Definition twin_a : Pod := prio_pod "a" "web" 0.
Definition twin_b : Pod := prio_pod "b" "web" 0.

Example same_name_masks_failure :
  (λ r, r.1.2) <$>
  initiateEviction evictor options (demo_env (λ pod, bool_decide (pod = twin_a))) n1 [twin_a; twin_b] [] ∅ 30 false =
  Some None.
Proof. by vm_compute. Qed.

(** A deletion by force of a pod that is gone meanwhile counts as a failure;
    its eviction would have been a success. *)
Definition vanishing : group_env := {|
  initiated_at := 0;
  evict_answer _ _ _ := Some (mkPodError false "too many requests");
  retry_clock _ i := (Z.of_nat i + 1) * DefaultEvictionRetryTime;
  delete_answer _ := Some (mkPodError true "not found");
  receive l := l;
  receive_perm _ := reflexivity _;
  poll_clock i := Z.of_nat i * (5 * 10 ^ 9);
  poll_answer _ _ := Err (mkPodError true "not found");
  final_answer _ := Err (mkPodError true "not found")
|}.

Example force_delete_not_found :
  (λ r, WasEvictionSuccessful r.1) <$> evictPod evictor options vanishing low (120 * 10 ^ 9) 30 true true = Some false.
Proof. by vm_compute. Qed.
End EvictionExample.
