(* ===== verification/MainLoop.v ===== *)
(** The main loop (src/pkg/core/static_autoscaler.go): one iteration observes
    the cluster, repairs it, scales it up and scales it down. The planner, the
    actuator, the orchestrator and the processors are interfaces in the code,
    and here the fields of a record; the cluster state registry, the taints, the
    repairs, the arrangement of the pods and the snapshot are the models of
    their own files. *)
From stdpp Require Import prelude gmap strings pretty list numbers fin_maps.
From S2P Require Import Prelude Errors Api Drain Taints Framework ClusterSnapshot Balancing ClusterState.
From S2P Require Import ScaleUpExecutor ScaleUpPods ScaleUpGroups Orchestrator PodLists LoopRepairs.
From S2P Require SnapshotSpec DeletionTracker Unneeded Eviction.
Local Open Scope Z_scope.
Local Open Scope ca_scope.

(** ** The status of a scale-down (src/pkg/core/scaledown/status/status.go) *)

Inductive ScaleDownResult : Type :=
| ScaleDownError | ScaleDownNoNodeDeleted | ScaleDownNodeDeleteStarted | ScaleDownNotTried
| ScaleDownInCooldown | ScaleDownInProgress | ScaleDownNoCandidates.
#[export] Instance ScaleDownResult_eq_dec : EqDecision ScaleDownResult.
Proof. solve_decision. Defined.

(** An unremovable node as the planner reports it, and as the status does. *)
Record PlannerUnremovable (Reason : Type) : Type := mkPlannerUnremovable {
  pu_node : Node; pu_reason : Reason
}.
Arguments mkPlannerUnremovable {Reason} pu_node pu_reason.
Arguments pu_node {Reason} _.
Arguments pu_reason {Reason} _.

Record UnremovableInfo (Reason Util : Type) : Type := mkUnremovableInfo {
  ui_node : Node; ui_group : NodeGroup; ui_util : option Util; ui_reason : Reason
}.
Arguments mkUnremovableInfo {Reason Util} ui_node ui_group ui_util ui_reason.

Record ScaleDownStatus (Reason Util ScaledDown : Type) : Type := mkScaleDownStatus {
  SdResult : ScaleDownResult;
  ScaledDownNodes : list ScaledDown;
  UnremovableNodes : list (UnremovableInfo Reason Util);
  RemovedNodeGroups : list NodeGroup;
  NodeDeleteResults : gmap string DeletionTracker.NodeDeleteResult;
  NodeDeleteResultsAsOf : Z
}.
Arguments mkScaleDownStatus {Reason Util ScaledDown} _ _ _ _ _ _.
Arguments SdResult {Reason Util ScaledDown} _.
Arguments ScaledDownNodes {Reason Util ScaledDown} _.
Arguments UnremovableNodes {Reason Util ScaledDown} _.
Arguments RemovedNodeGroups {Reason Util ScaledDown} _.
Arguments NodeDeleteResults {Reason Util ScaledDown} _.
Arguments NodeDeleteResultsAsOf {Reason Util ScaledDown} _.

(** ** Lists of nodes *)

Definition subtractNodesByName (nodes : list Node) (namesToRemove : list string) : list Node :=
  let removeSet : gset string := foldl (λ s name, {[name]} ∪ s) ∅ namesToRemove in
  foldl (λ c n, if bool_decide (Name n ∈ removeSet) then c else c ++ [n]) [] nodes.

Definition nodeNames (ns : list Node) : list string := Name <$> ns.
Definition subtractNodes (a b : list Node) : list Node := subtractNodesByName a (nodeNames b).

Definition filterNodesByName (nodes : list Node) (names : list string) : list Node :=
  let filterSet : gset string := foldl (λ s name, {[name]} ∪ s) ∅ names in
  foldl (λ c n, if bool_decide (Name n ∈ filterSet) then c ++ [n] else c) [] nodes.

Definition intersectNodes (a b : list Node) : list Node := filterNodesByName a (nodeNames b).

Definition retrieveNodes (candidates : list Unneeded.UnneededNode) : list Node :=
  foldl (λ nodes c, nodes ++ [Unneeded.UnNode c]) [] candidates.

Definition filterNodesFromSelectedGroups (env : ClusterEnv) (nodes : list Node) : list Node :=
  foldl (λ filtered n, match EnvNodeGroupForNode env n with
                       | Ok (Some _) => filtered ++ [n]
                       | _ => filtered
                       end) [] nodes.

(** [strings.HasSuffix]. *)
Definition HasSuffix (s suffix : string) : bool :=
  (String.length suffix <=? String.length s)%nat &&
  bool_decide (String.substring (String.length s - String.length suffix) (String.length suffix) s = suffix).

Definition gracefulDegradationCycle : Z := 4.

(** [SetUnremovableNodesInfo]: nodes without a group are left out. *)
Definition SetUnremovableNodesInfo {Reason Util ScaledDown} (env : ClusterEnv) (s : ScaleDownStatus Reason Util ScaledDown)
    (unremovableNodes : list (PlannerUnremovable Reason)) (nodeUtilizationMap : gmap string Util)
    : ScaleDownStatus Reason Util ScaledDown :=
  mkScaleDownStatus (SdResult s) (ScaledDownNodes s)
    (foldl (λ l u, match EnvNodeGroupForNode env (pu_node u) with
                   | Ok (Some nodeGroup) =>
                       l ++ [mkUnremovableInfo (pu_node u) nodeGroup (nodeUtilizationMap !! Name (pu_node u)) (pu_reason u)]
                   | _ => l
                   end) [] unremovableNodes)
    (RemovedNodeGroups s) (NodeDeleteResults s) (NodeDeleteResultsAsOf s).

Section main_loop.
Context `{GR : GoRange} {S Slice CSI T W : Type} `{SN : SchedNodeInfo S} `{CS : !ClusterSnapshot S Slice CSI T}
  `{NC : !NodeClient W}.
(** The snapshots of claims and of CSI nodes, the daemon sets and the budgets
    are only handed on; so are reasons, utilizations and nodes scaled down, and
    what is known of ongoing deletions, of which only the names of the nodes
    being drained are read. *)
Context {Claims CsiNodes DaemonSets Pdbs Reason Util ScaledDown Ongoing : Type}.
Context (PodRequests : Pod → gmap string Z) (ParseDuration : string → option Z) (quote : string → string)
  (snapshot_text : snapshot_error → string).
Abbreviation NI := (NodeInfo S Slice CSI).
Abbreviation SdStatus := (ScaleDownStatus Reason Util ScaledDown).

(** ** Options and components *)

Record loop_options : Type := mkLoopOptions {
  AsyncNodeGroupsEnabled : bool;
  CordonNodeBeforeTerminate : bool;
  MaxBulkSoftTaintCount : Z;
  MaxBulkSoftTaintTime : Z;
  NodeDeletionCandidateTTL : Z;
  BypassedSchedulers : gset string;
  AllowedSchedulers : gset string;
  ExpendablePodsPriorityCutoff : Z;
  LoopMaxNodesTotal : Z;
  NewPodScaleUpDelay : Z;
  LoopGracefulDegradation : bool;
  SalvoScaleUp : bool;
  SalvoScaleUpBudget : Z;
  EnforceNodeGroupMinSize : bool;
  ScaleDownEnabled : bool;
  ScaleDownDelayTypeLocal : bool;
  ScaleDownDelayAfterAdd : Z;
  ScaleDownDelayAfterDelete : Z;
  ScaleDownDelayAfterFailure : Z;
  WriteStatusConfigMap : bool;
  LoopDefaults : NodeGroupAutoscalingOptions;
  ForceLongUnregistered : bool;
  ForceFailed : bool;
  LoopTaintConfig : TaintConfig;
  LoopOkTotalUnreadyCount : Z;
  LoopUnreadyPercentage : Z → Z → bool  (* more than MaxTotalUnreadyPercentage *)
}.

(** What the iteration did, for the record: the repairs, each call of the
    orchestrator, the planner and the actuator, and the final report. *)
Inductive loop_event : Type :=
| EvUnregistered (calls : list provider_call)
| EvUnhealthy
| EvFailedNodes (calls : list provider_call)
| EvSizes (calls : list provider_call)
| EvScaleUp (pods : list Pod) (status : ScaleUpStatus) (err : option AutoscalerError)
| EvPlan (err : option AutoscalerError)
| EvStartDeletion (empty needDrain : list Node) (result : ScaleDownResult) (err : option AutoscalerError)
| EvMinSize (status : ScaleUpStatus) (err : option AutoscalerError)
| EvReport (up : ScaleUpStatus) (down : SdStatus).

(** The autoscaler and everything around it: the world, the snapshot, the
    registry, the iteration's copy of the template node infos (which a scale-up
    extends), the times, the flags, the loops of graceful degradation in a row,
    the variables of [RunOnce] its deferred function reads, and the record. *)
Record autoscaler : Type := mkAutoscaler {
  a_world : W; a_snap : T; a_csr : ClusterStateRegistry; a_templates : gmap string NI;
  lastScaleUpTime : Z; lastScaleDownDeleteTime : Z; lastScaleDownFailTime : Z;
  initialized : bool; disableScaleDownForLoop : bool; a_loops : Z;
  scaleUpStatus : ScaleUpStatus; scaleUpTriggered : bool; scaleDownStatus : SdStatus;
  a_log : list loop_event
}.
Implicit Types (a : autoscaler) (currentTime : Z).

(** What the loop calls: each from what it may read and change to what it
    leaves and its answer. *)
Record components : Type := mkComponents {
  (* listers and providers *)
  AllNodes_List : W → result go_error (list Node);
  ReadyNodes_List : W → result go_error (list Node);
  AllPods_List : W → result go_error (list Pod);
  DaemonSets_List : W → result go_error DaemonSets;
  Pdb_List : W → result go_error Pdbs;
  DraProvider_Snapshot : option (W → result go_error Claims);
  CsiProvider_Snapshot : option (W → result go_error CsiNodes);
  (* processors *)
  ClearFakePods : W → W;
  FilterOutNodesWithUnreadyResources : list Node → list Node → option Claims → option CsiNodes → list Node * list Node;
  ShouldAbort : W → list Node → list Node → Z → W * (bool * option AutoscalerError);
  LoopStart_Refresh : W → W;
  PodList_Process : W → T → Z → list Pod → (W * T * Z) * result go_error (list Pod);
  ShouldForceScaleUp : list Pod → bool;
  ScaleUpStatus_Process : option (W → ScaleUpStatus → W * ScaleUpStatus);
  ScaleDownStatus_Process : option (W → SdStatus → W);
  AutoscalingStatus_Process : option (W → ClusterStateRegistry → Z → W);
  WriteStatus : W → ClusterStateRegistry → Z → W;
  GetScaleDownCandidates : option (W → list Node → result AutoscalerError (list Node));
  GetPodDestinationCandidates : W → list Node → result AutoscalerError (list Node);
  Candidates_Update : W → ClusterStateRegistry → list Unneeded.UnneededNode → Z → W * ClusterStateRegistry;
  RemoveUnneededNodeGroups : W → W * list NodeGroup;
  (* the cloud provider, its caches, and the registry's notifier *)
  CloudProvider_Refresh : W → W * option go_error;
  World_env : W → ClusterEnv;
  CloudInstances : W → result cp_error (gmap string (list CloudInstance));
  Notify : W → list (NodeGroup * Z) → W;
  Cloud_DeleteNodes : W → NodeGroup → list Node → option cp_error;
  Cloud_ForceDeleteNodes : W → NodeGroup → list Node → option cp_error;
  Cloud_DecreaseTargetSize : W → NodeGroup → Z → option cp_error;
  Cloud_Apply : W → list provider_call → W;
  Clock_of : W → NodeGroup → Z;
  (* the snapshot, the budgets, the templates *)
  Snapshot_SetClusterState : T → list Node → list Pod → option Claims → option CsiNodes → T * option go_error;
  ListNodeInfos : T → T * result go_error (list NI);
  Pdb_SetPdbs : W → option Pdbs → W * option go_error;  (* [None] clears them *)
  Templates_Recompute : W → list Node → DaemonSets → Z → W * result AutoscalerError (gmap string NI);
  SanitizedNodeInfo : W → NI → string → W * result go_error NI;
  mark_upcoming : NI → NI;  (* sets the annotation of upcoming nodes *)
  (* the context of the iteration, and of one with a deadline *)
  Context_cancelled : W → bool;
  Deadline_passed : W → Z → bool;
  (* the orchestrator *)
  Orchestrator_ScaleUp : W → T → ClusterStateRegistry → gmap string NI → list Pod → list Node → DaemonSets →
    (W * T * ClusterStateRegistry * gmap string NI) * (ScaleUpStatus * option AutoscalerError);
  Orchestrator_MinSize : W → T → ClusterStateRegistry → gmap string NI → list Node →
    (W * T * ClusterStateRegistry * gmap string NI) * (ScaleUpStatus * option AutoscalerError);
  (* the planner and the actuator *)
  Planner_UpdateClusterState : W → T → list Node → list Node → Ongoing → Z → W * T * option AutoscalerError;
  Planner_CleanUpUnneededNodes : W → W;
  Planner_NodesToDelete : W → Z → W * (list Node * list Node);
  Planner_UnneededNodes : W → list Unneeded.UnneededNode;
  Planner_UnremovableNodes : W → list (PlannerUnremovable Reason);
  Planner_NodeUtilizationMap : W → gmap string Util;
  CheckStatus : W → Ongoing;
  DrainsInProgress : Ongoing → list string;
  Actuator_StartDeletion : W → T → list Node → list Node →
    W * T * (ScaleDownResult * list ScaledDown * option AutoscalerError);
  Actuator_DeletionResults : W → gmap string DeletionTracker.NodeDeleteResult * Z;
  Actuator_ClearResultsNotNewerThan : W → Z → W
}.

Variables (o : loop_options) (c : components).

Definition with_world a w : autoscaler :=
  mkAutoscaler w (a_snap a) (a_csr a) (a_templates a) (lastScaleUpTime a) (lastScaleDownDeleteTime a)
    (lastScaleDownFailTime a) (initialized a) (disableScaleDownForLoop a) (a_loops a) (scaleUpStatus a) (scaleUpTriggered a) (scaleDownStatus a) (a_log a).
Definition with_snap a t : autoscaler :=
  mkAutoscaler (a_world a) t (a_csr a) (a_templates a) (lastScaleUpTime a) (lastScaleDownDeleteTime a)
    (lastScaleDownFailTime a) (initialized a) (disableScaleDownForLoop a) (a_loops a) (scaleUpStatus a) (scaleUpTriggered a) (scaleDownStatus a) (a_log a).
Definition with_csr a csr : autoscaler :=
  mkAutoscaler (a_world a) (a_snap a) csr (a_templates a) (lastScaleUpTime a) (lastScaleDownDeleteTime a)
    (lastScaleDownFailTime a) (initialized a) (disableScaleDownForLoop a) (a_loops a) (scaleUpStatus a) (scaleUpTriggered a) (scaleDownStatus a) (a_log a).
Definition with_templates a m : autoscaler :=
  mkAutoscaler (a_world a) (a_snap a) (a_csr a) m (lastScaleUpTime a) (lastScaleDownDeleteTime a)
    (lastScaleDownFailTime a) (initialized a) (disableScaleDownForLoop a) (a_loops a) (scaleUpStatus a) (scaleUpTriggered a) (scaleDownStatus a) (a_log a).
Definition with_up_time a t : autoscaler :=
  mkAutoscaler (a_world a) (a_snap a) (a_csr a) (a_templates a) t (lastScaleDownDeleteTime a)
    (lastScaleDownFailTime a) (initialized a) (disableScaleDownForLoop a) (a_loops a) (scaleUpStatus a) (scaleUpTriggered a) (scaleDownStatus a) (a_log a).
Definition with_delete_time a t : autoscaler :=
  mkAutoscaler (a_world a) (a_snap a) (a_csr a) (a_templates a) (lastScaleUpTime a) t
    (lastScaleDownFailTime a) (initialized a) (disableScaleDownForLoop a) (a_loops a) (scaleUpStatus a) (scaleUpTriggered a) (scaleDownStatus a) (a_log a).
Definition with_fail_time a t : autoscaler :=
  mkAutoscaler (a_world a) (a_snap a) (a_csr a) (a_templates a) (lastScaleUpTime a) (lastScaleDownDeleteTime a)
    t (initialized a) (disableScaleDownForLoop a) (a_loops a) (scaleUpStatus a) (scaleUpTriggered a) (scaleDownStatus a) (a_log a).
Definition with_initialized a b : autoscaler :=
  mkAutoscaler (a_world a) (a_snap a) (a_csr a) (a_templates a) (lastScaleUpTime a) (lastScaleDownDeleteTime a)
    (lastScaleDownFailTime a) b (disableScaleDownForLoop a) (a_loops a) (scaleUpStatus a) (scaleUpTriggered a) (scaleDownStatus a) (a_log a).
Definition with_disabled a b : autoscaler :=
  mkAutoscaler (a_world a) (a_snap a) (a_csr a) (a_templates a) (lastScaleUpTime a) (lastScaleDownDeleteTime a)
    (lastScaleDownFailTime a) (initialized a) b (a_loops a) (scaleUpStatus a) (scaleUpTriggered a) (scaleDownStatus a) (a_log a).
Definition with_loops a n : autoscaler :=
  mkAutoscaler (a_world a) (a_snap a) (a_csr a) (a_templates a) (lastScaleUpTime a) (lastScaleDownDeleteTime a)
    (lastScaleDownFailTime a) (initialized a) (disableScaleDownForLoop a) n (scaleUpStatus a) (scaleUpTriggered a) (scaleDownStatus a) (a_log a).
Definition with_up a s : autoscaler :=
  mkAutoscaler (a_world a) (a_snap a) (a_csr a) (a_templates a) (lastScaleUpTime a) (lastScaleDownDeleteTime a)
    (lastScaleDownFailTime a) (initialized a) (disableScaleDownForLoop a) (a_loops a) s (scaleUpTriggered a) (scaleDownStatus a) (a_log a).
Definition with_triggered a b : autoscaler :=
  mkAutoscaler (a_world a) (a_snap a) (a_csr a) (a_templates a) (lastScaleUpTime a) (lastScaleDownDeleteTime a)
    (lastScaleDownFailTime a) (initialized a) (disableScaleDownForLoop a) (a_loops a) (scaleUpStatus a) b (scaleDownStatus a) (a_log a).
Definition with_down a s : autoscaler :=
  mkAutoscaler (a_world a) (a_snap a) (a_csr a) (a_templates a) (lastScaleUpTime a) (lastScaleDownDeleteTime a)
    (lastScaleDownFailTime a) (initialized a) (disableScaleDownForLoop a) (a_loops a) (scaleUpStatus a) (scaleUpTriggered a) s (a_log a).
Definition logged a ev : autoscaler :=
  mkAutoscaler (a_world a) (a_snap a) (a_csr a) (a_templates a) (lastScaleUpTime a) (lastScaleDownDeleteTime a)
    (lastScaleDownFailTime a) (initialized a) (disableScaleDownForLoop a) (a_loops a) (scaleUpStatus a) (scaleUpTriggered a) (scaleDownStatus a) (a_log a ++ [ev]).

(** ** Computations of the loop *)

(** A computation may return from [RunOnce], with an error or nil; [None] is a
    panic or a loop that does not end. *)
Inductive flow (A : Type) : Type := Next (x : A) | Return (err : option AutoscalerError).
#[global] Arguments Next {A} x.
#[global] Arguments Return {A} err.

Definition loop (A : Type) : Type := autoscaler → option (autoscaler * flow A).

Definition ret {A} (x : A) : loop A := λ a, Some (a, Next x).
Definition return_err {A} (err : option AutoscalerError) : loop A := λ a, Some (a, Return err).
Definition bind {A B} (m : loop A) (f : A → loop B) : loop B := λ a,
  match m a with
  | None => None
  | Some (a, Return err) => Some (a, Return err)
  | Some (a, Next x) => f x a
  end.

(** Reading the state, changing it, a call that does both, one that may panic,
    and a function that runs when another is done, whatever it returns. *)
Definition get {A} (f : autoscaler → A) : loop A := λ a, Some (a, Next (f a)).
Definition modify (f : autoscaler → autoscaler) : loop unit := λ a, Some (f a, Next tt).
Definition call {A} (f : autoscaler → autoscaler * A) : loop A := λ a, let '(a, x) := f a in Some (a, Next x).
Definition call_opt (f : autoscaler → option autoscaler) : loop unit := λ a, a ← f a; Some (a, Next tt).
Definition defer (d m : loop unit) : loop unit := λ a,
  match m a with
  | None => None
  | Some (a, r) => match d a with None => None | Some (a, _) => Some (a, r) end
  end.
Definition log (ev : loop_event) : loop unit := modify (λ a, logged a ev).
Definition on_world (f : W → W) : loop unit := modify (λ a, with_world a (f (a_world a))).
Definition ask {A} (f : W → A) : loop A := get (λ a, f (a_world a)).
Definition call_world {A} (f : W → W * A) : loop A := call (λ a, let '(w, x) := f (a_world a) in (with_world a w, x)).

(** [if err != nil { return f(err) }]. *)
Definition or_return {E A} (f : E → AutoscalerError) (r : result E A) : loop A :=
  match r with Ok x => ret x | Err e => return_err (Some (f e)) end.
Definition check {E} (f : E → AutoscalerError) (r : option E) : loop unit :=
  match r with None => ret tt | Some e => return_err (Some (f e)) end.

(** A loop over a list that an error ends. *)
Fixpoint for_each {E X B} (f : B → X → loop (result E B)) (l : list X) (b : B) : loop (result E B) :=
  match l with
  | [] => ret (Ok b)
  | x :: l => bind (f b x) (λ r, match r with Ok b => for_each f l b | Err e => ret (Err e) end)
  end.

Local Notation "x ⇐ m ; k" := (bind m (λ x, k)) (at level 20, m at level 100, k at level 200, right associativity).
Local Notation "' x ⇐ m ; k" := (bind m (λ z, match z with x => k end))
  (at level 20, x pattern, m at level 100, k at level 200, right associativity).
Local Notation "m ;;; k" := (bind m (λ _, k)) (at level 100, k at level 200, right associativity).

(** ** Observing the cluster *)

Definition clean_with {X} (f : W → option (W * X)) : loop unit :=
  call_opt (λ a, '(w, _) ← f (a_world a); Some (with_world a w)).

Definition cleanUpIfRequired : loop unit :=
  done ⇐ get initialized;
  if done : bool then ret tt
  else
    r ⇐ ask (AllNodes_List c);
    match r with
    | Err _ => ret tt
    | Ok allNodes =>
        env ⇐ ask (World_env c);
        clean_with (λ w, CleanAllToBeDeleted w (filterNodesFromSelectedGroups env allNodes) (CordonNodeBeforeTerminate o)) ;;;
        (if MaxBulkSoftTaintCount o =? 0
         then clean_with (λ w, CleanStaleDeletionCandidates w allNodes (NodeDeletionCandidateTTL o))
         else ret tt)
    end ;;;
    modify (λ a, with_initialized a true).

(** A provider that may be missing. *)
Definition provider_snapshot {X} (provider : option (W → result go_error X)) : loop (option X) :=
  match provider with
  | None => ret None
  | Some snapshot =>
      r ⇐ ask snapshot;
      x ⇐ or_return (typed_error ApiCallError) r;
      ret (Some x)
  end.

Definition obtainNodeLists (claims : option Claims) (csiNodes : option CsiNodes) : loop (list Node * list Node) :=
  r ⇐ ask (AllNodes_List c);
  allNodes ⇐ or_return (typed_error ApiCallError) r;
  r ⇐ ask (ReadyNodes_List c);
  readyNodes ⇐ or_return (typed_error ApiCallError) r;
  let '(allNodes, readyNodes) := FilterOutNodesWithUnreadyResources c allNodes readyNodes claims csiNodes in
  ret (FilterOutNodesWithStartupTaints (LoopTaintConfig o) allNodes readyNodes).

Definition initializeRemainingPdbTracker : loop (option AutoscalerError) :=
  call_world (λ w, Pdb_SetPdbs c w None) ;;;
  r ⇐ ask (Pdb_List c);
  match r with
  | Err err => ret (Some (NewAutoscalerError ApiCallError (error_text err)))
  | Ok pdbs =>
      err ⇐ call_world (λ w, Pdb_SetPdbs c w (Some pdbs));
      ret ((λ e, NewAutoscalerError InternalError (error_text e)) <$> err)
  end.

Definition updateClusterState (allNodes : list Node) currentTime : loop (option AutoscalerError) :=
  env ⇐ ask (World_env c);
  instances ⇐ ask (CloudInstances c);
  err ⇐ call (λ a,
    let '(csr, reverted, err) := UpdateNodes env (a_csr a) allNodes instances currentTime in
    (with_world (with_csr a csr) (Notify c (a_world a) reverted), err));
  match err with
  | Some e => on_world (Planner_CleanUpUnneededNodes c) ;;; ret (Some (typed_error CloudProviderError (cp_go_error e)))
  | None => ret None
  end.

(** What the rest of the iteration needs of the observation. *)
Record observation : Type := mkObservation {
  ob_allNodes : list Node;
  ob_readyNodes : list Node;
  ob_pods : PodsBySchedulability;
  ob_daemonsets : DaemonSets;
  ob_status : Ongoing
}.

Definition observe currentTime : loop observation :=
  cleanUpIfRequired ;;;
  modify (λ a, with_disabled a false) ;;;
  on_world (ClearFakePods c) ;;;
  claims ⇐ provider_snapshot (DraProvider_Snapshot c);
  csiNodes ⇐ provider_snapshot (CsiProvider_Snapshot c);
  '(allNodes, readyNodes) ⇐ obtainNodeLists claims csiNodes;
  '(abortLoop, err) ⇐ call_world (λ w, ShouldAbort c w allNodes readyNodes currentTime);
  (if abortLoop : bool then return_err err else ret tt) ;;;
  r ⇐ ask (AllPods_List c);
  pods ⇐ or_return (typed_error ApiCallError) r;
  let podsBySchedulability := listPods pods (BypassedSchedulers o) (AllowedSchedulers o) in
  r ⇐ ask (DaemonSets_List c);
  daemonsets ⇐ or_return (typed_error ApiCallError) r;
  scaleDownActuationStatus ⇐ ask (CheckStatus c);
  err ⇐ call_world (CloudProvider_Refresh c);
  (if AsyncNodeGroupsEnabled o
   then modify (λ a, with_csr a (Recalculate (World_env c (a_world a)) (a_csr a))) else ret tt) ;;;
  check (typed_error CloudProviderError) err ;;;
  on_world (LoopStart_Refresh c) ;;;
  let allocatedPods := Scheduled podsBySchedulability ++ NominatedNode podsBySchedulability in
  let nonExpendableAllocatedPods := FilterOutExpendablePods allocatedPods (ExpendablePodsPriorityCutoff o) in
  err ⇐ call (λ a, let '(t, err) := Snapshot_SetClusterState c (a_snap a) allNodes nonExpendableAllocatedPods claims csiNodes in
                   (with_snap a t, err));
  check (λ e, AddPrefix (typed_error InternalError e) "failed to initialize ClusterSnapshot: ") err ;;;
  err ⇐ initializeRemainingPdbTracker;
  check (λ e, AddPrefix e "failed to initialize RemainingPdbTracker: ") err ;;;
  r ⇐ call_world (λ w, Templates_Recompute c w allNodes daemonsets currentTime);
  templates ⇐ or_return (λ e, AddPrefix e "failed to recompute template node infos: ") r;
  modify (λ a, with_templates a templates) ;;;
  err ⇐ updateClusterState allNodes currentTime;
  check id err ;;;
  ret (mkObservation allNodes readyNodes podsBySchedulability daemonsets scaleDownActuationStatus).

(** ** The report at the end of an iteration *)

Definition with_deletion_results (s : SdStatus) (results : gmap string DeletionTracker.NodeDeleteResult) (asOf : Z) : SdStatus :=
  mkScaleDownStatus (SdResult s) (ScaledDownNodes s) (UnremovableNodes s) (RemovedNodeGroups s) results asOf.

Definition run_status_processors currentTime : loop unit :=
  (if WriteStatusConfigMap o
   then modify (λ a, with_world a (WriteStatus c (a_world a) (a_csr a) currentTime)) else ret tt) ;;;
  modify (λ a, match ScaleUpStatus_Process c with
    | Some process =>
        if scaleUpTriggered a then a
        else let '(w, up) := process (a_world a) (scaleUpStatus a) in with_up (with_world a w) up
    | None => a
    end) ;;;
  modify (λ a, match ScaleDownStatus_Process c with
    | Some process =>
        let '(results, asOf) := Actuator_DeletionResults c (a_world a) in
        let w := Actuator_ClearResultsNotNewerThan c (a_world a) asOf in
        let down := SetUnremovableNodesInfo (World_env c w) (with_deletion_results (scaleDownStatus a) results asOf)
                      (Planner_UnremovableNodes c w) (Planner_NodeUtilizationMap c w) in
        with_down (with_world a (process w down)) down
    | None => a
    end) ;;;
  modify (λ a, match AutoscalingStatus_Process c with
    | Some process => with_world a (process (a_world a) (a_csr a) currentTime)
    | None => a
    end).

Definition report currentTime : loop unit :=
  run_status_processors currentTime ;;;
  modify (λ a, logged a (EvReport (scaleUpStatus a) (scaleDownStatus a))).

(** ** Repairing it *)

(** The errors of the repairs, as [fmt.Errorf] makes them. *)
Definition repair_go_error (e : repair_error) : go_error :=
  match e with
  | ProvisionTimeError id => PlainError 0 ("failed to retrieve maxNodeProvisionTime for nodeGroup " +:+ id)
  | DeleteError e => cp_go_error e
  | DecreaseError id e => PlainError 0 ("failed to decrease " +:+ id +:+ ": " +:+ error_text (cp_go_error e))
  end.

Definition GetUnregisteredNodes (csr : ClusterStateRegistry) : list UnregisteredNode := (go_range (unregisteredNodes csr)).*2.

Definition remove_unregistered currentTime : loop unit :=
  unregisteredNodes ⇐ get (λ a, GetUnregisteredNodes (a_csr a));
  if bool_decide (unregisteredNodes = []) then ret tt
  else call_opt (λ a,
    let w := a_world a in
    '(calls, _, _) ← removeOldUnregisteredNodes (World_env c w) (LoopDefaults o) (ForceLongUnregistered o)
                       (Cloud_DeleteNodes c w) (Cloud_ForceDeleteNodes c w) unregisteredNodes currentTime;
    Some (logged (with_world a (Cloud_Apply c w calls)) (EvUnregistered calls))).

Definition delete_failed : loop unit :=
  modify (λ a,
    let w := a_world a in
    let '(csr, calls) := deleteCreatedNodesWithErrors (World_env c w) (LoopDefaults o) (ForceFailed o)
                           (Cloud_DeleteNodes c w) (Cloud_ForceDeleteNodes c w) (a_csr a) in
    logged (with_world (with_csr a csr) (Cloud_Apply c w calls)) (EvFailedNodes calls)).

Definition fix_sizes currentTime : loop (bool * option repair_error) :=
  call (λ a,
    let w := a_world a in
    let '(calls, fixed, err) := fixNodeGroupSize (World_env c w) (Cloud_DecreaseTargetSize c w) (a_csr a) currentTime in
    (logged (with_world a (Cloud_Apply c w calls)) (EvSizes calls), (fixed, err))).

Definition healthy a : bool := IsClusterHealthy (LoopUnreadyPercentage o) (LoopOkTotalUnreadyCount o) (a_csr a).

(** Returns early when the cluster is unhealthy, or a target size was wrong. *)
Definition repair currentTime : loop unit :=
  remove_unregistered currentTime ;;;
  ok ⇐ get healthy;
  (if ok : bool then ret tt
   else on_world (Planner_CleanUpUnneededNodes c) ;;; log EvUnhealthy ;;; return_err None) ;;;
  delete_failed ;;;
  '(fixedSomething, err) ⇐ fix_sizes currentTime;
  check (λ e, typed_error CloudProviderError (repair_go_error e)) err ;;;
  (if fixedSomething : bool then return_err None else ret tt).

(** ** Upcoming nodes *)

(** [for i := 0; i < n; i++], with a copy of the template for each. *)
Definition upcoming_nodes (nodeTemplate : NI) (suffix : Z → string) (numberOfNodes : Z) : loop (result go_error (list NI)) :=
  for_each (λ nodes i,
    r ⇐ call_world (λ w, SanitizedNodeInfo c w nodeTemplate (suffix i));
    ret match r with Ok freshNodeInfo => Ok (nodes ++ [mark_upcoming c freshNodeInfo]) | Err err => Err err end)
    (seqZ 0 numberOfNodes) [].

Definition getUpcomingNodeInfos (upcomingCounts : gmap string Z) (nodeInfos : gmap string NI) (suffix : Z → string)
    : loop (result go_error (gmap string (list NI))) :=
  for_each (λ (upcomingNodes : gmap string (list NI)) kv,
    match nodeInfos !! kv.1 with
    | None => ret (Ok upcomingNodes)
    | Some nodeTemplate =>
        r ⇐ upcoming_nodes nodeTemplate suffix kv.2;
        ret match r with Ok nodes => Ok (<[kv.1 := nodes]> upcomingNodes) | Err err => Err err end
    end) (go_range upcomingCounts) ∅.

Definition add_error (nodeGroupName name : string) (i n : Z) (err : snapshot_error) : go_error :=
  PlainError 0 ("Failed to add upcoming " +:+ pretty i +:+ "/" +:+ pretty n +:+ " node " +:+ quote name +:+
    " from node group " +:+ quote nodeGroupName +:+ " to cluster snapshot: " +:+ snapshot_text err).

Definition addUpcomingNodesToClusterSnapshot (upcomingCounts : gmap string Z) (suffix : Z → string)
    : loop (result go_error (list Node)) :=
  templateNodeInfos ⇐ get a_templates;
  r ⇐ getUpcomingNodeInfos upcomingCounts templateNodeInfos suffix;
  match r with
  | Err err => ret (Err err)
  | Ok upcomingNodeInfosPerNg =>
      nodeGroups ⇐ ask (λ w, nodeGroupsById (World_env c w));
      for_each (λ newNodes kv,
        match nodeGroups !! kv.1 with
        | None => ret (Err (PlainError 0 ("failed to find node group: " +:+ kv.1)))
        | Some _ =>
            for_each (λ newNodes ini,
              err ⇐ call (λ a, let '(t, err) := AddNodeInfo (a_snap a) ini.2 in (with_snap a t, err));
              ret match err with
              | Some err => Err (add_error kv.1 (NodeName ini.2) (ini.1 + 1) ⟪kv.2⟫ err)
              | None => Ok (newNodes ++ [ni_Node ini.2])
              end) (zip (seqZ 0 ⟪kv.2⟫) kv.2) newNodes
        end) (go_range upcomingNodeInfosPerNg) []
  end.

(** The nodes that registered but are not ready leave the snapshot. *)
Definition remove_registered (names : list string) : loop (result go_error unit) :=
  for_each (λ _ notStartedNodeName,
    err ⇐ call (λ a, let '(t, err) := RemoveNodeInfo (a_snap a) notStartedNodeName in (with_snap a t, err));
    ret match err with
    | None | Some (StoreError SnapshotSpec.ErrNodeNotFound) => Ok tt
    | Some e => Err (PlainError 0 (snapshot_text e))
    end) names tt.

(** The nodes that scale-down may look at, and the nodes of the snapshot. *)
Definition inject_upcoming (allNodes : list Node) : loop (list Node * list NI) :=
  '(upcomingCounts, registeredUpcoming) ⇐ get (λ a,
    GetUpcomingNodes (World_env c (a_world a)) (a_csr a) (Clock_of c (a_world a)));
  r ⇐ addUpcomingNodesToClusterSnapshot upcomingCounts (λ i, "upcoming-" +:+ pretty i);
  or_return (typed_error InternalError) r ;;;
  let allRegisteredUpcoming := concat (go_range registeredUpcoming).*2 in
  r ⇐ remove_registered allRegisteredUpcoming;
  or_return (typed_error InternalError) r ;;;
  r ⇐ call (λ a, let '(t, r) := ListNodeInfos c (a_snap a) in (with_snap a t, r));
  ret (subtractNodesByName allNodes allRegisteredUpcoming, match r with Ok l => l | Err _ => [] end).

(** ** Scaling up *)

Definition with_result (s : ScaleUpStatus) (r : ScaleUpResult) : ScaleUpStatus :=
  mkStatus r (StatusError s) (ScaleUpInfos s) (PodsTriggeredScaleUp s) (PodsRemainUnschedulable s) (PodsAwaitEvaluation s)
    (CreateNodeGroupResults s) (ConsideredNodeGroups s) (FailedCreationNodeGroups s) (FailedResizeNodeGroups s).

Definition with_remaining (s : ScaleUpStatus) (remain : list NoScaleUpInfo) : ScaleUpStatus :=
  mkStatus (Result s) (StatusError s) (ScaleUpInfos s) (PodsTriggeredScaleUp s) remain (PodsAwaitEvaluation s)
    (CreateNodeGroupResults s) (ConsideredNodeGroups s) (FailedCreationNodeGroups s) (FailedResizeNodeGroups s).

Definition shouldScaleUp (unschedulablePodsToHelp : list Pod) (readyNodes : list Node) currentTime a : autoscaler * bool :=
  let now := api_Now (a_world a) in
  let '(a, should) :=
    if bool_decide (unschedulablePodsToHelp = []) then
      (with_up a (with_result (scaleUpStatus a) ScaleUpNotNeeded), false)
    else if (0 <? LoopMaxNodesTotal o) && (LoopMaxNodesTotal o <=? ⟪readyNodes⟫) then
      (with_up a (with_remaining (with_result (scaleUpStatus a) ScaleUpLimitedByMaxNodesTotal)
         ((λ pod, mkNoScaleUp pod ∅ ∅) <$> unschedulablePodsToHelp)), false)
    else if bool_decide (BypassedSchedulers o = ∅) &&
            allPodsAreNew PodRequests now now unschedulablePodsToHelp currentTime then
      (with_up (with_disabled a true) (with_result (scaleUpStatus a) ScaleUpInCooldown), false)
    else (a, true) in
  let should := should || ShouldForceScaleUp c unschedulablePodsToHelp in
  if LoopGracefulDegradation o && (0 <? a_loops a) && (a_loops a `rem` gracefulDegradationCycle =? 0)
  then (with_up a (with_result (scaleUpStatus a) ScaleUpInCooldown), false)
  else (a, should).

(** [instrumentedScaleUp]: the pods that triggered the scale-up, as they were
    before the status processor, its status and its error. *)
Definition instrumentedScaleUp currentTime (ev : ScaleUpStatus → option AutoscalerError → loop_event)
    (scaleUpFn : W → T → ClusterStateRegistry → gmap string NI →
       (W * T * ClusterStateRegistry * gmap string NI) * (ScaleUpStatus * option AutoscalerError))
    : loop (list Pod * ScaleUpStatus * option AutoscalerError) :=
  call (λ a,
    let '((w, t, csr, infos), (status, typedErr)) := scaleUpFn (a_world a) (a_snap a) (a_csr a) (a_templates a) in
    let unfilteredPodsTriggeredScaleUp := PodsTriggeredScaleUp status in
    let '(w, status) := match ScaleUpStatus_Process c with Some process => process w status | None => (w, status) end in
    let a := logged (with_templates (with_csr (with_snap (with_world a w) t) csr) infos) (ev status typedErr) in
    (match typedErr with
     | Some _ => a
     | None => if bool_decide (Result status = ScaleUpSuccessful) then with_up_time a currentTime else a
     end, (unfilteredPodsTriggeredScaleUp, status, typedErr))).

Definition runSingleScaleUp currentTime (pods : list Pod) (daemonsets : DaemonSets) (nodes : list Node)
    : loop (list Pod * ScaleUpStatus * option AutoscalerError) :=
  instrumentedScaleUp currentTime (EvScaleUp pods) (λ w t csr infos, Orchestrator_ScaleUp c w t csr infos pods nodes daemonsets).

(** Adds to the counts what a scale-up of one group will bring; [None] is an
    error, which is only logged. *)
Definition salvo_count (templates : gmap string NI) (counts : option (gmap string Z)) (suInfo : ScaleUpInfo)
    : option (gmap string Z) :=
  counts ← counts;
  let nodesToInject := NewSize suInfo - CurrentSize suInfo in
  let id := Id (ScaleUpGroup suInfo) in
  if nodesToInject <=? 0 then None
  else match templates !! id with
       | None => None
       | Some _ => Some (<[id := default 0 (counts !! id) + nodesToInject]> counts)
       end.

Definition addLatestScaleUpResultsToClusterSnapshot (idx : Z) (status : ScaleUpStatus) (handledPods : list Pod)
    : loop (option (list Node)) :=
  let salvoSuffix := "salvo-" +:+ pretty idx in
  counts ⇐ get (λ a, foldl (salvo_count (a_templates a)) (Some ∅) (ScaleUpInfos status));
  match counts with
  | None => ret None
  | Some upcomingCounts =>
      r ⇐ addUpcomingNodesToClusterSnapshot upcomingCounts (λ i, pretty i +:+ "-" +:+ salvoSuffix);
      match r with
      | Err _ => ret None
      | Ok newNodes =>
          r ⇐ for_each (λ _ pod,
            r ⇐ call (λ a,
              let '(t, r) := SchedulePodOnAnyNodeMatching (a_snap a) pod
                (mkSchedulingOptions None (Some (λ nodeInfo, HasSuffix (NodeName nodeInfo) salvoSuffix))) in
              (with_snap a t, r));
            ret match r with Ok _ => Ok tt | Err e => Err e end) handledPods tt;
          ret match r with Ok _ => Some newNodes | Err _ => None end
      end
  end.

(** The rounds of a salvo; [podsMap] is by UID. *)
Fixpoint salvo_loop (fuel : nat) currentTime (deadline : Z) (daemonsets : DaemonSets) (i : Z) (podsMap : gmap string Pod)
    (nodes : list Node) : loop (ScaleUpStatus * option AutoscalerError) :=
  match fuel with
  | O => λ _, None
  | Datatypes.S fuel =>
      '(handledPods, status, typedErr) ⇐ runSingleScaleUp currentTime (go_range podsMap).*2 daemonsets nodes;
      if bool_decide (is_Some typedErr) || negb (WasSuccessful status) || bool_decide (handledPods = [])
      then ret (status, typedErr)
      else
        let podsMap := foldl (λ m pod, delete (PodUID pod) m) podsMap handledPods in
        if bool_decide (podsMap = ∅) then ret (status, typedErr)
        else
          expired ⇐ ask (λ w, Deadline_passed c w deadline);
          if expired : bool then ret (status, typedErr)
          else
            r ⇐ addLatestScaleUpResultsToClusterSnapshot i status handledPods;
            match r with
            | None => ret (status, typedErr)
            | Some newNodes => salvo_loop fuel currentTime deadline daemonsets (i + 1) podsMap (nodes ++ newNodes)
            end
  end.

Definition runScaleUpSalvo currentTime (pods : list Pod) (daemonsets : DaemonSets) (nodes : list Node)
    : loop (ScaleUpStatus * option AutoscalerError) :=
  let podsMap := foldl (λ m pod, <[PodUID pod := pod]> m) (∅ : gmap string Pod) pods in
  deadline ⇐ ask (λ w, api_Now w + SalvoScaleUpBudget o);
  salvo_loop (Datatypes.S (size podsMap)) currentTime deadline daemonsets 0 podsMap nodes.

Definition with_down_result (s : SdStatus) (r : ScaleDownResult) : SdStatus :=
  mkScaleDownStatus r (ScaledDownNodes s) (UnremovableNodes s) (RemovedNodeGroups s) (NodeDeleteResults s) (NodeDeleteResultsAsOf s).

(** The scale-up of an iteration; its error is dropped. *)
Definition scale_up currentTime (pods : list Pod) (daemonsets : DaemonSets) (nodes : list Node) : loop unit :=
  modify (λ a, with_triggered a true) ;;;
  status ⇐ (if SalvoScaleUp o
            then '(status, _) ⇐ runScaleUpSalvo currentTime pods daemonsets nodes; ret status
            else '(_, status, _) ⇐ runSingleScaleUp currentTime pods daemonsets nodes; ret status);
  modify (λ a, with_up a status) ;;;
  (if bool_decide (Result status = ScaleUpSuccessful)
   then modify (λ a, with_down a (with_down_result (scaleDownStatus a) ScaleDownInCooldown)) else ret tt).

(** ** Scaling down *)

(** Every fourth loop of graceful degradation is for scaling down. *)
Definition shouldScaleDown a : bool :=
  if negb (ScaleDownEnabled o) then false
  else negb (LoopGracefulDegradation o && (0 <? a_loops a) && negb (a_loops a `rem` gracefulDegradationCycle =? 0)).

Definition isScaleDownInCooldown currentTime a : bool :=
  let scaleDownInCooldown := disableScaleDownForLoop a in
  if ScaleDownDelayTypeLocal o then scaleDownInCooldown
  else scaleDownInCooldown ||
       (currentTime <? lastScaleUpTime a + ScaleDownDelayAfterAdd o) ||
       (currentTime <? lastScaleDownFailTime a + ScaleDownDelayAfterFailure o) ||
       (currentTime <? lastScaleDownDeleteTime a + ScaleDownDelayAfterDelete o).

Definition updateSoftDeletionTaints (allNodes : list Node) : loop unit :=
  if MaxBulkSoftTaintCount o =? 0 then ret tt
  else call_opt (λ a,
    let w := a_world a in
    let selectedNodes := filterNodesFromSelectedGroups (World_env c w) allNodes in
    let taintableNodes := intersectNodes selectedNodes (retrieveNodes (Planner_UnneededNodes c w)) in
    let untaintableNodes := subtractNodes selectedNodes taintableNodes in
    '(w, _, _) ← Eviction.UpdateSoftDeletionTaints w (MaxBulkSoftTaintCount o) (MaxBulkSoftTaintTime o)
                   taintableNodes untaintableNodes;
    Some (with_world a w)).

Definition down_result (r : ScaleDownResult) : loop unit :=
  modify (λ a, with_down a (with_down_result (scaleDownStatus a) r)).

Definition with_removed (s : SdStatus) (groups : list NodeGroup) : SdStatus :=
  mkScaleDownStatus (SdResult s) (ScaledDownNodes s) (UnremovableNodes s) groups (NodeDeleteResults s) (NodeDeleteResultsAsOf s).

Definition with_scaled (s : SdStatus) (nodes : list ScaledDown) : SdStatus :=
  mkScaleDownStatus (SdResult s) nodes (UnremovableNodes s) (RemovedNodeGroups s) (NodeDeleteResults s) (NodeDeleteResultsAsOf s).

(** The candidates and the destinations of their pods. *)
Definition scale_down_lists (allNodes : list Node) : loop (list Node * list Node) :=
  match GetScaleDownCandidates c with
  | None => ret (allNodes, allNodes)
  | Some candidates =>
      r ⇐ ask (λ w, candidates w allNodes);
      scaleDownCandidates ⇐ or_return id r;
      r ⇐ ask (λ w, GetPodDestinationCandidates c w allNodes);
      podDestinations ⇐ or_return id r;
      ret (scaleDownCandidates, podDestinations)
  end.

Definition update_planner currentTime (scaleDownCandidates podDestinations : list Node) (status : Ongoing) : loop unit :=
  typedErr ⇐ call (λ a,
    let '(w, t, err) := Planner_UpdateClusterState c (a_world a) (a_snap a) podDestinations scaleDownCandidates status currentTime in
    (logged (with_snap (with_world a w) t) (EvPlan err), err));
  modify (λ a,
    let '(w, csr) := Candidates_Update c (a_world a) (a_csr a) (Planner_UnneededNodes c (a_world a)) currentTime in
    with_csr (with_world a w) csr) ;;;
  match typedErr with
  | Some e => down_result ScaleDownError ;;; return_err (Some e)
  | None => ret tt
  end.

Definition start_deletion currentTime (allNodes : list Node) : loop unit :=
  '(empty, needDrain) ⇐ call_world (λ w, Planner_NodesToDelete c w currentTime);
  typedErr ⇐ call (λ a,
    let '(w, t, (scaleDownResult, scaledDownNodes, typedErr)) :=
      Actuator_StartDeletion c (a_world a) (a_snap a) empty needDrain in
    let a := logged (with_snap (with_world a w) t) (EvStartDeletion empty needDrain scaleDownResult typedErr) in
    (with_down a (with_scaled (with_down_result (scaleDownStatus a) scaleDownResult) scaledDownNodes), typedErr));
  modify (λ a,
    if bool_decide (SdResult (scaleDownStatus a) = ScaleDownNodeDeleteStarted)
    then with_csr (with_delete_time a currentTime) (Recalculate (World_env c (a_world a)) (a_csr a))
    else a) ;;;
  updateSoftDeletionTaints allNodes ;;;
  match typedErr with
  | Some e => modify (λ a, with_fail_time a currentTime) ;;; return_err (Some e)
  | None => ret tt
  end.

Definition scaleDown currentTime (allNodes : list Node) (scaleDownActuationStatus : Ongoing) : loop unit :=
  '(scaleDownCandidates, podDestinations) ⇐ scale_down_lists allNodes;
  update_planner currentTime scaleDownCandidates podDestinations scaleDownActuationStatus ;;;
  scaleDownInCooldown ⇐ get (isScaleDownInCooldown currentTime);
  (if bool_decide (DrainsInProgress c scaleDownActuationStatus = [])
   then
     removedNodeGroups ⇐ call_world (RemoveUnneededNodeGroups c);
     modify (λ a, with_down a (with_removed (scaleDownStatus a) removedNodeGroups))
   else ret tt) ;;;
  if scaleDownInCooldown : bool then down_result ScaleDownInCooldown ;;; updateSoftDeletionTaints allNodes
  else if bool_decide (scaleDownCandidates = []) then down_result ScaleDownNoCandidates ;;; updateSoftDeletionTaints allNodes
  else start_deletion currentTime allNodes.

(** ** One iteration *)

Definition enforce_min_size currentTime (nodes : list Node) : loop unit :=
  if EnforceNodeGroupMinSize o then
    modify (λ a, with_triggered a true) ;;;
    '(_, status, _) ⇐ instrumentedScaleUp currentTime EvMinSize (λ w t csr infos, Orchestrator_MinSize c w t csr infos nodes);
    modify (λ a, with_up a status)
  else ret tt.

(** The pods to help; an error of the processors leaves none. *)
Definition pods_to_help currentTime (pods : PodsBySchedulability) : loop (list Pod) :=
  r ⇐ call (λ a,
    let '((w, t, loops), r) := PodList_Process c (a_world a) (a_snap a) (a_loops a) (UnschedulablePods pods ++ Unprocessed pods) in
    (with_loops (with_snap (with_world a w) t) loops, r));
  ret (filterOutYoungPods ParseDuration (NewPodScaleUpDelay o) (match r with Ok l => l | Err _ => [] end) currentTime).

Definition act currentTime (ob : observation) : loop unit :=
  repair currentTime ;;;
  '(allNodes, allNodeInfos) ⇐ inject_upcoming (ob_allNodes ob);
  unschedulablePodsToHelp ⇐ pods_to_help currentTime (ob_pods ob);
  should ⇐ call (shouldScaleUp unschedulablePodsToHelp (ob_readyNodes ob) currentTime);
  cancelled ⇐ ask (Context_cancelled c);
  (if cancelled : bool then return_err None else ret tt) ;;;
  let nodes := ni_Node <$> allNodeInfos in
  (if should : bool then scale_up currentTime unschedulablePodsToHelp (ob_daemonsets ob) nodes else ret tt) ;;;
  down ⇐ get shouldScaleDown;
  (if down : bool then scaleDown currentTime allNodes (ob_status ob) else ret tt) ;;;
  enforce_min_size currentTime nodes.

Definition empty_status (r : ScaleUpResult) : ScaleUpStatus := mkStatus r None [] [] [] [] [] [] [] [].

Definition RunOnce currentTime : loop unit :=
  ob ⇐ observe currentTime;
  modify (λ a, with_down (with_triggered (with_up a (empty_status ScaleUpNotTried)) false)
                 (mkScaleDownStatus ScaleDownNotTried [] [] [] ∅ 0)) ;;;
  defer (report currentTime) (act currentTime ob).
End main_loop.
