(* ===== verification/MainLoopProofs.v ===== *)
(** What one iteration of the main loop may do: it always returns, it scales
    down only when that is safe, and it records exactly what happened. *)
From stdpp Require Import prelude gmap strings pretty list numbers fin_maps.
From S2P Require Import Prelude Errors Api Drain Taints Framework ClusterSnapshot Balancing ClusterState.
From S2P Require Import ScaleUpExecutor ScaleUpPods ScaleUpGroups Orchestrator PodLists LoopRepairs MainLoop.
From S2P Require SnapshotSpec DeletionTracker Unneeded Eviction EvictionProofs.
Local Open Scope Z_scope.
Local Open Scope ca_scope.

Section main_loop_proofs.
Context `{GR : GoRange} {S Slice CSI T W : Type} `{SN : SchedNodeInfo S} `{CS : !ClusterSnapshot S Slice CSI T}
  `{NC : !NodeClient W}.
Context {Claims CsiNodes DaemonSets Pdbs Reason Util ScaledDown Ongoing : Type}.
Context (PodRequests : Pod → gmap string Z) (ParseDuration : string → option Z) (quote : string → string)
  (snapshot_text : snapshot_error → string).
Context (o : loop_options)
  (c : components (S := S) (Slice := Slice) (CSI := CSI) (T := T) (W := W) (Claims := Claims) (CsiNodes := CsiNodes)
         (DaemonSets := DaemonSets) (Pdbs := Pdbs) (Reason := Reason) (Util := Util) (ScaledDown := ScaledDown)
         (Ongoing := Ongoing)).
Abbreviation auto := (autoscaler (S := S) (Slice := Slice) (CSI := CSI) (T := T) (W := W) (Reason := Reason) (Util := Util)
  (ScaledDown := ScaledDown)).
Abbreviation loop := (loop (S := S) (Slice := Slice) (CSI := CSI) (T := T) (W := W) (Reason := Reason) (Util := Util)
  (ScaledDown := ScaledDown)).
Abbreviation event := (loop_event (Reason := Reason) (Util := Util) (ScaledDown := ScaledDown)).
Implicit Types (a : auto) (currentTime : Z) (evs : list event) (ev : event).

(** ** A calculus for computations of the loop *)

(** The computation returns, with an answer in [Q] or early in [R]. *)
Definition wp {A} (m : loop A) (Q : A → auto → Prop) (R : option AutoscalerError → auto → Prop) a : Prop :=
  match m a with
  | None => False
  | Some (a', Next x) => Q x a'
  | Some (a', Return err) => R err a'
  end.

Lemma wp_mono {A} (m : loop A) (Q Q' : A → auto → Prop) (R R' : option AutoscalerError → auto → Prop) a :
  wp m Q R a → (∀ x a', Q x a' → Q' x a') → (∀ e a', R e a' → R' e a') → wp m Q' R' a.
Proof. unfold wp. destruct (m a) as [[a' []]|]; auto. Qed.

Lemma wp_ret {A} (x : A) (Q : A → auto → Prop) R a : Q x a → wp (ret x) Q R a.
Proof. done. Qed.
Lemma wp_return {A} err (Q : A → auto → Prop) (R : option AutoscalerError → auto → Prop) a : R err a → wp (return_err err) Q R a.
Proof. done. Qed.
Lemma wp_bind {A B} (m : loop A) (f : A → loop B) Q R a : wp m (λ x a', wp (f x) Q R a') R a → wp (bind m f) Q R a.
Proof. unfold wp, bind. destruct (m a) as [[a' []]|]; auto. Qed.
Lemma wp_get {A} (f : auto → A) (Q : A → auto → Prop) R a : Q (f a) a → wp (get f) Q R a.
Proof. done. Qed.
Lemma wp_modify f (Q : unit → auto → Prop) R a : Q tt (f a) → wp (modify f) Q R a.
Proof. done. Qed.
Lemma wp_call {A} (f : auto → auto * A) (Q : A → auto → Prop) R a : (∀ a' x, f a = (a', x) → Q x a') → wp (call f) Q R a.
Proof. unfold wp, call. intros HQ. destruct (f a) as [a' x]. by apply HQ. Qed.
Lemma wp_call_world {A} (f : W → W * A) (Q : A → auto → Prop) R a :
  (∀ w x, f (a_world a) = (w, x) → Q x (with_world a w)) → wp (call_world f) Q R a.
Proof. intros HQ. apply wp_call. intros a' x. destruct (f (a_world a)) as [w y] eqn:Hf. intros [= <- <-]. by apply HQ. Qed.
Lemma wp_call_opt f (Q : unit → auto → Prop) R a : (∃ a', f a = Some a' ∧ Q tt a') → wp (call_opt f) Q R a.
Proof. unfold wp, call_opt. by intros (a' & -> & HQ). Qed.
Lemma wp_defer (d m : loop unit) (Q : unit → auto → Prop) (R : option AutoscalerError → auto → Prop) a :
  wp m (λ x a', wp d (λ _, Q x) (λ _, Q x) a') (λ e a', wp d (λ _, R e) (λ _, R e) a') a → wp (defer d m) Q R a.
Proof. unfold wp, defer. destruct (m a) as [[a' []]|]; [| |done]; by destruct (d a') as [[? []]|]. Qed.

Lemma wp_or_return {E A} (f : E → AutoscalerError) (r : result E A) (Q : A → auto → Prop) (R : option AutoscalerError → auto → Prop) a :
  (∀ x, r = Ok x → Q x a) → (∀ e, r = Err e → R (Some (f e)) a) → wp (or_return f r) Q R a.
Proof. destruct r; intros HQ HR; [by apply HQ|by apply HR]. Qed.
Lemma wp_check {E} (f : E → AutoscalerError) (r : option E) (Q : unit → auto → Prop) (R : option AutoscalerError → auto → Prop) a :
  (r = None → Q tt a) → (∀ e, r = Some e → R (Some (f e)) a) → wp (check f r) Q R a.
Proof. destruct r; intros HQ HR; [by apply HR|by apply HQ]. Qed.

(** An invariant of a loop over a list. *)
Lemma wp_for_each {E X B} (f : B → X → loop (result E B)) (I : auto → Prop) R (l : list X) (b : B) a :
  I a → (∀ b x a, x ∈ l → I a → wp (f b x) (λ _, I) R a) → wp (for_each f l b) (λ _, I) R a.
Proof.
  intros HI Hf. revert b a HI. induction l as [|x l IH]; intros b a HI; [done|]. cbn [for_each].
  apply wp_bind. apply (wp_mono _ (λ _, I) _ R); [apply Hf; [left|exact HI]| |done].
  intros [b'|e] a' HI'; [|exact HI']. apply IH; [|done]. intros b0 y a0 Hy. apply Hf. by right.
Qed.

(** A computation that keeps a property; [R] holds when it returns early. *)
Definition keeps {A} (I R : auto → Prop) (m : loop A) : Prop := ∀ a, I a → wp m (λ _, I) (λ _, R) a.

Lemma keeps_ret {A} (I R : auto → Prop) (x : A) : keeps I R (ret x).
Proof. by intros a HI. Qed.
Lemma keeps_return {A} (I R : auto → Prop) err : (∀ a, I a → R a) → keeps I R (return_err (A := A) err).
Proof. intros HR a HI. by apply HR. Qed.
Lemma keeps_bind {A B} (I R : auto → Prop) (m : loop A) (f : A → loop B) :
  keeps I R m → (∀ x, keeps I R (f x)) → keeps I R (bind m f).
Proof. intros Hm Hf a HI. apply wp_bind. eapply wp_mono; [by apply Hm| |done]. intros x a' HI'. by apply Hf. Qed.
Lemma keeps_get {A} (I R : auto → Prop) (f : auto → A) : keeps I R (get f).
Proof. by intros a HI. Qed.
Lemma keeps_modify (I R : auto → Prop) f : (∀ a, I a → I (f a)) → keeps I R (modify f).
Proof. intros Hf a HI. by apply Hf. Qed.
Lemma keeps_call {A} (I R : auto → Prop) (f : auto → auto * A) : (∀ a a' x, I a → f a = (a', x) → I a') → keeps I R (call f).
Proof. intros Hf a HI. apply wp_call. intros. by eapply Hf. Qed.
Lemma keeps_call_world {A} (I R : auto → Prop) (f : W → W * A) : (∀ a w, I a → I (with_world a w)) → keeps I R (call_world f).
Proof. intros Hf a HI. apply wp_call_world. intros. by apply Hf. Qed.
Lemma keeps_call_opt (I R : auto → Prop) f : (∀ a, I a → ∃ a', f a = Some a' ∧ I a') → keeps I R (call_opt f).
Proof. intros Hf a HI. by apply wp_call_opt, Hf. Qed.
Lemma keeps_or_return {E A} (I R : auto → Prop) (f : E → AutoscalerError) (r : result E A) :
  (∀ a, I a → R a) → keeps I R (or_return f r).
Proof. intros HR a HI. destruct r; [done|]. by apply HR. Qed.
Lemma keeps_check {E} (I R : auto → Prop) (f : E → AutoscalerError) (r : option E) : (∀ a, I a → R a) → keeps I R (check f r).
Proof. intros HR a HI. destruct r; [|done]. by apply HR. Qed.
Lemma keeps_for_each {E X B} (I R : auto → Prop) (f : B → X → loop (result E B)) (l : list X) b :
  (∀ b x, x ∈ l → keeps I R (f b x)) → keeps I R (for_each f l b).
Proof. intros Hf a HI. apply wp_for_each; [done|]. intros b' x a' Hx HI'. by apply (Hf b' x Hx). Qed.

(** Steps through a computation, splitting its branches; what changes the state
    is left as a goal. *)
Ltac keeps_step := lazymatch goal with
  | |- keeps _ _ (bind _ _) => apply keeps_bind; [|intros ?]
  | |- keeps _ _ (ret _) => apply keeps_ret
  | |- keeps _ _ (return_err _) => apply keeps_return; try done
  | |- keeps _ _ (get _) => apply keeps_get
  | |- keeps _ _ (ask _) => apply keeps_get
  | |- keeps _ _ (modify _) => apply keeps_modify; intros ? ?
  | |- keeps _ _ (on_world _) => apply keeps_modify; intros ? ?
  | |- keeps _ _ (log _) => apply keeps_modify; intros ? ?
  | |- keeps _ _ (down_result _) => apply keeps_modify; intros ? ?
  | |- keeps _ _ (call _) => apply keeps_call; intros ? ? ? ? ?; repeat case_match; simplify_eq/=
  | |- keeps _ _ (call_world _) => apply keeps_call_world; intros ? ? ?
  | |- keeps _ _ (or_return _ _) => apply keeps_or_return; try done
  | |- keeps _ _ (check _ _) => apply keeps_check; try done
  | |- keeps _ _ (for_each _ _ _) => apply keeps_for_each; intros ? ? ?
  | |- keeps _ _ (match ?x with _ => _ end) => destruct x eqn:?
  end; cbn beta iota.
Ltac keeps_run := repeat keeps_step; try done.

(** ** Observing *)

(** What observing leaves alone. *)
Definition core a : list event * (Z * Z * Z) :=
  (a_log a, (lastScaleUpTime a, lastScaleDownDeleteTime a, lastScaleDownFailTime a)).

Lemma CleanAllTaints_returns nodes key cordon conditions w : is_Some (CleanAllTaints (W := W) w nodes key cordon conditions).
Proof.
  unfold CleanAllTaints. generalize (@nil cleanup_event). revert w. induction nodes as [|node nodes IH]; intros w evs; [done|].
  cbn [foldl]. unfold clean_step at 2. cbn [mbind option_bind]. destruct (HasTaint node key); [|apply IH]. cbn [negb].
  destruct (forallb _ conditions); [|apply IH]. cbn [negb].
  assert (is_Some (CleanTaints w node [key] cordon)) as [[w' r] Hr] by apply rounds_enough. rewrite Hr. cbn.
  destruct r; apply IH.
Qed.

Lemma keeps_clean {X} (I R : auto → Prop) (f : W → option (W * X)) :
  (∀ w, is_Some (f w)) → (∀ a w, I a → I (with_world a w)) → keeps I R (clean_with f).
Proof.
  intros Hf HI. apply keeps_call_opt. intros a Ha. destruct (Hf (a_world a)) as [[w' x] Hw]. exists (with_world a w'). rewrite Hw.
  split; [done|by apply HI].
Qed.

Lemma cleanUpIfRequired_core k : keeps (λ a, core a = k) (λ _, False) (cleanUpIfRequired o c).
Proof.
  unfold cleanUpIfRequired. keeps_run; (apply keeps_clean; [intros; apply CleanAllTaints_returns|done]).
Qed.

Lemma observe_core currentTime a :
  wp (observe o c currentTime) (λ _ a', core a' = core a ∧ disableScaleDownForLoop a' = false) (λ _ a', core a' = core a) a.
Proof.
  unfold observe. apply wp_bind. eapply wp_mono; [by apply (cleanUpIfRequired_core (core a))| |done].
  intros x a1 H1. apply wp_bind, wp_modify. cbn beta.
  apply (wp_mono _ (λ _ a', core a' = core a ∧ disableScaleDownForLoop a' = false) _
    (λ _ a', core a' = core a ∧ disableScaleDownForLoop a' = false)); [|done|by intros ? ? []].
  match goal with |- wp ?m (λ _, ?I) _ ?a => assert (keeps I I m) as Hm; [|by apply Hm] end.
  unfold provider_snapshot, obtainNodeLists, initializeRemainingPdbTracker, updateClusterState. keeps_run.
Qed.

(** ** What an iteration did *)

Definition scaled_up ev : bool :=
  match ev with
  | EvScaleUp _ status None | EvMinSize status None => bool_decide (Result status = ScaleUpSuccessful)
  | _ => false
  end.
Definition deletion_started ev : bool :=
  match ev with EvStartDeletion _ _ r _ => bool_decide (r = ScaleDownNodeDeleteStarted) | _ => false end.
Definition deletion_failed ev : bool :=
  match ev with EvStartDeletion _ _ _ (Some _) => true | _ => false end.

(** A time that is set by every event of a kind. *)
Definition time_after (kind : event → bool) currentTime (t : Z) evs : Z := if existsb kind evs then currentTime else t.

(** The state after events: the record and the times. *)
Definition did currentTime a evs a' : Prop :=
  a_log a' = a_log a ++ evs ∧
  lastScaleUpTime a' = time_after scaled_up currentTime (lastScaleUpTime a) evs ∧
  lastScaleDownDeleteTime a' = time_after deletion_started currentTime (lastScaleDownDeleteTime a) evs ∧
  lastScaleDownFailTime a' = time_after deletion_failed currentTime (lastScaleDownFailTime a) evs.

Lemma time_after_app kind currentTime t evs evs' :
  time_after kind currentTime (time_after kind currentTime t evs) evs' = time_after kind currentTime t (evs ++ evs').
Proof. unfold time_after. rewrite existsb_app. by destruct (existsb kind evs), (existsb kind evs'). Qed.

Lemma did_nil currentTime a a' : core a' = core a → did currentTime a [] a'.
Proof. unfold core, did. intros [= -> -> -> ->]. by rewrite app_nil_r. Qed.

Lemma did_app currentTime a evs a' evs' a'' :
  did currentTime a evs a' → did currentTime a' evs' a'' → did currentTime a (evs ++ evs') a''.
Proof.
  unfold did. intros (H1 & H2 & H3 & H4) (-> & -> & -> & ->). by rewrite H1, H2, H3, H4, !time_after_app, app_assoc.
Qed.

(** The flags and the statuses. *)
Definition flags a : bool * Z * bool * ScaleUpStatus * ScaleDownStatus Reason Util ScaledDown :=
  (disableScaleDownForLoop a, a_loops a, scaleUpTriggered a, scaleUpStatus a, scaleDownStatus a).

(** Nothing was recorded, and times, flags and statuses are as before. *)
Definition quiet a a' : Prop := core a' = core a ∧ flags a' = flags a.

Definition evolves currentTime a evs a' : Prop := did currentTime a evs a' ∧ flags a' = flags a.

Lemma quiet_evolves currentTime a a' : quiet a a' → evolves currentTime a [] a'.
Proof. intros [Hc Hf]. split; [by apply did_nil|done]. Qed.

Lemma evolves_app currentTime a evs a' evs' a'' :
  evolves currentTime a evs a' → evolves currentTime a' evs' a'' → evolves currentTime a (evs ++ evs') a''.
Proof. intros [H1 F1] [H2 F2]. split; [by eapply did_app|congruence]. Qed.

(** ** The report *)

Lemma report_did currentTime a :
  wp (report o c currentTime) (λ _ a', ∃ up down, did currentTime a [EvReport up down] a' ∧
    SdResult down = SdResult (scaleDownStatus a) ∧ disableScaleDownForLoop a' = disableScaleDownForLoop a ∧
    a_loops a' = a_loops a) (λ _ _, False) a.
Proof.
  unfold report. set (I := λ a', core a' = core a ∧ SdResult (scaleDownStatus a') = SdResult (scaleDownStatus a) ∧
    disableScaleDownForLoop a' = disableScaleDownForLoop a ∧ a_loops a' = a_loops a).
  apply wp_bind. apply (wp_mono _ (λ _, I) _ (λ _ _, False)); [|intros x a1 (Hc & Hs & Hd & Hl)|done].
  - assert (keeps I (λ _, False) (run_status_processors o c currentTime)) as Hm; [|by apply Hm].
    unfold run_status_processors. keeps_run; repeat case_match; done.
  - apply wp_modify. eexists _, _. split; [|done]. apply (did_app _ _ [] a1); [by apply did_nil|].
    unfold did. simpl. done.
Qed.

(** ** The phases of an iteration *)

Inductive phase : Type :=
| Start | Checked | Cleaned | Ready | Growing | Planned | Shrunk | Over | Reported.

(** What may come next. Repairs come first: an unhealthy cluster, a wrong target
    size or a failed repair ends the iteration. Then come the scale-ups, the
    plan, one deletion and the minimal sizes; an error ends it too. The report
    is last. *)
Definition next (p : phase) ev : option phase :=
  match p, ev with
  | Start, EvUnregistered _ => Some Checked
  | (Start | Checked), EvUnhealthy => Some Over
  | (Start | Checked), EvFailedNodes _ => Some Cleaned
  | Cleaned, EvSizes calls => Some (if bool_decide (calls = []) then Ready else Over)
  | (Ready | Growing), EvScaleUp _ _ _ => Some Growing
  | (Ready | Growing), EvPlan err => Some (if bool_decide (err = None) then Planned else Over)
  | Planned, EvStartDeletion _ _ _ err => Some (if bool_decide (err = None) then Shrunk else Over)
  | (Ready | Growing | Planned | Shrunk), EvMinSize _ _ => Some Over
  | Reported, _ => None
  | _, EvReport _ _ => Some Reported
  | _, _ => None
  end.

Fixpoint phases (p : phase) evs : option phase :=
  match evs with
  | [] => Some p
  | ev :: evs => p ← next p ev; phases p evs
  end.

Lemma phases_app p evs evs' : phases p (evs ++ evs') = p ← phases p evs; phases p evs'.
Proof. revert p. induction evs as [|ev evs IH]; intros p; [done|]. simpl. destruct (next p ev); [apply IH|done]. Qed.

(** ** Repairs *)

(** The groups of nodes are listed by the provider. *)
Context (groups_of_nodes_listed : ∀ w node g, EnvNodeGroupForNode (World_env c w) node = Ok (Some g) →
  ∃ g', g' ∈ NodeGroups (World_env c w) ∧ Id g' = Id g).

Definition is_repair ev : bool :=
  match ev with EvUnregistered _ | EvUnhealthy | EvFailedNodes _ | EvSizes _ => true | _ => false end.
Definition repairs evs : Prop := Forall (λ ev, is_repair ev = true) evs.

Definition not_repaired (p : phase) : Prop := p = Over ∨ p = Ready.

Lemma repair_evolves currentTime a :
  wp (repair o c currentTime) (λ _ a', ∃ evs, evolves currentTime a evs a' ∧ repairs evs ∧ phases Start evs = Some Ready)
    (λ _ a', ∃ evs p, evolves currentTime a evs a' ∧ repairs evs ∧ phases Start evs = Some p ∧ not_repaired p) a.
Proof.
  unfold repair. apply wp_bind.
  apply (wp_mono _ (λ _ a', ∃ evs p, evolves currentTime a evs a' ∧ repairs evs ∧ phases Start evs = Some p ∧ (p = Start ∨ p = Checked)) _ (λ _ _, False));
    [|intros x a1 (evs1 & p & H1 & Hr1 & Hp1 & Hp)|done].
  { unfold remove_unregistered. apply wp_bind, wp_get. case_bool_decide.
    - apply wp_ret. exists [], Start. split; [by apply quiet_evolves|]. split; [by constructor|]. split; [done|by left].
    - apply wp_call_opt. destruct (removal_returns (World_env c (a_world a)) (LoopDefaults o) (ForceLongUnregistered o)
        (Cloud_DeleteNodes c (a_world a)) (Cloud_ForceDeleteNodes c (a_world a)) (GetUnregisteredNodes (a_csr a)) currentTime)
        as [[[calls removed] err] Hr]; [intros n g _; by apply groups_of_nodes_listed|].
      eexists. rewrite Hr. split; [done|]. exists [EvUnregistered calls], Checked. split; [done|].
      split; [by repeat constructor|]. split; [done|by right]. }
  assert (∀ evs q a', evolves currentTime a1 evs a' → repairs evs → phases p evs = Some q →
    evolves currentTime a (evs1 ++ evs) a' ∧ repairs (evs1 ++ evs) ∧ phases Start (evs1 ++ evs) = Some q) as Hthen.
  { intros evs q a' H Hr Hq. split; [by eapply evolves_app|]. split; [by apply Forall_app|]. by rewrite phases_app, Hp1. }
  apply wp_bind, wp_get. cbn beta. destruct (healthy o a1).
  2:{ apply wp_bind, wp_bind, wp_modify, wp_bind, wp_modify, wp_return. destruct (Hthen [EvUnhealthy] Over
        (logged (with_world a1 (Planner_CleanUpUnneededNodes c (a_world a1))) EvUnhealthy)) as (H & Hr & Hq);
        [done|by repeat constructor|by destruct Hp as [->| ->]|].
      eexists _, _. split; [exact H|]. split; [exact Hr|]. split; [exact Hq|by left]. }
  apply wp_bind, wp_ret, wp_bind, wp_modify. cbn beta zeta. destruct (deleteCreatedNodesWithErrors _ _ _ _ _ _) as [csr calls1].
  apply wp_bind, wp_call. cbn beta. intros a3 y. cbn zeta. destruct (fixNodeGroupSize _ _ _ _) as [[calls2 fixed] err] eqn:Hfix.
  intros [= <- <-]. set (a3 := logged (with_world (logged _ _) _) _).
  destruct (Hthen [EvFailedNodes calls1; EvSizes calls2] (if bool_decide (calls2 = []) then Ready else Over) a3) as (H & Hr & Hq);
    [split; [split; [simpl; by rewrite <- app_assoc|done]|done]|by repeat constructor|by destruct Hp as [->| ->]|].
  assert (not_repaired (if bool_decide (calls2 = []) then Ready else Over)) as Hnr by (case_bool_decide; [by right|by left]).
  apply wp_bind, wp_check; [intros ->|by intros e _; eexists _, _].
  destruct fixed; [apply wp_return; by eexists _, _|]. apply wp_ret. eexists. split; [exact H|]. split; [exact Hr|]. rewrite Hq.
  by apply (nothing_fixed _ (λ _ _, None) (λ _ _, None)) in Hfix as ->.
Qed.

(** ** What each event needs *)

(** The results of scale-down a report may have after some events: the last
    scale-up decides when nothing was planned, the deletion when there was one. *)
Definition outcomes (rs : list ScaleDownResult) ev : list ScaleDownResult :=
  match ev with
  | EvScaleUp _ status _ => if bool_decide (Result status = ScaleUpSuccessful) then [ScaleDownInCooldown] else [ScaleDownNotTried]
  | EvPlan None => [ScaleDownInCooldown; ScaleDownNoCandidates]
  | EvPlan (Some _) => [ScaleDownError]
  | EvStartDeletion _ _ r _ => [r]
  | _ => rs
  end.

(** No time of [a], as the events before [pre] leave them, is recent. *)
Definition cooled currentTime a evs : Prop :=
  time_after scaled_up currentTime (lastScaleUpTime a) evs + ScaleDownDelayAfterAdd o <= currentTime ∧
  time_after deletion_failed currentTime (lastScaleDownFailTime a) evs + ScaleDownDelayAfterFailure o <= currentTime ∧
  time_after deletion_started currentTime (lastScaleDownDeleteTime a) evs + ScaleDownDelayAfterDelete o <= currentTime.

(** In graceful degradation, a loop of every four is for scaling down, the
    others for scaling up. *)
Definition grow_turn (loops : Z) : bool :=
  negb (LoopGracefulDegradation o && (0 <? loops) && (loops `rem` gracefulDegradationCycle =? 0)).
Definition shrink_turn (loops : Z) : bool :=
  negb (LoopGracefulDegradation o && (0 <? loops) && negb (loops `rem` gracefulDegradationCycle =? 0)).

(** [ev] may happen after [pre] in an iteration that starts in [a], in which
    scale-down was disabled as [disabled] says. *)
Definition allowed currentTime a (disabled : bool) (loops : Z) (pre : list event) ev : Prop :=
  match ev with
  | EvScaleUp _ _ _ => grow_turn loops = true
  | EvPlan _ => ScaleDownEnabled o = true ∧ shrink_turn loops = true
  | EvStartDeletion _ _ _ _ => disabled = false ∧ (ScaleDownDelayTypeLocal o = false → cooled currentTime a pre)
  | EvMinSize _ _ => EnforceNodeGroupMinSize o = true
  | EvReport _ down => SdResult down ∈ foldl outcomes [ScaleDownNotTried] pre
  | _ => True
  end.

Fixpoint all_allowed (ok : list event → event → Prop) (pre evs : list event) : Prop :=
  match evs with
  | [] => True
  | ev :: evs => ok pre ev ∧ all_allowed ok (pre ++ [ev]) evs
  end.

Lemma all_allowed_app ok pre evs evs' :
  all_allowed ok pre (evs ++ evs') ↔ all_allowed ok pre evs ∧ all_allowed ok (pre ++ evs) evs'.
Proof.
  revert pre. induction evs as [|ev evs IH]; intros pre; simpl; [rewrite app_nil_r; tauto|].
  rewrite IH, <- app_assoc. simpl. tauto.
Qed.

Lemma all_allowed_split ok pre ev post : all_allowed ok [] (pre ++ ev :: post) → ok pre ev.
Proof. rewrite all_allowed_app. simpl. tauto. Qed.

Lemma repairs_allowed currentTime a d l pre evs : repairs evs → all_allowed (allowed currentTime a d l) pre evs.
Proof. revert pre. induction evs as [|ev evs IH]; intros pre; [done|]. intros [He Hr]%Forall_cons. split; [by destruct ev|by apply IH]. Qed.

Lemma repairs_outcomes evs rs : repairs evs → foldl outcomes rs evs = rs.
Proof. revert rs. induction evs as [|ev evs IH]; intros rs; [done|]. intros [He Hr]%Forall_cons. destruct ev; try done; by apply IH. Qed.

(** An iteration that started in [a] and is now in [a'], after [evs]. *)
Record so_far currentTime a a' evs (p : phase) : Prop := {
  sf_did : did currentTime a evs a';
  sf_phase : phases Start evs = Some p;
  sf_allowed : all_allowed (allowed currentTime a (disableScaleDownForLoop a') (a_loops a')) [] evs
}.

(** The result of scale-down that would be reported now. *)
Definition reports a' evs : Prop := SdResult (scaleDownStatus a') ∈ foldl outcomes [ScaleDownNotTried] evs.

(** What gates scaling up and down. *)
Definition gates a : bool * Z := (disableScaleDownForLoop a, a_loops a).

Lemma so_far_step currentTime a a' evs p a'' new q :
  so_far currentTime a a' evs p → did currentTime a' new a'' → phases p new = Some q → gates a'' = gates a' →
  all_allowed (allowed currentTime a (disableScaleDownForLoop a') (a_loops a')) evs new →
  so_far currentTime a a'' (evs ++ new) q.
Proof.
  intros [Hd Hp Ha] Hev Hq [= Hdis Hloops] Hok. split.
  - by eapply did_app.
  - by rewrite phases_app, Hp.
  - rewrite Hdis, Hloops. by apply all_allowed_app.
Qed.

Lemma so_far_same currentTime a a' evs p a'' :
  so_far currentTime a a' evs p → core a'' = core a' → gates a'' = gates a' → so_far currentTime a a'' evs p.
Proof.
  intros Hs Hc Hg. rewrite <- (app_nil_r evs). eapply so_far_step; [done|by apply did_nil|done|done|done].
Qed.

(** ** Upcoming nodes and pods *)

Lemma add_upcoming_quiet a0 counts suffix (R : auto → Prop) :
  keeps (quiet a0) R (addUpcomingNodesToClusterSnapshot quote snapshot_text c counts suffix).
Proof.
  unfold addUpcomingNodesToClusterSnapshot, getUpcomingNodeInfos, upcoming_nodes. keeps_run.
Qed.

Lemma inject_upcoming_quiet a0 allNodes :
  keeps (quiet a0) (quiet a0) (inject_upcoming quote snapshot_text c allNodes).
Proof.
  unfold inject_upcoming, remove_registered. keeps_run. apply add_upcoming_quiet.
Qed.

(** The flags that choosing the pods and deciding on a scale-up may change are
    those of scale-up: nothing happened yet. *)
Definition undecided a a' : Prop :=
  core a' = core a ∧ scaleUpTriggered a' = scaleUpTriggered a ∧ scaleDownStatus a' = scaleDownStatus a.

Lemma pods_to_help_undecided a0 currentTime pods : keeps (undecided a0) (λ _, False) (pods_to_help ParseDuration o c currentTime pods).
Proof. unfold pods_to_help. keeps_run. Qed.

Lemma shouldScaleUp_turn a pods readyNodes currentTime :
  let '(a', should) := shouldScaleUp PodRequests o c pods readyNodes currentTime a in
  undecided a a' ∧ a_loops a' = a_loops a ∧ (should = true → grow_turn (a_loops a') = true).
Proof.
  unfold shouldScaleUp, grow_turn. cbv zeta.
  set (decision := if bool_decide (pods = []) then _ else _).
  assert (undecided a decision.1 ∧ a_loops decision.1 = a_loops a) as [Hd Hl].
  { unfold decision. repeat case_match; done. }
  destruct decision as [a1 should]. cbn [fst] in Hd, Hl. rewrite Hl.
  destruct (LoopGracefulDegradation o && (0 <? a_loops a) && (a_loops a `rem` gracefulDegradationCycle =? 0)) eqn:Ht; cbn beta iota.
  - split; [done|]. by split.
  - rewrite Hl, Ht. done.
Qed.

Lemma so_far_undecided currentTime a a' evs p a'' : repairs evs →
  so_far currentTime a a' evs p → undecided a' a'' → so_far currentTime a a'' evs p.
Proof.
  intros Hr [Hd Hp Ha] (Hc & Ht & Hs). split; [|done|by apply repairs_allowed].
  rewrite <- (app_nil_r evs). eapply did_app; [done|by apply did_nil].
Qed.

(** ** Scaling up *)

(** The orchestrator only answers pods it was given. *)
Context (triggered_pods_given : ∀ w t csr infos pods nodes daemonsets,
  Forall (λ p, PodUID p ∈ PodUID <$> pods)
    (PodsTriggeredScaleUp (Orchestrator_ScaleUp c w t csr infos pods nodes daemonsets).2.1)).

(** A call of the orchestrator, recorded as [ev]. *)
Lemma instrumentedScaleUp_spec currentTime mk fn a :
  (∀ status err, scaled_up (mk status err) = match err with None => bool_decide (Result status = ScaleUpSuccessful) | Some _ => false end ∧
     deletion_started (mk status err) = false ∧ deletion_failed (mk status err) = false) →
  wp (instrumentedScaleUp c currentTime mk fn) (λ r a',
    did currentTime a [mk r.1.2 r.2] a' ∧ flags a' = flags a ∧
    r.1.1 = PodsTriggeredScaleUp (fn (a_world a) (a_snap a) (a_csr a) (a_templates a)).2.1) (λ _ _, False) a.
Proof.
  intros Hmk. unfold instrumentedScaleUp. apply wp_call. intros a' x.
  destruct (fn _ _ _ _) as [[[[w t] csr] infos] [status err]]. cbn [fst snd].
  set (processed := match ScaleUpStatus_Process c with Some _ => _ | None => _ end). destruct processed as [w' status'].
  intros [= <- <-]. cbn [fst snd]. destruct (Hmk status' err) as (Hm1 & Hm2 & Hm3).
  assert (∀ kind t, time_after kind currentTime t [mk status' err] = if kind (mk status' err) then currentTime else t) as Ht.
  { intros kind t'. unfold time_after. simpl. by rewrite orb_false_r. }
  unfold did. rewrite !Ht, Hm1, Hm2, Hm3. destruct err; [done|]. by case_bool_decide.
Qed.

(** The result the status of a scale-up leaves. *)
Definition after_scale_up (status : ScaleUpStatus) : ScaleDownResult :=
  if bool_decide (Result status = ScaleUpSuccessful) then ScaleDownInCooldown else ScaleDownNotTried.

(** Scale-ups happened, the last one with this status. *)
Definition grown currentTime a f (status : ScaleUpStatus) a' : Prop :=
  ∃ evs, so_far currentTime a a' evs Growing ∧ flags a' = f ∧ foldl outcomes [ScaleDownNotTried] evs = [after_scale_up status].

Lemma runSingleScaleUp_spec currentTime a a1 evs p pods daemonsets nodes :
  so_far currentTime a a1 evs p → p = Ready ∨ p = Growing → grow_turn (a_loops a1) = true →
  wp (runSingleScaleUp c currentTime pods daemonsets nodes) (λ r a',
    so_far currentTime a a' (evs ++ [EvScaleUp pods r.1.2 r.2]) Growing ∧ grown currentTime a (flags a1) r.1.2 a' ∧
    Forall (λ p, PodUID p ∈ PodUID <$> pods) r.1.1) (λ _ _, False) a1.
Proof.
  intros Hs Hp Ht. unfold runSingleScaleUp.
  eapply wp_mono; [apply instrumentedScaleUp_spec; by intros ? []| |done]. cbn beta.
  intros [[handled status] err] a' (Hd & Hf & Hh). cbn [fst snd] in *.
  assert (so_far currentTime a a' (evs ++ [EvScaleUp pods status err]) Growing) as Hs'.
  { eapply so_far_step; [done|exact Hd|by destruct Hp as [->| ->]| |by split]. by injection Hf as ? ? ? ? ?; unfold gates; f_equal. }
  split; [done|]. split; [|rewrite Hh; apply triggered_pods_given].
  eexists. split; [done|]. split; [done|]. rewrite foldl_app. unfold after_scale_up. simpl. by case_bool_decide.
Qed.

(** The pods of a salvo by UID. *)
Definition by_uid (m : gmap string Pod) : Prop := map_Forall (λ u p, PodUID p = u) m.

Lemma delete_handled (handled : list Pod) (m : gmap string Pod) : by_uid m →
  by_uid (foldl (λ m pod, delete (PodUID pod) m) m handled) ∧
  (handled ≠ [] → Forall (λ p, is_Some (m !! PodUID p)) handled →
   (size (foldl (λ m pod, delete (PodUID pod) m) m handled) < size m)%nat).
Proof.
  assert (∀ l (m : gmap string Pod), foldl (λ m pod, delete (PodUID pod) m) m l ⊆ m) as Hsub.
  { induction l as [|p l IH]; intros m'; [done|]. simpl. etrans; [apply IH|apply delete_subseteq]. }
  intros Hm. split.
  { intros u p Hp. apply Hm. by eapply lookup_weaken; [|apply (Hsub handled)]. }
  destruct handled as [|p l]; [done|]. intros _ [Hp _]%Forall_cons. simpl.
  pose proof (map_subseteq_size _ _ (Hsub l (delete (PodUID p) m))) as Hsize.
  rewrite (map_size_delete_Some _ _ Hp) in Hsize. destruct Hp as [q Hq].
  assert (size m ≠ 0%nat) as Hne by (apply map_size_non_empty_iff; intros ->; done). lia.
Qed.

Lemma salvo_grows currentTime deadline daemonsets a : ∀ fuel i podsMap nodes a1 evs p,
  (size podsMap < fuel)%nat → by_uid podsMap →
  so_far currentTime a a1 evs p → p = Ready ∨ p = Growing → grow_turn (a_loops a1) = true →
  wp (salvo_loop quote snapshot_text c fuel currentTime deadline daemonsets i podsMap nodes)
    (λ r a', grown currentTime a (flags a1) r.1 a') (λ _ _, False) a1.
Proof.
  induction fuel as [|fuel IH]; intros i podsMap nodes a1 evs p Hsize Hm Hs Hp Ht; [lia|]. cbn [salvo_loop].
  apply wp_bind. eapply wp_mono; [by eapply runSingleScaleUp_spec| |done]. cbn beta.
  intros [[handled status] err] a2 (Hs2 & Hg & Hh). cbn [fst snd] in *.
  destruct (bool_decide (is_Some err) || negb (WasSuccessful status) || bool_decide (handled = [])) eqn:Hstop; [by apply wp_ret|].
  apply orb_false_iff in Hstop as [_ Hne%bool_decide_eq_false]. cbv zeta.
  destruct (delete_handled handled podsMap Hm) as [Hm' Hsize'].
  set (rest := foldl _ podsMap handled) in *. case_bool_decide; [by apply wp_ret|].
  apply wp_bind, wp_get. destruct (Deadline_passed c (a_world a2) deadline); [by apply wp_ret|].
  apply wp_bind. apply (wp_mono _ (λ _, quiet a2) _ (λ _ _, False)); [| |done].
  { assert (keeps (quiet a2) (λ _, False) (addLatestScaleUpResultsToClusterSnapshot quote snapshot_text c i status handled)) as Hk;
      [|by apply Hk].
    unfold addLatestScaleUpResultsToClusterSnapshot. keeps_run. apply add_upcoming_quiet. }
  destruct Hg as (evs2 & Hs2' & Hf2 & Hout2).
  intros [newNodes|] a3 [Hc3 Hf3]; [|].
  2:{ apply wp_ret. exists evs2. split; [|split; [by rewrite Hf3|done]]. eapply so_far_same; [done|done|].
      by injection Hf3 as ? ? ? ? ?; unfold gates; f_equal. }
  assert (gates a3 = gates a2) as Hg3 by (by injection Hf3 as ? ? ? ? ?; unfold gates; f_equal).
  rewrite <- Hf2, <- Hf3. eapply (IH _ _ _ _ _ Growing); [|done|by eapply so_far_same|by right|].
  - assert (size rest < size podsMap)%nat; [|lia]. apply Hsize'; [done|].
    eapply Forall_impl; [exact Hh|]. intros q (q' & -> & ([u q''] & -> & Hq')%list_elem_of_fmap)%list_elem_of_fmap.
    apply elem_of_go_range in Hq'. simpl. rewrite (Hm _ _ Hq'). by eexists.
  - by injection Hg3 as ? ->; injection Hf2 as ? -> ? ? ?.
Qed.

Lemma flags_gates a a' : flags a' = flags a → gates a' = gates a.
Proof. unfold flags, gates. by intros [= -> -> _ _ _]. Qed.

Lemma runScaleUpSalvo_grows currentTime pods daemonsets nodes a a1 evs p :
  so_far currentTime a a1 evs p → p = Ready ∨ p = Growing → grow_turn (a_loops a1) = true →
  wp (runScaleUpSalvo quote snapshot_text o c currentTime pods daemonsets nodes)
    (λ r a', grown currentTime a (flags a1) r.1 a') (λ _ _, False) a1.
Proof.
  intros Hs Hp Ht. unfold runScaleUpSalvo. cbv zeta. apply wp_bind, wp_get. eapply salvo_grows; [lia| |done..].
  apply (foldl_inv (λ m : gmap string Pod, by_uid m)); [done|]. intros m pod _ Hm. by apply map_Forall_insert_2.
Qed.

Lemma scale_up_grows currentTime pods daemonsets nodes a a1 evs p :
  so_far currentTime a a1 evs p → p = Ready ∨ p = Growing → grow_turn (a_loops a1) = true →
  SdResult (scaleDownStatus a1) = ScaleDownNotTried →
  wp (scale_up quote snapshot_text o c currentTime pods daemonsets nodes)
    (λ _ a', ∃ evs', so_far currentTime a a' evs' Growing ∧ reports a' evs' ∧ gates a' = gates a1) (λ _ _, False) a1.
Proof.
  intros Hs Hp Ht Hdown. unfold scale_up. apply wp_bind, wp_modify. cbn beta. set (a2 := with_triggered a1 true).
  assert (so_far currentTime a a2 evs p) as Hs2 by (by eapply so_far_same).
  apply wp_bind. apply (wp_mono _ (λ status a', grown currentTime a (flags a2) status a') _ (λ _ _, False)); [| |done].
  - destruct (SalvoScaleUp o); apply wp_bind.
    + eapply wp_mono; [by eapply runScaleUpSalvo_grows| |done]. by intros [status err] a' Hg.
    + eapply wp_mono; [by eapply runSingleScaleUp_spec| |done]. by intros [[handled status] err] a' (_ & Hg & _).
  - intros status a3 (evs3 & Hs3 & Hf3 & Hout). apply wp_bind, wp_modify. cbn beta.
    pose proof (flags_gates _ _ Hf3) as Hg3.
    assert (SdResult (scaleDownStatus a3) = ScaleDownNotTried) as Hd3 by (by injection Hf3 as ? ? ? ? ->).
    unfold after_scale_up in Hout. unfold reports. case_bool_decide; [apply wp_modify|apply wp_ret]; exists evs3;
      rewrite Hout; (split; [by eapply so_far_same|]; split; [by apply list_elem_of_singleton|done]).
Qed.

(** ** Scaling down *)

Lemma updateSoftDeletionTaints_quiet a0 (R : auto → Prop) allNodes : keeps (quiet a0) R (updateSoftDeletionTaints o c allNodes).
Proof.
  unfold updateSoftDeletionTaints. keeps_run. apply keeps_call_opt. intros a Ha. cbv zeta.
  destruct (EvictionProofs.soft_taints_within_budget (a_world a) (MaxBulkSoftTaintCount o) (MaxBulkSoftTaintTime o)
    (intersectNodes (filterNodesFromSelectedGroups (World_env c (a_world a)) allNodes)
       (retrieveNodes (Planner_UnneededNodes c (a_world a))))
    (subtractNodes (filterNodesFromSelectedGroups (World_env c (a_world a)) allNodes)
       (intersectNodes (filterNodesFromSelectedGroups (World_env c (a_world a)) allNodes)
          (retrieveNodes (Planner_UnneededNodes c (a_world a)))))) as (w' & b & errors & Hu & _).
  rewrite Hu. by eexists.
Qed.

(** Phases in which the minimal sizes may still be enforced, and phases before
    the report. *)
Definition is_open (p : phase) : Prop := p = Ready ∨ p = Growing ∨ p = Planned ∨ p = Shrunk.
Definition unreported (p : phase) : Prop := is_open p ∨ p = Over.

Definition stands currentTime a (P : phase → Prop) a' : Prop :=
  ∃ evs p, so_far currentTime a a' evs p ∧ reports a' evs ∧ P p.

Lemma stands_quiet currentTime a P a' a'' : stands currentTime a P a' → quiet a' a'' → stands currentTime a P a''.
Proof.
  intros (evs & p & Hs & Hr & Hp) [Hc Hf]. exists evs, p. split; [|split; [|done]].
  - eapply so_far_same; [done|done|by apply flags_gates].
  - unfold reports. by injection Hf as _ _ _ _ ->.
Qed.

Lemma update_planner_plans currentTime candidates destinations status a a1 evs p :
  so_far currentTime a a1 evs p → p = Ready ∨ p = Growing → shouldScaleDown o a1 = true →
  wp (update_planner c currentTime candidates destinations status)
    (λ _ a', so_far currentTime a a' (evs ++ [EvPlan None]) Planned ∧ gates a' = gates a1)
    (λ _ a', stands currentTime a unreported a') a1.
Proof.
  intros Hs Hp Ht. unfold update_planner. apply wp_bind, wp_call. intros a2 err.
  destruct (Planner_UpdateClusterState c _ _ _ _ _ _) as [[w t] err']. intros [= <- <-].
  apply wp_bind, wp_modify. set (a2 := logged _ _). destruct (Candidates_Update c _ _ _ _) as [w' csr]. cbn beta iota.
  set (a3 := with_csr (with_world a2 w') csr).
  assert (so_far currentTime a a3 (evs ++ [EvPlan err']) (if bool_decide (err' = None) then Planned else Over)) as Hs3.
  { eapply so_far_step; [done| |destruct Hp as [->| ->]; reflexivity|done|].
    - apply (did_app _ _ [] a1); [by apply did_nil|]. done.
    - split; [|done]. revert Ht. unfold shouldScaleDown. cbn. by destruct (ScaleDownEnabled o). }
  destruct err' as [e|]; [|by apply wp_ret].
  apply wp_bind, wp_modify, wp_return. eexists _, _. split; [by eapply so_far_same|]. split; [|by right].
  unfold reports. rewrite foldl_app. simpl. by left.
Qed.

Lemma start_deletion_shrinks currentTime allNodes a a1 evs :
  so_far currentTime a a1 evs Planned →
  allowed currentTime a (disableScaleDownForLoop a1) (a_loops a1) evs (EvStartDeletion [] [] ScaleDownError None) →
  wp (start_deletion o c currentTime allNodes) (λ _ a', stands currentTime a is_open a' ∧ gates a' = gates a1)
    (λ _ a', stands currentTime a unreported a') a1.
Proof.
  intros Hs Hok. unfold start_deletion. apply wp_bind, wp_call_world. intros w [empty needDrain] _. cbn beta iota.
  apply wp_bind, wp_call. intros a2 err. destruct (Actuator_StartDeletion c _ _ _ _) as [[w' t] [[r scaled] err']]. intros [= <- <-].
  apply wp_bind, wp_modify. cbn beta. set (a2 := with_down _ _). cbn zeta beta.
  set (a3 := if bool_decide _ then _ else _). set (ev := EvStartDeletion empty needDrain r err') in *.
  assert (a_log a3 = a_log a1 ++ [ev] ∧ lastScaleUpTime a3 = lastScaleUpTime a1 ∧
    lastScaleDownDeleteTime a3 = time_after deletion_started currentTime (lastScaleDownDeleteTime a1) [ev] ∧
    lastScaleDownFailTime a3 = lastScaleDownFailTime a1 ∧ gates a3 = gates a1 ∧ SdResult (scaleDownStatus a3) = r)
    as (Hl & Ht1 & Ht2 & Ht3 & Hg & Hr).
  { unfold a3, time_after. cbn. by case_bool_decide. }
  apply wp_bind. eapply wp_mono; [by apply (updateSoftDeletionTaints_quiet a3 (λ _, False))| |done].
  intros x a4 [Hc4 Hf4]. pose proof (flags_gates _ _ Hf4) as Hg4. injection Hc4 as Hc1 Hc2 Hc3 Hc5. injection Hf4 as _ _ _ _ Hs4.
  assert (∀ a5 : auto, core a5 = (a_log a4, (lastScaleUpTime a4, lastScaleDownDeleteTime a4,
      time_after deletion_failed currentTime (lastScaleDownFailTime a4) [ev])) →
    gates a5 = gates a4 → scaleDownStatus a5 = scaleDownStatus a4 →
    so_far currentTime a a5 (evs ++ [ev]) (if bool_decide (err' = None) then Shrunk else Over) ∧ reports a5 (evs ++ [ev])) as Hend.
  { intros a5 [= H1 H2 H3 H4] H5 H6. split.
    - eapply so_far_step; [done| |reflexivity|congruence|split; [exact Hok|done]].
      unfold did. rewrite H1, H2, H3, H4, Hc1, Hc2, Hc3, Hc5, Hl, Ht1, Ht2, Ht3. done.
    - unfold reports. rewrite foldl_app, H6, Hs4, Hr. simpl. by left. }
  destruct err' as [e|].
  - apply wp_bind, wp_modify, wp_return. destruct (Hend (with_fail_time a4 currentTime)) as [H1 H2]; [done..|].
    eexists _, _. split; [exact H1|]. split; [exact H2|by right].
  - apply wp_ret. destruct (Hend a4) as [H1 H2]; [done..|]. split; [|congruence].
    eexists _, _. split; [exact H1|]. split; [exact H2|]. by right; right; right.
Qed.

(** A result of scale-down is set, and the soft taints are updated. *)
Lemma settle currentTime r allNodes a a1 evs :
  so_far currentTime a a1 evs Planned → r ∈ foldl outcomes [ScaleDownNotTried] evs →
  wp (bind (down_result r) (λ _, updateSoftDeletionTaints o c allNodes))
    (λ _ a', stands currentTime a is_open a' ∧ gates a' = gates a1) (λ _ _, False) a1.
Proof.
  intros Hs Hr. apply wp_bind, wp_modify. cbn beta. set (a2 := with_down _ _).
  assert (stands currentTime a is_open a2) as Ha2.
  { eexists _, _. split; [by eapply so_far_same|]. split; [exact Hr|]. by right; right; left. }
  eapply wp_mono; [by apply (updateSoftDeletionTaints_quiet a2 (λ _, False))| |done].
  intros x a' Hq. split; [by eapply stands_quiet|]. destruct Hq as [_ Hf]. by rewrite (flags_gates _ _ Hf).
Qed.

Lemma scaleDown_shrinks currentTime allNodes status a a1 evs p :
  so_far currentTime a a1 evs p → p = Ready ∨ p = Growing → reports a1 evs → shouldScaleDown o a1 = true →
  wp (scaleDown o c currentTime allNodes status) (λ _ a', stands currentTime a is_open a' ∧ gates a' = gates a1)
    (λ _ a', stands currentTime a unreported a') a1.
Proof.
  intros Hs Hp Hr Ht. unfold scaleDown. apply wp_bind.
  assert (stands currentTime a unreported a1) as Hnow.
  { exists evs, p. split; [done|]. split; [done|]. left. destruct Hp; [by left|by right; left]. }
  eapply (wp_mono _ (λ _ a', a' = a1) _ (λ _ a', a' = a1)); [|intros lists a2 -> |by intros ? ? ->].
  { assert (keeps (λ a', a' = a1) (λ a', a' = a1) (scale_down_lists c allNodes)) as Hk; [|by apply Hk].
    unfold scale_down_lists. keeps_run. }
  destruct lists as [candidates destinations]. apply wp_bind.
  eapply wp_mono; [by eapply update_planner_plans| |done]. intros x a2 [Hs2 Hg2]. apply wp_bind, wp_get. cbn beta.
  set (cooldown := isScaleDownInCooldown o currentTime a2). apply wp_bind.
  apply (wp_mono _ (λ _ a', so_far currentTime a a' (evs ++ [EvPlan None]) Planned ∧ core a' = core a2 ∧ gates a' = gates a2)
    _ (λ _ _, False)); [| |done].
  { case_bool_decide; [|by apply wp_ret]. apply wp_bind, wp_call_world. intros w groups _. apply wp_modify.
    split; [by eapply so_far_same|done]. }
  intros y a3 (Hs3 & Hc3 & Hg3).
  assert (∀ r, r ∈ [ScaleDownInCooldown; ScaleDownNoCandidates] → r ∈ foldl outcomes [ScaleDownNotTried] (evs ++ [EvPlan None])) as Hout.
  { intros r Hin. by rewrite foldl_app. }
  destruct cooldown eqn:Hcool; [|case_bool_decide].
  - eapply wp_mono; [eapply settle; [exact Hs3|apply Hout; by left]| |done]. intros z a4 [H1 H2]. split; [done|congruence].
  - eapply wp_mono; [eapply settle; [exact Hs3|apply Hout; by right; left]| |done]. intros z a4 [H1 H2]. split; [done|congruence].
  - eapply wp_mono; [eapply start_deletion_shrinks; [exact Hs3|]| |done].
    2:{ intros z a4 [H1 H2]. split; [done|congruence]. }
    unfold cooldown, isScaleDownInCooldown in Hcool. injection Hg3 as Hd3 _. simpl. rewrite Hd3.
    destruct Hs2 as [(_ & Hu & Hdel & Hfail) _ _].
    destruct (ScaleDownDelayTypeLocal o); [done|]. apply orb_false_iff in Hcool as [[[Hd Hup]%orb_false_iff Hf]%orb_false_iff Hde].
    split; [done|]. intros _. unfold cooled. rewrite <- Hu, <- Hdel, <- Hfail. lia.
Qed.

(** ** The iteration *)

Lemma enforce_min_size_stands currentTime nodes a a1 :
  stands currentTime a is_open a1 →
  wp (enforce_min_size o c currentTime nodes) (λ _ a', stands currentTime a unreported a') (λ _ _, False) a1.
Proof.
  intros (evs & p & Hs & Hr & Hp). unfold enforce_min_size. destruct (EnforceNodeGroupMinSize o) eqn:He.
  2:{ apply wp_ret. exists evs, p. split; [done|]. split; [done|by left]. }
  apply wp_bind, wp_modify, wp_bind. cbn beta. eapply wp_mono; [apply instrumentedScaleUp_spec; by intros ? []| |done]. cbn beta.
  intros [[triggered status] err] a2 (Hd & Hf & _). cbn [fst snd] in *. apply wp_modify.
  pose proof (flags_gates _ _ Hf) as Hg. exists (evs ++ [EvMinSize status err]), Over. split; [|split; [|by right]].
  - eapply (so_far_step _ _ a1); [done| |by destruct Hp as [->|[->|[->| ->]]]|done|by split]. exact Hd.
  - unfold reports in *. rewrite foldl_app. cbn. injection Hf as _ _ _ _ Hsd. by rewrite Hsd.
Qed.

Lemma act_stands currentTime ob a a1 :
  so_far currentTime a a1 [] Start → SdResult (scaleDownStatus a1) = ScaleDownNotTried →
  wp (act PodRequests ParseDuration quote snapshot_text o c currentTime ob)
    (λ _ a', stands currentTime a unreported a') (λ _ a', stands currentTime a unreported a') a1.
Proof.
  intros Hs Hdown. unfold act. apply wp_bind.
  assert (∀ evs p a2, evolves currentTime a1 evs a2 → repairs evs → phases Start evs = Some p →
    so_far currentTime a a2 evs p ∧ SdResult (scaleDownStatus a2) = ScaleDownNotTried) as Hrep.
  { intros evs p a2 [Hd Hf] Hr Hp. pose proof (flags_gates _ _ Hf) as Hg. split; [|by injection Hf as _ _ _ _ ->].
    by apply (so_far_step _ _ a1 [] Start); [done|done|done|done|apply repairs_allowed]. }
  assert (∀ evs p a2, so_far currentTime a a2 evs p → repairs evs → SdResult (scaleDownStatus a2) = ScaleDownNotTried →
    unreported p → stands currentTime a unreported a2) as Hstands.
  { intros evs p a2 Hs2 Hr Hsd Hp. exists evs, p. split; [done|]. split; [|done]. unfold reports.
    rewrite (repairs_outcomes _ _ Hr), Hsd. by left. }
  eapply wp_mono; [apply repair_evolves| |].
  2:{ intros e a2 (evs & p & He & Hr & Hp & Hnr). destruct (Hrep _ _ _ He Hr Hp) as [H1 H2].
      eapply Hstands; [done..|]. destruct Hnr as [->| ->]; [by right|by left; left]. }
  intros x a2 (evs & He & Hr & Hp). destruct (Hrep _ _ _ He Hr Hp) as [Hs2 Hd2]. clear x.
  assert (unreported Ready) as HR by (by left; left). apply wp_bind.
  eapply wp_mono; [by apply (inject_upcoming_quiet a2)| |].
  2:{ intros e a3 Hq. eapply stands_quiet; [by eapply Hstands|done]. }
  intros [allNodes allNodeInfos] a3 [Hc3 Hf3]. apply wp_bind.
  assert (undecided a2 a3) as Hu3 by (injection Hf3 as _ _ Hx _ Hy; done).
  eapply wp_mono; [by apply (pods_to_help_undecided a2)| |done]. intros pods a4 Hu4. apply wp_bind, wp_call.
  intros a5 should Hshould. pose proof (shouldScaleUp_turn a4 pods (ob_readyNodes ob) currentTime) as Ht. rewrite Hshould in Ht.
  destruct Ht as (Hu5 & Hl5 & Hturn).
  assert (undecided a2 a5) as Hu.
  { destruct Hu4 as (E1 & E2 & E3), Hu5 as (E4 & E5 & E6). unfold undecided. by rewrite E4, E5, E6, E1, E2, E3. }
  assert (so_far currentTime a a5 evs Ready) as Hs5 by (by eapply so_far_undecided).
  assert (SdResult (scaleDownStatus a5) = ScaleDownNotTried) as Hd5 by (by destruct Hu as (_ & _ & ->)).
  apply wp_bind, wp_get, wp_bind. destruct (Context_cancelled c (a_world a5)); [apply wp_return; by eapply Hstands|].
  apply wp_ret. cbv zeta. apply wp_bind.
  apply (wp_mono _ (λ _ a6, ∃ evs6 p, so_far currentTime a a6 evs6 p ∧ (p = Ready ∨ p = Growing) ∧ reports a6 evs6) _ (λ _ _, False));
    [| |done].
  { destruct should; [|apply wp_ret; exists evs, Ready; split; [done|]; split; [by left|]].
    - eapply wp_mono; [eapply scale_up_grows; [done|by left|by apply Hturn|done]| |done].
      intros x a6 (evs6 & H1 & H2 & _). exists evs6, Growing. split; [done|]. split; [by right|done].
    - unfold reports. rewrite (repairs_outcomes _ _ Hr), Hd5. by left. }
  intros x a6 (evs6 & p6 & Hs6 & Hp6 & Hr6). apply wp_bind, wp_get, wp_bind.
  assert (is_open p6) as Ho6 by (destruct Hp6 as [->| ->]; [by left|by right; left]).
  destruct (shouldScaleDown o a6) eqn:Hdown6.
  - eapply wp_mono; [by eapply scaleDown_shrinks| |done]. intros y a7 [H7 _]. eapply wp_mono; [by apply enforce_min_size_stands|done|done].
  - apply wp_ret. eapply wp_mono; [apply enforce_min_size_stands; by exists evs6, p6|done|done].
Qed.

Abbreviation RunOnce := (RunOnce PodRequests ParseDuration quote snapshot_text o c).

Lemma RunOnce_trace currentTime a : ∃ a' r evs, RunOnce currentTime a = Some (a', r) ∧ did currentTime a evs a' ∧
  (evs = [] ∨ phases Start evs = Some Reported) ∧
  all_allowed (allowed currentTime a (disableScaleDownForLoop a') (a_loops a')) [] evs.
Proof.
  set (P := λ a', ∃ evs, did currentTime a evs a' ∧ (evs = [] ∨ phases Start evs = Some Reported) ∧
    all_allowed (allowed currentTime a (disableScaleDownForLoop a') (a_loops a')) [] evs).
  assert (wp (RunOnce currentTime) (λ _, P) (λ _, P) a) as Hwp.
  2:{ unfold wp in Hwp. destruct (RunOnce currentTime a) as [[a' r]|]; [|done].
      destruct r; destruct Hwp as (evs & Hd & Hp & Ha); by eexists _, _, evs. }
  unfold MainLoop.RunOnce. apply wp_bind. eapply wp_mono; [apply observe_core| |].
  2:{ intros e a1 Hc. exists []. split; [by apply did_nil|]. split; [by left|done]. }
  intros ob a1 [Hc1 _]. apply wp_bind, wp_modify. cbn beta. set (a2 := with_down _ _).
  assert (so_far currentTime a a2 [] Start) as Hs2 by (split; [by apply did_nil|done..]).
  assert (∀ a3, stands currentTime a unreported a3 → wp (report o c currentTime) (λ _, P) (λ _, P) a3) as Hreport.
  { intros a3 (evs & p & Hs & Hr & Hp). eapply wp_mono; [apply report_did| |done]. cbn beta.
    intros _ a4 (up & down & Hd & Hres & Hdis & Hl).
    destruct (so_far_step currentTime a a3 evs p a4 [EvReport up down] Reported) as [H1 H2 H3]; [done..| | | |].
    - destruct Hp as [[->|[->|[->| ->]]]| ->]; done.
    - unfold gates. by rewrite Hdis, Hl.
    - split; [|done]. simpl. by rewrite Hres.
    - eexists. split; [done|]. split; [by right|done]. }
  apply wp_defer. eapply wp_mono; [by apply (act_stands currentTime ob a a2)| |]; intros; by apply Hreport.
Qed.

(** C4. When the cloud provider lists the groups of its nodes and the
    orchestrator only answers pods it was given, an iteration of the main loop
    always returns, whatever else the components answer: with nothing done when
    the cluster could not be observed, and otherwise with one report, which is
    the last thing it does. Repairs come
    first and may end it; scale-ups come before the plan, the plan before the
    only deletion, enforcing the minimal sizes last. The result of scale-down
    that is reported is that of the deletion, or why there was none. A time of
    the last scale-up, deletion or failed deletion is that of this iteration
    when such a thing happened, and otherwise unchanged. *)
Theorem iteration_exact currentTime a : ∃ a' r evs,
  RunOnce currentTime a = Some (a', r) ∧ a_log a' = a_log a ++ evs ∧
  (evs = [] ∨
   phases Start evs = Some Reported ∧
   ∃ events up down, evs = events ++ [EvReport up down] ∧ SdResult down ∈ foldl outcomes [ScaleDownNotTried] events) ∧
  lastScaleUpTime a' = time_after scaled_up currentTime (lastScaleUpTime a) evs ∧
  lastScaleDownDeleteTime a' = time_after deletion_started currentTime (lastScaleDownDeleteTime a) evs ∧
  lastScaleDownFailTime a' = time_after deletion_failed currentTime (lastScaleDownFailTime a) evs.
Proof.
  destruct (RunOnce_trace currentTime a) as (a' & r & evs & Hr & (Hl & Hu & Hd & Hf) & Hp & Ha).
  exists a', r, evs. split; [done|]. split; [done|]. split; [|done]. destruct Hp as [->|Hp]; [by left|right]. split; [done|].
  destruct evs as [|ev events _] using rev_ind; [done|]. clear Hl Hu Hd Hf Hr.
  rewrite phases_app in Hp. destruct (phases Start events) as [p|]; [|done]. simpl in Hp.
  destruct (next p ev) as [q|] eqn:Hq; simpl in Hp; [|done]. injection Hp as ->.
  assert (∃ up down, ev = EvReport up down) as (up & down & ->).
  { destruct p, ev; simpl in Hq; try case_bool_decide; simplify_eq; by eexists _, _. }
  exists events, up, down. split; [done|]. exact (all_allowed_split _ events (EvReport up down) [] Ha).
Qed.

(** The events that lead to scaling and to the plan. *)
Definition repaired evs : Prop :=
  ∃ unregistered failed, evs = unregistered ++ [EvFailedNodes failed; EvSizes []] ∧
    (unregistered = [] ∨ ∃ calls, unregistered = [EvUnregistered calls]).
Definition scale_ups evs : Prop := Forall (λ ev, ∃ pods status err, ev = EvScaleUp pods status err) evs.
Definition shape (p : phase) evs : Prop :=
  match p with
  | Start => evs = []
  | Checked => ∃ calls, evs = [EvUnregistered calls]
  | Cleaned => ∃ unregistered failed, evs = unregistered ++ [EvFailedNodes failed] ∧
      (unregistered = [] ∨ ∃ calls, unregistered = [EvUnregistered calls])
  | Ready | Growing => ∃ fixes ups, evs = fixes ++ ups ∧ repaired fixes ∧ scale_ups ups
  | Planned => ∃ fixes ups, evs = fixes ++ ups ++ [EvPlan None] ∧ repaired fixes ∧ scale_ups ups
  | Shrunk | Over | Reported => True
  end.

Lemma phases_shape evs p : phases Start evs = Some p → shape p evs.
Proof.
  revert p. induction evs as [|ev evs IH] using rev_ind; intros p; [by intros [= <-]|].
  rewrite phases_app. destruct (phases Start evs) as [q|]; [|done]. specialize (IH q eq_refl). simpl.
  destruct (next q ev) as [p'|] eqn:Hn; simpl; [|done]. intros [= ->].
  destruct q, ev; simpl in Hn; try done; simpl in IH; try (case_bool_decide; subst); simplify_eq; simpl; try done.
  - subst. by eexists.
  - subst. eexists [], _. split; [done|by left].
  - destruct IH as [calls0 ->]. eexists [_], _. split; [done|right; by eexists].
  - destruct IH as (un & failed0 & -> & Hun). eexists _, []. rewrite app_nil_r. split; [done|].
    split; [|by constructor]. exists un, failed0. by rewrite <- app_assoc.
  - destruct IH as (fixes & ups & -> & Hf & Hu). exists fixes, (ups ++ [EvScaleUp pods status err]).
    rewrite <- app_assoc. split; [done|]. split; [done|]. apply Forall_app. split; [done|]. constructor; [|done]. by eexists _, _, _.
  - destruct IH as (fixes & ups & -> & Hf & Hu). exists fixes, ups. by rewrite <- app_assoc.
  - destruct IH as (fixes & ups & -> & Hf & Hu). exists fixes, (ups ++ [EvScaleUp pods status err]).
    rewrite <- app_assoc. split; [done|]. split; [done|]. apply Forall_app. split; [done|]. constructor; [|done]. by eexists _, _, _.
  - destruct IH as (fixes & ups & -> & Hf & Hu). exists fixes, ups. by rewrite <- app_assoc.
Qed.

End main_loop_proofs.

(** Three nodes of two groups, of which one is not needed, and maybe a pod that
    waits for a node; the orchestrator answers as it is told. *)
Module LoopExample.
Import ClusterState.CsrExample.

#[local, refine] Instance clock_client : NodeClient nat := {|
  api_Get w name := (w, Ok None);
  api_Update w node := (w, None);
  api_Now w := Z.of_nat w;
  api_Sleep w d := (w + Z.to_nat d)%nat
|}.
Proof. all: intros; simpl; lia. Defined.

#[local] Instance cs : ClusterSnapshot demo_sched unit unit (SnapshotSpec.spec_state demo_sched unit unit) :=
  ref_snapshot (λ _ _, true).
Abbreviation NI := (NodeInfo demo_sched unit unit).
Abbreviation T := (SnapshotSpec.spec_state demo_sched unit unit).

Definition hour : Z := 3600 * second.
Definition options (local : bool) : loop_options :=
  mkLoopOptions false false 10 second hour ∅ ∅ (-10) 0 0 false false 0 false true local (hour / 6) (hour / 6) (hour / 6) false
    RepairsExample.no_options false false (mkTaintConfig ∅ ∅ [] [] ∅ false) 3 (λ _ _, false).

Definition nodes : list Node := [node "a1" "a"; node "a2" "a"; node "a3" "a"; node "b1" "b"].
Definition waiting : Pod :=
  mkPod "default" "p" "p" ∅ ∅ [] None None (Some 0) RestartPolicyAlways PodPending [] [] [] None "" "" "default-scheduler"
    (Some (ConditionFalse, "Unschedulable"%string)).
Definition grown (ok : bool) (pods : list Pod) : ScaleUpStatus * option AutoscalerError :=
  if ok then (mkStatus ScaleUpSuccessful None [] pods [] [] [] [] [] [], None)
  else let e := NewAutoscalerError CloudProviderError "out of stock" in (error_status e [] [] [] [] [], Some e).

(** The pods of the cluster, and whether the cloud has room. *)
Definition comps (pods : list Pod) (room : bool)
    : components (S := demo_sched) (Slice := unit) (CSI := unit) (T := T) (W := nat) (Claims := unit) (CsiNodes := unit)
        (DaemonSets := unit) (Pdbs := unit) (Reason := unit) (Util := unit) (ScaledDown := string) (Ongoing := unit) := {|
  AllNodes_List _ := Ok nodes; ReadyNodes_List _ := Ok nodes; AllPods_List _ := Ok pods; DaemonSets_List _ := Ok tt;
  Pdb_List _ := Ok tt; DraProvider_Snapshot := None; CsiProvider_Snapshot := None;
  ClearFakePods := id; FilterOutNodesWithUnreadyResources all ready _ _ := (all, ready);
  ShouldAbort w _ _ _ := (w, (false, None)); LoopStart_Refresh := id;
  PodList_Process w t loops l := ((w, t, loops), Ok l);
  ShouldForceScaleUp _ := false; ScaleUpStatus_Process := None; ScaleDownStatus_Process := Some (λ w _, w);
  AutoscalingStatus_Process := None; WriteStatus w _ _ := w;
  GetScaleDownCandidates := None; GetPodDestinationCandidates _ l := Ok l;
  Candidates_Update w csr _ _ := (w, csr); RemoveUnneededNodeGroups w := (w, []);
  CloudProvider_Refresh w := (w, None); World_env _ := env; CloudInstances _ := Ok ∅; Notify w _ := w;
  Cloud_DeleteNodes _ _ _ := None; Cloud_ForceDeleteNodes _ _ _ := None; Cloud_DecreaseTargetSize _ _ _ := None;
  Cloud_Apply w _ := w; Clock_of w _ := Z.of_nat w;
  Snapshot_SetClusterState t _ _ _ _ := (t, None); ListNodeInfos t := (t, Ok (map_to_list (SnapshotSpec.cur t)).*2);
  Pdb_SetPdbs w _ := (w, None); Templates_Recompute w _ _ _ := (w, Ok ∅);
  SanitizedNodeInfo w ni _ := (w, Ok ni); mark_upcoming ni := ni;
  Context_cancelled _ := false; Deadline_passed _ _ := false;
  Orchestrator_ScaleUp w t csr infos pods _ _ := ((w, t, csr, infos), grown room pods);
  Orchestrator_MinSize w t csr infos _ := ((w, t, csr, infos), grown true []);
  Planner_UpdateClusterState w t _ _ _ _ := (w, t, None); Planner_CleanUpUnneededNodes w := w;
  Planner_NodesToDelete w _ := (w, ([node "a3" "a"], [])); Planner_UnneededNodes _ := []; Planner_UnremovableNodes _ := [];
  Planner_NodeUtilizationMap _ := ∅; CheckStatus _ := tt; DrainsInProgress _ := [];
  Actuator_StartDeletion w t empty _ := (w, t, (ScaleDownNodeDeleteStarted, Name <$> empty, None));
  Actuator_DeletionResults _ := (∅, 0); Actuator_ClearResultsNotNewerThan w _ := w
|}.

Abbreviation auto := (autoscaler (S := demo_sched) (Slice := unit) (CSI := unit) (T := T) (W := nat) (Reason := unit)
  (Util := unit) (ScaledDown := string)).
Definition begin : auto :=
  mkAutoscaler 0%nat (SnapshotSpec.mkSpec ∅ []) csr0 ∅ 0 0 0 false false 0 (empty_status ScaleUpNotTried) false
    (mkScaleDownStatus ScaleDownNotTried [] [] [] ∅ 0) [].

Definition run (local : bool) (pods : list Pod) (room : bool) :=
  RunOnce (λ _, ∅) (λ _, None) id (λ _, ""%string) (options local) (comps pods room) hour begin.

(** What an iteration did, in short. *)
Inductive deed : Type :=
| Repair | ScaleUp (ok : bool) | Plan | Delete (names : list string) | MinSize | Report (r : ScaleDownResult).
Definition deed_of (ev : loop_event (Reason := unit) (Util := unit) (ScaledDown := string)) : deed :=
  match ev with
  | EvScaleUp _ _ err => ScaleUp (bool_decide (err = None))
  | EvPlan _ => Plan
  | EvStartDeletion empty _ _ _ => Delete (Name <$> empty)
  | EvMinSize _ _ => MinSize
  | EvReport _ down => Report (SdResult down)
  | _ => Repair
  end.
Definition deeds (r : option (auto * flow unit)) : option (list deed * bool * Z) :=
  match r with
  | Some (a, f) => Some (deed_of <$> a_log a, match f with Return (Some _) => true | _ => false end, lastScaleUpTime a)
  | None => None
  end.

Example idle_node_deleted : deeds (run false [] true) =
  Some ([Repair; Repair; Plan; Delete ["a3"%string]; Report ScaleDownNodeDeleteStarted], false, 0).
Proof. vm_compute. reflexivity. Qed.

(** After a scale-up nothing is deleted when cooldowns are global. *)
Example cooldown_after_scale_up : deeds (run false [waiting] true) =
  Some ([Repair; Repair; ScaleUp true; Plan; Report ScaleDownInCooldown], false, hour).
Proof. vm_compute. reflexivity. Qed.

(** When they are per node group, the same iteration scales up and down, though
    the comment says that there is no scale-down in it. *)
Example scale_up_and_down : deeds (run true [waiting] true) =
  Some ([Repair; Repair; ScaleUp true; Plan; Delete ["a3"%string]; Report ScaleDownNodeDeleteStarted], false, hour).
Proof. vm_compute. reflexivity. Qed.

(** The error of a scale-up is not the error of the iteration. *)
Example scale_up_error_dropped : deeds (run false [waiting] false) =
  Some ([Repair; Repair; ScaleUp false; Plan; Delete ["a3"%string]; Report ScaleDownNodeDeleteStarted], false, 0).
Proof. vm_compute. reflexivity. Qed.

Lemma groups_listed pods room w node g : EnvNodeGroupForNode (World_env (comps pods room) w) node = Ok (Some g) →
  ∃ g', g' ∈ NodeGroups (World_env (comps pods room) w) ∧ Id g' = Id g.
Proof.
  simpl. intros [= H]. exists g. split; [|done]. repeat case_decide; simplify_eq; [by left|by right; left].
Qed.

Lemma triggered_given pods room w t csr infos l ns ds : Forall (λ p, PodUID p ∈ PodUID <$> l)
  (PodsTriggeredScaleUp (Orchestrator_ScaleUp (comps pods room) w t csr infos l ns ds).2.1).
Proof. destruct room; simpl; [|done]. apply Forall_forall. intros p Hp. by apply list_elem_of_fmap_2. Qed.

Lemma iteration_exact_witness : deeds (run true [waiting] true) ≠ None ∧ ∃ a' r evs,
  run true [waiting] true = Some (a', r) ∧ a_log a' = [] ++ evs ∧
  lastScaleUpTime a' = time_after scaled_up hour 0 evs.
Proof.
  split; [vm_compute; discriminate|].
  destruct (iteration_exact (λ _, ∅) (λ _, None) id (λ _, ""%string) (options true) (comps [waiting] true)
    (groups_listed _ _) (triggered_given _ _) hour begin) as (a' & r & evs & Hr & Hl & _ & Hu & _).
  exists a', r, evs. split; [exact Hr|]. split; [exact Hl|exact Hu].
Defined.

End LoopExample.
