(* ===== verification/Actuator.v ===== *)
(** The synchronous part of the actuator (src/pkg/core/scaledown/actuation/
    actuator.go): the nodes to delete are cropped to the budgets, tainted, and
    handed to goroutines, whose steps are in Actuation.v; and the measurement of
    how long a taint takes to be seen (update_latency_tracker.go). *)
From stdpp Require Import prelude gmap strings list numbers fin_maps.
From S2P Require Import Prelude Float64 Errors Api Drain Taints Framework ClusterSnapshot NodeGroupConfig Utilization.
From S2P Require Import Expiring Actuation.
From S2P Require DeletionTracker SnapshotSpec Budgets Eviction Eligibility MainLoop PodLists.
Local Open Scope Z_scope.
Local Open Scope ca_scope.

Definition millisecond : Z := 10 ^ 6.
Definition sleepDurationWhenPolling : Z := 50 * millisecond.
Definition waitForTaintingTimeoutDuration : Z := 30 * 1000 * millisecond.
Definition pastLatencyExpireDuration : Z := 3600 * 1000 * millisecond.

(** ** Measuring the latency of updates *)

Section latency.
Context `{GR : GoRange}.

Record UpdateLatencyTracker : Type := mkUlt {
  startTimestamp : gmap string Z;
  finishTimestamp : gmap string Z;
  remainingNodeCount : Z
}.
Implicit Types (u : UpdateLatencyTracker).

Definition NewUpdateLatencyTracker : UpdateLatencyTracker := mkUlt ∅ ∅ 0.

(** A start time received from [StartTimeChan]. *)
Definition receive_start u (nodeName : string) (startTime : Z) : UpdateLatencyTracker :=
  mkUlt (<[nodeName := startTime]> (startTimestamp u)) (finishTimestamp u) (remainingNodeCount u + 1).

(** The lister, and the clock when it has answered for a node. *)
Definition poll_step (lister : string → option Node) (now : string → Z) u (kv : string * Z) : UpdateLatencyTracker :=
  match finishTimestamp u !! kv.1 with
  | Some _ => u
  | None =>
      match lister kv.1 with
      | None => u
      | Some node =>
          if HasToBeDeletedTaint node
          then mkUlt (startTimestamp u) (<[Name node := now kv.1]> (finishTimestamp u)) (remainingNodeCount u - 1)
          else u
      end
  end.

Definition updateFinishTime (lister : string → option Node) (now : string → Z) u : UpdateLatencyTracker :=
  foldl (poll_step lister now) u (go_range (startTimestamp u)).

(** A node that was not seen has the zero time, and the difference saturates. *)
Definition calculateLatency u : Z :=
  foldl (λ maxLatency kv,
    let endTime := default PodLists.zero_creation (finishTimestamp u !! kv.1) in
    let currentLatency := PodLists.time_sub endTime kv.2 in
    if maxLatency <? currentLatency then currentLatency else maxLatency) 0 (go_range (startTimestamp u)).

Definition maxLatency (latencies : list Z) : Z :=
  foldl (λ currentMax latency, if currentMax <? latency then latency else currentMax) 0 latencies.

(** What the goroutine receives or does while taints are applied. *)
Inductive latency_event : Type :=
| StartTime (nodeName : string) (startTime : Z)
| Poll (lister : string → option Node) (now : string → Z).

Definition latency_step u (ev : latency_event) : UpdateLatencyTracker :=
  match ev with
  | StartTime nodeName startTime => receive_start u nodeName startTime
  | Poll lister now => updateFinishTime lister now u
  end.

Context {W : Type} `{NC : !NodeClient W} (lister : W → string → option Node).

(** [await]: the latency sent on the result channel, or none when the channel
    is closed; [None] when the rounds run out. *)
Fixpoint await_loop (rounds : nat) (waitingForTaintingStartTime : Z) (w : W) u : option (W * UpdateLatencyTracker * option Z) :=
  match rounds with
  | O => None
  | Datatypes.S rounds =>
      if remainingNodeCount u =? 0 then Some (w, u, Some (calculateLatency u))
      else if waitingForTaintingStartTime + waitForTaintingTimeoutDuration <? api_Now w then Some (w, u, None)
      else
        let w := api_Sleep w sleepDurationWhenPolling in
        await_loop rounds waitingForTaintingStartTime w (updateFinishTime (lister w) (λ _, api_Now w) u)
  end.

Definition await_rounds : nat := 602.
Definition await (w : W) u : option (W * UpdateLatencyTracker * option Z) := await_loop await_rounds (api_Now w) w u.
End latency.

(** ** What is measured *)

Section latency_facts.
Context `{GR : GoRange} {W : Type} `{NC : !NodeClient W} (lister : W → string → option Node).
Implicit Types (u : UpdateLatencyTracker) (k : string) (evs : list latency_event).

(** The start times sent, and the observations of the taint on a node. *)
Definition starts evs : list (string * Z) := omap (λ ev, match ev with StartTime k t => Some (k, t) | _ => None end) evs.
Definition seen evs k (t : Z) : Prop := ∃ l now node, Poll l now ∈ evs ∧ l k = Some node ∧ HasToBeDeletedTaint node = true ∧ t = now k.

(** A lister returns the node it is asked for. *)
Definition faithful (l : string → option Node) : Prop := ∀ k node, l k = Some node → Name node = k.
Definition faithful_event (ev : latency_event) : Prop := match ev with Poll l _ => faithful l | _ => True end.

Record tracks evs u : Prop := {
  tr_start k t : startTimestamp u !! k = Some t → (k, t) ∈ starts evs;
  tr_dom k : is_Some (startTimestamp u !! k) ↔ k ∈ (starts evs).*1;
  tr_finish k t : finishTimestamp u !! k = Some t → seen evs k t ∧ is_Some (startTimestamp u !! k);
  tr_count : remainingNodeCount u = Z.of_nat (size (startTimestamp u)) - Z.of_nat (size (finishTimestamp u))
}.

Lemma seen_more evs evs' k t : seen evs k t → seen (evs ++ evs') k t.
Proof. intros (l & now & node & Hin & H). exists l, now, node. split; [|done]. apply elem_of_app. by left. Qed.

Lemma tracks_start evs u k t : tracks evs u → k ∉ (starts evs).*1 → tracks (evs ++ [StartTime k t]) (receive_start u k t).
Proof.
  intros [Hs Hd Hf Hc] Hk. assert (startTimestamp u !! k = None) as Hnone by (apply eq_None_not_Some; by rewrite Hd).
  assert (starts (evs ++ [StartTime k t]) = starts evs ++ [(k, t)]) as Hst by (unfold starts; by rewrite omap_app).
  split; simpl.
  - intros k' t'. rewrite Hst, elem_of_app, list_elem_of_singleton. intros [[-> ->]|[_ H]]%lookup_insert_Some; [by right|left; by apply Hs].
  - intros k'. rewrite Hst, fmap_app, elem_of_app, lookup_insert_is_Some', Hd. simpl. rewrite list_elem_of_singleton.
    split; intros [?|?]; auto.
  - intros k' t' H. destruct (Hf _ _ H) as [H1 H2]. split; [by apply seen_more|]. apply lookup_insert_is_Some'. by right.
  - rewrite map_size_insert_None by done. lia.
Qed.

Lemma tracks_poll_step evs u l now kv : tracks evs u → Poll l now ∈ evs → faithful l → is_Some (startTimestamp u !! kv.1) →
  tracks evs (poll_step l now u kv) ∧ startTimestamp (poll_step l now u kv) = startTimestamp u.
Proof.
  intros Hu Hin Hl Hk. unfold poll_step. destruct (finishTimestamp u !! kv.1) eqn:Hfin; [done|].
  destruct (l kv.1) as [node|] eqn:Hnode; [|done]. destruct (HasToBeDeletedTaint node) eqn:Ht; [|done].
  rewrite (Hl _ _ Hnode). split; [|done]. destruct Hu as [Hs Hd Hf Hc]. split; simpl; [done|done| |].
  - intros k t [[<- <-]|[_ H]]%lookup_insert_Some; [|by apply Hf]. split; [|done]. by exists l, now, node.
  - rewrite map_size_insert_None by done. lia.
Qed.

Lemma tracks_poll evs u l now : tracks evs u → faithful l → tracks (evs ++ [Poll l now]) (updateFinishTime l now u).
Proof.
  intros Hu Hl. assert (tracks (evs ++ [Poll l now]) u) as Hu'.
  { destruct Hu as [Hs Hd Hf Hc]. assert (starts (evs ++ [Poll l now]) = starts evs) as Hst.
    { unfold starts. rewrite omap_app. simpl. by rewrite app_nil_r. }
    split; rewrite ?Hst; [done|done| |done]. intros k t H. destruct (Hf _ _ H). split; [by apply seen_more|done]. }
  unfold updateFinishTime. assert (∀ kv, kv ∈ go_range (startTimestamp u) → is_Some (startTimestamp u !! kv.1)) as Hkv.
  { intros [k t]. rewrite go_range_perm, elem_of_map_to_list. simpl. by eexists. }
  revert Hkv. generalize (go_range (startTimestamp u)). clear Hu. intros pairs. revert u Hu'.
  induction pairs as [|kv pairs IH]; intros u Hu Hkv; [done|]. simpl.
  destruct (tracks_poll_step _ u l now kv Hu) as [Hu1 Hs1]; [apply elem_of_app; right; by left|done|by apply Hkv; left|].
  apply IH; [done|]. intros kv' Hin. rewrite Hs1. apply Hkv. by right.
Qed.

Lemma tracks_run evs : ∀ evs0 u, tracks evs0 u → NoDup (starts (evs0 ++ evs)).*1 → Forall faithful_event evs →
  tracks (evs0 ++ evs) (foldl latency_step u evs).
Proof.
  induction evs as [|ev evs IH]; intros evs0 u Hu Hnd Hall; simpl; [by rewrite app_nil_r|].
  apply Forall_cons in Hall as [Hev Hall]. replace (evs0 ++ ev :: evs) with ((evs0 ++ [ev]) ++ evs) in * by (by rewrite <- app_assoc).
  apply IH; [|done|done]. destruct ev as [k t|l now]; [|by apply tracks_poll].
  apply tracks_start; [done|]. unfold starts in *. rewrite !omap_app, !fmap_app in Hnd. simpl in Hnd.
  apply NoDup_app in Hnd as [Hnd _]. apply NoDup_app in Hnd as (_ & H & _). intros Hk. apply (H k Hk). by left.
Qed.

Lemma tracks_new : tracks [] NewUpdateLatencyTracker.
Proof.
  split; simpl; [intros k t; by rewrite lookup_empty| |intros k t; by rewrite lookup_empty|by rewrite !map_size_empty].
  intros k. rewrite lookup_empty. split; [by intros [??]|]. intros H. by apply not_elem_of_nil in H.
Qed.

(** Waiting is polling, until every node was seen or the time is up. *)
Lemma await_loop_polls start : ∀ rounds w u w' u' answer, await_loop lister rounds start w u = Some (w', u', answer) →
  ∃ polls : list W, u' = foldl latency_step u ((λ w, Poll (lister w) (λ _, api_Now w)) <$> polls) ∧
    match answer with
    | Some l => remainingNodeCount u' = 0 ∧ l = calculateLatency u'
    | None => start + waitForTaintingTimeoutDuration < api_Now w' ∧ remainingNodeCount u' ≠ 0
    end.
Proof.
  induction rounds as [|rounds IH]; intros w u w' u' answer; [done|]. cbn [await_loop].
  destruct (Z.eqb_spec (remainingNodeCount u) 0); [intros [= <- <- <-]; by exists []|].
  destruct (Z.ltb_spec (start + waitForTaintingTimeoutDuration) (api_Now w)); [intros [= <- <- <-]; by exists []|].
  intros (polls & Hu & Ha)%IH. by exists (api_Sleep w sleepDurationWhenPolling :: polls).
Qed.

(** The latency is the longest of the differences, or zero. *)
Lemma calculateLatency_max u (m : Z) :
  let diff kv := PodLists.time_sub (default PodLists.zero_creation (finishTimestamp u !! kv.1)) kv.2 in
  m = calculateLatency u → (∀ kv, kv ∈ map_to_list (startTimestamp u) → diff kv <= m) ∧
    (m = 0 ∨ ∃ kv, kv ∈ map_to_list (startTimestamp u) ∧ m = diff kv).
Proof.
  intros diff ->. unfold calculateLatency. cbv zeta. setoid_rewrite <- (go_range_perm (startTimestamp u)).
  assert (∀ l z, let r := foldl (λ a kv, if a <? diff kv then diff kv else a) z l in
    z <= r ∧ (∀ kv, kv ∈ l → diff kv <= r) ∧ (r = z ∨ ∃ kv, kv ∈ l ∧ r = diff kv)) as Hl.
  { induction l as [|kv l IH]; intros z; simpl.
    { split; [lia|]. split; [intros ? H; by apply not_elem_of_nil in H|by left]. }
    destruct (Z.ltb_spec z (diff kv)) as [Hz|Hz].
    - destruct (IH (diff kv)) as (H1 & H2 & H3). split; [lia|]. split.
      + intros kv' [->|H]%elem_of_cons; [done|by apply H2].
      + right. destruct H3 as [H3|(kv' & Hin & H3)]; [exists kv; split; [by left|done]|exists kv'; split; [by right|done]].
    - destruct (IH z) as (H1 & H2 & H3). split; [done|]. split.
      + intros kv' [->|H]%elem_of_cons; [lia|by apply H2].
      + destruct H3 as [H3|(kv' & Hin & H3)]; [by left|right; exists kv'; split; [by right|done]]. }
  destruct (Hl (go_range (startTimestamp u)) 0) as (_ & H2 & H3). by split.
Qed.

Lemma all_finished evs u k t : tracks evs u → remainingNodeCount u = 0 → startTimestamp u !! k = Some t →
  ∃ t', finishTimestamp u !! k = Some t' ∧ seen evs k t'.
Proof.
  intros [Hs Hd Hf Hc] H0 Hk. assert (dom (finishTimestamp u) = dom (startTimestamp u)) as Hdom.
  { apply set_subseteq_size_eq; [|rewrite !size_dom; lia]. intros k' [t' H']%elem_of_dom. apply elem_of_dom. by apply (Hf _ t'). }
  assert (is_Some (finishTimestamp u !! k)) as [t' Ht'] by (apply elem_of_dom; rewrite Hdom; by apply elem_of_dom).
  exists t'. split; [done|]. by apply Hf.
Qed.
Lemma await_loop_answers start : ∀ rounds w u (i : nat),
  start + Z.of_nat i * sleepDurationWhenPolling <= api_Now w → (602 <= i + rounds)%nat → (i <= 601)%nat →
  is_Some (await_loop lister rounds start w u).
Proof.
  induction rounds as [|rounds IH]; intros w u i Hw Hr Hk; [lia|]. cbn [await_loop].
  destruct (_ =? 0); [done|]. destruct (Z.ltb_spec (start + waitForTaintingTimeoutDuration) (api_Now w)) as [|Ht]; [done|].
  unfold waitForTaintingTimeoutDuration, sleepDurationWhenPolling, millisecond in *.
  apply (IH _ _ (Datatypes.S i)); [|lia|lia]. pose proof (api_sleep_time w (50 * 10 ^ 6)). lia.
Qed.

Lemma await_answers w u : is_Some (await lister w u).
Proof. apply (await_loop_answers _ _ _ _ 0); unfold await_rounds; lia. Qed.

Lemma await_polls w u w' u' answer : await lister w u = Some (w', u', answer) →
  ∃ polls : list W, u' = foldl latency_step u ((λ w, Poll (lister w) (λ _, api_Now w)) <$> polls) ∧
    match answer with
    | Some l => remainingNodeCount u' = 0 ∧ l = calculateLatency u'
    | None => api_Now w + waitForTaintingTimeoutDuration < api_Now w' ∧ remainingNodeCount u' ≠ 0
    end.
Proof. unfold await. apply await_loop_polls. Qed.

(** The measurement of the taint latency ends. Either it gives the longest
    time any node took from the moment its tainting started to a poll that saw
    the taint, every node having been seen, or more than thirty seconds of
    waiting passed. *)
Theorem latency_exact evs w : NoDup (starts evs).*1 → Forall faithful_event evs → (∀ w, faithful (lister w)) →
  ∃ w' u' answer polls,
    await lister w (foldl latency_step NewUpdateLatencyTracker evs) = Some (w', u', answer) ∧
    let all := evs ++ ((λ w, Poll (lister w) (λ _, api_Now w)) <$> polls) in
    match answer with
    | Some latency =>
        (∀ k t0, (k, t0) ∈ starts evs → ∃ t1, seen all k t1 ∧ PodLists.time_sub t1 t0 <= latency) ∧
        (latency = 0 ∨ ∃ k t0 t1, (k, t0) ∈ starts evs ∧ seen all k t1 ∧ latency = PodLists.time_sub t1 t0)
    | None => api_Now w + waitForTaintingTimeoutDuration < api_Now w'
    end.
Proof.
  intros Hnd Hall Hl. destruct (await_answers w (foldl latency_step NewUpdateLatencyTracker evs)) as [[[w' u'] answer] Ha].
  destruct (await_polls _ _ _ _ _ Ha) as (polls & Hu & Hans). exists w', u', answer, polls. split; [done|]. cbv zeta.
  set (later := (λ w, Poll (lister w) (λ _, api_Now w)) <$> polls) in *.
  assert (starts (evs ++ later) = starts evs) as Hst.
  { unfold starts. rewrite omap_app. enough (omap (λ ev, match ev with StartTime k t => Some (k, t) | _ => None end) later = [])
      as -> by apply app_nil_r. unfold later. clear. by induction polls. }
  assert (tracks (evs ++ later) u') as Ht.
  { rewrite Hu, <- foldl_app. apply (tracks_run (evs ++ later) [] _ tracks_new); simpl; [by rewrite Hst|].
    apply Forall_app. split; [done|]. apply Forall_fmap, Forall_forall. intros w0 _. apply Hl. }
  destruct answer as [l|]; [|by destruct Hans]. destruct Hans as [H0 Hlat]. apply calculateLatency_max in Hlat as [Hle Hmax].
  assert (∀ k t0, (k, t0) ∈ starts evs ↔ startTimestamp u' !! k = Some t0) as Hs.
  { intros k t0. split.
    - intros Hin. destruct (proj2 (tr_dom _ _ Ht k)) as [t1 Ht1].
      { rewrite Hst. by apply (list_elem_of_fmap_2 fst) in Hin. }
      pose proof (tr_start _ _ Ht _ _ Ht1) as Hin1. rewrite Hst in Hin1.
      apply (elem_of_list_to_map _ _ _ Hnd) in Hin, Hin1. by simplify_eq.
    - intros H. rewrite <- Hst. by apply (tr_start _ _ Ht). }
  split.
  - intros k t0 Hin%Hs. destruct (all_finished _ _ _ _ Ht H0 Hin) as (t1 & Ht1 & Hseen). exists t1. split; [done|].
    specialize (Hle (k, t0)). simpl in Hle. rewrite Ht1 in Hle. apply Hle. by apply elem_of_map_to_list.
  - destruct Hmax as [->|([k t0] & Hin%elem_of_map_to_list & ->)]; [by left|right].
    destruct (all_finished _ _ _ _ Ht H0 Hin) as (t1 & Ht1 & Hseen). exists k, t0, t1. simpl. rewrite Ht1.
    split; [by apply Hs|done].
Qed.
End latency_facts.

(** ** Starting deletions *)

(** What the actuator reads from its context. *)
Record ActuatorContext : Type := mkActuatorContext {
  ac_budgets : Budgets.BudgetContext;
  CordonNodeBeforeTerminate : bool;
  DynamicNodeDeleteDelayAfterTaintEnabled : bool;
  nodeDeleteDelayAfterTaint : Z;
  IgnoreMirrorPodsUtilization : bool;
  DynamicResourceAllocationEnabled : bool;
  DaemonSetEvictionForOccupiedNodes : bool;
  GetNodeGpuConfig : Node → option GpuConfig
}.

Record ScaleDownNode : Type := mkScaleDownNode {
  SdNode : Node; SdNodeGroup : NodeGroup; EvictedPods : list Pod; UtilInfo : Info
}.

(** The arguments of a goroutine of [deleteNodesAsync]. *)
Record launch : Type := mkLaunch {
  la_nodes : list Node; la_group : NodeGroup; la_drain : bool; la_force : bool; la_batchSize : Z; la_delay : Z
}.

Inductive taint_event : Type :=
| Marked (node : Node)
| MarkFailed (node : Node) (err : AutoscalerError)
| Cleaned (node : Node).

Section actuator.
Context `{GR : GoRange} `{QL : QuantityLib} `{KL : KubeLib} {S Slice CSI T W : Type} `{SN : SchedNodeInfo S}
  `{CS : !ClusterSnapshot S Slice CSI T} `{NC : !NodeClient W}.
Abbreviation NI := (NodeInfo S Slice CSI).
Context (Allocatable : Node → string → option Quantity) (PodRequests : Pod → string → Quantity)
  (HighestDynamicResourceUtilization : NI → result string (string * float64)).
(** The order in which the concurrent workers finish their nodes, the text of
    an error of an update, the lister, and what the goroutine of the latency
    tracker did while the nodes were tainted. *)
Context (completion : list Node → list Node) (update_text : update_error → string) (lister : W → string → option Node)
  (tracked : W → list Node → list latency_event).
Context (c : ActuatorContext).

(** The API server, the snapshot of the loop, what the goroutines share, the
    latencies of the last hour, the goroutines started, and the taints set and
    removed. *)
Record sd_state : Type := mkSd {
  sd_world : W; sd_snap : T; sd_shared : actuation; pastLatencies : list (@elementWithTimestamp Z);
  launches : list launch; taint_log : list taint_event
}.
Implicit Types (st : sd_state) (node : Node) (views : list Budgets.NodeGroupView) (force drain : bool).

Definition taintNode (w : W) node : option (W * option AutoscalerError) :=
  '(w, r) ← MarkToBeDeleted w node (CordonNodeBeforeTerminate c);
  Some (w, match r with
           | Ok _ => None
           | Err err => Some (typed_error ApiCallError (PlainError 0 (update_text err)))
           end).

(** The tainted and the failed nodes so far, and the record. *)
Definition taint_step (acc : option (W * list Node * list Node * list taint_event)) node
    : option (W * list Node * list Node * list taint_event) :=
  '(w, tainted, failed, evs) ← acc;
  '(w, err) ← taintNode w node;
  Some match err with
       | None => (w, tainted ++ [node], failed, evs ++ [Marked node])
       | Some e => (w, tainted, failed ++ [node], evs ++ [MarkFailed node e])
       end.

Definition clean_tainted_step (acc : option (W * list taint_event)) node : option (W * list taint_event) :=
  '(w, evs) ← acc;
  '(w, _) ← CleanToBeDeleted w node (CordonNodeBeforeTerminate c);
  Some (w, evs ++ [Cleaned node]).

Definition view_nodes views : list Node := concat (Budgets.ViewNodes <$> views).

(** The failed nodes are counted after the channel was emptied. *)
Definition taint_failure : AutoscalerError := NewAutoscalerError ApiCallError "couldn't taint 0 nodes with ToBeDeleted".

Definition tainted_state st (w : W) past evs : sd_state :=
  mkSd w (sd_snap st) (sd_shared st) past (launches st) (taint_log st ++ evs).

Definition taintNodesSync st views : option (sd_state * result AutoscalerError Z) :=
  let nodesToTaint := view_nodes views in
  '(w, taintedNodes, failedTaintedNodes, evs) ← foldl taint_step (Some (sd_world st, [], [], [])) (completion nodesToTaint);
  if negb (bool_decide (failedTaintedNodes = [])) then
    '(w, evs) ← foldl clean_tainted_step (Some (w, evs)) taintedNodes;
    Some (tainted_state st w (pastLatencies st) evs, Err taint_failure)
  else if DynamicNodeDeleteDelayAfterTaintEnabled c then
    '(w, _, answer) ← await lister w (foldl latency_step NewUpdateLatencyTracker (tracked w nodesToTaint));
    Some match answer with
         | None => (tainted_state st w (pastLatencies st) evs, Ok (nodeDeleteDelayAfterTaint c))
         | Some latency =>
             let past := DropNotNewerThan (RegisterElement (pastLatencies st) latency (api_Now w))
                           (api_Now w - pastLatencyExpireDuration) in
             (tainted_state st w past evs, Ok (wrap64 (2 * maxLatency (ToSlice past))))
         end
  else Some (tainted_state st w (pastLatencies st) evs, Ok (nodeDeleteDelayAfterTaint c)).

(** What is reported of a node; an error is only logged. *)
Definition scaleDownNodeToReport (t : T) node drain (now : Z) : T * option ScaleDownNode :=
  match Budgets.NodeGroupForNode (ac_budgets c) node with
  | Err _ | Ok None => (t, None)
  | Ok (Some nodeGroup) =>
      match GetNodeInfo t (Name node) with
      | (t, Err _) => (t, None)
      | (t, Ok nodeInfo) =>
          (t, match GetIgnoreDaemonSetsUtilization (Budgets.NodeGroupDefaults (ac_budgets c)) nodeGroup with
              | (_, Some _) => None
              | (ignoreDaemonSetsUtilization, None) =>
                  match Calculate Allocatable PodRequests HighestDynamicResourceUtilization nodeInfo
                          ignoreDaemonSetsUtilization (IgnoreMirrorPodsUtilization c)
                          (DynamicResourceAllocationEnabled c) (GetNodeGpuConfig c node) now with
                  | Err _ => None
                  | Ok utilInfo =>
                      Some (mkScaleDownNode node nodeGroup
                        (if drain then (Eviction.podsToEvict (pi_Pod <$> GetPods nodeInfo) (DaemonSetEvictionForOccupiedNodes c)).2
                         else []) utilInfo)
                  end
              end)
      end
  end.

Definition report_step drain (now : Z) (acc : T * list ScaleDownNode) node : T * list ScaleDownNode :=
  match scaleDownNodeToReport acc.1 node drain now with
  | (t, Some sdNode) => (t, acc.2 ++ [sdNode])
  | (t, None) => (t, acc.2)
  end.

(** [deleteAsyncEmpty] and [deleteAsyncDrain]: every node is reported and its
    deletion registered, then a goroutine is started for every view. *)
Definition delete_async st views (delay : Z) drain force : sd_state * list ScaleDownNode :=
  let '(t, reported) := foldl (report_step drain (api_Now (sd_world st))) (sd_snap st, []) (view_nodes views) in
  let pairs := (λ v, (Id (Budgets.Group v), Name <$> Budgets.ViewNodes v)) <$> views in
  let shared := (if drain then deleteAsyncDrain else deleteAsyncEmpty) (sd_shared st) pairs in
  let started := (λ v, mkLaunch (Budgets.ViewNodes v) (Budgets.Group v) drain force (Budgets.BatchSize v) delay) <$> views in
  (mkSd (sd_world st) t shared (pastLatencies st) (launches st ++ started) (taint_log st), reported).

(** Tainting some views and starting their deletion, unless there are none. *)
Definition taint_and_delete st views drain force : option (sd_state * list ScaleDownNode * option AutoscalerError) :=
  match views with
  | [] => Some (st, [], None)
  | _ =>
      '(st, r) ← taintNodesSync st views;
      Some match r with
           | Err err => (st, [], Some err)
           | Ok delay => let '(st, reported) := delete_async st views delay drain force in (st, reported, None)
           end
  end.

Definition startDeletion st (empty drain : list Node) force
    : option (sd_state * (MainLoop.ScaleDownResult * list ScaleDownNode * option AutoscalerError)) :=
  let st := mkSd (sd_world st) (sd_snap st) (ResetAndReportMetrics (sd_shared st)).1 (pastLatencies st) (launches st) (taint_log st) in
  let '(emptyInProgress, drainInProgress) := DeletionTracker.DeletionsInProgress (nodeDeletionTracker (sd_shared st)) in
  let '(emptyToDelete, drainToDelete) := Budgets.CropNodes (ac_budgets c) emptyInProgress drainInProgress empty drain in
  match emptyToDelete, drainToDelete with
  | [], [] => Some (st, (MainLoop.ScaleDownNoNodeDeleted, [], None))
  | _, _ =>
      '(st, reported, err) ← taint_and_delete st emptyToDelete false force;
      match err with
      | Some e => Some (st, (MainLoop.ScaleDownError, [], Some e))
      | None =>
          '(st, drained, err) ← taint_and_delete st drainToDelete true force;
          Some (st, match err with
                    | Some e => (MainLoop.ScaleDownError, reported, Some e)
                    | None => (MainLoop.ScaleDownNodeDeleteStarted, reported ++ drained, None)
                    end)
      end
  end.

Definition actuation_StartDeletion st (empty drain : list Node) := startDeletion st empty drain false.
Definition StartForceDeletion st (empty drain : list Node) := startDeletion st empty drain true.

(** ** Tainting a set of views *)

Definition marks (evs : list taint_event) : list Node := omap (λ ev, match ev with Marked n => Some n | _ => None end) evs.
Definition cleans (evs : list taint_event) : list Node := omap (λ ev, match ev with Cleaned n => Some n | _ => None end) evs.
Definition failures (evs : list taint_event) : list Node :=
  omap (λ ev, match ev with MarkFailed n _ => Some n | _ => None end) evs.

Lemma taintNode_answers w node : is_Some (taintNode w node).
Proof.
  unfold taintNode, MarkToBeDeleted, AddTaints.
  match goal with |- context [update_node ?f _ _ _ _ _ _] => destruct (rounds_enough f w node) as [[w' r] Hr] end.
  rewrite Hr. by eexists.
Qed.

Lemma CleanToBeDeleted_answers w node cordon : is_Some (CleanToBeDeleted w node cordon).
Proof. apply rounds_enough. Qed.

(** Every node is tried once: it is marked, or it fails. *)
Lemma taint_loop nodes : ∀ w ta fa evs, ∃ w' t f e,
  foldl taint_step (Some (w, ta, fa, evs)) nodes = Some (w', ta ++ t, fa ++ f, evs ++ e) ∧
  t ++ f ≡ₚ nodes ∧ marks e = t ∧ failures e = f ∧ cleans e = [] ∧ (f = [] → e = Marked <$> nodes).
Proof.
  induction nodes as [|n nodes IH]; intros w ta fa evs; simpl.
  { exists w, [], [], []. by rewrite !app_nil_r. }
  destruct (taintNode_answers w n) as [[w1 [e1|]] ->]; simpl.
  - destruct (IH w1 ta (fa ++ [n]) (evs ++ [MarkFailed n e1])) as (w' & t & f & e & -> & Hp & Hm & Hf & Hc & Ho).
    exists w', t, (n :: f), (MarkFailed n e1 :: e). rewrite <- !app_assoc. split; [done|]. simpl.
    split; [by rewrite <- Permutation_middle, Hp|]. by rewrite Hm, Hf, Hc.
  - destruct (IH w1 (ta ++ [n]) fa (evs ++ [Marked n])) as (w' & t & f & e & -> & Hp & Hm & Hf & Hc & Ho).
    exists w', (n :: t), f, (Marked n :: e). rewrite <- !app_assoc. split; [done|]. simpl.
    split; [by rewrite Hp|]. rewrite Hm, Hf, Hc. do 3 (split; [done|]). intros ->. by rewrite Ho.
Qed.

Lemma clean_loop nodes : ∀ w evs, ∃ w', foldl clean_tainted_step (Some (w, evs)) nodes = Some (w', evs ++ (Cleaned <$> nodes)).
Proof.
  induction nodes as [|n nodes IH]; intros w evs; simpl; [exists w; by rewrite app_nil_r|].
  destruct (CleanToBeDeleted_answers w n (CordonNodeBeforeTerminate c)) as [[w1 r] ->]. simpl.
  destruct (IH w1 (evs ++ [Cleaned n])) as [w' ->]. exists w'. by rewrite <- app_assoc.
Qed.

Lemma marks_cleaned nodes : marks (Cleaned <$> nodes) = [] ∧ failures (Cleaned <$> nodes) = [] ∧ cleans (Cleaned <$> nodes) = nodes.
Proof.
  induction nodes as [|n nodes (IH1 & IH2 & IH3)]; [done|]. split; [exact IH1|]. split; [exact IH2|].
  change (n :: cleans (Cleaned <$> nodes) = n :: nodes). by rewrite IH3.
Qed.

(** A set whose tainting failed: some node could not be marked, and exactly the
    marked nodes were cleaned, in the order they were marked. *)
Definition undone (nodes : list Node) (evs : list taint_event) : Prop :=
  failures evs ≠ [] ∧ marks evs ++ failures evs ≡ₚ nodes ∧ cleans evs = marks evs.

(** The parts of the state that tainting leaves alone. *)
Definition same_but_taints st st' : Prop :=
  sd_snap st' = sd_snap st ∧ sd_shared st' = sd_shared st ∧ launches st' = launches st.

Context (completion_perm : ∀ nodes, completion nodes ≡ₚ nodes).

Lemma taintNodesSync_spec st views : ∃ st' r evs,
  taintNodesSync st views = Some (st', r) ∧ same_but_taints st st' ∧ taint_log st' = taint_log st ++ evs ∧
  match r with
  | Ok _ => evs ≡ₚ Marked <$> view_nodes views
  | Err err => err = taint_failure ∧ undone (view_nodes views) evs
  end.
Proof.
  unfold taintNodesSync.
  destruct (taint_loop (completion (view_nodes views)) (sd_world st) [] [] []) as (w & t & f & e & -> & Hp & Hm & Hf & Hc & Ho).
  simpl. case_bool_decide as Hnone; simpl.
  - assert (e ≡ₚ Marked <$> view_nodes views) as He by (rewrite (Ho Hnone), completion_perm; done).
    destruct (DynamicNodeDeleteDelayAfterTaintEnabled c); [|by do 3 eexists].
    destruct (await_answers lister w (foldl latency_step NewUpdateLatencyTracker (tracked w (view_nodes views)))) as [[[w' u] [l|]] ->];
      simpl; by do 3 eexists.
  - destruct (clean_loop t w e) as [w' ->]. simpl. do 3 eexists. split; [done|]. split; [done|]. split; [done|].
    split; [done|]. unfold undone, marks, failures, cleans in *. rewrite !omap_app.
    destruct (marks_cleaned t) as (H1 & H2 & H3). unfold marks, failures, cleans in *.
    rewrite H1, H2, H3, Hm, Hf, Hc, !app_nil_r. by rewrite Hp, completion_perm.
Qed.

(** ** Starting the goroutines *)

Definition launch_all views drain force (delay : Z) : list launch :=
  (λ v, mkLaunch (Budgets.ViewNodes v) (Budgets.Group v) drain force (Budgets.BatchSize v) delay) <$> views.

(** What the goroutines share once the deletions of some views are registered. *)
Definition registered (w : actuation) views drain : actuation :=
  (if drain then deleteAsyncDrain else deleteAsyncEmpty) w
    ((λ v, (Id (Budgets.Group v), Name <$> Budgets.ViewNodes v)) <$> views).

Lemma report_loop drain now nodes : ∀ t acc, ∃ t' reported,
  foldl (report_step drain now) (t, acc) nodes = (t', acc ++ reported) ∧ SdNode <$> reported `sublist_of` nodes.
Proof.
  induction nodes as [|n nodes IH]; intros t acc; simpl.
  { exists t, []. by rewrite app_nil_r. }
  unfold report_step at 2. simpl.
  destruct (scaleDownNodeToReport t n drain now) as [t1 [sd|]] eqn:Hn.
  - assert (SdNode sd = n) as Hsd.
    { unfold scaleDownNodeToReport in Hn. repeat case_match; simplify_eq; done. }
    destruct (IH t1 (acc ++ [sd])) as (t' & reported & -> & Hs). exists t', (sd :: reported).
    rewrite <- app_assoc. simpl. rewrite Hsd. by split; [|constructor].
  - destruct (IH t1 acc) as (t' & reported & -> & Hs). exists t', reported. by split; [|constructor].
Qed.

Lemma delete_async_spec st views delay drain force : ∃ st' reported,
  delete_async st views delay drain force = (st', reported) ∧
  sd_shared st' = registered (sd_shared st) views drain ∧
  launches st' = launches st ++ launch_all views drain force delay ∧ taint_log st' = taint_log st ∧
  SdNode <$> reported `sublist_of` view_nodes views.
Proof.
  unfold delete_async. destruct (report_loop drain (api_Now (sd_world st)) (view_nodes views) (sd_snap st) [])
    as (t & reported & -> & Hs). by exists (mkSd (sd_world st) t (registered (sd_shared st) views drain) (pastLatencies st)
      (launches st ++ launch_all views drain force delay) (taint_log st)), reported.
Qed.

(** What became of one set of views: every node marked, its deletion
    registered and a goroutine started for every view, or all undone. *)
Definition begun st views drain force st' (evs : list taint_event) : Prop :=
  evs ≡ₚ Marked <$> view_nodes views ∧ sd_shared st' = registered (sd_shared st) views drain ∧
  ∃ delay, launches st' = launches st ++ launch_all views drain force delay.

Definition given_up st views st' (evs : list taint_event) : Prop :=
  undone (view_nodes views) evs ∧ sd_shared st' = sd_shared st ∧ launches st' = launches st.

Lemma taint_and_delete_spec st views drain force : ∃ st' reported err evs,
  taint_and_delete st views drain force = Some (st', reported, err) ∧ taint_log st' = taint_log st ++ evs ∧
  SdNode <$> reported `sublist_of` view_nodes views ∧
  match err with
  | None => begun st views drain force st' evs
  | Some e => e = taint_failure ∧ given_up st views st' evs
  end.
Proof.
  unfold taint_and_delete. destruct views as [|v views].
  { exists st, [], None, []. rewrite app_nil_r. split_and!; try done. split; [done|]. split; [by destruct drain|].
    exists 0. by rewrite app_nil_r. }
  set (l := v :: views). destruct (taintNodesSync_spec st l) as (st1 & r & evs & -> & (H1 & H2 & H3) & Hlog & Hr). simpl.
  destruct r as [delay|e].
  - destruct (delete_async_spec st1 l delay drain force) as (st2 & reported & -> & Hs & Hl & Hlog' & Hsub).
    exists st2, reported, None, evs. split; [done|]. rewrite Hlog'. split; [done|]. split; [done|]. split; [done|].
    rewrite Hs, Hl, H2, H3. split; [done|by exists delay].
  - exists st1, [], (Some e), evs. split; [done|]. split; [done|]. split; [apply sublist_nil_l|].
    destruct Hr as [-> Hr]. by split_and!.
Qed.

Lemma launched_total views drain force delay : ⟪ concat (la_nodes <$> launch_all views drain force delay) ⟫ = Budgets.total views.
Proof.
  induction views as [|v views IH]; [done|].
  change (⟪ Budgets.ViewNodes v ++ concat (la_nodes <$> launch_all views drain force delay) ⟫ =
    Budgets.view_len v + Budgets.total views).
  unfold Budgets.view_len. rewrite length_app. lia.
Qed.

(** What [startDeletion] did for the cropped views, by its result. *)
Definition deletion_outcome st (E D : list Budgets.NodeGroupView) force st' (res : MainLoop.ScaleDownResult)
    (err : option AutoscalerError) (evsE evsD : list taint_event) : Prop :=
  match res with
  | MainLoop.ScaleDownNoNodeDeleted =>
      E ++ D = [] ∧ err = None ∧ evsE ++ evsD = [] ∧ sd_shared st' = sd_shared st ∧ launches st' = launches st
  | MainLoop.ScaleDownNodeDeleteStarted =>
      E ++ D ≠ [] ∧ err = None ∧ ∃ st1, begun st E false force st1 evsE ∧ begun st1 D true force st' evsD
  | MainLoop.ScaleDownError =>
      err = Some taint_failure ∧
      (given_up st E st' evsE ∧ evsD = [] ∨ ∃ st1, begun st E false force st1 evsE ∧ given_up st1 D st' evsD)
  | _ => False
  end.

Definition after_reset st : sd_state :=
  mkSd (sd_world st) (sd_snap st) (ResetAndReportMetrics (sd_shared st)).1 (pastLatencies st) (launches st) (taint_log st).

Lemma startDeletion_spec st (empty drain : list Node) force eip dip E D :
  DeletionTracker.DeletionsInProgress (nodeDeletionTracker (sd_shared st)) = (eip, dip) →
  Budgets.CropNodes (ac_budgets c) eip dip empty drain = (E, D) →
  ∃ st' res reported err evsE evsD,
    startDeletion st empty drain force = Some (st', (res, reported, err)) ∧
    taint_log st' = taint_log st ++ evsE ++ evsD ∧
    SdNode <$> reported `sublist_of` view_nodes E ++ view_nodes D ∧
    deletion_outcome (after_reset st) E D force st' res err evsE evsD.
Proof.
  intros Hip HC. unfold startDeletion. fold (after_reset st).
  change (nodeDeletionTracker (sd_shared (after_reset st))) with (nodeDeletionTracker (sd_shared st)).
  rewrite Hip, HC.
  destruct (decide (E ++ D = [])) as [[-> ->]%app_eq_nil|Hne].
  { exists (after_reset st), MainLoop.ScaleDownNoNodeDeleted, [], None, [], []. rewrite !app_nil_r. by split_and!. }
  destruct (taint_and_delete_spec (after_reset st) E false force) as (st1 & rE & errE & evsE & HE & Hlog1 & HsE & HoE).
  assert (startDeletion_body : ∀ A (x y : A), match E, D with [], [] => x | _, _ => y end = y) by (by destruct E, D).
  rewrite startDeletion_body, HE. simpl. destruct errE as [e|].
  - destruct HoE as [-> HoE]. exists st1, MainLoop.ScaleDownError, [], (Some taint_failure), evsE, [].
    rewrite app_nil_r. split; [done|]. split; [done|]. split; [apply sublist_nil_l|]. split; [done|by left].
  - destruct (taint_and_delete_spec st1 D true force) as (st2 & rD & errD & evsD & -> & Hlog2 & HsD & HoD). simpl.
    assert (taint_log st2 = taint_log st ++ evsE ++ evsD) as Hlog by (rewrite Hlog2, Hlog1, <- app_assoc; done).
    destruct errD as [e|].
    + destruct HoD as [-> HoD]. do 6 eexists. split; [done|]. split; [exact Hlog|]. split.
      { by apply sublist_inserts_r. }
      split; [done|]. right. by exists st1.
    + do 6 eexists. split; [done|]. split; [exact Hlog|]. split.
      { rewrite fmap_app. by apply sublist_app. }
      split; [done|]. split; [done|]. by exists st1.
Qed.

(** The goroutines started are for views of the cropped sets. *)
Lemma outcome_launches st E D force st' res err evsE evsD : deletion_outcome st E D force st' res err evsE evsD →
  ∃ LE LD, launches st' = launches st ++ LE ++ LD ∧
    (⟪ concat (la_nodes <$> LE) ⟫ <= Budgets.total E) ∧ (⟪ concat (la_nodes <$> LD) ⟫ <= Budgets.total D) ∧
    Forall (λ la, la_force la = force ∧ la_drain la = false ∧ ∀ n, n ∈ la_nodes la → Marked n ∈ evsE) LE ∧
    Forall (λ la, la_force la = force ∧ la_drain la = true ∧ ∀ n, n ∈ la_nodes la → Marked n ∈ evsD) LD.
Proof.
  pose proof (Budgets.total_nonneg E). pose proof (Budgets.total_nonneg D).
  assert (∀ views b delay evs, evs ≡ₚ Marked <$> view_nodes views →
    Forall (λ la, la_force la = force ∧ la_drain la = b ∧ ∀ n, n ∈ la_nodes la → Marked n ∈ evs) (launch_all views b force delay)) as Hall.
  { intros views b delay evs Hevs. apply Forall_fmap, Forall_forall. intros v Hv. do 2 (split; [done|]).
    intros n Hn. rewrite Hevs. apply list_elem_of_fmap_2, list_elem_of_In, in_concat.
    exists (Budgets.ViewNodes v). split; [by apply list_elem_of_In, list_elem_of_fmap_2|by apply list_elem_of_In]. }
  destruct res; simpl; intros Ho; try done.
  - destruct Ho as (_ & [((_ & _ & HL) & _)|(st1 & (Hm & _ & delay & H1) & (_ & _ & H2))]).
    + exists [], []. rewrite !app_nil_r. by repeat split.
    + exists (launch_all E false force delay), []. rewrite H2, H1, app_nil_r, launched_total.
      do 3 (split; [done|]). split; [by apply Hall|constructor].
  - destruct Ho as (_ & _ & _ & _ & HL). exists [], []. rewrite !app_nil_r. by repeat split.
  - destruct Ho as (_ & _ & st1 & (Hm1 & _ & d1 & H1) & (Hm2 & _ & d2 & H2)).
    exists (launch_all E false force d1), (launch_all D true force d2).
    rewrite H2, H1, <- app_assoc, !launched_total. do 3 (split; [done|]). split; by apply Hall.
Qed.

(** C18. Starting deletions always returns, and by its result: nothing was to be
    deleted within the budgets and nothing was done; or every node of the
    cropped sets was marked before the deletions of its set were registered in
    the tracker and a goroutine was started for every view; or marking some
    node of a set failed, no deletion of that set was started, and exactly the
    nodes of it that had been marked were cleaned again, while empty nodes that
    were already started stay started. *)
Theorem start_deletion_exact st (empty drain : list Node) force eip dip E D :
  DeletionTracker.DeletionsInProgress (nodeDeletionTracker (sd_shared st)) = (eip, dip) →
  Budgets.CropNodes (ac_budgets c) eip dip empty drain = (E, D) →
  ∃ st' res reported err evsE evsD,
    startDeletion st empty drain force = Some (st', (res, reported, err)) ∧
    taint_log st' = taint_log st ++ evsE ++ evsD ∧
    SdNode <$> reported `sublist_of` view_nodes E ++ view_nodes D ∧
    deletion_outcome (after_reset st) E D force st' res err evsE evsD.
Proof. apply startDeletion_spec. Qed.

(** C5. The goroutines that one call starts, whatever its result, get only nodes
    that the call has marked; together they get no more nodes than the
    parallelism limit leaves over the deletions in progress, and those that
    drain no more than the drain limit leaves, one atomic group excepted. *)
Theorem started_nodes_marked_and_bounded st (empty drain : list Node) force eip dip st' out :
  DeletionTracker.DeletionsInProgress (nodeDeletionTracker (sd_shared st)) = (eip, dip) →
  startDeletion st empty drain force = Some (st', out) →
  ∃ started drained evs, launches st' = launches st ++ started ++ drained ∧ taint_log st' = taint_log st ++ evs ∧
    (∀ la n, la ∈ started ++ drained → n ∈ la_nodes la → Marked n ∈ evs) ∧
    Forall (λ la, la_drain la = false) started ∧ Forall (λ la, la_drain la = true) drained ∧
    (⟪ concat (la_nodes <$> started ++ drained) ⟫ <=
       0 `max` (Budgets.MaxScaleDownParallelism (ac_budgets c) - ⟪ eip ⟫ - ⟪ dip ⟫) ∨
     ∃ E D, Budgets.CropNodes (ac_budgets c) eip dip empty drain = (E, D) ∧ Budgets.one_atomic (ac_budgets c) (E ++ D)) ∧
    (⟪ concat (la_nodes <$> drained) ⟫ <= 0 `max` (Budgets.MaxDrainParallelism (ac_budgets c) - ⟪ dip ⟫) ∨
     ∃ E D, Budgets.CropNodes (ac_budgets c) eip dip empty drain = (E, D) ∧ Budgets.one_atomic (ac_budgets c) D).
Proof.
  intros Hip Hrun. destruct (Budgets.CropNodes (ac_budgets c) eip dip empty drain) as [E D] eqn:HC.
  destruct (startDeletion_spec st empty drain force eip dip E D Hip HC) as (st2 & res & rep & err & eE & eD & Hrun' & Hlog & _ & Ho).
  rewrite Hrun in Hrun'. simplify_eq.
  destruct (outcome_launches _ _ _ _ _ _ _ _ _ Ho) as (LE & LD & HL & HtE & HtD & HE & HD).
  destruct (Budgets.CropNodes_budget _ _ _ _ _ _ _ HC) as [Hb Hdb].
  exists LE, LD, (eE ++ eD). split; [done|]. split; [done|]. rewrite Forall_forall in HE, HD. split_and!.
  - intros la n [Hla|Hla]%elem_of_app Hn; apply elem_of_app; [left|right]; [by apply (HE la Hla)|by apply (HD la Hla)].
  - apply Forall_forall. intros la Hla. apply (HE la Hla).
  - apply Forall_forall. intros la Hla. apply (HD la Hla).
  - destruct Hb as [Hb|Hb]; [left|right; by exists E, D]. rewrite fmap_app, concat_app, length_app.
    unfold Budgets.start_parallelism in Hb. lia.
  - destruct Hdb as [Hb'|Hb']; [left|right; by exists E, D]. unfold Budgets.start_drain in Hb'. lia.
Qed.
End actuator.

(** Two empty nodes of a pool and one node to drain, with a server that cannot
    update some nodes and shows a taint as soon as it is set. *)
Module ActuatorExample.
#[local] Instance ql : QuantityLib := Eligibility.demo_quantities.
#[local] Instance kl : KubeLib := demo_kubelib.
#[local] Instance cs : ClusterSnapshot demo_sched unit unit (SnapshotSpec.spec_state demo_sched unit unit) := ref_snapshot (λ _ _, true).

Record server : Type := mkServer { clock : Z; broken : list string; stored : gmap string Node }.
#[export, refine] Instance server_client : NodeClient server := {|
  api_Get w name := (w, Ok (stored w !! name));
  api_Update w node :=
    if decide (Name node ∈ broken w) then (w, Some (APIError "down"))
    else (mkServer (clock w + millisecond) (broken w) (<[Name node := node]> (stored w)), None);
  api_Now := clock;
  api_Sleep w d := mkServer (clock w + d) (broken w) (stored w)
|}.
Proof. all: intros; simpl; repeat case_decide; simpl; unfold millisecond; lia. Defined.

Definition context (dynamic : bool) : ActuatorContext :=
  mkActuatorContext (Budgets.demo_context 3 2) true dynamic 5 false false false (λ _, None).
Definition info (n : Node) : NodeInfo demo_sched unit unit := mkNodeInfo (n, []) [] None.
Definition cluster : SnapshotSpec.spec_state demo_sched unit unit :=
  SnapshotSpec.mkSpec (list_to_map ((λ n, (Name n, info n)) <$> Budgets.demo_nodes)) [].
Definition begin (broken : list string) : sd_state (T := SnapshotSpec.spec_state demo_sched unit unit) (W := server) :=
  mkSd (mkServer (1000 * 10 ^ 9) broken ∅) cluster (initial 0) [] [] [].

(** The goroutine of the tracker gets the start times and is not scheduled
    again before it is asked for the answer. *)
Definition tracked (w : server) (nodes : list Node) : list latency_event := (λ n, StartTime (Name n) (1000 * 10 ^ 9)) <$> nodes.

Definition run (dynamic : bool) (broken : list string) (empty drain : list Node) :=
  actuation_StartDeletion Eligibility.demo_alloc Eligibility.demo_requests (λ _, Err "no devices"%string) id (λ _, "down"%string)
    (λ w k, stored w !! k) tracked (context dynamic) (begin broken) empty drain.

Definition note (ev : taint_event) : string * string :=
  match ev with
  | Marked n => ("marked", Name n) | MarkFailed n _ => ("failed", Name n) | Cleaned n => ("cleaned", Name n)
  end%string.
Definition summary {T W} (r : option (sd_state (T := T) (W := W) * (MainLoop.ScaleDownResult * list ScaleDownNode * option AutoscalerError))) :=
  match r with
  | Some (st, (res, reported, err)) =>
      Some (res, (λ sd, Name (SdNode sd)) <$> reported, note <$> taint_log st,
            (λ la, (Name <$> la_nodes la, la_drain la, la_delay la)) <$> launches st)
  | None => None
  end.
Definition p1 := Budgets.demo_node "p1".
Definition p2 := Budgets.demo_node "p2".
Definition p3 := Budgets.demo_node "p3".

Example all_started : summary (run false [] [p1; p2] [p3]) =
  Some (MainLoop.ScaleDownNodeDeleteStarted, ["p1"; "p2"; "p3"], [("marked", "p1"); ("marked", "p2"); ("marked", "p3")],
    [(["p1"; "p2"], false, 5); (["p3"], true, 5)])%string.
Proof. vm_compute. reflexivity. Qed.

(** With the measured delay: twice the worst latency of the last hour. *)
Example measured_delay : option_map (λ r, r.2) (summary (run true [] [p1; p2] [p3])) =
  Some [(["p1"; "p2"], false, 104 * millisecond); (["p3"], true, 206 * millisecond)]%string.
Proof. vm_compute. reflexivity. Qed.

(** An empty node that cannot be marked: the other one is cleaned. *)
Example empty_set_undone : summary (run false ["p2"%string] [p1; p2] [p3]) =
  Some (MainLoop.ScaleDownError, [], [("marked", "p1"); ("failed", "p2"); ("cleaned", "p1")], [])%string.
Proof. vm_compute. reflexivity. Qed.

(** A node to drain that cannot be marked: the result is an error although the
    deletion of the empty nodes was started. *)
Example error_after_start : summary (run false ["p3"%string] [p1; p2] [p3]) =
  Some (MainLoop.ScaleDownError, ["p1"; "p2"], [("marked", "p1"); ("marked", "p2"); ("failed", "p3")],
    [(["p1"; "p2"], false, 5)])%string.
Proof. vm_compute. reflexivity. Qed.

Definition views_of (empty drain : list Node) := Budgets.CropNodes (Budgets.demo_context 3 2) [] [] empty drain.

Lemma begin_idle broken : DeletionTracker.DeletionsInProgress (nodeDeletionTracker (sd_shared (begin broken))) = ([], []).
Proof. vm_compute. reflexivity. Qed.

Lemma start_deletion_exact_witness : ∃ st' res reported err evsE evsD,
  run false ["p3"%string] [p1; p2] [p3] = Some (st', (res, reported, err)) ∧
  taint_log st' = taint_log (begin ["p3"%string]) ++ evsE ++ evsD ∧
  SdNode <$> reported `sublist_of` view_nodes (views_of [p1; p2] [p3]).1 ++ view_nodes (views_of [p1; p2] [p3]).2 ∧
  deletion_outcome (after_reset (begin ["p3"%string])) (views_of [p1; p2] [p3]).1 (views_of [p1; p2] [p3]).2 false st' res err evsE evsD.
Proof.
  unfold run, actuation_StartDeletion.
  exact (start_deletion_exact Eligibility.demo_alloc Eligibility.demo_requests (λ _, Err "no devices"%string) id (λ _, "down"%string)
    (λ w k, stored w !! k) tracked (context false) (λ _, Permutation_refl _) (begin ["p3"%string]) [p1; p2] [p3] false [] []
    _ _ (begin_idle _) (surjective_pairing (views_of [p1; p2] [p3]))).
Defined.

Lemma started_nodes_marked_and_bounded_witness :
  match run false [] [p1; p2] [p3] with
  | Some (st', _) => ∃ started drained evs, launches st' = [] ++ started ++ drained ∧ taint_log st' = [] ++ evs ∧
      (∀ la n, la ∈ started ++ drained → n ∈ la_nodes la → Marked n ∈ evs)
  | None => False
  end.
Proof.
  destruct (run false [] [p1; p2] [p3]) as [[st' out]|] eqn:Hrun; [|vm_compute in Hrun; discriminate].
  unfold run, actuation_StartDeletion in Hrun.
  destruct (started_nodes_marked_and_bounded Eligibility.demo_alloc Eligibility.demo_requests (λ _, Err "no devices"%string) id
    (λ _, "down"%string) (λ w k, stored w !! k) tracked (context false) (λ _, Permutation_refl _) (begin []) [p1; p2] [p3] false [] []
    st' out (begin_idle []) Hrun) as (started & drained & evs & H1 & H2 & H3 & _).
  by exists started, drained, evs.
Defined.

(** A lister that sees the taint on every node. *)
Definition all_tainted (w : server) (k : string) : option Node := addTaintsToSpec (Budgets.demo_node k) [mkTaint ToBeDeletedTaint "" NoSchedule None] false.

Lemma latency_exact_witness : ∃ w' u' answer polls,
  await all_tainted (mkServer 0 [] ∅) (foldl latency_step NewUpdateLatencyTracker [StartTime "a" 3; StartTime "b" 5]) = Some (w', u', answer) ∧
  answer = Some (50 * millisecond - 3) ∧
  let all := [StartTime "a" 3; StartTime "b" 5] ++ ((λ w, Poll (all_tainted w) (λ _, api_Now w)) <$> polls) in
  ∃ t, seen all "a" t.
Proof.
  destruct (latency_exact all_tainted [StartTime "a" 3; StartTime "b" 5] (mkServer 0 [] ∅)) as (w' & u' & answer & polls & Ha & Hall).
  - refine (bool_decide_eq_true_1 (NoDup _) _). vm_compute. reflexivity.
  - repeat constructor.
  - intros w k node Hk. unfold all_tainted in Hk. cbv in Hk. injection Hk as <-. done.
  - exists w', u', answer, polls. split; [done|].
    assert (answer = Some (50 * millisecond - 3)) as -> by (vm_compute in Ha; simplify_eq; done).
    split; [done|]. destruct Hall as [Hall _]. destruct (Hall "a"%string 3) as (t & Ht & _); [by left|]. by exists t.
Defined.
End ActuatorExample.
