(* ===== verification/NodeDeletion.v ===== *)
(** The goroutine that the actuator starts for every view of nodes to delete
    (src/pkg/core/scaledown/actuation/actuator.go, deleteNodesAsync and
    createSnapshot): after the delay a fresh snapshot is taken and every node is
    checked again. It refines the decision function of Actuation.v, whose oracle
    it computes. *)
From stdpp Require Import prelude gmap strings list numbers fin_maps.
From S2P Require Import Prelude Api Drain Framework SnapshotSpec ClusterSnapshot Pdb Drainability Removal.
From S2P Require Import Actuation Actuator.
From S2P Require Budgets PodLists.
Local Open Scope Z_scope.
Local Open Scope ca_scope.

Section goroutine.
Context `{GR : GoRange} `{KL : KubeLib} {LabelSelector SelectorError : Type} (LabelSelectorAsSelector : LabelSelector → result SelectorError (gmap string string → bool)).
Context {S Slice CSI T Claims CsiNodes : Type} `{SN : SchedNodeInfo S} `{CS : !ClusterSnapshot S Slice CSI T}.
Abbreviation NI := (NodeInfo S Slice CSI).
(** A new predicate snapshot over a basic store, and setting its state. *)
Context (NewPredicateSnapshot : T)
  (SetClusterState : T → list Node → list Pod → option Claims → option CsiNodes → T * option string).
(** The texts of errors. *)
Context (snapshot_text : snapshot_error → string) (drain_text : drain_error → string).

(** What the goroutine reads, and its configuration; the answer of the DRA
    provider is absent when allocation is disabled or there is no provider, that
    of the CSI provider when CSI nodes are not considered. *)
Record goroutine_env : Type := mkGoroutineEnv {
  AllPodLister_List : result string (list Pod);
  DraProvider_Answer : option (result string Claims);
  CsiProvider_Answer : option (result string CsiNodes);
  PdbLister_List : result string (list (PodDisruptionBudget LabelSelector));
  Listers_ : ListerRegistry;
  ge_PriorityCutoff : Z;
  ge_deleteOptions : NodeDeleteOptions;
  ge_rules : option (list (Rule (LabelSelector := LabelSelector) (NodeInfo := NI)));
  Now_at : string → Z
}.
Implicit Types (env : goroutine_env) (la : launch) (t : T) (node : Node).

Definition ask {A} (answer : option (result string A)) : result string (option A) :=
  match answer with
  | None => Ok None
  | Some (Ok x) => Ok (Some x)
  | Some (Err e) => Err e
  end.

Definition createSnapshot env (nodes : list Node) : T * option string :=
  match AllPodLister_List env with
  | Err e => (NewPredicateSnapshot, Some e)
  | Ok pods =>
      let nonExpendableScheduledPods := PodLists.FilterOutExpendablePods (PodLists.ScheduledPods pods) (ge_PriorityCutoff env) in
      match ask (DraProvider_Answer env) with
      | Err e => (NewPredicateSnapshot, Some e)
      | Ok draSnapshot =>
          match ask (CsiProvider_Answer env) with
          | Err e => (NewPredicateSnapshot, Some e)
          | Ok csiSnapshot => SetClusterState NewPredicateSnapshot nodes nonExpendableScheduledPods draSnapshot csiSnapshot
          end
      end
  end.

(** One node of the loop: what is decided about it. *)
Definition recheck_node env (drain : bool) (batchSize : Z) (listers : option ListerRegistry) (tracker : option (basicRemainingPdbTracker LabelSelector))
    t node : T * verdict :=
  match GetNodeInfo t (Name node) with
  | (t, Err e) => (t, VAbort (snapshot_text e))
  | (t, Ok nodeInfo) =>
      (t, match GetPodsToMove nodeInfo (ge_deleteOptions env) (ge_rules env) listers tracker (Now_at env (Name node)) with
          | (_, Some err) => VAbort (drain_text err)
          | (podMoveInfo, None) =>
              if negb drain then
                if negb (bool_decide (MovePods podMoveInfo = [])) then VAbort "new pods scheduled"
                else if negb (bool_decide (MoveOnCompletionPods podMoveInfo = [])) then VAbort "active on-completion pods present"
                else VSchedule batchSize
              else VSchedule batchSize
          end)
  end.

Definition recheck_step env (drain : bool) (batchSize : Z) listers tracker (acc : T * list (string * verdict)) node : T * list (string * verdict) :=
  let '(t, v) := recheck_node env drain batchSize listers tracker acc.1 node in (t, acc.2 ++ [(Name node, v)]).

(** The decisions about the nodes of a goroutine, in order. *)
Definition goroutine_verdicts env la : list (string * verdict) :=
  match la_nodes la with
  | [] => []
  | nodes =>
      match createSnapshot env nodes with
      | (_, Some e) => (λ node, (Name node, VAbort e)) <$> nodes
      | (t, None) =>
          match (if la_drain la then
                   match PdbLister_List env with
                   | Err e => Err e
                   | Ok pdbs => Ok (Some (Listers_ env), Some (SetPdbs LabelSelectorAsSelector NewBasicRemainingPdbTracker pdbs).1)
                   end
                 else Ok (None, None)) with
          | Err e => (λ node, (Name node, VAbort e)) <$> nodes
          | Ok (listers, tracker) =>
              let batchSize := if la_batchSize la =? 0 then ⟪ nodes ⟫ else la_batchSize la in
              (foldl (recheck_step env (la_drain la) batchSize listers tracker) (t, []) nodes).2
          end
      end
  end.

(** ** The oracle that the goroutine computes *)

(** The nodes of the snapshot it took, by name. *)
Definition nodes_of env la : gmap string NI := snap_nodes (createSnapshot env (la_nodes la)).1.

Definition listers_of env la : option ListerRegistry := if la_drain la then Some (Listers_ env) else None.
Definition tracker_of env la : option (basicRemainingPdbTracker LabelSelector) :=
  match la_drain la, PdbLister_List env with
  | true, Ok pdbs => Some (SetPdbs LabelSelectorAsSelector NewBasicRemainingPdbTracker pdbs).1
  | _, _ => None
  end.

Definition moves env la (nodeInfo : NI) : PodMoveInfo * option drain_error :=
  GetPodsToMove nodeInfo (ge_deleteOptions env) (ge_rules env) (listers_of env la) (tracker_of env la) (Now_at env (NodeName nodeInfo)).

Definition answer_of env la (k : string) : node_answer :=
  match nodes_of env la !! k with
  | None => Err (snapshot_text (StoreError ErrNodeNotFound))
  | Some nodeInfo =>
      Ok match moves env la nodeInfo with
         | (_, Some err) => Err (drain_text err)
         | (info, None) => Ok (length (MovePods info), length (MoveOnCompletionPods info))
         end
  end.

Definition pdb_error env : option string := match PdbLister_List env with Err e => Some e | Ok _ => None end.

Lemma length_zero_nil {A} (l : list A) : (length l =? 0)%nat = bool_decide (l = []).
Proof. by destruct l. Qed.

Definition verdict_of (drain : bool) (batchSize : Z) (answer : node_answer) : verdict :=
  match answer with
  | Err e => VAbort e
  | Ok (Err e) => VAbort e
  | Ok (Ok (pods, onCompletion)) =>
      if drain then VSchedule batchSize
      else if negb (pods =? 0)%nat then VAbort "new pods scheduled"
      else if negb (onCompletion =? 0)%nat then VAbort "active on-completion pods present"
      else VSchedule batchSize
  end.

(** A node is decided on by the snapshot's content, which the question keeps. *)
Lemma recheck_node_spec env la batchSize t node : snap_ok t → snap_nodes t = nodes_of env la →
  let '(t', v) := recheck_node env (la_drain la) batchSize (listers_of env la) (tracker_of env la) t node in
  snap_ok t' ∧ snap_nodes t' = nodes_of env la ∧
  v = verdict_of (la_drain la) batchSize (answer_of env la (Name node)).
Proof.
  intros Hok Hn. unfold recheck_node, answer_of, verdict_of. pose proof (snap_get t (Name node) Hok) as Hget.
  destruct (GetNodeInfo t (Name node)) as [t' r]. destruct Hget as (Hok' & _ & Hn' & ->). rewrite Hn in Hn'.
  pose proof (snap_named t Hok) as Hnamed. rewrite Hn in *.
  destruct (nodes_of env la !! Name node) as [ni|] eqn:Hni; [|done]. do 2 (split; [done|]).
  pose proof (Hnamed _ _ Hni) as Hname. simpl in Hname. unfold moves. rewrite Hname.
  destruct (GetPodsToMove _ _ _ _ _ _) as [info [e|]]; [done|]. rewrite !length_zero_nil. by destruct (la_drain la).
Qed.

Lemma check_loop env la batchSize nodes : ∀ t acc, snap_ok t → snap_nodes t = nodes_of env la →
  (foldl (recheck_step env (la_drain la) batchSize (listers_of env la) (tracker_of env la)) (t, acc) nodes).2 =
  acc ++ ((λ k, (k, verdict_of (la_drain la) batchSize (answer_of env la k))) <$> (Name <$> nodes)).
Proof.
  induction nodes as [|node nodes IH]; intros t acc Hok Hn; [by rewrite app_nil_r|]. cbn [foldl].
  unfold recheck_step at 2. cbn [fst snd]. pose proof (recheck_node_spec env la batchSize t node Hok Hn) as Hc.
  destruct (recheck_node _ _ _ _ _ _ _) as [t' v]. destruct Hc as (Hok' & Hn' & ->). rewrite IH by done. by rewrite <- app_assoc.
Qed.

Lemma goroutine_decision env la :
  snap_ok (createSnapshot env (la_nodes la)).1 →
  goroutine_verdicts env la =
    deleteNodesAsync (Name <$> la_nodes la) (la_drain la) (la_batchSize la)
      (createSnapshot env (la_nodes la)).2 (pdb_error env) (answer_of env la).
Proof.
  intros Hok. unfold goroutine_verdicts, deleteNodesAsync.
  destruct (la_nodes la) as [|n l] eqn:Hl; [done|]. rewrite <- Hl in *.
  assert (∀ {A} (x y : A), match Name <$> la_nodes la with [] => x | _ => y end = y) as Hne by (intros; by rewrite Hl).
  rewrite Hne. assert (∀ e, (λ node, (Name node, VAbort e)) <$> la_nodes la = (λ k, (k, VAbort e)) <$> (Name <$> la_nodes la)) as Hab.
  { intros e. by rewrite <- list_fmap_compose. }
  destruct (createSnapshot env (la_nodes la)) as [t [e|]] eqn:Hc; [apply Hab|]. simpl in Hok. simpl.
  assert (snap_nodes t = nodes_of env la) as Hn by (unfold nodes_of; by rewrite Hc).
  pose proof (λ bs, check_loop env la bs (la_nodes la) t [] Hok Hn) as Hloop.
  rewrite length_fmap. unfold pdb_error, listers_of, tracker_of in *.
  destruct (la_drain la); [|by apply Hloop]. destruct (PdbLister_List env) as [pdbs|e]; [by apply Hloop|apply Hab].
Qed.


(** A goroutine that was started for empty nodes hands a node over for
    deletion only after it has found the node again in a fresh snapshot, with no
    pod that blocks, has to move or runs to completion; one that drains needs
    that nothing blocks. The batch size handed over is at least one. *)
Theorem handed_over_after_recheck env la k bs :
  snap_ok (createSnapshot env (la_nodes la)).1 → 0 <= la_batchSize la → (k, VSchedule bs) ∈ goroutine_verdicts env la →
  1 <= bs ∧ ∃ node nodeInfo, node ∈ la_nodes la ∧ Name node = k ∧ nodes_of env la !! k = Some nodeInfo ∧
    (moves env la nodeInfo).2 = None ∧
    (la_drain la = false → MovePods (moves env la nodeInfo).1 = [] ∧ MoveOnCompletionPods (moves env la nodeInfo).1 = []).
Proof.
  intros Hok Hbs Hin. rewrite (goroutine_decision env la Hok) in Hin.
  destruct (async_decides_every_node (Name <$> la_nodes la) (la_drain la) (la_batchSize la) (createSnapshot env (la_nodes la)).2 (pdb_error env) (answer_of env la) Hbs)
    as [Hnames Hv]. destruct (Hv k bs Hin) as (Hpos & _ & Ha). split; [done|].
  assert (k ∈ Name <$> la_nodes la) as (node & -> & Hnode)%list_elem_of_fmap.
  { rewrite <- Hnames. by apply (list_elem_of_fmap_2 fst) in Hin. }
  unfold answer_of in Ha. destruct (nodes_of env la !! Name node) as [ni|] eqn:Hni.
  - exists node, ni. do 3 (split; [done|]). destruct (moves env la ni) as [info [e|]].
    + destruct (la_drain la); [by destruct Ha as (_ & ? & ? & ?)|done].
    + split; [done|]. intros Hdrain. rewrite Hdrain in Ha. simpl.
      injection Ha as H1 H2. by split; apply nil_length_inv.
  - destruct (la_drain la); [by destruct Ha as (_ & ? & ? & ?)|done].
Qed.
End goroutine.

(** Two nodes of which one got a pod after it was found empty. *)
Module GoroutineExample.
#[local] Instance kl : KubeLib := demo_kubelib.
#[local] Instance cs : ClusterSnapshot demo_sched unit unit (spec_state demo_sched unit unit) := ref_snapshot (λ _ _, true).
Abbreviation T := (spec_state demo_sched unit unit).

Definition set_cluster (t : T) (nodes : list Node) (pods : list Pod) (dra csi : option unit) : T * option string :=
  (mkSpec (list_to_map ((λ n, (Name n, mkNodeInfo (n, (λ p, NewPodInfo p []) <$> filter (λ p, PodNodeName p = Name n) pods) [] None)) <$> nodes)) [],
   None).
Definition no_listers : ListerRegistry :=
  let none := λ _ _ : string, (None, Some NotFoundError) in mkListers none none none none none.

Definition env (pods : list Pod) (pdbs : result string (list (PodDisruptionBudget unit))) :
    goroutine_env (LabelSelector := unit) (S := demo_sched) (Slice := unit) (CSI := unit) (Claims := unit) (CsiNodes := unit) :=
  mkGoroutineEnv (Ok pods) None None pdbs no_listers (-10) (mkDeleteOptions true true false 0 0) None (λ _, 0).

Definition emptied (drain : bool) : launch := mkLaunch (named_node <$> ["n1"; "n2"]%string) Budgets.demo_pool drain false 0 0.
Definition verdicts (pods : list Pod) pdbs (drain : bool) : list (string * verdict) :=
  goroutine_verdicts (λ _ : unit, Ok (λ _, true) : result string _) (mkSpec ∅ [] : T) set_cluster (λ _, "snapshot"%string)
    (λ _, "drain"%string) (env pods pdbs) (emptied drain).

Example pod_came_back : verdicts [demo_replica "a"] (Ok []) false = [("n1", VAbort "new pods scheduled"); ("n2", VSchedule 2)]%string.
Proof. vm_compute. reflexivity. Qed.
Example drained_anyway : verdicts [demo_replica "a"] (Ok []) true = [("n1", VSchedule 2); ("n2", VSchedule 2)]%string.
Proof. vm_compute. reflexivity. Qed.
Example no_budgets_no_drain : verdicts [demo_replica "a"] (Err "down"%string) true = [("n1", VAbort "down"); ("n2", VAbort "down")]%string.
Proof. vm_compute. reflexivity. Qed.

Abbreviation snapshot pods drain :=
  (createSnapshot (mkSpec ∅ [] : T) set_cluster (env pods (Ok [])) (la_nodes (emptied drain))).1.

Lemma snapshot_ok pods drain : snap_ok (snapshot pods drain).
Proof.
  split; [|constructor]. intros k ni H%elem_of_list_to_map_2.
  apply list_elem_of_fmap in H as (n & [= -> ->] & _). done.
Qed.


Lemma handed_over_after_recheck_witness : 1 <= 2 ∧ ∃ node nodeInfo,
  node ∈ la_nodes (emptied false) ∧ Name node = "n2"%string ∧ cur (snapshot [demo_replica "a"] false) !! "n2"%string = Some nodeInfo.
Proof.
  destruct (handed_over_after_recheck (λ _ : unit, Ok (λ _, true) : result string _) (mkSpec ∅ [] : T) set_cluster (λ _, "snapshot"%string)
    (λ _, "drain"%string) (env [demo_replica "a"] (Ok [])) (emptied false) "n2"%string 2) as (H & node & ni & H1 & H2 & H3 & _).
  - apply snapshot_ok.
  - done.
  - change (("n2"%string, VSchedule 2) ∈ verdicts [demo_replica "a"] (Ok []) false). rewrite pod_came_back. by right; left.
  - split; [done|]. by exists node, ni.
Defined.
End GoroutineExample.
