(* ===== verification/ProvReq.v ===== *)
(** Provisioning requests: their conditions (src/pkg/provisioningrequest/
    conditions, provreqwrapper, supported_classes.go), the pods made for them
    (provisioningrequest/pods), their client (provreqclient), and the processors
    that inject, expire and book them (src/pkg/processors/provreq). *)
From stdpp Require Import prelude gmap strings pretty list numbers fin_maps.
From S2P Require Import Prelude Api Drain Framework.
Local Open Scope Z_scope.
Local Open Scope ca_scope.

(** ** Requests *)

(** The names that the API package of provisioning requests defines. *)
Class ProvReqApi : Type := {
  Accepted : string; Provisioned : string; BookingExpired : string; Failed : string;
  ProvisioningClassCheckCapacity : string; ProvisioningClassBestEffortAtomicScaleUp : string;
  ProvisioningRequestPodAnnotationKey : string; ProvisioningClassPodAnnotationKey : string;
  condition_types_distinct : NoDup [Accepted; Provisioned; BookingExpired; Failed];
  annotation_keys_distinct : ProvisioningRequestPodAnnotationKey ≠ ProvisioningClassPodAnnotationKey
}.

Record Condition : Type := mkCond {
  CondType : string; CondStatus : ConditionStatus; ObservedGeneration : Z; LastTransitionTime : Z; CondReason : string;
  CondMessage : string
}.

(** apimachinery's [FindStatusCondition]: the first condition of a type. *)
Class StatusConditions : Type := {
  FindStatusCondition : list Condition → string → option Condition;
  find_condition : ∀ l t, FindStatusCondition l t = snd <$> list_find (λ c, CondType c = t) l
}.

(** A wrapper with the pod templates found for its pod sets, by name. A pod set
    is a count and the name of a template. *)
Record ProvisioningRequest {Template : Type} : Type := mkPr {
  PrAPIVersion : string; PrKind : string; PrNamespace : string; PrName : string; PrUID : string;
  PrGeneration : Z; PrCreationTimestamp : Z;
  ProvisioningClassName : string; Parameters : gmap string string;
  SpecPodSets : list (Z * string); StatusConditions_ : list Condition;
  PodTemplates : list (string * Template)
}.
Arguments ProvisioningRequest : clear implicits.

Definition CheckCapacityProcessorInstanceKey : string := "processorInstance".
Definition DeprecatedProvisioningRequestPodAnnotationKey : string := "cluster-autoscaler.kubernetes.io/consume-provisioning-request".

Definition pr_minute : Z := 60 * 10 ^ 9.
Definition defaultReservationTime : Z := 10 * pr_minute.
Definition defaultExpirationTime : Z := 7 * 24 * 60 * pr_minute.
Definition defaultTerminalProvReqTTL : Z := 7 * 24 * 60 * pr_minute.
Definition defaultMaxUpdated : Z := 20.

Section requests.
Context `{PA : !ProvReqApi} `{SC : !StatusConditions} {Template : Type}.
Abbreviation PR := (ProvisioningRequest Template).
Implicit Types (pr : PR) (conditions : list Condition).

Definition IsStatusConditionTrue conditions (t : string) : bool :=
  match FindStatusCondition conditions t with
  | Some c => bool_decide (CondStatus c = ConditionTrue)
  | None => false
  end.

Definition SetConditions pr conditions : PR :=
  mkPr _ (PrAPIVersion pr) (PrKind pr) (PrNamespace pr) (PrName pr) (PrUID pr) (PrGeneration pr) (PrCreationTimestamp pr)
    (ProvisioningClassName pr) (Parameters pr) (SpecPodSets pr) conditions (PodTemplates pr).

(** [supported_classes.go]. *)
Definition SupportedCheckCapacityClass pr (checkCapacityProcessorInstance : string) : bool :=
  let provisioningClassName := ProvisioningClassName pr in
  let processorInstance := default "" (Parameters pr !! CheckCapacityProcessorInstanceKey) in
  if bool_decide (checkCapacityProcessorInstance = "") then
    if negb (bool_decide (processorInstance = "")) then false
    else bool_decide (provisioningClassName = ProvisioningClassCheckCapacity)
  else if negb (bool_decide (processorInstance = "")) then
    bool_decide (checkCapacityProcessorInstance = processorInstance) &&
    bool_decide (provisioningClassName = ProvisioningClassCheckCapacity)
  else if negb (HasPrefix provisioningClassName checkCapacityProcessorInstance) then false
  else bool_decide (String.substring (String.length checkCapacityProcessorInstance)
         (String.length provisioningClassName - String.length checkCapacityProcessorInstance) provisioningClassName
       = ProvisioningClassCheckCapacity).

Definition SupportedProvisioningClass pr (checkCapacityProcessorInstance : string) : bool :=
  if bool_decide (ProvisioningClassName pr = ProvisioningClassBestEffortAtomicScaleUp)
  then bool_decide (checkCapacityProcessorInstance = "")
  else SupportedCheckCapacityClass pr checkCapacityProcessorInstance.

Definition ShouldCapacityBeBooked pr (checkCapacityProcessorInstance : string) : bool :=
  if negb (SupportedProvisioningClass pr checkCapacityProcessorInstance) then false
  else if IsStatusConditionTrue (StatusConditions_ pr) Failed || IsStatusConditionTrue (StatusConditions_ pr) BookingExpired then false
  else IsStatusConditionTrue (StatusConditions_ pr) Provisioned.

(** The new conditions, and whether one of the type was found. *)
Definition condition_step (newCondition : Condition) (acc : list Condition * bool) (condition : Condition) : list Condition * bool :=
  if bool_decide (CondType condition = CondType newCondition) then (acc.1 ++ [newCondition], true)
  else (acc.1 ++ [condition], acc.2).

(** A condition of another type is logged and leaves the request alone. *)
Definition AddOrUpdateCondition pr (conditionType : string) (conditionStatus : ConditionStatus) (reason message : string) (now : Z) : PR :=
  let newCondition := mkCond conditionType conditionStatus (PrGeneration pr) now reason message in
  let prevConditions := StatusConditions_ pr in
  SetConditions pr
    (if bool_decide (conditionType ∈ [Provisioned; BookingExpired; Failed; Accepted]) then
       let '(newConditions, conditionFound) := foldl (condition_step newCondition) ([], false) prevConditions in
       if conditionFound then newConditions else prevConditions ++ [newCondition]
     else prevConditions).

(** ** Pods *)

(** [errMissingPodTemplates]. *)
Definition errMissingPodTemplates (podSets : list (Z * string)) (podTemplates : list (string * Template)) : string :=
  let missingTemplates := filter (λ name, name ∉ podTemplates.*1) podSets.*2 in
  "missing pod templates, " +:+ pretty (length podSets) +:+ " pod templates were referenced, " +:+
  pretty (length missingTemplates) +:+ " templates were missing: " +:+ String.concat "," missingTemplates.

Definition PodSets pr : result string (list (Z * Template)) :=
  if bool_decide (length (SpecPodSets pr) = length (PodTemplates pr))
  then Ok (zip (SpecPodSets pr).*1 (PodTemplates pr).*2)
  else Err (errMissingPodTemplates (SpecPodSets pr) (PodTemplates pr)).

Definition PodCount pr : Z := foldl (λ count podSet, count + podSet.1) 0 (SpecPodSets pr).

(** Kubernetes' [GetPodFromTemplate], which also names the prefix of generated
    names, and the defaulting of pods. *)
Context (GetPodFromTemplate : Template → PR → OwnerReference → result string (string * Pod)) (SetDefaults_Pod : Pod → Pod).

Definition ownerReference pr : OwnerReference := mkOwner (PrAPIVersion pr) (PrKind pr) (PrName pr) (PrUID pr) (Some true).

Definition populatePodFields pr (GenerateName : string) (pod : Pod) (i j : nat) : Pod :=
  let name := GenerateName +:+ pretty i +:+ "-" +:+ pretty j in
  mkPod (PrNamespace pr) name (PrNamespace pr +:+ "/" +:+ name) (PodLabels pod)
    (<[ProvisioningClassPodAnnotationKey := ProvisioningClassName pr]>
      (<[ProvisioningRequestPodAnnotationKey := PrName pr]> (PodAnnotations pod)))
    (PodOwnerReferences pod) (Some (PrCreationTimestamp pr)) (PodDeletionTimestamp pod) (PodTerminationGracePeriodSeconds pod)
    (PodRestartPolicy pod) (PodStatusPhase pod) (PodVolumes pod) (PodContainers pod) (PodResourceClaims pod) (PodSpecPriority pod)
    (PodNominatedNodeName pod) (PodNodeName pod) (PodSchedulerName pod) (PodScheduledCondition pod).

Definition pod_of_set pr (i : nat) (podSet : Z * Template) (pods : list Pod) (j : nat) : list Pod * option string :=
  match GetPodFromTemplate podSet.2 pr (ownerReference pr) with
  | Err err => (pods, Some ("while creating pod for pr: " +:+ PrNamespace pr +:+ "/" +:+ PrName pr +:+ " podSet: " +:+
                  pretty i +:+ ", got error: " +:+ err))
  | Ok (GenerateName, pod) => (pods ++ [SetDefaults_Pod (populatePodFields pr GenerateName pod i j)], None)
  end.

Definition pods_of_set pr (pods : list Pod) (ip : nat * (Z * Template)) : list Pod * option string :=
  fold_err (pod_of_set pr ip.1 ip.2) (seq 0 (Z.to_nat ip.2.1)) pods.

Definition PodsForProvisioningRequest pr : result string (list Pod) :=
  match PodSets pr with
  | Err err => Err err
  | Ok podSets =>
      match fold_err (pods_of_set pr) (imap pair podSets) [] with
      | (_, Some err) => Err err
      | (pods, None) => Ok pods
      end
  end.

Definition provisioningRequestName (pod : Pod) : option string :=
  match PodAnnotations pod !! ProvisioningRequestPodAnnotationKey with
  | Some name => Some name
  | None => PodAnnotations pod !! DeprecatedProvisioningRequestPodAnnotationKey
  end.

(** [ProvisioningRequestPodsFilter.Process] and the scale-up enforcer. *)
Definition filter_consuming_pods (unschedulablePods : list Pod) : list Pod :=
  foldl (λ result pod, match provisioningRequestName pod with None => result ++ [pod] | Some _ => result end) [] unschedulablePods.

Definition ProvReq_ShouldForceScaleUp (unschedulablePods : list Pod) : bool :=
  existsb (λ pod, match provisioningRequestName pod with Some _ => true | None => false end) unschedulablePods.
End requests.

(** ** The client *)

(** The informers and the API server of provisioning requests and their clock.
    The objects of an informer's cache are handed out as they are and changed in
    place by their users, also when an update fails: functions return them. *)
Class ProvReqClient (Template W : Type) : Type := {
  pr_Listed : W → result string (list (ProvisioningRequest Template));
  template_Get : W → string → string → result string (option Template);
  pr_UpdateStatus : W → ProvisioningRequest Template → W * option string;
  pr_ApplyCondition : W → string → string → Condition → W * option string;
  pr_Delete : W → string → string → W * option string;
  pr_Now : W → Z;
  pr_update_time : ∀ w pr, pr_Now w <= pr_Now (pr_UpdateStatus w pr).1;
  pr_delete_time : ∀ w ns name, pr_Now w <= pr_Now (pr_Delete w ns name).1
}.

(** groupcache's LRU cache of durations: it may evict entries on [Add]. *)
Class LruCache (C : Type) : Type := {
  lru_content : C → gmap string Z;
  lru_Get : C → string → C * option Z;
  lru_Add : C → string → Z → C;
  lru_Remove : C → string → C;
  lru_get : ∀ c k, lru_content (lru_Get c k).1 = lru_content c ∧ (lru_Get c k).2 = lru_content c !! k;
  lru_add : ∀ c k v, lru_content (lru_Add c k v) !! k = Some v ∧ lru_content (lru_Add c k v) ⊆ <[k := v]> (lru_content c);
  lru_remove : ∀ c k, lru_content (lru_Remove c k) = delete k (lru_content c)
}.

Section client.
Context `{PA : !ProvReqApi} `{SC : !StatusConditions} {Template W : Type} `{PC : !ProvReqClient Template W}.
Abbreviation PR := (ProvisioningRequest Template).
Implicit Types (pr : PR) (prs : list PR) (w : W).

Definition with_pod_templates pr (podTemplates : list (string * Template)) : PR :=
  mkPr _ (PrAPIVersion pr) (PrKind pr) (PrNamespace pr) (PrName pr) (PrUID pr) (PrGeneration pr) (PrCreationTimestamp pr)
    (ProvisioningClassName pr) (Parameters pr) (SpecPodSets pr) (StatusConditions_ pr) podTemplates.

(** A template that is not found is left out. *)
Definition fetch_step w pr (podTemplates : list (string * Template)) (podSpec : Z * string) : list (string * Template) * option string :=
  match template_Get w (PrNamespace pr) podSpec.2 with
  | Ok (Some t) => (podTemplates ++ [(podSpec.2, t)], None)
  | Ok None => (podTemplates, None)
  | Err err => (podTemplates, Some err)
  end.

Definition FetchPodTemplates w pr : result string (list (string * Template)) :=
  match fold_err (fetch_step w pr) (SpecPodSets pr) [] with
  | (_, Some err) => Err err
  | (podTemplates, None) => Ok podTemplates
  end.

Definition list_step w prs pr : list PR * option string :=
  match FetchPodTemplates w pr with
  | Err err => (prs, Some ("while fetching pod templates for List Provisioning Request " +:+ PrNamespace pr +:+ "/" +:+
                           PrName pr +:+ " got error: " +:+ err))
  | Ok podTemplates => (prs ++ [with_pod_templates pr podTemplates], None)
  end.

Definition ProvisioningRequests w : result string (list PR) :=
  match pr_Listed w with
  | Err err => Err ("error fetching provisioningRequests: " +:+ err)
  | Ok v1PRs =>
      match fold_err (list_step w) v1PRs [] with
      | (_, Some err) => Err err
      | (prs, None) => Ok prs
      end
  end.

(** [ProvisioningRequest]: one request of the listed ones by its name. *)
Definition ProvisioningRequest_Get w (namespace name : string) : result string PR :=
  match pr_Listed w with
  | Err err => Err err
  | Ok v1PRs =>
      match list_find (λ pr, PrNamespace pr = namespace ∧ PrName pr = name) v1PRs with
      | None => Err "not found"
      | Some (_, v1PR) =>
          match FetchPodTemplates w v1PR with
          | Err err => Err ("while fetching pod templates for Get Provisioning Request " +:+ namespace +:+ "/" +:+ name +:+
                            " got error: " +:+ err)
          | Ok podTemplates => Ok (with_pod_templates v1PR podTemplates)
          end
      end
  end.

(** The requests by name, without their namespaces. *)
Definition pods_request_step w (prMap : gmap string PR) (pod : Pod) : gmap string PR :=
  match PodOwnerReferences pod with
  | [] => prMap
  | owner :: _ =>
      match ProvisioningRequest_Get w (PodNamespace pod) (OwnerName owner) with
      | Err _ => prMap
      | Ok provReq => match prMap !! PrName provReq with Some _ => prMap | None => <[PrName provReq := provReq]> prMap end
      end
  end.

Definition ProvisioningRequestsForPods `{GR : GoRange} w (unschedulablePods : list Pod) : list PR :=
  foldl (λ prList kv, prList ++ [kv.2]) [] (go_range (foldl (pods_request_step w) ∅ unschedulablePods)).

Definition matchesProvisioningClass pr (class checkCapacityProcessorInstance : string) : bool :=
  if bool_decide (class = ProvisioningClassCheckCapacity) then SupportedCheckCapacityClass pr checkCapacityProcessorInstance
  else if bool_decide (class = ProvisioningClassBestEffortAtomicScaleUp)
  then bool_decide (ProvisioningClassName pr = ProvisioningClassBestEffortAtomicScaleUp)
  else false.

(** It keeps the requests of the class. *)
Definition FilterOutProvisioningClass prs (class checkCapacityProcessorInstance : string) : list PR :=
  foldl (λ newPrList pr, if matchesProvisioningClass pr class checkCapacityProcessorInstance then newPrList ++ [pr] else newPrList)
    [] prs.
End client.

Definition AcceptedReason : string := "Accepted".
Definition AcceptedMsg : string := "ProvisioningRequest is accepted by ClusterAutoscaler".
Definition FailedToCreatePodsReason : string := "FailedToCreatePods".
Definition FailedToBookCapacityReason : string := "FailedToBookCapacity".
Definition CapacityReservationTimeExpiredReason : string := "CapacityReservationTimeExpired".
Definition CapacityReservationTimeExpiredMsg : string := "Capacity reservation time is expired".
Definition CapacityBookingConsumedReason : string := "CapacityBookingConsumed".
Definition CapacityBookingConsumedMsg : string := "Capacity booking consumed: all pods scheduled".
Definition ExpiredReason : string := "Expired".
Definition ExpiredMsg : string := "ProvisioningRequest is expired".

(** ** The injector *)

Record ProvisioningRequestPodsInjector {C : Type} : Type := mkInjector {
  initialRetryTime : Z; maxBackoffTime : Z; backoffDuration : C; lastProvisioningRequestProcessTime : Z;
  checkCapacityBatchProcessing : bool; inj_instance : string
}.
Arguments ProvisioningRequestPodsInjector : clear implicits.

Section injector.
Context `{PA : !ProvReqApi} `{SC : !StatusConditions} {Template W C : Type} `{PC : !ProvReqClient Template W} `{LC : !LruCache C}.
Abbreviation PR := (ProvisioningRequest Template).
Context (GetPodFromTemplate : Template → PR → OwnerReference → result string (string * Pod)) (SetDefaults_Pod : Pod → Pod).
Abbreviation Injector := (ProvisioningRequestPodsInjector C).
Implicit Types (pr : PR) (prs : list PR) (w : W) (p : Injector) (now : Z).

Definition with_backoff p (cache : C) : Injector :=
  mkInjector _ (initialRetryTime p) (maxBackoffTime p) cache (lastProvisioningRequestProcessTime p) (checkCapacityBatchProcessing p)
    (inj_instance p).

Definition UpdateLastProcessTime p now : Injector :=
  mkInjector _ (initialRetryTime p) (maxBackoffTime p) (backoffDuration p) now (checkCapacityBatchProcessing p) (inj_instance p).

Definition IsAvailableForProvisioning p pr now : Injector * bool :=
  let conditions := StatusConditions_ pr in
  if IsStatusConditionTrue conditions Failed || IsStatusConditionTrue conditions Provisioned
  then (with_backoff p (lru_Remove (backoffDuration p) (PrUID pr)), false)
  else
    match FindStatusCondition conditions Provisioned with
    | None => (p, true)
    | Some provisioned =>
        if negb (bool_decide (CondStatus provisioned = ConditionFalse)) then (p, false)
        else
          let '(cache, val) := lru_Get (backoffDuration p) (PrUID pr) in
          let retryTime := default (initialRetryTime p) val in
          if LastTransitionTime provisioned + retryTime <? now then
            (with_backoff p (lru_Add (lru_Remove cache (PrUID pr)) (PrUID pr) (Z.min (wrap64 (2 * retryTime)) (maxBackoffTime p))), true)
          else (with_backoff p cache, false)
    end.

Definition MarkAsAccepted w p pr : W * Injector * PR * option string :=
  let pr := AddOrUpdateCondition pr Accepted ConditionTrue AcceptedReason AcceptedMsg (pr_Now w) in
  match pr_UpdateStatus w pr with
  | (w, Some err) => (w, p, pr, Some err)
  | (w, None) => (w, UpdateLastProcessTime p (pr_Now w), pr, None)
  end.

(** An error of the update is only logged. *)
Definition MarkAsFailed w p pr (reason message : string) : W * Injector * PR :=
  let pr := AddOrUpdateCondition pr Failed ConditionTrue reason message (pr_Now w) in
  let '(w, _) := pr_UpdateStatus w pr in
  (w, UpdateLastProcessTime p (pr_Now w), pr).

Definition isSupportedClass p pr : bool := SupportedProvisioningClass pr (inj_instance p).
Definition isSupportedCheckCapacityClass p pr : bool := SupportedCheckCapacityClass pr (inj_instance p).
Definition shouldMarkAsAccepted p pr : bool := negb (checkCapacityBatchProcessing p) || negb (isSupportedCheckCapacityClass p pr).

(** The loop of [GetPodsFromNextRequest]: the objects as it leaves them, and
    the pods of the request it returned at. *)
Fixpoint next_request w p prs : W * Injector * list PR * list Pod :=
  match prs with
  | [] => (w, p, [], [])
  | pr :: prs' =>
      let next w p pr := let '(w, p, rest, pods) := next_request w p prs' in (w, p, pr :: rest, pods) in
      if negb (isSupportedClass p pr) then next w p pr
      else
        match IsAvailableForProvisioning p pr (pr_Now w) with
        | (p, false) => next w p pr
        | (p, true) =>
            match PodsForProvisioningRequest GetPodFromTemplate SetDefaults_Pod pr with
            | Err err => let '(w, p, pr) := MarkAsFailed w p pr FailedToCreatePodsReason err in next w p pr
            | Ok podsFromProvReq =>
                if shouldMarkAsAccepted p pr then
                  match MarkAsAccepted w p pr with
                  | (w, p, pr, Some _) => next w p pr
                  | (w, p, pr, None) => (w, p, pr :: prs', podsFromProvReq)
                  end
                else (w, UpdateLastProcessTime p (pr_Now w), pr :: prs', podsFromProvReq)
            end
        end
  end.

Definition GetPodsFromNextRequest w p : W * Injector * list PR * result string (list Pod) :=
  match ProvisioningRequests w with
  | Err err => (w, p, [], Err err)
  | Ok prs => let '(w, p, prs, pods) := next_request w p prs in (w, p, prs, Ok pods)
  end.

(** The loop of [GetCheckCapacityBatch]: the requests with their pods, in order. *)
Definition batch_step (maxPrs : Z) (acc : W * Injector * list PR * list (nat * list Pod)) (ipr : nat * PR)
    : option (W * Injector * list PR * list (nat * list Pod)) :=
  let '(w, p, objects, prsWithPods) := acc in
  let '(i, pr) := ipr in
  if maxPrs <=? ⟪ prsWithPods ⟫ then None
  else if negb (isSupportedCheckCapacityClass p pr) then Some acc
  else
    match IsAvailableForProvisioning p pr (pr_Now w) with
    | (p, false) => Some (w, p, objects, prsWithPods)
    | (p, true) =>
        match PodsForProvisioningRequest GetPodFromTemplate SetDefaults_Pod pr with
        | Err err => let '(w, p, pr) := MarkAsFailed w p pr FailedToCreatePodsReason err in
                     Some (w, p, <[i := pr]> objects, prsWithPods)
        | Ok pods => Some (w, p, objects, prsWithPods ++ [(i, pods)])
        end
    end.

(** The objects as they are left, and the batch as indices into them. *)
Definition GetCheckCapacityBatch w p (maxPrs : Z) : W * Injector * list PR * result string (list (nat * list Pod)) :=
  match ProvisioningRequests w with
  | Err err => (w, p, [], Err err)
  | Ok prs =>
      let '(w, p, objects, batch) := loop_break (batch_step maxPrs) (imap pair prs) (w, p, prs, []) in
      (w, p, objects, Ok batch)
  end.

(** [Process]. *)
Definition inject_Process w p (unschedulablePods : list Pod) : W * Injector * result string (list Pod) :=
  match GetPodsFromNextRequest w p with
  | (w, p, _, Err err) => (w, p, Err err)
  | (w, p, _, Ok podsFromProvReq) => (w, p, Ok (unschedulablePods ++ podsFromProvReq))
  end.
End injector.

(** ** The processor that expires and books requests *)

Section processor.
Context `{PA : !ProvReqApi} `{SC : !StatusConditions} {Template W : Type} `{PC : !ProvReqClient Template W}.
Abbreviation PR := (ProvisioningRequest Template).
Context (maxUpdated : Z) (instance : string).
Implicit Types (pr : PR) (prs : list PR) (w : W).

(** The loop that chooses which requests expire and which fail, by index. *)
Definition refresh_step w (acc : list nat * list nat) (ipr : nat * PR) : option (list nat * list nat) :=
  let '(expired, failed) := acc in
  let '(i, pr) := ipr in
  if maxUpdated <=? ⟪ expired ⟫ then None
  else if negb (SupportedProvisioningClass pr instance) then Some acc
  else if IsStatusConditionTrue (StatusConditions_ pr) BookingExpired || IsStatusConditionTrue (StatusConditions_ pr) Failed then Some acc
  else
    match FindStatusCondition (StatusConditions_ pr) Provisioned with
    | Some provisioned =>
        if bool_decide (CondStatus provisioned = ConditionTrue) then
          if LastTransitionTime provisioned + defaultReservationTime <? pr_Now w then Some (expired ++ [i], failed) else Some acc
        else if (⟪ failed ⟫ <? maxUpdated - ⟪ expired ⟫) && (PrCreationTimestamp pr + defaultExpirationTime <? pr_Now w)
        then Some (expired, failed ++ [i]) else Some acc
    | None =>
        if (⟪ failed ⟫ <? maxUpdated - ⟪ expired ⟫) && (PrCreationTimestamp pr + defaultExpirationTime <? pr_Now w)
        then Some (expired, failed ++ [i]) else Some acc
    end.

(** One request gets a condition and is updated; an error is only logged. *)
Definition mark_step (conditionType reason message : string) (acc : W * list PR) (i : nat) : W * list PR :=
  let '(w, prs) := acc in
  match prs !! i with
  | None => acc
  | Some pr =>
      let pr := AddOrUpdateCondition pr conditionType ConditionTrue reason message (pr_Now w) in
      ((pr_UpdateStatus w pr).1, <[i := pr]> prs)
  end.

Definition older_than (ttl now : Z) (c : option Condition) : bool :=
  match c with Some c => LastTransitionTime c + ttl <? now | None => false end.

(** The world, and the requests whose deletion was asked for. *)
Definition delete_old_step (acc : W * list (string * string)) pr : W * list (string * string) :=
  let '(w, deleted) := acc in
  let provisioned := FindStatusCondition (StatusConditions_ pr) Provisioned in
  let failed := FindStatusCondition (StatusConditions_ pr) Failed in
  if older_than defaultTerminalProvReqTTL (pr_Now w) provisioned || older_than defaultTerminalProvReqTTL (pr_Now w) failed
  then ((pr_Delete w (PrNamespace pr) (PrName pr)).1, deleted ++ [(PrNamespace pr, PrName pr)])
  else acc.

Definition DeleteOldProvReqs w prs : W * list (string * string) := foldl delete_old_step (w, []) prs.

(** [refresh]: the objects as it leaves them and the requests it asked to delete. *)
Definition refresh w prs : W * list PR * list (string * string) :=
  let '(expiredProvReq, failedProvReq) := loop_break (refresh_step w) (imap pair prs) ([], []) in
  let '(w, prs) := foldl (mark_step BookingExpired CapacityReservationTimeExpiredReason CapacityReservationTimeExpiredMsg) (w, prs) expiredProvReq in
  let '(w, prs) := foldl (mark_step Failed ExpiredReason ExpiredMsg) (w, prs) failedProvReq in
  let '(w, deleted) := DeleteOldProvReqs w prs in
  (w, prs, deleted).

(** [Refresh]; an error of the listing is only logged. *)
Definition provreq_Refresh w : W * list PR * list (string * string) :=
  match ProvisioningRequests w with
  | Err _ => (w, [], [])
  | Ok provReqs => refresh w provReqs
  end.

Context {S Slice CSI T Hints : Type} `{SN : SchedNodeInfo S}.
Abbreviation NI := (NodeInfo S Slice CSI).
Context (GetPodFromTemplate : Template → PR → OwnerReference → result string (string * Pod)) (SetDefaults_Pod : Pod → Pod)
  (ListNodeInfos : T → T * result string (list NI))
  (** The scheduling simulation of the processor's own simulator. *)
  (TrySchedulePods : Hints → T → list Pod → T * Hints * option string).

Definition count_scheduled (scheduledPods : gmap string Z) (pod : Pod) : gmap string Z :=
  match provisioningRequestName pod with
  | Some name => let k := PodNamespace pod +:+ "/" +:+ name in <[k := default 0 (scheduledPods !! k) + 1]> scheduledPods
  | None => scheduledPods
  end.

(** The world, the objects and the pods to create so far. *)
Definition book_step (scheduledPods : gmap string Z) (acc : W * list PR * list Pod) pr : W * list PR * list Pod :=
  let '(w, objects, podsToCreate) := acc in
  let update pr := ((pr_UpdateStatus w pr).1, objects ++ [pr], podsToCreate) in
  if negb (ShouldCapacityBeBooked pr instance) then (w, objects ++ [pr], podsToCreate)
  else if PodCount pr <=? default 0 (scheduledPods !! (PrNamespace pr +:+ "/" +:+ PrName pr)) then
    update (AddOrUpdateCondition pr BookingExpired ConditionTrue CapacityBookingConsumedReason CapacityBookingConsumedMsg (pr_Now w))
  else
    match PodsForProvisioningRequest GetPodFromTemplate SetDefaults_Pod pr with
    | Err err =>
        update (AddOrUpdateCondition pr Failed ConditionTrue FailedToBookCapacityReason ("Couldn't create pods, err: " +:+ err) (pr_Now w))
    | Ok pods => (w, objects ++ [pr], podsToCreate ++ pods)
    end.

Definition bookCapacity w (t : T) (hints : Hints) : W * T * Hints * list PR * option string :=
  match ProvisioningRequests w with
  | Err err => (w, t, hints, [], Some ("couldn't fetch ProvisioningRequests in the cluster: " +:+ err))
  | Ok provReqs =>
      match ListNodeInfos t with
      | (t, Err err) => (w, t, hints, provReqs, Some ("couldn't list nodes: " +:+ err))
      | (t, Ok nodeInfos) =>
          let scheduledPods := foldl (λ m nodeInfo, foldl count_scheduled m (pi_Pod <$> GetPods nodeInfo)) ∅ nodeInfos in
          let '(w, objects, podsToCreate) := foldl (book_step scheduledPods) (w, [], []) provReqs in
          match podsToCreate with
          | [] => (w, t, hints, objects, None)
          | _ => let '(t, hints, err) := TrySchedulePods hints t podsToCreate in (w, t, hints, objects, err)
          end
      end
  end.

(** [Process]: an error is only logged. *)
Definition provreq_Process w (t : T) (hints : Hints) (unschedulablePods : list Pod) : W * T * Hints * list PR * list Pod :=
  let '(w, t, hints, objects, _) := bookCapacity w t hints in (w, t, hints, objects, unschedulablePods).
End processor.
