(* ===== verification/ProvReqProofs.v ===== *)
(** What the processors of provisioning requests guarantee (ProvReq.v). *)
From Stdlib Require Import Ascii String.
From stdpp Require Import prelude gmap strings pretty list numbers fin_maps.
From S2P Require Import Prelude Api Drain Framework ProvReq.
Local Open Scope Z_scope.
Local Open Scope ca_scope.

Section conditions.
Context `{PA : !ProvReqApi} `{SC : !StatusConditions} {Template : Type}.
Abbreviation PR := (ProvisioningRequest Template).
Implicit Types (pr : PR) (l : list Condition) (t : string).

(** ** Conditions *)

Lemma condition_loop c l : ∀ acc found, foldl (condition_step c) (acc, found) l =
  (acc ++ ((λ c', if bool_decide (CondType c' = CondType c) then c else c') <$> l),
   found || existsb (λ c', bool_decide (CondType c' = CondType c)) l).
Proof.
  induction l as [|c' l IH]; intros acc found; simpl; [by rewrite app_nil_r, orb_false_r|].
  unfold condition_step at 2. simpl. case_bool_decide; rewrite IH, <- app_assoc; simpl; [by rewrite orb_true_r|done].
Qed.

(** The conditions after an update with a condition of a known type. *)
Definition updated l (c : Condition) : list Condition :=
  if existsb (λ c', bool_decide (CondType c' = CondType c)) l
  then (λ c', if bool_decide (CondType c' = CondType c) then c else c') <$> l else l ++ [c].

Lemma AddOrUpdate_updated pr t status reason message now : t ∈ [Provisioned; BookingExpired; Failed; Accepted] →
  StatusConditions_ (AddOrUpdateCondition pr t status reason message now) =
    updated (StatusConditions_ pr) (mkCond t status (PrGeneration pr) now reason message).
Proof.
  intros Ht. unfold AddOrUpdateCondition, updated. simpl. rewrite bool_decide_true by done. rewrite condition_loop. simpl. by destruct (existsb _ _).
Qed.

Lemma find_updated_same l c : FindStatusCondition (updated l c) (CondType c) = Some c.
Proof.
  rewrite find_condition. unfold updated. induction l as [|c' l IH]; simpl; [by rewrite decide_True|].
  destruct (decide (CondType c' = CondType c)) as [Hc|Hc].
  - rewrite bool_decide_true by done. simpl. rewrite ?bool_decide_true by done. by rewrite decide_True.
  - rewrite bool_decide_false by done. simpl. destruct (existsb _ l); simpl.
    + rewrite ?bool_decide_false by done. rewrite decide_False by done. destruct (list_find _ _) as [[i x]|] eqn:Hl; [|done].
      simpl in *. by simplify_eq.
    + rewrite decide_False by done. destruct (list_find _ _) as [[i x]|] eqn:Hl; [|done]. simpl in *. by simplify_eq.
Qed.

Lemma find_updated_other l c t : t ≠ CondType c → FindStatusCondition (updated l c) t = FindStatusCondition l t.
Proof.
  intros Ht. rewrite !find_condition. unfold updated.
  assert (∀ f : Condition → Condition, (∀ c', f c' = c' ∨ (f c' = c ∧ CondType c' = CondType c)) →
    snd <$> list_find (λ c, CondType c = t) (f <$> l) = snd <$> list_find (λ c, CondType c = t) l) as Hf.
  { intros f Hf. induction l as [|c' l IH]; [done|]. csimpl.
    assert (CondType (f c') = t ↔ CondType c' = t) as Hiff by (destruct (Hf c') as [->|[-> ->]]; split; congruence).
    destruct (decide (CondType c' = t)) as [H|H].
    - rewrite decide_True by (by apply Hiff). simpl. destruct (Hf c') as [->|[_ H']]; [done|congruence].
    - rewrite decide_False by (by rewrite Hiff). destruct (list_find _ (f <$> l)) as [[i x]|], (list_find _ l) as [[j y]|]; simpl in *; try done; by simplify_eq. }
  destruct (existsb _ l); [apply Hf; intros c'; case_bool_decide; [by right|by left]|].
  clear Hf. induction l as [|c' l IH]; simpl; [by rewrite decide_False|]. destruct (decide _); [done|].
  destruct (list_find _ (l ++ [c])) as [[i x]|], (list_find _ l) as [[j y]|]; simpl in *; try done; by simplify_eq.
Qed.

Lemma types_updated l c : NoDup (CondType <$> l) → NoDup (CondType <$> updated l c).
Proof.
  intros Hnd. unfold updated. destruct (existsb _ l) eqn:He.
  - rewrite <- list_fmap_compose. erewrite list_fmap_ext; [exact Hnd|]. intros i c' _. simpl. by case_bool_decide.
  - rewrite fmap_app. apply NoDup_app. split; [done|]. split; [|apply NoDup_singleton].
    intros t Ht ->%list_elem_of_singleton. apply list_elem_of_fmap in Ht as (c' & Hc' & Hin). apply not_true_iff_false in He.
    apply He, existsb_exists. exists c'. split; [by apply list_elem_of_In|]. by rewrite bool_decide_true.
Qed.

(** C37. Setting a condition of one of the four types makes it the condition of
    its type, with the generation, the time and the texts given; the conditions
    of the other types, their order and every other field stay, and a list with
    one condition for each type keeps being one. A condition of another type
    changes nothing. *)
Theorem condition_update_exact pr t status reason message now :
  let pr' := AddOrUpdateCondition pr t status reason message now in
  SetConditions pr' (StatusConditions_ pr) = pr ∧
  (NoDup (CondType <$> StatusConditions_ pr) → NoDup (CondType <$> StatusConditions_ pr')) ∧
  (∀ t', t' ≠ t → FindStatusCondition (StatusConditions_ pr') t' = FindStatusCondition (StatusConditions_ pr) t') ∧
  (t ∈ [Provisioned; BookingExpired; Failed; Accepted] →
     FindStatusCondition (StatusConditions_ pr') t = Some (mkCond t status (PrGeneration pr) now reason message)) ∧
  (t ∉ [Provisioned; BookingExpired; Failed; Accepted] → pr' = pr).
Proof.
  cbv zeta. destruct (decide (t ∈ [Provisioned; BookingExpired; Failed; Accepted])) as [Ht|Ht].
  - rewrite !AddOrUpdate_updated by done. split; [by destruct pr|]. split; [apply types_updated|].
    split; [intros t' Hne; by apply find_updated_other|]. split; [|done].
    intros _. apply (find_updated_same _ (mkCond t status (PrGeneration pr) now reason message)).
  - assert (AddOrUpdateCondition pr t status reason message now = pr) as ->.
    { unfold AddOrUpdateCondition. rewrite bool_decide_false by done. by destruct pr. }
    split; [by destruct pr|]. split; [done|]. split; [done|]. by split.
Qed.
End conditions.

(** ** Expiring requests *)

Section refresh.
Context `{PA : !ProvReqApi} `{SC : !StatusConditions} {Template W : Type} `{PC : !ProvReqClient Template W}.
Abbreviation PR := (ProvisioningRequest Template).
Context (maxUpdated : Z) (instance : string).
Implicit Types (pr : PR) (prs : list PR) (w : W).

(** A supported request that is neither expired nor failed. *)
Definition live pr : bool :=
  SupportedProvisioningClass pr instance &&
  negb (IsStatusConditionTrue (StatusConditions_ pr) BookingExpired || IsStatusConditionTrue (StatusConditions_ pr) Failed).

(** The reservation of a provisioned request ran out, or the request is too old. *)
Definition booking_over now pr : bool :=
  live pr && match FindStatusCondition (StatusConditions_ pr) Provisioned with
             | Some c => bool_decide (CondStatus c = ConditionTrue) && (LastTransitionTime c + defaultReservationTime <? now)
             | None => false
             end.
Definition too_old now pr : bool :=
  live pr && negb (IsStatusConditionTrue (StatusConditions_ pr) Provisioned) && (PrCreationTimestamp pr + defaultExpirationTime <? now).

Lemma refresh_step_spec w (expired failed : list nat) i pr : refresh_step maxUpdated instance w (expired, failed) (i, pr) =
  if maxUpdated <=? ⟪ expired ⟫ then None
  else if booking_over (pr_Now w) pr then Some (expired ++ [i], failed)
  else if too_old (pr_Now w) pr && (⟪ failed ⟫ <? maxUpdated - ⟪ expired ⟫) then Some (expired, failed ++ [i])
  else Some (expired, failed).
Proof.
  unfold refresh_step, booking_over, too_old, live. destruct (_ <=? _); [done|].
  destruct (SupportedProvisioningClass pr instance); [|done]. simpl.
  destruct (IsStatusConditionTrue _ BookingExpired || _); [done|]. simpl. unfold IsStatusConditionTrue.
  destruct (FindStatusCondition _ Provisioned) as [c|]; simpl.
  - case_bool_decide; simpl; [by destruct (_ <? _)|]. rewrite andb_comm. by destruct (_ <? _), (_ <? _).
  - rewrite andb_comm. by destruct (_ <? _), (_ <? _).
Qed.

(** What the choosing loop answers: the requests whose booking is over, in order,
    up to the limit, and some of those that are too old. *)
Lemma choose_spec w (l : list (nat * PR)) : ∀ expired failed, ⟪ expired ⟫ <= 0 `max` maxUpdated → ⟪ failed ⟫ <= 0 `max` maxUpdated →
  ∃ l1 l2 failed', l = l1 ++ l2 ∧
    loop_break (refresh_step maxUpdated instance w) l (expired, failed) =
      (expired ++ (filter (λ ipr, booking_over (pr_Now w) ipr.2 = true) l1).*1, failed ++ failed') ∧
    failed' `sublist_of` (filter (λ ipr, too_old (pr_Now w) ipr.2 = true) l1).*1 ∧
    ⟪ expired ++ (filter (λ ipr, booking_over (pr_Now w) ipr.2 = true) l1).*1 ⟫ <= 0 `max` maxUpdated ∧
    ⟪ failed ++ failed' ⟫ <= 0 `max` maxUpdated ∧
    (l2 = [] ∨ maxUpdated <= ⟪ expired ++ (filter (λ ipr, booking_over (pr_Now w) ipr.2 = true) l1).*1 ⟫).
Proof.
  assert (∀ pr, booking_over (pr_Now w) pr = true → too_old (pr_Now w) pr = false) as Hexcl.
  { intros pr. unfold booking_over, too_old, IsStatusConditionTrue. destruct (live pr); [|done]. simpl.
    destruct (FindStatusCondition _ _); [|done]. by case_bool_decide. }
  induction l as [|[i pr] l IH]; intros expired failed He Hf.
  { exists [], [], []. simpl. rewrite !app_nil_r. split_and!; try done. by left. }
  cbn [loop_break]. rewrite refresh_step_spec. destruct (Z.leb_spec maxUpdated ⟪ expired ⟫) as [Hm|Hm].
  { exists [], ((i, pr) :: l), []. simpl. rewrite !app_nil_r. split_and!; try done. by right. }
  destruct (booking_over (pr_Now w) pr) eqn:Hb.
  - destruct (IH (expired ++ [i]) failed) as (l1 & l2 & f' & -> & -> & Hsub & H1 & H2 & H3); [rewrite length_app; simpl; lia|done|].
    exists ((i, pr) :: l1), l2, f'. rewrite (filter_cons_True _ (i, pr)), (filter_cons_False (λ ipr, too_old _ ipr.2 = true) (i, pr));
      [|simpl; by rewrite Hexcl|done].
    rewrite fmap_cons, <- app_assoc in *. by split_and!.
  - assert (∀ l1 : list (nat * PR), filter (λ ipr, booking_over (pr_Now w) ipr.2 = true) ((i, pr) :: l1) =
      filter (λ ipr, booking_over (pr_Now w) ipr.2 = true) l1) as Hfe by (intros; apply filter_cons_False; simpl; by rewrite Hb).
    destruct (too_old (pr_Now w) pr && _) eqn:Ho.
    + apply andb_true_iff in Ho as [Ho Hlt%Z.ltb_lt].
      destruct (IH expired (failed ++ [i])) as (l1 & l2 & f' & -> & -> & Hsub & H1 & H2 & H3); [done|rewrite length_app; simpl; lia|].
      exists ((i, pr) :: l1), l2, (i :: f'). rewrite Hfe, (filter_cons_True _ (i, pr)) by done.
      rewrite <- app_assoc in *. split_and!; try done. by constructor.
    + destruct (IH expired failed) as (l1 & l2 & f' & -> & -> & Hsub & H1 & H2 & H3); [done|done|].
      exists ((i, pr) :: l1), l2, f'. rewrite Hfe. split_and!; try done.
      rewrite filter_cons. case_decide; [by constructor|done].
Qed.

(** Marking changes the chosen requests, each once. *)
Lemma mark_loop t reason message (ids : list nat) : ∀ w prs, NoDup ids → ∃ w' prs',
  foldl (mark_step t reason message) (w, prs) ids = (w', prs') ∧ pr_Now w <= pr_Now w' ∧ length prs' = length prs ∧
  (∀ i, i ∉ ids → prs' !! i = prs !! i) ∧
  (∀ i pr, i ∈ ids → prs !! i = Some pr → ∃ now, pr_Now w <= now ∧
     prs' !! i = Some (AddOrUpdateCondition pr t ConditionTrue reason message now)).
Proof.
  induction ids as [|i ids IH]; intros w prs Hnd; simpl.
  { exists w, prs. split_and!; try done. intros i pr Hi. by apply not_elem_of_nil in Hi. }
  apply NoDup_cons in Hnd as [Hi Hnd]. destruct (prs !! i) as [pr|] eqn:Hpr.
  - pose proof (pr_update_time w (AddOrUpdateCondition pr t ConditionTrue reason message (pr_Now w))) as Ht.
    destruct (IH (pr_UpdateStatus w (AddOrUpdateCondition pr t ConditionTrue reason message (pr_Now w))).1
      (<[i := AddOrUpdateCondition pr t ConditionTrue reason message (pr_Now w)]> prs) Hnd) as (w' & prs' & -> & Hw & Hlen & Hout & Hin).
    exists w', prs'. rewrite length_insert in Hlen. split; [done|]. split; [lia|]. split; [done|]. split.
    + intros j [Hj1 Hj2]%not_elem_of_cons. rewrite Hout by done. by rewrite list_lookup_insert_ne by done.
    + intros j pr' [->|Hj]%elem_of_cons Hpr'.
      * exists (pr_Now w). split; [lia|]. rewrite Hout by done. simplify_eq. apply list_lookup_insert_eq. by apply lookup_lt_Some in Hpr.
      * destruct (Hin j pr' Hj) as (now & Hnow & H); [by rewrite list_lookup_insert_ne by (intros ->; done)|].
        exists now. split; [lia|done].
  - destruct (IH w prs Hnd) as (w' & prs' & -> & Hw & Hlen & Hout & Hin). exists w', prs'. do 3 (split; [done|]). split.
    + intros j [_ Hj]%not_elem_of_cons. by apply Hout.
    + intros j pr' [->|Hj]%elem_of_cons Hpr'; [congruence|by apply Hin].
Qed.

Lemma purge_loop prs : ∀ w deleted, ∃ w' more, foldl delete_old_step (w, deleted) prs = (w', deleted ++ more) ∧ pr_Now w <= pr_Now w' ∧
  ∀ k, k ∈ more → ∃ pr now, pr ∈ prs ∧ k = (PrNamespace pr, PrName pr) ∧ now <= pr_Now w' ∧
    older_than defaultTerminalProvReqTTL now (FindStatusCondition (StatusConditions_ pr) Provisioned) ||
    older_than defaultTerminalProvReqTTL now (FindStatusCondition (StatusConditions_ pr) Failed).
Proof.
  induction prs as [|pr prs IH]; intros w deleted; simpl.
  { exists w, []. rewrite app_nil_r. split; [done|]. split; [lia|]. intros k Hk. by apply not_elem_of_nil in Hk. }
  destruct (older_than _ _ _ || _) eqn:Ho.
  - pose proof (pr_delete_time w (PrNamespace pr) (PrName pr)) as Ht.
    destruct (IH (pr_Delete w (PrNamespace pr) (PrName pr)).1 (deleted ++ [(PrNamespace pr, PrName pr)])) as (w' & more & -> & Hw & Hm).
    exists w', ((PrNamespace pr, PrName pr) :: more). rewrite <- app_assoc. split; [done|]. split; [lia|].
    intros k [->|Hk]%elem_of_cons.
    + exists pr, (pr_Now w). split; [by left|]. split; [done|]. split; [lia|by rewrite Ho].
    + destruct (Hm k Hk) as (pr' & now & Hin & H). exists pr', now. split; [by right|done].
  - destruct (IH w deleted) as (w' & more & -> & Hw & Hm). exists w', more. split; [done|]. split; [done|].
    intros k Hk. destruct (Hm k Hk) as (pr' & now & Hin & H). exists pr', now. split; [by right|done].
Qed.

Lemma elem_of_imap_pair {A} (l : list A) i x : (i, x) ∈ imap pair l ↔ l !! i = Some x.
Proof.
  rewrite list_elem_of_lookup. setoid_rewrite list_lookup_imap. split.
  - intros (j & Hj). destruct (l !! j) eqn:Hl; simpl in Hj; [|done]. by simplify_eq.
  - intros H. exists i. by rewrite H.
Qed.

Lemma fst_imap_pair {A} (l : list A) : (imap pair l).*1 = seq 0 (length l).
Proof.
  apply list_eq. intros i. rewrite list_lookup_fmap, list_lookup_imap.
  destruct (l !! i) as [x|] eqn:Hl; simpl.
  - apply lookup_lt_Some in Hl. by rewrite lookup_seq_lt.
  - apply lookup_ge_None in Hl. by rewrite lookup_seq_ge.
Qed.

(** One refresh marks as expired the bookings that are over, as far as the
    limit goes, and as failed only requests that are too old and not
    provisioned, within the limit too; a live request whose booking is over is
    left alone only when the limit of expired requests is reached, and no other
    request is touched. Only requests are deleted that have a condition
    Provisioned or Failed which is older than a week. *)
Theorem refresh_exact w prs :
  let '(w', prs', deleted) := refresh maxUpdated instance w prs in
  length prs' = length prs ∧
  ∃ expired failed : list nat, ⟪ expired ⟫ <= 0 `max` maxUpdated ∧ ⟪ failed ⟫ <= 0 `max` maxUpdated ∧
    (∀ i pr, prs !! i = Some pr →
       (i ∈ expired ∧ booking_over (pr_Now w) pr = true ∧ ∃ now, pr_Now w <= now ∧ prs' !! i =
          Some (AddOrUpdateCondition pr BookingExpired ConditionTrue CapacityReservationTimeExpiredReason CapacityReservationTimeExpiredMsg now)) ∨
       (i ∈ failed ∧ too_old (pr_Now w) pr = true ∧ ∃ now, pr_Now w <= now ∧ prs' !! i =
          Some (AddOrUpdateCondition pr Failed ConditionTrue ExpiredReason ExpiredMsg now)) ∨
       ((i ∉ expired) ∧ (i ∉ failed) ∧ prs' !! i = Some pr ∧ (booking_over (pr_Now w) pr = true → (maxUpdated <= ⟪ expired ⟫)))) ∧
    (∀ k, k ∈ deleted → ∃ pr now, pr ∈ prs' ∧ k = (PrNamespace pr, PrName pr) ∧ now <= pr_Now w' ∧
       older_than defaultTerminalProvReqTTL now (FindStatusCondition (StatusConditions_ pr) Provisioned) ||
       older_than defaultTerminalProvReqTTL now (FindStatusCondition (StatusConditions_ pr) Failed)).
Proof.
  unfold refresh, DeleteOldProvReqs.
  destruct (choose_spec w (imap pair prs) [] []) as (l1 & l2 & failed & Hl & -> & Hsub & He & Hf & Hmax); [simpl; lia..|].
  simpl in *. set (expired := (filter (λ ipr, booking_over (pr_Now w) ipr.2 = true) l1).*1) in *.
  assert (NoDup l1.*1) as Hnd.
  { assert (NoDup (l1.*1 ++ l2.*1)) as Hall by (rewrite <- fmap_app, <- Hl, fst_imap_pair; apply NoDup_seq). by apply NoDup_app in Hall as [Hall _]. }
  assert (∀ i pr, prs !! i = Some pr → i ∈ l1.*1 → (i, pr) ∈ l1) as Hl1.
  { intros i pr Hi (ipr & -> & Hin)%list_elem_of_fmap. destruct ipr as [j pr']. simpl in *.
    assert ((j, pr') ∈ imap pair prs) as Hj by (rewrite Hl; apply elem_of_app; by left).
    apply elem_of_imap_pair in Hj. by simplify_eq. }
  assert (∀ i pr, prs !! i = Some pr → i ∈ expired ↔ (i, pr) ∈ l1 ∧ booking_over (pr_Now w) pr = true) as Hexp.
  { intros i pr Hi. unfold expired. rewrite list_elem_of_fmap. split.
    - intros ([j pr'] & -> & [Hb Hin]%list_elem_of_filter). simpl in *.
      assert ((j, pr) ∈ l1) as Hin' by (apply Hl1; [done|]; by apply (list_elem_of_fmap_2 fst) in Hin).
      split; [done|]. assert (∀ x, (j, x) ∈ l1 → prs !! j = Some x) as Hx.
      { intros x H. apply elem_of_imap_pair. rewrite Hl. apply elem_of_app. by left. }
      pose proof (Hx _ Hin). by simplify_eq.
    - intros [Hin Hb]. exists (i, pr). split; [done|]. by apply list_elem_of_filter. }
  assert (∀ i pr, prs !! i = Some pr → i ∈ failed → too_old (pr_Now w) pr = true) as Hfail.
  { intros i pr Hi Hin. eapply elem_of_sublist in Hin; [|exact Hsub]. apply list_elem_of_fmap in Hin as ([j pr'] & -> & [Ho Hin]%list_elem_of_filter).
    simpl in *. assert (prs !! j = Some pr') as Hj by (apply elem_of_imap_pair; rewrite Hl; apply elem_of_app; by left). by simplify_eq. }
  assert (NoDup expired) as Hnde by (eapply sublist_NoDup; [exact Hnd|]; apply fmap_sublist, sublist_filter).
  assert (NoDup failed) as Hndf.
  { eapply sublist_NoDup; [|exact Hsub]. eapply sublist_NoDup; [exact Hnd|]. apply fmap_sublist, sublist_filter. }
  assert (∀ i pr, prs !! i = Some pr → booking_over (pr_Now w) pr = true → too_old (pr_Now w) pr = true → False) as Hexcl.
  { intros i pr _. unfold booking_over, too_old, IsStatusConditionTrue. destruct (live pr); [|done]. simpl.
    destruct (FindStatusCondition _ _); [|done]. by case_bool_decide. }
  destruct (mark_loop BookingExpired CapacityReservationTimeExpiredReason CapacityReservationTimeExpiredMsg expired w prs Hnde)
    as (w1 & prs1 & -> & Hw1 & Hlen1 & Hout1 & Hin1).
  destruct (mark_loop Failed ExpiredReason ExpiredMsg failed w1 prs1 Hndf) as (w2 & prs2 & -> & Hw2 & Hlen2 & Hout2 & Hin2).
  destruct (purge_loop prs2 w2 []) as (w3 & deleted & -> & Hw3 & Hdel). simpl.
  split; [congruence|]. exists expired, failed. do 2 (split; [done|]). split; [|exact Hdel].
  intros i pr Hi. destruct (decide (i ∈ expired)) as [Hie|Hie].
  - left. split; [done|]. pose proof (proj1 (Hexp i pr Hi) Hie) as [_ Hb]. split; [done|].
    assert (i ∉ failed) as Hif by (intros H; exact (Hexcl i pr Hi Hb (Hfail i pr Hi H))).
    destruct (Hin1 i pr Hie Hi) as (now & Hnow & H). exists now. split; [done|]. by rewrite Hout2.
  - destruct (decide (i ∈ failed)) as [Hif|Hif].
    + right; left. split; [done|]. split; [by eapply Hfail|]. rewrite <- Hout1 in Hi by done.
      destruct (Hin2 i pr Hif Hi) as (now & Hnow & H). exists now. split; [lia|done].
    + right; right. split; [done|]. split; [done|]. split; [by rewrite Hout2, Hout1|]. intros Hb.
      destruct Hmax as [->|Hm]; [|done]. exfalso. apply Hie, (Hexp i pr Hi). split; [|done].
      rewrite app_nil_r in Hl. rewrite <- Hl. by apply elem_of_imap_pair.
Qed.
End refresh.

(** ** Making pods *)

Section pods.
Context `{PA : !ProvReqApi} {Template : Type}.
Abbreviation PR := (ProvisioningRequest Template).
Context (GetPodFromTemplate : Template → PR → OwnerReference → result string (string * Pod)) (SetDefaults_Pod : Pod → Pod).
Implicit Types (pr : PR).

(** Kubernetes derives the prefix of generated names from the parent object, and
    defaulting a pod leaves its names and annotations alone. *)
Definition prefix_of_parent : Prop := ∀ pr t1 t2 o1 o2 g1 g2 p1 p2,
  GetPodFromTemplate t1 pr o1 = Ok (g1, p1) → GetPodFromTemplate t2 pr o2 = Ok (g2, p2) → g1 = g2.
Definition defaults_keep_identity : Prop := ∀ pod, PodName (SetDefaults_Pod pod) = PodName pod ∧ PodUID (SetDefaults_Pod pod) = PodUID pod ∧
  PodNamespace (SetDefaults_Pod pod) = PodNamespace pod ∧ PodAnnotations (SetDefaults_Pod pod) = PodAnnotations pod.

(** *** Two numbers with a dash between them *)

Definition digit (c : Ascii.ascii) : Prop := ∃ x, (x < 10)%N ∧ c = pretty_N_char x.

Lemma digit_not_dash c : digit c → c ≠ "-"%char.
Proof.
  intros (x & Hx & ->). assert (x = 0 ∨ x = 1 ∨ x = 2 ∨ x = 3 ∨ x = 4 ∨ x = 5 ∨ x = 6 ∨ x = 7 ∨ x = 8 ∨ x = 9)%N as Hc by lia.
  by repeat (destruct Hc as [->|Hc]; [done|]); subst.
Qed.

Lemma pretty_N_go_digits (x : N) : ∀ s, Forall digit (String.list_ascii_of_string s) →
  Forall digit (String.list_ascii_of_string (pretty_N_go x s)).
Proof.
  induction x as [x IH] using (well_founded_induction N.lt_wf_0). intros s Hs.
  destruct (decide (x = 0)%N) as [->|Hx]; [by rewrite pretty_N_go_0|].
  rewrite pretty_N_go_step by lia. apply IH; [apply N.div_lt; lia|]. simpl. constructor; [|done].
  exists (x `mod` 10)%N. split; [apply N.mod_lt; lia|done].
Qed.

Lemma pretty_nat_digits (n : nat) : Forall digit (String.list_ascii_of_string (pretty n)).
Proof.
  unfold pretty, pretty_nat, pretty, pretty_N. case_decide.
  - constructor; [|constructor]. by exists 0%N.
  - apply pretty_N_go_digits. constructor.
Qed.

Lemma dash_splits (l1 l2 m1 m2 : list Ascii.ascii) : Forall digit l1 → Forall digit l2 →
  l1 ++ "-"%char :: m1 = l2 ++ "-"%char :: m2 → l1 = l2 ∧ m1 = m2.
Proof.
  intros H1. revert l2. induction H1 as [|c l1 Hc H1 IH]; intros l2 H2 He.
  - destruct H2 as [|c l2 Hc H2]; simpl in He; [by simplify_eq|]. simplify_eq. by apply digit_not_dash in Hc.
  - destruct H2 as [|c' l2 Hc' H2]; simpl in He; simplify_eq; [by apply digit_not_dash in Hc|].
    by destruct (IH l2 H2) as [-> ->].
Qed.

Lemma ascii_app (s1 s2 : string) :
  String.list_ascii_of_string (s1 +:+ s2) = String.list_ascii_of_string s1 ++ String.list_ascii_of_string s2.
Proof. induction s1 as [|c s1 IH]; [done|]. simpl. by f_equal. Qed.

Lemma ascii_inj (s1 s2 : string) : String.list_ascii_of_string s1 = String.list_ascii_of_string s2 → s1 = s2.
Proof. intros H. by rewrite <- (String.string_of_list_ascii_of_string s1), H, String.string_of_list_ascii_of_string. Qed.

Definition numbered (g : string) (ij : nat * nat) : string := g +:+ pretty ij.1 +:+ "-" +:+ pretty ij.2.

Lemma numbered_inj g ij ij' : numbered g ij = numbered g ij' → ij = ij'.
Proof.
  unfold numbered. intros H%(f_equal String.list_ascii_of_string). rewrite !ascii_app in H. apply app_inv_head in H.
  destruct (dash_splits _ _ _ _ (pretty_nat_digits _) (pretty_nat_digits _) H) as [H1%ascii_inj H2%ascii_inj].
  destruct ij as [i j], ij' as [i' j']. simpl in *. by rewrite (inj pretty _ _ H1), (inj pretty _ _ H2).
Qed.

(** *** The pods of a request *)

(** A loop that appends and does not fail appends for every element. *)
Lemma fold_err_appends {A B E} (f : list B → A → list B * option E) (R : A → list B → Prop) (l : list A) :
  (∀ acc x acc', f acc x = (acc', None) → ∃ new, acc' = acc ++ new ∧ R x new) →
  ∀ acc acc', fold_err f l acc = (acc', None) → ∃ news, Forall2 R l news ∧ acc' = acc ++ concat news.
Proof.
  intros Hf. induction l as [|x l IH]; intros acc acc' H; simpl in H.
  { simplify_eq. exists []. split; [constructor|by rewrite app_nil_r]. }
  destruct (f acc x) as [acc1 [e|]] eqn:Hx; [done|]. destruct (Hf _ _ _ Hx) as (new & -> & HR).
  destruct (IH _ _ H) as (news & HF & ->). exists (new :: news). split; [by constructor|]. simpl. by rewrite app_assoc.
Qed.

(** The pod with the numbers [i] and [j] of a request. *)
Definition made pr (ij : nat * nat) (pod : Pod) : Prop := ∃ t o g p,
  GetPodFromTemplate t pr o = Ok (g, p) ∧ pod = SetDefaults_Pod (populatePodFields pr g p ij.1 ij.2).

Definition numbers (l : list (nat * (Z * Template))) : list (nat * nat) :=
  concat ((λ ip, pair ip.1 <$> seq 0 (Z.to_nat ip.2.1)) <$> l).

Lemma Forall2_concat {A B} (P : A → B → Prop) ls ks : Forall2 (Forall2 P) ls ks → Forall2 P (concat ls) (concat ks).
Proof. induction 1; simpl; [constructor|by apply Forall2_app]. Qed.

Lemma pods_made pr pods : PodsForProvisioningRequest GetPodFromTemplate SetDefaults_Pod pr = Ok pods → ∃ podSets,
  PodSets pr = Ok podSets ∧ Forall2 (made pr) (numbers (imap pair podSets)) pods.
Proof.
  unfold PodsForProvisioningRequest. destruct (PodSets pr) as [podSets|e]; [|done].
  destruct (fold_err _ _ _) as [pods' [e|]] eqn:Hf; [done|]. intros [= ->]. exists podSets. split; [done|].
  apply (fold_err_appends _ (λ ip new, Forall2 (made pr) (pair ip.1 <$> seq 0 (Z.to_nat ip.2.1)) new)) in Hf as (news & HF & ->).
  - unfold numbers. simpl. apply Forall2_concat. by apply Forall2_fmap_l.
  - intros acc [i ps] acc' Hs. unfold pods_of_set in Hs. simpl in *.
    apply (fold_err_appends _ (λ j new, ∃ pod, new = [pod] ∧ made pr (i, j) pod)) in Hs as (news & HF & ->).
    + exists (concat news). split; [done|]. clear - HF. apply Forall2_fmap_l.
      induction HF as [|j new l news (pod & -> & Hp) HF IH]; simpl; [constructor|by constructor].
    + clear. intros acc j acc'. unfold pod_of_set. destruct (GetPodFromTemplate _ _ _) as [[g p]|e] eqn:Hg; [|done].
      intros [= <-]. eexists. split; [done|]. eexists. split; [done|]. by exists ps.2, (ownerReference pr), g, p.
Qed.

Lemma NoDup_numbers (l : list (nat * (Z * Template))) : NoDup l.*1 → NoDup (numbers l).
Proof.
  unfold numbers. induction l as [|[i ps] l IH]; simpl; intros Hnd; [constructor|]. apply NoDup_cons in Hnd as [Hi Hnd].
  apply NoDup_app. split; [apply NoDup_fmap_2; [intros ? ? H; by simplify_eq|apply NoDup_seq]|]. split; [|by apply IH].
  intros ij (j & -> & _)%list_elem_of_fmap Hin. apply Hi. apply list_elem_of_In, in_concat in Hin as (x & Hx & Hin).
  apply list_elem_of_In, list_elem_of_fmap in Hx as ([i' ps'] & -> & Hx). apply list_elem_of_In, list_elem_of_fmap in Hin as (j' & Hj & _).
  simplify_eq. apply list_elem_of_fmap. by exists (i', ps').
Qed.

Lemma made_fields pr ij pod : defaults_keep_identity → made pr ij pod →
  PodNamespace pod = PrNamespace pr ∧ provisioningRequestName pod = Some (PrName pr) ∧
  ∃ g, PodName pod = numbered g ij ∧ PodUID pod = PrNamespace pr +:+ "/" +:+ numbered g ij ∧
    ∃ t o p, GetPodFromTemplate t pr o = Ok (g, p).
Proof.
  intros Hd (t & o & g & p & Hg & ->). destruct (Hd (populatePodFields pr g p ij.1 ij.2)) as (H1 & H2 & H3 & H4).
  split; [by rewrite H3|]. split.
  - unfold provisioningRequestName. rewrite H4. simpl. rewrite lookup_insert_ne by (apply not_eq_sym, annotation_keys_distinct).
    by rewrite lookup_insert_eq.
  - exists g. rewrite H1, H2. split; [done|]. split; [done|]. by exists t, o, p.
Qed.

(** The pods made for a request are told apart by their names and by their
    UIDs, belong to its namespace and consume it, and there are as many as its
    pod sets count. *)
Theorem pods_of_request_distinct pr pods : prefix_of_parent → defaults_keep_identity → Forall (λ podSet, 0 <= podSet.1) (SpecPodSets pr) →
  PodsForProvisioningRequest GetPodFromTemplate SetDefaults_Pod pr = Ok pods →
  NoDup (PodName <$> pods) ∧ NoDup (PodUID <$> pods) ∧ ⟪ pods ⟫ = PodCount pr ∧
  Forall (λ pod, PodNamespace pod = PrNamespace pr ∧ provisioningRequestName pod = Some (PrName pr)) pods.
Proof.
  intros Hg Hd Hpos (podSets & Hps & HF)%pods_made.
  assert (∃ g, Forall2 (λ ij pod, PodName pod = numbered g ij ∧ PodUID pod = PrNamespace pr +:+ "/" +:+ numbered g ij)
    (numbers (imap pair podSets)) pods) as (g & Hnames).
  { destruct HF as [|ij pod nums pods Hm HF]; [exists ""; constructor|].
    destruct (made_fields _ _ _ Hd Hm) as (_ & _ & g & H1 & H2 & t & o & p & Ht). exists g. constructor; [done|].
    eapply Forall2_impl; [exact HF|]. intros ij' pod' Hm'. destruct (made_fields _ _ _ Hd Hm') as (_ & _ & g' & H1' & H2' & t' & o' & p' & Ht').
    by rewrite (Hg _ _ _ _ _ _ _ _ _ Ht Ht'). }
  assert (NoDup (numbers (imap pair podSets))) as Hnd by (apply NoDup_numbers; rewrite fst_imap_pair; apply NoDup_seq).
  split; [|split; [|split]].
  - assert (PodName <$> pods = numbered g <$> numbers (imap pair podSets)) as ->.
    { clear - Hnames. induction Hnames as [|ij pod l k [H _] _ IH]; [done|]. csimpl. by rewrite H, IH. }
    apply NoDup_fmap_2; [|done]. intros x y. apply numbered_inj.
  - assert (PodUID <$> pods = (λ ij, PrNamespace pr +:+ "/" +:+ numbered g ij) <$> numbers (imap pair podSets)) as ->.
    { clear - Hnames. induction Hnames as [|ij pod l k [_ H] _ IH]; [done|]. csimpl. by rewrite H, IH. }
    apply NoDup_fmap_2; [|done]. intros x y H%(f_equal list_ascii_of_string). rewrite !ascii_app in H. apply app_inv_head in H.
    simpl in H. injection H as H. apply ascii_inj in H. by apply numbered_inj in H.
  - rewrite <- (Forall2_length _ _ _ HF). unfold PodSets in Hps. case_bool_decide as Hlen; [|done]. injection Hps as <-. unfold PodCount.
    assert (∀ (l : list (Z * string)) (ts : list Template) n, length l = length ts → Forall (λ ps, 0 <= ps.1) l →
      ⟪ numbers (imap (λ i, pair (n + i)%nat) (zip l.*1 ts)) ⟫ = foldr (λ ps m, ps.1 + m) 0 l) as Hn.
    { clear. induction l as [|ps l IH]; intros [|t ts] n Hl Hp; try done. apply Forall_cons in Hp as [Hp Hps]. csimpl.
      unfold numbers in *. csimpl. rewrite length_app, length_fmap, length_seq.
      specialize (IH ts (Datatypes.S n) ltac:(simpl in Hl; lia) Hps). rewrite <- IH.
      assert (imap ((λ i, pair (n + i)%nat) ∘ Datatypes.S) (zip l.*1 ts) = imap (λ i, pair (Datatypes.S n + i)%nat) (zip l.*1 ts)) as ->.
      { apply imap_ext. intros j x _. simpl. f_equal. lia. }
      lia. }
    assert (∀ (l : list (Z * string)) n, foldl (λ count podSet, count + podSet.1) n l = n + foldr (λ ps m, ps.1 + m) 0 l) as Hfold.
    { clear. induction l as [|ps l IH]; intros n; simpl; [lia|]. rewrite IH. lia. }
    rewrite Hfold. rewrite <- (Hn (SpecPodSets pr) (PodTemplates pr).*2 0%nat) by (rewrite ?length_fmap; done). done.
  - clear - HF Hd. induction HF as [|ij pod l k Hm HF IH]; constructor; [|done].
    destruct (made_fields _ _ _ Hd Hm) as (H1 & H2 & _). by split.
Qed.
End pods.

(** ** Injecting requests *)

Section injector.
Context `{PA : !ProvReqApi} `{SC : !StatusConditions} {Template W C : Type} `{PC : !ProvReqClient Template W} `{LC : !LruCache C}.
Abbreviation PR := (ProvisioningRequest Template).
Context (GetPodFromTemplate : Template → PR → OwnerReference → result string (string * Pod)) (SetDefaults_Pod : Pod → Pod).
Abbreviation Injector := (ProvisioningRequestPodsInjector C).
Implicit Types (pr : PR) (prs : list PR) (w : W) (p : Injector) (now : Z).

Definition retry_of p pr : Z := default (initialRetryTime p) (lru_content (backoffDuration p) !! PrUID pr).

(** A request that may be worked on: not failed, not provisioned, and if it was
    found not to fit, its retry time has passed. *)
Definition available p pr now : Prop :=
  IsStatusConditionTrue (StatusConditions_ pr) Failed = false ∧
  match FindStatusCondition (StatusConditions_ pr) Provisioned with
  | None => True
  | Some c => CondStatus c = ConditionFalse ∧ LastTransitionTime c + retry_of p pr < now
  end.

(** The retry times in the cache. *)
Record durations_ok p : Prop := {
  initial_pos : 0 < initialRetryTime p <= maxBackoffTime p;
  max_small : 2 * maxBackoffTime p <= int64_max;
  cached : map_Forall (λ _ v, initialRetryTime p <= v <= maxBackoffTime p) (lru_content (backoffDuration p))
}.

Lemma retry_bounds p pr : durations_ok p → initialRetryTime p <= retry_of p pr <= maxBackoffTime p.
Proof.
  intros [Hi Hm Hc]. unfold retry_of. destruct (_ !! _) as [v|] eqn:Hv; simpl; [by apply (Hc _ _ Hv)|lia].
Qed.

(** A request is available exactly when it has neither failed nor been
    provisioned and, if it has been found not to fit, its retry time has passed
    since. Then the next retry time is twice as long, at most the maximum; the
    retry time of a request that failed or was provisioned is forgotten; and
    retry times always lie between the initial and the maximal one. *)
Theorem retry_backoff_exact p pr now : durations_ok p →
  let '(p', b) := IsAvailableForProvisioning p pr now in
  (b = true ↔ available p pr now) ∧ durations_ok p' ∧ initialRetryTime p' = initialRetryTime p ∧ maxBackoffTime p' = maxBackoffTime p ∧
  initialRetryTime p <= retry_of p pr <= maxBackoffTime p ∧
  (b = true → is_Some (FindStatusCondition (StatusConditions_ pr) Provisioned) →
     retry_of p' pr = Z.min (2 * retry_of p pr) (maxBackoffTime p)) ∧
  (IsStatusConditionTrue (StatusConditions_ pr) Failed || IsStatusConditionTrue (StatusConditions_ pr) Provisioned →
     retry_of p' pr = initialRetryTime p).
Proof.
  intros Hok. pose proof (retry_bounds p pr Hok) as Hr. pose proof Hok as [Hi Hm Hc]. unfold IsAvailableForProvisioning, available.
  unfold IsStatusConditionTrue. destruct (match FindStatusCondition _ Failed with Some _ => _ | None => _ end) eqn:HF; simpl.
  { split; [by split; [|intros [? _]]|]. split.
    { split; [done|done|]. simpl. rewrite lru_remove. by apply map_Forall_delete. }
    do 3 (split; [done|]). split; [done|]. intros _. unfold retry_of. simpl. by rewrite lru_remove, lookup_delete_eq. }
  destruct (FindStatusCondition (StatusConditions_ pr) Provisioned) as [c|] eqn:HP; simpl.
  2: { split; [by split|]. do 4 (split; [done|]). split; [by intros _ [? ?]|done]. }
  case_bool_decide as Htrue; simpl.
  { split; [split; [done|]; intros (_ & H & _); congruence|]. split.
    { split; [done|done|]. simpl. rewrite lru_remove. by apply map_Forall_delete. }
    do 3 (split; [done|]). split; [done|]. intros _. unfold retry_of. simpl. by rewrite lru_remove, lookup_delete_eq. }
  case_bool_decide as Hfalse; simpl.
  2: { split; [split; [done|]; intros (_ & H & _); congruence|]. by do 5 (split; [done|]). }
  pose proof (lru_get (backoffDuration p) (PrUID pr)) as [Hg1 Hg2]. destruct (lru_Get (backoffDuration p) (PrUID pr)) as [cache val].
  simpl in Hg1, Hg2. subst val. fold (retry_of p pr). destruct (Z.ltb_spec (LastTransitionTime c + retry_of p pr) now) as [Hlt|Hge].
  - assert (wrap64 (2 * retry_of p pr) = 2 * retry_of p pr) as Hw by (apply wrap64_id; unfold int64_min, int64_max in *; lia).
    rewrite Hw. set (next := Z.min (2 * retry_of p pr) (maxBackoffTime p)).
    destruct (lru_add (lru_Remove cache (PrUID pr)) (PrUID pr) next) as [Ha1 Ha2]. rewrite lru_remove, Hg1 in Ha2.
    split; [by split|]. split.
    { split; [done|done|]. simpl. intros k v Hv. eapply lookup_weaken in Hv; [|exact Ha2].
      apply lookup_insert_Some in Hv as [[_ <-]|[_ [_ Hv]%lookup_delete_Some]]; [unfold next; lia|by apply (Hc _ _ Hv)]. }
    do 3 (split; [done|]). split; [|done]. intros _ _. unfold retry_of. simpl. by rewrite Ha1.
  - split; [split; [done|]; intros (_ & _ & H); lia|]. split.
    { split; [done|done|]. simpl. by rewrite Hg1. }
    by do 4 (split; [done|]).
Qed.

(** What becomes of a request that is not handed out. *)
Definition passed_over pr pr' : Prop :=
  pr' = pr ∨
  (∃ err now, PodsForProvisioningRequest GetPodFromTemplate SetDefaults_Pod pr = Err err ∧
     pr' = AddOrUpdateCondition pr Failed ConditionTrue FailedToCreatePodsReason err now) ∨
  (∃ now, pr' = AddOrUpdateCondition pr Accepted ConditionTrue AcceptedReason AcceptedMsg now).

(** What the loop over the requests answers. *)
Definition injected w p prs (out : W * Injector * list PR * list Pod) : Prop :=
  let '(w', p', prs', pods) := out in
  durations_ok p' ∧ initialRetryTime p' = initialRetryTime p ∧ inj_instance p' = inj_instance p ∧ pr_Now w <= pr_Now w' ∧
  ((pods = [] ∧ Forall2 passed_over prs prs') ∨
   ∃ l1 l1' pr pr' l2 p1 now, prs = l1 ++ pr :: l2 ∧ prs' = l1' ++ pr' :: l2 ∧ Forall2 passed_over l1 l1' ∧
     SupportedProvisioningClass pr (inj_instance p) = true ∧ durations_ok p1 ∧ initialRetryTime p1 = initialRetryTime p ∧
     available p1 pr now ∧ pr_Now w <= now <= pr_Now w' ∧
     PodsForProvisioningRequest GetPodFromTemplate SetDefaults_Pod pr = Ok pods ∧
     (pr' = pr ∨ pr' = AddOrUpdateCondition pr Accepted ConditionTrue AcceptedReason AcceptedMsg now)).

Lemma injected_next w w1 p p1 prs pr pr' : passed_over pr pr' → pr_Now w <= pr_Now w1 → initialRetryTime p1 = initialRetryTime p →
  inj_instance p1 = inj_instance p → injected w1 p1 prs (next_request GetPodFromTemplate SetDefaults_Pod w1 p1 prs) →
  injected w p (pr :: prs)
    (let '(w', p', rest, pods) := next_request GetPodFromTemplate SetDefaults_Pod w1 p1 prs in (w', p', pr' :: rest, pods)).
Proof.
  intros Hpass Hw Hi Hn. destruct (next_request _ _ w1 p1 prs) as [[[w' p'] rest] pods]. intros (Hok & Hi' & Hn' & Hw' & Hr).
  split; [done|]. split; [congruence|]. split; [congruence|]. split; [lia|]. destruct Hr as [[-> HF]|Hr]; [left|right].
  - split; [done|by constructor].
  - destruct Hr as (l1 & l1' & pr1 & pr1' & l2 & p2 & now & -> & -> & HF & Hs & Hok2 & Hi2 & Hav & Hnow & Hpods & Hpr).
    exists (pr :: l1), (pr' :: l1'), pr1, pr1', l2, p2, now. do 2 (split; [done|]). split; [by constructor|].
    rewrite Hn in Hs. do 2 (split; [done|]). split; [congruence|]. split; [done|]. split; [lia|done].
Qed.

Lemma next_request_spec prs : ∀ w p, durations_ok p → injected w p prs (next_request GetPodFromTemplate SetDefaults_Pod w p prs).
Proof.
  induction prs as [|pr prs IH]; intros w p Hok.
  { simpl. split_and!; try done. left. by split; [|constructor]. }
  cbn [next_request]. unfold isSupportedClass. destruct (SupportedProvisioningClass pr (inj_instance p)) eqn:Hs; simpl.
  2: { apply injected_next; try done; [by left|by apply IH]. }
  pose proof (retry_backoff_exact p pr (pr_Now w) Hok) as Hav.
  assert (inj_instance (IsAvailableForProvisioning p pr (pr_Now w)).1 = inj_instance p) as Hinst.
  { unfold IsAvailableForProvisioning. by repeat case_match. }
  destruct (IsAvailableForProvisioning p pr (pr_Now w)) as [p1 [|]]; simpl in Hinst; destruct Hav as (Hiff & Hok1 & Hi1 & _).
  2: { apply injected_next; try done; [by left|by apply IH]. }
  destruct (PodsForProvisioningRequest GetPodFromTemplate SetDefaults_Pod pr) as [pods|err] eqn:Hpods.
  2: { unfold MarkAsFailed.
       match goal with |- context [pr_UpdateStatus w ?x] => pose proof (pr_update_time w x) as Ht; destruct (pr_UpdateStatus w x) as [w1 r] end.
       simpl in Ht. apply injected_next; try done; [right; left; by exists err, (pr_Now w)|].
       apply IH. by destruct Hok1; split. }
  assert (available p pr (pr_Now w)) as Ha by by apply Hiff.
  destruct (shouldMarkAsAccepted p1 pr).
  2: { simpl. split; [by destruct Hok1; split|]. do 2 (split; [done|]). split; [lia|]. right.
       exists [], [], pr, pr, prs, p, (pr_Now w). do 2 (split; [done|]). split; [constructor|]. do 4 (split; [done|]). split; [lia|]. split; [done|by left]. }
  unfold MarkAsAccepted.
  match goal with |- context [pr_UpdateStatus w ?x] => pose proof (pr_update_time w x) as Ht; destruct (pr_UpdateStatus w x) as [w1 [e|]] end;
    simpl in Ht.
  - apply injected_next; try done; [right; right; by exists (pr_Now w)|by apply IH].
  - simpl. split; [by destruct Hok1; split|]. do 2 (split; [done|]). split; [done|]. right.
    exists [], [], pr, (AddOrUpdateCondition pr Accepted ConditionTrue AcceptedReason AcceptedMsg (pr_Now w)), prs, p, (pr_Now w).
    do 2 (split; [done|]). split; [constructor|]. do 4 (split; [done|]). split; [lia|]. split; [done|by right].
Qed.

End injector.

(** Concrete requests: a server that may refuse updates, templates that are
    pods, and a cache that keeps everything. *)
Module ProvReqExample.
#[export, refine] Instance api : ProvReqApi := {|
  Accepted := "Accepted"; Provisioned := "Provisioned"; BookingExpired := "BookingExpired"; Failed := "Failed";
  ProvisioningClassCheckCapacity := "check-capacity.autoscaling.x-k8s.io";
  ProvisioningClassBestEffortAtomicScaleUp := "best-effort-atomic-scale-up.autoscaling.x-k8s.io";
  ProvisioningRequestPodAnnotationKey := "autoscaling.x-k8s.io/consume-provisioning-request";
  ProvisioningClassPodAnnotationKey := "autoscaling.x-k8s.io/provisioning-class-name"
|}%string.
Proof. - refine (bool_decide_eq_true_1 (NoDup _) _). by vm_compute. - done. Defined.

#[export] Instance status_conditions : StatusConditions :=
  { FindStatusCondition l t := snd <$> list_find (λ c, CondType c = t) l; find_condition l t := eq_refl }.

#[export, refine] Instance cache : LruCache (gmap string Z) := {|
  lru_content c := c; lru_Get c k := (c, c !! k); lru_Add c k v := <[k := v]> c; lru_Remove c k := delete k c
|}.
Proof. - done. - intros c k v. split; [apply lookup_insert_eq|done]. - done. Defined.

Definition template (name : string) : Pod :=
  mkPod "" name name ∅ ∅ [] None None None RestartPolicyAlways PodPending [] [] [] None "" "" "default-scheduler" None.

Record server : Type := mkServer { clock : Z; listed : list (ProvisioningRequest Pod); refuses : bool; updates : nat }.
#[export, refine] Instance client : ProvReqClient Pod server := {|
  pr_Listed w := Ok (listed w);
  template_Get w ns name := Ok (if decide (name = "lost"%string) then None else Some (template name));
  pr_UpdateStatus w pr := (mkServer (clock w + 1) (listed w) (refuses w) (Datatypes.S (updates w)), if refuses w then Some "conflict"%string else None);
  pr_ApplyCondition w ns name c := (w, None);
  pr_Delete w ns name := (w, None);
  pr_Now := clock
|}.
Proof. all: intros; simpl; lia. Defined.

(** A pod from a template, as Kubernetes makes it. *)
Definition from_template (t : Pod) (pr : ProvisioningRequest Pod) (o : OwnerReference) : result string (string * Pod) :=
  Ok (PrName pr +:+ "-", mkPod (PrNamespace pr) "" "" ∅ ∅ [o] None None None RestartPolicyAlways PodPending [] [] [] None "" "" "default-scheduler" None).

Definition day : Z := 24 * 60 * pr_minute.
Definition request (name : string) (created : Z) (conditions : list Condition) : ProvisioningRequest Pod :=
  mkPr _ "autoscaling.x-k8s.io/v1" "ProvisioningRequest" "default" name name 1 created ProvisioningClassCheckCapacity ∅
    [(2, "small"%string); (1, "big"%string)] conditions [("small"%string, template "small"); ("big"%string, template "big")].
Definition provisioned_at (t : Z) : list Condition := [mkCond Provisioned ConditionTrue 1 t "" ""].
Definition not_found_at (t : Z) : list Condition := [mkCond Provisioned ConditionFalse 1 t "" ""].

Example pod_names : match PodsForProvisioningRequest from_template id (request "r" 0 []) with Ok pods => PodName <$> pods | Err _ => [] end =
  ["r-0-0"; "r-0-1"; "r-1-0"]%string.
Proof. vm_compute. reflexivity. Qed.

(** The limit on updates is not one on their sum: with a limit of one, a request
    that is too old and one whose booking is over are both updated. *)
Example two_updates_for_a_limit_of_one :
  let '(w, prs, _) := refresh 1 "" (mkServer (8 * day) [] false 0) [request "old" 0 []; request "over" (8 * day) (provisioned_at (7 * day))] in
  updates w = 2%nat ∧ (fmap CondType ∘ StatusConditions_) <$> prs = [["Failed"]; ["Provisioned"; "BookingExpired"]]%string.
Proof. vm_compute. by split. Qed.

(** An update that the server refuses stays in the object of the cache. *)
Example refused_update_stays :
  let '(w, p, prs, pods) := next_request from_template id (mkServer (8 * day) [] true 0)
    (mkInjector _ pr_minute (10 * pr_minute) (∅ : gmap string Z) 0 false "") [request "r" 0 []] in
  pods = [] ∧ (fmap CondType ∘ StatusConditions_) <$> prs = [["Accepted"]]%string.
Proof. vm_compute. by split. Qed.

Definition injector_ : ProvisioningRequestPodsInjector (gmap string Z) := mkInjector _ pr_minute (10 * pr_minute) ∅ 0 false "".
Lemma injector_ok : durations_ok injector_.
Proof. split; [done|done|]. intros k v H. simpl in H. by rewrite lookup_empty in H. Qed.


Lemma retry_backoff_exact_witness :
  durations_ok injector_ ∧ retry_of (IsAvailableForProvisioning injector_ (request "again" 0 (not_found_at day)) (8 * day)).1
    (request "again" 0 (not_found_at day)) = 2 * pr_minute.
Proof.
  split; [apply injector_ok|].
  pose proof (retry_backoff_exact injector_ (request "again" 0 (not_found_at day)) (8 * day) injector_ok) as H.
  destruct (IsAvailableForProvisioning injector_ _ _) as [p b] eqn:He.
  destruct H as (_ & _ & _ & _ & _ & H & _). simpl. rewrite H; [done| |by eexists]. apply (f_equal snd) in He. vm_compute in He. congruence.
Defined.

Lemma pods_of_request_distinct_witness : ∃ pods, PodsForProvisioningRequest from_template id (request "r" 0 []) = Ok pods ∧
  NoDup (PodName <$> pods) ∧ ⟪ pods ⟫ = 3.
Proof.
  destruct (PodsForProvisioningRequest from_template id (request "r" 0 [])) as [pods|e] eqn:He; [|vm_compute in He; discriminate].
  exists pods. split; [done|]. destruct (pods_of_request_distinct from_template id (request "r" 0 []) pods) as (H1 & _ & H3 & _).
  - intros pr t1 t2 o1 o2 g1 g2 p1 p2. unfold from_template. congruence.
  - by intros pod.
  - by repeat constructor.
  - done.
  - by split.
Defined.
End ProvReqExample.
