(* ===== verification/ProvReqScaleUp.v ===== *)
(** Scale-up for provisioning requests: the class that only checks capacity
    (src/pkg/provisioningrequest/checkcapacity), the class that scales up at
    once or not at all (besteffortatomic), and the orchestrators that choose a
    class and alternate with ordinary pods (orchestrator). *)
From stdpp Require Import prelude gmap strings pretty list numbers fin_maps fin_sets.
From S2P Require Import Prelude Api Drain Framework Errors ClusterSnapshot Hinting Orchestrator ProvReq.
Local Open Scope Z_scope.
Local Open Scope ca_scope.

Definition NoRetryParameterKey : string := "noRetry".
Definition CapacityIsNotFoundReason : string := "CapacityIsNotFound".
Definition CapacityIsFoundReason : string := "CapacityIsFound".
Definition CapacityIsFoundMsg : string := "Capacity is found in the cluster".
Definition CapacityIsProvisionedReason : string := "CapacityIsProvisioned".
Definition CapacityIsProvisionedMsg : string := "Capacity is found in the cluster".
Definition FailedToCheckCapacityReason : string := "FailedToCheckCapacity".
Definition FailedToCheckCapacityMsg : string := "Failed to check pre-existing capacity in the cluster".
Definition found_later : string := "Capacity is not found, CA will try to find it later.".

(** A status with a result only. *)
Definition result_status (r : ScaleUpResult) : ScaleUpStatus := Orchestrator.mkStatus r None [] [] [] [] [] [] [] [].

(** ** The combined status *)

(** The errors are pointers, which are never the same: they are kept by the
    order of their allocation. *)
Record combinedStatusSet : Type := mkCombined { CombinedResult : ScaleUpResult; ScaleupErrors : gmap nat AutoscalerError }.

Definition NewCombinedStatusSet : combinedStatusSet := mkCombined ScaleUpNotTried ∅.

Definition resultPriority (r : ScaleUpResult) : Z :=
  match r with ScaleUpNoOptionsAvailable => 1 | ScaleUpError => 2 | ScaleUpSuccessful => 3 | _ => 0 end.

Definition combined_Add (c : combinedStatusSet) (newStatus : ScaleUpStatus) : combinedStatusSet :=
  mkCombined (if resultPriority (CombinedResult c) <? resultPriority (Orchestrator.Result newStatus) then Orchestrator.Result newStatus else CombinedResult c)
    match StatusError newStatus with
    | Some err => <[fresh (dom (ScaleupErrors c)) := err]> (ScaleupErrors c)
    | None => ScaleupErrors c
    end.

Section combine.
Context `{GR : GoRange} `{SB : SortSliceBy} (quote : string → string).

Definition batch_format_step (st : string * list AutoscalerError) (err : AutoscalerError) : string * list AutoscalerError :=
  let '(builder, formattedErrs) := st in
  if decide (err ∈ formattedErrs) then st
  else
    let formattedErrs := formattedErrs ++ [err] in
    let builder := if 2 <? ⟪ formattedErrs ⟫ then builder +:+ ", " else builder in
    (builder +:+ quote (Error err), formattedErrs).

(** [None] is the panic of [errs[0]]. *)
Definition formatMessageFromBatchErrors (errs : list AutoscalerError) : option string :=
  match errs with
  | [] => None
  | firstErr :: _ =>
      Some ((foldl batch_format_step (Error firstErr +:+ " ...and other concurrent errors: [", [firstErr]) errs).1 +:+ "]")
  end.

(** The outer [None] is a panic. *)
Definition combineBatchScaleUpErrors (c : combinedStatusSet) : option (option AutoscalerError) :=
  let errs := (go_range (ScaleupErrors c)).*2 in
  match errs with
  | [] => Some None
  | err :: _ =>
      if (length errs =? 1)%nat then Some (Some err)
      else if (size (list_to_set (Error <$> errs) : gset string) =? 1)%nat then Some (Some err)
      else
        message ← formatMessageFromBatchErrors (sort_by (λ a b, string_less (Error a) (Error b)) errs);
        Some (Some (NewAutoscalerError InternalError message))
  end.

(** [None] is the nil pointer that the code would read through. *)
Definition combined_Export (c : combinedStatusSet) : option (ScaleUpStatus * option AutoscalerError) :=
  err ← (if (0 <? size (ScaleupErrors c))%nat then combineBatchScaleUpErrors c else Some None);
  let status := Orchestrator.mkStatus (CombinedResult c) err [] [] [] [] [] [] [] [] in
  if bool_decide (CombinedResult c = ScaleUpError)
  then match err with Some e => Some (status, Some e) | None => None end
  else Some (status, None).
End combine.

(** ** The state of the classes *)

Section classes.
Context `{PA : !ProvReqApi} `{SC : !StatusConditions} `{GR : GoRange} `{SL : SortSlice} `{SB : SortSliceBy} `{KL : KubeLib}.
Context {Template W C : Type} `{PC : !ProvReqClient Template W} `{LC : !LruCache C}.
Context {S Slice CSI T : Type} `{SN : SchedNodeInfo S} `{CS : !ClusterSnapshot S Slice CSI T}.
Context {PodSpec : Type} (PodPriority : Pod → Z) (Spec : Pod → PodSpec) (PodSpecSemanticallyEqual : PodSpec → PodSpec → bool).
Abbreviation PR := (ProvisioningRequest Template).
Abbreviation Injector := (ProvisioningRequestPodsInjector C).
Context (GetPodFromTemplate : Template → PR → OwnerReference → result string (string * Pod)) (SetDefaults_Pod : Pod → Pod)
  (quote : string → string).
Implicit Types (pr : PR) (w : W) (t : T) (pods : list Pod).

(** The API server, the snapshot of the loop, the hints of the simulator that
    the classes share, and the injector, if the check capacity class has one. *)
Record class_state : Type := mkClassState { cl_world : W; cl_snap : T; cl_hints : Hints; cl_injector : option Injector }.
Implicit Types (st : class_state).

Definition internal_error (text : string) : AutoscalerError := NewAutoscalerError InternalError text.
Definition failing (err : AutoscalerError) : ScaleUpStatus * option AutoscalerError := (error_status err [] [] [] [] [], Some err).

Definition any_options : SchedulingOptions S Slice CSI := mkSchedulingOptions None None.
Definition try_pods (t : T) (hints : Hints) pods (breakOnFailure : bool) :=
  TrySchedulePods PodPriority Spec PodSpecSemanticallyEqual (λ _, None) hints t pods breakOnFailure any_options.

(** ** Checking capacity *)

(** What the class reads from the context; [since i] is the time since the start
    at the [i]-th look at the clock. *)
Record check_config : Type := mkCheckConfig {
  maxBatchSize : Z; batchTimebox : Z; CheckCapacityProcessorInstance : string; since : nat → Z;
  completed : list (PR * bool) → list (PR * bool)
}.

(** The texts of errors of the simulation and of the snapshot. *)
Inductive check_error : Type := TryFailed (e : try_error) | CommitFailed (e : snapshot_error).

Definition not_found_condition pr (now : Z) : PR :=
  if bool_decide (Parameters pr !! NoRetryParameterKey = Some "true")
  then AddOrUpdateCondition pr Failed ConditionTrue CapacityIsNotFoundReason "CA could not find requested capacity" now
  else AddOrUpdateCondition pr Provisioned ConditionFalse CapacityIsNotFoundReason found_later now.

Definition checkCapacity (now : Z) t (hints : Hints) pods pr (combinedStatus : combinedStatusSet)
    : T * Hints * PR * combinedStatusSet * option check_error :=
  let '(t, hints, r) := try_pods (Fork t) hints pods true in
  let not_fitting err :=
    (Revert t, hints, not_found_condition pr now, combined_Add combinedStatus (result_status ScaleUpNoOptionsAvailable), err) in
  match r with
  | Ok schedulingResult =>
      if bool_decide (length (Statuses schedulingResult) = length pods) then
        match Commit t with
        | (t, Some commitError) => (Revert t, hints, pr, combinedStatus, Some (CommitFailed commitError))
        | (t, None) =>
            (t, hints, AddOrUpdateCondition pr Provisioned ConditionTrue CapacityIsFoundReason CapacityIsFoundMsg now,
             combined_Add combinedStatus (result_status ScaleUpSuccessful), None)
        end
      else not_fitting None
  | Err e => not_fitting (Some (TryFailed e))
  end.

(** The requests as they are left, each with whether it is to be updated. *)
Fixpoint check_loop (cfg : check_config) (batch : bool) (now : Z) (looks : nat) t (hints : Hints) (reqs : list (PR * list Pod))
    (combinedStatus : combinedStatusSet) : T * Hints * list (PR * bool) * combinedStatusSet :=
  match reqs with
  | [] => (t, hints, [], combinedStatus)
  | (pr, pods) :: reqs' =>
      match checkCapacity now t hints pods pr combinedStatus with
      | (t, hints, pr, combinedStatus, Some _) =>
          let '(t, hints, rest, combinedStatus) := check_loop cfg batch now looks t hints reqs' combinedStatus in
          (t, hints, (pr, false) :: rest, combinedStatus)
      | (t, hints, pr, combinedStatus, None) =>
          if batch && (batchTimebox cfg <? since cfg looks)
          then (t, hints, (pr, true) :: ((λ req, (req.1, false)) <$> reqs'), combinedStatus)
          else
            let looks := if batch then Datatypes.S looks else looks in
            let '(t, hints, rest, combinedStatus) := check_loop cfg batch now looks t hints reqs' combinedStatus in
            (t, hints, (pr, true) :: rest, combinedStatus)
      end
  end.

Definition update_request (acc : W * combinedStatusSet) (req : PR * bool) : W * combinedStatusSet :=
  let '(w, combinedStatus) := acc in
  if negb req.2 then acc
  else
    match pr_UpdateStatus w req.1 with
    | (w, None) => (w, combinedStatus)
    | (w, Some updErr) =>
        (w, combined_Add combinedStatus (failing (internal_error ("error during ScaleUp: failed to update ProvReq " +:+
              PrNamespace req.1 +:+ "/" +:+ PrName req.1 +:+ ", err: " +:+ updErr))).1)
    end.

(** The updates run concurrently; [completed] is the order they finish in. *)
Definition updateRequests (cfg : check_config) w (reqs : list (PR * bool)) (combinedStatus : combinedStatusSet) : W * combinedStatusSet :=
  foldl update_request (w, combinedStatus) (completed cfg reqs).

Definition isBatchEnabled (cfg : check_config) (injector : option Injector) : bool :=
  match injector with Some _ => 1 <? maxBatchSize cfg | None => false end.

(** The requests with their pods; in a batch the injector is changed. *)
Definition getProvisioningRequestsAndPods (cfg : check_config) w (injector : option Injector) (unschedulablePods : list Pod)
    : W * option Injector * result string (list (PR * list Pod)) :=
  match injector with
  | Some p =>
      if 1 <? maxBatchSize cfg then
        match GetCheckCapacityBatch GetPodFromTemplate SetDefaults_Pod w p (maxBatchSize cfg) with
        | (w, p, _, Err err) => (w, Some p, Err err)
        | (w, p, objects, Ok batch) =>
            (w, Some p, Ok (omap (λ req, (λ pr, (pr, req.2)) <$> objects !! req.1) batch))
        end
      else
        match FilterOutProvisioningClass (ProvisioningRequestsForPods w unschedulablePods) ProvisioningClassCheckCapacity
                (CheckCapacityProcessorInstance cfg) with
        | [] => (w, injector, Ok [])
        | pr :: _ => (w, injector, Ok [(pr, unschedulablePods)])
        end
  | None =>
      match FilterOutProvisioningClass (ProvisioningRequestsForPods w unschedulablePods) ProvisioningClassCheckCapacity
              (CheckCapacityProcessorInstance cfg) with
      | [] => (w, injector, Ok [])
      | pr :: _ => (w, injector, Ok [(pr, unschedulablePods)])
      end
  end.

(** [Provision] of the check capacity class. The answer carries the requests as
    they are left; [None] is a panic. *)
Definition check_Provision (cfg : check_config) st (unschedulablePods : list Pod)
    : option (class_state * list (PR * bool) * (ScaleUpStatus * option AutoscalerError)) :=
  let t := Fork (cl_snap st) in
  match getProvisioningRequestsAndPods cfg (cl_world st) (cl_injector st) unschedulablePods with
  | (w, injector, Err err) =>
      Some (mkClassState w (Revert t) (cl_hints st) injector, [],
            failing (internal_error ("Error fetching provisioning requests and associated pods: " +:+ err)))
  | (w, injector, Ok []) => Some (mkClassState w (Revert t) (cl_hints st) injector, [], (result_status ScaleUpNotTried, None))
  | (w, injector, Ok prs) =>
      let injector := (λ p, UpdateLastProcessTime p (pr_Now w)) <$> injector in
      let prs := (λ req, (AddOrUpdateCondition req.1 Accepted ConditionTrue AcceptedReason AcceptedMsg (pr_Now w), req.2)) <$> prs in
      let '(t, hints, processed, combinedStatus) :=
        check_loop cfg (isBatchEnabled cfg injector) (pr_Now w) 0 t (cl_hints st) prs NewCombinedStatusSet in
      let '(w, combinedStatus) := updateRequests cfg w processed combinedStatus in
      answer ← combined_Export quote combinedStatus;
      Some (mkClassState w (Revert t) hints injector, processed, answer)
  end.

Definition check_class (cfg : check_config) st pods : option (class_state * (ScaleUpStatus * option AutoscalerError)) :=
  '(st, _, answer) ← check_Provision cfg st pods; Some (st, answer).

(** ** Best effort, all or nothing *)

(** The ordinary orchestrator, called with all or nothing. *)
Context (ScaleUp : W → T → list Pod → W * T * (ScaleUpStatus * option AutoscalerError)) (error_text_of : try_error → string).

Definition filterOutSchedulable t (hints : Hints) pods : T * Hints * result try_error (list Pod) :=
  match try_pods t hints pods false with
  | (t, hints, Err err) => (t, hints, Err err)
  | (t, hints, Ok schedulingResult) =>
      let scheduledPods : gset string := foldl (λ m status, {[PodUID (StatusPod status)]} ∪ m) ∅ (Statuses schedulingResult) in
      (t, hints, Ok (foldl (λ l pod, if bool_decide (PodUID pod ∈ scheduledPods) then l else l ++ [pod]) [] pods))
  end.

Definition condition_now w (status : ConditionStatus) (reason message : string) : Condition :=
  mkCond Provisioned status 0 (pr_Now w) reason message.

(** The part of [Provision] after the fork, for the request picked. *)
Definition provision_atomically w t (hints : Hints) pr (unschedulablePods : list Pod)
    : W * T * Hints * (ScaleUpStatus * option AutoscalerError) :=
  let apply w c := pr_ApplyCondition w (PrNamespace pr) (PrName pr) c in
  match filterOutSchedulable t hints unschedulablePods with
  | (t, hints, Err err) =>
      ((apply w (condition_now w ConditionFalse FailedToCheckCapacityReason FailedToCheckCapacityMsg)).1, t, hints,
       failing (internal_error ("error during ScaleUp: " +:+ error_text_of err)))
  | (t, hints, Ok []) =>
      match apply w (condition_now w ConditionTrue CapacityIsFoundReason CapacityIsFoundMsg) with
      | (w, Some updateErr) =>
          (w, t, hints, failing (internal_error ("capacity available, but failed to admit workload: " +:+ updateErr)))
      | (w, None) => (w, t, hints, (result_status ScaleUpNotNeeded, None))
      end
  | (t, hints, Ok actuallyUnschedulablePods) =>
      match ScaleUp w t actuallyUnschedulablePods with
      | (w, t, (status, None)) =>
          if bool_decide (Orchestrator.Result status = ScaleUpSuccessful) then
            match apply w (condition_now w ConditionTrue CapacityIsProvisionedReason CapacityIsProvisionedMsg) with
            | (w, Some updateErr) =>
                (w, t, hints, (status, Some (internal_error ("scale up requested, but failed to admit workload: " +:+ updateErr))))
            | (w, None) => (w, t, hints, (status, None))
            end
          else ((apply w (condition_now w ConditionFalse CapacityIsNotFoundReason found_later)).1, t, hints, (status, None))
      | (w, t, (status, Some err)) =>
          ((apply w (condition_now w ConditionFalse CapacityIsNotFoundReason found_later)).1, t, hints,
           failing (internal_error ("error during ScaleUp: " +:+ Error err)))
      end
  end.

(** [Provision] of the best effort class. *)
Definition atomic_Provision st (unschedulablePods : list Pod) : class_state * (ScaleUpStatus * option AutoscalerError) :=
  match unschedulablePods with
  | [] => (st, (result_status ScaleUpNotTried, None))
  | _ =>
      match FilterOutProvisioningClass (ProvisioningRequestsForPods (cl_world st) unschedulablePods)
              ProvisioningClassBestEffortAtomicScaleUp "" with
      | [] => (st, (result_status ScaleUpNotTried, None))
      | pr :: _ =>
          let '(w, t, hints, answer) := provision_atomically (cl_world st) (Fork (cl_snap st)) (cl_hints st) pr unschedulablePods in
          (mkClassState w (Revert t) hints (cl_injector st), answer)
      end
  end.

Definition atomic_class st pods : option (class_state * (ScaleUpStatus * option AutoscalerError)) := Some (atomic_Provision st pods).

(** ** The orchestrators *)

(** The classes in turn, until one has tried. [None] is a panic. *)
Fixpoint try_classes st (classes : list (class_state → list Pod → option (class_state * (ScaleUpStatus * option AutoscalerError))))
    pods : option (class_state * (ScaleUpStatus * option AutoscalerError)) :=
  match classes with
  | [] => Some (st, (result_status ScaleUpNotTried, None))
  | provClass :: classes' =>
      '(st, (status, err)) ← provClass st pods;
      if bool_decide (err = None) && bool_decide (Orchestrator.Result status = ScaleUpNotTried)
      then try_classes st classes' pods
      else Some (st, (status, err))
  end.

(** [provReqOrchestrator.ScaleUp]. *)
Definition provreq_ScaleUp (initialized : bool) st classes pods : option (class_state * (ScaleUpStatus * option AutoscalerError)) :=
  if negb initialized
  then Some (st, (result_status ScaleUpSuccessful, Some (typed_error InternalError (PlainError 0 "provisioningrequest.Orchestrator is not initialized"))))
  else
    '(st, answer) ← try_classes (mkClassState (cl_world st) (Fork (cl_snap st)) (cl_hints st) (cl_injector st)) classes pods;
    Some (mkClassState (cl_world st) (Revert (cl_snap st)) (cl_hints st) (cl_injector st), answer).
End classes.

(** [WrapperOrchestrator.ScaleUp]: the mode is kept between loops. *)
Section wrapper.
Context `{PA : !ProvReqApi} {X A : Type} (provReqOrchestrator podsOrchestrator : X → list Pod → X * A).

Definition splitOut (unschedulablePods : list Pod) : list Pod * list Pod :=
  foldl (λ acc pod, match PodAnnotations pod !! ProvisioningRequestPodAnnotationKey with
                    | Some _ => (acc.1 ++ [pod], acc.2)
                    | None => (acc.1, acc.2 ++ [pod])
                    end) ([], []) unschedulablePods.

(** The mode of this call. *)
Definition chosen_mode (mode : bool) (provReqPods regularPods : list Pod) : bool :=
  match provReqPods, regularPods with
  | [], _ => false
  | _, [] => true
  | _, _ => mode
  end.

(** The mode for the next call, and the answer. *)
Definition wrapper_ScaleUp (ProvisioningRequestScaleUpMode : bool) (x : X) (unschedulablePods : list Pod) : bool * (X * A) :=
  let '(provReqPods, regularPods) := splitOut unschedulablePods in
  let mode := chosen_mode ProvisioningRequestScaleUpMode provReqPods regularPods in
  (negb mode, if mode then provReqOrchestrator x provReqPods else podsOrchestrator x regularPods).
End wrapper.
