(* ===== verification/ProvReqScaleUpProofs.v ===== *)
(** What the scale-up for provisioning requests guarantees (ProvReqScaleUp.v). *)
From stdpp Require Import prelude gmap strings pretty list numbers fin_maps fin_sets.
From S2P Require Import Prelude Api Drain Framework Errors ClusterSnapshot Hinting Orchestrator ProvReq ProvReqScaleUp.
From S2P Require SnapshotSpec Planner ProvReqProofs.
Local Open Scope Z_scope.
Local Open Scope ca_scope.

(** ** The combined status *)

Section combined.
Context `{GR : GoRange} `{SB : SortSliceBy} (quote : string → string).
Implicit Types (c : combinedStatusSet) (s : ScaleUpStatus).

Lemma combined_errors_pos c : (0 < size (ScaleupErrors c))%nat →
  ∃ e, combineBatchScaleUpErrors quote c = Some (Some e).
Proof.
  intros Hs. unfold combineBatchScaleUpErrors. rewrite <- length_go_range in Hs.
  destruct (go_range (ScaleupErrors c)) as [|[k err] l] eqn:Hl; simpl in Hs; [lia|]. csimpl.
  do 2 (destruct (_ =? _)%nat; [by eexists|]).
  set (errs := err :: l.*2). destruct (sort_by _ errs) as [|x xs] eqn:Hx.
  { pose proof (sort_by_perm (λ a b, string_less (Error a) (Error b)) errs) as Hp. rewrite Hx in Hp. by apply Permutation_nil_cons in Hp. }
  simpl. by eexists.
Qed.

(** An error is recorded whenever the result is one. *)
Definition error_recorded c : Prop := CombinedResult c = ScaleUpError → (0 < size (ScaleupErrors c))%nat.

Lemma combined_Add_recorded c s : error_recorded c → (Orchestrator.Result s = ScaleUpError → StatusError s ≠ None) →
  error_recorded (combined_Add c s).
Proof.
  intros Hc Hs. unfold error_recorded, combined_Add. simpl. intros He.
  assert (Orchestrator.Result s = ScaleUpError ∨ CombinedResult c = ScaleUpError) as Hor by (destruct (_ <? _); auto).
  destruct (StatusError s) as [e|] eqn:Hse.
  - rewrite map_size_insert. destruct (_ !! _) eqn:Hf; [|lia]. exfalso.
    assert (fresh (dom (ScaleupErrors c)) ∈ dom (ScaleupErrors c)) as Hin by (apply elem_of_dom; by eexists). by apply is_fresh in Hin.
  - destruct Hor as [H|H]; [by specialize (Hs H)|by apply Hc].
Qed.

Lemma combined_recorded statuses c : error_recorded c → Forall (λ s, Orchestrator.Result s = ScaleUpError → StatusError s ≠ None) statuses →
  error_recorded (foldl combined_Add c statuses).
Proof.
  revert c. induction statuses as [|s statuses IH]; intros c Hc Hall; [done|]. apply Forall_cons in Hall as [Hs Hall].
  simpl. apply IH; [|done]. by apply combined_Add_recorded.
Qed.

Lemma combined_result statuses : ∀ c, let r := CombinedResult (foldl combined_Add c statuses) in
  resultPriority (CombinedResult c) <= resultPriority r ∧ (∀ s, s ∈ statuses → resultPriority (Orchestrator.Result s) <= resultPriority r) ∧
  (r = CombinedResult c ∨ ∃ s, s ∈ statuses ∧ r = Orchestrator.Result s).
Proof.
  induction statuses as [|s statuses IH]; intros c; simpl.
  { split; [lia|]. split; [intros s Hs; by apply not_elem_of_nil in Hs|by left]. }
  destruct (IH (combined_Add c s)) as (H1 & H2 & H3). 
  assert (CombinedResult (combined_Add c s) = if resultPriority (CombinedResult c) <? resultPriority (Orchestrator.Result s)
    then Orchestrator.Result s else CombinedResult c) as Hca by done. rewrite Hca in H1, H3.
  destruct (Z.ltb_spec (resultPriority (CombinedResult c)) (resultPriority (Orchestrator.Result s))) as [Hlt|Hge].
  - split; [lia|]. split; [intros s' [->|Hs]%elem_of_cons; [lia|by apply H2]|]. right.
    destruct H3 as [H3|(s' & Hs' & H3)]; [exists s; split; [by left|done]|exists s'; split; [by right|done]].
  - split; [lia|]. split; [intros s' [->|Hs]%elem_of_cons; [lia|by apply H2]|].
    destruct H3 as [H3|(s' & Hs' & H3)]; [by left|right; exists s'; split; [by right|done]].
Qed.

(** The combined status of a batch is exported. *)
Lemma combined_Export_spec c : error_recorded c → ∃ status err, combined_Export quote c = Some (status, err) ∧
  Orchestrator.Result status = CombinedResult c ∧ (err = None ↔ CombinedResult c ≠ ScaleUpError) ∧
  (StatusError status = None ↔ ScaleupErrors c = ∅).
Proof.
  intros Hc. unfold combined_Export. destruct (Nat.ltb_spec 0 (size (ScaleupErrors c))) as [Hpos|Hz].
  - destruct (combined_errors_pos c Hpos) as [e ->]. simpl.
    assert (ScaleupErrors c ≠ ∅) as Hne by (intros He; rewrite He, map_size_empty in Hpos; lia).
    case_bool_decide; do 2 eexists; (split; [done|]); (split; [done|]); (split; [by split|by split]).
  - simpl. rewrite bool_decide_false by (intros H; specialize (Hc H); lia). do 2 eexists. split; [done|]. split; [done|]. split.
    + split; [|done]. intros _ H. specialize (Hc H). lia.
    + simpl. split; [|done]. intros _. apply map_size_empty_inv. lia.
Qed.

(** The combined status of a batch is never taken from a nil error, whatever
    the updates answered; its result is that of the status with the highest
    priority, an error is returned exactly when it is an error, and its error
    is set when any status had one. *)
Theorem combined_status_exact (statuses : list ScaleUpStatus) :
  Forall (λ s, Orchestrator.Result s = ScaleUpError → StatusError s ≠ None) statuses →
  ∃ status err, combined_Export quote (foldl combined_Add NewCombinedStatusSet statuses) = Some (status, err) ∧
    (∀ s, s ∈ statuses → resultPriority (Orchestrator.Result s) <= resultPriority (Orchestrator.Result status)) ∧
    (Orchestrator.Result status = ScaleUpNotTried ∨ ∃ s, s ∈ statuses ∧ Orchestrator.Result status = Orchestrator.Result s) ∧
    (err = None ↔ Orchestrator.Result status ≠ ScaleUpError).
Proof.
  intros Hall. destruct (combined_Export_spec (foldl combined_Add NewCombinedStatusSet statuses)) as (status & err & He & Hr & Herr & _).
  { by apply combined_recorded. }
  exists status, err. rewrite Hr. destruct (combined_result statuses NewCombinedStatusSet) as (_ & H2 & H3). by split_and!.
Qed.
End combined.

(** ** Checking capacity *)

Section classes.
Context `{PA : !ProvReqApi} `{SC : !StatusConditions} `{GR : GoRange} `{SL : SortSlice} `{SB : SortSliceBy} `{KL : KubeLib}.
Context {Template W C : Type} `{PC : !ProvReqClient Template W} `{LC : !LruCache C}.
Context {S Slice CSI T : Type} `{SN : SchedNodeInfo S} `{CS : !ClusterSnapshot S Slice CSI T}.
Context {PodSpec : Type} (PodPriority : Pod → Z) (Spec : Pod → PodSpec) (PodSpecSemanticallyEqual : PodSpec → PodSpec → bool).
Abbreviation PR := (ProvisioningRequest Template).
Abbreviation NI := (NodeInfo S Slice CSI).
Abbreviation try_pods := (try_pods PodPriority Spec PodSpecSemanticallyEqual).
Abbreviation opts := (any_options (S := S) (Slice := Slice) (CSI := CSI)).
Context (GetPodFromTemplate : Template → PR → OwnerReference → result string (string * Pod)) (SetDefaults_Pod : Pod → Pod)
  (quote : string → string).
Implicit Types (pr : PR) (w : W) (t : T) (pods : list Pod) (m : gmap string NI).

(** A snapshot in use, where no node has an empty name. *)
Definition usable t : Prop := snap_ok t ∧ snap_nodes t !! "" = None.

Definition fits (m : gmap string NI) pods (m' : gmap string NI) : Prop := ∃ sts, places opts m sts m' ∧ StatusPod <$> sts ≡ₚ pods.

Definition provisioned_condition pr (now : Z) : PR :=
  AddOrUpdateCondition pr Provisioned ConditionTrue CapacityIsFoundReason CapacityIsFoundMsg now.

Lemma places_unnamed m m' sts : places opts m sts m' → m !! "" = None → m' !! "" = None.
Proof. intros Hp Hn. apply not_elem_of_dom. rewrite (Planner.places_dom _ _ _ _ Hp). by apply not_elem_of_dom. Qed.

(** One request: its pods fit together and are placed, or nothing changes. *)
Lemma checkCapacity_spec now t (hints : Hints) pods pr c : usable t →
  let '(t', _, pr', c', err) := checkCapacity PodPriority Spec PodSpecSemanticallyEqual now t hints pods pr c in
  usable t' ∧ snap_saved t' = snap_saved t ∧
  ((err = None ∧ fits (snap_nodes t) pods (snap_nodes t') ∧ pr' = provisioned_condition pr now ∧
    c' = combined_Add c (result_status ScaleUpSuccessful)) ∨
   (snap_nodes t' = snap_nodes t ∧ pr' = not_found_condition pr now ∧ c' = combined_Add c (result_status ScaleUpNoOptionsAvailable))).
Proof.
  intros [Hok Hn]. unfold checkCapacity, ProvReqScaleUp.try_pods. destruct (snap_fork t Hok) as (Hok1 & Hn1 & Hs1).
  pose proof (TrySchedulePods_places PodPriority Spec PodSpecSemanticallyEqual (λ _, None) hints (Fork t) pods true any_options Hok1) as Htry.
  rewrite Hn1 in Htry. specialize (Htry Hn). destruct (TrySchedulePods _ _ _ _ _ _ _ _ _) as [[t2 h2] r].
  destruct Htry as (Hok2 & Hs2 & sts & Hp & _ & Hres). rewrite Hs1 in Hs2.
  destruct (snap_revert t2 _ _ Hok2 Hs2) as (Hok3 & Hn3 & Hs3).
  assert (usable (Revert t2)) as Hu by (split; [done|by rewrite Hn3]).
  destruct r as [res|e]; [|split; [done|]; split; [done|]; by right].
  case_bool_decide as Hlen; [|split; [done|]; split; [done|]; by right].
  pose proof (snap_commit t2 Hok2) as Hc. destruct (Commit t2) as [t3 r3]. destruct Hc as (Hok4 & -> & Hn4 & Hs4).
  rewrite Hs2 in Hs4. destruct (Hres res eq_refl) as [Hsts Hperm].
  split; [split; [done|]; rewrite Hn4; by eapply places_unnamed|]. split; [done|]. left. split; [done|]. rewrite Hn4.
  split; [exists sts; split; [done|]; rewrite <- Hsts; by apply Hperm|done].
Qed.

(** What the loop over the requests does to the nodes and the requests: each
    request that fits is provisioned with its pods placed beside those of the
    ones before it; a request that does not fit is left without; the last
    ones may be left as they are when the time is up. *)
Inductive booked (now : Z) : bool → gmap string NI → list (PR * list Pod) → list (PR * bool) → gmap string NI → Prop :=
| booked_nil m : booked now false m [] [] m
| booked_fits any m m1 m2 pr pods reqs rest : fits m pods m1 → booked now any m1 reqs rest m2 →
    booked now true m ((pr, pods) :: reqs) ((provisioned_condition pr now, true) :: rest) m2
| booked_not any m m2 pr pods b reqs rest : booked now any m reqs rest m2 →
    booked now any m ((pr, pods) :: reqs) ((not_found_condition pr now, b) :: rest) m2
| booked_stop m reqs : booked now false m reqs ((λ req, (req.1, false)) <$> reqs) m.

(** The statuses added for the requests. *)
Definition plain (any : bool) (statuses : list ScaleUpStatus) : Prop :=
  Forall (λ s, s = result_status ScaleUpSuccessful ∨ s = result_status ScaleUpNoOptionsAvailable) statuses ∧
  (result_status ScaleUpSuccessful ∈ statuses ↔ any = true).

Lemma plain_cons_success any statuses : plain any statuses → plain true (result_status ScaleUpSuccessful :: statuses).
Proof. intros [H1 H2]. split; [constructor; [by left|done]|]. split; [done|]. intros _. by left. Qed.

Lemma plain_cons_none any statuses : plain any statuses → plain any (result_status ScaleUpNoOptionsAvailable :: statuses).
Proof.
  intros [H1 H2]. split; [constructor; [by right|done]|]. rewrite elem_of_cons. split; [intros [H|H]; [done|by apply H2]|].
  intros H. right. by apply H2.
Qed.

Lemma check_loop_spec cfg batch now reqs : ∀ looks t (hints : Hints) c, usable t →
  let '(t', _, processed, c') := check_loop PodPriority Spec PodSpecSemanticallyEqual cfg batch now looks t hints reqs c in
  usable t' ∧ snap_saved t' = snap_saved t ∧
  ∃ any statuses, booked now any (snap_nodes t) reqs processed (snap_nodes t') ∧ c' = foldl combined_Add c statuses ∧ plain any statuses.
Proof.
  induction reqs as [|[pr pods] reqs IH]; intros looks t hints c Hu; cbn [check_loop].
  { split; [done|]. split; [done|]. exists false, []. split; [constructor|]. split; [done|]. split; [constructor|]. split; [|done].
    intros H. by apply not_elem_of_nil in H. }
  pose proof (checkCapacity_spec now t hints pods pr c Hu) as Hone.
  destruct (checkCapacity _ _ _ now t hints pods pr c) as [[[[t1 h1] pr1] c1] err]. destruct Hone as (Hu1 & Hs1 & Hone).
  assert (∀ b looks', match check_loop PodPriority Spec PodSpecSemanticallyEqual cfg batch now looks' t1 h1 reqs c1 with
    | (t', _, rest, c') => (b = true ∨ err ≠ None) → usable t' ∧ snap_saved t' = snap_saved t ∧
      ∃ any statuses, booked now any (snap_nodes t) ((pr, pods) :: reqs) ((pr1, b) :: rest) (snap_nodes t') ∧
        c' = foldl combined_Add c statuses ∧ plain any statuses
    end) as Hnext.
  { intros b looks'. pose proof (IH looks' t1 h1 c1 Hu1) as H. destruct (check_loop _ _ _ _ _ _ _ _ _ _ _) as [[[t' h'] rest] c'].
    destruct H as (Hu' & Hs' & any & statuses & Hb & -> & Hpl). intros Hor. split; [done|]. split; [congruence|].
    destruct Hone as [(-> & Hf & -> & ->)|(Hn1 & -> & ->)].
    - destruct Hor as [->|Hor]; [|done]. exists true, (result_status ScaleUpSuccessful :: statuses).
      split; [by econstructor|]. split; [done|]. by eapply plain_cons_success.
    - rewrite Hn1 in Hb. exists any, (result_status ScaleUpNoOptionsAvailable :: statuses).
      split; [by constructor|]. split; [done|]. by apply plain_cons_none. }
  destruct err as [e|].
  { pose proof (Hnext false looks) as H. destruct (check_loop _ _ _ _ _ _ _ _ _ _ _) as [[[t' h'] rest] c']. apply H. by right. }
  destruct (batch && (batchTimebox cfg <? since cfg looks)).
  - split; [done|]. split; [done|]. assert (plain false []) as Hnil.
    { split; [constructor|]. split; [|done]. intros H. by apply not_elem_of_nil in H. }
    destruct Hone as [(_ & Hf & -> & ->)|(Hn1 & -> & ->)].
    + exists true, [result_status ScaleUpSuccessful]. split; [econstructor; [done|constructor]|]. split; [done|]. by eapply plain_cons_success.
    + exists false, [result_status ScaleUpNoOptionsAvailable]. rewrite Hn1. split; [constructor; constructor|]. split; [done|]. by apply plain_cons_none.
  - pose proof (Hnext true (if batch then Datatypes.S looks else looks)) as H.
    destruct (check_loop _ _ _ _ _ _ _ _ _ _ _) as [[[t' h'] rest] c']. apply H. by left.
Qed.

Abbreviation cstate := (class_state (W := W) (C := C) (T := T)).

Lemma update_loop reqs : ∀ w c, ∃ w' statuses, foldl update_request (w, c) reqs = (w', foldl combined_Add c statuses) ∧
  Forall (λ s, Orchestrator.Result s = ScaleUpError ∧ StatusError s ≠ None) statuses.
Proof.
  induction reqs as [|[pr b] reqs IH]; intros w c; simpl; [by exists w, []; split; [|constructor]|].
  destruct b; simpl; [|apply IH]. destruct (pr_UpdateStatus w pr) as [w1 [e|]]; [|apply IH].
  match goal with |- context [combined_Add c ?s] => destruct (IH w1 (combined_Add c s)) as (w' & statuses & -> & Hall); exists w', (s :: statuses) end.
  split; [done|]. by constructor.
Qed.

(** The result of a batch is a success exactly when some request fitted. *)
Lemma batch_result any statuses updates : plain any statuses →
  Forall (λ s, Orchestrator.Result s = ScaleUpError ∧ StatusError s ≠ None) updates →
  let c := foldl combined_Add NewCombinedStatusSet (statuses ++ updates) in
  error_recorded c ∧ (CombinedResult c = ScaleUpSuccessful ↔ any = true).
Proof.
  intros [Hp Hany] Hup. cbv zeta. split.
  - apply combined_recorded; [done|]. apply Forall_app. split; [|eapply Forall_impl; [exact Hup|]; by intros s [_ ?] _].
    eapply Forall_impl; [exact Hp|]. by intros s [->| ->].
  - destruct (combined_result (statuses ++ updates) NewCombinedStatusSet) as (_ & Hmax & Hfrom). split.
    + intros Hr. rewrite Hr in Hfrom. destruct Hfrom as [H|(s & [Hs|Hs]%elem_of_app & H)]; [done| |].
      * apply Hany. rewrite Forall_forall in Hp. by destruct (Hp s Hs) as [->| ->].
      * rewrite Forall_forall in Hup. destruct (Hup s Hs) as [H' _]. congruence.
    + intros Ht. apply Hany in Ht. assert (result_status ScaleUpSuccessful ∈ statuses ++ updates) as Hin by (apply elem_of_app; by left).
      specialize (Hmax _ Hin). simpl in Hmax. by destruct (CombinedResult _).
Qed.

Definition accepted_condition pr (now : Z) : PR := AddOrUpdateCondition pr Accepted ConditionTrue AcceptedReason AcceptedMsg now.

Abbreviation check_Provision := (check_Provision PodPriority Spec PodSpecSemanticallyEqual GetPodFromTemplate SetDefaults_Pod quote).

Lemma check_Provision_spec cfg (st : cstate) pods : usable (cl_snap st) →
  ∃ st' processed status err, check_Provision cfg st pods = Some (st', processed, (status, err)) ∧
    usable (cl_snap st') ∧ snap_nodes (cl_snap st') = snap_nodes (cl_snap st) ∧ snap_saved (cl_snap st') = snap_saved (cl_snap st) ∧
    (err = None ↔ Orchestrator.Result status ≠ ScaleUpError) ∧
    ((processed = [] ∧ Orchestrator.Result status ≠ ScaleUpSuccessful) ∨
     ∃ now any reqs m, booked now any (snap_nodes (cl_snap st)) ((λ req, (accepted_condition req.1 now, req.2)) <$> reqs) processed m ∧
       (Orchestrator.Result status = ScaleUpSuccessful ↔ any = true)).
Proof.
  intros [Hok Hn]. unfold ProvReqScaleUp.check_Provision. destruct (snap_fork (cl_snap st) Hok) as (Hok1 & Hn1 & Hs1).
  destruct (snap_revert _ _ _ Hok1 Hs1) as (Hok2 & Hn2 & Hs2).
  assert (usable (Revert (Fork (cl_snap st)))) as Hu2 by (split; [done|by rewrite Hn2]).
  destruct (getProvisioningRequestsAndPods _ _ cfg (cl_world st) (cl_injector st) pods) as [[w inj] [prs|err]].
  2: { do 4 eexists. split; [done|]. split; [done|]. do 2 (split; [done|]). split; [by split|]. by left. }
  destruct prs as [|req prs].
  { do 4 eexists. split; [done|]. split; [done|]. do 2 (split; [done|]). split; [by split|]. by left. }
  set (reqs := req :: prs). set (accepted := (λ req, (AddOrUpdateCondition req.1 Accepted ConditionTrue AcceptedReason AcceptedMsg (pr_Now w), req.2)) <$> reqs).
  assert (usable (Fork (cl_snap st))) as Hu1 by (split; [done|by rewrite Hn1]).
  pose proof (check_loop_spec cfg (isBatchEnabled cfg ((λ p, UpdateLastProcessTime p (pr_Now w)) <$> inj)) (pr_Now w) accepted 0
    (Fork (cl_snap st)) (cl_hints st) NewCombinedStatusSet Hu1) as Hloop.
  destruct (check_loop _ _ _ _ _ _ _ _ _ _ _) as [[[t3 h3] processed] c3].
  destruct Hloop as ([Hok3 _] & Hs3 & any & statuses & Hb & -> & Hpl). rewrite Hs1 in Hs3. rewrite Hn1 in Hb.
  unfold updateRequests. destruct (update_loop (completed cfg processed) w (foldl combined_Add NewCombinedStatusSet statuses)) as (w4 & ups & -> & Hup).
  rewrite <- foldl_app. destruct (batch_result any statuses ups Hpl Hup) as [Hrec Hres].
  destruct (combined_Export_spec quote _ Hrec) as (status & err & -> & Hr & Herr & _). simpl.
  destruct (snap_revert _ _ _ Hok3 Hs3) as (Hok5 & Hn5 & Hs5).
  do 4 eexists. split; [done|]. simpl. split; [split; [done|by rewrite Hn5]|]. split; [done|]. split; [done|].
  rewrite Hr. split; [done|]. right. by exists (pr_Now w), any, reqs, (snap_nodes t3).
Qed.


(** ** All or nothing *)

Context (ScaleUp : W → T → list Pod → W * T * (ScaleUpStatus * option AutoscalerError)) (error_text_of : try_error → string).

(** The ordinary orchestrator leaves the forks of the snapshot alone. *)
Definition keeps_forks : Prop := ∀ w t pods, snap_ok t →
  snap_ok (ScaleUp w t pods).1.2 ∧ snap_saved (ScaleUp w t pods).1.2 = snap_saved t.

Abbreviation atomic_Provision := (atomic_Provision PodPriority Spec PodSpecSemanticallyEqual ScaleUp error_text_of).

Lemma try_pods_forks t (hints : Hints) pods brk : usable t →
  let '(t', _, r) := try_pods t hints pods brk in usable t' ∧ snap_saved t' = snap_saved t.
Proof.
  intros [Hok Hn]. unfold ProvReqScaleUp.try_pods.
  pose proof (TrySchedulePods_places PodPriority Spec PodSpecSemanticallyEqual (λ _, None) hints t pods brk any_options Hok Hn) as Htry.
  destruct (TrySchedulePods _ _ _ _ _ _ _ _ _) as [[t2 h2] r]. destruct Htry as (Hok2 & Hs2 & sts & Hp & _).
  split; [split; [done|by eapply places_unnamed]|done].
Qed.

Lemma provision_atomically_forks w t (hints : Hints) pr pods : keeps_forks → usable t →
  let '(_, t', _, _) := provision_atomically PodPriority Spec PodSpecSemanticallyEqual ScaleUp error_text_of w t hints pr pods in
  snap_ok t' ∧ snap_saved t' = snap_saved t.
Proof.
  intros Hk Hu. unfold provision_atomically, filterOutSchedulable. pose proof (try_pods_forks t hints pods false Hu) as Htry.
  destruct (try_pods t hints pods false) as [[t2 h2] [res|e]]; destruct Htry as [[Hok2 _] Hs2]; [|done].
  destruct (foldl _ [] pods) as [|pod rest]; [by destruct (pr_ApplyCondition _ _ _ _) as [? [?|]]|].
  destruct (Hk w t2 (pod :: rest) Hok2) as [Hok3 Hs3]. destruct (ScaleUp w t2 (pod :: rest)) as [[w3 t3] [status [e|]]]; simpl in *.
  - split; [done|congruence].
  - case_bool_decide; [destruct (pr_ApplyCondition _ _ _ _) as [? [?|]]|]; split; try done; congruence.
Qed.

(** Both classes, and the orchestrator over any classes that do, leave the
    snapshot of the loop as they found it, whatever the simulation, the
    ordinary orchestrator and the API server answer. *)
Theorem provisioning_keeps_snapshot cfg (st : cstate) pods : keeps_forks → usable (cl_snap st) →
  let same (st' : cstate) := snap_ok (cl_snap st') ∧ snap_nodes (cl_snap st') = snap_nodes (cl_snap st) ∧ snap_saved (cl_snap st') = snap_saved (cl_snap st) in
  same (atomic_Provision st pods).1 ∧
  ∃ st' answer, provreq_ScaleUp true st
    [check_class PodPriority Spec PodSpecSemanticallyEqual GetPodFromTemplate SetDefaults_Pod quote cfg;
     atomic_class PodPriority Spec PodSpecSemanticallyEqual ScaleUp error_text_of] pods = Some (st', answer) ∧ same st'.
Proof.
  intros Hk Hu same. assert (∀ st : cstate, usable (cl_snap st) → snap_ok (cl_snap (atomic_Provision st pods).1) ∧
    snap_nodes (cl_snap (atomic_Provision st pods).1) = snap_nodes (cl_snap st) ∧
    snap_saved (cl_snap (atomic_Provision st pods).1) = snap_saved (cl_snap st)) as Hatomic.
  { clear st same Hu. intros st [Hok Hn]. unfold ProvReqScaleUp.atomic_Provision. destruct pods as [|pod pods']; [done|].
    destruct (FilterOutProvisioningClass _ _ _) as [|pr prs]; [done|]. destruct (snap_fork _ Hok) as (Hok1 & Hn1 & Hs1).
    pose proof (provision_atomically_forks (cl_world st) (Fork (cl_snap st)) (cl_hints st) pr (pod :: pods') Hk) as Hp.
    destruct (provision_atomically _ _ _ _ _ _ _ _ _ _) as [[[w2 t2] h2] answer].
    destruct Hp as [Hok2 Hs2]; [split; [done|by rewrite Hn1]|]. rewrite Hs1 in Hs2. by apply snap_revert. }
  split; [by apply Hatomic|]. unfold provreq_ScaleUp. simpl.
  destruct Hu as [Hok Hn]. destruct (snap_fork _ Hok) as (Hok1 & Hn1 & Hs1).
  set (st1 := mkClassState (cl_world st) (Fork (cl_snap st)) (cl_hints st) (cl_injector st)).
  assert (usable (cl_snap st1)) as Hu1 by (split; [done|by simpl; rewrite Hn1]).
  destruct (check_Provision_spec cfg st1 pods Hu1) as (st2 & processed & status & err & Hc & [Hok2 _] & Hn2 & Hs2 & _).
  unfold check_class. rewrite Hc. simpl. simpl in Hn2, Hs2. rewrite Hs1 in Hs2.
  destruct (bool_decide (err = None) && bool_decide (Orchestrator.Result status = ScaleUpNotTried)).
  - assert (usable (cl_snap st2)) as Hu2 by (split; [done|by rewrite Hn2, Hn1]).
    destruct (Hatomic st2 Hu2) as (Hok3 & Hn3 & Hs3). unfold atomic_class. simpl.
    destruct (atomic_Provision st2 pods) as [st3 [status3 err3]]. simpl in *. rewrite Hs2 in Hs3.
    destruct (snap_revert _ _ _ Hok3 Hs3) as (H1 & H2 & H3).
    destruct (bool_decide (err3 = None) && _); do 2 eexists; (split; [done|by split_and!]).
  - destruct (snap_revert _ _ _ Hok2 Hs2) as (H1 & H2 & H3). do 2 eexists. split; [done|by split_and!].
Qed.
End classes.

(** ** Alternating with ordinary pods *)

Section wrapper.
Context `{PA : !ProvReqApi} {X A : Type} (provReqOrchestrator podsOrchestrator : X → list Pod → X * A).

Definition consumes (pod : Pod) : Prop := is_Some (PodAnnotations pod !! ProvisioningRequestPodAnnotationKey).
#[export] Instance consumes_dec pod : Decision (consumes pod).
Proof. unfold consumes. apply _. Defined.

Lemma splitOut_spec pods : splitOut pods = (filter consumes pods, filter (λ pod, ¬ consumes pod) pods).
Proof.
  unfold splitOut. assert (∀ l p r, foldl (λ acc pod, match PodAnnotations pod !! ProvisioningRequestPodAnnotationKey with
      | Some _ => (acc.1 ++ [pod], acc.2) | None => (acc.1, acc.2 ++ [pod]) end) (p, r) l =
    (p ++ filter consumes l, r ++ filter (λ pod, ¬ consumes pod) l)) as H.
  { induction l as [|pod l IH]; intros p r; simpl; [by rewrite !app_nil_r|]. rewrite !filter_cons.
    destruct (decide (consumes pod)) as [[x Hx]|Hc].
    - rewrite Hx, IH, decide_False by (intros H; apply H; by eexists). by rewrite <- app_assoc.
    - assert (PodAnnotations pod !! ProvisioningRequestPodAnnotationKey = None) as -> by (by apply eq_None_not_Some).
      rewrite IH, decide_True by done. by rewrite <- app_assoc. }
  apply (H pods [] []).
Qed.

(** Each call serves the pods of one kind, all of them in their order and
    none of the other kind: the kind that is there if only one is, and with
    both kinds in two calls in a row each kind is served once, so neither kind
    of pods waits for the other longer than one loop. *)
Theorem wrapper_alternates (mode : bool) x pods :
  let '(mode', out) := wrapper_ScaleUp provReqOrchestrator podsOrchestrator mode x pods in
  ((mode' = false ∧ out = provReqOrchestrator x (filter consumes pods)) ∨
   (mode' = true ∧ out = podsOrchestrator x (filter (λ pod, ¬ consumes pod) pods))) ∧
  (filter consumes pods = [] → mode' = true) ∧
  (filter consumes pods ≠ [] → filter (λ pod, ¬ consumes pod) pods = [] → mode' = false) ∧
  ∀ x' pods', filter consumes pods' ≠ [] → filter (λ pod, ¬ consumes pod) pods' ≠ [] →
    (wrapper_ScaleUp provReqOrchestrator podsOrchestrator mode' x' pods').1 = negb mode'.
Proof.
  unfold wrapper_ScaleUp. rewrite splitOut_spec. set (P := filter consumes pods). set (R := filter (λ pod, ¬ consumes pod) pods).
  split; [destruct (chosen_mode mode P R); [by left|by right]|]. split; [by intros ->|].
  split; [intros HP HR; by destruct P, R|]. intros x' pods' HP' HR'. rewrite splitOut_spec.
  by destruct (filter consumes pods'), (filter (λ pod, ¬ consumes pod) pods').
Qed.
End wrapper.

(** Two requests of three pods each, and a node that holds four pods. *)
Module CapacityExample.
Import ProvReqProofs.ProvReqExample.
#[local] Instance kl : KubeLib := demo_kubelib.
#[local] Instance cs : ClusterSnapshot demo_sched unit unit (SnapshotSpec.spec_state demo_sched unit unit) :=
  ref_snapshot (λ ni _, (length (GetPods ni) <? 4)%nat).
Abbreviation T := (SnapshotSpec.spec_state demo_sched unit unit).
Abbreviation state := (class_state (W := server) (C := gmap string Z) (T := T)).

Definition cluster : T := SnapshotSpec.mkSpec {["n1"%string := mkNodeInfo (named_node "n1", []) [] None]} [].
Definition config : check_config (Template := Pod) := mkCheckConfig 10 (10 * pr_minute) "" (λ _, 0) id.
Definition begin (refuses : bool) : state :=
  mkClassState (mkServer (8 * day) [request "a" 0 []; request "b" 0 []] refuses 0) cluster NewHints (Some injector_).

Definition check (refuses : bool) :=
  check_Provision (λ _, 0) (λ p, p) (λ _ _, false) from_template id (λ s, s) config (begin refuses) [].

Definition short (c : Condition) : string * bool := (CondType c, bool_decide (CondStatus c = ConditionTrue)).
Example one_of_two_fits : match check false with
  | Some (st', processed, (status, err)) =>
      Orchestrator.Result status = ScaleUpSuccessful ∧ err = None ∧
      (λ req, short <$> StatusConditions_ req.1) <$> processed =
        [[("Accepted", true); ("Provisioned", true)]; [("Accepted", true); ("Provisioned", false)]]%string
  | None => False
  end.
Proof. vm_compute. by split_and!. Qed.

(** Refused updates do not change the result: it is the one of highest priority. *)
Example refused_updates_succeed : match check true with
  | Some (st', processed, (status, err)) => Orchestrator.Result status = ScaleUpSuccessful ∧ err = None ∧ StatusError status ≠ None
  | None => False
  end.
Proof. vm_compute. by split_and!. Qed.

Lemma begin_usable refuses : usable (cl_snap (begin refuses)).
Proof.
  split; [|done]. split; [|constructor]. intros k ni H. simpl in H. apply lookup_singleton_Some in H as [<- <-]. done.
Qed.


Lemma combined_status_exact_witness : ∃ status err,
  combined_Export (λ s, s) (foldl combined_Add NewCombinedStatusSet [result_status ScaleUpNoOptionsAvailable; (failing (internal_error "x")).1])
    = Some (status, err) ∧ err ≠ None.
Proof.
  destruct (combined_status_exact (λ s, s) [result_status ScaleUpNoOptionsAvailable; (failing (internal_error "x")).1])
    as (status & err & H & Hmax & _ & Herr).
  - by repeat constructor.
  - exists status, err. split; [done|]. intros ->. apply Herr; [done|].
    apply (f_equal (λ r, match r with Some (s, _) => Orchestrator.Result s | None => ScaleUpNotTried end)) in H.
    rewrite <- H. vm_compute. reflexivity.
Defined.

(** An orchestrator that never scales up. *)
Definition never_scale_up (w : server) (t : T) (pods : list Pod) : server * T * (ScaleUpStatus * option AutoscalerError) :=
  (w, t, (result_status ScaleUpNoOptionsAvailable, None)).

Lemma provisioning_keeps_snapshot_witness : ∃ st' answer,
  provreq_ScaleUp true (begin false)
    [check_class (λ _, 0) (λ p, p) (λ _ _, false) from_template id (λ s, s) config;
     atomic_class (λ _, 0) (λ p, p) (λ _ _, false) never_scale_up (λ _, ""%string)] [] = Some (st', answer) ∧
  snap_nodes (cl_snap st') = snap_nodes cluster.
Proof.
  destruct (provisioning_keeps_snapshot (λ _, 0) (λ p, p) (λ _ _, false) from_template id (λ s, s) never_scale_up (λ _, ""%string) config
    (begin false) []) as (_ & st' & answer & H & _ & Hn & _).
  - intros w t pods Ht. by split.
  - apply begin_usable.
  - exists st', answer. split; [exact H|exact Hn].
Defined.
End CapacityExample.
