(* ===== verification/Similar.v ===== *)
(** Which node groups are similar (src/pkg/processors/nodegroupset): the
    comparators of node infos by capacity, allocatable and free resources
    within floating-point tolerances and by labels, with the variants of the
    cloud providers, and the resource list of a scheduler resource
    (src/pkg/utils/scheduler/scheduler.go). Quantities are third-party code. *)
From stdpp Require Import prelude gmap strings list numbers fin_maps.
From S2P Require Import Prelude Float64 Api Drain Framework Utilization Balancing.
Local Open Scope Z_scope.

(** ** [math.Max] and [math.Min] *)

Definition is_inf (positive : bool) (a : float64) : bool :=
  match a with SpecFloat.S754_infinity s => bool_decide (s = negb positive) | _ => false end.
Definition signbit (a : float64) : bool :=
  match a with
  | SpecFloat.S754_zero s | SpecFloat.S754_infinity s | SpecFloat.S754_finite s _ _ => s
  | SpecFloat.S754_nan => false
  end.

Definition fmax (x y : float64) : float64 :=
  if is_inf true x || is_inf true y then SpecFloat.S754_infinity false
  else if is_nan x || is_nan y then SpecFloat.S754_nan
  else if feqb x fzero && feqb x y then (if signbit x then y else x)
  else if fltb y x then x else y.

Definition fmin (x y : float64) : float64 :=
  if is_inf false x || is_inf false y then SpecFloat.S754_infinity true
  else if is_nan x || is_nan y then SpecFloat.S754_nan
  else if feqb x fzero && feqb x y then (if signbit x then x else y)
  else if fltb x y then x else y.

(** ** Resource lists *)

Inductive QtyFormat : Type := DecimalSI | BinarySI.

(** The rest of [resource.Quantity] the comparison uses; comparing two
    quantities the other way round tells the same about their being equal. *)
Class QuantityCompare `{QuantityLib} : Type := {
  NewMilliQuantity : Z → QtyFormat → Quantity;
  NewQuantity : Z → QtyFormat → Quantity;
  qty_sub : Quantity → Quantity → Quantity;
  qty_cmp : Quantity → Quantity → Z;
  qty_cmp_swap : ∀ a b, qty_cmp b a = 0 ↔ qty_cmp a b = 0
}.

(** The scheduler's [Resource]. *)
Record Resource : Type := mkResource {
  MilliCPU : Z;
  Memory : Z;
  AllowedPodNumber : Z;
  EphemeralStorage : Z;
  ScalarResources : gmap string Z
}.

Definition isHugePageResourceName (name : string) : bool := String.prefix "hugepages-" name.

Definition ResourceToResourceList `{GR : GoRange} `{QuantityCompare} (r : Resource) : gmap string Quantity :=
  foldl (λ result rName_rQuant,
      if isHugePageResourceName rName_rQuant.1
      then <[rName_rQuant.1 := NewQuantity rName_rQuant.2 BinarySI]> result
      else <[rName_rQuant.1 := NewQuantity rName_rQuant.2 DecimalSI]> result)
    {[ResourceCPU := NewMilliQuantity (MilliCPU r) DecimalSI;
      ResourceMemory := NewQuantity (Memory r) BinarySI;
      "pods"%string := NewQuantity (AllowedPodNumber r) BinarySI;
      "ephemeral-storage"%string := NewQuantity (EphemeralStorage r) BinarySI]}
    (go_range (ScalarResources r)).

(** ** The comparison *)

(** [config.NodeGroupDifferenceRatios]. *)
Record NodeGroupDifferenceRatios : Type := mkRatios {
  MaxAllocatableDifferenceRatio : float64;
  MaxFreeDifferenceRatio : float64;
  MaxCapacityMemoryDifferenceRatio : float64
}.

(** The values of one map: [m[k] = append(m[k], v)] for every entry of [l]. *)
Definition append_entries {V} (m : gmap string (list V)) (l : list (string * V)) : gmap string (list V) :=
  foldl (λ m kv, <[kv.1 := default [] (m !! kv.1) ++ [kv.2]]> m) m l.

Definition BasicIgnoredLabels : gmap string bool :=
  {["kubernetes.io/hostname"%string := true;
    "failure-domain.beta.kubernetes.io/zone"%string := true;
    "failure-domain.beta.kubernetes.io/region"%string := true;
    "topology.kubernetes.io/zone"%string := true;
    "topology.kubernetes.io/region"%string := true;
    "beta.kubernetes.io/fluentd-ds-ready"%string := true;
    "kops.k8s.io/instancegroup"%string := true]}.

Section compare.
Context `{GR : GoRange} `{QC : QuantityCompare} {S Slice CSI : Type} `{SchedNodeInfo S}.
Abbreviation NI := (NodeInfo S Slice CSI).
(** The resources of a node's status, and [GetRequested]. *)
Context (StatusCapacity StatusAllocatable : Node → gmap string Quantity) (GetRequested : NI → Resource).
Implicit Types (n node : NI) (ratioOpts : NodeGroupDifferenceRatios) (ignoredLabels : gmap string bool).

Definition resourceListWithinTolerance (qtyList : list Quantity) (maxDifferenceRatio : float64) : bool :=
  match qtyList with
  | [q0; q1] =>
      let larger := fmax (of_int (MilliValue q0)) (of_int (MilliValue q1)) in
      let smaller := fmin (of_int (MilliValue q0)) (of_int (MilliValue q1)) in
      fleb (fsub larger smaller) (fmul larger maxDifferenceRatio)
  | _ => false
  end.

Definition resourceMapsWithinTolerance (resources : gmap string (list Quantity))
    (maxDifferenceRatio : float64) : bool :=
  forallb (λ kq, resourceListWithinTolerance kq.2 maxDifferenceRatio) (go_range resources).

Definition compareLabels (nodes : list NI) ignoredLabels : bool :=
  let labels := foldl (λ labels node,
      append_entries labels
        (filter (λ kv, default false (ignoredLabels !! kv.1) = false) (go_range (Labels (ni_Node node)))))
    ∅ nodes in
  forallb (λ kv, match kv.2 with [v0; v1] => bool_decide (v0 = v1) | _ => false end) (go_range labels).

(** What is free of the resources requested on a node; a resource missing from
    the allocatable ones is the zero quantity. *)
Definition free_resources node : list (string * Quantity) :=
  (λ rq : string * Quantity,
     (rq.1, qty_sub (default qty_zero (StatusAllocatable (ni_Node node) !! rq.1)) rq.2)) <$>
    go_range (ResourceToResourceList (GetRequested node)).

(** The test of one kind of the capacity. *)
Definition capacity_similar ratioOpts (kind : string) (qtyList : list Quantity) : bool :=
  match qtyList with
  | [q0; q1] =>
      if bool_decide (kind = ResourceMemory)
      then resourceListWithinTolerance qtyList (MaxCapacityMemoryDifferenceRatio ratioOpts)
      else qty_cmp q0 q1 =? 0
  | _ => false
  end.

Definition IsCloudProviderNodeInfoSimilar n1 n2 ignoredLabels ratioOpts : bool :=
  let nodes := [n1; n2] in
  let capacity := foldl (λ m node, append_entries m (go_range (StatusCapacity (ni_Node node)))) ∅ nodes in
  let allocatable := foldl (λ m node, append_entries m (go_range (StatusAllocatable (ni_Node node)))) ∅ nodes in
  let free := foldl (λ m node, append_entries m (free_resources node)) ∅ nodes in
  if negb (forallb (λ kq, capacity_similar ratioOpts kq.1 kq.2) (go_range capacity)) then false
  else if negb (resourceMapsWithinTolerance allocatable (MaxAllocatableDifferenceRatio ratioOpts)) then false
  else if negb (resourceMapsWithinTolerance free (MaxFreeDifferenceRatio ratioOpts)) then false
  else compareLabels nodes ignoredLabels.

(** ** The comparators *)

(** [for k, v := range src { dst[k] = v }] and [for _, k := range l { dst[k] = true }]. *)
Definition copy_labels (dst src : gmap string bool) : gmap string bool :=
  foldl (λ m kv, <[kv.1 := kv.2]> m) dst (go_range src).
Definition ignore_labels (dst : gmap string bool) (l : list string) : gmap string bool :=
  foldl (λ m k, <[k := true]> m) dst l.

Definition CreateGenericNodeInfoComparator (extraIgnoredLabels : list string) ratioOpts : NI → NI → bool :=
  λ n1 n2, IsCloudProviderNodeInfoSimilar n1 n2
    (ignore_labels (copy_labels ∅ BasicIgnoredLabels) extraIgnoredLabels) ratioOpts.

Definition gceIgnoredLabels : gmap string bool := {["topology.gke.io/zone"%string := true]}.

Definition CreateGceNodeInfoComparator (extraIgnoredLabels : list string) ratioOpts : NI → NI → bool :=
  λ n1 n2, IsCloudProviderNodeInfoSimilar n1 n2
    (ignore_labels (copy_labels gceIgnoredLabels BasicIgnoredLabels) extraIgnoredLabels) ratioOpts.

Definition awsIgnoredLabels : gmap string bool :=
  {["alpha.eksctl.io/instance-id"%string := true;
    "alpha.eksctl.io/nodegroup-name"%string := true;
    "eks.amazonaws.com/nodegroup"%string := true;
    "k8s.amazonaws.com/eniConfig"%string := true;
    "lifecycle"%string := true;
    "topology.ebs.csi.aws.com/zone"%string := true;
    "topology.k8s.aws/zone-id"%string := true]}.

Definition CreateAwsNodeInfoComparator (extraIgnoredLabels : list string) ratioOpts : NI → NI → bool :=
  λ n1 n2, IsCloudProviderNodeInfoSimilar n1 n2
    (ignore_labels (copy_labels awsIgnoredLabels BasicIgnoredLabels) extraIgnoredLabels) ratioOpts.

Definition AzureNodepoolLegacyLabel : string := "agentpool".
Definition AzureNodepoolLabel : string := "kubernetes.azure.com/agentpool".
Definition azure_ignored : list string :=
  [AzureNodepoolLegacyLabel; AzureNodepoolLabel; "topology.disk.csi.azure.com/zone"%string;
   "aksEngineVersion"%string; "creationSource"%string; "poolName"%string; "resourceNameSuffix"%string;
   "kubernetes.azure.com/node-image-version"%string;
   "kubernetes.azure.com/consolidated-additional-properties"%string].

(** The value of a label; a missing one reads as the empty string. *)
Definition label_of node (label : string) : string := default ""%string (Labels (ni_Node node) !! label).

Definition nodesFromSameAzureNodePoolLegacy n1 n2 : bool :=
  let n1AzureNodePool := label_of n1 AzureNodepoolLegacyLabel in
  let n2AzureNodePool := label_of n2 AzureNodepoolLegacyLabel in
  negb (bool_decide (n1AzureNodePool = ""%string)) && bool_decide (n1AzureNodePool = n2AzureNodePool).

Definition nodesFromSameAzureNodePool n1 n2 : bool :=
  let n1AzureNodePool := label_of n1 AzureNodepoolLabel in
  let n2AzureNodePool := label_of n2 AzureNodepoolLabel in
  (negb (bool_decide (n1AzureNodePool = ""%string)) && bool_decide (n1AzureNodePool = n2AzureNodePool))
  || nodesFromSameAzureNodePoolLegacy n1 n2.

Definition CreateAzureNodeInfoComparator (extraIgnoredLabels : list string) ratioOpts : NI → NI → bool :=
  λ n1 n2,
    if nodesFromSameAzureNodePool n1 n2 then true
    else IsCloudProviderNodeInfoSimilar n1 n2
      (ignore_labels (ignore_labels (copy_labels ∅ BasicIgnoredLabels) azure_ignored) extraIgnoredLabels) ratioOpts.

(** The loop over the labels returns at the first that differs. *)
Definition areLabelsSame n1 n2 (labels : list string) : bool :=
  forallb (λ label,
    match Labels (ni_Node n1) !! label, Labels (ni_Node n2) !! label with
    | Some val1, Some val2 => bool_decide (val1 = val2)
    | _, _ => false
    end) labels.

Definition CreateLabelNodeInfoComparator (labels : list string) : NI → NI → bool :=
  λ n1 n2, areLabelsSame n1 n2 labels.

(** ** What the comparison means *)

(** Two maps have the same keys, with related values. *)
Definition agree {A} (R : string → A → A → Prop) (f g : gmap string A) : Prop :=
  ∀ k, match f !! k, g !! k with
       | Some a, Some b => R k a b
       | None, None => True
       | _, _ => False
       end.

(** The same entries in some order. *)
Definition entries {A} (f : gmap string A) (l : list (string * A)) : Prop :=
  NoDup l.*1 ∧ ∀ k, (list_to_map l : gmap string A) !! k = f !! k.

Lemma agree_sym {A} (R : string → A → A → Prop) (f g : gmap string A) :
  (∀ k a b, R k a b → R k b a) → agree R f g → agree R g f.
Proof. intros HR Hfg k. specialize (Hfg k). destruct (f !! k), (g !! k); eauto. Qed.

Lemma entries_go_range {A} (f : gmap string A) : entries f (go_range f).
Proof. split; [apply NoDup_go_range_fst|]. intros k. by rewrite list_to_map_go_range. Qed.

Lemma lookup_append_entries {V} (m f : gmap string (list V)) (g : gmap string V) l k :
  entries g l →
  append_entries m l !! k =
  match g !! k with Some v => Some (default [] (m !! k) ++ [v]) | None => m !! k end.
Proof.
  intros [Hnd Hl]. unfold append_entries.
  rewrite (foldl_ext' _ (λ m kv, partial_alter (λ o, Some (default [] o ++ [kv.2])) kv.1 m) l m m);
    [|intros s kv; apply map_eq; intros i; rewrite lookup_partial_alter, lookup_insert; case_decide; by subst|done].
  rewrite (lookup_foldl_partial_alter (λ _ v o, Some (default [] o ++ [v]))) by done. by rewrite Hl.
Qed.

(** The test of the values gathered from two maps, when it rejects all but
    pairs. *)
Lemma gathered_agree {A} (P : string → list A → bool) (f g : gmap string A) lf lg :
  (∀ k a, P k [a] = false) → entries f lf → entries g lg →
  forallb (λ kq, P kq.1 kq.2) (go_range (append_entries (append_entries ∅ lf) lg)) = true ↔
  agree (λ k a b, P k [a; b] = true) f g.
Proof.
  intros HP Hf Hg.
  assert (∀ k, append_entries (append_entries ∅ lf) lg !! k =
    match f !! k, g !! k with
    | Some a, Some b => Some [a; b] | Some a, None => Some [a] | None, Some b => Some [b] | None, None => None
    end) as Hk.
  { intros k. rewrite (lookup_append_entries _ ∅ g), (lookup_append_entries _ ∅ f) by done.
    rewrite lookup_empty. by destruct (f !! k), (g !! k). }
  rewrite forallb_forall. split.
  - intros Hall k. specialize (Hk k).
    destruct (f !! k) as [a|], (g !! k) as [b|]; [|..|done];
      apply elem_of_go_range, list_elem_of_In, Hall in Hk; simpl in Hk; congruence.
  - intros Hag [k q] Hin%list_elem_of_In%elem_of_go_range. specialize (Hag k). rewrite Hk in Hin. simpl.
    destruct (f !! k), (g !! k); by simplify_eq.
Qed.

Lemma fmax_comm x y : fmax x y = fmax y x.
Proof.
  unfold fmax. rewrite (orb_comm (is_inf true y)), (orb_comm (is_nan y)).
  destruct (is_inf true x || is_inf true y) eqn:?; [done|].
  destruct (is_nan x || is_nan y) eqn:Hn; [done|].
  apply orb_false_iff in Hn as [Hx Hy].
  destruct x as [[]|[]| |[] m e], y as [[]|[]| |[] m' e']; try done; cbn;
    rewrite (Z.compare_antisym e e'); destruct (Z.compare_spec e e'); simpl; try done;
    subst; rewrite !Pos.compare_cont_spec; simpl; rewrite (Pos.compare_antisym m m');
    destruct (Pos.compare_spec m m'); simpl; by subst.
Qed.

Lemma fmin_comm x y : fmin x y = fmin y x.
Proof.
  unfold fmin. rewrite (orb_comm (is_inf false y)), (orb_comm (is_nan y)).
  destruct (is_inf false x || is_inf false y) eqn:?; [done|].
  destruct (is_nan x || is_nan y) eqn:Hn; [done|].
  apply orb_false_iff in Hn as [Hx Hy].
  destruct x as [[]|[]| |[] m e], y as [[]|[]| |[] m' e']; try done; cbn;
    rewrite (Z.compare_antisym e e'); destruct (Z.compare_spec e e'); simpl; try done;
    subst; rewrite !Pos.compare_cont_spec; simpl; rewrite (Pos.compare_antisym m m');
    destruct (Pos.compare_spec m m'); simpl; by subst.
Qed.

Lemma within_comm (a b : Quantity) r :
  resourceListWithinTolerance [a; b] r = resourceListWithinTolerance [b; a] r.
Proof.
  unfold resourceListWithinTolerance.
  by rewrite (fmax_comm (of_int (MilliValue a))), (fmin_comm (of_int (MilliValue a))).
Qed.

Lemma capacity_similar_comm ratioOpts k (a b : Quantity) :
  capacity_similar ratioOpts k [a; b] = true → capacity_similar ratioOpts k [b; a] = true.
Proof.
  unfold capacity_similar. case_bool_decide; [by rewrite within_comm|].
  rewrite !Z.eqb_eq. apply qty_cmp_swap.
Qed.

(** What is free of each requested resource, as a map. *)
Definition free_of node : gmap string Quantity :=
  map_imap (λ r q, Some (qty_sub (default qty_zero (StatusAllocatable (ni_Node node) !! r)) q))
    (ResourceToResourceList (GetRequested node)).

(** The labels of a node that are compared. *)
Definition compared_labels ignoredLabels node : gmap string string :=
  filter (λ kv, default false (ignoredLabels !! kv.1) = false) (Labels (ni_Node node)).

Lemma entries_free node : entries (free_of node) (free_resources node).
Proof.
  unfold free_of, free_resources. set (m := ResourceToResourceList _). split.
  - rewrite <- list_fmap_compose. apply NoDup_go_range_fst.
  - intros k. rewrite map_lookup_imap.
    rewrite <- (list_to_map_go_range m) at 2.
    induction (go_range m) as [|[r q] l IH]; [done|]. csimpl.
    rewrite !lookup_insert. case_decide; [by subst|done].
Qed.

Lemma entries_labels ignoredLabels node :
  entries (compared_labels ignoredLabels node)
    (filter (λ kv, default false (ignoredLabels !! kv.1) = false) (go_range (Labels (ni_Node node)))).
Proof.
  split.
  - eapply sublist_NoDup; [apply (NoDup_go_range_fst (Labels (ni_Node node)))|apply fmap_sublist, sublist_filter].
  - intros k. apply option_eq. intros v. rewrite <- elem_of_list_to_map.
    + rewrite list_elem_of_filter, elem_of_go_range. unfold compared_labels.
      rewrite map_lookup_filter_Some. apply and_comm.
    + eapply sublist_NoDup; [apply (NoDup_go_range_fst (Labels (ni_Node node)))|apply fmap_sublist, sublist_filter].
Qed.

(** The nodes that the comparison takes for similar. *)
Definition similar ignoredLabels ratioOpts n1 n2 : Prop :=
  agree (λ kind a b, capacity_similar ratioOpts kind [a; b] = true)
    (StatusCapacity (ni_Node n1)) (StatusCapacity (ni_Node n2)) ∧
  agree (λ _ a b, resourceListWithinTolerance [a; b] (MaxAllocatableDifferenceRatio ratioOpts) = true)
    (StatusAllocatable (ni_Node n1)) (StatusAllocatable (ni_Node n2)) ∧
  agree (λ _ a b, resourceListWithinTolerance [a; b] (MaxFreeDifferenceRatio ratioOpts) = true)
    (free_of n1) (free_of n2) ∧
  compared_labels ignoredLabels n1 = compared_labels ignoredLabels n2.

Lemma agree_eq {A} (f g : gmap string A) : agree (λ _ a b, a = b) f g ↔ f = g.
Proof.
  split.
  - intros Hfg. apply map_eq. intros k. specialize (Hfg k). destruct (f !! k), (g !! k); by subst.
  - intros -> k. by destruct (g !! k).
Qed.

Lemma IsCloudProviderNodeInfoSimilar_spec n1 n2 ignoredLabels ratioOpts :
  IsCloudProviderNodeInfoSimilar n1 n2 ignoredLabels ratioOpts = true ↔
  similar ignoredLabels ratioOpts n1 n2.
Proof.
  unfold IsCloudProviderNodeInfoSimilar, similar, resourceMapsWithinTolerance, compareLabels. simpl.
  rewrite <- (gathered_agree (capacity_similar ratioOpts) _ _ _ _ (λ k a, eq_refl)
    (entries_go_range (StatusCapacity (ni_Node n1))) (entries_go_range (StatusCapacity (ni_Node n2)))).
  rewrite <- (gathered_agree (λ _ l, resourceListWithinTolerance l (MaxAllocatableDifferenceRatio ratioOpts))
    _ _ _ _ (λ k a, eq_refl) (entries_go_range (StatusAllocatable (ni_Node n1)))
    (entries_go_range (StatusAllocatable (ni_Node n2)))).
  rewrite <- (gathered_agree (λ _ l, resourceListWithinTolerance l (MaxFreeDifferenceRatio ratioOpts))
    _ _ _ _ (λ k a, eq_refl) (entries_free n1) (entries_free n2)).
  rewrite <- (agree_eq (compared_labels ignoredLabels n1)).
  pose proof (gathered_agree (λ _ l, match l with [v0; v1] => bool_decide (v0 = v1) | _ => false end)
    _ _ _ _ (λ k a, eq_refl) (entries_labels ignoredLabels n1) (entries_labels ignoredLabels n2)) as Hl.
  match goal with |- _ ↔ _ ∧ _ ∧ _ ∧ ?P => assert (P ↔ agree (λ _ v0 v1, bool_decide (v0 = v1) = true)
    (compared_labels ignoredLabels n1) (compared_labels ignoredLabels n2)) as -> end.
  { unfold agree. apply forall_proper. intros k.
    destruct (_ !! k), (_ !! k); try done. by rewrite bool_decide_eq_true. }
  rewrite <- Hl. clear Hl.
  destruct (forallb _ _); simpl; [|naive_solver].
  destruct (forallb _ _); simpl; [|naive_solver].
  destruct (forallb _ _); simpl; naive_solver.
Qed.

Lemma similar_sym ignoredLabels ratioOpts n1 n2 :
  similar ignoredLabels ratioOpts n1 n2 → similar ignoredLabels ratioOpts n2 n1.
Proof.
  intros (Hc & Ha & Hf & Hl). split_and!; [..|done].
  - eapply agree_sym; [|done]. intros. by apply capacity_similar_comm.
  - eapply agree_sym; [|done]. intros k a b. by rewrite within_comm.
  - eapply agree_sym; [|done]. intros k a b. by rewrite within_comm.
Qed.

Lemma IsCloudProviderNodeInfoSimilar_comm n1 n2 ignoredLabels ratioOpts :
  IsCloudProviderNodeInfoSimilar n1 n2 ignoredLabels ratioOpts =
  IsCloudProviderNodeInfoSimilar n2 n1 ignoredLabels ratioOpts.
Proof. apply eq_true_iff_eq. rewrite !IsCloudProviderNodeInfoSimilar_spec. split; apply similar_sym. Qed.

Lemma lookup_ignore_labels l : ∀ dst k,
  ignore_labels dst l !! k = if decide (k ∈ l) then Some true else dst !! k.
Proof.
  induction l as [|x l IH]; intros dst k; [done|]. simpl. rewrite IH, lookup_insert.
  repeat case_decide; subst; set_solver.
Qed.

Lemma lookup_copy_labels dst src k :
  copy_labels dst src !! k = match src !! k with Some v => Some v | None => dst !! k end.
Proof. apply lookup_range_insert. Qed.

Lemma compared_labels_eq ignoredLabels n1 n2 :
  compared_labels ignoredLabels n1 = compared_labels ignoredLabels n2 ↔
  ∀ label, default false (ignoredLabels !! label) = false →
    Labels (ni_Node n1) !! label = Labels (ni_Node n2) !! label.
Proof.
  unfold compared_labels. split.
  - intros Heq label Hl. pose proof (f_equal (lookup label) Heq) as Hk. apply option_eq. intros v.
    apply (f_equal (λ o, o = Some v)) in Hk.
    assert (∀ n, filter (λ kv, default false (ignoredLabels !! kv.1) = false) (Labels (ni_Node n)) !! label =
      Some v ↔ Labels (ni_Node n) !! label = Some v) as Hn.
    { intros n. rewrite map_lookup_filter_Some. simpl. naive_solver. }
    rewrite <- !Hn. by rewrite Hk.
  - intros Hall. apply map_eq. intros label. apply option_eq. intros v.
    rewrite !map_lookup_filter_Some. simpl. split; intros [? ?]; (split; [|done]).
    + by rewrite <- Hall.
    + by rewrite Hall.
Qed.

Lemma areLabelsSame_comm n1 n2 labels : areLabelsSame n1 n2 labels = areLabelsSame n2 n1 labels.
Proof.
  unfold areLabelsSame. induction labels as [|l labels IH]; [done|]. simpl. rewrite IH. f_equal.
  destruct (_ !! l), (_ !! l); try done. by apply bool_decide_ext.
Qed.

Lemma nodesFromSameAzureNodePool_comm n1 n2 :
  nodesFromSameAzureNodePool n1 n2 = nodesFromSameAzureNodePool n2 n1.
Proof.
  assert (∀ x y : string, negb (bool_decide (x = "")) && bool_decide (x = y) =
    negb (bool_decide (y = "")) && bool_decide (y = x)) as Hxy.
  { intros x y. destruct (decide (x = y)) as [->|Hne]; [done|].
    rewrite (bool_decide_eq_false_2 (x = y)), (bool_decide_eq_false_2 (y = x)) by congruence. by rewrite !andb_false_r. }
  unfold nodesFromSameAzureNodePool, nodesFromSameAzureNodePoolLegacy. f_equal; apply Hxy.
Qed.

(** The comparators the autoscaler can be started with. *)
Inductive built_comparator : (NI → NI → bool) → Prop :=
| built_generic extra ratioOpts : built_comparator (CreateGenericNodeInfoComparator extra ratioOpts)
| built_gce extra ratioOpts : built_comparator (CreateGceNodeInfoComparator extra ratioOpts)
| built_aws extra ratioOpts : built_comparator (CreateAwsNodeInfoComparator extra ratioOpts)
| built_azure extra ratioOpts : built_comparator (CreateAzureNodeInfoComparator extra ratioOpts)
| built_label labels : built_comparator (CreateLabelNodeInfoComparator labels).

Lemma built_comparator_comm c n1 n2 : built_comparator c → c n1 n2 = c n2 n1.
Proof.
  destruct 1; try apply IsCloudProviderNodeInfoSimilar_comm; [|apply areLabelsSame_comm].
  unfold CreateAzureNodeInfoComparator. rewrite nodesFromSameAzureNodePool_comm.
  destruct (nodesFromSameAzureNodePool n2 n1); [done|]. apply IsCloudProviderNodeInfoSimilar_comm.
Qed.

(** The groups found: the others with a node info that compares. *)
Lemma elem_of_similar_groups (c : NI → NI → bool) groups a infos b :
  (∃ l, FindSimilarNodeGroups c groups a infos = Ok l ∧ b ∈ l) ↔
  b ∈ groups ∧ Id b ≠ Id a ∧
  ∃ na nb, infos !! Id a = Some na ∧ infos !! Id b = Some nb ∧ c na nb = true.
Proof.
  unfold FindSimilarNodeGroups. destruct (infos !! Id a) as [na|]; [|naive_solver].
  assert (∀ l acc, b ∈ foldl (λ result ng, if bool_decide (Id ng = Id a) then result
      else match infos !! Id ng with
      | None => result
      | Some ngNodeInfo => if c na ngNodeInfo then result ++ [ng] else result
      end) acc l ↔
    b ∈ acc ∨ b ∈ l ∧ Id b ≠ Id a ∧ ∃ nb, infos !! Id b = Some nb ∧ c na nb = true) as Hl.
  { set (P := Id b ≠ Id a ∧ ∃ nb, infos !! Id b = Some nb ∧ c na nb = true).
    induction l as [|ng l IH]; intros acc; simpl; [set_solver|]. rewrite IH, elem_of_cons.
    assert (b = ng → P ↔ Id ng ≠ Id a ∧ ∃ nb, infos !! Id ng = Some nb ∧ c na nb = true) as HP by (by intros ->).
    clearbody P. case_bool_decide; [tauto|].
    destruct (infos !! Id ng) as [nb|]; [|assert (b = ng → ¬ P) by (intros Hb (_ & ? & ? & _)%(HP Hb); done); tauto].
    destruct (c na nb) eqn:Hc; rewrite ?elem_of_app, ?list_elem_of_singleton.
    - assert (b = ng → P) by (intros Hb; apply (HP Hb); eauto). tauto.
    - assert (b = ng → ¬ P) by (intros Hb (_ & ? & ? & ?)%(HP Hb); congruence). tauto. }
  split.
  - intros (l & [= <-] & Hb). apply Hl in Hb. set_solver.
  - intros (Hb & Hne & na' & nb & [= <-] & ? & ?). eexists. split; [done|]. apply Hl. eauto 8.
Qed.

(** Similarity of node groups is mutual: with every comparator the
    autoscaler can be started with and every order in which the loops visit
    the maps of resources and labels, a group is found similar to another
    exactly when the other is found similar to it. A balanced scale-up
    therefore reaches the same set of groups from each of its members, two
    comparators differing in nothing but the order of their arguments. *)
Theorem similar_groups_mutual c groups infos a b :
  built_comparator c → a ∈ groups → b ∈ groups →
  (∃ l, FindSimilarNodeGroups c groups a infos = Ok l ∧ b ∈ l) ↔
  (∃ l, FindSimilarNodeGroups c groups b infos = Ok l ∧ a ∈ l).
Proof.
  intros Hc Ha Hb. rewrite !elem_of_similar_groups. split.
  - intros (_ & Hne & na & nb & ? & ? & ?). split_and!; [done..|]. exists nb, na.
    by rewrite (built_comparator_comm c nb na).
  - intros (_ & Hne & nb & na & ? & ? & ?). split_and!; [done..|]. exists na, nb.
    by rewrite (built_comparator_comm c na nb).
Qed.

Lemma and_iff_both (A A' B B' : Prop) : (A ↔ A') → (B ↔ B') → (A ∧ B ↔ A' ∧ B').
Proof. tauto. Qed.

(** The generic comparison says exactly what it means to: two node infos
    are similar when they have the same kinds of capacity, the memory within
    its ratio and every other kind equal; the same allocatable resources and
    the same requested ones, the allocatable and the free amounts within their
    ratios of the larger; and equal values, or none, of every label that is
    neither basic nor configured to be ignored. *)
Theorem comparison_exact n1 n2 extra ratioOpts :
  CreateGenericNodeInfoComparator extra ratioOpts n1 n2 = true ↔
  agree (λ kind a b,
      if decide (kind = ResourceMemory)
      then resourceListWithinTolerance [a; b] (MaxCapacityMemoryDifferenceRatio ratioOpts) = true
      else qty_cmp a b = 0) (StatusCapacity (ni_Node n1)) (StatusCapacity (ni_Node n2)) ∧
  agree (λ _ a b, resourceListWithinTolerance [a; b] (MaxAllocatableDifferenceRatio ratioOpts) = true)
    (StatusAllocatable (ni_Node n1)) (StatusAllocatable (ni_Node n2)) ∧
  agree (λ _ a b, resourceListWithinTolerance [a; b] (MaxFreeDifferenceRatio ratioOpts) = true)
    (free_of n1) (free_of n2) ∧
  ∀ label, label ∉ dom BasicIgnoredLabels → label ∉ extra →
    Labels (ni_Node n1) !! label = Labels (ni_Node n2) !! label.
Proof.
  unfold CreateGenericNodeInfoComparator. rewrite IsCloudProviderNodeInfoSimilar_spec. unfold similar.
  rewrite compared_labels_eq. apply and_iff_both; [|do 2 (apply and_iff_both; [done|])].
  - unfold agree. apply forall_proper. intros k. destruct (_ !! k), (_ !! k); try done.
    unfold capacity_similar. case_bool_decide; [by rewrite decide_True|].
    rewrite decide_False by done. apply Z.eqb_eq.
  - assert (∀ label, (default false (ignore_labels (copy_labels ∅ BasicIgnoredLabels) extra !! label) = false) ↔
      ((label ∉ dom BasicIgnoredLabels) ∧ (label ∉ extra))) as Hl; [|setoid_rewrite Hl; naive_solver].
    intros label. rewrite lookup_ignore_labels, lookup_copy_labels, lookup_empty, not_elem_of_dom.
    case_decide; [naive_solver|].
    destruct (BasicIgnoredLabels !! label) as [v|] eqn:Hv; [|simpl; naive_solver].
    assert (map_Forall (λ _ v, v = true) BasicIgnoredLabels) as Hall
      by (apply (bool_decide_unpack _); vm_compute; exact I).
    apply Hall in Hv as ->. naive_solver.
Qed.
End compare.

(** Milli-units, as integers. *)
Module SimilarExample.
Definition quantities : QuantityLib := {|
  Quantity := Z; qty_zero := 0; qty_add := Z.add; MilliValue q := q; QtyValue q := q `div` 1000 |}.
#[local] Instance ql : QuantityLib := quantities.
#[export, refine] Instance qc : QuantityCompare := {|
  NewMilliQuantity v _ := v; NewQuantity v _ := v * 1000;
  qty_sub a b := a - b; qty_cmp a b := a - b |}.
Proof. simpl. intros. lia. Defined.

Definition labelled (name zone : string) : Node :=
  mkNode name name {["topology.kubernetes.io/zone"%string := zone; "pool"%string := "x"%string]} ∅ [] false 0 [].
Definition info (name zone : string) : NodeInfo demo_sched () () :=
  NewNodeInfo (Some (labelled name zone)) [] [].
(** Node b has a little less memory than the others, node c much less. *)
Definition capacity (n : Node) : gmap string Quantity :=
  {[ResourceCPU := 4000 : Quantity;
    ResourceMemory := if decide (Name n = "b"%string) then 990000
                      else if decide (Name n = "c"%string) then 500000 else 1000000]}.
Definition requested (n : NodeInfo demo_sched () ()) : Resource := mkResource 100 1 0 0 ∅.
(** 0.05 and 0.015. *)
Definition ratios : NodeGroupDifferenceRatios :=
  mkRatios (fdiv (of_int 5) (of_int 100)) (fdiv (of_int 5) (of_int 100)) (fdiv (of_int 15) (of_int 1000)).
Definition group (name : string) : NodeGroup := mkNodeGroup name 0 10 (Ok 1) (Ok []) (λ _, (None, None)).
Definition infos : gmap string (NodeInfo demo_sched () ()) :=
  {["a"%string := info "a" "z1"; "b"%string := info "b" "z2"; "c"%string := info "c" "z3"]}.
Definition groups : list NodeGroup := [group "a"; group "b"; group "c"].
Definition comparator : NodeInfo demo_sched () () → NodeInfo demo_sched () () → bool :=
  CreateGenericNodeInfoComparator capacity capacity requested [] ratios.

Example b_is_similar : Id <$> match FindSimilarNodeGroups comparator groups (group "a") infos with
    | Ok l => l | Err _ => [] end = ["b"%string].
Proof. vm_compute. reflexivity. Qed.
End SimilarExample.
#[local] Existing Instances SimilarExample.ql SimilarExample.qc.

Lemma similar_groups_mutual_witness :
  (∃ l, FindSimilarNodeGroups SimilarExample.comparator SimilarExample.groups
      (SimilarExample.group "b") SimilarExample.infos = Ok l ∧ SimilarExample.group "a" ∈ l).
Proof.
  apply (similar_groups_mutual SimilarExample.capacity SimilarExample.capacity SimilarExample.requested
    SimilarExample.comparator SimilarExample.groups SimilarExample.infos
    (SimilarExample.group "a") (SimilarExample.group "b")).
  - apply built_generic.
  - left.
  - right; left.
  - eexists. split; [vm_compute; reflexivity|]. left.
Defined.
