(* ===== verification/CapacityBuffer.v ===== *)
(** Capacity buffers (src/pkg/capacitybuffer): the objects, the conditions of a
    buffer (common/common.go), the filters (filters/), the number of pods
    (translators/replicas.go), the managed pod templates and the translators
    (translators/), the resolution of pods (fakepods/) and the client
    (client/client.go). *)
From stdpp Require Import prelude gmap strings pretty list numbers fin_maps.
From S2P Require Import Prelude Api Drain Framework Pdb ProvReq Utilization Similar.
Local Open Scope Z_scope.

(** ** Quantities by value *)

(** The arithmetic of [resource.Quantity] the quota allocation uses. A quantity
    denotes a number of billionths, [nano]; sums, differences and products are
    exact, [Value] rounds away from zero, and the quotient of two decimals by
    [QuoRound] with no decimals and [RoundDown] truncates. *)
Class QuantityExact `{QuantityCompare} : Type := {
  nano : Quantity → Z;
  qty_mul : Quantity → Z → Quantity;
  qty_quo_down : Quantity → Quantity → Z;
  qty_is_zero : Quantity → bool;
  nano_zero : nano qty_zero = 0;
  nano_add : ∀ a b, nano (qty_add a b) = nano a + nano b;
  nano_sub : ∀ a b, nano (qty_sub a b) = nano a - nano b;
  nano_mul : ∀ a k, nano (qty_mul a k) = nano a * k;
  nano_is_zero : ∀ a, qty_is_zero a = true ↔ nano a = 0;
  nano_value : ∀ a, QtyValue a < 0 ↔ nano a < 0;
  nano_quo_down : ∀ a b, nano b ≠ 0 → qty_quo_down a b = Z.quot (nano a) (nano b)
}.

(** apimachinery's [SetStatusCondition]: the condition of the new one's type
    has its status, reason and message afterwards, the others stay, and it
    tells whether anything changed. *)
Class StatusConditionUpdate `{StatusConditions} : Type := {
  SetStatusCondition : list Condition → Condition → list Condition * bool;
  set_condition_self : ∀ l c, ∃ c', FindStatusCondition (SetStatusCondition l c).1 (CondType c) = Some c' ∧
    CondStatus c' = CondStatus c ∧ CondReason c' = CondReason c ∧ CondMessage c' = CondMessage c;
  set_condition_other : ∀ l c t, t ≠ CondType c →
    FindStatusCondition (SetStatusCondition l c).1 t = FindStatusCondition l t;
  set_condition_unchanged : ∀ l c, (SetStatusCondition l c).2 = false → (SetStatusCondition l c).1 = l
}.

(** ** Pod templates *)

Section objects.
Context `{QuantityLib} {Rest : Type}.

(** Containers, volumes and specs: the fields in use and the rest of them. A
    volume or a mount is its name and its rest; a nil map of requests is
    [None]. *)
Record Container : Type := mkContainer {
  ctr_Requests : option (gmap string Quantity); ctr_Limits : gmap string Quantity;
  VolumeMounts : list (string * Rest); ctr_rest : Rest
}.
Record PodAffinityTerm : Type := mkTerm { term_Namespaces : list string; term_NamespaceSelector : option Rest; term_rest : Rest }.
(** The required and the preferred (weighted) terms. *)
Record PodAffinity : Type := mkAffinity {
  RequiredTerms : list PodAffinityTerm; PreferredTerms : list (Z * PodAffinityTerm)
}.
Record PodLevelResources : Type := mkPodResources {
  lvl_Requests : option (gmap string Quantity); lvl_Limits : gmap string Quantity
}.
Record PodSpec : Type := mkSpec {
  spec_NodeName : string; spec_Volumes : list (string * Rest); Containers : list Container;
  InitContainers : list Container; spec_Resources : option PodLevelResources; PriorityClassName : string;
  (** the pod affinity and the pod anti-affinity *)
  spec_Affinity : option (option PodAffinity * option PodAffinity);
  spec_rest : Rest
}.
(** [PodTemplateSpec]. *)
Record PodTemplateSpec : Type := mkPts {
  pts_Labels : gmap string string; pts_Annotations : gmap string string; pts_Finalizers : list string; pts_Spec : PodSpec
}.
(** A pod: metadata and spec. *)
Record BufferPod : Type := mkBufferPod {
  bp_Namespace : string; bp_Name : string; bp_GenerateName : string; bp_UID : string;
  bp_Labels : gmap string string; bp_Annotations : gmap string string; bp_Finalizers : list string;
  bp_OwnerReferences : list OwnerReference; bp_Spec : PodSpec
}.
(** [PodTemplate], the object. *)
Record PodTemplate : Type := mkTemplate {
  tpl_Name : string; tpl_Namespace : string; tpl_Generation : Z; tpl_OwnerReferences : list OwnerReference;
  tpl_Template : PodTemplateSpec
}.
End objects.
Arguments Container {_} Rest.
Arguments PodAffinityTerm Rest : clear implicits.
Arguments PodAffinity Rest : clear implicits.
Arguments PodSpec {_} Rest.
Arguments PodTemplateSpec {_} Rest.
Arguments BufferPod {_} Rest.
Arguments PodTemplate {_} Rest.

(** ** Buffers *)

Record ScalableRef : Type := mkScalableRef { ref_APIGroup : string; ref_Kind : string; ref_Name : string }.
Record BufferSpec `{QuantityLib} : Type := mkBufferSpec {
  sp_ProvisioningStrategy : option string; sp_PodTemplateRef : option string; sp_ScalableRef : option ScalableRef;
  sp_Replicas : option Z; sp_Percentage : option Z; sp_Limits : option (gmap string Quantity)
}.
Record BufferStatus : Type := mkBufferStatus {
  st_PodTemplateRef : option string; st_Replicas : option Z; st_PodTemplateGeneration : option Z;
  st_ProvisioningStrategy : option string; st_Conditions : list Condition
}.
Record CapacityBuffer `{QuantityLib} : Type := mkBuffer {
  buf_Name : string; buf_Namespace : string; buf_UID : string; buf_Generation : Z; buf_ResourceVersion : string;
  buf_CreationTimestamp : Z; buf_Spec : BufferSpec; buf_Status : BufferStatus
}.

Definition ActiveProvisioningStrategy : string := "buffer.x-k8s.io/active-capacity".
Definition CapacityBufferKind : string := "CapacityBuffer".
Definition CapacityBufferApiVersion : string := "autoscaling.x-k8s.io/v1beta1".
Definition ReadyForProvisioningCondition : string := "ReadyForProvisioning".
Definition ProvisioningCondition : string := "Provisioning".
Definition LimitedByQuotasCondition : string := "LimitedByQuotas".
Definition LimitedByQuotasReason : string := "ResourceQuotasAllocated".
Definition AttributesSetSuccessfullyReason : string := "AttributesSetSuccessfully".

Definition set_status `{QuantityLib} (b : CapacityBuffer) (st : BufferStatus) : CapacityBuffer :=
  mkBuffer _ (buf_Name b) (buf_Namespace b) (buf_UID b) (buf_Generation b) (buf_ResourceVersion b)
    (buf_CreationTimestamp b) (buf_Spec b) st.
Definition set_conditions `{QuantityLib} (b : CapacityBuffer) (l : list Condition) : CapacityBuffer :=
  let st := buf_Status b in
  set_status b (mkBufferStatus (st_PodTemplateRef st) (st_Replicas st) (st_PodTemplateGeneration st)
    (st_ProvisioningStrategy st) l).
Definition set_replicas `{QuantityLib} (b : CapacityBuffer) (replicas : option Z) : CapacityBuffer :=
  let st := buf_Status b in
  set_status b (mkBufferStatus (st_PodTemplateRef st) replicas (st_PodTemplateGeneration st)
    (st_ProvisioningStrategy st) (st_Conditions st)).

(** The buffer but for its status. *)
Definition same_buffer `{QuantityLib} (b b' : CapacityBuffer) : Prop := set_status b' (buf_Status b) = b.

Lemma same_buffer_refl `{QuantityLib} b : same_buffer b b.
Proof. by destruct b. Qed.

Lemma same_buffer_trans `{QuantityLib} b1 b2 b3 : same_buffer b1 b2 → same_buffer b2 b3 → same_buffer b1 b3.
Proof.
  unfold same_buffer, set_status. destruct b1, b2, b3. simpl.
  intros [= <- <- <- <- <- <- <-] [= <- <- <- <- <- <- <-]. done.
Qed.

Lemma same_buffer_spec `{QuantityLib} b b' : same_buffer b b' → buf_Spec b' = buf_Spec b.
Proof. unfold same_buffer. by intros <-. Qed.

(** ** Conditions of a buffer (common.go) *)

(** apimachinery's [IsStatusConditionFalse]. *)
Definition IsStatusConditionFalse `{StatusConditions} (conditions : list Condition) (t : string) : bool :=
  match FindStatusCondition conditions t with
  | Some c => bool_decide (CondStatus c = ConditionFalse)
  | None => false
  end.

Section common.
Context `{QuantityLib} `{StatusConditionUpdate}.
Implicit Types (buffer : CapacityBuffer) (now : Z).

Definition mapEmptyProvStrategyToDefault (ps : option string) : option string :=
  if bool_decide (ps = Some "") then Some ActiveProvisioningStrategy else ps.

(** The attributes the two functions below set alike, with a condition. *)
Definition set_attributes buffer (podTemplateRef : option string) (podTemplateGeneration replicas : option Z)
    (provStrategy : option string) (condition : Condition) : CapacityBuffer :=
  set_status buffer (mkBufferStatus podTemplateRef replicas podTemplateGeneration
    (mapEmptyProvStrategyToDefault provStrategy)
    (SetStatusCondition (st_Conditions (buf_Status buffer)) condition).1).

Definition SetBufferAsReadyForProvisioning buffer podTemplateRef podTemplateGeneration replicas provStrategy now :=
  set_attributes buffer podTemplateRef podTemplateGeneration replicas provStrategy
    (mkCond ReadyForProvisioningCondition ConditionTrue 0 now AttributesSetSuccessfullyReason "ready").

Definition SetBufferAsNotReadyForProvisioning buffer podTemplateRef podTemplateGeneration replicas provStrategy
    (err : option string) now :=
  let errorMessage := "Buffer not ready for provisioning" in
  let errorMessage := match err with Some e => errorMessage +:+ ": " +:+ e | None => errorMessage end in
  set_attributes buffer podTemplateRef podTemplateGeneration replicas provStrategy
    (mkCond ReadyForProvisioningCondition ConditionFalse 0 now "error" errorMessage).

Definition UpdateBufferStatusToFailedProvisioning buffer (reason errorMessage : string) now : CapacityBuffer * bool :=
  let '(l, changed) := SetStatusCondition (st_Conditions (buf_Status buffer))
    (mkCond ProvisioningCondition ConditionFalse 0 now reason errorMessage) in
  (set_conditions buffer l, changed).

Definition UpdateBufferStatusToSuccessfullyProvisioning buffer (reason : string) now : CapacityBuffer :=
  set_conditions buffer (SetStatusCondition (st_Conditions (buf_Status buffer))
    (mkCond ProvisioningCondition ConditionTrue 0 now reason "")).1.

Definition UpdateBufferStatusLimitedByQuotas buffer (isLimited : bool) (message : string) now : CapacityBuffer :=
  let status := if isLimited then ConditionTrue else ConditionFalse in
  set_conditions buffer (SetStatusCondition (st_Conditions (buf_Status buffer))
    (mkCond LimitedByQuotasCondition status (buf_Generation buffer) now LimitedByQuotasReason message)).1.

Definition MarkBufferAsLimitedByQuota buffer (desiredReplicas allowedReplicas : Z) (exceededQuotas : list string) now :=
  let msg := "Buffer replicas limited from " +:+ pretty desiredReplicas +:+ " to " +:+ pretty allowedReplicas +:+
    " due to quotas: " +:+ String.concat ", " exceededQuotas in
  UpdateBufferStatusLimitedByQuotas (set_replicas buffer (Some allowedReplicas)) true msg now.
End common.

(** ** Filters *)

(** A filter splits buffers into those it lets through and those it does not. *)
Definition split_buffers {A} (p : A → bool) (buffers : list A) : list A * list A :=
  foldl (λ acc buffer, if p buffer then (acc.1 ++ [buffer], acc.2) else (acc.1, acc.2 ++ [buffer])) ([], []) buffers.

Lemma split_buffers_spec {A} (p : A → bool) (l : list A) :
  split_buffers p l = (filter (λ b, p b = true) l, filter (λ b, p b = false) l).
Proof.
  unfold split_buffers. induction l as [|x l IH] using rev_ind; [done|].
  rewrite foldl_app, IH, !filter_app, !filter_cons, !filter_nil. simpl.
  destruct (p x) eqn:Hp; simpl; by rewrite ?app_nil_r.
Qed.

Section filters.
Context `{QuantityLib}.
Abbreviation Filter := (list CapacityBuffer → list CapacityBuffer * list CapacityBuffer).
Implicit Types (buffer : CapacityBuffer) (buffers : list CapacityBuffer).

Definition combinedAny_Filter (filters : list Filter) buffers : list CapacityBuffer * list CapacityBuffer :=
  foldl (λ acc buffersFilter,
      let '(filteredToBeProcessed, filteredOut) := buffersFilter acc.2 in
      (acc.1 ++ filteredToBeProcessed, filteredOut)) ([], buffers) filters.

Definition hasCondition (conditions : gmap string ConditionStatus) buffer : bool :=
  existsb (λ condition, bool_decide (conditions !! CondType condition = Some (CondStatus condition)))
    (st_Conditions (buf_Status buffer)).
Definition status_Filter (conditions : gmap string ConditionStatus) : Filter :=
  split_buffers (λ buffer, negb (hasCondition conditions buffer)).

Definition isAllowedProvisioningStrategy (strategiesToUse : list string) buffer : bool :=
  bool_decide (default "" (sp_ProvisioningStrategy (buf_Spec buffer)) ∈ strategiesToUse).
Definition strategy_Filter (strategiesToUse : list string) : Filter :=
  split_buffers (isAllowedProvisioningStrategy strategiesToUse).
End filters.

(** ** The client *)

(** An error of the API server; wrapping keeps whether it is a missing object. *)
Inductive api_error : Type := ApiNotFound (msg : string) | ApiError (msg : string).
Definition api_text (e : api_error) : string := match e with ApiNotFound m | ApiError m => m end.
Definition api_wrap (prefix : string) (e : api_error) : api_error :=
  match e with ApiNotFound m => ApiNotFound (prefix +:+ m) | ApiError m => ApiError (prefix +:+ m) end.

(** A requirement on a scope of a quota. *)
Record ScopeRequirement : Type := mkScope { ss_ScopeName : string; ss_Operator : string; ss_Values : list string }.
Record ResourceQuota `{QuantityLib} : Type := mkQuotaObject {
  rq_Name : string; rq_UID : string; rq_Hard : gmap string Quantity; rq_Used : gmap string Quantity;
  rq_Scopes : list string; rq_ScopeSelector : option (list ScopeRequirement)
}.

Section client.
Context `{GR : GoRange} `{QuantityLib} {Rest W : Type} `{SortSliceBy}.

(** The API server, over its state; it lists pods with their creation times. *)
Record KubernetesClient : Type := mkKubernetes {
  k_ListResourceQuotas : W → string → result string (list ResourceQuota);
  k_GetPodTemplate : W → string → string → result api_error (PodTemplate Rest);
  k_CreatePodTemplate : W → PodTemplate Rest → W * result api_error (PodTemplate Rest);
  k_UpdatePodTemplate : W → PodTemplate Rest → W * result api_error (PodTemplate Rest);
  k_ListPods : W → string → string → result string (list (Z * BufferPod Rest));
  k_DryRunPod : W → string → BufferPod Rest → result string (BufferPod Rest)
}.

(** The client and its listers, the optional ones with [None] for nil. A
    scalable object is its pod template and its replicas; a scale is its
    selector and its replicas. *)
Record CapacityBufferClient : Type := mkClient {
  buffersLister : option (W → string → result string (list CapacityBuffer));
  buffersClient : option (W → CapacityBuffer → W * result string CapacityBuffer);
  kubernetesClient : option KubernetesClient;
  podTemplateLister : option (W → string → string → result api_error (PodTemplate Rest));
  rqLister : option (W → string → result string (list ResourceQuota));
  objectLister : string → option (W → string → string → result string (PodTemplateSpec Rest * option Z));
  scaleGetter : option (W → string → string → string → string → result string (string * Z))
}.
Implicit Types (c : CapacityBufferClient) (w : W) (namespace name : string).
(** [equality.Semantic.DeepEqual] of templates, and [labels.Parse], which fails
    on a malformed selector. *)
Context (templates_equal : PodTemplateSpec Rest → PodTemplateSpec Rest → bool)
  (labels_Parse : string → result string string).

Definition ListCapacityBuffers c w namespace : result string (list CapacityBuffer) :=
  match buffersLister c with
  | None => Err "Capacity buffer client is not configured to list capacity buffers"
  | Some list => match list w namespace with
                 | Err err => Err ("Error fetching capacity buffers: " +:+ err)
                 | Ok buffers => Ok buffers
                 end
  end.

Definition ListResourceQuotas c w namespace : result string (list ResourceQuota) :=
  match rqLister c, kubernetesClient c with
  | Some list, _ => list w namespace
  | None, Some k => k_ListResourceQuotas k w namespace
  | None, None => Err "capacity buffer client is not configured for getting resource quotas"
  end.

(** With a lister but no API client the call after a miss is a nil dereference. *)
Definition GetPodTemplate c w namespace name : result api_error (PodTemplate Rest) :=
  match podTemplateLister c, kubernetesClient c with
  | None, None => Err (ApiError "Capacity buffer client is not configured for getting pod template")
  | lister, k =>
      match (match lister with Some get => get w namespace name | None => Err (ApiError "") end) with
      | Ok template => Ok template
      | Err _ =>
          match k with
          | None => Err (ApiError "nil pointer dereference")
          | Some k =>
              match k_GetPodTemplate k w namespace name with
              | Err err => Err (api_wrap "capacity buffer client can't get pod template: " err)
              | Ok template => Ok template
              end
          end
      end
  end.

Definition UpdateCapacityBuffer c w (buffer : CapacityBuffer) : W * result string CapacityBuffer :=
  match buffersClient c with
  | None => (w, Err "Capacity buffer client is not configured for updating capacity buffer")
  | Some update => update w buffer
  end.

Definition CreatePodTemplate c w (podTemplate : PodTemplate Rest) : W * result api_error (PodTemplate Rest) :=
  match kubernetesClient c with
  | None => (w, Err (ApiError "Capacity buffer client is not configured for creating pod template"))
  | Some k => k_CreatePodTemplate k w podTemplate
  end.
Definition UpdatePodTemplate c w (podTemplate : PodTemplate Rest) : W * result api_error (PodTemplate Rest) :=
  match kubernetesClient c with
  | None => (w, Err (ApiError "Capacity buffer client is not configured for updating pod template"))
  | Some k => k_UpdatePodTemplate k w podTemplate
  end.

Definition EnsurePodTemplate c w (podTemplate : PodTemplate Rest) : W * result api_error (PodTemplate Rest) :=
  match kubernetesClient c with
  | None => (w, Err (ApiError "capacity buffer client is not configured for applying pod template"))
  | Some k =>
      match GetPodTemplate c w (tpl_Namespace podTemplate) (tpl_Name podTemplate) with
      | Err (ApiNotFound _) => k_CreatePodTemplate k w podTemplate
      | Err err => (w, Err err)
      | Ok existing =>
          if templates_equal (tpl_Template existing) (tpl_Template podTemplate) then (w, Ok existing)
          else k_UpdatePodTemplate k w
                 (mkTemplate (tpl_Name existing) (tpl_Namespace existing) (tpl_Generation existing)
                    (tpl_OwnerReferences podTemplate) (tpl_Template podTemplate))
      end
  end.

(** [GetDeployment], [GetReplicaSet], [GetStatefulSet], [GetJob] and
    [GetReplicationController], by the kind. *)
Definition GetScalable c w (kind : string) namespace name : result string (PodTemplateSpec Rest * option Z) :=
  match objectLister c kind with
  | None => Err ("Capacity buffer client is not configured for getting " +:+ kind)
  | Some get => match get w namespace name with
                | Err err => Err ("failed to get " +:+ kind +:+ ": " +:+ err)
                | Ok obj => Ok obj
                end
  end.

Definition GetScaleObject c w namespace (group kind : string) name : result string (string * Z) :=
  match scaleGetter c with
  | None => Err "Capacity buffer client is not configured for scale objects"
  | Some get => get w namespace group kind name
  end.

Definition GetPodsBySelector c w namespace (selector : string) : result string (list (Z * BufferPod Rest)) :=
  match kubernetesClient c with
  | None => Err "Capacity buffer client is not configured for getting pods objects"
  | Some k =>
      match labels_Parse selector with
      | Err err => Err ("failed to parse label selector: " +:+ err)
      | Ok labelSelector =>
          match k_ListPods k w namespace labelSelector with
          | Err err => Err ("failed to list pods: " +:+ err)
          | Ok pods => Ok pods
          end
      end
  end.

(** ** Pods of templates *)

(** [utils/pod] [GetPodFromTemplate]: copies of the metadata, and the spec. *)
Definition GetPodFromTemplate (template : PodTemplateSpec Rest) : BufferPod Rest :=
  mkBufferPod "" "" "" "" (pts_Labels template) (pts_Annotations template) (pts_Finalizers template) [] (pts_Spec template).

Definition podTemplateNamePrefix : string := "capacitybuffer-".
Definition podTemplateNameSuffix : string := "-pod-template".
Definition maxPodTemplateNameLength : nat := 253.
Definition maxBufferNameLen : nat :=
  maxPodTemplateNameLength - String.length podTemplateNamePrefix - String.length podTemplateNameSuffix.

Definition getPodTemplateNameForBuffer (buffer : CapacityBuffer) : string :=
  let bufferName := buf_Name buffer in
  let bufferName :=
    if bool_decide (maxBufferNameLen < String.length bufferName)%nat
    then String.substring 0 maxBufferNameLen bufferName else bufferName in
  podTemplateNamePrefix +:+ bufferName +:+ podTemplateNameSuffix.

Definition buffer_owner (buffer : CapacityBuffer) : OwnerReference :=
  mkOwner CapacityBufferApiVersion CapacityBufferKind (buf_Name buffer) (buf_UID buffer) (Some true).

Definition getPodTemplateFromSpec (pts : PodTemplateSpec Rest) (buffer : CapacityBuffer) : PodTemplate Rest :=
  mkTemplate (getPodTemplateNameForBuffer buffer) (buf_Namespace buffer) 0 [buffer_owner buffer]
    (mkPts (pts_Labels pts) (pts_Annotations pts) [] (pts_Spec pts)).

Definition serviceAccountVolumeNamePrefix : string := "kube-api-access-".
Definition without_service_account (l : list (string * Rest)) : list (string * Rest) :=
  filter (λ volume, HasPrefix volume.1 serviceAccountVolumeNamePrefix = false) l.
Definition clean_container (c : Container Rest) : Container Rest :=
  mkContainer (ctr_Requests c) (ctr_Limits c) (without_service_account (VolumeMounts c)) (ctr_rest c).

Definition cleanUpServiceAccountVolume (spec : PodSpec Rest) : PodSpec Rest :=
  mkSpec (spec_NodeName spec) (without_service_account (spec_Volumes spec)) (clean_container <$> Containers spec)
    (clean_container <$> InitContainers spec) (spec_Resources spec) (PriorityClassName spec) (spec_Affinity spec)
    (spec_rest spec).

Definition getPodTemplateSpecFromPod (pod : BufferPod Rest) : PodTemplateSpec Rest :=
  mkPts (bp_Labels pod) (bp_Annotations pod) [] (cleanUpServiceAccountVolume (bp_Spec pod)).

(** ** Resolvers of fake pods *)

Definition Resolver : Type := W → string → PodTemplateSpec Rest → result string (BufferPod Rest).

(** Kubernetes' helpers of pod-level resources. *)
Context (AggregateContainerRequests : PodSpec Rest → gmap string Quantity)
  (IsSupportedPodLevelResource : string → bool).

(** [for k, v := range from { if _, ok := m[k]; !ok && p(k) { m[k] = v } }]. *)
Definition add_missing (p : string → bool) (m from : gmap string Quantity) : gmap string Quantity :=
  foldl (λ m kv, if bool_decide (m !! kv.1 = None) && p kv.1 then <[kv.1 := kv.2]> m else m) m (go_range from).

Definition defaultContainerRequests (c : Container Rest) : Container Rest :=
  mkContainer (Some (add_missing (λ _, true) (default ∅ (ctr_Requests c)) (ctr_Limits c))) (ctr_Limits c)
    (VolumeMounts c) (ctr_rest c).

Definition defaultPodRequests (spec : PodSpec Rest) : PodSpec Rest :=
  match spec_Resources spec with
  | None => spec
  | Some r =>
      if bool_decide (lvl_Limits r = ∅) then spec
      else
        let podReqs := default ∅ (lvl_Requests r) in
        let podReqs := add_missing (λ key, IsSupportedPodLevelResource key && HasPrefix key "hugepages-")
                         podReqs (AggregateContainerRequests spec) in
        let podReqs := add_missing IsSupportedPodLevelResource podReqs (lvl_Limits r) in
        let r' := if bool_decide (podReqs = ∅) then r else mkPodResources (Some podReqs) (lvl_Limits r) in
        mkSpec (spec_NodeName spec) (spec_Volumes spec) (Containers spec) (InitContainers spec) (Some r')
          (PriorityClassName spec) (spec_Affinity spec) (spec_rest spec)
  end.

Definition defaultPodResources (spec : PodSpec Rest) : PodSpec Rest :=
  defaultPodRequests
    (mkSpec (spec_NodeName spec) (spec_Volumes spec) (defaultContainerRequests <$> Containers spec)
      (defaultContainerRequests <$> InitContainers spec) (spec_Resources spec) (PriorityClassName spec)
      (spec_Affinity spec) (spec_rest spec)).

Definition with_spec (pod : BufferPod Rest) namespace (spec : PodSpec Rest) : BufferPod Rest :=
  mkBufferPod namespace (bp_Name pod) (bp_GenerateName pod) (bp_UID pod) (bp_Labels pod) (bp_Annotations pod)
    (bp_Finalizers pod) (bp_OwnerReferences pod) spec.

Definition Defaulting_Resolve : Resolver := λ _ namespace template,
  let pod := GetPodFromTemplate template in
  Ok (with_spec pod namespace (defaultPodResources (bp_Spec pod))).

Definition DryRun_Resolve (k : KubernetesClient) : Resolver := λ w namespace template,
  let pod := GetPodFromTemplate template in
  k_DryRunPod k w namespace
    (mkBufferPod "" "" "fake-pod-" "" (bp_Labels pod) (bp_Annotations pod) (bp_Finalizers pod) [] (bp_Spec pod)).
End client.

(** ** A concrete instance *)

(** Quantities in thousandths, as integers; conditions in a list. *)
Module BufferInstances.
#[local] Existing Instances SimilarExample.ql SimilarExample.qc.
#[export, refine] Instance exact : QuantityExact := {|
  nano q := (q : Z) * 10 ^ 6; qty_mul q k := (q : Z) * k; qty_quo_down := Z.quot; qty_is_zero q := (q : Z) =? 0 |}.
Proof.
  - done.
  - simpl. lia.
  - simpl. lia.
  - simpl. lia.
  - simpl. intros a. rewrite Z.eqb_eq. lia.
  - simpl. intros a. pose proof (Z.div_mod a 1000 ltac:(lia)). pose proof (Z.mod_pos_bound a 1000 ltac:(lia)). lia.
  - simpl. intros a b Hb. symmetry. apply Z.quot_mul_cancel_r; lia.
Defined.

Definition find_cond (l : list Condition) (t : string) : option Condition := snd <$> list_find (λ c, CondType c = t) l.
#[export] Instance conditions : StatusConditions := {| FindStatusCondition := find_cond; find_condition _ _ := eq_refl |}.

Fixpoint put_cond (l : list Condition) (c : Condition) : list Condition :=
  match l with
  | [] => [c]
  | x :: l' => if decide (CondType x = CondType c) then c :: l' else x :: put_cond l' c
  end.
Lemma find_put_same l c : find_cond (put_cond l c) (CondType c) = Some c.
Proof.
  unfold find_cond. induction l as [|x l IH]; simpl; [by rewrite decide_True by done|].
  destruct (decide (CondType x = CondType c)) as [Hx|Hx]; simpl; [by rewrite decide_True by done|].
  rewrite decide_False by done. by destruct (list_find _ (put_cond l c)) as [[]|].
Qed.
Lemma find_put_other l c t : t ≠ CondType c → find_cond (put_cond l c) t = find_cond l t.
Proof.
  intros Ht. unfold find_cond. induction l as [|x l IH]; simpl; [by rewrite decide_False by congruence|].
  destruct (decide (CondType x = CondType c)) as [Hx|Hx]; simpl; [by rewrite !decide_False by congruence|].
  destruct (decide (CondType x = t)); [done|].
  by destruct (list_find _ (put_cond l c)) as [[]|], (list_find _ l) as [[]|].
Qed.
#[export, refine] Instance conditions_update : StatusConditionUpdate := {| SetStatusCondition l c := (put_cond l c, true) |}.
Proof.
  - intros l c. exists c. simpl. by rewrite find_put_same.
  - intros l c t Ht. by apply find_put_other.
  - done.
Defined.

Definition no_spec : PodSpec (H := SimilarExample.ql) () := mkSpec "" [] [] [] None "" None ().
Definition pts : PodTemplateSpec (H := SimilarExample.ql) () := mkPts ∅ ∅ [] no_spec.
Definition world : Type := gmap string (PodTemplate (H := SimilarExample.ql) ()).
Definition start : world := {["t"%string := mkTemplate "t" "ns" 1 [] pts]}.
(** Three cores, of which half a core is used. *)
Definition quota : ResourceQuota :=
  mkQuotaObject _ "three cores" "q1" {["requests.cpu"%string := 3000]} {["requests.cpu"%string := 500]} [] None.
Definition kubernetes : KubernetesClient (Rest := ()) (W := world) := {|
  k_ListResourceQuotas _ _ := Ok [quota];
  k_GetPodTemplate w _ name := match w !! name with Some t => Ok t | None => Err (ApiNotFound "not found") end;
  k_CreatePodTemplate w t := (<[tpl_Name t := t]> w, Ok t);
  k_UpdatePodTemplate w t := (<[tpl_Name t := t]> w, Ok t);
  k_ListPods _ _ _ := Ok [];
  k_DryRunPod _ _ p := Ok p |}.
Definition buffer (name : string) (created replicas : Z) : CapacityBuffer :=
  mkBuffer _ name "ns" ("uid-" +:+ name) 1 "1" created
    (mkBufferSpec _ None (Some "t"%string) None (Some replicas) None None)
    (mkBufferStatus None None None None []).
Definition buffers : list CapacityBuffer := [buffer "b" 20 3; buffer "a" 10 2].
Definition client : CapacityBufferClient (Rest := ()) (W := world) := {|
  buffersLister := Some (λ _ _, Ok buffers);
  buffersClient := Some (λ w b, (w, Ok b));
  kubernetesClient := Some kubernetes;
  podTemplateLister := None; rqLister := None; objectLister _ := None; scaleGetter := None |}.
(** Every pod requests one core. *)
Definition requests (_ : BufferPod (H := SimilarExample.ql) ()) : gmap string Quantity := {[ResourceCPU := 1000 : Quantity]}.
Definition same_templates (_ _ : PodTemplateSpec (H := SimilarExample.ql) ()) : bool := true.
Definition no_requirement (_ _ : string) (_ : list string) : result string (gmap string string → bool) := Err "unused"%string.
Definition resolve : Resolver (Rest := ()) (W := world) := Defaulting_Resolve (λ _, ∅) (λ _, true).
End BufferInstances.
