(* ===== verification/BufferTranslation.v ===== *)
(** The translation of capacity buffers into pods (src/pkg/capacitybuffer/
    translators): how many pods a buffer asks for, at 32 bits, and the two
    translators, from a pod template and from a scalable object. *)
From stdpp Require Import prelude gmap strings pretty list numbers fin_maps.
From S2P Require Import Prelude Api Drain Framework Pdb ProvReq Utilization Similar CapacityBuffer.
Local Open Scope Z_scope.

Section translation.
Context `{GR : GoRange} `{QuantityLib} `{StatusConditionUpdate} {Rest W : Type} `{SortSliceBy}.
(** Third-party code: the requests of a pod, the comparison of templates, the
    parsing of selectors. *)
Context (PodRequests : BufferPod Rest → gmap string Quantity)
  (templates_equal : PodTemplateSpec Rest → PodTemplateSpec Rest → bool) (labels_Parse : string → result string string).
Abbreviation Client := (CapacityBufferClient (Rest := Rest) (W := W)).
Implicit Types (c : Client) (w : W) (buffer : CapacityBuffer) (now : Z).

(** ** The number of pods (replicas.go) *)

Definition replicasFromPercentage (percentage scalableReplicas : Z) : Z :=
  if (percentage <=? 0) || (scalableReplicas <=? 0) then 0
  else Z.quot (wrap32 (wrap32 (percentage * scalableReplicas) + 99)) 100.

(** One request: the least number of pods so far, and whether a limit applies. *)
Definition limit_step (limits : gmap string Quantity) (st : Z * bool) (request : string * Quantity) : Z * bool :=
  let quantityMilliValue := MilliValue request.2 in
  if quantityMilliValue <=? 0 then st
  else match limits !! request.1 with
       | None => st
       | Some limitQuantity =>
           let maxPods := wrap32 (Z.quot (MilliValue limitQuantity) quantityMilliValue) in
           if maxPods <? 0 then st else (Z.min st.1 maxPods, true)
       end.

Definition calculateMaxPodsFromLimits (podRequests limits : gmap string Quantity) : result string Z :=
  let '(maxPodsFromLimits, resourceFound) := foldl (limit_step limits) (int32_max, false) (go_range podRequests) in
  if resourceFound then Ok maxPodsFromLimits
  else Err "resources in configured limits not found in the pod template".

Definition limitNumberOfPodsForResource (podTemplate : PodTemplateSpec Rest) (limits : gmap string Quantity) : result string Z :=
  calculateMaxPodsFromLimits (PodRequests (GetPodFromTemplate podTemplate)) limits.

Definition getBufferNumberOfPods buffer (podTemplate : PodTemplateSpec Rest) (scalableReplicas : option Z) : result string Z :=
  let replicas := match sp_Replicas (buf_Spec buffer) with Some r => Z.max 0 r | None => -1 end in
  let replicas := match sp_Percentage (buf_Spec buffer), scalableReplicas with
                  | Some p, Some s => Z.max replicas (replicasFromPercentage p s)
                  | _, _ => replicas
                  end in
  match sp_Limits (buf_Spec buffer) with
  | Some limits =>
      match limitNumberOfPodsForResource podTemplate limits with
      | Err err => Err err
      | Ok limitsReplicas => if 0 <=? replicas then Ok (Z.min replicas limitsReplicas) else Ok limitsReplicas
      end
  | None => if 0 <=? replicas then Ok replicas else Err "replicas, percentage and limits are not defined"
  end.

(** ** Scalable objects *)

Definition DeploymentKind : string := "Deployment".
Definition ReplicaSetKind : string := "ReplicaSet".
Definition StatefulSetKind : string := "StatefulSet".
Definition ReplicationControllerKind : string := "ReplicationController".
Definition JobKind : string := "Job".

Definition GetResolverKey (apiGroup kind : string) : string := apiGroup +:+ "-" +:+ kind.

(** The supported resolvers, by their keys. *)
Definition GetSupportedScalableObjectResolvers : list (string * string) :=
  [(GetResolverKey "apps" DeploymentKind, DeploymentKind); (GetResolverKey "apps" ReplicaSetKind, ReplicaSetKind);
   (GetResolverKey "apps" StatefulSetKind, StatefulSetKind);
   (GetResolverKey "core" ReplicationControllerKind, ReplicationControllerKind); (GetResolverKey "batch" JobKind, JobKind)].

Definition useSupportedResolvers c w buffer (ref : ScalableRef) : result string (PodTemplateSpec Rest * option Z) :=
  match (list_to_map GetSupportedScalableObjectResolvers : gmap string string) !! GetResolverKey (ref_APIGroup ref) (ref_Kind ref) with
  | Some kind =>
      match GetScalable c w kind (buf_Namespace buffer) (ref_Name ref) with
      | Err err => Err ("failed to get Deployment: " +:+ err)
      | Ok obj => Ok obj
      end
  | None => Err ("kind " +:+ ref_APIGroup ref +:+ "/" +:+ ref_Kind ref +:+ " is not supported to use pod template")
  end.

(** [getMostRecentPod] of a list that is not empty. *)
Definition getMostRecentPod (podList : list (Z * BufferPod Rest)) : option (Z * BufferPod Rest) :=
  head (sort_by (λ i j, bool_decide (j.1 < i.1)) podList).

Definition buildPodTemplateFromPod (pod : BufferPod Rest) : PodTemplateSpec Rest :=
  let spec := bp_Spec pod in
  mkPts (bp_Labels pod) (bp_Annotations pod) []
    (mkSpec "" (spec_Volumes spec) (Containers spec) (InitContainers spec) (spec_Resources spec)
      (PriorityClassName spec) (spec_Affinity spec) (spec_rest spec)).

(** The template of a live pod, when there is one, and the replicas of the
    scale. *)
Definition useScaleResolver c w buffer (ref : ScalableRef) : result string (option (PodTemplateSpec Rest) * Z) :=
  match GetScaleObject c w (buf_Namespace buffer) (ref_APIGroup ref) (ref_Kind ref) (ref_Name ref) with
  | Err err => Err ("failed to get scale object: " +:+ err)
  | Ok (selector, replicas) =>
      match GetPodsBySelector labels_Parse c w (buf_Namespace buffer) selector with
      | Err err => Err ("failed to get existing pod for scale object: " +:+ err)
      | Ok podsList => Ok ((λ p, buildPodTemplateFromPod p.2) <$> getMostRecentPod podsList, replicas)
      end
  end.

Definition resolveSpecAndReplicas c (resolve : Resolver) w buffer (ref : ScalableRef) :
    result string (PodTemplateSpec Rest * option Z) :=
  let live := useScaleResolver c w buffer ref in
  match live with
  | Ok (Some spec, replicas) => Ok (spec, Some replicas)
  | _ =>
      match useSupportedResolvers c w buffer ref with
      | Err resolveErr =>
          match live with
          | Err livePodErr => Err ("failed to resolve live pod: " +:+ livePodErr +:+ ", failed to resolve scalable object: " +:+ resolveErr)
          | Ok _ => Err ("failed to resolve scalable object: " +:+ resolveErr)
          end
      | Ok (spec, replicas) =>
          match resolve w (buf_Namespace buffer) spec with
          | Err err => Err ("failed to resolve pod spec: " +:+ err)
          | Ok fakePod => Ok (getPodTemplateSpecFromPod fakePod, replicas)
          end
      end
  end.

(** ** The translators *)

(** The end both translators share, once the managed template is there: a
    misconfigured number of pods is a condition and not an error. *)
Definition set_number_of_pods buffer (managedPodTemplate : PodTemplate Rest) (replicas : option Z) now : CapacityBuffer :=
  match getBufferNumberOfPods buffer (tpl_Template managedPodTemplate) replicas with
  | Err err =>
      SetBufferAsNotReadyForProvisioning buffer (Some (tpl_Name managedPodTemplate)) (Some (tpl_Generation managedPodTemplate))
        None (sp_ProvisioningStrategy (buf_Spec buffer)) (Some ("couldn't get number of replicas for buffer: " +:+ err)) now
  | Ok numberOfPods =>
      SetBufferAsReadyForProvisioning buffer (Some (tpl_Name managedPodTemplate)) (Some (tpl_Generation managedPodTemplate))
        (Some numberOfPods) (sp_ProvisioningStrategy (buf_Spec buffer)) now
  end.

Definition translation_failed buffer (err : string) now : CapacityBuffer :=
  SetBufferAsNotReadyForProvisioning buffer None None None (sp_ProvisioningStrategy (buf_Spec buffer)) (Some err) now.

Definition ensureManagedPodTemplate c (resolve : Resolver) w buffer (sourcePodTemplate : PodTemplate Rest) :
    W * result string (PodTemplate Rest) :=
  match resolve w (buf_Namespace buffer) (tpl_Template sourcePodTemplate) with
  | Err err => (w, Err ("failed to create fake pod: " +:+ err))
  | Ok fakePod =>
      match EnsurePodTemplate templates_equal c w (getPodTemplateFromSpec (getPodTemplateSpecFromPod fakePod) buffer) with
      | (w, Err err) => (w, Err ("failed to create or update managed pod template: " +:+ api_text err))
      | (w, Ok managedPodTemplate) => (w, Ok managedPodTemplate)
      end
  end.

(** The translation of one buffer: the API server's state, the buffer and the
    error it is retried for. *)
Definition podTemplate_translateBuffer c (resolve : Resolver) w buffer now : W * CapacityBuffer * option string :=
  match sp_PodTemplateRef (buf_Spec buffer) with
  | None => (w, buffer, None)
  | Some podTemplateRef =>
      match GetPodTemplate c w (buf_Namespace buffer) podTemplateRef with
      | Err err => (w, translation_failed buffer (api_text err) now, Some (api_text err))
      | Ok sourcePodTemplate =>
          match ensureManagedPodTemplate c resolve w buffer sourcePodTemplate with
          | (w, Err err) => (w, translation_failed buffer err now, Some err)
          | (w, Ok managedPodTemplate) => (w, set_number_of_pods buffer managedPodTemplate None now, None)
          end
      end
  end.

Definition scalable_translateBuffer c (resolve : Resolver) w buffer now : W * CapacityBuffer * option string :=
  match sp_ScalableRef (buf_Spec buffer) with
  | None => (w, buffer, None)
  | Some ref =>
      match resolveSpecAndReplicas c resolve w buffer ref with
      | Err err => (w, translation_failed buffer err now, Some err)
      | Ok (spec, replicas) =>
          match EnsurePodTemplate templates_equal c w (getPodTemplateFromSpec spec buffer) with
          | (w, Err err) => (w, translation_failed buffer (api_text err) now, Some (api_text err))
          | (w, Ok managedTemplate) => (w, set_number_of_pods buffer managedTemplate replicas now, None)
          end
      end
  end.

(** A translator runs over all the buffers and collects the errors. *)
Definition translate_step (translateBuffer : W → CapacityBuffer → W * CapacityBuffer * option string)
    (acc : W * list CapacityBuffer * list string) buffer : W * list CapacityBuffer * list string :=
  let '(w, done, errors) := acc in
  let '(w, buffer, err) := translateBuffer w buffer in
  (w, done ++ [buffer], errors ++ option_list err).

Definition Translate (translateBuffer : W → CapacityBuffer → W * CapacityBuffer * option string) w
    (buffers : list CapacityBuffer) : W * list CapacityBuffer * list string :=
  foldl (translate_step translateBuffer) (w, [], []) buffers.

(** [combinedTranslator]: one translator after the other. *)
Definition combined_Translate (translators : list (W → CapacityBuffer → W * CapacityBuffer * option string)) w
    (buffers : list CapacityBuffer) : W * list CapacityBuffer * list string :=
  foldl (λ acc translator,
      let '(w, buffers, errors) := acc in
      let '(w, buffers, bufferErrors) := Translate translator w buffers in
      (w, buffers, errors ++ bufferErrors)) (w, buffers, []) translators.

Definition default_translators c (resolve : Resolver) now : list (W → CapacityBuffer → W * CapacityBuffer * option string) :=
  [λ w b, podTemplate_translateBuffer c resolve w b now; λ w b, scalable_translateBuffer c resolve w b now].

(** ** How many pods *)

(** The number of pods of a request that a limit leaves room for. *)
Definition limit_quotient (limits : gmap string Quantity) (request : string * Quantity) : option Z :=
  if decide (0 < MilliValue request.2)
  then (λ l, MilliValue l `div` MilliValue request.2) <$> limits !! request.1 else None.

(** No limit is negative or makes for more pods than 32 bits count. *)
Definition limits_counted (podRequests limits : gmap string Quantity) : Prop :=
  ∀ r q n, podRequests !! r = Some q → limit_quotient limits (r, q) = Some n → 0 ≤ n ≤ int32_max.

Lemma limit_loop limits l : ∀ m f,
  (∀ kq n, kq ∈ l → limit_quotient limits kq = Some n → 0 ≤ n ≤ int32_max) →
  foldl (limit_step limits) (m, f) l =
  foldl (λ st x, (Z.min st.1 x, true)) (m, f) (omap (limit_quotient limits) l).
Proof.
  induction l as [|[r q] l IH]; intros m f Hl; [done|]. csimpl.
  assert (∀ kq n, kq ∈ l → limit_quotient limits kq = Some n → 0 ≤ n ≤ int32_max) as Hl'
    by (intros; eapply Hl; [by right|done]).
  pose proof (λ n, Hl (r, q) n ltac:(left)) as Hq.
  assert (limit_quotient limits (r, q) = if decide (0 < MilliValue q)
    then (λ l, MilliValue l `div` MilliValue q) <$> limits !! r else None) as Hlq by done.
  rewrite Hlq in Hq |- *. clear Hlq. unfold limit_step at 2. simpl.
  destruct (Z.leb_spec (MilliValue q) 0).
  { rewrite decide_False by lia. by apply IH. }
  rewrite decide_True in Hq |- * by done. destruct (limits !! r) as [lim|]; simpl in *; [|by apply IH].
  specialize (Hq _ eq_refl).
  assert (Z.quot (MilliValue lim) (MilliValue q) = MilliValue lim `div` MilliValue q) as ->.
  { apply Z.quot_div_nonneg; [|lia]. destruct (decide (0 ≤ MilliValue lim)); [done|].
    pose proof (Z.div_lt_upper_bound (MilliValue lim) (MilliValue q) 0). lia. }
  rewrite wrap32_id by (unfold int32_max in *; lia).
  destruct (Z.ltb_spec (MilliValue lim `div` MilliValue q) 0); [lia|]. by apply IH.
Qed.

Lemma foldl_min l : ∀ m f,
  let '(m', f') := foldl (λ st x, (Z.min st.1 x, true)) (m, f) l in
  (m' ≤ m ∧ (∀ x, x ∈ l → m' ≤ x) ∧ (m' = m ∨ m' ∈ l) ∧ f' = f || bool_decide (l ≠ [])).
Proof.
  induction l as [|x l IH]; intros m f; simpl.
  { split_and!; [done|set_solver|by left|by rewrite orb_false_r]. }
  specialize (IH (m `min` x) true). destruct (foldl _ _ l) as [m' f']. destruct IH as (? & ? & Hm & ->).
  split_and!.
  - lia.
  - intros y [->|]%elem_of_cons; [lia|auto].
  - destruct Hm as [Hm|]; [|by right; right]. destruct (Z.min_spec m x) as [[_ Hx]|[_ Hx]]; rewrite Hx in Hm; subst.
    + by left.
    + right. left.
  - by rewrite orb_true_r.
Qed.

(** A number of pods respects the limits. *)
Definition within_limits (podRequests limits : gmap string Quantity) (n : Z) : Prop :=
  ∀ r q l, podRequests !! r = Some q → limits !! r = Some l → 0 < MilliValue q → n * MilliValue q ≤ MilliValue l.
Definition limited (podRequests limits : gmap string Quantity) : Prop :=
  ∃ r q l, podRequests !! r = Some q ∧ limits !! r = Some l ∧ 0 < MilliValue q.

Lemma calculateMaxPodsFromLimits_spec podRequests limits :
  limits_counted podRequests limits →
  match calculateMaxPodsFromLimits podRequests limits with
  | Ok n => limited podRequests limits ∧ 0 ≤ n ≤ int32_max ∧
      ∀ m, m ≤ n ↔ m ≤ int32_max ∧ within_limits podRequests limits m
  | Err _ => ¬ limited podRequests limits
  end.
Proof.
  intros Hc. unfold calculateMaxPodsFromLimits.
  assert (∀ kq n, kq ∈ go_range podRequests → limit_quotient limits kq = Some n → 0 ≤ n ≤ int32_max) as Hl.
  { intros [r q] n Hin%elem_of_go_range Hn. by eapply Hc. }
  rewrite limit_loop by done. pose proof (foldl_min (omap (limit_quotient limits) (go_range podRequests)) int32_max false) as Hm.
  destruct (foldl _ _ _) as [n f]. destruct Hm as (Hmax & Hle & Hn & Hf).
  assert (∀ x, x ∈ omap (limit_quotient limits) (go_range podRequests) ↔
    ∃ r q l, podRequests !! r = Some q ∧ limits !! r = Some l ∧ 0 < MilliValue q ∧ x = MilliValue l `div` MilliValue q) as Hx.
  { intros x. rewrite list_elem_of_omap. unfold limit_quotient. split.
    - intros ([r q] & Hin%elem_of_go_range & Hq). simpl in Hq. case_decide; [|done].
      apply fmap_Some in Hq as (l & Hlim & ->). eauto 10.
    - intros (r & q & l & Hr & Hlim & Hq & ->). exists (r, q). rewrite elem_of_go_range. split; [done|]. simpl.
      by rewrite decide_True, Hlim by done. }
  assert (limited podRequests limits ↔ omap (limit_quotient limits) (go_range podRequests) ≠ []) as Hlim.
  { split.
    - intros (r & q & l & ? & ? & ?) Hnil. eapply (not_elem_of_nil (MilliValue l `div` MilliValue q)).
      rewrite <- Hnil. apply Hx. eauto 10.
    - intros Hne. destruct (omap _ _) as [|x xs] eqn:Ho; [done|].
      assert (x ∈ x :: xs) as (r & q & l & ? & ? & ? & _)%Hx by left. by exists r, q, l. }
  subst f. simpl. case_bool_decide as Hne; [|by intros ?%Hlim]. split_and!.
  - by apply Hlim.
  - destruct Hn as [->|Hn]; [by vm_compute|]. apply list_elem_of_omap in Hn as (kq & Hin & Hq). by destruct (Hl kq n Hin Hq).
  - done.
  - intros m. split.
    + intros Hmn. split; [lia|]. intros r q l Hr Hlr Hq.
      assert (n ≤ MilliValue l `div` MilliValue q) as Hnl by (apply Hle, Hx; eauto 10).
      pose proof (Z.mul_div_le (MilliValue l) (MilliValue q) Hq). nia.
    + intros [Hm32 Hw]. destruct Hn as [->|(r & q & l & Hr & Hlr & Hq & ->)%Hx]; [done|].
      apply Z.div_le_lower_bound; [done|]. rewrite Z.mul_comm. by eapply Hw.
Qed.

(** The percentage of a number, neither negative, rounded up. *)
Definition percent_up (p s : Z) : Z := - ((- (Z.max 0 p * Z.max 0 s)) `div` 100).

(** The number of pods a buffer asks for outright: its replicas and the
    percentage, rounded up, of the replicas of its scalable object. *)
Definition asked buffer (scalableReplicas : option Z) : option Z :=
  match sp_Replicas (buf_Spec buffer), sp_Percentage (buf_Spec buffer), scalableReplicas with
  | Some r, Some p, Some s => Some (Z.max (Z.max 0 r) (percent_up p s))
  | Some r, _, _ => Some (Z.max 0 r)
  | None, Some p, Some s => Some (percent_up p s)
  | None, _, _ => None
  end.

(** The percentage does not overflow 32 bits. *)
Definition percentage_counted buffer (scalableReplicas : option Z) : Prop :=
  ∀ p s, sp_Percentage (buf_Spec buffer) = Some p → scalableReplicas = Some s →
    0 < p → 0 < s → p * s + 99 ≤ int32_max.

Lemma replicasFromPercentage_spec p s :
  (0 < p → 0 < s → p * s + 99 ≤ int32_max) →
  replicasFromPercentage p s = percent_up p s ∧ 0 ≤ replicasFromPercentage p s.
Proof.
  intros Hb. unfold replicasFromPercentage, percent_up.
  destruct (Z.leb_spec p 0); [rewrite (Z.max_l 0 p) by lia; done|].
  destruct (Z.leb_spec s 0); [rewrite (Z.max_l 0 s), Z.mul_0_r by lia; done|]. simpl.
  specialize (Hb ltac:(lia) ltac:(lia)). unfold int32_max in *.
  assert (0 < p * s) by nia.
  rewrite !Z.max_r by lia. rewrite (wrap32_id (p * s)) by (unfold int32_max; lia).
  rewrite wrap32_id by (unfold int32_max; lia). rewrite Z.quot_div_nonneg by lia.
  split; [|apply Z.div_pos; lia].
  symmetry. rewrite <- (Z.opp_involutive ((p * s + 99) `div` 100)). f_equal.
  pose proof (Z.div_mod (- (p * s)) 100 ltac:(lia)). pose proof (Z.mod_pos_bound (- (p * s)) 100 ltac:(lia)).
  pose proof (Z.div_mod (p * s + 99) 100 ltac:(lia)). pose proof (Z.mod_pos_bound (p * s + 99) 100 ltac:(lia)). lia.
Qed.

Lemma getBufferNumberOfPods_asked buffer podTemplate scalableReplicas :
  percentage_counted buffer scalableReplicas →
  getBufferNumberOfPods buffer podTemplate scalableReplicas =
  match sp_Limits (buf_Spec buffer) with
  | Some limits =>
      match limitNumberOfPodsForResource podTemplate limits with
      | Err err => Err err
      | Ok n => Ok (match asked buffer scalableReplicas with Some k => Z.min k n | None => n end)
      end
  | None => match asked buffer scalableReplicas with
            | Some k => Ok k
            | None => Err "replicas, percentage and limits are not defined"
            end
  end ∧ (∀ k, asked buffer scalableReplicas = Some k → 0 ≤ k).
Proof.
  intros Hp. unfold getBufferNumberOfPods, asked. unfold percentage_counted in Hp.
  destruct (sp_Percentage (buf_Spec buffer)) as [p|], scalableReplicas as [s|];
    try (assert (replicasFromPercentage p s = percent_up p s ∧ 0 ≤ replicasFromPercentage p s)
      as [Heq Hpos] by (apply replicasFromPercentage_spec; eauto); rewrite <- Heq);
    destruct (sp_Replicas (buf_Spec buffer)) as [r|], (sp_Limits (buf_Spec buffer)) as [limits|]; simpl;
    try (destruct (limitNumberOfPodsForResource podTemplate limits) as [n|e]);
    repeat match goal with
    | |- context [Z.max (-1) (replicasFromPercentage p s)] => rewrite (Z.max_r (-1)) by lia
    | |- context [0 <=? ?x] => first [rewrite (proj2 (Z.leb_le 0 x)) by lia | rewrite (proj2 (Z.leb_gt 0 x)) by lia]
    end; (split; [done|intros k [= <-]; lia || done]).
Qed.


(** ** What a translation leaves behind *)

(** A translated buffer is ready, with a template and a number of pods that it
    asks for, or not ready and with no number of pods. *)
Definition settled (b b' : CapacityBuffer) : Prop :=
  match st_Replicas (buf_Status b') with
  | Some n => IsStatusConditionTrue (st_Conditions (buf_Status b')) ReadyForProvisioningCondition = true ∧
      is_Some (st_PodTemplateRef (buf_Status b')) ∧ is_Some (st_PodTemplateGeneration (buf_Status b')) ∧
      0 ≤ n ∧ ∃ podTemplate scalableReplicas, getBufferNumberOfPods b podTemplate scalableReplicas = Ok n
  | None => IsStatusConditionFalse (st_Conditions (buf_Status b')) ReadyForProvisioningCondition = true
  end.

Lemma number_of_pods_nonneg buffer podTemplate scalableReplicas n :
  getBufferNumberOfPods buffer podTemplate scalableReplicas = Ok n → 0 ≤ n.
Proof.
  unfold getBufferNumberOfPods, limitNumberOfPodsForResource, calculateMaxPodsFromLimits. cbv zeta.
  set (replicas := match sp_Percentage _ with Some _ => _ | None => _ end). clearbody replicas.
  destruct (sp_Limits (buf_Spec buffer)) as [limits|].
  - set (l := go_range _). assert (0 ≤ (foldl (limit_step limits) (int32_max, false) l).1) as Hpos.
    { apply (foldl_inv (λ st, 0 ≤ st.1)); [by vm_compute|]. intros [m f] [r q] _ Hm. unfold limit_step. simpl in *.
      destruct (_ <=? 0); [done|]. destruct (limits !! r); [|done].
      destruct (Z.ltb_spec (wrap32 (Z.quot (MilliValue q0) (MilliValue q))) 0); simpl; lia. }
    destruct (foldl _ _ l) as [m []]; [|done]. simpl in Hpos.
    destruct (Z.leb_spec 0 replicas); intros [= <-]; lia.
  - destruct (Z.leb_spec 0 replicas); intros [= <-]; lia.
Qed.

Lemma set_attributes_settled b tref gen n strategy cond :
  CondType cond = ReadyForProvisioningCondition →
  same_buffer b (set_attributes b tref gen n strategy cond) ∧
  ∃ cn, FindStatusCondition (st_Conditions (buf_Status (set_attributes b tref gen n strategy cond)))
         ReadyForProvisioningCondition = Some cn ∧ CondStatus cn = CondStatus cond.
Proof.
  intros Ht. split; [by destruct b|]. simpl.
  destruct (set_condition_self (st_Conditions (buf_Status b)) cond) as (c & Hc & ? & _). rewrite <- Ht. eauto.
Qed.

Lemma translation_failed_settled b err now :
  same_buffer b (translation_failed b err now) ∧ settled b (translation_failed b err now).
Proof.
  unfold translation_failed, SetBufferAsNotReadyForProvisioning, settled.
  edestruct (set_attributes_settled b) as [Hs (c & Hc & Hst)]; [|split; [exact Hs|]]; [done|].
  unfold IsStatusConditionFalse. rewrite Hc, Hst. done.
Qed.

Lemma set_number_settled b t replicas now :
  same_buffer b (set_number_of_pods b t replicas now) ∧ settled b (set_number_of_pods b t replicas now).
Proof.
  unfold set_number_of_pods. destruct (getBufferNumberOfPods b (tpl_Template t) replicas) as [n|err] eqn:Hn.
  - unfold SetBufferAsReadyForProvisioning, settled.
    edestruct (set_attributes_settled b) as [Hs (c & Hc & Hst)]; [|split; [exact Hs|]]; [done|]. simpl in *.
    unfold IsStatusConditionTrue. rewrite Hc, Hst. split_and!; eauto. by eapply number_of_pods_nonneg.
  - unfold SetBufferAsNotReadyForProvisioning, settled.
    edestruct (set_attributes_settled b) as [Hs (c & Hc & Hst)]; [|split; [exact Hs|]]; [done|]. simpl in *.
    unfold IsStatusConditionFalse. by rewrite Hc, Hst.
Qed.

(** One buffer under one translator that acts on buffers with a reference. *)
Definition translated (acts : bool) (b b' : CapacityBuffer) : Prop :=
  if acts then same_buffer b b' ∧ settled b b' else b' = b.

Lemma translated_same acts b b' : translated acts b b' → same_buffer b b'.
Proof. destruct acts; [by intros [? _]|]. intros ->. apply same_buffer_refl. Qed.

Lemma podTemplate_translated c resolve w b now :
  translated (bool_decide (is_Some (sp_PodTemplateRef (buf_Spec b)))) b (podTemplate_translateBuffer c resolve w b now).1.2.
Proof.
  unfold podTemplate_translateBuffer. destruct (sp_PodTemplateRef (buf_Spec b)) as [r|]; [|done].
  rewrite bool_decide_eq_true_2 by eauto. simpl.
  destruct (GetPodTemplate _ _ _ _); [|apply translation_failed_settled].
  destruct (ensureManagedPodTemplate _ _ _ _ _) as [? []]; [apply set_number_settled|apply translation_failed_settled].
Qed.

Lemma scalable_translated c resolve w b now :
  translated (bool_decide (is_Some (sp_ScalableRef (buf_Spec b)))) b (scalable_translateBuffer c resolve w b now).1.2.
Proof.
  unfold scalable_translateBuffer. destruct (sp_ScalableRef (buf_Spec b)) as [r|]; [|done].
  rewrite bool_decide_eq_true_2 by eauto. simpl.
  destruct (resolveSpecAndReplicas _ _ _ _ _) as [[spec replicas]|]; [|apply translation_failed_settled].
  destruct (EnsurePodTemplate _ _ _ _) as [? []]; [apply set_number_settled|apply translation_failed_settled].
Qed.

Lemma Translate_Forall2 (R : CapacityBuffer → CapacityBuffer → Prop) f w buffers :
  (∀ w b, R b (f w b).1.2) → Forall2 R buffers (Translate f w buffers).1.2.
Proof.
  intros Hf. unfold Translate.
  assert (∀ bs w done errs done0, Forall2 R done0 done →
    Forall2 R (done0 ++ bs) (foldl (translate_step f) (w, done, errs) bs).1.2) as Hgen.
  { induction bs as [|b bs IH]; intros w' done errs done0 Hd; simpl; [by rewrite app_nil_r|].
    pose proof (Hf w' b) as Hb. destruct (f w' b) as [[w'' b'] e].
    rewrite cons_middle, app_assoc. apply IH. apply Forall2_app; [done|]. by constructor. }
  apply (Hgen buffers w [] [] []). constructor.
Qed.

(** A reconciliation of capacity buffers settles every buffer it
    translates and changes nothing but its status: a buffer with a pod template
    or a scalable object ends ready, with a managed template and a number of
    pods, not negative, that its spec asks for, or not ready and with no number
    of pods at all; a buffer that names neither is left alone. *)
Theorem translation_settles c resolve w buffers now :
  Forall2 (λ b b', same_buffer b b' ∧
      if bool_decide (is_Some (sp_PodTemplateRef (buf_Spec b)) ∨ is_Some (sp_ScalableRef (buf_Spec b)))
      then settled b b' else b' = b)
    buffers (combined_Translate (default_translators c resolve now) w buffers).1.2.
Proof.
  unfold combined_Translate, default_translators. simpl.
  pose proof (Translate_Forall2 (λ b, translated (bool_decide (is_Some (sp_PodTemplateRef (buf_Spec b)))) b) (λ w b, podTemplate_translateBuffer c resolve w b now) w buffers
    (λ w b, podTemplate_translated c resolve w b now)) as H1'.
  destruct (Translate _ w buffers) as [[w1 bs1] e1]. simpl in H1'.
  pose proof (Translate_Forall2 (λ b, translated (bool_decide (is_Some (sp_ScalableRef (buf_Spec b)))) b) (λ w b, scalable_translateBuffer c resolve w b now) w1 bs1
    (λ w b, scalable_translated c resolve w b now)) as H2'.
  destruct (Translate _ w1 bs1) as [[w2 bs2] e2]. simpl in *.
  eapply Forall2_trans; [|exact H1'|exact H2']. clear. intros b b1 b2 Hb1 Hb2. simpl in *.
  pose proof (translated_same _ _ _ Hb1) as Hs1. pose proof (translated_same _ _ _ Hb2) as Hs2.
  split; [by eapply same_buffer_trans|].
  rewrite (same_buffer_spec _ _ Hs1) in Hb2. unfold translated in *.
  destruct (sp_ScalableRef (buf_Spec b)) as [r|].
  - rewrite bool_decide_eq_true_2 by eauto. rewrite bool_decide_eq_true_2 in Hb2 by eauto.
    destruct Hb2 as [_ Hset]. unfold settled in *. destruct (st_Replicas (buf_Status b2)) as [n|]; [|done].
    destruct Hset as (? & ? & ? & ? & t & s & Hn). split_and!; [done..|]. exists t, s.
    unfold getBufferNumberOfPods in *. by rewrite (same_buffer_spec _ _ Hs1) in Hn.
  - rewrite bool_decide_eq_false_2 in Hb2 by (by intros [? ?]). subst b2.
    destruct (sp_PodTemplateRef (buf_Spec b)) as [r|].
    + rewrite bool_decide_eq_true_2 by eauto. by rewrite bool_decide_eq_true_2 in Hb1 by eauto; destruct Hb1.
    + rewrite bool_decide_eq_false_2 by (by intros [[? ?]|[? ?]]).
      by rewrite bool_decide_eq_false_2 in Hb1 by (by intros [? ?]).
Qed.
End translation.

(** ** Examples *)

Module TranslationExample.
#[local] Existing Instances SimilarExample.ql SimilarExample.qc BufferInstances.exact BufferInstances.conditions
  BufferInstances.conditions_update.
Definition asks (replicas percentage : option Z) (limits : option (gmap string Quantity)) : CapacityBuffer :=
  mkBuffer _ "a" "ns" "u" 1 "1" 0 (mkBufferSpec _ None None (Some (mkScalableRef "apps" "Deployment" "d")) replicas percentage limits)
    (mkBufferStatus None None None None []).
Definition pods (b : CapacityBuffer) (scalable : Z) : result string Z :=
  getBufferNumberOfPods BufferInstances.requests b BufferInstances.pts (Some scalable).

(** 10% of 25 replicas, and at most what two and a half cores are enough for. *)
Example percentage_rounds_up : pods (asks None (Some 10) None) 25 = Ok 3.
Proof. vm_compute. reflexivity. Qed.
Example limited_by_cores : pods (asks None (Some 10) (Some {[ResourceCPU := 2500 : Quantity]})) 25 = Ok 2.
Proof. vm_compute. reflexivity. Qed.

(** The product of the percentage and the replicas overflows 32 bits: the
    percentage is as if it were not there. *)
Example percentage_overflows :
  pods (asks None (Some 100) None) 30000000 = Err "replicas, percentage and limits are not defined"%string.
Proof. vm_compute. reflexivity. Qed.

(** A limit that makes for 2^32 pods makes for none. *)
Example limit_truncated : pods (asks (Some 5) None (Some {[ResourceCPU := 1000 * 2 ^ 32 : Quantity]})) 0 = Ok 0.
Proof. vm_compute. reflexivity. Qed.

(** Two buffers of one namespace share their managed template when their names
    agree in the first 225 characters. *)
Definition long (last : string) : CapacityBuffer :=
  mkBuffer _ (String.concat "" (replicate 225 "x"%string) +:+ last) "ns" "u" 1 "1" 0
    (mkBufferSpec _ None None None None None None) (mkBufferStatus None None None None []).
Example templates_collide :
  buf_Name (long "1") ≠ buf_Name (long "2") ∧ getPodTemplateNameForBuffer (long "1") = getPodTemplateNameForBuffer (long "2").
Proof. split; [by vm_compute|vm_compute; reflexivity]. Qed.

Lemma counted l : limits_counted (H := SimilarExample.ql) {[ResourceCPU := 1000]} {[ResourceCPU := l]} ↔ 0 ≤ l `div` 1000 ≤ int32_max.
Proof.
  unfold limits_counted, limit_quotient. split.
  - intros Hc. by apply (Hc ResourceCPU 1000); vm_compute.
  - intros Hl r q n [<- <-]%lookup_singleton_Some. simpl. rewrite lookup_singleton_eq. by intros [= <-].
Qed.

End TranslationExample.
