(* ===== verification/BufferQuotas.v ===== *)
(** The allocation of resource quotas to capacity buffers
    (src/pkg/capacitybuffer/controller/resourcequotas.go): which quotas a pod
    counts against, how many replicas fit into what is left of one, and the
    pass over the buffers of a namespace that reserves what it grants. A
    quantity is its value here: what a quantity shares with its copies inside
    the API machinery is not modelled. *)
From stdpp Require Import prelude gmap strings list numbers fin_maps.
From S2P Require Import Prelude Api Drain Framework Pdb ProvReq Utilization Similar CapacityBuffer.
Local Open Scope Z_scope.

Section quotas.
Context `{GR : GoRange} `{QE : QuantityExact} `{StatusConditionUpdate} {Rest W : Type}.
(** Third-party code: the requests of a pod, and the label requirement of a
    key, an operator and values, which may be malformed. *)
Context (PodRequests : BufferPod Rest → gmap string Quantity)
  (NewRequirement : string → string → list string → result string (gmap string string → bool)).
Abbreviation Client := (CapacityBufferClient (Rest := Rest) (W := W)).
Implicit Types (c : Client) (w : W) (buffer : CapacityBuffer) (pod : BufferPod Rest) (quota : ResourceQuota)
  (podReqs reserved : gmap string Quantity) (usages : gmap string (gmap string Quantity)).

(** ** Scopes *)

Definition ScopeTerminating : string := "Terminating".
Definition ScopeNotTerminating : string := "NotTerminating".
Definition ScopeBestEffort : string := "BestEffort".
Definition ScopeNotBestEffort : string := "NotBestEffort".
Definition ScopePriorityClass : string := "PriorityClass".
Definition ScopeCrossNamespacePodAffinity : string := "CrossNamespacePodAffinity".

Definition isBestEffort pod : bool :=
  let podReqs := PodRequests pod in
  if bool_decide (is_Some (podReqs !! ResourceCPU)) then false
  else if bool_decide (is_Some (podReqs !! ResourceMemory)) then false
  else true.

Definition isCrossNamespacePodAffinityTerm (term : PodAffinityTerm Rest) : bool :=
  negb (bool_decide (term_Namespaces term = [])) || match term_NamespaceSelector term with Some _ => true | None => false end.
Definition isCrossNamespacePodAffinityTerms (terms : list (PodAffinityTerm Rest)) : bool :=
  existsb isCrossNamespacePodAffinityTerm terms.
Definition isCrossNamespaceWeightedPodAffinityTerms (terms : list (Z * PodAffinityTerm Rest)) : bool :=
  existsb (λ t, isCrossNamespacePodAffinityTerm t.2) terms.
Definition uses_terms (affinity : option (PodAffinity Rest)) : bool :=
  match affinity with
  | None => false
  | Some a => isCrossNamespacePodAffinityTerms (RequiredTerms a) || isCrossNamespaceWeightedPodAffinityTerms (PreferredTerms a)
  end.
Definition usesCrossNamespacePodAffinity pod : bool :=
  match spec_Affinity (bp_Spec pod) with
  | None => false
  | Some (podAffinity, podAntiAffinity) => uses_terms podAffinity || uses_terms podAntiAffinity
  end.

(** Kubernetes' operators and those of label selectors. *)
Definition scopedResourceSelectorRequirementsAsSelector (ssr : ScopeRequirement) : result string (gmap string string → bool) :=
  let op := if bool_decide (ss_Operator ssr = "In") then Some "in"
            else if bool_decide (ss_Operator ssr = "NotIn") then Some "notin"
            else if bool_decide (ss_Operator ssr = "Exists") then Some "exists"
            else if bool_decide (ss_Operator ssr = "DoesNotExist") then Some "!"
            else None in
  match op with
  | None => Err (ss_Operator ssr +:+ " is not a valid scope selector operator")
  | Some op => NewRequirement (ss_ScopeName ssr) op (ss_Values ssr)
  end.

Definition podMatchesPriorityClass pod (selector : ScopeRequirement) : result string bool :=
  let class := PriorityClassName (bp_Spec pod) in
  if bool_decide (ss_Operator selector = "Exists") then Ok (negb (bool_decide (class = "")))
  else match scopedResourceSelectorRequirementsAsSelector selector with
       | Err err => Err ("failed to parse and convert selector: " +:+ err)
       | Ok labelSelector => Ok (labelSelector (if bool_decide (class = "") then ∅ else {[ScopePriorityClass := class]}))
       end.

Definition podMatchesSelector pod (selector : ScopeRequirement) : result string bool :=
  let scope := ss_ScopeName selector in
  if bool_decide (scope = ScopeNotTerminating) then Ok true
  else if bool_decide (scope = ScopeTerminating) then Ok false
  else if bool_decide (scope = ScopeBestEffort) then Ok (isBestEffort pod)
  else if bool_decide (scope = ScopeNotBestEffort) then Ok (negb (isBestEffort pod))
  else if bool_decide (scope = ScopePriorityClass) then podMatchesPriorityClass pod selector
  else if bool_decide (scope = ScopeCrossNamespacePodAffinity) then Ok (usesCrossNamespacePodAffinity pod)
  else Ok false.

Definition getScopeSelectorsFromQuota quota : list ScopeRequirement :=
  ((λ scope, mkScope scope "Exists" []) <$> rq_Scopes quota) ++ default [] (rq_ScopeSelector quota).

Fixpoint matches_all pod (selectors : list ScopeRequirement) (matches : bool) : result string bool :=
  match selectors with
  | [] => Ok matches
  | selector :: rest =>
      match podMatchesSelector pod selector with
      | Err err => Err err
      | Ok innerMatch => matches_all pod rest (matches && innerMatch)
      end
  end.
Definition podMatchesQuotaScope pod quota : result string bool :=
  matches_all pod (getScopeSelectorsFromQuota quota) true.

(** ** What fits *)

Definition calculatePodRequests pod : gmap string Quantity :=
  foldl (λ result rq, <["requests." +:+ rq.1 := rq.2]> (<[rq.1 := rq.2]> result)) ∅ (go_range (PodRequests pod)).

(** The loop over the hard limits; [None] returns 0 at once. *)
Fixpoint fit_loop quota podReqs reserved (hard : list (string * Quantity)) (maxReplicas : Z) : option Z :=
  match hard with
  | [] => Some maxReplicas
  | (resName, hardLimit) :: rest =>
      match podReqs !! resName with
      | None => fit_loop quota podReqs reserved rest maxReplicas
      | Some reqQuantity =>
          if qty_is_zero reqQuantity then fit_loop quota podReqs reserved rest maxReplicas
          else
            let usedQuantity := default qty_zero (rq_Used quota !! resName) in
            let reservedQuantity := default qty_zero (reserved !! resName) in
            let available := qty_sub (qty_sub hardLimit usedQuantity) reservedQuantity in
            if QtyValue available <? 0 then None
            else let fit := wrap64 (qty_quo_down available reqQuantity) in
                 fit_loop quota podReqs reserved rest (if fit <? maxReplicas then fit else maxReplicas)
      end
  end.

Definition getMaxReplicasForQuota quota podReqs reserved : Z :=
  match fit_loop quota podReqs reserved (go_range (rq_Hard quota)) int64_max with
  | None => 0
  | Some maxReplicas => if int32_max <? maxReplicas then int32_max else wrap32 maxReplicas
  end.

(** What one quota's reservations become. *)
Definition reserve_step quota (replicas : Z) reserved (rq : string * Quantity) : gmap string Quantity :=
  match rq_Hard quota !! rq.1 with
  | None => reserved
  | Some _ => <[rq.1 := qty_add (default qty_zero (reserved !! rq.1)) (qty_mul rq.2 replicas)]> reserved
  end.
Definition updateUsages (quotas : list ResourceQuota) usages podReqs (replicas : Z) : gmap string (gmap string Quantity) :=
  foldl (λ usages quota,
      <[rq_UID quota := foldl (reserve_step quota replicas) (default ∅ (usages !! rq_UID quota)) (go_range podReqs)]> usages)
    usages quotas.

(** ** The allocation *)

(** The pod of a buffer and its requests, when the buffer takes part: it is of
    the namespace, has a template and replicas, and requests something. *)
Definition buffer_pod c w (namespace : string) buffer : option (BufferPod Rest * gmap string Quantity) :=
  if negb (bool_decide (buf_Namespace buffer = namespace)) then None
  else match st_PodTemplateRef (buf_Status buffer), st_PodTemplateGeneration (buf_Status buffer), st_Replicas (buf_Status buffer) with
  | Some ref, Some _, Some _ =>
      match GetPodTemplate c w (buf_Namespace buffer) ref with
      | Err _ => None
      | Ok podTemplate =>
          let pod := GetPodFromTemplate (tpl_Template podTemplate) in
          let pod := with_spec pod (buf_Namespace buffer) (bp_Spec pod) in
          let podReqs := calculatePodRequests pod in
          if bool_decide (podReqs = ∅) then None else Some (pod, podReqs)
      end
  | _, _, _ => None
  end.

(** The variables of the loop over the quotas. *)
Record QuotaLoop : Type := mkQuotaLoop {
  ql_allowed : Z; ql_blocking : list string; ql_matching : list ResourceQuota; ql_errors : list string
}.

Definition quota_step pod podReqs usages (currentReplicas : Z) (st : QuotaLoop) quota : QuotaLoop :=
  match podMatchesQuotaScope pod quota with
  | Err err =>
      mkQuotaLoop (ql_allowed st) (ql_blocking st) (ql_matching st)
        (ql_errors st ++ ["resourceQuotaAllocator: failed to check if pod matches quota " +:+ rq_Name quota +:+ ", error: " +:+ err])
  | Ok false => st
  | Ok true =>
      let maxReplicasForQuota := getMaxReplicasForQuota quota podReqs (default ∅ (usages !! rq_UID quota)) in
      mkQuotaLoop (if maxReplicasForQuota <? ql_allowed st then maxReplicasForQuota else ql_allowed st)
        (if maxReplicasForQuota <? currentReplicas then ql_blocking st ++ [rq_Name quota] else ql_blocking st)
        (ql_matching st ++ [quota]) (ql_errors st)
  end.

(** One buffer: the usages, the buffers done and the errors. *)
Definition allocate_step c w (namespace : string) (now : Z) (quotas : list ResourceQuota)
    (acc : gmap string (gmap string Quantity) * list CapacityBuffer * list string) buffer :
    gmap string (gmap string Quantity) * list CapacityBuffer * list string :=
  let '(usages, done, errors) := acc in
  match buffer_pod c w namespace buffer, st_Replicas (buf_Status buffer) with
  | Some (pod, podReqs), Some currentReplicas =>
      let st := foldl (quota_step pod podReqs usages currentReplicas) (mkQuotaLoop currentReplicas [] [] errors) quotas in
      let buffer := if ql_allowed st <? currentReplicas
                    then MarkBufferAsLimitedByQuota buffer currentReplicas (ql_allowed st) (ql_blocking st) now
                    else UpdateBufferStatusLimitedByQuotas buffer false "" now in
      let usages := if 0 <? ql_allowed st then updateUsages (ql_matching st) usages podReqs (ql_allowed st) else usages in
      (usages, done ++ [buffer], ql_errors st)
  | _, _ => (usages, done ++ [buffer], errors)
  end.

Definition Allocate c w (namespace : string) (buffers : list CapacityBuffer) (now : Z) : list CapacityBuffer * list string :=
  match ListResourceQuotas c w namespace with
  | Err err => (buffers, ["resourceQuotaAllocator: Failed to list resource quotas, error: " +:+ err])
  | Ok quotas =>
      let '(_, buffers, errors) := foldl (allocate_step c w namespace now quotas) (∅, [], []) buffers in
      (buffers, errors)
  end.

(** ** What fits, exactly *)

Lemma calculatePodRequests_elem pod r x :
  calculatePodRequests pod !! r = Some x → ∃ r', PodRequests pod !! r' = Some x.
Proof.
  revert r x. unfold calculatePodRequests.
  apply (foldl_inv (λ m, ∀ r x, m !! r = Some x → ∃ r', PodRequests pod !! r' = Some x)).
  - intros r x. by rewrite lookup_empty.
  - intros m [r' x'] Hin%elem_of_go_range IH r x. simpl. rewrite !lookup_insert.
    repeat case_decide; intros; simplify_eq; eauto.
Qed.

Lemma buffer_pod_requests c w namespace buffer pod podReqs :
  buffer_pod c w namespace buffer = Some (pod, podReqs) → podReqs = calculatePodRequests pod.
Proof.
  unfold buffer_pod. destruct (negb _), (st_PodTemplateRef (buf_Status buffer)),
    (st_PodTemplateGeneration (buf_Status buffer)), (st_Replicas (buf_Status buffer)); try done.
  destruct (GetPodTemplate _ _ _ _); [|done]. cbv zeta. case_bool_decide; [done|]. by intros [= <- <-].
Qed.

(** What is left of a quota for a resource. *)
Definition available quota reserved (r : string) (h : Quantity) : Z :=
  nano h - nano (default qty_zero (rq_Used quota !! r)) - nano (default qty_zero (reserved !! r)).

(** [k] more replicas fit into what is left. *)
Definition fits_quota quota podReqs reserved (k : Z) : Prop :=
  ∀ r h x, rq_Hard quota !! r = Some h → podReqs !! r = Some x → nano x ≠ 0 → k * nano x ≤ available quota reserved r h.
(** There is a resource of which what is left is less than [k] replicas request. *)
Definition short_of_quota quota podReqs reserved (k : Z) : Prop :=
  ∃ r h x, rq_Hard quota !! r = Some h ∧ podReqs !! r = Some x ∧ available quota reserved r h < k * nano x.

(** Requests are not negative, and the replicas that would fit are counted in
    64 bits. *)
Definition countable quota podReqs : Prop :=
  ∀ r x, podReqs !! r = Some x → 0 ≤ nano x ∧
    ∀ h, rq_Hard quota !! r = Some h → nano x ≠ 0 →
      nano h - nano (default qty_zero (rq_Used quota !! r)) ≤ int64_max * nano x.

Lemma fit_loop_spec quota podReqs reserved hard : ∀ m,
  countable quota podReqs → (∀ r, 0 ≤ nano (default qty_zero (reserved !! r))) →
  (∀ r h, (r, h) ∈ hard → rq_Hard quota !! r = Some h) →
  0 ≤ m →
  let counted r h x := (r, h) ∈ hard ∧ podReqs !! r = Some x ∧ nano x ≠ 0 in
  match fit_loop quota podReqs reserved hard m with
  | Some m' => 0 ≤ m' ≤ m ∧ (∀ r h x, counted r h x → m' * nano x ≤ available quota reserved r h) ∧
      (m' = m ∨ ∃ r h x, counted r h x ∧ available quota reserved r h < (m' + 1) * nano x)
  | None => ∃ r h x, counted r h x ∧ available quota reserved r h < 0
  end.
Proof.
  induction hard as [|[r h] hard IH]; intros m Hc Hres Hin Hm; cbv zeta.
  { simpl. split_and!; [lia|lia|set_solver|by left]. }
  assert (∀ r h, (r, h) ∈ hard → rq_Hard quota !! r = Some h) as Hin' by (intros; apply Hin; by right).
  pose proof (Hin r h ltac:(left)) as Hh. simpl.
  destruct (podReqs !! r) as [x|] eqn:Hx.
  2: { specialize (IH m Hc Hres Hin' Hm). cbv zeta in IH. destruct (fit_loop _ _ _ _ _) as [m'|].
       - destruct IH as (? & Hall & Hex). split_and!; [lia|lia|..].
         + intros r' h' x' ([?|]%elem_of_cons & ? & ?); simplify_eq. by apply Hall.
         + destruct Hex as [|(r' & h' & x' & (? & ? & ?) & ?)]; [by left|right; exists r', h', x'].
           split_and!; [by right|done..].
       - destruct IH as (r' & h' & x' & (? & ? & ?) & ?). exists r', h', x'. split_and!; [by right|done..]. }
  destruct (Hc r x Hx) as [Hpos Hcnt]. specialize (Hcnt h Hh).
  destruct (qty_is_zero x) eqn:Hz.
  { apply nano_is_zero in Hz. specialize (IH m Hc Hres Hin' Hm). cbv zeta in IH. destruct (fit_loop _ _ _ _ _) as [m'|].
    - destruct IH as (? & Hall & Hex). split_and!; [lia|lia|..].
      + intros r' h' x' ([?|]%elem_of_cons & ? & ?); simplify_eq. by apply Hall.
      + destruct Hex as [|(r' & h' & x' & (? & ? & ?) & ?)]; [by left|right; exists r', h', x'].
        split_and!; [by right|done..].
    - destruct IH as (r' & h' & x' & (? & ? & ?) & ?). exists r', h', x'. split_and!; [by right|done..]. }
  assert (nano x ≠ 0) as Hnz by (intros Hn; apply nano_is_zero in Hn; congruence).
  assert (0 < nano x) as Hxp by lia. specialize (Hcnt Hnz).
  set (av := qty_sub (qty_sub h _) _). assert (nano av = available quota reserved r h) as Hav
    by (unfold av, available; by rewrite !nano_sub).
  destruct (Z.ltb_spec (QtyValue av) 0) as [Hv|Hv].
  { apply nano_value in Hv. exists r, h, x. split_and!; [left|done..|lia]. }
  assert (0 ≤ nano av) as Hav0 by (destruct (decide (0 ≤ nano av)); [done|]; assert (QtyValue av < 0) by (apply nano_value; lia); lia).
  rewrite nano_quo_down, Z.quot_div_nonneg by lia.
  assert (0 ≤ nano av `div` nano x ≤ int64_max) as Hq.
  { split; [apply Z.div_pos; lia|]. apply Z.div_le_upper_bound; [lia|]. specialize (Hres r).
    unfold available in Hav. lia. }
  rewrite wrap64_id by (unfold int64_min, int64_max in *; lia).
  set (m1 := if _ <? m then _ else m). assert (m1 = Z.min m (nano av `div` nano x)) as Hm1
    by (unfold m1; destruct (Z.ltb_spec (nano av `div` nano x) m); lia).
  clearbody m1. specialize (IH m1 Hc Hres Hin' ltac:(lia)). cbv zeta in IH.
  pose proof (Z.mul_div_le (nano av) (nano x) Hxp). pose proof (Z.mul_succ_div_gt (nano av) (nano x) Hxp).
  destruct (fit_loop _ _ _ _ _) as [m'|].
  - destruct IH as (? & Hall & Hex). split_and!; [lia|lia|..].
    + intros r' h' x' ([?|]%elem_of_cons & ? & ?); simplify_eq; [|by apply Hall].
      rewrite <- Hav. nia.
    + destruct Hex as [->|(r' & h' & x' & (? & ? & ?) & ?)]; [|right; exists r', h', x'; split_and!; [by right|done..]].
      destruct (Z.min_spec m (nano av `div` nano x)) as [[_ Hmin]|[_ Hmin]]; rewrite Hmin in Hm1; [by left|right].
      exists r, h, x. split_and!; [left|done..|]. rewrite <- Hav, Hm1. lia.
  - destruct IH as (r' & h' & x' & (? & ? & ?) & ?). exists r', h', x'. split_and!; [by right|done..].
Qed.

Lemma getMaxReplicasForQuota_spec quota podReqs reserved :
  countable quota podReqs → (∀ r, 0 ≤ nano (default qty_zero (reserved !! r))) →
  let n := getMaxReplicasForQuota quota podReqs reserved in
  0 ≤ n ≤ int32_max ∧ (∀ k, 0 < k ≤ n → fits_quota quota podReqs reserved k) ∧
  (n < int32_max → short_of_quota quota podReqs reserved (n + 1)).
Proof.
  intros Hc Hres. unfold getMaxReplicasForQuota.
  pose proof (fit_loop_spec quota podReqs reserved (go_range (rq_Hard quota)) int64_max Hc Hres
    (λ r h, proj1 (elem_of_go_range _ r h)) ltac:(by vm_compute)) as Hf. cbv zeta in *.
  destruct (fit_loop _ _ _ _ _) as [m|].
  - destruct Hf as (Hm & Hall & Hex).
    assert (∀ k, 0 < k ≤ m → fits_quota quota podReqs reserved k) as Hfit.
    { intros k Hk r h x Hh Hx Hnz. destruct (Hc r x Hx) as [Hx0 _].
      assert (m * nano x ≤ available quota reserved r h) by (apply Hall; by rewrite elem_of_go_range). nia. }
    destruct (Z.ltb_spec int32_max m).
    + split_and!; [by vm_compute|done|intros; apply Hfit; lia|lia].
    + rewrite wrap32_id by lia. split_and!; [lia..|done|]. intros Hlt.
      destruct Hex as [->|(r & h & x & (Hin%elem_of_go_range & Hx & _) & Hav)]; [by vm_compute in Hlt|].
      by exists r, h, x.
  - destruct Hf as (r & h & x & (Hin%elem_of_go_range & Hx & _) & Hav). split_and!; [done|by vm_compute|lia|].
    intros _. exists r, h, x. destruct (Hc r x Hx). split_and!; [done..|lia].
Qed.

(** ** The loops *)

(** What a quota has reserved of a resource. *)
Definition reserved_of usages quota (r : string) : Z := nano (default qty_zero (default ∅ (usages !! rq_UID quota) !! r)).

Definition matches_quota pod quota : bool :=
  match podMatchesQuotaScope pod quota with Ok true => true | _ => false end.

Lemma quota_loop_spec pod podReqs usages current quotas : ∀ st,
  current ≤ int32_max → ql_allowed st ≤ current →
  (∀ q, q ∈ quotas → countable q podReqs) → (∀ q r, q ∈ quotas → 0 ≤ reserved_of usages q r) →
  let st' := foldl (quota_step pod podReqs usages current) st quotas in
  ql_allowed st' ≤ ql_allowed st ∧
  ql_matching st' = ql_matching st ++ filter (λ q, matches_quota pod q = true) quotas ∧
  (∀ q k, q ∈ quotas → matches_quota pod q = true → 0 < k ≤ ql_allowed st' →
     fits_quota q podReqs (default ∅ (usages !! rq_UID q)) k) ∧
  (ql_allowed st' = ql_allowed st ∨ 0 ≤ ql_allowed st' ∧ ∃ q, q ∈ quotas ∧ matches_quota pod q = true ∧
     short_of_quota q podReqs (default ∅ (usages !! rq_UID q)) (ql_allowed st' + 1)).
Proof.
  induction quotas as [|q quotas IH]; intros st Hcur Hst Hc Hres; cbv zeta; simpl.
  { split_and!; [done|by rewrite app_nil_r|set_solver|by left]. }
  assert (∀ q, q ∈ quotas → countable q podReqs) as Hc' by (intros; apply Hc; by right).
  assert (∀ q r, q ∈ quotas → 0 ≤ reserved_of usages q r) as Hres' by (intros; apply Hres; by right).
  destruct (matches_quota pod q) eqn:Hmq.
  - assert (podMatchesQuotaScope pod q = Ok true) as Hpm.
    { unfold matches_quota in Hmq. by destruct (podMatchesQuotaScope pod q) as [[]|]. }
    destruct (getMaxReplicasForQuota_spec q podReqs (default ∅ (usages !! rq_UID q)) (Hc q ltac:(left))
      (λ r, Hres q r ltac:(left))) as (Hn & Hfit & Hshort).
    set (n := getMaxReplicasForQuota _ _ _) in *.
    assert (quota_step pod podReqs usages current st q = mkQuotaLoop (if n <? ql_allowed st then n else ql_allowed st)
      (if n <? current then ql_blocking st ++ [rq_Name q] else ql_blocking st) (ql_matching st ++ [q]) (ql_errors st)) as ->
      by (unfold quota_step; by rewrite Hpm).
    set (st1 := mkQuotaLoop _ _ _ _).
    assert (ql_allowed st1 = Z.min n (ql_allowed st)) as Ha1 by (simpl; destruct (Z.ltb_spec n (ql_allowed st)); lia).
    assert (ql_matching st1 = ql_matching st ++ [q]) as Hm1 by done. clearbody st1.
    destruct (IH st1 Hcur ltac:(lia) Hc' Hres') as (Hle & Hmatch & Hfits & Hcase).
    set (st' := foldl _ st1 quotas) in *. clearbody st'. split_and!.
    + lia.
    + rewrite Hmatch, Hm1, filter_cons_True by done. by rewrite <- app_assoc.
    + intros q' k [->|Hq']%elem_of_cons Hm' Hk; [|by apply Hfits]. apply Hfit. lia.
    + destruct Hcase as [Heq|(H0' & q' & ? & ? & ?)]; [|right; split; [done|]; exists q'; split_and!; [by right|done..]].
      destruct (Z.min_spec n (ql_allowed st)) as [[? Hmin]|[? Hmin]]; rewrite Hmin in Ha1; [right|left; lia].
      split; [lia|]. exists q. split_and!; [left|done|]. rewrite Heq, Ha1. apply Hshort. lia.
  - assert (∃ errs, quota_step pod podReqs usages current st q =
      mkQuotaLoop (ql_allowed st) (ql_blocking st) (ql_matching st) errs) as [errs ->].
    { unfold quota_step, matches_quota in *. destruct (podMatchesQuotaScope pod q) as [[]|]; [done|..]; eauto.
      exists (ql_errors st). by destruct st. }
    set (st1 := mkQuotaLoop _ _ _ errs).
    destruct (IH st1 Hcur Hst Hc' Hres') as (Hle & Hmatch & Hfits & Hcase). split_and!; [done|..].
    + rewrite Hmatch, filter_cons_False by congruence. done.
    + intros q' k [->|Hq']%elem_of_cons Hm' Hk; [congruence|by apply Hfits].
    + destruct Hcase as [Heq|(H0' & q' & ? & ? & ?)]; [by left|right; split; [done|]; exists q'; split_and!; [by right|done..]].
Qed.

Lemma lookup_reserve quota k reserved podReqs r :
  foldl (reserve_step quota k) reserved (go_range podReqs) !! r =
  match podReqs !! r, rq_Hard quota !! r with
  | Some x, Some _ => Some (qty_add (default qty_zero (reserved !! r)) (qty_mul x k))
  | _, _ => reserved !! r
  end.
Proof.
  pose proof (lookup_range_partial_alter (λ r x o, match rq_Hard quota !! r with
    | None => o | Some _ => Some (qty_add (default qty_zero o) (qty_mul x k)) end) podReqs reserved r) as Hl.
  rewrite <- (foldl_ext' (reserve_step quota k) _ (go_range podReqs) reserved reserved) in Hl; [|clear Hl|done].
  - rewrite Hl. destruct (podReqs !! r); [|done]. by destruct (rq_Hard quota !! r).
  - intros m [r1 x1]. simpl. apply map_eq. intros i. unfold reserve_step. simpl.
    rewrite lookup_partial_alter. case_decide as Hi; [rewrite <- Hi|]; destruct (rq_Hard quota !! r1); try done.
    + by rewrite lookup_insert_eq.
    + by rewrite lookup_insert_ne.
Qed.

(** What [k] replicas of a pod reserve. *)
Definition pod_demand podReqs quota (r : string) (k : Z) : Z :=
  match podReqs !! r, rq_Hard quota !! r with Some x, Some _ => nano x * k | _, _ => 0 end.

Lemma reserved_after_update matching usages podReqs k q r :
  NoDup (rq_UID <$> matching) → (∀ q', q' ∈ matching → rq_UID q' = rq_UID q → q' = q) →
  reserved_of (updateUsages matching usages podReqs k) q r =
  reserved_of usages q r + (if decide (rq_UID q ∈ rq_UID <$> matching) then pod_demand podReqs q r k else 0).
Proof.
  revert usages. induction matching as [|q' matching IH]; intros usages Hnd Hinj.
  { rewrite decide_False by set_solver. simpl. lia. }
  simpl. apply NoDup_cons in Hnd as [Hq' Hnd]. rewrite IH; [|done|intros; apply Hinj; [by right|done]].
  unfold reserved_of at 1. rewrite lookup_insert. destruct (decide (rq_UID q' = rq_UID q)) as [Hu|Hu].
  - assert (q' = q) as -> by (apply Hinj; [left|done]).
    rewrite (decide_False (P := rq_UID q ∈ rq_UID <$> matching)) by done.
    rewrite (decide_True (P := rq_UID q ∈ rq_UID q :: _)) by left. simpl.
    rewrite lookup_reserve. unfold pod_demand, reserved_of. destruct (podReqs !! r), (rq_Hard q !! r); simpl; [|lia..].
    by rewrite nano_add, nano_mul, Z.add_0_r.
  - fold (reserved_of usages q r). destruct (decide (rq_UID q ∈ rq_UID <$> matching)) as [Hd|Hd].
    + rewrite decide_True by (by right). done.
    + rewrite decide_False by (intros [?|?]%elem_of_cons; [congruence|done]). done.
Qed.

(** ** What the allocation guarantees *)

Section allocated.
Context (c : Client) (w : W) (namespace : string) (quotas : list ResourceQuota).
Implicit Types (q : ResourceQuota) (b : CapacityBuffer) (bs : list CapacityBuffer).

(** What a buffer counts for in a quota, by the replicas in its status. *)
Definition demand q (r : string) b : Z :=
  match buffer_pod c w namespace b with
  | Some (pod, podReqs) =>
      if matches_quota pod q then pod_demand podReqs q r (Z.max 0 (default 0 (st_Replicas (buf_Status b)))) else 0
  | None => 0
  end.
Definition total_demand q (r : string) bs : Z := foldr (λ b n, demand q r b + n) 0 bs.

(** What is free of a quota before any buffer. *)
Definition free_quota q (r : string) (h : Quantity) : Z := nano h - nano (default qty_zero (rq_Used q !! r)).

(** The replicas of a buffer stay, or they are cut, with the condition that
    says so, to a number that one of its quotas does not let exceed after the
    buffers before it. *)
Definition granted b b' (before : list CapacityBuffer) : Prop :=
  st_Replicas (buf_Status b') = st_Replicas (buf_Status b) ∨
  ∃ current allowed, st_Replicas (buf_Status b) = Some current ∧ st_Replicas (buf_Status b') = Some allowed ∧
    0 ≤ allowed < current ∧ IsStatusConditionTrue (st_Conditions (buf_Status b')) LimitedByQuotasCondition = true ∧
    ∃ pod podReqs q r h x, buffer_pod c w namespace b = Some (pod, podReqs) ∧ q ∈ quotas ∧ matches_quota pod q = true ∧
      rq_Hard q !! r = Some h ∧ podReqs !! r = Some x ∧
      free_quota q r h - total_demand q r before < (allowed + 1) * nano x.

Record allocated bs usages (done : list CapacityBuffer) : Prop := {
  al_reserved q r : q ∈ quotas → reserved_of usages q r = total_demand q r done;
  al_bound q r h : q ∈ quotas → rq_Hard q !! r = Some h → total_demand q r done ≤ Z.max 0 (free_quota q r h);
  al_nonneg q r : q ∈ quotas → 0 ≤ total_demand q r done;
  al_length : length done = length bs;
  al_granted i b : bs !! i = Some b → ∃ b', done !! i = Some b' ∧ same_buffer b b' ∧ granted b b' (take i done)
}.

Lemma total_demand_snoc q r bs b : total_demand q r (bs ++ [b]) = total_demand q r bs + demand q r b.
Proof. unfold total_demand. rewrite foldr_app. simpl. induction bs as [|x bs IH]; simpl; lia. Qed.

Lemma uid_inj q q' : NoDup (rq_UID <$> quotas) → q ∈ quotas → q' ∈ quotas → rq_UID q = rq_UID q' → q = q'.
Proof.
  intros Hnd [i Hi]%list_elem_of_lookup [j Hj]%list_elem_of_lookup Hu.
  assert (i = j) as <- by (eapply (NoDup_lookup _ i j (rq_UID q) Hnd); rewrite list_lookup_fmap, ?Hi, ?Hj; simpl; congruence).
  congruence.
Qed.

Lemma granted_extend bs done (x y : CapacityBuffer) usages :
  allocated bs usages done → same_buffer x y → granted x y done →
  ∀ i b, (bs ++ [x]) !! i = Some b → ∃ b', (done ++ [y]) !! i = Some b' ∧ same_buffer b b' ∧ granted b b' (take i (done ++ [y])).
Proof.
  intros Hal Hs Hg i b' Hi. pose proof (al_length _ _ _ Hal) as Hlen.
  apply lookup_app_Some in Hi as [Hi|[Hle Hi]].
  - destruct (al_granted _ _ _ Hal i b' Hi) as (b'' & Hb'' & ? & ?). exists b''.
    assert (i < length done)%nat by (by apply lookup_lt_Some in Hb'').
    rewrite lookup_app_l, take_app_le by lia. done.
  - destruct (i - length bs)%nat as [|n] eqn:Hn; [|by destruct n]. simplify_eq/=. exists y.
    assert (i = length done) as -> by lia.
    rewrite lookup_app_r, Nat.sub_diag, take_app_length by lia. done.
Qed.

(** A status update of the quota condition keeps what the allocation reads. *)
Lemma limited_update b current allowed blocking now (lim : bool) :
  st_Replicas (buf_Status b) = Some current →
  let b' := if lim then MarkBufferAsLimitedByQuota b current allowed blocking now
            else UpdateBufferStatusLimitedByQuotas b false "" now in
  same_buffer b b' ∧ buffer_pod c w namespace b' = buffer_pod c w namespace b ∧
  st_Replicas (buf_Status b') = Some (if lim then allowed else current) ∧
  (lim = true → IsStatusConditionTrue (st_Conditions (buf_Status b')) LimitedByQuotasCondition = true).
Proof.
  intros Hr b'. split_and!.
  - destruct b, lim; done.
  - unfold b', buffer_pod. destruct lim; simpl; by rewrite Hr.
  - destruct lim; [done|]. by rewrite <- Hr.
  - intros ->. unfold b', MarkBufferAsLimitedByQuota, UpdateBufferStatusLimitedByQuotas, IsStatusConditionTrue. simpl.
    match goal with |- context [SetStatusCondition ?l ?n] => destruct (set_condition_self l n) as (cn & Hc & Hst & _) end.
    simpl in Hc, Hst. by rewrite Hc, Hst.
Qed.

Lemma allocate_step_inv bs b usages done errors now :
  NoDup (rq_UID <$> quotas) →
  (∀ pod podReqs q, buffer_pod c w namespace b = Some (pod, podReqs) → q ∈ quotas → countable q podReqs) →
  (∀ r, st_Replicas (buf_Status b) = Some r → r ≤ int32_max) →
  allocated bs usages done →
  let '(usages', done', _) := allocate_step c w namespace now quotas (usages, done, errors) b in
  allocated (bs ++ [b]) usages' done'.
Proof.
  intros Hnd Hcount H32 Hal. unfold allocate_step.
  destruct (buffer_pod c w namespace b) as [[pod podReqs]|] eqn:Hpod.
  2: { assert (∀ q r, demand q r b = 0) as Hd0 by (intros q r; unfold demand; by rewrite Hpod).
    split; try (intros q r; rewrite total_demand_snoc, Hd0, Z.add_0_r; apply Hal).
    - rewrite !length_app, (al_length _ _ _ Hal). done.
    - eapply granted_extend; [done|apply same_buffer_refl|by left]. }
  destruct (st_Replicas (buf_Status b)) as [current|] eqn:Hr.
  2: { unfold buffer_pod in Hpod. rewrite Hr in Hpod. destruct (negb _), (st_PodTemplateRef (buf_Status b)), (st_PodTemplateGeneration (buf_Status b)); done. }
  destruct (quota_loop_spec pod podReqs usages current quotas (mkQuotaLoop current [] [] errors)) as (Hle & Hmatch & Hfits & Hcase).
  { by apply H32. } { done. } { intros. by eapply Hcount. }
  { intros q r Hq. rewrite (al_reserved _ _ _ Hal) by done. by apply Hal. }
  set (st := foldl _ _ quotas) in *. simpl in Hle, Hmatch, Hcase.
  destruct (limited_update b current (ql_allowed st) (ql_blocking st) now (ql_allowed st <? current) Hr) as (Hsame & Hpod' & Hr' & Hlim).
  set (b' := if ql_allowed st <? current then _ else _) in *.
  assert (st_Replicas (buf_Status b') = Some (ql_allowed st)) as Hrep.
  { rewrite Hr'. destruct (Z.ltb_spec (ql_allowed st) current); [done|]. f_equal. lia. }
  assert (∀ q r, demand q r b' = if matches_quota pod q then pod_demand podReqs q r (Z.max 0 (ql_allowed st)) else 0) as Hdem.
  { intros q r. unfold demand. by rewrite Hpod', Hpod, Hrep. }
  assert (∀ q r, q ∈ quotas → 0 ≤ demand q r b') as Hdpos.
  { intros q r Hq. rewrite Hdem. destruct (matches_quota pod q); [|done]. unfold pod_demand.
    destruct (podReqs !! r) as [x|] eqn:Hx, (rq_Hard q !! r); try done.
    destruct (Hcount pod podReqs q eq_refl Hq r x Hx). nia. }
  split.
  - intros q r Hq. rewrite total_demand_snoc, Hdem, <- (al_reserved _ _ _ Hal) by done.
    assert (rq_UID q ∈ rq_UID <$> ql_matching st ↔ matches_quota pod q = true) as Hin.
    { rewrite Hmatch, list_elem_of_fmap. setoid_rewrite list_elem_of_filter. split.
      - intros (q' & Hu & Hm & Hq'). by rewrite (uid_inj q q').
      - intros. by exists q. }
    destruct (Z.ltb_spec 0 (ql_allowed st)) as [Hpos|].
    + rewrite reserved_after_update.
      * rewrite Z.max_r by lia. destruct (matches_quota pod q); [by rewrite decide_True by by apply Hin|].
        by rewrite decide_False by (by intros ?%Hin).
      * rewrite Hmatch. eapply sublist_NoDup; [exact Hnd|]. apply fmap_sublist, sublist_filter.
      * intros q' Hq' Hu. rewrite Hmatch in Hq'. apply list_elem_of_filter in Hq' as [_ Hq']. by apply uid_inj.
    + rewrite Z.max_l by lia. unfold pod_demand. destruct (matches_quota pod q); [|lia].
      destruct (podReqs !! r), (rq_Hard q !! r); lia.
  - intros q r h Hq Hh. rewrite total_demand_snoc, Hdem. pose proof (al_bound _ _ _ Hal q r h Hq Hh) as Hb.
    destruct (matches_quota pod q) eqn:Hm; [|lia]. unfold pod_demand. rewrite Hh.
    destruct (podReqs !! r) as [x|] eqn:Hx; [|lia].
    destruct (decide (nano x = 0)) as [->|Hnz]; [lia|].
    destruct (decide (0 < ql_allowed st)); [|rewrite Z.max_l by lia; lia].
    pose proof (Hfits q (ql_allowed st) Hq Hm ltac:(lia) r h x Hh Hx Hnz) as Hfit. unfold available in Hfit.
    fold (reserved_of usages q r) in Hfit. rewrite (al_reserved _ _ _ Hal) in Hfit by done. unfold free_quota. lia.
  - intros q r Hq. rewrite total_demand_snoc. pose proof (al_nonneg _ _ _ Hal q r Hq). specialize (Hdpos q r Hq). lia.
  - rewrite !length_app, (al_length _ _ _ Hal). done.
  - eapply granted_extend; [done|done|]. unfold granted. rewrite Hrep, Hr.
    destruct Hcase as [->|(H0' & q & Hq & Hm & r & h & x & Hh & Hx & Hav)]; [by left|].
    destruct (Z.ltb_spec (ql_allowed st) current) as [Hlt|]; [right|left; f_equal; lia].
    exists current, (ql_allowed st). split_and!; [done|done|lia|lia|by apply Hlim|].
    exists pod, podReqs, q, r, h, x. split_and!; [done..|]. unfold available in Hav.
    fold (reserved_of usages q r) in Hav. rewrite (al_reserved _ _ _ Hal) in Hav by done. done.
Qed.
End allocated.

(** The allocation of resource quotas never grants capacity buffers more
    than there is: when the quotas of a namespace could be listed, have distinct
    UIDs, requests are not negative and replicas are counted in their 32 and 64
    bits, then, whatever order the loops visit the maps in, what all the buffers
    together request, with the replicas their statuses say afterwards, of each
    resource of each quota that their pods match is at most what the quota has
    free, or nothing. Nothing but the status of a buffer changes, replicas never
    grow, and they are cut only as far as needed: a buffer whose replicas are
    cut says that it is limited, and one replica more would exceed one of its
    quotas after the buffers before it. *)
Theorem allocation_within_quotas c w namespace buffers now quotas :
  ListResourceQuotas c w namespace = Ok quotas →
  NoDup (rq_UID <$> quotas) →
  (∀ b pod podReqs q, b ∈ buffers → buffer_pod c w namespace b = Some (pod, podReqs) → q ∈ quotas → countable q podReqs) →
  (∀ b r, b ∈ buffers → st_Replicas (buf_Status b) = Some r → r ≤ int32_max) →
  let buffers' := (Allocate c w namespace buffers now).1 in
  (∀ q r h, q ∈ quotas → rq_Hard q !! r = Some h →
     total_demand c w namespace q r buffers' ≤ Z.max 0 (free_quota q r h)) ∧
  length buffers' = length buffers ∧
  (∀ i b, buffers !! i = Some b → ∃ b', buffers' !! i = Some b' ∧ same_buffer b b' ∧
     granted c w namespace quotas b b' (take i buffers')).
Proof.
  intros Hlist Hnd Hcount H32. unfold Allocate. rewrite Hlist.
  assert (∀ bs, (∀ b, b ∈ bs → b ∈ buffers) →
    let '(usages, done, _) := foldl (allocate_step c w namespace now quotas) (∅, [], []) bs in
    allocated c w namespace quotas bs usages done) as Hinv.
  { induction bs as [|b bs IH] using rev_ind; intros Hin.
    - simpl. split.
      + intros q r _. unfold reserved_of. rewrite lookup_empty. simpl. rewrite lookup_empty. apply nano_zero.
      + intros. unfold total_demand. simpl. lia.
      + intros. unfold total_demand. simpl. lia.
      + done.
      + intros i b. by rewrite lookup_nil.
    - rewrite foldl_app. simpl. specialize (IH ltac:(set_solver)).
      destruct (foldl _ _ bs) as [[usages done] errors].
      apply allocate_step_inv; [done|intros; eapply Hcount; [|done..]; set_solver|intros; eapply H32; [|done]; set_solver|done]. }
  specialize (Hinv buffers ltac:(done)).
  destruct (foldl _ _ buffers) as [[usages done] errors]. simpl.
  split_and!; [apply Hinv|by apply (al_length _ _ _ _ _ _ _ Hinv)|apply Hinv].
Qed.
End quotas.
