(* ===== verification/BufferController.v ===== *)
(** The controller of capacity buffers
    (src/pkg/capacitybuffer/controller/controller.go): what it reconciles and
    when, with the update of the statuses (updater/) and the cache of
    reconciliation times (metrics/); and the processors that inject the fake
    pods of the buffers into a scale-up and take them out of its status
    (src/pkg/processors/capacitybuffer), with their registry (fakepods/). *)
From stdpp Require Import prelude gmap strings pretty list numbers fin_maps.
From S2P Require Import Prelude Api Drain Framework Pdb ProvReq Utilization Similar Eviction CapacityBuffer BufferTranslation BufferQuotas.
Local Open Scope Z_scope.

Section controller.
Context `{GR : GoRange} `{QE : QuantityExact} `{SU : StatusConditionUpdate} {Rest W : Type} `{SB : SortSliceBy}.
Context (PodRequests : BufferPod Rest → gmap string Quantity)
  (templates_equal : PodTemplateSpec Rest → PodTemplateSpec Rest → bool) (labels_Parse : string → result string string)
  (NewRequirement : string → string → list string → result string (gmap string string → bool))
  (quantities_equal : gmap string Quantity → gmap string Quantity → bool).
Abbreviation Client := (CapacityBufferClient (Rest := Rest) (W := W)).
Implicit Types (c : Client) (w : W) (buffer : CapacityBuffer) (buffers : list CapacityBuffer) (now : Z).

(** ** The work queue: which namespace an event asks to reconcile *)

Inductive Event (A : Type) : Type := Added (obj : A) | Updated (old new : A) | Deleted (obj : A).
Arguments Added {A}. Arguments Updated {A}. Arguments Deleted {A}.

Definition enqueueNamespace (ns : string) : option string := if bool_decide (ns = "") then None else Some ns.

Definition on_buffer (e : Event CapacityBuffer) : option string :=
  match e with
  | Added b | Deleted b => enqueueNamespace (buf_Namespace b)
  | Updated old new =>
      if bool_decide (buf_ResourceVersion old = buf_ResourceVersion new) then enqueueNamespace (buf_Namespace new)
      else if negb (bool_decide (buf_Generation old = buf_Generation new)) then enqueueNamespace (buf_Namespace new)
      else None
  end.

(** A quota with its namespace. *)
Definition on_quota (e : Event (string * ResourceQuota)) : option string :=
  match e with
  | Added q | Deleted q => enqueueNamespace q.1
  | Updated old new =>
      if quantities_equal (rq_Hard old.2) (rq_Hard new.2) && quantities_equal (rq_Used old.2) (rq_Used new.2) then None
      else enqueueNamespace old.1
  end.

(** The indices of the buffer informer: the names a buffer is filed under. *)
Definition PodTemplateRefIndex buffer : list string := option_list (sp_PodTemplateRef (buf_Spec buffer)).
Definition ScalableRefIndex buffer : list string := option_list (ref_Name <$> sp_ScalableRef (buf_Spec buffer)).
Definition ByIndex (index : CapacityBuffer → list string) buffers (key : string) : list CapacityBuffer :=
  filter (λ b, key ∈ index b) buffers.

(** An object the buffers refer to. *)
Record ObjectMeta : Type := mkMeta { om_Namespace : string; om_Name : string; om_Generation : Z }.

Definition enqueueBuffersReferencingPodTemplate buffers (template : ObjectMeta) : option string :=
  (λ ib, buf_Namespace ib.2) <$> list_find (λ b, buf_Namespace b = om_Namespace template)
    (ByIndex PodTemplateRefIndex buffers (om_Name template)).

Definition refers_to (apiGroup kind : string) buffer : bool :=
  match sp_ScalableRef (buf_Spec buffer) with
  | Some ref => bool_decide (ref_Kind ref = kind) && bool_decide (ref_APIGroup ref = apiGroup)
  | None => false
  end.
Definition enqueueBuffersReferencingScalableObject buffers (object : ObjectMeta) (apiGroup kind : string) : option string :=
  (λ ib, buf_Namespace ib.2) <$> list_find (λ b, buf_Namespace b = om_Namespace object ∧ refers_to apiGroup kind b = true)
    (ByIndex ScalableRefIndex buffers (om_Name object)).

(** The handlers of pod templates and of scalable objects: an update that keeps
    the generation is ignored. *)
Definition on_object (enqueue : ObjectMeta → option string) (e : Event ObjectMeta) : option string :=
  match e with
  | Added o | Deleted o => enqueue o
  | Updated old new => if bool_decide (om_Generation old = om_Generation new) then None else enqueue new
  end.

(** ** The reconciliation *)

(** [ReconciliationCache]: when buffers were last reconciled, by UID. *)
Definition cache_Update (cache : gmap string Z) buffers (t : Z) : gmap string Z :=
  if bool_decide (buffers = []) then cache
  else foldl (λ cache buffer, <[buf_UID buffer := t]> cache) cache buffers.
Definition Prune (cache : gmap string Z) buffers : gmap string Z :=
  let existingBuffers : gset string := list_to_set (buf_UID <$> buffers) in
  foldl (λ cache kt, if bool_decide (kt.1 ∈ existingBuffers) then cache else delete kt.1 cache) cache (go_range cache).

(** The collector of the metric: the last time of a buffer and whether it is
    new; a buffer with conditions that is not cached is skipped. *)
Definition calculateBufferLastReconciliationTime buffer (snapshot : gmap string Z) : option (Z * bool) :=
  match snapshot !! buf_UID buffer with
  | Some t => Some (t, false)
  | None => if bool_decide (st_Conditions (buf_Status buffer) = []) then Some (buf_CreationTimestamp buffer, true) else None
  end.

Definition Update_step c (acc : W * list CapacityBuffer * list string) buffer : W * list CapacityBuffer * list string :=
  let '(w, updatedBuffers, errors) := acc in
  match UpdateCapacityBuffer c w buffer with
  | (w, Err err) => (w, updatedBuffers, errors ++ [err])
  | (w, Ok updatedBuffer) => (w, updatedBuffers ++ [updatedBuffer], errors)
  end.
(** [StatusUpdater.Update]. *)
Definition Update c w buffers : W * list CapacityBuffer * list string := foldl (Update_step c) (w, [], []) buffers.

(** Oldest first, and by name. *)
Definition buffer_less (i j : CapacityBuffer) : bool :=
  if bool_decide (buf_CreationTimestamp i = buf_CreationTimestamp j) then String.ltb (buf_Name i) (buf_Name j)
  else bool_decide (buf_CreationTimestamp i < buf_CreationTimestamp j).

(** The part between the filter and the update: the statuses to write. *)
Definition reconcile_buffers c (resolve : Resolver) w (namespace : string) buffers now :
    W * list CapacityBuffer * list string :=
  let filteredBuffers := sort_by buffer_less buffers in
  let '(w, filteredBuffers, translationErrors) :=
    combined_Translate (default_translators PodRequests templates_equal labels_Parse c resolve now) w filteredBuffers in
  let '(filteredBuffers, allocationErrors) := Allocate PodRequests NewRequirement c w namespace filteredBuffers now in
  (w, filteredBuffers, translationErrors ++ allocationErrors).

Definition reconcileNamespace c (resolve : Resolver) (strategiesToUse : list string) w (cache : gmap string Z)
    (namespace : string) now : W * gmap string Z * option string :=
  match ListCapacityBuffers c w namespace with
  | Err err => (w, cache, Some err)
  | Ok buffers =>
      let '(filteredBuffers, filteredOutBuffers) := strategy_Filter strategiesToUse buffers in
      let cache := cache_Update cache filteredOutBuffers now in
      if bool_decide (filteredBuffers = []) then (w, cache, None)
      else
        let '(w, filteredBuffers, errors) := reconcile_buffers c resolve w namespace filteredBuffers now in
        let '(w, updatedBuffers, updateErrors) := Update c w filteredBuffers in
        let cache := cache_Update cache updatedBuffers now in
        (w, cache, if bool_decide (errors ++ updateErrors = []) then None
                   else Some "encountered errors during reconciliation")
  end.

(** What becomes of a namespace taken from the queue. *)
Inductive QueueAction : Type := Forget | AddRateLimited.
Definition processNextItem c (resolve : Resolver) (strategiesToUse : list string) w (cache : gmap string Z) (key : string) now :
    W * gmap string Z * QueueAction :=
  let '(w, cache, err) := reconcileNamespace c resolve strategiesToUse w cache key now in
  (w, cache, match err with None => Forget | Some _ => AddRateLimited end).

(** ** The registry of fake pods *)

Definition GetCapacityBuffer (registry : gmap string CapacityBuffer) (fakePodUID : string) : option CapacityBuffer :=
  registry !! fakePodUID.
Definition SetCapacityBuffer (registry : gmap string CapacityBuffer) (fakePodUID : string) buffer : gmap string CapacityBuffer :=
  <[fakePodUID := buffer]> registry.
Definition UnsetCapacityBuffer (registry : gmap string CapacityBuffer) (fakePodUID : string) : gmap string CapacityBuffer :=
  delete fakePodUID registry.

(** ** The pod list processor, with a registry *)

Definition podTemplateGenerationChanged c w buffer : bool :=
  match st_PodTemplateRef (buf_Status buffer), st_PodTemplateGeneration (buf_Status buffer) with
  | Some ref, Some bufferTemplateGeneration =>
      match GetPodTemplate c w (buf_Namespace buffer) ref with
      | Err _ => false
      | Ok podTemplate => negb (bool_decide (tpl_Generation podTemplate = bufferTemplateGeneration))
      end
  | _, _ => false
  end.
Definition generation_Filter c w : list CapacityBuffer → list CapacityBuffer * list CapacityBuffer :=
  split_buffers (podTemplateGenerationChanged c w).

Definition filterBuffersProvStrategy (provStrategies : list string) buffers : list CapacityBuffer :=
  foldl (λ filteredBuffers buffer,
      match st_ProvisioningStrategy (buf_Status buffer) with
      | Some ps => if bool_decide (ps ∈ provStrategies) then filteredBuffers ++ [buffer] else filteredBuffers
      | None => filteredBuffers
      end) [] buffers.

Definition fake_pod buffer (samplePod : BufferPod Rest) (i : nat) : BufferPod Rest :=
  mkBufferPod (buf_Namespace buffer) ("capacity-buffer-" +:+ buf_Name buffer +:+ "-" +:+ pretty i) (bp_GenerateName samplePod)
    (buf_UID buffer +:+ "-" +:+ pretty i) (bp_Labels samplePod) (bp_Annotations samplePod) (bp_Finalizers samplePod)
    (bp_OwnerReferences samplePod) (bp_Spec samplePod).

Definition makeFakePods buffer (samplePodTemplate : PodTemplateSpec Rest) (podCount : Z) (forceSafeToEvictFakePods : bool) :
    list (BufferPod Rest) :=
  let pod := GetPodFromTemplate samplePodTemplate in
  let spec := bp_Spec pod in
  let annotations := <[CapacityBufferFakePodAnnotationKey := CapacityBufferFakePodAnnotationValue]> (bp_Annotations pod) in
  let annotations := if forceSafeToEvictFakePods then <[PodSafeToEvictKey := "true"]> annotations else annotations in
  let samplePod := mkBufferPod (bp_Namespace pod) (bp_Name pod) (bp_GenerateName pod) (bp_UID pod) (bp_Labels pod) annotations
    (bp_Finalizers pod) (bp_OwnerReferences pod ++ [buffer_owner buffer])
    (mkSpec "" (spec_Volumes spec) (Containers spec) (InitContainers spec) (spec_Resources spec) (PriorityClassName spec)
      (spec_Affinity spec) (spec_rest spec)) in
  fake_pod buffer samplePod <$> seq 1 (Z.to_nat podCount).

(** A status that changed is written; a failure is only logged. *)
Definition failed_provisioning c w buffer (reason message : string) now : W * CapacityBuffer :=
  let '(buffer, changed) := UpdateBufferStatusToFailedProvisioning buffer reason message now in
  (if changed then (UpdateCapacityBuffer c w buffer).1 else w, buffer).

Definition provision c (forceSafeToEvictFakePods : bool) w buffer now : W * CapacityBuffer * list (BufferPod Rest) :=
  match st_PodTemplateRef (buf_Status buffer), st_Replicas (buf_Status buffer),
        IsStatusConditionFalse (st_Conditions (buf_Status buffer)) ReadyForProvisioningCondition with
  | Some podTemplateName, Some replicas, false =>
      if replicas =? 0 then
        (failed_provisioning c w buffer "BufferIsEmpty" "CapacityBuffer has zero replicas" now, [])
      else
        match GetPodTemplate c w (buf_Namespace buffer) podTemplateName with
        | Err err =>
            (failed_provisioning c w buffer "FailedToGetPodTemplate"
               ("failed to get pod template with error: " +:+ api_text err) now, [])
        | Ok podTemplate =>
            let fakePods := makeFakePods buffer (tpl_Template podTemplate) replicas forceSafeToEvictFakePods in
            let buffer := UpdateBufferStatusToSuccessfullyProvisioning buffer "FakePodsInjected" now in
            ((UpdateCapacityBuffer c w buffer).1, buffer, fakePods)
        end
  | _, _, _ =>
      (failed_provisioning c w buffer "NotReadyForProvisioning" "CapacityBuffer is not ready for provisioning" now, [])
  end.

Definition updateCapacityBufferRegistry (registry : gmap string CapacityBuffer) (fakePods : list (BufferPod Rest)) buffer :
    gmap string CapacityBuffer :=
  foldl (λ registry fakePod, SetCapacityBuffer registry (bp_UID fakePod) buffer) registry fakePods.

Definition inject_step c (forceSafeToEvictFakePods : bool) now
    (acc : W * gmap string CapacityBuffer * list (BufferPod Rest)) buffer :
    W * gmap string CapacityBuffer * list (BufferPod Rest) :=
  let '(w, registry, totalFakePods) := acc in
  let '(w, buffer, fakePods) := provision c forceSafeToEvictFakePods w buffer now in
  (w, updateCapacityBufferRegistry registry fakePods buffer, totalFakePods ++ fakePods).

(** The buffers the processor provisions. *)
Definition buffers_to_inject c (provStrategies : list string) w buffers : list CapacityBuffer :=
  let buffers := filterBuffersProvStrategy provStrategies buffers in
  let buffers := (status_Filter {[ReadyForProvisioningCondition := ConditionTrue; ProvisioningCondition := ConditionTrue]} buffers).2 in
  (generation_Filter c w buffers).2.

Definition buffers_Process c (provStrategies : list string) (forceSafeToEvictFakePods : bool) w
    (registry : gmap string CapacityBuffer) (unschedulablePods : list (BufferPod Rest)) now :
    W * gmap string CapacityBuffer * list (BufferPod Rest) :=
  match ListCapacityBuffers c w "" with
  | Err _ => (w, registry, unschedulablePods)
  | Ok buffers =>
      let '(w, registry, totalFakePods) :=
        foldl (inject_step c forceSafeToEvictFakePods now) (w, registry, []) (buffers_to_inject c provStrategies w buffers) in
      (w, registry, unschedulablePods ++ totalFakePods)
  end.

(** ** The status processor *)

Definition is_fake_buffer_pod (pod : BufferPod Rest) : bool :=
  bool_decide (bp_Annotations pod !! CapacityBufferFakePodAnnotationKey = Some CapacityBufferFakePodAnnotationValue).

(** The pods kept and those filtered out. *)
Definition filterOutCapacityBuffersPod {T} (getPod : T → BufferPod Rest) (podsWrappers : list T) : list T * list T :=
  foldl (λ acc podsWrapper,
      if is_fake_buffer_pod (getPod podsWrapper) then (acc.1, acc.2 ++ [podsWrapper]) else (acc.1 ++ [podsWrapper], acc.2))
    ([], []) podsWrappers.

(** ** Reconciling a namespace *)

Lemma replicasFromPercentage_max p s : replicasFromPercentage p s ≤ int32_max.
Proof.
  unfold replicasFromPercentage. destruct (_ || _); [by vm_compute|].
  set (z := wrap32 (_ + 99)). assert (- 2 ^ 31 ≤ z ≤ int32_max) as Hz.
  { unfold z, wrap32, int32_max. pose proof (Z.mod_pos_bound (wrap32 (p * s) + 99 + 2 ^ 31) (2 ^ 32) ltac:(lia)).
    unfold wrap32 in *. lia. }
  clearbody z. unfold int32_max in *. pose proof (Z.quot_rem' z 100). pose proof (Z.rem_bound_abs z 100). lia.
Qed.

Lemma number_of_pods_max b podTemplate scalableReplicas n :
  getBufferNumberOfPods PodRequests b podTemplate scalableReplicas = Ok n →
  (∀ r, sp_Replicas (buf_Spec b) = Some r → r ≤ int32_max) → n ≤ int32_max.
Proof.
  unfold getBufferNumberOfPods, limitNumberOfPodsForResource, calculateMaxPodsFromLimits. cbv zeta. intros Hn Hr.
  set (replicas := match sp_Percentage _ with Some _ => _ | None => _ end) in Hn.
  assert (replicas ≤ int32_max) as Hrep.
  { unfold replicas. assert (match sp_Replicas (buf_Spec b) with Some r => Z.max 0 r | None => -1 end ≤ int32_max).
    { destruct (sp_Replicas (buf_Spec b)) as [r|]; [|by vm_compute]. specialize (Hr r eq_refl). unfold int32_max in *. lia. }
    destruct (sp_Percentage (buf_Spec b)) as [p|], scalableReplicas as [s|]; try done.
    pose proof (replicasFromPercentage_max p s). lia. }
  clearbody replicas. destruct (sp_Limits (buf_Spec b)) as [limits|].
  - set (l := go_range _) in Hn. assert ((foldl (limit_step limits) (int32_max, false) l).1 ≤ int32_max) as Hmax.
    { apply (foldl_inv (λ st, st.1 ≤ int32_max)); [done|]. intros [m f] [r q] _ Hm. unfold limit_step. simpl in *.
      destruct (_ <=? 0); [done|]. destruct (limits !! r); [|done]. destruct (_ <? 0); simpl; lia. }
    destruct (foldl _ _ l) as [m []]; [|done]. simpl in Hmax. destruct (0 <=? replicas); simplify_eq; lia.
  - destruct (0 <=? replicas); by simplify_eq.
Qed.

(** What is written of a buffer that names a template or an object. *)
Definition written b b' : Prop :=
  match st_Replicas (buf_Status b') with
  | Some n => IsStatusConditionTrue (st_Conditions (buf_Status b')) ReadyForProvisioningCondition = true ∧ 0 ≤ n ∧
      ∃ podTemplate scalableReplicas wanted,
        getBufferNumberOfPods PodRequests b podTemplate scalableReplicas = Ok wanted ∧ n ≤ wanted
  | None => IsStatusConditionFalse (st_Conditions (buf_Status b')) ReadyForProvisioningCondition = true
  end.

Lemma ready_kept c w namespace now quotas acc b :
  ∃ b', (allocate_step PodRequests NewRequirement c w namespace now quotas acc b).1.2 = acc.1.2 ++ [b'] ∧
    FindStatusCondition (st_Conditions (buf_Status b')) ReadyForProvisioningCondition =
    FindStatusCondition (st_Conditions (buf_Status b)) ReadyForProvisioningCondition.
Proof.
  unfold allocate_step. destruct acc as [[usages done] errors].
  destruct (buffer_pod _ _ _ _ _) as [[pod podReqs]|]; [|by exists b].
  destruct (st_Replicas (buf_Status b)) as [cur|]; [|by exists b]. simpl.
  eexists. split; [done|]. destruct (_ <? cur); simpl; by rewrite set_condition_other by done.
Qed.

Lemma allocation_keeps_ready c w namespace buffers now i b b' :
  buffers !! i = Some b → (Allocate PodRequests NewRequirement c w namespace buffers now).1 !! i = Some b' →
  FindStatusCondition (st_Conditions (buf_Status b')) ReadyForProvisioningCondition =
  FindStatusCondition (st_Conditions (buf_Status b)) ReadyForProvisioningCondition.
Proof.
  unfold Allocate. destruct (ListResourceQuotas c w namespace) as [quotas|]; [|by simpl; intros -> [= <-]]. intros Hb Hb'.
  assert (∀ bs, let '(_, done, _) := foldl (allocate_step PodRequests NewRequirement c w namespace now quotas) (∅, [], []) bs in
    Forall2 (λ b b', FindStatusCondition (st_Conditions (buf_Status b')) ReadyForProvisioningCondition =
      FindStatusCondition (st_Conditions (buf_Status b)) ReadyForProvisioningCondition) bs done) as Hall.
  { induction bs as [|x bs IH] using rev_ind; [constructor|]. rewrite foldl_app. simpl.
    destruct (ready_kept c w namespace now quotas (foldl (allocate_step PodRequests NewRequirement c w namespace now quotas) (∅, [], []) bs) x)
      as (x' & Hx & Hr).
    destruct (foldl _ _ bs) as [[usages done] errors]. destruct (allocate_step _ _ _ _ _ _ _ _ _) as [[u' d'] e'].
    simpl in *. subst d'. apply Forall2_app; [done|]. by constructor; [|constructor]. }
  specialize (Hall buffers). destruct (foldl _ _ buffers) as [[usages done] errors]. simpl in Hb'.
  by apply (Forall2_lookup_lr _ _ _ _ _ _ Hall Hb Hb').
Qed.

(** C38. A reconciliation writes statuses that the quotas of the namespace can
    bear: when the quotas are listed and have distinct UIDs, requests are not
    negative and counts stay in their 32 and 64 bits, then whatever the API
    server answers, what all the buffers of the namespace together request of a
    resource of a quota, by the replicas they are given, is at most what is
    free of it. Every buffer, oldest first, keeps all but its status; one that
    names a template or an object is ready, with no more pods than its spec
    asks for, or it is not ready and has no replicas. *)
Theorem reconciliation_within_quotas c resolve w namespace buffers now quotas :
  (∀ w, ListResourceQuotas c w namespace = Ok quotas) →
  NoDup (rq_UID <$> quotas) →
  (∀ w b pod podReqs q, buffer_pod PodRequests c w namespace b = Some (pod, podReqs) → q ∈ quotas → countable q podReqs) →
  (∀ b r, b ∈ buffers → sp_Replicas (buf_Spec b) = Some r ∨ st_Replicas (buf_Status b) = Some r → r ≤ int32_max) →
  let '(w', buffers', _) := reconcile_buffers c resolve w namespace buffers now in
  (∀ q r h, q ∈ quotas → rq_Hard q !! r = Some h →
     total_demand PodRequests NewRequirement c w' namespace q r buffers' ≤ Z.max 0 (free_quota q r h)) ∧
  Forall2 (λ b b', same_buffer b b' ∧
      (is_Some (sp_PodTemplateRef (buf_Spec b)) ∨ is_Some (sp_ScalableRef (buf_Spec b)) → written b b'))
    (sort_by buffer_less buffers) buffers'.
Proof.
  intros Hlist Hnd Hcount H32. unfold reconcile_buffers. set (sorted := sort_by buffer_less buffers).
  assert (∀ b r, b ∈ sorted → sp_Replicas (buf_Spec b) = Some r ∨ st_Replicas (buf_Status b) = Some r → r ≤ int32_max) as H32'
    by (intros b r Hb; apply H32; unfold sorted in Hb; by rewrite (sort_by_perm buffer_less buffers) in Hb).
  clearbody sorted. pose proof (translation_settles PodRequests templates_equal labels_Parse c resolve w sorted now) as Htr.
  destruct (combined_Translate _ w sorted) as [[w' translated] errs1]. simpl in Htr.
  assert (∀ i b b1, sorted !! i = Some b → translated !! i = Some b1 → ∀ r, st_Replicas (buf_Status b1) = Some r → r ≤ int32_max) as Ht32.
  { intros i b b1 Hb Hb1 r Hr. destruct (Forall2_lookup_lr _ _ _ _ _ _ Htr Hb Hb1) as [_ Hset].
    assert (b ∈ sorted) as Hin by (by eapply list_elem_of_lookup_2). case_bool_decide; [|subst b1; eapply H32'; eauto].
    unfold settled in Hset. rewrite Hr in Hset. destruct Hset as (_ & _ & _ & _ & t & s & Hn).
    eapply number_of_pods_max; [done|]. intros r' Hr'. eapply H32'; eauto. }
  pose proof (allocation_within_quotas PodRequests NewRequirement c w' namespace translated now quotas (Hlist w') Hnd
    (λ b pod podReqs q _, Hcount w' b pod podReqs q)) as Hal.
  destruct Hal as (Htotal & Hlen & Hgr).
  { intros b1 r [i Hi]%list_elem_of_lookup Hr. destruct (Forall2_lookup_r _ _ _ _ _ Htr Hi) as (b & Hb & _). by eapply Ht32. }
  pose proof (allocation_keeps_ready c w' namespace translated now) as Hready.
  destruct (Allocate _ _ c w' namespace translated now) as [final errs2]. simpl in *. split; [done|].
  apply Forall2_same_length_lookup_2; [by rewrite Hlen, (Forall2_length _ _ _ Htr)|].
  intros i b b' Hb Hb'. destruct (Forall2_lookup_l _ _ _ _ _ Htr Hb) as (b1 & Hb1 & Hs1 & Hset).
  destruct (Hgr i b1 Hb1) as (b2 & Hb2 & Hs2 & Hg). simplify_eq. specialize (Hready i b1 b' Hb1 Hb').
  split; [by eapply same_buffer_trans|]. intros Href. rewrite bool_decide_eq_true_2 in Hset by done.
  unfold settled in Hset. unfold written, IsStatusConditionTrue, IsStatusConditionFalse in *. rewrite Hready.
  destruct Hg as [->|(cur & allowed & Hcur & -> & ? & _)].
  - destruct (st_Replicas (buf_Status b1)) as [n|]; [|done]. destruct Hset as (? & _ & _ & ? & t & s & Hn).
    split_and!; [done..|]. exists t, s, n. split; [done|lia].
  - rewrite Hcur in Hset. destruct Hset as (? & _ & _ & ? & t & s & Hn). split_and!; [done|lia|].
    exists t, s, cur. split; [done|lia].
Qed.

(** ** What the events enqueue *)

(** No change of a referenced object is missed, and nothing else causes a
    reconciliation: an event about a pod template enqueues a namespace exactly
    when it is not an update of the same generation and some buffer of the
    template's namespace names it. *)
Theorem template_events_exact buffers e ns :
  on_object (enqueueBuffersReferencingPodTemplate buffers) e = Some ns ↔
  ∃ template, (e = Added template ∨ e = Deleted template ∨
      ∃ old, e = Updated old template ∧ om_Generation old ≠ om_Generation template) ∧
    ns = om_Namespace template ∧
    ∃ b, b ∈ buffers ∧ buf_Namespace b = ns ∧ sp_PodTemplateRef (buf_Spec b) = Some (om_Name template).
Proof.
  assert (∀ t, enqueueBuffersReferencingPodTemplate buffers t = Some ns ↔
    ns = om_Namespace t ∧ ∃ b, b ∈ buffers ∧ buf_Namespace b = ns ∧ sp_PodTemplateRef (buf_Spec b) = Some (om_Name t)) as Hq.
  { intros t. unfold enqueueBuffersReferencingPodTemplate, ByIndex, PodTemplateRefIndex. rewrite fmap_Some. split.
    - intros ([i b] & (Hb & Hns & _)%list_find_Some & ->). apply list_elem_of_lookup_2, list_elem_of_filter in Hb as [Hk Hb].
      simpl. split; [done|]. exists b. split_and!; [done..|].
      destruct (sp_PodTemplateRef (buf_Spec b)); simpl in Hk; [by apply list_elem_of_singleton in Hk as ->|by apply elem_of_nil in Hk].
    - intros (-> & b & Hb & Hns & Hr).
      destruct (list_find_elem_of (λ b, buf_Namespace b = om_Namespace t)
        (filter (λ b, om_Name t ∈ option_list (sp_PodTemplateRef (buf_Spec b))) buffers) b) as [[i b'] Hf]; [|done|].
      + apply list_elem_of_filter. rewrite Hr. split; [by left|done].
      + exists (i, b'). split; [done|]. by apply list_find_Some in Hf as (_ & <- & _). }
  destruct e as [t|old new|t]; simpl; rewrite ?Hq.
  - split; [intros (? & ?); exists t; eauto|]. intros (t' & [?|[?|(? & ? & _)]] & ?); by simplify_eq.
  - case_bool_decide as Hg.
    + split; [done|]. intros (t' & [?|[?|(? & ? & ?)]] & _); by simplify_eq.
    + rewrite Hq. split; [intros (? & ?); exists new; split; eauto 10|].
      intros (t' & [?|[?|(? & ? & _)]] & ?); by simplify_eq.
  - split; [intros (? & ?); exists t; eauto|]. intros (t' & [?|[?|(? & ? & _)]] & ?); by simplify_eq.
Qed.

(** ** What is injected *)

Lemma makeFakePods_fake b t n force p : p ∈ makeFakePods b t n force → is_fake_buffer_pod p = true.
Proof.
  unfold makeFakePods. intros (i & -> & _)%list_elem_of_fmap. unfold is_fake_buffer_pod. simpl.
  apply bool_decide_eq_true_2. destruct force; [rewrite lookup_insert_ne by done|]; by rewrite lookup_insert_eq.
Qed.

(** What one buffer adds: nothing, or as many pods as its status says, of its
    template. *)
Definition injected force b (part : list (BufferPod Rest)) : Prop :=
  part = [] ∨ ∃ podTemplate n, st_Replicas (buf_Status b) = Some n ∧ n ≠ 0 ∧
    part = makeFakePods b (tpl_Template podTemplate) n force ∧ length part = Z.to_nat n.

Lemma provision_injects c force w b now :
  let '(_, b', part) := provision c force w b now in
  injected force b part ∧ buf_UID b' = buf_UID b.
Proof.
  assert (∀ reason msg, buf_UID (failed_provisioning c w b reason msg now).2 = buf_UID b) as Hf.
  { intros. unfold failed_provisioning, UpdateBufferStatusToFailedProvisioning. by destruct (SetStatusCondition _ _). }
  unfold provision. destruct (st_PodTemplateRef (buf_Status b)) as [ref|], (st_Replicas (buf_Status b)) as [n|] eqn:Hn;
    try (destruct (IsStatusConditionFalse _ _));
    try (pose proof (Hf "NotReadyForProvisioning" "CapacityBuffer is not ready for provisioning");
         destruct (failed_provisioning _ _ _ _ _ _); by split; [left|]).
  destruct (Z.eqb_spec n 0) as [->|Hne].
  { pose proof (Hf "BufferIsEmpty" "CapacityBuffer has zero replicas"). destruct (failed_provisioning _ _ _ _ _ _). by split; [left|]. }
  destruct (GetPodTemplate c w _ _) as [t|e].
  - split; [|done]. right. exists t, n. split_and!; [done..|]. unfold makeFakePods. by rewrite length_fmap, length_seq.
  - pose proof (Hf "FailedToGetPodTemplate" ("failed to get pod template with error: " +:+ api_text e)).
    destruct (failed_provisioning _ _ _ _ _ _). by split; [left|].
Qed.

(** Every fake pod is registered with a buffer whose UID its own is made of. *)
Definition registered (registry : gmap string CapacityBuffer) (pod : BufferPod Rest) : Prop :=
  ∃ b i, GetCapacityBuffer registry (bp_UID pod) = Some b ∧ bp_UID pod = buf_UID b +:+ "-" +:+ pretty (i : nat).

Lemma register_all registry b (pods : list (BufferPod Rest)) :
  (∀ p, p ∈ pods → ∃ i : nat, bp_UID p = buf_UID b +:+ "-" +:+ pretty i) →
  (∀ p, registered registry p → registered (updateCapacityBufferRegistry registry pods b) p) ∧
  (∀ p, p ∈ pods → registered (updateCapacityBufferRegistry registry pods b) p).
Proof.
  revert registry. unfold updateCapacityBufferRegistry. induction pods as [|x pods IH]; intros registry Hp; simpl; [set_solver|].
  destruct (Hp x ltac:(left)) as [i Hi].
  destruct (IH (SetCapacityBuffer registry (bp_UID x) b)) as [Hkeep Hnew]; [intros; apply Hp; by right|].
  assert (∀ p, registered registry p → registered (SetCapacityBuffer registry (bp_UID x) b) p) as Hset.
  { intros p (b' & j & Hg & Hj). unfold registered, GetCapacityBuffer, SetCapacityBuffer in *.
    destruct (decide (bp_UID x = bp_UID p)) as [He|He].
    - exists b, i. rewrite He, lookup_insert_eq. split; [done|congruence].
    - exists b', j. by rewrite lookup_insert_ne. }
  split; [auto|]. intros p [->|Hin]%elem_of_cons; [|by apply Hnew]. apply Hkeep. exists b, i.
  unfold GetCapacityBuffer, SetCapacityBuffer. by rewrite lookup_insert_eq.
Qed.

Lemma inject_loop c force now bs : ∀ w registry total,
  (∀ p, p ∈ total → registered registry p) →
  let '(_, registry', total') := foldl (inject_step c force now) (w, registry, total) bs in
  (∃ parts, Forall2 (injected force) bs parts ∧ total' = total ++ concat parts) ∧
  (∀ p, p ∈ total' → registered registry' p).
Proof.
  induction bs as [|b bs IH]; intros w registry total Ht; simpl.
  { split; [|done]. exists []. by rewrite app_nil_r. }
  pose proof (provision_injects c force w b now) as Hp. destruct (provision c force w b now) as [[w1 b1] part].
  destruct Hp as [Hinj Huid].
  destruct (register_all registry b1 part) as [Hkeep Hnew].
  { intros p Hin. destruct Hinj as [->|(t & n & _ & _ & -> & _)]; [by apply elem_of_nil in Hin|].
    unfold makeFakePods in Hin. apply list_elem_of_fmap in Hin as (i & -> & _). exists i. simpl. by rewrite Huid. }
  specialize (IH w1 (updateCapacityBufferRegistry registry part b1) (total ++ part)).
  destruct (foldl _ _ bs) as [[w2 registry2] total2]. destruct IH as [(parts & Hparts & ->) Hreg].
  { intros p [Hin|Hin]%elem_of_app; auto. }
  split; [|done]. exists (part :: parts). split; [by constructor|]. simpl. by rewrite app_assoc.
Qed.

End controller.

(** ** Examples *)

Module ControllerExample.
#[local] Existing Instances SimilarExample.ql SimilarExample.qc BufferInstances.exact BufferInstances.conditions
  BufferInstances.conditions_update.
Import BufferInstances.

Definition reconciled : world * list CapacityBuffer * list string :=
  reconcile_buffers requests same_templates (λ s, Ok s) no_requirement client resolve start "ns" buffers 100.

(** The older buffer takes two of the two and a half cores left; the other one
    is limited to nothing. *)
Example older_first :
  (λ b, (buf_Name b, st_Replicas (buf_Status b))) <$> reconciled.1.2 = [("a"%string, Some 2); ("b"%string, Some 0)].
Proof. vm_compute. reflexivity. Qed.

Definition processed : world * gmap string CapacityBuffer * list (BufferPod ()) :=
  let ready := mkClient (Rest := ()) (W := world) (Some (λ _ _, Ok reconciled.1.2)) (buffersClient client) (Some kubernetes)
    None None (λ _, None) None in
  buffers_Process ready [ActiveProvisioningStrategy; ""%string] false reconciled.1.1 ∅ [] 200.

(** The strategy of a buffer that names none stays unset, and such a buffer is
    not injected; one that names the empty strategy gets the default. *)
Example unset_strategy_not_injected : processed.2 = [].
Proof. vm_compute. reflexivity. Qed.

Lemma all_countable w b pod podReqs q :
  buffer_pod requests client w "ns" b = Some (pod, podReqs) → q ∈ [quota] → countable q podReqs.
Proof.
  intros ->%buffer_pod_requests ->%list_elem_of_singleton.
  intros r x Hx. destruct (calculatePodRequests_elem _ _ _ _ Hx) as (r' & Hr). unfold requests in Hr.
  apply lookup_singleton_Some in Hr as [_ <-]. split; [vm_compute; discriminate|].
  intros h Hh _. change (({["requests.cpu"%string := 3000]} : gmap string Quantity) !! r = Some h) in Hh.
  apply lookup_singleton_Some in Hh as [<- <-]. vm_compute. discriminate.
Qed.

Lemma reconciliation_within_quotas_witness :
  total_demand requests no_requirement client reconciled.1.1 "ns" quota "requests.cpu" reconciled.1.2 ≤ 2500 * 10 ^ 6.
Proof.
  assert (∀ b r, b ∈ buffers → sp_Replicas (buf_Spec b) = Some r ∨ st_Replicas (buf_Status b) = Some r → r ≤ int32_max) as H32.
  { intros b r [->|[->|[]%elem_of_nil]%elem_of_cons]%elem_of_cons [Hr|Hr]; vm_compute in Hr; try discriminate Hr;
      injection Hr as <-; vm_compute; discriminate. }
  pose proof (reconciliation_within_quotas requests same_templates (λ s, Ok s) no_requirement client resolve start "ns"
    buffers 100 [quota] (λ w, eq_refl) (NoDup_singleton quota.(rq_UID)) all_countable H32) as H.
  fold reconciled in H. destruct reconciled as [[w' bs] errs]. destruct H as [H _].
  apply (H quota "requests.cpu"%string 3000); [left|reflexivity].
Defined.

(** A buffer that was translated and is ready. *)
Definition ready_buffer : CapacityBuffer :=
  set_status (buffer "a" 10 2) (mkBufferStatus (Some "t"%string) (Some 2) (Some 1) (Some ActiveProvisioningStrategy)
    [mkCond ReadyForProvisioningCondition ConditionTrue 0 0 "" ""]).
Definition ready_client : CapacityBufferClient (Rest := ()) (W := world) :=
  mkClient (Some (λ _ _, Ok [ready_buffer])) (buffersClient client) (Some kubernetes) None None (λ _, None) None.
Definition real_pod : BufferPod (H := SimilarExample.ql) () := mkBufferPod "ns" "p" "" "u" ∅ ∅ [] [] no_spec.

End ControllerExample.
